(* ===== verification/_CoqProject ===== *)
-Q . S2P
Prelude.v
FaultTypes.v
Debounce.v
FaultEvents.v
FaultQueries.v
Snapshots.v
Rosbags.v
FaultStorage.v
SqlConnection.v
SqliteStorage.v
SqliteSpec.v
SqliteReports.v
SqliteMethods.v
SqliteCaptures.v
SqliteRecordings.v
SqliteRefinement.v
SqliteFailures.v
SqliteRestart.v
BagRules.v
BagRulesSpec.v
RosbagCapture.v
RosbagCaptureSpec.v
RosbagQuota.v
PatternMatcher.v
CorrelationTypes.v
CorrelationEngine.v
EngineInvariant.v
EngineBehaviour.v
ThresholdResolver.v
CaptureThreadPool.v
FaultManagerNode.v
FaultManagerSpec.v
FaultManagerRequests.v
AuditLog.v
AuditLogSpec.v
AuditLogHistory.v
AuditLogTampering.v
FlatHashMap.v
FlatHashMapSpec.v
SlotStore.v
SlotStoreSpec.v
EntityCache.v
EntityCacheSpec.v
EntityMembers.v
LockManager.v
LockSpec.v
Subscriptions.v
LocalFilter.v
AlarmStateMachine.v
DataPointSuggest.v
Json.v
FaultTriggers.v
FaultTriggersSpec.v
UpdateManager.v
UpdateManagerSpec.v
AssetIdentity.v
Classification.v
EntityMerger.v
EntityMergerSpec.v
LruCache.v
AuthPaths.v
AuthManager.v
AuthSpec.v
TriggerConditions.v
TriggerManager.v
TriggerManagerSpec.v
TriggerDispatchSpec.v
FaultWitnesses.v
StorageWitnesses.v
WatchdogGate.v
NodeDeath.v
LifecycleExpectation.v
WatchdogPlugin.v
NodeTrackerSpec.v
NodeDeathSpec.v
LifecycleExpectationSpec.v
LifecycleDetectorSpec.v
WatchdogSpec.v
WatchdogWitnesses.v
GatewayWitnesses.v
