(* ===== verification/Prelude.v ===== *)
(** * ros2_medkit: a verification library

    ros2_medkit turns a ROS 2 system into a SOVD diagnostics server.  Nodes
    report faults through the fault reporter, which filters them locally; the
    fault manager debounces, stores and correlates them; the gateway keeps a
    cache of the discovered entities, serves it over HTTP and arbitrates access
    with locks; bridges and plugins feed faults from other protocols.  This
    library models the stateful core of these parts as executable functions on
    explicit states, translated from the C++ sources, and proves what they
    promise.  Paths below are relative to the packages under src/src.

    ** Parts, files and sources

    Shared: [Prelude.v] (machine integers, binary64 doubles through
    [SpecFloat], maps listed in key order, list lemmas, the [medkit] hint
    database and tactics).

    Fault manager, ros2_medkit_fault_manager/src/fault_storage.cpp and its
    header.  Every method of [InMemoryFaultStorage] holds one mutex for its
    whole body, so each is one function on the record [InMemoryFaultStorage].
    - [FaultTypes.v]: the records, message constants and plain setters.
    - [Debounce.v]: the counter clamp, [compute_debounce_status],
      [sanitize_debounce_config]; an abstract debouncer they implement.
    - [FaultEvents.v]: [report_fault_event] with its branches, [clear_fault],
      timer confirmation, reclassification, the near-miss series, the queries.
    - [FaultQueries.v]: what listing, clearing, the timer and re-raising do.
    - [Snapshots.v]: value captures with their cap, freeze-frames.
    - [Rosbags.v]: links from faults to recordings, their cap, deletion and
      unlinking of bags, the storage total.  [std::filesystem::remove_all] is
      the list of paths handed to it.
    - [FaultStorage.v]: the backend as a step relation over all its
      state-changing methods, and its invariant on reachable states.

    The persistent backend, sqlite_fault_storage.cpp.
    - [SqlConnection.v]: a connection whose statements run, fail to prepare or
      stop with an error, its transactions, and the string arrays kept in columns.
    - [SqliteStorage.v]: tables, schema upgrades and every method as its
      statements in order.  The order in which SQLite returns rows without an
      ORDER BY, the parser behind [json_each] and the outcome of each statement
      are arguments.
    - [SqliteSpec.v] (what a run of statements computes), [SqliteReports.v],
      [SqliteMethods.v], [SqliteCaptures.v] and [SqliteRecordings.v]: each
      method against its in-memory counterpart.
      [SqliteRefinement.v] puts them together for sequences of calls,
      [SqliteFailures.v] has failing statements, [SqliteRestart.v] reopening.

    The audit log, fault_audit_log.cpp.
    - [AuditLog.v]: tables with their triggers, append, rotation, restart,
      reading and verification over a connection; SHA-256 and the JSON form of a
      string are arguments.  [AuditLogSpec.v]: the hash chain over a list of
      events and rotation.  [AuditLogHistory.v]: runs of appends and restarts.
      [AuditLogTampering.v]: what an accepting verification implies.

    The black-box recorder, rosbag_capture.cpp, over the storage.
    - [BagRules.v]: choice of backend and topics, the entity scope, ring buffer,
      claimed history, bag names, quota.  [BagRulesSpec.v]: what they guarantee.
    - [RosbagCapture.v]: the recorder, the storage and the bags on disk; a
      confirmation (capture thread) and the work of the executor (messages, the
      post-fault timer, stop) are program counters between the sections that
      hold a mutex, and the outcome of each I/O call is an input of the step.
      Bags named by a parameter ([unlucky]) may also have their removal, the
      decision about their row or the end of their storing fail, or be touched
      from outside.
    - [RosbagCaptureSpec.v]: which bags are on disk at any moment.
      [RosbagQuota.v]: which bags the quota removes.

    Correlation, ros2_medkit_fault_manager/src/correlation.
    - [PatternMatcher.v]: wildcard patterns, the regular expressions generated
      from them, the part of [std::regex] these use, and the pattern cache.
    - [CorrelationTypes.v]: configuration, spellings, [validate_config].
    - [CorrelationEngine.v]: [process_fault], [process_clear],
      [cleanup_expired] and the queries.  [EngineInvariant.v] has the invariant
      of its maps, [EngineBehaviour.v] what reports and clears do, with the runs
      in which the tables drift apart.

    The node, ros2_medkit_fault_manager/src: its services and timers over the
    parts above.
    - [ThresholdResolver.v]: entity_threshold_resolver.cpp, the repair of the
      overrides at start-up and [resolve_config].
    - [CaptureThreadPool.v]: capture_thread_pool.cpp as a step relation over
      enqueues, workers and the shutdown.
    - [FaultManagerNode.v]: the report, clear, list, get and per-entity handlers
      and the two timers of fault_manager_node.cpp, and the activation of the
      audit log, in a state monad with exceptions.  The storage answers as the
      in-memory backend does, and any call of it may throw instead, as those of
      the SQLite backend can.  [FaultManagerSpec.v] has triples for it and what
      subscribers and the audit log get to know from the start of a node on,
      [FaultManagerRequests.v] validation and the list services.

    Gateway, ros2_medkit_gateway/include/ros2_medkit_gateway/core and src/core.
    - [FlatHashMap.v], [FlatHashMapSpec.v]: util/flat_hash_map.hpp, the table
      entry by entry with its probe loops, and its refinement to a finite map.
    - [SlotStore.v], [SlotStoreSpec.v]: util/slot_store.hpp and
      [ThreadSafeEntityCache::reconcile].
    - [EntityCache.v], [EntityCacheSpec.v]: models/thread_safe_entity_cache.cpp.
      Its hash maps are finite maps, which the table refines.
      [EntityMembers.v] has [get_members] and [validate].
    - [LockManager.v], [LockSpec.v]: managers/lock_manager.cpp.  The manager
      sees the cache through the class [EntityDirectory], of which the cache is
      an instance.
    - [Subscriptions.v]: managers/subscription_manager.cpp, its methods as the
      sections they run under the map mutex and the state mutexes, and a step
      relation that interleaves the sections of concurrent calls.

    - [Json.v]: JSON documents as the sources inspect them, and the class
      [JsonText] of their text form.
    - [DataPointSuggest.v]: data_point_suggest.hpp.  [FaultTriggers.v] and
      [FaultTriggersSpec.v]: fault_trigger_engine.cpp; a poll is its sections
      (snapshot, fetches, dispatch, fold), interleaved with requests.
    - [UpdateManager.v], [UpdateManagerSpec.v]: managers/update_manager.cpp and
      providers/update_types.hpp.  Package states are on a heap that the map and
      the background tasks point into; a task is a program counter between its
      sections, and the calls the backend sees are recorded.
    - [AssetIdentity.v]: discovery/models/asset_identity.hpp and
      discovery/identity_merge.hpp.
    - [Classification.v]: aggregation/classification.cpp.
      [EntityMerger.v], [EntityMergerSpec.v]: aggregation/entity_merger.cpp and
      the merge loop of src/aggregation/aggregation_manager.cpp.
    - [LruCache.v]: util/bounded_lru_cache.hpp.
    - [AuthPaths.v], [AuthManager.v], [AuthSpec.v]: auth/auth_manager.cpp,
      auth_config.cpp, auth_middleware.cpp and the requirement policies.  The
      JWT library is the class [Jwt], its documented behaviour [JwtLaws].
    - [TriggerConditions.v], [TriggerManager.v]: condition_evaluator.hpp,
      managers/trigger_manager.cpp and the event stream of
      http/handlers/trigger_handlers.cpp.  Trigger states are on a heap; methods
      are split where they release a mutex, and a step relation interleaves
      requests, the worker of the notifier and streams.  [TriggerManagerSpec.v]
      has its invariant, [TriggerDispatchSpec.v] what one change does.

    Edges.
    - [LocalFilter.v]: ros2_medkit_fault_reporter/src/local_filter.cpp.
    - [AlarmStateMachine.v]: ros2_medkit_opcua/alarm_state_machine.hpp.

    The graph watchdog, ros2_medkit_graph_watchdog, a gateway plugin that looks
    for nodes that vanish or are not active.
    - [WatchdogGate.v]: reliability_gate.cpp, lifecycle_watcher.cpp and the
      warm-up: which nodes exist, their lifecycle labels and how they left.
      Answers of GetState, the read budget and failing subscriptions are inputs.
    - [NodeDeath.v]: node_liveness_tracker.hpp, the suppressors,
      aggregated_fault.hpp and node_death_detector.cpp.
    - [LifecycleExpectation.v]: lifecycle_expectation_tracker.hpp and
      lifecycle_expectation_detector.cpp.
    - [WatchdogPlugin.v]: graph_watchdog_plugin.cpp, the configuration and the
      tick that feeds the gate and drives the two detectors.
    - [NodeTrackerSpec.v], [NodeDeathSpec.v]: liveness tracker and presence
      detector; [LifecycleExpectationSpec.v], [LifecycleDetectorSpec.v]: required
      nodes; [WatchdogSpec.v]: the plugin.

    [FaultWitnesses.v], [StorageWitnesses.v], [WatchdogWitnesses.v] and
    [GatewayWitnesses.v] apply the theorems that have hypotheses to concrete
    states and runs.

    ** What is shown

    - Debouncing: reports on a live fault, of any severity, follow an abstract
      saturating debouncer with hysteresis and immediate confirmation; a burst as long as the threshold band confirms
      from any state, a shorter one never leaves HEALED; [occurrence_count]
      counts exactly the edges; a cleared fault re-raises as a new cycle.
    - Storage: one invariant over all methods; the bounded near-miss series is a
      suffix of the unbounded one; captures are kept or dropped whole, oldest
      first; bags are unlinked exactly when their last link goes; the queries
      return exactly what they should, in order.
    - Persistence: on every sequence of calls on which the two sources promise
      the same ([call_ok]) the SQLite backend answers as the in-memory one, ties
      in any order; runs show what differs on other calls; a call whose
      statement fails throws and leaves the tables alone where it uses a
      transaction; any number of processes that reopen the file find everything
      but the settings.
    - Audit log: whatever statements fail, but the reading of the head at a
      restart, the rows are the chain over the reported events less a sealed
      prefix, verification accepts them, and it
      accepts nothing else under the same head and anchors unless two hashed
      texts collide; runs show a restart that loses the head and writes that the
      triggers do not stop.
    - Recordings: under every interleaving of confirmations with messages, the
      timer, clears and the shutdown, and whatever write, open or storage call
      fails, a bag is on disk exactly when a row names it or one party holds it,
      but for the unlucky bags, which harm no others; the quota removes
      whole bags, oldest first, no more than needed; pruning drops the oldest
      messages only, a bag claims no history it lacks and its name leaves room
      for the files inside; runs show an orphaned bag, a lost scope, a stored
      bag removed and a message that misses its bag.
    - Correlation: matching is glob matching whatever is cached; validation
      accepts exactly the well-formed configurations; under a valid one pending
      clusters, their index and representatives, root causes and muted symptoms
      stay consistent with each other and with the rules; symptoms, cluster activation and clears
      do exactly what the rules say.
    - Entity cache: table and slot store refine finite maps, every loop
      terminates within its fuel, no slot is used after being freed; lookups
      answer for the last discovery, derived indexes never go stale; member
      resolution is exact and terminates on cyclic hierarchies; [validate]
      reports exactly the ids shared between kinds.
    - Node: malformed requests have no effect; a subscriber of the event stream
      never shows a fault that is over, and shows every confirmed one when
      nothing is muted, and an exception leaves the node only if a storage call
      threw or a closed audit log could not be written; a complete audit log
      replays to the stored statuses; lists hide
      exactly the muted faults; overrides resolve by longest prefix to valid
      configurations; the capture pool loses no job silently.
    - Subscriptions: under every interleaving each subscription issued leaves
      the table once and is reported once.
    - Locks: acquisition, release, extension and access follow their conditions
      exactly; an unbreakable lock cannot be displaced before it expires; the
      two lock tables agree.
    - Trigger rules: however requests and polls interleave, the faults asserted
      are those of the latched rules; a restart restores rules and latches; the
      suggestions for a misspelt data point are closest by edit distance, which
      is the least number of edits.
    - Updates: the backend sees a well-formed life of every package and no task
      outlives its state, unless deletions of one package overlap or one follows
      the shutdown, in which case a run shows what goes wrong.
    - Peers: the parent references used for routing are acyclic and the search
      for cycles terminates; merged entities, routes and remapped hosts are
      exactly the stated ones; nameplates survive their JSON form and merge, also
      with provenance that peers relay, to a value no later source outranks.
    - Access: exactly the entitled requests pass; a login grants the rights of
      its role until the token expires; revocation is final for every token
      that does not outlive its refresh token; path patterns are globs.
    - Triggers: a change settles exactly the triggers of its collection, by a
      specification in terms of their fields and the values before and after;
      under every interleaving, also after a restart, the dispatch index files
      exactly the triggers of the table and events are queued and taken in
      order; streams of one-shot triggers send nothing, since firing closes them
      before they drain; runs show a subscription that outlives its trigger and
      an id that is reused after a restart.
    - The bounded cache implements the list of entries by recency.
    - Graph watchdog: a watched node that is gone for longer than the grace is
      reported on every tick, by name or in a count of real deaths; a reported
      node is really gone; a recorded clean shutdown is never reported where
      suppression is on, past the cap at most in the count; and the retention
      window the plugin predicts is the one its
      detector needs.  While the cap is not hit, what is said of a required node
      is what two clocks over its readings say; a clear means that every required
      node reads active or is reported as unmeasured; runs show a silenced node
      that is counted, a snapshot that cannot be read and a node that is counted
      as gone on the tick it returns.
    - Edges: the filter is an exact sliding-window counter; the alarm machine is
      a latch over the event stream.

    ** Integers, time, fuel

    [int32_t] counters are [Z] with [wrap_i32]; theorems that need it assume
    thresholds that leave room for one step ([room_i32]).  [uint32_t] counts
    saturate or wrap as written.  The sequence numbers of recording links and the
    row ids of SQLite are not wrapped.  Cluster, lock and trigger counters are 64-bit
    and theorems that need fresh ids bound the number of operations by 2^64.
    Clock readings are arguments in nanoseconds, one per reading; in the node
    they, the outcomes of audit writes and the storage calls that throw are
    streams indexed by a counter of the interactions, and the theorems hold for all streams.  [double]
    arithmetic is computed on binary64 specification floats.  A request is
    checked at one clock reading, and the clock of the access manager does not go
    back between calls.
    Probe loops take the table size as fuel, as their [for] bound does;
    [rehash]'s placement loop too, which suffices because a free entry exists;
    [insert_with] recurses at most once after a growth, so fuel 2 suffices;
    [pow2_loop] doubles at most 63 times; [evict_captures] drops at least one
    row per round, so the row count suffices.  [get_members] recurses at most
    once per component or area it has not seen, so one more than the number of
    slots suffices.  The depth-first search over parent references follows
    each edge once, so one more than the number of edges suffices.  The access
    counter of the LRU cache is 64-bit, its theorem bounds the number of
    operations.  The miss and departure counters of the watchdog are 32-bit; its
    theorems bound the ticks, departures or sightings of a run by [int32_max].
    The table theorems assume fewer
    than 2^61 entries, which makes the double comparison of the load exact
    enough and doubling safe.

    ** Not modelled

    Node start-up (but for the first audit record) and parameters, SQLite itself (its statements are functions
    on tables; a ROLLBACK always undoes), files of older schemas (the migrations
    are modelled, and change nothing on a present one), the snapshot and rosbag services, the
    capture of snapshots, the subscriptions of the recorder with their QoS and
    discovery retries, its storage probe and the rosbag2 writer (a bag is the
    list of its messages), HTTP handlers and the plugins not named above, the
    clients that fetch from peers, cryptography of tokens, yaml-cpp parsing, the
    capacity bookkeeping of the entity cache and its aggregation readers, the
    request handlers of triggers and the queue of the change notifier; of the
    watchdog its status documents, warning texts, tick thread and executors, and
    the detectors for parameters, QoS and orphaned endpoints.
    Allocation failure and exceptions thrown by containers are outside the
    model.  Regular expressions beyond the generated ones are not interpreted.

    ** Left

    Stateful code that would fit beside these parts, in this order: rate
    limiting, the change notifier, the aggregation readers of the entity cache,
    the trigger store, beacon hints, the other detectors of the watchdog, the
    manifest validator. *)

From Stdlib Require Export Ascii ZArith Lia SpecFloat.
From stdpp Require Export sorting pretty numbers strings gmap base tactics list.

(** ** Machine integers *)

Declare Scope medkit_scope.
Delimit Scope medkit_scope with medkit.

Definition int32_min : Z := -2147483648.
Definition int32_max : Z := 2147483647.
Definition uint32_max : Z := 4294967295.
Definition int64_min : Z := -9223372036854775808.
Definition int64_max : Z := 9223372036854775807.

(** [int32_t] arithmetic: the result of the exact operation brought back into
    the signed 32-bit range. *)
Definition wrap_i32 (z : Z) : Z := (z + 2147483648) `mod` 4294967296 - 2147483648.

(** [static_cast<uint32_t>]. *)
Definition wrap_u32 (z : Z) : Z := z `mod` 4294967296.

(** [uint64_t] and [size_t] arithmetic. *)
Definition wrap_u64 (z : Z) : Z := z `mod` 18446744073709551616.

Notation "a +ᵢ b" := (wrap_i32 (a + b)) (at level 50, left associativity) : medkit_scope.
Notation "a -ᵢ b" := (wrap_i32 (a - b)) (at level 50, left associativity) : medkit_scope.
Open Scope medkit_scope.

Definition in_i32 (z : Z) : Prop := (int32_min ≤ z ≤ int32_max)%Z.
Definition in_u32 (z : Z) : Prop := (0 ≤ z ≤ uint32_max)%Z.

Lemma wrap_i32_id z : in_i32 z → wrap_i32 z = z.
Proof.
  unfold in_i32, int32_min, int32_max, wrap_i32. intros H.
  rewrite Z.mod_small; lia.
Qed.

Lemma wrap_i32_range z : in_i32 (wrap_i32 z).
Proof.
  unfold in_i32, int32_min, int32_max, wrap_i32.
  pose proof (Z.mod_pos_bound (z + 2147483648) 4294967296). lia.
Qed.

Lemma wrap_u32_id z : in_u32 z → wrap_u32 z = z.
Proof. unfold in_u32, uint32_max, wrap_u32. intros H. apply Z.mod_small; lia. Qed.

(** ** Binary64 doubles

    [double] values are the executable binary64 specification floats of the
    Standard Library (53-bit significand, exponents below 1024). *)

Abbreviation double := spec_float.

Definition f64_of_Z (z : Z) : double := binary_normalize 53 1024 z 0 false.
Definition f64_mul (x y : double) : double := SFmul 53 1024 x y.
Definition f64_leb (x y : double) : bool := SFleb x y.
Definition f64_add (x y : double) : double := SFadd 53 1024 x y.
Definition f64_div (x y : double) : double := SFdiv 53 1024 x y.

(** Conversion of a [double] to an integer type that can hold it: truncation. *)
Definition f64_trunc (x : double) : Z :=
  match x with
  | S754_finite s m e =>
      let a := if (0 <=? e)%Z then Z.shiftl (Z.pos m) e else Z.shiftr (Z.pos m) (- e) in
      if s then - a else a
  | _ => 0
  end%Z.
Definition f64_zero : double := S754_zero false.

#[global] Instance double_eq_dec : EqDecision double.
Proof. solve_decision. Defined.

(** ** [std::map] and [std::set] with [std::string] keys

    Maps and sets are [gmap string] and [gset string]; a range-for over one
    visits the keys in increasing byte order. *)

Definition key_le {V} (x y : string * V) : Prop := String.le x.1 y.1.

#[global] Instance key_le_dec {V} (x y : string * V) : Decision (key_le x y).
Proof. unfold key_le. apply _. Defined.

#[global] Instance key_le_trans {V} : Transitive (@key_le V).
Proof. intros x y z. unfold key_le. apply transitivity. Qed.

#[global] Instance key_le_total {V} : Total (@key_le V).
Proof. intros x y. unfold key_le. apply (total String.le). Qed.

(** The visit order of a range-for over a [std::map]. *)
Definition map_entries {V} (m : gmap string V) : list (string * V) :=
  merge_sort key_le (map_to_list m).

(** The visit order of a range-for over a [std::set]. *)
Definition set_entries (s : gset string) : list string :=
  merge_sort String.le (elements s).

Lemma map_entries_perm {V} (m : gmap string V) : map_entries m ≡ₚ map_to_list m.
Proof. apply merge_sort_Permutation. Qed.

Lemma elem_of_map_entries {V} (m : gmap string V) k v :
  (k, v) ∈ map_entries m ↔ m !! k = Some v.
Proof. rewrite map_entries_perm. apply elem_of_map_to_list. Qed.

Lemma map_entries_sorted {V} (m : gmap string V) : StronglySorted key_le (map_entries m).
Proof. apply StronglySorted_merge_sort; apply _. Qed.

Lemma NoDup_map_entries_keys {V} (m : gmap string V) : NoDup (map_entries m).*1.
Proof. rewrite map_entries_perm. apply NoDup_fst_map_to_list. Qed.

Lemma NoDup_map_entries {V} (m : gmap string V) : NoDup (map_entries m).
Proof. eapply NoDup_fmap_1, NoDup_map_entries_keys. Qed.

Lemma length_map_entries {V} (m : gmap string V) : length (map_entries m) = size m.
Proof. by rewrite map_entries_perm, length_map_to_list. Qed.

Lemma set_entries_perm (s : gset string) : set_entries s ≡ₚ elements s.
Proof. apply merge_sort_Permutation. Qed.

Lemma elem_of_set_entries (s : gset string) x : x ∈ set_entries s ↔ x ∈ s.
Proof. rewrite set_entries_perm. apply elem_of_elements. Qed.

Lemma NoDup_set_entries (s : gset string) : NoDup (set_entries s).
Proof. rewrite set_entries_perm. apply NoDup_elements. Qed.

Lemma set_entries_sorted (s : gset string) : StronglySorted String.le (set_entries s).
Proof. apply StronglySorted_merge_sort; apply _. Qed.

(** ** Folds *)

Lemma foldl_preserves {A B} (P : A → Prop) (f : A → B → A) (l : list B) (a : A) :
  (∀ a b, P a → P (f a b)) → P a → P (foldl f a l).
Proof. intros Hf. revert a. induction l as [|b l IH]; intros a Ha; simpl; auto. Qed.

Lemma lookup_foldl_delete {V} (l : list string) (m : gmap string V) k :
  foldl (λ m s, delete s m) m l !! k = if bool_decide (k ∈ l) then None else m !! k.
Proof.
  revert m. induction l as [|x l IH]; intros m; cbn [foldl]; [done|].
  rewrite IH. destruct (decide (k = x)) as [->|Hne].
  - rewrite (bool_decide_eq_true_2 (x ∈ x :: l)) by left. case_match; [done|].
    apply lookup_delete_eq.
  - rewrite lookup_delete_ne by done. by rewrite (bool_decide_ext (k ∈ l) (k ∈ x :: l)) by set_solver.
Qed.

(** ** Sorting with a [bool] comparator

    [std::stable_sort] with comparator [lt]: insertion keeps equal elements in
    input order.  [std::sort] is the same function where the comparator is total
    on the elements present; where it is not, the elements are first put in an
    arbitrary order, a parameter, so that ties come out in any order. *)

Section StableSort.
Context {A : Type} (lt : A → A → bool).

Fixpoint sort_insert (x : A) (l : list A) : list A :=
  match l with
  | [] => [x]
  | y :: l' => if lt y x then y :: sort_insert x l' else x :: y :: l'
  end.

Fixpoint stable_sort (l : list A) : list A :=
  match l with
  | [] => []
  | x :: l' => sort_insert x (stable_sort l')
  end.

Lemma sort_insert_perm x l : sort_insert x l ≡ₚ x :: l.
Proof.
  induction l as [|y l IH]; simpl; [done|].
  destruct (lt y x); [|done]. rewrite IH. apply perm_swap.
Qed.

Lemma stable_sort_perm l : stable_sort l ≡ₚ l.
Proof.
  induction l as [|x l IH]; simpl; [done|]. by rewrite sort_insert_perm, IH.
Qed.

Lemma elem_of_stable_sort x l : x ∈ stable_sort l ↔ x ∈ l.
Proof. by rewrite stable_sort_perm. Qed.

(** [le x y]: [y] is not strictly before [x]. *)
Definition sort_le (x y : A) : Prop := lt y x = false.

(** The order laws are needed on the elements being sorted only. *)
Context (D : A → Prop).
Context (lt_asym : ∀ x y, D x → D y → lt x y = true → lt y x = false).
Context (le_trans : ∀ x y z, D x → D y → D z → sort_le x y → sort_le y z → sort_le x z).

Lemma sort_insert_sorted x l :
  D x → Forall D l → StronglySorted sort_le l → StronglySorted sort_le (sort_insert x l).
Proof.
  intros Hx HD Hl. induction Hl as [|y l Hl IH Hall]; simpl; [by repeat constructor|].
  apply Forall_cons in HD as [Hy HD]. destruct (lt y x) eqn:E.
  - constructor; [by apply IH|]. rewrite sort_insert_perm.
    constructor; [by apply lt_asym|done].
  - repeat constructor; try done.
    rewrite Forall_forall in Hall, HD |- *. intros z Hz.
    by eapply (le_trans x y z); [..|exact E|]; auto.
Qed.

Lemma stable_sort_sorted l : Forall D l → StronglySorted sort_le (stable_sort l).
Proof.
  induction 1 as [|x l Hx HD IH]; simpl; [constructor|].
  apply sort_insert_sorted; [done| |done]. by rewrite stable_sort_perm.
Qed.

(** Sorting the same elements gives the same keys in the same order, whatever the
    order of the input. *)
Lemma stable_sort_keys {K} (f : A → K) (R : relation K) `{!AntiSymm eq R} l k :
  (∀ x y, D x → D y → sort_le x y → R (f x) (f y)) → Forall D l → l ≡ₚ k →
  f <$> stable_sort l = f <$> stable_sort k.
Proof.
  intros Hf Hl Hp. assert (Forall D k) as Hk by by rewrite <-Hp.
  assert (∀ l, Forall D l → StronglySorted R (f <$> stable_sort l)) as Hs.
  { clear l k Hl Hp Hk. intros l Hl. pose proof (stable_sort_sorted l Hl) as Hs. rewrite <-(stable_sort_perm l) in Hl.
    induction Hs as [|x l' Hs IH Hall]; cbn; [constructor|]. apply Forall_cons in Hl as [Hx Hl]. constructor; [auto|].
    rewrite Forall_fmap. apply Forall_forall. intros y Hy. rewrite Forall_forall in Hall, Hl. apply Hf; auto. }
  apply (StronglySorted_unique R); [auto..|]. by rewrite !stable_sort_perm, Hp.
Qed.

Lemma stable_sort_id l : StronglySorted sort_le l → stable_sort l = l.
Proof.
  induction 1 as [|x l Hl IH Hall]; simpl; [done|]. rewrite IH. destruct Hall as [|y l Hy _]; simpl; [done|].
  unfold sort_le in Hy. by rewrite Hy.
Qed.
End StableSort.

Lemma StronglySorted_weaken {A} (R S : relation A) l :
  (∀ x y, R x y → S x y) → StronglySorted R l → StronglySorted S l.
Proof.
  intros H. induction 1; constructor; [done|]. by eapply Forall_impl; [|apply H].
Qed.

Lemma StronglySorted_filter {A} (R : relation A) (P : A → Prop) `{∀ x, Decision (P x)} l :
  StronglySorted R l → StronglySorted R (filter P l).
Proof.
  induction 1 as [|x l Hl IH Hall]; [constructor|].
  rewrite filter_cons. case_decide; [|done]. constructor; [done|].
  rewrite Forall_forall in Hall |- *. intros y Hy.
  apply list_elem_of_filter in Hy as [_ Hy]. by apply Hall.
Qed.

Lemma NoDup_fmap_sublist {A B} (f : A → B) (l k : list A) :
  l `sublist_of` k → NoDup (f <$> k) → NoDup (f <$> l).
Proof.
  induction 1 as [|x l k Hs IH|x l k Hs IH]; rewrite ?fmap_cons; [done|..];
    rewrite NoDup_cons; intros [Hx Hk].
  - apply NoDup_cons. split; [|by apply IH]. intros Hin. apply Hx.
    apply list_elem_of_fmap in Hin as (y & -> & Hy). apply list_elem_of_fmap_2.
    by eapply elem_of_sublist.
  - by apply IH.
Qed.

Section Filter.
Context {A : Type} (P Q : A → Prop) `{∀ x, Decision (P x)} `{∀ x, Decision (Q x)}.

Lemma filter_all (l : list A) : (∀ x, x ∈ l → P x) → filter P l = l.
Proof.
  induction l as [|x l IH]; intros Hl; [done|].
  rewrite filter_cons_True by (apply Hl; left). f_equal. apply IH. intros y Hy.
  apply Hl. by right.
Qed.

Lemma filter_none (l : list A) : (∀ x, x ∈ l → ¬ P x) → filter P l = [].
Proof.
  induction l as [|x l IH]; intros Hl; [done|].
  rewrite filter_cons_False by (apply Hl; left). apply IH. intros y Hy. apply Hl. by right.
Qed.

Lemma filter_ext_elem (l : list A) : (∀ x, x ∈ l → P x ↔ Q x) → filter P l = filter Q l.
Proof.
  induction l as [|x l IH]; intros Hl; [done|].
  rewrite !filter_cons. rewrite IH by (intros y Hy; apply Hl; by right).
  assert (P x ↔ Q x) by (apply Hl; left).
  do 2 case_decide; naive_solver.
Qed.

Lemma filter_filter_comm (l : list A) : filter P (filter Q l) = filter Q (filter P l).
Proof. rewrite !list_filter_filter. apply list_filter_iff. naive_solver. Qed.

Lemma length_filter_lt (l : list A) x : x ∈ l → ¬ P x → length (filter P l) < length l.
Proof.
  intros Hx HP. induction l as [|y l IH]; [by apply elem_of_nil in Hx|].
  apply elem_of_cons in Hx as [<-|Hx].
  - rewrite filter_cons_False by done. simpl. pose proof (length_filter P l). lia.
  - rewrite filter_cons. specialize (IH Hx). case_decide; simpl; lia.
Qed.
End Filter.

Lemma NoDup_fmap_filter {A B} (f : A → B) (P : A → Prop) `{∀ x, Decision (P x)} l :
  NoDup (f <$> l) → NoDup (f <$> filter P l).
Proof.
  intros Hl. induction l as [|x l IH]; [done|].
  rewrite fmap_cons, NoDup_cons in Hl. destruct Hl as [Hx Hl].
  rewrite filter_cons. case_decide; [|by apply IH].
  rewrite fmap_cons. apply NoDup_cons. split; [|by apply IH].
  intros Hin. apply Hx. rewrite list_elem_of_fmap in Hin |- *.
  destruct Hin as (y & -> & Hy). exists y. split; [done|].
  by apply list_elem_of_filter in Hy as [_ ?].
Qed.

(** ** Keeping the newest [n] entries of a series *)

Definition last_n {A} (n : nat) (l : list A) : list A := drop (length l - n) l.

Lemma length_last_n {A} n (l : list A) : length (last_n n l) = n `min` length l.
Proof. unfold last_n. rewrite length_drop. lia. Qed.

Lemma last_n_all {A} n (l : list A) : length l ≤ n → last_n n l = l.
Proof. intros H. unfold last_n. by replace (length l - n) with 0 by lia. Qed.

Lemma last_n_last_n {A} n m (l : list A) : n ≤ m → last_n n (last_n m l) = last_n n l.
Proof.
  intros H. unfold last_n. rewrite drop_drop, length_drop.
  f_equal. lia.
Qed.

Lemma last_n_app {A} n (l k : list A) :
  last_n n (last_n n l ++ k) = last_n n (l ++ k).
Proof.
  destruct (decide (length l ≤ n)) as [Hle|Hgt]; [by rewrite (last_n_all n l)|].
  unfold last_n at 2.
  rewrite <- (last_n_last_n n (n + length k) (l ++ k)) by lia.
  f_equal. unfold last_n. rewrite length_app, drop_app_le by lia.
  f_equal. f_equal. lia.
Qed.

Lemma elem_of_last_n {A} n (l : list A) x : x ∈ last_n n l → x ∈ l.
Proof. unfold last_n. intros H. rewrite <- (take_drop (length l - n) l). set_solver. Qed.

(** ** Decidable equality of strings as a boolean *)

Definition str_eqb (s t : string) : bool := bool_decide (s = t).

Infix "=?ₛ" := str_eqb (at level 70) : medkit_scope.

Lemma str_eqb_eq s t : (s =?ₛ t) = true ↔ s = t.
Proof. apply bool_decide_eq_true. Qed.

Lemma str_eqb_neq s t : (s =?ₛ t) = false ↔ s ≠ t.
Proof. apply bool_decide_eq_false. Qed.

Lemma str_eqb_refl s : (s =?ₛ s) = true.
Proof. by apply str_eqb_eq. Qed.

Lemma str_eqb_spec s t : reflect (s = t) (s =?ₛ t).
Proof. apply bool_decide_reflect. Qed.

(** [std::isalnum] in the "C" locale. *)
Definition isalnum (c : ascii) : bool :=
  let n := N_of_ascii c in
  ((48 <=? n) && (n <=? 57) || (65 <=? n) && (n <=? 90) || (97 <=? n) && (n <=? 122))%N.

(** ** Prefixes and suffixes of strings *)

Lemma append_nil_r (s : string) : s +:+ "" = s.
Proof. induction s as [|c s IH]; [done|]. exact (f_equal (String c) IH). Qed.

Lemma substring_0_app s t : String.substring 0 (String.length s) (s +:+ t) = s.
Proof. induction s as [|c s IH]; [by destruct t|]. exact (f_equal (String c) IH). Qed.

Lemma substring_0_all s : String.substring 0 (String.length s) s = s.
Proof. rewrite <- (append_nil_r s) at 2. apply substring_0_app. Qed.

Lemma substring_0_eq s t : String.substring 0 (String.length s) t = s → ∃ u, t = s +:+ u.
Proof.
  revert t. induction s as [|c s IH]; intros t; [by exists t|].
  destruct t as [|d t]; [done|]. simpl. intros [= -> H]. destruct (IH t H) as [u ->]. by exists u.
Qed.

Lemma length_append (s t : string) : String.length (s +:+ t) = (String.length s + String.length t)%nat.
Proof. induction s as [|c s IH]; [done|]. exact (f_equal S IH). Qed.

Lemma get_append (s t : string) : String.get (String.length s) (s +:+ t) = String.get 0 t.
Proof. induction s as [|c s IH]; [done|exact IH]. Qed.

Lemma string_split n s :
  (n ≤ String.length s)%nat → ∃ a b, s = a +:+ b ∧ String.length a = n.
Proof.
  revert n. induction s as [|c s IH]; intros n Hn; simpl in *.
  - exists "", "". split; [done|]. simpl. lia.
  - destruct n as [|n]; [by exists "", (String c s)|].
    destruct (IH n ltac:(lia)) as (a & b & -> & <-). by exists (String c a), b.
Qed.

Lemma substring_app_r a b m : String.substring (String.length a) m (a +:+ b) = String.substring 0 m b.
Proof. induction a as [|c a IH]; [done|exact IH]. Qed.

(** The elements of a list separated by commas. *)
Fixpoint join_comma (l : list string) : string :=
  match l with
  | [] => ""
  | [x] => x
  | x :: l' => x +:+ ", " +:+ join_comma l'
  end.

(** ** Lists without repeated keys *)

Lemma NoDup_fmap_elem {A B} (f : A → B) (l : list A) x y :
  NoDup (f <$> l) → x ∈ l → y ∈ l → f x = f y → x = y.
Proof.
  intros Hnd [i Hi]%list_elem_of_lookup [j Hj]%list_elem_of_lookup Heq.
  assert (i = j) as ->; [|congruence].
  eapply NoDup_lookup; [done| |]; rewrite list_lookup_fmap; [by rewrite Hi|].
  rewrite Hj. cbn. by rewrite Heq.
Qed.

(** ** Automation *)

Create HintDb medkit discriminated.
#[export] Hint Resolve str_eqb_refl NoDup_map_entries_keys NoDup_set_entries : medkit.

(** Turns the boolean tests of the hypotheses into propositions. *)
Ltac bool_simpl :=
  repeat match goal with
  | H : (_ && _) = true |- _ => apply andb_true_iff in H as [? ?]
  | H : (_ && _) = false |- _ => apply andb_false_iff in H as [?|?]
  | H : (_ || _) = false |- _ => apply orb_false_iff in H as [? ?]
  | H : (_ || _) = true |- _ => apply orb_true_iff in H as [?|?]
  | H : negb _ = true |- _ => apply negb_true_iff in H
  | H : negb _ = false |- _ => apply negb_false_iff in H
  | H : str_eqb _ _ = true |- _ => apply str_eqb_eq in H
  | H : str_eqb _ _ = false |- _ => apply str_eqb_neq in H
  | H : (_ =? _)%Z = true |- _ => apply Z.eqb_eq in H
  | H : (_ =? _)%Z = false |- _ => apply Z.eqb_neq in H
  | H : (_ <? _)%Z = true |- _ => apply Z.ltb_lt in H
  | H : (_ <? _)%Z = false |- _ => apply Z.ltb_ge in H
  | H : (_ <=? _)%Z = true |- _ => apply Z.leb_le in H
  | H : (_ <=? _)%Z = false |- _ => apply Z.leb_gt in H
  end.
