(* ===== verification/FaultTypes.v ===== *)
(** * Data of the fault manager

    The [Fault.msg] constants, the debounce configuration and the records the
    in-memory storage backend keeps (fault_storage.hpp), together with the
    storage state itself and its plain setters. *)

From S2P Require Import Prelude.
Open Scope Z_scope.

(** ** Fault.msg / ReportFault.srv constants *)

Definition STATUS_PREFAILED : string := "PREFAILED".
Definition STATUS_PREPASSED : string := "PREPASSED".
Definition STATUS_CONFIRMED : string := "CONFIRMED".
Definition STATUS_HEALED : string := "HEALED".
Definition STATUS_CLEARED : string := "CLEARED".

Definition SEVERITY_CRITICAL : Z := 3.

Definition EVENT_FAILED : Z := 0.
Definition EVENT_PASSED : Z := 1.

(** ** Configuration *)

Record DebounceConfig := mkDebounceConfig {
  confirmation_threshold : Z;
  healing_enabled : bool;
  healing_threshold : Z;
  critical_immediate_confirm : bool;
  auto_confirm_after_sec : double;
}.

(** The in-class initialisers. *)
Definition default_DebounceConfig : DebounceConfig :=
  {| confirmation_threshold := -1;
     healing_enabled := false;
     healing_threshold := 3;
     critical_immediate_confirm := true;
     auto_confirm_after_sec := f64_zero |}.

(** ** Fault state.  Times are the nanosecond counts of one ROS clock. *)

Record FaultState := mkFaultState {
  fault_code : string;
  severity : Z;
  description : string;
  first_occurred : Z;
  last_occurred : Z;
  occurrence_count : Z;
  status : string;
  reporting_sources : gset string;
  debounce_counter : Z;
  last_failed_time : Z;
  last_passed_time : Z;
}.

(** The wire message [ros2_medkit_msgs::msg::Fault]. *)
Record FaultMsg := mkFaultMsg {
  msg_fault_code : string;
  msg_severity : Z;
  msg_description : string;
  msg_first_occurred : Z;
  msg_last_occurred : Z;
  msg_last_passed : Z;
  msg_occurrence_count : Z;
  msg_status : string;
  msg_reporting_sources : list string;
}.

Definition to_msg (st : FaultState) : FaultMsg :=
  {| msg_fault_code := fault_code st;
     msg_severity := severity st;
     msg_description := description st;
     msg_first_occurred := first_occurred st;
     msg_last_occurred := last_occurred st;
     msg_last_passed := last_passed_time st;
     msg_occurrence_count := occurrence_count st;
     msg_status := status st;
     msg_reporting_sources := set_entries (reporting_sources st) |}.

(** [state.status = s] *)
Definition with_status (s : string) (st : FaultState) : FaultState :=
  {| fault_code := fault_code st;
     severity := severity st;
     description := description st;
     first_occurred := first_occurred st;
     last_occurred := last_occurred st;
     occurrence_count := occurrence_count st;
     status := s;
     reporting_sources := reporting_sources st;
     debounce_counter := debounce_counter st;
     last_failed_time := last_failed_time st;
     last_passed_time := last_passed_time st |}.

(** ** Evidence rows *)

Record SnapshotData := mkSnapshotData {
  snap_fault_code : string;
  snap_topic : string;
  snap_message_type : string;
  snap_data : string;
  snap_captured_at_ns : Z;
  snap_capture_id : Z;
}.

Record FreezeFrameData := mkFreezeFrameData {
  ff_fault_code : string;
  ff_data : string;
  ff_captured_at_ns : Z;
}.

Record NearMissRecord := mkNearMissRecord {
  nm_fault_code : string;
  nm_occurred_at_ns : Z;
  nm_debounce_counter : Z;
  nm_confirmation_threshold : Z;
  nm_severity : Z;
  nm_source_id : string;
  nm_resulting_status : string;
}.

Record RosbagFileInfo := mkRosbagFileInfo {
  rb_fault_code : string;
  rb_recording_id : string;
  rb_file_path : string;
  rb_format : string;
  rb_duration_sec : double;
  rb_size_bytes : Z;
  rb_created_at_ns : Z;
}.

Record RosbagRow := mkRosbagRow {
  row_info : RosbagFileInfo;
  row_seq : Z;
}.

#[global] Instance SnapshotData_eq_dec : EqDecision SnapshotData.
Proof. solve_decision. Defined.
#[global] Instance RosbagFileInfo_eq_dec : EqDecision RosbagFileInfo.
Proof. solve_decision. Defined.
#[global] Instance RosbagRow_eq_dec : EqDecision RosbagRow.
Proof. solve_decision. Defined.
#[global] Instance NearMissRecord_eq_dec : EqDecision NearMissRecord.
Proof. solve_decision. Defined.

(** ** The state of [InMemoryFaultStorage] *)

Record InMemoryFaultStorage := mkStorage {
  faults : gmap string FaultState;
  snapshots : list SnapshotData;
  freeze_frames : gmap string FreezeFrameData;
  rosbag_files : list RosbagRow;
  rosbag_seq : Z;
  max_rosbags_per_fault : nat;
  near_misses : gmap string (list NearMissRecord);
  config : DebounceConfig;
  max_snapshots_per_fault : nat;
  retain_snapshots_on_clear : bool;
  max_near_misses_per_fault : nat;
}.

(** A freshly constructed backend. *)
Definition empty_storage : InMemoryFaultStorage :=
  {| faults := ∅;
     snapshots := [];
     freeze_frames := ∅;
     rosbag_files := [];
     rosbag_seq := 0;
     max_rosbags_per_fault := 1;
     near_misses := ∅;
     config := default_DebounceConfig;
     max_snapshots_per_fault := 0;
     retain_snapshots_on_clear := false;
     max_near_misses_per_fault := 0 |}.

(** ** Field updates of the storage *)

Definition with_faults (f : gmap string FaultState) (s : InMemoryFaultStorage) :=
  {| faults := f; snapshots := snapshots s; freeze_frames := freeze_frames s;
     rosbag_files := rosbag_files s; rosbag_seq := rosbag_seq s;
     max_rosbags_per_fault := max_rosbags_per_fault s; near_misses := near_misses s;
     config := config s; max_snapshots_per_fault := max_snapshots_per_fault s;
     retain_snapshots_on_clear := retain_snapshots_on_clear s;
     max_near_misses_per_fault := max_near_misses_per_fault s |}.

Definition with_snapshots (l : list SnapshotData) (s : InMemoryFaultStorage) :=
  {| faults := faults s; snapshots := l; freeze_frames := freeze_frames s;
     rosbag_files := rosbag_files s; rosbag_seq := rosbag_seq s;
     max_rosbags_per_fault := max_rosbags_per_fault s; near_misses := near_misses s;
     config := config s; max_snapshots_per_fault := max_snapshots_per_fault s;
     retain_snapshots_on_clear := retain_snapshots_on_clear s;
     max_near_misses_per_fault := max_near_misses_per_fault s |}.

Definition with_freeze_frames (m : gmap string FreezeFrameData) (s : InMemoryFaultStorage) :=
  {| faults := faults s; snapshots := snapshots s; freeze_frames := m;
     rosbag_files := rosbag_files s; rosbag_seq := rosbag_seq s;
     max_rosbags_per_fault := max_rosbags_per_fault s; near_misses := near_misses s;
     config := config s; max_snapshots_per_fault := max_snapshots_per_fault s;
     retain_snapshots_on_clear := retain_snapshots_on_clear s;
     max_near_misses_per_fault := max_near_misses_per_fault s |}.

Definition with_rosbags (l : list RosbagRow) (seq : Z) (s : InMemoryFaultStorage) :=
  {| faults := faults s; snapshots := snapshots s; freeze_frames := freeze_frames s;
     rosbag_files := l; rosbag_seq := seq;
     max_rosbags_per_fault := max_rosbags_per_fault s; near_misses := near_misses s;
     config := config s; max_snapshots_per_fault := max_snapshots_per_fault s;
     retain_snapshots_on_clear := retain_snapshots_on_clear s;
     max_near_misses_per_fault := max_near_misses_per_fault s |}.

Definition with_near_misses (m : gmap string (list NearMissRecord)) (s : InMemoryFaultStorage) :=
  {| faults := faults s; snapshots := snapshots s; freeze_frames := freeze_frames s;
     rosbag_files := rosbag_files s; rosbag_seq := rosbag_seq s;
     max_rosbags_per_fault := max_rosbags_per_fault s; near_misses := m;
     config := config s; max_snapshots_per_fault := max_snapshots_per_fault s;
     retain_snapshots_on_clear := retain_snapshots_on_clear s;
     max_near_misses_per_fault := max_near_misses_per_fault s |}.

(** ** Configuration setters and getters of the backend *)

Definition set_debounce_config (c : DebounceConfig) (s : InMemoryFaultStorage) :=
  {| faults := faults s; snapshots := snapshots s; freeze_frames := freeze_frames s;
     rosbag_files := rosbag_files s; rosbag_seq := rosbag_seq s;
     max_rosbags_per_fault := max_rosbags_per_fault s; near_misses := near_misses s;
     config := c; max_snapshots_per_fault := max_snapshots_per_fault s;
     retain_snapshots_on_clear := retain_snapshots_on_clear s;
     max_near_misses_per_fault := max_near_misses_per_fault s |}.

Definition get_debounce_config (s : InMemoryFaultStorage) : DebounceConfig := config s.

Definition set_max_snapshots_per_fault (max_count : nat) (s : InMemoryFaultStorage) :=
  {| faults := faults s; snapshots := snapshots s; freeze_frames := freeze_frames s;
     rosbag_files := rosbag_files s; rosbag_seq := rosbag_seq s;
     max_rosbags_per_fault := max_rosbags_per_fault s; near_misses := near_misses s;
     config := config s; max_snapshots_per_fault := max_count;
     retain_snapshots_on_clear := retain_snapshots_on_clear s;
     max_near_misses_per_fault := max_near_misses_per_fault s |}.

Definition set_retain_snapshots_on_clear (retain : bool) (s : InMemoryFaultStorage) :=
  {| faults := faults s; snapshots := snapshots s; freeze_frames := freeze_frames s;
     rosbag_files := rosbag_files s; rosbag_seq := rosbag_seq s;
     max_rosbags_per_fault := max_rosbags_per_fault s; near_misses := near_misses s;
     config := config s; max_snapshots_per_fault := max_snapshots_per_fault s;
     retain_snapshots_on_clear := retain;
     max_near_misses_per_fault := max_near_misses_per_fault s |}.

Definition retains_snapshots_on_clear (s : InMemoryFaultStorage) : bool :=
  retain_snapshots_on_clear s.

Definition set_max_rosbags_per_fault (max_count : nat) (s : InMemoryFaultStorage) :=
  {| faults := faults s; snapshots := snapshots s; freeze_frames := freeze_frames s;
     rosbag_files := rosbag_files s; rosbag_seq := rosbag_seq s;
     max_rosbags_per_fault := max_count; near_misses := near_misses s;
     config := config s; max_snapshots_per_fault := max_snapshots_per_fault s;
     retain_snapshots_on_clear := retain_snapshots_on_clear s;
     max_near_misses_per_fault := max_near_misses_per_fault s |}.

Definition set_near_miss_bound (max_count : nat) (s : InMemoryFaultStorage) :=
  {| faults := faults s; snapshots := snapshots s; freeze_frames := freeze_frames s;
     rosbag_files := rosbag_files s; rosbag_seq := rosbag_seq s;
     max_rosbags_per_fault := max_rosbags_per_fault s; near_misses := near_misses s;
     config := config s; max_snapshots_per_fault := max_snapshots_per_fault s;
     retain_snapshots_on_clear := retain_snapshots_on_clear s;
     max_near_misses_per_fault := max_count |}.
