(* ===== verification/Debounce.v ===== *)
(** * The debounce state machine

    [clamp_debounce_counter], [compute_debounce_status], [is_near_miss] and
    [sanitize_debounce_config] of fault_storage.cpp, and the bounded-counter
    automaton they implement: a counter kept in
    [[confirmation_threshold, healing_threshold]] and a status with a hysteresis
    latch. *)

From S2P Require Import Prelude FaultTypes.
Open Scope Z_scope.

Definition clamp_debounce_counter (counter : Z) (config : DebounceConfig) : Z :=
  if counter <? confirmation_threshold config then confirmation_threshold config
  else if healing_threshold config <? counter then healing_threshold config
  else counter.

Definition compute_debounce_status (counter : Z) (current_status : string)
    (config : DebounceConfig) : string :=
  if counter <=? confirmation_threshold config then STATUS_CONFIRMED
  else if healing_enabled config && (healing_threshold config <=? counter) then STATUS_HEALED
  else if (current_status =?ₛ STATUS_CONFIRMED) || (current_status =?ₛ STATUS_HEALED)
       then current_status
  else if counter <? 0 then STATUS_PREFAILED
  else if 0 <? counter then STATUS_PREPASSED
  else current_status.

Definition is_near_miss (is_failed_event : bool) (resulting_status : string) : bool :=
  is_failed_event && negb (resulting_status =?ₛ STATUS_CONFIRMED).

(** Returns the verdict and the config as left behind by the call. *)
Definition sanitize_debounce_config (config : DebounceConfig) : bool * DebounceConfig :=
  let bad_confirm := 0 <=? confirmation_threshold config in
  let bad_heal := healing_threshold config <? 0 in
  (negb bad_confirm && negb bad_heal,
   {| confirmation_threshold := if bad_confirm then -1 else confirmation_threshold config;
      healing_enabled := healing_enabled config;
      healing_threshold := if bad_heal then 3 else healing_threshold config;
      critical_immediate_confirm := critical_immediate_confirm config;
      auto_confirm_after_sec := auto_confirm_after_sec config |}).

(** ** The configurations the node accepts *)

Definition sane (c : DebounceConfig) : Prop :=
  confirmation_threshold c < 0 /\ 0 <= healing_threshold c.

#[global] Instance sane_dec c : Decision (sane c).
Proof. unfold sane. apply _. Defined.

(** Thresholds that leave room for one step in [int32_t] on either side. *)
Definition room_i32 (c : DebounceConfig) : Prop :=
  int32_min < confirmation_threshold c /\ healing_threshold c < int32_max.

#[global] Instance room_i32_dec c : Decision (room_i32 c).
Proof. unfold room_i32. apply _. Defined.

Definition in_band (cfg : DebounceConfig) (c : Z) : Prop :=
  confirmation_threshold cfg <= c <= healing_threshold cfg.

Lemma sanitize_sane c : sane (sanitize_debounce_config c).2.
Proof. unfold sane; simpl. repeat case_match; bool_simpl; lia. Qed.

Lemma clamp_in_band cfg c : sane cfg -> in_band cfg (clamp_debounce_counter c cfg).
Proof.
  unfold sane, in_band, clamp_debounce_counter. intros [??].
  repeat case_match; bool_simpl; lia.
Qed.

Lemma clamp_id cfg c : in_band cfg c -> clamp_debounce_counter c cfg = c.
Proof.
  unfold in_band, clamp_debounce_counter. intros [??].
  repeat case_match; bool_simpl; lia.
Qed.

Lemma in_band_i32 cfg c : room_i32 cfg -> in_band cfg c -> in_i32 (c - 1) /\ in_i32 (c + 1).
Proof. unfold room_i32, in_band, in_i32. lia. Qed.

#[export] Hint Resolve clamp_in_band clamp_id sanitize_sane : medkit.

(** The five values [status] takes once a fault exists. *)
Definition valid_status (s : string) : Prop :=
  s ∈ [STATUS_PREFAILED; STATUS_PREPASSED; STATUS_CONFIRMED; STATUS_HEALED; STATUS_CLEARED].

#[global] Instance valid_status_dec s : Decision (valid_status s).
Proof. unfold valid_status. apply _. Defined.

(** ** One report on the (counter, status) pair of a live fault *)

Definition debounce_step (cfg : DebounceConfig) (is_failed : bool) (p : Z * string) : Z * string :=
  let c := clamp_debounce_counter p.1 cfg in
  let c' := clamp_debounce_counter (if is_failed then c -ᵢ 1 else c +ᵢ 1) cfg in
  (c', compute_debounce_status c' p.2 cfg).


Lemma debounce_step_counter cfg b p :
  sane cfg -> room_i32 cfg ->
  (debounce_step cfg b p).1 =
    if b then Z.max (confirmation_threshold cfg) (clamp_debounce_counter p.1 cfg - 1)
    else Z.min (healing_threshold cfg) (clamp_debounce_counter p.1 cfg + 1).
Proof.
  intros Hs Hr. pose proof (clamp_in_band cfg p.1 Hs) as Hb.
  destruct (in_band_i32 cfg _ Hr Hb) as [H1 H2].
  unfold debounce_step. cbn [fst snd]. destruct b; rewrite wrap_i32_id by done;
    unfold in_band in Hb; unfold clamp_debounce_counter at 1;
    repeat case_match; bool_simpl; lia.
Qed.

Lemma debounce_step_band cfg b p : sane cfg -> in_band cfg (debounce_step cfg b p).1.
Proof. intros. by apply clamp_in_band. Qed.

(** The status is one of the five whenever it was, or the counter is negative. *)
Lemma compute_status_valid c s cfg :
  valid_status s \/ c < 0 -> valid_status (compute_debounce_status c s cfg).
Proof.
  unfold compute_debounce_status, valid_status. intros H.
  repeat case_match; bool_simpl; subst; try set_solver.
  all: destruct H; [done|lia].
Qed.

Lemma compute_status_not_cleared c s cfg :
  s <> STATUS_CLEARED \/ c < 0 -> compute_debounce_status c s cfg <> STATUS_CLEARED.
Proof.
  unfold compute_debounce_status. intros Hs.
  repeat case_match; bool_simpl; subst; try done.
  all: destruct Hs; [done|lia].
Qed.

(** ** The latch *)

(** A confirmed fault stays confirmed until the counter reaches the healing
    threshold with healing on; a healed one until it reaches the confirmation
    threshold. *)
Lemma latch_confirmed c cfg :
  compute_debounce_status c STATUS_CONFIRMED cfg <> STATUS_CONFIRMED <->
  confirmation_threshold cfg < c /\ healing_enabled cfg = true /\ healing_threshold cfg <= c.
Proof.
  unfold compute_debounce_status; simpl.
  split.
  - repeat case_match; bool_simpl; [done| |done..]. intros _. split_and!; [lia|done|lia].
  - intros (H1 & H2 & H3). rewrite H2; simpl.
    repeat case_match; bool_simpl; try lia; done.
Qed.

Lemma latch_healed c cfg :
  compute_debounce_status c STATUS_HEALED cfg <> STATUS_HEALED <->
  c <= confirmation_threshold cfg.
Proof.
  unfold compute_debounce_status; simpl.
  split; repeat case_match; bool_simpl; try done; try lia.
Qed.

(** Iterated reports in one direction. *)
Fixpoint debounce_iter (cfg : DebounceConfig) (is_failed : bool) (n : nat) (p : Z * string) :=
  match n with
  | O => p
  | S n' => debounce_iter cfg is_failed n' (debounce_step cfg is_failed p)
  end.

Lemma debounce_iter_S cfg b n p :
  debounce_iter cfg b (S n) p = debounce_step cfg b (debounce_iter cfg b n p).
Proof. revert p. induction n as [|n IH]; intros p; [done|]. simpl in *. by rewrite <- IH. Qed.

Lemma debounce_iter_failed_counter cfg n p :
  sane cfg -> room_i32 cfg ->
  (debounce_iter cfg true (S n) p).1 =
    Z.max (confirmation_threshold cfg) (clamp_debounce_counter p.1 cfg - Z.of_nat (S n)).
Proof.
  intros Hs Hr. induction n as [|n IH].
  - by rewrite debounce_iter_S, debounce_step_counter.
  - rewrite debounce_iter_S, debounce_step_counter, clamp_id, IH by
      (try done; rewrite debounce_iter_S; by apply debounce_step_band).
    lia.
Qed.

Lemma debounce_iter_passed_counter cfg n p :
  sane cfg -> room_i32 cfg ->
  (debounce_iter cfg false (S n) p).1 =
    Z.min (healing_threshold cfg) (clamp_debounce_counter p.1 cfg + Z.of_nat (S n)).
Proof.
  intros Hs Hr. induction n as [|n IH].
  - by rewrite debounce_iter_S, debounce_step_counter.
  - rewrite debounce_iter_S, debounce_step_counter, clamp_id, IH by
      (try done; rewrite debounce_iter_S; by apply debounce_step_band).
    lia.
Qed.

Lemma debounce_iter_status cfg b n p :
  (debounce_iter cfg b (S n) p).2 =
  compute_debounce_status (debounce_iter cfg b (S n) p).1 (debounce_iter cfg b n p).2 cfg.
Proof. by rewrite debounce_iter_S. Qed.

Lemma compute_status_confirm c s cfg :
  c <= confirmation_threshold cfg -> compute_debounce_status c s cfg = STATUS_CONFIRMED.
Proof.
  unfold compute_debounce_status. intros H. case_match; [done|]. bool_simpl; lia.
Qed.

Lemma compute_status_heal c s cfg :
  confirmation_threshold cfg < c -> healing_enabled cfg = true -> healing_threshold cfg <= c ->
  compute_debounce_status c s cfg = STATUS_HEALED.
Proof.
  unfold compute_debounce_status. intros H1 -> H3. simpl.
  repeat case_match; bool_simpl; done || lia.
Qed.

(** [band_width]: the number of reports that walks the whole band. *)
Definition band_width (cfg : DebounceConfig) : nat :=
  Z.to_nat (healing_threshold cfg - confirmation_threshold cfg).

Lemma failed_burst_confirms cfg n p :
  sane cfg -> room_i32 cfg -> (band_width cfg <= n)%nat ->
  (debounce_iter cfg true n p).2 = STATUS_CONFIRMED.
Proof.
  intros Hs Hr Hn. destruct n as [|n].
  { destruct Hs. unfold band_width in Hn. lia. }
  rewrite debounce_iter_status, debounce_iter_failed_counter by done.
  apply compute_status_confirm. unfold band_width in Hn.
  pose proof (clamp_in_band cfg p.1 Hs) as [??]. lia.
Qed.

Lemma healed_latch_holds cfg n :
  sane cfg -> room_i32 cfg -> (n < band_width cfg)%nat ->
  (debounce_iter cfg true n (healing_threshold cfg, STATUS_HEALED)).2 = STATUS_HEALED.
Proof.
  intros Hs Hr. induction n as [|n IH]; intros Hn; [done|].
  rewrite debounce_iter_status, IH by lia.
  destruct (decide (compute_debounce_status
    (debounce_iter cfg true (S n) (healing_threshold cfg, STATUS_HEALED)).1
    STATUS_HEALED cfg = STATUS_HEALED)) as [E|E]; [done|].
  apply latch_healed in E. rewrite debounce_iter_failed_counter in E by done.
  rewrite clamp_id in E; [|destruct Hs; unfold in_band; simpl; lia].
  unfold band_width in Hn. simpl in E. lia.
Qed.

(** ** Abstract debouncer

    What the counter and the status strings implement: a level on the unbounded
    integers that saturates at the two thresholds, and a phase that latches at
    each of them. *)

Inductive phase := Prefailed | Prepassed | ConfirmedLatch | HealedLatch.

Record debouncer := mkDebouncer { level : Z; in_phase : phase }.

Definition phase_status (p : phase) : string :=
  match p with
  | Prefailed => STATUS_PREFAILED
  | Prepassed => STATUS_PREPASSED
  | ConfirmedLatch => STATUS_CONFIRMED
  | HealedLatch => STATUS_HEALED
  end.

Definition saturate (cfg : DebounceConfig) (z : Z) : Z :=
  Z.max (confirmation_threshold cfg) (Z.min (healing_threshold cfg) z).

Definition pending_phase (l : Z) (p : phase) : phase :=
  match p with
  | ConfirmedLatch | HealedLatch => p
  | _ => match l ?= 0 with Lt => Prefailed | Gt => Prepassed | Eq => p end
  end.

Definition debouncer_step (cfg : DebounceConfig) (is_failed : bool) (d : debouncer) : debouncer :=
  let l := saturate cfg (saturate cfg (level d) + if is_failed then -1 else 1) in
  mkDebouncer l
    (if bool_decide (l = confirmation_threshold cfg) then ConfirmedLatch
     else if healing_enabled cfg && bool_decide (l = healing_threshold cfg) then HealedLatch
     else pending_phase l (in_phase d)).

Lemma clamp_saturate cfg z : sane cfg → clamp_debounce_counter z cfg = saturate cfg z.
Proof.
  unfold sane, clamp_debounce_counter, saturate. intros [??].
  repeat case_match; bool_simpl; lia.
Qed.

(** Between the thresholds the computed status is the phase. *)
Lemma compute_status_phase cfg l p :
  sane cfg → in_band cfg l →
  compute_debounce_status l (phase_status p) cfg =
  phase_status
    (if bool_decide (l = confirmation_threshold cfg) then ConfirmedLatch
     else if healing_enabled cfg && bool_decide (l = healing_threshold cfg) then HealedLatch
     else pending_phase l p).
Proof.
  unfold in_band, compute_debounce_status, pending_phase. intros [??] [??].
  destruct (Z.leb_spec l (confirmation_threshold cfg));
    [rewrite bool_decide_true by lia; done|rewrite bool_decide_false by lia].
  rewrite (bool_decide_ext _ (healing_threshold cfg ≤ l)) by lia.
  destruct (healing_enabled cfg), (Z.leb_spec (healing_threshold cfg) l);
    [rewrite bool_decide_true by lia; done|rewrite bool_decide_false by lia|..];
    simpl; destruct p; simpl; try done;
    destruct (Z.compare_spec l 0), (Z.ltb_spec l 0), (Z.ltb_spec 0 l); try lia; done.
Qed.

Lemma debounce_step_refines cfg b d :
  sane cfg → room_i32 cfg →
  debounce_step cfg b (level d, phase_status (in_phase d)) =
  let d' := debouncer_step cfg b d in (level d', phase_status (in_phase d')).
Proof.
  intros Hs Hr. unfold debounce_step, debouncer_step. cbn [fst snd level in_phase].
  pose proof (clamp_in_band cfg (level d) Hs) as Hb.
  destruct (in_band_i32 cfg _ Hr Hb) as [H1 H2].
  rewrite <- (clamp_saturate cfg (level d)) by done.
  rewrite <- clamp_saturate by done.
  rewrite <- compute_status_phase by (try done; by apply clamp_in_band).
  destruct b; rewrite wrap_i32_id by done; done.
Qed.
