(* ===== verification/FaultEvents.v ===== *)
(** * Fault lifecycle of the in-memory storage backend

    [report_fault_event], [clear_fault], the list and lookup queries, the
    time-based confirmation and the near-miss series of
    [InMemoryFaultStorage] (fault_storage.cpp).  Every method takes the storage
    mutex for its whole body, so a run of the backend is a sequence of these
    functions. *)

From S2P Require Import Prelude FaultTypes Debounce.
Open Scope Z_scope.

(** ** Operations *)

Definition update_status (st : FaultState) (cfg : DebounceConfig) : FaultState :=
  with_status (compute_debounce_status (debounce_counter st) (status st) cfg) st.

Definition record_near_miss (st : FaultState) (cfg : DebounceConfig) (sev : Z)
    (source_id : string) (timestamp : Z) (s : InMemoryFaultStorage) : InMemoryFaultStorage :=
  let series := default [] (near_misses s !! fault_code st) in
  let record :=
    {| nm_fault_code := fault_code st;
       nm_occurred_at_ns := timestamp;
       nm_debounce_counter := debounce_counter st;
       nm_confirmation_threshold := confirmation_threshold cfg;
       nm_severity := sev;
       nm_source_id := source_id;
       nm_resulting_status := status st |} in
  let series := series ++ [record] in
  let max := max_near_misses_per_fault s in
  let series :=
    if (0 <? max)%nat && (max <? length series)%nat
    then drop (length series - max) series else series in
  with_near_misses (<[fault_code st := series]> (near_misses s)) s.

(** [if (is_near_miss(...)) record_near_miss(...)] *)
Definition note_near_miss (is_failed : bool) (st : FaultState) (cfg : DebounceConfig) (sev : Z)
    (source_id : string) (timestamp : Z) (s : InMemoryFaultStorage) : InMemoryFaultStorage :=
  if is_near_miss is_failed (status st)
  then record_near_miss st cfg sev source_id timestamp s else s.

Definition critical_confirms (cfg : DebounceConfig) (sev : Z) : bool :=
  critical_immediate_confirm cfg && (sev =? SEVERITY_CRITICAL).

(** A first FAILED report: the state built for the new entry. *)
Definition new_fault (code : string) (sev : Z) (descr source_id : string) (timestamp : Z)
    (cfg : DebounceConfig) : FaultState :=
  let st :=
    {| fault_code := code; severity := sev; description := descr;
       first_occurred := timestamp; last_occurred := timestamp;
       occurrence_count := 1; status := "";
       reporting_sources := {[ source_id ]};
       debounce_counter := -1;
       last_failed_time := timestamp; last_passed_time := 0 |} in
  if critical_confirms cfg sev then with_status STATUS_CONFIRMED st
  else update_status st cfg.

(** A FAILED report on a CLEARED entry. *)
Definition reactivate_fault (sev : Z) (descr source_id : string) (timestamp : Z)
    (cfg : DebounceConfig) (st : FaultState) : FaultState :=
  let st :=
    {| fault_code := fault_code st;
       severity := if severity st <? sev then sev else severity st;
       description := if descr =?ₛ "" then description st else descr;
       first_occurred := timestamp; last_occurred := timestamp;
       occurrence_count :=
         if occurrence_count st <? uint32_max then occurrence_count st + 1
         else occurrence_count st;
       status := status st;
       reporting_sources := {[ source_id ]} ∪ reporting_sources st;
       debounce_counter := -1;
       last_failed_time := timestamp; last_passed_time := last_passed_time st |} in
  if critical_confirms cfg sev then with_status STATUS_CONFIRMED st
  else update_status st cfg.

(** A FAILED report on a live entry, up to the CRITICAL check. *)
Definition failed_update (sev : Z) (descr source_id : string) (timestamp : Z)
    (cfg : DebounceConfig) (st : FaultState) : FaultState :=
  {| fault_code := fault_code st;
     severity := if severity st <? sev then sev else severity st;
     description := if descr =?ₛ "" then description st else descr;
     first_occurred := first_occurred st; last_occurred := timestamp;
     occurrence_count := occurrence_count st;
     status := status st;
     reporting_sources := {[ source_id ]} ∪ reporting_sources st;
     debounce_counter :=
       clamp_debounce_counter (clamp_debounce_counter (debounce_counter st) cfg -ᵢ 1) cfg;
     last_failed_time := timestamp; last_passed_time := last_passed_time st |}.

(** A PASSED report on a live entry. *)
Definition passed_update (timestamp : Z) (cfg : DebounceConfig) (st : FaultState) : FaultState :=
  {| fault_code := fault_code st; severity := severity st; description := description st;
     first_occurred := first_occurred st; last_occurred := last_occurred st;
     occurrence_count := occurrence_count st;
     status := status st;
     reporting_sources := reporting_sources st;
     debounce_counter :=
       clamp_debounce_counter (clamp_debounce_counter (debounce_counter st) cfg +ᵢ 1) cfg;
     last_failed_time := last_failed_time st; last_passed_time := timestamp |}.

Definition put_fault (code : string) (st : FaultState) (s : InMemoryFaultStorage) :=
  with_faults (<[code := st]> (faults s)) s.

Definition report_fault_event (code : string) (event_type sev : Z) (descr source_id : string)
    (timestamp : Z) (cfg : DebounceConfig) (s : InMemoryFaultStorage)
    : bool * InMemoryFaultStorage :=
  let is_failed := event_type =? EVENT_FAILED in
  match faults s !! code with
  | None =>
      if negb is_failed then (false, s)
      else
        let st := new_fault code sev descr source_id timestamp cfg in
        (true, put_fault code st (note_near_miss true st cfg sev source_id timestamp s))
  | Some st =>
      if status st =?ₛ STATUS_CLEARED then
        if negb is_failed then (false, s)
        else
          let st := reactivate_fault sev descr source_id timestamp cfg st in
          (true, note_near_miss true st cfg sev source_id timestamp (put_fault code st s))
      else if is_failed then
        let st := failed_update sev descr source_id timestamp cfg st in
        if critical_confirms cfg sev then
          (false, put_fault code (with_status STATUS_CONFIRMED st) s)
        else
          let st := update_status st cfg in
          (false, note_near_miss true st cfg sev source_id timestamp (put_fault code st s))
      else
        let st := update_status (passed_update timestamp cfg st) cfg in
        (false, note_near_miss false st cfg sev source_id timestamp (put_fault code st s))
  end.

(** ** Queries *)

Definition is_known_status (s : string) : bool :=
  (s =?ₛ STATUS_PREFAILED) || (s =?ₛ STATUS_PREPASSED) || (s =?ₛ STATUS_CONFIRMED)
  || (s =?ₛ STATUS_HEALED) || (s =?ₛ STATUS_CLEARED).

Definition status_filter (statuses : list string) : gset string :=
  match statuses with
  | [] => {[ STATUS_CONFIRMED ]}
  | _ =>
      let valid : gset string := list_to_set (filter (λ s, is_known_status s = true) statuses) in
      if decide (valid = ∅) then {[ STATUS_CONFIRMED ]} else valid
  end.

(** Neither [continue] of the loop in [list_faults] is taken. *)
Definition listed (filter_by_severity : bool) (sev : Z) (statuses : list string)
    (e : string * FaultState) : bool :=
  bool_decide (status e.2 ∈ status_filter statuses)
  && negb (filter_by_severity && negb (severity e.2 =? sev)).

Definition list_faults (filter_by_severity : bool) (sev : Z) (statuses : list string)
    (s : InMemoryFaultStorage) : list FaultMsg :=
  (λ e, to_msg e.2) <$>
    filter (λ e, listed filter_by_severity sev statuses e = true) (map_entries (faults s)).

Definition get_fault (code : string) (s : InMemoryFaultStorage) : option FaultMsg :=
  to_msg <$> faults s !! code.

Definition get_all_faults (s : InMemoryFaultStorage) : list FaultMsg :=
  (λ e, to_msg e.2) <$> map_entries (faults s).

Definition storage_size (s : InMemoryFaultStorage) : nat := size (faults s).

Definition contains (code : string) (s : InMemoryFaultStorage) : bool :=
  bool_decide (is_Some (faults s !! code)).

(** ** Acknowledgement and timers *)

Definition clear_fault (code : string) (s : InMemoryFaultStorage)
    : bool * InMemoryFaultStorage :=
  match faults s !! code with
  | None => (false, s)
  | Some st =>
      let s :=
        if retain_snapshots_on_clear s then s
        else with_snapshots (filter (λ r, snap_fault_code r ≠ code) (snapshots s)) s in
      (true, put_fault code (with_status STATUS_CLEARED st) s)
  end.

Definition due_for_confirmation (cfg : DebounceConfig) (current_time : Z) (st : FaultState)
    : bool :=
  (status st =?ₛ STATUS_PREFAILED)
  && f64_leb (f64_mul (auto_confirm_after_sec cfg) (f64_of_Z 1000000000))
             (f64_of_Z (current_time - last_failed_time st)).

Definition check_time_based_confirmation (current_time : Z) (s : InMemoryFaultStorage)
    : list string * InMemoryFaultStorage :=
  if f64_leb (auto_confirm_after_sec (config s)) f64_zero then ([], s)
  else
    let due st := due_for_confirmation (config s) current_time st in
    ((filter (λ e, due e.2 = true) (map_entries (faults s))).*1,
     with_faults ((λ st, if due st then with_status STATUS_CONFIRMED st else st) <$> faults s) s).

Definition reclassify_healed_as_cleared (s : InMemoryFaultStorage)
    : list string * InMemoryFaultStorage :=
  let healed st := status st =?ₛ STATUS_HEALED in
  let reclassified := (filter (λ e, healed e.2 = true) (map_entries (faults s))).*1 in
  let s' :=
    with_faults ((λ st, if healed st then with_status STATUS_CLEARED st else st) <$> faults s) s in
  (reclassified,
   if negb (retain_snapshots_on_clear s) && negb (bool_decide (reclassified = []))
   then with_snapshots (filter (λ r, snap_fault_code r ∉ reclassified) (snapshots s)) s'
   else s').

(** ** Near-miss series *)

Definition set_max_near_misses_per_fault (max_count : nat) (s : InMemoryFaultStorage)
    : nat * InMemoryFaultStorage :=
  let s := set_near_miss_bound max_count s in
  if (max_count =? 0)%nat then (0%nat, s)
  else
    (sum_list ((λ e, length e.2 - max_count)%nat <$> map_entries (near_misses s)),
     with_near_misses
       ((λ series, if (max_count <? length series)%nat
                   then drop (length series - max_count) series else series)
        <$> near_misses s) s).

Definition get_near_misses (code : string) (s : InMemoryFaultStorage) : list NearMissRecord :=
  default [] (near_misses s !! code).

(** ** The effect of one report, entry by entry *)

Record Report := mkReport {
  r_code : string;
  r_event : Z;
  r_sev : Z;
  r_descr : string;
  r_source : string;
  r_time : Z;
  r_cfg : DebounceConfig;
}.

Definition report (r : Report) (s : InMemoryFaultStorage) : bool * InMemoryFaultStorage :=
  report_fault_event (r_code r) (r_event r) (r_sev r) (r_descr r) (r_source r) (r_time r)
    (r_cfg r) s.

(** What a report makes of the entry of its own code. *)
Definition report_entry (r : Report) (o : option FaultState) : option FaultState :=
  match o with
  | None =>
      if r_event r =? EVENT_FAILED
      then Some (new_fault (r_code r) (r_sev r) (r_descr r) (r_source r) (r_time r) (r_cfg r))
      else None
  | Some st =>
      if status st =?ₛ STATUS_CLEARED then
        if r_event r =? EVENT_FAILED
        then Some (reactivate_fault (r_sev r) (r_descr r) (r_source r) (r_time r) (r_cfg r) st)
        else Some st
      else if r_event r =? EVENT_FAILED then
        let st := failed_update (r_sev r) (r_descr r) (r_source r) (r_time r) (r_cfg r) st in
        Some (if critical_confirms (r_cfg r) (r_sev r) then with_status STATUS_CONFIRMED st
              else update_status st (r_cfg r))
      else Some (update_status (passed_update (r_time r) (r_cfg r) st) (r_cfg r))
  end.

(** The near-miss record a report leaves, if any. *)
Definition near_miss_of (r : Report) (o : option FaultState) : list NearMissRecord :=
  match report_entry r o with
  | Some st =>
      if is_near_miss (r_event r =? EVENT_FAILED) (status st)
      then [ {| nm_fault_code := fault_code st; nm_occurred_at_ns := r_time r;
                nm_debounce_counter := debounce_counter st;
                nm_confirmation_threshold := confirmation_threshold (r_cfg r);
                nm_severity := r_sev r; nm_source_id := r_source r;
                nm_resulting_status := status st |} ]
      else []
  | None => []
  end.

(** Appending to a series and evicting beyond the bound ([0] = unlimited). *)
Definition push_bounded (max : nat) (series new : list NearMissRecord) : list NearMissRecord :=
  match new with
  | [] => series
  | _ => if (max =? 0)%nat then series ++ new else last_n max (series ++ new)
  end.

Lemma report_false_result r s :
  (report r s).1 = true ↔
  r_event r = EVENT_FAILED ∧
  (faults s !! r_code r = None ∨ ∃ st, faults s !! r_code r = Some st ∧ status st = STATUS_CLEARED).
Proof.
  unfold report, report_fault_event.
  destruct (faults s !! r_code r) as [st|] eqn:E.
  - destruct (status st =?ₛ STATUS_CLEARED) eqn:Ec; bool_simpl;
      destruct (r_event r =? EVENT_FAILED) eqn:Ev; bool_simpl; simpl;
      try case_match; simpl; naive_solver.
  - destruct (r_event r =? EVENT_FAILED) eqn:Ev; bool_simpl; simpl; naive_solver.
Qed.

Lemma faults_note_near_miss b st cfg sev src t s :
  faults (note_near_miss b st cfg sev src t s) = faults s.
Proof. unfold note_near_miss. by case_match. Qed.

Lemma report_faults r s :
  faults (report r s).2 = partial_alter (report_entry r) (r_code r) (faults s).
Proof.
  apply map_eq. intros c. unfold report, report_fault_event.
  destruct (decide (c = r_code r)) as [->|Hne].
  - rewrite lookup_partial_alter_eq.
    destruct (faults s !! r_code r) as [st|] eqn:E; simpl.
    + destruct (status st =?ₛ STATUS_CLEARED), (r_event r =? EVENT_FAILED) eqn:Ev;
        simpl; try case_match; simpl;
        rewrite ?faults_note_near_miss; simpl; by rewrite ?lookup_insert_eq.
    + destruct (r_event r =? EVENT_FAILED); simpl; [by rewrite lookup_insert_eq|done].
  - rewrite lookup_partial_alter_ne by done.
    destruct (faults s !! r_code r) as [st|] eqn:E; simpl.
    + destruct (status st =?ₛ STATUS_CLEARED), (r_event r =? EVENT_FAILED) eqn:Ev;
        simpl; try case_match; simpl;
        rewrite ?faults_note_near_miss; simpl; by rewrite ?lookup_insert_ne.
    + destruct (r_event r =? EVENT_FAILED); simpl; [|done].
      by rewrite faults_note_near_miss, lookup_insert_ne.
Qed.

Lemma new_fault_code code sev d src t cfg :
  fault_code (new_fault code sev d src t cfg) = code.
Proof. unfold new_fault. by case_match. Qed.

Lemma reactivate_fault_code sev d src t cfg st :
  fault_code (reactivate_fault sev d src t cfg st) = fault_code st.
Proof. unfold reactivate_fault. by case_match. Qed.

Lemma report_entry_code r o st :
  (∀ st0, o = Some st0 → fault_code st0 = r_code r) →
  report_entry r o = Some st → fault_code st = r_code r.
Proof.
  intros Ho. unfold report_entry.
  destruct o as [st0|]; [specialize (Ho st0 eq_refl)|]; repeat case_match;
    intros; simplify_eq; simpl; by rewrite ?new_fault_code, ?reactivate_fault_code.
Qed.

Lemma note_near_miss_series b st cfg sev src t s c :
  get_near_misses c (note_near_miss b st cfg sev src t s) =
    if decide (c = fault_code st)
    then push_bounded (max_near_misses_per_fault s) (get_near_misses c s)
           (if is_near_miss b (status st)
            then [ {| nm_fault_code := fault_code st; nm_occurred_at_ns := t;
                      nm_debounce_counter := debounce_counter st;
                      nm_confirmation_threshold := confirmation_threshold cfg;
                      nm_severity := sev; nm_source_id := src;
                      nm_resulting_status := status st |} ] else [])
    else get_near_misses c s.
Proof.
  unfold note_near_miss, get_near_misses, push_bounded.
  destruct (is_near_miss b (status st)); [|by destruct (decide _)].
  unfold record_near_miss; simpl. case_decide as Hc.
  - subst c. rewrite lookup_insert_eq; simpl. unfold last_n.
    destruct (max_near_misses_per_fault s) as [|m]; [done|]. 
    change (0 <? S m)%nat with true. cbn [andb Nat.eqb].
    case_match eqn:E; [done|].
    apply Nat.ltb_ge in E. by rewrite (proj2 (Nat.sub_0_le _ _) E).
  - by rewrite lookup_insert_ne.
Qed.

Lemma report_near_misses r s c :
  (∀ st, faults s !! r_code r = Some st → fault_code st = r_code r) →
  get_near_misses c (report r s).2 =
    if decide (c = r_code r)
    then push_bounded (max_near_misses_per_fault s) (get_near_misses c s)
           (near_miss_of r (faults s !! r_code r))
    else get_near_misses c s.
Proof.
  intros Hcode. unfold near_miss_of, report, report_fault_event, report_entry.
  assert (Hnil : ∀ l : list NearMissRecord,
    l = if decide (c = r_code r)
        then push_bounded (max_near_misses_per_fault s) l [] else l) by (intros; by case_decide).
  destruct (faults s !! r_code r) as [st|] eqn:E.
  - specialize (Hcode st eq_refl).
    destruct (status st =?ₛ STATUS_CLEARED) eqn:Ec, (r_event r =? EVENT_FAILED) eqn:Ev; cbn [negb].
    + etransitivity; [apply note_near_miss_series|]. by rewrite reactivate_fault_code, Hcode.
    + apply Hnil.
    + destruct (critical_confirms (r_cfg r) (r_sev r)); [apply Hnil|].
      etransitivity; [apply note_near_miss_series|]. simpl. by rewrite Hcode.
    + etransitivity; [apply note_near_miss_series|]. simpl. by rewrite Hcode.
  - destruct (r_event r =? EVENT_FAILED) eqn:Ev; [|apply Hnil].
    etransitivity; [apply note_near_miss_series|]. by rewrite new_fault_code.
Qed.

(** ** Well-formed storage *)

(** The thresholds are [int32_t] values. *)
Definition cfg_i32 (cfg : DebounceConfig) : Prop :=
  in_i32 (confirmation_threshold cfg) ∧ in_i32 (healing_threshold cfg).

Record fault_ok (code : string) (st : FaultState) : Prop := {
  fok_code : fault_code st = code;
  fok_status : valid_status (status st);
  fok_counter : in_i32 (debounce_counter st);
  fok_count : 1 ≤ occurrence_count st ≤ uint32_max;
  fok_sources : reporting_sources st ≠ ∅;
}.

Record near_miss_ok (code : string) (r : NearMissRecord) : Prop := {
  nmok_code : nm_fault_code r = code;
  nmok_status : valid_status (nm_resulting_status r);
  nmok_unconfirmed : nm_resulting_status r ≠ STATUS_CONFIRMED;
}.

Definition series_ok (max : nat) (code : string) (series : list NearMissRecord) : Prop :=
  Forall (near_miss_ok code) series ∧ ((0 < max)%nat → (length series ≤ max)%nat).

Record events_ok (s : InMemoryFaultStorage) : Prop := {
  eok_faults : map_Forall fault_ok (faults s);
  eok_series : ∀ c, series_ok (max_near_misses_per_fault s) c (get_near_misses c s);
}.

Lemma clamp_i32 c cfg : cfg_i32 cfg → in_i32 c → in_i32 (clamp_debounce_counter c cfg).
Proof. intros [??] ?. unfold clamp_debounce_counter. by repeat case_match. Qed.

Lemma fault_ok_status code st s : fault_ok code st → valid_status s → fault_ok code (with_status s st).
Proof. intros [????] ?. by constructor. Qed.

Lemma fault_ok_update code st cfg : fault_ok code st → fault_ok code (update_status st cfg).
Proof.
  intros H. apply fault_ok_status; [done|]. apply compute_status_valid. left. apply H.
Qed.

Lemma valid_confirmed : valid_status STATUS_CONFIRMED.
Proof. unfold valid_status. set_solver. Qed.

Lemma valid_cleared : valid_status STATUS_CLEARED.
Proof. unfold valid_status. set_solver. Qed.

#[export] Hint Resolve clamp_i32 wrap_i32_range valid_confirmed valid_cleared fault_ok_update
  fault_ok_status : medkit.

Lemma new_fault_ok code sev d src t cfg : fault_ok code (new_fault code sev d src t cfg).
Proof.
  unfold new_fault. case_match; constructor; simpl; try done; auto with medkit.
  all: try (unfold in_i32, int32_min, int32_max; lia).
  all: try (unfold uint32_max; lia).
  all: try set_solver.
  apply compute_status_valid. right. lia.
Qed.

Lemma reactivate_fault_ok code sev d src t cfg st :
  fault_ok code st → fault_ok code (reactivate_fault sev d src t cfg st).
Proof.
  intros [H1 H2 H3 H4 H5].
  unfold reactivate_fault. case_match; constructor; simpl; try done; auto with medkit.
  all: try (unfold in_i32, int32_min, int32_max; lia).
  all: try (case_match; bool_simpl; lia).
  all: try set_solver.
  apply compute_status_valid. right. lia.
Qed.

Lemma failed_update_ok code sev d src t cfg st :
  cfg_i32 cfg → fault_ok code st → fault_ok code (failed_update sev d src t cfg st).
Proof. intros Hc []. constructor; simpl; auto with medkit. set_solver. Qed.

Lemma passed_update_ok code t cfg st :
  cfg_i32 cfg → fault_ok code st → fault_ok code (passed_update t cfg st).
Proof. intros Hc []. constructor; simpl; auto with medkit. Qed.

#[export] Hint Resolve new_fault_ok reactivate_fault_ok failed_update_ok passed_update_ok : medkit.

Lemma report_entry_ok r o st :
  cfg_i32 (r_cfg r) → (∀ st0, o = Some st0 → fault_ok (r_code r) st0) →
  report_entry r o = Some st → fault_ok (r_code r) st.
Proof.
  intros Hc Ho. unfold report_entry.
  destruct o as [st0|]; [specialize (Ho st0 eq_refl)|];
    repeat case_match; intros; simplify_eq; auto with medkit.
Qed.

Lemma near_miss_of_ok r o :
  cfg_i32 (r_cfg r) → (∀ st0, o = Some st0 → fault_ok (r_code r) st0) →
  Forall (near_miss_ok (r_code r)) (near_miss_of r o).
Proof.
  intros Hc Ho. unfold near_miss_of.
  destruct (report_entry r o) as [st|] eqn:E; [|done].
  apply report_entry_ok in E as Hok; [|done..].
  destruct (is_near_miss _ _) eqn:En; [|done].
  unfold is_near_miss in En. bool_simpl. apply Forall_singleton. constructor; simpl; try done.
  all: apply Hok.
Qed.

Lemma push_bounded_ok max c series new :
  series_ok max c series → Forall (near_miss_ok c) new →
  series_ok max c (push_bounded max series new).
Proof.
  intros [H1 H2] Hn. unfold push_bounded. destruct new as [|n new]; [done|].
  assert (Forall (near_miss_ok c) (series ++ n :: new)) as Hall by by apply Forall_app.
  destruct max as [|m]; simpl; [by split; [done|lia]|].
  split; [|rewrite length_last_n; lia].
  rewrite Forall_forall in Hall |- *. intros x Hx. eapply Hall, elem_of_last_n, Hx.
Qed.

Lemma report_max r s : max_near_misses_per_fault (report r s).2 = max_near_misses_per_fault s.
Proof.
  unfold report, report_fault_event, note_near_miss, record_near_miss.
  by repeat (case_match; simpl).
Qed.

Lemma report_ok r s : cfg_i32 (r_cfg r) → events_ok s → events_ok (report r s).2.
Proof.
  intros Hc [Hf Hs].
  assert (Hold : ∀ st0, faults s !! r_code r = Some st0 → fault_ok (r_code r) st0) by eauto.
  constructor.
  - rewrite report_faults. intros c st.
    destruct (decide (c = r_code r)) as [->|Hne].
    + rewrite lookup_partial_alter_eq. by apply report_entry_ok.
    + rewrite lookup_partial_alter_ne by done. apply Hf.
  - intros c. rewrite report_max, report_near_misses by (intros st Hst; apply (Hold st Hst)).
    case_decide as Hd; [|done]. subst. apply push_bounded_ok; [done|]. by apply near_miss_of_ok.
Qed.

Lemma clear_fault_ok c s : events_ok s → events_ok (clear_fault c s).2.
Proof.
  intros [Hf Hs]. unfold clear_fault. destruct (faults s !! c) as [st|] eqn:E; [|done].
  split.
  - simpl. destruct (retain_snapshots_on_clear s); simpl;
      apply map_Forall_insert_2; eauto with medkit.
  - destruct (retain_snapshots_on_clear s); apply Hs.
Qed.

Lemma tick_ok t s : events_ok s → events_ok (check_time_based_confirmation t s).2.
Proof.
  intros [Hf Hs]. unfold check_time_based_confirmation. case_match; [done|].
  split; [|done]. simpl. intros c st. rewrite lookup_fmap, fmap_Some.
  intros (st0 & Hst0 & ->). case_match; eauto with medkit.
Qed.

Lemma reclassify_ok s : events_ok s → events_ok (reclassify_healed_as_cleared s).2.
Proof.
  intros [Hf Hs]. unfold reclassify_healed_as_cleared.
  assert (Hf' : map_Forall fault_ok ((λ st, if status st =?ₛ STATUS_HEALED
    then with_status STATUS_CLEARED st else st) <$> faults s)).
  { intros c st. rewrite lookup_fmap, fmap_Some.
    intros (st0 & Hst0 & ->). case_match; eauto with medkit. }
  simpl. case_match; split; done.
Qed.

Lemma set_max_near_misses_ok n s :
  events_ok s → events_ok (set_max_near_misses_per_fault n s).2.
Proof.
  intros [Hf Hs]. unfold set_max_near_misses_per_fault.
  destruct (n =? 0)%nat eqn:En; simpl.
  - apply Nat.eqb_eq in En as ->. split; [done|]. intros c. split; [apply Hs|simpl; lia].
  - split; [done|]. intros c. destruct (Hs c) as [H1 _].
    unfold get_near_misses in *; simpl. rewrite lookup_fmap.
    destruct (near_misses s !! c) as [series|]; simpl in *; [|by split; [done|simpl; lia]].
    case_match eqn:E; split; try done.
    + by apply Forall_drop.
    + intros _. rewrite length_drop. apply Nat.ltb_lt in E. simpl. lia.
    + intros _. apply Nat.ltb_ge in E. simpl. lia.
Qed.

(** ** Runs of reports *)

Fixpoint run_reports (rs : list Report) (s : InMemoryFaultStorage)
    : list bool * InMemoryFaultStorage :=
  match rs with
  | [] => ([], s)
  | r :: rs' =>
      let '(b, s') := report r s in
      let '(bs, s'') := run_reports rs' s' in
      (b :: bs, s'')
  end.

Lemma run_reports_cons r rs s :
  run_reports (r :: rs) s =
    ((report r s).1 :: (run_reports rs (report r s).2).1, (run_reports rs (report r s).2).2).
Proof. simpl. destruct (report r s) as [b s']. simpl. by destruct (run_reports rs s'). Qed.

Lemma run_reports_snoc rs r s :
  (run_reports (rs ++ [r]) s).2 = (report r (run_reports rs s).2).2.
Proof.
  revert s. induction rs as [|r' rs IH]; intros s.
  - simpl. by destruct (report r s).
  - rewrite <- app_comm_cons, !run_reports_cons. apply IH.
Qed.

(** Every report of [rs] is a FAILED one for [code] under [cfg]. *)
Definition failed_burst (code : string) (cfg : DebounceConfig) (rs : list Report) : Prop :=
  Forall (λ r, r_code r = code ∧ r_event r = EVENT_FAILED ∧ r_cfg r = cfg) rs.

(** What holds after [k] FAILED reports in a row. *)
Definition failing (cfg : DebounceConfig) (k : nat) (o : option FaultState) : Prop :=
  ∃ st, o = Some st ∧ status st ≠ STATUS_CLEARED ∧ in_band cfg (debounce_counter st) ∧
    debounce_counter st ≤ Z.max (confirmation_threshold cfg) (healing_threshold cfg - Z.of_nat k) ∧
    (debounce_counter st ≤ confirmation_threshold cfg → status st = STATUS_CONFIRMED).

Lemma failed_update_counter sev d src t cfg st :
  sane cfg → room_i32 cfg →
  debounce_counter (failed_update sev d src t cfg st) =
  Z.max (confirmation_threshold cfg) (clamp_debounce_counter (debounce_counter st) cfg - 1).
Proof.
  intros Hs Hr. apply (debounce_step_counter cfg true (debounce_counter st, status st) Hs Hr).
Qed.

Lemma new_fault_status_ok code sev d src t cfg :
  sane cfg → failing cfg 1 (Some (new_fault code sev d src t cfg)).
Proof.
  intros [H1 H2]. eexists. split; [done|]. unfold new_fault.
  case_match; simpl; unfold in_band; simpl; (split_and!; [|lia..|]); try done.
  - apply compute_status_not_cleared. by left.
  - intros ?. by apply compute_status_confirm.
Qed.

Lemma reactivate_fault_failing sev d src t cfg st :
  sane cfg → failing cfg 1 (Some (reactivate_fault sev d src t cfg st)).
Proof.
  intros [H1 H2]. eexists. split; [done|]. unfold reactivate_fault.
  case_match; simpl; unfold in_band; simpl; (split_and!; [|lia..|]); try done.
  - apply compute_status_not_cleared. right. lia.
  - intros ?. by apply compute_status_confirm.
Qed.

(** A FAILED report on a live entry moves the counter one step down. *)
Lemma failed_live_failing r st k :
  sane (r_cfg r) → room_i32 (r_cfg r) → r_event r = EVENT_FAILED →
  status st ≠ STATUS_CLEARED →
  clamp_debounce_counter (debounce_counter st) (r_cfg r) ≤
    Z.max (confirmation_threshold (r_cfg r)) (healing_threshold (r_cfg r) - Z.of_nat k) →
  failing (r_cfg r) (S k) (report_entry r (Some st)).
Proof.
  intros Hs Hr Hev Hcl Hc. simpl.
  rewrite (proj2 (str_eqb_neq _ _) Hcl), Hev. change (EVENT_FAILED =? EVENT_FAILED) with true.
  cbn iota. eexists. split; [done|].
  pose proof (failed_update_counter (r_sev r) (r_descr r) (r_source r) (r_time r) _ st Hs Hr) as Hu.
  pose proof (clamp_in_band (r_cfg r) (debounce_counter st) Hs) as Hb.
  destruct Hs as [Hs1 Hs2].
  destruct (critical_confirms _ _); cbn [with_status update_status debounce_counter status];
    rewrite ?Hu; unfold in_band in *; (split_and!; [|lia..|]); try done.
  - apply compute_status_not_cleared. by left.
  - intros ?. by apply compute_status_confirm.
Qed.

Lemma report_failing r o k :
  sane (r_cfg r) → room_i32 (r_cfg r) → r_event r = EVENT_FAILED →
  k = O ∨ failing (r_cfg r) k o →
  failing (r_cfg r) (S k) (report_entry r o).
Proof.
  intros Hs Hr Hev [-> | (st & -> & Hcl & Hb & Hle & Hc)].
  - destruct o as [st|].
    + destruct (decide (status st = STATUS_CLEARED)) as [E|E].
      * simpl. rewrite E, Hev. change (EVENT_FAILED =? EVENT_FAILED) with true. simpl.
        by apply reactivate_fault_failing.
      * apply failed_live_failing; try done.
        pose proof (clamp_in_band (r_cfg r) (debounce_counter st) Hs) as [??]. lia.
    + simpl. rewrite Hev. change (EVENT_FAILED =? EVENT_FAILED) with true. simpl.
      by apply new_fault_status_ok.
  - apply failed_live_failing; try done. by rewrite clamp_id.
Qed.

Lemma burst_failing code cfg rs s :
  sane cfg → room_i32 cfg → failed_burst code cfg rs → rs ≠ [] →
  failing cfg (length rs) (faults (run_reports rs s).2 !! code).
Proof.
  intros Hs Hr. induction rs as [|r rs IH] using rev_ind; [done|].
  unfold failed_burst. rewrite Forall_app, Forall_singleton. intros [Hall (<- & Hev & <-)] _.
  rewrite run_reports_snoc, report_faults, lookup_partial_alter_eq, length_app, Nat.add_comm.
  apply report_failing; [done..|].
  destruct rs as [|r' rs]; [by left|right]. by apply IH.
Qed.

(** After [healing_threshold - confirmation_threshold] FAILED reports of one
    code under one sane configuration the fault is CONFIRMED, whatever the
    storage held for that code before (absent, cleared, healed, pending). *)
Theorem burst_confirms code cfg rs s :
  sane cfg → room_i32 cfg → failed_burst code cfg rs → (band_width cfg ≤ length rs)%nat →
  ∃ st, faults (run_reports rs s).2 !! code = Some st ∧ status st = STATUS_CONFIRMED.
Proof.
  intros Hs Hr Hb Hlen.
  assert (rs ≠ []) as Hne.
  { intros ->. destruct Hs. unfold band_width in Hlen. simpl in Hlen. lia. }
  destruct (burst_failing code cfg rs s Hs Hr Hb Hne) as (st & Hst & _ & _ & Hle & Hc).
  exists st. split; [done|]. apply Hc. unfold band_width in Hlen. lia.
Qed.

(** ** Refinement: a live entry follows the debounce automaton *)

Definition automaton_step (r : Report) (p : Z * string) : Z * string :=
  debounce_step (r_cfg r) (r_event r =? EVENT_FAILED) p.

Definition automaton_run (rs : list Report) (p : Z * string) : Z * string :=
  foldl (λ p r, automaton_step r p) p rs.

(** A report for [code] that the CRITICAL bypass does not apply to. *)
Definition debounced (code : string) (r : Report) : Prop :=
  r_code r = code ∧ (r_event r = EVENT_FAILED → critical_confirms (r_cfg r) (r_sev r) = false).

Lemma report_entry_automaton code r st :
  debounced code r → status st ≠ STATUS_CLEARED →
  ∃ st', report_entry r (Some st) = Some st' ∧ status st' ≠ STATUS_CLEARED ∧
    (debounce_counter st', status st') = automaton_step r (debounce_counter st, status st).
Proof.
  intros [_ Hcr] Hcl. unfold automaton_step, debounce_step. simpl.
  rewrite (proj2 (str_eqb_neq _ _) Hcl).
  destruct (r_event r =? EVENT_FAILED) eqn:Ev; bool_simpl.
  - rewrite Hcr by done. eexists. split_and!; [done| |done].
    apply compute_status_not_cleared. by left.
  - eexists. split_and!; [done| |done]. apply compute_status_not_cleared. by left.
Qed.

(** A run of debounced reports on a live entry is an automaton run. *)
Lemma live_run_automaton code rs s st :
  faults s !! code = Some st → status st ≠ STATUS_CLEARED → Forall (debounced code) rs →
  ∃ st', faults (run_reports rs s).2 !! code = Some st' ∧ status st' ≠ STATUS_CLEARED ∧
    (debounce_counter st', status st') = automaton_run rs (debounce_counter st, status st).
Proof.
  intros Hst Hcl Hall. revert s st Hst Hcl.
  induction Hall as [|r rs Hr Hall IH]; intros s st Hst Hcl; [by exists st|].
  rewrite run_reports_cons; simpl.
  destruct (report_entry_automaton code r st Hr Hcl) as (st1 & H1 & Hcl1 & Hp).
  rewrite <- Hp. apply (IH (report r s).2 st1); [|done].
  destruct Hr as [<- _]. by rewrite report_faults, lookup_partial_alter_eq, Hst.
Qed.

(** An automaton run whose reports share configuration and direction. *)
Lemma automaton_run_iter cfg b rs p :
  Forall (λ r, r_cfg r = cfg ∧ (r_event r =? EVENT_FAILED) = b) rs →
  automaton_run rs p = debounce_iter cfg b (length rs) p.
Proof.
  intros Hall. revert p. induction Hall as [|r rs [<- <-] _ IH]; intros p; [done|]. apply IH.
Qed.

(** A report that confirms at once, whatever the counter says. *)
Definition immediate (r : Report) : Prop :=
  r_event r = EVENT_FAILED ∧ r_sev r = SEVERITY_CRITICAL ∧ critical_immediate_confirm (r_cfg r) = true.

#[global] Instance immediate_dec r : Decision (immediate r).
Proof. unfold immediate. apply _. Defined.

(** The abstract debouncer of [code] on one report: a report for another fault is
    not its business, and one that confirms at once moves the level all the same. *)
Definition debouncer_report (code : string) (d : debouncer) (r : Report) : debouncer :=
  if bool_decide (r_code r = code) then
    let d' := debouncer_step (r_cfg r) (r_event r =? EVENT_FAILED) d in
    if bool_decide (immediate r) then mkDebouncer (level d') ConfirmedLatch else d'
  else d.

Definition debouncer_run (code : string) (rs : list Report) (d : debouncer) : debouncer :=
  foldl (debouncer_report code) d rs.

(** What an entry shows of a debouncer. *)
Definition shows (d : debouncer) (st : FaultState) : Prop :=
  debounce_counter st = level d ∧ status st = phase_status (in_phase d).

Lemma immediate_critical r :
  r_event r = EVENT_FAILED → bool_decide (immediate r) = critical_confirms (r_cfg r) (r_sev r).
Proof.
  intros Hev. unfold critical_confirms. apply eq_iff_eq_true. rewrite bool_decide_eq_true. unfold immediate.
  rewrite andb_true_iff, Z.eqb_eq. tauto.
Qed.

Lemma report_entry_shows r st d :
  shows d st → sane (r_cfg r) → room_i32 (r_cfg r) →
  ∃ st', report_entry r (Some st) = Some st' ∧ shows (debouncer_report (r_code r) d r) st'.
Proof.
  intros [Hl Hp] Hs Hr. pose proof (debounce_step_refines (r_cfg r) (r_event r =? EVENT_FAILED) d Hs Hr) as Hstep.
  rewrite <- Hl, <- Hp in Hstep. unfold debouncer_report, shows. rewrite bool_decide_true by done.
  assert (status st =?ₛ STATUS_CLEARED = false) as Hcl by (rewrite Hp; by destruct (in_phase d)).
  unfold debounce_step in Hstep. cbn [fst snd] in Hstep. injection Hstep as H1 H2.
  simpl. rewrite Hcl. destruct (Z.eqb_spec (r_event r) EVENT_FAILED) as [Ev|Ev].
  - rewrite immediate_critical by done. destruct (critical_confirms _ _); eexists; (split; [done|]); split; simpl; done.
  - rewrite bool_decide_false by by intros [? _]. eexists. split; [done|]. split; simpl; done.
Qed.

(** C1: On a live entry any sequence of FAILED and PASSED reports, for it or for
    other faults and each with its own configuration, moves the entry as the
    abstract debouncer moves: a level on the unbounded integers that saturates at
    the two thresholds, and a phase that becomes CONFIRMED at the lower one or by a
    report of CRITICAL severity that confirms at once, HEALED at the upper one (with
    healing on), stays there in between, and otherwise follows the sign of the
    level.  The configurations are sane, as the repair at start-up leaves them, and
    their thresholds are not the extreme values of [int32_t]. *)
Theorem live_reports_refine_automaton code rs s st d :
  faults s !! code = Some st → shows d st →
  Forall (λ r, r_code r = code → sane (r_cfg r) ∧ room_i32 (r_cfg r)) rs →
  ∃ st', faults (run_reports rs s).2 !! code = Some st' ∧ shows (debouncer_run code rs d) st'.
Proof.
  intros Hst Hd Hall. revert s st d Hst Hd. induction Hall as [|r rs Hr Hall IH]; intros s st d Hst Hd; [by exists st|].
  rewrite run_reports_cons. cbn [snd]. unfold debouncer_run. cbn [foldl]. fold (debouncer_run code rs).
  assert (∃ st1, faults (report r s).2 !! code = Some st1 ∧ shows (debouncer_report code d r) st1) as (st1 & H1 & H2); [|by eapply IH].
  rewrite report_faults. destruct (decide (r_code r = code)) as [<-|Hne].
  - destruct (Hr eq_refl). rewrite lookup_partial_alter_eq, Hst. by apply report_entry_shows.
  - rewrite lookup_partial_alter_ne by done. exists st. split; [done|]. unfold debouncer_report. by rewrite bool_decide_false by done.
Qed.

(** A HEALED entry resting at the healing threshold stays HEALED (and so
    out of the default list) under every run of fewer than
    [healing_threshold - confirmation_threshold] FAILED reports. *)
Theorem healed_latch code cfg rs s st :
  sane cfg → room_i32 cfg →
  faults s !! code = Some st → status st = STATUS_HEALED →
  debounce_counter st = healing_threshold cfg →
  failed_burst code cfg rs → Forall (debounced code) rs → (length rs < band_width cfg)%nat →
  ∃ st', faults (run_reports rs s).2 !! code = Some st' ∧ status st' = STATUS_HEALED.
Proof.
  intros Hs Hr Hst Hheal Hcnt Hb Hd Hlen.
  destruct (live_run_automaton code rs s st) as (st' & H1 & _ & Hp);
    [done|by rewrite Hheal|done|].
  exists st'. split; [done|].
  rewrite (automaton_run_iter cfg true), Hheal, Hcnt in Hp.
  - change (status st') with (debounce_counter st', status st').2. rewrite Hp.
    by apply healed_latch_holds.
  - eapply Forall_impl; [exact Hb|]. intros r (_ & -> & ->). done.
Qed.

(** ** Occurrence counting *)

(** Number of [true] answers to the reports for [code]. *)
Definition edges (code : string) (rs : list Report) (answers : list bool) : Z :=
  Z.of_nat (length (filter (λ p, r_code p.1 = code ∧ p.2 = true) (zip rs answers))).

Definition count_of (o : option FaultState) : Z :=
  match o with Some st => occurrence_count st | None => 0 end.

Lemma report_entry_count r s :
  0 ≤ count_of (faults s !! r_code r) ≤ uint32_max →
  count_of (report_entry r (faults s !! r_code r)) =
    Z.min uint32_max (count_of (faults s !! r_code r) + if (report r s).1 then 1 else 0).
Proof.
  intros Hok. unfold report, report_fault_event.
  destruct (faults s !! r_code r) as [st|]; simpl in *.
  - destruct (status st =?ₛ STATUS_CLEARED), (r_event r =? EVENT_FAILED); simpl.
    + unfold reactivate_fault. case_match; simpl; case_match; bool_simpl; lia.
    + lia.
    + case_match; simpl; lia.
    + lia.
  - destruct (r_event r =? EVENT_FAILED); simpl; [|lia].
    unfold new_fault. case_match; simpl; unfold uint32_max; lia.
Qed.

(** [occurrence_count] counts the edges: over any run of reports it grows
    by the number of reports of the code that were answered "new occurrence",
    saturating at the largest [uint32_t]. *)
Theorem occurrence_count_counts_edges code rs s :
  0 ≤ count_of (faults s !! code) ≤ uint32_max →
  count_of (faults (run_reports rs s).2 !! code) =
    Z.min uint32_max (count_of (faults s !! code) + edges code rs (run_reports rs s).1).
Proof.
  revert s. induction rs as [|r rs IH]; intros s Hok.
  - simpl. unfold edges. simpl. lia.
  - rewrite run_reports_cons; simpl. unfold edges; simpl. rewrite filter_cons; simpl.
    assert (Hstep : count_of (faults (report r s).2 !! code) =
      Z.min uint32_max (count_of (faults s !! code) +
        if decide (r_code r = code ∧ (report r s).1 = true) then 1 else 0)).
    { rewrite report_faults. destruct (decide (r_code r = code)) as [<-|Hne].
      - rewrite lookup_partial_alter_eq, report_entry_count by done.
        destruct (report r s).1; case_decide; naive_solver lia.
      - rewrite lookup_partial_alter_ne by done. case_decide; naive_solver lia. }
    rewrite IH, Hstep; [|rewrite Hstep; case_decide; unfold uint32_max in *; lia].
    unfold edges. case_decide; simpl; lia.
Qed.

(** ** Lifecycle events and the near-miss log *)

Inductive event :=
  | EvReport (r : Report)
  | EvClear (code : string)
  | EvTick (now : Z)
  | EvReclassify.

Definition exec (e : event) (s : InMemoryFaultStorage) : InMemoryFaultStorage :=
  match e with
  | EvReport r => (report r s).2
  | EvClear c => (clear_fault c s).2
  | EvTick t => (check_time_based_confirmation t s).2
  | EvReclassify => (reclassify_healed_as_cleared s).2
  end.

Definition exec_all (es : list event) (s : InMemoryFaultStorage) : InMemoryFaultStorage :=
  foldl (λ s e, exec e s) s es.

Definition event_cfg_ok (e : event) : Prop :=
  match e with EvReport r => cfg_i32 (r_cfg r) | _ => True end.

Lemma exec_ok e s : event_cfg_ok e → events_ok s → events_ok (exec e s).
Proof.
  destruct e; simpl; intros.
  - by apply report_ok.
  - by apply clear_fault_ok.
  - by apply tick_ok.
  - by apply reclassify_ok.
Qed.

Lemma exec_near_misses e s c :
  events_ok s →
  get_near_misses c (exec e s) =
    match e with
    | EvReport r =>
        if decide (c = r_code r)
        then push_bounded (max_near_misses_per_fault s) (get_near_misses c s)
               (near_miss_of r (faults s !! r_code r))
        else get_near_misses c s
    | _ => get_near_misses c s
    end.
Proof.
  intros Hok. destruct e as [r|c'|t|]; simpl.
  - apply report_near_misses. intros st Hst. apply (eok_faults s Hok _ _ Hst).
  - unfold clear_fault. by repeat (case_match; simpl).
  - unfold check_time_based_confirmation. by case_match.
  - unfold reclassify_healed_as_cleared. simpl. by case_match.
Qed.

Lemma exec_max e s : max_near_misses_per_fault (exec e s) = max_near_misses_per_fault s.
Proof.
  destruct e as [r|c'|t|]; simpl.
  - apply report_max.
  - unfold clear_fault. by repeat (case_match; simpl).
  - unfold check_time_based_confirmation. by case_match.
  - unfold reclassify_healed_as_cleared. simpl. by case_match.
Qed.

Lemma exec_config e s : config (exec e s) = config s.
Proof.
  destruct e as [r|c'|t|]; simpl.
  - unfold report, report_fault_event, note_near_miss, record_near_miss.
    by repeat (case_match; simpl).
  - unfold clear_fault. by repeat (case_match; simpl).
  - unfold check_time_based_confirmation. by case_match.
  - unfold reclassify_healed_as_cleared. simpl. by case_match.
Qed.

(** The entries after an event depend on the entries and the stored
    configuration only. *)
Lemma exec_faults_det e s u :
  faults s = faults u → config s = config u → faults (exec e s) = faults (exec e u).
Proof.
  intros Hf Hc. destruct e as [r|c'|t|]; simpl.
  - by rewrite !report_faults, Hf.
  - unfold clear_fault. rewrite <- Hf. destruct (faults s !! c'); simpl; [|done].
    by repeat case_match; simpl; rewrite <- ?Hf.
  - unfold check_time_based_confirmation. rewrite <- Hc, <- Hf.
    by case_match; simpl.
  - unfold reclassify_healed_as_cleared. simpl. rewrite <- !Hf. by repeat case_match.
Qed.

(** A bounded storage next to one with the same history and no bound. *)
Record bounded_view (m : nat) (s u : InMemoryFaultStorage) : Prop := {
  bv_ok : events_ok s;
  bv_ok_u : events_ok u;
  bv_faults : faults s = faults u;
  bv_config : config s = config u;
  bv_max : max_near_misses_per_fault s = m;
  bv_max_u : max_near_misses_per_fault u = O;
  bv_series : ∀ c, get_near_misses c s = last_n m (get_near_misses c u);
}.

Lemma bounded_view_exec m e s u :
  (0 < m)%nat → event_cfg_ok e → bounded_view m s u → bounded_view m (exec e s) (exec e u).
Proof.
  intros Hm He [H1 H2 H3 H4 H5 H6 H7].
  constructor; try by (apply exec_ok || (rewrite exec_max)).
  - by apply exec_faults_det.
  - by rewrite !exec_config.
  - intros c. rewrite !exec_near_misses, H3, H5, H6 by done.
    destruct e as [r|c'|t|]; [|apply H7..].
    case_decide; [|apply H7].
    unfold push_bounded. destruct (near_miss_of _ _) as [|n new]; [apply H7|].
    rewrite (proj2 (Nat.eqb_neq m 0)) by lia. simpl.
    by rewrite H7, last_n_app.
Qed.

Lemma bounded_view_exec_all m es s u :
  (0 < m)%nat → Forall event_cfg_ok es → bounded_view m s u →
  bounded_view m (exec_all es s) (exec_all es u).
Proof.
  intros Hm Hes. revert s u. induction Hes as [|e es He Hes IH]; intros s u Hv; [done|].
  apply IH. by apply bounded_view_exec.
Qed.

(** C23: The bounded near-miss series is, after any lifecycle history, the newest
    [m] entries of the series an unbounded backend would hold: eviction only
    forgets the oldest records, and nothing else (no clear, no timer) removes
    any. *)
Theorem near_miss_series_refines_log m es s code :
  (0 < m)%nat → Forall event_cfg_ok es → events_ok s → max_near_misses_per_fault s = m →
  get_near_misses code (exec_all es s) =
    last_n m (get_near_misses code (exec_all es (set_near_miss_bound 0 s))).
Proof.
  intros Hm Hes Hok Hmax. apply bounded_view_exec_all; [done..|].
  destruct Hok as [Hf Hs]. constructor; try done.
  - split; [done|]. intros c. split; [apply Hs|simpl; lia].
  - intros c. rewrite last_n_all; [done|]. destruct (Hs c) as [_ H].
    rewrite Hmax in H. by apply H.
Qed.

(** The unbounded series is append-only: every event leaves the series of
    every code as it was, or with new records behind it, each of a report that
    left the fault unconfirmed. *)
Theorem near_miss_log_append_only es s code :
  Forall event_cfg_ok es → events_ok s → max_near_misses_per_fault s = O →
  ∃ new, get_near_misses code (exec_all es s) = get_near_misses code s ++ new ∧
    Forall (near_miss_ok code) new.
Proof.
  intros Hes. revert s. induction Hes as [|e es He Hes IH]; intros s Hok Hmax.
  - exists []. by rewrite app_nil_r.
  - destruct (IH (exec e s)) as (new & Hnew & Hall);
      [by apply exec_ok|by rewrite exec_max|].
    simpl. fold (exec_all es (exec e s)). rewrite Hnew, exec_near_misses by done.
    destruct e as [r|c'|t|]; [|by exists new..].
    case_decide as Hc; [|by exists new]. subst code. rewrite Hmax.
    assert (Forall (near_miss_ok (r_code r)) (near_miss_of r (faults s !! r_code r))) as Hn.
    { apply near_miss_of_ok; [done|]. intros st Hst. apply (eok_faults s Hok _ _ Hst). }
    exists (near_miss_of r (faults s !! r_code r) ++ new). split.
    + unfold push_bounded. destruct (near_miss_of _ _); [done|]. simpl.
      by rewrite <- app_assoc.
    + by apply Forall_app.
Qed.
