(* ===== verification/FaultQueries.v ===== *)
(** * Queries, acknowledgement and frame properties of the fault store

    What the list queries return, what [clear_fault] and the time-based
    confirmation change, and what a report leaves alone (fault_storage.cpp). *)

From S2P Require Import Prelude FaultTypes Debounce FaultEvents.
Open Scope Z_scope.

(** ** Listing *)

(** The statuses a request asks for: the known ones it names, and CONFIRMED
    alone when it names none. *)
Definition requested (statuses : list string) (st : string) : Prop :=
  (st ∈ statuses ∧ is_known_status st = true) ∨
  ((∀ x, x ∈ statuses → is_known_status x = false) ∧ st = STATUS_CONFIRMED).

Lemma elem_of_status_filter statuses st :
  st ∈ status_filter statuses ↔ requested statuses st.
Proof.
  unfold status_filter, requested.
  destruct statuses as [|s0 sts]; [set_solver|].
  set (l := s0 :: sts). clearbody l.
  set (valid := list_to_set (filter (λ s, is_known_status s = true) l) : gset string).
  assert (Hv : ∀ x, x ∈ valid ↔ x ∈ l ∧ is_known_status x = true).
  { intros x. subst valid. rewrite elem_of_list_to_set, list_elem_of_filter. naive_solver. }
  case_decide as He.
  - assert (Hno : ∀ x, x ∈ l → is_known_status x = false).
    { intros x Hx. destruct (is_known_status x) eqn:E; [|done].
      exfalso. apply (not_elem_of_empty (C:=gset string) x). rewrite <- He. by apply Hv. }
    rewrite elem_of_singleton. split; [by right|].
    intros [[Hin Hk]|[_ ?]]; [|done]. by rewrite Hno in Hk.
  - rewrite Hv. split; [by left|]. intros [?|[Hno _]]; [done|].
    apply set_choose_L in He as [x Hx]. apply Hv in Hx as [Hx Hk].
    by rewrite Hno in Hk.
Qed.

(** [list_faults] returns exactly the stored faults whose status was asked
    for (CONFIRMED when the request names no known status) and, with the
    severity filter on, whose severity matches; one message per fault, in
    increasing order of fault code. *)
Theorem list_faults_spec fbs sev statuses s :
  events_ok s →
  (∀ m, m ∈ list_faults fbs sev statuses s ↔
     ∃ code st, faults s !! code = Some st ∧ m = to_msg st ∧
       requested statuses (status st) ∧ (fbs = true → severity st = sev)) ∧
  StronglySorted String.le (msg_fault_code <$> list_faults fbs sev statuses s) ∧
  NoDup (msg_fault_code <$> list_faults fbs sev statuses s).
Proof.
  intros Hok. unfold list_faults.
  assert (Hcode : ∀ l, l ⊆ map_entries (faults s) →
    msg_fault_code <$> ((λ e : string * FaultState, to_msg e.2) <$> l) = l.*1).
  { intros l Hl. rewrite <- list_fmap_compose. apply list_fmap_ext. intros i [c st] Hi.
    apply list_elem_of_lookup_2, Hl, elem_of_map_entries in Hi.
    apply (eok_faults s Hok _ _ Hi). }
  rewrite Hcode by (intros e He; by apply list_elem_of_filter in He as [_ ?]).
  split_and!.
  - intros m. rewrite list_elem_of_fmap. split.
    + intros ([c st] & -> & Hin). apply list_elem_of_filter in Hin as [Hk Hin].
      apply elem_of_map_entries in Hin. exists c, st. unfold listed in Hk; simpl in *.
      apply andb_true_iff in Hk as [Hk1 Hk2]. apply bool_decide_eq_true in Hk1.
      rewrite elem_of_status_filter in Hk1. split_and!; try done.
      intros ->. simpl in Hk2. rewrite negb_involutive in Hk2. by bool_simpl.
    + intros (c & st & Hst & -> & Hreq & Hsev). exists (c, st). split; [done|].
      apply list_elem_of_filter. split; [|by apply elem_of_map_entries].
      unfold listed; simpl.
      rewrite (bool_decide_eq_true_2 _ (proj2 (elem_of_status_filter _ _) Hreq)).
      destruct fbs; [|done]. rewrite Hsev by done. by rewrite Z.eqb_refl.
  - eapply (StronglySorted_fmap fst key_le String.le); [done|].
    apply StronglySorted_filter, map_entries_sorted.
  - apply NoDup_fmap_filter, NoDup_map_entries_keys.
Qed.

(** ** Acknowledgement *)

(** [clear_fault] on a known code marks exactly that entry CLEARED, drops
    exactly that code's snapshots (none when retention is on), and keeps the
    freeze-frames, the near-miss series and the recordings; on an unknown code
    it answers [false] and changes nothing. *)
Theorem clear_fault_spec code s :
  match faults s !! code with
  | None => clear_fault code s = (false, s)
  | Some st =>
      let '(found, s') := clear_fault code s in
      found = true ∧
      faults s' = <[code := with_status STATUS_CLEARED st]> (faults s) ∧
      (∀ r, r ∈ snapshots s' ↔
         r ∈ snapshots s ∧ (retain_snapshots_on_clear s = true ∨ snap_fault_code r ≠ code)) ∧
      freeze_frames s' = freeze_frames s ∧ near_misses s' = near_misses s ∧
      rosbag_files s' = rosbag_files s
  end.
Proof.
  unfold clear_fault. destruct (faults s !! code) as [st|]; [|done].
  destruct (retain_snapshots_on_clear s) eqn:E; simpl; split_and!; try done.
  - naive_solver.
  - intros r. rewrite list_elem_of_filter. naive_solver.
Qed.

(** A cleared fault is deaf to PASSED reports, and the next FAILED report
    opens a new cycle: it is answered "new occurrence", restarts the counter at
    -1 and [first_occurred] at the report's time, and the fault is no longer
    CLEARED. *)
Theorem cleared_fault_reraise r s st :
  faults s !! r_code r = Some st → status st = STATUS_CLEARED →
  if decide (r_event r = EVENT_FAILED)
  then ∃ st', (report r s).1 = true ∧ faults (report r s).2 !! r_code r = Some st' ∧
         debounce_counter st' = -1 ∧ first_occurred st' = r_time r ∧
         last_occurred st' = r_time r ∧ status st' ≠ STATUS_CLEARED
  else report r s = (false, s).
Proof.
  intros Hst Hcl. case_decide as Hev.
  - exists (reactivate_fault (r_sev r) (r_descr r) (r_source r) (r_time r) (r_cfg r) st).
    split; [apply report_false_result; naive_solver|].
    rewrite report_faults, lookup_partial_alter_eq, Hst. simpl. rewrite Hcl, Hev.
    change (EVENT_FAILED =? EVENT_FAILED) with true. rewrite str_eqb_refl.
    unfold reactivate_fault. case_match; simpl; split_and!; try done.
    apply compute_status_not_cleared. right. lia.
  - unfold report, report_fault_event. rewrite Hst, Hcl.
    by rewrite (proj2 (Z.eqb_neq _ _) Hev).
Qed.

(** ** Frames *)

(** A report touches the entry and the near-miss series of its own code
    only; snapshots, freeze-frames, recordings and configuration stay. *)
Theorem report_frame r s :
  (∀ st, faults s !! r_code r = Some st → fault_code st = r_code r) →
  let s' := (report r s).2 in
  (∀ c, c ≠ r_code r → faults s' !! c = faults s !! c ∧
                       get_near_misses c s' = get_near_misses c s) ∧
  snapshots s' = snapshots s ∧ freeze_frames s' = freeze_frames s ∧
  rosbag_files s' = rosbag_files s ∧ config s' = config s.
Proof.
  intros Hcode. cbv zeta. split.
  - intros c Hne. rewrite report_faults, lookup_partial_alter_ne by done. split; [done|].
    rewrite report_near_misses by done. by rewrite decide_False.
  - unfold report, report_fault_event, note_near_miss, record_near_miss.
    by repeat (case_match; simpl).
Qed.

(** Everything of an entry but the counter, the status and the time of the last
    PASSED report. *)
Definition occurrence_part (st : FaultState) :=
  (fault_code st, severity st, description st, first_occurred st, last_occurred st,
   occurrence_count st, reporting_sources st, last_failed_time st).

(** A report that is not FAILED is never an occurrence: it creates no entry,
    records no near miss, is answered [false], and on an existing entry moves at
    most the debounce counter, the status and [last_passed_time]. *)
Theorem passed_report_is_not_an_occurrence r s :
  r_event r ≠ EVENT_FAILED →
  (report r s).1 = false ∧ near_misses (report r s).2 = near_misses s ∧
  dom (faults (report r s).2) = dom (faults s) ∧
  ∀ c st, faults s !! c = Some st → ∃ st', faults (report r s).2 !! c = Some st' ∧
    occurrence_part st' = occurrence_part st.
Proof.
  intros Hev. pose proof (proj2 (Z.eqb_neq _ _) Hev) as Hb. split_and!.
  - destruct (report r s).1 eqn:E; [|done]. apply report_false_result in E. naive_solver.
  - unfold report, report_fault_event. rewrite Hb.
    unfold note_near_miss, is_near_miss; simpl. by repeat (case_match; simpl).
  - rewrite report_faults. apply set_eq. intros c. rewrite !elem_of_dom.
    destruct (decide (c = r_code r)) as [->|Hne].
    + rewrite lookup_partial_alter_eq. unfold report_entry. rewrite Hb.
      by repeat (case_match; simpl).
    + by rewrite lookup_partial_alter_ne.
  - intros c st Hst. rewrite report_faults.
    destruct (decide (c = r_code r)) as [->|Hne].
    + rewrite lookup_partial_alter_eq, Hst. simpl. rewrite Hb. case_match; eauto.
    + rewrite lookup_partial_alter_ne by done. eauto.
Qed.

(** ** Time-based confirmation *)

(** The timer confirms exactly the PREFAILED entries whose last FAILED
    report is at least [auto_confirm_after_sec] old (double arithmetic of the
    code), reports exactly their codes in increasing order, leaves every other
    entry as it was, and does nothing at all when the option is off. *)
Theorem time_based_confirmation_spec now s :
  let '(codes, s') := check_time_based_confirmation now s in
  if f64_leb (auto_confirm_after_sec (config s)) f64_zero
  then codes = [] ∧ s' = s
  else
    (∀ c, c ∈ codes ↔ ∃ st, faults s !! c = Some st ∧
                        due_for_confirmation (config s) now st = true) ∧
    StronglySorted String.le codes ∧ NoDup codes ∧
    (∀ c, faults s' !! c = (λ st, if due_for_confirmation (config s) now st
                                  then with_status STATUS_CONFIRMED st else st) <$> faults s !! c).
Proof.
  unfold check_time_based_confirmation.
  destruct (f64_leb _ _); [done|]. split_and!.
  - intros c. rewrite list_elem_of_fmap. split.
    + intros ([c' st] & -> & Hin). apply list_elem_of_filter in Hin as [Hd Hin].
      apply elem_of_map_entries in Hin. by exists st.
    + intros (st & Hst & Hd). exists (c, st). split; [done|].
      apply list_elem_of_filter. split; [done|]. by apply elem_of_map_entries.
  - eapply (StronglySorted_fmap fst key_le String.le); [done|].
    apply StronglySorted_filter, map_entries_sorted.
  - apply NoDup_fmap_filter, NoDup_map_entries_keys.
  - intros c. simpl. by rewrite lookup_fmap.
Qed.
