(* ===== verification/Snapshots.v ===== *)
(** * Value snapshots and freeze-frames of the in-memory storage

    [store_snapshots] with its per-fault cap, [get_snapshots],
    [get_max_capture_id] and the freeze-frame table (fault_storage.cpp). *)

From S2P Require Import Prelude FaultTypes.
Open Scope Z_scope.

(** ** Operations *)

Definition rows_for_fault (code : string) (rows : list SnapshotData) : nat :=
  length (filter (λ r, snap_fault_code r = code) rows).

(** The [newest] / [have_newest] loop. *)
Definition newest_capture (code : string) (rows : list SnapshotData) : option Z :=
  foldl (λ acc r,
    if (snap_fault_code r =?ₛ code)
       && match acc with None => true | Some newest => newest <? snap_capture_id r end
    then Some (snap_capture_id r) else acc) None rows.

(** The [oldest] / [found] loop. *)
Definition oldest_other (code : string) (newest : Z) (rows : list SnapshotData) : option Z :=
  foldl (λ acc r,
    if (snap_fault_code r =?ₛ code) && negb (snap_capture_id r =? newest)
       && match acc with None => true | Some oldest => snap_capture_id r <? oldest end
    then Some (snap_capture_id r) else acc) None rows.

Definition drop_capture (code : string) (id : Z) (rows : list SnapshotData) : list SnapshotData :=
  filter (λ r, ¬ (snap_fault_code r = code ∧ snap_capture_id r = id)) rows.

(** The eviction [while] loop; [fuel] bounds the number of iterations. *)
Fixpoint evict_captures (fuel : nat) (max : nat) (code : string) (newest : Z)
    (rows : list SnapshotData) : list SnapshotData :=
  match fuel with
  | O => rows
  | S fuel' =>
      if (max <? rows_for_fault code rows)%nat then
        match oldest_other code newest rows with
        | None => rows
        | Some oldest => evict_captures fuel' max code newest (drop_capture code oldest rows)
        end
      else rows
  end.

Definition store_snapshots (snaps : list SnapshotData) (s : InMemoryFaultStorage)
    : InMemoryFaultStorage :=
  match snaps with
  | [] => s
  | front :: _ =>
      let code := snap_fault_code front in
      let updated := snapshots s ++ snaps in
      let max := max_snapshots_per_fault s in
      let updated :=
        if (0 <? max)%nat then
          match newest_capture code updated with
          | Some newest => evict_captures (length updated) max code newest updated
          | None => updated
          end
        else updated in
      with_snapshots updated s
  end.

Definition store_snapshot (snap : SnapshotData) (s : InMemoryFaultStorage) :=
  store_snapshots [snap] s.

(** [std::tie(b.capture_id, b.captured_at_ns) < std::tie(a.capture_id, a.captured_at_ns)] *)
Definition newer_first (a b : SnapshotData) : bool :=
  (snap_capture_id b <? snap_capture_id a)
  || ((snap_capture_id b =? snap_capture_id a)
      && (snap_captured_at_ns b <? snap_captured_at_ns a)).

Definition get_snapshots (code topic_filter : string) (s : InMemoryFaultStorage)
    : list SnapshotData :=
  stable_sort newer_first
    (filter (λ r, snap_fault_code r = code ∧
                  (topic_filter = "" ∨ snap_topic r = topic_filter)) (snapshots s)).

Definition get_max_capture_id (s : InMemoryFaultStorage) : Z :=
  foldl (λ acc r, Z.max acc (snap_capture_id r)) 0 (snapshots s).

Definition store_freeze_frame (frame : FreezeFrameData) (s : InMemoryFaultStorage) :=
  with_freeze_frames (<[ff_fault_code frame := frame]> (freeze_frames s)) s.

Definition get_freeze_frame (code : string) (s : InMemoryFaultStorage)
    : option FreezeFrameData := freeze_frames s !! code.

(** ** The scanning loops *)

Definition ids_of (code : string) (rows : list SnapshotData) : list Z :=
  snap_capture_id <$> filter (λ r, snap_fault_code r = code) rows.

Lemma elem_of_ids_of code rows i :
  i ∈ ids_of code rows ↔ ∃ r, r ∈ rows ∧ snap_fault_code r = code ∧ snap_capture_id r = i.
Proof.
  unfold ids_of. rewrite list_elem_of_fmap. setoid_rewrite list_elem_of_filter. naive_solver.
Qed.

Lemma newest_capture_snoc code rows r :
  newest_capture code (rows ++ [r]) =
    if (snap_fault_code r =?ₛ code)
       && match newest_capture code rows with
          | None => true | Some newest => newest <? snap_capture_id r end
    then Some (snap_capture_id r) else newest_capture code rows.
Proof. unfold newest_capture. by rewrite foldl_app. Qed.

Lemma ids_of_snoc code rows r :
  ids_of code (rows ++ [r]) =
    ids_of code rows ++ (if snap_fault_code r =?ₛ code then [snap_capture_id r] else []).
Proof.
  unfold ids_of. rewrite filter_app, fmap_app. f_equal.
  rewrite filter_cons. unfold str_eqb. case_decide; by case_bool_decide.
Qed.

(** The first loop finds the largest capture id of the fault. *)
Lemma newest_capture_spec code rows :
  match newest_capture code rows with
  | None => ids_of code rows = []
  | Some n => n ∈ ids_of code rows ∧ ∀ i, i ∈ ids_of code rows → i ≤ n
  end.
Proof.
  induction rows as [|r rows IH] using rev_ind; [done|].
  rewrite newest_capture_snoc, ids_of_snoc.
  destruct (snap_fault_code r =?ₛ code); simpl; [|by rewrite app_nil_r].
  destruct (newest_capture code rows) as [n|].
  - destruct IH as [IH1 IH2]. destruct (n <? snap_capture_id r) eqn:E; bool_simpl.
    + split; [set_solver|]. intros i [Hi|Hi]%elem_of_app; [|set_solver].
      specialize (IH2 i Hi). lia.
    + split; [set_solver|]. intros i [Hi|Hi%list_elem_of_singleton]%elem_of_app; [auto|lia].
  - rewrite IH; simpl. split; [set_solver|]. intros i Hi%list_elem_of_singleton. lia.
Qed.

Lemma oldest_other_snoc code n rows r :
  oldest_other code n (rows ++ [r]) =
    if (snap_fault_code r =?ₛ code) && negb (snap_capture_id r =? n)
       && match oldest_other code n rows with
          | None => true | Some oldest => snap_capture_id r <? oldest end
    then Some (snap_capture_id r) else oldest_other code n rows.
Proof. unfold oldest_other. by rewrite foldl_app. Qed.

(** The second loop finds the smallest capture id that is not the newest. *)
Lemma oldest_other_spec code n rows :
  match oldest_other code n rows with
  | None => ∀ i, i ∈ ids_of code rows → i = n
  | Some o => o ∈ ids_of code rows ∧ o ≠ n ∧ ∀ i, i ∈ ids_of code rows → i ≠ n → o ≤ i
  end.
Proof.
  induction rows as [|r rows IH] using rev_ind; [intros i Hi; by apply elem_of_nil in Hi|].
  rewrite oldest_other_snoc, ids_of_snoc.
  destruct (snap_fault_code r =?ₛ code); simpl; [|by rewrite app_nil_r].
  destruct (snap_capture_id r =? n) eqn:En; simpl; bool_simpl.
  - destruct (oldest_other code n rows) as [o|].
    + destruct IH as (H1 & H2 & H3). split_and!; [set_solver|done|].
      intros i [Hi|Hi%list_elem_of_singleton]%elem_of_app ?; [auto|lia].
    + intros i [Hi|Hi%list_elem_of_singleton]%elem_of_app; [auto|lia].
  - destruct (oldest_other code n rows) as [o|].
    + destruct IH as (H1 & H2 & H3). destruct (snap_capture_id r <? o) eqn:E; bool_simpl.
      * split_and!; [set_solver|done|].
        intros i [Hi|Hi%list_elem_of_singleton]%elem_of_app ?; [|lia].
        specialize (H3 i Hi). lia.
      * split_and!; [set_solver|done|].
        intros i [Hi|Hi%list_elem_of_singleton]%elem_of_app ?; [auto|lia].
    + split_and!; [set_solver|done|].
      intros i [Hi|Hi%list_elem_of_singleton]%elem_of_app ?; [|lia].
      exfalso. naive_solver.
Qed.

(** ** Eviction keeps whole captures, newest first *)

(** The rows left after evicting this fault's captures older than [cutoff]. *)
Definition kept (code : string) (cutoff : Z) (r : SnapshotData) : Prop :=
  snap_fault_code r ≠ code ∨ cutoff ≤ snap_capture_id r.

#[global] Instance kept_dec code cutoff r : Decision (kept code cutoff r).
Proof. unfold kept. apply _. Defined.

Lemma elem_of_ids_kept code c rows i :
  i ∈ ids_of code (filter (kept code c) rows) ↔ i ∈ ids_of code rows ∧ c ≤ i.
Proof.
  rewrite !elem_of_ids_of. setoid_rewrite list_elem_of_filter. unfold kept. naive_solver.
Qed.

Lemma filter_kept_all code c rows :
  (∀ i, i ∈ ids_of code rows → c ≤ i) → filter (kept code c) rows = rows.
Proof.
  intros H. apply filter_all. intros r Hr.
  destruct (decide (snap_fault_code r = code)); [|by left]. right. apply H, elem_of_ids_of. eauto.
Qed.

Lemma filter_kept_cong code c d rows :
  (∀ i, i ∈ ids_of code rows → c ≤ i ↔ d ≤ i) →
  filter (kept code c) rows = filter (kept code d) rows.
Proof.
  intros H. apply filter_ext_elem. intros r Hr. unfold kept.
  destruct (decide (snap_fault_code r = code)); [|naive_solver].
  rewrite (H (snap_capture_id r)); [done|]. apply elem_of_ids_of. eauto.
Qed.

(** Dropping the oldest capture moves the cutoff just past it. *)
Lemma drop_capture_kept code c o rows :
  (∀ i, i ∈ ids_of code (filter (kept code c) rows) → o ≤ i) → c ≤ o →
  drop_capture code o (filter (kept code c) rows) = filter (kept code (o + 1)) rows.
Proof.
  intros H Hco. unfold drop_capture. rewrite list_filter_filter.
  apply filter_ext_elem. intros r Hr. unfold kept.
  destruct (decide (snap_fault_code r = code)) as [Hc|]; [|naive_solver].
  split; [|intros [?|?]; [done|]; split; [intros [_ ?]; lia|right; lia]].
  intros [Hne [?|Hle]]; [done|]. right.
  assert (o ≤ snap_capture_id r); [|destruct (decide (snap_capture_id r = o)); [naive_solver|lia]].
  apply H, elem_of_ids_kept. split; [|done]. apply elem_of_ids_of. eauto.
Qed.

Lemma drop_capture_shrinks code o rows :
  o ∈ ids_of code rows →
  (rows_for_fault code (drop_capture code o rows) < rows_for_fault code rows)%nat.
Proof.
  intros (r & Hr & Hc & Ho)%elem_of_ids_of. unfold rows_for_fault, drop_capture.
  rewrite filter_filter_comm.
  apply length_filter_lt with r; [by apply list_elem_of_filter|naive_solver].
Qed.

(** Being over the cap at cutoff [c], for every capture evicted so far. *)
Definition over_cap (max : nat) (code : string) (rows : list SnapshotData) (cutoff : Z) : Prop :=
  ∀ i, i ∈ ids_of code rows → i < cutoff →
    (max < rows_for_fault code (filter (kept code i) rows))%nat.

Lemma evict_captures_spec fuel max code newest rows c :
  newest ∈ ids_of code rows → (∀ i, i ∈ ids_of code rows → i ≤ newest) → c ≤ newest →
  (rows_for_fault code (filter (kept code c) rows) ≤ fuel)%nat → over_cap max code rows c →
  ∃ c', c' ≤ newest ∧
    evict_captures fuel max code newest (filter (kept code c) rows) = filter (kept code c') rows ∧
    ((rows_for_fault code (filter (kept code c') rows) ≤ max)%nat ∨
     ∀ i, i ∈ ids_of code (filter (kept code c') rows) → i = newest) ∧
    over_cap max code rows c'.
Proof.
  intros Hin Hmax. revert c. induction fuel as [|fuel IH]; intros c Hc Hf Hover; simpl.
  - exists c. split_and!; try done. left. lia.
  - destruct (max <? _)%nat eqn:E; [apply Nat.ltb_lt in E|apply Nat.ltb_ge in E; eauto 10].
    pose proof (oldest_other_spec code newest (filter (kept code c) rows)) as Ho.
    destruct (oldest_other _ _ _) as [o|]; [|eauto 10].
    destruct Ho as (Ho1 & Ho2 & Ho3).
    pose proof (drop_capture_shrinks _ _ _ Ho1) as Hshr.
    pose proof Ho1 as [Ho1a Ho1b]%elem_of_ids_kept.
    assert (Hmin : ∀ i, i ∈ ids_of code (filter (kept code c) rows) → o ≤ i).
    { intros i Hi. destruct (decide (i = newest)) as [->|]; [by apply Hmax|by apply Ho3]. }
    rewrite drop_capture_kept in Hshr |- * by done.
    specialize (Hmax o Ho1a). apply IH; [lia|lia|].
    intros i Hi Hlt. destruct (decide (i < c)); [by apply Hover|].
    assert (i = o) as -> by (enough (o ≤ i) by lia; apply Hmin, elem_of_ids_kept; split; [done|lia]).
    rewrite <- (filter_kept_cong code c o rows); [done|].
    intros j Hj. split; [|lia]. intros Hcj. apply Hmin, elem_of_ids_kept. done.
Qed.

Lemma exists_lower_bound (l : list Z) (n : Z) : ∃ c, c ≤ n ∧ ∀ i, i ∈ l → c ≤ i.
Proof.
  induction l as [|x l (c & Hc & Hl)].
  - exists n. split; [lia|]. intros i Hi. by apply elem_of_nil in Hi.
  - exists (Z.min c x). split; [lia|]. intros i [->|Hi]%elem_of_cons; [lia|].
    specialize (Hl i Hi). lia.
Qed.

(** Where the eviction loop stops, in terms of a cutoff. *)
Lemma store_snapshots_cutoff front rest s :
  (0 < max_snapshots_per_fault s)%nat →
  let code := snap_fault_code front in
  let updated := snapshots s ++ front :: rest in
  let max := max_snapshots_per_fault s in
  ∃ newest cutoff,
    newest_capture code updated = Some newest ∧ cutoff ≤ newest ∧
    snapshots (store_snapshots (front :: rest) s) = filter (kept code cutoff) updated ∧
    ((rows_for_fault code (snapshots (store_snapshots (front :: rest) s)) ≤ max)%nat ∨
     ∀ r, r ∈ snapshots (store_snapshots (front :: rest) s) →
          snap_fault_code r = code → snap_capture_id r = newest) ∧
    over_cap max code updated cutoff.
Proof.
  intros Hm. cbv zeta. cbn [store_snapshots snapshots with_snapshots].
  rewrite (proj2 (Nat.ltb_lt 0 _) Hm).
  set (code := snap_fault_code front). set (updated := snapshots s ++ front :: rest).
  pose proof (newest_capture_spec code updated) as Hn.
  destruct (newest_capture code updated) as [newest|].
  2: { assert (snap_capture_id front ∈ ids_of code updated) as Hf.
       { apply elem_of_ids_of. exists front. split_and!; [|done..]. set_solver. }
       rewrite Hn in Hf. by apply elem_of_nil in Hf. }
  destruct Hn as [Hin Hmx].
  destruct (exists_lower_bound (ids_of code updated) newest) as (c & Hc & Hl).
  destruct (evict_captures_spec (length updated) (max_snapshots_per_fault s) code newest updated c)
    as (c' & Hc' & Hev & Hstop & Hover); try done.
  - unfold rows_for_fault. rewrite filter_kept_all by done. apply length_filter.
  - intros i Hi Hlt. specialize (Hl i Hi). lia.
  - rewrite filter_kept_all in Hev by done. exists newest, c'. rewrite Hev.
    split_and!; try done. destruct Hstop as [?|Hs]; [by left|right].
    intros r Hr Hrc. apply Hs, elem_of_ids_of. eauto.
Qed.

(** A capture is stored or dropped as a unit: after any [store_snapshots],
    for every fault and capture id either all rows of that capture (old and
    new, in order) are present or none is. *)
Theorem captures_all_or_nothing snaps s code id :
  let rows_of := filter (λ r, snap_fault_code r = code ∧ snap_capture_id r = id) in
  rows_of (snapshots (store_snapshots snaps s)) = rows_of (snapshots s ++ snaps) ∨
  rows_of (snapshots (store_snapshots snaps s)) = [].
Proof.
  cbv zeta. destruct snaps as [|front rest]; [by rewrite app_nil_r; left|].
  destruct (decide (0 < max_snapshots_per_fault s)%nat) as [Hm|Hm].
  2: { left. cbn [store_snapshots snapshots with_snapshots].
       by rewrite (proj2 (Nat.ltb_ge 0 _)) by lia. }
  destruct (store_snapshots_cutoff front rest s Hm) as (n & c & _ & _ & -> & _ & _).
  destruct (decide (kept (snap_fault_code front) c
    (mkSnapshotData code "" "" "" 0 id))) as [Hk|Hk]; [left|right].
  - rewrite list_filter_filter. apply filter_ext_elem. intros r _. unfold kept in *; simpl in *.
    split; [naive_solver|]. intros [-> ->]. done.
  - destruct (filter _ (filter _ _)) as [|r l] eqn:E; [done|].
    assert (r ∈ r :: l) as Hr by left. rewrite <- E in Hr.
    apply list_elem_of_filter in Hr as [[Hr1 Hr2] Hr]. apply list_elem_of_filter in Hr as [Hr _].
    exfalso. apply Hk. unfold kept in *; simpl. by rewrite Hr1, Hr2 in Hr.
Qed.

Lemma newer_first_asym a b : newer_first a b = true → newer_first b a = false.
Proof.
  unfold newer_first. intros H. apply orb_false_iff. rewrite andb_false_iff.
  bool_simpl; split; rewrite ?Z.ltb_ge, ?Z.eqb_neq; lia.
Qed.

Lemma newer_first_trans a b c :
  sort_le newer_first a b → sort_le newer_first b c → sort_le newer_first a c.
Proof.
  unfold sort_le, newer_first. rewrite !orb_false_iff, !andb_false_iff, !Z.ltb_ge, !Z.eqb_neq. lia.
Qed.

(** [get_snapshots] returns exactly the stored rows of the fault (and of the
    topic, when one is given), each as often as it is stored, newest capture
    first and newest row first within a capture. *)
Theorem get_snapshots_spec code topic s :
  get_snapshots code topic s ≡ₚ
    filter (λ r, snap_fault_code r = code ∧ (topic = "" ∨ snap_topic r = topic)) (snapshots s) ∧
  StronglySorted
    (λ a b, snap_capture_id b < snap_capture_id a ∨
            snap_capture_id b = snap_capture_id a ∧
            snap_captured_at_ns b ≤ snap_captured_at_ns a)
    (get_snapshots code topic s).
Proof.
  split; [apply stable_sort_perm|].
  eapply StronglySorted_weaken; [|apply (stable_sort_sorted _ (λ _, True));
    [intros ?? _ _; apply newer_first_asym|intros ??? _ _ _; apply newer_first_trans
    |by apply Forall_true]].
  intros a b. unfold sort_le, newer_first.
  rewrite orb_false_iff, andb_false_iff, !Z.ltb_ge, Z.eqb_neq. lia.
Qed.

Lemma foldl_max_ge l a : a ≤ foldl (λ acc r, Z.max acc (snap_capture_id r)) a l.
Proof.
  revert a. induction l as [|r l IH]; intros a; simpl; [done|].
  specialize (IH (Z.max a (snap_capture_id r))). lia.
Qed.

(** [get_max_capture_id] bounds every stored id, so ids minted above it are
    newer than everything stored. *)
Lemma get_max_capture_id_bound s r :
  r ∈ snapshots s → snap_capture_id r ≤ get_max_capture_id s.
Proof.
  unfold get_max_capture_id. generalize (snapshots s) 0. intros l.
  induction l as [|x l IH]; intros a Hr; [by apply elem_of_nil in Hr|]. simpl.
  apply elem_of_cons in Hr as [->|Hr]; [|by apply IH].
  pose proof (foldl_max_ge l (Z.max a (snap_capture_id x))). lia.
Qed.

(** A capture minted with an id above [get_max_capture_id] is never evicted
    by its own store: every one of its rows is present afterwards. *)
Theorem fresh_capture_is_stored front rest s id :
  get_max_capture_id s < id →
  Forall (λ r, snap_fault_code r = snap_fault_code front ∧ snap_capture_id r = id) (front :: rest) →
  Forall (λ r, r ∈ snapshots (store_snapshots (front :: rest) s)) (front :: rest).
Proof.
  intros Hid Hall. apply Forall_forall. intros r Hr.
  assert (Hin : r ∈ snapshots s ++ front :: rest) by set_solver.
  destruct (decide (0 < max_snapshots_per_fault s)%nat) as [Hm|Hm].
  2: { cbn [store_snapshots snapshots with_snapshots].
       by rewrite (proj2 (Nat.ltb_ge 0 _)) by lia. }
  destruct (store_snapshots_cutoff front rest s Hm) as (n & c & Hn & Hc & -> & _ & _).
  apply list_elem_of_filter. split; [|done]. right.
  rewrite Forall_forall in Hall. destruct (Hall r Hr) as [Hrc Hri]. rewrite Hri.
  pose proof (newest_capture_spec (snap_fault_code front) (snapshots s ++ front :: rest)) as Hs.
  rewrite Hn in Hs. destruct Hs as [Hs _].
  apply elem_of_ids_of in Hs as (x & Hx & Hxc & <-).
  apply elem_of_app in Hx as [Hx|Hx].
  - apply get_max_capture_id_bound in Hx. lia.
  - destruct (Hall x Hx). lia.
Qed.

(** C24: With a cap in force, [store_snapshots] appends the batch and then drops
    whole captures of the batch's fault, oldest first: there is a cutoff such
    that exactly the rows of that fault with an older capture id are gone, the
    newest capture is never touched, rows of other faults stay, the loop stops
    at the cap (or with only the newest capture left), and no capture was
    dropped while the fault still fitted. *)
Theorem store_snapshots_evicts_oldest front rest s :
  (0 < max_snapshots_per_fault s)%nat →
  let code := snap_fault_code front in
  let updated := snapshots s ++ front :: rest in
  let max := max_snapshots_per_fault s in
  ∃ newest cutoff,
    newest_capture code updated = Some newest ∧ cutoff ≤ newest ∧
    snapshots (store_snapshots (front :: rest) s) = filter (kept code cutoff) updated ∧
    ((rows_for_fault code (snapshots (store_snapshots (front :: rest) s)) ≤ max)%nat ∨
     ∀ r, r ∈ snapshots (store_snapshots (front :: rest) s) →
          snap_fault_code r = code → snap_capture_id r = newest) ∧
    over_cap max code updated cutoff.
Proof. apply store_snapshots_cutoff. Qed.
