(* ===== verification/Rosbags.v ===== *)
(** * Recording links of the in-memory storage

    One row per (fault, recording) link; a burst of faults shares one bag and a
    fault keeps several bags.  Storing, the per-fault cap, deletion, the rule
    that a bag is unlinked with its last row, and the queries
    (fault_storage.cpp).  Operations that call [std::filesystem::remove_all]
    return the paths they pass to it, in call order, next to the new state. *)

From S2P Require Import Prelude FaultTypes FaultEvents.
Open Scope Z_scope.

(** ** [rosbag_recording_id]: last component of a path *)

Definition slash : ascii := "/"%char.

(** Leading characters up to the first slash. *)
Fixpoint until_slash (l : list ascii) : list ascii :=
  match l with
  | [] => []
  | c :: l' => if Ascii.eqb c slash then [] else c :: until_slash l'
  end.

Fixpoint skip_slashes (l : list ascii) : list ascii :=
  match l with
  | c :: l' => if Ascii.eqb c slash then skip_slashes l' else l
  | [] => []
  end.

(** [path.filename()] on the reversed characters of a path. *)
Definition rev_filename (l : list ascii) : list ascii := until_slash l.

(** [path.parent_path()] of a path with an empty filename: the trailing
    separators go. *)
Definition rev_parent (l : list ascii) : list ascii := skip_slashes l.

Definition rosbag_recording_id (file_path : string) : string :=
  let p := rev (String.list_ascii_of_string file_path) in
  let p := if bool_decide (rev_filename p = []) then rev_parent p else p in
  String.string_of_list_ascii (rev (rev_filename p)).

(** ** Ordering of rows *)

(** [std::tie(a.created_at_ns, a.seq) < std::tie(b.created_at_ns, b.seq)] *)
Definition row_lt (a b : RosbagRow) : bool :=
  (rb_created_at_ns (row_info a) <? rb_created_at_ns (row_info b))
  || ((rb_created_at_ns (row_info a) =? rb_created_at_ns (row_info b))
      && (row_seq a <? row_seq b)).

Definition row_gt (a b : RosbagRow) : bool := row_lt b a.

Definition row_code (r : RosbagRow) : string := rb_fault_code (row_info r).
Definition row_path (r : RosbagRow) : string := rb_file_path (row_info r).

(** ** Storing *)

(** [if (row.recording_id.empty()) row.recording_id = ...] *)
Definition fill_recording_id (i : RosbagFileInfo) : RosbagFileInfo :=
  if rb_recording_id i =?ₛ "" then
    {| rb_fault_code := rb_fault_code i;
       rb_recording_id := rosbag_recording_id (rb_file_path i);
       rb_file_path := rb_file_path i; rb_format := rb_format i;
       rb_duration_sec := rb_duration_sec i; rb_size_bytes := rb_size_bytes i;
       rb_created_at_ns := rb_created_at_ns i |}
  else i.

Definition same_link (i : RosbagFileInfo) (r : RosbagRow) : bool :=
  (row_code r =?ₛ rb_fault_code i) && (row_path r =?ₛ rb_file_path i).

(** Refresh the first row of the same link; [None] when there is none. *)
Fixpoint refresh_link (i : RosbagFileInfo) (rows : list RosbagRow) : option (list RosbagRow) :=
  match rows with
  | [] => None
  | r :: rows' =>
      if same_link i r then Some ({| row_info := i; row_seq := row_seq r |} :: rows')
      else cons r <$> refresh_link i rows'
  end.

(** Rows, next sequence number, evicted paths.  The number is an [uint64_t] in the
    source and one is used per new link; it is not wrapped here, as 2^64 links
    would have to be stored by one process. *)
Record store_acc := mkAcc {
  acc_rows : list RosbagRow;
  acc_seq : Z;
  acc_evicted : gset string;
}.

Definition upsert (i : RosbagFileInfo) (a : store_acc) : store_acc :=
  match refresh_link i (acc_rows a) with
  | Some rows => {| acc_rows := rows; acc_seq := acc_seq a; acc_evicted := acc_evicted a |}
  | None =>
      {| acc_rows := acc_rows a ++ [{| row_info := i; row_seq := acc_seq a + 1 |}];
         acc_seq := acc_seq a + 1; acc_evicted := acc_evicted a |}
  end.

(** The indices of the rows of a fault. *)
Definition rows_of_fault (code : string) (rows : list RosbagRow) : list nat :=
  filter (λ i, row_code <$> rows !! i = Some code) (seq 0 (length rows)).

Definition index_lt (rows : list RosbagRow) (i j : nat) : bool :=
  match rows !! i, rows !! j with
  | Some a, Some b => row_lt a b
  | _, _ => false
  end.

(** [evicted.insert(updated[idx].file_path); updated.erase(begin + idx)] *)
Definition erase_index (a : store_acc) (idx : nat) : store_acc :=
  {| acc_rows := delete idx (acc_rows a); acc_seq := acc_seq a;
     acc_evicted := match acc_rows a !! idx with
                    | Some r => {[ row_path r ]} ∪ acc_evicted a
                    | None => acc_evicted a
                    end |}.

Definition trim_fault (max : nat) (code : string) (a : store_acc) : store_acc :=
  if (max =? 0)%nat then a
  else
    let mine := rows_of_fault code (acc_rows a) in
    if (length mine <=? max)%nat then a
    else
      let mine := stable_sort (index_lt (acc_rows a)) mine in
      let doomed := take (length mine - max) mine in
      let doomed := stable_sort (λ x y, (y <? x)%nat) doomed in
      foldl erase_index a doomed.

Definition store_one (max : nat) (a : store_acc) (i : RosbagFileInfo) : store_acc :=
  let row := fill_recording_id i in
  trim_fault max (rb_fault_code row) (upsert row a).

Definition path_referenced (rows : list RosbagRow) (path : string) : bool :=
  existsb (λ r, row_path r =?ₛ path) rows.

(** The paths handed to [remove_all]: touched ones no row references any more. *)
Definition unlink_paths (rows : list RosbagRow) (touched : gset string) : list string :=
  filter (λ p, path_referenced rows p = false) (set_entries touched).

Definition store_rosbag_files (infos : list RosbagFileInfo) (s : InMemoryFaultStorage)
    : list string * InMemoryFaultStorage :=
  match infos with
  | [] => ([], s)
  | _ =>
      let a := foldl (store_one (max_rosbags_per_fault s))
                 {| acc_rows := rosbag_files s; acc_seq := rosbag_seq s; acc_evicted := ∅ |}
                 infos in
      (unlink_paths (acc_rows a) (acc_evicted a), with_rosbags (acc_rows a) (acc_seq a) s)
  end.

Definition store_rosbag_file (i : RosbagFileInfo) (s : InMemoryFaultStorage) :=
  store_rosbag_files [i] s.

(** ** Deleting *)

Definition delete_rows (P : RosbagRow → bool) (s : InMemoryFaultStorage)
    : gset string * InMemoryFaultStorage :=
  (list_to_set (row_path <$> filter (λ r, P r = true) (rosbag_files s)),
   with_rosbags (filter (λ r, P r = false) (rosbag_files s)) (rosbag_seq s) s).

Definition delete_rosbag_file (code : string) (s : InMemoryFaultStorage)
    : bool * list string * InMemoryFaultStorage :=
  let '(touched, s') := delete_rows (λ r, row_code r =?ₛ code) s in
  if (length (rosbag_files s') =? length (rosbag_files s))%nat then (false, [], s')
  else (true, unlink_paths (rosbag_files s') touched, s').

Definition delete_rosbag_recording (recording_id : string) (s : InMemoryFaultStorage)
    : nat * list string * InMemoryFaultStorage :=
  if recording_id =?ₛ "" then (0%nat, [], s)
  else
    let '(touched, s') := delete_rows (λ r, rb_recording_id (row_info r) =?ₛ recording_id) s in
    ((length (rosbag_files s) - length (rosbag_files s'))%nat,
     unlink_paths (rosbag_files s') touched, s').

(** The base-class loop behind [delete_rosbag_files]. *)
Fixpoint delete_rosbag_files (codes : list string) (s : InMemoryFaultStorage)
    : nat * list string * InMemoryFaultStorage :=
  match codes with
  | [] => (0%nat, [], s)
  | c :: codes' =>
      let '(ok, gone, s1) := delete_rosbag_file c s in
      let '(n, gone', s2) := delete_rosbag_files codes' s1 in
      ((if ok then S n else n), gone ++ gone', s2)
  end.

(** ** Queries *)

(** The [best] pointer of the scan in [get_rosbag_file]. *)
Definition newest_row (code : string) (rows : list RosbagRow) : option RosbagRow :=
  foldl (λ best r,
    if row_code r =?ₛ code then
      match best with
      | None => Some r
      | Some b => if row_lt b r then Some r else best
      end
    else best) None rows.

Definition get_rosbag_file (code : string) (s : InMemoryFaultStorage) : option RosbagFileInfo :=
  row_info <$> newest_row code (rosbag_files s).

Definition get_rosbag_files (code : string) (s : InMemoryFaultStorage) : list RosbagFileInfo :=
  row_info <$> stable_sort row_gt (filter (λ r, row_code r = code) (rosbag_files s)).

Definition str_ltb (a b : string) : bool := String.ltb a b.

(** By fault code; [std::sort] may leave several bags of a fault in any order. *)
Definition get_rosbag_files_by_recording (ties : list RosbagFileInfo → list RosbagFileInfo) (recording_id : string)
    (s : InMemoryFaultStorage) : list RosbagFileInfo :=
  stable_sort (λ a b, str_ltb (rb_fault_code a) (rb_fault_code b))
    (ties (filter (λ i, rb_recording_id i = recording_id) (row_info <$> rosbag_files s))).

(** The [bytes_per_path] map. *)
Definition bytes_per_path (rows : list RosbagRow) : gmap string Z :=
  foldl (λ m r, <[row_path r := Z.max (default 0 (m !! row_path r)) (rb_size_bytes (row_info r))]> m)
    ∅ rows.

Definition get_total_rosbag_storage_bytes (s : InMemoryFaultStorage) : Z :=
  foldl (λ total e, wrap_u64 (total + e.2)) 0 (map_entries (bytes_per_path (rosbag_files s))).

Definition get_all_rosbag_files (s : InMemoryFaultStorage) : list RosbagFileInfo :=
  row_info <$> stable_sort row_lt (rosbag_files s).

Definition list_rosbags_for_entity (entity_fqn : string) (s : InMemoryFaultStorage)
    : list RosbagFileInfo :=
  let reported r :=
    match faults s !! row_code r with
    | Some st => bool_decide (entity_fqn ∈ reporting_sources st)
    | None => false
    end in
  row_info <$> stable_sort row_gt (filter (λ r, reported r = true) (rosbag_files s)).

(** ** Well-formed link tables *)

Definition row_link (r : RosbagRow) : string * string := (row_code r, row_path r).

(** At most one row per link, sequence numbers unique and already issued. *)
Record rows_ok (rows : list RosbagRow) (seq : Z) : Prop := {
  rok_links : NoDup (row_link <$> rows);
  rok_seqs : NoDup (row_seq <$> rows);
  rok_issued : Forall (λ r, 1 ≤ row_seq r ≤ seq) rows;
}.

Definition paths (rows : list RosbagRow) : gset string := list_to_set (row_path <$> rows).

Lemma elem_of_paths rows p : p ∈ paths rows ↔ ∃ r, r ∈ rows ∧ row_path r = p.
Proof.
  unfold paths. rewrite elem_of_list_to_set, list_elem_of_fmap. naive_solver.
Qed.

Lemma path_referenced_spec rows p : path_referenced rows p = true ↔ p ∈ paths rows.
Proof.
  unfold path_referenced. rewrite existsb_exists, elem_of_paths.
  split; intros (r & Hr & Hp); exists r; rewrite list_elem_of_In in *; split; try done;
    by apply str_eqb_eq.
Qed.

Lemma elem_of_unlink_paths rows touched p :
  p ∈ unlink_paths rows touched ↔ p ∈ touched ∧ p ∉ paths rows.
Proof.
  unfold unlink_paths. rewrite list_elem_of_filter, elem_of_set_entries, <- path_referenced_spec.
  destruct (path_referenced rows p); naive_solver.
Qed.

Lemma refresh_link_spec i rows :
  match refresh_link i rows with
  | Some rows' => ∃ l1 r l2, rows = l1 ++ r :: l2 ∧ same_link i r = true ∧
      rows' = l1 ++ {| row_info := i; row_seq := row_seq r |} :: l2
  | None => Forall (λ r, same_link i r = false) rows
  end.
Proof.
  induction rows as [|r rows IH]; simpl; [done|].
  destruct (same_link i r) eqn:E; [by exists [], r, rows|].
  destruct (refresh_link i rows) as [rows'|]; simpl; [|by constructor].
  destruct IH as (l1 & r' & l2 & -> & Hr' & ->). by exists (r :: l1), r', l2.
Qed.

Lemma same_link_iff i r : same_link i r = true ↔ row_link r = (rb_fault_code i, rb_file_path i).
Proof.
  unfold same_link, row_link. rewrite andb_true_iff, !str_eqb_eq.
  split; [by intros [-> ->]|by intros [= -> ->]].
Qed.

Lemma upsert_ok i a :
  rows_ok (acc_rows a) (acc_seq a) → 0 ≤ acc_seq a →
  rows_ok (acc_rows (upsert i a)) (acc_seq (upsert i a)) ∧ acc_seq a ≤ acc_seq (upsert i a).
Proof.
  intros [H1 H2 H3] Hs. unfold upsert. pose proof (refresh_link_spec i (acc_rows a)) as Hr.
  destruct (refresh_link i (acc_rows a)) as [rows'|]; simpl; (split; [|lia]).
  - destruct Hr as (l1 & r & l2 & E & Hl & ->). rewrite E in H1, H2, H3.
    apply same_link_iff in Hl.
    rewrite fmap_app, fmap_cons in H1. rewrite fmap_app, fmap_cons in H2. rewrite Forall_app, Forall_cons in H3.
    constructor; rewrite ?fmap_app, ?fmap_cons, ?Forall_app, ?Forall_cons; simpl; try done.
    by rewrite Hl in H1.
  - constructor.
    + rewrite fmap_app. apply NoDup_app. split_and!; [done| |apply NoDup_singleton].
      intros x Hx ->%list_elem_of_singleton. apply list_elem_of_fmap in Hx as (r & Hx & Hin).
      rewrite Forall_forall in Hr. specialize (Hr r Hin).
      rewrite (proj2 (same_link_iff i r)) in Hr; [done|]. by rewrite <- Hx.
    + rewrite fmap_app. apply NoDup_app. split_and!; [done| |apply NoDup_singleton].
      intros x Hx ->%list_elem_of_singleton. apply list_elem_of_fmap in Hx as (r & Hx & Hin).
      rewrite Forall_forall in H3. specialize (H3 r Hin). simpl in *. lia.
    + apply Forall_app. split; [|apply Forall_singleton; simpl; lia].
      eapply Forall_impl; [exact H3|]. simpl. lia.
Qed.

Lemma upsert_paths i a :
  paths (acc_rows (upsert i a)) ∪ acc_evicted (upsert i a) =
  {[ rb_file_path i ]} ∪ (paths (acc_rows a) ∪ acc_evicted a).
Proof.
  unfold upsert. pose proof (refresh_link_spec i (acc_rows a)) as Hr.
  destruct (refresh_link i (acc_rows a)) as [rows'|]; simpl; unfold paths.
  - destruct Hr as (l1 & r & l2 & -> & Hl & ->). apply same_link_iff in Hl.
    rewrite !fmap_app, !fmap_cons, !list_to_set_app_L, !list_to_set_cons.
    injection Hl as _ Hp. unfold row_path in *. simpl. rewrite Hp. set_solver.
  - rewrite fmap_app, list_to_set_app_L. simpl. unfold row_path at 2. simpl. set_solver.
Qed.

Lemma erase_index_paths a idx :
  paths (acc_rows (erase_index a idx)) ∪ acc_evicted (erase_index a idx) =
  paths (acc_rows a) ∪ acc_evicted a.
Proof.
  unfold erase_index, paths; simpl. destruct (acc_rows a !! idx) as [r|] eqn:E.
  - rewrite (delete_Permutation _ _ _ E) at 2. simpl. set_solver.
  - apply lookup_ge_None in E.
    by rewrite delete_take_drop, take_ge, drop_ge, app_nil_r by lia.
Qed.

Lemma erase_all_paths D a :
  paths (acc_rows (foldl erase_index a D)) ∪ acc_evicted (foldl erase_index a D) =
  paths (acc_rows a) ∪ acc_evicted a.
Proof.
  revert a. induction D as [|i D IH]; intros a; simpl; [done|].
  by rewrite IH, erase_index_paths.
Qed.

Lemma erase_all_sublist D a : acc_rows (foldl erase_index a D) `sublist_of` acc_rows a.
Proof.
  revert a. induction D as [|i D IH]; intros a; simpl; [done|].
  etrans; [apply IH|]. simpl. apply sublist_delete.
Qed.

Lemma erase_all_seq D a : acc_seq (foldl erase_index a D) = acc_seq a.
Proof. revert a. induction D as [|i D IH]; intros a; simpl; [done|]. by rewrite IH. Qed.

Lemma rows_ok_sublist l k seq : l `sublist_of` k → rows_ok k seq → rows_ok l seq.
Proof.
  intros Hs [H1 H2 H3]. constructor; [by eapply NoDup_fmap_sublist..|].
  rewrite Forall_forall in H3 |- *. intros x Hx. by eapply H3, elem_of_sublist.
Qed.

Lemma trim_sublist max c a : acc_rows (trim_fault max c a) `sublist_of` acc_rows a.
Proof. unfold trim_fault. repeat case_match; try done. apply erase_all_sublist. Qed.

Lemma trim_seq max c a : acc_seq (trim_fault max c a) = acc_seq a.
Proof. unfold trim_fault. repeat case_match; try done. apply erase_all_seq. Qed.

Lemma trim_paths max c a :
  paths (acc_rows (trim_fault max c a)) ∪ acc_evicted (trim_fault max c a) =
  paths (acc_rows a) ∪ acc_evicted a.
Proof. unfold trim_fault. repeat case_match; try done. apply erase_all_paths. Qed.

Lemma store_one_ok max a i :
  rows_ok (acc_rows a) (acc_seq a) → 0 ≤ acc_seq a →
  rows_ok (acc_rows (store_one max a i)) (acc_seq (store_one max a i)) ∧
  0 ≤ acc_seq (store_one max a i).
Proof.
  intros H Hs. unfold store_one. rewrite trim_seq.
  destruct (upsert_ok (fill_recording_id i) a H Hs) as [Hu Hle]. split; [|lia].
  eapply rows_ok_sublist, Hu. apply trim_sublist.
Qed.

Lemma fill_recording_id_path i : rb_file_path (fill_recording_id i) = rb_file_path i.
Proof. unfold fill_recording_id. by case_match. Qed.

Lemma fill_recording_id_code i : rb_fault_code (fill_recording_id i) = rb_fault_code i.
Proof. unfold fill_recording_id. by case_match. Qed.

Lemma store_one_paths max a i :
  paths (acc_rows (store_one max a i)) ∪ acc_evicted (store_one max a i) =
  {[ rb_file_path i ]} ∪ (paths (acc_rows a) ∪ acc_evicted a).
Proof. unfold store_one. by rewrite trim_paths, upsert_paths, fill_recording_id_path. Qed.

Lemma store_all_ok max infos a :
  rows_ok (acc_rows a) (acc_seq a) → 0 ≤ acc_seq a →
  rows_ok (acc_rows (foldl (store_one max) a infos)) (acc_seq (foldl (store_one max) a infos)) ∧
  0 ≤ acc_seq (foldl (store_one max) a infos).
Proof.
  revert a. induction infos as [|i infos IH]; intros a H Hs; simpl; [done|].
  destruct (store_one_ok max a i H Hs). by apply IH.
Qed.

Lemma store_all_paths max infos a :
  paths (acc_rows (foldl (store_one max) a infos)) ∪ acc_evicted (foldl (store_one max) a infos) =
  list_to_set (rb_file_path <$> infos) ∪ (paths (acc_rows a) ∪ acc_evicted a).
Proof.
  revert a. induction infos as [|i infos IH]; intros a; simpl; [set_solver|].
  rewrite IH, store_one_paths. set_solver.
Qed.

(** ** The per-fault cap *)

Definition fault_rows (code : string) (rows : list RosbagRow) : list RosbagRow :=
  filter (λ r, row_code r = code) rows.

(** The rows behind a list of indices. *)
Definition rows_at (rows : list RosbagRow) (idx : list nat) : list RosbagRow :=
  omap (λ i, rows !! i) idx.

Lemma rows_at_mine code rows : rows_at rows (rows_of_fault code rows) = fault_rows code rows.
Proof.
  unfold rows_at, rows_of_fault, fault_rows.
  induction rows as [|r rows IH] using rev_ind; [done|].
  rewrite length_app, Nat.add_comm, seq_S, !filter_app, omap_app, <- IH. simpl. f_equal.
  - rewrite (filter_ext_elem _ (λ i, row_code <$> rows !! i = Some code)).
    + apply list_omap_ext, Forall_Forall2_diag, Forall_forall. intros i Hi.
      apply list_elem_of_filter in Hi as [_ Hi%elem_of_seq].
      by rewrite lookup_app_l by lia.
    + intros i Hi%elem_of_seq. by rewrite lookup_app_l by lia.
  - assert (Hr : (rows ++ [r]) !! length rows = Some r) by by apply list_lookup_middle.
    rewrite !filter_cons, !filter_nil, Hr. simpl.
    do 2 case_decide; simpl; rewrite ?Hr; naive_solver.
Qed.

Lemma rows_of_fault_lookup code rows i :
  i ∈ rows_of_fault code rows ↔ ∃ r, rows !! i = Some r ∧ row_code r = code.
Proof.
  unfold rows_of_fault. rewrite list_elem_of_filter, elem_of_seq, fmap_Some. split.
  - intros [(r & Hr & ->) _]. eauto.
  - intros (r & Hr & <-). split; [eauto|]. apply lookup_lt_Some in Hr. lia.
Qed.

(** Erasing indices from the largest down removes exactly the rows they named. *)
Lemma erase_all_perm D a :
  StronglySorted gt D → Forall (λ i, is_Some (acc_rows a !! i)) D →
  acc_rows a ≡ₚ rows_at (acc_rows a) D ++ acc_rows (foldl erase_index a D).
Proof.
  intros HD. revert a. induction HD as [|i D HD IH Hlt]; intros a Hsome; [done|].
  apply Forall_cons in Hsome as [[r Hr] Hsome]. simpl. rewrite Hr. simpl.
  rewrite (delete_Permutation _ _ _ Hr) at 1. constructor.
  assert (Hsame : ∀ j, j ∈ D → delete i (acc_rows a) !! j = acc_rows a !! j).
  { intros j Hj. rewrite Forall_forall in Hlt. specialize (Hlt j Hj).
    by rewrite list_lookup_delete_lt by lia. }
  assert (Hat : rows_at (delete i (acc_rows a)) D = rows_at (acc_rows a) D).
  { apply list_omap_ext, Forall_Forall2_diag, Forall_forall. intros j Hj. by apply Hsame. }
  rewrite <- Hat. apply (IH (erase_index a i)); simpl.
  rewrite Forall_forall in Hsome |- *. intros j Hj. rewrite Hsame by done. by apply Hsome.
Qed.

Lemma row_lt_asym a b : row_lt a b = true → row_lt b a = false.
Proof.
  unfold row_lt. intros H. apply orb_false_iff. rewrite andb_false_iff.
  bool_simpl; split; rewrite ?Z.ltb_ge, ?Z.eqb_neq; lia.
Qed.

Lemma row_le_trans a b c : row_lt b a = false → row_lt c b = false → row_lt c a = false.
Proof.
  unfold row_lt. rewrite !orb_false_iff, !andb_false_iff, !Z.ltb_ge, !Z.eqb_neq. lia.
Qed.

Lemma row_lt_total a b : row_seq a ≠ row_seq b → row_lt b a = false → row_lt a b = true.
Proof.
  unfold row_lt. intros Hne. rewrite orb_false_iff, andb_false_iff, orb_true_iff, andb_true_iff,
    !Z.ltb_ge, !Z.ltb_lt, Z.eqb_neq, Z.eqb_eq. lia.
Qed.

Lemma mine_sorted code rows :
  StronglySorted (sort_le (index_lt rows)) (stable_sort (index_lt rows) (rows_of_fault code rows)).
Proof.
  apply (stable_sort_sorted _ (λ i, is_Some (rows !! i))).
  - intros x y [a Ha] [b Hb]. unfold index_lt. rewrite Ha, Hb. apply row_lt_asym.
  - intros x y z [a Ha] [b Hb] [c Hc]. unfold sort_le, index_lt. rewrite Ha, Hb, Hc.
    apply row_le_trans.
  - apply Forall_forall. intros i (r & Hr & _)%rows_of_fault_lookup. eauto.
Qed.

Lemma NoDup_rows_of_fault code rows : NoDup (rows_of_fault code rows).
Proof. apply NoDup_filter, NoDup_seq. Qed.

(** The doomed indices in erase order. *)
Lemma doomed_desc (l : list nat) :
  NoDup l → StronglySorted gt (stable_sort (λ x y, (y <? x)%nat) l).
Proof.
  intros Hnd. assert (StronglySorted ge (stable_sort (λ x y, (y <? x)%nat) l)) as Hs.
  { eapply StronglySorted_weaken; [|apply (stable_sort_sorted _ (λ _, True))].
    - intros x y. unfold sort_le. rewrite Nat.ltb_ge. lia.
    - intros x y _ _. rewrite Nat.ltb_lt, Nat.ltb_ge. lia.
    - intros x y z _ _ _. unfold sort_le. rewrite !Nat.ltb_ge. lia.
    - by apply Forall_true. }
  assert (NoDup (stable_sort (λ x y, (y <? x)%nat) l)) as Hnd' by by rewrite stable_sort_perm.
  induction Hs as [|x k Hs IH Hall]; constructor; apply NoDup_cons in Hnd' as [Hx Hk].
  - by apply IH.
  - rewrite Forall_forall in Hall |- *. intros y Hy. specialize (Hall y Hy).
    assert (x ≠ y) by (intros ->; done). lia.
Qed.

#[global] Instance rows_at_perm rows : Proper ((≡ₚ) ==> (≡ₚ)) (rows_at rows).
Proof. intros l k H. unfold rows_at. by rewrite H. Qed.

Lemma elem_of_rows_at rows idx r : r ∈ rows_at rows idx ↔ ∃ i, i ∈ idx ∧ rows !! i = Some r.
Proof. unfold rows_at. apply list_elem_of_omap. Qed.

Lemma length_rows_at rows idx :
  Forall (λ i, is_Some (rows !! i)) idx → length (rows_at rows idx) = length idx.
Proof.
  induction 1 as [|i idx [r Hr] H IH]; [done|].
  unfold rows_at in *. simpl. rewrite Hr. simpl. f_equal. apply IH.
Qed.

(** What trimming a fault to [max] rows removes. *)
Lemma trim_fault_spec max code a :
  (0 < max)%nat →
  ∃ gone, acc_rows a ≡ₚ gone ++ acc_rows (trim_fault max code a) ∧
    Forall (λ r, row_code r = code) gone ∧
    length (fault_rows code (acc_rows (trim_fault max code a))) =
      (max `min` length (fault_rows code (acc_rows a)))%nat ∧
    ∀ d k, d ∈ gone → k ∈ acc_rows (trim_fault max code a) → row_code k = code →
      row_lt k d = false.
Proof.
  intros Hm. unfold trim_fault. rewrite (proj2 (Nat.eqb_neq max 0)) by lia.
  set (rows := acc_rows a). set (mine := rows_of_fault code rows).
  assert (Hsome : Forall (λ i, is_Some (rows !! i)) mine).
  { apply Forall_forall. intros i (r & Hr & _)%rows_of_fault_lookup. eauto. }
  assert (Hlen : length (fault_rows code rows) = length mine).
  { by rewrite <- rows_at_mine, length_rows_at. }
  destruct (length mine <=? max)%nat eqn:E.
  { apply Nat.leb_le in E. exists []. split_and!; [done..| |].
    - rewrite Nat.min_r; [done|]. fold rows. lia.
    - intros d k Hd. by apply elem_of_nil in Hd. }
  apply Nat.leb_gt in E. set (sorted := stable_sort (index_lt rows) mine).
  assert (Hperm : sorted ≡ₚ mine) by apply stable_sort_perm.
  assert (Hlens : length sorted = length mine) by by rewrite Hperm.
  set (D := take (length sorted - max) sorted). set (K := drop (length sorted - max) sorted).
  assert (HDK : D ++ K = sorted) by apply take_drop.
  set (desc := stable_sort (λ x y, (y <? x)%nat) D).
  assert (Hdesc : desc ≡ₚ D) by apply stable_sort_perm.
  assert (HDsome : Forall (λ i, is_Some (rows !! i)) (D ++ K)) by by rewrite HDK, Hperm.
  apply Forall_app in HDsome as [HDs HKs].
  assert (Hsplit : rows ≡ₚ rows_at rows desc ++ acc_rows (foldl erase_index a desc)).
  { apply erase_all_perm; [|by rewrite Hdesc]. apply doomed_desc.
    assert (NoDup (D ++ K)) as HN by (rewrite HDK, Hperm; apply NoDup_rows_of_fault).
    by apply NoDup_app in HN as (HN & _ & _). }
  assert (Hcode : Forall (λ r, row_code r = code) (rows_at rows D)).
  { apply Forall_forall. intros r (i & Hi & Hr)%elem_of_rows_at.
    assert (i ∈ mine) as Hmi by (rewrite <- Hperm, <- HDK; set_solver).
    apply rows_of_fault_lookup in Hmi as (r' & Hr' & <-). by simplify_eq. }
  assert (Hkept : fault_rows code (acc_rows (foldl erase_index a desc)) ≡ₚ rows_at rows K).
  { apply (Permutation_app_inv_l (rows_at rows D)).
    transitivity (fault_rows code rows).
    - rewrite <- Hdesc at 1. rewrite <- Hdesc in Hcode.
      unfold fault_rows. rewrite Hsplit at 2. rewrite filter_app, (filter_all _ (rows_at _ _));
        [done|]. by apply Forall_forall.
    - rewrite <- rows_at_mine. fold mine. rewrite <- Hperm, <- HDK.
      unfold rows_at. by rewrite omap_app. }
  exists (rows_at rows desc). split_and!.
  - done.
  - by rewrite Hdesc.
  - rewrite Hkept, length_rows_at by done. fold rows. rewrite Hlen. unfold K.
    rewrite length_drop. lia.
  - intros d k Hd Hk Hkc. rewrite Hdesc in Hd.
    assert (k ∈ rows_at rows K) as Hk' by (rewrite <- Hkept; by apply list_elem_of_filter).
    apply elem_of_rows_at in Hd as (i & Hi & Hri), Hk' as (j & Hj & Hrj).
    pose proof (mine_sorted code rows) as Hs. fold mine sorted in Hs. rewrite <- HDK in Hs.
    pose proof (StronglySorted_app_1_elem_of _ _ _ _ _ Hs Hi Hj) as Hle.
    unfold sort_le, index_lt in Hle. by rewrite Hri, Hrj in Hle.
Qed.

(** ** Properties of the link table *)

Definition rosbags_ok (s : InMemoryFaultStorage) : Prop :=
  rows_ok (rosbag_files s) (rosbag_seq s) ∧ 0 ≤ rosbag_seq s.

Lemma store_rosbag_files_ok infos s :
  rosbags_ok s → rosbags_ok (store_rosbag_files infos s).2.
Proof.
  intros [H Hs]. unfold store_rosbag_files. destruct infos as [|i infos]; [done|].
  apply store_all_ok; [|done]. done.
Qed.

Lemma delete_rows_ok P s : rosbags_ok s → rosbags_ok (delete_rows P s).2.
Proof.
  intros [H Hs]. split; [|done]. simpl. eapply rows_ok_sublist, H. apply sublist_filter.
Qed.

Lemma delete_rosbag_file_ok c s : rosbags_ok s → rosbags_ok (delete_rosbag_file c s).2.
Proof.
  intros H. unfold delete_rosbag_file.
  pose proof (delete_rows_ok (λ r, row_code r =?ₛ c) s H) as H'.
  destruct (delete_rows _ _); simpl in *. by case_match.
Qed.

Lemma delete_rosbag_recording_ok c s : rosbags_ok s → rosbags_ok (delete_rosbag_recording c s).2.
Proof.
  intros H. unfold delete_rosbag_recording. case_match; [done|].
  by apply (delete_rows_ok (λ r, rb_recording_id (row_info r) =?ₛ c) s).
Qed.

(** C22: Storing a batch unlinks exactly the bags that lost their last row: a
    path is handed to [remove_all] if and only if a row or the batch named it
    and no row names it afterwards, and each path once.  So no surviving row
    ever points at a removed bag, and no bag is leaked. *)
Theorem store_rosbag_files_unlinks_exactly infos s p :
  infos ≠ [] →
  let '(removed, s') := store_rosbag_files infos s in
  (p ∈ removed ↔
     (p ∈ paths (rosbag_files s) ∨ p ∈ rb_file_path <$> infos) ∧ p ∉ paths (rosbag_files s')) ∧
  NoDup removed.
Proof.
  intros Hne. unfold store_rosbag_files. destruct infos as [|i infos]; [done|]. clear Hne.
  pose proof (store_all_paths (max_rosbags_per_fault s) (i :: infos)
    {| acc_rows := rosbag_files s; acc_seq := rosbag_seq s; acc_evicted := ∅ |}) as Hp.
  set (a := foldl _ _ _) in *. simpl in Hp. split.
  - rewrite elem_of_unlink_paths. simpl.
    assert (Hin : p ∈ paths (acc_rows a) ∪ acc_evicted a ↔
      p ∈ paths (rosbag_files s) ∨ p ∈ rb_file_path <$> i :: infos).
    { rewrite Hp. rewrite fmap_cons, !elem_of_union, elem_of_cons, elem_of_singleton,
        elem_of_list_to_set. set_solver. }
    rewrite elem_of_union in Hin. naive_solver.
  - apply NoDup_filter, NoDup_set_entries.
Qed.

(** Deleting a fault's links or a whole recording removes exactly the
    matching rows and unlinks exactly the bags no remaining row references: a
    bag shared by a burst survives until its last link goes. *)
Theorem delete_unlinks_exactly code s p :
  let '(found, removed, s') := delete_rosbag_file code s in
  (∀ r, r ∈ rosbag_files s' ↔ r ∈ rosbag_files s ∧ row_code r ≠ code) ∧
  (found = true ↔ ∃ r, r ∈ rosbag_files s ∧ row_code r = code) ∧
  (p ∈ removed ↔ p ∈ paths (rosbag_files s) ∧ p ∉ paths (rosbag_files s')).
Proof.
  unfold delete_rosbag_file, delete_rows; simpl.
  set (rest := filter (λ r, (row_code r =?ₛ code) = false) (rosbag_files s)).
  assert (Hrest : ∀ r, r ∈ rest ↔ r ∈ rosbag_files s ∧ row_code r ≠ code).
  { intros r. unfold rest. rewrite list_elem_of_filter, str_eqb_neq. naive_solver. }
  destruct (length rest =? length (rosbag_files s))%nat eqn:E.
  - apply Nat.eqb_eq in E.
    assert (Hall : rest = rosbag_files s).
    { apply filter_all. intros r Hr. destruct (row_code r =?ₛ code) eqn:Ec; [|done].
      assert (length rest < length (rosbag_files s))%nat; [|lia].
      apply length_filter_lt with r; [done|by rewrite Ec]. }
    split_and!; [done| |].
    + split; [done|]. intros (r & Hr & Hc). rewrite <- Hall in Hr. by apply Hrest in Hr as [_ ?].
    + simpl. rewrite Hall, elem_of_nil. naive_solver.
  - apply Nat.eqb_neq in E. split_and!; [done| |].
    + split; [intros _|done].
      destruct (decide (Exists (λ r, row_code r = code) (rosbag_files s))) as [Hex|Hno].
      { by apply Exists_exists in Hex. }
      exfalso. apply E. f_equal. apply filter_all. intros r Hr. apply str_eqb_neq.
      intros Hc. apply Hno. rewrite Exists_exists. eauto.
    + rewrite elem_of_unlink_paths. simpl. rewrite elem_of_list_to_set, list_elem_of_fmap.
      setoid_rewrite list_elem_of_filter. rewrite !elem_of_paths. split.
      * intros [(r & -> & _ & Hr) Hp]. split; [eauto|done].
      * intros [(r & Hr & <-) Hp]. split; [|done]. exists r. split_and!; try done.
        apply str_eqb_eq. destruct (decide (row_code r = code)); [done|].
        exfalso. apply Hp. exists r. split; [|done]. by apply Hrest.
Qed.

(** Storing one recording under a cap of [max] leaves the fault with at most
    [max] links, keeps all links of other faults, and what it evicts is older
    (creation time, then insertion order) than every link of the fault that
    stays. *)
Theorem store_keeps_newest i s :
  rosbags_ok s → (0 < max_rosbags_per_fault s)%nat →
  let code := rb_fault_code i in
  let candidates := acc_rows (upsert (fill_recording_id i)
    {| acc_rows := rosbag_files s; acc_seq := rosbag_seq s; acc_evicted := ∅ |}) in
  let rows' := rosbag_files (store_rosbag_file i s).2 in
  (length (fault_rows code rows') = max_rosbags_per_fault s
                                    `min` length (fault_rows code candidates))%nat ∧
  (∀ r, r ∈ rows' → r ∈ candidates) ∧
  (∀ d, d ∈ candidates → d ∉ rows' → row_code d = code ∧
     ∀ k, k ∈ rows' → row_code k = code → row_lt d k = true).
Proof.
  intros [Hok Hs] Hm. cbv zeta. unfold store_rosbag_file, store_rosbag_files. simpl.
  unfold store_one. rewrite fill_recording_id_code.
  set (a := upsert _ _).
  assert (Ha : rows_ok (acc_rows a) (acc_seq a)).
  { by apply (upsert_ok (fill_recording_id i)
      {| acc_rows := rosbag_files s; acc_seq := rosbag_seq s; acc_evicted := ∅ |}). }
  destruct (trim_fault_spec (max_rosbags_per_fault s) (rb_fault_code i) a Hm)
    as (gone & Hp & Hgc & Hlen & Hold).
  split_and!.
  - done.
  - intros r Hr. rewrite Hp. set_solver.
  - intros d Hd Hnd. rewrite Hp in Hd. apply elem_of_app in Hd as [Hd|Hd]; [|done].
    rewrite Forall_forall in Hgc. split; [by apply Hgc|].
    intros k Hk Hkc. apply row_lt_total; [|by apply Hold].
    intros Hseq. apply rok_seqs in Ha. rewrite Hp, fmap_app in Ha.
    apply NoDup_app in Ha as (_ & Hdis & _).
    apply (Hdis (row_seq d)); [by apply list_elem_of_fmap_2|].
    rewrite Hseq. by apply list_elem_of_fmap_2.
Qed.

Lemma newest_row_snoc code rows r :
  newest_row code (rows ++ [r]) =
    if row_code r =?ₛ code then
      match newest_row code rows with
      | None => Some r
      | Some b => if row_lt b r then Some r else Some b
      end
    else newest_row code rows.
Proof. unfold newest_row. rewrite foldl_app. simpl. by repeat case_match. Qed.

Lemma newest_row_spec code rows :
  match newest_row code rows with
  | None => fault_rows code rows = []
  | Some b => b ∈ fault_rows code rows ∧ ∀ r, r ∈ fault_rows code rows → row_lt b r = false
  end.
Proof.
  assert (Hirr : ∀ x, row_lt x x = false).
  { intros x. destruct (row_lt x x) eqn:E; [|done]. by apply row_lt_asym in E as E'; congruence. }
  induction rows as [|r rows IH] using rev_ind; [done|].
  rewrite newest_row_snoc. unfold fault_rows in *. rewrite filter_app, filter_cons, filter_nil.
  destruct (row_code r =?ₛ code) eqn:E; bool_simpl.
  2: { rewrite decide_False by done. by rewrite app_nil_r. }
  rewrite decide_True by done. destruct (newest_row code rows) as [b|].
  - destruct IH as [Hb Hmax]. destruct (row_lt b r) eqn:Elt.
    + split; [set_solver|]. intros x [Hx| ->%list_elem_of_singleton]%elem_of_app; [|apply Hirr].
      apply row_le_trans with b; [by apply Hmax|]. by apply row_lt_asym.
    + split; [set_solver|]. intros x [Hx| ->%list_elem_of_singleton]%elem_of_app; auto.
  - rewrite IH. simpl. split; [set_solver|]. intros x ->%list_elem_of_singleton. apply Hirr.
Qed.

(** "The" recording of a fault is the first of its recordings listed newest
    first: [get_rosbag_file] and [get_rosbag_files] agree, and the list is the
    fault's links, newest first. *)
Theorem get_rosbag_file_is_newest code s :
  rosbags_ok s →
  get_rosbag_file code s = head (get_rosbag_files code s) ∧
  get_rosbag_files code s ≡ₚ row_info <$> fault_rows code (rosbag_files s) ∧
  StronglySorted (λ a b, rb_created_at_ns b ≤ rb_created_at_ns a) (get_rosbag_files code s).
Proof.
  intros [Hok _]. unfold get_rosbag_file, get_rosbag_files.
  fold (fault_rows code (rosbag_files s)).
  set (rows := fault_rows code (rosbag_files s)).
  assert (Hs : StronglySorted (sort_le row_gt) (stable_sort row_gt rows)).
  { apply (stable_sort_sorted _ (λ _, True)); [| |by apply Forall_true].
    - intros x y _ _. unfold row_gt. apply row_lt_asym.
    - intros x y z _ _ _. unfold sort_le, row_gt. intros H1 H2. by eapply row_le_trans. }
  split_and!.
  - pose proof (newest_row_spec code (rosbag_files s)) as Hn. fold rows in Hn.
    assert (Hel : ∀ x, x ∈ stable_sort row_gt rows ↔ x ∈ rows)
      by (intros x; apply elem_of_stable_sort).
    destruct (newest_row _ _) as [b|]; [|by rewrite Hn].
    destruct Hn as [Hb Hmax]. destruct (stable_sort row_gt rows) as [|h l].
    { apply Hel in Hb. by apply elem_of_nil in Hb. }
    simpl. do 2 f_equal. assert (h ∈ rows) as Hh by (apply Hel; left).
    assert (row_lt h b = false) as Hhb.
    { pose proof (proj2 (Hel b) Hb) as [<-|Hb']%elem_of_cons; [by apply Hmax|].
      apply StronglySorted_cons in Hs as [Hall _]. rewrite Forall_forall in Hall.
      apply (Hall b Hb'). }
    destruct (decide (row_seq b = row_seq h)) as [E|E].
    + apply rok_seqs in Hok. unfold rows, fault_rows in Hb, Hh.
      apply list_elem_of_filter in Hb as [_ Hb], Hh as [_ Hh].
      apply list_elem_of_lookup_1 in Hb as [i Hi], Hh as [j Hj].
      assert (i = j) as ->; [|by simplify_eq].
      eapply NoDup_lookup; [exact Hok|by rewrite list_lookup_fmap, Hi|].
      rewrite list_lookup_fmap, Hj. simpl. by rewrite E.
    + exfalso. specialize (Hmax h Hh). apply (row_lt_total h b) in Hmax; [|done].
      by rewrite Hmax in Hhb.
  - by rewrite stable_sort_perm.
  - eapply (StronglySorted_fmap row_info (sort_le row_gt)); [|exact Hs].
    intros x y. unfold sort_le, row_gt, row_lt.
    rewrite orb_false_iff, andb_false_iff, !Z.ltb_ge. lia.
Qed.

(** ** Quota accounting *)

Lemma bytes_per_path_snoc rows r :
  bytes_per_path (rows ++ [r]) =
    <[row_path r := Z.max (default 0 (bytes_per_path rows !! row_path r))
                      (rb_size_bytes (row_info r))]> (bytes_per_path rows).
Proof. unfold bytes_per_path. by rewrite foldl_app. Qed.

Lemma bytes_per_path_ge rows r :
  r ∈ rows → ∃ b, bytes_per_path rows !! row_path r = Some b ∧ rb_size_bytes (row_info r) ≤ b.
Proof.
  induction rows as [|x rows IH] using rev_ind; intros Hr; [by apply elem_of_nil in Hr|].
  rewrite bytes_per_path_snoc. apply elem_of_app in Hr as [Hr| ->%list_elem_of_singleton].
  - destruct (IH Hr) as (b & Hb & Hle). destruct (decide (row_path x = row_path r)) as [E|E].
    + rewrite E, lookup_insert_eq, Hb. eexists. split; [done|]. simpl. lia.
    + rewrite lookup_insert_ne by done. eauto.
  - rewrite lookup_insert_eq. eexists. split; [done|]. lia.
Qed.

(** A recording is charged once however many faults link to it: one more
    link to a bag that is already referenced, no larger than a link that is
    there, leaves the quota total unchanged. *)
Theorem shared_recording_charged_once s r r' seq :
  r ∈ rosbag_files s → row_path r' = row_path r →
  rb_size_bytes (row_info r') ≤ rb_size_bytes (row_info r) →
  get_total_rosbag_storage_bytes (with_rosbags (rosbag_files s ++ [r']) seq s) =
  get_total_rosbag_storage_bytes s.
Proof.
  intros Hr Hp Hle. unfold get_total_rosbag_storage_bytes. simpl. do 2 f_equal.
  destruct (bytes_per_path_ge _ _ Hr) as (b & Hb & Hge).
  rewrite bytes_per_path_snoc, Hp, Hb. simpl. rewrite Z.max_l by lia. by apply insert_id.
Qed.

(** ** Recording identity *)

Lemma until_slash_app l k :
  Forall (λ c, c ≠ slash) l → until_slash (l ++ slash :: k) = l.
Proof.
  induction 1 as [|c l Hc Hl IH]; simpl; [done|].
  apply Ascii.eqb_neq in Hc. by rewrite Hc, IH.
Qed.

(** Characters of a string, none of which is a separator. *)
Definition plain_name (s : string) : Prop :=
  s ≠ "" ∧ Forall (λ c, c ≠ slash) (String.list_ascii_of_string s).

#[global] Instance plain_name_dec s : Decision (plain_name s).
Proof. unfold plain_name. apply _. Defined.

Lemma list_ascii_app s t :
  String.list_ascii_of_string (s +:+ t) =
  String.list_ascii_of_string s ++ String.list_ascii_of_string t.
Proof.
  induction s as [|c s IH]; [done|].
  change (String.String c s +:+ t) with (String.String c (s +:+ t)). simpl. by rewrite IH.
Qed.

Lemma skip_slashes_id l : until_slash l ≠ [] → skip_slashes l = l.
Proof. destruct l as [|c l]; simpl; [done|]. by destruct (Ascii.eqb c slash). Qed.

(** A bag path ending in [/name], with or without a trailing separator, has
    recording id [name], whatever directory it is in; so all links of one bag
    share one id and the id carries no separator. *)
Theorem recording_id_is_basename dir name (trailing : bool) :
  plain_name name →
  rosbag_recording_id (dir +:+ "/" +:+ name +:+ (if trailing then "/" else "")) = name.
Proof.
  intros [Hne Hplain]. unfold rosbag_recording_id, rev_filename, rev_parent.
  rewrite !list_ascii_app.
  set (d := String.list_ascii_of_string dir). set (n := String.list_ascii_of_string name) in *.
  assert (Hn : Forall (λ c, c ≠ slash) (rev n)).
  { rewrite Forall_forall in Hplain |- *. intros c Hc. apply Hplain.
    rewrite list_elem_of_In in *. by apply in_rev. }
  assert (Hrn : rev n ≠ []).
  { intros E. apply Hne. assert (n = []) as En.
    { rewrite <- (rev_involutive n), E. done. }
    rewrite <- (String.string_of_list_ascii_of_string name). fold n. by rewrite En. }
  assert (Hrev : rev (d ++ String.list_ascii_of_string "/" ++ n) = rev n ++ slash :: rev d).
  { rewrite app_assoc, !rev_app_distr. done. }
  assert (Hgoal : String.string_of_list_ascii (rev (until_slash (rev n ++ slash :: rev d))) = name).
  { rewrite until_slash_app, rev_involutive by done. apply String.string_of_list_ascii_of_string. }
  assert (Hfn : until_slash (rev n ++ slash :: rev d) ≠ []) by by rewrite until_slash_app.
  destruct trailing.
  - rewrite (app_assoc _ _ (String.list_ascii_of_string "/")), (app_assoc d), rev_app_distr, Hrev.
    simpl. by rewrite skip_slashes_id.
  - rewrite app_nil_r, Hrev. by rewrite bool_decide_eq_false_2.
Qed.

(** ** What the recordings add up to

    The sizes behind [get_total_rosbag_storage_bytes]: per bag the largest of its
    rows. *)

Lemma foldl_max_bound l x : x ≤ foldl Z.max x l ∧ ∀ y, y ∈ l → y ≤ foldl Z.max x l.
Proof.
  revert x. induction l as [|z l IH]; intros x; cbn; [split; [lia|by intros y ?%elem_of_nil]|].
  destruct (IH (Z.max x z)) as [H1 H2]. split; [lia|]. intros y [->|Hy]%elem_of_cons; [lia|by apply H2].
Qed.

Definition sizes_of (p : string) (rows : list RosbagRow) : list Z :=
  rb_size_bytes ∘ row_info <$> filter (λ r, row_path r = p) rows.

Lemma sizes_snoc p rows r :
  sizes_of p (rows ++ [r]) = sizes_of p rows ++ if decide (row_path r = p) then [rb_size_bytes (row_info r)] else [].
Proof. unfold sizes_of. rewrite filter_app, fmap_app, filter_cons, filter_nil. by case_decide. Qed.

Lemma sizes_nil p rows : sizes_of p rows = [] ↔ p ∉ paths rows.
Proof.
  unfold sizes_of. rewrite elem_of_paths. split.
  - intros E%fmap_nil_inv (r & Hr & Hp). assert (r ∈ filter (λ r, row_path r = p) rows) as Hin by (by apply list_elem_of_filter).
    rewrite E in Hin. by apply elem_of_nil in Hin.
  - intros Hno. rewrite filter_none; [done|]. intros r Hr Hp. apply Hno. eauto.
Qed.

Lemma bytes_per_path_lookup p rows :
  bytes_per_path rows !! p = if decide (p ∈ paths rows) then Some (foldl Z.max 0 (sizes_of p rows)) else None.
Proof.
  induction rows as [|r rows IH] using rev_ind; [by rewrite decide_False by set_solver|]. rewrite bytes_per_path_snoc.
  assert (∀ x, default 0 (if decide (x ∈ paths rows) then Some (foldl Z.max 0 (sizes_of x rows)) else None) =
    foldl Z.max 0 (sizes_of x rows)) as Hd.
  { intros x. destruct (decide (x ∈ paths rows)) as [|Hx]; [done|]. apply sizes_nil in Hx. by rewrite Hx. }
  assert (∀ x, x ∈ paths (rows ++ [r]) ↔ x ∈ paths rows ∨ x = row_path r) as Hp.
  { intros x. rewrite !elem_of_paths. setoid_rewrite elem_of_app. setoid_rewrite list_elem_of_singleton. naive_solver. }
  destruct (decide (p = row_path r)) as [->|Hne].
  - rewrite lookup_insert_eq, decide_True by (apply Hp; by right). rewrite IH, Hd, sizes_snoc, decide_True, foldl_app by done. done.
  - assert (sizes_of p (rows ++ [r]) = sizes_of p rows) as -> by (rewrite sizes_snoc, decide_False by done; apply app_nil_r).
    rewrite lookup_insert_ne, IH by done.
    destruct (decide (p ∈ paths rows)); [rewrite decide_True|rewrite decide_False]; rewrite ?Hp; naive_solver.
Qed.

Lemma sum_perm l k : l ≡ₚ k → foldr Z.add 0 l = foldr Z.add 0 k.
Proof. induction 1; cbn; lia. Qed.

Lemma bytes_per_path_keys rows : remove_dups (row_path <$> rows) ≡ₚ (map_entries (bytes_per_path rows)).*1.
Proof.
  apply NoDup_Permutation; [apply NoDup_remove_dups|apply NoDup_map_entries_keys|].
  intros p. rewrite elem_of_remove_dups, <-(elem_of_list_to_set (C := gset string)). fold (paths rows).
  rewrite list_elem_of_fmap. split.
  - intros Hp. exists (p, foldl Z.max 0 (sizes_of p rows)). split; [done|]. apply elem_of_map_entries.
    by rewrite bytes_per_path_lookup, decide_True.
  - intros ([k v] & -> & Hv%elem_of_map_entries). rewrite bytes_per_path_lookup in Hv. by case_decide.
Qed.

Lemma bytes_per_path_values rows :
  (map_entries (bytes_per_path rows)).*2 =
  (λ p, foldl Z.max 0 (sizes_of p rows)) <$> (map_entries (bytes_per_path rows)).*1.
Proof.
  rewrite <-list_fmap_compose. apply list_fmap_ext. intros i [p v] Hv%list_elem_of_lookup_2.
  apply elem_of_map_entries in Hv. rewrite bytes_per_path_lookup in Hv. cbn. case_decide; by simplify_eq.
Qed.

(** [uint64_t] additions that do not wrap. *)
Lemma total_fits (l : list (string * Z)) acc :
  0 ≤ acc → Forall (λ e, 0 ≤ e.2) l → acc + foldr Z.add 0 l.*2 ≤ int64_max →
  foldl (λ total e, wrap_u64 (total + e.2)) acc l = acc + foldr Z.add 0 l.*2.
Proof.
  intros Hacc Hl. revert acc Hacc. induction Hl as [|e l He Hl IH]; intros acc Hacc Hle; cbn in *; [lia|].
  assert (0 ≤ foldr Z.add 0 l.*2) as H0 by (clear -Hl; induction Hl; cbn; lia).
  assert (wrap_u64 (acc + e.2) = acc + e.2) as -> by (unfold wrap_u64, int64_max in *; apply Z.mod_small; lia).
  rewrite IH; lia.
Qed.

(** Sizes that both backends add up without overflow. *)
Definition sizes_fit (rows : list RosbagRow) : Prop :=
  Forall (λ r, 0 ≤ rb_size_bytes (row_info r) ≤ int64_max) rows ∧
  foldr Z.add 0 (map_entries (bytes_per_path rows)).*2 ≤ int64_max.
