(* ===== verification/FaultStorage.v ===== *)
(** * The in-memory storage backend as a state machine

    Every state-changing method of [InMemoryFaultStorage] is one step; the
    invariant of the backend holds in every state reachable from a freshly
    constructed one. *)

From S2P Require Import Prelude FaultTypes Debounce FaultEvents FaultQueries Snapshots Rosbags.
From stdpp Require Import relations.
Open Scope Z_scope.

Inductive storage_step : InMemoryFaultStorage → InMemoryFaultStorage → Prop :=
  | step_report r s : cfg_i32 (r_cfg r) → storage_step s (report r s).2
  | step_clear code s : storage_step s (clear_fault code s).2
  | step_tick now s : storage_step s (check_time_based_confirmation now s).2
  | step_reclassify s : storage_step s (reclassify_healed_as_cleared s).2
  | step_set_debounce_config c s : storage_step s (set_debounce_config c s)
  | step_set_max_snapshots n s : storage_step s (set_max_snapshots_per_fault n s)
  | step_set_retain b s : storage_step s (set_retain_snapshots_on_clear b s)
  | step_set_max_rosbags n s : storage_step s (set_max_rosbags_per_fault n s)
  | step_set_max_near_misses n s : storage_step s (set_max_near_misses_per_fault n s).2
  | step_store_snapshots l s : storage_step s (store_snapshots l s)
  | step_store_freeze_frame f s : storage_step s (store_freeze_frame f s)
  | step_store_rosbags l s : storage_step s (store_rosbag_files l s).2
  | step_delete_rosbag code s : storage_step s (delete_rosbag_file code s).2
  | step_delete_rosbags codes s : storage_step s (delete_rosbag_files codes s).2
  | step_delete_recording id s : storage_step s (delete_rosbag_recording id s).2.

Definition reachable (s : InMemoryFaultStorage) : Prop := rtc storage_step empty_storage s.

(** Entries and near-miss series, link table, freeze-frame table. *)
Record storage_ok (s : InMemoryFaultStorage) : Prop := {
  sok_events : events_ok s;
  sok_rosbags : rosbags_ok s;
  sok_frames : map_Forall (λ c f, ff_fault_code f = c) (freeze_frames s);
}.

(** Two states that agree on what an invariant reads. *)
Lemma events_ok_ext s s' :
  faults s' = faults s → near_misses s' = near_misses s →
  max_near_misses_per_fault s' = max_near_misses_per_fault s → events_ok s → events_ok s'.
Proof.
  intros Hf Hn Hm [H1 H2]. constructor; [by rewrite Hf|].
  intros c. specialize (H2 c). unfold get_near_misses in *. by rewrite Hm, Hn.
Qed.

Lemma rosbags_ok_ext s s' :
  rosbag_files s' = rosbag_files s → rosbag_seq s' = rosbag_seq s → rosbags_ok s → rosbags_ok s'.
Proof. unfold rosbags_ok. by intros -> ->. Qed.

Lemma exec_other_fields e s :
  rosbag_files (exec e s) = rosbag_files s ∧ rosbag_seq (exec e s) = rosbag_seq s ∧
  freeze_frames (exec e s) = freeze_frames s.
Proof.
  destruct e as [r|c|t|]; simpl.
  - unfold report, report_fault_event, note_near_miss, record_near_miss.
    by repeat (case_match; simpl).
  - unfold clear_fault. by repeat (case_match; simpl).
  - unfold check_time_based_confirmation. by case_match.
  - unfold reclassify_healed_as_cleared. simpl. by case_match.
Qed.

Lemma exec_storage_ok e s : event_cfg_ok e → storage_ok s → storage_ok (exec e s).
Proof.
  intros He [H1 H2 H3]. destruct (exec_other_fields e s) as (Hr & Hq & Hff).
  constructor; [by apply exec_ok|by apply (rosbags_ok_ext s)|by rewrite Hff].
Qed.

Lemma delete_rosbag_file_fields c s :
  let s' := (delete_rosbag_file c s).2 in
  faults s' = faults s ∧ near_misses s' = near_misses s ∧
  max_near_misses_per_fault s' = max_near_misses_per_fault s ∧ freeze_frames s' = freeze_frames s.
Proof. unfold delete_rosbag_file. simpl. by case_match. Qed.

Lemma delete_rosbag_file_storage_ok c s : storage_ok s → storage_ok (delete_rosbag_file c s).2.
Proof.
  intros [H1 H2 H3]. destruct (delete_rosbag_file_fields c s) as (E1 & E2 & E3 & E4).
  constructor; [by apply (events_ok_ext s)|by apply delete_rosbag_file_ok|by rewrite E4].
Qed.

Lemma delete_rosbag_files_storage_ok cs s : storage_ok s → storage_ok (delete_rosbag_files cs s).2.
Proof.
  revert s. induction cs as [|c cs IH]; intros s H; [done|]. simpl.
  pose proof (delete_rosbag_file_storage_ok c s H) as H1.
  destruct (delete_rosbag_file c s) as [[ok gone] s1]. simpl in H1. specialize (IH s1 H1).
  by destruct (delete_rosbag_files cs s1) as [[n gone'] s2].
Qed.

Lemma storage_step_ok s s' : storage_step s s' → storage_ok s → storage_ok s'.
Proof.
  intros Hstep H. pose proof H as [H1 H2 H3]. destruct Hstep.
  - by apply (exec_storage_ok (EvReport r)).
  - by apply (exec_storage_ok (EvClear code)).
  - by apply (exec_storage_ok (EvTick now)).
  - by apply (exec_storage_ok EvReclassify).
  - constructor; [by apply (events_ok_ext s)|done..].
  - constructor; [by apply (events_ok_ext s)|done..].
  - constructor; [by apply (events_ok_ext s)|done..].
  - constructor; [by apply (events_ok_ext s)|done..].
  - constructor; [by apply set_max_near_misses_ok|..];
      unfold set_max_near_misses_per_fault; simpl; by case_match.
  - unfold store_snapshots. destruct l; [done|].
    constructor; [by apply (events_ok_ext s)|done..].
  - constructor; [by apply (events_ok_ext s)|done|]. simpl. by apply map_Forall_insert_2.
  - constructor; [|by apply store_rosbag_files_ok|]; unfold store_rosbag_files; destruct l; try done.
    by apply (events_ok_ext s).
  - by apply delete_rosbag_file_storage_ok.
  - by apply delete_rosbag_files_storage_ok.
  - constructor; [|by apply delete_rosbag_recording_ok|];
      unfold delete_rosbag_recording; case_match; try done. by apply (events_ok_ext s).
Qed.

Lemma empty_storage_ok : storage_ok empty_storage.
Proof.
  constructor; [constructor| |]; try by apply map_Forall_empty.
  - intros c. split; [done|simpl; lia].
  - split; [|done]. constructor; try apply NoDup_nil_2; done.
Qed.

(** C3: In every state reachable from a new backend through any sequence of its
    state-changing methods: each entry is filed under its own code with one of
    the five statuses, an [int32_t] counter, a count in [[1, 2^32-1]] and at
    least one source; each near-miss series holds unconfirmed records of its
    code and respects the bound; links are unique per (fault, bag) with unique
    issued sequence numbers; freeze-frames are filed under their own code. *)
Theorem reachable_storage_ok s : reachable s → storage_ok s.
Proof.
  intros Hr. unfold reachable in Hr. revert Hr.
  enough (∀ s0 s1, rtc storage_step s0 s1 → storage_ok s0 → storage_ok s1) as H.
  { intros Hr. eapply H; [exact Hr|apply empty_storage_ok]. }
  induction 1; eauto using storage_step_ok.
Qed.
