(* ===== verification/SqlConnection.v ===== *)
(** * A database connection

    What the source sees of SQLite: a statement runs, fails to prepare, or stops
    with an error; [BEGIN IMMEDIATE], [COMMIT] and [ROLLBACK], which always undoes.  The
    database is a parameter.  An exception is [None]. *)

From S2P Require Import Prelude.

(** [StopsAfter n]: a step fails after [n] rows. *)
Inductive outcome := Runs | PrepareFails | StopsAfter (rows : nat).

Record conn (D : Type) := mkConn {
  c_db : D;
  c_saved : option D;                 (* the database before the open transaction *)
  c_ran : nat;                        (* statements so far *)
}.
Arguments mkConn {D} _ _ _.
Arguments c_db {D} _.
Arguments c_saved {D} _.
Arguments c_ran {D} _.

Definition Stmt (D A : Type) : Type := conn D → option A * conn D.

#[global] Instance Stmt_ret {D} : MRet (Stmt D) := λ A x c, (Some x, c).
#[global] Instance Stmt_bind {D} : MBind (Stmt D) := λ A B f m c,
  match m c with (Some x, c') => f x c' | (None, c') => (None, c') end.

Definition throws {D A} : Stmt D A := λ c, (None, c).

Section Statements.
Context {D : Type} (runs : nat → outcome).

Definition next (d : D) (c : conn D) : conn D := mkConn d (c_saved c) (S (c_ran c)).

(** A SELECT read with [step() == SQLITE_ROW]: an error ends the rows. *)
Definition select {A} (f : D → list A) : Stmt D (list A) := λ c,
  match runs (c_ran c) with
  | Runs => (Some (f (c_db c)), next (c_db c) c)
  | PrepareFails => (None, next (c_db c) c)
  | StopsAfter n => (Some (take n (f (c_db c))), next (c_db c) c)
  end.

(** A statement that must end with [SQLITE_DONE]; [None]: a constraint or a
    trigger refuses it. *)
Definition modify (f : D → option D) : Stmt D unit := λ c,
  match runs (c_ran c), f (c_db c) with
  | Runs, Some d => (Some tt, next d c)
  | _, _ => (None, next (c_db c) c)
  end.

Definition begin_tx : Stmt D unit := λ c,
  match runs (c_ran c) with
  | Runs => (Some tt, mkConn (c_db c) (Some (c_db c)) (S (c_ran c)))
  | _ => (None, next (c_db c) c)
  end.

Definition commit_tx : Stmt D unit := λ c,
  match runs (c_ran c) with
  | Runs => (Some tt, mkConn (c_db c) None (S (c_ran c)))
  | _ => (None, next (c_db c) c)
  end.

Definition rollback_tx (c : conn D) : conn D := mkConn (default (c_db c) (c_saved c)) None (c_ran c).

(** [try { ... } catch (...) { ROLLBACK; throw; }] *)
Definition or_rollback_tx (m : Stmt D unit) : Stmt D unit := λ c,
  match m c with
  | (Some x, c') => (Some x, c')
  | (None, c') => (None, rollback_tx c')
  end.

Definition in_transaction (m : Stmt D unit) : Stmt D unit := begin_tx;; or_rollback_tx (m;; commit_tx).

(** ** What can come out *)

(** Changes inside a transaction: all of [f], or nothing to be seen. *)
Definition changes_by (f : D → option D) (m : Stmt D unit) : Prop :=
  ∀ c, c_saved (m c).2 = c_saved c ∧ ((m c).1 = Some tt → f (c_db c) = Some (c_db (m c).2)).

Lemma bind_eq {A B} (m : Stmt D A) (k : A → Stmt D B) c :
  (m ≫= k) c = match m c with (Some x, c') => k x c' | (None, c') => (None, c') end.
Proof. done. Qed.

Lemma changes_modify f : changes_by f (modify f).
Proof. intros c. unfold modify. destruct (runs (c_ran c)), (f (c_db c)); naive_solver. Qed.

Lemma changes_bind f g m k : changes_by f m → changes_by g k → changes_by (λ d, d' ← f d; g d') (m;; k).
Proof.
  intros Hm Hk c. unfold mbind, Stmt_bind. specialize (Hm c). destruct (m c) as [[[]|] c1]; cbn in *; [|naive_solver].
  destruct Hm as [Hs Hf]. rewrite (Hf eq_refl). cbn. destruct (Hk c1) as [Hs' Hg]. by rewrite Hs', Hs.
Qed.

Lemma in_transaction_cases f m c :
  changes_by f m → c_saved c = None →
  let r := in_transaction m c in
  c_saved r.2 = None ∧
  ((r.1 = Some tt ∧ f (c_db c) = Some (c_db r.2)) ∨ (r.1 = None ∧ c_db r.2 = c_db c)).
Proof.
  intros Hm Hc. cbv zeta. unfold in_transaction, or_rollback_tx, begin_tx, mbind, Stmt_bind. destruct (runs (c_ran c)); [|by split; [|right]..].
  set (c1 := mkConn (c_db c) (Some (c_db c)) (S (c_ran c))). destruct (Hm c1) as [Hs Hf].
  destruct (m c1) as [[[]|] c2]; cbn in *.
  - unfold commit_tx. destruct (runs (c_ran c2)); cbn; rewrite ?Hs; [split; [done|left; auto]|split; [done|by right]..].
  - rewrite Hs. split; [done|by right].
Qed.

Lemma select_keeps {A} (f : D → list A) c :
  c_db (select f c).2 = c_db c ∧ c_saved (select f c).2 = c_saved c ∧
  ∀ l, (select f c).1 = Some l → l `prefix_of` f (c_db c).
Proof.
  unfold select. destruct (runs (c_ran c)); cbn; split_and!; try done; intros l; [by intros [= <-]|].
  intros [= <-]. apply prefix_take.
Qed.

Lemma select_runs {A} (f : D → list A) c : (∀ n, runs n = Runs) → select f c = (Some (f (c_db c)), next (c_db c) c).
Proof. intros Hr. unfold select. by rewrite Hr. Qed.

(** A SELECT of at most one row: it throws, finds nothing, or that row. *)
Lemma select_one {A} (f : D → list A) x c :
  f (c_db c) = [x] →
  let r := select f c in
  c_db r.2 = c_db c ∧ c_saved r.2 = c_saved c ∧ (r.1 = None ∨ r.1 = Some [] ∨ r.1 = Some [x]) ∧
  ((∀ n, runs n = Runs) → r.1 = Some [x]).
Proof.
  intros Hf. cbv zeta. split_and!.
  - by destruct (select_keeps f c).
  - by destruct (select_keeps f c) as (_ & ? & _).
  - unfold select. rewrite Hf. destruct (runs (c_ran c)) as [| |[|n]]; cbn; rewrite ?take_nil; auto.
  - intros Hr. rewrite select_runs by done. cbn. by rewrite Hf.
Qed.

(** A run of statements succeeds where they all run and none is refused. *)
Definition succeeds_by (f : D → option D) (m : Stmt D unit) : Prop :=
  ∀ c d, (∀ n, runs n = Runs) → f (c_db c) = Some d → (m c).1 = Some tt ∧ c_db (m c).2 = d.

Lemma succeeds_modify f : succeeds_by f (modify f).
Proof. intros c d Hr Hf. unfold modify. by rewrite Hr, Hf. Qed.

Lemma succeeds_bind f g m k : succeeds_by f m → succeeds_by g k → succeeds_by (λ d, d' ← f d; g d') (m;; k).
Proof.
  intros Hm Hk c d Hr Hfg. destruct (f (c_db c)) as [d1|] eqn:E; [|done]. destruct (Hm c d1 Hr E) as [H1 H2].
  unfold mbind, Stmt_bind. destruct (m c) as [[[]|] c1]; cbn in *; [|done]. apply Hk; [done|]. by rewrite H2.
Qed.

Lemma in_transaction_runs f m c d :
  (∀ n, runs n = Runs) → succeeds_by f m → f (c_db c) = Some d → (in_transaction m c).1 = Some tt.
Proof.
  intros Hr Hm Hf. unfold in_transaction, or_rollback_tx, begin_tx, mbind, Stmt_bind. rewrite Hr.
  destruct (Hm (mkConn (c_db c) (Some (c_db c)) (S (c_ran c))) d Hr Hf) as [H1 _].
  destruct (m _) as [[[]|] c2]; cbn in H1; [|done]. unfold commit_tx. by rewrite Hr.
Qed.

End Statements.

(** * String arrays in columns

    [SqliteFaultStorage::serialize_json_array] and [parse_json_array]: the
    reporting sources of a fault are one text column.  The parser's position is
    the list of characters from there on. *)



Definition quote : ascii := ascii_of_nat 34.
Definition backslash : ascii := ascii_of_nat 92.
Definition char_b : ascii := ascii_of_nat 8.
Definition char_t : ascii := ascii_of_nat 9.
Definition char_n : ascii := ascii_of_nat 10.
Definition char_f : ascii := ascii_of_nat 12.
Definition char_r : ascii := ascii_of_nat 13.

(** ** Writing *)

Definition escape_char (c : ascii) : list ascii :=
  if Ascii.eqb c quote then [backslash; quote]
  else if Ascii.eqb c backslash then [backslash; backslash]
  else if Ascii.eqb c char_b then [backslash; "b"%char]
  else if Ascii.eqb c char_f then [backslash; "f"%char]
  else if Ascii.eqb c char_n then [backslash; "n"%char]
  else if Ascii.eqb c char_r then [backslash; "r"%char]
  else if Ascii.eqb c char_t then [backslash; "t"%char]
  else [c].

Definition quoted (s : string) : list ascii :=
  quote :: concat (escape_char <$> String.list_ascii_of_string s) ++ [quote].

(** The elements after the first one. *)
Definition more_elements (l : list string) : list ascii := concat ((λ s, ","%char :: quoted s) <$> l).

Definition array_content (l : list string) : list ascii :=
  match l with [] => [] | s :: l' => quoted s ++ more_elements l' end.

Definition serialize_json_array (l : list string) : string :=
  String.string_of_list_ascii ("["%char :: array_content l ++ ["]"%char]).

(** ** Reading *)

Definition is_space (c : ascii) : bool :=
  let n := nat_of_ascii c in (n =? 32)%nat || ((9 <=? n)%nat && (n <=? 13)%nat).

Fixpoint skip_space (l : list ascii) : list ascii :=
  match l with c :: l' => if is_space c then skip_space l' else l | [] => [] end.

Fixpoint skip_separators (l : list ascii) : list ascii :=
  match l with
  | c :: l' => if is_space c || Ascii.eqb c ","%char then skip_separators l' else l
  | [] => []
  end.

Definition unescape (c : ascii) : ascii :=
  if Ascii.eqb c "b"%char then char_b
  else if Ascii.eqb c "f"%char then char_f
  else if Ascii.eqb c "n"%char then char_n
  else if Ascii.eqb c "r"%char then char_r
  else if Ascii.eqb c "t"%char then char_t
  else c.

(** The value up to the closing quote, and the text from there on. *)
Fixpoint read_value (l : list ascii) : list ascii * list ascii :=
  match l with
  | [] => ([], [])
  | c :: l' =>
      if Ascii.eqb c quote then ([], l)
      else if Ascii.eqb c backslash then
        match l' with
        | [] => ([c], [])
        | e :: l'' => let '(v, rest) := read_value l'' in (unescape e :: v, rest)
        end
      else let '(v, rest) := read_value l' in (c :: v, rest)
  end.

(** The main loop; each round consumes a character, so the length is fuel
    enough. *)
Fixpoint read_elements (fuel : nat) (l : list ascii) : list string :=
  match fuel with
  | O => []
  | S fuel' =>
      match skip_space l with
      | [] => []
      | c :: l' =>
          if Ascii.eqb c quote then
            let '(v, rest) := read_value l' in
            String.string_of_list_ascii v :: read_elements fuel' (skip_separators (tail rest))
          else []
      end
  end.

Definition parse_json_array (s : string) : list string :=
  match String.list_ascii_of_string s with
  | c :: l =>
      if Ascii.eqb c "["%char && bool_decide (last l = Some "]"%char) then
        read_elements (length l) (removelast l)
      else []
  | [] => []
  end.

Example parse_example : parse_json_array (serialize_json_array ["/a"; "q" +:+ String quote "x"; ""]) =
  ["/a"; "q" +:+ String quote "x"; ""].
Proof. by vm_compute. Qed.

(** ** Round trip *)

Lemma read_escape_char c l v rest :
  read_value l = (v, rest) → read_value (escape_char c ++ l) = (c :: v, rest).
Proof. intros H. destruct c as [[] [] [] [] [] [] [] []]; lazy in H |- *; by rewrite H. Qed.

Lemma read_escaped l rest :
  read_value (concat (escape_char <$> l) ++ quote :: rest) = (l, quote :: rest).
Proof.
  induction l as [|c l IH]; [done|]. cbn [fmap list_fmap concat]. rewrite <-app_assoc. by apply read_escape_char.
Qed.

Lemma quoted_app s rest :
  quoted s ++ rest = quote :: concat (escape_char <$> String.list_ascii_of_string s) ++ quote :: rest.
Proof. unfold quoted. cbn. by rewrite <-app_assoc. Qed.

Lemma read_quoted fuel s rest :
  read_elements (S fuel) (quoted s ++ rest) = s :: read_elements fuel (skip_separators rest).
Proof.
  rewrite quoted_app. cbn [read_elements skip_space]. change (is_space quote) with false. cbv iota.
  rewrite Ascii.eqb_refl, read_escaped. cbn [tail]. by rewrite String.string_of_list_ascii_of_string.
Qed.

Lemma length_more s l : (S (length l) ≤ length (quoted s ++ more_elements l))%nat.
Proof.
  induction l as [|t l IH]; unfold more_elements in *; cbn in *; [lia|].
  rewrite !length_app in *. cbn in *. rewrite !length_app in *. cbn in *. lia.
Qed.

Lemma read_more fuel s l :
  (S (length l) ≤ fuel)%nat → read_elements fuel (quoted s ++ more_elements l) = s :: l.
Proof.
  revert fuel s. induction l as [|t l IH]; intros fuel s Hf; destruct fuel as [|fuel]; cbn [length] in Hf; try lia.
  - rewrite read_quoted. by destruct fuel.
  - rewrite read_quoted. f_equal. unfold more_elements. cbn [fmap list_fmap concat app skip_separators].
    change (is_space "," || Ascii.eqb "," ",") with true. cbv iota.
    replace (skip_separators (quoted t ++ concat ((λ s0, ","%char :: quoted s0) <$> l)))
      with (quoted t ++ more_elements l) by done. apply IH. lia.
Qed.

(** What was written is read back, for strings of any characters. *)
Lemma parse_serialize_array l : parse_json_array (serialize_json_array l) = l.
Proof.
  unfold parse_json_array, serialize_json_array. rewrite String.list_ascii_of_string_of_list_ascii.
  rewrite last_snoc, bool_decide_eq_true_2 by done. cbn [andb]. change (Ascii.eqb "[" "[") with true. cbv iota.
  rewrite removelast_last, length_app. cbn [length]. destruct l as [|s l]; [done|]. cbn [array_content].
  apply read_more. pose proof (length_more s l). lia.
Qed.
