(* ===== verification/SqliteStorage.v ===== *)
(** * The SQLite storage backend

    [SqliteFaultStorage] (sqlite_fault_storage.cpp).  A database is its tables; a
    statement of the source is a function on them, as its SQL text says.  A
    method runs statements in order; whether a statement runs, fails to prepare,
    or stops with an error is an argument, so that the exceptions and the
    transactions of the source are visible.  Methods hold the mutex for their
    whole body.

    Texts hold no NUL byte (they come out of ROS messages), so [column_text]
    gives what [bind_text] stored.  Where a query has no [ORDER BY], its order is
    the argument [scan]; rows that an [ORDER BY] leaves tied come in the order of
    the arguments [tie_snapshots] and [tie_bags]. *)

From S2P Require Import Prelude FaultTypes Debounce FaultEvents Rosbags SqlConnection.
Open Scope Z_scope.

(** ** Tables *)

Record FaultRow := mkFaultRow {
  fr_fault_code : string;
  fr_severity : Z;
  fr_description : string;
  fr_first_occurred_ns : Z;
  fr_last_occurred_ns : Z;
  fr_occurrence_count : Z;
  fr_status : string;
  fr_reporting_sources : string;
  fr_debounce_counter : Z;
  fr_last_failed_ns : Z;
  fr_last_passed_ns : Z;
  fr_confirmed_at_ns : Z;
}.

(** Rows of [snapshots] are in the order of their ids, which no statement
    reads.  The last two fields are the [sqlite_sequence] entries. *)
Record Db := mkDb {
  t_faults : gmap string FaultRow;
  t_snapshots : list SnapshotData;
  t_freeze_frames : gmap string FreezeFrameData;
  t_near_misses : list (Z * NearMissRecord);
  t_rosbag_files : list RosbagRow;
  near_miss_seq : Z;
  rosbag_file_seq : Z;
}.

Definition empty_db : Db := mkDb ∅ [] ∅ [] [] 0 0.

Definition set_faults (f : gmap string FaultRow) (d : Db) : Db :=
  mkDb f (t_snapshots d) (t_freeze_frames d) (t_near_misses d) (t_rosbag_files d) (near_miss_seq d) (rosbag_file_seq d).
Definition set_snapshots (l : list SnapshotData) (d : Db) : Db :=
  mkDb (t_faults d) l (t_freeze_frames d) (t_near_misses d) (t_rosbag_files d) (near_miss_seq d) (rosbag_file_seq d).
Definition set_freeze_frames (m : gmap string FreezeFrameData) (d : Db) : Db :=
  mkDb (t_faults d) (t_snapshots d) m (t_near_misses d) (t_rosbag_files d) (near_miss_seq d) (rosbag_file_seq d).
Definition set_near_misses (l : list (Z * NearMissRecord)) (seq : Z) (d : Db) : Db :=
  mkDb (t_faults d) (t_snapshots d) (t_freeze_frames d) l (t_rosbag_files d) seq (rosbag_file_seq d).
Definition set_rosbag_rows (l : list RosbagRow) (seq : Z) (d : Db) : Db :=
  mkDb (t_faults d) (t_snapshots d) (t_freeze_frames d) (t_near_misses d) l (near_miss_seq d) seq.

(** ** The object and its statements *)

Record SqliteFaultStorage := mkSqlite {
  q_db : Db;
  q_saved : option Db;                (* the database before the open transaction *)
  q_ran : nat;                        (* statements so far *)
  q_unlinked : list string;           (* calls of [remove_all] *)
  q_config : DebounceConfig;
  q_max_snapshots_per_fault : nat;
  q_max_near_misses_per_fault : nat;
  q_retain_snapshots_on_clear : bool;
  q_max_rosbags_per_fault : nat;
}.

(** [None]: an exception. *)
Definition Sql (A : Type) : Type := SqliteFaultStorage → option A * SqliteFaultStorage.

#[global] Instance Sql_ret : MRet Sql := λ A x q, (Some x, q).
#[global] Instance Sql_bind : MBind Sql := λ A B f m q,
  match m q with (Some x, q') => f x q' | (None, q') => (None, q') end.

Definition with_db (d : Db) (saved : option Db) (ran : nat) (q : SqliteFaultStorage) : SqliteFaultStorage :=
  mkSqlite d saved ran (q_unlinked q) (q_config q) (q_max_snapshots_per_fault q) (q_max_near_misses_per_fault q)
    (q_retain_snapshots_on_clear q) (q_max_rosbags_per_fault q).

Definition ask {A} (f : SqliteFaultStorage → A) : Sql A := λ q, (Some (f q), q).

Definition remove_all (path : string) : Sql unit := λ q,
  (Some tt, mkSqlite (q_db q) (q_saved q) (q_ran q) (q_unlinked q ++ [path]) (q_config q) (q_max_snapshots_per_fault q)
    (q_max_near_misses_per_fault q) (q_retain_snapshots_on_clear q) (q_max_rosbags_per_fault q)).

Fixpoint for_all {A} (l : list A) (f : A → Sql unit) : Sql unit :=
  match l with [] => mret tt | x :: l' => f x;; for_all l' f end.

Section Storage.
Context (runs : nat → outcome).
Context (scan : gmap string FaultRow → list FaultRow).
Context (tie_snapshots : list SnapshotData → list SnapshotData) (tie_bags : list RosbagFileInfo → list RosbagFileInfo).

(** A SELECT read with [while (step() == SQLITE_ROW)] or [if]: an error ends the
    rows. *)
Definition query {A} (f : Db → list A) : Sql (list A) := λ q,
  let q' := with_db (q_db q) (q_saved q) (S (q_ran q)) q in
  match runs (q_ran q) with
  | Runs => (Some (f (q_db q)), q')
  | PrepareFails => (None, q')
  | StopsAfter n => (Some (take n (f (q_db q))), q')
  end.

(** A statement that must end with [SQLITE_DONE]; [None]: a constraint fails. *)
Definition execute {A} (f : Db → option (A * Db)) : Sql A := λ q,
  match runs (q_ran q), f (q_db q) with
  | Runs, Some (x, d) => (Some x, with_db d (q_saved q) (S (q_ran q)) q)
  | _, _ => (None, with_db (q_db q) (q_saved q) (S (q_ran q)) q)
  end.

Definition begin_immediate : Sql unit := λ q,
  match runs (q_ran q) with
  | Runs => (Some tt, with_db (q_db q) (Some (q_db q)) (S (q_ran q)) q)
  | _ => (None, with_db (q_db q) (q_saved q) (S (q_ran q)) q)
  end.

Definition commit : Sql unit := λ q,
  match runs (q_ran q) with
  | Runs => (Some tt, with_db (q_db q) None (S (q_ran q)) q)
  | _ => (None, with_db (q_db q) (q_saved q) (S (q_ran q)) q)
  end.

Definition rollback (q : SqliteFaultStorage) : SqliteFaultStorage :=
  with_db (default (q_db q) (q_saved q)) None (q_ran q) q.

(** [try { ... } catch (...) { ROLLBACK; throw; }] *)
Definition or_rollback {A} (m : Sql A) : Sql A := λ q,
  match m q with
  | (Some x, q') => (Some x, q')
  | (None, q') => (None, rollback q')
  end.

Definition transaction {A} (m : Sql A) : Sql A :=
  begin_immediate;; or_rollback (x ← m; commit;; mret x).

(** ** Settings *)

Definition set_debounce_config (c : DebounceConfig) : Sql unit := λ q,
  (Some tt, mkSqlite (q_db q) (q_saved q) (q_ran q) (q_unlinked q) c (q_max_snapshots_per_fault q)
    (q_max_near_misses_per_fault q) (q_retain_snapshots_on_clear q) (q_max_rosbags_per_fault q)).

Definition set_max_snapshots_per_fault (n : nat) : Sql unit := λ q,
  (Some tt, mkSqlite (q_db q) (q_saved q) (q_ran q) (q_unlinked q) (q_config q) n
    (q_max_near_misses_per_fault q) (q_retain_snapshots_on_clear q) (q_max_rosbags_per_fault q)).

Definition set_retain_snapshots_on_clear (b : bool) : Sql unit := λ q,
  (Some tt, mkSqlite (q_db q) (q_saved q) (q_ran q) (q_unlinked q) (q_config q) (q_max_snapshots_per_fault q)
    (q_max_near_misses_per_fault q) b (q_max_rosbags_per_fault q)).

Definition set_max_rosbags_per_fault (n : nat) : Sql unit := λ q,
  (Some tt, mkSqlite (q_db q) (q_saved q) (q_ran q) (q_unlinked q) (q_config q) (q_max_snapshots_per_fault q)
    (q_max_near_misses_per_fault q) (q_retain_snapshots_on_clear q) n).

Definition get_debounce_config : Sql DebounceConfig := ask q_config.
Definition retains_snapshots_on_clear : Sql bool := ask q_retain_snapshots_on_clear.

Definition set_near_miss_limit (n : nat) : Sql unit := λ q,
  (Some tt, mkSqlite (q_db q) (q_saved q) (q_ran q) (q_unlinked q) (q_config q) (q_max_snapshots_per_fault q) n
    (q_retain_snapshots_on_clear q) (q_max_rosbags_per_fault q)).

(** ** Near misses *)


Definition unlimited (max : nat) : bool := (max =? 0)%nat || (int64_max <? Z.of_nat max).

Definition insert_near_miss (r : NearMissRecord) (d : Db) : Db :=
  set_near_misses (t_near_misses d ++ [(near_miss_seq d + 1, r)]) (near_miss_seq d + 1) d.

Definition ids_of_code (code : string) (rows : list (Z * NearMissRecord)) : list Z :=
  (filter (λ e, nm_fault_code e.2 = code) rows).*1.

(** [ORDER BY id DESC LIMIT n] *)
Definition newest_ids (n : nat) (code : string) (rows : list (Z * NearMissRecord)) : list Z :=
  take n (stable_sort (λ x y, y <? x) (ids_of_code code rows)).

Definition trim_near_misses (n : nat) (code : string) (d : Db) : Db :=
  let keep := newest_ids n code (t_near_misses d) in
  set_near_misses (filter (λ e, ¬ (nm_fault_code e.2 = code ∧ e.1 ∉ keep)) (t_near_misses d)) (near_miss_seq d) d.

Definition record_near_miss_locked (r : NearMissRecord) : Sql unit :=
  execute (λ d, Some (tt, insert_near_miss r d));;
  max ← ask q_max_near_misses_per_fault;
  if unlimited max then mret tt
  else execute (λ d, Some (tt, trim_near_misses max (nm_fault_code r) d)).

(** [ROW_NUMBER() OVER (PARTITION BY fault_code ORDER BY id DESC)] *)
Definition row_number (rows : list (Z * NearMissRecord)) (e : Z * NearMissRecord) : nat :=
  length (filter (λ f, nm_fault_code f.2 = nm_fault_code e.2 ∧ e.1 ≤ f.1) rows).

Definition bound_near_misses (n : nat) (d : Db) : nat * Db :=
  let rows := t_near_misses d in
  (length (filter (λ e, (n < row_number rows e)%nat) rows),
   set_near_misses (filter (λ e, ¬ (n < row_number rows e)%nat) rows) (near_miss_seq d) d).

Definition set_max_near_misses_per_fault (max_count : nat) : Sql nat :=
  set_near_miss_limit max_count;;
  if unlimited max_count then mret 0%nat
  else execute (λ d, Some (bound_near_misses max_count d)).

Definition get_near_misses (code : string) : Sql (list NearMissRecord) :=
  query (λ d, (filter (λ e, nm_fault_code e.2 = code)
    (stable_sort (λ x y, x.1 <? y.1) (t_near_misses d))).*2).

(** ** Reports *)

Definition near_miss_record (code : string) (timestamp counter : Z) (cfg : DebounceConfig) (sev : Z)
    (source_id status : string) : NearMissRecord :=
  mkNearMissRecord code timestamp counter (confirmation_threshold cfg) sev source_id status.

(** The UPDATE of a FAILED report, with the description only if it is not
    empty. *)
Definition update_failed (code : string) (sev : Z) (descr : string) (timestamp count : Z) (sources status : string)
    (counter confirmed_at first_occurred : Z) (d : Db) : Db :=
  set_faults (alter (λ r, mkFaultRow (fr_fault_code r) sev (if descr =?ₛ "" then fr_description r else descr) first_occurred timestamp
    count status sources counter timestamp (fr_last_passed_ns r) confirmed_at) code (t_faults d)) d.

Definition update_passed (code : string) (timestamp : Z) (status : string) (counter : Z) (d : Db) : Db :=
  set_faults (alter (λ r, mkFaultRow (fr_fault_code r) (fr_severity r) (fr_description r) (fr_first_occurred_ns r)
    (fr_last_occurred_ns r) (fr_occurrence_count r) status (fr_reporting_sources r) counter (fr_last_failed_ns r)
    timestamp (fr_confirmed_at_ns r)) code (t_faults d)) d.

(** [fault_code] is the primary key. *)
Definition insert_fault (code : string) (row : FaultRow) (d : Db) : option (unit * Db) :=
  match t_faults d !! code with
  | Some _ => None
  | None => Some (tt, set_faults (<[code := row]> (t_faults d)) d)
  end.

(** [sources_set] and back. *)
Definition add_source (source_id sources_json : string) : list string :=
  set_entries ({[ source_id ]} ∪ list_to_set (parse_json_array sources_json)).

Definition report_new (code : string) (sev : Z) (descr source_id : string) (timestamp : Z) (cfg : DebounceConfig)
    : Sql bool :=
  let initial_status :=
    if critical_confirms cfg sev then STATUS_CONFIRMED else compute_debounce_status (-1) "" cfg in
  let confirmed_now := initial_status =?ₛ STATUS_CONFIRMED in
  execute (insert_fault code (mkFaultRow code sev descr timestamp timestamp 1 initial_status
    (serialize_json_array [source_id]) (-1) timestamp 0 (if confirmed_now then timestamp else 0)));;
  (if is_near_miss true initial_status
   then record_near_miss_locked (near_miss_record code timestamp (-1) cfg sev source_id initial_status)
   else mret tt);;
  mret true.

Definition report_existing (code : string) (is_failed : bool) (sev : Z) (descr source_id : string) (timestamp : Z)
    (cfg : DebounceConfig) (row : FaultRow) : Sql bool :=
  let cleared := fr_status row =?ₛ STATUS_CLEARED in
  if cleared && negb is_failed then mret false
  else
    let counter := if cleared then 0 else clamp_debounce_counter (fr_debounce_counter row) cfg in
    let first_occurred := if cleared then timestamp else fr_first_occurred_ns row in
    if is_failed then
      let sources := add_source source_id (fr_reporting_sources row) in
      let new_severity := Z.max (fr_severity row) sev in
      let new_count :=
        if cleared && (fr_occurrence_count row <? uint32_max) then fr_occurrence_count row + 1
        else fr_occurrence_count row in
      let counter := clamp_debounce_counter (counter -ᵢ 1) cfg in
      let new_status :=
        if critical_confirms cfg sev then STATUS_CONFIRMED
        else compute_debounce_status counter (fr_status row) cfg in
      let confirmed_at :=
        if (new_status =?ₛ STATUS_CONFIRMED) && negb (fr_status row =?ₛ STATUS_CONFIRMED) then timestamp
        else fr_confirmed_at_ns row in
      execute (λ d, Some (tt, update_failed code new_severity descr timestamp new_count (serialize_json_array sources)
        new_status counter confirmed_at first_occurred d));;
      (if is_near_miss true new_status
       then record_near_miss_locked (near_miss_record code timestamp counter cfg sev source_id new_status)
       else mret tt);;
      mret cleared
    else
      let counter := clamp_debounce_counter (counter +ᵢ 1) cfg in
      let new_status := compute_debounce_status counter (fr_status row) cfg in
      execute (λ d, Some (tt, update_passed code timestamp new_status counter d));;
      mret cleared.

Definition report_fault_event_locked (code : string) (event_type sev : Z) (descr source_id : string) (timestamp : Z)
    (cfg : DebounceConfig) : Sql bool :=
  let is_failed := event_type =? EVENT_FAILED in
  rows ← query (λ d, option_list (t_faults d !! code));
  match rows with
  | row :: _ => report_existing code is_failed sev descr source_id timestamp cfg row
  | [] => if negb is_failed then mret false else report_new code sev descr source_id timestamp cfg
  end.

Definition report_fault_event (code : string) (event_type sev : Z) (descr source_id : string) (timestamp : Z)
    (cfg : DebounceConfig) : Sql bool :=
  if negb (event_type =? EVENT_FAILED)
  then report_fault_event_locked code event_type sev descr source_id timestamp cfg
  else transaction (report_fault_event_locked code event_type sev descr source_id timestamp cfg).

(** ** Queries on faults *)

Definition read_fault (r : FaultRow) : FaultMsg :=
  {| msg_fault_code := fr_fault_code r;
     msg_severity := fr_severity r;
     msg_description := fr_description r;
     msg_first_occurred := fr_first_occurred_ns r;
     msg_last_occurred := fr_last_occurred_ns r;
     msg_last_passed := fr_last_passed_ns r;
     msg_occurrence_count := wrap_u32 (fr_occurrence_count r);
     msg_status := fr_status r;
     msg_reporting_sources := parse_json_array (fr_reporting_sources r) |}.

Definition list_faults (filter_by_severity : bool) (sev : Z) (statuses : list string) : Sql (list FaultMsg) :=
  query (λ d, read_fault <$> filter (λ r, fr_status r ∈ status_filter statuses ∧
    (filter_by_severity = true → fr_severity r = sev)) (scan (t_faults d))).

Definition get_fault (code : string) : Sql (option FaultMsg) :=
  rows ← query (λ d, option_list (read_fault <$> t_faults d !! code));
  mret (head rows).

Definition get_all_faults : Sql (list FaultMsg) := query (λ d, read_fault <$> scan (t_faults d)).

Definition size : Sql nat :=
  rows ← query (λ d, [base.size (t_faults d)]); mret (default 0%nat (head rows)).

Definition contains (code : string) : Sql bool :=
  rows ← query (λ d, option_list ((λ _, 1) <$> t_faults d !! code));
  mret (negb (bool_decide (rows = []))).

(** ** Acknowledgement and timers *)

Definition set_row_status (s : string) (r : FaultRow) : FaultRow :=
  mkFaultRow (fr_fault_code r) (fr_severity r) (fr_description r) (fr_first_occurred_ns r) (fr_last_occurred_ns r)
    (fr_occurrence_count r) s (fr_reporting_sources r) (fr_debounce_counter r) (fr_last_failed_ns r)
    (fr_last_passed_ns r) (fr_confirmed_at_ns r).

Definition confirm_row (now : Z) (r : FaultRow) : FaultRow :=
  mkFaultRow (fr_fault_code r) (fr_severity r) (fr_description r) (fr_first_occurred_ns r) (fr_last_occurred_ns r)
    (fr_occurrence_count r) STATUS_CONFIRMED (fr_reporting_sources r) (fr_debounce_counter r) (fr_last_failed_ns r)
    (fr_last_passed_ns r) now.

(** UPDATE ... WHERE: the rows that match are changed and counted. *)
Definition update_rows (P : FaultRow → bool) (f : FaultRow → FaultRow) (d : Db) : nat * Db :=
  (base.size (filter (λ e : string * FaultRow, P e.2 = true) (t_faults d)),
   set_faults ((λ r, if P r then f r else r) <$> t_faults d) d).

Definition delete_snapshots (P : SnapshotData → Prop) `{∀ r, Decision (P r)} (d : Db) : Db :=
  set_snapshots (filter (λ r, ¬ P r) (t_snapshots d)) d.

Definition clear_fault (code : string) : Sql bool :=
  retain ← ask q_retain_snapshots_on_clear;
  (if retain : bool then mret tt
   else execute (λ d, Some (tt, delete_snapshots (λ r, snap_fault_code r = code) d)));;
  execute (λ d, Some (bool_decide (is_Some (t_faults d !! code)),
    set_faults (alter (set_row_status STATUS_CLEARED) code (t_faults d)) d)).

Definition healed_row (r : FaultRow) : bool := fr_status r =?ₛ STATUS_HEALED.

Definition codes_where (P : FaultRow → bool) (d : Db) : list string :=
  fr_fault_code <$> filter (λ r, P r = true) (scan (t_faults d)).

Definition reclassify_healed_as_cleared : Sql (list string) :=
  reclassified ← query (codes_where healed_row);
  if bool_decide (reclassified = []) then mret []
  else
    retain ← ask q_retain_snapshots_on_clear;
    (if retain : bool then mret tt
     else execute (λ d, Some (tt, delete_snapshots (λ r, snap_fault_code r ∈ codes_where healed_row d) d)));;
    execute (λ d, Some (update_rows healed_row (set_row_status STATUS_CLEARED) d));;
    mret reclassified.

Definition due_row (cutoff : Z) (r : FaultRow) : bool :=
  (fr_status r =?ₛ STATUS_PREFAILED) && (fr_last_failed_ns r <=? cutoff) && (0 <? fr_last_failed_ns r).

Definition cutoff_ns (cfg : DebounceConfig) (current_ns : Z) : Z :=
  current_ns - f64_trunc (f64_mul (auto_confirm_after_sec cfg) (f64_of_Z 1000000000)).

Definition check_time_based_confirmation (current_ns : Z) : Sql (list string) :=
  cfg ← ask q_config;
  if f64_leb (auto_confirm_after_sec cfg) f64_zero then mret []
  else
    let due := due_row (cutoff_ns cfg current_ns) in
    confirmed ← query (codes_where due);
    if bool_decide (confirmed = []) then mret []
    else execute (λ d, Some (update_rows due (confirm_row current_ns) d));; mret confirmed.

(** ** Snapshots *)

Definition capture_ids (code : string) (d : Db) : list Z :=
  snap_capture_id <$> filter (λ r, snap_fault_code r = code) (t_snapshots d).

(** [SELECT MAX(...)] and [MIN(...)]; [None] is NULL. *)
Definition sql_max (l : list Z) : option Z :=
  match l with [] => None | x :: l' => Some (foldl Z.max x l') end.
Definition sql_min (l : list Z) : option Z :=
  match l with [] => None | x :: l' => Some (foldl Z.min x l') end.

(** The oldest capture goes unless it is the newest; the number of its rows. *)
Definition trim_capture (code : string) (newest : Z) (d : Db) : nat * Db :=
  let gone (r : SnapshotData) :=
    snap_fault_code r = code ∧ Some (snap_capture_id r) = sql_min (capture_ids code d) ∧ snap_capture_id r ≠ newest in
  (length (filter gone (t_snapshots d)), delete_snapshots gone d).

(** The [while (true)] loop; the fuel is the number of rows, of which each
    further round deletes one. *)
Fixpoint trim_captures (fuel : nat) (max : nat) (code : string) (newest : Z) : Sql unit :=
  match fuel with
  | O => mret tt
  | S fuel' =>
      rows ← query (λ d, [length (capture_ids code d)]);
      match rows with
      | n :: _ =>
          if (n <=? max)%nat then mret tt
          else
            changes ← execute (λ d, Some (trim_capture code newest d));
            if (changes =? 0)%nat then mret tt else trim_captures fuel' max code newest
      | [] => mret tt
      end
  end.

Definition insert_snapshot (r : SnapshotData) : Sql unit :=
  execute (λ d, Some (tt, set_snapshots (t_snapshots d ++ [r]) d)).

Definition store_snapshots (snaps : list SnapshotData) : Sql unit :=
  match snaps with
  | [] => mret tt
  | front :: _ =>
      let code := snap_fault_code front in
      transaction (
        for_all snaps insert_snapshot;;
        max ← ask q_max_snapshots_per_fault;
        if (0 <? max)%nat then
          newest ← query (λ d, [default 0 (sql_max (capture_ids code d))]);
          rows ← ask (λ q, length (t_snapshots (q_db q)));
          trim_captures (S rows) max code (default 0 (head newest))
        else mret tt)
  end.

Definition store_snapshot (snap : SnapshotData) : Sql unit := store_snapshots [snap].

(** [ORDER BY capture_id DESC, captured_at_ns DESC] *)
Definition newer_snapshot (a b : SnapshotData) : bool :=
  (snap_capture_id b <? snap_capture_id a)
  || ((snap_capture_id b =? snap_capture_id a) && (snap_captured_at_ns b <? snap_captured_at_ns a)).

Definition get_snapshots (code topic_filter : string) : Sql (list SnapshotData) :=
  query (λ d, stable_sort newer_snapshot (tie_snapshots (filter (λ r, snap_fault_code r = code ∧
    (topic_filter ≠ "" → snap_topic r = topic_filter)) (t_snapshots d)))).

Definition get_max_capture_id : Sql Z :=
  rows ← query (λ d, [default 0 (sql_max (snap_capture_id <$> t_snapshots d))]);
  mret (default 0 (head rows)).

(** ** Freeze-frames *)

Definition store_freeze_frame (frame : FreezeFrameData) : Sql unit :=
  execute (λ d, Some (tt, set_freeze_frames (<[ff_fault_code frame := frame]> (t_freeze_frames d)) d)).

Definition get_freeze_frame (code : string) : Sql (option FreezeFrameData) :=
  rows ← query (λ d, option_list (t_freeze_frames d !! code)); mret (head rows).

(** ** Recordings *)

(** [INSERT ... ON CONFLICT(fault_code, file_path) DO UPDATE] *)
Definition upsert_link (i : RosbagFileInfo) (d : Db) : Db :=
  let rows := t_rosbag_files d in
  if existsb (same_link i) rows
  then set_rosbag_rows ((λ r, if same_link i r then mkRosbagRow i (row_seq r) else r) <$> rows) (rosbag_file_seq d) d
  else set_rosbag_rows (rows ++ [mkRosbagRow i (rosbag_file_seq d + 1)]) (rosbag_file_seq d + 1) d.

(** [doomed_sql]: rows of the fault that are not among its newest [max]. *)
Definition kept_ids (max : nat) (code : string) (rows : list RosbagRow) : list Z :=
  row_seq <$> take max (stable_sort row_gt (filter (λ r, row_code r = code) rows)).

Definition doomed (max : nat) (code : string) (rows : list RosbagRow) (r : RosbagRow) : Prop :=
  row_code r = code ∧ row_seq r ∉ kept_ids max code rows.

#[global] Instance doomed_dec max code rows r : Decision (doomed max code rows r).
Proof. unfold doomed. apply _. Defined.

Definition delete_rosbag_rows (P : RosbagRow → Prop) `{∀ r, Decision (P r)} (d : Db) : nat * Db :=
  (length (filter P (t_rosbag_files d)),
   set_rosbag_rows (filter (λ r, ¬ P r) (t_rosbag_files d)) (rosbag_file_seq d) d).

Definition store_rosbag_file_locked (info : RosbagFileInfo) : Sql (list string) :=
  let row := fill_recording_id info in
  execute (λ d, Some (tt, upsert_link row d));;
  max ← ask q_max_rosbags_per_fault;
  if (max =? 0)%nat then mret []
  else
    evicted ← query (λ d, remove_dups (row_path <$>
      filter (doomed max (rb_fault_code row) (t_rosbag_files d)) (t_rosbag_files d)));
    if bool_decide (evicted = []) then mret []
    else
      execute (λ d, Some (delete_rosbag_rows (doomed max (rb_fault_code row) (t_rosbag_files d)) d));;
      mret evicted.

Fixpoint store_each (infos : list RosbagFileInfo) : Sql (list string) :=
  match infos with
  | [] => mret []
  | i :: infos' => gone ← store_rosbag_file_locked i; more ← store_each infos'; mret (gone ++ more)
  end.

(** An error of the count reads as no reference. *)
Definition path_referenced (path : string) : Sql bool :=
  rows ← query (λ d, [length (filter (λ r, row_path r = path) (t_rosbag_files d))]);
  mret (match rows with n :: _ => (0 <? n)%nat | [] => false end).

Definition unlink_unreferenced (paths : gset string) : Sql unit :=
  for_all (set_entries paths) (λ path,
    held ← path_referenced path; if held : bool then mret tt else remove_all path).

Definition store_rosbag_files (infos : list RosbagFileInfo) : Sql unit :=
  match infos with
  | [] => mret tt
  | _ => evicted ← transaction (store_each infos); unlink_unreferenced (list_to_set evicted)
  end.

Definition store_rosbag_file (info : RosbagFileInfo) : Sql unit := store_rosbag_files [info].

Definition get_rosbag_files (code : string) : Sql (list RosbagFileInfo) :=
  query (λ d, row_info <$> stable_sort row_gt (filter (λ r, row_code r = code) (t_rosbag_files d))).

Definition get_rosbag_files_by_recording (recording_id : string) : Sql (list RosbagFileInfo) :=
  query (λ d, stable_sort (λ a b, str_ltb (rb_fault_code a) (rb_fault_code b))
    (tie_bags (row_info <$> filter (λ r, rb_recording_id (row_info r) = recording_id) (t_rosbag_files d)))).

Definition delete_rosbag_recording (recording_id : string) : Sql nat :=
  if recording_id =?ₛ "" then mret 0%nat
  else
    paths ← query (λ d, remove_dups (row_path <$>
      filter (λ r, rb_recording_id (row_info r) = recording_id) (t_rosbag_files d)));
    if bool_decide (paths = []) then mret 0%nat
    else
      removed ← transaction (execute (λ d,
        Some (delete_rosbag_rows (λ r, rb_recording_id (row_info r) = recording_id) d)));
      unlink_unreferenced (list_to_set paths);;
      mret removed.

Definition get_rosbag_file (code : string) : Sql (option RosbagFileInfo) :=
  rows ← query (λ d, row_info <$>
    take 1 (stable_sort row_gt (filter (λ r, row_code r = code) (t_rosbag_files d))));
  mret (head rows).

Definition paths_of_fault (code : string) : Sql (list string) :=
  query (λ d, row_path <$> filter (λ r, row_code r = code) (t_rosbag_files d)).

Definition delete_rosbag_file (code : string) : Sql bool :=
  paths ← paths_of_fault code;
  changes ← execute (λ d, Some (delete_rosbag_rows (λ r, row_code r = code) d));
  unlink_unreferenced (list_to_set paths);;
  mret (0 <? changes)%nat.

Fixpoint delete_each (codes : list string) : Sql (list string * nat) :=
  match codes with
  | [] => mret ([], 0%nat)
  | code :: codes' =>
      paths ← paths_of_fault code;
      changes ← execute (λ d, Some (delete_rosbag_rows (λ r, row_code r = code) d));
      more ← delete_each codes';
      mret (paths ++ more.1, if (0 <? changes)%nat then S more.2 else more.2)
  end.

Definition delete_rosbag_files (codes : list string) : Sql nat :=
  match codes with
  | [] => mret 0%nat
  | _ => r ← transaction (delete_each codes); unlink_unreferenced (list_to_set r.1);; mret r.2
  end.

Definition to_i64 (z : Z) : Z := (z + 9223372036854775808) `mod` 18446744073709551616 - 9223372036854775808.

(** [SUM] of the largest size per path; [None]: the sum overflows. *)
Definition sum_of_bags (d : Db) : option Z :=
  let sizes path := to_i64 <$> (rb_size_bytes ∘ row_info <$> filter (λ r, row_path r = path) (t_rosbag_files d)) in
  let total := foldr Z.add 0 ((λ path, default 0 (sql_max (sizes path))) <$>
    remove_dups (row_path <$> t_rosbag_files d)) in
  if (-9223372036854775808 <=? total) && (total <=? int64_max) then Some total else None.

Definition get_total_rosbag_storage_bytes : Sql Z :=
  rows ← query (λ d, option_list (sum_of_bags d));
  mret (match rows with total :: _ => wrap_u64 total | [] => 0 end).

Definition get_all_rosbag_files : Sql (list RosbagFileInfo) :=
  query (λ d, row_info <$> stable_sort row_lt (t_rosbag_files d)).

(** [JOIN json_each(...)]: a row per element that is the entity; text that is not
    JSON makes the statement fail before its first row. *)
Definition joined_row (json_each : string → option (list string)) (entity : string) (d : Db) (r : RosbagRow)
    : option (list RosbagRow) :=
  match t_faults d !! row_code r with
  | None => Some []
  | Some f => (λ elems : list string, (λ _, r) <$> filter (λ e, e = entity) elems) <$> json_each (fr_reporting_sources f)
  end.

Definition joined_rows (json_each : string → option (list string)) (entity : string) (d : Db)
    : option (list RosbagRow) :=
  (λ l, concat l) <$> mapM (joined_row json_each entity d) (t_rosbag_files d).

Definition list_rosbags_for_entity (json_each : string → option (list string)) (entity : string)
    : Sql (list RosbagFileInfo) :=
  query (λ d, row_info <$> stable_sort row_gt (default [] (joined_rows json_each entity d))).
End Storage.

(** ** Opening a database *)

(** What an older release left out. *)
Record Schema := mkSchema {
  has_confirmed_at : bool;
  has_capture_id : bool;
  has_resulting_status : bool;
  rosbag_unique : bool;                (* the column constraint on [fault_code] *)
  has_recording_id : bool;
}.

Definition current_schema : Schema := mkSchema true true true false true.

Definition add_confirmed_at (d : Db) : Db :=
  set_faults ((λ r, mkFaultRow (fr_fault_code r) (fr_severity r) (fr_description r) (fr_first_occurred_ns r) (fr_last_occurred_ns r)
    (fr_occurrence_count r) (fr_status r) (fr_reporting_sources r) (fr_debounce_counter r) (fr_last_failed_ns r)
    (fr_last_passed_ns r) 0) <$> t_faults d) d.

Definition repair_last_occurred (d : Db) : Db :=
  set_faults ((λ r,
    if (0 <? fr_last_failed_ns r) && (fr_last_failed_ns r <? fr_last_occurred_ns r)
    then mkFaultRow (fr_fault_code r) (fr_severity r) (fr_description r) (fr_first_occurred_ns r) (fr_last_failed_ns r)
      (fr_occurrence_count r) (fr_status r) (fr_reporting_sources r) (fr_debounce_counter r) (fr_last_failed_ns r)
      (fr_last_passed_ns r) (fr_confirmed_at_ns r)
    else r) <$> t_faults d) d.

Definition add_capture_id (d : Db) : Db :=
  set_snapshots ((λ r, mkSnapshotData (snap_fault_code r) (snap_topic r) (snap_message_type r) (snap_data r)
    (snap_captured_at_ns r) 0) <$> t_snapshots d) d.

Definition add_resulting_status (d : Db) : Db :=
  set_near_misses ((λ e, (e.1, mkNearMissRecord (nm_fault_code e.2) (nm_occurred_at_ns e.2) (nm_debounce_counter e.2)
    (nm_confirmation_threshold e.2) (nm_severity e.2) (nm_source_id e.2) "")) <$> t_near_misses d) (near_miss_seq d) d.

Definition set_recording_id (id : string) (i : RosbagFileInfo) : RosbagFileInfo :=
  mkRosbagFileInfo (rb_fault_code i) id (rb_file_path i) (rb_format i) (rb_duration_sec i) (rb_size_bytes i)
    (rb_created_at_ns i).

(** The rebuild: rows in the order of their ids get the ids 1, 2, ... and an
    empty recording id. *)
Definition migrate_rosbag_files_drop_unique (sch : Schema) (d : Db) : Db :=
  if rosbag_unique sch then
    let rows := stable_sort (λ a b, row_seq a <? row_seq b) (t_rosbag_files d) in
    set_rosbag_rows (imap (λ k r, mkRosbagRow (set_recording_id "" (row_info r)) (Z.of_nat k + 1)) rows)
      (Z.of_nat (length rows)) d
  else d.

(** A column that was not there is empty everywhere; empty ids are filled in. *)
Definition migrate_rosbag_files_add_recording_id (sch : Schema) (d : Db) : Db :=
  let rows :=
    if has_recording_id sch || rosbag_unique sch then t_rosbag_files d
    else (λ r, mkRosbagRow (set_recording_id "" (row_info r)) (row_seq r)) <$> t_rosbag_files d in
  set_rosbag_rows ((λ r,
    if rb_recording_id (row_info r) =?ₛ ""
    then mkRosbagRow (set_recording_id (rosbag_recording_id (row_path r)) (row_info r)) (row_seq r)
    else r) <$> rows) (rosbag_file_seq d) d.

(** [id NOT IN (SELECT MAX(id) ... GROUP BY fault_code, file_path)] *)
Definition dedupe_links (d : Db) : Db :=
  set_rosbag_rows (filter (λ r, Forall (λ r', row_link r' = row_link r → row_seq r' ≤ row_seq r) (t_rosbag_files d))
    (t_rosbag_files d)) (rosbag_file_seq d) d.

Definition initialize_schema (sch : Schema) (d : Db) : Db :=
  let d := if has_confirmed_at sch then d else add_confirmed_at d in
  let d := repair_last_occurred d in
  let d := if has_capture_id sch then d else add_capture_id d in
  let d := if has_resulting_status sch then d else add_resulting_status d in
  let d := migrate_rosbag_files_drop_unique sch d in
  let d := migrate_rosbag_files_add_recording_id sch d in
  dedupe_links d.

(** A constructed object over a database. *)
Definition open_storage (sch : Schema) (d : Db) : SqliteFaultStorage :=
  mkSqlite (initialize_schema sch d) None 0 [] default_DebounceConfig 0 0 false 1.
