(* ===== verification/SqliteSpec.v ===== *)
(** * Both storage backends agree

    A relation between a database and the state of [InMemoryFaultStorage], and
    that every method keeps it and gives the same answer, while statements run
    and within the conditions under which the two sources agree. *)

From stdpp Require Import relations.
From S2P Require Import Prelude FaultTypes Debounce FaultEvents Snapshots Rosbags FaultStorage SqlConnection SqliteStorage.
Open Scope Z_scope.

(** ** Running methods *)

(** The object with another statement count and transaction. *)
Definition at_point (n : nat) (saved : option Db) (q : SqliteFaultStorage) : SqliteFaultStorage :=
  with_db (q_db q) saved n q.

Definition put_db (d : Db) (q : SqliteFaultStorage) : SqliteFaultStorage := with_db d (q_saved q) (q_ran q) q.

(** [m] returns [x] and leaves [q'], whatever ran before. *)
Definition computes {A} (saved : option Db) (m : Sql A) (q : SqliteFaultStorage) (x : A) (q' : SqliteFaultStorage)
    : Prop :=
  ∀ n, ∃ n', m (at_point n saved q) = (Some x, at_point n' saved q').

Lemma computes_ret {A} sv (x : A) q : computes sv (mret x) q x q.
Proof. intros n. by exists n. Qed.

Lemma computes_bind {A B} sv (m : Sql A) (f : A → Sql B) q x q1 y q2 :
  computes sv m q x q1 → computes sv (f x) q1 y q2 → computes sv (m ≫= f) q y q2.
Proof.
  intros Hm Hf n. destruct (Hm n) as [n1 H1], (Hf n1) as [n2 H2]. exists n2.
  unfold mbind, Sql_bind. by rewrite H1.
Qed.

Lemma computes_ask {A} sv (f : SqliteFaultStorage → A) q :
  (∀ n, f (at_point n sv q) = f q) → computes sv (ask f) q (f q) q.
Proof. intros Hf n. exists n. unfold ask. by rewrite Hf. Qed.

Lemma computes_remove_all sv path q :
  computes sv (remove_all path) q tt
    (mkSqlite (q_db q) (q_saved q) (q_ran q) (q_unlinked q ++ [path]) (q_config q) (q_max_snapshots_per_fault q)
      (q_max_near_misses_per_fault q) (q_retain_snapshots_on_clear q) (q_max_rosbags_per_fault q)).
Proof. intros n. by exists n. Qed.

Section Runs.
Context (runs : nat → outcome) (Hruns : ∀ n, runs n = Runs).

Lemma computes_query {A} sv (f : Db → list A) q : computes sv (query runs f) q (f (q_db q)) q.
Proof. intros n. exists (S n). unfold query. cbn. by rewrite Hruns. Qed.

Lemma computes_execute {A} sv (f : Db → option (A * Db)) q x d :
  f (q_db q) = Some (x, d) → computes sv (execute runs f) q x (put_db d q).
Proof. intros Hf n. exists (S n). unfold execute. cbn. by rewrite Hruns, Hf. Qed.

Lemma computes_execute_to {A} sv (f : Db → option (A * Db)) q x d q' :
  f (q_db q) = Some (x, d) → q' = put_db d q → computes sv (execute runs f) q x q'.
Proof. intros Hf ->. by apply computes_execute. Qed.

Lemma computes_transaction {A} (m : Sql A) q x q' :
  computes (Some (q_db q)) m q x q' → computes None (transaction runs m) q x q'.
Proof.
  intros Hm n. destruct (Hm (S n)) as [n' H]. exists (S n').
  unfold transaction, mbind, Sql_bind, begin_immediate. cbn. rewrite Hruns.
  unfold or_rollback, at_point, with_db in *. cbn in *. rewrite H. unfold commit. cbn. by rewrite Hruns.
Qed.

End Runs.

(** ** Sorting what is sorted *)

Lemma sort_insert_end {A} (lt : A → A → bool) x l :
  Forall (λ y, lt y x = true) l → sort_insert lt x l = l ++ [x].
Proof. induction 1 as [|y l Hy _ IH]; cbn; [done|]. by rewrite Hy, IH. Qed.

Lemma sort_insert_front {A} (lt : A → A → bool) x l :
  Forall (λ y, lt y x = false) l → sort_insert lt x l = x :: l.
Proof. destruct 1 as [|y l Hy _]; cbn; [done|]. by rewrite Hy. Qed.

Lemma stable_sort_reverses {A} (lt : A → A → bool) l :
  StronglySorted (λ x y, lt y x = true) l → stable_sort lt l = rev l.
Proof.
  induction 1 as [|x l Hs IH Hx]; cbn; [done|]. rewrite IH. apply sort_insert_end.
  by rewrite <-Permutation_rev.
Qed.

Lemma stable_sort_keeps {A} (lt : A → A → bool) l :
  StronglySorted (λ x y, lt y x = false) l → stable_sort lt l = l.
Proof. induction 1 as [|x l Hs IH Hx]; cbn; [done|]. rewrite IH. by apply sort_insert_front. Qed.

Lemma filter_last_n {A B} `{EqDecision B} (f : A → B) n (l : list A) :
  NoDup (f <$> l) → filter (λ e, f e ∈ last_n n (f <$> l)) l = last_n n l.
Proof.
  intros Hnd. unfold last_n. rewrite length_fmap, <-fmap_drop.
  set (k := (length l - n)%nat). etransitivity; [apply f_equal; symmetry; apply (take_drop k l)|].
  rewrite <-(take_drop k l) in Hnd.
  rewrite fmap_app in Hnd. apply NoDup_app in Hnd as (_ & Hdis & _).
  rewrite filter_app, filter_none; [cbn; apply filter_all|].
  - intros e He. by apply list_elem_of_fmap_2.
  - intros e He. apply Hdis. by apply list_elem_of_fmap_2.
Qed.

(** ** Near misses *)

Definition rows_of (code : string) (rows : list (Z * NearMissRecord)) : list (Z * NearMissRecord) :=
  filter (λ e, nm_fault_code e.2 = code) rows.

(** Ids grow along the table. *)
Record near_ids_ok (rows : list (Z * NearMissRecord)) (seq : Z) : Prop := {
  ni_sorted : StronglySorted (λ x y : Z * NearMissRecord, x.1 < y.1) rows;
  ni_issued : Forall (λ e, e.1 ≤ seq) rows;
}.

Lemma near_ids_filter P `{∀ e, Decision (P e)} rows seq :
  near_ids_ok rows seq → near_ids_ok (filter P rows) seq.
Proof.
  intros [Hs Hi]. split; [by apply StronglySorted_filter|]. apply Forall_forall. intros e [_ He]%list_elem_of_filter.
  rewrite Forall_forall in Hi. by apply Hi.
Qed.

Lemma near_ids_snoc rows seq r : near_ids_ok rows seq → near_ids_ok (rows ++ [(seq + 1, r)]) (seq + 1).
Proof.
  intros [Hs Hi]. split.
  - induction Hs as [|x l Hs IH Hx]; cbn; [repeat constructor|]. apply Forall_cons in Hi as [Hx1 Hi].
    constructor; [by apply IH|]. apply Forall_app_2; [done|]. repeat constructor. cbn. lia.
  - apply Forall_app_2; [|by repeat constructor]. eapply Forall_impl; [exact Hi|]. cbn. lia.
Qed.

Lemma near_ids_nodup rows seq : near_ids_ok rows seq → NoDup rows.*1.
Proof.
  intros [Hs _]. induction Hs as [|x l Hs IH Hx]; cbn; constructor; [|done].
  intros (e & Heq & He)%list_elem_of_fmap. rewrite Forall_forall in Hx. specialize (Hx e He). lia.
Qed.

Lemma newest_ids_last rows seq n code :
  near_ids_ok rows seq → newest_ids n code rows = rev (last_n n (rows_of code rows).*1).
Proof.
  intros [Hs _]. unfold newest_ids, ids_of_code. fold (rows_of code rows).
  rewrite stable_sort_reverses; [|].
  - unfold last_n. apply firstn_rev.
  - apply (StronglySorted_filter _ (λ e : Z * NearMissRecord, nm_fault_code e.2 = code)) in Hs. fold (rows_of code rows) in Hs.
    induction Hs as [|x l Hs IH Hx]; cbn; constructor; [done|]. apply Forall_fmap.
    eapply Forall_impl; [exact Hx|]. cbn. intros y Hy. by apply Z.ltb_lt.
Qed.

(** The trim of one fault leaves the newest rows of it. *)
Lemma trim_rows_of n code c rows seq :
  near_ids_ok rows seq →
  rows_of c (filter (λ e, ¬ (nm_fault_code e.2 = code ∧ e.1 ∉ newest_ids n code rows)) rows) =
    if decide (c = code) then last_n n (rows_of c rows) else rows_of c rows.
Proof.
  intros Hok. rewrite (newest_ids_last _ seq) by done. unfold rows_of at 1. rewrite filter_filter_comm.
  fold (rows_of c rows). case_decide as Hc.
  - subst c. rewrite <-(filter_last_n fst n (rows_of code rows)).
    + apply filter_ext_elem. intros e [He _]%list_elem_of_filter. rewrite <-Permutation_rev.
      destruct (decide (e.1 ∈ last_n n (rows_of code rows).*1)); naive_solver.
    + eapply (near_ids_nodup _ seq). by apply near_ids_filter.
  - apply filter_all. intros e [He _]%list_elem_of_filter. naive_solver.
Qed.

Lemma rank_last n (l : list (Z * NearMissRecord)) seq :
  near_ids_ok l seq →
  filter (λ e, ¬ (n < length (filter (λ f : Z * NearMissRecord, (e.1 ≤ f.1)%Z) l))%nat) l = last_n n l.
Proof.
  intros [Hs _]. induction Hs as [|x l Hs IH Hx]; [done|]. rewrite Forall_forall in Hx. rewrite filter_cons.
  assert (filter (λ f : Z * NearMissRecord, (x.1 ≤ f.1)%Z) (x :: l) = x :: l) as Hall.
  { apply filter_all. intros f [->|Hf]%elem_of_cons; [done|]. specialize (Hx f Hf). lia. }
  assert (filter (λ e, ¬ (n < length (filter (λ f : Z * NearMissRecord, (e.1 ≤ f.1)%Z) (x :: l)))%nat) l = last_n n l)
    as Htail.
  { rewrite <-IH. apply filter_ext_elem. intros e He. specialize (Hx e He). by rewrite (filter_cons_False _ x l) by lia. }
  rewrite Htail, Hall. unfold last_n in *. cbn [length]. case_decide.
  - replace (S (length l) - n)%nat with 0%nat by lia. by replace (length l - n)%nat with 0%nat by lia.
  - by replace (S (length l) - n)%nat with (S (length l - n)) by lia.
Qed.

Lemma row_number_of rows e :
  row_number rows e = length (filter (λ f, e.1 ≤ f.1) (rows_of (nm_fault_code e.2) rows)).
Proof.
  unfold row_number, rows_of. rewrite list_filter_filter. f_equal. apply list_filter_iff. naive_solver.
Qed.

Lemma bound_rows_of n c rows seq :
  near_ids_ok rows seq →
  rows_of c (filter (λ e, ¬ (n < row_number rows e)%nat) rows) = last_n n (rows_of c rows).
Proof.
  intros Hok. unfold rows_of at 1. rewrite filter_filter_comm. fold (rows_of c rows).
  rewrite <-(rank_last n (rows_of c rows) seq) by (by apply near_ids_filter).
  apply filter_ext_elem. intros e [He _]%list_elem_of_filter. by rewrite row_number_of, He.
Qed.

Lemma sum_indicator (k : string) keys :
  NoDup keys → k ∈ keys → sum_list ((λ x, if decide (k = x) then 1%nat else 0%nat) <$> keys) = 1%nat.
Proof.
  induction 1 as [|x keys Hx Hnd IH]; [by intros ?%elem_of_nil|]. intros [->|Hk]%elem_of_cons; cbn.
  - rewrite decide_True by done. assert (sum_list ((λ y, if decide (x = y) then 1%nat else 0%nat) <$> keys) = 0%nat) as ->;
      [|done]. clear IH Hnd. induction keys as [|y keys IH]; [done|]. cbn. apply not_elem_of_cons in Hx as [??].
    rewrite decide_False by done. by apply IH.
  - rewrite decide_False by (intros ->; done). by apply IH.
Qed.

Lemma count_by_code keys rows :
  NoDup keys → (∀ e, e ∈ rows → nm_fault_code e.2 ∈ keys) →
  length rows = sum_list ((λ k, length (rows_of k rows)) <$> keys).
Proof.
  intros Hnd. induction rows as [|e rows IH]; intros Hin.
  { clear. induction keys as [|k keys IH]; cbn; [done|]. exact IH. }
  assert (∀ ks, sum_list ((λ k, length (rows_of k (e :: rows))) <$> ks) =
    sum_list ((λ x, if decide (nm_fault_code e.2 = x) then 1%nat else 0%nat) <$> ks) +
    sum_list ((λ k, length (rows_of k rows)) <$> ks))%nat as Hsplit.
  { induction ks as [|k ks IHk]; [done|]. cbn [fmap list_fmap sum_list]. rewrite IHk. unfold rows_of at 1.
    rewrite filter_cons. case_decide; cbn [length]; unfold rows_of, id; lia. }
  rewrite Hsplit, sum_indicator; [|done|apply Hin; left]. cbn. f_equal. apply IH. intros f Hf. apply Hin. by right.
Qed.
