(* ===== verification/SqliteReports.v ===== *)
(** * Both storage backends agree

    A relation between a database and the state of [InMemoryFaultStorage]; every
    method keeps it and gives the same answer. *)

From stdpp Require Import relations.
From S2P Require Import Prelude FaultTypes Debounce FaultEvents Snapshots Rosbags FaultStorage SqlConnection SqliteStorage SqliteSpec.
Open Scope Z_scope.

(** ** The relation *)

Definition state_of (r : FaultRow) : FaultState :=
  {| fault_code := fr_fault_code r; severity := fr_severity r; description := fr_description r;
     first_occurred := fr_first_occurred_ns r; last_occurred := fr_last_occurred_ns r;
     occurrence_count := fr_occurrence_count r; status := fr_status r;
     reporting_sources := list_to_set (parse_json_array (fr_reporting_sources r));
     debounce_counter := fr_debounce_counter r;
     last_failed_time := fr_last_failed_ns r; last_passed_time := fr_last_passed_ns r |}.

(** A row under its own code, its sources in order. *)
Record row_ok (code : string) (r : FaultRow) : Prop := {
  row_key : fr_fault_code r = code;
  row_sources : ∃ X, fr_reporting_sources r = serialize_json_array (set_entries X);
}.

Record backs (q : SqliteFaultStorage) (s : InMemoryFaultStorage) : Prop := {
  b_ok : storage_ok s;
  b_faults : faults s = state_of <$> t_faults (q_db q);
  b_rows : map_Forall row_ok (t_faults (q_db q));
  b_near : ∀ c, FaultEvents.get_near_misses c s = (rows_of c (t_near_misses (q_db q))).*2;
  b_ids : near_ids_ok (t_near_misses (q_db q)) (near_miss_seq (q_db q));
  b_snapshots : snapshots s = t_snapshots (q_db q);
  b_frames : freeze_frames s = t_freeze_frames (q_db q);
  b_bags : rosbag_files s = t_rosbag_files (q_db q);
  b_seq : rosbag_seq s = rosbag_file_seq (q_db q);
  b_config : config s = q_config q;
  b_max_snapshots : max_snapshots_per_fault s = q_max_snapshots_per_fault q;
  b_retain : retain_snapshots_on_clear s = q_retain_snapshots_on_clear q;
  b_max_bags : max_rosbags_per_fault s = q_max_rosbags_per_fault q;
  b_max_near : max_near_misses_per_fault s = q_max_near_misses_per_fault q;
  b_limit : Z.of_nat (q_max_near_misses_per_fault q) ≤ int64_max;
}.

(** Reduces projections of updated objects and databases. *)
Ltac fields :=
  cbn [put_db at_point with_db set_faults set_snapshots set_freeze_frames set_near_misses set_rosbag_rows
       q_db q_unlinked q_config q_max_snapshots_per_fault q_max_near_misses_per_fault q_retain_snapshots_on_clear
       q_max_rosbags_per_fault t_faults t_snapshots t_freeze_frames t_near_misses t_rosbag_files near_miss_seq
       rosbag_file_seq] in *.

Lemma parse_sources X : parse_json_array (serialize_json_array (set_entries X)) = set_entries X.
Proof. apply parse_serialize_array. Qed.

Lemma set_of_entries (X : gset string) : list_to_set (set_entries X) = X.
Proof. apply set_eq. intros x. by rewrite elem_of_list_to_set, elem_of_set_entries. Qed.

Lemma set_entries_singleton (x : string) : set_entries {[ x ]} = [x].
Proof. pose proof (set_entries_perm {[ x ]}) as H. rewrite elements_singleton in H. by apply Permutation_singleton_r in H. Qed.

Lemma row_sources_state code r :
  row_ok code r → fr_reporting_sources r = serialize_json_array (set_entries (reporting_sources (state_of r))).
Proof. intros [_ [X HX]]. cbn. by rewrite HX, parse_sources, set_of_entries. Qed.

(** ** Reports *)

Lemma unlimited_zero max : Z.of_nat max ≤ int64_max → unlimited max = (max =? 0)%nat.
Proof. intros H. unfold unlimited. by rewrite (proj2 (Z.ltb_ge _ _) H), orb_false_r. Qed.

Lemma record_near_miss_computes runs (Hruns : ∀ n, runs n = Runs) sv r q :
  near_ids_ok (t_near_misses (q_db q)) (near_miss_seq (q_db q)) →
  Z.of_nat (q_max_near_misses_per_fault q) ≤ int64_max →
  ∃ rows seq, computes sv (record_near_miss_locked runs r) q tt (put_db (set_near_misses rows seq (q_db q)) q) ∧
    near_ids_ok rows seq ∧
    ∀ c, (rows_of c rows).*2 =
      if decide (c = nm_fault_code r)
      then push_bounded (q_max_near_misses_per_fault q) (rows_of c (t_near_misses (q_db q))).*2 [r]
      else (rows_of c (t_near_misses (q_db q))).*2.
Proof.
  intros Hids Hlim. apply (near_ids_snoc _ _ r) in Hids as Hids1.
  set (rows1 := t_near_misses (q_db q) ++ [(near_miss_seq (q_db q) + 1, r)]) in *.
  assert (∀ c, rows_of c rows1 = rows_of c (t_near_misses (q_db q)) ++
    if decide (c = nm_fault_code r) then [(near_miss_seq (q_db q) + 1, r)] else []) as Hsnoc.
  { intros c. unfold rows_of, rows1. rewrite filter_app, filter_cons, filter_nil. cbn.
    do 2 case_decide; congruence. }
  unfold record_near_miss_locked. set (max := q_max_near_misses_per_fault q) in *.
  pose proof (unlimited_zero max Hlim) as Hu.
  destruct (max =? 0)%nat eqn:E.
  - exists rows1, (near_miss_seq (q_db q) + 1). split_and!; [|done|].
    + eapply computes_bind; [by apply computes_execute|]. eapply computes_bind; [by apply computes_ask|].
      cbn. fold max. rewrite Hu. apply computes_ret.
    + intros c. rewrite Hsnoc, fmap_app. unfold push_bounded. rewrite E. case_decide; [done|]. cbn. by rewrite app_nil_r.
  - exists (filter (λ e, ¬ (nm_fault_code e.2 = nm_fault_code r ∧ e.1 ∉ newest_ids max (nm_fault_code r) rows1)) rows1),
      (near_miss_seq (q_db q) + 1). split_and!; [|by apply near_ids_filter|].
    + eapply computes_bind; [by apply computes_execute|]. eapply computes_bind; [by apply computes_ask|].
      cbn. fold max. rewrite Hu. by eapply computes_execute_to.
    + intros c. rewrite (trim_rows_of _ _ _ _ (near_miss_seq (q_db q) + 1)), Hsnoc by done. unfold push_bounded. rewrite E.
      case_decide; [|by rewrite app_nil_r]. unfold last_n. by rewrite fmap_drop, fmap_app, length_app, length_app, length_fmap.
Qed.

(** What a report leaves of the tables besides the faults. *)
Definition same_rest (d d' : Db) : Prop :=
  t_snapshots d' = t_snapshots d ∧ t_freeze_frames d' = t_freeze_frames d ∧
  t_rosbag_files d' = t_rosbag_files d ∧ rosbag_file_seq d' = rosbag_file_seq d.

(** The statement on the fault row, the near miss and the answer. *)
Lemma report_tail_computes runs (Hruns : ∀ n, runs n = Runs) sv q (f : Db → option (unit * Db)) t (nm : bool) rec (b : bool) :
  near_ids_ok (t_near_misses (q_db q)) (near_miss_seq (q_db q)) →
  Z.of_nat (q_max_near_misses_per_fault q) ≤ int64_max →
  f (q_db q) = Some (tt, set_faults t (q_db q)) →
  ∃ d, computes sv
      (execute runs f;; (if nm then record_near_miss_locked runs rec else mret tt);; mret b) q b (put_db d q) ∧
    t_faults d = t ∧ same_rest (q_db q) d ∧ near_ids_ok (t_near_misses d) (near_miss_seq d) ∧
    ∀ c, (rows_of c (t_near_misses d)).*2 =
      if decide (c = nm_fault_code rec)
      then push_bounded (q_max_near_misses_per_fault q) (rows_of c (t_near_misses (q_db q))).*2 (if nm then [rec] else [])
      else (rows_of c (t_near_misses (q_db q))).*2.
Proof.
  intros Hids Hlim Hf. destruct nm.
  - destruct (record_near_miss_computes runs Hruns sv rec (put_db (set_faults t (q_db q)) q)) as (rows & seq & Hc & Hok & Hrows);
      [done..|]. exists (set_near_misses rows seq (set_faults t (q_db q))). split_and!; try done.
    eapply computes_bind; [by apply computes_execute|]. eapply computes_bind; [exact Hc|apply computes_ret].
  - exists (set_faults t (q_db q)). split_and!; try done; [|intros c; by case_decide].
    eapply computes_bind; [by apply computes_execute|]. eapply computes_bind; apply computes_ret.
Qed.

Definition report_near_row (r : Report) (st : FaultState) : NearMissRecord :=
  near_miss_record (r_code r) (r_time r) (debounce_counter st) (r_cfg r) (r_sev r) (r_source r) (status st).

Lemma near_miss_of_row r o st :
  report_entry r o = Some st → fault_code st = r_code r →
  near_miss_of r o = if is_near_miss (r_event r =? EVENT_FAILED) (status st) then [report_near_row r st] else [].
Proof. intros Ho Hc. unfold near_miss_of, report_near_row, near_miss_record. rewrite Ho. by rewrite <-Hc. Qed.

Lemma sane_clamp_start cfg : sane cfg → clamp_debounce_counter (0 -ᵢ 1) cfg = -1.
Proof.
  intros [H1 H2]. change (0 -ᵢ 1)%medkit with (-1). unfold clamp_debounce_counter.
  rewrite (proj2 (Z.ltb_ge _ _)) by lia. by rewrite (proj2 (Z.ltb_ge _ _)) by lia.
Qed.

Lemma put_db_id q : put_db (q_db q) q = q.
Proof. by destruct q. Qed.

(** The database after a report, next to the map of entries and the series. *)
Record after_report (r : Report) (q : SqliteFaultStorage) (f : gmap string FaultState) (d : Db) : Prop := {
  ar_faults : state_of <$> t_faults d = partial_alter (report_entry r) (r_code r) f;
  ar_rows : map_Forall row_ok (t_faults d);
  ar_rest : same_rest (q_db q) d;
  ar_ids : near_ids_ok (t_near_misses d) (near_miss_seq d);
  ar_near : ∀ c, (rows_of c (t_near_misses d)).*2 =
    if decide (c = r_code r)
    then push_bounded (q_max_near_misses_per_fault q) (rows_of c (t_near_misses (q_db q))).*2 (near_miss_of r (f !! r_code r))
    else (rows_of c (t_near_misses (q_db q))).*2;
}.

Lemma report_step_computes runs (Hruns : ∀ n, runs n = Runs) sv r q s row f (nm b : bool) rec :
  backs q s → report_entry r (faults s !! r_code r) = Some (state_of row) → row_ok (r_code r) row →
  f (q_db q) = Some (tt, set_faults (<[r_code r := row]> (t_faults (q_db q))) (q_db q)) →
  nm = is_near_miss (r_event r =? EVENT_FAILED) (fr_status row) → rec = report_near_row r (state_of row) →
  ∃ d, computes sv
      (execute runs f;; (if nm then record_near_miss_locked runs rec else mret tt);; mret b) q b (put_db d q) ∧
    after_report r q (faults s) d.
Proof.
  intros Hb He Hrow Hf -> ->.
  destruct (report_tail_computes runs Hruns sv q f _ (is_near_miss (r_event r =? EVENT_FAILED) (fr_status row))
    (report_near_row r (state_of row)) b (b_ids _ _ Hb) (b_limit _ _ Hb) Hf) as (d & Hc & Ht & Hrest & Hids & Hnear).
  exists d. split; [done|]. split; try done.
  - rewrite Ht, fmap_insert, (b_faults _ _ Hb). apply map_eq. intros c. destruct (decide (c = r_code r)) as [->|Hne].
    + by rewrite lookup_insert_eq, lookup_partial_alter_eq, <-(b_faults _ _ Hb), He.
    + by rewrite lookup_insert_ne, lookup_partial_alter_ne by done.
  - rewrite Ht. by apply map_Forall_insert_2, (b_rows _ _ Hb).
  - intros c. rewrite Hnear, (near_miss_of_row _ _ _ He); [done|]. apply Hrow.
Qed.

(** A report that leaves everything as it was. *)
Lemma report_skip_computes r q s :
  backs q s → report_entry r (faults s !! r_code r) = faults s !! r_code r →
  near_miss_of r (faults s !! r_code r) = [] → after_report r q (faults s) (q_db q).
Proof.
  intros Hb He Hn. split; try apply Hb; try done.
  - rewrite <-(b_faults _ _ Hb). apply map_eq. intros c. destruct (decide (c = r_code r)) as [->|Hne].
    + by rewrite lookup_partial_alter_eq, He.
    + by rewrite lookup_partial_alter_ne by done.
  - intros c. rewrite Hn. by case_decide.
Qed.

Lemma state_eq a b :
  fault_code a = fault_code b → severity a = severity b → description a = description b →
  first_occurred a = first_occurred b → last_occurred a = last_occurred b →
  occurrence_count a = occurrence_count b → status a = status b → reporting_sources a = reporting_sources b →
  debounce_counter a = debounce_counter b → last_failed_time a = last_failed_time b →
  last_passed_time a = last_passed_time b → a = b.
Proof. destruct a, b. cbn. intros. by subst. Qed.

Lemma sources_singleton src : list_to_set (parse_json_array (serialize_json_array [src])) =@{gset string} {[ src ]}.
Proof. rewrite parse_serialize_array. set_solver. Qed.

Lemma sources_added src text :
  list_to_set (parse_json_array (serialize_json_array (add_source src text))) =@{gset string}
  {[ src ]} ∪ list_to_set (parse_json_array text).
Proof. unfold add_source. by rewrite parse_sources, set_of_entries. Qed.

Lemma report_new_computes runs (Hruns : ∀ n, runs n = Runs) sv r q s :
  backs q s → t_faults (q_db q) !! r_code r = None → r_event r = EVENT_FAILED →
  ∃ d, computes sv (report_new runs (r_code r) (r_sev r) (r_descr r) (r_source r) (r_time r) (r_cfg r)) q true (put_db d q) ∧
    after_report r q (faults s) d.
Proof.
  intros Hb Ht Hev. unfold report_new.
  set (st := if critical_confirms (r_cfg r) (r_sev r) then STATUS_CONFIRMED else compute_debounce_status (-1) "" (r_cfg r)).
  eapply (report_step_computes runs Hruns sv r q s
    (mkFaultRow (r_code r) (r_sev r) (r_descr r) (r_time r) (r_time r) 1 st (serialize_json_array [r_source r]) (-1)
      (r_time r) 0 (if st =?ₛ STATUS_CONFIRMED then r_time r else 0))); [done| | | | |].
  - rewrite (b_faults _ _ Hb), lookup_fmap, Ht. cbn [report_entry fmap option_fmap option_map]. rewrite Hev, Z.eqb_refl. f_equal.
    unfold new_fault, update_status. unfold st. destruct (critical_confirms _ _); apply state_eq; try done; symmetry; apply sources_singleton.
  - split; [done|]. exists {[ r_source r ]}. cbn. by rewrite set_entries_singleton.
  - unfold insert_fault. by rewrite Ht.
  - by rewrite Hev.
  - done.
Qed.

(** The row an UPDATE leaves is the row of the new entry. *)
Lemma alter_insert (code : string) (g : FaultRow → FaultRow) (t : gmap string FaultRow) row :
  t !! code = Some row → alter g code t = <[code := g row]> t.
Proof.
  intros Ht. apply map_eq. intros c. destruct (decide (c = code)) as [->|Hne].
  - by rewrite lookup_alter_eq, lookup_insert_eq, Ht.
  - by rewrite lookup_alter_ne, lookup_insert_ne by done.
Qed.

Lemma max_as_if a b : Z.max a b = if a <? b then b else a.
Proof. case_match; bool_simpl; lia. Qed.

Lemma report_failed_computes runs (Hruns : ∀ n, runs n = Runs) sv r q s row :
  backs q s → sane (r_cfg r) → t_faults (q_db q) !! r_code r = Some row → r_event r = EVENT_FAILED →
  ∃ d, computes sv (report_existing runs (r_code r) true (r_sev r) (r_descr r) (r_source r) (r_time r) (r_cfg r) row) q
      (fr_status row =?ₛ STATUS_CLEARED) (put_db d q) ∧
    after_report r q (faults s) d.
Proof.
  intros Hb Hsane Ht Hev. unfold report_existing. rewrite andb_false_r.
  pose proof (b_rows _ _ Hb _ _ Ht) as Hrow. cbv zeta.
  eapply (report_step_computes runs Hruns sv r q s); [done| | |
    by cbv beta; unfold update_failed; erewrite alter_insert by exact Ht | |].
  - rewrite (b_faults _ _ Hb), lookup_fmap, Ht. cbn [report_entry fmap option_fmap option_map]. rewrite Hev. cbn [status state_of].
    rewrite Z.eqb_refl. destruct (fr_status row =?ₛ STATUS_CLEARED) eqn:Ec; f_equal.
    + rewrite sane_clamp_start by done. unfold reactivate_fault, update_status.
      destruct (critical_confirms _ _); apply state_eq; try done; symmetry; first [apply sources_added|apply max_as_if].
    + unfold failed_update, update_status. destruct (critical_confirms _ _); apply state_eq; try done; symmetry; first [apply sources_added|apply max_as_if].
  - split; [apply Hrow|]. eexists. done.
  - by rewrite Hev.
  - unfold report_near_row. cbn. done.
Qed.

Lemma report_passed_computes runs (Hruns : ∀ n, runs n = Runs) sv r q s row :
  backs q s → t_faults (q_db q) !! r_code r = Some row → r_event r ≠ EVENT_FAILED →
  ∃ d, computes sv (report_existing runs (r_code r) false (r_sev r) (r_descr r) (r_source r) (r_time r) (r_cfg r) row) q
      false (put_db d q) ∧
    after_report r q (faults s) d.
Proof.
  intros Hb Ht Hev%Z.eqb_neq. pose proof (b_rows _ _ Hb _ _ Ht) as Hrow.
  pose proof (b_faults _ _ Hb) as Hf. apply (f_equal (lookup (r_code r))) in Hf.
  rewrite lookup_fmap, Ht in Hf. cbn [fmap option_fmap option_map] in Hf.
  unfold report_existing. destruct (fr_status row =?ₛ STATUS_CLEARED) eqn:Ec; cbn [andb negb]; cbv zeta.
  - exists (q_db q). rewrite put_db_id. split; [apply computes_ret|]. apply (report_skip_computes _ _ _ Hb).
    + rewrite Hf. cbn [report_entry status state_of]. by rewrite Ec, Hev.
    + rewrite Hf. unfold near_miss_of. cbn [report_entry status state_of]. by rewrite Ec, Hev.
  - eexists. split.
    { eapply computes_bind; [by apply computes_execute|]. apply computes_ret. }
    assert (report_entry r (faults s !! r_code r) =
      Some (update_status (passed_update (r_time r) (r_cfg r) (state_of row)) (r_cfg r))) as He.
    { rewrite Hf. cbn [report_entry status state_of]. by rewrite Ec, Hev. }
    unfold update_passed. erewrite alter_insert by exact Ht. split; try done; try apply Hb.
    + cbn [t_faults set_faults]. rewrite fmap_insert, (b_faults _ _ Hb). apply map_eq. intros c.
      destruct (decide (c = r_code r)) as [->|Hne].
      * by rewrite lookup_insert_eq, lookup_partial_alter_eq, <-(b_faults _ _ Hb), He.
      * by rewrite lookup_insert_ne, lookup_partial_alter_ne by done.
    + apply map_Forall_insert_2; [split; apply Hrow|]. apply (b_rows _ _ Hb).
    + intros c. unfold near_miss_of. rewrite He, Hev. by case_decide.
Qed.

Lemma report_locked_computes runs (Hruns : ∀ n, runs n = Runs) sv r q s :
  backs q s → sane (r_cfg r) →
  ∃ d, computes sv (report_fault_event_locked runs (r_code r) (r_event r) (r_sev r) (r_descr r) (r_source r) (r_time r)
      (r_cfg r)) q (report r s).1 (put_db d q) ∧
    after_report r q (faults s) d.
Proof.
  intros Hb Hsane. pose proof (b_faults _ _ Hb) as Hf. apply (f_equal (lookup (r_code r))) in Hf.
  rewrite lookup_fmap in Hf. unfold report_fault_event_locked, report, FaultEvents.report_fault_event. rewrite Hf.
  destruct (t_faults (q_db q) !! r_code r) as [row|] eqn:Ht; cbn [fmap option_fmap option_map] in *;
    destruct (r_event r =? EVENT_FAILED) eqn:Ev; cbn [negb].
  - apply Z.eqb_eq in Ev as Hev.
    destruct (report_failed_computes runs Hruns sv r q s row Hb Hsane Ht Hev) as (d & Hc & Hd). exists d. split; [|done].
    eapply computes_bind; [by apply computes_query|]. rewrite Ht. cbn [option_list].
    replace (_.1) with (fr_status row =?ₛ STATUS_CLEARED); [done|]. cbn [status state_of]. by repeat case_match.
  - apply Z.eqb_neq in Ev as Hev.
    destruct (report_passed_computes runs Hruns sv r q s row Hb Ht Hev) as (d & Hc & Hd). exists d. split; [|done].
    eapply computes_bind; [by apply computes_query|]. rewrite Ht. cbn [option_list].
    replace (_.1) with false; [done|]. by case_match.
  - apply Z.eqb_eq in Ev as Hev.
    destruct (report_new_computes runs Hruns sv r q s Hb Ht Hev) as (d & Hc & Hd). exists d. split; [|done].
    eapply computes_bind; [by apply computes_query|]. rewrite Ht. done.
  - exists (q_db q). rewrite put_db_id. split.
    + eapply computes_bind; [by apply computes_query|]. rewrite Ht. apply computes_ret.
    + apply (report_skip_computes _ _ _ Hb); rewrite Hf; unfold near_miss_of; cbn; by rewrite Ev.
Qed.

Lemma report_rest r s :
  let s' := (report r s).2 in
  snapshots s' = snapshots s ∧ freeze_frames s' = freeze_frames s ∧ rosbag_files s' = rosbag_files s ∧
  rosbag_seq s' = rosbag_seq s ∧ config s' = config s ∧ max_snapshots_per_fault s' = max_snapshots_per_fault s ∧
  retain_snapshots_on_clear s' = retain_snapshots_on_clear s ∧ max_rosbags_per_fault s' = max_rosbags_per_fault s ∧
  max_near_misses_per_fault s' = max_near_misses_per_fault s.
Proof.
  cbv zeta. unfold report, FaultEvents.report_fault_event, note_near_miss, record_near_miss.
  repeat (case_match; simpl); done.
Qed.

(** A report: same answer, related states. *)
Lemma report_backs runs (Hruns : ∀ n, runs n = Runs) r q s :
  backs q s → sane (r_cfg r) → cfg_i32 (r_cfg r) →
  ∃ q', computes None (report_fault_event runs (r_code r) (r_event r) (r_sev r) (r_descr r) (r_source r) (r_time r)
      (r_cfg r)) q (report r s).1 q' ∧ backs q' (report r s).2 ∧ q_unlinked q' = q_unlinked q.
Proof.
  intros Hb Hsane Hi32.
  assert (∃ d, computes None (report_fault_event runs (r_code r) (r_event r) (r_sev r) (r_descr r) (r_source r) (r_time r)
      (r_cfg r)) q (report r s).1 (put_db d q) ∧ after_report r q (faults s) d) as (d & Hc & [H1 H2 (R1 & R2 & R3 & R4) H4 H5]).
  { unfold report_fault_event. case_match; [by apply report_locked_computes|].
    destruct (report_locked_computes runs Hruns (Some (q_db q)) r q s Hb Hsane) as (d & Hc & Hd). exists d.
    split; [|done]. by apply computes_transaction. }
  exists (put_db d q). split; [done|]. split; [|done].
  destruct (report_rest r s) as (E1 & E2 & E3 & E4 & E5 & E6 & E7 & E8 & E9). destruct Hb.
  split; rewrite ?E1, ?E2, ?E3, ?E4, ?E5, ?E6, ?E7, ?E8, ?E9; fields; try done; try congruence.
  - by apply (storage_step_ok s); [constructor|].
  - by rewrite H1, report_faults.
  - intros c. rewrite report_near_misses, H5.
    + rewrite b_max_near0. case_decide; by rewrite b_near0.
    + intros st Hst. by apply (eok_faults s (sok_events s b_ok0) _ _ Hst).
Qed.
