(* ===== verification/SqliteMethods.v ===== *)
(** * The other methods of both storage backends

    Queries, acknowledgement, timers, settings and snapshots of
    [SqliteFaultStorage] next to those of [InMemoryFaultStorage]. *)

From stdpp Require Import relations.
From S2P Require Import Prelude FaultTypes Debounce FaultEvents Snapshots Rosbags FaultStorage SqlConnection SqliteStorage SqliteSpec SqliteReports.
Open Scope Z_scope.

(** The method answers [x], leaves a database of [s'] and unlinks nothing. *)
Definition follows {A} (m : Sql A) (q : SqliteFaultStorage) (x : A) (s' : InMemoryFaultStorage) : Prop :=
  ∃ q', computes None m q x q' ∧ backs q' s' ∧ q_unlinked q' = q_unlinked q.

Section Methods.
Context (runs : nat → outcome) (Hruns : ∀ n, runs n = Runs).
Context (scan : gmap string FaultRow → list FaultRow).
Context (Hscan : ∀ t, scan t ≡ₚ (map_to_list t).*2).

(** ** Reading *)

Lemma follows_query {A} (f : Db → list A) q s : backs q s → follows (query runs f) q (f (q_db q)) s.
Proof. intros Hb. exists q. split_and!; [by apply computes_query|done|done]. Qed.

Lemma follows_query_bind {A B} (f : Db → list A) (k : list A → B) q s :
  backs q s → follows (rows ← query runs f; mret (k rows)) q (k (f (q_db q))) s.
Proof.
  intros Hb. exists q. split_and!; [|done|done]. eapply computes_bind; [by apply computes_query|apply computes_ret].
Qed.

(** The rows of a scan are the entries, in another order. *)
Lemma scan_entries {A} (g : FaultRow → A) (h : string * FaultState → A) (Q : FaultRow → Prop) (P : string * FaultState → Prop)
    `{!∀ r, Decision (Q r), !∀ e, Decision (P e)} t :
  (∀ c r, t !! c = Some r → g r = h (c, state_of r) ∧ (Q r ↔ P (c, state_of r))) →
  g <$> filter Q (scan t) ≡ₚ h <$> filter P (map_entries (state_of <$> t)).
Proof.
  intros Hrel. rewrite Hscan, map_entries_perm, map_to_list_fmap.
  assert (∀ c r, (c, r) ∈ map_to_list t → g r = h (c, state_of r) ∧ (Q r ↔ P (c, state_of r))) as H'.
  { intros c r Hr%elem_of_map_to_list. by apply Hrel. }
  clear Hrel. apply reflexive_eq. induction (map_to_list t) as [|[c r] l IH]; [done|]. rewrite !fmap_cons, !filter_cons.
  destruct (H' c r) as [E1 E2]; [left|]. cbn [fst snd prod_map]. specialize (IH (λ c r Hr, H' c r (list_elem_of_further _ _ _ Hr))).
  case_decide; [rewrite decide_True by tauto|rewrite decide_False by tauto]; [|done]. by rewrite !fmap_cons, IH, E1.
Qed.

Lemma read_fault_state q s c r :
  backs q s → t_faults (q_db q) !! c = Some r → read_fault r = to_msg (state_of r).
Proof.
  intros Hb Hr. pose proof (b_rows _ _ Hb _ _ Hr) as Hrow. unfold read_fault, to_msg. f_equal.
  - assert (faults s !! c = Some (state_of r)) as Hs by (by rewrite (b_faults _ _ Hb), lookup_fmap, Hr).
    pose proof (eok_faults _ (sok_events _ (b_ok _ _ Hb)) _ _ Hs) as [_ _ _ Hcount _].
    apply wrap_u32_id. unfold in_u32. cbn [occurrence_count state_of] in *. lia.
  - destruct Hrow as [_ [X HX]]. cbn. by rewrite HX, parse_sources, set_of_entries.
Qed.

Lemma list_faults_backs fbs sev statuses q s :
  backs q s → ∃ l, follows (list_faults runs scan fbs sev statuses) q l s ∧ l ≡ₚ FaultEvents.list_faults fbs sev statuses s.
Proof.
  intros Hb. eexists. split; [by apply follows_query|]. unfold FaultEvents.list_faults. rewrite (b_faults _ _ Hb).
  apply scan_entries. intros c r Hr. split; [by apply (read_fault_state q s c)|].
  unfold listed. rewrite andb_true_iff, bool_decide_eq_true, negb_true_iff, andb_false_iff, negb_false_iff, Z.eqb_eq. cbn.
  destruct fbs; naive_solver.
Qed.

Lemma get_all_faults_backs q s :
  backs q s → ∃ l, follows (get_all_faults runs scan) q l s ∧ l ≡ₚ FaultEvents.get_all_faults s.
Proof.
  intros Hb. eexists. split; [by apply follows_query|]. unfold FaultEvents.get_all_faults. rewrite (b_faults _ _ Hb).
  rewrite <-(filter_all (λ _, True) (scan _)) by done.
  rewrite <-(filter_all (λ _, True) (map_entries (state_of <$> t_faults (q_db q)))) by done.
  apply scan_entries. intros c r Hr. split; [by apply (read_fault_state q s c)|done].
Qed.

Lemma get_fault_backs code q s : backs q s → follows (get_fault runs code) q (FaultEvents.get_fault code s) s.
Proof.
  intros Hb. replace (FaultEvents.get_fault code s) with (head (option_list (read_fault <$> t_faults (q_db q) !! code))).
  - by apply (follows_query_bind (λ d, option_list (read_fault <$> t_faults d !! code)) head).
  - unfold FaultEvents.get_fault. rewrite (b_faults _ _ Hb), lookup_fmap.
    destruct (t_faults (q_db q) !! code) as [r|] eqn:Hr; [|done]. cbn. by rewrite (read_fault_state q s code).
Qed.

Lemma size_backs q s : backs q s → follows (SqliteStorage.size runs) q (storage_size s) s.
Proof.
  intros Hb. replace (storage_size s) with (default 0%nat (head [base.size (t_faults (q_db q))])).
  - by apply (follows_query_bind (λ d, [base.size (t_faults d)]) (λ l, default 0%nat (head l))).
  - unfold storage_size. by rewrite (b_faults _ _ Hb), map_size_fmap.
Qed.

Lemma contains_backs code q s : backs q s → follows (contains runs code) q (FaultEvents.contains code s) s.
Proof.
  intros Hb. replace (FaultEvents.contains code s)
    with (negb (bool_decide (option_list ((λ _, 1) <$> t_faults (q_db q) !! code) = []))).
  - by apply (follows_query_bind (λ d, option_list ((λ _, 1) <$> t_faults d !! code)) (λ l, negb (bool_decide (l = [])))).
  - unfold FaultEvents.contains. rewrite (b_faults _ _ Hb), lookup_fmap. by destruct (t_faults (q_db q) !! code).
Qed.

Lemma get_near_misses_backs code q s :
  backs q s → follows (get_near_misses runs code) q (FaultEvents.get_near_misses code s) s.
Proof.
  intros Hb. rewrite (b_near _ _ Hb). replace (rows_of code (t_near_misses (q_db q)))
    with (rows_of code (stable_sort (λ x y, x.1 <? y.1) (t_near_misses (q_db q)))).
  - by apply (follows_query (λ d, (rows_of code (stable_sort (λ x y, x.1 <? y.1) (t_near_misses d))).*2)).
  - f_equal. apply stable_sort_keeps. eapply StronglySorted_weaken; [|apply (b_ids _ _ Hb)].
    intros x y Hxy. apply Z.ltb_ge. cbv beta in Hxy. lia.
Qed.

(** ** Acknowledgement and timers *)

Lemma state_of_alter x (code : string) (t : gmap string FaultRow) :
  state_of <$> alter (set_row_status x) code t = alter (with_status x) code (state_of <$> t).
Proof.
  apply map_eq. intros c. rewrite lookup_fmap. destruct (decide (c = code)) as [->|Hne].
  - rewrite !lookup_alter_eq, lookup_fmap. by destruct (t !! code).
  - by rewrite !lookup_alter_ne, lookup_fmap by done.
Qed.

Lemma rows_ok_alter x (code : string) (t : gmap string FaultRow) : map_Forall row_ok t → map_Forall row_ok (alter (set_row_status x) code t).
Proof.
  intros Ht c r. destruct (decide (c = code)) as [->|Hne].
  - rewrite lookup_alter_eq. intros (r0 & Hr0 & ->)%fmap_Some. destruct (Ht _ _ Hr0). by split.
  - rewrite lookup_alter_ne by done. apply Ht.
Qed.

(** The fields no acknowledgement and no timer changes. *)
Definition same_settings (s s' : InMemoryFaultStorage) : Prop :=
  near_misses s' = near_misses s ∧ freeze_frames s' = freeze_frames s ∧ rosbag_files s' = rosbag_files s ∧
  rosbag_seq s' = rosbag_seq s ∧ config s' = config s ∧ max_snapshots_per_fault s' = max_snapshots_per_fault s ∧
  retain_snapshots_on_clear s' = retain_snapshots_on_clear s ∧ max_rosbags_per_fault s' = max_rosbags_per_fault s ∧
  max_near_misses_per_fault s' = max_near_misses_per_fault s.

(** A statement on faults and snapshots keeps the relation. *)
Lemma backs_faults q s t l s' :
  backs q s → storage_ok s' → same_settings s s' → faults s' = state_of <$> t → map_Forall row_ok t → snapshots s' = l →
  backs (put_db (set_faults t (set_snapshots l (q_db q))) q) s'.
Proof.
  intros [] Hok (E1 & E2 & E3 & E4 & E5 & E6 & E7 & E8 & E9) Hf Ht Hl. split; fields; try done; try congruence.
  unfold FaultEvents.get_near_misses in *. by rewrite E1.
Qed.

Lemma clear_memory code s :
  let s' := (FaultEvents.clear_fault code s).2 in
  faults s' = alter (with_status STATUS_CLEARED) code (faults s) ∧ same_settings s s' ∧
  snapshots s' = if bool_decide (is_Some (faults s !! code)) && negb (retain_snapshots_on_clear s)
    then filter (λ r, snap_fault_code r ≠ code) (snapshots s) else snapshots s.
Proof.
  unfold FaultEvents.clear_fault. destruct (faults s !! code) as [st|] eqn:E; cbv zeta.
  - split_and!; [|by cbn; case_match..]. apply map_eq. intros c. destruct (decide (c = code)) as [->|].
    + rewrite lookup_alter_eq, E. cbn. by case_match; rewrite lookup_insert_eq.
    + rewrite lookup_alter_ne by done. cbn. by case_match; rewrite lookup_insert_ne by done.
  - split_and!; [|done..]. apply map_eq. intros c. destruct (decide (c = code)) as [->|].
    + by rewrite lookup_alter_eq, E.
    + by rewrite lookup_alter_ne by done.
Qed.

Lemma set_snapshots_id d : set_snapshots (t_snapshots d) d = d.
Proof. by destruct d. Qed.

Lemma clear_fault_backs code q s :
  backs q s →
  is_Some (faults s !! code) ∨ retain_snapshots_on_clear s = true ∨
    Forall (λ r, snap_fault_code r ≠ code) (snapshots s) →
  follows (clear_fault runs code) q (FaultEvents.clear_fault code s).1 (FaultEvents.clear_fault code s).2.
Proof.
  intros Hb Hok. assert (storage_ok (FaultEvents.clear_fault code s).2) as Hs by (eapply storage_step_ok; [constructor|apply Hb]).
  set (l := if q_retain_snapshots_on_clear q then t_snapshots (q_db q)
    else filter (λ r, snap_fault_code r ≠ code) (t_snapshots (q_db q))).
  exists (put_db (set_faults (alter (set_row_status STATUS_CLEARED) code (t_faults (q_db q))) (set_snapshots l (q_db q))) q).
  destruct (clear_memory code s) as (Hf & Hrest & Hsnap). split_and!; [| |done].
  - unfold clear_fault. eapply computes_bind; [by apply computes_ask|].
    eapply (computes_bind _ _ _ _ tt (put_db (set_snapshots l (q_db q)) q)).
    + unfold l. destruct (q_retain_snapshots_on_clear q); [rewrite set_snapshots_id, put_db_id; apply computes_ret|].
      by apply computes_execute.
    + eapply computes_execute_to; [done| |done]. fields. unfold FaultEvents.clear_fault.
      rewrite (b_faults _ _ Hb), lookup_fmap. by destruct (t_faults (q_db q) !! code).
  - eapply backs_faults; try done.
    + by rewrite Hf, state_of_alter, (b_faults _ _ Hb).
    + apply rows_ok_alter, Hb.
    + rewrite Hsnap. unfold l.
      rewrite <-(b_snapshots _ _ Hb), <-(b_retain _ _ Hb). destruct (retain_snapshots_on_clear s); [by rewrite andb_false_r|].
      case_bool_decide; [done|]. symmetry. apply filter_all.
      destruct Hok as [?|[?|Hok]]; [done..|by apply Forall_forall].
Qed.

Lemma codes_where_entries (P : FaultRow → bool) (P' : FaultState → bool) q s :
  backs q s → (∀ c r, t_faults (q_db q) !! c = Some r → P r = P' (state_of r)) →
  codes_where scan P (q_db q) ≡ₚ (filter (λ e, P' e.2 = true) (map_entries (faults s))).*1.
Proof.
  intros Hb HP. rewrite (b_faults _ _ Hb). apply scan_entries. intros c r Hr. split; [by apply (b_rows _ _ Hb)|].
  by rewrite (HP c r Hr).
Qed.

Lemma update_rows_states (P : FaultRow → bool) (P' : FaultState → bool) f f' (t : gmap string FaultRow) :
  (∀ c r, t !! c = Some r → P r = P' (state_of r) ∧ state_of (f r) = f' (state_of r)) →
  state_of <$> ((λ r, if P r then f r else r) <$> t) = (λ st, if P' st then f' st else st) <$> (state_of <$> t).
Proof.
  intros H. rewrite <-!map_fmap_compose. apply map_fmap_ext. intros c r Hr. cbn. destruct (H c r Hr) as [-> E]. by case_match.
Qed.

Lemma rows_ok_update (P : FaultRow → bool) f (t : gmap string FaultRow) :
  (∀ c r, row_ok c r → row_ok c (f r)) → map_Forall row_ok t → map_Forall row_ok ((λ r, if P r then f r else r) <$> t).
Proof.
  intros Hf Ht c r. rewrite lookup_fmap. intros (r0 & Hr0 & ->)%fmap_Some. case_match; [apply Hf|]; by apply Ht.
Qed.

(** No entry matches: nothing changes. *)
Lemma update_none (P : FaultState → bool) f (m : gmap string FaultState) :
  (filter (λ e, P e.2 = true) (map_entries m)).*1 = [] → (λ st, if P st then f st else st) <$> m = m.
Proof.
  intros Hnil%fmap_nil_inv. rewrite <-(map_fmap_id m) at 2. apply map_fmap_ext. intros c st Hst. destruct (P st) eqn:E; [|done].
  apply elem_of_map_entries in Hst. assert ((c, st) ∈ filter (λ e : string * FaultState, P e.2 = true) (map_entries m)) as Hin
    by (by apply list_elem_of_filter). rewrite Hnil in Hin. by apply elem_of_nil in Hin.
Qed.

Lemma reclassify_memory s :
  let s' := (FaultEvents.reclassify_healed_as_cleared s).2 in
  let codes := (FaultEvents.reclassify_healed_as_cleared s).1 in
  faults s' = (λ st, if status st =?ₛ STATUS_HEALED then with_status STATUS_CLEARED st else st) <$> faults s ∧
  same_settings s s' ∧
  snapshots s' = if negb (retain_snapshots_on_clear s) && negb (bool_decide (codes = []))
    then filter (λ r, snap_fault_code r ∉ codes) (snapshots s) else snapshots s.
Proof. cbn. split_and!; by case_match. Qed.

Lemma reclassify_backs q s :
  backs q s → ∃ l, follows (reclassify_healed_as_cleared runs scan) q l (FaultEvents.reclassify_healed_as_cleared s).2 ∧
    l ≡ₚ (FaultEvents.reclassify_healed_as_cleared s).1.
Proof.
  intros Hb. assert (storage_ok (FaultEvents.reclassify_healed_as_cleared s).2) as Hs
    by (eapply storage_step_ok; [constructor|apply Hb]).
  destruct (reclassify_memory s) as (Hf & Hrest & Hsnap).
  pose proof (codes_where_entries healed_row (λ st, status st =?ₛ STATUS_HEALED) q s Hb (λ _ _ _, eq_refl)) as Hcodes.
  change (filter _ _).*1 with (FaultEvents.reclassify_healed_as_cleared s).1 in Hcodes.
  exists (codes_where scan healed_row (q_db q)). split; [|done]. unfold reclassify_healed_as_cleared.
  destruct (decide (codes_where scan healed_row (q_db q) = [])) as [Hnil|Hnil].
  - exists q. split_and!; [| |done].
    + eapply computes_bind; [by apply computes_query|]. rewrite bool_decide_eq_true_2, Hnil by done. apply computes_ret.
    + rewrite Hnil in Hcodes. apply Permutation_nil_l in Hcodes. rewrite update_none in Hf by done.
      rewrite bool_decide_eq_true_2, andb_false_r in Hsnap by done.
      destruct Hb, Hrest as (E1 & E2 & E3 & E4 & E5 & E6 & E7 & E8 & E9). split; try done; try congruence.
      unfold FaultEvents.get_near_misses in *. by rewrite E1.
  - set (l := if q_retain_snapshots_on_clear q then t_snapshots (q_db q)
      else filter (λ r, ¬ snap_fault_code r ∈ codes_where scan healed_row (q_db q)) (t_snapshots (q_db q))).
    exists (put_db (set_faults ((λ r, if healed_row r then set_row_status STATUS_CLEARED r else r) <$> t_faults (q_db q))
      (set_snapshots l (q_db q))) q). split_and!; [| |done].
    + eapply computes_bind; [by apply computes_query|]. rewrite bool_decide_eq_false_2 by done.
      eapply computes_bind; [by apply computes_ask|].
      eapply (computes_bind _ _ _ _ tt (put_db (set_snapshots l (q_db q)) q)).
      * unfold l. destruct (q_retain_snapshots_on_clear q); [rewrite set_snapshots_id, put_db_id; apply computes_ret|].
        by apply computes_execute.
      * eapply computes_bind; [by eapply computes_execute|]. apply computes_ret.
    + eapply backs_faults; try done.
      * rewrite Hf, (b_faults _ _ Hb). symmetry. by apply update_rows_states.
      * apply rows_ok_update, Hb. intros c r []. by split.
      * rewrite Hsnap. unfold l. rewrite <-(b_snapshots _ _ Hb), <-(b_retain _ _ Hb).
        destruct (retain_snapshots_on_clear s); [done|]. rewrite bool_decide_eq_false_2.
        -- apply list_filter_iff. intros r. by rewrite Hcodes.
        -- intros E. rewrite E in Hcodes. by apply Permutation_nil_r in Hcodes.
Qed.

(** The two forms of the age test agree on every pending fault: whole-nanosecond
    elapsed times against the truncated threshold, after the epoch. *)
Definition tick_agrees (now : Z) (s : InMemoryFaultStorage) : Prop :=
  f64_leb (auto_confirm_after_sec (config s)) f64_zero = true ∨
  map_Forall (λ _ st, due_for_confirmation (config s) now st =
    (status st =?ₛ STATUS_PREFAILED) && (last_failed_time st <=? cutoff_ns (config s) now) && (0 <? last_failed_time st))
    (faults s).

Lemma tick_backs now q s :
  backs q s → tick_agrees now s →
  ∃ l, follows (check_time_based_confirmation runs scan now) q l (FaultEvents.check_time_based_confirmation now s).2 ∧
    l ≡ₚ (FaultEvents.check_time_based_confirmation now s).1.
Proof.
  intros Hb Hag. assert (storage_ok (FaultEvents.check_time_based_confirmation now s).2) as Hs
    by (eapply storage_step_ok; [constructor|apply Hb]).
  unfold check_time_based_confirmation, FaultEvents.check_time_based_confirmation, tick_agrees in *.
  rewrite (b_config _ _ Hb) in *. destruct (f64_leb _ _) eqn:Eoff.
  { exists []. split; [|done]. exists q. split_and!; [|done..]. eapply computes_bind; [by apply computes_ask|].
    rewrite Eoff. apply computes_ret. }
  destruct Hag as [?|Hag]; [done|]. cbn [fst snd] in *.
  set (due := due_row (cutoff_ns (q_config q) now)). set (due' := due_for_confirmation (q_config q) now).
  assert (∀ c r, t_faults (q_db q) !! c = Some r → due r = due' (state_of r)) as Hdue.
  { intros c r Hr. symmetry. apply (Hag c). by rewrite (b_faults _ _ Hb), lookup_fmap, Hr. }
  pose proof (codes_where_entries due due' q s Hb Hdue) as Hcodes.
  exists (codes_where scan due (q_db q)). split; [|done].
  destruct (decide (codes_where scan due (q_db q) = [])) as [Hnil|Hnil].
  - exists q. split_and!; [| |done].
    + eapply computes_bind; [by apply computes_ask|]. rewrite Eoff. eapply computes_bind; [by apply computes_query|].
      fold due. rewrite bool_decide_eq_true_2, Hnil by done. apply computes_ret.
    + rewrite Hnil in Hcodes. apply Permutation_nil_l in Hcodes. fold due'. rewrite update_none by done. by destruct s.
  - exists (put_db (set_faults ((λ r, if due r then confirm_row now r else r) <$> t_faults (q_db q)) (q_db q)) q).
    split_and!; [| |done].
    + eapply computes_bind; [by apply computes_ask|]. rewrite Eoff. eapply computes_bind; [by apply computes_query|].
      fold due. rewrite bool_decide_eq_false_2 by done. eapply computes_bind; [by eapply computes_execute|]. apply computes_ret.
    + rewrite <-(set_snapshots_id (q_db q)) at 2. eapply backs_faults; try done.
      * cbn [faults with_faults]. rewrite (b_faults _ _ Hb). symmetry. apply update_rows_states.
        intros c r Hr. by rewrite (Hdue c r Hr).
      * apply rows_ok_update, Hb. intros c r []. by split.
      * apply Hb.
Qed.

(** ** Settings *)

Lemma settings_backs q s c n b k :
  backs q s →
  follows (SqliteStorage.set_debounce_config c) q tt (FaultTypes.set_debounce_config c s) ∧
  follows (SqliteStorage.set_max_snapshots_per_fault n) q tt (FaultTypes.set_max_snapshots_per_fault n s) ∧
  follows (SqliteStorage.set_retain_snapshots_on_clear b) q tt (FaultTypes.set_retain_snapshots_on_clear b s) ∧
  follows (SqliteStorage.set_max_rosbags_per_fault k) q tt (FaultTypes.set_max_rosbags_per_fault k s).
Proof.
  intros Hb. pose proof (b_ok _ _ Hb) as Hs. split_and!; match goal with |- follows ?m _ _ _ => exists (m q).2 end;
    (split_and!; [intros i; by exists i| |done]); destruct Hb; split; fields; try assumption; try done; (eapply storage_step_ok; [constructor|done]).
Qed.

Lemma near_miss_key q s e :
  backs q s → e ∈ t_near_misses (q_db q) → nm_fault_code e.2 ∈ (map_entries (near_misses s)).*1.
Proof.
  intros Hb He. pose proof (b_near _ _ Hb (nm_fault_code e.2)) as Hn. unfold FaultEvents.get_near_misses in Hn.
  destruct (near_misses s !! nm_fault_code e.2) as [l|] eqn:E.
  - apply elem_of_map_entries in E. by apply (list_elem_of_fmap_2 fst) in E.
  - assert (e ∈ rows_of (nm_fault_code e.2) (t_near_misses (q_db q))) as Hin by (by apply list_elem_of_filter).
    apply (list_elem_of_fmap_2 snd) in Hin. rewrite <-Hn in Hin. by apply elem_of_nil in Hin.
Qed.

Lemma sum_list_add {A} (f g : A → nat) l : sum_list ((λ x, f x + g x)%nat <$> l) = (sum_list (f <$> l) + sum_list (g <$> l))%nat.
Proof. induction l as [|x l IH]; [done|]. rewrite !fmap_cons. cbn [sum_list_with]. rewrite IH. unfold id. lia. Qed.

(** Rows over the limit, counted in the table and series by series. *)
Lemma bound_near_count n q s :
  backs q s →
  (bound_near_misses n (q_db q)).1 = sum_list ((λ e, length e.2 - n)%nat <$> map_entries (near_misses s)).
Proof.
  intros Hb. set (rows := t_near_misses (q_db q)). set (keys := (map_entries (near_misses s)).*1).
  assert (NoDup keys) as Hnd by apply NoDup_map_entries_keys.
  assert (sum_list ((λ e, length e.2 - n)%nat <$> map_entries (near_misses s)) =
    sum_list ((λ k, length (rows_of k rows) - n)%nat <$> keys)) as ->.
  { unfold keys. rewrite <-list_fmap_compose. f_equal. apply list_fmap_ext. intros i [k l] Hl. cbn.
    apply list_elem_of_lookup_2, elem_of_map_entries in Hl. pose proof (b_near _ _ Hb k) as Hn.
    unfold FaultEvents.get_near_misses in Hn. rewrite Hl in Hn. cbn in Hn. by rewrite Hn, length_fmap. }
  assert (length rows = sum_list ((λ k, length (rows_of k rows)) <$> keys)) as H1.
  { apply count_by_code; [done|]. intros e He. by apply (near_miss_key q). }
  assert (length (filter (λ e, ¬ (n < row_number rows e)%nat) rows) =
    sum_list ((λ k, n `min` length (rows_of k rows))%nat <$> keys)) as H2.
  { rewrite (count_by_code keys); [|done|].
    - f_equal. apply list_fmap_ext. intros i k _. by rewrite (bound_rows_of _ _ _ _ (b_ids _ _ Hb)), length_last_n.
    - intros e [_ He]%list_elem_of_filter. by apply (near_miss_key q). }
  assert (length rows = length (filter (λ e, (n < row_number rows e)%nat) rows) +
    length (filter (λ e, ¬ (n < row_number rows e)%nat) rows))%nat as H3.
  { rewrite <-length_app. apply Permutation_length. symmetry. apply filter_app_complement. }
  cbn [fst bound_near_misses]. fold rows.
  assert (sum_list ((λ k, length (rows_of k rows)) <$> keys) =
    sum_list ((λ k, (length (rows_of k rows) - n) + n `min` length (rows_of k rows))%nat <$> keys)) as H4.
  { f_equal. apply list_fmap_ext. intros i k _. lia. }
  rewrite sum_list_add in H4. lia.
Qed.

Lemma set_max_near_misses_backs n q s :
  backs q s → Z.of_nat n ≤ int64_max →
  follows (set_max_near_misses_per_fault runs n) q (FaultEvents.set_max_near_misses_per_fault n s).1
    (FaultEvents.set_max_near_misses_per_fault n s).2.
Proof.
  intros Hb Hn. assert (storage_ok (FaultEvents.set_max_near_misses_per_fault n s).2) as Hs
    by (eapply storage_step_ok; [constructor|apply Hb]).
  unfold set_max_near_misses_per_fault, FaultEvents.set_max_near_misses_per_fault in *.
  pose proof (unlimited_zero n Hn) as Hu. set (q1 := (set_near_miss_limit n q).2).
  assert (computes None (set_near_miss_limit n) q tt q1) as Hc1 by (intros i; by exists i).
  destruct (n =? 0)%nat eqn:E.
  - exists q1. split_and!; [|destruct Hb; split; fields; first [assumption|done]|done]. eapply computes_bind; [done|].
    rewrite Hu. apply computes_ret.
  - exists (put_db (bound_near_misses n (q_db q)).2 q1). split_and!; [| |done].
    + eapply computes_bind; [done|]. rewrite Hu. eapply computes_execute_to; [done| |done].
      cbn [q_db q1 set_near_miss_limit snd fst set_near_miss_bound near_misses]. f_equal.
      rewrite (surjective_pairing (bound_near_misses n _)). f_equal. by apply bound_near_count.
    + destruct Hb as [? ? ? Hnear Hids]. split; fields; try assumption; try done; [|by apply near_ids_filter].
      intros c. cbn [snd bound_near_misses]. fields. rewrite (bound_rows_of _ _ _ _ Hids). unfold FaultEvents.get_near_misses in *.
      cbn [near_misses snd with_near_misses set_near_miss_bound]. rewrite lookup_fmap. specialize (Hnear c).
      destruct (near_misses s !! c) as [l|]; cbn in Hnear |- *.
      * subst l. unfold last_n. rewrite fmap_drop, !length_fmap. case_match eqn:El; [done|]. apply Nat.ltb_ge in El.
        by replace (length _ - n)%nat with 0%nat by lia.
      * apply eq_sym, fmap_nil_inv in Hnear. by rewrite Hnear.
Qed.
End Methods.
