(* ===== verification/SqliteCaptures.v ===== *)
(** * Snapshots and freeze-frames in both storage backends

    The trim loop of [SqliteFaultStorage] leaves the rows that the eviction loop
    of [InMemoryFaultStorage] leaves.  The queries on recordings follow. *)

From stdpp Require Import relations.
From S2P Require Import Prelude FaultTypes Debounce FaultEvents Snapshots Rosbags FaultStorage SqlConnection SqliteStorage SqliteSpec SqliteReports SqliteMethods.
Open Scope Z_scope.

Lemma foldl_max_in l x : foldl Z.max x l ∈ x :: l.
Proof.
  revert x. induction l as [|z l IH]; intros x; cbn; [left|]. specialize (IH (Z.max x z)).
  apply elem_of_cons in IH as [->|H]; [|by do 2 right]. destruct (Z.max_spec x z) as [[_ ->]|[_ ->]]; [by right; left|left].
Qed.

Lemma sql_max_spec l m : sql_max l = Some m → m ∈ l ∧ ∀ y, y ∈ l → y ≤ m.
Proof.
  destruct l as [|x l]; [done|]. cbn. intros [= <-]. split; [apply foldl_max_in|].
  destruct (foldl_max_bound l x) as [H1 H2]. intros y [->|Hy]%elem_of_cons; [done|by apply H2].
Qed.

Lemma foldl_min_max l x : foldl Z.min x l = - foldl Z.max (- x) (Z.opp <$> l).
Proof. revert x. induction l as [|z l IH]; intros x; cbn; [lia|]. rewrite IH. do 2 f_equal. lia. Qed.

Lemma sql_min_spec l m : sql_min l = Some m → m ∈ l ∧ ∀ y, y ∈ l → m ≤ y.
Proof.
  intros H. assert (sql_max (Z.opp <$> l) = Some (- m)) as Hm.
  { destruct l as [|x l]; [done|]. cbn in *. injection H as <-. rewrite foldl_min_max. f_equal. lia. }
  apply sql_max_spec in Hm as [(y & Hy & Hin)%list_elem_of_fmap Hle]. split.
  - by replace m with y by lia.
  - intros z Hz. apply (list_elem_of_fmap_2 Z.opp), Hle in Hz. lia.
Qed.

(** [MAX] is what the first scanning loop finds. *)
Lemma sql_max_newest code rows : sql_max (ids_of code rows) = newest_capture code rows.
Proof.
  pose proof (newest_capture_spec code rows) as Hn. destruct (newest_capture code rows) as [n|]; [|by rewrite Hn].
  destruct Hn as [Hin Hmax]. destruct (sql_max (ids_of code rows)) as [m|] eqn:E.
  - apply sql_max_spec in E as [Hm Hmm]. f_equal. apply Hmax in Hm. apply Hmm in Hin. lia.
  - destruct (ids_of code rows); [by apply elem_of_nil in Hin|done].
Qed.

(** [MIN] is what the second one finds, unless it is the newest. *)
Lemma sql_min_oldest code rows newest :
  newest_capture code rows = Some newest →
  oldest_other code newest rows = (m ← sql_min (ids_of code rows); if decide (m = newest) then None else Some m).
Proof.
  intros Hn. pose proof (newest_capture_spec code rows) as Hs. rewrite Hn in Hs. destruct Hs as [Hin Hmax].
  pose proof (oldest_other_spec code newest rows) as Ho. destruct (sql_min (ids_of code rows)) as [m|] eqn:E.
  2: { destruct (ids_of code rows); [by apply elem_of_nil in Hin|done]. }
  apply sql_min_spec in E as [Hm Hmin]. cbn. destruct (oldest_other code newest rows) as [o|].
  - destruct Ho as (Ho & Hne & Hle). assert (m = o) as ->; [|by rewrite decide_False].
    pose proof (Hmin o Ho). destruct (decide (m = newest)) as [->|]; [|specialize (Hle m Hm); lia].
    specialize (Hmax o Ho). lia.
  - by rewrite decide_True by (by apply Ho).
Qed.

Lemma evict_enough fuel max code newest rows :
  (rows_for_fault code rows ≤ fuel)%nat →
  evict_captures (S fuel) max code newest rows = evict_captures fuel max code newest rows.
Proof.
  revert rows. induction fuel as [|fuel IH]; intros rows Hf.
  - cbn. by replace (rows_for_fault code rows) with 0%nat by lia.
  - cbn [evict_captures]. case_match; [|done]. pose proof (oldest_other_spec code newest rows) as Ho.
    destruct (oldest_other code newest rows) as [o|]; [|done]. destruct Ho as [Ho _].
    apply drop_capture_shrinks in Ho. apply IH. lia.
Qed.

(** Dropping an older capture leaves the newest one. *)
Lemma newest_drop code rows newest o :
  newest_capture code rows = Some newest → o ≠ newest →
  newest_capture code (drop_capture code o rows) = Some newest.
Proof.
  intros Hn Hne. pose proof (newest_capture_spec code rows) as Hs. rewrite Hn in Hs. destruct Hs as [Hin Hmax].
  assert (∀ i, i ∈ ids_of code (drop_capture code o rows) ↔ i ∈ ids_of code rows ∧ i ≠ o) as Hids.
  { intros i. rewrite !elem_of_ids_of. unfold drop_capture. setoid_rewrite list_elem_of_filter. naive_solver. }
  pose proof (newest_capture_spec code (drop_capture code o rows)) as Hs.
  destruct (newest_capture code (drop_capture code o rows)) as [m|].
  - destruct Hs as [Hm Hmm]. f_equal. apply Hids in Hm as [Hm _]. apply Hmax in Hm.
    specialize (Hmm newest (proj2 (Hids newest) (conj Hin (not_eq_sym Hne)))). lia.
  - assert (newest ∈ ids_of code (drop_capture code o rows)) as H by (by apply Hids). rewrite Hs in H. by apply elem_of_nil in H.
Qed.

(** One round of the trim loop. *)
Lemma trim_capture_round code newest d :
  newest_capture code (t_snapshots d) = Some newest →
  match oldest_other code newest (t_snapshots d) with
  | Some o => ∃ k, trim_capture code newest d = (S k, set_snapshots (drop_capture code o (t_snapshots d)) d)
  | None => trim_capture code newest d = (0%nat, d)
  end.
Proof.
  intros Hn. set (rows := t_snapshots d) in *. pose proof (sql_min_oldest code rows newest Hn) as Ho.
  pose proof (oldest_other_spec code newest rows) as Hspec. unfold trim_capture, delete_snapshots.
  change (capture_ids code d) with (ids_of code rows). fold rows. destruct (oldest_other code newest rows) as [o|].
  - destruct Hspec as (Hin & Hne & _). assert (sql_min (ids_of code rows) = Some o) as ->.
    { destruct (sql_min (ids_of code rows)); [|done]. cbn in Ho. case_decide; [done|]. by simplify_eq. }
    apply elem_of_ids_of in Hin as (r & Hr & Hc & Hid). set (gone := filter _ rows) at 1.
    assert (r ∈ gone) as Hg by (apply list_elem_of_filter; split_and!; congruence).
    destruct gone as [|g gone]; [by apply elem_of_nil in Hg|]. exists (length gone). cbn [length]. do 2 f_equal.
    apply list_filter_iff. intros x. naive_solver congruence.
  - assert (∀ r, r ∈ rows → ¬ (snap_fault_code r = code ∧ Some (snap_capture_id r) = sql_min (ids_of code rows) ∧
      snap_capture_id r ≠ newest)) as Hno.
    { intros r Hr (Hc & _ & Hne). apply Hne, Hspec, elem_of_ids_of. eauto. }
    rewrite filter_none, filter_all by done. unfold rows. by rewrite set_snapshots_id.
Qed.

Section Captures.
Context (runs : nat → outcome) (Hruns : ∀ n, runs n = Runs).

(** The trim loop, round by round with the eviction loop. *)
Lemma trim_captures_computes sv fuel max code newest q :
  newest_capture code (t_snapshots (q_db q)) = Some newest →
  computes sv (trim_captures runs fuel max code newest) q tt
    (put_db (set_snapshots (evict_captures fuel max code newest (t_snapshots (q_db q))) (q_db q)) q).
Proof.
  revert q. induction fuel as [|fuel IH]; intros q Hn; cbn [trim_captures evict_captures].
  { rewrite set_snapshots_id, put_db_id. apply computes_ret. }
  eapply computes_bind; [by apply computes_query|].
  assert (length (capture_ids code (q_db q)) = rows_for_fault code (t_snapshots (q_db q))) as -> by (by apply length_fmap).
  destruct (max <? _)%nat eqn:E; apply Nat.ltb_lt in E || apply Nat.ltb_ge in E.
  2: { rewrite set_snapshots_id, put_db_id, (proj2 (Nat.leb_le _ _)) by lia. apply computes_ret. }
  rewrite (proj2 (Nat.leb_gt _ _)) by lia. pose proof (trim_capture_round code newest (q_db q) Hn) as Hround.
  pose proof (oldest_other_spec code newest (t_snapshots (q_db q))) as Hspec.
  destruct (oldest_other code newest (t_snapshots (q_db q))) as [o|].
  - destruct Hround as [k Hk]. destruct Hspec as (_ & Hne & _).
    eapply computes_bind; [apply computes_execute; [done|by rewrite Hk]|]. cbn [Nat.eqb].
    exact (IH (put_db (set_snapshots (drop_capture code o (t_snapshots (q_db q))) (q_db q)) q) (newest_drop _ _ _ _ Hn Hne)).
  - rewrite set_snapshots_id. eapply computes_bind; [apply computes_execute; [done|by rewrite Hround]|]. apply computes_ret.
Qed.

Lemma insert_snapshots_computes sv snaps q :
  computes sv (for_all snaps (insert_snapshot runs)) q tt
    (put_db (set_snapshots (t_snapshots (q_db q) ++ snaps) (q_db q)) q).
Proof.
  revert q. induction snaps as [|x snaps IH]; intros q; cbn [for_all].
  { rewrite app_nil_r, set_snapshots_id, put_db_id. apply computes_ret. }
  eapply computes_bind; [by eapply computes_execute|].
  pose proof (IH (put_db (set_snapshots (t_snapshots (q_db q) ++ [x]) (q_db q)) q)) as H. fields.
  by rewrite <-app_assoc in H.
Qed.

Lemma backs_snapshots q s l : backs q s → backs (put_db (set_snapshots l (q_db q)) q) (with_snapshots l s).
Proof.
  intros Hb. rewrite <-(put_db_id q) at 2. replace (set_snapshots l (q_db q))
    with (set_faults (t_faults (q_db q)) (set_snapshots l (q_db q))) by done. rewrite put_db_id.
  destruct (b_ok _ _ Hb) as [Hev Hbags Hframes].
  eapply backs_faults; try done; [|apply Hb..]. split; [by apply (events_ok_ext s)|done|done].
Qed.

Lemma store_snapshots_backs snaps q s :
  backs q s → follows (store_snapshots runs snaps) q tt (Snapshots.store_snapshots snaps s).
Proof.
  intros Hb. destruct snaps as [|front rest]; [exists q; split_and!; [apply computes_ret|done|done]|].
  unfold store_snapshots, Snapshots.store_snapshots. set (snaps := front :: rest).
  set (code := snap_fault_code front). rewrite (b_snapshots _ _ Hb), (b_max_snapshots _ _ Hb).
  set (rows := t_snapshots (q_db q) ++ snaps). set (max := q_max_snapshots_per_fault q).
  match goal with |- follows _ _ _ (with_snapshots ?l _) => set (final := l) end.
  exists (put_db (set_snapshots final (q_db q)) q). split_and!; [|by apply backs_snapshots|done].
  apply computes_transaction; [done|]. eapply computes_bind; [apply insert_snapshots_computes|].
  eapply computes_bind; [by apply computes_ask|]. fields. fold rows max. unfold final.
  destruct (0 <? max)%nat; [|apply computes_ret].
  eapply computes_bind; [by apply computes_query|]. fields.
  change (capture_ids code _) with (ids_of code rows). rewrite sql_max_newest.
  destruct (newest_capture code rows) as [newest|] eqn:En.
  2: { pose proof (newest_capture_spec code rows) as Hs. rewrite En in Hs.
       assert (snap_capture_id front ∈ ids_of code rows) as Hin.
       { apply elem_of_ids_of. exists front. split_and!; [|done..]. unfold rows, snaps. set_solver. }
       rewrite Hs in Hin. by apply elem_of_nil in Hin. }
  eapply computes_bind; [by apply computes_ask|]. fields. cbn [head default].
  rewrite <-(evict_enough (length rows)) by apply length_filter.
  exact (trim_captures_computes _ _ max code newest (put_db (set_snapshots rows (q_db q)) q) En).
Qed.

(** What the order of snapshots is by. *)
Definition snapshot_age (r : SnapshotData) : Z * Z := (snap_capture_id r, snap_captured_at_ns r).

Definition no_older (a b : Z * Z) : Prop := b.1 < a.1 ∨ b.1 = a.1 ∧ b.2 ≤ a.2.

#[global] Instance no_older_antisymm : AntiSymm eq no_older.
Proof. intros [] []. unfold no_older. cbn. intros. f_equal; lia. Qed.

Lemma get_snapshots_backs ties code topic q s :
  backs q s → (∀ l, ties l ≡ₚ l) →
  ∃ l, follows (get_snapshots runs ties code topic) q l s ∧ l ≡ₚ Snapshots.get_snapshots code topic s ∧
    snapshot_age <$> l = snapshot_age <$> Snapshots.get_snapshots code topic s.
Proof.
  intros Hb Hties. set (rows := filter (λ r, snap_fault_code r = code ∧ (topic ≠ "" → snap_topic r = topic)) (t_snapshots (q_db q))).
  exists (stable_sort newer_snapshot (ties rows)). split; [exact (follows_query runs Hruns _ q s Hb)|].
  assert (Snapshots.get_snapshots code topic s = stable_sort newer_first rows) as ->.
  { unfold Snapshots.get_snapshots. rewrite (b_snapshots _ _ Hb). f_equal. apply list_filter_iff. intros r.
    destruct (decide (topic = "")); naive_solver. }
  change newer_snapshot with newer_first. split; [by rewrite !stable_sort_perm|].
  apply (stable_sort_keys newer_first (λ _, True)) with no_older.
  - intros ?? _ _. apply newer_first_asym.
  - intros ??? _ _ _. apply newer_first_trans.
  - apply _.
  - intros x y _ _. unfold sort_le, newer_first, no_older, snapshot_age. cbn.
    rewrite orb_false_iff, andb_false_iff, !Z.ltb_ge, Z.eqb_neq. lia.
  - by apply Forall_true.
  - apply Hties.
Qed.

Lemma get_max_capture_id_backs q s :
  backs q s → snapshots s = [] ∨ Exists (λ r, 0 ≤ snap_capture_id r) (snapshots s) →
  follows (get_max_capture_id runs) q (Snapshots.get_max_capture_id s) s.
Proof.
  intros Hb Hpos. replace (Snapshots.get_max_capture_id s)
    with (default 0 (head [default 0 (sql_max (snap_capture_id <$> t_snapshots (q_db q)))])).
  { by apply (follows_query_bind runs Hruns (λ d, [default 0 (sql_max (snap_capture_id <$> t_snapshots d))])
      (λ l, default 0 (head l))). }
  cbn [head default]. rewrite <-(b_snapshots _ _ Hb). unfold Snapshots.get_max_capture_id. clear Hb.
  assert (∀ x, foldl (λ acc r, Z.max acc (snap_capture_id r)) x (snapshots s) = foldl Z.max x (snap_capture_id <$> snapshots s))
    as Hfold by (clear; induction (snapshots s); intros; cbn; auto).
  rewrite Hfold. destruct (sql_max _) as [m|] eqn:E; [|by destruct (snapshots s)].
  apply sql_max_spec in E as [Hm Hle]. cbn. pose proof (foldl_max_in (snap_capture_id <$> snapshots s) 0) as Hin.
  destruct (foldl_max_bound (snap_capture_id <$> snapshots s) 0) as [H0 Hge].
  apply Hge in Hm as Hm'. destruct Hpos as [Hnil|(r & Hr & Hr0)%Exists_exists].
  { rewrite Hnil in Hm. by apply elem_of_nil in Hm. }
  apply (list_elem_of_fmap_2 snap_capture_id), Hle in Hr.
  apply elem_of_cons in Hin as [Hin|Hin%Hle]; lia.
Qed.

Lemma store_freeze_frame_backs frame q s :
  backs q s → follows (store_freeze_frame runs frame) q tt (Snapshots.store_freeze_frame frame s).
Proof.
  intros Hb. pose proof (b_ok _ _ Hb) as Hs. eexists. split_and!; [by eapply computes_execute| |done].
  pose proof (b_frames _ _ Hb) as Hf. destruct Hb. split; fields; try assumption.
  - eapply storage_step_ok; [constructor|done].
  - cbn. by rewrite Hf.
Qed.

Lemma get_freeze_frame_backs code q s :
  backs q s → follows (get_freeze_frame runs code) q (Snapshots.get_freeze_frame code s) s.
Proof.
  intros Hb. unfold Snapshots.get_freeze_frame. rewrite (b_frames _ _ Hb).
  replace (t_freeze_frames (q_db q) !! code) with (head (option_list (t_freeze_frames (q_db q) !! code)))
    by (by destruct (_ !! _)).
  by apply (follows_query_bind runs Hruns (λ d, option_list (t_freeze_frames d !! code)) head).
Qed.

End Captures.

(** ** The queries *)

(** ** The quota *)

Lemma to_i64_id z : 0 ≤ z ≤ int64_max → to_i64 z = z.
Proof. unfold to_i64, int64_max. intros H. rewrite Z.mod_small; lia. Qed.

(** The aggregate of one path. *)
Lemma path_bytes rows p :
  Forall (λ r, 0 ≤ rb_size_bytes (row_info r) ≤ int64_max) rows → p ∈ paths rows →
  default 0 (sql_max (to_i64 <$> sizes_of p rows)) = foldl Z.max 0 (sizes_of p rows).
Proof.
  intros Hs Hp. rewrite Forall_forall in Hs.
  assert (∀ z, z ∈ sizes_of p rows → 0 ≤ z ≤ int64_max) as Hz.
  { intros z (r & -> & Hr)%list_elem_of_fmap. apply list_elem_of_filter in Hr as [_ Hr]. by apply Hs. }
  replace (to_i64 <$> sizes_of p rows) with (sizes_of p rows).
  - destruct (sizes_of p rows) as [|x l] eqn:E; [by apply sizes_nil in E|]. cbn. by rewrite Z.max_r by (apply Hz; left).
  - rewrite <-(list_fmap_id (sizes_of p rows)) at 1. apply list_fmap_ext. intros i z Hi%list_elem_of_lookup_2.
    symmetry. by apply to_i64_id, Hz.
Qed.

Lemma sum_of_bags_fits d :
  sizes_fit (t_rosbag_files d) → sum_of_bags d = Some (foldr Z.add 0 (map_entries (bytes_per_path (t_rosbag_files d))).*2).
Proof.
  intros [Hs Htotal]. unfold sum_of_bags. set (rows := t_rosbag_files d) in *.
  assert (foldr Z.add 0 ((λ p, default 0 (sql_max (to_i64 <$> sizes_of p rows))) <$> remove_dups (row_path <$> rows)) =
    foldr Z.add 0 (map_entries (bytes_per_path rows)).*2) as Hsum.
  { rewrite bytes_per_path_values, <-(sum_perm _ _ (fmap_Permutation _ _ _ (bytes_per_path_keys rows))). f_equal.
    apply list_fmap_ext. intros i p Hp%list_elem_of_lookup_2. apply path_bytes; [done|]. unfold paths.
    by rewrite elem_of_list_to_set, <-elem_of_remove_dups. }
  unfold sizes_of in Hsum. rewrite Hsum. rewrite (proj2 (Z.leb_le _ int64_max)) by done.
  rewrite (proj2 (Z.leb_le _ _)); [done|]. rewrite bytes_per_path_values.
  induction (map_entries (bytes_per_path rows)).*1 as [|p l IH]; cbn; [lia|]. pose proof (proj1 (foldl_max_bound (sizes_of p rows) 0)). lia.
Qed.

Section Queries.
Context (runs : nat → outcome) (Hruns : ∀ n, runs n = Runs).

Lemma total_bytes_backs q s :
  backs q s → sizes_fit (rosbag_files s) →
  follows (get_total_rosbag_storage_bytes runs) q (Rosbags.get_total_rosbag_storage_bytes s) s.
Proof.
  intros Hb Hfit. pose proof Hfit as [_ Hle]. rewrite (b_bags _ _ Hb) in Hfit. pose proof (sum_of_bags_fits _ Hfit) as Hsum.
  set (vs := map_entries (bytes_per_path (rosbag_files s))) in *.
  assert (Forall (λ e, 0 ≤ e.2) vs) as H0.
  { apply Forall_forall. intros [p v] Hv%elem_of_map_entries. rewrite bytes_per_path_lookup in Hv. case_decide; [|done]. injection Hv as <-.
    apply (proj1 (foldl_max_bound _ 0)). }
  assert (0 ≤ foldr Z.add 0 vs.*2) as Hge by (clear -H0; induction H0; cbn; lia).
  replace (Rosbags.get_total_rosbag_storage_bytes s)
    with (match option_list (sum_of_bags (q_db q)) with total :: _ => wrap_u64 total | [] => 0 end).
  - exact (follows_query_bind runs Hruns (λ d, option_list (sum_of_bags d))
      (λ rows, match rows with total :: _ => wrap_u64 total | [] => 0 end) q s Hb).
  - rewrite Hsum. rewrite <-(b_bags _ _ Hb). fold vs. unfold Rosbags.get_total_rosbag_storage_bytes. fold vs.
    rewrite total_fits by (done || lia). cbn. unfold wrap_u64, int64_max in *. apply Z.mod_small. lia.
Qed.

(** ** Recordings of an entity *)

Definition printable (s : string) : Prop :=
  Forall (λ c, (32 ≤ nat_of_ascii c ≤ 126)%nat) (String.list_ascii_of_string s).

#[global] Instance printable_dec s : Decision (printable s).
Proof. unfold printable. apply _. Defined.

(** SQLite's table-valued function on the arrays that are stored. *)
Definition reads_arrays (json_each : string → option (list string)) : Prop :=
  ∀ l, Forall printable l → json_each (serialize_json_array l) = Some l.

(** Sources are entity paths. *)
Definition sources_printable (s : InMemoryFaultStorage) : Prop :=
  map_Forall (λ _ st, set_Forall printable (reporting_sources st)) (faults s).

Lemma filter_eq_NoDup (e : string) l : NoDup l → filter (λ x, x = e) l = if decide (e ∈ l) then [e] else [].
Proof.
  induction 1 as [|x l Hx Hnd IH]; [by rewrite decide_False by apply not_elem_of_nil|]. rewrite filter_cons, IH.
  destruct (decide (x = e)) as [->|Hne].
  - rewrite decide_False, decide_True by (done || left). done.
  - destruct (decide (e ∈ l)); [rewrite decide_True by (by right)|rewrite decide_False]; [done|done|].
    by intros [?|?]%elem_of_cons.
Qed.

Context (json_each : string → option (list string)) (Hjson : reads_arrays json_each).

Lemma joined_row_backs e q s r :
  backs q s → sources_printable s →
  joined_row json_each e (q_db q) r =
    Some (if match faults s !! row_code r with
             | Some st => bool_decide (e ∈ reporting_sources st) | None => false end then [r] else []).
Proof.
  intros Hb Hp. unfold joined_row. rewrite (b_faults _ _ Hb), lookup_fmap.
  destruct (t_faults (q_db q) !! row_code r) as [f|] eqn:Hf; [|done]. cbn [fmap option_fmap option_map].
  assert (faults s !! row_code r = Some (state_of f)) as Hs by (by rewrite (b_faults _ _ Hb), lookup_fmap, Hf).
  rewrite (row_sources_state _ _ (b_rows _ _ Hb _ _ Hf)).
  rewrite Hjson by (apply Forall_forall; intros x Hx%elem_of_set_entries; by apply (Hp _ _ Hs)). cbn [fmap option_fmap option_map].
  rewrite filter_eq_NoDup by apply NoDup_set_entries. f_equal.
  case_bool_decide as Hin; [rewrite decide_True by (by apply elem_of_set_entries)|rewrite decide_False by (by rewrite elem_of_set_entries)];
    done.
Qed.

Lemma list_rosbags_for_entity_backs e q s :
  backs q s → sources_printable s →
  follows (list_rosbags_for_entity runs json_each e) q (Rosbags.list_rosbags_for_entity e s) s.
Proof.
  intros Hb Hp. unfold Rosbags.list_rosbags_for_entity. set (reported r := match faults s !! row_code r with
    | Some st => bool_decide (e ∈ reporting_sources st) | None => false end).
  assert (joined_rows json_each e (q_db q) = Some (filter (λ r, reported r = true) (t_rosbag_files (q_db q)))) as Hj.
  { unfold joined_rows. induction (t_rosbag_files (q_db q)) as [|r rows IH]; [done|]. cbn [mapM].
    rewrite (joined_row_backs e q s r Hb Hp). fold (reported r). cbn [mbind option_bind].
    destruct (mapM _ rows) as [l|]; [|done]. cbn [fmap option_fmap option_map mret option_ret] in IH |- *.
    injection IH as IH.
    change (Some ((if reported r then [r] else []) ++ concat l) = Some (filter (λ r, reported r = true) (r :: rows))).
    rewrite IH, filter_cons. by destruct (reported r). }
  rewrite (b_bags _ _ Hb). replace (filter (λ r, reported r = true) _) with (default [] (joined_rows json_each e (q_db q)))
    by (by rewrite Hj).
  exact (follows_query runs Hruns (λ d, row_info <$> stable_sort row_gt (default [] (joined_rows json_each e d))) q s Hb).
Qed.

End Queries.
