(* ===== verification/SqliteRecordings.v ===== *)
(** * Recordings in both storage backends

    The rows a batch leaves, and the bags that are unlinked: in the database the
    rows go in a transaction and the unreferenced paths afterwards. *)

From stdpp Require Import relations.
From S2P Require Import Prelude FaultTypes Debounce FaultEvents Snapshots Rosbags FaultStorage SqlConnection SqliteStorage SqliteSpec SqliteReports SqliteMethods.
Open Scope Z_scope.

(** ** Lists with the same elements *)

Lemma sublist_filter_elem {A} `{EqDecision A} (k l : list A) :
  k `sublist_of` l → NoDup l → k = filter (λ x, x ∈ k) l.
Proof.
  induction 1 as [|x k l Hs IH|x k l Hs IH]; intros Hnd; [done|..]; apply NoDup_cons in Hnd as [Hx Hnd]; rewrite filter_cons.
  - rewrite decide_True by left. f_equal. rewrite IH at 1 by done. apply filter_ext_elem. intros y Hy.
    rewrite elem_of_cons. split; [by right|]. intros [->|]; [done|done].
  - rewrite decide_False; [by apply IH|]. intros Hin. apply Hx. by eapply elem_of_sublist.
Qed.

Lemma fmap_fixed {A} (f : A → A) (l : list A) : (∀ x, x ∈ l → f x = x) → f <$> l = l.
Proof.
  induction l as [|x l IH]; intros H; [done|]. rewrite fmap_cons, H, IH; [done| |left]. intros y Hy. apply H. by right.
Qed.

(** ** Storing *)

Lemma upsert_link_rows i d ev :
  rows_ok (t_rosbag_files d) (rosbag_file_seq d) →
  let a := upsert i {| acc_rows := t_rosbag_files d; acc_seq := rosbag_file_seq d; acc_evicted := ev |} in
  upsert_link i d = set_rosbag_rows (acc_rows a) (acc_seq a) d.
Proof.
  intros Hok. cbv zeta. unfold upsert_link, upsert. cbn [acc_rows acc_seq].
  pose proof (refresh_link_spec i (t_rosbag_files d)) as Hr. destruct (refresh_link i (t_rosbag_files d)) as [rows'|].
  - destruct Hr as (l1 & r & l2 & E & Hl & ->). rewrite E.
    assert (existsb (same_link i) (l1 ++ r :: l2) = true) as ->.
    { apply existsb_exists. exists r. split; [|done]. apply in_or_app. by right; left. }
    pose proof (rok_links _ _ Hok) as Hnd. rewrite E, fmap_app, fmap_cons in Hnd. apply NoDup_app in Hnd as (_ & H1 & H2).
    apply NoDup_cons in H2 as [H2 _]. cbn [acc_rows acc_seq]. f_equal. rewrite fmap_app, fmap_cons, Hl.
    assert (∀ x, row_link x ≠ row_link r → (if same_link i x then mkRosbagRow i (row_seq x) else x) = x) as Hother.
    { intros x Hx. destruct (same_link i x) eqn:Ex; [|done]. apply same_link_iff in Ex, Hl. congruence. }
    f_equal; [|f_equal]; apply fmap_fixed; intros x Hx; apply Hother; intros Hlink.
    + apply (H1 (row_link x)); [by apply list_elem_of_fmap_2|]. rewrite Hlink. left.
    + apply H2. rewrite <-Hlink. by apply list_elem_of_fmap_2.
  - assert (existsb (same_link i) (t_rosbag_files d) = false) as ->; [|done].
    apply not_true_iff_false. rewrite existsb_exists. intros (r & Hin & Hl). rewrite <-list_elem_of_In in Hin.
    rewrite Forall_forall in Hr. by rewrite (Hr r Hin) in Hl.
Qed.

Lemma row_gt_sorted l : StronglySorted (λ a b, row_lt a b = false) (stable_sort row_gt l).
Proof.
  eapply StronglySorted_weaken; [|apply (stable_sort_sorted _ (λ _, True))].
  - by intros x y.
  - intros x y _ _. unfold row_gt. apply row_lt_asym.
  - intros x y z _ _ _. unfold sort_le, row_gt. intros H1 H2. by eapply row_le_trans.
  - by apply Forall_true.
Qed.

(** What stays of a fault are the first rows in the order of the query. *)
Lemma kept_rows max code a x :
  (0 < max)%nat → NoDup (row_seq <$> acc_rows a) → x ∈ acc_rows a → row_code x = code →
  x ∈ acc_rows (trim_fault max code a) ↔ row_seq x ∈ kept_ids max code (acc_rows a).
Proof.
  intros Hmax Hnd Hx Hcode. destruct (trim_fault_spec max code a Hmax) as (gone & Hp & Hgone & Hlen & Hold).
  set (rows := acc_rows a) in *. set (K := fault_rows code (acc_rows (trim_fault max code a))) in *.
  set (S := stable_sort row_gt (filter (λ r, row_code r = code) rows)). set (T := take max S).
  assert (∀ y, y ∈ S ↔ y ∈ rows ∧ row_code y = code) as HS.
  { intros y. unfold S. rewrite elem_of_stable_sort, list_elem_of_filter. tauto. }
  assert (∀ y z, y ∈ rows → z ∈ rows → row_lt y z = false → row_lt z y = false → y = z) as Htot.
  { intros y z Hy Hz H1 H2. apply (NoDup_fmap_elem row_seq rows); [done..|]. destruct (decide (row_seq y = row_seq z)); [done|].
    apply (row_lt_total y z) in H2; [|done]. congruence. }
  assert (∀ y, y ∈ K ↔ y ∈ acc_rows (trim_fault max code a) ∧ row_code y = code) as HK.
  { intros y. unfold K, fault_rows. rewrite list_elem_of_filter. tauto. }
  assert (NoDup rows) as Hnr by (by apply NoDup_fmap_1 in Hnd).
  assert (NoDup T) as HnT.
  { apply (sublist_NoDup T S); [|apply sublist_take]. unfold S. rewrite stable_sort_perm. by apply NoDup_filter. }
  assert (NoDup K) as HnK.
  { apply NoDup_filter. rewrite Hp in Hnr. by apply NoDup_app in Hnr as (_ & _ & ?). }
  assert (length T = length K) as HTK.
  { unfold T. rewrite length_take, Hlen. unfold S. by rewrite stable_sort_perm. }
  assert (∀ y, y ∈ T → y ∈ K) as Hsub.
  { intros y Hy. destruct (decide (y ∈ K)) as [|HyK]; [done|]. exfalso. apply HyK.
    assert (y ∈ rows ∧ row_code y = code) as [Hyr Hyc] by (apply HS; by apply (subseteq_take max S)).
    assert (y ∈ gone) as Hg.
    { rewrite Hp in Hyr. apply elem_of_app in Hyr as [|Hyr]; [done|]. by destruct HyK; apply HK. }
    assert (K ≡ₚ T) as ->; [|done]. apply submseteq_length_Permutation; [|lia]. apply NoDup_submseteq; [done|].
    intros k Hk. destruct (decide (k ∈ T)) as [|HkT]; [done|]. destruct HyK.
    pose proof Hk as [Hk1 Hk2]%HK. assert (k ∈ rows) as Hkr by (rewrite Hp; apply elem_of_app; by right).
    assert (k ∈ drop max S) as Hd.
    { pose proof (proj2 (HS k) (conj Hkr Hk2)) as HkS. rewrite <-(take_drop max S) in HkS.
      apply elem_of_app in HkS as [|]; done. }
    rewrite (Htot y k); [done..| |by apply Hold].
    pose proof (row_gt_sorted (filter (λ r, row_code r = code) rows)) as Hs. fold S in Hs. rewrite <-(take_drop max S) in Hs.
    by apply (StronglySorted_app_1_elem_of _ _ _ _ _ Hs). }
  assert (T ≡ₚ K) as HTKp by (apply submseteq_length_Permutation; [by apply NoDup_submseteq|lia]).
  transitivity (x ∈ K); [rewrite HK; tauto|]. rewrite <-HTKp. unfold kept_ids. fold S T. split.
  - apply list_elem_of_fmap_2.
  - intros (y & Hxy & Hy)%list_elem_of_fmap. assert (y ∈ rows) as Hyr by (apply HS; by apply (subseteq_take max S)).
    by rewrite (NoDup_fmap_elem row_seq rows x y Hnd Hx Hyr Hxy).
Qed.

Lemma upsert_row_paths i rows seq ev :
  paths (acc_rows (upsert i {| acc_rows := rows; acc_seq := seq; acc_evicted := ev |})) = {[ rb_file_path i ]} ∪ paths rows.
Proof.
  pose proof (upsert_paths i {| acc_rows := rows; acc_seq := seq; acc_evicted := ∅ |}) as H. unfold upsert in *. cbn in *.
  destruct (refresh_link i rows); cbn in *; by rewrite !union_empty_r_L in H.
Qed.

(** The DELETE of the doomed rows is the erasure by index. *)
Lemma trim_fault_rows max code a :
  (0 < max)%nat → NoDup (row_seq <$> acc_rows a) →
  acc_rows (trim_fault max code a) = filter (λ r, ¬ doomed max code (acc_rows a) r) (acc_rows a).
Proof.
  intros Hmax Hnd. rewrite (sublist_filter_elem _ _ (trim_sublist max code a)) by (by apply NoDup_fmap_1 in Hnd).
  apply filter_ext_elem. intros x Hx. unfold doomed. destruct (decide (row_code x = code)) as [Hc|Hc].
  - rewrite (kept_rows max code a x Hmax Hnd Hx Hc). destruct (decide (row_seq x ∈ kept_ids max code (acc_rows a))); tauto.
  - destruct (trim_fault_spec max code a Hmax) as (gone & Hp & Hgone & _). split; [tauto|intros _].
    rewrite Hp in Hx. apply elem_of_app in Hx as [Hx|Hx]; [|done]. rewrite Forall_forall in Hgone. by apply Hgone in Hx.
Qed.

Lemma paths_split (P : RosbagRow → Prop) `{∀ r, Decision (P r)} rows :
  paths (filter (λ r, ¬ P r) rows) ∪ list_to_set (row_path <$> filter P rows) = paths rows.
Proof.
  apply set_eq. intros p. rewrite elem_of_union, !elem_of_paths, elem_of_list_to_set, list_elem_of_fmap.
  setoid_rewrite list_elem_of_filter. split; [naive_solver|]. intros (r & Hr & <-). destruct (decide (P r)); naive_solver.
Qed.

(** The object after some calls of [remove_all]. *)
Definition add_unlinked (l : list string) (q : SqliteFaultStorage) : SqliteFaultStorage :=
  mkSqlite (q_db q) (q_saved q) (q_ran q) (q_unlinked q ++ l) (q_config q) (q_max_snapshots_per_fault q)
    (q_max_near_misses_per_fault q) (q_retain_snapshots_on_clear q) (q_max_rosbags_per_fault q).

Lemma add_unlinked_nil q : add_unlinked [] q = q.
Proof. destruct q. unfold add_unlinked. cbn. by rewrite app_nil_r. Qed.

Lemma add_unlinked_app l k q : add_unlinked k (add_unlinked l q) = add_unlinked (l ++ k) q.
Proof. unfold add_unlinked. cbn. by rewrite app_assoc. Qed.

(** The bags of [rows] without a row in [rows']. *)
Definition released (rows rows' : list RosbagRow) (p : string) : Prop := p ∈ paths rows ∧ p ∉ paths rows'.

(** The method answers [x], leaves a database of [s'], and unlinks what [gone]
    names. *)
Definition follows_unlinking {A} (m : Sql A) (q : SqliteFaultStorage) (x : A) (gone : list string)
    (s' : InMemoryFaultStorage) : Prop :=
  ∃ q' l, computes None m q x q' ∧ backs q' s' ∧ q_unlinked q' = q_unlinked q ++ l ∧ ∀ p, p ∈ l ↔ p ∈ gone.

Lemma backs_unlinked l q s : backs q s → backs (add_unlinked l q) s.
Proof. intros []. by split. Qed.

Lemma backs_rosbags q s rows seq s' :
  backs q s → storage_ok s' → s' = with_rosbags rows seq s →
  backs (put_db (set_rosbag_rows rows seq (q_db q)) q) s'.
Proof. intros [] Hok ->. by split. Qed.

Section Recordings.
Context (runs : nat → outcome) (Hruns : ∀ n, runs n = Runs).

Lemma path_referenced_computes sv p q :
  computes sv (path_referenced runs p) q (bool_decide (p ∈ paths (t_rosbag_files (q_db q)))) q.
Proof.
  set (rows := t_rosbag_files (q_db q)).
  replace (bool_decide _) with (0 <? length (filter (λ r, row_path r = p) rows))%nat.
  { unfold path_referenced. eapply computes_bind; [by apply computes_query|]. apply computes_ret. }
  symmetry. destruct (filter _ rows) as [|r k] eqn:E.
  - apply bool_decide_eq_false. intros (r & Hr & Hp)%elem_of_paths.
    assert (r ∈ filter (λ r, row_path r = p) rows) as Hin by (by apply list_elem_of_filter).
    rewrite E in Hin. by apply elem_of_nil in Hin.
  - apply bool_decide_eq_true, elem_of_paths. exists r.
    assert (r ∈ r :: k) as Hin by left. rewrite <-E in Hin. by apply list_elem_of_filter in Hin as [??].
Qed.

Lemma unlink_computes sv X q :
  computes sv (unlink_unreferenced runs X) q tt
    (add_unlinked (filter (λ p, p ∉ paths (t_rosbag_files (q_db q))) (set_entries X)) q).
Proof.
  unfold unlink_unreferenced. revert q. induction (set_entries X) as [|p l IH]; intros q; cbn [for_all].
  { rewrite filter_nil, add_unlinked_nil. apply computes_ret. }
  eapply computes_bind; [eapply computes_bind; [apply path_referenced_computes|]|].
  - instantiate (1 := add_unlinked (filter (λ p, p ∉ paths (t_rosbag_files (q_db q))) [p]) q).
    rewrite filter_cons, filter_nil. case_bool_decide.
    + rewrite decide_False, add_unlinked_nil by tauto. apply computes_ret.
    + rewrite decide_True by done. apply computes_remove_all.
  - specialize (IH (add_unlinked (filter (λ p, p ∉ paths (t_rosbag_files (q_db q))) [p]) q)).
    rewrite add_unlinked_app in IH. change (p :: l) with ([p] ++ l). rewrite filter_app. exact IH.
Qed.

(** A method that stores its rows and then unlinks. *)
Lemma finish_unlinking {A} (m : Sql A) (X : gset string) q z d (gone : list string) s' :
  computes None m q z (add_unlinked (filter (λ p, p ∉ paths (t_rosbag_files d)) (set_entries X)) (put_db d q)) →
  backs (put_db d q) s' → (∀ p, p ∈ gone ↔ p ∈ X ∧ p ∉ paths (t_rosbag_files d)) →
  follows_unlinking m q z gone s'.
Proof.
  intros Hm Hb Hgone. eexists _, _. split_and!; [done|by apply backs_unlinked|done|].
  intros p. rewrite Hgone, list_elem_of_filter, elem_of_set_entries. tauto.
Qed.

Lemma unlink_then_computes {B} sv X (z : B) q :
  computes sv (unlink_unreferenced runs X;; mret z) q z
    (add_unlinked (filter (λ p, p ∉ paths (t_rosbag_files (q_db q))) (set_entries X)) q).
Proof. eapply computes_bind; [apply unlink_computes|apply computes_ret]. Qed.

(** One link: the rows of [store_one]; the paths of rows and evictions. *)
Lemma store_locked_computes sv i q ev :
  rows_ok (t_rosbag_files (q_db q)) (rosbag_file_seq (q_db q)) → 0 ≤ rosbag_file_seq (q_db q) →
  let a := store_one (q_max_rosbags_per_fault q)
    {| acc_rows := t_rosbag_files (q_db q); acc_seq := rosbag_file_seq (q_db q); acc_evicted := ev |} i in
  ∃ gone, computes sv (store_rosbag_file_locked runs i) q gone
      (put_db (set_rosbag_rows (acc_rows a) (acc_seq a) (q_db q)) q) ∧
    paths (acc_rows a) ∪ list_to_set gone = {[ rb_file_path i ]} ∪ paths (t_rosbag_files (q_db q)).
Proof.
  intros Hok Hseq. cbv zeta. unfold store_one, store_rosbag_file_locked. set (row := fill_recording_id i).
  set (a0 := {| acc_rows := t_rosbag_files (q_db q); acc_seq := rosbag_file_seq (q_db q); acc_evicted := ev |}).
  set (a := upsert row a0). destruct (upsert_ok row a0 Hok Hseq) as [Ha _]. fold a in Ha.
  pose proof (upsert_link_rows row (q_db q) ev Hok) as Hup. cbv zeta in Hup. fold a0 a in Hup.
  assert (paths (acc_rows a) = {[ rb_file_path i ]} ∪ paths (t_rosbag_files (q_db q))) as Hpaths.
  { unfold a, a0. rewrite upsert_row_paths. unfold row. by rewrite fill_recording_id_path. }
  set (max := q_max_rosbags_per_fault q). set (code := rb_fault_code row).
  destruct (max =? 0)%nat eqn:Em.
  { exists []. assert (trim_fault max code a = a) as -> by (unfold trim_fault; by rewrite Em).
    split; [|rewrite Hpaths; set_solver]. eapply computes_bind; [by apply computes_execute|].
    eapply computes_bind; [by apply computes_ask|]. fields. fold max. rewrite Em, Hup. apply computes_ret. }
  apply Nat.eqb_neq in Em as Hmax. rewrite (trim_fault_rows max code a), trim_seq; [|lia|by apply (rok_seqs _ _ Ha)].
  set (P := doomed max code (acc_rows a)).
  exists (remove_dups (row_path <$> filter P (acc_rows a))). split.
  - eapply computes_bind; [by apply computes_execute|]. eapply computes_bind; [by apply computes_ask|].
    fields. fold max. rewrite Em, Hup. eapply computes_bind; [by apply computes_query|]. fields. fold code P.
    case_bool_decide as Hnil.
    + rewrite Hnil, filter_all; [apply computes_ret|]. intros r Hr HP.
      assert (row_path r ∈ remove_dups (row_path <$> filter P (acc_rows a))) as Hin.
      { apply elem_of_remove_dups, list_elem_of_fmap_2. by apply list_elem_of_filter. }
      rewrite Hnil in Hin. by apply elem_of_nil in Hin.
    + eapply computes_bind; [by eapply computes_execute|]. apply computes_ret.
  - rewrite <-Hpaths, <-(paths_split P (acc_rows a)). f_equal. apply set_eq. intros p.
    by rewrite !elem_of_list_to_set, elem_of_remove_dups.
Qed.

(** A batch. *)
Lemma store_each_computes sv infos q ev :
  rows_ok (t_rosbag_files (q_db q)) (rosbag_file_seq (q_db q)) → 0 ≤ rosbag_file_seq (q_db q) →
  let a := foldl (store_one (q_max_rosbags_per_fault q))
    {| acc_rows := t_rosbag_files (q_db q); acc_seq := rosbag_file_seq (q_db q); acc_evicted := ev |} infos in
  ∃ gone, computes sv (store_each runs infos) q gone (put_db (set_rosbag_rows (acc_rows a) (acc_seq a) (q_db q)) q) ∧
    paths (acc_rows a) ∪ list_to_set gone = list_to_set (rb_file_path <$> infos) ∪ paths (t_rosbag_files (q_db q)).
Proof.
  revert q ev. induction infos as [|i infos IH]; intros q ev Hok Hseq; cbn [foldl store_each].
  { exists []. split; [|set_solver]. cbn [acc_rows acc_seq]. replace (set_rosbag_rows _ _ _) with (q_db q) by (by destruct (q_db q)).
    rewrite put_db_id. apply computes_ret. }
  destruct (store_locked_computes sv i q ev Hok Hseq) as (gone & Hc & Hp).
  set (a0 := {| acc_rows := t_rosbag_files (q_db q); acc_seq := rosbag_file_seq (q_db q); acc_evicted := ev |}) in *.
  destruct (store_one_ok (q_max_rosbags_per_fault q) a0 i Hok Hseq) as [Hok1 Hseq1].
  set (a1 := store_one (q_max_rosbags_per_fault q) a0 i) in *.
  destruct (IH (put_db (set_rosbag_rows (acc_rows a1) (acc_seq a1) (q_db q)) q) (acc_evicted a1) Hok1 Hseq1) as (more & Hc' & Hp').
  fields. replace {| acc_rows := acc_rows a1; acc_seq := acc_seq a1; acc_evicted := acc_evicted a1 |} with a1 in * by (by destruct a1).
  exists (gone ++ more). split.
  - eapply computes_bind; [done|]. eapply computes_bind; [done|]. apply computes_ret.
  - rewrite fmap_cons, list_to_set_cons, list_to_set_app_L. rewrite (union_comm_L (list_to_set gone)), union_assoc_L, Hp'.
    rewrite <-union_assoc_L, Hp. set_solver.
Qed.

Lemma store_rosbag_files_backs infos q s :
  backs q s →
  follows_unlinking (store_rosbag_files runs infos) q tt (Rosbags.store_rosbag_files infos s).1
    (Rosbags.store_rosbag_files infos s).2.
Proof.
  intros Hb. assert (storage_ok (Rosbags.store_rosbag_files infos s).2) as Hs by (eapply storage_step_ok; [constructor|apply Hb]).
  destruct infos as [|i infos].
  { exists q, []. split_and!; [apply computes_ret|done|by rewrite app_nil_r|done]. }
  unfold store_rosbag_files, Rosbags.store_rosbag_files in *. set (all := i :: infos) in *.
  destruct (sok_rosbags _ (b_ok _ _ Hb)) as [Hok Hseq]. pose proof (b_bags _ _ Hb) as Hbags. pose proof (b_seq _ _ Hb) as Hq.
  rewrite Hbags, Hq in Hok. rewrite Hq in Hseq. rewrite Hbags, Hq, (b_max_bags _ _ Hb) in Hs |- *.
  destruct (store_each_computes (Some (q_db q)) all q ∅ Hok Hseq) as (gone & Hc & Hp).
  pose proof (store_all_paths (q_max_rosbags_per_fault q) all
    {| acc_rows := t_rosbag_files (q_db q); acc_seq := rosbag_file_seq (q_db q); acc_evicted := ∅ |}) as Hmem.
  set (a := foldl _ _ all) in *. cbn [fst snd acc_rows acc_evicted] in *.
  apply (finish_unlinking _ (list_to_set gone) q tt (set_rosbag_rows (acc_rows a) (acc_seq a) (q_db q))).
  - eapply computes_bind; [by apply computes_transaction|]. apply unlink_computes.
  - by apply (backs_rosbags q s).
  - intros p. rewrite elem_of_unlink_paths. cbn [t_rosbag_files set_rosbag_rows].
    assert (p ∈ paths (acc_rows a) ∪ list_to_set gone ↔ p ∈ paths (acc_rows a) ∪ acc_evicted a) as H by (rewrite Hp, Hmem; set_solver).
    rewrite !elem_of_union in H. tauto.
Qed.

(** ** Deleting *)

(** A DELETE is the removal by a test. *)
Lemma delete_rows_as_filter (P : RosbagRow → bool) (Q : RosbagRow → Prop) `{∀ r, Decision (Q r)} s :
  (∀ r, P r = true ↔ Q r) →
  (delete_rows P s).2 = with_rosbags (filter (λ r, ¬ Q r) (rosbag_files s)) (rosbag_seq s) s.
Proof.
  intros HPQ. unfold delete_rows. cbn. f_equal. apply list_filter_iff. intros r. rewrite <-HPQ. by destruct (P r).
Qed.

Lemma filter_lengths (Q : RosbagRow → Prop) `{∀ r, Decision (Q r)} rows :
  length rows = (length (filter Q rows) + length (filter (λ r, ¬ Q r) rows))%nat.
Proof. rewrite <-length_app. apply Permutation_length. symmetry. apply filter_app_complement. Qed.

Lemma released_filter (Q : RosbagRow → Prop) `{∀ r, Decision (Q r)} rows p :
  p ∈ list_to_set (C := gset string) (row_path <$> filter Q rows) ∧ p ∉ paths (filter (λ r, ¬ Q r) rows) ↔
  released rows (filter (λ r, ¬ Q r) rows) p.
Proof. unfold released. rewrite <-(paths_split Q rows), elem_of_union. tauto. Qed.

(** What a deletion of a fault does in memory. *)
Lemma delete_file_memory code s :
  let rest := filter (λ r, ¬ row_code r = code) (rosbag_files s) in
  (Rosbags.delete_rosbag_file code s).2 = with_rosbags rest (rosbag_seq s) s ∧
  (Rosbags.delete_rosbag_file code s).1.1 = (0 <? length (filter (λ r, row_code r = code) (rosbag_files s)))%nat ∧
  ∀ p, p ∈ (Rosbags.delete_rosbag_file code s).1.2 ↔ released (rosbag_files s) rest p.
Proof.
  cbv zeta. pose proof (delete_unlinks_exactly code s) as Hex.
  assert ((Rosbags.delete_rosbag_file code s).2 = with_rosbags (filter (λ r, ¬ row_code r = code) (rosbag_files s)) (rosbag_seq s) s)
    as E2.
  { rewrite <-(delete_rows_as_filter (λ r, row_code r =?ₛ code) (λ r, row_code r = code)).
    - unfold Rosbags.delete_rosbag_file. destruct (delete_rows _ s) as [touched s1]. cbn [snd]. by destruct (_ =? _)%nat.
    - intros r. apply str_eqb_eq. }
  destruct (Rosbags.delete_rosbag_file code s) as [[found gone] s']. cbn [fst snd] in *. subst s'. split_and!; [done| |].
  - destruct (Hex "") as (_ & Hfound & _). apply eq_bool_prop_intro. rewrite !Is_true_true, Hfound, Nat.ltb_lt. split.
    + intros (r & Hr & Hc). assert (r ∈ filter (λ r, row_code r = code) (rosbag_files s)) as Hin by (by apply list_elem_of_filter).
      destruct (filter (λ r, row_code r = code) (rosbag_files s)); [by apply elem_of_nil in Hin|cbn; lia].
    + destruct (filter (λ r, row_code r = code) (rosbag_files s)) as [|r l] eqn:E; [cbn; lia|]. intros _. exists r. assert (r ∈ r :: l) as Hin by left.
      rewrite <-E in Hin. by apply list_elem_of_filter in Hin as [??].
  - intros p. destruct (Hex p) as (_ & _ & ->). done.
Qed.

Lemma delete_rows_computes sv (Q : RosbagRow → Prop) `{∀ r, Decision (Q r)} q :
  computes sv (execute runs (λ d, Some (delete_rosbag_rows Q d))) q (length (filter Q (t_rosbag_files (q_db q))))
    (put_db (set_rosbag_rows (filter (λ r, ¬ Q r) (t_rosbag_files (q_db q))) (rosbag_file_seq (q_db q)) (q_db q)) q).
Proof. by apply computes_execute. Qed.

Lemma delete_rosbag_file_backs code q s :
  backs q s →
  follows_unlinking (delete_rosbag_file runs code) q (Rosbags.delete_rosbag_file code s).1.1
    (Rosbags.delete_rosbag_file code s).1.2 (Rosbags.delete_rosbag_file code s).2.
Proof.
  intros Hb. assert (storage_ok (Rosbags.delete_rosbag_file code s).2) as Hs by (eapply storage_step_ok; [constructor|apply Hb]).
  destruct (delete_file_memory code s) as (E2 & E1 & Hgone). rewrite (b_bags _ _ Hb), (b_seq _ _ Hb) in *.
  set (d := set_rosbag_rows (filter (λ r, ¬ row_code r = code) (t_rosbag_files (q_db q))) (rosbag_file_seq (q_db q)) (q_db q)).
  apply (finish_unlinking _ (list_to_set (row_path <$> filter (λ r, row_code r = code) (t_rosbag_files (q_db q)))) q _ d).
  - rewrite E1. eapply computes_bind; [by apply computes_query|]. eapply computes_bind; [apply delete_rows_computes|].
    apply unlink_then_computes.
  - by eapply backs_rosbags.
  - intros p. rewrite Hgone. symmetry. apply released_filter.
Qed.

(** A batch of deletions in memory: the rows that stay, and what is released. *)
Lemma delete_files_memory codes s :
  let rest := filter (λ r, row_code r ∉ codes) (rosbag_files s) in
  (Rosbags.delete_rosbag_files codes s).2 = with_rosbags rest (rosbag_seq s) s ∧
  ∀ p, p ∈ (Rosbags.delete_rosbag_files codes s).1.2 ↔ released (rosbag_files s) rest p.
Proof.
  cbv zeta. revert s. induction codes as [|code codes IH]; intros s.
  { cbn [Rosbags.delete_rosbag_files fst snd]. rewrite filter_all by (intros r _; apply not_elem_of_nil).
    split; [by destruct s|]. intros p. rewrite elem_of_nil. unfold released. tauto. }
  cbn [Rosbags.delete_rosbag_files]. destruct (delete_file_memory code s) as (E & _ & Hg).
  destruct (Rosbags.delete_rosbag_file code s) as [[ok gone] s1]. cbn [fst snd] in E, Hg. subst s1.
  set (s1 := with_rosbags _ _ s). specialize (IH s1). destruct (Rosbags.delete_rosbag_files codes s1) as [[n more] s2].
  cbn [fst snd] in *. destruct IH as [-> Hm].
  assert (filter (λ r, row_code r ∉ codes) (rosbag_files s1) = filter (λ r, row_code r ∉ code :: codes) (rosbag_files s)) as Ef.
  { unfold s1. cbn [rosbag_files with_rosbags]. rewrite list_filter_filter. apply list_filter_iff. intros r. rewrite not_elem_of_cons. tauto. }
  rewrite Ef in *. split; [done|]. intros p. rewrite elem_of_app, Hg, Hm. unfold released, s1. cbn [rosbag_files with_rosbags].
  rewrite !elem_of_paths. setoid_rewrite list_elem_of_filter. setoid_rewrite not_elem_of_cons. split; [naive_solver|].
  intros [(r & Hr & Hp) Hno].
  destruct (decide (p ∈ paths (filter (λ r, ¬ row_code r = code) (rosbag_files s)))) as [Hd|Hd]; rewrite elem_of_paths in Hd;
    setoid_rewrite list_elem_of_filter in Hd; naive_solver.
Qed.

Lemma delete_each_computes sv codes q s :
  rosbag_files s = t_rosbag_files (q_db q) → rosbag_seq s = rosbag_file_seq (q_db q) →
  let rest := filter (λ r, row_code r ∉ codes) (t_rosbag_files (q_db q)) in
  ∃ found, computes sv (delete_each runs codes) q (found, (Rosbags.delete_rosbag_files codes s).1.1)
      (put_db (set_rosbag_rows rest (rosbag_file_seq (q_db q)) (q_db q)) q) ∧
    paths rest ∪ list_to_set found = paths (t_rosbag_files (q_db q)).
Proof.
  cbv zeta. revert q s. induction codes as [|code codes IH]; intros q s Hb Hq; cbn [delete_each Rosbags.delete_rosbag_files].
  { exists []. rewrite filter_all by (intros r _; apply not_elem_of_nil). split; [|set_solver].
    replace (set_rosbag_rows _ _ _) with (q_db q) by (by destruct (q_db q)). rewrite put_db_id. apply computes_ret. }
  destruct (delete_file_memory code s) as (E & E1 & _). destruct (Rosbags.delete_rosbag_file code s) as [[ok gone] s1].
  cbn [fst snd] in E, E1. subst s1 ok. set (s1 := with_rosbags _ _ s).
  set (q1 := put_db (set_rosbag_rows (filter (λ r, ¬ row_code r = code) (t_rosbag_files (q_db q))) (rosbag_file_seq (q_db q)) (q_db q)) q).
  destruct (IH q1 s1) as (found & Hc & Hp); [by cbn; rewrite Hb|done|].
  destruct (Rosbags.delete_rosbag_files codes s1) as [[n more] s2]. cbn [fst snd] in *.
  assert (filter (λ r, row_code r ∉ codes) (t_rosbag_files (q_db q1)) = filter (λ r, row_code r ∉ code :: codes) (t_rosbag_files (q_db q)))
    as Ef.
  { unfold q1. fields. rewrite list_filter_filter. apply list_filter_iff. intros r. rewrite not_elem_of_cons. tauto. }
  rewrite Ef in *. exists ((row_path <$> filter (λ r, row_code r = code) (t_rosbag_files (q_db q))) ++ found). split.
  - eapply computes_bind; [by apply computes_query|]. eapply computes_bind; [apply delete_rows_computes|].
    eapply computes_bind; [exact Hc|]. cbn [fst snd]. rewrite Hb. apply computes_ret.
  - rewrite list_to_set_app_L, (union_comm_L (list_to_set _)), union_assoc_L, Hp. unfold q1. fields. apply paths_split.
Qed.

Lemma delete_rosbag_files_backs codes q s :
  backs q s →
  follows_unlinking (delete_rosbag_files runs codes) q (Rosbags.delete_rosbag_files codes s).1.1
    (Rosbags.delete_rosbag_files codes s).1.2 (Rosbags.delete_rosbag_files codes s).2.
Proof.
  intros Hb. assert (storage_ok (Rosbags.delete_rosbag_files codes s).2) as Hs by (eapply storage_step_ok; [constructor|apply Hb]).
  destruct codes as [|code codes].
  { exists q, []. split_and!; [apply computes_ret|done|by rewrite app_nil_r|done]. }
  set (all := code :: codes) in *. destruct (delete_files_memory all s) as [E2 Hgone].
  destruct (delete_each_computes (Some (q_db q)) all q s (b_bags _ _ Hb) (b_seq _ _ Hb)) as (found & Hc & Hp).
  rewrite (b_bags _ _ Hb), (b_seq _ _ Hb) in *. set (rest := filter (λ r, row_code r ∉ all) (t_rosbag_files (q_db q))) in *.
  apply (finish_unlinking _ (list_to_set found) q _ (set_rosbag_rows rest (rosbag_file_seq (q_db q)) (q_db q))).
  - eapply computes_bind; [by apply computes_transaction|]. apply unlink_then_computes.
  - by eapply backs_rosbags.
  - intros p. rewrite Hgone. unfold released. rewrite <-Hp, elem_of_union. fields. tauto.
Qed.

Lemma delete_rosbag_recording_backs id q s :
  backs q s →
  follows_unlinking (delete_rosbag_recording runs id) q (Rosbags.delete_rosbag_recording id s).1.1
    (Rosbags.delete_rosbag_recording id s).1.2 (Rosbags.delete_rosbag_recording id s).2.
Proof.
  intros Hb. assert (storage_ok (Rosbags.delete_rosbag_recording id s).2) as Hs by (eapply storage_step_ok; [constructor|apply Hb]).
  set (rows := t_rosbag_files (q_db q)). set (rest := filter (λ r, ¬ rb_recording_id (row_info r) = id) rows).
  set (touched := list_to_set (C := gset string) (row_path <$> filter (λ r, rb_recording_id (row_info r) = id) rows)).
  unfold delete_rosbag_recording. assert (Rosbags.delete_rosbag_recording id s =
    if id =?ₛ "" then (0%nat, [], s)
    else ((length rows - length rest)%nat, unlink_paths rest touched, with_rosbags rest (rosbag_seq s) s)) as Emem.
  { unfold Rosbags.delete_rosbag_recording. case_match; [done|].
    rewrite (surjective_pairing (delete_rows _ s)), (delete_rows_as_filter _ (λ r, rb_recording_id (row_info r) = id))
      by (intros; apply str_eqb_eq). cbn [rosbag_files with_rosbags]. rewrite (b_bags _ _ Hb). fold rows rest.
    unfold delete_rows, touched. cbn [fst]. rewrite (b_bags _ _ Hb). fold rows. do 5 f_equal.
    apply list_filter_iff. intros r. apply str_eqb_eq. }
  rewrite Emem in *. destruct (id =?ₛ ""); cbn [fst snd] in *.
  { exists q, []. split_and!; [apply computes_ret|done|by rewrite app_nil_r|done]. }
  pose proof (filter_lengths (λ r, rb_recording_id (row_info r) = id) rows) as Hlen. fold rest in Hlen.
  set (found := remove_dups (row_path <$> filter (λ r, rb_recording_id (row_info r) = id) rows)).
  assert (list_to_set found = touched) as Hfound by (apply set_eq; intros p; unfold touched, found; by rewrite !elem_of_list_to_set, elem_of_remove_dups).
  destruct (decide (found = [])) as [Hnil|Hnil].
  - assert (filter (λ r, rb_recording_id (row_info r) = id) rows = []) as Hno.
    { destruct (filter (λ r, rb_recording_id (row_info r) = id) rows) as [|r l] eqn:E; [done|].
      assert (row_path r ∈ found) as Hin.
      { unfold found. apply elem_of_remove_dups. left. }
      rewrite Hnil in Hin. by apply elem_of_nil in Hin. }
    assert (rest = rows) as Hrest.
    { apply filter_all. intros r Hr Hid. assert (r ∈ filter (λ r, rb_recording_id (row_info r) = id) rows) as Hin
        by (by apply list_elem_of_filter). rewrite Hno in Hin. by apply elem_of_nil in Hin. }
    exists q, []. split_and!; [| |by rewrite app_nil_r|].
    + eapply computes_bind; [by apply computes_query|]. fold rows found. rewrite bool_decide_eq_true_2 by done.
      rewrite Hrest, Nat.sub_diag. apply computes_ret.
    + rewrite Hrest. unfold rows. rewrite <-(b_bags _ _ Hb). by destruct s.
    + intros p. rewrite elem_of_unlink_paths, <-Hfound, Hnil, elem_of_nil. set_solver.
  - apply (finish_unlinking _ touched q _ (set_rosbag_rows rest (rosbag_file_seq (q_db q)) (q_db q))).
    + eapply computes_bind; [by apply computes_query|]. fold rows found. rewrite bool_decide_eq_false_2 by done.
      eapply computes_bind; [by apply computes_transaction, delete_rows_computes|]. rewrite Hfound. fold rows rest.
      replace (length rows - length rest)%nat with (length (filter (λ r, rb_recording_id (row_info r) = id) rows))
        by (rewrite Hlen; symmetry; apply Nat.add_sub).
      apply unlink_then_computes.
    + eapply backs_rosbags; [done..|]. by rewrite (b_seq _ _ Hb).
    + intros p. by rewrite elem_of_unlink_paths.
Qed.

(** ** Reading *)

Lemma get_rosbag_files_backs code q s : backs q s → follows (get_rosbag_files runs code) q (Rosbags.get_rosbag_files code s) s.
Proof. intros Hb. unfold Rosbags.get_rosbag_files. rewrite (b_bags _ _ Hb). exact (follows_query runs Hruns _ q s Hb). Qed.

Lemma get_all_rosbag_files_backs q s : backs q s → follows (get_all_rosbag_files runs) q (Rosbags.get_all_rosbag_files s) s.
Proof. intros Hb. unfold Rosbags.get_all_rosbag_files. rewrite (b_bags _ _ Hb). exact (follows_query runs Hruns _ q s Hb). Qed.

Lemma get_rosbag_file_backs code q s : backs q s → follows (get_rosbag_file runs code) q (Rosbags.get_rosbag_file code s) s.
Proof.
  intros Hb. destruct (get_rosbag_file_is_newest code s (sok_rosbags _ (b_ok _ _ Hb))) as (-> & _ & _).
  unfold Rosbags.get_rosbag_files. rewrite (b_bags _ _ Hb).
  replace (head _) with (head (row_info <$> take 1 (stable_sort row_gt (filter (λ r, row_code r = code) (t_rosbag_files (q_db q))))))
    by (by destruct (stable_sort _ _)).
  exact (follows_query_bind runs Hruns (λ d, row_info <$> take 1 (stable_sort row_gt (filter (λ r, row_code r = code) (t_rosbag_files d))))
    head q s Hb).
Qed.

Lemma filter_infos id (rows : list RosbagRow) :
  filter (λ i, rb_recording_id i = id) (row_info <$> rows) = row_info <$> filter (λ r, rb_recording_id (row_info r) = id) rows.
Proof. induction rows as [|r rows IH]; [done|]. rewrite fmap_cons, !filter_cons. case_decide; [|done]. by rewrite fmap_cons, IH. Qed.

Lemma str_ltb_le a b : str_ltb b a = false ↔ String.le a b.
Proof.
  unfold str_ltb, String.le, String.ltb, String.leb. rewrite (String.compare_antisym b a). by destruct (String.compare a b).
Qed.

Lemma str_ltb_asym a b : str_ltb a b = true → str_ltb b a = false.
Proof. unfold str_ltb, String.ltb. rewrite (String.compare_antisym b a). by destruct (String.compare a b). Qed.

Lemma get_rosbag_files_by_recording_backs ties ties' id q s :
  backs q s → (∀ l, ties l ≡ₚ l) → (∀ l, ties' l ≡ₚ l) →
  ∃ l, follows (get_rosbag_files_by_recording runs ties id) q l s ∧ l ≡ₚ Rosbags.get_rosbag_files_by_recording ties' id s ∧
    rb_fault_code <$> l = rb_fault_code <$> Rosbags.get_rosbag_files_by_recording ties' id s.
Proof.
  intros Hb H1 H2. eexists. split; [exact (follows_query runs Hruns _ q s Hb)|].
  unfold Rosbags.get_rosbag_files_by_recording. rewrite (b_bags _ _ Hb), filter_infos.
  set (rows := row_info <$> _). split; [by rewrite !stable_sort_perm, H1, H2|].
  apply (stable_sort_keys _ (λ _, True)) with String.le.
  - intros x y _ _. apply str_ltb_asym.
  - intros x y z _ _ _. unfold sort_le. rewrite !str_ltb_le. apply transitivity.
  - apply _.
  - intros x y _ _. apply str_ltb_le.
  - by apply Forall_true.
  - by rewrite H1, H2.
Qed.

End Recordings.
