(* ===== verification/SqliteRefinement.v ===== *)
(** * Either storage backend serves the same interface

    The virtual methods of [FaultStorage] (fault_storage.hpp) as calls, and what
    each backend makes of one.  Any sequence of calls gets the same answers from
    a new database and from a new [InMemoryFaultStorage], and the same bags are
    unlinked. *)

From stdpp Require Import relations.
From S2P Require Import Prelude FaultTypes Debounce FaultEvents Snapshots Rosbags FaultStorage SqlConnection SqliteStorage SqliteSpec SqliteReports SqliteMethods SqliteCaptures SqliteRecordings.
Open Scope Z_scope.

Inductive call :=
  | SetDebounceConfig (c : DebounceConfig)
  | GetDebounceConfig
  | ReportFaultEvent (r : Report)
  | ListFaults (filter_by_severity : bool) (sev : Z) (statuses : list string)
  | GetFault (code : string)
  | ClearFault (code : string)
  | Size
  | Contains (code : string)
  | CheckTimeBasedConfirmation (now : Z)
  | SetMaxSnapshotsPerFault (n : nat)
  | SetMaxRosbagsPerFault (n : nat)
  | SetRetainSnapshotsOnClear (b : bool)
  | RetainsSnapshotsOnClear
  | StoreSnapshots (l : list SnapshotData)
  | GetSnapshots (code topic : string)
  | GetMaxCaptureId
  | StoreFreezeFrame (f : FreezeFrameData)
  | GetFreezeFrame (code : string)
  | SetMaxNearMissesPerFault (n : nat)
  | GetNearMisses (code : string)
  | StoreRosbagFiles (l : list RosbagFileInfo)
  | GetRosbagFile (code : string)
  | GetRosbagFiles (code : string)
  | GetRosbagFilesByRecording (id : string)
  | DeleteRosbagRecording (id : string)
  | DeleteRosbagFile (code : string)
  | DeleteRosbagFiles (codes : list string)
  | GetTotalRosbagStorageBytes
  | GetAllRosbagFiles
  | ListRosbagsForEntity (entity : string)
  | GetAllFaults
  | ReclassifyHealedAsCleared.

Inductive answer :=
  | Done
  | AnswerConfig (c : DebounceConfig)
  | AnswerBool (b : bool)
  | AnswerCount (n : nat)
  | AnswerInt (z : Z)
  | AnswerCodes (l : list string)
  | AnswerFaults (l : list FaultMsg)
  | AnswerFault (o : option FaultMsg)
  | AnswerNearMisses (l : list NearMissRecord)
  | AnswerSnapshots (l : list SnapshotData)
  | AnswerFrame (o : option FreezeFrameData)
  | AnswerBags (l : list RosbagFileInfo)
  | AnswerRecording (l : list RosbagFileInfo)
  | AnswerBag (o : option RosbagFileInfo).

(** The answer, the paths passed to [remove_all], and the state; [ties] is what
    [std::sort] makes of equal elements. *)
Definition memory_call (ties : list RosbagFileInfo → list RosbagFileInfo) (c : call) (s : InMemoryFaultStorage) : answer * list string * InMemoryFaultStorage :=
  match c with
  | SetDebounceConfig c => (Done, [], FaultTypes.set_debounce_config c s)
  | GetDebounceConfig => (AnswerConfig (FaultTypes.get_debounce_config s), [], s)
  | ReportFaultEvent r => (AnswerBool (report r s).1, [], (report r s).2)
  | ListFaults b sev l => (AnswerFaults (FaultEvents.list_faults b sev l s), [], s)
  | GetFault code => (AnswerFault (FaultEvents.get_fault code s), [], s)
  | ClearFault code => (AnswerBool (FaultEvents.clear_fault code s).1, [], (FaultEvents.clear_fault code s).2)
  | Size => (AnswerCount (storage_size s), [], s)
  | Contains code => (AnswerBool (FaultEvents.contains code s), [], s)
  | CheckTimeBasedConfirmation now =>
      (AnswerCodes (FaultEvents.check_time_based_confirmation now s).1, [], (FaultEvents.check_time_based_confirmation now s).2)
  | SetMaxSnapshotsPerFault n => (Done, [], FaultTypes.set_max_snapshots_per_fault n s)
  | SetMaxRosbagsPerFault n => (Done, [], FaultTypes.set_max_rosbags_per_fault n s)
  | SetRetainSnapshotsOnClear b => (Done, [], FaultTypes.set_retain_snapshots_on_clear b s)
  | RetainsSnapshotsOnClear => (AnswerBool (FaultTypes.retains_snapshots_on_clear s), [], s)
  | StoreSnapshots l => (Done, [], Snapshots.store_snapshots l s)
  | GetSnapshots code topic => (AnswerSnapshots (Snapshots.get_snapshots code topic s), [], s)
  | GetMaxCaptureId => (AnswerInt (Snapshots.get_max_capture_id s), [], s)
  | StoreFreezeFrame f => (Done, [], Snapshots.store_freeze_frame f s)
  | GetFreezeFrame code => (AnswerFrame (Snapshots.get_freeze_frame code s), [], s)
  | SetMaxNearMissesPerFault n =>
      (AnswerCount (FaultEvents.set_max_near_misses_per_fault n s).1, [], (FaultEvents.set_max_near_misses_per_fault n s).2)
  | GetNearMisses code => (AnswerNearMisses (FaultEvents.get_near_misses code s), [], s)
  | StoreRosbagFiles l => (Done, (Rosbags.store_rosbag_files l s).1, (Rosbags.store_rosbag_files l s).2)
  | GetRosbagFile code => (AnswerBag (Rosbags.get_rosbag_file code s), [], s)
  | GetRosbagFiles code => (AnswerBags (Rosbags.get_rosbag_files code s), [], s)
  | GetRosbagFilesByRecording id => (AnswerRecording (Rosbags.get_rosbag_files_by_recording ties id s), [], s)
  | DeleteRosbagRecording id =>
      let r := Rosbags.delete_rosbag_recording id s in (AnswerCount r.1.1, r.1.2, r.2)
  | DeleteRosbagFile code => let r := Rosbags.delete_rosbag_file code s in (AnswerBool r.1.1, r.1.2, r.2)
  | DeleteRosbagFiles codes => let r := Rosbags.delete_rosbag_files codes s in (AnswerCount r.1.1, r.1.2, r.2)
  | GetTotalRosbagStorageBytes => (AnswerInt (Rosbags.get_total_rosbag_storage_bytes s), [], s)
  | GetAllRosbagFiles => (AnswerBags (Rosbags.get_all_rosbag_files s), [], s)
  | ListRosbagsForEntity e => (AnswerBags (Rosbags.list_rosbags_for_entity e s), [], s)
  | GetAllFaults => (AnswerFaults (FaultEvents.get_all_faults s), [], s)
  | ReclassifyHealedAsCleared =>
      (AnswerCodes (FaultEvents.reclassify_healed_as_cleared s).1, [], (FaultEvents.reclassify_healed_as_cleared s).2)
  end.

Definition answers {A} (k : A → answer) (m : Sql A) : Sql answer := x ← m; mret (k x).

Definition done_after (m : Sql unit) : Sql answer := answers (λ _, Done) m.

Section Sqlite.
Context (runs : nat → outcome) (scan : gmap string FaultRow → list FaultRow).
Context (tie_snapshots : list SnapshotData → list SnapshotData) (tie_bags : list RosbagFileInfo → list RosbagFileInfo).
Context (json_each : string → option (list string)).

Definition sqlite_call (c : call) : Sql answer :=
  match c with
  | SetDebounceConfig c => done_after (set_debounce_config c)
  | GetDebounceConfig => answers AnswerConfig get_debounce_config
  | ReportFaultEvent r =>
      answers AnswerBool (report_fault_event runs (r_code r) (r_event r) (r_sev r) (r_descr r) (r_source r) (r_time r) (r_cfg r))
  | ListFaults b sev l => answers AnswerFaults (list_faults runs scan b sev l)
  | GetFault code => answers AnswerFault (get_fault runs code)
  | ClearFault code => answers AnswerBool (clear_fault runs code)
  | Size => answers AnswerCount (SqliteStorage.size runs)
  | Contains code => answers AnswerBool (contains runs code)
  | CheckTimeBasedConfirmation now => answers AnswerCodes (check_time_based_confirmation runs scan now)
  | SetMaxSnapshotsPerFault n => done_after (set_max_snapshots_per_fault n)
  | SetMaxRosbagsPerFault n => done_after (set_max_rosbags_per_fault n)
  | SetRetainSnapshotsOnClear b => done_after (set_retain_snapshots_on_clear b)
  | RetainsSnapshotsOnClear => answers AnswerBool retains_snapshots_on_clear
  | StoreSnapshots l => done_after (store_snapshots runs l)
  | GetSnapshots code topic => answers AnswerSnapshots (get_snapshots runs tie_snapshots code topic)
  | GetMaxCaptureId => answers AnswerInt (get_max_capture_id runs)
  | StoreFreezeFrame f => done_after (store_freeze_frame runs f)
  | GetFreezeFrame code => answers AnswerFrame (get_freeze_frame runs code)
  | SetMaxNearMissesPerFault n => answers AnswerCount (set_max_near_misses_per_fault runs n)
  | GetNearMisses code => answers AnswerNearMisses (get_near_misses runs code)
  | StoreRosbagFiles l => done_after (store_rosbag_files runs l)
  | GetRosbagFile code => answers AnswerBag (get_rosbag_file runs code)
  | GetRosbagFiles code => answers AnswerBags (get_rosbag_files runs code)
  | GetRosbagFilesByRecording id => answers AnswerRecording (get_rosbag_files_by_recording runs tie_bags id)
  | DeleteRosbagRecording id => answers AnswerCount (delete_rosbag_recording runs id)
  | DeleteRosbagFile code => answers AnswerBool (delete_rosbag_file runs code)
  | DeleteRosbagFiles codes => answers AnswerCount (delete_rosbag_files runs codes)
  | GetTotalRosbagStorageBytes => answers AnswerInt (get_total_rosbag_storage_bytes runs)
  | GetAllRosbagFiles => answers AnswerBags (get_all_rosbag_files runs)
  | ListRosbagsForEntity e => answers AnswerBags (list_rosbags_for_entity runs json_each e)
  | GetAllFaults => answers AnswerFaults (get_all_faults runs scan)
  | ReclassifyHealedAsCleared => answers AnswerCodes (reclassify_healed_as_cleared runs scan)
  end.

Fixpoint sqlite_run (cs : list call) : Sql (list answer) :=
  match cs with
  | [] => mret []
  | c :: cs' => a ← sqlite_call c; rest ← sqlite_run cs'; mret (a :: rest)
  end.
End Sqlite.

Fixpoint memory_run (ties : list RosbagFileInfo → list RosbagFileInfo) (cs : list call) (s : InMemoryFaultStorage) : list answer * list string * InMemoryFaultStorage :=
  match cs with
  | [] => ([], [], s)
  | c :: cs' =>
      let r := memory_call ties c s in
      let rest := memory_run ties cs' r.2 in
      (r.1.1 :: rest.1.1, r.1.2 ++ rest.1.2, rest.2)
  end.

(** Codes and faults of an unordered scan; snapshots of the same age and bags of
    the same fault in any order; everything else in order. *)
Definition agree (a b : answer) : Prop :=
  match a, b with
  | AnswerCodes l, AnswerCodes k => l ≡ₚ k
  | AnswerFaults l, AnswerFaults k => l ≡ₚ k
  | AnswerSnapshots l, AnswerSnapshots k => l ≡ₚ k ∧ snapshot_age <$> l = snapshot_age <$> k
  | AnswerRecording l, AnswerRecording k => l ≡ₚ k ∧ rb_fault_code <$> l = rb_fault_code <$> k
  | _, _ => a = b
  end.

(** Where the two sources promise the same: configurations as the node accepts
    them; a clear of a known fault, or of one without snapshots; ticks on which
    the two age tests agree; sizes and ids in their ranges; printable sources. *)
Definition call_ok (c : call) (s : InMemoryFaultStorage) : Prop :=
  match c with
  | ReportFaultEvent r => sane (r_cfg r) ∧ cfg_i32 (r_cfg r)
  | ClearFault code =>
      is_Some (faults s !! code) ∨ retain_snapshots_on_clear s = true ∨
      Forall (λ r, snap_fault_code r ≠ code) (snapshots s)
  | CheckTimeBasedConfirmation now => tick_agrees now s
  | SetMaxNearMissesPerFault n => Z.of_nat n ≤ int64_max
  | GetMaxCaptureId => snapshots s = [] ∨ Exists (λ r, 0 ≤ snap_capture_id r) (snapshots s)
  | GetTotalRosbagStorageBytes => sizes_fit (rosbag_files s)
  | ListRosbagsForEntity _ => sources_printable s
  | _ => True
  end.

(** Every call on a state that the calls before it lead to. *)
Fixpoint calls_ok (cs : list call) (s : InMemoryFaultStorage) : Prop :=
  match cs with
  | [] => True
  | c :: cs' => call_ok c s ∧ calls_ok cs' (memory_call id c s).2
  end.

#[global] Instance call_ok_dec c s : Decision (call_ok c s).
Proof.
  destruct c; cbn; try apply _; unfold tick_agrees, sizes_fit, sources_printable, cfg_i32, in_i32; apply _.
Defined.

#[global] Instance calls_ok_dec cs : ∀ s, Decision (calls_ok cs s).
Proof. induction cs as [|c cs IH]; intros s; cbn; apply _. Defined.

Lemma agree_refl a : agree a a.
Proof. destruct a; unfold agree; try split; reflexivity. Qed.

(** The state does not depend on how ties are ordered. *)
Lemma memory_state ties c s : (memory_call ties c s).2 = (memory_call id c s).2.
Proof. by destruct c. Qed.

(** One call of the database next to one call in memory. *)
Definition serves (m : Sql answer) (q : SqliteFaultStorage) (r : answer * list string * InMemoryFaultStorage) : Prop :=
  ∃ a q' l, computes None m q a q' ∧ agree r.1.1 a ∧ backs q' r.2 ∧
    q_unlinked q' = q_unlinked q ++ l ∧ ∀ p, p ∈ l ↔ p ∈ r.1.2.

Lemma serves_follows {A} (m : Sql A) (k : A → answer) q x y s' :
  follows m q x s' → agree (k y) (k x) → serves (answers k m) q (k y, [], s').
Proof.
  intros (q' & Hc & Hb & Hu) Ha. exists (k x), q', []. split_and!; try done.
  - eapply computes_bind; [done|apply computes_ret].
  - by rewrite app_nil_r.
Qed.

Lemma serves_same {A} (m : Sql A) (k : A → answer) q x s' :
  follows m q x s' → serves (answers k m) q (k x, [], s').
Proof. intros H. by apply (serves_follows m k q x x), agree_refl. Qed.

Lemma serves_unlinking {A} (m : Sql A) (k : A → answer) q x gone s' :
  follows_unlinking m q x gone s' → serves (answers k m) q (k x, gone, s').
Proof.
  intros (q' & l & Hc & Hb & Hu & Hl). exists (k x), q', l. split_and!; try done; [|apply agree_refl].
  eapply computes_bind; [done|apply computes_ret].
Qed.

Lemma serves_done m q s' : follows m q tt s' → serves (done_after m) q (Done, [], s').
Proof. intros H. by apply (serves_same m (λ _, Done) q tt). Qed.

Lemma serves_done_unlinking m q gone s' : follows_unlinking m q tt gone s' → serves (done_after m) q (Done, gone, s').
Proof. intros H. by apply (serves_unlinking m (λ _, Done) q tt). Qed.

Lemma asks_follow {A} (f : SqliteFaultStorage → A) q s :
  backs q s → (∀ n, f (at_point n None q) = f q) → follows (ask f) q (f q) s.
Proof. intros Hb Hf. exists q. split_and!; [by apply computes_ask|done|done]. Qed.

Section Serve.
Context (runs : nat → outcome) (Hruns : ∀ n, runs n = Runs).
Context (scan : gmap string FaultRow → list FaultRow) (Hscan : ∀ t, scan t ≡ₚ (map_to_list t).*2).
Context (tie_snapshots : list SnapshotData → list SnapshotData) (tie_bags ties : list RosbagFileInfo → list RosbagFileInfo).
Context (Hsnaps : ∀ l, tie_snapshots l ≡ₚ l) (Hbags : ∀ l, tie_bags l ≡ₚ l) (Hties : ∀ l, ties l ≡ₚ l).
Context (json_each : string → option (list string)) (Hjson : reads_arrays json_each).

Lemma call_serves c q s : backs q s → call_ok c s → serves (sqlite_call runs scan tie_snapshots tie_bags json_each c) q (memory_call ties c s).
Proof.
  intros Hb Hok. destruct c; cbn [sqlite_call memory_call call_ok] in *.
  - apply serves_done. apply (settings_backs q s c 0 false 0 Hb).
  - apply (serves_same get_debounce_config AnswerConfig). unfold FaultTypes.get_debounce_config. rewrite (b_config _ _ Hb). by apply asks_follow.
  - destruct Hok. apply serves_same. by apply report_backs.
  - destruct (list_faults_backs runs Hruns scan Hscan filter_by_severity sev statuses q s Hb) as (l & Hl & Hp).
    symmetry in Hp. by apply (serves_follows _ AnswerFaults q l).
  - by apply serves_same, get_fault_backs.
  - by apply serves_same, clear_fault_backs.
  - by apply serves_same, size_backs.
  - by apply serves_same, contains_backs.
  - destruct (tick_backs runs Hruns scan Hscan now q s Hb Hok) as (l & Hl & Hp). symmetry in Hp. by apply (serves_follows _ AnswerCodes q l).
  - apply serves_done. apply (settings_backs q s default_DebounceConfig n false 0 Hb).
  - apply serves_done. apply (settings_backs q s default_DebounceConfig 0 false n Hb).
  - apply serves_done. apply (settings_backs q s default_DebounceConfig 0 b 0 Hb).
  - apply (serves_same retains_snapshots_on_clear AnswerBool). unfold FaultTypes.retains_snapshots_on_clear. rewrite (b_retain _ _ Hb). by apply asks_follow.
  - by apply serves_done, store_snapshots_backs.
  - destruct (get_snapshots_backs runs Hruns tie_snapshots code topic q s Hb Hsnaps) as (l & Hl & Hp & Hk).
    apply (serves_follows _ AnswerSnapshots q l); [done|]. by split.
  - by apply serves_same, get_max_capture_id_backs.
  - by apply serves_done, store_freeze_frame_backs.
  - by apply serves_same, get_freeze_frame_backs.
  - by apply serves_same, set_max_near_misses_backs.
  - by apply serves_same, get_near_misses_backs.
  - by apply serves_done_unlinking, store_rosbag_files_backs.
  - by apply serves_same, get_rosbag_file_backs.
  - by apply serves_same, get_rosbag_files_backs.
  - destruct (get_rosbag_files_by_recording_backs runs Hruns tie_bags ties id q s Hb Hbags Hties) as (l & Hl & Hp & Hk).
    apply (serves_follows _ AnswerRecording q l); [done|]. by split.
  - by apply serves_unlinking, delete_rosbag_recording_backs.
  - by apply serves_unlinking, delete_rosbag_file_backs.
  - by apply serves_unlinking, delete_rosbag_files_backs.
  - by apply serves_same, total_bytes_backs.
  - by apply serves_same, get_all_rosbag_files_backs.
  - by apply serves_same, list_rosbags_for_entity_backs.
  - destruct (get_all_faults_backs runs Hruns scan Hscan q s Hb) as (l & Hl & Hp). symmetry in Hp. by apply (serves_follows _ AnswerFaults q l).
  - destruct (reclassify_backs runs Hruns scan Hscan q s Hb) as (l & Hl & Hp). symmetry in Hp. by apply (serves_follows _ AnswerCodes q l).
Qed.

Lemma run_serves cs q s :
  backs q s → calls_ok cs s →
  ∃ l q' u, computes None (sqlite_run runs scan tie_snapshots tie_bags json_each cs) q l q' ∧ Forall2 agree (memory_run ties cs s).1.1 l ∧
    backs q' (memory_run ties cs s).2 ∧ q_unlinked q' = q_unlinked q ++ u ∧ ∀ p, p ∈ u ↔ p ∈ (memory_run ties cs s).1.2.
Proof.
  revert q s. induction cs as [|c cs IH]; intros q s Hb Hok.
  { exists [], q, []. split_and!; [apply computes_ret|done|done|by rewrite app_nil_r|done]. }
  destruct Hok as [Hc Hok]. rewrite <-(memory_state ties) in Hok. destruct (call_serves c q s Hb Hc) as (a & q1 & l1 & Hm & Ha & Hb1 & Hu1 & Hl1).
  destruct (IH q1 _ Hb1 Hok) as (l & q2 & l2 & Hr & Hl & Hb2 & Hu2 & Hl2).
  exists (a :: l), q2, (l1 ++ l2). split_and!.
  - eapply computes_bind; [done|]. eapply computes_bind; [done|apply computes_ret].
  - by constructor.
  - done.
  - by rewrite Hu2, Hu1, app_assoc.
  - intros p. cbn [memory_run fst snd]. by rewrite !elem_of_app, Hl1, Hl2.
Qed.

End Serve.

Lemma empty_backs : backs (open_storage current_schema empty_db) empty_storage.
Proof. split; try done; [apply empty_storage_ok|by repeat constructor]. Qed.

(** C4: The database refines the in-memory storage: while statements run, every
    sequence of calls on which the two sources promise the same ([call_ok]: repaired
    configurations, clears of faults that are known or have no captures, ticks on
    which the age tests agree, sizes and ids within 64 bits, printable sources)
    returns on a new database, gets the answers a new [InMemoryFaultStorage] gives
    (lists without an order as permutations, and equal elements of a sorted list in
    any order), and unlinks the same bags; both then hold the same faults,
    snapshots, freeze-frames, near misses and recordings. *)
Theorem sqlite_refines_memory runs scan tie_snapshots tie_bags ties json_each cs :
  (∀ n, runs n = Runs) → (∀ t, scan t ≡ₚ (map_to_list t).*2) →
  (∀ l, tie_snapshots l ≡ₚ l) → (∀ l, tie_bags l ≡ₚ l) → (∀ l, ties l ≡ₚ l) →
  reads_arrays json_each → calls_ok cs empty_storage →
  ∃ l q, sqlite_run runs scan tie_snapshots tie_bags json_each cs (open_storage current_schema empty_db) = (Some l, q) ∧
    Forall2 agree (memory_run ties cs empty_storage).1.1 l ∧
    (∀ p, p ∈ q_unlinked q ↔ p ∈ (memory_run ties cs empty_storage).1.2) ∧
    backs q (memory_run ties cs empty_storage).2.
Proof.
  intros Hruns Hscan Hsnaps Hbags Hties Hjson Hok.
  destruct (run_serves runs Hruns scan Hscan tie_snapshots tie_bags ties Hsnaps Hbags Hties json_each Hjson cs _ _ empty_backs Hok)
    as (l & q & u & Hc & Hl & Hb & Hu & Hp).
  destruct (Hc 0%nat) as [n Hn]. exists l, (at_point n None q). split_and!.
  - exact Hn.
  - done.
  - intros p. rewrite <-Hp. change (q_unlinked (at_point n None q)) with (q_unlinked q). by rewrite Hu.
  - by destruct Hb.
Qed.
