(* ===== verification/SqliteFailures.v ===== *)
(** * Statements that fail

    For any outcome of every statement: no method leaves a transaction open, and
    one that throws leaves the database as it was, except where the source runs
    several statements without a transaction. *)

From stdpp Require Import relations.
From S2P Require Import Prelude FaultTypes Debounce FaultEvents Rosbags SqlConnection SqliteStorage SqliteSpec SqliteRefinement.
Open Scope Z_scope.

(** Statements inside a transaction: its start is remembered, no file goes. *)
Definition inner {A} (m : Sql A) : Prop :=
  ∀ q, q_saved (m q).2 = q_saved q ∧ q_unlinked (m q).2 = q_unlinked q.

(** A method between transactions: it ends between transactions, and if it throws
    the tables are as before and no file is gone. *)
Definition atomic {A} (m : Sql A) : Prop :=
  ∀ q, q_saved q = None →
    q_saved (m q).2 = None ∧ ((m q).1 = None → q_db (m q).2 = q_db q ∧ q_unlinked (m q).2 = q_unlinked q).

(** Reads: no table changes, with or without an exception. *)
Definition reads_only {A} (m : Sql A) : Prop :=
  ∀ q, q_db (m q).2 = q_db q ∧ q_saved (m q).2 = q_saved q ∧ q_unlinked (m q).2 = q_unlinked q.

Lemma inner_bind {A B} (m : Sql A) (f : A → Sql B) : inner m → (∀ x, inner (f x)) → inner (m ≫= f).
Proof.
  intros Hm Hf q. unfold mbind, Sql_bind. specialize (Hm q). destruct (m q) as [[x|] q1]; [|done].
  destruct (Hf x q1) as [E1 E2], Hm as [E3 E4]. cbn in *. by rewrite E1, E2, E3, E4.
Qed.

Lemma reads_bind {A B} (m : Sql A) (f : A → Sql B) : reads_only m → (∀ x, reads_only (f x)) → reads_only (m ≫= f).
Proof.
  intros Hm Hf q. unfold mbind, Sql_bind. specialize (Hm q). destruct (m q) as [[x|] q1]; [|done].
  destruct (Hf x q1) as (E1 & E2 & E3), Hm as (E4 & E5 & E6). cbn in *. by rewrite E1, E2, E3, E4, E5, E6.
Qed.

(** After reads a method may still throw without a change. *)
Lemma atomic_after_reads {A B} (m : Sql A) (f : A → Sql B) : reads_only m → (∀ x, atomic (f x)) → atomic (m ≫= f).
Proof.
  intros Hm Hf q Hq. unfold mbind, Sql_bind. specialize (Hm q). destruct (m q) as [[x|] q1]; cbn in Hm.
  - destruct Hm as (E1 & E2 & E3). specialize (Hf x q1). rewrite E2, E1, E3 in Hf. by apply Hf.
  - destruct Hm as (E1 & E2 & E3). cbn. by rewrite E1, E2, E3.
Qed.

(** Nothing that throws may follow a change. *)
Lemma atomic_then_ret {A B} (m : Sql A) (f : A → B) : atomic m → atomic (x ← m; mret (f x)).
Proof.
  intros Hm q Hq. unfold mbind, Sql_bind. specialize (Hm q Hq). destruct (m q) as [[x|] q1]; cbn in *;
    destruct Hm as [Hs Hn]; split; [done..|]. intros _. by apply Hn.
Qed.

Lemma reads_atomic {A} (m : Sql A) : reads_only m → atomic m.
Proof. intros Hm q Hq. destruct (Hm q) as (E1 & E2 & E3). rewrite E1, E2, E3. by split. Qed.

Lemma reads_ret {A} (x : A) : reads_only (mret x).
Proof. done. Qed.
Lemma inner_ret {A} (x : A) : inner (mret x).
Proof. done. Qed.
Lemma reads_ask {A} (f : SqliteFaultStorage → A) : reads_only (ask f).
Proof. done. Qed.
Lemma reads_inner {A} (m : Sql A) : reads_only m → inner m.
Proof. intros Hm q. by destruct (Hm q) as (_ & ? & ?). Qed.

Section Failures.
Context (runs : nat → outcome) (scan : gmap string FaultRow → list FaultRow).
Context (tie_snapshots : list SnapshotData → list SnapshotData) (tie_bags : list RosbagFileInfo → list RosbagFileInfo).
Context (json_each : string → option (list string)).

Lemma reads_query {A} (f : Db → list A) : reads_only (query runs f).
Proof. intros q. unfold query. by destruct (runs (q_ran q)). Qed.

Lemma inner_execute {A} (f : Db → option (A * Db)) : inner (execute runs f).
Proof. intros q. unfold execute. destruct (runs (q_ran q)), (f (q_db q)) as [[??]|]; done. Qed.

Lemma atomic_execute {A} (f : Db → option (A * Db)) : atomic (execute runs f).
Proof. intros q Hq. unfold execute. destruct (runs (q_ran q)), (f (q_db q)) as [[??]|]; cbn; done. Qed.

(** A transaction is one change. *)
Lemma atomic_transaction {A} (m : Sql A) : inner m → atomic (transaction runs m).
Proof.
  intros Hm q Hq. unfold transaction, mbind, Sql_bind, begin_immediate. destruct (runs (q_ran q)); [|by cbn..].
  unfold or_rollback. set (q1 := with_db (q_db q) (Some (q_db q)) (S (q_ran q)) q).
  destruct (Hm q1) as [E1 E2]. destruct (m q1) as [[x|] q2]; cbn in E1, E2.
  - unfold commit. destruct (runs (q_ran q2)); cbn; rewrite ?E1, ?E2; done.
  - cbn. rewrite E1, E2. done.
Qed.

Create HintDb sql discriminated.
Hint Resolve inner_bind reads_bind reads_ret inner_ret reads_ask reads_inner reads_query inner_execute atomic_execute
  atomic_transaction atomic_after_reads atomic_then_ret reads_atomic : sql.

(** Splits a method at its statements. *)
Ltac sql_steps :=
  repeat first [progress intros | apply inner_bind | apply reads_bind | case_match | progress auto with sql].

Lemma inner_record_near_miss r : inner (record_near_miss_locked runs r).
Proof. unfold record_near_miss_locked. sql_steps. Qed.

Hint Resolve inner_record_near_miss : sql.

Lemma inner_for_all {A} (l : list A) (f : A → Sql unit) : (∀ x, inner (f x)) → inner (for_all l f).
Proof. intros Hf. induction l as [|x l IH]; cbn [for_all]; [apply inner_ret|]. by apply inner_bind. Qed.

Lemma inner_report_locked code ev sev descr src t cfg :
  inner (report_fault_event_locked runs code ev sev descr src t cfg).
Proof. unfold report_fault_event_locked, report_existing, report_new. sql_steps. Qed.

Lemma inner_trim_captures fuel max code newest : inner (trim_captures runs fuel max code newest).
Proof.
  induction fuel as [|fuel IH]; cbn [trim_captures]; [apply inner_ret|]. sql_steps.
Qed.

Lemma inner_store_each infos : inner (store_each runs infos).
Proof. induction infos as [|i infos IH]; cbn [store_each]; [apply inner_ret|]. unfold store_rosbag_file_locked. sql_steps. Qed.

Lemma inner_delete_each codes : inner (delete_each runs codes).
Proof. induction codes as [|c codes IH]; cbn [delete_each]; [apply inner_ret|]. unfold paths_of_fault. sql_steps. Qed.

Hint Resolve inner_for_all inner_report_locked inner_trim_captures inner_store_each inner_delete_each : sql.

Lemma atomic_report code ev sev descr src t cfg : atomic (report_fault_event runs code ev sev descr src t cfg).
Proof.
  unfold report_fault_event. destruct (ev =? EVENT_FAILED) eqn:E; cbn [negb]; [by apply atomic_transaction, inner_report_locked|].
  unfold report_fault_event_locked. rewrite E. cbn [negb]. apply atomic_after_reads; [apply reads_query|].
  intros [|row rows]; [by apply reads_atomic|]. unfold report_existing. cbn [negb]. case_match; [by apply reads_atomic|].
  apply (atomic_then_ret _ (λ _, _)), atomic_execute.
Qed.

Lemma atomic_tick now : atomic (check_time_based_confirmation runs scan now).
Proof.
  unfold check_time_based_confirmation. apply atomic_after_reads; [apply reads_ask|]. intros cfg.
  case_match; [by apply reads_atomic|]. apply atomic_after_reads; [apply reads_query|]. intros l.
  case_match; [by apply reads_atomic|]. apply (atomic_then_ret _ (λ _, _)), atomic_execute.
Qed.

Lemma atomic_store_snapshots snaps : atomic (store_snapshots runs snaps).
Proof.
  unfold store_snapshots. destruct snaps as [|front rest]; [by apply reads_atomic|]. apply atomic_transaction.
  apply inner_bind; [apply inner_for_all; intros x; apply inner_execute|]. sql_steps.
Qed.

Lemma atomic_near_miss_limit n : atomic (set_max_near_misses_per_fault runs n).
Proof.
  unfold set_max_near_misses_per_fault. apply atomic_after_reads; [done|]. intros _. case_match; [by apply reads_atomic|].
  apply atomic_execute.
Qed.

(** The methods of several statements outside a transaction, and those that
    unlink files after theirs. *)
Definition several_steps (c : call) : bool :=
  match c with
  | ClearFault _ | ReclassifyHealedAsCleared | StoreRosbagFiles _ | DeleteRosbagRecording _ | DeleteRosbagFile _
  | DeleteRosbagFiles _ => true
  | _ => false
  end.

Lemma atomic_call c : several_steps c = false → atomic (sqlite_call runs scan tie_snapshots tie_bags json_each c).
Proof.
  intros Hc. destruct c; try discriminate; cbn [sqlite_call]; unfold done_after, answers; apply (atomic_then_ret _ _);
    auto using atomic_report, atomic_tick, atomic_store_snapshots, atomic_near_miss_limit, atomic_execute, reads_atomic, reads_query, reads_ask.
  all: try (apply reads_atomic, reads_bind; [apply reads_query|intros; apply reads_ret]).
  all: try by apply reads_atomic.
  all: first [apply reads_atomic, reads_query | apply atomic_execute].
Qed.

(** A method that ends between transactions. *)
Definition closes {A} (m : Sql A) : Prop := ∀ q, q_saved q = None → q_saved (m q).2 = None.

Lemma closes_bind {A B} (m : Sql A) (f : A → Sql B) : closes m → (∀ x, closes (f x)) → closes (m ≫= f).
Proof.
  intros Hm Hf q Hq. unfold mbind, Sql_bind. specialize (Hm q Hq). destruct (m q) as [[x|] q1]; [|done]. by apply Hf.
Qed.

Lemma atomic_closes {A} (m : Sql A) : atomic m → closes m.
Proof. intros Hm q Hq. by apply Hm. Qed.

Lemma inner_closes {A} (m : Sql A) : inner m → closes m.
Proof. intros Hm q Hq. destruct (Hm q) as [E _]. by rewrite E. Qed.

Lemma closes_ret {A} (x : A) : closes (mret x).
Proof. by intros q Hq. Qed.

Lemma closes_remove_all p : closes (remove_all p).
Proof. by intros q Hq. Qed.

Lemma closes_transaction {A} (m : Sql A) : inner m → closes (transaction runs m).
Proof. intros Hm. by apply atomic_closes, atomic_transaction. Qed.

Lemma closes_unlink X : closes (unlink_unreferenced runs X).
Proof.
  unfold unlink_unreferenced. induction (set_entries X) as [|p l IH]; cbn [for_all]; [apply closes_ret|].
  apply closes_bind; [|by intros _]. apply closes_bind; [|intros []; [apply closes_ret|apply closes_remove_all]].
  apply inner_closes. unfold path_referenced. sql_steps.
Qed.

Hint Resolve closes_unlink : sql.

Lemma call_closes c : closes (sqlite_call runs scan tie_snapshots tie_bags json_each c).
Proof.
  destruct (several_steps c) eqn:E; [|by apply atomic_closes, atomic_call].
  destruct c; try discriminate; cbn [sqlite_call]; unfold done_after, answers; (apply closes_bind; [|intros; apply closes_ret]);
    unfold clear_fault, reclassify_healed_as_cleared, store_rosbag_files, delete_rosbag_recording, delete_rosbag_file,
      delete_rosbag_files, paths_of_fault.
  all: repeat first [apply closes_ret | progress intros | case_match | apply closes_transaction | apply closes_bind | apply closes_unlink
    | apply inner_closes, inner_execute | apply inner_closes, reads_inner, reads_query | apply inner_closes, reads_inner, reads_ask].
  all: auto with sql.
Qed.

(** C5: Whatever statement fails, in whatever way: no method leaves a transaction
    open, and one that throws (a report, a set of snapshots, a freeze-frame, a
    timer, a bound, any query) leaves every table and every file as it was.  The
    exceptions are [clear_fault] and [reclassify_healed_as_cleared], whose two
    statements share no transaction, and the methods that unlink files after
    their commit. *)
Theorem failed_calls_change_nothing c q :
  q_saved q = None →
  let r := sqlite_call runs scan tie_snapshots tie_bags json_each c q in
  q_saved r.2 = None ∧
  (several_steps c = false → r.1 = None → q_db r.2 = q_db q ∧ q_unlinked r.2 = q_unlinked q).
Proof. intros Hq. cbv zeta. split; [by apply call_closes|]. intros Hc. by apply atomic_call. Qed.

End Failures.
