(* ===== verification/SqliteRestart.v ===== *)
(** * Restarts

    Opening a database runs the migrations of every older release.  On a database
    that the current code wrote they change nothing, so what was stored is what a
    restarted process serves. *)

From stdpp Require Import relations.
From S2P Require Import Prelude FaultTypes Debounce FaultEvents Snapshots Rosbags FaultStorage SqlConnection SqliteStorage SqliteSpec SqliteReports SqliteMethods SqliteCaptures SqliteRefinement.
Open Scope Z_scope.

(** The last occurrence is the last FAILED report. *)
Definition stamps_ok (s : InMemoryFaultStorage) : Prop :=
  map_Forall (λ _ st, last_occurred st = last_failed_time st) (faults s).

(** Links carry the recording id of their path where it has one. *)
Definition named (i : RosbagFileInfo) : Prop :=
  rb_recording_id i = "" → rosbag_recording_id (rb_file_path i) = "".

Definition bags_named (rows : list RosbagRow) : Prop := Forall (λ r, named (row_info r)) rows.

(** ** What the code writes *)

Lemma report_stamps r s : stamps_ok s → stamps_ok (report r s).2.
Proof.
  intros Hs c st. rewrite report_faults. destruct (decide (c = r_code r)) as [->|Hne].
  - rewrite lookup_partial_alter_eq. unfold report_entry. destruct (faults s !! r_code r) as [st0|] eqn:E.
    + specialize (Hs _ _ E). unfold reactivate_fault. repeat case_match; intros; simplify_eq; done.
    + unfold new_fault. repeat case_match; intros; simplify_eq; done.
  - rewrite lookup_partial_alter_ne by done. apply Hs.
Qed.

Lemma stamps_update (P : FaultState → bool) x (m : gmap string FaultState) :
  map_Forall (λ _ st, last_occurred st = last_failed_time st) m →
  map_Forall (λ _ st, last_occurred st = last_failed_time st) ((λ st, if P st then with_status x st else st) <$> m).
Proof.
  intros Hm c st. rewrite lookup_fmap. intros (st0 & H0 & ->)%fmap_Some. specialize (Hm _ _ H0). by case_match.
Qed.

Lemma fill_named i : named (fill_recording_id i).
Proof. unfold named, fill_recording_id. case_match; [done|]. apply str_eqb_neq in H. done. Qed.

Lemma upsert_named i a : named i → bags_named (acc_rows a) → bags_named (acc_rows (upsert i a)).
Proof.
  intros Hi Ha. unfold upsert. pose proof (refresh_link_spec i (acc_rows a)) as Hr.
  destruct (refresh_link i (acc_rows a)); cbn.
  - destruct Hr as (l1 & r & l2 & E & _ & ->). unfold bags_named in *. rewrite E in Ha.
    apply Forall_app in Ha as [H1 H2]. apply Forall_cons in H2 as [_ H2]. apply Forall_app_2; [done|by constructor].
  - by apply Forall_app_2; [|repeat constructor].
Qed.

Lemma sublist_named rows rows' : rows' `sublist_of` rows → bags_named rows → bags_named rows'.
Proof. unfold bags_named. rewrite !Forall_forall. intros Hs H r Hr. by eapply H, elem_of_sublist. Qed.

Lemma store_named max infos a : bags_named (acc_rows a) → bags_named (acc_rows (foldl (store_one max) a infos)).
Proof.
  revert a. induction infos as [|i infos IH]; intros a Ha; [done|]. cbn [foldl]. apply IH. unfold store_one.
  eapply sublist_named; [apply trim_sublist|]. by apply upsert_named, Ha; apply fill_named.
Qed.

Lemma delete_rows_named P s : bags_named (rosbag_files s) → bags_named (rosbag_files (delete_rows P s).2).
Proof. cbn. apply sublist_named, sublist_filter. Qed.

Definition written_ok (s : InMemoryFaultStorage) : Prop := stamps_ok s ∧ bags_named (rosbag_files s).

Lemma delete_file_written c s : written_ok s → written_ok (Rosbags.delete_rosbag_file c s).2.
Proof.
  intros [H1 H2]. unfold Rosbags.delete_rosbag_file. pose proof (delete_rows_named (λ r, row_code r =?ₛ c) s H2) as H.
  unfold delete_rows in *. cbn in *. by case_match.
Qed.

Lemma call_written ties c s : written_ok s → written_ok (memory_call ties c s).2.
Proof.
  intros Hw. pose proof Hw as [H1 H2]. destruct c; cbn [memory_call snd]; try done.
  - split; [by apply report_stamps|]. by destruct (report_rest r s) as (_ & _ & -> & _).
  - destruct (clear_memory code s) as (Hf & (_ & _ & Hr & _) & _). split; [|by rewrite Hr]. unfold stamps_ok. rewrite Hf.
    intros c x. destruct (decide (c = code)) as [->|]; [|by rewrite lookup_alter_ne by done; apply H1].
    rewrite lookup_alter_eq. intros (st & Hst & ->)%fmap_Some. by apply (H1 _ _ Hst).
  - unfold FaultEvents.check_time_based_confirmation. case_match; [done|]. split; [by apply stamps_update|done].
  - split; [|by destruct l]. by destruct l.
  - unfold FaultEvents.set_max_near_misses_per_fault. by case_match.
  - unfold Rosbags.store_rosbag_files. destruct l as [|i l]; [done|]. split; [done|]. by apply store_named.
  - unfold Rosbags.delete_rosbag_recording. case_match; [done|]. split; [done|].
    by apply (delete_rows_named (λ r, rb_recording_id (row_info r) =?ₛ id)).
  - by apply delete_file_written.
  - clear H1 H2. revert s Hw. induction codes as [|c codes IH]; intros s Hw; [done|]. cbn [Rosbags.delete_rosbag_files].
    apply (delete_file_written c) in Hw. destruct (Rosbags.delete_rosbag_file c s) as [[ok gone] s1].
    specialize (IH s1 Hw). by destruct (Rosbags.delete_rosbag_files codes s1) as [[n more] s2].
  - destruct (reclassify_memory s) as (Hf & (_ & _ & Hr & _) & _). split; [|by rewrite Hr]. unfold stamps_ok. rewrite Hf.
    by apply stamps_update.
Qed.

Lemma run_written ties cs s : written_ok s → written_ok (memory_run ties cs s).2.
Proof. revert s. induction cs as [|c cs IH]; intros s Hw; [done|]. cbn. by apply IH, call_written. Qed.

(** ** What opening does to it *)

Lemma set_faults_id d : set_faults (t_faults d) d = d.
Proof. by destruct d. Qed.

Lemma repair_keeps d : map_Forall (λ _ r, fr_last_occurred_ns r = fr_last_failed_ns r) (t_faults d) → repair_last_occurred d = d.
Proof.
  intros Hd. unfold repair_last_occurred. rewrite <-(set_faults_id d) at 3. f_equal.
  rewrite <-(map_fmap_id (t_faults d)) at 2. apply map_fmap_ext. intros c r Hr. cbn. specialize (Hd _ _ Hr). cbn in Hd.
  rewrite Hd, Z.ltb_irrefl, andb_false_r. done.
Qed.

Lemma recording_ids_keep d : bags_named (t_rosbag_files d) → migrate_rosbag_files_add_recording_id current_schema d = d.
Proof.
  intros Hd. unfold migrate_rosbag_files_add_recording_id. cbn [has_recording_id current_schema orb].
  replace (_ <$> t_rosbag_files d) with (t_rosbag_files d); [by destruct d|]. symmetry.
  unfold bags_named in Hd. induction Hd as [|r rows Hr Hrows IH]; [done|]. rewrite fmap_cons, IH. f_equal.
  case_match eqn:E; [|done]. apply str_eqb_eq in E. specialize (Hr E). unfold row_path. rewrite Hr.
  destruct r as [[] seq]. cbn in *. by subst.
Qed.

Lemma dedupe_keeps d : rows_ok (t_rosbag_files d) (rosbag_file_seq d) → dedupe_links d = d.
Proof.
  intros Hok. unfold dedupe_links. rewrite filter_all; [by destruct d|]. intros r Hr. apply Forall_forall. intros r' Hr' Hlink.
  by rewrite (NoDup_fmap_elem row_link _ r' r (rok_links _ _ Hok) Hr' Hr Hlink).
Qed.

Lemma initialize_keeps q s : backs q s → written_ok s → initialize_schema current_schema (q_db q) = q_db q.
Proof.
  intros Hb [H1 H2]. unfold initialize_schema. cbn [has_confirmed_at has_capture_id has_resulting_status current_schema].
  unfold migrate_rosbag_files_drop_unique. cbn [rosbag_unique current_schema]. rewrite repair_keeps.
  - rewrite recording_ids_keep, dedupe_keeps; [done| |].
    + rewrite <-(b_bags _ _ Hb), <-(b_seq _ _ Hb). apply (sok_rosbags _ (b_ok _ _ Hb)).
    + by rewrite <-(b_bags _ _ Hb).
  - intros c r Hr. apply (H1 c (state_of r)). by rewrite (b_faults _ _ Hb), lookup_fmap, Hr.
Qed.

(** The settings of a new object over the data of an old one. *)
Definition restarted (s : InMemoryFaultStorage) : InMemoryFaultStorage :=
  mkStorage (faults s) (snapshots s) (freeze_frames s) (rosbag_files s) (rosbag_seq s) 1 (near_misses s)
    default_DebounceConfig 0 false 0.

Lemma reopened_backs q s : backs q s → written_ok s → backs (open_storage current_schema (q_db q)) (restarted s).
Proof.
  intros Hb Hw. pose proof (initialize_keeps q s Hb Hw) as E. destruct Hb as [Hok]. split; cbn [open_storage q_db]; rewrite ?E; try done.
  destruct Hok as [[He1 He2] Hr Hf]. split; [|done|done]. split; [done|]. intros c. destruct (He2 c) as [Hc _]. split; [done|].
  cbn. lia.
Qed.

Lemma restarted_written s : written_ok s → written_ok (restarted s).
Proof. done. Qed.

Lemma run_state ties cs s : (memory_run ties cs s).2 = (memory_run id cs s).2.
Proof. revert s. induction cs as [|c cs IH]; intros s; [done|]. cbn. by rewrite memory_state, IH. Qed.

(** ** Sessions: a process opens the file, serves calls and ends *)

Fixpoint sqlite_sessions (runs : nat → outcome) (scan : gmap string FaultRow → list FaultRow)
    (tie_snapshots : list SnapshotData → list SnapshotData) (tie_bags : list RosbagFileInfo → list RosbagFileInfo)
    (json_each : string → option (list string)) (sessions : list (list call)) (d : Db) : list (option (list answer)) :=
  match sessions with
  | [] => []
  | cs :: later =>
      let r := sqlite_run runs scan tie_snapshots tie_bags json_each cs (open_storage current_schema d) in
      r.1 :: sqlite_sessions runs scan tie_snapshots tie_bags json_each later (q_db r.2)
  end.

(** A storage that survives every restart, but for its settings. *)
Fixpoint memory_sessions (ties : list RosbagFileInfo → list RosbagFileInfo) (sessions : list (list call))
    (s : InMemoryFaultStorage) : list (list answer) :=
  match sessions with
  | [] => []
  | cs :: later =>
      let r := memory_run ties cs (restarted s) in r.1.1 :: memory_sessions ties later r.2
  end.

Fixpoint sessions_ok (sessions : list (list call)) (s : InMemoryFaultStorage) : Prop :=
  match sessions with
  | [] => True
  | cs :: later => calls_ok cs (restarted s) ∧ sessions_ok later (memory_run id cs (restarted s)).2
  end.

#[global] Instance sessions_ok_dec sessions : ∀ s, Decision (sessions_ok sessions s).
Proof. induction sessions as [|cs later IH]; intros s; cbn; apply _. Defined.

Section Sessions.
Context (runs : nat → outcome) (Hruns : ∀ n, runs n = Runs).
Context (scan : gmap string FaultRow → list FaultRow) (Hscan : ∀ t, scan t ≡ₚ (map_to_list t).*2).
Context (tie_snapshots : list SnapshotData → list SnapshotData) (tie_bags ties : list RosbagFileInfo → list RosbagFileInfo).
Context (Hsnaps : ∀ l, tie_snapshots l ≡ₚ l) (Hbags : ∀ l, tie_bags l ≡ₚ l) (Hties : ∀ l, ties l ≡ₚ l).
Context (json_each : string → option (list string)) (Hjson : reads_arrays json_each).

Lemma sessions_serve sessions q s :
  backs q s → written_ok s → sessions_ok sessions s →
  Forall2 (λ expected got, ∃ l, got = Some l ∧ Forall2 agree expected l) (memory_sessions ties sessions s)
    (sqlite_sessions runs scan tie_snapshots tie_bags json_each sessions (q_db q)).
Proof.
  revert q s. induction sessions as [|cs later IH]; intros q s Hb Hw Hok; cbn [memory_sessions sqlite_sessions]; [constructor|].
  destruct Hok as [Hok Hlater].
  destruct (run_serves runs Hruns scan Hscan tie_snapshots tie_bags ties Hsnaps Hbags Hties json_each Hjson cs _ _
    (reopened_backs q s Hb Hw) Hok) as (l & q' & u & Hc & Hl & Hb' & _).
  destruct (Hc 0%nat) as [n Hn]. change (at_point 0 None _) with (open_storage current_schema (q_db q)) in Hn. rewrite Hn.
  constructor; [by exists l|]. cbn [snd]. change (q_db (at_point n None q')) with (q_db q'). apply IH; [done| |].
  - by apply run_written, restarted_written.
  - by rewrite run_state.
Qed.
End Sessions.

(** C6: Nothing is lost over restarts: however many processes open one database
    file after the other, each with calls on which the two sources promise the same
    ([call_ok]) and statements that run, every call of every process gets the
    answer of an in-memory storage that lives through all of them and only has its
    settings back at their defaults after each restart.  The repairs and the
    migrations that opening runs on a file of the present schema change nothing. *)
Theorem restart_keeps_everything runs scan tie_snapshots tie_bags ties json_each sessions :
  (∀ n, runs n = Runs) → (∀ t, scan t ≡ₚ (map_to_list t).*2) →
  (∀ l, tie_snapshots l ≡ₚ l) → (∀ l, tie_bags l ≡ₚ l) → (∀ l, ties l ≡ₚ l) →
  reads_arrays json_each → sessions_ok sessions empty_storage →
  Forall2 (λ expected got, ∃ l, got = Some l ∧ Forall2 agree expected l)
    (memory_sessions ties sessions empty_storage)
    (sqlite_sessions runs scan tie_snapshots tie_bags json_each sessions empty_db).
Proof.
  intros Hruns Hscan Hsnaps Hbags Hties Hjson Hok.
  apply (sessions_serve runs Hruns scan Hscan tie_snapshots tie_bags ties Hsnaps Hbags Hties json_each Hjson sessions
    (open_storage current_schema empty_db)); [exact empty_backs| |exact Hok].
  split; [by apply map_Forall_empty|constructor].
Qed.
