(* ===== verification/BagRules.v ===== *)
(** * Rules of the black-box recorder

    The parts of rosbag_capture.cpp that compute without touching the recording:
    topic selection, the entity filter, pruning of the ring buffer, the history a
    bag may claim, bag names and the eviction of old bags.  The ROS graph is an
    argument. *)

From S2P Require Import Prelude FaultTypes FaultEvents Rosbags.
Open Scope Z_scope.

Record BufferedMessage := mkMessage {
  bm_topic : string;
  bm_message_type : string;
  bm_serialized_data : string;
  bm_timestamp_ns : Z;
}.

Record RosbagConfig := mkRosbagConfig {
  rg_enabled : bool;
  rg_duration_sec : double;
  rg_duration_after_sec : double;
  rg_topics : string;
  rg_include_topics : list string;
  rg_exclude_topics : list string;
  rg_exclude_sensor_topics : bool;
  rg_lazy_start : bool;
  rg_format : string;
  rg_storage_path : string;
  rg_max_total_storage_mb : Z;
  rg_max_buffer_mb : Z;
  rg_max_bags_per_fault : Z;
  rg_auto_cleanup : bool;
}.

Definition with_backend (enabled : bool) (format : string) (c : RosbagConfig) : RosbagConfig :=
  mkRosbagConfig enabled (rg_duration_sec c) (rg_duration_after_sec c) (rg_topics c) (rg_include_topics c)
    (rg_exclude_topics c) (rg_exclude_sensor_topics c) (rg_lazy_start c) format (rg_storage_path c)
    (rg_max_total_storage_mb c) (rg_max_buffer_mb c) (rg_max_bags_per_fault c) (rg_auto_cleanup c).

(** The topics of the snapshot configuration. *)
Record SnapshotTopics := mkSnapshotTopics {
  sc_default_topics : list string;
  sc_fault_specific : gmap string (list string);
  sc_patterns : gmap string (list string);
}.

(** ** Storage backend *)

(** [probe format]: the reason the backend cannot be used. *)
Definition resolve_backend (probe : string → option string) (c : RosbagConfig) : RosbagConfig :=
  if negb (rg_enabled c) then c
  else
    let format := if negb (rg_format c =?ₛ "sqlite3") && negb (rg_format c =?ₛ "mcap") then "sqlite3" else rg_format c in
    match probe format with
    | None => with_backend true format c
    | Some _ =>
        let other := if format =?ₛ "sqlite3" then "mcap" else "sqlite3" in
        match probe other with
        | Some _ => with_backend false format c
        | None => with_backend true other c
        end
    end.

(** ** Topics *)

(** [s.find(needle) != npos] *)
Fixpoint contains (needle s : string) : bool :=
  String.prefix needle s || match s with "" => false | String _ s' => contains needle s' end.

Definition is_high_bandwidth_topic (topic : string) : bool :=
  existsb (λ seg, contains seg topic) ["/image"; "/points"; "/depth"; "/compressed"].

(** Topics and the (name, namespace) of the nodes at their ends. *)
Record Graph := mkGraph {
  g_topics : list string;
  g_publishers : string → list (string * string);
  g_subscribers : string → list (string * string);
}.

Fixpoint getline_comma (acc s : string) : list string :=
  match s with
  | "" => [acc]
  | String c s' => if Ascii.eqb c "," then acc :: getline_comma "" s' else getline_comma (acc +:+ String c "") s'
  end.

Definition is_blank (c : ascii) : bool := Ascii.eqb c " " || Ascii.eqb c (ascii_of_nat 9).

Fixpoint trim_front (l : list ascii) : list ascii :=
  match l with c :: l' => if is_blank c then trim_front l' else l | [] => [] end.

Definition trim (s : string) : string :=
  String.string_of_list_ascii (rev (trim_front (rev (trim_front (String.list_ascii_of_string s))))).

Definition broad_mode (mode : string) : bool := (mode =?ₛ "all") || (mode =?ₛ "auto") || (mode =?ₛ "entity").

(** [graph]: [None] when the context is gone and the call throws. *)
Definition selected_topics (c : RosbagConfig) (snapshot : SnapshotTopics) (graph : option Graph) : list string :=
  if rg_topics c =?ₛ "config" then
    sc_default_topics snapshot ++ concat (map_entries (sc_fault_specific snapshot)).*2 ++
    concat (map_entries (sc_patterns snapshot)).*2
  else if broad_mode (rg_topics c) then
    match graph with
    | None => []
    | Some g =>
        filter (λ t, negb (contains "/parameter_events" t || contains "/rosout" t) &&
                     negb (rg_exclude_sensor_topics c && is_high_bandwidth_topic t) = true) (g_topics g)
    end
  else if rg_topics c =?ₛ "explicit" then []
  else filter (λ t, t ≠ "") (trim <$> getline_comma "" (rg_topics c)).

Definition resolve_topics (c : RosbagConfig) (snapshot : SnapshotTopics) (graph : option Graph) : gset string :=
  (list_to_set (selected_topics c snapshot graph) ∪ list_to_set (rg_include_topics c)) ∖ list_to_set (rg_exclude_topics c).

(** ** Entity scope *)

Fixpoint split_source (l : list ascii) : list ascii * list ascii :=
  match l with
  | [] => ([], [])
  | c :: l' => if Ascii.eqb c slash then ([], l') else let '(name, ns) := split_source l' in (c :: name, ns)
  end.

(** (name, namespace) of a fully qualified node name. *)
Definition node_of_source (source : string) : string * string :=
  let chars := String.list_ascii_of_string source in
  if existsb (λ c, Ascii.eqb c slash) chars then
    let '(name, ns) := split_source (rev chars) in
    (String.string_of_list_ascii (rev name),
     match ns with [] => "/" | _ => String.string_of_list_ascii (rev ns) end)
  else (source, "/").

Definition compute_entity_topics (c : RosbagConfig) (snapshot : SnapshotTopics) (fault : option FaultMsg)
    (graph : option Graph) : gset string :=
  match fault, graph with
  | Some f, Some g =>
      if bool_decide (msg_reporting_sources f = []) then ∅
      else
        let wanted := filter (λ n, n.1 ≠ "") (node_of_source <$> msg_reporting_sources f) in
        let owned := existsb (λ ep, bool_decide (ep ∈ wanted)) in
        let topics : gset string :=
          list_to_set (filter (λ t, owned (g_publishers g t) || owned (g_subscribers g t) = true) (g_topics g)) in
        let topics := if bool_decide (topics = ∅) then topics else topics ∪ {[ "/tf"; "/tf_static" ]} in
        topics ∩ resolve_topics c snapshot graph
  | _, _ => ∅
  end.

Definition should_capture_topic (filter_ : gset string) (topic : string) : bool :=
  bool_decide (filter_ = ∅) || bool_decide (topic ∈ filter_).

(** ** Ring buffer *)

Definition message_size (m : BufferedMessage) : Z := Z.of_nat (String.length (bm_serialized_data m)).

Definition sum_sizes (l : list BufferedMessage) : Z := foldr (λ m n, message_size m + n) 0 l.

(** [while (!empty() && front().timestamp_ns < cutoff_ns)] *)
Fixpoint drop_older (cutoff : Z) (l : list BufferedMessage) (bytes : Z) : list BufferedMessage * Z :=
  match l with
  | m :: l' => if bm_timestamp_ns m <? cutoff then drop_older cutoff l' (bytes - message_size m) else (l, bytes)
  | [] => ([], bytes)
  end.

(** [while (size() > 1 && buffer_bytes_ > cap_bytes)] *)
Fixpoint drop_over_cap (cap : Z) (l : list BufferedMessage) (bytes : Z) : list BufferedMessage * Z :=
  match l with
  | m :: (_ :: _) as l' => if cap <? bytes then drop_over_cap cap l' (bytes - message_size m) else (l, bytes)
  | _ => (l, bytes)
  end.

Definition seconds_to_ns (sec : double) : Z := f64_trunc (f64_mul sec (f64_of_Z 1000000000)).

Definition prune (c : RosbagConfig) (now : Z) (l : list BufferedMessage) (bytes : Z) : list BufferedMessage * Z :=
  let '(l, bytes) := drop_older (now - seconds_to_ns (rg_duration_sec c)) l bytes in
  drop_over_cap (wrap_u64 (rg_max_buffer_mb c * 1024 * 1024)) l bytes.

(** ** Clocks *)


Definition difference (lhs rhs : Z) : Z :=
  if (rhs <? 0) && (int64_max + rhs <? lhs) then int64_max
  else if (0 <? rhs) && (lhs <? int64_min + rhs) then int64_min
  else lhs - rhs.

Definition bounded_history_ns (now_wall oldest_msg_wall now_steady capture_started : Z) : Z :=
  let uptime := Z.max 0 (difference now_steady capture_started) in
  Z.min (Z.max (difference now_wall oldest_msg_wall) 0) uptime.

Definition span_sec_since (started_at now : Z) : double :=
  if started_at <=? 0 then f64_zero
  else
    let span := f64_div (f64_of_Z (now - started_at)) (f64_of_Z 1000000000) in
    if SFltb f64_zero span then span else f64_zero.

(** ** Bag names *)

Definition fnv1a (text : string) : Z :=
  foldl (λ h c, wrap_u64 (Z.lxor h (Z.of_N (N_of_ascii c)) * 1099511628211)) 14695981039346656037
    (String.list_ascii_of_string text).

Definition hex_digit (d : Z) : ascii := ascii_of_N (Z.to_N (if d <? 10 then 48 + d else 87 + d)).

(** [width] hex digits, most significant first. *)
Fixpoint hex (width : nat) (n : Z) : string :=
  match width with
  | O => ""
  | S w => hex w (n / 16) +:+ String (hex_digit (n mod 16)) ""
  end.

Definition fnv1a_hex (text : string) : string := hex 16 (fnv1a text).

Definition kNameMax : nat := 255.
Definition kWriterSuffixBudget : nat := 12.
Definition kDigestFieldWidth : nat := 17.

Definition bag_directory_name (fault_code : string) (timestamp_ms : Z) : string :=
  let suffix := "_" +:+ pretty timestamp_ms in
  let fixed := (String.length "fault_" + String.length suffix + kWriterSuffixBudget)%nat in
  let code_budget := (kNameMax - fixed)%nat in
  if (String.length fault_code <=? code_budget)%nat then "fault_" +:+ fault_code +:+ suffix
  else
    let kept := (code_budget - kDigestFieldWidth)%nat in
    "fault_" +:+ String.substring 0 kept fault_code +:+ "_" +:+ fnv1a_hex fault_code +:+ suffix.

(** [temp]: the system's directory for temporary files. *)
Definition generate_bag_path (c : RosbagConfig) (temp fault_code : string) (timestamp_ms : Z) : string :=
  (if rg_storage_path c =?ₛ "" then temp else rg_storage_path c) +:+ "/" +:+ bag_directory_name fault_code timestamp_ms.

(** ** Eviction *)

(** Paths in the order of their oldest rows, with the recording id of that row
    and the largest size of a row. *)
Definition group_bags (files : list RosbagFileInfo) : list (string * (string * Z)) :=
  foldl (λ bags f,
    match list_find (λ b, b.1 = rb_file_path f) bags with
    | Some (i, (p, (rid, bytes))) => <[i := (p, (rid, Z.max bytes (rb_size_bytes f)))]> bags
    | None => bags ++ [(rb_file_path f, (rb_recording_id f, Z.max 0 (rb_size_bytes f)))]
    end) [] files.

(** The bags that go: (recording id, path). *)
Fixpoint eviction_plan (max_bytes current : Z) (bags : list (string * (string * Z))) : list (string * string) :=
  match bags with
  | [] => []
  | (path, (rid, bytes)) :: bags' =>
      if current <=? max_bytes then []
      else (rid, path) :: eviction_plan max_bytes (current - Z.min current bytes) bags'
  end.

Definition evictions (max_bytes : Z) (s : InMemoryFaultStorage) : list (string * string) :=
  let current := get_total_rosbag_storage_bytes s in
  if current <=? max_bytes then [] else eviction_plan max_bytes current (group_bags (get_all_rosbag_files s)).

Definition evict (s : list string * InMemoryFaultStorage) (bag : string * string) : list string * InMemoryFaultStorage :=
  let '(_, gone, s') := delete_rosbag_recording bag.1 s.2 in (s.1 ++ gone, s').

(** The evicted paths, what was unlinked, and the table left. *)
Definition evict_bags_over_quota (max_bytes : Z) (s : InMemoryFaultStorage)
    : list string * (list string * InMemoryFaultStorage) :=
  let plan := evictions max_bytes s in (plan.*2, foldl evict ([], s) plan).

Definition quota_bytes (c : RosbagConfig) : Z := wrap_u64 (rg_max_total_storage_mb c * 1024 * 1024).
