(* ===== verification/BagRulesSpec.v ===== *)
(** * What the recorder's rules guarantee *)

From stdpp Require Import pretty.
From S2P Require Import Prelude FaultTypes FaultEvents Rosbags BagRules.
Open Scope Z_scope.

(** ** The ring buffer *)

Lemma drop_older_spec cutoff l bytes :
  let '(l', bytes') := drop_older cutoff l bytes in
  ∃ k, l' = drop k l ∧ bytes' = bytes - sum_sizes (take k l) ∧ Forall (λ m, bm_timestamp_ns m < cutoff) (take k l) ∧
    (∀ m, head l' = Some m → cutoff ≤ bm_timestamp_ns m).
Proof.
  revert bytes. induction l as [|m l IH]; intros bytes; cbn [drop_older].
  - exists 0%nat. split_and!; [done|cbn; lia|constructor|done].
  - destruct (bm_timestamp_ns m <? cutoff) eqn:E.
    + apply Z.ltb_lt in E. specialize (IH (bytes - message_size m)). destruct (drop_older _ _ _) as [l' bytes'].
      destruct IH as (k & -> & -> & Hold & Hhead). exists (S k). split_and!; [done|unfold sum_sizes; cbn [take foldr]; lia|by constructor|done].
    + apply Z.ltb_ge in E. exists 0%nat. split_and!; [done|cbn; lia|constructor|]. cbn. by intros ? [= <-].
Qed.

Lemma drop_over_cap_spec cap l bytes :
  let '(l', bytes') := drop_over_cap cap l bytes in
  ∃ k, l' = drop k l ∧ bytes' = bytes - sum_sizes (take k l) ∧ (bytes' ≤ cap ∨ (length l' ≤ 1)%nat) ∧
    ∀ j, (j < k)%nat → cap < bytes - sum_sizes (take j l).
Proof.
  revert bytes. induction l as [|m l IH]; intros bytes; cbn [drop_over_cap].
  - exists 0%nat. split_and!; [done|cbn; lia|right; cbn; lia|lia].
  - destruct l as [|m' l]; [exists 0%nat; split_and!; [done|cbn; lia|right; cbn; lia|lia]|].
    destruct (cap <? bytes) eqn:E.
    + apply Z.ltb_lt in E. specialize (IH (bytes - message_size m)). destruct (drop_over_cap _ _ _) as [l' bytes'].
      destruct IH as (k & -> & -> & Hend & Hmin). exists (S k). split_and!; [done|unfold sum_sizes; cbn [take foldr]; lia|done|].
      intros [|j] Hj; [cbn; lia|]. specialize (Hmin j ltac:(lia)). unfold sum_sizes in *.
      change (take (S j) (m :: m' :: l)) with (m :: take j (m' :: l)). cbn [foldr]. lia.
    + apply Z.ltb_ge in E. exists 0%nat. split_and!; [done|cbn; lia|left; lia|lia].
Qed.

Lemma sum_sizes_app l k : sum_sizes (l ++ k) = sum_sizes l + sum_sizes k.
Proof. unfold sum_sizes. rewrite foldr_app. induction l as [|m l IH]; cbn [foldr]; lia. Qed.

(** Pruning drops a prefix: first what is older than the window, then what
    exceeds the cap, never the newest message, and keeps the byte count exact. *)
Lemma prune_spec c now l :
  let cutoff := now - seconds_to_ns (rg_duration_sec c) in
  let cap := wrap_u64 (rg_max_buffer_mb c * 1024 * 1024) in
  let '(l', bytes) := prune c now l (sum_sizes l) in
  ∃ k, l' = drop k l ∧ bytes = sum_sizes l' ∧ (bytes ≤ cap ∨ (length l' ≤ 1)%nat) ∧
    ∀ j m, (j < k)%nat → l !! j = Some m → bm_timestamp_ns m < cutoff ∨ cap < sum_sizes (drop j l).
Proof.
  cbv zeta. unfold prune. pose proof (drop_older_spec (now - seconds_to_ns (rg_duration_sec c)) l (sum_sizes l)) as H.
  destruct (drop_older _ _ _) as [l1 b1]. destruct H as (k1 & -> & -> & Hold & _).
  pose proof (drop_over_cap_spec (wrap_u64 (rg_max_buffer_mb c * 1024 * 1024)) (drop k1 l) (sum_sizes l - sum_sizes (take k1 l))) as H.
  destruct (drop_over_cap _ _ _) as [l2 b2]. destruct H as (k2 & -> & -> & Hend & Hmin).
  assert (∀ j (k : list BufferedMessage), sum_sizes k - sum_sizes (take j k) = sum_sizes (drop j k)) as Hsum.
  { intros j k. rewrite <-(take_drop j k) at 1. rewrite sum_sizes_app. lia. }
  rewrite !Hsum in *. exists (k1 + k2)%nat. rewrite drop_drop in *. split_and!; [done|done|done|].
  intros j m Hj Hm. destruct (decide (j < k1)%nat) as [Hlt|Hge].
  - left. rewrite Forall_lookup in Hold. apply (Hold j). by rewrite lookup_take_lt by lia.
  - right. specialize (Hmin (j - k1)%nat ltac:(lia)). rewrite Hsum, drop_drop in Hmin. by replace (k1 + (j - k1))%nat with j in Hmin by lia.
Qed.

(** ** Claimed history *)

Definition in_i64 (z : Z) : Prop := int64_min ≤ z ≤ int64_max.

(** The difference of two clock readings, brought into range; never more history
    than the capture has been running. *)
Lemma bounded_history_spec now_wall oldest now_steady started :
  in_i64 now_wall → in_i64 oldest → in_i64 now_steady → in_i64 started →
  let uptime := Z.min (Z.max 0 (now_steady - started)) int64_max in
  bounded_history_ns now_wall oldest now_steady started = Z.min (Z.max 0 (now_wall - oldest)) uptime.
Proof.
  unfold in_i64, bounded_history_ns, difference, int64_min, int64_max. intros H1 H2 H3 H4. cbv zeta.
  repeat case_match; bool_simpl; lia.
Qed.

(** ** Bag names *)

Lemma length_pretty_go k n s : (n < 10 ^ N.of_nat k)%N → (String.length (pretty_N_go n s) ≤ k + String.length s)%nat.
Proof.
  revert n s. induction k as [|k IH]; intros n s Hn.
  - replace n with 0%N by (cbn in Hn; lia). by rewrite pretty_N_go_0.
  - assert (n = 0 ∨ 0 < n)%N as [->|Hpos] by lia; [rewrite pretty_N_go_0; lia|]. rewrite pretty_N_go_step by done.
    etransitivity; [apply IH|cbn; lia]. apply N.Div0.div_lt_upper_bound. by rewrite <-N.pow_succ_r', <-Nat2N.inj_succ.
Qed.

Lemma length_pretty_N n k : (n < 10 ^ N.of_nat k)%N → (1 ≤ k)%nat → (String.length (pretty n) ≤ k)%nat.
Proof.
  intros Hn Hk. unfold pretty, pretty_N. case_decide; [cbn; lia|]. etransitivity; [by apply length_pretty_go|cbn; lia].
Qed.

Lemma length_pretty_Z z : in_i64 z → (String.length (pretty z) ≤ 20)%nat.
Proof.
  unfold in_i64, int64_min, int64_max. intros Hz. destruct z as [|p|p].
  - cbn. lia.
  - change (String.length (pretty (N.pos p)) ≤ 20)%nat. etransitivity; [apply (length_pretty_N _ 19)|]; lia.
  - change (S (String.length (pretty (N.pos p))) ≤ 20)%nat.
    assert (String.length (pretty (N.pos p)) ≤ 19)%nat by (apply (length_pretty_N _ 19); lia). lia.
Qed.

Lemma length_hex w n : String.length (hex w n) = w.
Proof. revert n. induction w as [|w IH]; intros n; [done|]. cbn [hex]. rewrite length_append, IH. cbn. lia. Qed.

Lemma length_substring k s : (k ≤ String.length s)%nat → String.length (String.substring 0 k s) = k.
Proof. revert s. induction k as [|k IH]; intros [|c s] Hk; cbn in *; try done; try lia. rewrite IH; lia. Qed.

(** A bag's directory leaves the writer room for its file names, whatever the
    length of the fault code. *)
Lemma bag_name_fits code timestamp :
  in_i64 timestamp → (String.length (bag_directory_name code timestamp) + kWriterSuffixBudget ≤ kNameMax)%nat.
Proof.
  intros Ht. pose proof (length_pretty_Z timestamp Ht) as Hp. unfold bag_directory_name, kNameMax, kWriterSuffixBudget, kDigestFieldWidth.
  set (suffix := "_" +:+ pretty timestamp). assert (String.length suffix = S (String.length (pretty timestamp))) as Hs by done.
  case_match eqn:E; rewrite !length_append; cbn [String.length] in *.
  - apply Nat.leb_le in E. lia.
  - apply Nat.leb_gt in E. unfold fnv1a_hex. rewrite length_hex, length_substring by lia. lia.
Qed.

(** Two codes share a directory only if both names were shortened to the same
    text, which takes one digest, or one code spells the other's short form. *)
Definition short_form (code : string) (timestamp : Z) : string :=
  let budget := (kNameMax - (String.length "fault_" + String.length ("_" +:+ pretty timestamp) + kWriterSuffixBudget))%nat in
  if (String.length code <=? budget)%nat then code
  else String.substring 0 (budget - kDigestFieldWidth) code +:+ "_" +:+ fnv1a_hex code.

Lemma append_assoc (a b c : string) : (a +:+ b) +:+ c = a +:+ (b +:+ c).
Proof. induction a as [|x a IH]; [done|]. exact (f_equal (String x) IH). Qed.

Lemma append_cancel_r (a b s : string) : a +:+ s = b +:+ s → a = b.
Proof.
  intros H. assert (String.length a = String.length b) as Hl by (apply (f_equal String.length) in H; rewrite !length_append in H; lia).
  revert b Hl H. induction a as [|x a IH]; intros [|y b] Hl H; try done.
  injection Hl as Hl. injection H as -> H. f_equal. by apply IH.
Qed.

Lemma bag_names_apart code code' timestamp :
  bag_directory_name code timestamp = bag_directory_name code' timestamp ↔ short_form code timestamp = short_form code' timestamp.
Proof.
  assert (∀ c, bag_directory_name c timestamp = "fault_" +:+ short_form c timestamp +:+ "_" +:+ pretty timestamp) as Heq.
  { intros c. unfold bag_directory_name, short_form. case_match; [done|]. by rewrite !append_assoc. }
  rewrite !Heq. split; [|by intros ->]. intros H%(inj (String.append "fault_")). by eapply append_cancel_r.
Qed.
