(* ===== verification/RosbagCapture.v ===== *)
(** * The black-box recorder

    [RosbagCapture] (rosbag_capture.cpp): ring buffer, writer, post-fault
    recording, and the rows it leaves in the storage.  Methods are split where
    they release a mutex.  Two threads run them: the executor (messages, the
    post-fault timer, clears, start and stop), one callback at a time, and the
    capture pool, whose confirmations the node serialises.  The bags on disk are
    part of the state; clocks, the outcome of I/O and the ROS graph are chosen by
    the environment.

    Failures that the recorder reports and handles (a writer that does not open or
    write, a store that refuses the rows) can happen to any bag.  Those it does
    not handle happen to the bags of a set fixed beforehand: a removal that
    fails, a storage call that throws where nobody catches it or after it has
    committed, a name already taken on disk, somebody else touching the
    directory. *)

From stdpp Require Import relations.
From S2P Require Import Prelude FaultTypes FaultEvents Rosbags BagRules.
Open Scope Z_scope.

Definition kMaxAttachedFaults : nat := 32.

Record RosbagCapture := mkCapture {
  config_ : RosbagConfig;
  running_ : bool;
  message_buffer_ : list BufferedMessage;
  buffer_bytes_ : Z;
  active_capture_topics_ : gset string;
  recording_post_fault_ : bool;
  current_fault_code_ : string;
  current_bag_path_ : string;
  attached_fault_codes_ : gset string;
  recording_started_at_ns_ : Z;
  capture_started_at_ns_ : Z;
  active_writer_ : option string;             (* the bag it writes *)
}.

(** The capture, the fault storage, and the bags on disk with their messages. *)
Record World := mkWorld {
  w_capture : RosbagCapture;
  w_storage : InMemoryFaultStorage;
  w_disk : gmap string (list BufferedMessage);
}.

Definition on_capture (f : RosbagCapture → RosbagCapture) (w : World) : World :=
  mkWorld (f (w_capture w)) (w_storage w) (w_disk w).
Definition on_disk (f : gmap string (list BufferedMessage) → gmap string (list BufferedMessage)) (w : World) : World :=
  mkWorld (w_capture w) (w_storage w) (f (w_disk w)).
Definition with_storage (s : InMemoryFaultStorage) (w : World) : World := mkWorld (w_capture w) s (w_disk w).

Definition set_running (b : bool) (c : RosbagCapture) : RosbagCapture :=
  mkCapture (config_ c) b (message_buffer_ c) (buffer_bytes_ c) (active_capture_topics_ c) (recording_post_fault_ c)
    (current_fault_code_ c) (current_bag_path_ c) (attached_fault_codes_ c) (recording_started_at_ns_ c)
    (capture_started_at_ns_ c) (active_writer_ c).
Definition set_buffer (l : list BufferedMessage) (bytes : Z) (c : RosbagCapture) : RosbagCapture :=
  mkCapture (config_ c) (running_ c) l bytes (active_capture_topics_ c) (recording_post_fault_ c)
    (current_fault_code_ c) (current_bag_path_ c) (attached_fault_codes_ c) (recording_started_at_ns_ c)
    (capture_started_at_ns_ c) (active_writer_ c).
Definition set_filter (t : gset string) (c : RosbagCapture) : RosbagCapture :=
  mkCapture (config_ c) (running_ c) (message_buffer_ c) (buffer_bytes_ c) t (recording_post_fault_ c)
    (current_fault_code_ c) (current_bag_path_ c) (attached_fault_codes_ c) (recording_started_at_ns_ c)
    (capture_started_at_ns_ c) (active_writer_ c).
Definition set_recording (b : bool) (code path : string) (attached : gset string) (c : RosbagCapture) : RosbagCapture :=
  mkCapture (config_ c) (running_ c) (message_buffer_ c) (buffer_bytes_ c) (active_capture_topics_ c) b
    code path attached (recording_started_at_ns_ c) (capture_started_at_ns_ c) (active_writer_ c).
Definition set_started_at (t : Z) (c : RosbagCapture) : RosbagCapture :=
  mkCapture (config_ c) (running_ c) (message_buffer_ c) (buffer_bytes_ c) (active_capture_topics_ c) (recording_post_fault_ c)
    (current_fault_code_ c) (current_bag_path_ c) (attached_fault_codes_ c) t (capture_started_at_ns_ c) (active_writer_ c).
Definition set_capture_started (t : Z) (c : RosbagCapture) : RosbagCapture :=
  mkCapture (config_ c) (running_ c) (message_buffer_ c) (buffer_bytes_ c) (active_capture_topics_ c) (recording_post_fault_ c)
    (current_fault_code_ c) (current_bag_path_ c) (attached_fault_codes_ c) (recording_started_at_ns_ c) t (active_writer_ c).
Definition set_writer (p : option string) (c : RosbagCapture) : RosbagCapture :=
  mkCapture (config_ c) (running_ c) (message_buffer_ c) (buffer_bytes_ c) (active_capture_topics_ c) (recording_post_fault_ c)
    (current_fault_code_ c) (current_bag_path_ c) (attached_fault_codes_ c) (recording_started_at_ns_ c)
    (capture_started_at_ns_ c) p.

Definition new_capture (config : RosbagConfig) : RosbagCapture :=
  mkCapture config false [] 0 ∅ false "" "" ∅ 0 0 None.

Definition keeps_history (c : RosbagCapture) : bool := negb (rg_max_bags_per_fault (config_ c) =? 1).

Definition records_after (c : RosbagCapture) : bool := SFltb f64_zero (rg_duration_after_sec (config_ c)).

(** ** Sections *)

(** [std::filesystem::remove_all] with an error code nobody acts on; the bags of
    [kept] stay. *)
Definition remove_all (kept : gset string) (path : string) (w : World) : World :=
  if bool_decide (path ∈ kept) then w else on_disk (delete path) w.

(** A storage call that unlinks bags, after its commit.  A call that throws between
    the commit and the unlinking keeps all of them. *)
Definition unlinking (kept : gset string) (r : list string * InMemoryFaultStorage) (w : World) : World :=
  foldl (λ w p, remove_all kept p w) (with_storage r.2 w) r.1.

Definition start (now_steady : Z) (c : RosbagCapture) : RosbagCapture :=
  if negb (rg_enabled (config_ c)) || running_ c then c else set_running true (set_capture_started now_steady c).

Definition on_fault_prefailed (now_steady : Z) (c : RosbagCapture) : RosbagCapture :=
  if negb (rg_enabled (config_ c)) then c
  else if rg_lazy_start (config_ c) && negb (running_ c) then start now_steady c else c.

Definition is_current_recording_primary (code : string) (c : RosbagCapture) : bool :=
  recording_post_fault_ c && (code =?ₛ current_fault_code_ c).

Definition widen_capture_filter_for (topics : gset string) (c : RosbagCapture) : RosbagCapture :=
  if negb (rg_topics (config_ c) =?ₛ "entity") then c
  else if bool_decide (active_capture_topics_ c = ∅) then c
  else if bool_decide (topics = ∅) then set_filter ∅ c
  else set_filter (active_capture_topics_ c ∪ topics) c.

Definition attach_to_active_recording (code : string) (topics : gset string) (c : RosbagCapture) : bool * RosbagCapture :=
  if negb (recording_post_fault_ c) then (false, c)
  else if code =?ₛ current_fault_code_ c then (true, c)
  else if (kMaxAttachedFaults <=? size (attached_fault_codes_ c))%nat then (true, widen_capture_filter_for topics c)
  else if bool_decide (code ∈ attached_fault_codes_ c) then (true, c)
  else
    (true, widen_capture_filter_for topics
      (set_recording true (current_fault_code_ c) (current_bag_path_ c) ({[ code ]} ∪ attached_fault_codes_ c) c)).

Definition resolve_entity_topics (topics : gset string) (c : RosbagCapture) : RosbagCapture :=
  set_filter (if rg_topics (config_ c) =?ₛ "entity" then topics else ∅) c.

Definition discard_active_writer (kept : gset string) (path : string) (w : World) : World :=
  remove_all kept path (on_capture (set_writer None) w).

(** [open_bag_writer]: the writer opens on a new directory, or throws. *)
Definition bag_opened (path : string) (w : World) : World := on_disk (insert path []) (on_capture (set_writer (Some path)) w).
Definition bag_not_opened (kept : gset string) (path : string) : World → World := discard_active_writer kept path.

(** [active_writer_->write] *)
Definition write_message (m : BufferedMessage) (w : World) : World :=
  match active_writer_ (w_capture w) with
  | None => w
  | Some p => on_disk (alter (λ l, l ++ [m]) p) w
  end.

Definition take_buffer (c : RosbagCapture) : RosbagCapture := set_buffer [] 0 c.

Definition publish_recording (code path : string) (c : RosbagCapture) : RosbagCapture := set_recording true code path ∅ c.

(** The section of [finalize_post_fault_recording] that takes the recording. *)
Definition hand_over (c : RosbagCapture) : RosbagCapture :=
  set_filter ∅ (set_writer None (set_started_at 0 (set_recording false "" "" ∅ c))).

(** [on_fault_cleared] up to the storage. *)
Definition forget_fault (code : string) (c : RosbagCapture) : RosbagCapture :=
  if recording_post_fault_ c then
    set_recording true (if code =?ₛ current_fault_code_ c then "" else current_fault_code_ c) (current_bag_path_ c)
      (attached_fault_codes_ c ∖ {[ code ]}) c
  else c.

Definition buffer_message (m : BufferedMessage) (c : RosbagCapture) : RosbagCapture :=
  set_buffer (message_buffer_ c ++ [m]) (buffer_bytes_ c + message_size m) c.

Definition prune_buffer (now : Z) (c : RosbagCapture) : RosbagCapture :=
  if recording_post_fault_ c then c
  else match message_buffer_ c with
       | [] => c
       | l => let '(l, bytes) := prune (config_ c) now l (buffer_bytes_ c) in set_buffer l bytes c
       end.

(** A row for [code] of a finished bag. *)
Definition row_for (c : RosbagCapture) (path : string) (span : double) (size now : Z) (code : string) : RosbagFileInfo :=
  mkRosbagFileInfo code (rosbag_recording_id path) path (rg_format (config_ c)) span size now.

(** [wants_a_row] asks the storage only under auto-cleanup without a history. *)
Definition asks_storage (c : RosbagCapture) : bool := rg_auto_cleanup (config_ c) && negb (keeps_history c).

Definition wants_a_row (c : RosbagCapture) (code : string) (s : InMemoryFaultStorage) : bool :=
  if negb (asks_storage c) then true
  else match get_fault code s with None => true | Some f => negb (msg_status f =?ₛ STATUS_CLEARED) end.

(** ** Threads *)

(** Where [on_fault_confirmed] stands. *)
Inductive confirming :=
  | CScope (code : string)                                      (* resolve the entity scope *)
  | CAttach (code : string) (topics : gset string)
  | CFilter (code : string) (topics : gset string)
  | CFlush (code : string)
  | COpen (code : string) (messages : list BufferedMessage)
  | CSnapshot (code path : string) (messages : list BufferedMessage)
  | CWrite (code path : string) (filter_ : gset string) (messages : list BufferedMessage) (first : option Z)
  | COpenEmpty (code : string)
  | CStartEmpty (code path : string)
  | CPublish (code path : string)
  | CClose (code path : string)
  | CStore (path : string) (rows : list RosbagFileInfo)
  | CEvict (plan : list (string * string))
  | CDone.                                                      (* drop the filter *)

(** The callback the executor runs. *)
Inductive executing :=
  | EMessage (m : BufferedMessage)                              (* the guard is next *)
  | EScoped (m : BufferedMessage)                               (* recording: the filter is next *)
  | EWrite (m : BufferedMessage)
  | EBuffer (m : BufferedMessage)
  | EPrune
  | EDecide (path : string) (span : double) (size now : Z) (codes : list string) (rows : list RosbagFileInfo) (stopping : bool)
  | EStore (path : string) (rows : list RosbagFileInfo) (stopping : bool)
  | EEvict (plan : list (string * string)) (stopping : bool)
  | EFinish (stopping : bool)
  | EDelete (code : string).

Record System := mkSystem { s_world : World; s_pool : option confirming; s_executor : option executing }.

(** [flush_to_bag] once every message is written. *)
Definition flushed (now_wall now_steady : Z) (first : option Z) (c : RosbagCapture) : RosbagCapture :=
  let history := match first with
                 | None => 0
                 | Some t => bounded_history_ns now_wall t now_steady (capture_started_at_ns_ c)
                 end in
  set_started_at (now_steady - history) c.

(** After the bag of [code] is open and filled. *)
Definition after_bag (code path : string) (c : RosbagCapture) : confirming :=
  if records_after c then CPublish code path else CClose code path.

Section Steps.
Context (temp : string) (snapshot : SnapshotTopics).
Context (unlucky : gset string).                     (* bags of the failures that are not handled *)

Inductive confirm_step : World → option confirming → World → option confirming → Prop :=
  | confirm_ignored w :
      rg_enabled (config_ (w_capture w)) = false ∨ running_ (w_capture w) = false →
      confirm_step w None w None
  | confirm_begins w code :
      rg_enabled (config_ (w_capture w)) = true → running_ (w_capture w) = true →
      confirm_step w None w (Some
        (if (rg_topics (config_ (w_capture w)) =?ₛ "entity") && negb (is_current_recording_primary code (w_capture w))
         then CScope code else CAttach code ∅))
  | confirm_scopes w code graph fault :
      fault = None ∨ fault = get_fault code (w_storage w) →
      confirm_step w (Some (CScope code)) w
        (Some (CAttach code (compute_entity_topics (config_ (w_capture w)) snapshot fault graph)))
  | confirm_attaches w code topics c :
      attach_to_active_recording code topics (w_capture w) = (true, c) →
      confirm_step w (Some (CAttach code topics)) (on_capture (λ _, c) w) None
  | confirm_alone w code topics c :
      attach_to_active_recording code topics (w_capture w) = (false, c) →
      confirm_step w (Some (CAttach code topics)) w (Some (CFilter code topics))
  | confirm_filters w code topics :
      confirm_step w (Some (CFilter code topics)) (on_capture (resolve_entity_topics topics) w) (Some (CFlush code))
  | confirm_flushes w code :
      message_buffer_ (w_capture w) ≠ [] →
      confirm_step w (Some (CFlush code)) (on_capture take_buffer w) (Some (COpen code (message_buffer_ (w_capture w))))
  | confirm_nothing_buffered w code :
      message_buffer_ (w_capture w) = [] →
      confirm_step w (Some (CFlush code)) w
        (if records_after (w_capture w) then Some (COpenEmpty code) else None)
  | confirm_opens w code messages timestamp path :
      path = generate_bag_path (config_ (w_capture w)) temp code timestamp → w_disk w !! path = None →
      confirm_step w (Some (COpen code messages)) (bag_opened path w) (Some (CSnapshot code path messages))
  | confirm_opens_empty w code timestamp path :
      path = generate_bag_path (config_ (w_capture w)) temp code timestamp → w_disk w !! path = None →
      confirm_step w (Some (COpenEmpty code)) (bag_opened path w) (Some (CStartEmpty code path))
  | confirm_cannot_open w pc code timestamp path kept :         (* also when the name is taken *)
      (∃ messages, pc = COpen code messages) ∨ pc = COpenEmpty code →
      path = generate_bag_path (config_ (w_capture w)) temp code timestamp →
      w_disk w !! path = None ∨ path ∈ unlucky → kept ⊆ unlucky →
      confirm_step w (Some pc) (bag_not_opened kept path w) None
  | confirm_snapshots w code path messages :
      confirm_step w (Some (CSnapshot code path messages)) w
        (Some (CWrite code path (active_capture_topics_ (w_capture w)) messages None))
  | confirm_skips w code path topics m messages first :
      should_capture_topic topics (bm_topic m) = false →
      confirm_step w (Some (CWrite code path topics (m :: messages) first)) w (Some (CWrite code path topics messages first))
  | confirm_breaks w code path topics m messages first :
      should_capture_topic topics (bm_topic m) = true → active_writer_ (w_capture w) = None →
      confirm_step w (Some (CWrite code path topics (m :: messages) first)) w (Some (CWrite code path topics [] first))
  | confirm_writes w code path topics m messages first :
      should_capture_topic topics (bm_topic m) = true → is_Some (active_writer_ (w_capture w)) →
      confirm_step w (Some (CWrite code path topics (m :: messages) first)) (write_message m w)
        (Some (CWrite code path topics messages (match first with Some t => Some t | None => Some (bm_timestamp_ns m) end)))
  | confirm_drops w code path topics m messages first :         (* no memory for the copy *)
      should_capture_topic topics (bm_topic m) = true → is_Some (active_writer_ (w_capture w)) →
      confirm_step w (Some (CWrite code path topics (m :: messages) first)) w (Some (CWrite code path topics messages first))
  | confirm_cannot_write w code path topics m messages first kept :
      should_capture_topic topics (bm_topic m) = true → is_Some (active_writer_ (w_capture w)) → kept ⊆ unlucky →
      confirm_step w (Some (CWrite code path topics (m :: messages) first)) (discard_active_writer kept path w) None
  | confirm_flushed w code path topics first now_wall now_steady :
      confirm_step w (Some (CWrite code path topics [] first)) (on_capture (flushed now_wall now_steady first) w)
        (Some (after_bag code path (w_capture w)))
  | confirm_starts_empty w code path now_steady :
      confirm_step w (Some (CStartEmpty code path)) (on_capture (set_started_at now_steady) w)
        (Some (after_bag code path (w_capture w)))
  | confirm_publishes w code path :
      confirm_step w (Some (CPublish code path)) (on_capture (publish_recording code path) w) None
  | confirm_closes w code path now_steady size now_wall :
      confirm_step w (Some (CClose code path)) (on_capture (λ c, set_started_at 0 (set_writer None c)) w)
        (Some (CStore path [row_for (w_capture w) path
          (span_sec_since (recording_started_at_ns_ (w_capture w)) now_steady) size now_wall code]))
  | confirm_stores w path rows kept w' :
      kept ⊆ unlucky → w' = unlinking kept (store_rosbag_files rows (w_storage w)) w →
      confirm_step w (Some (CStore path rows)) w' (Some (CEvict (evictions (quota_bytes (config_ (w_capture w))) (w_storage w'))))
  | confirm_cannot_store w path rows kept :
      kept ⊆ unlucky → confirm_step w (Some (CStore path rows)) (remove_all kept path w) (Some CDone)
  | confirm_half_stores w path rows kept :                      (* the call threw after its commit *)
      kept ⊆ unlucky → path ∈ unlucky →
      confirm_step w (Some (CStore path rows))
        (remove_all kept path (unlinking kept (store_rosbag_files rows (w_storage w)) w)) (Some CDone)
  | confirm_evicts w bag plan kept :
      kept ⊆ unlucky →
      confirm_step w (Some (CEvict (bag :: plan))) (unlinking kept (evict ([], w_storage w) bag) w) (Some (CEvict plan))
  | confirm_ends_eviction w plan :                              (* done, or a storage call threw *)
      confirm_step w (Some (CEvict plan)) w (Some CDone)
  | confirm_done w :
      confirm_step w (Some CDone) (on_capture (set_filter ∅) w) None.

(** The callback that follows when the recording has been taken. *)
Definition finalizing (c : RosbagCapture) (now_steady size now_wall : Z) (stopping : bool) : executing :=
  EDecide (current_bag_path_ c) (span_sec_since (recording_started_at_ns_ c) now_steady) size now_wall
    ((if current_fault_code_ c =?ₛ "" then [] else [current_fault_code_ c]) ++ set_entries (attached_fault_codes_ c)) [] stopping.

Inductive execute_step : World → option executing → World → option executing → Prop :=
  | message_arrives w m :
      execute_step w None w (if running_ (w_capture w) then Some (EMessage m) else None)
  | message_guard w m :
      execute_step w (Some (EMessage m)) w
        (Some (if recording_post_fault_ (w_capture w) then EScoped m else EBuffer m))
  | message_scoped w m :
      execute_step w (Some (EScoped m)) w
        (if should_capture_topic (active_capture_topics_ (w_capture w)) (bm_topic m) then Some (EWrite m) else None)
  | message_written w m : execute_step w (Some (EWrite m)) (write_message m w) None
  | message_lost w m : execute_step w (Some (EWrite m)) w None
  | message_buffered w m : execute_step w (Some (EBuffer m)) (on_capture (buffer_message m) w) (Some EPrune)
  | buffer_pruned w now : execute_step w (Some EPrune) (on_capture (prune_buffer now) w) None
  | prefailed w now : execute_step w None (on_capture (on_fault_prefailed now) w) None
  | started w now : execute_step w None (on_capture (start now) w) None
  | timer_late w : recording_post_fault_ (w_capture w) = false → execute_step w None w None
  | timer_fires w now_steady size now_wall :
      recording_post_fault_ (w_capture w) = true →
      execute_step w None (on_capture hand_over w) (Some (finalizing (w_capture w) now_steady size now_wall false))
  | row_decided w path span size now code codes rows stopping :
      execute_step w (Some (EDecide path span size now (code :: codes) rows stopping)) w
        (Some (EDecide path span size now codes
          (rows ++ if wants_a_row (w_capture w) code (w_storage w) then [row_for (w_capture w) path span size now code] else [])
          stopping))
  | row_not_decided w path span size now codes rows stopping :   (* [get_fault] threw *)
      asks_storage (w_capture w) = true → path ∈ unlucky →
      execute_step w (Some (EDecide path span size now codes rows stopping)) w None
  | no_rows w path span size now stopping kept :
      kept ⊆ unlucky →
      execute_step w (Some (EDecide path span size now [] [] stopping)) (remove_all kept path w) (Some (EFinish stopping))
  | rows_decided w path span size now row rows stopping :
      execute_step w (Some (EDecide path span size now [] (row :: rows) stopping)) w (Some (EStore path (row :: rows) stopping))
  | rows_stored w path rows stopping kept w' :
      kept ⊆ unlucky → w' = unlinking kept (store_rosbag_files rows (w_storage w)) w →
      execute_step w (Some (EStore path rows stopping)) w'
        (Some (EEvict (evictions (quota_bytes (config_ (w_capture w))) (w_storage w')) stopping))
  | rows_not_stored w path rows stopping kept :
      kept ⊆ unlucky → execute_step w (Some (EStore path rows stopping)) (remove_all kept path w) (Some (EFinish stopping))
  | rows_half_stored w path rows stopping kept :
      kept ⊆ unlucky → path ∈ unlucky →
      execute_step w (Some (EStore path rows stopping))
        (remove_all kept path (unlinking kept (store_rosbag_files rows (w_storage w)) w)) (Some (EFinish stopping))
  | bag_evicted w bag plan stopping kept :
      kept ⊆ unlucky →
      execute_step w (Some (EEvict (bag :: plan) stopping))
        (unlinking kept (evict ([], w_storage w) bag) w) (Some (EEvict plan stopping))
  | eviction_ends w plan stopping : execute_step w (Some (EEvict plan stopping)) w (Some (EFinish stopping))
  | callback_ends w : execute_step w (Some (EFinish false)) w None
  | stop_ends w : execute_step w (Some (EFinish true)) (on_capture take_buffer w) None
  | cleared w code :
      execute_step w None
        (if rg_enabled (config_ (w_capture w)) && rg_auto_cleanup (config_ (w_capture w)) && negb (keeps_history (w_capture w))
         then on_capture (forget_fault code) w else w)
        (if rg_enabled (config_ (w_capture w)) && rg_auto_cleanup (config_ (w_capture w)) && negb (keeps_history (w_capture w))
         then Some (EDelete code) else None)
  | bags_deleted w code r kept :
      kept ⊆ unlucky → r = delete_rosbag_file code (w_storage w) →
      execute_step w (Some (EDelete code)) (unlinking kept (r.1.2, r.2) w) None
  | bags_not_deleted w code : execute_step w (Some (EDelete code)) w None       (* the call threw *)
  | stale_row_reaped w row r kept :                             (* get_rosbag and list_rosbags *)
      row ∈ rosbag_files (w_storage w) → w_disk w !! row_path row = None → kept ⊆ unlucky →
      r = delete_rosbag_recording (rb_recording_id (row_info row)) (w_storage w) →
      execute_step w None (unlinking kept (r.1.2, r.2) w) None.

(** [stop], once the pool has been joined. *)
Definition stopped (w : World) (now_steady size now_wall : Z) : World * executing :=
  let w := on_capture (set_running false) w in
  if recording_post_fault_ (w_capture w)
  then (on_capture hand_over w, finalizing (w_capture w) now_steady size now_wall true)
  else (w, EFinish true).

Inductive sys_step : System → System → Prop :=
  | pool_runs w p e w' p' : confirm_step w p w' p' → sys_step (mkSystem w p e) (mkSystem w' p' e)
  | executor_runs w p e w' e' : execute_step w e w' e' → sys_step (mkSystem w p e) (mkSystem w' p e')
  | storage_changes w p e s :                                   (* reports, clears, the other services *)
      rosbag_files s = rosbag_files (w_storage w) → rosbag_seq s = rosbag_seq (w_storage w) →
      sys_step (mkSystem w p e) (mkSystem (with_storage s w) p e)
  | disk_changes w p e disk :                                   (* somebody else *)
      (∀ q, q ∉ unlucky → disk !! q = w_disk w !! q) →
      sys_step (mkSystem w p e) (mkSystem (on_disk (λ _, disk) w) p e)
  | stops w now_steady size now_wall :
      running_ (w_capture w) = true →
      sys_step (mkSystem w None None)
        (mkSystem (stopped w now_steady size now_wall).1 None (Some (stopped w now_steady size now_wall).2)).

Definition fresh_system (config : RosbagConfig) (s : InMemoryFaultStorage) (disk : gmap string (list BufferedMessage)) : System :=
  mkSystem (mkWorld (new_capture config) s disk) None None.

End Steps.
