(* ===== verification/RosbagCaptureSpec.v ===== *)
(** * Bags and rows agree

    However confirmations interleave with messages, the post-fault timer, clears
    and the shutdown, a bag is on disk if and only if a row names it or exactly
    one thread still has it in hand; but for the bags on which something failed
    that the recorder does not handle. *)

From stdpp Require Import relations.
From S2P Require Import Prelude FaultTypes FaultEvents Rosbags BagRules RosbagCapture.
Open Scope Z_scope.

(** ** Unlinking is exact *)

(** [gone] was unlinked when the table went from [old] to [new], [extra] being
    the bags the call brought. *)
Record unlinks (old new : list RosbagRow) (extra : gset string) (gone : list string) : Prop := {
  ul_gone p : p ∈ gone ↔ (p ∈ paths old ∨ p ∈ extra) ∧ p ∉ paths new;
  ul_new : paths new ⊆ paths old ∪ extra;
}.

Lemma store_unlinks infos s path :
  infos ≠ [] → Forall (λ i, rb_file_path i = path) infos →
  let r := store_rosbag_files infos s in unlinks (rosbag_files s) (rosbag_files r.2) {[ path ]} r.1.
Proof.
  intros Hne Hall. cbv zeta. unfold store_rosbag_files. destruct infos as [|i infos]; [done|].
  pose proof (store_all_paths (max_rosbags_per_fault s) (i :: infos)
    {| acc_rows := rosbag_files s; acc_seq := rosbag_seq s; acc_evicted := ∅ |}) as Hp.
  set (a := foldl _ _ _) in *. cbn [acc_rows acc_evicted] in Hp.
  assert (list_to_set (rb_file_path <$> i :: infos) = ({[ path ]} : gset string)) as Hset.
  { apply set_eq. intros q. rewrite elem_of_list_to_set, elem_of_singleton, list_elem_of_fmap. rewrite Forall_forall in Hall.
    split; [intros (x & -> & Hx); by apply Hall|]. intros ->. exists i. split; [|left]. symmetry. apply Hall. left. }
  split; cbn.
  - intros p. rewrite elem_of_unlink_paths. rewrite Hset in Hp. clear -Hp. set_solver.
  - rewrite Hset in Hp. clear -Hp. set_solver.
Qed.

Lemma delete_rows_unlinks P s :
  let r := delete_rows P s in
  unlinks (rosbag_files s) (rosbag_files r.2) ∅ (unlink_paths (rosbag_files r.2) r.1).
Proof.
  cbv zeta. unfold delete_rows. cbn. split.
  - intros p. rewrite elem_of_unlink_paths, elem_of_list_to_set, !elem_of_paths, list_elem_of_fmap.
    setoid_rewrite list_elem_of_filter. split.
    + intros [(r & -> & _ & Hr) Hn]. split; [left; eauto|done].
    + intros [[(r & Hr & <-)|?] Hn]; [|set_solver]. split; [|done]. destruct (P r) eqn:E; [by exists r|].
      exfalso. apply Hn. by exists r.
  - intros p. rewrite elem_of_union, !elem_of_paths. setoid_rewrite list_elem_of_filter. naive_solver.
Qed.

Lemma delete_file_unlinks code s :
  let r := delete_rosbag_file code s in unlinks (rosbag_files s) (rosbag_files r.2) ∅ r.1.2.
Proof.
  cbv zeta. destruct (delete_rosbag_file code s) as [[found gone] s'] eqn:E. cbn. split.
  - intros p. pose proof (delete_unlinks_exactly code s p) as H. rewrite E in H. destruct H as (_ & _ & H). set_solver.
  - intros p Hp. apply elem_of_union_l. pose proof (delete_unlinks_exactly code s p) as H. rewrite E in H.
    destruct H as (H & _ & _). apply elem_of_paths in Hp as (r & Hr & Hp). apply elem_of_paths. exists r. split; [|done]. by apply H.
Qed.

Lemma unlinks_none s : unlinks (rosbag_files s) (rosbag_files s) ∅ [].
Proof. split; set_solver. Qed.

Lemma delete_recording_unlinks id s :
  let r := delete_rosbag_recording id s in unlinks (rosbag_files s) (rosbag_files r.2) ∅ r.1.2.
Proof.
  cbv zeta. unfold delete_rosbag_recording. destruct (id =?ₛ ""); [apply unlinks_none|].
  apply (delete_rows_unlinks (λ r, rb_recording_id (row_info r) =?ₛ id) s).
Qed.

Lemma evict_unlinks bag s : let r := evict ([], s) bag in unlinks (rosbag_files s) (rosbag_files r.2) ∅ r.1.
Proof.
  cbv zeta. unfold evict, delete_rosbag_recording. cbn [fst snd]. destruct (bag.1 =?ₛ ""); [apply unlinks_none|].
  apply (delete_rows_unlinks (λ r, rb_recording_id (row_info r) =?ₛ bag.1) s).
Qed.

(** ** Who has which bag in hand *)

Definition pool_writes (p : option confirming) : option string :=
  match p with
  | Some (CSnapshot _ path _ | CWrite _ path _ _ _ | CStartEmpty _ path | CPublish _ path | CClose _ path) => Some path
  | _ => None
  end.

Definition pool_bag (p : option confirming) : option string :=
  match p with Some (CStore path _) => Some path | _ => pool_writes p end.

Definition executor_bag (e : option executing) : option string :=
  match e with Some (EDecide path _ _ _ _ _ _ | EStore path _ _) => Some path | _ => None end.

Definition recorded_bag (c : RosbagCapture) : option string :=
  if recording_post_fault_ c then Some (current_bag_path_ c) else None.

(** ** Disk, rows and hands *)

Section Agreement.
Context (unlucky : gset string).

(** Up to the unlucky ones, a bag is on disk when a row names it or it is in one
    hand, never both. *)
Record agree (rows : list RosbagRow) (disk : gmap string (list BufferedMessage)) (hand : list string) : Prop := {
  ag_disk p : p ∉ unlucky → is_Some (disk !! p) ↔ p ∈ paths rows ∨ p ∈ hand;
  ag_apart p : p ∉ unlucky → p ∈ hand → p ∉ paths rows;
  ag_single : NoDup (filter (.∉ unlucky) hand);
}.

(** Two disks with the same bags, up to the unlucky ones. *)
Definition same_bags (d d' : gmap string (list BufferedMessage)) : Prop := ∀ p, p ∉ unlucky → d' !! p = d !! p.

#[global] Instance same_bags_preorder : PreOrder same_bags.
Proof. split; [by intros d p|]. intros d d' d'' H H' p Hp. by rewrite (H' p Hp), (H p Hp). Qed.

Lemma agree_same rows disk disk' hand : agree rows disk hand → same_bags disk disk' → agree rows disk' hand.
Proof. intros [H1 H2 H3] Hd. split; [|done|done]. intros p Hp. rewrite (Hd p Hp). by apply H1. Qed.

Lemma agree_perm rows disk h h' : h ≡ₚ h' → agree rows disk h → agree rows disk h'.
Proof.
  intros Hp [H1 H2 H3]. split; [|intros p; rewrite <-Hp; apply H2|by rewrite <-Hp].
  intros p Hl. rewrite <-Hp. by apply H1.
Qed.

#[global] Instance agree_proper rows disk : Proper ((≡ₚ) ==> iff) (agree rows disk).
Proof. intros h h' Hp. split; by apply agree_perm. Qed.

Lemma agree_open rows disk hand p l : agree rows disk hand → disk !! p = None → agree rows (<[p:=l]> disk) (p :: hand).
Proof.
  intros [H1 H2 H3] Hp. assert (p ∉ unlucky → p ∉ paths rows ∧ p ∉ hand) as Hn.
  { intros Hl. split; intros Hin; (assert (is_Some (disk !! p)) as [? ?] by (apply H1; auto)); congruence. }
  split.
  - intros q Hq. rewrite elem_of_cons. destruct (decide (q = p)) as [->|Hne].
    + rewrite lookup_insert_eq. split; [by right; left|by eexists].
    + rewrite lookup_insert_ne by done. rewrite H1 by done. naive_solver.
  - intros q Hq [->|Hin]%elem_of_cons; [by apply Hn|by apply H2].
  - rewrite filter_cons. case_decide as Hl; [|done]. constructor; [|done]. rewrite list_elem_of_filter. naive_solver.
Qed.

Lemma agree_remove rows disk hand p : agree rows disk (p :: hand) → agree rows (delete p disk) hand.
Proof.
  intros [H1 H2 H3]. rewrite filter_cons in H3. split.
  - intros q Hq. destruct (decide (q = p)) as [->|Hne].
    + rewrite decide_True in H3 by done. apply NoDup_cons in H3 as [Hp _]. rewrite list_elem_of_filter in Hp.
      rewrite lookup_delete_eq. split; [by intros []|]. intros [?|?]; [|naive_solver].
      exfalso. apply (H2 p Hq); [left|done].
    + rewrite lookup_delete_ne by done. rewrite H1, elem_of_cons by done. naive_solver.
  - intros q Hq Hin. apply H2; [done|by right].
  - case_decide; [by apply NoDup_cons in H3 as [_ ?]|done].
Qed.

(** Whoever drops a bag of the unlucky ones drops nothing. *)
Lemma agree_drop rows disk hand p : p ∈ unlucky → agree rows disk (p :: hand) → agree rows disk hand.
Proof.
  intros Hp [H1 H2 H3]. rewrite filter_cons, decide_False in H3 by (by intros Hn; apply Hn). split; [|set_solver|done].
  intros q Hq. rewrite H1, elem_of_cons by done. naive_solver.
Qed.

Lemma agree_write rows disk hand f p : agree rows disk hand → agree rows (alter f p disk) hand.
Proof.
  intros [H1 H2 H3]. split; [|done|done]. intros q Hq. rewrite <-H1 by done. destruct (decide (q = p)) as [->|Hne].
  - rewrite lookup_alter_eq. by rewrite fmap_is_Some.
  - by rewrite lookup_alter_ne by done.
Qed.

Lemma agree_unlink old new disk extra hand gone :
  agree old disk (extra ++ hand) → unlinks old new (list_to_set extra) gone →
  agree new (foldl (λ d p, delete p d) disk gone) hand.
Proof.
  intros [H1 H2 H3] [U1 U2]. rewrite filter_app in H3. apply NoDup_app in H3 as (_ & Hx & H3).
  setoid_rewrite list_elem_of_filter in Hx.
  assert (∀ p, p ∉ unlucky → p ∈ hand → p ∉ paths new) as Hnew.
  { intros p Hl Hp Hn. apply U2, elem_of_union in Hn as [Hn|Hn]; [eapply (H2 p Hl); [set_solver|done]|].
    apply elem_of_list_to_set in Hn. by apply (Hx p). }
  split; [|done|done]. intros p Hl. rewrite lookup_foldl_delete. case_bool_decide as Hg.
  - split; [by intros []|]. apply U1 in Hg as [Hor Hn]. intros [?|Hh]; [done|]. exfalso.
    destruct Hor as [Ho|Ho]; [eapply (H2 p Hl); [set_solver|done]|]. apply elem_of_list_to_set in Ho. by apply (Hx p).
  - rewrite H1, elem_of_app by done. rewrite U1 in Hg. split.
    + intros [Ho|[He|Hh]]; [| |by right]; left; apply dec_stable; intros Hn; apply Hg; split; auto.
      right. by apply elem_of_list_to_set.
    + intros [Hn|Hh]; [|by right; right]. apply U2, elem_of_union in Hn as [Hn|Hn]; [by left|].
      right. left. by apply elem_of_list_to_set in Hn.
Qed.

Lemma same_bags_remove kept p w :
  kept ⊆ unlucky → same_bags (delete p (w_disk w)) (w_disk (remove_all kept p w)).
Proof.
  intros Hk q Hq. unfold remove_all. case_bool_decide; [|done]. cbn. by rewrite lookup_delete_ne by set_solver.
Qed.

Lemma same_bags_unlinking kept r w :
  kept ⊆ unlucky → same_bags (foldl (λ d p, delete p d) (w_disk w) r.1) (w_disk (unlinking kept r w)).
Proof.
  intros Hk. unfold unlinking. change (w_disk w) with (w_disk (with_storage r.2 w)). generalize (with_storage r.2 w).
  clear w. destruct r as [gone s]. cbn [fst]. induction gone as [|p gone IH]; intros w; [done|]. cbn [foldl].
  etransitivity; [|apply IH]. intros q Hq. rewrite !lookup_foldl_delete. case_bool_decide; [done|].
  by apply (same_bags_remove kept p w Hk).
Qed.
Lemma agree_removed kept rows p hand w :
  kept ⊆ unlucky → agree rows (w_disk w) (p :: hand) → agree rows (w_disk (remove_all kept p w)) hand.
Proof. intros Hk Ha. eapply agree_same; [by apply agree_remove|]. by apply same_bags_remove. Qed.

Lemma agree_unlinking kept old r extra hand w :
  kept ⊆ unlucky → agree old (w_disk w) (extra ++ hand) → unlinks old (rosbag_files r.2) (list_to_set extra) r.1 →
  agree (rosbag_files r.2) (w_disk (unlinking kept r w)) hand.
Proof. intros Hk Ha Hu. eapply agree_same; [by eapply agree_unlink|]. by apply same_bags_unlinking. Qed.

(** Removing what was not there, or what is nobody's concern. *)
Lemma agree_discard kept rows p hand w :
  kept ⊆ unlucky → w_disk w !! p = None ∨ p ∈ unlucky → agree rows (w_disk w) hand →
  agree rows (w_disk (remove_all kept p w)) hand.
Proof.
  intros Hk Hp Ha. eapply agree_same; [exact Ha|]. intros q Hq. unfold remove_all. case_bool_decide; [done|]. cbn.
  destruct (decide (q = p)) as [->|Hne]; [|by rewrite lookup_delete_ne]. rewrite lookup_delete_eq. by destruct Hp as [->|].
Qed.
End Agreement.

(** The bags in hand. *)
Definition in_hand (sys : System) : list string :=
  option_list (pool_bag (s_pool sys)) ++ option_list (executor_bag (s_executor sys)) ++
  option_list (recorded_bag (w_capture (s_world sys))).

(** A confirmation past the attach decision. *)
Definition opening (p : option confirming) : bool :=
  match p with None | Some (CScope _ | CAttach _ _) => false | Some _ => true end.

Definition rows_of_bag (p : option confirming) (e : option executing) : Prop :=
  match p with Some (CStore path rows) => rows ≠ [] ∧ Forall (λ i, rb_file_path i = path) rows | _ => True end ∧
  match e with
  | Some (EDecide path _ _ _ _ rows _) => Forall (λ i, rb_file_path i = path) rows
  | Some (EStore path rows _) => rows ≠ [] ∧ Forall (λ i, rb_file_path i = path) rows
  | _ => True
  end.

Record sys_ok (unlucky : gset string) (sys : System) : Prop := {
  ok_bags : agree unlucky (rosbag_files (w_storage (s_world sys))) (w_disk (s_world sys)) (in_hand sys);
  ok_writer : active_writer_ (w_capture (s_world sys)) =
    match pool_writes (s_pool sys) with Some path => Some path | None => recorded_bag (w_capture (s_world sys)) end;
  ok_opening : opening (s_pool sys) = true → recording_post_fault_ (w_capture (s_world sys)) = false;
  ok_rows : rows_of_bag (s_pool sys) (s_executor sys);
}.

(** ** Steps of the pool *)

Lemma removed_world kept p w : w_capture (remove_all kept p w) = w_capture w ∧ w_storage (remove_all kept p w) = w_storage w.
Proof. unfold remove_all. by case_bool_decide. Qed.

Lemma unlinking_world kept r w :
  w_capture (unlinking kept r w) = w_capture w ∧ w_storage (unlinking kept r w) = r.2.
Proof.
  unfold unlinking. destruct r as [gone s]. cbn [fst snd].
  change (w_capture w) with (w_capture (with_storage s w)). assert (w_storage (with_storage s w) = s) as Hs by done.
  revert Hs. generalize (with_storage s w). clear w. induction gone as [|p gone IH]; intros w Hs; [done|]. cbn [foldl].
  destruct (removed_world kept p w) as [Hc Hs']. destruct (IH (remove_all kept p w)) as (-> & ->); [congruence|done].
Qed.

Lemma attach_recorded code topics c b c' :
  attach_to_active_recording code topics c = (b, c') →
  b = recording_post_fault_ c ∧ recorded_bag c' = recorded_bag c ∧ active_writer_ c' = active_writer_ c ∧
  recording_post_fault_ c' = recording_post_fault_ c.
Proof.
  unfold attach_to_active_recording, widen_capture_filter_for, recorded_bag. destruct (recording_post_fault_ c) eqn:E; cbn [negb].
  - intros H. repeat case_match; simplify_eq; cbn in *; rewrite ?E; done || congruence.
  - intros [= <- <-]. by rewrite E.
Qed.

Section Invariant.
Context (temp : string) (snapshot : SnapshotTopics) (unlucky : gset string).

Abbreviation agrees := (agree unlucky).
Abbreviation system_ok := (sys_ok unlucky).

Lemma sys_ok_iff w p e :
  system_ok (mkSystem w p e) ↔
  agrees (rosbag_files (w_storage w)) (w_disk w)
    (option_list (pool_bag p) ++ option_list (executor_bag e) ++ option_list (recorded_bag (w_capture w))) ∧
  active_writer_ (w_capture w) = match pool_writes p with Some path => Some path | None => recorded_bag (w_capture w) end ∧
  (opening p = true → recording_post_fault_ (w_capture w) = false) ∧
  rows_of_bag p e.
Proof. split; [intros []; auto|intros (? & ? & ? & ?); by split]. Qed.

(** With the pool past its decision nothing is recorded. *)
Lemma opening_idle c : recording_post_fault_ c = false → recorded_bag c = None.
Proof. unfold recorded_bag. by intros ->. Qed.

Lemma agree_stored kept rows path hand w :
  kept ⊆ unlucky → rows ≠ [] → Forall (λ i, rb_file_path i = path) rows →
  agrees (rosbag_files (w_storage w)) (w_disk w) (path :: hand) →
  agrees (rosbag_files (store_rosbag_files rows (w_storage w)).2)
    (w_disk (unlinking kept (store_rosbag_files rows (w_storage w)) w)) hand.
Proof.
  intros Hk Hne Hrows Ha. apply (agree_unlinking _ _ (rosbag_files (w_storage w)) _ [path]); [done..|].
  cbn. rewrite union_empty_r_L. by apply store_unlinks.
Qed.

Lemma confirm_step_ok w p w' p' e :
  system_ok (mkSystem w p e) → confirm_step temp snapshot unlucky w p w' p' → system_ok (mkSystem w' p' e).
Proof.
  rewrite !sys_ok_iff. intros (Hb & Hw & Ho & Hp & He) Hstep.
  destruct Hstep; cbn [pool_bag pool_writes opening option_list app] in *; try (by split_and!).
  - destruct (_ && _); by split_and!.
  - destruct (attach_recorded _ _ _ _ _ H) as (_ & Hr & Hw' & _). cbn. rewrite Hr, Hw'. by split_and!.
  - destruct (attach_recorded _ _ _ _ _ H) as (Hr & _). by split_and!.
  - destruct (records_after _); by split_and!.
  - cbn. split_and!; try done. by apply agree_open.
  - cbn. split_and!; try done. by apply agree_open.
  - destruct pc; try (destruct H as [[? ?]|?]; congruence); cbn [pool_bag pool_writes opening option_list app] in *; specialize (Ho eq_refl);
      unfold bag_not_opened, discard_active_writer;
      destruct (removed_world kept path (on_capture (set_writer None) w)) as (-> & ->); cbn;
      unfold recorded_bag in *; cbn; rewrite Ho in *; cbn in *; split_and!; try done; by apply agree_discard.
  - unfold write_message. rewrite Hw. cbn. split_and!; try done. by apply agree_write.
  - unfold discard_active_writer. destruct (removed_world kept path (on_capture (set_writer None) w)) as (-> & ->).
    cbn. unfold recorded_bag in *. cbn. rewrite (Ho eq_refl) in *. split_and!; try done. by apply agree_removed.
  - unfold after_bag. destruct (records_after _); cbn; by split_and!.
  - unfold after_bag. destruct (records_after _); cbn; by split_and!.
  - cbn. rewrite (opening_idle _ (Ho eq_refl)) in *. cbn in *. split_and!; try done. 
    rewrite app_nil_r in Hb. by rewrite Permutation_cons_append in Hb.
  - cbn. unfold recorded_bag in *. cbn. rewrite (Ho eq_refl) in *. split_and!; try done. split; [|done]. split; [done|]. by apply Forall_singleton.
  - destruct Hp as [Hne Hrows]. subst w'.
    destruct (unlinking_world kept (store_rosbag_files rows (w_storage w)) w) as (-> & ->). split_and!; try done.
    by apply (agree_stored _ _ path).
  - destruct (removed_world kept path w) as (-> & ->). cbn. split_and!; try done. by apply agree_removed.
  - destruct Hp as [Hne Hrows]. set (r := store_rosbag_files rows (w_storage w)).
    destruct (removed_world kept path (unlinking kept r w)) as (-> & ->).
    destruct (unlinking_world kept r w) as (-> & ->). split_and!; try done.
    apply agree_discard; [done|by right|]. by apply (agree_stored _ _ path).
  - destruct (unlinking_world kept (evict ([], w_storage w) bag) w) as (-> & ->). split_and!; try done.
    apply (agree_unlinking _ _ (rosbag_files (w_storage w)) _ []); [done..|]. apply evict_unlinks.
Qed.

(** A section that leaves bags, rows and the recording alone. *)
Definition same_recording (c c' : RosbagCapture) : Prop :=
  recorded_bag c' = recorded_bag c ∧ active_writer_ c' = active_writer_ c ∧ recording_post_fault_ c' = recording_post_fault_ c.

Lemma quiet_ok w p e c e' :
  system_ok (mkSystem w p e) → same_recording (w_capture w) c → executor_bag e' = executor_bag e → rows_of_bag p e' →
  system_ok (mkSystem (on_capture (λ _, c) w) p e').
Proof. rewrite !sys_ok_iff. intros (Hb & Hw & Ho & _) (H1 & H2 & H3) He Hr. cbn. rewrite H1, H2, H3, He. by split_and!. Qed.

Lemma prune_same now c : same_recording c (prune_buffer now c).
Proof. unfold prune_buffer. destruct (recording_post_fault_ c) eqn:E; [done|]. destruct (message_buffer_ c); [done|]. by destruct (prune _ _ _ _). Qed.

Lemma start_same now c : same_recording c (start now c).
Proof. unfold start. by destruct (_ || _). Qed.

Lemma prefailed_same now c : same_recording c (on_fault_prefailed now c).
Proof. unfold on_fault_prefailed. destruct (negb _); [done|]. destruct (_ && _); [apply start_same|done]. Qed.

Lemma forget_same code c : same_recording c (forget_fault code c).
Proof. unfold forget_fault, same_recording, recorded_bag. destruct (recording_post_fault_ c) eqn:E; cbn; by rewrite ?E. Qed.

Lemma write_ok w p m : system_ok (mkSystem w p None) → system_ok (mkSystem (write_message m w) p None).
Proof.
  intros Hok. unfold write_message. destruct (active_writer_ (w_capture w)) as [q|]; [|done].
  apply sys_ok_iff in Hok as (Hb & Hw & Ho & Hr). apply sys_ok_iff. split_and!; try done. by apply agree_write.
Qed.

(** The recording passes to the executor. *)
Lemma hand_over_ok w p now_steady size now_wall stopping :
  system_ok (mkSystem w p None) → recording_post_fault_ (w_capture w) = true →
  system_ok (mkSystem (on_capture hand_over w) p (Some (finalizing (w_capture w) now_steady size now_wall stopping))).
Proof.
  rewrite !sys_ok_iff. intros (Hb & Hw & Ho & Hp & _) Hrec. assert (opening p = false) as Hop.
  { destruct (opening p); [|done]. specialize (Ho eq_refl). congruence. }
  unfold recorded_bag in *. rewrite Hrec in *. cbn in *. split_and!; [done| |done|split; [done|constructor]].
  by destruct p as [[]|].
Qed.

Lemma execute_step_ok w p e w' e' :
  system_ok (mkSystem w p e) → execute_step unlucky w e w' e' → system_ok (mkSystem w' p e').
Proof.
  intros Hok Hstep. pose proof Hok as (Hb & Hw & Ho & Hp & He)%sys_ok_iff.
  destruct Hstep; cbn [executor_bag option_list app] in *; try (by apply sys_ok_iff; split_and!).
  - destruct (running_ _); by apply sys_ok_iff; split_and!.
  - destruct (recording_post_fault_ _) eqn:E; rewrite ?E in Ho; by apply sys_ok_iff; split_and!; rewrite ?E.
  - destruct (should_capture_topic _ _); by apply sys_ok_iff; split_and!.
  - apply write_ok. by apply sys_ok_iff.
  - eapply quiet_ok; [exact Hok|apply prune_same|done|by split].
  - eapply quiet_ok; [exact Hok|apply prefailed_same|done|by split].
  - eapply quiet_ok; [exact Hok|apply start_same|done|by split].
  - by apply hand_over_ok.
  - apply sys_ok_iff. split_and!; try done. split; [done|]. apply Forall_app. split; [done|].
    destruct (wants_a_row _ _ _); [by apply Forall_singleton|constructor].
  - apply sys_ok_iff. cbn. split_and!; try done. eapply agree_drop; [done|]. by rewrite Permutation_middle.
  - apply sys_ok_iff. destruct (removed_world kept path w) as (-> & ->). cbn. split_and!; try done.
    apply agree_removed; [done|]. by rewrite Permutation_middle.
  - destruct He as [Hne Hrows]. subst w'. apply sys_ok_iff.
    destruct (unlinking_world kept (store_rosbag_files rows (w_storage w)) w) as (-> & ->). split_and!; try done.
    apply (agree_stored _ _ path); [done..|]. by rewrite Permutation_middle.
  - apply sys_ok_iff. destruct (removed_world kept path w) as (-> & ->). cbn. split_and!; try done.
    apply agree_removed; [done|]. by rewrite Permutation_middle.
  - destruct He as [Hne Hrows]. set (r := store_rosbag_files rows (w_storage w)). apply sys_ok_iff.
    destruct (removed_world kept path (unlinking kept r w)) as (-> & ->).
    destruct (unlinking_world kept r w) as (-> & ->). split_and!; try done.
    apply agree_discard; [done|by right|]. apply (agree_stored _ _ path); [done..|]. by rewrite Permutation_middle.
  - apply sys_ok_iff. destruct (unlinking_world kept (evict ([], w_storage w) bag) w) as (-> & ->). split_and!; try done.
    apply (agree_unlinking _ _ (rosbag_files (w_storage w)) _ []); [done..|]. apply evict_unlinks.
  - destruct (_ && _); [|by apply sys_ok_iff; split_and!].
    eapply quiet_ok; [exact Hok|apply forget_same|done|by split].
  - subst r. set (r := delete_rosbag_file code (w_storage w)). apply sys_ok_iff.
    destruct (unlinking_world kept (r.1.2, r.2) w) as (-> & ->). split_and!; try done.
    apply (agree_unlinking _ _ (rosbag_files (w_storage w)) _ []); [done..|]. apply delete_file_unlinks.
  - subst r. set (r := delete_rosbag_recording _ (w_storage w)). apply sys_ok_iff.
    destruct (unlinking_world kept (r.1.2, r.2) w) as (-> & ->). split_and!; try done.
    apply (agree_unlinking _ _ (rosbag_files (w_storage w)) _ []); [done..|]. apply delete_recording_unlinks.
Qed.

Lemma recorder_step_ok sys sys' : system_ok sys → sys_step temp snapshot unlucky sys sys' → system_ok sys'.
Proof.
  intros Hok Hstep. destruct Hstep as [w p e w' p' H|w p e w' e' H|w p e s Hf Hq|w p e disk Hd|w ns size nw Hrun].
  - by eapply confirm_step_ok.
  - by eapply execute_step_ok.
  - apply sys_ok_iff in Hok as (Hb & Hw & Ho & Hr). apply sys_ok_iff. cbn. rewrite Hf. by split_and!.
  - apply sys_ok_iff in Hok as (Hb & Hw & Ho & Hr). apply sys_ok_iff. cbn. split_and!; try done. by eapply agree_same.
  - assert (system_ok (mkSystem (on_capture (set_running false) w) None None)) as Hok'
      by (apply (quiet_ok w None None (set_running false (w_capture w)) None); [done|done|done|by split]).
    unfold stopped. case_match eqn:E; cbn [fst snd].
    + by apply hand_over_ok.
    + by apply (quiet_ok (on_capture (set_running false) w) None None (set_running false (w_capture w)) (Some (EFinish true))).
Qed.

Lemma fresh_ok config s disk :
  (∀ p, p ∉ unlucky → is_Some (disk !! p) ↔ p ∈ paths (rosbag_files s)) → system_ok (fresh_system config s disk).
Proof.
  intros Hd. apply sys_ok_iff. split_and!; [|done|done|done]. split; [|set_solver|constructor].
  intros p Hp. rewrite Hd by done. set_solver.
Qed.

(** C9: However the pool's confirmations interleave with messages, the timer, clears,
    the services that drop stale rows and the shutdown, and whatever write, open
    or storage call fails: a bag is on disk if and only if a row names it or
    exactly one party has it in hand, never both, and the open writer writes the
    bag that is being filled.  At rest the bags on disk are those of the table.
    This is said of every bag outside of [unlucky], the bags of which a removal
    failed, the row decision threw, the store threw after its commit, the name
    was already taken, or which somebody else touched; such a failure on one bag
    does no harm to the others. *)
Theorem bags_on_disk_have_rows config s disk sys :
  (∀ p, p ∉ unlucky → is_Some (disk !! p) ↔ p ∈ paths (rosbag_files s)) →
  rtc (sys_step temp snapshot unlucky) (fresh_system config s disk) sys →
  let w := s_world sys in
  (∀ p, p ∉ unlucky → is_Some (w_disk w !! p) ↔ p ∈ paths (rosbag_files (w_storage w)) ∨ p ∈ in_hand sys) ∧
  (∀ p, p ∉ unlucky → p ∈ in_hand sys → p ∉ paths (rosbag_files (w_storage w))) ∧
  NoDup (filter (.∉ unlucky) (in_hand sys)) ∧
  active_writer_ (w_capture w) =
    match pool_writes (s_pool sys) with Some path => Some path | None => recorded_bag (w_capture w) end ∧
  (s_pool sys = None → s_executor sys = None → recording_post_fault_ (w_capture w) = false →
   ∀ p, p ∉ unlucky → is_Some (w_disk w !! p) ↔ p ∈ paths (rosbag_files (w_storage w))).
Proof.
  intros Hd Hrun. assert (system_ok sys) as [[H1 H2 H3] Hw _ _].
  { pose proof (fresh_ok config s disk Hd) as Hok. induction Hrun; [done|]. eauto using recorder_step_ok. }
  cbv zeta. split_and!; [done|done|done|done|]. intros Hp He Hr p Hl. rewrite H1 by done.
  unfold in_hand. rewrite Hp, He, (opening_idle _ Hr). set_solver.
Qed.

End Invariant.
