(* ===== verification/RosbagQuota.v ===== *)
(** * The quota on recordings

    [evict_bags_over_quota] removes the oldest bags, whole, and no more of them
    than it takes. *)

From S2P Require Import Prelude FaultTypes FaultEvents Rosbags BagRules RosbagCapture RosbagCaptureSpec.
Open Scope Z_scope.

(** ** Bags by age *)

(** Elements in the order they are first seen. *)
Definition first_seen (l : list string) : list string :=
  foldl (λ acc p, if bool_decide (p ∈ acc) then acc else acc ++ [p]) [] l.

Definition bags_by_age (s : InMemoryFaultStorage) : list string := first_seen (rb_file_path <$> get_all_rosbag_files s).

Definition bag_bytes (rows : list RosbagRow) (p : string) : Z := foldl Z.max 0 (sizes_of p rows).

Definition total_bytes (rows : list RosbagRow) : Z := foldr Z.add 0 (bag_bytes rows <$> remove_dups (row_path <$> rows)).

Lemma first_seen_snoc l p : first_seen (l ++ [p]) = if bool_decide (p ∈ first_seen l) then first_seen l else first_seen l ++ [p].
Proof. unfold first_seen. by rewrite foldl_app. Qed.

Lemma elem_of_first_seen l p : p ∈ first_seen l ↔ p ∈ l.
Proof.
  induction l as [|x l IH] using rev_ind; [done|]. rewrite first_seen_snoc. case_bool_decide; set_solver.
Qed.

Lemma NoDup_first_seen l : NoDup (first_seen l).
Proof.
  induction l as [|x l IH] using rev_ind; [constructor|]. rewrite first_seen_snoc. case_bool_decide as H; [done|].
  apply NoDup_app. split_and!; [done| |apply NoDup_singleton]. intros y Hy ->%list_elem_of_singleton. done.
Qed.

(** ** Grouping *)

Definition file_sizes (p : string) (files : list RosbagFileInfo) : list Z :=
  rb_size_bytes <$> filter (λ f, rb_file_path f = p) files.

Definition grouped (files : list RosbagFileInfo) (bag : string * (string * Z)) : Prop :=
  (∃ f, f ∈ files ∧ rb_file_path f = bag.1 ∧ rb_recording_id f = bag.2.1) ∧ bag.2.2 = foldl Z.max 0 (file_sizes bag.1 files).

Lemma group_bags_snoc files f :
  group_bags (files ++ [f]) =
  match list_find (λ b, b.1 = rb_file_path f) (group_bags files) with
  | Some (i, (p, (rid, bytes))) => <[i := (p, (rid, Z.max bytes (rb_size_bytes f)))]> (group_bags files)
  | None => group_bags files ++ [(rb_file_path f, (rb_recording_id f, Z.max 0 (rb_size_bytes f)))]
  end.
Proof. unfold group_bags. by rewrite foldl_app. Qed.

Lemma file_sizes_snoc p files f :
  file_sizes p (files ++ [f]) = file_sizes p files ++ if decide (rb_file_path f = p) then [rb_size_bytes f] else [].
Proof. unfold file_sizes. rewrite filter_app, fmap_app, filter_cons, filter_nil. by case_decide. Qed.

Lemma grouped_other files f bag : grouped files bag → bag.1 ≠ rb_file_path f → grouped (files ++ [f]) bag.
Proof.
  intros [(g & Hg & H1 & H2) Hb] Hne. split; [exists g; set_solver|]. rewrite file_sizes_snoc, decide_False, app_nil_r; done.
Qed.

Lemma group_bags_spec files :
  (group_bags files).*1 = first_seen (rb_file_path <$> files) ∧ Forall (grouped files) (group_bags files).
Proof.
  induction files as [|f files [IH1 IH2]] using rev_ind; [done|].
  rewrite fmap_app. change (rb_file_path <$> [f]) with [rb_file_path f]. rewrite first_seen_snoc, group_bags_snoc, <-IH1.
  destruct (list_find _ (group_bags files)) as [[i [p [rid bytes]]]|] eqn:E.
  - apply list_find_Some in E as (Hi & Hp & Hfirst). cbn in Hp. subst p.
    rewrite bool_decide_eq_true_2 by (apply list_elem_of_fmap; eexists; split; [|by eapply list_elem_of_lookup_2]; done).
    split; [by rewrite list_fmap_insert, list_insert_id by (by rewrite list_lookup_fmap, Hi)|].
    apply Forall_lookup. intros j x Hx. rewrite Forall_lookup in IH2. destruct (decide (i = j)) as [<-|Hne].
    + rewrite list_lookup_insert_eq in Hx by (by eapply lookup_lt_Some). injection Hx as <-.
      destruct (IH2 _ _ Hi) as [(g & Hg & H1 & H2) Hb]. cbn in *. split; cbn; [exists g; set_solver|].
      by rewrite file_sizes_snoc, decide_True, foldl_app, <-Hb by done.
    + rewrite list_lookup_insert_ne in Hx by done. apply grouped_other; [by eapply IH2|]. intros Heq.
      assert (NoDup (group_bags files).*1) as Hnd by (rewrite IH1; apply NoDup_first_seen). apply Hne.
      eapply (NoDup_lookup _ _ _ _ Hnd); rewrite list_lookup_fmap; [by rewrite Hi|]. rewrite Hx. cbn. by rewrite Heq.
  - apply list_find_None in E. rewrite Forall_forall in E. rewrite bool_decide_eq_false_2.
    2:{ intros (b & Hb & Hin)%list_elem_of_fmap. by apply (E b). }
    split; [by rewrite fmap_app|]. apply Forall_app. split.
    + rewrite Forall_forall in IH2 |- *. intros b Hb. apply grouped_other; [by apply IH2|]. by apply E.
    + apply Forall_singleton. split; cbn; [exists f; set_solver|]. rewrite file_sizes_snoc, decide_True, foldl_app by done.
      replace (file_sizes (rb_file_path f) files) with ([] : list Z); [done|]. symmetry. unfold file_sizes.
      rewrite filter_none; [done|]. intros g Hg Hp.
      assert (rb_file_path f ∈ (group_bags files).*1) as (b & Hb & Hin)%list_elem_of_fmap.
      { rewrite IH1, elem_of_first_seen, <-Hp. by apply list_elem_of_fmap_2. }
      by apply (E b).
Qed.

Lemma foldl_max_perm l k x : l ≡ₚ k → foldl Z.max x l = foldl Z.max x k.
Proof. intros Hp. revert x. induction Hp; intros z; cbn; auto; [f_equal; lia|congruence]. Qed.

Lemma file_sizes_rows s p : file_sizes p (get_all_rosbag_files s) ≡ₚ sizes_of p (rosbag_files s).
Proof.
  unfold file_sizes, get_all_rosbag_files, sizes_of. rewrite <-(stable_sort_perm row_lt (rosbag_files s)) at 2.
  induction (stable_sort row_lt (rosbag_files s)) as [|r l IH]; [done|].
  change (row_info <$> r :: l) with (row_info r :: (row_info <$> l)). unfold row_path in *. rewrite !filter_cons.
  case_decide; [|done]. cbn. by constructor.
Qed.

Lemma elem_of_all_files s f : f ∈ get_all_rosbag_files s ↔ ∃ r, r ∈ rosbag_files s ∧ f = row_info r.
Proof.
  unfold get_all_rosbag_files. rewrite list_elem_of_fmap. setoid_rewrite elem_of_stable_sort. naive_solver.
Qed.

Lemma elem_of_bags_by_age s p : p ∈ bags_by_age s ↔ p ∈ paths (rosbag_files s).
Proof.
  unfold bags_by_age. rewrite elem_of_first_seen, list_elem_of_fmap, elem_of_paths. setoid_rewrite elem_of_all_files. naive_solver.
Qed.

(** The bags of the table, oldest first, with recording id and size. *)
Lemma grouped_rows s :
  (group_bags (get_all_rosbag_files s)).*1 = bags_by_age s ∧
  ∀ p rid b, (p, (rid, b)) ∈ group_bags (get_all_rosbag_files s) →
    b = bag_bytes (rosbag_files s) p ∧ ∃ r, r ∈ rosbag_files s ∧ row_path r = p ∧ rb_recording_id (row_info r) = rid.
Proof.
  destruct (group_bags_spec (get_all_rosbag_files s)) as [H1 H2]. split; [done|]. intros p rid b Hin.
  rewrite Forall_forall in H2. destruct (H2 _ Hin) as [(f & Hf & Hp & Hr) Hb]. cbn in *. split.
  - rewrite Hb. apply foldl_max_perm, file_sizes_rows.
  - apply elem_of_all_files in Hf as (r & Hr' & ->). by exists r.
Qed.

(** ** How many go *)

Definition sum_bags (bags : list (string * (string * Z))) : Z := foldr Z.add 0 ((λ b, b.2.2) <$> bags).

Lemma eviction_plan_spec max bags :
  Forall (λ b, 0 ≤ b.2.2) bags →
  ∃ k, eviction_plan max (sum_bags bags) bags = (λ b, (b.2.1, b.1)) <$> take k bags ∧
    (sum_bags (drop k bags) ≤ max ∨ drop k bags = []) ∧ ∀ j, (j < k)%nat → max < sum_bags (drop j bags).
Proof.
  induction 1 as [|[p [rid b]] bags Hb Hbags IH].
  - exists 0%nat. split_and!; [done|by right|lia].
  - cbn [eviction_plan]. case_match eqn:E.
    + apply Z.leb_le in E. exists 0%nat. split_and!; [done|by left|lia].
    + apply Z.leb_gt in E. destruct IH as (k & Hk & Hend & Hmin). exists (S k). cbn in Hb.
      assert (0 ≤ sum_bags bags) as Hs by (clear -Hbags; unfold sum_bags; induction Hbags; cbn in *; lia).
      assert (sum_bags ((p, (rid, b)) :: bags) = b + sum_bags bags) as Hsum by done.
      replace (sum_bags ((p, (rid, b)) :: bags) - Z.min (sum_bags ((p, (rid, b)) :: bags)) b) with (sum_bags bags) by lia.
      split_and!; [cbn; by rewrite Hk|done|]. intros [|j] Hj; [done|]. apply Hmin. lia.
Qed.

(** ** Deleting them *)

Lemma unlinks_trans a b c g g' : unlinks a b ∅ g → unlinks b c ∅ g' → unlinks a c ∅ (g ++ g').
Proof.
  intros [H1 H2] [H3 H4]. split.
  - intros p. rewrite elem_of_app, H1, H3. destruct (decide (p ∈ paths b)), (decide (p ∈ paths c)); set_solver.
  - set_solver.
Qed.

Lemma evict_rows bag s gone :
  bag.1 ≠ "" →
  rosbag_files (evict (gone, s) bag).2 = filter (λ r, rb_recording_id (row_info r) ≠ bag.1) (rosbag_files s) ∧
  ∃ g, (evict (gone, s) bag).1 = gone ++ g ∧ unlinks (rosbag_files s) (rosbag_files (evict (gone, s) bag).2) ∅ g.
Proof.
  intros Hne. pose proof (evict_unlinks bag s) as Hu. unfold evict in *. cbn [fst snd] in *.
  destruct (delete_rosbag_recording bag.1 s) as [[n g] s'] eqn:E. cbn [fst snd app] in *. split; [|by exists g].
  unfold delete_rosbag_recording in E. rewrite (proj2 (str_eqb_neq _ _)) in E by done. injection E as _ _ <-. cbn.
  apply filter_ext_elem. intros r _. apply str_eqb_neq.
Qed.

Lemma evict_all_rows plan s gone :
  Forall (λ bag, bag.1 ≠ "") plan →
  rosbag_files (foldl evict (gone, s) plan).2 = filter (λ r, rb_recording_id (row_info r) ∉ plan.*1) (rosbag_files s) ∧
  ∃ g, (foldl evict (gone, s) plan).1 = gone ++ g ∧ unlinks (rosbag_files s) (rosbag_files (foldl evict (gone, s) plan).2) ∅ g.
Proof.
  intros Hp. revert s gone. induction Hp as [|bag plan Hne _ IH]; intros s gone; cbn [foldl].
  - cbn. split; [rewrite filter_all; set_solver|]. exists []. split; [by rewrite app_nil_r|apply unlinks_none].
  - destruct (evict_rows bag s gone Hne) as (Hr & g & Hg & Hu). destruct (evict (gone, s) bag) as [gone' s'] eqn:E. cbn [fst snd] in *.
    destruct (IH s' gone') as (Hr' & g' & Hg' & Hu'). split.
    + rewrite Hr', Hr, list_filter_filter. apply filter_ext_elem. intros r _. cbn. set_solver.
    + exists (g ++ g'). split; [by rewrite Hg', Hg, app_assoc|]. eapply unlinks_trans; [exact Hu|exact Hu'].
Qed.

(** ** The quota *)

Lemma values_sum rows : foldr Z.add 0 (map_entries (bytes_per_path rows)).*2 = total_bytes rows.
Proof.
  rewrite bytes_per_path_values. unfold total_bytes, bag_bytes. symmetry.
  apply (sum_perm _ _ (fmap_Permutation _ _ _ (bytes_per_path_keys rows))).
Qed.

Lemma total_is_sum s :
  sizes_fit (rosbag_files s) → get_total_rosbag_storage_bytes s = total_bytes (rosbag_files s).
Proof.
  intros [Hs Hle]. unfold get_total_rosbag_storage_bytes. rewrite total_fits; [by rewrite values_sum|done| |cbn; lia].
  apply Forall_forall. intros [p v] Hv%elem_of_map_entries. rewrite bytes_per_path_lookup in Hv. case_decide; [|done].
  injection Hv as <-. apply (proj1 (foldl_max_bound _ 0)).
Qed.

Lemma bag_bytes_nonneg rows p : 0 ≤ bag_bytes rows p.
Proof. apply (proj1 (foldl_max_bound _ 0)). Qed.

(** The rows without some bags. *)
Definition without (gone : list string) (rows : list RosbagRow) : list RosbagRow := filter (λ r, row_path r ∉ gone) rows.

Lemma without_bytes gone rows p : p ∉ gone → bag_bytes (without gone rows) p = bag_bytes rows p.
Proof.
  intros Hp. unfold bag_bytes, sizes_of, without. do 2 f_equal. rewrite list_filter_filter. apply filter_ext_elem. naive_solver.
Qed.

Lemma elem_of_drop {A} k (l : list A) x : x ∈ drop k l → x ∈ l.
Proof. intros Hx. rewrite <-(take_drop k l). apply elem_of_app. by right. Qed.

(** What is left when the oldest [k] bags go. *)
Lemma without_oldest s k :
  let bags := group_bags (get_all_rosbag_files s) in
  total_bytes (without (take k (bags_by_age s)) (rosbag_files s)) = sum_bags (drop k bags).
Proof.
  cbv zeta. destruct (grouped_rows s) as [Hpaths Hbags]. set (bags := group_bags _) in *. set (gone := take k (bags_by_age s)).
  assert (NoDup (bags_by_age s)) as Hnd by apply NoDup_first_seen.
  rewrite <-(take_drop k (bags_by_age s)) in Hnd. apply NoDup_app in Hnd as (_ & Hapart & Hnd). fold gone in Hapart.
  assert (remove_dups (row_path <$> without gone (rosbag_files s)) ≡ₚ drop k (bags_by_age s)) as Hperm.
  { apply NoDup_Permutation; [apply NoDup_remove_dups|done|]. intros p. rewrite elem_of_remove_dups, list_elem_of_fmap.
    setoid_rewrite list_elem_of_filter. split.
    - intros (r & -> & Hg & Hr). assert (row_path r ∈ bags_by_age s) as Hin by (apply elem_of_bags_by_age, elem_of_paths; eauto).
      rewrite <-(take_drop k (bags_by_age s)) in Hin. apply elem_of_app in Hin as [?|?]; done.
    - intros Hin. assert (p ∈ bags_by_age s) as (r & Hr & <-)%elem_of_bags_by_age%elem_of_paths by (eapply elem_of_drop; done).
      exists r. split_and!; [done| |done]. intros Hg. by eapply Hapart. }
  unfold total_bytes. rewrite (sum_perm _ _ (fmap_Permutation _ _ _ Hperm)). unfold sum_bags. f_equal.
  rewrite <-Hpaths, <-fmap_drop, <-list_fmap_compose. apply list_fmap_ext. intros i [p [rid b]] Hi. cbn.
  assert ((p, (rid, b)) ∈ bags) as Hin by (eapply elem_of_drop, list_elem_of_lookup_2; done).
  destruct (Hbags _ _ _ Hin) as [Hb _]. rewrite Hb. apply without_bytes. intros Hg. eapply Hapart; [exact Hg|].
  rewrite <-Hpaths, <-fmap_drop. apply list_elem_of_fmap. exists (p, (rid, b)). split; [done|]. by eapply list_elem_of_lookup_2.
Qed.

(** A recording id names one bag. *)
Definition ids_name_bags (rows : list RosbagRow) : Prop :=
  ∀ r r', r ∈ rows → r' ∈ rows →
    rb_recording_id (row_info r) ≠ "" ∧ (rb_recording_id (row_info r) = rb_recording_id (row_info r') ↔ row_path r = row_path r').

Lemma sum_bags_drop k bags : Forall (λ b, 0 ≤ b.2.2) bags → sum_bags (drop k bags) ≤ sum_bags bags.
Proof.
  intros H. revert k. induction H as [|b bags Hb _ IH]; intros [|k]; cbn; try done. unfold sum_bags in *. cbn. specialize (IH k). lia.
Qed.

Lemma without_none rows : without [] rows = rows.
Proof. unfold without. apply filter_all. intros r _. apply not_elem_of_nil. Qed.

Lemma evicted_rows s k :
  let bags := group_bags (get_all_rosbag_files s) in
  ids_name_bags (rosbag_files s) →
  let r := foldl evict ([], s) ((λ b, (b.2.1, b.1)) <$> take k bags) in
  rosbag_files r.2 = without (take k (bags_by_age s)) (rosbag_files s) ∧ ∀ p, p ∈ r.1 ↔ p ∈ take k (bags_by_age s).
Proof.
  cbv zeta. destruct (grouped_rows s) as [Hpaths Hbags]. set (bags := group_bags _) in *. intros Hids.
  assert (∀ p, p ∈ take k (bags_by_age s) ↔ ∃ rid b, (p, (rid, b)) ∈ take k bags) as Htake.
  { intros p. rewrite <-Hpaths, <-fmap_take, list_elem_of_fmap. split; [intros ([q [rid b]] & -> & H); eauto|intros (rid & b & H); by exists (p, (rid, b))]. }
  assert (∀ b, b ∈ take k bags → b ∈ bags) as Hsub by (intros b Hb; rewrite <-(take_drop k bags); apply elem_of_app; by left).
  destruct (evict_all_rows ((λ b, (b.2.1, b.1)) <$> take k bags) s []) as (Hrows & g & Hg & Hu).
  { apply Forall_fmap, Forall_forall. intros [p [rid b]] Hin%Hsub. destruct (Hbags _ _ _ Hin) as (_ & r & Hr & _ & <-). by apply (Hids r r). }
  set (res := foldl evict _ _) in *. assert (rosbag_files res.2 = without (take k (bags_by_age s)) (rosbag_files s)) as Hw.
  { rewrite Hrows. apply filter_ext_elem. intros r Hr. rewrite Htake, list_elem_of_fmap. apply not_iff_compat. split.
    - intros ([rid p] & Heq & ([q [rid' b]] & [= -> ->] & Hin)%list_elem_of_fmap). cbn in *. exists rid', b.
      destruct (Hbags _ _ _ (Hsub _ Hin)) as (_ & r' & Hr' & <- & Hid). replace (row_path r) with (row_path r'); [done|].
      apply (Hids r' r); [done|done|congruence].
    - intros (rid & b & Hin). exists (rid, row_path r). destruct (Hbags _ _ _ (Hsub _ Hin)) as (_ & r' & Hr' & Hp & Hid). split.
      + cbn. rewrite <-Hid. by apply Hids.
      + apply list_elem_of_fmap. by exists (row_path r, (rid, b)). }
  split; [done|]. intros p. rewrite Hg, app_nil_l. destruct Hu as [Hgone _]. rewrite Hgone, Hw. split.
  - intros [[Hp|?] Hn]; [|set_solver]. apply elem_of_paths in Hp as (r & Hr & <-). apply dec_stable. intros Hne. apply Hn, elem_of_paths.
    exists r. split; [|done]. by apply list_elem_of_filter.
  - intros Hp. assert (p ∈ bags_by_age s) as Hin by (rewrite <-(take_drop k (bags_by_age s)); apply elem_of_app; by left).
    split; [left; by apply elem_of_bags_by_age|]. intros (r & [Hn _]%list_elem_of_filter & <-)%elem_of_paths. done.
Qed.

(** C10: Over the quota the oldest bags go, each with all its rows and its directory,
    until the total fits, and no fewer bags would do. *)
Theorem quota_evicts_oldest max s :
  sizes_fit (rosbag_files s) → ids_name_bags (rosbag_files s) → 0 ≤ max →
  let '(evicted, (gone, s')) := evict_bags_over_quota max s in
  ∃ k, evicted = take k (bags_by_age s) ∧ rosbag_files s' = without evicted (rosbag_files s) ∧
    (∀ p, p ∈ gone ↔ p ∈ evicted) ∧ get_total_rosbag_storage_bytes s' ≤ max ∧
    ∀ j, (j < k)%nat → max < total_bytes (without (take j (bags_by_age s)) (rosbag_files s)).
Proof.
  intros Hfit Hids Hmax. unfold evict_bags_over_quota, evictions. pose proof (total_is_sum s Hfit) as Htotal.
  set (bags := group_bags (get_all_rosbag_files s)). assert (total_bytes (rosbag_files s) = sum_bags bags) as Hsum
    by (rewrite <-(without_none (rosbag_files s)); apply (without_oldest s 0)).
  destruct (get_total_rosbag_storage_bytes s <=? max) eqn:E.
  { apply Z.leb_le in E. exists 0%nat. cbn. rewrite without_none. split_and!; [done|done|done|done|lia]. }
  destruct (grouped_rows s) as [Hpaths Hbags]. fold bags in Hpaths, Hbags.
  assert (Forall (λ b, 0 ≤ b.2.2) bags) as Hnn.
  { apply Forall_forall. intros [p [rid b]] Hin. destruct (Hbags _ _ _ Hin) as [-> _]. apply bag_bytes_nonneg. }
  destruct (eviction_plan_spec max bags Hnn) as (k & Hk & Hend & Hmin). rewrite Htotal, Hsum, Hk.
  destruct (evicted_rows s k Hids) as [Hrows Hgone]. fold bags in Hrows, Hgone.
  destruct (foldl evict ([], s) _) as [gone s']. cbn [fst snd] in *. exists k.
  assert (((λ b : string * (string * Z), (b.2.1, b.1)) <$> take k bags).*2 = take k (bags_by_age s)) as Hev
    by (by rewrite <-list_fmap_compose, <-Hpaths, <-fmap_take).
  rewrite Hev. split_and!; [done|done|done| |].
  - rewrite total_is_sum; rewrite Hrows.
    + rewrite without_oldest. fold bags. destruct Hend as [?|Hnil]; [done|]. by rewrite Hnil.
    + destruct Hfit as [Hs Hle]. split.
      { rewrite Forall_forall in Hs |- *. intros r [_ Hr]%list_elem_of_filter. by apply Hs. }
      rewrite values_sum in *. rewrite without_oldest. fold bags.
      pose proof (sum_bags_drop k bags Hnn). lia.
  - intros j Hj. rewrite without_oldest. by apply Hmin.
Qed.
