(* ===== verification/PatternMatcher.v ===== *)
(** * Wildcard matching of fault codes

    [PatternMatcher] (correlation/pattern_matcher.cpp): a pattern with ['*'] is
    turned into an ECMAScript regular expression, compiled, cached and matched
    with [std::regex_match]; a pattern without is compared for equality.  The
    part of [std::regex] that the generated expressions use is modelled here:
    anchors, identity escapes, [.*] and ordinary characters. *)

From S2P Require Import Prelude.

Abbreviation chars := (list ascii).

Definition to_chars (s : string) : chars := String.list_ascii_of_string s.

(** ** [std::regex] on the generated fragment *)

Inductive re_atom :=
  | ReBegin                (* ^ *)
  | ReEnd                  (* $ *)
  | ReChar (c : ascii)     (* c or \c *)
  | ReAnyStar.             (* .* *)

#[global] Instance re_atom_eq_dec : EqDecision re_atom.
Proof. solve_decision. Defined.

Definition is_syntax_char (c : ascii) : bool :=
  existsb (Ascii.eqb c)
    ["^"; "$"; "\"; "."; "*"; "+"; "?"; "("; ")"; "["; "]"; "{"; "}"; "|"]%char.

(** [std::regex(str)]; [None] is a syntax error or syntax outside the fragment. *)
Fixpoint re_parse (l : chars) : option (list re_atom) :=
  match l with
  | [] => Some []
  | "^"%char :: l' => cons ReBegin <$> re_parse l'
  | "$"%char :: l' => cons ReEnd <$> re_parse l'
  | "\"%char :: c :: l' => if is_syntax_char c then cons (ReChar c) <$> re_parse l' else None
  | "."%char :: "*"%char :: l' => cons ReAnyStar <$> re_parse l'
  | c :: l' => if is_syntax_char c then None else cons (ReChar c) <$> re_parse l'
  end.

(** [.] does not match a line terminator. *)
Definition is_line_terminator (c : ascii) : bool :=
  Ascii.eqb c "010"%char || Ascii.eqb c "013"%char.

(** [std::regex_match]: the whole of [s] against the atoms; [start] says whether
    the current position is the beginning of the subject. *)
Fixpoint re_match (re : list re_atom) (start : bool) (s : chars) : bool :=
  match re with
  | [] => match s with [] => true | _ => false end
  | ReBegin :: re' => start && re_match re' start s
  | ReEnd :: re' => match s with [] => re_match re' start s | _ => false end
  | ReChar c :: re' =>
      match s with
      | d :: s' => Ascii.eqb c d && re_match re' false s'
      | [] => false
      end
  | ReAnyStar :: re' =>
      (fix star (start : bool) (s : chars) : bool :=
         re_match re' start s ||
         match s with
         | d :: s' => negb (is_line_terminator d) && star false s'
         | [] => false
         end) start s
  end.

(** ** Compiling a pattern *)

(** The [switch] of [compile_pattern]. *)
Definition regex_of_char (c : ascii) : chars :=
  if Ascii.eqb c "*" then ["."; "*"]%char
  else if is_syntax_char c then ["\"%char; c]
  else [c].

(** The characters streamed into [regex_str]. *)
Definition regex_str (pattern : string) : chars :=
  ["^"%char] ++ concat (map regex_of_char (to_chars pattern)) ++ ["$"%char].

Definition has_star (pattern : string) : bool := existsb (Ascii.eqb "*"%char) (to_chars pattern).

Record CompiledPattern := mkCompiled {
  cp_original : string;
  cp_regex : option (list re_atom);
  cp_has_wildcard : bool;
}.

#[global] Instance CompiledPattern_eq_dec : EqDecision CompiledPattern.
Proof. solve_decision. Defined.

(** A default-constructed [std::regex] is [Some []]; [None] is the exception
    thrown by its constructor. *)
Definition compile_pattern (pattern : string) : CompiledPattern :=
  if has_star pattern
  then {| cp_original := pattern; cp_regex := re_parse (regex_str pattern);
          cp_has_wildcard := true |}
  else {| cp_original := pattern; cp_regex := Some []; cp_has_wildcard := false |}.

(** [None] when matching would have to use an expression that failed to compile. *)
Definition regex_match (re : option (list re_atom)) (code : string) : option bool :=
  (λ re, re_match re true (to_chars code)) <$> re.

Definition matches_wildcard (code pattern : string) : option bool :=
  if has_star pattern then regex_match (cp_regex (compile_pattern pattern)) code
  else Some (code =?ₛ pattern).

(** ** The matcher and its cache *)

Record FaultPattern := mkFaultPattern {
  fp_id : string;
  fp_codes : list string;
}.

Record PatternMatcher := mkMatcher {
  pm_patterns : gmap string FaultPattern;
  pm_cache : gmap string CompiledPattern;
}.

Definition get_compiled (pattern : string) (m : PatternMatcher) : CompiledPattern * PatternMatcher :=
  match pm_cache m !! pattern with
  | Some c => (c, m)
  | None =>
      let c := compile_pattern pattern in
      (c, {| pm_patterns := pm_patterns m; pm_cache := <[pattern := c]> (pm_cache m) |})
  end.

(** The constructor: every code of every pattern compiled once. *)
Definition new_matcher (patterns : gmap string FaultPattern) : PatternMatcher :=
  {| pm_patterns := patterns;
     pm_cache :=
       foldl (λ cache e,
         foldl (λ cache code,
           match cache !! code with
           | Some _ => cache
           | None => <[code := compile_pattern code]> cache
           end) cache (fp_codes e.2)) ∅ (map_entries patterns) |}.

Fixpoint matches_any (code : string) (codes : list string) (m : PatternMatcher)
    : option bool * PatternMatcher :=
  match codes with
  | [] => (Some false, m)
  | c :: codes' =>
      let '(compiled, m) := get_compiled c m in
      let hit := if cp_has_wildcard compiled then regex_match (cp_regex compiled) code
                 else Some (code =?ₛ c) in
      match hit with
      | None => (None, m)
      | Some true => (Some true, m)
      | Some false => matches_any code codes' m
      end
  end.

Definition matches (code pattern_id : string) (m : PatternMatcher) : option bool * PatternMatcher :=
  match pm_patterns m !! pattern_id with
  | None => (Some false, m)
  | Some p => matches_any code (fp_codes p) m
  end.

Fixpoint find_matching (code : string) (entries : list (string * FaultPattern))
    (m : PatternMatcher) : option (list string) * PatternMatcher :=
  match entries with
  | [] => (Some [], m)
  | (id, p) :: entries' =>
      match matches_any code (fp_codes p) m with
      | (None, m) => (None, m)
      | (Some hit, m) =>
          let '(rest, m) := find_matching code entries' m in
          ((λ rest, if hit then id :: rest else rest) <$> rest, m)
      end
  end.

Definition find_matching_patterns (code : string) (m : PatternMatcher)
    : option (list string) * PatternMatcher :=
  find_matching code (map_entries (pm_patterns m)) m.

(** ** Reference semantics: globs *)

Inductive glob : chars → chars → Prop :=
  | glob_nil : glob [] []
  | glob_char c p s : c ≠ "*"%char → glob p s → glob (c :: p) (c :: s)
  | glob_star p w s :
      Forall (λ d, is_line_terminator d = false) w → glob p s → glob ("*"%char :: p) (w ++ s).

Fixpoint globb (p s : chars) : bool :=
  match p with
  | [] => match s with [] => true | _ => false end
  | c :: p' =>
      if Ascii.eqb c "*" then
        (fix star (s : chars) : bool :=
           globb p' s ||
           match s with
           | d :: s' => negb (is_line_terminator d) && star s'
           | [] => false
           end) s
      else match s with
           | d :: s' => Ascii.eqb c d && globb p' s'
           | [] => false
           end
  end.

Definition glob_matches (code pattern : string) : bool := globb (to_chars pattern) (to_chars code).

(** The cache-free reference of [matches_any] and [matches]. *)
Definition matches_any_ref (code : string) (codes : list string) : bool :=
  existsb (glob_matches code) codes.

Definition matches_ref (patterns : gmap string FaultPattern) (code pattern_id : string) : bool :=
  match patterns !! pattern_id with
  | None => false
  | Some p => matches_any_ref code (fp_codes p)
  end.

(** ** Correctness *)

Definition atom_of_char (c : ascii) : re_atom :=
  if Ascii.eqb c "*" then ReAnyStar else ReChar c.

Lemma re_parse_char c l :
  re_parse (regex_of_char c ++ l) = cons (atom_of_char c) <$> re_parse l.
Proof. destruct c as [[] [] [] [] [] [] [] []]; reflexivity. Qed.

Lemma re_parse_chars l k :
  re_parse (concat (map regex_of_char l) ++ k) = app (map atom_of_char l) <$> re_parse k.
Proof.
  induction l as [|c l IH]; simpl; [by destruct (re_parse k)|].
  rewrite <- app_assoc, re_parse_char, IH. by destruct (re_parse k).
Qed.

(** The generated expression always compiles. *)
Lemma re_parse_regex_str pattern :
  re_parse (regex_str pattern) =
    Some (ReBegin :: map atom_of_char (to_chars pattern) ++ [ReEnd]).
Proof.
  unfold regex_str.
  change (re_parse (["^"%char] ++ ?l)) with (cons ReBegin <$> re_parse l).
  cbn [app re_parse]. by rewrite re_parse_chars.
Qed.

Lemma re_match_glob p start s : re_match (map atom_of_char p ++ [ReEnd]) start s = globb p s.
Proof.
  revert start s. induction p as [|c p IH]; intros start s; [by destruct s|].
  cbn [map app]. unfold atom_of_char at 1. cbn [globb].
  destruct (Ascii.eqb c "*") eqn:E.
  - revert start. induction s as [|d s IHs]; intros start; cbn [re_match]; rewrite IH; [done|].
    f_equal. f_equal. apply IHs.
  - destruct s as [|d s]; [done|]. cbn [re_match]. by rewrite IH.
Qed.

Lemma globb_no_star p s : existsb (Ascii.eqb "*"%char) p = false → globb p s = bool_decide (s = p).
Proof.
  revert s. induction p as [|c p IH]; intros s H; [by destruct s|].
  cbn [existsb] in H. apply orb_false_iff in H as [Hc Hp].
  cbn [globb]. rewrite Ascii.eqb_sym, Hc. destruct s as [|d s]; [done|].
  rewrite IH by done. destruct (Ascii.eqb_spec c d) as [->|Hne]; simpl.
  - case_bool_decide; case_bool_decide; naive_solver.
  - rewrite bool_decide_eq_false_2; [done|]. naive_solver.
Qed.

Lemma to_chars_inj s t : to_chars s = to_chars t → s = t.
Proof.
  intros H. rewrite <- (String.string_of_list_ascii_of_string s),
    <- (String.string_of_list_ascii_of_string t). unfold to_chars in H. by rewrite H.
Qed.

Lemma globb_spec p s : globb p s = true ↔ glob p s.
Proof.
  split.
  - revert s. induction p as [|c p IH]; intros s; cbn [globb].
    + destruct s; [constructor|done].
    + destruct (Ascii.eqb_spec c "*") as [->|Hc].
      * induction s as [|d s IHs]; intros H; apply orb_true_iff in H as [H|H]; try done.
        -- apply (glob_star p [] []); [constructor|by apply IH].
        -- apply (glob_star p [] (d :: s)); [constructor|by apply IH].
        -- apply andb_true_iff in H as [Hd H]. specialize (IHs H).
           inv IHs. apply (glob_star p (d :: w)); [|done].
           constructor; [by apply negb_true_iff|done].
      * destruct s as [|d s]; [done|]. intros [->%Ascii.eqb_eq H]%andb_true_iff.
        constructor; [done|by apply IH].
  - induction 1 as [|c p s Hc _ IH|p w s Hw _ IH]; cbn [globb].
    + done.
    + apply Ascii.eqb_neq in Hc. by rewrite Hc, Ascii.eqb_refl.
    + simpl. induction Hw as [|d w Hd Hw IHw]; simpl.
      * destruct s; by rewrite IH.
      * rewrite Hd. simpl. apply orb_true_iff. by right.
Qed.

Lemma compiled_match pattern code :
  (if cp_has_wildcard (compile_pattern pattern)
   then regex_match (cp_regex (compile_pattern pattern)) code
   else Some (code =?ₛ pattern)) = Some (glob_matches code pattern).
Proof.
  unfold compile_pattern, glob_matches.
  destruct (has_star pattern) eqn:E; cbn [cp_has_wildcard cp_regex].
  - rewrite re_parse_regex_str. unfold regex_match. simpl. by rewrite re_match_glob.
  - rewrite globb_no_star by done. unfold str_eqb. f_equal. apply bool_decide_ext.
    split; [by intros ->|apply to_chars_inj].
Qed.

(** Wildcard matching never throws and is glob matching: a pattern matches a
    code exactly when the code is the pattern with every ['*'] replaced by some
    sequence of characters without line terminators (every regex metacharacter
    of the pattern stands for itself). *)
Theorem matches_wildcard_is_glob code pattern :
  ∃ b, matches_wildcard code pattern = Some b ∧
    (b = true ↔ glob (to_chars pattern) (to_chars code)).
Proof.
  exists (glob_matches code pattern). split; [|apply globb_spec].
  rewrite <- compiled_match. unfold matches_wildcard, compile_pattern.
  by destruct (has_star pattern).
Qed.

(** ** The cache is transparent *)

Definition cache_ok (m : PatternMatcher) : Prop :=
  map_Forall (λ p c, c = compile_pattern p) (pm_cache m).

Lemma get_compiled_spec p m :
  cache_ok m →
  (get_compiled p m).1 = compile_pattern p ∧ cache_ok (get_compiled p m).2 ∧
  pm_patterns (get_compiled p m).2 = pm_patterns m.
Proof.
  intros Hok. unfold get_compiled. destruct (pm_cache m !! p) as [c|] eqn:E.
  - split_and!; [by apply Hok in E|done|done].
  - split_and!; [done| |done]. unfold cache_ok. simpl. by apply map_Forall_insert_2.
Qed.

Lemma new_matcher_cache_ok patterns : cache_ok (new_matcher patterns).
Proof.
  unfold cache_ok, new_matcher. simpl.
  apply foldl_preserves; [|apply map_Forall_empty]. intros cache e Hcache.
  apply foldl_preserves; [|done]. intros cache' code H.
  case_match; [done|]. by apply map_Forall_insert_2.
Qed.

Lemma matches_any_spec code codes m :
  cache_ok m →
  (matches_any code codes m).1 = Some (matches_any_ref code codes) ∧
  cache_ok (matches_any code codes m).2 ∧
  pm_patterns (matches_any code codes m).2 = pm_patterns m.
Proof.
  revert m. induction codes as [|c codes IH]; intros m Hok; [done|]. simpl.
  destruct (get_compiled_spec c m Hok) as (Hc & Hok' & Hp).
  destruct (get_compiled c m) as [compiled m']. simpl in *. subst compiled.
  rewrite compiled_match. destruct (glob_matches code c); simpl; [done|].
  rewrite <- Hp. by apply IH.
Qed.

(** The compiled-pattern cache is transparent: from any cache the matcher
    can have built, [matches] answers what the cache-free definition answers
    for the configured patterns ([false] for an unknown pattern id), and leaves
    such a cache behind. *)
Theorem matches_cache_transparent code pattern_id m :
  cache_ok m →
  let '(answer, m') := matches code pattern_id m in
  answer = Some (matches_ref (pm_patterns m) code pattern_id) ∧
  cache_ok m' ∧ pm_patterns m' = pm_patterns m.
Proof.
  intros Hok. unfold matches, matches_ref. destruct (pm_patterns m !! pattern_id) as [p|]; [|done].
  pose proof (matches_any_spec code (fp_codes p) m Hok) as H.
  by destruct (matches_any code (fp_codes p) m).
Qed.

(** [find_matching_patterns] lists, in increasing order of id, exactly the
    configured patterns that match. *)
Theorem find_matching_patterns_spec code patterns :
  (find_matching_patterns code (new_matcher patterns)).1 =
    Some (filter (λ id, matches_ref patterns code id = true) (map_entries patterns).*1).
Proof.
  unfold find_matching_patterns. simpl.
  assert (H : ∀ l m, cache_ok m → (∀ id p, (id, p) ∈ l → patterns !! id = Some p) →
    (find_matching code l m).1 =
      Some (filter (λ id, matches_ref patterns code id = true) l.*1)).
  { induction l as [|[id p] l IH]; intros m Hok Hl; [done|]. simpl.
    destruct (matches_any_spec code (fp_codes p) m Hok) as (H1 & H2 & _).
    destruct (matches_any code (fp_codes p) m) as [o m']. simpl in *. subst o.
    specialize (IH m' H2). destruct (find_matching code l m') as [rest m'']. simpl in *.
    rewrite IH by (intros id' p' Hin; apply Hl; by right). simpl. f_equal.
    rewrite filter_cons.
    assert (matches_ref patterns code id = matches_any_ref code (fp_codes p)) as ->
      by (unfold matches_ref; by rewrite (Hl id p) by left).
    destruct (matches_any_ref code (fp_codes p)); by case_decide. }
  apply H; [apply new_matcher_cache_ok|]. intros id p. apply elem_of_map_entries.
Qed.
