(* ===== verification/CorrelationTypes.v ===== *)
(** * Correlation: configuration data and its validation

    The types of correlation/types.hpp with their string conversions
    (correlation/types.cpp), and [validate_config] of
    correlation/config_parser.cpp.  Reading the YAML document itself is the work
    of yaml-cpp and is not modelled: a [CorrelationConfig] is the input. *)

From S2P Require Import Prelude PatternMatcher.

(** ** Enumerations and their spellings *)

Inductive CorrelationMode := HIERARCHICAL | AUTO_CLUSTER.
Inductive Representative := FIRST | MOST_RECENT | HIGHEST_SEVERITY.

#[global] Instance CorrelationMode_eq_dec : EqDecision CorrelationMode.
Proof. solve_decision. Defined.
#[global] Instance Representative_eq_dec : EqDecision Representative.
Proof. solve_decision. Defined.

(** [::tolower] in the "C" locale, over a whole string. *)
Definition tolower (c : ascii) : ascii :=
  let n := nat_of_ascii c in
  if bool_decide (65 ≤ n) && bool_decide (n ≤ 90) then ascii_of_nat (n + 32) else c.

Fixpoint lower (s : string) : string :=
  match s with
  | EmptyString => EmptyString
  | String c s' => String (tolower c) (lower s')
  end.

(** [None] is the [std::invalid_argument] of an unknown spelling. *)
Definition string_to_mode (mode_str : string) : option CorrelationMode :=
  let l := lower mode_str in
  if l =?ₛ "hierarchical" then Some HIERARCHICAL
  else if (l =?ₛ "auto_cluster") || (l =?ₛ "autocluster") || (l =?ₛ "cluster")
  then Some AUTO_CLUSTER
  else None.

Definition mode_to_string (mode : CorrelationMode) : string :=
  match mode with HIERARCHICAL => "hierarchical" | AUTO_CLUSTER => "auto_cluster" end.

Definition string_to_representative (rep_str : string) : option Representative :=
  let l := lower rep_str in
  if l =?ₛ "first" then Some FIRST
  else if (l =?ₛ "most_recent") || (l =?ₛ "mostrecent") || (l =?ₛ "recent")
  then Some MOST_RECENT
  else if (l =?ₛ "highest_severity") || (l =?ₛ "highestseverity") || (l =?ₛ "severity")
  then Some HIGHEST_SEVERITY
  else None.

Definition representative_to_string (rep : Representative) : string :=
  match rep with
  | FIRST => "first" | MOST_RECENT => "most_recent" | HIGHEST_SEVERITY => "highest_severity"
  end.

(** ** Severities *)

Definition severity_to_string (severity : Z) : string :=
  match severity with
  | 0%Z => "INFO" | 1%Z => "WARNING" | 2%Z => "ERROR" | 3%Z => "CRITICAL" | _ => "UNKNOWN"
  end.

(** The [uint8_t] overload of [severity_rank]. *)
Definition severity_rank_u8 (severity : Z) : Z :=
  if (severity <=? 3)%Z then severity else 0.

(** The [std::string] overload of [severity_rank]. *)
Definition severity_rank (severity : string) : Z :=
  if (severity =?ₛ "CRITICAL") || (severity =?ₛ "3") then 3
  else if (severity =?ₛ "ERROR") || (severity =?ₛ "2") then 2
  else if (severity =?ₛ "WARN") || (severity =?ₛ "WARNING") || (severity =?ₛ "1") then 1
  else 0.

(** ** Rules and configuration *)

Record CorrelationRule := mkRule {
  rule_id : string;
  rule_name : string;
  rule_mode : CorrelationMode;
  rule_root_cause_codes : list string;
  rule_symptom_pattern_ids : list string;
  rule_inline_symptom_codes : list string;
  rule_mute_symptoms : bool;
  rule_auto_clear_with_root : bool;
  rule_match_pattern_ids : list string;
  rule_min_count : Z;                      (* uint32_t *)
  rule_show_as_single : bool;
  rule_representative : Representative;
  rule_window_ms : Z;                      (* uint32_t *)
}.

Record CorrelationConfig := mkConfig {
  cfg_enabled : bool;
  cfg_default_window_ms : Z;
  cfg_patterns : gmap string FaultPattern;
  cfg_rules : list CorrelationRule;
}.

(** The default member initialisers. *)
Definition default_rule : CorrelationRule :=
  {| rule_id := ""; rule_name := ""; rule_mode := HIERARCHICAL; rule_root_cause_codes := [];
     rule_symptom_pattern_ids := []; rule_inline_symptom_codes := [];
     rule_mute_symptoms := true; rule_auto_clear_with_root := true;
     rule_match_pattern_ids := []; rule_min_count := 3; rule_show_as_single := true;
     rule_representative := HIGHEST_SEVERITY; rule_window_ms := 500 |}.

Definition default_config : CorrelationConfig :=
  {| cfg_enabled := false; cfg_default_window_ms := 500; cfg_patterns := ∅; cfg_rules := [] |}.

(** ** Validation *)

Record ValidationResult := mkValidation {
  vr_valid : bool;
  vr_errors : list string;
  vr_warnings : list string;
}.

Definition validation_ok : ValidationResult :=
  {| vr_valid := true; vr_errors := []; vr_warnings := [] |}.

Definition add_error (msg : string) (r : ValidationResult) : ValidationResult :=
  {| vr_valid := false; vr_errors := vr_errors r ++ [msg]; vr_warnings := vr_warnings r |}.

Definition add_warning (msg : string) (r : ValidationResult) : ValidationResult :=
  {| vr_valid := vr_valid r; vr_errors := vr_errors r; vr_warnings := vr_warnings r ++ [msg] |}.

(** [if (b) f(result);] *)
Definition when (b : bool) (f : ValidationResult → ValidationResult) (r : ValidationResult)
    : ValidationResult := if b then f r else r.

Definition validate_pattern (e : string * FaultPattern) (acc : gset string * ValidationResult)
    : gset string * ValidationResult :=
  let '(pattern_ids, r) := acc in
  let '(id, pattern) := e in
  let r := when (bool_decide (id ∈ pattern_ids)) (add_error ("Duplicate pattern ID: " +:+ id)) r in
  let r := when (bool_decide (fp_codes pattern = []))
             (add_warning ("Pattern '" +:+ id +:+ "' has no codes defined")) r in
  ({[id]} ∪ pattern_ids, r).

Definition validate_refs (pattern_ids : gset string) (rid : string) (refs : list string)
    (r : ValidationResult) : ValidationResult :=
  foldl (λ r pattern_id, when (bool_decide (pattern_id ∉ pattern_ids))
    (add_error ("Rule '" +:+ rid +:+ "' references unknown pattern: " +:+ pattern_id)) r) r refs.

Definition validate_rule (pattern_ids : gset string) (rule : CorrelationRule)
    (acc : gset string * ValidationResult) : gset string * ValidationResult :=
  let '(rule_ids, r) := acc in
  let id := rule_id rule in
  let r := when (bool_decide (id ∈ rule_ids)) (add_error ("Duplicate rule ID: " +:+ id)) r in
  let r := when (id =?ₛ "") (add_error "Rule missing 'id' field") r in
  let r :=
    match rule_mode rule with
    | HIERARCHICAL =>
        let r := when (bool_decide (rule_root_cause_codes rule = []))
          (add_error ("Hierarchical rule '" +:+ id +:+ "' has no root_cause codes")) r in
        let r := validate_refs pattern_ids id (rule_symptom_pattern_ids rule) r in
        when (bool_decide (rule_symptom_pattern_ids rule = []) &&
              bool_decide (rule_inline_symptom_codes rule = []))
          (add_warning ("Hierarchical rule '" +:+ id +:+ "' has no symptoms defined")) r
    | AUTO_CLUSTER =>
        let r := validate_refs pattern_ids id (rule_match_pattern_ids rule) r in
        let r := when (bool_decide (rule_match_pattern_ids rule = []))
          (add_warning ("Auto-cluster rule '" +:+ id +:+ "' has no match patterns defined")) r in
        if (rule_min_count rule =? 0)%Z
        then add_error ("Rule '" +:+ id +:+ "' has min_count=0, must be at least 1") r
        else when (rule_min_count rule <? 2)%Z
          (add_warning ("Rule '" +:+ id +:+
             "' has min_count < 2, which may cause false clusters")) r
    end in
  let r :=
    if (rule_window_ms rule =? 0)%Z then add_error ("Rule '" +:+ id +:+ "' has window_ms=0") r
    else when (60000 <? rule_window_ms rule)%Z
      (add_warning ("Rule '" +:+ id +:+ "' has window_ms > 60s, which may be too long")) r in
  ({[id]} ∪ rule_ids, r).

Definition validate_config (config : CorrelationConfig) : ValidationResult :=
  if negb (cfg_enabled config) then validation_ok
  else
    let '(pattern_ids, r) :=
      foldl (λ acc e, validate_pattern e acc) (∅, validation_ok)
        (map_entries (cfg_patterns config)) in
    let '(_, r) :=
      foldl (λ acc rule, validate_rule pattern_ids rule acc) (∅, r) (cfg_rules config) in
    when (bool_decide (cfg_rules config = []))
      (add_warning "Correlation is enabled but no rules are defined") r.

(** ** What a valid configuration guarantees *)

Definition pattern_refs (rule : CorrelationRule) : list string :=
  match rule_mode rule with
  | HIERARCHICAL => rule_symptom_pattern_ids rule
  | AUTO_CLUSTER => rule_match_pattern_ids rule
  end.

Record rule_wf (patterns : gmap string FaultPattern) (rule : CorrelationRule) : Prop := {
  rule_wf_id : rule_id rule ≠ "";
  rule_wf_root : rule_mode rule = HIERARCHICAL → rule_root_cause_codes rule ≠ [];
  rule_wf_refs : ∀ p, p ∈ pattern_refs rule → is_Some (patterns !! p);
  rule_wf_min : rule_mode rule = AUTO_CLUSTER → rule_min_count rule ≠ 0%Z;
  rule_wf_window : rule_window_ms rule ≠ 0%Z;
}.

Record config_wf (config : CorrelationConfig) : Prop := {
  config_wf_ids : NoDup (rule_id <$> cfg_rules config);
  config_wf_rules : ∀ rule, rule ∈ cfg_rules config → rule_wf (cfg_patterns config) rule;
}.

Lemma valid_when_error b msg r :
  vr_valid (when b (add_error msg) r) = vr_valid r && negb b.
Proof. destruct b; simpl; by rewrite ?andb_false_r, ?andb_true_r. Qed.

Lemma valid_when_warning b msg r : vr_valid (when b (add_warning msg) r) = vr_valid r.
Proof. by destruct b. Qed.

Lemma valid_validate_refs pattern_ids rid refs r :
  vr_valid (validate_refs pattern_ids rid refs r) =
    vr_valid r && bool_decide (Forall (λ p, p ∈ pattern_ids) refs).
Proof.
  revert r. unfold validate_refs. induction refs as [|p refs IH]; intros r; cbn [foldl].
  - rewrite bool_decide_eq_true_2; [by rewrite andb_true_r|constructor].
  - rewrite IH, valid_when_error, <- andb_assoc. f_equal.
    apply eq_bool_prop_intro. rewrite andb_True, negb_True, !bool_decide_spec, Forall_cons.
    destruct (decide (p ∈ pattern_ids)); tauto.
Qed.

Lemma validate_patterns_spec entries ids r :
  NoDup entries.*1 → (∀ id, id ∈ entries.*1 → id ∉ ids) →
  let '(ids', r') := foldl (λ acc e, validate_pattern e acc) (ids, r) entries in
  vr_valid r' = vr_valid r ∧ ∀ id, id ∈ ids' ↔ id ∈ ids ∨ id ∈ entries.*1.
Proof.
  revert ids r. induction entries as [|[id p] entries IH]; intros ids r; simpl.
  { intros. split; [done|set_solver]. }
  rewrite NoDup_cons. intros [Hid Hnd] Hfresh.
  specialize (IH ({[id]} ∪ ids)). set (r1 := when _ _ (when _ _ r)).
  specialize (IH r1 Hnd). destruct (foldl _ _ _) as [ids' r'].
  destruct IH as [Hv Hids]; [set_solver|].
  split; [|intros i; rewrite Hids; set_solver].
  rewrite Hv. unfold r1. rewrite valid_when_warning, valid_when_error.
  rewrite bool_decide_eq_false_2 by (apply Hfresh; left). apply andb_true_r.
Qed.

Lemma validate_rule_spec (patterns : gmap string FaultPattern) pids rule seen r :
  (∀ p, p ∈ pids ↔ is_Some (patterns !! p)) →
  vr_valid (validate_rule pids rule (seen, r)).2 = true ↔
    vr_valid r = true ∧ rule_id rule ∉ seen ∧ rule_wf patterns rule.
Proof.
  intros Hp. unfold validate_rule. cbn [snd].
  assert (Hs : ∀ refs, bool_decide (Forall (λ p, p ∈ pids) refs) = true ↔
    ∀ p, p ∈ refs → is_Some (patterns !! p)).
  { intros refs. rewrite bool_decide_eq_true, Forall_forall. by setoid_rewrite Hp. }
  assert (Hwf : rule_wf patterns rule ↔ rule_id rule ≠ "" ∧
    (rule_mode rule = HIERARCHICAL → rule_root_cause_codes rule ≠ []) ∧
    (∀ p, p ∈ pattern_refs rule → is_Some (patterns !! p)) ∧
    (rule_mode rule = AUTO_CLUSTER → rule_min_count rule ≠ 0%Z) ∧ rule_window_ms rule ≠ 0%Z).
  { split; [by intros []|intros (?&?&?&?&?); by constructor]. }
  rewrite Hwf. clear Hwf. unfold pattern_refs. destruct (rule_mode rule);
    destruct (Z.eqb_spec (rule_window_ms rule) 0);
    try destruct (Z.eqb_spec (rule_min_count rule) 0); cbn [vr_valid add_error];
    rewrite ?valid_when_warning, ?valid_validate_refs, ?valid_when_error,
      ?valid_validate_refs, ?valid_when_error, ?andb_true_iff, ?Hs, ?negb_true_iff,
      ?bool_decide_eq_false, ?str_eqb_neq; clear Hs; intuition (discriminate || congruence).
Qed.

Lemma validate_rules_spec (patterns : gmap string FaultPattern) pids rules seen r :
  (∀ p, p ∈ pids ↔ is_Some (patterns !! p)) →
  vr_valid (foldl (λ acc rule, validate_rule pids rule acc) (seen, r) rules).2 = true ↔
    vr_valid r = true ∧ NoDup (rule_id <$> rules) ∧
    (∀ rule, rule ∈ rules → rule_id rule ∉ seen ∧ rule_wf patterns rule).
Proof.
  intros Hp. revert seen r. induction rules as [|rule rules IH]; intros seen r.
  { simpl. set_solver by apply NoDup_nil_2. }
  cbn [foldl]. rewrite fmap_cons, NoDup_cons.
  pose proof (validate_rule_spec patterns pids rule seen r Hp) as Hr.
  assert (Hseen : (validate_rule pids rule (seen, r)).1 = {[rule_id rule]} ∪ seen) by done.
  destruct (validate_rule pids rule (seen, r)) as [seen1 r1]. simpl in Hr, Hseen. subst seen1.
  rewrite IH, Hr. setoid_rewrite elem_of_cons. setoid_rewrite not_elem_of_union.
  setoid_rewrite not_elem_of_singleton. rewrite list_elem_of_fmap. split.
  - intros ((Hv & Hfresh & Hwf) & Hnd & Hall). split_and!; [done| |done|].
    + intros (rule' & Heq & Hin). by destruct (Hall rule' Hin) as [[? _] _].
    + intros rule' [->|Hin]; [done|]. by destruct (Hall rule' Hin) as [[_ ?] ?].
  - intros (Hv & [Hnew Hnd] & Hall). split_and!; [done|by apply Hall; left..|done|].
    intros rule' Hin. destruct (Hall rule' (or_intror Hin)). split_and!; [|done..].
    intros Heq. apply Hnew. by exists rule'.
Qed.

Lemma validate_config_iff config :
  cfg_enabled config = true →
  vr_valid (validate_config config) = true ↔ config_wf config.
Proof.
  intros Hen. unfold validate_config. rewrite Hen. simpl.
  pose proof (validate_patterns_spec (map_entries (cfg_patterns config)) ∅ validation_ok
    (NoDup_map_entries_keys _)) as Hpat.
  destruct (foldl _ _ (map_entries _)) as [pids r]. destruct Hpat as [Hv Hids]; [set_solver|].
  pose proof (validate_rules_spec (cfg_patterns config) pids (cfg_rules config) ∅ r) as Hr.
  destruct (foldl _ _ (cfg_rules config)) as [seen r'].
  rewrite valid_when_warning. simpl in Hr. rewrite Hr.
  - rewrite Hv. split.
    + intros (_ & ? & H). split; [done|]. intros rule Hin. by apply H.
    + intros [? H]. split_and!; [done|done|]. set_solver.
  - intros p. rewrite Hids, list_elem_of_fmap. split.
    + intros [?|([k v] & -> & Hkv%elem_of_map_entries)]; [set_solver|by exists v].
    + intros [v Hkv%elem_of_map_entries]. right. by exists (p, v).
Qed.

(** Validation of an enabled configuration succeeds exactly when rule ids are
    non-empty and pairwise distinct, every referenced pattern is defined, every
    hierarchical rule has a root cause, and no window or minimum count is zero. *)
Theorem validate_config_sound_complete config :
  cfg_enabled config = true →
  vr_valid (validate_config config) = true ↔ config_wf config.
Proof. apply validate_config_iff. Qed.

(** The spellings printed for modes and representatives parse back. *)
Theorem correlation_enums_roundtrip m r :
  string_to_mode (mode_to_string m) = Some m ∧
  string_to_representative (representative_to_string r) = Some r.
Proof. by destruct m, r. Qed.

(** The rank of a printed severity is the rank of its number. *)
Lemma severity_rank_to_string s :
  (0 ≤ s)%Z → severity_rank (severity_to_string s) = severity_rank_u8 s.
Proof.
  intros H. unfold severity_rank_u8. destruct (Z.leb_spec s 3).
  - assert (s = 0 ∨ s = 1 ∨ s = 2 ∨ s = 3)%Z as [->|[->|[->| ->]]] by lia; done.
  - destruct s as [|[[p|p|]|[p|p|]|]|]; simpl; try done; lia.
Qed.
