(* ===== verification/CorrelationEngine.v ===== *)
(** * Correlation engine

    [CorrelationEngine] (correlation/correlation_engine.cpp): hierarchical rules
    mute the symptoms of a recent root cause, auto-cluster rules group faults
    that occur close together behind one representative.  Every public method
    runs under the engine's mutex, so each is one function on the engine state;
    the two clocks it reads are arguments ([now], [timestamp]: [steady_clock] in
    nanoseconds; [now_system]: [system_clock]).

    The engine consults its [PatternMatcher] through the cache-free reference
    functions of [PatternMatcher.v], which the matcher's own theorems show to be
    what the cached implementation answers. *)

From S2P Require Import Prelude PatternMatcher CorrelationTypes.

(** ** Data *)

Record ProcessFaultResult := mkFaultResult {
  pfr_should_mute : bool;
  pfr_is_root_cause : bool;
  pfr_root_cause_code : string;
  pfr_rule_id : string;
  pfr_delay_ms : Z;                              (* uint32_t *)
  pfr_cluster_id : string;
  pfr_retroactive_mute_codes : list string;
}.

Definition no_correlation : ProcessFaultResult := mkFaultResult false false "" "" 0 "" [].

(** [ProcessClearResult] has this one field. *)
Abbreviation ProcessClearResult := (list string).

Record MutedFaultData := mkMuted {
  mf_fault_code : string;
  mf_root_cause_code : string;
  mf_rule_id : string;
  mf_delay_ms : Z;
}.

Record ClusterData := mkCluster {
  cl_cluster_id : string;
  cl_rule_id : string;
  cl_rule_name : string;
  cl_label : string;
  cl_representative_code : string;
  cl_representative_severity : string;
  cl_fault_codes : list string;
  cl_first_at : Z;
  cl_last_at : Z;
}.

Record PendingRootCause := mkPendingRoot {
  prc_fault_code : string;
  prc_rule_id : string;
  prc_timestamp : Z;
  prc_window_ms : Z;
}.

Record PendingCluster := mkPending {
  pc_data : ClusterData;
  pc_steady_first_at : Z;
  pc_fault_severities : gmap string string;
}.

Record CorrelationEngine := mkEngine {
  ce_config : CorrelationConfig;
  ce_pending_root_causes : list PendingRootCause;
  ce_root_to_symptoms : gmap string (list string);
  ce_muted_faults : gmap string MutedFaultData;
  ce_active_clusters : gmap string ClusterData;
  ce_fault_to_cluster : gmap string string;
  ce_pending_clusters : gmap string PendingCluster;
  ce_cluster_counter : N;                        (* uint64_t *)
}.

Definition new_engine (config : CorrelationConfig) : CorrelationEngine :=
  {| ce_config := config; ce_pending_root_causes := []; ce_root_to_symptoms := ∅;
     ce_muted_faults := ∅; ce_active_clusters := ∅; ce_fault_to_cluster := ∅;
     ce_pending_clusters := ∅; ce_cluster_counter := 0 |}.

Definition with_roots (roots : list PendingRootCause) (symptoms : gmap string (list string))
    (muted : gmap string MutedFaultData) (e : CorrelationEngine) : CorrelationEngine :=
  {| ce_config := ce_config e; ce_pending_root_causes := roots; ce_root_to_symptoms := symptoms;
     ce_muted_faults := muted; ce_active_clusters := ce_active_clusters e;
     ce_fault_to_cluster := ce_fault_to_cluster e; ce_pending_clusters := ce_pending_clusters e;
     ce_cluster_counter := ce_cluster_counter e |}.

Definition with_clusters (active : gmap string ClusterData) (f2c : gmap string string)
    (pending : gmap string PendingCluster) (counter : N) (e : CorrelationEngine)
    : CorrelationEngine :=
  {| ce_config := ce_config e; ce_pending_root_causes := ce_pending_root_causes e;
     ce_root_to_symptoms := ce_root_to_symptoms e; ce_muted_faults := ce_muted_faults e;
     ce_active_clusters := active; ce_fault_to_cluster := f2c; ce_pending_clusters := pending;
     ce_cluster_counter := counter |}.

(** ** Time *)

(** [duration_cast<milliseconds>(t1 - t0).count()]: truncation toward zero. *)
Definition elapsed_ms (t1 t0 : Z) : Z := Z.quot (t1 - t0) 1000000.

Definition root_expired (now : Z) (prc : PendingRootCause) : bool :=
  (prc_window_ms prc <? elapsed_ms now (prc_timestamp prc))%Z.

Definition prune_roots (now : Z) (l : list PendingRootCause) : list PendingRootCause :=
  filter (λ prc, root_expired now prc = false) l.

(** ** Symptoms *)

(** The first [Some] a loop with an early return produces. *)
Fixpoint find_map {A B} (f : A → option B) (l : list A) : option B :=
  match l with
  | [] => None
  | x :: l' => match f x with Some y => Some y | None => find_map f l' end
  end.

Definition is_symptom_of (config : CorrelationConfig) (rule : CorrelationRule) (code : string)
    : bool :=
  existsb (matches_ref (cfg_patterns config) code) (rule_symptom_pattern_ids rule) ||
  matches_any_ref code (rule_inline_symptom_codes rule).

(** One iteration of the nested loops of [try_as_symptom]. *)
Definition symptom_match (config : CorrelationConfig) (code : string) (timestamp : Z)
    (prc : PendingRootCause) (rule : CorrelationRule)
    : option (PendingRootCause * CorrelationRule * Z) :=
  if negb (rule_id rule =?ₛ prc_rule_id prc) ||
     negb (bool_decide (rule_mode rule = HIERARCHICAL)) then None
  else if negb (is_symptom_of config rule code) then None
  else
    let elapsed := elapsed_ms timestamp (prc_timestamp prc) in
    if (rule_window_ms rule <? elapsed)%Z then None else Some (prc, rule, elapsed).

Definition try_as_symptom (code : string) (timestamp : Z) (e : CorrelationEngine)
    : option ProcessFaultResult * CorrelationEngine :=
  match find_map (λ prc,
          find_map (symptom_match (ce_config e) code timestamp prc) (cfg_rules (ce_config e)))
          (ce_pending_root_causes e) with
  | None => (None, e)
  | Some (prc, rule, elapsed) =>
      let delay := wrap_u32 elapsed in
      let symptoms := default [] (ce_root_to_symptoms e !! prc_fault_code prc) in
      let symptoms' := if bool_decide (code ∈ symptoms) then symptoms else symptoms ++ [code] in
      let muted :=
        if rule_mute_symptoms rule
        then <[code := mkMuted code (prc_fault_code prc) (rule_id rule) delay]> (ce_muted_faults e)
        else ce_muted_faults e in
      (Some (mkFaultResult (rule_mute_symptoms rule) false (prc_fault_code prc) (rule_id rule)
               delay "" []),
       with_roots (ce_pending_root_causes e)
         (<[prc_fault_code prc := symptoms']> (ce_root_to_symptoms e)) muted e)
  end.

(** ** Root causes *)

Definition try_as_root_cause (code : string) (e : CorrelationEngine) : option string :=
  find_map (λ rule,
    if bool_decide (rule_mode rule = HIERARCHICAL) &&
       matches_any_ref code (rule_root_cause_codes rule)
    then Some (rule_id rule) else None) (cfg_rules (ce_config e)).

(** The body of [if (root_cause_rule)] in [process_fault]. *)
Definition add_root_cause (code rid : string) (timestamp : Z) (e : CorrelationEngine)
    : CorrelationEngine :=
  match list_find (λ rule, rule_id rule = rid) (cfg_rules (ce_config e)) with
  | None => e
  | Some (_, rule) =>
      with_roots
        (ce_pending_root_causes e ++
           [mkPendingRoot code (rule_id rule) timestamp (rule_window_ms rule)])
        (<[code := []]> (ce_root_to_symptoms e)) (ce_muted_faults e) e
  end.

(** ** Auto-clusters *)

Definition uint64_size : N := 18446744073709551616.

(** [generate_cluster_id] after [++cluster_counter_]. *)
Definition cluster_id_of (rid : string) (counter : N) : string := rid +:+ "_" +:+ pretty counter.

Definition matches_cluster_rule (config : CorrelationConfig) (code : string)
    (rule : CorrelationRule) : bool :=
  bool_decide (rule_mode rule = AUTO_CLUSTER) &&
  existsb (matches_ref (cfg_patterns config) code) (rule_match_pattern_ids rule).

Definition cluster_of_fault (code severity : string) (rule : CorrelationRule) (cid : string)
    (timestamp now_system : Z) : PendingCluster :=
  {| pc_data := mkCluster cid (rule_id rule) (rule_name rule) (rule_name rule) code severity
                  [code] now_system now_system;
     pc_steady_first_at := timestamp;
     pc_fault_severities := {[code := severity]} |}.

(** "Start new pending cluster"; [pending] is [pending_clusters_] at that point. *)
Definition start_cluster (code severity : string) (timestamp now_system : Z)
    (rule : CorrelationRule) (pending : gmap string PendingCluster) (e : CorrelationEngine)
    : ProcessFaultResult * CorrelationEngine :=
  let counter := ((ce_cluster_counter e + 1) `mod` uint64_size)%N in
  let cid := cluster_id_of (rule_id rule) counter in
  let p := cluster_of_fault code severity rule cid timestamp now_system in
  (mkFaultResult false false "" "" 0 cid [],
   with_clusters (ce_active_clusters e) (<[code := cid]> (ce_fault_to_cluster e))
     (<[rule_id rule := p]> pending) counter e).

(** The [switch] on [rule.representative] when a fault joins. *)
Definition update_representative (rule : CorrelationRule) (severity : string) (c : ClusterData)
    : bool :=
  match rule_representative rule with
  | FIRST => false
  | MOST_RECENT => true
  | HIGHEST_SEVERITY =>
      (severity_rank (cl_representative_severity c) <? severity_rank severity)%Z
  end.

(** The pending cluster after [fault_code] joined it. *)
Definition add_to_cluster (code severity : string) (now_system : Z) (rule : CorrelationRule)
    (p : PendingCluster) : PendingCluster :=
  let c := pc_data p in
  let upd := update_representative rule severity c in
  {| pc_data :=
       mkCluster (cl_cluster_id c) (cl_rule_id c) (cl_rule_name c) (cl_label c)
         (if upd then code else cl_representative_code c)
         (if upd then severity else cl_representative_severity c)
         (cl_fault_codes c ++ [code]) (cl_first_at c) now_system;
     pc_steady_first_at := pc_steady_first_at p;
     pc_fault_severities := <[code := severity]> (pc_fault_severities p) |}.

Definition reached (rule : CorrelationRule) (c : ClusterData) : bool :=
  (rule_min_count rule <=? Z.of_nat (length (cl_fault_codes c)))%Z.

Definition join_cluster (code severity : string) (now_system : Z) (rule : CorrelationRule)
    (p : PendingCluster) (e : CorrelationEngine) : ProcessFaultResult * CorrelationEngine :=
  let c := pc_data p in
  let cid := cl_cluster_id c in
  if bool_decide (code ∈ cl_fault_codes c) then
    (mkFaultResult
       (rule_show_as_single rule && negb (code =?ₛ cl_representative_code c) && reached rule c)
       false "" "" 0 cid [], e)
  else
    let p' := add_to_cluster code severity now_system rule p in
    let c' := pc_data p' in
    let full := reached rule c' in
    let newly_activated := bool_decide (ce_active_clusters e !! cid = None) in
    (mkFaultResult
       (full && rule_show_as_single rule && negb (code =?ₛ cl_representative_code c'))
       false "" "" 0 cid
       (if full && newly_activated && rule_show_as_single rule
        then filter (λ x, x ≠ cl_representative_code c' ∧ x ≠ code) (cl_fault_codes c') else []),
     with_clusters
       (if full then <[cid := c']> (ce_active_clusters e) else ce_active_clusters e)
       (<[code := cid]> (ce_fault_to_cluster e))
       (<[rule_id rule := p']> (ce_pending_clusters e)) (ce_cluster_counter e) e).

Definition try_auto_cluster (code severity : string) (timestamp now_system : Z)
    (e : CorrelationEngine) : option ProcessFaultResult * CorrelationEngine :=
  match list_find (λ rule, matches_cluster_rule (ce_config e) code rule = true)
          (cfg_rules (ce_config e)) with
  | None => (None, e)
  | Some (_, rule) =>
      let '(r, e') :=
        match ce_pending_clusters e !! rule_id rule with
        | None => start_cluster code severity timestamp now_system rule (ce_pending_clusters e) e
        | Some p =>
            if (rule_window_ms rule <? elapsed_ms timestamp (pc_steady_first_at p))%Z
            then start_cluster code severity timestamp now_system rule
                   (delete (rule_id rule) (ce_pending_clusters e)) e
            else join_cluster code severity now_system rule p e
        end in
      (Some r, e')
  end.

(** ** Public operations *)

Definition process_fault (code severity : string) (timestamp now now_system : Z)
    (e : CorrelationEngine) : ProcessFaultResult * CorrelationEngine :=
  let e := with_roots (prune_roots now (ce_pending_root_causes e)) (ce_root_to_symptoms e)
             (ce_muted_faults e) e in
  match try_as_symptom code timestamp e with
  | (Some r, e) => (r, e)
  | (None, e) =>
      match try_as_root_cause code e with
      | Some rid => (mkFaultResult false true "" rid 0 "" [], add_root_cause code rid timestamp e)
      | None =>
          match try_auto_cluster code severity timestamp now_system e with
          | (Some r, e) => (r, e)
          | (None, e) => (no_correlation, e)
          end
      end
  end.

(** The symptoms to clear along with root cause [code]. *)
Definition auto_clear_codes (code : string) (symptoms : list string) (e : CorrelationEngine)
    : list string :=
  let rules := cfg_rules (ce_config e) in
  let from_pending :=
    match list_find (λ prc, prc_fault_code prc = code) (ce_pending_root_causes e) with
    | Some (_, prc) =>
        if existsb (λ rule, (rule_id rule =?ₛ prc_rule_id prc) && rule_auto_clear_with_root rule)
             rules
        then symptoms else []
    | None => []
    end in
  if bool_decide (from_pending = []) then
    if existsb (λ rule, bool_decide (rule_mode rule = HIERARCHICAL) &&
                  rule_auto_clear_with_root rule &&
                  matches_any_ref code (rule_root_cause_codes rule)) rules
    then symptoms else []
  else from_pending.

Definition severity_of (sevs : gmap string string) (code : string) : string :=
  default "" (sevs !! code).

Definition rank_of (sevs : gmap string string) (code : string) : Z :=
  match sevs !! code with Some s => severity_rank s | None => 0 end.

(** The loop of case [HIGHEST_SEVERITY]: first code of the greatest rank. *)
Definition best_code (sevs : gmap string string) (codes : list string) : string :=
  (foldl (λ '(best, best_rank) code,
     let rank := rank_of sevs code in
     if (best_rank <? rank)%Z then (code, rank) else (best, best_rank))
     (default "" (head codes), (-1)%Z) codes).1.

Definition choose_representative (rep : Representative) (sevs : gmap string string)
    (codes : list string) : string :=
  match rep with
  | FIRST => default "" (head codes)
  | HIGHEST_SEVERITY => best_code sevs codes
  | MOST_RECENT => default "" (last codes)
  end.

Definition set_members (codes : list string) (rep_code rep_sev : string) (c : ClusterData)
    : ClusterData :=
  mkCluster (cl_cluster_id c) (cl_rule_id c) (cl_rule_name c) (cl_label c) rep_code rep_sev codes
    (cl_first_at c) (cl_last_at c).

(** "Reassign representative if the cleared fault was the representative": the
    representative's code and severity afterwards. *)
Definition reassign (rules : list CorrelationRule) (code rid : string)
    (sevs : gmap string string) (codes : list string) (c : ClusterData) : string * string :=
  if cl_representative_code c =?ₛ code then
    match list_find (λ rule, rule_id rule = rid) rules with
    | Some (_, rule) =>
        let r := choose_representative (rule_representative rule) sevs codes in
        (r, severity_of sevs r)
    | None => (cl_representative_code c, cl_representative_severity c)
    end
  else (cl_representative_code c, cl_representative_severity c).

(** One iteration of the loop over [pending_clusters_] in [process_clear];
    [None] erases the entry. *)
Definition clear_pending (rules : list CorrelationRule) (code cid rid : string)
    (p : PendingCluster) : option PendingCluster :=
  let c := pc_data p in
  if negb (cl_cluster_id c =?ₛ cid) then Some p
  else
    let codes := filter (λ x, x ≠ code) (cl_fault_codes c) in
    let sevs := delete code (pc_fault_severities p) in
    if bool_decide (codes = []) then None
    else
      let rep := reassign rules code rid sevs codes c in
      Some {| pc_data := set_members codes rep.1 rep.2 c;
              pc_steady_first_at := pc_steady_first_at p; pc_fault_severities := sevs |}.

(** "Remove fault from active cluster"; [pending] is the updated
    [pending_clusters_]. *)
Definition clear_active (code cid : string) (pending : gmap string PendingCluster)
    (c : ClusterData) : option ClusterData :=
  let codes := filter (λ x, x ≠ code) (cl_fault_codes c) in
  if bool_decide (codes = []) then None
  else if cl_representative_code c =?ₛ code then
    match list_find (λ e : string * PendingCluster, cl_cluster_id (pc_data e.2) = cid)
            (map_entries pending) with
    | Some (_, (_, p)) =>
        Some (set_members codes (cl_representative_code (pc_data p))
                (cl_representative_severity (pc_data p)) c)
    | None =>
        Some (set_members codes (cl_representative_code c) (cl_representative_severity c) c)
    end
  else Some (set_members codes (cl_representative_code c) (cl_representative_severity c) c).

(** The part of [process_clear] on root causes and muted faults. *)
Definition clear_root (code : string) (e : CorrelationEngine)
    : ProcessClearResult * CorrelationEngine :=
  let '(cleared, symptoms_map, muted) :=
    match ce_root_to_symptoms e !! code with
    | Some symptoms =>
        (auto_clear_codes code symptoms e, delete code (ce_root_to_symptoms e),
         foldl (λ m s, delete s m) (ce_muted_faults e) symptoms)
    | None => ([], ce_root_to_symptoms e, ce_muted_faults e)
    end in
  (cleared, with_roots (filter (λ prc, prc_fault_code prc ≠ code) (ce_pending_root_causes e))
              symptoms_map muted e).

(** The part of [process_clear] on clusters. *)
Definition clear_cluster (code : string) (e : CorrelationEngine) : CorrelationEngine :=
  match ce_fault_to_cluster e !! code with
  | None => e
  | Some cid =>
      let pending :=
        map_imap (clear_pending (cfg_rules (ce_config e)) code cid) (ce_pending_clusters e) in
      let active := partial_alter (λ o, o ≫= clear_active code cid pending) cid
                      (ce_active_clusters e) in
      with_clusters active (delete code (ce_fault_to_cluster e)) pending (ce_cluster_counter e) e
  end.

Definition process_clear (code : string) (e : CorrelationEngine)
    : ProcessClearResult * CorrelationEngine :=
  let '(cleared, e) := clear_root code e in
  let e := clear_cluster code e in
  (cleared, with_roots (ce_pending_root_causes e) (ce_root_to_symptoms e)
              (delete code (ce_muted_faults e)) e).

Definition get_muted_faults (e : CorrelationEngine) : list MutedFaultData :=
  (map_entries (ce_muted_faults e)).*2.
Definition get_muted_count (e : CorrelationEngine) : Z :=
  wrap_u32 (Z.of_nat (size (ce_muted_faults e))).
Definition is_muted (code : string) (e : CorrelationEngine) : bool :=
  bool_decide (is_Some (ce_muted_faults e !! code)).
Definition get_clusters (e : CorrelationEngine) : list ClusterData :=
  (map_entries (ce_active_clusters e)).*2.
Definition get_cluster_count (e : CorrelationEngine) : Z :=
  wrap_u32 (Z.of_nat (size (ce_active_clusters e))).

(** [expired_pending]: a cluster whose rule is not configured never expires. *)
Definition cluster_expired (rules : list CorrelationRule) (now : Z)
    (e : string * PendingCluster) : bool :=
  match list_find (λ rule, rule_id rule = e.1) rules with
  | Some (_, rule) => (rule_window_ms rule <? elapsed_ms now (pc_steady_first_at e.2))%Z
  | None => false
  end.

Definition expire_cluster (e : CorrelationEngine) (rid : string) : CorrelationEngine :=
  match ce_pending_clusters e !! rid with
  | None => e
  | Some p =>
      let f2c :=
        if bool_decide (ce_active_clusters e !! cl_cluster_id (pc_data p) = None)
        then foldl (λ m code, delete code m) (ce_fault_to_cluster e) (cl_fault_codes (pc_data p))
        else ce_fault_to_cluster e in
      with_clusters (ce_active_clusters e) f2c (delete rid (ce_pending_clusters e))
        (ce_cluster_counter e) e
  end.

Definition cleanup_expired (now : Z) (e : CorrelationEngine) : CorrelationEngine :=
  let e := with_roots (prune_roots now (ce_pending_root_causes e)) (ce_root_to_symptoms e)
             (ce_muted_faults e) e in
  let expired_pending :=
    filter (λ x, cluster_expired (cfg_rules (ce_config e)) now x = true)
      (map_entries (ce_pending_clusters e)) in
  foldl expire_cluster e expired_pending.*1.
