(* ===== verification/EngineInvariant.v ===== *)
(** * Correlation engine: reachable states

    The invariant of the engine's maps (cluster membership, representative
    policy, freshness of cluster ids) and its preservation by [process_fault],
    [process_clear] and [cleanup_expired]. *)

From S2P Require Import Prelude PatternMatcher CorrelationTypes CorrelationEngine.

(** ** Cluster ids are injective *)

Definition no_underscore (s : string) : Prop := "_"%char ∉ to_chars s.

Lemma pretty_N_char_not_underscore n : pretty_N_char n ≠ "_"%char.
Proof. unfold pretty_N_char. by repeat case_match. Qed.

Lemma pretty_N_go_no_underscore n s : no_underscore s → no_underscore (pretty_N_go n s).
Proof.
  revert s. induction (N.lt_wf_0 n) as [n _ IH]; intros s Hs.
  assert (n = 0 ∨ 0 < n)%N as [->|Hn] by lia; [by rewrite pretty_N_go_0|].
  rewrite pretty_N_go_step by done. apply IH; [by apply N.div_lt|].
  unfold no_underscore, to_chars in *. simpl. rewrite not_elem_of_cons.
  split; [|done]. intros H. by eapply pretty_N_char_not_underscore.
Qed.

Lemma pretty_N_no_underscore (n : N) : no_underscore (pretty n).
Proof.
  unfold pretty, pretty_N. case_decide; [|apply pretty_N_go_no_underscore];
    unfold no_underscore, to_chars; simpl; set_solver.
Qed.

Lemma to_chars_app s t : to_chars (s +:+ t) = to_chars s ++ to_chars t.
Proof. unfold to_chars. induction s as [|c s IH]; simpl; [done|]. by f_equal. Qed.

Lemma split_last_underscore (l1 l2 k1 k2 : chars) :
  "_"%char ∉ k1 → "_"%char ∉ k2 →
  l1 ++ "_"%char :: k1 = l2 ++ "_"%char :: k2 → l1 = l2 ∧ k1 = k2.
Proof.
  intros H1 H2. revert l2. induction l1 as [|c l1 IH]; intros [|d l2]; simpl; intros Heq.
  - naive_solver.
  - injection Heq as _ Hk. exfalso. apply H1. rewrite Hk. set_solver.
  - injection Heq as _ Hk. exfalso. apply H2. rewrite <- Hk. set_solver.
  - injection Heq as -> Heq. by destruct (IH _ Heq) as [-> ->].
Qed.

Lemma cluster_id_of_inj r1 n1 r2 n2 :
  cluster_id_of r1 n1 = cluster_id_of r2 n2 → r1 = r2 ∧ n1 = n2.
Proof.
  intros H. apply (f_equal to_chars) in H. unfold cluster_id_of in H.
  rewrite !to_chars_app in H. simpl in H.
  apply split_last_underscore in H as [H1 H2]; [|apply pretty_N_no_underscore..].
  split; [by apply to_chars_inj|]. by apply (inj pretty), to_chars_inj.
Qed.

(** ** Representatives *)

(** What [Representative] promises about the code chosen among [codes]. *)
Definition rep_spec (rep : Representative) (sevs : gmap string string) (codes : list string)
    (r : string) : Prop :=
  match rep with
  | FIRST => head codes = Some r
  | MOST_RECENT => last codes = Some r
  | HIGHEST_SEVERITY => r ∈ codes ∧ ∀ c, c ∈ codes → (rank_of sevs c ≤ rank_of sevs r)%Z
  end.

Lemma severity_rank_nonneg s : (0 ≤ severity_rank s)%Z.
Proof. unfold severity_rank. repeat case_match; lia. Qed.

Lemma rank_of_nonneg sevs c : (0 ≤ rank_of sevs c)%Z.
Proof. unfold rank_of. case_match; [apply severity_rank_nonneg|done]. Qed.

Lemma rep_spec_elem rep sevs codes r : rep_spec rep sevs codes r → r ∈ codes.
Proof.
  destruct rep; simpl; [|apply last_Some_elem_of|by intros [? _]].
  destruct codes; simpl; [done|]. intros [= ->]. left.
Qed.

(** The loop invariant of [best_code]. *)
Lemma best_code_fold sevs codes best rank :
  let '(b, k) := foldl (λ '(best, best_rank) code,
      let rank := rank_of sevs code in
      if (best_rank <? rank)%Z then (code, rank) else (best, best_rank)) (best, rank) codes in
  (k = rank ∧ b = best ∨ b ∈ codes ∧ k = rank_of sevs b) ∧ (rank ≤ k)%Z ∧
  ∀ c, c ∈ codes → (rank_of sevs c ≤ k)%Z.
Proof.
  revert best rank. induction codes as [|c codes IH]; intros best rank; simpl.
  { split_and!; [by left|done|set_solver]. }
  destruct (Z.ltb_spec rank (rank_of sevs c)) as [Hlt|Hge].
  - specialize (IH c (rank_of sevs c)). destruct (foldl _ _ codes) as [b k].
    destruct IH as ([[-> ->]|[? ->]] & ? & Hall); (split_and!; [right; set_solver|lia|]);
      intros x [->|Hx]%elem_of_cons; [lia|by apply Hall|lia|by apply Hall].
  - specialize (IH best rank). destruct (foldl _ _ codes) as [b k].
    destruct IH as (Hcase & ? & Hall). split_and!; [set_solver|lia|].
    intros x [->|Hx]%elem_of_cons; [lia|by apply Hall].
Qed.

Lemma choose_representative_spec rep sevs codes :
  codes ≠ [] → rep_spec rep sevs codes (choose_representative rep sevs codes).
Proof.
  intros Hne. destruct rep; simpl.
  - by destruct codes.
  - destruct (last codes) eqn:E; [done|]. by apply last_None in E.
  - unfold best_code. pose proof (best_code_fold sevs codes (default "" (head codes)) (-1)%Z) as H.
    destruct (foldl _ _ codes) as [b k]. simpl. destruct H as ([[-> _]|[Hb ->]] & _ & Hall).
    + destruct codes as [|c codes]; [done|].
      specialize (Hall c ltac:(left)). pose proof (rank_of_nonneg sevs c). lia.
    + done.
Qed.

Lemma rank_of_delete_ne sevs c x : c ≠ x → rank_of (delete x sevs) c = rank_of sevs c.
Proof. intros H. unfold rank_of. by rewrite lookup_delete_ne by done. Qed.

Lemma rank_of_insert_ne sevs c x s : c ≠ x → rank_of (<[x := s]> sevs) c = rank_of sevs c.
Proof. intros H. unfold rank_of. by rewrite lookup_insert_ne by done. Qed.

(** Removing a member that is not the representative. *)
Lemma rep_spec_remove rep sevs codes r x :
  r ≠ x → rep_spec rep sevs codes r →
  rep_spec rep (delete x sevs) (filter (λ c, c ≠ x) codes) r.
Proof.
  intros Hne. destruct rep; simpl.
  - destruct codes as [|c codes]; simpl; [done|]. intros [= ->].
    by rewrite filter_cons_True.
  - intros (l & ->)%last_Some. rewrite filter_app, (filter_cons_True _ r), filter_nil by done.
    apply last_snoc.
  - intros [Hr Hall]. split; [by apply list_elem_of_filter|].
    intros c [Hc Hin]%list_elem_of_filter. rewrite !rank_of_delete_ne by done. by apply Hall.
Qed.

(** ** The invariant *)

Definition cluster_rule (config : CorrelationConfig) (code : string) : option CorrelationRule :=
  snd <$> list_find (λ rule, matches_cluster_rule config code rule = true) (cfg_rules config).

Record pending_wf (config : CorrelationConfig) (counter : N) (f2c : gmap string string)
    (rid : string) (p : PendingCluster) : Prop := {
  pw_rule_id : cl_rule_id (pc_data p) = rid;
  pw_id : ∃ n, (n ≤ counter)%N ∧ cl_cluster_id (pc_data p) = cluster_id_of rid n;
  pw_nodup : NoDup (cl_fault_codes (pc_data p));
  pw_severities : ∀ c, c ∈ cl_fault_codes (pc_data p) ↔ is_Some (pc_fault_severities p !! c);
  pw_rep_severity :
    pc_fault_severities p !! cl_representative_code (pc_data p) =
      Some (cl_representative_severity (pc_data p));
  pw_members : ∀ c, c ∈ cl_fault_codes (pc_data p) →
    f2c !! c = Some (cl_cluster_id (pc_data p)) ∧ rule_id <$> cluster_rule config c = Some rid;
  pw_rep : ∀ rule, rule ∈ cfg_rules config → rule_id rule = rid →
    rep_spec (rule_representative rule) (pc_fault_severities p) (cl_fault_codes (pc_data p))
      (cl_representative_code (pc_data p));
}.

(** A published cluster.  Its representative may have left it. *)
Record active_wf (config : CorrelationConfig) (counter : N) (cid : string) (c : ClusterData) : Prop := {
  aw_id : cl_cluster_id c = cid;
  aw_gen : ∃ n, (n ≤ counter)%N ∧ cid = cluster_id_of (cl_rule_id c) n;
  aw_nodup : NoDup (cl_fault_codes c);
  aw_nonempty : cl_fault_codes c ≠ [];
  aw_members x : x ∈ cl_fault_codes c → rule_id <$> cluster_rule config x = Some (cl_rule_id c);
  aw_rep : rule_id <$> cluster_rule config (cl_representative_code c) = Some (cl_rule_id c);
}.

(** [code] is a symptom of the root cause [root] under [rule]. *)
Record explains (config : CorrelationConfig) (rule : CorrelationRule) (root code : string) : Prop := {
  ex_rule : rule ∈ cfg_rules config;
  ex_mode : rule_mode rule = HIERARCHICAL;
  ex_root : matches_any_ref root (rule_root_cause_codes rule) = true;
  ex_symptom : is_symptom_of config rule code = true;
}.

(** Recent root causes, under the rule that made them one. *)
Definition roots_ok (config : CorrelationConfig) (roots : list PendingRootCause) : Prop :=
  ∀ prc, prc ∈ roots → ∃ rule, rule ∈ cfg_rules config ∧ rule_mode rule = HIERARCHICAL ∧
    matches_any_ref (prc_fault_code prc) (rule_root_cause_codes rule) = true ∧
    rule_id rule = prc_rule_id prc ∧ prc_window_ms prc = rule_window_ms rule.

Definition symptoms_ok (config : CorrelationConfig) (symptoms : gmap string (list string)) : Prop :=
  ∀ root l, symptoms !! root = Some l → NoDup l ∧ ∀ c, c ∈ l → ∃ rule, explains config rule root c.

Definition muted_ok (config : CorrelationConfig) (muted : gmap string MutedFaultData) : Prop :=
  ∀ code m, muted !! code = Some m → mf_fault_code m = code ∧
    ∃ rule, explains config rule (mf_root_cause_code m) code ∧ rule_id rule = mf_rule_id m ∧ rule_mute_symptoms rule = true.

Record engine_ok (config : CorrelationConfig) (e : CorrelationEngine) : Prop := {
  eo_config : ce_config e = config;
  eo_pending : ∀ rid p, ce_pending_clusters e !! rid = Some p →
    pending_wf config (ce_cluster_counter e) (ce_fault_to_cluster e) rid p;
  eo_active : ∀ cid c, ce_active_clusters e !! cid = Some c →
    active_wf config (ce_cluster_counter e) cid c;
  eo_clustered : ∀ code cid, ce_fault_to_cluster e !! code = Some cid →
    ∃ rule n, cluster_rule config code = Some rule ∧ (n ≤ ce_cluster_counter e)%N ∧ cid = cluster_id_of (rule_id rule) n;
  eo_roots : roots_ok config (ce_pending_root_causes e);
  eo_symptoms : symptoms_ok config (ce_root_to_symptoms e);
  eo_muting : muted_ok config (ce_muted_faults e);
}.

Lemma eo_muted config e : engine_ok config e → ∀ code m, ce_muted_faults e !! code = Some m → mf_fault_code m = code.
Proof. intros Hok code m Hm. by apply (eo_muting _ _ Hok). Qed.

(** Two pending clusters with the same id are the same entry. *)
Lemma pending_id_inj config e r1 r2 p1 p2 :
  engine_ok config e →
  ce_pending_clusters e !! r1 = Some p1 → ce_pending_clusters e !! r2 = Some p2 →
  cl_cluster_id (pc_data p1) = cl_cluster_id (pc_data p2) → r1 = r2.
Proof.
  intros Hok H1 H2 Heq.
  destruct (pw_id _ _ _ _ _ (eo_pending _ _ Hok _ _ H1)) as (n1 & _ & E1).
  destruct (pw_id _ _ _ _ _ (eo_pending _ _ Hok _ _ H2)) as (n2 & _ & E2).
  rewrite E1, E2 in Heq. by apply cluster_id_of_inj in Heq as [-> _].
Qed.

(** Weakening: more ids handed out, the members' index unchanged. *)
Lemma pending_wf_mono config n n' f f' rid p :
  (n ≤ n')%N →
  (∀ c, c ∈ cl_fault_codes (pc_data p) → f' !! c = f !! c) →
  pending_wf config n f rid p → pending_wf config n' f' rid p.
Proof.
  intros Hn Hf []. split; try done.
  - destruct pw_id0 as (k & ? & ?). exists k. split; [lia|done].
  - intros c Hc. rewrite Hf by done. by apply pw_members0.
Qed.

Lemma active_wf_mono config n n' cid c : (n ≤ n')%N → active_wf config n cid c → active_wf config n' cid c.
Proof.
  intros Hn []. split; try done. destruct aw_gen0 as (k & ? & ?). exists k. split; [lia|done].
Qed.

Lemma new_engine_ok config : engine_ok config (new_engine config).
Proof.
  split; simpl; try done; try (intros ??; by rewrite lookup_empty). by intros prc ?%not_elem_of_nil.
Qed.

(** ** Root causes and symptoms *)

Lemma find_map_Some {A B} (f : A → option B) l y :
  find_map f l = Some y → ∃ x, x ∈ l ∧ f x = Some y.
Proof.
  induction l as [|x l IH]; simpl; [done|]. destruct (f x) eqn:E.
  - intros [= <-]. exists x. split; [left|done].
  - intros (z & ? & ?)%IH. exists z. split; [by right|done].
Qed.

Lemma cluster_rule_elem config code rule :
  cluster_rule config code = Some rule →
  rule ∈ cfg_rules config ∧ matches_cluster_rule config code rule = true.
Proof.
  unfold cluster_rule. intros ([i r] & Hf & ->)%fmap_Some.
  apply list_find_Some in Hf as (Hl & Hm & _). split; [by eapply list_elem_of_lookup_2|done].
Qed.

Lemma rule_id_inj config r1 r2 :
  NoDup (rule_id <$> cfg_rules config) →
  r1 ∈ cfg_rules config → r2 ∈ cfg_rules config → rule_id r1 = rule_id r2 → r1 = r2.
Proof.
  intros Hnd [i Hi]%list_elem_of_lookup [j Hj]%list_elem_of_lookup Heq.
  assert (i = j) as ->; [|congruence].
  eapply (NoDup_lookup (rule_id <$> cfg_rules config)); [done|by rewrite list_lookup_fmap, Hi|].
  by rewrite list_lookup_fmap, Hj; simpl; rewrite Heq.
Qed.

Lemma with_roots_ok config e roots symptoms muted :
  engine_ok config e → roots_ok config roots → symptoms_ok config symptoms → muted_ok config muted →
  engine_ok config (with_roots roots symptoms muted e).
Proof. intros [] ???. by split. Qed.

Lemma roots_ok_filter config P `{∀ x, Decision (P x)} roots : roots_ok config roots → roots_ok config (filter P roots).
Proof. intros Hr prc [_ Hin]%list_elem_of_filter. by apply Hr. Qed.

Lemma with_fewer_roots_ok config e P `{∀ x, Decision (P x)} :
  engine_ok config e →
  engine_ok config (with_roots (filter P (ce_pending_root_causes e)) (ce_root_to_symptoms e) (ce_muted_faults e) e).
Proof. intros Hok. apply with_roots_ok; [done|apply roots_ok_filter|..]; apply Hok. Qed.

Lemma NoDup_snoc_new {A} `{EqDecision A} (x : A) l :
  NoDup l → NoDup (if bool_decide (x ∈ l) then l else l ++ [x]).
Proof.
  intros Hl. case_bool_decide as Hx; [done|]. apply NoDup_app. split_and!; [done| |].
  - intros y Hy ->%list_elem_of_singleton. done.
  - apply NoDup_singleton.
Qed.

Lemma symptom_match_explains config code ts prc roots rule found :
  NoDup (rule_id <$> cfg_rules config) → roots_ok config roots → prc ∈ roots → rule ∈ cfg_rules config →
  symptom_match config code ts prc rule = Some found →
  ∃ elapsed, found = (prc, rule, elapsed) ∧ explains config rule (prc_fault_code prc) code.
Proof.
  intros Hids Hroots Hprc Hrule. unfold symptom_match.
  destruct (rule_id rule =?ₛ prc_rule_id prc) eqn:Hid; simpl; [|done]. bool_simpl.
  destruct (bool_decide (rule_mode rule = HIERARCHICAL)) eqn:Hmode; simpl; [|done]. apply bool_decide_eq_true in Hmode.
  destruct (is_symptom_of config rule code) eqn:Hs; simpl; [|done]. case_match; [done|]. intros [= <-].
  eexists. split; [done|]. destruct (Hroots _ Hprc) as (rule' & Hin & _ & Hroot & Hid' & _).
  assert (rule' = rule) as -> by (eapply rule_id_inj; [done..|congruence]). by split.
Qed.

Lemma try_as_symptom_ok config code ts e :
  NoDup (rule_id <$> cfg_rules config) → engine_ok config e → engine_ok config (try_as_symptom code ts e).2.
Proof.
  intros Hids Hok. unfold try_as_symptom. rewrite (eo_config _ _ Hok).
  destruct (find_map _ _) as [[[prc rule] el]|] eqn:Hf; [|done].
  apply find_map_Some in Hf as (prc' & Hprc & (rule' & Hrule & Hm)%find_map_Some).
  destruct (symptom_match_explains _ _ _ _ _ _ _ Hids (eo_roots _ _ Hok) Hprc Hrule Hm) as (el' & [= -> -> ->] & Hex).
  apply with_roots_ok; [done|apply Hok| |].
  - intros root l [[<- <-]|[_ Hl]]%lookup_insert_Some; [|by apply (eo_symptoms _ _ Hok)].
    assert (NoDup (default [] (ce_root_to_symptoms e !! prc_fault_code prc')) ∧
      ∀ c, c ∈ default [] (ce_root_to_symptoms e !! prc_fault_code prc') → ∃ rule, explains config rule (prc_fault_code prc') c)
      as [Hnd Hall].
    { destruct (ce_root_to_symptoms e !! prc_fault_code prc') eqn:E; [by apply (eo_symptoms _ _ Hok)|].
      split; [apply NoDup_nil_2|by intros c ?%not_elem_of_nil]. }
    split; [by apply NoDup_snoc_new|]. case_bool_decide; [done|].
    intros c [?| ->%list_elem_of_singleton]%elem_of_app; [by apply Hall|by exists rule'].
  - case_match eqn:Hmute; [|apply Hok].
    intros c m [[<- <-]|[_ Hc]]%lookup_insert_Some; [|by apply (eo_muting _ _ Hok)].
    split; [done|]. by exists rule'.
Qed.

Lemma add_root_cause_ok config code rid ts e :
  NoDup (rule_id <$> cfg_rules config) → engine_ok config e → try_as_root_cause code e = Some rid →
  engine_ok config (add_root_cause code rid ts e).
Proof.
  intros Hids Hok Htry. unfold add_root_cause. destruct (list_find _ _) as [[? rule]|] eqn:Hf; [|done].
  apply list_find_Some in Hf as (Hl%list_elem_of_lookup_2 & Hid & _). rewrite (eo_config _ _ Hok) in *.
  unfold try_as_root_cause in Htry. rewrite (eo_config _ _ Hok) in Htry.
  apply find_map_Some in Htry as (rule' & Hin & Hr).
  destruct (bool_decide (rule_mode rule' = HIERARCHICAL)) eqn:Hmode; simpl in Hr; [|done].
  apply bool_decide_eq_true in Hmode. destruct (matches_any_ref code (rule_root_cause_codes rule')) eqn:Hm; [|done].
  injection Hr as <-. assert (rule' = rule) as -> by (by eapply rule_id_inj).
  apply with_roots_ok; [done| | |apply Hok].
  - intros prc [?| ->%list_elem_of_singleton]%elem_of_app; [by apply (eo_roots _ _ Hok)|]. by exists rule.
  - intros root l [[<- <-]|[_ Hl']]%lookup_insert_Some; [|by apply (eo_symptoms _ _ Hok)].
    split; [apply NoDup_nil_2|by intros c ?%not_elem_of_nil].
Qed.

(** ** Joining clusters *)

Section Rules.
Context (config : CorrelationConfig).
Context (Hids : NoDup (rule_id <$> cfg_rules config)).

(** A fault that is not a member of the pending clusters of other rules. *)
Lemma not_member_elsewhere e code rule rid p :
  engine_ok config e → cluster_rule config code = Some rule →
  rid ≠ rule_id rule → ce_pending_clusters e !! rid = Some p →
  code ∉ cl_fault_codes (pc_data p).
Proof.
  intros Hok Hr Hne Hp Hin.
  destruct (pw_members _ _ _ _ _ (eo_pending _ _ Hok _ _ Hp) _ Hin) as [_ Hm].
  rewrite Hr in Hm. simpl in Hm. congruence.
Qed.

Lemma cluster_of_fault_wf code severity rule ts ns n f2c :
  cluster_rule config code = Some rule →
  pending_wf config n (<[code := cluster_id_of (rule_id rule) n]> f2c) (rule_id rule)
    (cluster_of_fault code severity rule (cluster_id_of (rule_id rule) n) ts ns).
Proof.
  intros Hr. split; simpl.
  - done.
  - by exists n.
  - apply NoDup_singleton.
  - intros c. rewrite list_elem_of_singleton, lookup_singleton_is_Some. naive_solver.
  - apply lookup_singleton_eq.
  - intros c ->%list_elem_of_singleton. by rewrite lookup_insert_eq, Hr.
  - intros rule' _ _. destruct (rule_representative rule'); simpl; [done..|].
    split; [left|]. by intros c ->%list_elem_of_singleton.
Qed.

Lemma start_cluster_ok code severity ts ns rule pending e :
  engine_ok config e → cluster_rule config code = Some rule →
  (ce_cluster_counter e + 1 < uint64_size)%N →
  (∀ rid, rid ≠ rule_id rule → pending !! rid = ce_pending_clusters e !! rid) →
  engine_ok config (start_cluster code severity ts ns rule pending e).2.
Proof.
  intros Hok Hr Hroom Hpend. unfold start_cluster. cbn [snd].
  rewrite N.mod_small by lia. split; simpl; try by apply Hok.
  - intros rid p [[<- <-]|[Hne Hp]]%lookup_insert_Some; [by apply cluster_of_fault_wf|].
    rewrite Hpend in Hp by done.
    eapply (pending_wf_mono _ (ce_cluster_counter e)); [lia| |by apply Hok].
    intros c Hc. rewrite lookup_insert_ne; [done|]. intros ->.
    by eapply (not_member_elsewhere e).
  - intros cid c Hc. eapply active_wf_mono; [|by apply Hok]. lia.
  - intros c cid [[<- <-]|[_ Hc]]%lookup_insert_Some; [by eexists _, _|].
    destruct (eo_clustered _ _ Hok _ _ Hc) as (r & n & ? & ? & ?). exists r, n. split_and!; [done|lia|done].
Qed.

(** The representative policy when a new code joins. *)
Lemma rep_spec_join rule severity code sevs c :
  code ∉ cl_fault_codes c →
  sevs !! cl_representative_code c = Some (cl_representative_severity c) →
  cl_representative_code c ≠ code →
  rep_spec (rule_representative rule) sevs (cl_fault_codes c) (cl_representative_code c) →
  rep_spec (rule_representative rule) (<[code := severity]> sevs) (cl_fault_codes c ++ [code])
    (if update_representative rule severity c then code else cl_representative_code c).
Proof.
  intros Hnew Hsev Hne. unfold update_representative.
  destruct (rule_representative rule); simpl.
  - destruct (cl_fault_codes c); by simpl.
  - intros _. apply last_snoc.
  - intros [Hin Hall].
    assert (Hrank : rank_of sevs (cl_representative_code c) =
      severity_rank (cl_representative_severity c)) by (unfold rank_of; by rewrite Hsev).
    assert (Hnewr : rank_of (<[code := severity]> sevs) code = severity_rank severity)
      by (unfold rank_of; by rewrite lookup_insert_eq).
    assert (Hold : ∀ x, x ∈ cl_fault_codes c →
      (rank_of (<[code := severity]> sevs) x ≤
         severity_rank (cl_representative_severity c))%Z).
    { intros x Hx. rewrite rank_of_insert_ne, <- Hrank by congruence. by apply Hall. }
    destruct (Z.ltb_spec (severity_rank (cl_representative_severity c)) (severity_rank severity));
      (split; [set_solver|]); intros x [Hx| ->%list_elem_of_singleton]%elem_of_app.
    + specialize (Hold x Hx). lia.
    + done.
    + rewrite (rank_of_insert_ne _ (cl_representative_code c)), Hrank by done. by apply Hold.
    + rewrite (rank_of_insert_ne _ (cl_representative_code c)), Hrank, Hnewr by done. lia.
Qed.

Lemma add_to_cluster_wf code severity ns rule p n f2c :
  pending_wf config n f2c (rule_id rule) p → cluster_rule config code = Some rule →
  code ∉ cl_fault_codes (pc_data p) →
  pending_wf config n (<[code := cl_cluster_id (pc_data p)]> f2c) (rule_id rule)
    (add_to_cluster code severity ns rule p).
Proof.
  intros [] Hr Hnew. apply cluster_rule_elem in Hr as Hin. destruct Hin as [Hin _].
  assert (cl_representative_code (pc_data p) ≠ code)
    by (intros <-; apply Hnew, pw_severities0; by rewrite pw_rep_severity0).
  split; simpl; try done.
  - apply NoDup_app. split_and!; [done|set_solver|apply NoDup_singleton].
  - intros c. rewrite elem_of_app, list_elem_of_singleton, pw_severities0.
    rewrite lookup_insert_is_Some. destruct (decide (code = c)); naive_solver.
  - case_match; [apply lookup_insert_eq|]. by rewrite lookup_insert_ne by done.
  - intros c [Hc| ->%list_elem_of_singleton]%elem_of_app.
    + rewrite lookup_insert_ne by congruence. by apply pw_members0.
    + by rewrite lookup_insert_eq, Hr.
  - intros rule' Hin' Heq. rewrite (rule_id_inj config rule' rule) by done.
    apply rep_spec_join; [done..|]. by apply pw_rep0.
Qed.

Lemma join_cluster_ok code severity ns rule p e :
  engine_ok config e → cluster_rule config code = Some rule →
  ce_pending_clusters e !! rule_id rule = Some p →
  engine_ok config (join_cluster code severity ns rule p e).2.
Proof.
  intros Hok Hr Hp. unfold join_cluster. case_bool_decide as Hnew; [done|].
  pose proof (eo_pending _ _ Hok _ _ Hp) as Hwf.
  pose proof (add_to_cluster_wf code severity ns rule p _ _ Hwf Hr Hnew) as Hwf'.
  split; simpl; try by apply Hok.
  - intros rid q [[<- <-]|[Hne Hq]]%lookup_insert_Some; [done|].
    eapply pending_wf_mono; [done| |by apply Hok].
    intros c Hc. rewrite lookup_insert_ne; [done|]. intros ->.
    by eapply (not_member_elsewhere e).
  - intros cid c Hc. case_match; [|by apply Hok].
    apply lookup_insert_Some in Hc as [[<- <-]|[_ Hc]]; [|by apply Hok].
    destruct Hwf'. simpl in pw_rule_id0. split; simpl; [done| |done|by destruct (cl_fault_codes (pc_data p))| |].
    + destruct pw_id0 as (k & ? & E). exists k. split; [done|].
      simpl in E. rewrite E. f_equal. by rewrite <- pw_rule_id0.
    + intros x Hx. rewrite pw_rule_id0. by apply pw_members0.
    + rewrite pw_rule_id0. apply pw_members0, pw_severities0. eexists. exact pw_rep_severity0.
  - intros c cid [[<- <-]|[_ Hc]]%lookup_insert_Some; [|by apply Hok].
    destruct (pw_id _ _ _ _ _ Hwf) as (k & ? & E). by exists rule, k.
Qed.

Lemma try_auto_cluster_ok code severity ts ns e :
  engine_ok config e → (ce_cluster_counter e + 1 < uint64_size)%N →
  engine_ok config (try_auto_cluster code severity ts ns e).2.
Proof.
  intros Hok Hroom. unfold try_auto_cluster. rewrite (eo_config _ _ Hok).
  destruct (list_find _ _) as [[i rule]|] eqn:Hf; [|done].
  assert (Hr : cluster_rule config code = Some rule) by (unfold cluster_rule; by rewrite Hf).
  destruct (ce_pending_clusters e !! rule_id rule) as [p|] eqn:Hp;
    [destruct (_ <? _)%Z|].
  - pose proof (start_cluster_ok code severity ts ns rule
      (delete (rule_id rule) (ce_pending_clusters e)) e) as H'.
    destruct (start_cluster _ _ _ _ _ _ _). apply H'; [done..|].
    intros rid Hne. by rewrite lookup_delete_ne.
  - pose proof (join_cluster_ok code severity ns rule p e) as H'.
    destruct (join_cluster _ _ _ _ _ _). by apply H'.
  - pose proof (start_cluster_ok code severity ts ns rule (ce_pending_clusters e) e) as H'.
    destruct (start_cluster _ _ _ _ _ _ _). by apply H'.
Qed.

Lemma process_fault_ok code severity ts now ns e :
  engine_ok config e → (ce_cluster_counter e + 1 < uint64_size)%N →
  engine_ok config (process_fault code severity ts now ns e).2.
Proof.
  intros Hok Hroom. unfold process_fault.
  set (e1 := with_roots (prune_roots now (ce_pending_root_causes e)) _ _ e).
  assert (Hok1 : engine_ok config e1) by by apply with_fewer_roots_ok.
  assert (Hc1 : ce_cluster_counter e1 = ce_cluster_counter e) by done.
  pose proof (try_as_symptom_ok config code ts e1 Hids Hok1) as Hok2.
  assert (Hc2 : ce_cluster_counter (try_as_symptom code ts e1).2 = ce_cluster_counter e1)
    by (unfold try_as_symptom; by destruct (find_map _ _) as [[[??]?]|]).
  destruct (try_as_symptom code ts e1) as [[r|] e2]; [done|]. simpl in *.
  destruct (try_as_root_cause code e2) as [rid|] eqn:Hroot; [by apply add_root_cause_ok|].
  pose proof (try_auto_cluster_ok code severity ts ns e2 Hok2 ltac:(lia)) as Hok3.
  by destruct (try_auto_cluster code severity ts ns e2) as [[r|] e3].
Qed.

(** ** Clearing *)

Lemma member_has_rule n f2c rid p c :
  pending_wf config n f2c rid p → c ∈ cl_fault_codes (pc_data p) →
  ∃ rule, rule ∈ cfg_rules config ∧ rule_id rule = rid.
Proof.
  intros Hwf Hc.
  destruct (pw_members _ _ _ _ _ Hwf c Hc) as [_ (rule & Hcr & Hid)%fmap_Some].
  apply cluster_rule_elem in Hcr as [Hin _]. by exists rule.
Qed.

(** The representative after a clear, for any set of remaining members. *)
Lemma reassign_spec code rid sevs codes c :
  codes ≠ [] → (∀ x, x ∈ codes ↔ is_Some (sevs !! x)) →
  (∃ rule, rule ∈ cfg_rules config ∧ rule_id rule = rid) →
  (cl_representative_code c ≠ code →
    sevs !! cl_representative_code c = Some (cl_representative_severity c) ∧
    ∀ rule, rule ∈ cfg_rules config → rule_id rule = rid →
      rep_spec (rule_representative rule) sevs codes (cl_representative_code c)) →
  let rep := reassign (cfg_rules config) code rid sevs codes c in
  sevs !! rep.1 = Some rep.2 ∧
  ∀ rule, rule ∈ cfg_rules config → rule_id rule = rid →
    rep_spec (rule_representative rule) sevs codes rep.1.
Proof.
  intros Hne Hsev (rule0 & Hin0 & Hid0) Hother. unfold reassign.
  destruct (_ =?ₛ code) eqn:Hr; bool_simpl; simpl; [|by apply Hother].
  destruct (list_find _ _) as [[i rule]|] eqn:Hf; simpl.
  - apply list_find_Some in Hf as (Hl & <- & _). apply list_elem_of_lookup_2 in Hl.
    pose proof (choose_representative_spec (rule_representative rule) sevs codes Hne) as Hs.
    split.
    + unfold severity_of. apply rep_spec_elem, Hsev in Hs as [s Hs]. by rewrite Hs.
    + intros rule' Hin Heq. by rewrite (rule_id_inj config rule' rule).
  - apply list_find_None in Hf. rewrite Forall_forall in Hf. by destruct (Hf rule0 Hin0).
Qed.

Lemma clear_pending_wf code cid rid p q n f2c :
  pending_wf config n f2c rid p → f2c !! code = Some cid →
  clear_pending (cfg_rules config) code cid rid p = Some q →
  pending_wf config n (delete code f2c) rid q ∧ code ∉ cl_fault_codes (pc_data q).
Proof.
  intros Hwf Hcode. unfold clear_pending.
  destruct (cl_cluster_id (pc_data p) =?ₛ cid) eqn:Hid; simpl; bool_simpl.
  2: { intros [= <-].
    assert (Hnot : code ∉ cl_fault_codes (pc_data p)).
    { intros Hin. apply Hid. destruct (pw_members _ _ _ _ _ Hwf _ Hin) as [Hm _]. congruence. }
    split; [|done]. eapply pending_wf_mono; [done| |done].
    intros c Hc. rewrite lookup_delete_ne by congruence. done. }
  case_bool_decide as Hne; [done|]. intros [= <-].
  assert (Hrule : ∃ rule, rule ∈ cfg_rules config ∧ rule_id rule = rid).
  { destruct (cl_fault_codes (pc_data p)) as [|c l] eqn:Ec; [done|].
    eapply (member_has_rule _ _ _ p c); [done|]. rewrite Ec. left. }
  destruct Hwf.
  assert (Hsev : ∀ c, c ∈ filter (λ x, x ≠ code) (cl_fault_codes (pc_data p)) ↔
    is_Some (delete code (pc_fault_severities p) !! c)).
  { intros c. rewrite list_elem_of_filter, pw_severities0, lookup_delete_is_Some. naive_solver. }
  destruct (reassign_spec code rid _ _ (pc_data p) Hne Hsev Hrule) as [Hrs Hrep].
  { intros Hr. split; [by rewrite lookup_delete_ne|].
    intros rule Hin Heq. apply rep_spec_remove; [done|]. by apply pw_rep0. }
  split; [split; simpl; try done|simpl; rewrite list_elem_of_filter; tauto].
  - by apply NoDup_filter.
  - intros c [Hc Hin]%list_elem_of_filter. rewrite lookup_delete_ne by congruence.
    by apply pw_members0.
Qed.

(** The representative of a pending cluster is one of its members. *)
Lemma pending_rep_rule n f2c rid p :
  pending_wf config n f2c rid p → rule_id <$> cluster_rule config (cl_representative_code (pc_data p)) = Some rid.
Proof. intros []. apply pw_members0, pw_severities0. by eexists. Qed.

Lemma clear_active_wf code cid (pending : gmap string PendingCluster) c c' n n' f2c :
  (∀ rid p, pending !! rid = Some p → pending_wf config n' f2c rid p) →
  active_wf config n cid c → clear_active code cid pending c = Some c' →
  active_wf config n cid c' ∧ code ∉ cl_fault_codes c'.
Proof.
  intros Hpend [Hid Hgen Hnd Hne Hmem Hrep]. unfold clear_active. case_bool_decide as Hcs; [done|].
  assert (∀ rep sev, rule_id <$> cluster_rule config rep = Some (cl_rule_id c) →
    active_wf config n cid (set_members (filter (λ x, x ≠ code) (cl_fault_codes c)) rep sev c) ∧
    code ∉ filter (λ x, x ≠ code) (cl_fault_codes c)) as Hset.
  { intros rep sev Hr. split; [|rewrite list_elem_of_filter; tauto].
    split; simpl; try done; [by apply NoDup_filter|]. intros x [_ Hx]%list_elem_of_filter. by apply Hmem. }
  destruct (_ =?ₛ code); [destruct (list_find _ _) as [[? [rid p]]|] eqn:Hf|]; intros [= <-]; apply Hset; try done.
  apply list_find_Some in Hf as (Hp%list_elem_of_lookup_2%elem_of_map_entries & Hcid & _). simpl in Hcid.
  rewrite (pending_rep_rule _ _ _ _ (Hpend _ _ Hp)). destruct (pw_id _ _ _ _ _ (Hpend _ _ Hp)) as (k & _ & E).
  destruct Hgen as (k' & _ & E'). rewrite Hcid, E' in E. by apply cluster_id_of_inj in E as [<- _].
Qed.

Lemma clear_cluster_ok code e : engine_ok config e → engine_ok config (clear_cluster code e).
Proof.
  intros Hok. unfold clear_cluster. destruct (ce_fault_to_cluster e !! code) as [cid|] eqn:Hf;
    [|done].
  assert (∀ rid q, map_imap (clear_pending (cfg_rules (ce_config e)) code cid) (ce_pending_clusters e) !! rid = Some q →
    pending_wf config (ce_cluster_counter e) (delete code (ce_fault_to_cluster e)) rid q) as Hpend.
  { intros rid q. rewrite map_lookup_imap, (eo_config _ _ Hok).
    intros (p & Hp & Hq)%bind_Some.
    by eapply clear_pending_wf; [by apply Hok|..]. }
  split; simpl; try by apply Hok.
  { exact Hpend. }
  - intros cid' c. destruct (decide (cid' = cid)) as [->|Hne].
    + rewrite lookup_partial_alter_eq. intros (c0 & Hc0 & Hc)%bind_Some.
      eapply clear_active_wf; [|by apply Hok|done]. exact Hpend.
    + rewrite lookup_partial_alter_ne by done. apply Hok.
  - intros c cid' [_ Hc]%lookup_delete_Some. by apply Hok.
Qed.

Lemma clear_root_ok code e : engine_ok config e → engine_ok config (clear_root code e).2.
Proof.
  intros Hok. unfold clear_root. destruct (_ !! code) as [symptoms|] eqn:Hs; simpl; [|by apply with_fewer_roots_ok].
  apply with_roots_ok; [done|by apply roots_ok_filter, Hok| |].
  - intros root l [_ Hl]%lookup_delete_Some. by apply (eo_symptoms _ _ Hok).
  - intros c m. rewrite lookup_foldl_delete. case_bool_decide; [done|]. apply (eo_muting _ _ Hok).
Qed.

Lemma process_clear_ok code e : engine_ok config e → engine_ok config (process_clear code e).2.
Proof.
  intros Hok. unfold process_clear. pose proof (clear_root_ok code e Hok) as Hok1.
  destruct (clear_root code e) as [cleared e1]. simpl in *.
  pose proof (clear_cluster_ok code e1 Hok1) as Hok2.
  apply with_roots_ok; [done|apply Hok2|apply Hok2|].
  intros c m [_ Hm]%lookup_delete_Some. by apply (eo_muting _ _ Hok2).
Qed.

(** ** Expiry *)

Lemma expire_cluster_ok e rid : engine_ok config e → engine_ok config (expire_cluster e rid).
Proof.
  intros Hok. unfold expire_cluster. destruct (_ !! rid) as [p|] eqn:Hp; [|done].
  split; simpl; try by apply Hok.
  2: { intros c cid. case_bool_decide; [|by apply Hok]. rewrite lookup_foldl_delete. case_bool_decide; [done|]. by apply Hok. }
  intros rid' q [Hne Hq]%lookup_delete_Some.
  eapply pending_wf_mono; [done| |by apply Hok].
  intros c Hc. case_bool_decide; [|done]. rewrite lookup_foldl_delete.
  case_bool_decide as Hc'; [|done]. exfalso. apply Hne.
  eapply (pending_id_inj config e); [done..|].
  destruct (pw_members _ _ _ _ _ (eo_pending _ _ Hok _ _ Hp) _ Hc') as [E1 _].
  destruct (pw_members _ _ _ _ _ (eo_pending _ _ Hok _ _ Hq) _ Hc) as [E2 _]. congruence.
Qed.

Lemma cleanup_expired_ok now e : engine_ok config e → engine_ok config (cleanup_expired now e).
Proof.
  intros Hok. unfold cleanup_expired. apply foldl_preserves; [apply expire_cluster_ok|].
  by apply with_fewer_roots_ok.
Qed.
End Rules.

(** ** Runs *)

Inductive engine_op :=
  | ReportFault (code severity : string) (timestamp now now_system : Z)
  | ClearFault (code : string)
  | CleanupExpired (now : Z).

Definition engine_step (e : CorrelationEngine) (op : engine_op) : CorrelationEngine :=
  match op with
  | ReportFault code severity ts now ns => (process_fault code severity ts now ns e).2
  | ClearFault code => (process_clear code e).2
  | CleanupExpired now => cleanup_expired now e
  end.

Lemma try_auto_cluster_counter code severity ts ns e :
  (ce_cluster_counter (try_auto_cluster code severity ts ns e).2 ≤ ce_cluster_counter e + 1)%N.
Proof.
  assert (Hs : ∀ rule pending,
    (ce_cluster_counter (start_cluster code severity ts ns rule pending e).2 ≤
       ce_cluster_counter e + 1)%N).
  { intros. unfold start_cluster. simpl. apply N.Div0.mod_le. }
  assert (Hj : ∀ rule p,
    (ce_cluster_counter (join_cluster code severity ns rule p e).2 ≤
       ce_cluster_counter e + 1)%N).
  { intros. unfold join_cluster. case_match; simpl; lia. }
  unfold try_auto_cluster. destruct (list_find _ _) as [[i rule]|]; [|simpl; lia].
  destruct (_ !! rule_id rule) as [p|]; [destruct (_ <? _)%Z|].
  - specialize (Hs rule (delete (rule_id rule) (ce_pending_clusters e))).
    by destruct (start_cluster _ _ _ _ _ _ _).
  - specialize (Hj rule p). by destruct (join_cluster _ _ _ _ _ _).
  - specialize (Hs rule (ce_pending_clusters e)). by destruct (start_cluster _ _ _ _ _ _ _).
Qed.

Lemma foldl_expire_counter l e :
  ce_cluster_counter (foldl expire_cluster e l) = ce_cluster_counter e.
Proof.
  apply (foldl_preserves (λ e', ce_cluster_counter e' = ce_cluster_counter e)); [|done].
  intros a b <-. unfold expire_cluster. by case_match.
Qed.

Lemma engine_step_counter e op :
  (ce_cluster_counter (engine_step e op) ≤ ce_cluster_counter e + 1)%N.
Proof.
  destruct op as [code severity ts now ns|code|now]; simpl.
  - unfold process_fault. set (e1 := with_roots _ _ _ e).
    change (ce_cluster_counter e) with (ce_cluster_counter e1).
    assert (Hc2 : ce_cluster_counter (try_as_symptom code ts e1).2 = ce_cluster_counter e1)
      by (unfold try_as_symptom; by destruct (find_map _ _) as [[[??]?]|]).
    destruct (try_as_symptom code ts e1) as [[r|] e2]; simpl in *; [lia|].
    destruct (try_as_root_cause code e2) as [rid|]; simpl.
    + unfold add_root_cause. destruct (list_find _ _) as [[??]|]; simpl; lia.
    + pose proof (try_auto_cluster_counter code severity ts ns e2).
      destruct (try_auto_cluster _ _ _ _ _) as [[r|] e3]; simpl in *; lia.
  - unfold process_clear, clear_root, clear_cluster.
    destruct (ce_root_to_symptoms e !! code); simpl;
      destruct (ce_fault_to_cluster e !! code); simpl; lia.
  - unfold cleanup_expired. rewrite foldl_expire_counter. simpl. lia.
Qed.

Lemma engine_run_ok config ops :
  NoDup (rule_id <$> cfg_rules config) → ∀ e,
  engine_ok config e →
  (ce_cluster_counter e + N.of_nat (length ops) < uint64_size)%N →
  engine_ok config (foldl engine_step e ops).
Proof.
  intros Hids. induction ops as [|op ops IH]; intros e Hok Hroom; simpl; [done|].
  simpl in Hroom. apply IH.
  - destruct op; simpl; [apply process_fault_ok|apply process_clear_ok|apply cleanup_expired_ok];
      try done; lia.
  - pose proof (engine_step_counter e op). lia.
Qed.

(** C21: Under a configuration that passes validation, in every state the engine
    reaches: the members of a cluster are distinct and match the cluster's rule,
    and cluster ids name that rule and were handed out; the members of a pending
    cluster are indexed to it by [fault_to_cluster_], are the codes it keeps
    severities for, and include its representative, which is the one its rule's
    policy selects (first, last, or one of greatest severity); recent root causes
    match the hierarchical rule they name and carry its window; and every collected
    or muted symptom is a symptom, by some hierarchical rule, of the root cause it
    is filed under, and where it is muted by the rule it names, with muting on.
    No more is said of published clusters and collected symptoms: the
    representative of a published cluster may have left it, and both may lag
    behind what was cleared and reported since. *)
Theorem reachable_engine_ok config ops :
  cfg_enabled config = true → vr_valid (validate_config config) = true →
  (N.of_nat (length ops) < uint64_size)%N →
  engine_ok config (foldl engine_step (new_engine config) ops).
Proof.
  intros Hen Hv Hlen. apply engine_run_ok; [|apply new_engine_ok|done].
  by apply validate_config_iff in Hv as [? _].
Qed.
