(* ===== verification/EngineBehaviour.v ===== *)
(** * Correlation engine: what reports and clears do

    The functional behaviour of [process_fault] and [process_clear] on the
    correlation tables, and runs that show where the tables drift apart. *)

From S2P Require Import Prelude PatternMatcher CorrelationTypes CorrelationEngine EngineInvariant.

(** ** Symptoms of a live root cause *)

Lemma find_map_None {A B} (f : A → option B) l x : find_map f l = None → x ∈ l → f x = None.
Proof.
  induction l as [|y l IH]; simpl; [set_solver|]. destruct (f y) eqn:E; [done|].
  intros H [->|Hx]%elem_of_cons; [done|by apply IH].
Qed.

(** [code], reported at [ts], is a symptom of the root cause [prc] under [rule]. *)
Record live_symptom (e : CorrelationEngine) (code : string) (ts now : Z)
    (prc : PendingRootCause) (rule : CorrelationRule) : Prop := {
  ls_pending : prc ∈ ce_pending_root_causes e;
  ls_live : (elapsed_ms now (prc_timestamp prc) ≤ prc_window_ms prc)%Z;
  ls_rule : rule ∈ cfg_rules (ce_config e);
  ls_rule_id : rule_id rule = prc_rule_id prc;
  ls_mode : rule_mode rule = HIERARCHICAL;
  ls_symptom : is_symptom_of (ce_config e) rule code = true;
  ls_window : (elapsed_ms ts (prc_timestamp prc) ≤ rule_window_ms rule)%Z;
}.

Lemma symptom_match_Some config code ts prc rule x :
  symptom_match config code ts prc rule = Some x ↔
    rule_id rule = prc_rule_id prc ∧ rule_mode rule = HIERARCHICAL ∧
    is_symptom_of config rule code = true ∧
    (elapsed_ms ts (prc_timestamp prc) ≤ rule_window_ms rule)%Z ∧
    x = (prc, rule, elapsed_ms ts (prc_timestamp prc)).
Proof.
  unfold symptom_match. destruct (_ || _) eqn:E1.
  { split; [done|]. intros (? & ? & _). bool_simpl; [done|]. by case_bool_decide. }
  bool_simpl. case_bool_decide; [|done].
  destruct (is_symptom_of config rule code); simpl; [|naive_solver].
  destruct (Z.ltb_spec (rule_window_ms rule) (elapsed_ms ts (prc_timestamp prc)));
    naive_solver lia.
Qed.

Lemma elem_of_prune_roots now prc l :
  prc ∈ prune_roots now l ↔
    prc ∈ l ∧ (elapsed_ms now (prc_timestamp prc) ≤ prc_window_ms prc)%Z.
Proof.
  unfold prune_roots, root_expired. rewrite list_elem_of_filter, Z.ltb_ge. tauto.
Qed.

(** What the search of [try_as_symptom] finds in the pruned state. *)
Lemma symptom_search_spec code ts now e :
  match find_map (λ prc, find_map (symptom_match (ce_config e) code ts prc)
          (cfg_rules (ce_config e))) (prune_roots now (ce_pending_root_causes e)) with
  | Some (prc, rule, elapsed) =>
      live_symptom e code ts now prc rule ∧ elapsed = elapsed_ms ts (prc_timestamp prc)
  | None => ∀ prc rule, ¬ live_symptom e code ts now prc rule
  end.
Proof.
  destruct (find_map _ _) as [[[prc rule] elapsed]|] eqn:E.
  - apply find_map_Some in E as (prc' & [Hp Hlive]%elem_of_prune_roots & E).
    apply find_map_Some in E as (rule' & Hr & E).
    apply symptom_match_Some in E as (? & ? & ? & ? & [= -> -> ->]). by repeat split.
  - intros prc rule []. eapply (find_map_None _ _ prc) in E; [|by apply elem_of_prune_roots].
    eapply (find_map_None _ _ rule) in E; [|done].
    assert (Hs : symptom_match (ce_config e) code ts prc rule =
      Some (prc, rule, elapsed_ms ts (prc_timestamp prc))) by (by apply symptom_match_Some).
    congruence.
Qed.

(** A report that is no symptom leaves the muted table alone. *)
Lemma not_symptom_frame code severity ts ns e :
  ce_muted_faults (try_auto_cluster code severity ts ns e).2 = ce_muted_faults e ∧
  (∀ r, (try_auto_cluster code severity ts ns e).1 = Some r → pfr_root_cause_code r = "").
Proof.
  unfold try_auto_cluster. destruct (list_find _ _) as [[i rule]|]; [|done].
  unfold start_cluster, join_cluster.
  destruct (_ !! rule_id rule) as [p|]; [destruct (_ <? _)%Z; [|destruct (bool_decide _)]|];
    simpl; split; naive_solver.
Qed.

(** A report is attributed to a root cause exactly when some root cause is
    pending, unexpired and within the window of a hierarchical rule of which the
    code is a symptom.  It then carries that root cause and its delay, is listed
    among its symptoms, is muted exactly when the rule mutes symptoms (or it was
    muted already), and touches no cluster; otherwise the muted table is
    unchanged. *)
Theorem symptom_correlation code severity ts now ns e :
  let '(r, e') := process_fault code severity ts now ns e in
  (∃ prc rule, live_symptom e code ts now prc rule ∧
     r = mkFaultResult (rule_mute_symptoms rule) false (prc_fault_code prc) (rule_id rule)
           (wrap_u32 (elapsed_ms ts (prc_timestamp prc))) "" [] ∧
     code ∈ default [] (ce_root_to_symptoms e' !! prc_fault_code prc) ∧
     is_muted code e' = rule_mute_symptoms rule || is_muted code e ∧
     ce_pending_clusters e' = ce_pending_clusters e ∧
     ce_active_clusters e' = ce_active_clusters e) ∨
  ((∀ prc rule, ¬ live_symptom e code ts now prc rule) ∧
   ce_muted_faults e' = ce_muted_faults e ∧ pfr_root_cause_code r = "").
Proof.
  unfold process_fault. set (e1 := with_roots _ _ _ e).
  pose proof (symptom_search_spec code ts now e) as Hs.
  unfold try_as_symptom. change (ce_config e1) with (ce_config e).
  change (ce_pending_root_causes e1) with (prune_roots now (ce_pending_root_causes e)).
  destruct (find_map _ _) as [[[prc rule] elapsed]|].
  - destruct Hs as [Hlive ->]. left. exists prc, rule. split_and!; simpl; try done.
    + rewrite lookup_insert_eq. simpl. case_bool_decide; [done|]. set_solver.
    + unfold is_muted. simpl. destruct (rule_mute_symptoms rule); simpl; [|done].
      apply bool_decide_eq_true_2. by rewrite lookup_insert_eq.
  - destruct (try_as_root_cause code e1) as [rid|].
    + right. split_and!; [done| |done]. unfold add_root_cause.
      by destruct (list_find _ _) as [[??]|].
    + pose proof (not_symptom_frame code severity ts ns e1) as [Hm Hr].
      destruct (try_auto_cluster _ _ _ _ _) as [[r|] e2]; right; split_and!; try done.
      by apply Hr.
Qed.

(** ** Clearing *)

(** Whether clearing root cause [code] also clears its symptoms. *)
Definition clears_symptoms (code : string) (e : CorrelationEngine) : bool :=
  existsb (λ rule, rule_auto_clear_with_root rule &&
    (match list_find (λ prc, prc_fault_code prc = code) (ce_pending_root_causes e) with
     | Some (_, prc) => rule_id rule =?ₛ prc_rule_id prc
     | None => false
     end ||
     bool_decide (rule_mode rule = HIERARCHICAL) &&
     matches_any_ref code (rule_root_cause_codes rule))) (cfg_rules (ce_config e)).

Lemma existsb_orb {A} (f g : A → bool) l :
  existsb (λ x, f x || g x) l = existsb f l || existsb g l.
Proof.
  induction l as [|x l IH]; simpl; [done|]. rewrite IH.
  by destruct (f x), (g x), (existsb f l).
Qed.

Lemma existsb_ext {A} (f g : A → bool) l : (∀ x, f x = g x) → existsb f l = existsb g l.
Proof. intros Hfg. induction l as [|x l IH]; simpl; [done|]. by rewrite Hfg, IH. Qed.

Lemma auto_clear_codes_spec code symptoms e :
  auto_clear_codes code symptoms e = if clears_symptoms code e then symptoms else [].
Proof.
  unfold auto_clear_codes, clears_symptoms.
  set (hier := λ rule, bool_decide (rule_mode rule = HIERARCHICAL) &&
    rule_auto_clear_with_root rule && matches_any_ref code (rule_root_cause_codes rule)).
  destruct (list_find _ _) as [[i prc]|].
  - set (own := λ rule, (rule_id rule =?ₛ prc_rule_id prc) && rule_auto_clear_with_root rule).
    rewrite (existsb_ext (λ rule, rule_auto_clear_with_root rule && _)
      (λ rule, own rule || hier rule)), existsb_orb.
    + by destruct (existsb own _), (existsb hier _), symptoms.
    + intros rule. unfold own, hier. by destruct (rule_auto_clear_with_root rule),
        (rule_id rule =?ₛ _), (bool_decide (rule_mode rule = HIERARCHICAL)), (matches_any_ref _ _).
  - simpl. rewrite (existsb_ext (λ rule, rule_auto_clear_with_root rule && _) hier); [done|]. intros rule. unfold hier.
    by destruct (rule_auto_clear_with_root rule), (bool_decide (rule_mode rule = HIERARCHICAL)).
Qed.

Lemma clear_root_spec code e :
  let '(cleared, e') := clear_root code e in
  let symptoms := default [] (ce_root_to_symptoms e !! code) in
  cleared = (if clears_symptoms code e then symptoms else []) ∧
  (∀ c, bool_decide (is_Some (ce_muted_faults e' !! c)) =
     is_muted c e && negb (bool_decide (c ∈ symptoms))) ∧
  ce_root_to_symptoms e' = delete code (ce_root_to_symptoms e) ∧
  ce_pending_root_causes e' = filter (λ prc, prc_fault_code prc ≠ code) (ce_pending_root_causes e).
Proof.
  unfold clear_root, is_muted. destruct (ce_root_to_symptoms e !! code) as [l|] eqn:E; simpl.
  - split_and!; [apply auto_clear_codes_spec| |done|done].
    intros c. rewrite lookup_foldl_delete. destruct (bool_decide (c ∈ l)); simpl.
    + by rewrite andb_false_r.
    + by rewrite andb_true_r.
  - split_and!; [by case_match| | |done].
    + intros c. by rewrite andb_true_r.
    + by rewrite delete_id.
Qed.

Lemma clear_cluster_frame code e :
  ce_muted_faults (clear_cluster code e) = ce_muted_faults e ∧
  ce_root_to_symptoms (clear_cluster code e) = ce_root_to_symptoms e ∧
  ce_pending_root_causes (clear_cluster code e) = ce_pending_root_causes e.
Proof. unfold clear_cluster. by destruct (_ !! code). Qed.

Lemma is_muted_delete c code (m : gmap string MutedFaultData) :
  bool_decide (is_Some (delete code m !! c)) =
    bool_decide (is_Some (m !! c)) && negb (c =?ₛ code).
Proof.
  unfold str_eqb. destruct (decide (c = code)) as [->|Hne].
  - rewrite lookup_delete_eq, (bool_decide_eq_true_2 (code = code)) by done. simpl.
    by rewrite andb_false_r.
  - rewrite lookup_delete_ne, (bool_decide_eq_false_2 (c = code)) by done. simpl.
    by rewrite andb_true_r.
Qed.

Lemma clear_cluster_index code e :
  ce_fault_to_cluster (clear_cluster code e) = delete code (ce_fault_to_cluster e).
Proof.
  unfold clear_cluster. destruct (_ !! code) eqn:E; [done|]. by rewrite delete_id.
Qed.

Lemma clear_pending_members rules code cid rid p c :
  cl_cluster_id (pc_data p) = cid ∨ code ∉ cl_fault_codes (pc_data p) →
  (∃ q, clear_pending rules code cid rid p = Some q ∧ c ∈ cl_fault_codes (pc_data q)) ↔
    c ≠ code ∧ c ∈ cl_fault_codes (pc_data p).
Proof.
  intros Hcase. unfold clear_pending.
  destruct (cl_cluster_id (pc_data p) =?ₛ cid) eqn:E; bool_simpl; simpl.
  - rewrite <- (list_elem_of_filter (λ x, x ≠ code)). case_bool_decide as Hn.
    + rewrite Hn. split; [naive_solver|]. set_solver.
    + split; [by intros (q & [= <-] & ?)|eauto].
  - destruct Hcase as [?|Hnot]; [done|]. split; [|naive_solver].
    intros (q & [= <-] & Hc). split; [congruence|done].
Qed.

Lemma clear_cluster_members config code e rid c :
  engine_ok config e →
  (∃ p, ce_pending_clusters (clear_cluster code e) !! rid = Some p ∧
     c ∈ cl_fault_codes (pc_data p)) ↔
  c ≠ code ∧ ∃ p, ce_pending_clusters e !! rid = Some p ∧ c ∈ cl_fault_codes (pc_data p).
Proof.
  intros Hok.
  assert (Hmem : ∀ p, ce_pending_clusters e !! rid = Some p →
    code ∈ cl_fault_codes (pc_data p) →
    ce_fault_to_cluster e !! code = Some (cl_cluster_id (pc_data p))).
  { intros p Hp Hin. by apply (pw_members _ _ _ _ _ (eo_pending _ _ Hok _ _ Hp)). }
  unfold clear_cluster. destruct (_ !! code) as [cid|] eqn:E; simpl.
  - rewrite map_lookup_imap. destruct (ce_pending_clusters e !! rid) as [p|] eqn:Hp; simpl.
    + rewrite clear_pending_members; [naive_solver|].
      destruct (decide (code ∈ cl_fault_codes (pc_data p))) as [Hin|]; [left|by right].
      specialize (Hmem p eq_refl Hin). congruence.
    + naive_solver.
  - split; [|naive_solver]. intros (p & Hp & Hc). split; [|eauto].
    intros ->. by specialize (Hmem p Hp Hc).
Qed.

(** Clearing a fault forgets it: it is no longer muted, pending as a root
    cause, or a member of a pending cluster.  Clearing a root cause un-mutes
    exactly its recorded symptoms, and hands them back for auto-clearing exactly
    when a rule that has it as root cause asks for that.  Membership of every
    other fault in pending clusters is unchanged. *)
Theorem process_clear_forgets config code e :
  engine_ok config e →
  let '(cleared, e') := process_clear code e in
  let symptoms := default [] (ce_root_to_symptoms e !! code) in
  cleared = (if clears_symptoms code e then symptoms else []) ∧
  (∀ c, is_muted c e' = is_muted c e && negb (c =?ₛ code) && negb (bool_decide (c ∈ symptoms))) ∧
  ce_root_to_symptoms e' = delete code (ce_root_to_symptoms e) ∧
  ce_pending_root_causes e' = filter (λ prc, prc_fault_code prc ≠ code) (ce_pending_root_causes e) ∧
  ce_fault_to_cluster e' = delete code (ce_fault_to_cluster e) ∧
  (∀ rid c, (∃ p, ce_pending_clusters e' !! rid = Some p ∧ c ∈ cl_fault_codes (pc_data p)) ↔
     c ≠ code ∧ ∃ p, ce_pending_clusters e !! rid = Some p ∧ c ∈ cl_fault_codes (pc_data p)).
Proof.
  intros Hok. unfold process_clear.
  pose proof (clear_root_ok config code e Hok) as Hok1.
  pose proof (clear_root_spec code e) as Hspec.
  assert (Hsame : ce_pending_clusters (clear_root code e).2 = ce_pending_clusters e ∧
    ce_fault_to_cluster (clear_root code e).2 = ce_fault_to_cluster e)
    by (unfold clear_root; by destruct (_ !! code)).
  destruct (clear_root code e) as [cleared e1]. simpl in *. destruct Hsame as [Hpc Hf2c].
  destruct Hspec as (Hcl & Hm & Hr & Hp).
  destruct (clear_cluster_frame code e1) as (Hm2 & Hr2 & Hp2).
  simpl. rewrite Hr2, Hp2. split_and!; [done| |done|done| |].
  - intros c. unfold is_muted at 1. simpl. rewrite Hm2, is_muted_delete, Hm.
    destruct (is_muted c e), (c =?ₛ code), (bool_decide _); done.
  - rewrite <- Hf2c. apply clear_cluster_index.
  - intros rid c. rewrite <- Hpc. by apply (clear_cluster_members config).
Qed.

(** ** Activation of a cluster *)

(** The codes a result asks the caller to mute: the reported one and the
    retroactive ones. *)
Definition muted_by (code : string) (r : ProcessFaultResult) : list string :=
  pfr_retroactive_mute_codes r ++ if pfr_should_mute r then [code] else [].

(** Splitting the non-representatives into the newcomer and the others. *)
Lemma filter_rep_snoc (codes : list string) rep code :
  code ∉ codes →
  filter (λ x, x ≠ rep) (codes ++ [code]) =
    filter (λ x, x ≠ rep ∧ x ≠ code) (codes ++ [code]) ++
    (if negb (code =?ₛ rep) then [code] else []).
Proof.
  intros Hnew. rewrite !filter_app, <- app_assoc. f_equal.
  - apply filter_ext_elem. intros x Hx. split; [|tauto]. intros ?. split; [done|congruence].
  - rewrite !filter_cons, !filter_nil. unfold str_eqb.
    destruct (decide (code = rep)) as [->|Hne].
    + by rewrite !decide_False, bool_decide_eq_true_2 by naive_solver.
    + rewrite (decide_True _ _ Hne), decide_False, bool_decide_eq_false_2 by naive_solver. done.
Qed.

(** A fault that matches an auto-cluster rule within the window of its
    pending cluster joins it.  Below [min_count] nothing is activated or muted;
    from [min_count] on the cluster is published with its current members and
    representative, and, when the rule shows clusters as one item, the fault
    that activates it mutes all members except the representative and nothing
    else. *)
Theorem cluster_activation config code severity ts ns rule p e :
  engine_ok config e → cluster_rule config code = Some rule →
  ce_pending_clusters e !! rule_id rule = Some p →
  (elapsed_ms ts (pc_steady_first_at p) ≤ rule_window_ms rule)%Z →
  code ∉ cl_fault_codes (pc_data p) →
  ∃ r e', try_auto_cluster code severity ts ns e = (Some r, e') ∧
    let c := pc_data (add_to_cluster code severity ns rule p) in
    pc_data <$> ce_pending_clusters e' !! rule_id rule = Some c ∧
    cl_fault_codes c = cl_fault_codes (pc_data p) ++ [code] ∧
    ((Z.of_nat (length (cl_fault_codes c)) < rule_min_count rule)%Z →
       ce_active_clusters e' = ce_active_clusters e ∧ muted_by code r = []) ∧
    ((rule_min_count rule ≤ Z.of_nat (length (cl_fault_codes c)))%Z →
       ce_active_clusters e' !! cl_cluster_id c = Some c ∧
       (rule_show_as_single rule = false → muted_by code r = []) ∧
       (rule_show_as_single rule = true →
          ce_active_clusters e !! cl_cluster_id c = None →
          muted_by code r = filter (λ x, x ≠ cl_representative_code c) (cl_fault_codes c))).
Proof.
  intros Hok Hr Hp Hwin Hnew.
  exists (join_cluster code severity ns rule p e).1, (join_cluster code severity ns rule p e).2.
  split.
  { unfold try_auto_cluster. rewrite (eo_config _ _ Hok). unfold cluster_rule in Hr.
    destruct (list_find _ _) as [[i rule']|]; [|done]. simplify_eq/=. rewrite Hp.
    replace (_ <? _)%Z with false by (symmetry; by apply Z.ltb_ge).
    by destruct (join_cluster _ _ _ _ _ _). }
  unfold join_cluster. rewrite bool_decide_eq_false_2 by done. cbn [fst snd].
  unfold muted_by, reached. cbn -[add_to_cluster Z.of_nat].
  rewrite lookup_insert_eq. split_and!; [done|done| |].
  - intros Hlt. replace (_ <=? _)%Z with false by (symmetry; by apply Z.leb_gt). done.
  - intros Hge. replace (_ <=? _)%Z with true by (symmetry; by apply Z.leb_le).
    split_and!; [apply lookup_insert_eq| |].
    + intros ->. by rewrite andb_false_r.
    + intros -> Hact. rewrite bool_decide_eq_true_2 by done. symmetry.
      by apply filter_rep_snoc.
Qed.

(** ** Where the tables drift apart *)

(** Two rules over fixed codes, accepted by [validate_config]. *)
Definition demo_config : CorrelationConfig :=
  {| cfg_enabled := true; cfg_default_window_ms := 500;
     cfg_patterns := {[ "m" := mkFaultPattern "m" ["M_*"]; "s" := mkFaultPattern "s" ["S_*"] ]};
     cfg_rules :=
       [mkRule "h" "h" HIERARCHICAL ["ROOT"] ["s"] [] true true [] 3 true HIGHEST_SEVERITY 500;
        mkRule "c" "c" AUTO_CLUSTER [] [] [] true true ["m"] 2 true FIRST 500] |}.

Definition ms (n : Z) : Z := n * 1000000.

Definition report_at (code : string) (t : Z) : engine_op :=
  ReportFault code "ERROR" (ms t) (ms t) (ms t).

Definition demo_run (ops : list engine_op) : CorrelationEngine :=
  foldl engine_step (new_engine demo_config) ops.

Lemma demo_config_valid : vr_valid (validate_config demo_config) = true.
Proof. vm_compute. reflexivity. Qed.

(** Clearing the representative of an active cluster whose pending entry has
    expired leaves a representative that is no longer a member. *)
Lemma stale_representative_run :
  (λ c, (cl_representative_code c, cl_fault_codes c)) <$>
    get_clusters (demo_run [report_at "M_1" 0; report_at "M_2" 1; report_at "M_3" 2;
      CleanupExpired (ms 5000); ClearFault "M_1"]) = [("M_1", ["M_2"; "M_3"])].
Proof. vm_compute. reflexivity. Qed.

(** A member that is reported again after the window moved to a fresh pending
    cluster; clearing it then leaves it in the published one. *)
Lemma cleared_member_survives_run :
  cl_fault_codes <$>
    get_clusters (demo_run [report_at "M_1" 0; report_at "M_2" 1; report_at "M_1" 5000;
      ClearFault "M_1"; ClearFault "M_2"]) = [["M_1"]].
Proof. vm_compute. reflexivity. Qed.

(** A root cause that is reported twice forgets the symptoms collected before:
    clearing it neither returns nor un-mutes them. *)
Lemma repeated_root_cause_run :
  let e := demo_run [report_at "ROOT" 0; report_at "S_1" 1; report_at "ROOT" 2] in
  (process_clear "ROOT" e).1 = [] ∧ is_muted "S_1" (process_clear "ROOT" e).2 = true.
Proof. vm_compute. done. Qed.
