(* ===== verification/ThresholdResolver.v ===== *)
(** * Per-entity debounce thresholds

    [EntityThresholdResolver] (entity_threshold_resolver.cpp): overrides keyed by
    a path prefix, the longest matching prefix wins; the node's repair of the
    overrides at start-up and [resolve_config] (fault_manager_node.cpp).
    Reading the YAML file is not modelled: the overrides are an argument. *)

From S2P Require Import Prelude FaultTypes Debounce.

Record EntityDebounceOverride := mkOverride {
  ov_prefix : string;
  ov_confirmation_threshold : option Z;
  ov_healing_enabled : option bool;
  ov_healing_threshold : option Z;
}.

(** The comparator: longer prefixes first. *)
Definition longer_first (a b : EntityDebounceOverride) : bool :=
  (String.length (ov_prefix b) <? String.length (ov_prefix a))%nat.

(** [std::sort] is free to order prefixes of equal length either way; this is
    one of its results. *)
Definition new_resolver (entries : list EntityDebounceOverride) : list EntityDebounceOverride :=
  stable_sort longer_first entries.

(** [source_id] starts with [prefix], and ends there or goes on with a slash. *)
Definition prefix_matches (prefix source_id : string) : bool :=
  let n := String.length prefix in
  (n <=? String.length source_id)%nat && (String.substring 0 n source_id =?ₛ prefix) &&
  ((String.length source_id =? n)%nat || bool_decide (String.get n source_id = Some "/"%char)).

Definition merge_override (e : EntityDebounceOverride) (g : DebounceConfig) : DebounceConfig :=
  {| confirmation_threshold := default (confirmation_threshold g) (ov_confirmation_threshold e);
     healing_enabled := default (healing_enabled g) (ov_healing_enabled e);
     healing_threshold := default (healing_threshold g) (ov_healing_threshold e);
     critical_immediate_confirm := critical_immediate_confirm g;
     auto_confirm_after_sec := auto_confirm_after_sec g |}.

Fixpoint resolve (entries_ : list EntityDebounceOverride) (source_id : string)
    (global_default : DebounceConfig) : DebounceConfig :=
  match entries_ with
  | [] => global_default
  | entry :: entries' =>
      if prefix_matches (ov_prefix entry) source_id then merge_override entry global_default
      else resolve entries' source_id global_default
  end.

(** The node's check of one override against its global configuration. *)
Definition repair_override (g : DebounceConfig) (entry : EntityDebounceOverride)
    : EntityDebounceOverride :=
  let merged :=
    {| confirmation_threshold := default (confirmation_threshold g) (ov_confirmation_threshold entry);
       healing_enabled := healing_enabled g;
       healing_threshold := default (healing_threshold g) (ov_healing_threshold entry);
       critical_immediate_confirm := critical_immediate_confirm g;
       auto_confirm_after_sec := auto_confirm_after_sec g |} in
  let '(valid, merged) := sanitize_debounce_config merged in
  if valid then entry
  else mkOverride (ov_prefix entry)
    (ov_confirmation_threshold entry ≫= λ _, Some (confirmation_threshold merged))
    (ov_healing_enabled entry)
    (ov_healing_threshold entry ≫= λ _, Some (healing_threshold merged)).

(** No resolver is created for an empty list. *)
Definition load_overrides (g : DebounceConfig) (entries : list EntityDebounceOverride)
    : option (list EntityDebounceOverride) :=
  match repair_override g <$> entries with
  | [] => None
  | es => Some (new_resolver es)
  end.

Definition resolve_config (resolver : option (list EntityDebounceOverride)) (g : DebounceConfig)
    (source_id : string) : DebounceConfig :=
  (sanitize_debounce_config
    (match resolver with Some es => resolve es source_id g | None => g end)).2.

(** ** Longest prefix *)

(** [prefix] names [source_id] itself or one of its ancestors. *)
Definition names_ancestor (prefix source_id : string) : Prop :=
  source_id = prefix ∨ ∃ rest, source_id = prefix +:+ "/" +:+ rest.

Lemma prefix_matches_spec prefix source :
  prefix_matches prefix source = true ↔ names_ancestor prefix source.
Proof.
  unfold prefix_matches. split.
  - intros [[_ H1%str_eqb_eq]%andb_true_iff H2]%andb_true_iff.
    apply substring_0_eq in H1 as [u ->]. rewrite get_append, length_append in H2.
    apply orb_true_iff in H2 as [H2%Nat.eqb_eq|H2%bool_decide_eq_true].
    + left. destruct u; [by rewrite append_nil_r|simpl in H2; lia].
    + right. destruct u as [|c u]; simpl in H2; [done|]. injection H2 as ->. by exists u.
  - intros [->|[rest ->]].
    + rewrite substring_0_all, str_eqb_refl, Nat.leb_refl, Nat.eqb_refl. done.
    + rewrite length_append, substring_0_app, str_eqb_refl, get_append, bool_decide_true, orb_true_r
        by done. rewrite !andb_true_r. apply Nat.leb_le. lia.
Qed.

(** The orders [std::sort] may leave the entries in. *)
Definition sorted_resolver (entries es : list EntityDebounceOverride) : Prop :=
  es ≡ₚ entries ∧
  StronglySorted (λ a b, (String.length (ov_prefix b) ≤ String.length (ov_prefix a))%nat) es.

Lemma new_resolver_sorted entries : sorted_resolver entries (new_resolver entries).
Proof.
  split; [apply stable_sort_perm|].
  eapply StronglySorted_weaken; [|apply (stable_sort_sorted longer_first (λ _, True))].
  - intros a b H%Nat.ltb_ge. done.
  - intros x y _ _ H%Nat.ltb_lt. apply Nat.ltb_ge. lia.
  - intros x y z _ _ _ H1%Nat.ltb_ge H2%Nat.ltb_ge. apply Nat.ltb_ge. lia.
  - by apply Forall_true.
Qed.

(** [c] is [g] with the overrides of the longest prefix that names [source] or
    one of its ancestors, or [g] when no prefix does. *)
Definition longest_override (entries : list EntityDebounceOverride) (source : string)
    (g c : DebounceConfig) : Prop :=
  (∃ e, e ∈ entries ∧ names_ancestor (ov_prefix e) source ∧
     (∀ e', e' ∈ entries → names_ancestor (ov_prefix e') source →
        (String.length (ov_prefix e') ≤ String.length (ov_prefix e))%nat) ∧
     c = merge_override e g) ∨
  ((∀ e, e ∈ entries → ¬ names_ancestor (ov_prefix e) source) ∧ c = g).

#[global] Instance longest_override_perm : Proper ((≡ₚ) ==> eq ==> eq ==> eq ==> iff) longest_override.
Proof.
  intros es es' Hp source ? <- g ? <- c ? <-. unfold longest_override.
  assert (Hel : ∀ e, e ∈ es ↔ e ∈ es') by (intros e; by rewrite Hp). by setoid_rewrite Hel.
Qed.

Lemma resolve_cases entries es source g :
  sorted_resolver entries es → longest_override entries source g (resolve es source g).
Proof.
  intros [<- Hs]. induction Hs as [|e es Hs IH Hall]; [right; set_solver|]. simpl.
  destruct (prefix_matches (ov_prefix e) source) eqn:E.
  - left. exists e. rewrite prefix_matches_spec in E. split_and!; [left|done| |done].
    intros e' [->|He']%elem_of_cons _; [done|]. rewrite Forall_forall in Hall. by apply Hall.
  - assert (¬ names_ancestor (ov_prefix e) source) by (rewrite <- prefix_matches_spec, E; done).
    destruct IH as [(e1 & He1 & ? & ? & ?)|[Hn ?]]; [left; exists e1|right]; set_solver.
Qed.

(** The longest prefix of a source is unique. *)
Lemma names_ancestor_inj p q source :
  names_ancestor p source → names_ancestor q source → String.length p = String.length q → p = q.
Proof.
  intros Hp Hq Hlen.
  assert (∀ p, names_ancestor p source → String.substring 0 (String.length p) source = p) as Hsub.
  { clear. intros p [->|[rest ->]]; [apply substring_0_all|apply substring_0_app]. }
  rewrite <- (Hsub p Hp), <- (Hsub q Hq). by rewrite Hlen.
Qed.

(** However the sort orders prefixes of equal length, a source gets the global
    configuration with the overrides of the longest prefix that names it or one
    of its ancestors, or the global configuration when there is none; with
    distinct prefixes the answer does not depend on that order. *)
Theorem resolve_longest_prefix entries es source g :
  sorted_resolver entries es →
  longest_override entries source g (resolve es source g) ∧
  (NoDup (ov_prefix <$> entries) → resolve es source g = resolve (new_resolver entries) source g).
Proof.
  intros Hes. pose proof (resolve_cases _ _ source g Hes) as Hc. split; [done|]. intros Hnd.
  pose proof (resolve_cases _ _ source g (new_resolver_sorted entries)) as Hc'.
  destruct Hc as [(e & He & Hn & Hmax & ->)|[Hno ->]], Hc' as [(e' & He' & Hn' & Hmax' & ->)|[Hno' ->]];
    [|by edestruct Hno'|by edestruct Hno|done].
  f_equal. assert (ov_prefix e = ov_prefix e') as Heq.
  { apply (names_ancestor_inj _ _ source); [done..|]. apply Nat.le_antisymm; auto. }
  apply list_elem_of_lookup in He as [i Hi], He' as [j Hj].
  assert (i = j) as ->; [|congruence].
  eapply (NoDup_lookup (ov_prefix <$> entries)); [done|by rewrite list_lookup_fmap, Hi|].
  by rewrite list_lookup_fmap, Hj; simpl; rewrite Heq.
Qed.

(** ** Configurations handed to the storage *)

Lemma sanitize_id c : sane c → sanitize_debounce_config c = (true, c).
Proof.
  destruct c as [ct he ht ci ac]. unfold sane, sanitize_debounce_config. simpl. intros [H1 H2].
  rewrite (proj2 (Z.leb_gt 0 ct)), (proj2 (Z.ltb_ge ht 0)) by lia. done.
Qed.

Lemma repair_override_sane g e : sane g → sane (merge_override (repair_override g e) g).
Proof.
  intros [Hc Hh]. destruct e as [p ct he ht]. unfold repair_override, sane. simpl.
  destruct ct as [ct|], ht as [ht|]; simpl; repeat case_match; bool_simpl; simplify_eq/=; lia.
Qed.

Lemma resolve_merges es source g :
  resolve es source g = g ∨ ∃ e, e ∈ es ∧ resolve es source g = merge_override e g.
Proof.
  induction es as [|e es IH]; simpl; [by left|].
  destruct (prefix_matches _ _); [right; exists e; by split; [left|]|].
  destruct IH as [->|(e' & ? & ->)]; [by left|right]. exists e'. by split; [right|].
Qed.

(** C39: With a valid global configuration the start-up repair already leaves every
    source a valid configuration: the later check changes nothing, and the
    storage gets exactly the global configuration with the overrides of the
    repaired entry. *)
Theorem repaired_overrides_resolve_sane g entries source :
  sane g →
  sane (resolve_config (load_overrides g entries) g source) ∧
  resolve_config (load_overrides g entries) g source =
    resolve (new_resolver (repair_override g <$> entries)) source g.
Proof.
  intros Hg. split; [apply sanitize_sane|]. unfold resolve_config.
  assert (Hload : (match load_overrides g entries with
    | Some es => resolve es source g | None => g end) =
    resolve (new_resolver (repair_override g <$> entries)) source g).
  { unfold load_overrides. by destruct (repair_override g <$> entries). }
  rewrite Hload, sanitize_id; [done|].
  destruct (resolve_merges (new_resolver (repair_override g <$> entries)) source g)
    as [->|(e & He & ->)]; [done|].
  unfold new_resolver in He. rewrite elem_of_stable_sort in He.
  apply list_elem_of_fmap in He as (e' & -> & _). by apply repair_override_sane.
Qed.
