(* ===== verification/CaptureThreadPool.v ===== *)
(** * Capture thread pool

    [CaptureThreadPool] (capture_thread_pool.cpp): a bounded queue of capture
    jobs drained by a fixed number of workers.  [enqueue], [shutdown] and the
    dequeue of a worker are each one section under [queue_mutex_]; [pool_step]
    interleaves them with the ends of the running jobs.  Exceptions of a job are
    caught in the worker, so a job ends the same way whether it throws or not. *)

From S2P Require Import Prelude.
From stdpp Require Import relations.

Inductive QueueFullPolicy := kRejectNewest | kDropOldest.

Inductive EnqueueResult := kAccepted | kDroppedNewest | kEvictedOldest | kRejectedShuttingDown.

Record EnqueueOutcome := mkOutcome {
  eo_result : EnqueueResult;
  eo_evicted_code : option string;
}.

Record CaptureThreadPool := mkPool {
  queue_depth_ : nat;
  full_policy_ : QueueFullPolicy;
  queue_ : list string;
  stop_ : bool;
  dropped_captures_ : N;        (* uint64_t *)
  cp_workers : nat;             (* worker threads *)
}.

(** Sizes of 0 are raised to 1. *)
Definition new_pool (pool_size queue_depth : nat) (full_policy : QueueFullPolicy) : CaptureThreadPool :=
  mkPool (if (queue_depth =? 0)%nat then 1 else queue_depth) full_policy [] false 0
    (if (pool_size =? 0)%nat then 1 else pool_size).

Definition with_queue (q : list string) (dropped : N) (p : CaptureThreadPool) : CaptureThreadPool :=
  mkPool (queue_depth_ p) (full_policy_ p) q (stop_ p) dropped (cp_workers p).

Definition incr_dropped (p : CaptureThreadPool) : N :=
  ((dropped_captures_ p + 1) `mod` 18446744073709551616)%N.

Definition enqueue (fault_code : string) (p : CaptureThreadPool)
    : EnqueueOutcome * CaptureThreadPool :=
  if stop_ p then (mkOutcome kRejectedShuttingDown None, p)
  else if (length (queue_ p) <? queue_depth_ p)%nat then
    (mkOutcome kAccepted None, with_queue (queue_ p ++ [fault_code]) (dropped_captures_ p) p)
  else match full_policy_ p with
  | kRejectNewest =>
      (mkOutcome kDroppedNewest None, with_queue (queue_ p) (incr_dropped p) p)
  | kDropOldest =>
      (mkOutcome kEvictedOldest (head (queue_ p)),
       with_queue (tail (queue_ p) ++ [fault_code]) (incr_dropped p) p)
  end.

(** [shutdown] under the mutex; joining the workers waits for the running jobs. *)
Definition pool_shutdown (p : CaptureThreadPool) : CaptureThreadPool :=
  if stop_ p then p
  else mkPool (queue_depth_ p) (full_policy_ p) [] true (dropped_captures_ p) (cp_workers p).

Definition pending_size (p : CaptureThreadPool) : nat := length (queue_ p).

(** A worker woken with the mutex held: [None] while it has to go on waiting,
    [Some None] when it leaves its loop, otherwise the job it will run. *)
Definition worker_take (p : CaptureThreadPool) : option (option string * CaptureThreadPool) :=
  if stop_ p then Some (None, p)
  else match queue_ p with
  | [] => None
  | job :: q => Some (Some job, with_queue q (dropped_captures_ p) p)
  end.

(** ** Interleavings *)

(** The pool with its idle and busy workers and, for the statements, what has
    happened so far. *)
Record pool_sys := mkSys {
  ps_pool : CaptureThreadPool;
  ps_idle : nat;
  ps_running : list string;
  ps_submitted : list string;   (* every code passed to [enqueue] *)
  ps_started : list string;     (* jobs handed to a worker, in order *)
  ps_storm : list string;       (* dropped or evicted by a full queue *)
  ps_discarded : list string;   (* refused or thrown away by the shutdown *)
}.

Definition new_sys (p : CaptureThreadPool) : pool_sys := mkSys p (cp_workers p) [] [] [] [] [].

(** The jobs an enqueue gives up, by its answer. *)
Definition storm_of (code : string) (o : EnqueueOutcome) : list string :=
  match eo_result o, eo_evicted_code o with
  | kDroppedNewest, _ => [code]
  | kEvictedOldest, Some c => [c]
  | _, _ => []
  end.

Definition refused_of (code : string) (o : EnqueueOutcome) : list string :=
  match eo_result o with kRejectedShuttingDown => [code] | _ => [] end.

Inductive pool_step : pool_sys → pool_sys → Prop :=
  | ps_enqueue code o p p' n run sub st storm dis :
      enqueue code p = (o, p') →
      pool_step (mkSys p n run sub st storm dis)
        (mkSys p' n run (sub ++ [code]) st (storm ++ storm_of code o) (dis ++ refused_of code o))
  | ps_start p p' job n run sub st storm dis :
      worker_take p = Some (Some job, p') →
      pool_step (mkSys p (S n) run sub st storm dis)
        (mkSys p' n (job :: run) sub (st ++ [job]) storm dis)
  | ps_leave p n run sub st storm dis :
      worker_take p = Some (None, p) →
      pool_step (mkSys p (S n) run sub st storm dis) (mkSys p n run sub st storm dis)
  | ps_finish p n run1 job run2 sub st storm dis :
      pool_step (mkSys p n (run1 ++ job :: run2) sub st storm dis)
        (mkSys p (S n) (run1 ++ run2) sub st storm dis)
  | ps_shutdown p n run sub st storm dis :
      pool_step (mkSys p n run sub st storm dis)
        (mkSys (pool_shutdown p) n run sub st storm
           (dis ++ (if stop_ p then [] else queue_ p))).

(** ** Accounting *)

Record pool_ok (size depth : nat) (s : pool_sys) : Prop := {
  po_depth : queue_depth_ (ps_pool s) = depth ∧ (1 ≤ depth)%nat;
  po_queue : (length (queue_ (ps_pool s)) ≤ depth)%nat;
  po_workers : (ps_idle s + length (ps_running s) ≤ size)%nat;
  po_stop : stop_ (ps_pool s) = true → queue_ (ps_pool s) = [];
  po_open : stop_ (ps_pool s) = false → ps_discarded s = [];
  po_fifo : ps_started s ++ queue_ (ps_pool s) `sublist_of` ps_submitted s;
  po_all : ps_started s ++ queue_ (ps_pool s) ++ ps_storm s ++ ps_discarded s ≡ₚ ps_submitted s;
  po_count : dropped_captures_ (ps_pool s) =
    (N.of_nat (length (ps_storm s)) `mod` 18446744073709551616)%N;
}.

Lemma incr_count (l : list string) c :
  ((N.of_nat (length l) `mod` 18446744073709551616 + 1) `mod` 18446744073709551616 =
   N.of_nat (length (l ++ [c])) `mod` 18446744073709551616)%N.
Proof. rewrite length_app. simpl. rewrite N.Div0.add_mod_idemp_l. f_equal. lia. Qed.

Lemma sublist_snoc_drop (st : list string) x q sub c :
  st ++ x :: q `sublist_of` sub → st ++ q ++ [c] `sublist_of` sub ++ [c].
Proof.
  intros H. rewrite app_assoc. apply sublist_app; [|done].
  etrans; [|exact H]. apply sublist_app; [done|]. by apply sublist_cons.
Qed.

Lemma enqueue_ok size depth code p n run sub st storm dis :
  pool_ok size depth (mkSys p n run sub st storm dis) →
  pool_ok size depth (mkSys (enqueue code p).2 n run (sub ++ [code]) st
    (storm ++ storm_of code (enqueue code p).1) (dis ++ refused_of code (enqueue code p).1)).
Proof.
  intros [[Hd Hd1] Hq Hw Hs Ho Hf Ha Hc]. simpl in *. unfold enqueue.
  destruct (stop_ p) eqn:Es.
  { simpl. rewrite app_nil_r. split; simpl; try (done || by rewrite Es).
    - by apply sublist_inserts_r.
    - cbn. rewrite <- Ha. solve_Permutation. }
  rewrite (Ho eq_refl) in *.
  destruct (Nat.ltb_spec (length (queue_ p)) (queue_depth_ p));
    [|destruct (full_policy_ p) eqn:Ep; [|destruct (queue_ p) as [|x q] eqn:Eq; [simpl in *; lia|]]];
    cbn in *; rewrite ?app_nil_r in *; split; simpl; rewrite ?app_nil_r; try (done || by rewrite Es).
  - rewrite length_app. simpl. lia.
  - rewrite app_assoc. by apply sublist_app.
  - rewrite <- Ha. solve_Permutation.
  - by apply sublist_inserts_r.
  - rewrite <- Ha. solve_Permutation.
  - unfold incr_dropped. rewrite Hc. apply incr_count.
  - rewrite length_app. simpl. lia.
  - by eapply sublist_snoc_drop.
  - rewrite <- Ha. solve_Permutation.
  - unfold incr_dropped. rewrite Hc. apply incr_count.
Qed.

Lemma pool_step_ok size depth s s' : pool_step s s' → pool_ok size depth s → pool_ok size depth s'.
Proof.
  intros Hstep Hok. destruct Hstep as [code o p p' n run sub st storm dis He|p p' job n run sub st storm dis Ht|
    p n run sub st storm dis Ht|p n run1 job run2 sub st storm dis|p n run sub st storm dis].
  - assert (p' = (enqueue code p).2 ∧ o = (enqueue code p).1) as [-> ->] by (by rewrite He).
    by apply enqueue_ok.
  - destruct Hok as [[Hd Hd1] Hq Hw Hs Ho Hf Ha Hc]. simpl in *. unfold worker_take in Ht.
    destruct (stop_ p) eqn:Es; [done|]. destruct (queue_ p) as [|x q] eqn:Eq; [done|].
    injection Ht as <- <-. split; simpl in *; try (done || by rewrite Es); try lia.
    + by rewrite <- app_assoc.
    + by rewrite <- app_assoc.
  - destruct Hok as [? ? Hw ? ? ? ? ?]. simpl in *. split; simpl in *; try done. lia.
  - destruct Hok as [? ? Hw ? ? ? ? ?]. simpl in *. split; simpl in *; try done.
    rewrite length_app in *. simpl in *. lia.
  - destruct Hok as [[Hd Hd1] Hq Hw Hs Ho Hf Ha Hc]. simpl in *. unfold pool_shutdown.
    destruct (stop_ p) eqn:Es; [rewrite app_nil_r; split; simpl; try (done || by rewrite Es)|].
    rewrite (Ho eq_refl) in *. split; simpl; try done; try lia.
    + rewrite app_nil_r. etrans; [|exact Hf]. by apply sublist_inserts_r.
    + rewrite <- Ha. solve_Permutation.
Qed.

(** C29: Whatever enqueues, workers and the shutdown do concurrently, at most the
    configured number of jobs is pending and at most one per worker runs; jobs
    start in the order they were submitted; every submitted job is started,
    pending, dropped by a full queue (and counted) or discarded by the shutdown,
    exactly once; and nothing is pending once the pool has stopped. *)
Theorem capture_pool_accounts_for_every_job size depth policy s :
  rtc pool_step (new_sys (new_pool size depth policy)) s →
  (pending_size (ps_pool s) ≤ 1 `max` depth)%nat ∧
  (length (ps_running s) ≤ 1 `max` size)%nat ∧
  ps_started s ++ queue_ (ps_pool s) `sublist_of` ps_submitted s ∧
  ps_started s ++ queue_ (ps_pool s) ++ ps_storm s ++ ps_discarded s ≡ₚ ps_submitted s ∧
  dropped_captures_ (ps_pool s) = (N.of_nat (length (ps_storm s)) `mod` 18446744073709551616)%N ∧
  (stop_ (ps_pool s) = true → pending_size (ps_pool s) = 0%nat).
Proof.
  intros Hrun. assert (Hok : pool_ok (1 `max` size) (1 `max` depth) s).
  { assert (H0 : pool_ok (1 `max` size) (1 `max` depth) (new_sys (new_pool size depth policy))).
    { split; simpl; try done.
      - destruct depth; simpl; lia.
      - lia.
      - destruct size; simpl; lia. }
    revert H0. generalize (new_sys (new_pool size depth policy)) Hrun. clear.
    intros s0 Hrun. induction Hrun as [|s0 s1 s2 Hstep _ IH]; [done|]. intros H0.
    apply IH. by eapply pool_step_ok. }
  destruct Hok as [[Hd Hd1] Hq Hw Hs Ho Hf Ha Hc]. split_and!; try done; [lia|].
  intros E. unfold pending_size. by rewrite Hs.
Qed.

(** One worker, one place in the queue: "a" runs, "b" is evicted for "c". *)
Definition demo_pool : pool_sys :=
  mkSys (mkPool 1 kDropOldest ["c"] false 1 1) 0 ["a"] ["a"; "b"; "c"] ["a"] ["b"] [].

Lemma capture_pool_accounts_for_every_job_witness :
  rtc pool_step (new_sys (new_pool 1 0 kDropOldest)) demo_pool ∧
  ps_started demo_pool ++ queue_ (ps_pool demo_pool) `sublist_of` ps_submitted demo_pool.
Proof.
  assert (Hrun : rtc pool_step (new_sys (new_pool 1 0 kDropOldest)) demo_pool).
  { eapply rtc_l; [eapply (ps_enqueue "a"); reflexivity|].
    eapply rtc_l; [eapply ps_start; reflexivity|].
    eapply rtc_l; [eapply (ps_enqueue "b"); reflexivity|].
    eapply rtc_l; [eapply (ps_enqueue "c"); reflexivity|]. apply rtc_refl. }
  split; [exact Hrun|].
  exact (proj1 (proj2 (proj2
    (capture_pool_accounts_for_every_job 1 0 kDropOldest demo_pool Hrun)))).
Defined.
