(* ===== verification/FaultManagerNode.v ===== *)
(** * The fault manager node

    The service handlers and timers of [FaultManagerNode] (fault_manager_node.cpp)
    over the modelled storage, correlation engine, threshold resolver and capture
    pool.  The node runs on a single-threaded executor, so one handler is one
    step.  Handlers are written in a state monad with exceptions.  They let out
    two: the one [audit_transition] rethrows when [fail_closed] is set, and that
    of a storage call, which the persistent backend throws when a statement
    fails.  Nothing catches either, so the process ends there.

    Published events and appended audit records are kept as lists.  Readings of
    the clocks and the outcomes of storage calls and of writes to the audit
    database are streams of the environment, [n_env] counting the interactions;
    the theorems hold for every such stream. *)

From S2P Require Import Prelude FaultTypes Debounce FaultEvents Snapshots Rosbags.
From S2P Require Import CorrelationTypes CorrelationEngine ThresholdResolver CaptureThreadPool.
Open Scope Z_scope.

Definition EVENT_CONFIRMED : string := "fault_confirmed".
Definition EVENT_CLEARED : string := "fault_cleared".
Definition EVENT_UPDATED : string := "fault_updated".

Record FaultEvent := mkFaultEvent {
  fe_event_type : string;
  fe_fault : FaultMsg;
  fe_timestamp : Z;
  fe_auto_cleared_codes : list string;
}.

Definition kTransitionOccurred : string := "occurred".
Definition kTransitionConfirmed : string := "confirmed".
Definition kTransitionCleared : string := "cleared".
Definition kTransitionHealed : string := "healed".
Definition kTransitionLoggingActivated : string := "logging_activated".

Record AuditEvent := mkAuditEvent {
  ae_fault_code : string;
  ae_transition : string;
  ae_severity : Z;
  ae_status : string;
  ae_source_id : string;
  ae_description : string;
  ae_occurred_at_ns : Z;
}.

(** The part of [RosbagCapture] the handlers call: its configuration and the
    recording in flight. *)
Record RosbagCapture := mkRosbagCapture {
  rc_enabled : bool;
  rc_auto_cleanup : bool;
  rc_max_bags_per_fault : nat;
  recording_post_fault_ : bool;
  attached_fault_codes_ : gset string;
  current_fault_code_ : string;
}.

Definition keeps_history (c : RosbagCapture) : bool := negb (rc_max_bags_per_fault c =? 1)%nat.

(** The part of [on_fault_cleared] that calls the storage is reached. *)
Definition deletes_on_clear (c : RosbagCapture) : bool := rc_enabled c && rc_auto_cleanup c && negb (keeps_history c).

Definition on_fault_cleared (code : string) (c : RosbagCapture) (s : InMemoryFaultStorage)
    : RosbagCapture * InMemoryFaultStorage :=
  if negb (rc_enabled c) || negb (rc_auto_cleanup c) then (c, s)
  else if keeps_history c then (c, s)
  else
    let c :=
      if recording_post_fault_ c then
        mkRosbagCapture (rc_enabled c) (rc_auto_cleanup c) (rc_max_bags_per_fault c) true
          (attached_fault_codes_ c ∖ {[ code ]})
          (if code =?ₛ current_fault_code_ c then "" else current_fault_code_ c)
      else c in
    (c, (delete_rosbag_file code s).2).

(** What the node is configured with. *)
Record NodeConfig := mkNodeConfig {
  global_config_ : DebounceConfig;
  threshold_resolver_ : option (list EntityDebounceOverride);
  audit_log_ : bool;                       (* an audit log is open *)
  audit_confirmed_only_ : bool;
  audit_fail_closed_ : bool;
  snapshot_recapture_cooldown_sec_ : double;
}.

Record Node := mkNode {
  n_storage : InMemoryFaultStorage;
  n_engine : option CorrelationEngine;
  n_events : list FaultEvent;              (* published on ~/events *)
  n_audit : list AuditEvent;               (* appended to the audit log *)
  n_audit_dropped_writes : N;              (* uint64_t *)
  n_audit_healthy : bool;
  n_pool : option CaptureThreadPool;
  n_last_capture_times : gmap string Z;    (* steady clock *)
  n_rosbag : option RosbagCapture;
  n_prefailed : list string;               (* calls of on_fault_prefailed *)
  n_env : nat;
}.

(** ** Handlers as computations *)

(** [None]: an exception leaves the handler. *)
Definition M (A : Type) : Type := Node → option A * Node.

#[global] Instance M_ret : MRet M := λ A x n, (Some x, n).
#[global] Instance M_bind : MBind M := λ A B f m n,
  match m n with (Some x, n') => f x n' | (None, n') => (None, n') end.

Definition read {A} (f : Node → A) : M A := λ n, (Some (f n), n).
Definition throw {A} : M A := λ n, (None, n).

Fixpoint for_each {A} (l : list A) (f : A → M unit) : M unit :=
  match l with [] => mret tt | x :: l' => f x;; for_each l' f end.

Definition when (b : bool) (m : M unit) : M unit := if b then m else mret tt.

Definition set_storage (s : InMemoryFaultStorage) : M unit := λ n,
  (Some tt, mkNode s (n_engine n) (n_events n) (n_audit n) (n_audit_dropped_writes n)
    (n_audit_healthy n) (n_pool n) (n_last_capture_times n) (n_rosbag n) (n_prefailed n) (n_env n)).

Definition set_engine (e : CorrelationEngine) : M unit := λ n,
  (Some tt, mkNode (n_storage n) (Some e) (n_events n) (n_audit n) (n_audit_dropped_writes n)
    (n_audit_healthy n) (n_pool n) (n_last_capture_times n) (n_rosbag n) (n_prefailed n) (n_env n)).

Definition push_event (e : FaultEvent) : M unit := λ n,
  (Some tt, mkNode (n_storage n) (n_engine n) (n_events n ++ [e]) (n_audit n) (n_audit_dropped_writes n)
    (n_audit_healthy n) (n_pool n) (n_last_capture_times n) (n_rosbag n) (n_prefailed n) (n_env n)).

Definition push_audit (e : AuditEvent) : M unit := λ n,
  (Some tt, mkNode (n_storage n) (n_engine n) (n_events n) (n_audit n ++ [e]) (n_audit_dropped_writes n)
    (n_audit_healthy n) (n_pool n) (n_last_capture_times n) (n_rosbag n) (n_prefailed n) (n_env n)).

(** [audit_dropped_writes_.fetch_add(1)] and [audit_healthy_.store(false)]. *)
Definition drop_audit : M unit := λ n,
  (Some tt, mkNode (n_storage n) (n_engine n) (n_events n) (n_audit n)
    ((n_audit_dropped_writes n + 1) `mod` 18446744073709551616)%N false
    (n_pool n) (n_last_capture_times n) (n_rosbag n) (n_prefailed n) (n_env n)).

Definition set_pool (p : CaptureThreadPool) : M unit := λ n,
  (Some tt, mkNode (n_storage n) (n_engine n) (n_events n) (n_audit n) (n_audit_dropped_writes n)
    (n_audit_healthy n) (Some p) (n_last_capture_times n) (n_rosbag n) (n_prefailed n) (n_env n)).

Definition set_last_capture_times (t : gmap string Z) : M unit := λ n,
  (Some tt, mkNode (n_storage n) (n_engine n) (n_events n) (n_audit n) (n_audit_dropped_writes n)
    (n_audit_healthy n) (n_pool n) t (n_rosbag n) (n_prefailed n) (n_env n)).

Definition set_rosbag (c : RosbagCapture) : M unit := λ n,
  (Some tt, mkNode (n_storage n) (n_engine n) (n_events n) (n_audit n) (n_audit_dropped_writes n)
    (n_audit_healthy n) (n_pool n) (n_last_capture_times n) (Some c) (n_prefailed n) (n_env n)).

Definition push_prefailed (code : string) : M unit := λ n,
  (Some tt, mkNode (n_storage n) (n_engine n) (n_events n) (n_audit n) (n_audit_dropped_writes n)
    (n_audit_healthy n) (n_pool n) (n_last_capture_times n) (n_rosbag n) (n_prefailed n ++ [code]) (n_env n)).

Definition next_env : M nat := λ n,
  (Some (n_env n), mkNode (n_storage n) (n_engine n) (n_events n) (n_audit n)
    (n_audit_dropped_writes n) (n_audit_healthy n) (n_pool n) (n_last_capture_times n) (n_rosbag n)
    (n_prefailed n) (S (n_env n))).

(** ** Requests *)

Record ReportRequest := mkReportRequest {
  rq_fault_code : string;
  rq_event_type : Z;
  rq_severity : Z;
  rq_description : string;
  rq_source_id : string;
}.

Record ClearRequest := mkClearRequest {
  cq_fault_code : string;
  cq_skip_correlation_auto_clear : bool;
}.

Record ClearResponse := mkClearResponse {
  cr_success : bool;
  cr_message : string;
  cr_auto_cleared_codes : list string;
}.

Definition kMaxFaultCodeLength : nat := 256.

Definition code_char (c : ascii) : bool :=
  isalnum c || bool_decide (c = "_"%char) || bool_decide (c = "-"%char) || bool_decide (c = "."%char).

(** The first character the loop refuses. *)
Fixpoint first_bad_char (s : string) : option ascii :=
  match s with
  | "" => None
  | String c s' => if code_char c then first_bad_char s' else Some c
  end.

(** [find("..") != npos]. *)
Fixpoint has_dotdot (s : string) : bool :=
  match s with
  | String "." (String "." _) => true
  | String _ s' => has_dotdot s'
  | "" => false
  end.

(** The error message, empty for a valid code. *)
Definition validate_fault_code (code : string) : string :=
  if code =?ₛ "" then "fault_code cannot be empty"
  else if (kMaxFaultCodeLength <? String.length code)%nat then
    "fault_code exceeds maximum length of " +:+ pretty kMaxFaultCodeLength
  else match first_bad_char code with
  | Some c => "fault_code contains invalid character '" +:+ String c "" +:+
      "'. Only alphanumeric, underscore, hyphen, and dot are allowed"
  | None => if has_dotdot code then "fault_code cannot contain '..'" else ""
  end.

Definition is_valid_severity (severity : Z) : bool := severity <=? SEVERITY_CRITICAL.

(** [source == entity_id], or [source] is longer than ["/" + entity_id] and ends
    with it. *)
Definition source_matches (entity_id source : string) : bool :=
  (source =?ₛ entity_id) ||
  (let suffix := "/" +:+ entity_id in
   (String.length suffix <? String.length source)%nat &&
   (String.substring (String.length source - String.length suffix) (String.length suffix) source
      =?ₛ suffix)).

Definition matches_entity (reporting_sources : list string) (entity_id : string) : bool :=
  existsb (source_matches entity_id) reporting_sources.

(** [inl]: the error message. *)
Definition handle_list_faults_for_entity (entity_id : string) (s : InMemoryFaultStorage)
    : string + list FaultMsg :=
  if entity_id =?ₛ "" then inl "entity_id cannot be empty"
  else inr (filter (λ f, matches_entity (msg_reporting_sources f) entity_id = true) (get_all_faults s)).

(** ** Read-only handlers *)

Record ListRequest := mkListRequest {
  lq_filter_by_severity : bool;
  lq_severity : Z;
  lq_statuses : list string;
  lq_include_muted : bool;
  lq_include_clusters : bool;
}.

(** [MutedFaultInfo] has the fields of [MutedFaultData]. *)
Record ClusterInfo := mkClusterInfo {
  ci_cluster : ClusterData;     (* ids, label, representative, codes and times are copied *)
  ci_count : Z;                 (* uint32_t *)
}.

Record ListResponse := mkListResponse {
  lr_faults : list FaultMsg;
  lr_muted_count : Z;
  lr_cluster_count : Z;
  lr_muted_faults : list MutedFaultData;
  lr_clusters : list ClusterInfo;
}.

Definition cluster_info (c : ClusterData) : ClusterInfo :=
  mkClusterInfo c (wrap_u32 (Z.of_nat (length (cl_fault_codes c)))).

Definition handle_list_faults (rq : ListRequest) (n : Node) : ListResponse :=
  let listed := list_faults (lq_filter_by_severity rq) (lq_severity rq) (lq_statuses rq) (n_storage n) in
  match n_engine n with
  | None => mkListResponse listed 0 0 [] []
  | Some e =>
      let muted := get_muted_faults e in
      let muted_codes : gset string := list_to_set (mf_fault_code <$> muted) in
      mkListResponse
        (if lq_include_muted rq then listed
         else filter (λ f, msg_fault_code f ∉ muted_codes) listed)
        (get_muted_count e) (get_cluster_count e)
        (if lq_include_muted rq then muted else [])
        (if lq_include_clusters rq then cluster_info <$> get_clusters e else [])
  end.

Definition TYPE_FREEZE_FRAME : string := "freeze_frame".
Definition TYPE_ROSBAG : string := "rosbag".

Record Snapshot := mkSnapshot {
  sn_type : string;
  sn_name : string;
  sn_data : string;
  sn_topic : string;
  sn_message_type : string;
  sn_bulk_data_id : string;
  sn_size_bytes : Z;
  sn_duration_sec : double;
  sn_format : string;
  sn_captured_at_ns : Z;
}.

(** The part after the last slash: [None] without a slash. *)
Fixpoint after_last_slash (s : string) : option string :=
  match s with
  | "" => None
  | String c s' =>
      match after_last_slash s' with
      | Some t => Some t
      | None => if bool_decide (c = "/"%char) then Some s' else None
      end
  end.

Definition extract_topic_name (topic_path : string) : string :=
  match after_last_slash topic_path with
  | Some t => if t =?ₛ "" then topic_path else t
  | None => topic_path
  end.

Definition freeze_frame_snapshot (r : SnapshotData) : Snapshot :=
  mkSnapshot TYPE_FREEZE_FRAME (extract_topic_name (snap_topic r)) (snap_data r) (snap_topic r)
    (snap_message_type r) "" 0 f64_zero "" (snap_captured_at_ns r).

Definition retained_frame_snapshot (f : FreezeFrameData) : Snapshot :=
  mkSnapshot TYPE_FREEZE_FRAME "freeze_frame" (ff_data f) "" "" "" 0 f64_zero "" (ff_captured_at_ns f).

Definition rosbag_snapshot (r : RosbagFileInfo) : Snapshot :=
  mkSnapshot TYPE_ROSBAG ("rosbag_" +:+ rb_recording_id r) "" "" "" (rb_recording_id r)
    (rb_size_bytes r) (rb_duration_sec r) (rb_format r) (rb_created_at_ns r).

Record GetFaultResponse := mkGetFault {
  gf_fault : FaultMsg;
  gf_first_occurrence_ns : Z;
  gf_last_occurrence_ns : Z;
  gf_snapshots : list Snapshot;
}.

(** [inl]: the error message. *)
Definition handle_get_fault (code : string) (s : InMemoryFaultStorage) : string + GetFaultResponse :=
  let error := validate_fault_code code in
  if negb (error =?ₛ "") then inl error
  else match get_fault code s with
  | None => inl ("Fault not found: " +:+ code)
  | Some fault =>
      let stored := get_snapshots code "" s in
      let frame :=
        if bool_decide (stored = []) || retains_snapshots_on_clear s
        then from_option (λ f, [retained_frame_snapshot f]) [] (get_freeze_frame code s) else [] in
      inr (mkGetFault fault (msg_first_occurred fault) (msg_last_occurred fault)
        ((freeze_frame_snapshot <$> stored) ++ frame ++ (rosbag_snapshot <$> get_rosbag_files code s)))
  end.

(** ** Handlers *)

Section Handlers.
Context (wall steady : nat → Z) (append_throws storage_throws : nat → bool) (cfg : NodeConfig).

(** Every call of the storage may throw. *)
Definition storage_call : M unit := i ← next_env; if storage_throws i then throw else mret tt.

Definition query {A} (f : InMemoryFaultStorage → A) : M A := storage_call;; read (λ n, f (n_storage n)).

Definition get_wall_clock_time : M Z := i ← next_env; mret (wall i).
Definition steady_now : M Z := i ← next_env; mret (steady i).

(** The end of [create_audit_log]: a marker, and no harm if it cannot be written. *)
Definition activate_audit_log : M unit :=
  if negb (audit_log_ cfg) then mret tt
  else
    t ← get_wall_clock_time;
    i ← next_env;
    when (negb (append_throws i))
      (push_audit (mkAuditEvent "__audit__" kTransitionLoggingActivated 0 "ACTIVE" "fault_manager"
         "audit logging activated" t)).

Definition publish_fault_event (event_type : string) (fault : FaultMsg)
    (auto_cleared_codes : list string) : M unit :=
  t ← get_wall_clock_time;
  push_event (mkFaultEvent event_type fault t auto_cleared_codes).

Definition audit_transition (transition : string) (fault : FaultMsg) (source_id : string)
    (occurred_at_ns : Z) : M unit :=
  if negb (audit_log_ cfg) then mret tt
  else if audit_confirmed_only_ cfg && negb (transition =?ₛ kTransitionConfirmed) then mret tt
  else
    i ← next_env;
    if append_throws i then
      drop_audit;; if audit_fail_closed_ cfg then throw else mret tt
    else
      push_audit (mkAuditEvent (msg_fault_code fault) transition (msg_severity fault)
        (msg_status fault) source_id (msg_description fault) occurred_at_ns).

(** Elapsed steady time against the cooldown, both in double nanoseconds. *)
Definition cooldown_ns : double :=
  f64_mul (snapshot_recapture_cooldown_sec_ cfg) (f64_of_Z 1000000000).
Definition cooled_down (now t : Z) : bool := f64_leb cooldown_ns (f64_of_Z (now - t)).

Definition capture_on_confirm (code : string) : M unit :=
  pool ← read n_pool;
  match pool with
  | None => mret tt
  | Some pool =>
      let cooldown_enabled := SFltb f64_zero (snapshot_recapture_cooldown_sec_ cfg) in
      on_cooldown ←
        (if cooldown_enabled then
           now ← steady_now;
           times ← read n_last_capture_times;
           let times := filter (λ e : string * Z, cooled_down now e.2 = false) times in
           set_last_capture_times times;;
           mret (match times !! code with
                 | Some t => SFltb (f64_of_Z (now - t)) cooldown_ns
                 | None => false
                 end)
         else mret false);
      if on_cooldown : bool then mret tt
      else
        let '(outcome, pool) := enqueue code pool in
        set_pool pool;;
        now ← steady_now;
        times ← read n_last_capture_times;
        match eo_result outcome with
        | kAccepted => when cooldown_enabled (set_last_capture_times (<[code := now]> times))
        | kEvictedOldest =>
            when cooldown_enabled
              (set_last_capture_times
                (match eo_evicted_code outcome with
                 | Some evicted => delete evicted (<[code := now]> times)
                 | None => <[code := now]> times
                 end))
        | kDroppedNewest | kRejectedShuttingDown => mret tt
        end
  end.

(** The correlation of one report; no engine, no muting. *)
Definition correlate (rq : ReportRequest) : M bool :=
  engine ← read n_engine;
  match engine with
  | Some e =>
      if rq_event_type rq =? EVENT_FAILED then
        timestamp ← steady_now; now ← steady_now; now_system ← get_wall_clock_time;
        let '(r, e) := process_fault (rq_fault_code rq) (severity_to_string (rq_severity rq))
                         timestamp now now_system e in
        set_engine e;; mret (pfr_should_mute r)
      else mret false
  | None => mret false
  end.

(** From the updated fault to the events, audit records and captures. *)
Definition announce_report (rq : ReportRequest) (is_new : bool) (status_before : string)
    (event_time : Z) (fault_after : FaultMsg) : M unit :=
  should_mute ← correlate rq;
  let after := msg_status fault_after in
  let first_confirm := is_new && (after =?ₛ STATUS_CONFIRMED) in
  let transition := negb is_new && negb (status_before =?ₛ STATUS_CONFIRMED)
                    && (after =?ₛ STATUS_CONFIRMED) in
  let just_confirmed := first_confirm || transition in
  when (negb should_mute)
    (if just_confirmed then publish_fault_event EVENT_CONFIRMED fault_after []
     else if negb is_new && (after =?ₛ STATUS_CONFIRMED)
     then publish_fault_event EVENT_UPDATED fault_after []
     else mret tt);;
  let just_healed := negb is_new && negb (status_before =?ₛ STATUS_HEALED)
                     && (after =?ₛ STATUS_HEALED) in
  when just_healed (publish_fault_event EVENT_CLEARED fault_after []);;
  when is_new (audit_transition kTransitionOccurred fault_after (rq_source_id rq) event_time);;
  when just_confirmed
    (audit_transition kTransitionConfirmed fault_after (rq_source_id rq) event_time);;
  when just_healed (audit_transition kTransitionHealed fault_after "auto_heal" event_time);;
  when just_confirmed (capture_on_confirm (rq_fault_code rq));;
  let just_prefailed := (is_new && (after =?ₛ STATUS_PREFAILED))
    || (negb is_new && negb (status_before =?ₛ STATUS_PREFAILED) && (after =?ₛ STATUS_PREFAILED)) in
  rosbag ← read n_rosbag;
  when (just_prefailed && bool_decide (is_Some rosbag)) (push_prefailed (rq_fault_code rq)).

(** [false]: the report is rejected. *)
Definition handle_report_fault (rq : ReportRequest) : M bool :=
  if negb (validate_fault_code (rq_fault_code rq) =?ₛ "") then mret false
  else if negb (rq_event_type rq =? EVENT_FAILED) && negb (rq_event_type rq =? EVENT_PASSED)
  then mret false
  else if (rq_event_type rq =? EVENT_FAILED) && negb (is_valid_severity (rq_severity rq))
  then mret false
  else if rq_source_id rq =?ₛ "" then mret false
  else
    fault_before ← query (get_fault (rq_fault_code rq));
    let status_before := from_option msg_status "" fault_before in
    let resolved_config :=
      resolve_config (threshold_resolver_ cfg) (global_config_ cfg) (rq_source_id rq) in
    event_time ← get_wall_clock_time;
    s ← query id;
    let '(is_new, s) := report_fault_event (rq_fault_code rq) (rq_event_type rq) (rq_severity rq)
      (rq_description rq) (rq_source_id rq) event_time resolved_config s in
    set_storage s;;
    fault_after ← query (get_fault (rq_fault_code rq));
    match fault_after with
    | None => mret true
    | Some fault_after =>
        announce_report rq is_new status_before event_time fault_after;; mret true
    end.

Definition call_on_fault_cleared (code : string) : M unit :=
  rosbag ← read n_rosbag;
  match rosbag with
  | None => mret tt
  | Some c =>
      when (deletes_on_clear c) storage_call;;
      s ← read n_storage;
      let '(c, s) := on_fault_cleared code c s in
      set_rosbag c;; set_storage s
  end.

(** The audit record of a cleared fault. *)
Definition audit_cleared (code : string) : M unit :=
  fault ← query (get_fault code);
  match fault with
  | None => mret tt
  | Some f => t ← get_wall_clock_time; audit_transition kTransitionCleared f "clear_service" t
  end.

Definition auto_clear_symptom (code : string) : M unit :=
  s ← query id;
  set_storage (clear_fault code s).2;;
  when (audit_log_ cfg) (audit_cleared code);;
  call_on_fault_cleared code.

Definition correlated_clear (rq : ClearRequest) : M (list string) :=
  engine ← read n_engine;
  match engine with
  | Some e =>
      if cq_skip_correlation_auto_clear rq then mret []
      else let '(codes, e) := process_clear (cq_fault_code rq) e in set_engine e;; mret codes
  | None => mret []
  end.

Definition cleared_message (code : string) (auto_cleared_codes : list string) : string :=
  match auto_cleared_codes with
  | [] => "Fault cleared: " +:+ code
  | _ => "Fault cleared: " +:+ code +:+ " (auto-cleared " +:+ pretty (length auto_cleared_codes)
         +:+ " symptoms)"
  end.

Definition handle_clear_fault (rq : ClearRequest) : M ClearResponse :=
  let code := cq_fault_code rq in
  let error := validate_fault_code code in
  if negb (error =?ₛ "") then mret (mkClearResponse false error [])
  else
    auto_cleared_codes ← correlated_clear rq;
    s ← query id;
    let '(cleared, s) := clear_fault code s in
    set_storage s;;
    if cleared : bool then
      times ← read n_last_capture_times;
      set_last_capture_times (foldl (λ t c, delete c t) (delete code times) auto_cleared_codes);;
      for_each auto_cleared_codes auto_clear_symptom;;
      call_on_fault_cleared code;;
      fault ← query (get_fault code);
      match fault with
      | None => mret tt
      | Some f => publish_fault_event EVENT_CLEARED f auto_cleared_codes;; audit_cleared code
      end;;
      mret (mkClearResponse true (cleared_message code auto_cleared_codes) auto_cleared_codes)
    else mret (mkClearResponse false ("Fault not found: " +:+ code) []).

(** The body of the loop of the auto-confirmation timer. *)
Definition announce_auto_confirmed (confirmed_at_ns : Z) (code : string) : M unit :=
  fault ← query (get_fault code);
  match fault with
  | None => mret tt
  | Some f =>
      audit_transition kTransitionConfirmed f "auto_confirm_timer" confirmed_at_ns;;
      engine ← read n_engine;
      when (from_option (λ e, negb (is_muted code e)) true engine)
        (publish_fault_event EVENT_CONFIRMED f []);;
      capture_on_confirm code
  end.

Definition auto_confirm_timer : M unit :=
  now ← get_wall_clock_time;
  s ← query id;
  let '(confirmed, s) := check_time_based_confirmation now s in
  set_storage s;;
  match confirmed with
  | [] => mret tt
  | _ =>
      confirmed_at_ns ← get_wall_clock_time;
      for_each confirmed (announce_auto_confirmed confirmed_at_ns)
  end.

Definition correlation_cleanup_timer : M unit :=
  engine ← read n_engine;
  match engine with
  | Some e => now ← steady_now; set_engine (CorrelationEngine.cleanup_expired now e)
  | None => mret tt
  end.

End Handlers.
