(* ===== verification/FaultManagerSpec.v ===== *)
(** * What the fault manager node lets its observers know

    Two observers follow the node: a subscriber of the event stream, who keeps
    the set of faults shown as active, and a reader of the audit log, who keeps
    the last transition of every fault.  The theorems relate both to the storage
    after any sequence of handler calls and timers.  Handlers are verified with
    triples [spec m P Q] over the state monad. *)

From S2P Require Import Prelude FaultTypes Debounce FaultEvents Snapshots Rosbags FaultStorage.
From S2P Require Import CorrelationTypes CorrelationEngine ThresholdResolver CaptureThreadPool FaultManagerNode.
Open Scope Z_scope.

(** ** Observers *)

(** What a subscriber shows after an event. *)
Definition show (event_type code : string) (auto_cleared : list string) (shown : gset string)
    : gset string :=
  if event_type =?ₛ EVENT_CLEARED then shown ∖ ({[ code ]} ∪ list_to_set auto_cleared)
  else {[ code ]} ∪ shown.

Definition viewer (events : list FaultEvent) : gset string :=
  foldl (λ shown e, show (fe_event_type e) (msg_fault_code (fe_fault e)) (fe_auto_cleared_codes e) shown)
    ∅ events.

(** The last transition the audit log has for each fault; the marker written when
    logging starts is not about a fault. *)
Definition replay (m : gmap string string) (e : AuditEvent) : gmap string string :=
  if ae_transition e =?ₛ kTransitionLoggingActivated then m else <[ae_fault_code e := ae_transition e]> m.

Definition last_transitions (log : list AuditEvent) : gmap string string := foldl replay ∅ log.

Lemma last_transitions_snoc log e : last_transitions (log ++ [e]) = replay (last_transitions log) e.
Proof. apply foldl_snoc. Qed.

(** The transition that leads to a status. *)
Definition phase_of (status : string) : string :=
  if status =?ₛ STATUS_CONFIRMED then kTransitionConfirmed
  else if status =?ₛ STATUS_HEALED then kTransitionHealed
  else if status =?ₛ STATUS_CLEARED then kTransitionCleared
  else kTransitionOccurred.

Definition phases (F : gmap string FaultState) : gmap string string := (λ st, phase_of (status st)) <$> F.

Definition confirmed (F : gmap string FaultState) (code : string) : Prop :=
  ∃ st, F !! code = Some st ∧ status st = STATUS_CONFIRMED.

(** ** Triples *)

Section Spec.
Context (wall steady : nat → Z) (append_throws storage_throws : nat → bool) (cfg : NodeConfig).

(** The last thing that happened was a storage call that threw, or the write of
    an audit record that failed with [fail_closed] set. *)
Definition broke (n : Node) : Prop :=
  ∃ i, n_env n = S i ∧
    (storage_throws i = true ∨
     append_throws i = true ∧ audit_log_ cfg = true ∧ audit_fail_closed_ cfg = true ∧ n_audit_healthy n = false).

(** An exception escapes only then. *)
Definition spec {A} (m : M A) (P : Node → Prop) (Q : A → Node → Prop) : Prop :=
  ∀ n, P n → match m n with
             | (Some x, n') => Q x n'
             | (None, n') => broke n'
             end.

Lemma spec_ret {A} (x : A) (P : Node → Prop) (Q : A → Node → Prop) :
  (∀ n, P n → Q x n) → spec (mret x) P Q.
Proof. intros H n Hn. by apply H. Qed.

Lemma spec_bind {A B} (m : M A) (f : A → M B) P R Q :
  spec m P R → (∀ x, spec (f x) (R x) Q) → spec (m ≫= f) P Q.
Proof.
  intros Hm Hf n Hn. specialize (Hm n Hn). unfold mbind, M_bind.
  destruct (m n) as [[x|] n']; [|done]. by apply Hf.
Qed.

Lemma spec_read {A} (f : Node → A) (P : Node → Prop) (Q : A → Node → Prop) :
  (∀ n, P n → Q (f n) n) → spec (read f) P Q.
Proof. intros H n Hn. by apply H. Qed.

Lemma spec_weaken {A} (m : M A) (P P' : Node → Prop) (Q Q' : A → Node → Prop) :
  spec m P Q → (∀ n, P' n → P n) → (∀ x n, Q x n → Q' x n) → spec m P' Q'.
Proof.
  intros Hm HP HQ n Hn. specialize (Hm n (HP n Hn)). destruct (m n) as [[x|] n']; auto.
Qed.

Lemma spec_pure {A} (m : M A) (P : Node → Prop) (φ : Prop) Q :
  (φ → spec m P Q) → spec m (λ n, P n ∧ φ) Q.
Proof. intros H n [Hn Hφ]. by apply H. Qed.

Lemma spec_when b (m : M unit) (P : Node → Prop) Q :
  (b = true → spec m P Q) → (b = false → ∀ n, P n → Q tt n) → spec (when b m) P Q.
Proof. intros H1 H2. destruct b; simpl; [by apply H1|]. apply spec_ret. by apply H2. Qed.

Definition has_engine (n : Node) : bool := bool_decide (is_Some (n_engine n)).

Definition audited : bool := audit_log_ cfg && negb (audit_confirmed_only_ cfg).

(** Fault table, subscriber, audit reader. *)
Record obs (F : gmap string FaultState) (V : gset string) (A : gmap string string) (b : bool)
    (n : Node) : Prop := {
  ob_faults : faults (n_storage n) = F;
  ob_viewer : viewer (n_events n) = V;
  ob_audit : audited = true → n_audit_healthy n = true → last_transitions (n_audit n) = A;
  ob_engine : has_engine n = b;
}.

(** The computation has no effect the observers see. *)
Definition quiet {X} (m : M X) : Prop := ∀ F V A b, spec m (obs F V A b) (λ _, obs F V A b).

Lemma quiet_ret {X} (x : X) : quiet (mret x).
Proof. intros F V A b. by apply spec_ret. Qed.

Lemma quiet_bind {X Y} (m : M X) (f : X → M Y) : quiet m → (∀ x, quiet (f x)) → quiet (m ≫= f).
Proof. intros Hm Hf F V A b. eapply spec_bind; [apply Hm|]. intros x. apply Hf. Qed.

Lemma quiet_read {X} (f : Node → X) : quiet (read f).
Proof. intros F V A b. by apply spec_read. Qed.

Lemma quiet_when b (m : M unit) : quiet m → quiet (when b m).
Proof. intros Hm. destruct b; [done|apply quiet_ret]. Qed.

Lemma quiet_next_env : quiet next_env.
Proof. intros F V A b n []. by split. Qed.

Lemma quiet_pool p : quiet (set_pool p).
Proof. intros F V A b n []. by split. Qed.

Lemma quiet_times t : quiet (set_last_capture_times t).
Proof. intros F V A b n []. by split. Qed.

Lemma quiet_prefailed c : quiet (push_prefailed c).
Proof. intros F V A b n []. by split. Qed.

Lemma quiet_rosbag c : quiet (set_rosbag c).
Proof. intros F V A b n []. by split. Qed.

Lemma quiet_wall : quiet (get_wall_clock_time wall).
Proof. apply quiet_bind; [apply quiet_next_env|]. intros. apply quiet_ret. Qed.

Lemma quiet_steady : quiet (steady_now steady).
Proof. apply quiet_bind; [apply quiet_next_env|]. intros. apply quiet_ret. Qed.

Lemma quiet_storage_call : quiet (storage_call storage_throws).
Proof.
  intros F V A b n Hn. unfold storage_call, mbind, M_bind, next_env. cbn. destruct (storage_throws (n_env n)) eqn:E; cbn.
  - exists (n_env n). auto.
  - destruct Hn. by split.
Qed.

(** A query sees the fault table. *)
Lemma spec_query {X} (f : InMemoryFaultStorage → X) F V A b (Q : X → Prop) :
  (∀ s, faults s = F → Q (f s)) →
  spec (query storage_throws f) (obs F V A b) (λ x n, obs F V A b n ∧ Q x).
Proof.
  intros Hf. unfold query. eapply spec_bind; [apply quiet_storage_call|]. intros [].
  apply spec_read. intros n Hn. split; [done|]. apply Hf, Hn.
Qed.

Hint Resolve quiet_ret quiet_bind quiet_read quiet_when quiet_next_env quiet_pool quiet_times
  quiet_prefailed quiet_rosbag quiet_wall quiet_steady quiet_storage_call : quiet.

Ltac quiet_step :=
  match goal with
  | |- quiet (mbind _ _) => apply quiet_bind; [|intros ?]
  | |- quiet (when _ _) => apply quiet_when
  | |- quiet (match ?x with _ => _ end) => destruct x
  | |- quiet (let '(_, _) := ?x in _) => destruct x
  | |- quiet _ => solve [auto with quiet]
  end.

Lemma quiet_capture code : quiet (capture_on_confirm steady cfg code).
Proof. unfold capture_on_confirm. repeat quiet_step. Qed.

Lemma on_fault_cleared_faults code c s : faults (on_fault_cleared code c s).2 = faults s.
Proof.
  unfold on_fault_cleared. destruct (_ || _); [done|]. destruct (keeps_history c); [done|].
  apply (proj1 (delete_rosbag_file_fields code s)).
Qed.

Lemma quiet_on_fault_cleared code : quiet (call_on_fault_cleared storage_throws code).
Proof.
  unfold call_on_fault_cleared. apply quiet_bind; [apply quiet_read|]. intros [c|]; [|apply quiet_ret].
  apply quiet_bind; [apply quiet_when, quiet_storage_call|]. intros [] F V A b n Hn. unfold mbind, M_bind, read.
  pose proof (on_fault_cleared_faults code c (n_storage n)).
  destruct (on_fault_cleared code c (n_storage n)) as [c' s'] eqn:E. destruct Hn. split; try done.
  simpl in *. congruence.
Qed.

(** ** Effects the observers see *)

Lemma spec_set_storage s F V A b : spec (set_storage s) (obs F V A b) (λ _, obs (faults s) V A b).
Proof. intros n []. by split. Qed.

Lemma spec_publish ty f codes F V A b :
  spec (publish_fault_event wall ty f codes) (obs F V A b)
    (λ _, obs F (show ty (msg_fault_code f) codes V) A b).
Proof.
  unfold publish_fault_event. eapply spec_bind; [apply quiet_wall|]. intros t n [? Hv ? ?].
  split; try done. simpl. unfold viewer. rewrite foldl_app. simpl. fold (viewer (n_events n)). by rewrite Hv.
Qed.

Lemma spec_audit tr f src t F V A b :
  tr ≠ kTransitionLoggingActivated →
  spec (audit_transition append_throws cfg tr f src t) (obs F V A b)
    (λ _, obs F V (<[msg_fault_code f := tr]> A) b).
Proof.
  intros Htr. unfold audit_transition. destruct (audit_log_ cfg) eqn:El; simpl.
  2:{ apply spec_ret. intros n []. split; try done. unfold audited. by rewrite El. }
  destruct (audit_confirmed_only_ cfg && _) eqn:Ec.
  { apply spec_ret. intros n []. split; try done. unfold audited. rewrite El.
    apply andb_true_iff in Ec as [-> _]. done. }
  intros n [? ? Ha ?]. unfold mbind, M_bind, next_env, drop_audit, push_audit. cbn.
  destruct (append_throws (n_env n)) eqn:Et; cbn.
  - destruct (audit_fail_closed_ cfg) eqn:Ef; cbn; [exists (n_env n); auto 10|by split].
  - split; try done. cbn [n_audit n_audit_healthy]. intros Hon Hh. rewrite last_transitions_snoc. unfold replay. cbn [ae_transition ae_fault_code].
    rewrite (proj2 (str_eqb_neq _ _) Htr). by rewrite Ha.
Qed.

Lemma spec_correlate rq F V A b :
  spec (correlate wall steady rq) (obs F V A b)
    (λ mute n, obs F V A b n ∧ (b = false → mute = false)).
Proof.
  unfold correlate. eapply spec_bind with (R := λ e n, obs F V A b n ∧ (is_Some e ↔ b = true)).
  { apply spec_read. intros n Hn. split; [done|]. rewrite <- (ob_engine _ _ _ _ _ Hn).
    symmetry. apply bool_decide_eq_true. }
  intros e. apply spec_pure. intros Hb. destruct e as [e|]; [|by apply spec_ret].
  assert (b = true) as -> by (by apply Hb). clear Hb.
  destruct (rq_event_type rq =? EVENT_FAILED); [|by apply spec_ret].
  repeat (eapply spec_bind; [first [apply quiet_steady|apply quiet_wall]|intros ?]).
  destruct (process_fault _ _ _ _ _ _) as [r e']. eapply spec_bind with (R := λ _, obs F V A true).
  - intros n0 []. by split.
  - intros []. by apply spec_ret.
Qed.

(** ** Reports *)

(** The subscriber and the audit reader after a report that left the fault in
    [after]. *)
Definition shown_after (mute is_new : bool) (before after code : string) (V : gset string) : gset string :=
  let V :=
    if mute then V
    else if after =?ₛ STATUS_CONFIRMED then {[ code ]} ∪ V else V in
  if negb is_new && negb (before =?ₛ STATUS_HEALED) && (after =?ₛ STATUS_HEALED)
  then V ∖ {[ code ]} else V.

Definition audited_after (is_new : bool) (before after code : string) (A : gmap string string) :=
  let A := if is_new then <[code := kTransitionOccurred]> A else A in
  let A := if (is_new || negb (before =?ₛ STATUS_CONFIRMED)) && (after =?ₛ STATUS_CONFIRMED)
           then <[code := kTransitionConfirmed]> A else A in
  if negb is_new && negb (before =?ₛ STATUS_HEALED) && (after =?ₛ STATUS_HEALED)
  then <[code := kTransitionHealed]> A else A.

Lemma spec_announce_report rq is_new before t f F V A b :
  spec (announce_report wall steady append_throws cfg rq is_new before t f) (obs F V A b)
    (λ _ n, ∃ mute, (b = false → mute = false) ∧
       obs F (shown_after mute is_new before (msg_status f) (msg_fault_code f) V)
         (audited_after is_new before (msg_status f) (msg_fault_code f) A) b n).
Proof.
  unfold announce_report, shown_after, audited_after.
  eapply spec_bind; [apply spec_correlate|]. intros mute. apply spec_pure. intros Hmute.
  eapply spec_weaken with (P := obs F V A b)
    (Q := λ _, obs F (shown_after mute is_new before (msg_status f) (msg_fault_code f) V)
         (audited_after is_new before (msg_status f) (msg_fault_code f) A) b); [|done|by eauto].
  unfold shown_after, audited_after. set (code := msg_fault_code f). set (after := msg_status f).
  eapply spec_bind with (R := λ _, obs F (if mute then V else
    if after =?ₛ STATUS_CONFIRMED then {[ code ]} ∪ V else V) A b).
  { apply spec_when; destruct mute; try done; intros _.
    destruct (after =?ₛ STATUS_CONFIRMED), is_new, (before =?ₛ STATUS_CONFIRMED); simpl;
      first [by apply spec_ret|eapply spec_weaken; [apply spec_publish|done|]; intros ? ?; by apply id]. }
  intros _; cbv beta zeta. set (V1 := if mute then V else _).
  eapply spec_bind with (R := λ _, obs F
    (if negb is_new && negb (before =?ₛ STATUS_HEALED) && (after =?ₛ STATUS_HEALED) then V1 ∖ {[ code ]}
     else V1) A b).
  { apply spec_when; intros E; rewrite E; [|done]. eapply spec_weaken; [apply spec_publish|done|].
    intros ? n. unfold show. simpl. by rewrite union_empty_r_L. }
  intros _; cbv beta zeta. set (V2 := if _ && _ && _ then _ else _).
  eapply spec_bind with (R := λ _, obs F V2 (if is_new then <[code := kTransitionOccurred]> A else A) b).
  { apply spec_when; intros E; rewrite E; [by apply spec_audit|done]. }
  intros _; cbv beta zeta. set (A1 := if is_new then _ else _).
  eapply spec_bind with (R := λ _, obs F V2
    (if (is_new || negb (before =?ₛ STATUS_CONFIRMED)) && (after =?ₛ STATUS_CONFIRMED)
     then <[code := kTransitionConfirmed]> A1 else A1) b).
  { assert (Hj : is_new && (after =?ₛ STATUS_CONFIRMED) || negb is_new && negb (before =?ₛ STATUS_CONFIRMED)
      && (after =?ₛ STATUS_CONFIRMED) = (is_new || negb (before =?ₛ STATUS_CONFIRMED)) && (after =?ₛ STATUS_CONFIRMED)).
    { by destruct is_new, (before =?ₛ STATUS_CONFIRMED), (after =?ₛ STATUS_CONFIRMED). }
    rewrite Hj. apply spec_when; intros E; rewrite E; [by apply spec_audit|done]. }
  intros _; cbv beta zeta. set (A2 := if _ && _ then _ else A1).
  eapply spec_bind with (R := λ _, obs F V2
    (if negb is_new && negb (before =?ₛ STATUS_HEALED) && (after =?ₛ STATUS_HEALED)
     then <[code := kTransitionHealed]> A2 else A2) b).
  { apply spec_when; intros E; rewrite E; [by apply spec_audit|done]. }
  intros ?. eapply spec_bind; [apply quiet_when, quiet_capture|]. intros ?.
  eapply spec_bind; [apply quiet_read|]. intros ?. apply quiet_when, quiet_prefailed.
Qed.

(** The observers agree with the fault table; [b]: faults may be muted. *)
Record tracked (F : gmap string FaultState) (V : gset string) (b : bool) : Prop := {
  tk_codes : ∀ c st, F !! c = Some st → fault_code st = c;
  tk_sound : ∀ c, c ∈ V → confirmed F c;
  tk_complete : b = false → ∀ c, confirmed F c → c ∈ V;
}.

Definition Inv (n : Node) : Prop := ∃ F V b, obs F V (phases F) b n ∧ tracked F V b.

Lemma phase_occurred s :
  phase_of s = kTransitionOccurred → s ≠ STATUS_CONFIRMED ∧ s ≠ STATUS_HEALED ∧ s ≠ STATUS_CLEARED.
Proof. unfold phase_of. intros H. split_and!; intros ->; by vm_compute in H. Qed.

(** Where a live fault can go. *)
Lemma debounce_moves counter s c :
  sane c → s ≠ STATUS_CLEARED →
  let s' := compute_debounce_status counter s c in
  s' = STATUS_CONFIRMED ∨ s' = STATUS_HEALED ∨
  (phase_of s = kTransitionOccurred ∧ phase_of s' = kTransitionOccurred).
Proof.
  intros Hc Hs. unfold compute_debounce_status. case_match; [by left|]. case_match; [by right; left|].
  destruct (str_eqb_spec s STATUS_CONFIRMED) as [->|E1]; [by left|].
  destruct (str_eqb_spec s STATUS_HEALED) as [->|E2]; [by right; left|]. simpl.
  assert (phase_of s = kTransitionOccurred) as Hp.
  { unfold phase_of. by rewrite !(proj2 (str_eqb_neq _ _)). }
  right; right. split; [done|]. by repeat case_match.
Qed.

Lemma fresh_counter s c :
  sane c → compute_debounce_status (-1) s c = STATUS_CONFIRMED ∨
  s = STATUS_CONFIRMED ∨ s = STATUS_HEALED ∨ compute_debounce_status (-1) s c = STATUS_PREFAILED.
Proof.
  intros [Hc Hh]. unfold compute_debounce_status. case_match; [by left|].
  rewrite (proj2 (Z.leb_gt (healing_threshold c) (-1))) by lia. rewrite andb_false_r.
  destruct (str_eqb_spec s STATUS_CONFIRMED) as [->|E1]; [by auto|].
  destruct (str_eqb_spec s STATUS_HEALED) as [->|E2]; simpl; auto.
Qed.

(** The moves a report can make, with its answer. *)
Definition report_move (is_new : bool) (o : option FaultState) (st' : FaultState) : Prop :=
  let before := from_option status "" o in
  (is_new = true ∧ (o = None ∨ before = STATUS_CLEARED) ∧
     (status st' = STATUS_CONFIRMED ∨ status st' = STATUS_PREFAILED)) ∨
  (is_new = false ∧ is_Some o ∧ before ≠ STATUS_CLEARED ∧
     (status st' = STATUS_CONFIRMED ∨ status st' = STATUS_HEALED ∨
      (phase_of before = kTransitionOccurred ∧ phase_of (status st') = kTransitionOccurred))) ∨
  (is_new = false ∧ o = Some st' ∧ before = STATUS_CLEARED).

Lemma report_moves r s st' :
  sane (r_cfg r) → faults (report r s).2 !! r_code r = Some st' →
  report_move (report r s).1 (faults s !! r_code r) st'.
Proof.
  intros Hc. rewrite report_faults, lookup_partial_alter_eq. unfold report_move, report, report_fault_event.
  destruct (faults s !! r_code r) as [st|] eqn:E; simpl.
  - destruct (str_eqb_spec (status st) STATUS_CLEARED) as [Es|Es].
    + destruct (r_event r =? EVENT_FAILED); simpl; intros [= <-]; [left|right; right; done].
      split_and!; [done|by right|]. unfold reactivate_fault. case_match; [by left|].
      destruct (fresh_counter (status st) (r_cfg r) Hc) as [Hf|[Hf|[Hf|Hf]]];
        [by left|by rewrite Es in Hf|by rewrite Es in Hf|by right].
    + intros H. right; left.
      destruct (r_event r =? EVENT_FAILED); simpl in *; [|injection H as <-; split_and!; try done;
        by apply debounce_moves].
      destruct (critical_confirms _ _); injection H as <-; split_and!; try done; [by left|].
      by apply debounce_moves.
  - destruct (r_event r =? EVENT_FAILED); simpl; intros [= <-]. left. split_and!; [done|by left|].
    unfold new_fault. case_match; [by left|].
    destruct (fresh_counter "" (r_cfg r) Hc) as [Hf|[Hf|[Hf|Hf]]]; [by left|done|done|by right].
Qed.

(** The fault of the report is shown when it is CONFIRMED, unless the event was
    muted and it had not been shown before. *)
Lemma shown_after_spec mute is_new before code (o : option FaultState) st' V c :
  before = from_option status "" o → (code ∈ V → before = STATUS_CONFIRMED) →
  report_move is_new o st' →
  c ∈ shown_after mute is_new before (status st') code V ↔
    (c ≠ code ∧ c ∈ V) ∨ (c = code ∧ status st' = STATUS_CONFIRMED ∧ (mute = false ∨ code ∈ V)).
Proof.
  intros Hbef HV Hm. unfold report_move in Hm. cbv zeta in Hm. rewrite <- Hbef in Hm. unfold shown_after.
  destruct Hm as [(-> & Ho & Hst)|[(-> & Ho & Hne & Hst)|(-> & Ho & Hcl)]]; simpl.
  - assert (Hn : code ∉ V).
    { intros H%HV. destruct Ho as [Ho|Ho]; [by rewrite Ho in Hbef; subst before|by rewrite Ho in H]. }
    clear HV Ho Hbef. destruct Hst as [->| ->], mute; simpl; set_solver.
  - clear Hbef Ho. destruct Hst as [->|[->|[Hp1 Hp2]]].
    + clear. destruct mute; rewrite ?andb_false_r; simpl; destruct (decide (c = code)); set_solver.
    + rewrite andb_true_r. destruct (str_eqb_spec before STATUS_HEALED) as [Eh|Eh]; simpl.
      * assert (code ∉ V) by (intros H%HV; by rewrite Eh in H). clear HV. destruct mute; set_solver.
      * clear. destruct mute; set_solver.
    + apply phase_occurred in Hp1 as (Hb & _), Hp2 as (Ha & Ha' & _).
      rewrite !(proj2 (str_eqb_neq (status st') _)), andb_false_r by done.
      assert (code ∉ V) by (intros H%HV; done). clear HV. destruct mute; set_solver.
  - assert (status st' = STATUS_CLEARED) as -> by (by rewrite Ho in Hbef; simpl in Hbef; congruence).
    assert (code ∉ V) by (intros H%HV; by rewrite Hcl in H).
    rewrite andb_false_r. clear HV Ho Hcl Hbef. destruct mute; simpl; set_solver.
Qed.

Lemma audited_after_spec is_new code F st' :
  report_move is_new (F !! code) st' →
  audited_after is_new (from_option status "" (F !! code)) (status st') code (phases F) =
    phases (<[code := st']> F).
Proof.
  set (before := from_option status "" (F !! code)). intros Hm. unfold report_move in Hm.
  cbv zeta in Hm. fold before in Hm. unfold audited_after, phases. rewrite fmap_insert.
  destruct Hm as [(-> & Ho & Hst)|[(-> & Ho & Hne & Hst)|(-> & Ho & Hcl)]]; simpl.
  - destruct Hst as [->| ->]; simpl; [by rewrite insert_insert_eq|done].
  - assert (Hlk : phase_of before = phase_of (status st') →
      <[code := phase_of (status st')]> ((λ st, phase_of (status st)) <$> F) =
      (λ st, phase_of (status st)) <$> F).
    { intros Heq. apply insert_id. rewrite lookup_fmap. destruct Ho as [st Hst0].
      subst before. rewrite Hst0 in *. simpl in *. by rewrite Heq. }
    destruct Hst as [Hst|[Hst|[Hp1 Hp2]]].
    + rewrite Hst in *. simpl. rewrite andb_true_r.
      destruct (str_eqb_spec before STATUS_CONFIRMED) as [Eb|Eb]; simpl; [|by rewrite andb_false_r].
      rewrite andb_false_r, Hlk; [done|]. by rewrite Eb.
    + rewrite Hst in *. simpl. rewrite andb_true_r, andb_false_r.
      destruct (str_eqb_spec before STATUS_HEALED) as [Eb|Eb]; simpl; [|done].
      rewrite Hlk; [done|]. by rewrite Eb.
    + apply phase_occurred in Hp2 as Hp3. destruct Hp3 as (Ha & Ha' & _).
      rewrite !(proj2 (str_eqb_neq (status st') _)), !andb_false_r by done.
      rewrite Hlk; [done|]. congruence.
  - assert (status st' = STATUS_CLEARED) as Hst by (subst before; by rewrite Ho in Hcl).
    rewrite Hst, !andb_false_r. rewrite <- Hst, insert_id; [done|]. by rewrite lookup_fmap, Ho.
Qed.

Lemma report_tracked mute is_new code F V b st' :
  tracked F V b → fault_code st' = code → (b = false → mute = false) →
  report_move is_new (F !! code) st' →
  let before := from_option status "" (F !! code) in
  tracked (<[code := st']> F) (shown_after mute is_new before (status st') code V) b ∧
  audited_after is_new before (status st') code (phases F) = phases (<[code := st']> F).
Proof.
  intros [Hk Hs Hc] Hcode Hmute Hm. cbv zeta. split; [|by apply audited_after_spec].
  set (before := from_option status "" (F !! code)).
  assert (HV : code ∈ V → before = STATUS_CONFIRMED).
  { intros (st & Hst & Hconf)%Hs. subst before. by rewrite Hst. }
  pose proof (λ c, shown_after_spec mute is_new before code (F !! code) st' V c eq_refl HV Hm) as Hv.
  split.
  - intros c st [[<- <-]|[_ H]]%lookup_insert_Some; [done|by apply Hk].
  - intros c [[Hne H]|(-> & H & _)]%Hv.
    + destruct (Hs c H) as (st & ? & ?). exists st. by rewrite lookup_insert_ne.
    + exists st'. by rewrite lookup_insert_eq.
  - intros Hb c (st & Hst & Hconf). apply Hv. apply lookup_insert_Some in Hst as [[<- <-]|[Hne Hst]].
    + right. auto.
    + left. split; [done|]. apply Hc; [done|]. by exists st.
Qed.

Lemma spec_handle_report rq : spec (handle_report_fault wall steady append_throws storage_throws cfg rq) Inv (λ _, Inv).
Proof.
  unfold handle_report_fault. repeat (case_match; [by apply spec_ret|]).
  set (rcfg := resolve_config _ _ _).
  intros n0 (F & V & b & Hobs & Htr). revert n0 Hobs.
  apply (spec_bind _ _ _ (λ o n, obs F V (phases F) b n ∧ o = to_msg <$> F !! rq_fault_code rq)).
  { apply (spec_query _ _ _ _ _ (λ o, o = _)). intros s1 Hs1. unfold get_fault. by rewrite Hs1. }
  intros o. apply spec_pure. intros ->.
  eapply spec_bind; [apply quiet_wall|]. intros t.
  apply (spec_bind _ _ _ (λ s n, obs F V (phases F) b n ∧ faults s = F)).
  { by apply (spec_query id). }
  intros s. apply spec_pure. intros HF.
  set (r := mkReport (rq_fault_code rq) (rq_event_type rq) (rq_severity rq) (rq_description rq)
    (rq_source_id rq) t rcfg).
  change (report_fault_event _ _ _ _ _ _ _ s) with (report r s).
  pose proof (report_faults r s) as Hrf. pose proof (report_moves r s) as Hmv.
  pose proof (λ st, report_entry_code r (faults s !! r_code r) st) as Hcode.
  destruct (report r s) as [is_new s']. simpl in *.
  eapply spec_bind; [apply spec_set_storage|]. intros [].
  apply (spec_bind _ _ _ (λ o n, obs (faults s') V (phases F) b n ∧ o = to_msg <$> faults s' !! rq_fault_code rq)).
  { apply (spec_query _ _ _ _ _ (λ o, o = _)). intros s2 Hs2. unfold get_fault. by rewrite Hs2. }
  intros o. apply spec_pure. intros ->.
  destruct (faults s' !! rq_fault_code rq) as [st'|] eqn:Est; simpl.
  - assert (HF' : faults s' = <[rq_fault_code rq := st']> F).
    { rewrite Hrf, HF. apply map_eq. intros c. destruct (decide (c = rq_fault_code rq)) as [->|Hne].
      - rewrite lookup_insert_eq, <- HF, <- Hrf. done.
      - by rewrite lookup_partial_alter_ne, lookup_insert_ne. }
    assert (Hc' : fault_code st' = rq_fault_code rq).
    { apply Hcode; [|by rewrite Hrf, lookup_partial_alter_eq in Est].
      intros st0. rewrite HF. apply (tk_codes _ _ _ Htr). }
    specialize (Hmv st' (sanitize_sane _) eq_refl). rewrite HF in Hmv.
    assert (Hb : from_option msg_status "" (to_msg <$> F !! rq_fault_code rq) =
      from_option status "" (F !! rq_fault_code rq)) by (by destruct (F !! _)).
    rewrite Hb. eapply spec_bind; [apply spec_announce_report|]. intros []. apply spec_ret.
    intros n (mute & Hmute & Hobs). simpl in Hobs. rewrite HF', Hc' in Hobs.
    destruct (report_tracked mute is_new _ F V b st' Htr Hc' Hmute Hmv) as [Htr' HA].
    rewrite HA in Hobs. by eexists _, _, _.
  - apply spec_ret. intros n Hobs. assert (faults s' = F) as HF'.
    { rewrite Hrf, HF. apply map_eq. intros c. destruct (decide (c = rq_fault_code rq)) as [->|Hne].
      - rewrite <- HF, <- Hrf, HF, Est. rewrite Hrf, lookup_partial_alter_eq, HF in Est.
        unfold report_entry in Est. destruct (F !! _) eqn:E; [|done]. repeat case_match; done.
      - by rewrite lookup_partial_alter_ne. }
    rewrite HF' in Hobs. by eexists _, _, _.
Qed.

(** ** Clears *)

Definition cleared_at (code : string) : gmap string FaultState → gmap string FaultState :=
  alter (with_status STATUS_CLEARED) code.

Definition cleared_all (F : gmap string FaultState) (codes : list string) : gmap string FaultState :=
  foldl (λ F c, cleared_at c F) F codes.

(** The audit reader after the clears of [codes], of which those in [F] exist. *)
Definition log_cleared (F : gmap string FaultState) (A : gmap string string) (codes : list string) :=
  foldl (λ A c, if F !! c then <[c := kTransitionCleared]> A else A) A codes.

Lemma clear_fault_faults code s : faults (clear_fault code s).2 = cleared_at code (faults s).
Proof.
  unfold clear_fault, cleared_at. destruct (faults s !! code) as [st|] eqn:E; simpl.
  - assert (faults (if retain_snapshots_on_clear s then s else with_snapshots
      (filter (λ r, snap_fault_code r ≠ code) (snapshots s)) s) = faults s) as -> by (by case_match).
    apply map_eq. intros c. destruct (decide (c = code)) as [->|Hne].
    + by rewrite lookup_insert_eq, lookup_alter_eq, E.
    + by rewrite lookup_insert_ne, lookup_alter_ne.
  - apply map_eq. intros c. destruct (decide (c = code)) as [->|Hne]; [|by rewrite lookup_alter_ne].
    by rewrite lookup_alter_eq, E.
Qed.

Lemma lookup_cleared_all codes F c :
  cleared_all F codes !! c =
    (if bool_decide (c ∈ codes) then with_status STATUS_CLEARED else id) <$> F !! c.
Proof.
  revert F. induction codes as [|d codes IH]; intros F; simpl; [by rewrite option_fmap_id|].
  rewrite IH. unfold cleared_at. destruct (decide (c = d)) as [->|Hne].
  - rewrite lookup_alter_eq, (bool_decide_eq_true_2 (d ∈ d :: codes)) by left.
    destruct (F !! d); simpl; [|done]. by case_bool_decide.
  - rewrite lookup_alter_ne by done. by rewrite (bool_decide_ext (c ∈ d :: codes) (c ∈ codes)) by set_solver.
Qed.

Lemma is_Some_cleared_at d F c : is_Some (cleared_at d F !! c) ↔ is_Some (F !! c).
Proof.
  unfold cleared_at. destruct (decide (c = d)) as [->|Hne]; [|by rewrite lookup_alter_ne].
  rewrite lookup_alter_eq. apply fmap_is_Some.
Qed.

Lemma lookup_log_cleared F A codes c :
  log_cleared F A codes !! c =
    if bool_decide (c ∈ codes ∧ is_Some (F !! c)) then Some kTransitionCleared else A !! c.
Proof.
  revert A. induction codes as [|d codes IH]; intros A.
  { rewrite bool_decide_false; [done|]. set_solver. }
  change (log_cleared F A (d :: codes)) with
    (log_cleared F (if F !! d then <[d := kTransitionCleared]> A else A) codes).
  rewrite IH. destruct (decide (c = d)) as [->|Hne].
  - destruct (F !! d) as [st|] eqn:E; simpl.
    + rewrite lookup_insert_eq, (bool_decide_eq_true_2 (d ∈ d :: codes ∧ _)) by (split; [left|by eexists]).
      by destruct (bool_decide _).
    + rewrite !bool_decide_false; [done|by intros [_ [? ?]]..].
  - assert ((if F !! d then <[d := kTransitionCleared]> A else A) !! c = A !! c) as ->
      by (destruct (F !! d); [by rewrite lookup_insert_ne|done]).
    by rewrite (bool_decide_ext (c ∈ d :: codes ∧ is_Some (F !! c)) (c ∈ codes ∧ is_Some (F !! c))) by set_solver.
Qed.

Lemma log_cleared_ext F G A codes :
  (∀ c, is_Some (F !! c) ↔ is_Some (G !! c)) → log_cleared F A codes = log_cleared G A codes.
Proof.
  intros H. apply map_eq. intros c. rewrite !lookup_log_cleared.
  by rewrite (bool_decide_ext _ (c ∈ codes ∧ is_Some (G !! c))) by (by rewrite H).
Qed.

Definition coded (F : gmap string FaultState) : Prop := ∀ c st, F !! c = Some st → fault_code st = c.

Lemma coded_cleared_at d F : coded F → coded (cleared_at d F).
Proof.
  intros HF c st. unfold cleared_at. rewrite lookup_alter_Some.
  intros [(_ & st0 & H & ->)|[_ H]]; by apply HF in H.
Qed.

Lemma obs_unaudited F V A A' b n : audited = false → obs F V A b n → obs F V A' b n.
Proof. intros Ha []. split; try done. by rewrite Ha. Qed.

Lemma spec_audit_cleared code F V A b :
  coded F →
  spec (audit_cleared wall append_throws storage_throws cfg code) (obs F V A b)
    (λ _, obs F V (log_cleared F A [code]) b).
Proof.
  intros HF. unfold audit_cleared.
  apply (spec_bind _ _ _ (λ o n, obs F V A b n ∧ o = to_msg <$> F !! code)).
  { apply (spec_query _ _ _ _ _ (λ o, o = _)). intros s1 Hs1. unfold get_fault. by rewrite Hs1. }
  intros o. apply spec_pure. intros ->. unfold log_cleared. simpl.
  destruct (F !! code) as [st|] eqn:E; simpl; [|by apply spec_ret].
  eapply spec_bind; [apply quiet_wall|]. intros t.
  eapply spec_weaken; [by apply spec_audit|done|]. intros ? n. simpl. by rewrite (HF _ _ E).
Qed.

Lemma spec_auto_clear code F V A b :
  coded F →
  spec (auto_clear_symptom wall append_throws storage_throws cfg code) (obs F V A b)
    (λ _, obs (cleared_at code F) V (log_cleared F A [code]) b).
Proof.
  intros HF. unfold auto_clear_symptom.
  apply (spec_bind _ _ _ (λ s n, obs F V A b n ∧ faults s = F)).
  { by apply (spec_query id). }
  intros s. apply spec_pure. intros Hs.
  eapply spec_bind; [apply spec_set_storage|]. intros []. rewrite clear_fault_faults, Hs.
  eapply spec_bind with (R := λ _, obs (cleared_at code F) V (log_cleared F A [code]) b).
  - apply spec_when; intros Hl.
    + rewrite (log_cleared_ext F (cleared_at code F)) by (intros; by rewrite is_Some_cleared_at).
      by apply spec_audit_cleared, coded_cleared_at.
    + intros n. apply obs_unaudited. unfold audited. by rewrite Hl.
  - intros []. apply quiet_on_fault_cleared.
Qed.

Lemma spec_auto_clears codes F V A b :
  coded F →
  spec (for_each codes (auto_clear_symptom wall append_throws storage_throws cfg)) (obs F V A b)
    (λ _, obs (cleared_all F codes) V (log_cleared F A codes) b).
Proof.
  revert F A. induction codes as [|c codes IH]; intros F A HF; simpl; [by apply spec_ret|].
  eapply spec_bind; [by apply spec_auto_clear|]. intros [].
  eapply spec_weaken; [by apply IH, coded_cleared_at|done|]. intros ? n.
  rewrite (log_cleared_ext (cleared_at c F) F) by (intros; apply is_Some_cleared_at). by apply id.
Qed.

Lemma clear_tracked code codes F V b :
  tracked F V b → is_Some (F !! code) →
  let F' := cleared_all (cleared_at code F) codes in
  tracked F' (show EVENT_CLEARED code codes V) b ∧
  log_cleared F' (log_cleared F (phases F) codes) [code] = phases F'.
Proof.
  intros [Hk Hs Hc] Hsome. cbv zeta. change (cleared_all (cleared_at code F) codes) with
    (cleared_all F (code :: codes)).
  assert (Hl := lookup_cleared_all (code :: codes) F).
  assert (Hconf : ∀ c, confirmed (cleared_all F (code :: codes)) c ↔ c ∉ code :: codes ∧ confirmed F c).
  { intros c. unfold confirmed. rewrite Hl. case_bool_decide as Hin.
    - split; [|by intros []]. intros (st & Hst & Hcf). destruct (F !! c); simplify_eq/=.
    - rewrite option_fmap_id. naive_solver. }
  assert (Hshow : ∀ c, c ∈ show EVENT_CLEARED code codes V ↔ c ∉ code :: codes ∧ c ∈ V).
  { intros c. unfold show. simpl. set_solver. }
  split; [split|].
  - intros c st. rewrite Hl. destruct (F !! c) eqn:E; simpl; [|done]. intros [= <-].
    case_bool_decide; simpl; by eapply Hk.
  - intros c [Hn Hv]%Hshow. apply Hconf. auto.
  - intros Hb c [Hn Hv]%Hconf. apply Hshow. auto.
  - apply map_eq. intros c. rewrite !lookup_log_cleared. unfold phases. rewrite !lookup_fmap, !Hl.
    destruct (F !! c) as [st|] eqn:E; simpl.
    + destruct (bool_decide_reflect (c ∈ code :: codes)) as [Hin|Hin]; simpl.
      * case_bool_decide as H1; [done|]. case_bool_decide as H2; [done|]. exfalso.
        apply elem_of_cons in Hin as [->|Hin].
        -- destruct H1. split; [left|by eexists].
        -- destruct H2. split; [done|by eexists].
      * apply not_elem_of_cons in Hin as [Hne Hin].
        rewrite !bool_decide_false; [done|by intros [? _]|by intros [->%list_elem_of_singleton _]].
    + rewrite !bool_decide_false; [done| |]; by intros [_ [? ?]].
Qed.

Lemma spec_correlated_clear rq F V A b :
  spec (correlated_clear rq) (obs F V A b) (λ _, obs F V A b).
Proof.
  unfold correlated_clear. intros n Hn. unfold mbind, M_bind, read.
  destruct (n_engine n) as [e|] eqn:Ee; [|done]. destruct (cq_skip_correlation_auto_clear rq); [done|].
  destruct (process_clear (cq_fault_code rq) e) as [codes e']. simpl. destruct Hn as [? ? ? Hb].
  split; try done. rewrite <- Hb. unfold has_engine. simpl. rewrite Ee. done.
Qed.

Lemma clear_fault_found code s : (clear_fault code s).1 = bool_decide (is_Some (faults s !! code)).
Proof. unfold clear_fault. by destruct (faults s !! code). Qed.

Lemma spec_handle_clear rq : spec (handle_clear_fault wall append_throws storage_throws cfg rq) Inv (λ _, Inv).
Proof.
  unfold handle_clear_fault. case_match; [by apply spec_ret|].
  set (code := cq_fault_code rq). intros n0 (F & V & b & Hobs & Htr). revert n0 Hobs.
  eapply spec_bind; [apply spec_correlated_clear|]. intros codes.
  apply (spec_bind _ _ _ (λ s n, obs F V (phases F) b n ∧ faults s = F)).
  { by apply (spec_query id). }
  intros s. apply spec_pure. intros Hs.
  pose proof (clear_fault_found code s) as Hfound. pose proof (clear_fault_faults code s) as Hcf.
  rewrite Hs in Hfound, Hcf. destruct (clear_fault code s) as [found s']. simpl in *.
  eapply spec_bind; [apply spec_set_storage|]. intros []. rewrite Hcf.
  destruct found.
  2:{ apply spec_ret. intros n Hn. assert (cleared_at code F = F) as HF.
      { apply map_eq. intros c. unfold cleared_at. destruct (decide (c = code)) as [->|Hne];
          [|by rewrite lookup_alter_ne].
        rewrite lookup_alter_eq. destruct (F !! code) eqn:E; [|done].
        symmetry in Hfound. apply bool_decide_eq_false in Hfound. by destruct Hfound. }
      rewrite HF in Hn. by eexists _, _, _. }
  symmetry in Hfound. apply bool_decide_eq_true in Hfound.
  destruct (clear_tracked code codes F V b Htr Hfound) as [Htr' HA].
  assert (HcF : coded (cleared_at code F)) by (apply coded_cleared_at; exact (tk_codes _ _ _ Htr)).
  set (F' := cleared_all (cleared_at code F) codes) in *.
  eapply spec_bind; [apply quiet_read|]. intros times.
  eapply spec_bind; [apply quiet_times|]. intros [].
  eapply spec_bind; [by apply spec_auto_clears|]. intros [].
  eapply spec_bind; [apply quiet_on_fault_cleared|]. intros [].
  rewrite (log_cleared_ext (cleared_at code F) F) by (intros; apply is_Some_cleared_at).
  apply (spec_bind _ _ _ (λ o n, obs F' V (log_cleared F (phases F) codes) b n ∧ o = to_msg <$> F' !! code)).
  { apply (spec_query _ _ _ _ _ (λ o, o = _)). intros s1 Hs1. unfold get_fault. by rewrite Hs1. }
  intros o. apply spec_pure. intros ->.
  assert (HF'c : is_Some (F' !! code)).
  { subst F'. rewrite lookup_cleared_all. apply fmap_is_Some. by apply is_Some_cleared_at. }
  destruct HF'c as [st Hst]. rewrite Hst. simpl.
  eapply spec_bind with (R := λ _, Inv); [|intros []; by apply spec_ret].
  eapply spec_bind; [apply spec_publish|]. intros [].
  eapply spec_weaken; [apply spec_audit_cleared; exact (tk_codes _ _ _ Htr')|done|]. intros ? n Hn.
  change (msg_fault_code (to_msg st)) with (fault_code st) in Hn.
  rewrite (tk_codes _ _ _ Htr' _ _ Hst), HA in Hn.
  by eexists _, _, _.
Qed.

(** ** Timers and capture workers *)

Definition log_confirmed (A : gmap string string) (codes : list string) :=
  foldl (λ A c, <[c := kTransitionConfirmed]> A) A codes.

Lemma lookup_log_confirmed A codes c :
  log_confirmed A codes !! c = if bool_decide (c ∈ codes) then Some kTransitionConfirmed else A !! c.
Proof.
  revert A. induction codes as [|d codes IH]; intros A; [done|].
  change (log_confirmed A (d :: codes)) with (log_confirmed (<[d := kTransitionConfirmed]> A) codes).
  rewrite IH. destruct (decide (c = d)) as [->|Hne].
  - rewrite lookup_insert_eq, (bool_decide_eq_true_2 (d ∈ d :: codes)) by left. by destruct (bool_decide _).
  - rewrite lookup_insert_ne by done.
    by rewrite (bool_decide_ext (c ∈ d :: codes) (c ∈ codes)) by set_solver.
Qed.

(** What a subscriber may show after [codes] were confirmed; without an engine
    nothing is muted. *)
Definition shown_of (V : gset string) (codes : list string) (b : bool) (V' : gset string) : Prop :=
  V ⊆ V' ∧ V' ⊆ V ∪ list_to_set codes ∧ (b = false → V' = V ∪ list_to_set codes).

Lemma shown_of_cons V c codes b V1 V2 :
  shown_of V [c] b V1 → shown_of V1 codes b V2 → shown_of V (c :: codes) b V2.
Proof.
  unfold shown_of. simpl. rewrite union_empty_r_L. intros (H1 & H2 & H3) (H4 & H5 & H6).
  rewrite union_assoc_L. split_and!; [by etrans|etrans; [exact H5|]; by apply union_mono_r|].
  intros Hb. by rewrite (H6 Hb), (H3 Hb).
Qed.

Lemma spec_announce_auto t code st F V A b :
  coded F → F !! code = Some st →
  spec (announce_auto_confirmed wall steady append_throws storage_throws cfg t code) (obs F V A b)
    (λ _ n, ∃ V', shown_of V [code] b V' ∧ obs F V' (<[code := kTransitionConfirmed]> A) b n).
Proof.
  intros HF Hst. unfold announce_auto_confirmed.
  apply (spec_bind _ _ _ (λ o n, obs F V A b n ∧ o = Some (to_msg st))).
  { apply (spec_query _ _ _ _ _ (λ o, o = _)). intros s Hs. unfold get_fault. by rewrite Hs, Hst. }
  intros o. apply spec_pure. intros ->.
  eapply spec_bind; [by apply spec_audit|]. intros ?.
  change (msg_fault_code (to_msg st)) with (fault_code st). rewrite (HF _ _ Hst).
  set (A' := <[code := kTransitionConfirmed]> A).
  apply (spec_bind _ _ _ (λ e n, obs F V A' b n ∧ (b = false → e = None))).
  { apply spec_read. intros n Hn. split; [done|]. rewrite <- (ob_engine _ _ _ _ _ Hn). unfold has_engine.
    intros Hb%bool_decide_eq_false. by apply eq_None_not_Some. }
  intros e. apply spec_pure. intros He. set (loud := from_option _ true e).
  eapply spec_bind with (R := λ _, obs F (if loud then {[ code ]} ∪ V else V) A' b).
  { apply spec_when; intros ->; [|done]. eapply spec_weaken; [apply spec_publish|done|].
    intros ? n. simpl. by rewrite (HF _ _ Hst). }
  intros []. eapply spec_weaken; [apply quiet_capture|done|]. intros ? n Hn.
  eexists. split; [|exact Hn]. unfold shown_of. simpl. split_and!; [destruct loud; set_solver..|].
  intros ->%He. simpl in loud. subst loud. set_solver.
Qed.

Lemma spec_announce_autos t codes F V A b :
  coded F → (∀ c, c ∈ codes → is_Some (F !! c)) →
  spec (for_each codes (announce_auto_confirmed wall steady append_throws storage_throws cfg t)) (obs F V A b)
    (λ _ n, ∃ V', shown_of V codes b V' ∧ obs F V' (log_confirmed A codes) b n).
Proof.
  intros HF. revert V A. induction codes as [|c codes IH]; intros V A Hin; simpl.
  { apply spec_ret. intros n Hn. exists V. split; [|done]. unfold shown_of. set_solver. }
  destruct (Hin c ltac:(left)) as [st Hst].
  eapply spec_bind; [by apply (spec_announce_auto t c st)|]. intros [] n (V1 & Hs1 & Hn).
  specialize (IH V1 (<[c := kTransitionConfirmed]> A) ltac:(set_solver) n Hn).
  destruct (for_each codes _ n) as [[x|] n']; [|done]. destruct IH as (V2 & Hs2 & Hn2).
  exists V2. split; [|done]. by eapply shown_of_cons.
Qed.

Lemma timer_faults t s :
  ∃ due, (∀ st, due st = true → status st = STATUS_PREFAILED) ∧
    faults (check_time_based_confirmation t s).2 =
      (λ st : FaultState, if due st : bool then with_status STATUS_CONFIRMED st else st) <$> faults s ∧
    (∀ c, c ∈ (check_time_based_confirmation t s).1 ↔
       ∃ st, faults s !! c = Some st ∧ due st = true).
Proof.
  unfold check_time_based_confirmation. destruct (f64_leb _ _); simpl.
  - exists (λ _, false). split_and!; [done|by rewrite map_fmap_id|].
    intros c. split; [by intros H%not_elem_of_nil|]. naive_solver.
  - exists (due_for_confirmation (config s) t). split_and!; [|done|].
    + intros st Hd. unfold due_for_confirmation in Hd. by apply andb_true_iff in Hd as [?%str_eqb_eq _].
    + intros c. rewrite list_elem_of_fmap. split.
      * intros ([c' st] & -> & [Hd He]%list_elem_of_filter). exists st. by apply elem_of_map_entries in He.
      * intros (st & Hst & Hd). exists (c, st). split; [done|]. apply list_elem_of_filter.
        by rewrite elem_of_map_entries.
Qed.

Lemma timer_tracked (due : FaultState → bool) codes F V V' b :
  (∀ st, due st = true → status st = STATUS_PREFAILED) →
  (∀ c, c ∈ codes ↔ ∃ st, F !! c = Some st ∧ due st = true) →
  tracked F V b → shown_of V codes b V' →
  let F' := (λ st, if due st then with_status STATUS_CONFIRMED st else st) <$> F in
  tracked F' V' b ∧ log_confirmed (phases F) codes = phases F'.
Proof.
  intros Hdue Hcodes [Hk Hs Hc] (Hv1 & Hv2 & Hv3). cbv zeta.
  set (F' := (λ st, if due st then with_status STATUS_CONFIRMED st else st) <$> F).
  assert (Hl : ∀ c, F' !! c = (λ st, if due st then with_status STATUS_CONFIRMED st else st) <$> F !! c)
    by (intros; apply lookup_fmap).
  assert (Hconf : ∀ c, confirmed F' c ↔ confirmed F c ∨ c ∈ codes).
  { intros c. unfold confirmed. rewrite Hl, Hcodes. clear -Hdue.
    destruct (F !! c) as [st|]; simpl; [|by split; [intros (? & ? & _)|intros [(? & ? & _)|(? & ? & _)]]].
    destruct (due st) eqn:E.
    - split; [intros _; right; by exists st|]. intros _. by eexists.
    - split; [intros H; by left|]. intros [H|(st' & [= <-] & Hd)]; [done|congruence]. }
  split; [split|].
  - intros c st. rewrite Hl. destruct (F !! c) as [st0|] eqn:E; [|done]. intros [= <-].
    apply Hk in E. by case_match.
  - intros c Hc'%Hv2. apply Hconf. apply elem_of_union in Hc' as [?|?%elem_of_list_to_set]; auto.
  - intros Hb c [H|H]%Hconf; rewrite (Hv3 Hb); [apply elem_of_union_l|apply elem_of_union_r].
    + by apply Hc.
    + by apply elem_of_list_to_set.
  - apply map_eq. intros c. unfold phases. rewrite lookup_log_confirmed, !lookup_fmap, Hl.
    case_bool_decide as Hin.
    + apply Hcodes in Hin as (st & -> & Hd). simpl. by rewrite Hd.
    + destruct (F !! c) as [st|] eqn:E; [|done]. simpl. destruct (due st) eqn:Ed; [|done].
      destruct Hin. apply Hcodes. eauto.
Qed.

Lemma spec_timer : spec (auto_confirm_timer wall steady append_throws storage_throws cfg) Inv (λ _, Inv).
Proof.
  unfold auto_confirm_timer. intros n0 (F & V & b & Hobs & Htr). revert n0 Hobs.
  eapply spec_bind; [apply quiet_wall|]. intros t.
  apply (spec_bind _ _ _ (λ s n, obs F V (phases F) b n ∧ faults s = F)).
  { by apply (spec_query id). }
  intros s. apply spec_pure. intros Hs.
  destruct (timer_faults t s) as (due & Hdue & HF' & Hcodes). rewrite Hs in HF', Hcodes.
  destruct (check_time_based_confirmation t s) as [codes s']. simpl in *.
  eapply spec_bind; [apply spec_set_storage|]. intros []. rewrite HF'.
  set (F' := _ <$> F) in *.
  assert (Hfin : ∀ n V', shown_of V codes b V' → obs F' V' (log_confirmed (phases F) codes) b n → Inv n).
  { intros n V' Hv Hn. destruct (timer_tracked due codes F V V' b Hdue Hcodes Htr Hv) as [Htr' HA].
    subst F'. rewrite HA in Hn. by eexists _, _, _. }
  assert (HcF : coded F').
  { intros c st. subst F'. rewrite lookup_fmap. destruct (F !! c) eqn:E; [|done]. intros [= <-].
    apply (tk_codes _ _ _ Htr) in E. by case_match. }
  destruct codes as [|c codes].
  - apply spec_ret. intros n Hn. apply (Hfin n V); [|done]. unfold shown_of. set_solver.
  - eapply spec_bind; [apply quiet_wall|]. intros t2.
    eapply spec_weaken; [apply spec_announce_autos; [done|]|done|by intros ? n (V' & ? & ?); eauto].
    intros d (st & Hd & _)%Hcodes. subst F'. rewrite lookup_fmap, Hd. by eexists.
Qed.

Lemma quiet_cleanup : quiet (correlation_cleanup_timer steady).
Proof.
  intros F V A b. unfold correlation_cleanup_timer.
  apply (spec_bind _ _ _ (λ e n, obs F V A b n ∧ (is_Some e → b = true))).
  { apply spec_read. intros n Hn. split; [done|]. rewrite <- (ob_engine _ _ _ _ _ Hn).
    apply bool_decide_eq_true. }
  intros e. apply spec_pure. intros Hb. destruct e as [e|]; [|by apply spec_ret].
  rewrite Hb by done. eapply spec_bind; [apply quiet_steady|]. intros t n []. by split.
Qed.

(** ** Runs of the node *)

(** Handler calls, timers, and what the capture workers and the in-flight
    recording do to the shared storage and pool. *)
Inductive node_op :=
  | OpReport (rq : ReportRequest)
  | OpClear (rq : ClearRequest)
  | OpAutoConfirm
  | OpCorrelationCleanup
  | OpStoreSnapshots (rows : list SnapshotData)
  | OpStoreFreezeFrame (frame : FreezeFrameData)
  | OpStoreRosbags (infos : list RosbagFileInfo)
  | OpDeleteRosbag (code : string)
  | OpWorkerTake.

Definition on_storage (f : InMemoryFaultStorage → InMemoryFaultStorage) : M unit :=
  s ← read n_storage; set_storage (f s).

Definition node_step (op : node_op) : M unit :=
  match op with
  | OpReport rq => handle_report_fault wall steady append_throws storage_throws cfg rq;; mret tt
  | OpClear rq => handle_clear_fault wall append_throws storage_throws cfg rq;; mret tt
  | OpAutoConfirm => auto_confirm_timer wall steady append_throws storage_throws cfg
  | OpCorrelationCleanup => correlation_cleanup_timer steady
  | OpStoreSnapshots rows => on_storage (store_snapshots rows)
  | OpStoreFreezeFrame frame => on_storage (store_freeze_frame frame)
  | OpStoreRosbags infos => on_storage (λ s, (store_rosbag_files infos s).2)
  | OpDeleteRosbag code => on_storage (λ s, (delete_rosbag_file code s).2)
  | OpWorkerTake =>
      pool ← read n_pool;
      match pool ≫= worker_take with Some (_, p) => set_pool p | None => mret tt end
  end.

(** The life of a node: it starts its audit log and serves. *)
Definition node_run (ops : list node_op) : M unit :=
  activate_audit_log wall append_throws cfg;; for_each ops node_step.

(** A node with nothing stored, published or logged. *)
Definition fresh (n : Node) : Prop :=
  faults (n_storage n) = ∅ ∧ n_events n = [] ∧ n_audit n = [].

Lemma quiet_inv (m : M unit) : quiet m → spec m Inv (λ _, Inv).
Proof.
  intros Hm n (F & V & b & Hobs & Htr). specialize (Hm F V (phases F) b n Hobs).
  destruct (m n) as [[x|] n']; [|done]. by exists F, V, b.
Qed.

Lemma quiet_on_storage f : (∀ s, faults (f s) = faults s) → quiet (on_storage f).
Proof.
  intros Hf F V A b n [HF HV HA Hb]. split; try done. simpl. by rewrite Hf.
Qed.

Lemma spec_node_step op : spec (node_step op) Inv (λ _, Inv).
Proof.
  destruct op; simpl.
  - eapply spec_bind; [apply spec_handle_report|]. intros ?. by apply spec_ret.
  - eapply spec_bind; [apply spec_handle_clear|]. intros ?. by apply spec_ret.
  - apply spec_timer.
  - apply quiet_inv, quiet_cleanup.
  - apply quiet_inv, quiet_on_storage. intros s. unfold store_snapshots. by destruct rows.
  - by apply quiet_inv, quiet_on_storage.
  - apply quiet_inv, quiet_on_storage. intros s. unfold store_rosbag_files. by destruct infos.
  - apply quiet_inv, quiet_on_storage. intros s. apply (proj1 (delete_rosbag_file_fields code s)).
  - apply quiet_inv. apply quiet_bind; [apply quiet_read|]. intros pool.
    destruct (pool ≫= worker_take) as [[? p]|]; [apply quiet_pool|apply quiet_ret].
Qed.

Lemma spec_run ops : spec (for_each ops node_step) Inv (λ _, Inv).
Proof.
  induction ops as [|op ops IH]; simpl; [by apply spec_ret|].
  eapply spec_bind; [apply spec_node_step|]. by intros [].
Qed.

Lemma quiet_activate : quiet (activate_audit_log wall append_throws cfg).
Proof.
  unfold activate_audit_log. destruct (negb (audit_log_ cfg)); [apply quiet_ret|].
  apply quiet_bind; [apply quiet_wall|]. intros t. apply quiet_bind; [apply quiet_next_env|]. intros i.
  apply quiet_when. intros F V A b n [? ? Ha ?]. split; try done. cbn [n_audit n_audit_healthy]. intros Hon Hh.
  rewrite last_transitions_snoc. by apply Ha.
Qed.

Lemma spec_node_run ops : spec (node_run ops) Inv (λ _, Inv).
Proof. eapply spec_bind; [apply quiet_inv, quiet_activate|]. intros ?. apply spec_run. Qed.

Lemma fresh_inv n : fresh n → Inv n.
Proof.
  intros (HF & He & Ha). exists ∅, ∅, (has_engine n). split.
  - split; [done|by rewrite He|by rewrite Ha; unfold phases; rewrite fmap_empty|done].
  - split; [intros c st; by rewrite lookup_empty|set_solver|].
    intros _ c (st & Hst & _). by rewrite lookup_empty in Hst.
Qed.

Lemma run_result ops n :
  fresh n →
  match node_run ops n with
  | (Some _, n') => ∃ V b, obs (faults (n_storage n')) V (phases (faults (n_storage n'))) b n' ∧
      tracked (faults (n_storage n')) V b
  | (None, n') => broke n'
  end.
Proof.
  intros Hn. pose proof (spec_node_run ops n (fresh_inv n Hn)) as H.
  destruct (node_run ops n) as [[x|] n']; [|done].
  destruct H as (F & V & b & Hobs & Htr). pose proof (ob_faults _ _ _ _ _ Hobs) as <-. by exists V, b.
Qed.

(** C2: From the start of a node with an empty storage, after any sequence of
    handler calls, timers and capture jobs, a subscriber of the event stream shows
    only faults that are CONFIRMED in the storage, so never one that healed, was
    cleared or was auto-cleared with its root cause; and, on a node without a
    correlation engine, shows all of them.  An exception leaves the node only if
    the call of the storage just made threw, or, with [fail_closed] set, the write
    of an audit record just tried failed. *)
Theorem event_stream_tracks_confirmed ops n :
  fresh n →
  match node_run ops n with
  | (Some _, n') =>
      (∀ c, c ∈ viewer (n_events n') → confirmed (faults (n_storage n')) c) ∧
      (n_engine n' = None → ∀ c, confirmed (faults (n_storage n')) c → c ∈ viewer (n_events n'))
  | (None, n') => broke n'
  end.
Proof.
  intros Hn. pose proof (run_result ops n Hn) as H.
  destruct (node_run ops n) as [[x|] n']; [|done].
  destruct H as (V & b & [_ <- _ <-] & [_ Hs Hc]). split; [done|]. intros He. apply Hc.
  unfold has_engine. by rewrite He.
Qed.

(** C27: A node that starts with an empty storage and records every transition logs
    completely while no audit write fails: after any sequence of handler calls,
    timers and capture jobs, replaying what it appended, the marker of its start
    included, gives for each fault of the storage, and no other, the transition
    into its present status. *)
Theorem audit_log_replays_to_status ops n n' :
  fresh n → audit_log_ cfg = true → audit_confirmed_only_ cfg = false →
  node_run ops n = (Some tt, n') → n_audit_healthy n' = true →
  last_transitions (n_audit n') = phases (faults (n_storage n')).
Proof.
  intros Hn Hl Hc Hrun Hh. pose proof (run_result ops n Hn) as H. rewrite Hrun in H.
  destruct H as (V & b & [_ _ Ha _] & _). apply Ha; [|done]. unfold audited. by rewrite Hl, Hc.
Qed.

End Spec.
