(* ===== verification/FaultManagerRequests.v ===== *)
(** * Requests to the fault manager node

    Validation of fault codes and reports, and what the list services return. *)

From S2P Require Import Prelude FaultTypes Debounce FaultEvents FaultQueries Snapshots Rosbags.
From S2P Require Import CorrelationTypes CorrelationEngine EngineInvariant ThresholdResolver CaptureThreadPool.
From S2P Require Import FaultManagerNode.
Open Scope Z_scope.

(** ** Fault codes *)

Fixpoint chars (s : string) : list ascii :=
  match s with "" => [] | String c s' => c :: chars s' end.

(** A code the service accepts: it fits in a path component and cannot leave its
    directory. *)
Record code_ok (code : string) : Prop := {
  co_nonempty : code ≠ "";
  co_length : (String.length code ≤ 256)%nat;
  co_chars : ∀ c, c ∈ chars code →
    (48 ≤ N_of_ascii c ≤ 57 ∨ 65 ≤ N_of_ascii c ≤ 90 ∨ 97 ≤ N_of_ascii c ≤ 122)%N ∨
    c = "_"%char ∨ c = "-"%char ∨ c = "."%char;
  co_dots : ¬ ∃ a b, code = a +:+ ".." +:+ b;
}.

Lemma code_char_spec c :
  code_char c = true ↔
    (48 ≤ N_of_ascii c ≤ 57 ∨ 65 ≤ N_of_ascii c ≤ 90 ∨ 97 ≤ N_of_ascii c ≤ 122)%N ∨
    c = "_"%char ∨ c = "-"%char ∨ c = "."%char.
Proof.
  unfold code_char, isalnum.
  rewrite !orb_true_iff, !andb_true_iff, !bool_decide_eq_true, !N.leb_le. tauto.
Qed.

Lemma first_bad_char_spec s :
  first_bad_char s = None ↔ ∀ c, c ∈ chars s → code_char c = true.
Proof.
  induction s as [|c s IH]; simpl; [split; [by intros _ c H%not_elem_of_nil|done]|].
  destruct (code_char c) eqn:E.
  - rewrite IH. split; [intros H d [->|Hd]%elem_of_cons; auto|]. intros H d Hd. apply H. by right.
  - split; [done|]. intros H. specialize (H c ltac:(left)). congruence.
Qed.

Lemma has_dotdot_cons c s :
  has_dotdot (String c s) = true ↔ (c = "."%char ∧ ∃ s', s = String "." s') ∨ has_dotdot s = true.
Proof.
  assert (Hor : has_dotdot (String c s) =
    bool_decide (c = "."%char) && match s with String d _ => bool_decide (d = "."%char) | "" => false end
    || has_dotdot s).
  { destruct (decide (c = "."%char)) as [->|Hc].
    - rewrite bool_decide_true by done. simpl. destruct s as [|d s]; [done|].
      destruct (decide (d = "."%char)) as [->|Hd]; [by rewrite bool_decide_true|].
      rewrite bool_decide_false by done. simpl.
      destruct d as [[] [] [] [] [] [] [] []]; try done.
    - rewrite bool_decide_false by done. simpl. destruct c as [[] [] [] [] [] [] [] []]; try done. }
  rewrite Hor, orb_true_iff, andb_true_iff, bool_decide_eq_true.
  destruct s as [|d s]; [naive_solver|]. rewrite bool_decide_eq_true. naive_solver.
Qed.

Lemma has_dotdot_spec s : has_dotdot s = true ↔ ∃ a b, s = a +:+ ".." +:+ b.
Proof.
  induction s as [|c s IH].
  - split; [done|]. by intros (a & b & H); destruct a.
  - rewrite has_dotdot_cons, IH. split.
    + intros [(-> & s' & ->)|(a & b & ->)]; [by exists "", s'|by exists (String c a), b].
    + intros (a & b & H). destruct a as [|d a]; [left|right].
      * injection H as -> ->. split; [done|]. by eexists.
      * injection H as -> ->. by exists a, b.
Qed.

Lemma validate_fault_code_spec code : validate_fault_code code = "" ↔ code_ok code.
Proof.
  unfold validate_fault_code. destruct (str_eqb code "") eqn:E; bool_simpl.
  { split; [done|]. intros []. done. }
  destruct (Nat.ltb_spec kMaxFaultCodeLength (String.length code)) as [Hl|Hl].
  { split; [done|]. intros []. unfold kMaxFaultCodeLength in Hl. lia. }
  destruct (first_bad_char code) as [c|] eqn:Eb.
  { split; [done|]. intros [_ _ Hc _]. assert (first_bad_char code = None); [|congruence].
    apply first_bad_char_spec. intros d Hd. by apply code_char_spec, Hc. }
  rewrite first_bad_char_spec in Eb. destruct (has_dotdot code) eqn:Ed.
  { split; [done|]. intros [_ _ _ Hd]. by apply has_dotdot_spec in Ed. }
  split; [|done]. intros _. split; [done|done| |].
  - intros c Hc. by apply code_char_spec, Eb.
  - rewrite <- has_dotdot_spec, Ed. done.
Qed.

(** ** Reports *)

Record valid_report (rq : ReportRequest) : Prop := {
  vr_code : code_ok (rq_fault_code rq);
  vr_event : rq_event_type rq = EVENT_FAILED ∨ rq_event_type rq = EVENT_PASSED;
  vr_severity : rq_event_type rq = EVENT_FAILED → rq_severity rq ≤ SEVERITY_CRITICAL;
  vr_source : rq_source_id rq ≠ "";
}.

Lemma bind_true_not_false (m : M unit) n n' : (m;; mret true) n ≠ (Some false, n').
Proof. unfold mbind, M_bind. by destruct (m n) as [[x|] n1]. Qed.

(** A report that is not well formed is rejected and leaves the node as it was;
    a well-formed one is never rejected. *)
Theorem report_rejected_iff_invalid wall steady append_throws storage_throws cfg rq n :
  (¬ valid_report rq →
     handle_report_fault wall steady append_throws storage_throws cfg rq n = (Some false, n)) ∧
  (valid_report rq → ∀ n',
     handle_report_fault wall steady append_throws storage_throws cfg rq n ≠ (Some false, n')).
Proof.
  unfold handle_report_fault.
  destruct (str_eqb (validate_fault_code (rq_fault_code rq)) "") eqn:E1; simpl.
  2:{ bool_simpl. rewrite validate_fault_code_spec in E1. split; [done|]. by intros []. }
  bool_simpl. rewrite validate_fault_code_spec in E1.
  destruct (_ && _) eqn:E2.
  { bool_simpl. split; [done|]. by intros [_ [] _ _]. }
  destruct ((_ =? EVENT_FAILED) && negb (is_valid_severity _)) eqn:E3.
  { apply andb_true_iff in E3 as [E3%Z.eqb_eq E4%negb_true_iff%Z.leb_gt].
    split; [done|]. intros [_ _ Hs _]. specialize (Hs E3). lia. }
  destruct (rq_source_id rq =?ₛ "") eqn:E4.
  { apply str_eqb_eq in E4. split; [done|]. by intros []. }
  split.
  - intros []. split; [done| | |by apply str_eqb_neq].
    + apply andb_false_iff in E2 as [E2|E2]; bool_simpl; auto.
    + intros Hf. rewrite Hf in E3. simpl in E3. unfold is_valid_severity in E3. by bool_simpl.
  - intros _ n'. unfold query, storage_call, get_wall_clock_time, read, next_env, throw, mbind, M_bind. simpl.
    match goal with |- context [storage_throws ?i] => destruct (storage_throws i) end; [done|]. simpl. match goal with |- context [storage_throws ?i] => destruct (storage_throws i) end; [done|]. simpl.
    destruct (report_fault_event _ _ _ _ _ _ _ _) as [is_new s']. simpl.
    match goal with |- context [storage_throws ?i] => destruct (storage_throws i) end; [done|]. simpl.
    destruct (get_fault (rq_fault_code rq) s'); [|done]. simpl. apply bind_true_not_false.
Qed.

(** ** Faults of an entity *)

(** [source] is the entity itself, or its name inside a non-empty namespace. *)
Definition names_entity (entity_id source : string) : Prop :=
  source = entity_id ∨ ∃ ns, ns ≠ "" ∧ source = ns +:+ "/" +:+ entity_id.

Lemma source_matches_spec entity_id source :
  source_matches entity_id source = true ↔ names_entity entity_id source.
Proof.
  unfold source_matches, names_entity. rewrite orb_true_iff, andb_true_iff, !str_eqb_eq, Nat.ltb_lt.
  set (suffix := "/" +:+ entity_id). split; (intros [->|H]; [by left|right]).
  - destruct H as [Hlt Hsub].
    destruct (string_split (String.length source - String.length suffix) source ltac:(lia))
      as (a & b & -> & Ha).
    rewrite <- Ha, substring_app_r in Hsub. rewrite length_append in *.
    assert (b = suffix) as ->.
    { assert (String.length b = String.length suffix) as Hb by lia.
      rewrite <- Hb in Hsub. by rewrite substring_0_all in Hsub. }
    exists a. split; [|done]. intros ->. simpl in *. lia.
  - destruct H as (ns & Hns & ->). fold suffix. rewrite length_append.
    assert (0 < String.length ns)%nat by (destruct ns; [done|simpl; lia]). split; [lia|].
    replace (String.length ns + String.length suffix - String.length suffix)%nat with (String.length ns) by lia.
    rewrite substring_app_r. apply substring_0_all.
Qed.

Lemma matches_entity_spec sources entity_id :
  matches_entity sources entity_id = true ↔ ∃ src, src ∈ sources ∧ names_entity entity_id src.
Proof.
  unfold matches_entity. rewrite existsb_exists. setoid_rewrite source_matches_spec.
  by setoid_rewrite <- list_elem_of_In.
Qed.

(** The faults listed for an entity are exactly those one of whose reporting
    sources is the entity, by its id or by a name in a non-empty namespace; an
    empty id is an error. *)
Theorem entity_faults_exact entity_id s :
  match handle_list_faults_for_entity entity_id s with
  | inl _ => entity_id = ""
  | inr l => entity_id ≠ "" ∧ ∀ m, m ∈ l ↔ ∃ code st, faults s !! code = Some st ∧ m = to_msg st ∧
      ∃ src, src ∈ reporting_sources st ∧ names_entity entity_id src
  end.
Proof.
  unfold handle_list_faults_for_entity. destruct (entity_id =?ₛ "") eqn:E; bool_simpl; [done|].
  split; [done|]. intros m. rewrite list_elem_of_filter, matches_entity_spec. unfold get_all_faults.
  rewrite list_elem_of_fmap. split.
  - intros [(src & Hsrc & Hn) ([c st] & -> & He)]. apply elem_of_map_entries in He.
    exists c, st. split_and!; [done..|]. exists src. split; [|done]. by apply elem_of_set_entries in Hsrc.
  - intros (c & st & Hst & -> & src & Hsrc & Hn). split.
    + exists src. split; [|done]. by apply elem_of_set_entries.
    + exists (c, st). by rewrite elem_of_map_entries.
Qed.

(** A node in the root namespace is not found by its plain name. *)
Example root_namespace_source_unmatched :
  matches_entity ["/motor_controller"] "motor_controller" = false ∧
  matches_entity ["/powertrain/motor_controller"] "motor_controller" = true.
Proof. by vm_compute. Qed.

(** ** Listing with correlation *)

Lemma elem_of_muted config e c :
  engine_ok config e →
  (∃ m, m ∈ get_muted_faults e ∧ mf_fault_code m = c) ↔ is_muted c e = true.
Proof.
  intros Hok. unfold get_muted_faults, is_muted. rewrite bool_decide_eq_true. split.
  - intros (m & ([k m'] & -> & He)%list_elem_of_fmap & <-). apply elem_of_map_entries in He.
    simpl. rewrite (eo_muted _ _ Hok _ _ He). by eexists.
  - intros [m Hm]. exists m. split; [|by eapply eo_muted].
    apply list_elem_of_fmap. exists (c, m). by rewrite elem_of_map_entries.
Qed.

(** A list request on a node that correlates faults is answered with exactly the
    requested faults that are not muted, or with all of them together with the
    list of muted ones when muted faults are asked for; the counts are those of
    the full lists. *)
Theorem list_hides_exactly_muted config rq n e :
  n_engine n = Some e → engine_ok config e →
  let r := handle_list_faults rq n in
  let full := handle_list_faults
    (mkListRequest (lq_filter_by_severity rq) (lq_severity rq) (lq_statuses rq) true true) n in
  (∀ m, m ∈ lr_faults r ↔
     m ∈ list_faults (lq_filter_by_severity rq) (lq_severity rq) (lq_statuses rq) (n_storage n) ∧
     (lq_include_muted rq = true ∨ is_muted (msg_fault_code m) e = false)) ∧
  (∀ c, (∃ m, m ∈ lr_muted_faults full ∧ mf_fault_code m = c) ↔ is_muted c e = true) ∧
  lr_muted_faults r = (if lq_include_muted rq then lr_muted_faults full else []) ∧
  lr_muted_count r = wrap_u32 (Z.of_nat (length (lr_muted_faults full))) ∧
  lr_cluster_count r = wrap_u32 (Z.of_nat (length (lr_clusters full))).
Proof.
  intros He Hok. unfold handle_list_faults. rewrite He. simpl. split_and!; [|by intros c; eapply elem_of_muted|done| |].
  - intros m. destruct (lq_include_muted rq); [naive_solver|]. rewrite list_elem_of_filter.
    assert (msg_fault_code m ∈ (list_to_set (mf_fault_code <$> get_muted_faults e) : gset string) ↔
      is_muted (msg_fault_code m) e = true) as Hm.
    { rewrite elem_of_list_to_set, list_elem_of_fmap, <- (elem_of_muted config) by done. naive_solver. }
    rewrite Hm, not_true_iff_false. naive_solver.
  - unfold get_muted_count, get_muted_faults. by rewrite length_fmap, length_map_entries.
  - unfold get_cluster_count, get_clusters. by rewrite !length_fmap, length_map_entries.
Qed.
