(* ===== verification/AuditLog.v ===== *)
(** * The audit log

    [FaultAuditLog] (fault_audit_log.cpp): hash-chained rows, a persisted head,
    anchors of pruned prefixes, and the triggers that guard the tables.  The
    digest and the JSON encoding of a string are arguments (OpenSSL, nlohmann).
    Every method holds the mutex for its whole body. *)

From stdpp Require Import pretty.
From S2P Require Import Prelude FaultManagerNode SqlConnection.
Open Scope Z_scope.

(** ** Data *)

Record AuditRecord := mkAuditRecord {
  ar_seq : Z;
  ar_event : AuditEvent;
  ar_prev_hash : string;
  ar_record_hash : string;
}.

Record ChainHead := mkChainHead { ch_seq : Z; ch_record_hash : string }.

Record AuditAnchor := mkAuditAnchor { an_last_seq : Z; an_sealed_at_ns : Z; an_last_hash : string }.

Record AuditDb := mkAuditDb {
  audit_log : list AuditRecord;
  audit_chain_head : option ChainHead;
  audit_anchors : list AuditAnchor;
  prune_enabled : bool;
}.

Definition empty_audit_db : AuditDb := mkAuditDb [] None [] false.

Definition set_records (l : list AuditRecord) (d : AuditDb) : AuditDb :=
  mkAuditDb l (audit_chain_head d) (audit_anchors d) (prune_enabled d).
Definition set_head (h : option ChainHead) (d : AuditDb) : AuditDb :=
  mkAuditDb (audit_log d) h (audit_anchors d) (prune_enabled d).
Definition set_anchors (l : list AuditAnchor) (d : AuditDb) : AuditDb :=
  mkAuditDb (audit_log d) (audit_chain_head d) l (prune_enabled d).
Definition set_guard (b : bool) (d : AuditDb) : AuditDb :=
  mkAuditDb (audit_log d) (audit_chain_head d) (audit_anchors d) b.

Record FaultAuditLog := mkFaultAuditLog {
  al_conn : conn AuditDb;
  al_retention_max_records : Z;
  al_head : ChainHead;
  al_rotation_failures : Z;
}.

Record AuditVerifyResult := mkVerify { v_ok : bool; v_checked : Z; v_bad_seq : Z; v_error : string }.

(** ** Statements, with the triggers on their tables *)

(** [seq] is the primary key. *)
Definition insert_record (r : AuditRecord) (d : AuditDb) : option AuditDb :=
  if existsb (λ r', ar_seq r' =? ar_seq r) (audit_log d) then None
  else Some (set_records (audit_log d ++ [r]) d).

(** [audit_log_no_update] fires for each row. *)
Definition update_records (P : AuditRecord → bool) (d : AuditDb) : option AuditDb :=
  if existsb P (audit_log d) then None else Some d.

(** [audit_log_no_delete] *)
Definition delete_records (P : AuditRecord → bool) (d : AuditDb) : option AuditDb :=
  if existsb P (audit_log d) && negb (prune_enabled d) then None
  else Some (set_records (filter (λ r, P r = false) (audit_log d)) d).

(** [audit_anchors_no_insert]; [ON CONFLICT(last_seq) DO NOTHING] *)
Definition insert_anchor (a : AuditAnchor) (d : AuditDb) : option AuditDb :=
  if negb (prune_enabled d) then None
  else if existsb (λ a', an_last_seq a' =? an_last_seq a) (audit_anchors d) then Some d
  else Some (set_anchors (audit_anchors d ++ [a]) d).

(** [audit_anchors_no_update] *)
Definition update_anchors (P : AuditAnchor → bool) (d : AuditDb) : option AuditDb :=
  if existsb P (audit_anchors d) then None else Some d.

(** [audit_anchors_no_delete] *)
Definition delete_anchors (P : AuditAnchor → bool) (d : AuditDb) : option AuditDb :=
  if existsb P (audit_anchors d) && negb (prune_enabled d) then None
  else Some (set_anchors (filter (λ a, P a = false) (audit_anchors d)) d).

(** [audit_prune_guard_protect]: the function is known to this process only. *)
Definition update_guard (authorized b : bool) (d : AuditDb) : option AuditDb :=
  if authorized then Some (set_guard b d) else None.

(** [INSERT OR REPLACE] from any connection: no trigger is on the INSERT or the
    DELETE of the guard, nor on the INSERT of a record, and the row a REPLACE
    removes fires no DELETE trigger ([recursive_triggers] is off). *)
Definition replace_guard (b : bool) (d : AuditDb) : option AuditDb := Some (set_guard b d).
Definition replace_record (r : AuditRecord) (d : AuditDb) : option AuditDb :=
  Some (set_records (filter (λ r', ar_seq r' ≠ ar_seq r) (audit_log d) ++ [r]) d).

Definition store_head (h : ChainHead) (d : AuditDb) : option AuditDb := Some (set_head (Some h) d).

Section Log.
Context (sha256_hex : string → string) (json_encode : string → string).
Context (runs : nat → outcome).

Definition genesis_hash : string := "0000000000000000000000000000000000000000000000000000000000000000".

Definition quote_char : string := String.String (ascii_of_nat 34) "".
Definition field (name : string) : string := quote_char +:+ name +:+ quote_char +:+ ":".

Definition canonicalize (seq : Z) (e : AuditEvent) : string :=
  "{" +:+ field "seq" +:+ pretty seq +:+
  "," +:+ field "ts" +:+ pretty (ae_occurred_at_ns e) +:+
  "," +:+ field "code" +:+ json_encode (ae_fault_code e) +:+
  "," +:+ field "transition" +:+ json_encode (ae_transition e) +:+
  "," +:+ field "severity" +:+ pretty (ae_severity e) +:+
  "," +:+ field "status" +:+ json_encode (ae_status e) +:+
  "," +:+ field "source" +:+ json_encode (ae_source_id e) +:+
  "," +:+ field "description" +:+ json_encode (ae_description e) +:+ "}".

(** ** Head *)

Definition read_head_row : Stmt AuditDb (option ChainHead) :=
  rows ← select runs (λ d, option_list (audit_chain_head d)); mret (head rows).

Definition load_head : Stmt AuditDb ChainHead :=
  row ← read_head_row; mret (default (mkChainHead 0 genesis_hash) row).

(** The constructor over an existing file; [None]: it throws. *)
Definition open_log (retention : Z) (d : AuditDb) (ran : nat) : option FaultAuditLog :=
  let '(h, c) := load_head (mkConn d None ran) in
  (λ h, mkFaultAuditLog c (if retention <? 0 then 0 else retention) h 0) <$> h.

(** ** Appending *)

Definition append_record (r : AuditRecord) : Stmt AuditDb unit :=
  in_transaction runs (modify runs (insert_record r);; modify runs (store_head (mkChainHead (ar_seq r) (ar_record_hash r)))).

Definition seqs_of (d : AuditDb) : list Z := ar_seq <$> audit_log d.

(** [SELECT COUNT, COALESCE(MIN(seq), 0)] *)
Definition count_and_min (d : AuditDb) : Z * Z :=
  (Z.of_nat (length (audit_log d)),
   match seqs_of d with [] => 0 | x :: l => foldl Z.min x l end).

Definition seal_body (boundary sealed_at : Z) (hash : string) : Stmt AuditDb unit :=
  modify runs (update_guard true true);;
  modify runs (insert_anchor (mkAuditAnchor boundary sealed_at hash));;
  modify runs (delete_records (λ r, ar_seq r <=? boundary));;
  modify runs (delete_anchors (λ a, an_last_seq a <? boundary));;
  modify runs (update_guard true false).

Definition seal_and_prune (boundary sealed_at : Z) (hash : string) : Stmt AuditDb unit :=
  in_transaction runs (seal_body boundary sealed_at hash).

Definition rotate_if_needed (retention : Z) : Stmt AuditDb unit :=
  if retention <=? 0 then mret tt
  else
    rows ← select runs (λ d, [count_and_min d]);
    let '(count, min_seq) := default (0, 0) (head rows) in
    if count <=? retention then mret tt
    else
      let boundary_seq := min_seq + (count - retention) - 1 in
      found ← select runs (λ d, filter (λ r, ar_seq r = boundary_seq) (audit_log d));
      match found with
      | [] => mret tt
      | r :: _ => seal_and_prune boundary_seq (ae_occurred_at_ns (ar_event r)) (ar_record_hash r)
      end.

(** The record that [append] writes. *)
Definition next_record (h : ChainHead) (e : AuditEvent) : AuditRecord :=
  let seq := ch_seq h + 1 in
  mkAuditRecord seq e (ch_record_hash h) (sha256_hex (ch_record_hash h +:+ canonicalize seq e)).

Definition append (e : AuditEvent) (log : FaultAuditLog) : option Z * FaultAuditLog :=
  let r := next_record (al_head log) e in
  match append_record r (al_conn log) with
  | (None, c) => (None, mkFaultAuditLog c (al_retention_max_records log) (al_head log) (al_rotation_failures log))
  | (Some _, c) =>
      let h := mkChainHead (ar_seq r) (ar_record_hash r) in
      let '(rotated, c') := rotate_if_needed (al_retention_max_records log) c in
      let failures := match rotated with Some _ => al_rotation_failures log | None => al_rotation_failures log + 1 end in
      (Some (ar_seq r), mkFaultAuditLog c' (al_retention_max_records log) h failures)
  end.

(** ** Reading *)

Definition ordered (d : AuditDb) : list AuditRecord := stable_sort (λ a b, ar_seq a <? ar_seq b) (audit_log d).

(** A row as it is read: the severity goes through [uint8_t]. *)
Definition read_row (r : AuditRecord) : AuditRecord :=
  let e := ar_event r in
  mkAuditRecord (ar_seq r)
    (mkAuditEvent (ae_fault_code e) (ae_transition e) (ae_severity e mod 256) (ae_status e) (ae_source_id e)
      (ae_description e) (ae_occurred_at_ns e))
    (ar_prev_hash r) (ar_record_hash r).

Definition rows_read (d : AuditDb) : list AuditRecord := read_row <$> ordered d.

Definition read (limit after_seq : Z) : Stmt AuditDb (list AuditRecord) :=
  select runs (λ d,
    let l := filter (λ r, after_seq < ar_seq r) (rows_read d) in
    if 0 <? limit then take (Z.to_nat limit) l else l).

Definition record_count : Stmt AuditDb Z :=
  rows ← select runs (λ d, [Z.of_nat (length (audit_log d))]); mret (default 0 (head rows)).

(** ** Verification *)

Definition bad (checked seq : Z) (error : string) : AuditVerifyResult := mkVerify false checked seq error.

(** The first retained row; [None]: it links. *)
Definition check_first (r : AuditRecord) : Stmt AuditDb (option AuditVerifyResult) :=
  if ar_seq r =? 1 then
    mret (if ar_prev_hash r =?ₛ genesis_hash then None
          else Some (bad 0 (ar_seq r) "first record does not link to genesis"))
  else
    found ← select runs (λ d, filter (λ a, an_last_seq a = ar_seq r - 1) (audit_anchors d));
    mret match found with
         | [] => Some (bad 0 (ar_seq r) "no sealed anchor for the oldest retained record (history truncated)")
         | a :: _ =>
             if ar_prev_hash r =?ₛ an_last_hash a then None
             else Some (bad 0 (ar_seq r) "oldest retained record does not link to its sealed anchor")
         end.

Definition recomputed (r : AuditRecord) : string := sha256_hex (ar_prev_hash r +:+ canonicalize (ar_seq r) (ar_event r)).

(** The loop after the first row's own checks: the hash of [r], then the rows
    after it against the sequence number and the hash they must have.  On the
    right, what the loop leaves: rows checked, last sequence number, last hash. *)
Fixpoint check_rows (checked : Z) (r : AuditRecord) (rest : list AuditRecord)
    : AuditVerifyResult + (Z * Z * string) :=
  if negb (recomputed r =?ₛ ar_record_hash r) then inl (bad checked (ar_seq r) "record_hash mismatch (record tampered)")
  else
    match rest with
    | [] => inr (checked + 1, ar_seq r, ar_record_hash r)
    | r' :: rest' =>
        if negb (ar_seq r' =? ar_seq r + 1)
        then inl (bad (checked + 1) (ar_seq r') "non-contiguous seq (record deleted or reordered)")
        else if negb (ar_prev_hash r' =?ₛ ar_record_hash r)
        then inl (bad (checked + 1) (ar_seq r') "prev_hash does not match previous record_hash (chain broken)")
        else check_rows (checked + 1) r' rest'
    end.

Definition check_head (checked last : Z) (hash : string) (persisted : option ChainHead) : AuditVerifyResult :=
  match persisted with
  | None => bad checked last "audit_chain_head row missing while audit_log is non-empty (head deleted / truncated)"
  | Some h =>
      if (ch_seq h =? last) && (ch_record_hash h =?ₛ hash) then mkVerify true checked 0 ""
      else bad checked (ch_seq h) "persisted head does not match the last retained record"
  end.

(** An empty log. *)
Definition check_sealed (persisted : option ChainHead) : Stmt AuditDb AuditVerifyResult :=
  match persisted with
  | Some h =>
      if ch_seq h =? 0 then mret (mkVerify true 0 0 "")
      else
        found ← select runs (λ d, filter (λ a, an_last_seq a = ch_seq h) (audit_anchors d));
        mret match found with
             | a :: _ => if an_last_hash a =?ₛ ch_record_hash h then mkVerify true 0 0 ""
                         else bad 0 (ch_seq h) "head references a record that is neither retained nor sealed"
             | [] => bad 0 (ch_seq h) "head references a record that is neither retained nor sealed"
             end
  | None => mret (mkVerify true 0 0 "")
  end.

Definition verify : Stmt AuditDb AuditVerifyResult :=
  rows ← select runs rows_read;
  match rows with
  | [] => persisted ← read_head_row; check_sealed persisted
  | r :: rest =>
      broken ← check_first r;
      match broken with
      | Some result => mret result
      | None =>
          match check_rows 0 r rest with
          | inl result => mret result
          | inr (checked, last, hash) => persisted ← read_head_row; mret (check_head checked last hash persisted)
          end
      end
  end.

End Log.
