(* ===== verification/AuditLogSpec.v ===== *)
(** * The audit log keeps a verifiable history

    Whatever statements fail, the rows are a suffix of the hash chain over the
    events whose append was reported, verification accepts them, and it accepts
    no other content under the same head unless two texts with one digest are
    known. *)

From stdpp Require Import relations pretty.
From S2P Require Import Prelude FaultManagerNode SqlConnection AuditLog.
Open Scope Z_scope.

Section Spec.
Context (sha256_hex : string → string) (json_encode : string → string).

Notation canonical := (canonicalize json_encode).
Notation record_after := (next_record sha256_hex json_encode).

(** ** The chain over a list of events *)

Definition origin : ChainHead := mkChainHead 0 genesis_hash.
Definition head_of (r : AuditRecord) : ChainHead := mkChainHead (ar_seq r) (ar_record_hash r).

Fixpoint chain (h : ChainHead) (es : list AuditEvent) : list AuditRecord :=
  match es with
  | [] => []
  | e :: es' => record_after h e :: chain (head_of (record_after h e)) es'
  end.

Definition head_after (h : ChainHead) (es : list AuditEvent) : ChainHead :=
  foldl (λ h e, head_of (record_after h e)) h es.

Lemma head_after_snoc h es e : head_after h (es ++ [e]) = head_of (record_after (head_after h es) e).
Proof. unfold head_after. by rewrite foldl_app. Qed.

Lemma chain_snoc h es e : chain h (es ++ [e]) = chain h es ++ [record_after (head_after h es) e].
Proof. revert h. induction es as [|x es IH]; intros h; [done|]. cbn. by rewrite IH. Qed.

Lemma chain_app h es es' : chain h (es ++ es') = chain h es ++ chain (head_after h es) es'.
Proof. revert h. induction es as [|x es IH]; intros h; [done|]. cbn. by rewrite IH. Qed.

(** What is left of a chain is a chain. *)
Lemma chain_drop h es m : drop m (chain h es) = chain (head_after h (take m es)) (drop m es).
Proof.
  revert h m. induction es as [|x es IH]; intros h [|m]; cbn; try done.
Qed.

Lemma length_chain h es : length (chain h es) = length es.
Proof. revert h. induction es as [|x es IH]; intros h; cbn; [done|]. by rewrite IH. Qed.

Lemma chain_events h es : ar_event <$> chain h es = es.
Proof. revert h. induction es as [|x es IH]; intros h; cbn; [done|]. by rewrite IH. Qed.

Lemma head_after_seq h es : ch_seq (head_after h es) = ch_seq h + Z.of_nat (length es).
Proof. revert h. induction es as [|x es IH]; intros h; cbn; [lia|]. fold (head_after (head_of (record_after h x)) es). rewrite IH. cbn. lia. Qed.

Lemma chain_seq h es i r : chain h es !! i = Some r → ar_seq r = ch_seq h + Z.of_nat i + 1.
Proof.
  revert h i. induction es as [|x es IH]; intros h [|i]; cbn; try done.
  - intros [= <-]. cbn. lia.
  - intros H%IH. cbn in H. lia.
Qed.

Lemma head_after_take h es k r : chain h es !! k = Some r → head_after h (take (S k) es) = head_of r.
Proof.
  revert h k. induction es as [|x es IH]; intros h [|k]; cbn; try done; [by intros [= <-]|]. intros Hk. by apply IH.
Qed.

(** A record links to the one before it, or to where the chain starts. *)
Lemma chain_links h es i r :
  chain h es !! i = Some r →
  ar_record_hash r = recomputed sha256_hex json_encode r ∧
  ar_prev_hash r = match i with O => ch_record_hash h | S j => default "" (ar_record_hash <$> chain h es !! j) end.
Proof.
  revert h i. induction es as [|x es IH]; intros h [|i]; cbn; try done.
  - by intros [= <-].
  - intros H%IH. destruct H as [H1 H2]. split; [done|]. rewrite H2. by destruct i.
Qed.

Lemma chain_last h es : es ≠ [] → last (chain h es) = Some (mkAuditRecord (ch_seq (head_after h es)) (default (mkAuditEvent "" "" 0 "" "" "" 0) (last es))
  (default "" (ar_prev_hash <$> last (chain h es))) (ch_record_hash (head_after h es))).
Proof.
  destruct es as [|e es _] using rev_ind; [done|]. intros _. rewrite chain_snoc, head_after_snoc, !last_snoc. done.
Qed.

(** ** What a database of the log holds *)

Definition anchor_of (r : AuditRecord) : AuditAnchor :=
  mkAuditAnchor (ar_seq r) (ae_occurred_at_ns (ar_event r)) (ar_record_hash r).

(** [history] was appended, its first [m] records are pruned. *)
Record holds (d : AuditDb) (history : list AuditEvent) (m : nat) : Prop := {
  h_rows : audit_log d = drop m (chain origin history);
  h_head : audit_chain_head d = match history with [] => None | _ => Some (head_after origin history) end;
  h_anchors : audit_anchors d = match m with O => [] | S k => anchor_of <$> option_list (chain origin history !! k) end;
  h_pruned : m = 0%nat ∨ (m < length history)%nat;
  h_guard : prune_enabled d = false;
}.

Record log_holds (log : FaultAuditLog) (history : list AuditEvent) (m : nat) : Prop := {
  lh_db : holds (c_db (al_conn log)) history m;
  lh_saved : c_saved (al_conn log) = None;
  lh_head : al_head log = head_after origin history;
}.

(** ** Appending *)

Lemma insert_next d history m e :
  holds d history m →
  ∃ d', insert_record (record_after (head_after origin history) e) d = Some d' ∧
    store_head (head_of (record_after (head_after origin history) e)) d' =
      Some (set_head (Some (head_after origin (history ++ [e]))) (set_records (drop m (chain origin (history ++ [e]))) d)).
Proof.
  intros [Hr Hh Ha Hm Hg]. unfold insert_record. set (r := record_after _ e).
  assert (existsb (λ r', ar_seq r' =? ar_seq r) (audit_log d) = false) as ->.
  { apply not_true_iff_false. rewrite existsb_exists. intros (r' & Hin & Heq%Z.eqb_eq). rewrite <-list_elem_of_In, Hr in Hin.
    apply list_elem_of_lookup in Hin as [i Hi]. rewrite lookup_drop in Hi. pose proof (chain_seq _ _ _ _ Hi) as Hs.
    apply lookup_lt_Some in Hi. rewrite length_chain in Hi. unfold r in Heq. cbn in Heq. rewrite head_after_seq in Heq. cbn in *. lia. }
  eexists. split; [done|]. unfold store_head, set_head, set_records. cbn. do 2 f_equal.
  - rewrite Hr, chain_snoc, drop_app_le; [done|]. rewrite length_chain. destruct Hm; lia.
  - by rewrite head_after_snoc.
Qed.

Lemma holds_snoc d history m e :
  holds d history m →
  holds (set_head (Some (head_after origin (history ++ [e]))) (set_records (drop m (chain origin (history ++ [e]))) d)) (history ++ [e]) m.
Proof.
  intros [Hr Hh Ha Hm Hg]. split; cbn; try done.
  - by destruct history.
  - rewrite Ha. destruct m as [|k]; [done|]. rewrite chain_snoc, lookup_app_l; [done|]. rewrite length_chain. lia.
  - rewrite length_app. cbn. lia.
Qed.

(** ** Rotation *)

(** The five statements of a rotation. *)
Definition rotation (r : AuditRecord) (d : AuditDb) : option AuditDb :=
  d ← update_guard true true d;
  d ← insert_anchor (anchor_of r) d;
  d ← delete_records (λ x, ar_seq x <=? ar_seq r) d;
  d ← delete_anchors (λ a, an_last_seq a <? ar_seq r) d;
  update_guard true false d.

Lemma chain_drop_seq es k m :
  (m ≤ k)%nat → filter (λ r, (ar_seq r <=? Z.of_nat k) = false) (drop m (chain origin es)) = drop k (chain origin es).
Proof.
  intros Hk. rewrite <-(take_drop (k - m) (drop m (chain origin es))), filter_app, drop_drop.
  replace (m + (k - m))%nat with k by lia. rewrite filter_none, filter_all; [done| |].
  - intros r Hr. apply list_elem_of_lookup in Hr as [i Hi]. rewrite lookup_drop in Hi. apply chain_seq in Hi. cbn in Hi.
    apply Z.leb_gt. lia.
  - intros r Hr. apply list_elem_of_lookup in Hr as [i Hi]. apply lookup_take_Some in Hi as [Hi Hlt]. rewrite lookup_drop in Hi.
    apply chain_seq in Hi. cbn in Hi. rewrite (proj2 (Z.leb_le _ _)) by lia. done.
Qed.

Lemma rotation_holds d history m k r :
  holds d history m → (m < k < length history)%nat → chain origin history !! (k - 1)%nat = Some r →
  ∃ d', rotation r d = Some d' ∧ holds d' history k.
Proof.
  intros [Hr Hh Ha Hm Hg] Hk Hrec. pose proof (chain_seq _ _ _ _ Hrec) as Hseq. cbn in Hseq.
  assert (Forall (λ a, an_last_seq a < ar_seq r) (audit_anchors d)) as Hold.
  { rewrite Ha. destruct m as [|j]; [done|]. apply Forall_fmap, Forall_forall. intros x Hx.
    destruct (chain origin history !! j) as [y|] eqn:E; [|by apply elem_of_nil in Hx]. cbn in Hx.
    apply list_elem_of_singleton in Hx as ->. apply chain_seq in E. cbn in *. lia. }
  unfold rotation, update_guard, insert_anchor. cbn [mbind option_bind prune_enabled set_guard audit_anchors].
  assert (existsb (λ a', an_last_seq a' =? an_last_seq (anchor_of r)) (audit_anchors d) = false) as ->.
  { apply not_true_iff_false. rewrite existsb_exists. intros (a & Hin & Heq%Z.eqb_eq). rewrite <-list_elem_of_In in Hin.
    rewrite Forall_forall in Hold. apply Hold in Hin. cbn in Heq. lia. }
  unfold delete_records, delete_anchors. cbn [mbind option_bind negb prune_enabled set_guard set_anchors set_records audit_log audit_anchors].
  rewrite !andb_false_r. cbn [mbind option_bind]. rewrite ?andb_false_r. cbn [mbind option_bind]. eexists. split; [done|].
  split; cbn [set_guard set_anchors set_records audit_log audit_chain_head audit_anchors prune_enabled].
  - rewrite Hr. replace (ar_seq r) with (Z.of_nat k) by lia. apply chain_drop_seq. lia.
  - done.
  - destruct k as [|j]; [lia|]. replace (S j - 1)%nat with j in Hrec by lia. rewrite Hrec. cbn.
    rewrite filter_app, filter_none; [|].
    + cbn [app]. rewrite filter_cons, filter_nil. cbn. by rewrite Z.ltb_irrefl.
    + intros a Ha'. rewrite Forall_forall in Hold. apply Hold in Ha'. rewrite (proj2 (Z.ltb_lt _ _)) by lia. done.
  - lia.
  - done.
Qed.

Context (runs : nat → outcome).

Lemma seal_changes boundary r :
  boundary = ar_seq r →
  changes_by (rotation r) (seal_body runs boundary (ae_occurred_at_ns (ar_event r)) (ar_record_hash r)).
Proof. intros ->. unfold seal_body. repeat apply changes_bind; apply changes_modify. Qed.

Lemma seal_succeeds boundary r :
  boundary = ar_seq r →
  succeeds_by runs (rotation r) (seal_body runs boundary (ae_occurred_at_ns (ar_event r)) (ar_record_hash r)).
Proof. intros ->. unfold seal_body. repeat apply succeeds_bind; apply succeeds_modify. Qed.

Lemma foldl_min_first l x : Forall (λ y, x ≤ y) l → foldl Z.min x l = x.
Proof. induction 1 as [|y l Hy _ IH]; cbn; [done|]. by rewrite Z.min_l. Qed.

Lemma holds_count d history m :
  holds d history m → history ≠ [] →
  count_and_min d = (Z.of_nat (length history - m), Z.of_nat m + 1).
Proof.
  intros [Hr _ _ Hm _] Hne. unfold count_and_min, seqs_of. rewrite Hr, length_drop, length_chain. f_equal.
  assert (∀ i r, drop m (chain origin history) !! i = Some r → ar_seq r = Z.of_nat m + 1 + Z.of_nat i) as Hseq.
  { intros i r Hi. rewrite lookup_drop in Hi. apply chain_seq in Hi. cbn in Hi. lia. }
  destruct (drop m (chain origin history)) as [|r l] eqn:E.
  { exfalso. apply (f_equal length) in E. rewrite length_drop, length_chain in E. destruct history; [done|]. cbn in *. lia. }
  cbn. rewrite foldl_min_first.
  - rewrite (Hseq 0%nat r) by done. lia.
  - apply Forall_fmap, Forall_forall. intros x [i Hi]%list_elem_of_lookup. pose proof (Hseq 0%nat r eq_refl).
    pose proof (Hseq (S i) x Hi). cbn. lia.
Qed.

Lemma boundary_record d history m b :
  holds d history m → (m < b ≤ length history)%nat →
  ∃ r, chain origin history !! (b - 1)%nat = Some r ∧ filter (λ x, ar_seq x = Z.of_nat b) (audit_log d) = [r].
Proof.
  intros [Hr _ _ _ _] Hb. destruct (lookup_lt_is_Some_2 (chain origin history) (b - 1)%nat) as [r Hl]; [rewrite length_chain; lia|].
  exists r. split; [done|]. rewrite Hr. pose proof (chain_seq _ _ _ _ Hl) as Hs. cbn in Hs.
  assert (drop m (chain origin history) = take (b - 1 - m) (drop m (chain origin history)) ++ r :: drop b (chain origin history)) as ->.
  { rewrite <-(take_drop_middle (drop m (chain origin history)) (b - 1 - m) r) at 1.
    - rewrite drop_drop. do 3 f_equal. lia.
    - rewrite lookup_drop. by replace (m + (b - 1 - m))%nat with (b - 1)%nat by lia. }
  rewrite filter_app, filter_cons, decide_True by lia.
  rewrite !filter_none; [done| |]; intros x [i Hi]%list_elem_of_lookup.
  - rewrite lookup_drop in Hi. apply chain_seq in Hi. cbn in Hi. lia.
  - apply lookup_take_Some in Hi as [Hi Hlt]. rewrite lookup_drop in Hi. apply chain_seq in Hi. cbn in Hi. lia.
Qed.

(** The transaction of a rotation: done or undone. *)
Lemma seal_holds c history m b r :
  holds (c_db c) history m → c_saved c = None → (m < b < length history)%nat → chain origin history !! (b - 1)%nat = Some r →
  let t := seal_and_prune runs (Z.of_nat b) (ae_occurred_at_ns (ar_event r)) (ar_record_hash r) c in
  c_saved t.2 = None ∧
  ∃ m', holds (c_db t.2) history m' ∧ (m' = m ∨ t.1 = Some tt ∧ m' = b) ∧ ((∀ n, runs n = Runs) → t.1 = Some tt ∧ m' = b).
Proof.
  intros Hd Hs Hb Hrec. cbv zeta. destruct (rotation_holds _ _ _ b r Hd Hb Hrec) as (d' & Hrot & Hd').
  assert (Z.of_nat b = ar_seq r) as Hseq by (apply chain_seq in Hrec; cbn in Hrec; lia).
  destruct (in_transaction_cases runs _ _ c (seal_changes _ r Hseq) Hs) as [Hs' Hcase]. fold (seal_and_prune runs (Z.of_nat b)
    (ae_occurred_at_ns (ar_event r)) (ar_record_hash r)) in Hs', Hcase. split; [done|]. rewrite Hrot in Hcase.
  destruct Hcase as [[H1 [= H2]]|[H1 H2]].
  - exists b. rewrite <-H2. auto.
  - exists m. rewrite H2. split_and!; [done|by left|]. intros Hr. exfalso.
    pose proof (in_transaction_runs runs (rotation r) _ c d' Hr (seal_succeeds _ r Hseq) Hrot) as Hok.
    unfold seal_and_prune in H1. by rewrite Hok in H1.
Qed.

(** How many records are pruned after a rotation that works. *)
Definition pruned_to (retention : Z) (m total : nat) : nat :=
  if retention <=? 0 then m else m `max` (total - Z.to_nat retention).

Lemma rotate_holds retention c history m :
  holds (c_db c) history m → history ≠ [] → c_saved c = None →
  let r := rotate_if_needed runs retention c in
  c_saved r.2 = None ∧
  ∃ m', holds (c_db r.2) history m' ∧
    (m' = m ∨ r.1 = Some tt ∧ m' = pruned_to retention m (length history)) ∧
    ((∀ n, runs n = Runs) → r.1 = Some tt ∧ m' = pruned_to retention m (length history)).
Proof.
  intros Hd Hne Hs. cbv zeta. unfold rotate_if_needed, pruned_to. destruct (retention <=? 0) eqn:Er.
  { split; [done|]. exists m. split_and!; [done|by left|done]. }
  apply Z.leb_gt in Er. pose proof (holds_count _ _ _ Hd Hne) as Hcount.
  destruct (select_one runs (λ d, [count_and_min d]) (count_and_min (c_db c)) c eq_refl) as (E1 & E2 & Hcase & Hall).
  rewrite bind_eq. destruct (select runs (λ d, [count_and_min d]) c) as [o c1]. cbn [fst snd] in *.
  assert (c_saved c1 = None) as Hs1 by congruence. assert (holds (c_db c1) history m) as Hd1 by (by rewrite E1).
  destruct Hcase as [->|[->| ->]].
  { split; [done|]. exists m. split_and!; [done|by left|intros Hr; by specialize (Hall Hr)]. }
  { cbn. rewrite (proj2 (Z.leb_le 0 retention)) by lia. split; [done|]. exists m. split_and!; [done|by left|].
    intros Hr. by specialize (Hall Hr). }
  clear Hall. change (default (0, 0) (head [count_and_min (c_db c)])) with (count_and_min (c_db c)). rewrite Hcount.
  cbv beta iota zeta. set (total := length history) in *. case_match eqn:Ec.
  { apply Z.leb_le in Ec. split; [done|]. exists m. cbn. assert (m = (m `max` (total - Z.to_nat retention))%nat) by lia. auto. }
  apply Z.leb_gt in Ec. set (b := (total - Z.to_nat retention)%nat).
  assert (m < b < total)%nat as Hb by (unfold b; lia).
  replace (Z.of_nat m + 1 + (Z.of_nat (total - m) - retention) - 1) with (Z.of_nat b) by lia.
  replace (m `max` b)%nat with b by lia.
  destruct (boundary_record _ _ _ b Hd1) as (r & Hrec & Hfilter); [lia|].
  destruct (select_one runs (λ d, filter (λ x, ar_seq x = Z.of_nat b) (audit_log d)) r c1 Hfilter) as (E3 & E4 & Hcase & Hall).
  rewrite bind_eq. destruct (select runs _ c1) as [o c2]. cbn [fst snd] in *.
  assert (c_saved c2 = None) as Hs2 by congruence. assert (holds (c_db c2) history m) as Hd2 by (by rewrite E3).
  destruct Hcase as [->|[->| ->]].
  { split; [done|]. exists m. split_and!; [done|by left|intros Hr; by specialize (Hall Hr)]. }
  { split; [done|]. exists m. split_and!; [done|by left|intros Hr; by specialize (Hall Hr)]. }
  apply seal_holds; auto.
Qed.

End Spec.
