(* ===== verification/AuditLogHistory.v ===== *)
(** * The audit log keeps a verifiable history

    Appends and restarts, whatever statements fail: the rows are the chain over
    the events whose append was reported, less a sealed prefix, and [verify]
    accepts them. *)

From stdpp Require Import relations.
From S2P Require Import Prelude FaultManagerNode SqlConnection AuditLog AuditLogSpec.
Open Scope Z_scope.

Section History.
Context (sha256_hex : string → string) (json_encode : string → string) (runs : nat → outcome).

Notation chain := (chain sha256_hex json_encode).
Notation head_after := (head_after sha256_hex json_encode).
Notation holds := (holds sha256_hex json_encode).
Notation log_holds := (log_holds sha256_hex json_encode).
Notation append := (append sha256_hex json_encode runs).

(** ** Appending *)

(** What [append] leaves when the insertion commits: [m'] records are pruned. *)
Lemma append_holds log history m e :
  log_holds log history m →
  let r := append e log in
  al_retention_max_records r.2 = al_retention_max_records log ∧
  ((r.1 = None ∧ log_holds r.2 history m ∧ al_rotation_failures r.2 = al_rotation_failures log) ∨
   ∃ m', r.1 = Some (Z.of_nat (length history) + 1) ∧ log_holds r.2 (history ++ [e]) m' ∧
     (m' = m ∨ m' = pruned_to (al_retention_max_records log) m (S (length history)))) ∧
  ((∀ n, runs n = Runs) →
   r.1 = Some (Z.of_nat (length history) + 1) ∧
   log_holds r.2 (history ++ [e]) (pruned_to (al_retention_max_records log) m (S (length history)))).
Proof.
  intros [Hd Hs Hh]. cbv zeta. unfold append, AuditLog.append. rewrite Hh.
  set (r := next_record sha256_hex json_encode (head_after origin history) e).
  destruct (insert_next _ _ _ _ _ e Hd) as (d1 & Hins & Hstore). fold r in Hins, Hstore.
  set (f := λ d, d' ← insert_record r d; store_head (head_of r) d').
  assert (f (c_db (al_conn log)) = Some _) as Hf by (unfold f; rewrite Hins; cbn; exact Hstore).
  assert (changes_by f (modify runs (insert_record r);; modify runs (store_head (head_of r)))) as Hch
    by (unfold f; apply changes_bind; apply changes_modify).
  assert (succeeds_by runs f (modify runs (insert_record r);; modify runs (store_head (head_of r)))) as Hsu
    by (unfold f; apply succeeds_bind; apply succeeds_modify).
  destruct (in_transaction_cases runs f _ (al_conn log) Hch Hs) as [Hs1 Hcase]. rewrite Hf in Hcase.
  pose proof (λ Hr, in_transaction_runs runs f _ (al_conn log) _ Hr Hsu Hf) as Hall.
  unfold append_record. fold (head_of r). destruct (in_transaction runs _ (al_conn log)) as [[[]|] c]; cbn [fst snd] in *.
  2:{ split; [done|]. split; [|intros Hr; by specialize (Hall Hr)]. left. split_and!; [done| |done].
      destruct Hcase as [[? ?]|[_ Heq]]; [done|]. split; cbn; [by rewrite Heq|done|done]. }
  clear Hall. destruct Hcase as [[_ [= Hc]]|[? ?]]; [|done].
  pose proof (holds_snoc _ _ _ _ _ e Hd) as Hd'. rewrite Hc in Hd'.
  destruct (rotate_holds sha256_hex json_encode runs (al_retention_max_records log) c (history ++ [e]) m Hd') as [Hs' (m' & Hm & Hcase & Hall)];
    [by destruct history|done|].
  destruct (rotate_if_needed runs _ c) as [o c']. cbn [fst snd] in *. rewrite length_app, Nat.add_1_r in *.
  assert (∀ k, holds (c_db c') (history ++ [e]) k → log_holds (mkFaultAuditLog c' (al_retention_max_records log)
    (head_of r) (match o with Some _ => al_rotation_failures log | None => al_rotation_failures log + 1 end))
    (history ++ [e]) k) as Hlog.
  { intros k Hk. split; cbn [al_conn al_head]; [done|done|]. by rewrite head_after_snoc. }
  assert (ar_seq r = Z.of_nat (length history) + 1) as Hseq by (cbn; rewrite head_after_seq; cbn; lia).
  cbn [al_retention_max_records]. split; [done|]. split.
  - right. exists m'. rewrite Hseq. split_and!; [done|by apply Hlog|]. destruct Hcase as [?|[_ ?]]; auto.
  - intros Hr. destruct (Hall Hr) as [_ ->]. rewrite Hseq. split; [done|]. by apply Hlog.
Qed.

Lemma holds_same d d' history m : holds d history m → holds d' history m → d = d'.
Proof. intros [] []. destruct d, d'. cbn in *. congruence. Qed.

(** ** The life of a log *)

(** [severity] is a [uint8_t]. *)
Definition event_ok (e : AuditEvent) : Prop := 0 ≤ ae_severity e < 256.

(** [life log history]: a log whose file was created empty, after appends of
    which those of [history] were reported as written, and restarts that could
    read the head. *)
Inductive life : FaultAuditLog → list AuditEvent → Prop :=
  | life_created retention log :
      open_log runs retention empty_audit_db 0 = Some log → life log []
  | life_appended log history e seq log' :
      life log history → event_ok e → append e log = (Some seq, log') → life log' (history ++ [e])
  | life_refused log history e log' :
      life log history → event_ok e → append e log = (None, log') → life log' history
  | life_restarted log history retention log' :
      life log history → runs (c_ran (al_conn log)) = Runs →
      open_log runs retention (c_db (al_conn log)) (c_ran (al_conn log)) = Some log' → life log' history.

Lemma open_empty retention log : open_log runs retention empty_audit_db 0 = Some log → log_holds log [] 0.
Proof.
  unfold open_log, load_head, read_head_row. rewrite !bind_eq. unfold select. cbn.
  destruct (runs 0) as [| |n]; cbn; rewrite ?take_nil; intros [= <-]; by repeat (split; try done; auto).
Qed.

Lemma reopen_holds retention log log' history m :
  log_holds log history m → runs (c_ran (al_conn log)) = Runs →
  open_log runs retention (c_db (al_conn log)) (c_ran (al_conn log)) = Some log' → log_holds log' history m.
Proof.
  intros [Hd Hs Hh] Hr. unfold open_log, load_head, read_head_row. rewrite !bind_eq. unfold select. cbn. rewrite Hr. cbn.
  intros [= <-]. split; cbn; [done|done|]. rewrite (h_head _ _ _ _ _ Hd). by destruct history.
Qed.

Lemma life_holds log history : life log history → ∃ m, log_holds log history m ∧ Forall event_ok history.
Proof.
  induction 1 as [retention log Hopen|log history e seq log' _ [m [IH IHe]] He Happ|log history e log' _ [m [IH IHe]] He Happ
    |log history retention log' _ [m [IH IHe]] Hr Hopen].
  - exists 0%nat. split; [by eapply open_empty|constructor].
  - pose proof (append_holds _ _ _ e IH) as H. cbv zeta in H. rewrite Happ in H. cbn in H.
    destruct H as [_ [[[? _]|(m' & _ & H & _)] _]]; [done|]. exists m'. split; [done|]. apply Forall_app. split; [done|]. by apply Forall_singleton.
  - pose proof (append_holds _ _ _ e IH) as H. cbv zeta in H. rewrite Happ in H. cbn in H.
    destruct H as [_ [[(_ & H & _)|(m' & ? & _)] _]]; [|done]. eauto.
  - exists m. split; [by eapply reopen_holds|done].
Qed.

(** ** Verification accepts *)

Lemma chain_sorted h es : StronglySorted (sort_le (λ a b, ar_seq a <? ar_seq b)) (chain h es).
Proof.
  revert h. induction es as [|e es IH]; intros h; cbn; constructor; [apply IH|].
  apply Forall_forall. intros r [i Hi]%list_elem_of_lookup. apply chain_seq in Hi. unfold sort_le. apply Z.ltb_ge. cbn in *. lia.
Qed.

Lemma read_chain h es : Forall event_ok es → read_row <$> chain h es = chain h es.
Proof.
  intros He. revert h. induction He as [|e es Hok _ IH]; intros h; cbn; [done|]. rewrite IH. f_equal.
  unfold read_row, next_record. cbn. do 2 f_equal. destruct e. cbn in *. unfold event_ok in Hok. cbn in Hok. f_equal.
  by rewrite Z.mod_small.
Qed.

Lemma rows_read_holds d history m : holds d history m → Forall event_ok history → rows_read d = drop m (chain origin history).
Proof.
  intros Hd He. unfold rows_read, ordered. rewrite (h_rows _ _ _ _ _ Hd), chain_drop.
  rewrite stable_sort_id by apply chain_sorted. apply read_chain. by apply Forall_drop.
Qed.

Notation record_after := (next_record sha256_hex json_encode).

Lemma recomputed_next h e : recomputed sha256_hex json_encode (record_after h e) =?ₛ ar_record_hash (record_after h e) = true.
Proof. apply str_eqb_refl. Qed.

Lemma check_rows_chain k h e es :
  check_rows sha256_hex json_encode k (record_after h e) (chain (head_of (record_after h e)) es) =
  inr (k + Z.of_nat (S (length es)), ch_seq (head_after h (e :: es)), ch_record_hash (head_after h (e :: es))).
Proof.
  revert k h e. induction es as [|e' es IH]; intros k h e; cbn [check_rows AuditLogSpec.chain].
  - rewrite recomputed_next. done.
  - rewrite recomputed_next. cbn [negb]. rewrite IH.
    rewrite (proj2 (Z.eqb_eq _ _)) by done. rewrite (proj2 (str_eqb_eq _ _)) by done. cbn [negb].
    do 3 f_equal. cbn. lia.
Qed.

(** Every SELECT of the verification runs. *)
Definition always : nat → outcome := λ _, Runs.

Definition verifies (d : AuditDb) : option AuditVerifyResult :=
  (verify sha256_hex json_encode always (mkConn d None 0)).1.

Lemma read_head_runs c : read_head_row always c = (Some (audit_chain_head (c_db c)), next (c_db c) c).
Proof. unfold read_head_row. rewrite bind_eq, select_runs by done. cbn. by destruct (audit_chain_head (c_db c)). Qed.

Lemma check_first_holds c history m e es :
  holds (c_db c) history m → drop m history = e :: es →
  ∃ c', check_first always (record_after (head_after origin (take m history)) e) c = (Some None, c') ∧ c_db c' = c_db c.
Proof.
  intros Hd Hdrop. unfold check_first. destruct m as [|k].
  { exists c. cbn. by rewrite str_eqb_refl. }
  assert (S k < length history)%nat as Hk by (destruct (h_pruned _ _ _ _ _ Hd); lia).
  destruct (lookup_lt_is_Some_2 (chain origin history) k) as [r Hr]; [rewrite length_chain; lia|].
  rewrite (head_after_take _ _ _ _ _ _ Hr). pose proof (chain_seq _ _ _ _ _ _ Hr) as Hseq. cbn in Hseq.
  set (x := record_after (head_of r) e). assert (ar_seq x = Z.of_nat k + 2) as Hx by (cbn; lia).
  rewrite (proj2 (Z.eqb_neq _ _)) by lia.
  assert (filter (λ a, an_last_seq a = ar_seq x - 1) (audit_anchors (c_db c)) = [anchor_of r]) as Hf.
  { rewrite (h_anchors _ _ _ _ _ Hd), Hr. transitivity (filter (λ a, an_last_seq a = ar_seq x - 1) [anchor_of r]); [done|].
    rewrite filter_cons, decide_True; [done|]. cbn. lia. }
  rewrite bind_eq, select_runs by done. rewrite Hf. exists (next (c_db c) c). split; [|done]. cbn. by rewrite str_eqb_refl.
Qed.

Lemma verify_holds d history m :
  holds d history m → Forall event_ok history →
  verifies d = Some (mkVerify true (Z.of_nat (length history - m)) 0 "").
Proof.
  intros Hd He. pose proof (rows_read_holds _ _ _ Hd He) as Hrows. unfold verifies, verify.
  rewrite bind_eq, select_runs by done. cbn [c_db]. rewrite Hrows, chain_drop. set (c := next d (mkConn d None 0)).
  destruct (drop m history) as [|e es] eqn:Edrop; cbn [AuditLogSpec.chain].
  { assert (history = []) as -> by (apply (f_equal length) in Edrop; rewrite length_drop in Edrop; cbn in Edrop;
      destruct (h_pruned _ _ _ _ _ Hd); subst; [by destruct history|lia]).
    rewrite bind_eq, read_head_runs. cbn [c_db next c]. by rewrite (h_head _ _ _ _ _ Hd). }
  destruct (check_first_holds c history m e es Hd Edrop) as (c' & Hfirst & Hc'). rewrite bind_eq, Hfirst, check_rows_chain.
  rewrite bind_eq, read_head_runs, Hc'. cbn [c_db next c]. rewrite (h_head _ _ _ _ _ Hd).
  assert (head_after (head_after origin (take m history)) (e :: es) = head_after origin history) as Hend.
  { rewrite <-Edrop. unfold AuditLogSpec.head_after. by rewrite <-foldl_app, take_drop. }
  rewrite Hend. unfold check_head. destruct history; [by rewrite drop_nil in Edrop|]. cbn [mret Stmt_ret fst].
  rewrite Z.eqb_refl, str_eqb_refl. cbn [andb]. do 2 f_equal. apply (f_equal length) in Edrop. rewrite length_drop in Edrop.
  rewrite Edrop. cbn. lia.
Qed.

(** ** What every log satisfies *)

(** Between calls no UPDATE or DELETE on the tables, no new anchor, and no UPDATE
    of the guard from another connection changes anything. *)
Lemma tables_are_append_only log history d :
  life log history →
  let db := c_db (al_conn log) in
  (∃ P, update_records P db = Some d ∨ delete_records P db = Some d) ∨
  (∃ P, update_anchors P db = Some d ∨ delete_anchors P db = Some d) ∨
  (∃ a, insert_anchor a db = Some d) ∨ (∃ b, update_guard false b db = Some d) →
  d = db.
Proof.
  intros (m & [[_ _ _ _ Hg] _ _] & _)%life_holds. cbv zeta.
  unfold update_records, delete_records, update_anchors, delete_anchors, insert_anchor, update_guard. rewrite Hg. cbn [negb].
  intros [[P [H|H]]|[[P [H|H]]|[[a H]|[b H]]]]; repeat case_match; try done; injection H as <-; try done.
  - rewrite andb_true_r in *. rewrite filter_all; [by destruct (c_db (al_conn log))|]. intros r Hr. apply not_true_iff_false.
    intros HP. eapply not_true_iff_false; [eassumption|]. apply existsb_exists. exists r. by rewrite <-list_elem_of_In.
  - rewrite andb_true_r in *. rewrite filter_all; [by destruct (c_db (al_conn log))|]. intros r Hr. apply not_true_iff_false.
    intros HP. eapply not_true_iff_false; [eassumption|]. apply existsb_exists. exists r. by rewrite <-list_elem_of_In.
Qed.

(** C8: After any appends, of which any statement may fail, and any restarts at which
    the statement that reads the head does not: the rows are the chain over the
    reported events less a sealed prefix that never includes the newest,
    verification accepts them, and an append either throws and leaves rows and
    head alone or is reported with the next sequence number even when the rotation
    after it fails; where nothing fails the log stays within its retention.  (A
    restart that cannot read the head starts the chain anew, and the claim ends
    there.) *)
Theorem audit_log_keeps_history log history :
  life log history →
  let db := c_db (al_conn log) in
  let n := length history in
  ∃ m, (m = 0 ∨ m < n)%nat ∧ audit_log db = drop m (chain origin history) ∧ al_head log = head_after origin history ∧
    verifies db = Some (mkVerify true (Z.of_nat (n - m)) 0 "") ∧
    ∀ e, let r := append e log in
      ((r.1 = None ∧ c_db (al_conn r.2) = db ∧ al_head r.2 = al_head log) ∨
       r.1 = Some (Z.of_nat n + 1) ∧ al_head r.2 = head_after origin (history ++ [e]) ∧
       ∃ m', audit_log (c_db (al_conn r.2)) = drop m' (chain origin (history ++ [e])) ∧
         (m' = m ∨ m' = pruned_to (al_retention_max_records log) m (S n))) ∧
      ((∀ k, runs k = Runs) →
       r.1 = Some (Z.of_nat n + 1) ∧
       (0 < al_retention_max_records log → Z.of_nat (length (audit_log (c_db (al_conn r.2)))) ≤ al_retention_max_records log)).
Proof.
  intros Hlife. cbv zeta. destruct (life_holds _ _ Hlife) as (m & Hlog & He). pose proof Hlog as [Hd Hs Hh]. exists m.
  split_and!; [apply Hd|apply Hd|done|by apply verify_holds|]. intros e.
  destruct (append_holds _ _ _ e Hlog) as (_ & Hcase & Hall). split.
  - destruct Hcase as [(H1 & [Hd' _ Hh'] & _)|(m' & H1 & [Hd' _ Hh'] & Hm)].
    + left. split_and!; [done| |by rewrite Hh, Hh']. eapply holds_same; [exact Hd'|exact Hd].
    + right. split_and!; [done|done|]. exists m'. split; [apply Hd'|done].
  - intros Hr. destruct (Hall Hr) as [H1 [Hd' _ _]]. split; [done|]. intros Hret. rewrite (h_rows _ _ _ _ _ Hd').
    rewrite length_drop, length_chain, length_app. unfold pruned_to. rewrite (proj2 (Z.leb_gt _ _)) by done. cbn. lia.
Qed.

End History.
