(* ===== verification/AuditLogTampering.v ===== *)
(** * Tampering with the audit log shows

    Whoever rewrites the rows of [audit_log] under the persisted head and the
    anchors is found out by [verify], unless the new rows and the old ones hash
    two different texts to the same digest. *)

From stdpp Require Import pretty.
From S2P Require Import Prelude FaultManagerNode SqlConnection AuditLog AuditLogSpec AuditLogHistory.
Open Scope Z_scope.

(** ** Splitting texts *)

Lemma app_inj_length (a b u v : string) : String.length a = String.length b → a +:+ u = b +:+ v → a = b ∧ u = v.
Proof.
  revert b. induction a as [|c a IH]; intros [|c' b]; cbn; try done. intros [= Hl] [= -> Heq].
  destruct (IH b Hl Heq) as [-> ->]. done.
Qed.

Fixpoint lacks (c : ascii) (s : string) : Prop :=
  match s with "" => True | String a s' => a ≠ c ∧ lacks c s' end.

Lemma lacks_split c s t u v : lacks c s → lacks c t → s +:+ String c u = t +:+ String c v → s = t ∧ u = v.
Proof. revert t. induction s as [|a s IH]; intros [|b t]; cbn; naive_solver. Qed.

Lemma lacks_pretty_N (n : N) : lacks "," (pretty n).
Proof.
  unfold pretty, pretty_N. case_decide; [by repeat split|]. assert (lacks "," "") as Hempty by done. revert Hempty. generalize "".
  induction (N.lt_wf_0 n) as [n _ IH]; intros s Hs.
  assert (n = 0 ∨ 0 < n)%N as [->|Hn] by lia; [by rewrite pretty_N_go_0|]. rewrite pretty_N_go_step by done.
  assert (n `div` 10 = 0 ∨ n `div` 10 ≠ 0)%N as [Hz|Hnz] by lia.
  - rewrite Hz, pretty_N_go_0. split; [|done]. unfold pretty_N_char. by repeat case_match.
  - apply IH; [by apply N.div_lt|done|]. split; [|done]. unfold pretty_N_char. by repeat case_match.
Qed.

Lemma lacks_pretty_Z (n : Z) : lacks "," (pretty n).
Proof.
  unfold pretty, pretty_Z. destruct n; cbn; [by repeat split|apply lacks_pretty_N|]. split; [done|apply lacks_pretty_N].
Qed.

Lemma pretty_comma_inj (a b : Z) u v : pretty a +:+ String "," u = pretty b +:+ String "," v → a = b ∧ u = v.
Proof. intros [H%(inj pretty) ?]%lacks_split; [done|apply lacks_pretty_Z..]. Qed.

Section Tampering.
Context (sha256_hex : string → string) (json_encode : string → string) (runs : nat → outcome).

(** 32 bytes, two hex digits each. *)
Context (sha256_length : ∀ x, String.length (sha256_hex x) = 64%nat).
(** A JSON string ends at its closing quote. *)
Context (json_delimited : ∀ a b u v, json_encode a +:+ u = json_encode b +:+ v → json_encode a = json_encode b).

Notation chain := (chain sha256_hex json_encode).
Notation holds := (holds sha256_hex json_encode).
Notation canonical := (canonicalize json_encode).

(** Texts are compared as JSON: invalid UTF-8 is replaced before it is hashed. *)
Definition same_text (a b : string) : Prop := json_encode a = json_encode b.

Record same_event (e e' : AuditEvent) : Prop := {
  se_fault_code : same_text (ae_fault_code e) (ae_fault_code e');
  se_transition : same_text (ae_transition e) (ae_transition e');
  se_severity : ae_severity e = ae_severity e';
  se_status : same_text (ae_status e) (ae_status e');
  se_source_id : same_text (ae_source_id e) (ae_source_id e');
  se_description : same_text (ae_description e) (ae_description e');
  se_occurred_at_ns : ae_occurred_at_ns e = ae_occurred_at_ns e';
}.

Record same_record (r r' : AuditRecord) : Prop := {
  sr_seq : ar_seq r = ar_seq r';
  sr_event : same_event (ar_event r) (ar_event r');
  sr_prev_hash : ar_prev_hash r = ar_prev_hash r';
  sr_record_hash : ar_record_hash r = ar_record_hash r';
}.

Lemma json_split a b u v : json_encode a +:+ u = json_encode b +:+ v → same_text a b ∧ u = v.
Proof.
  intros H. pose proof (json_delimited _ _ _ _ H) as Heq. split; [done|]. rewrite Heq in H. by apply (inj (String.append _)) in H.
Qed.

Lemma canonical_inj seq seq' e e' : canonical seq e = canonical seq' e' → seq = seq' ∧ same_event e e'.
Proof.
  unfold canonicalize. intros H. apply (inj (String.append "{")), (inj (String.append _)) in H.
  apply pretty_comma_inj in H as [-> H]. apply (inj (String.append _)) in H.
  apply pretty_comma_inj in H as [Hts H]. apply (inj (String.append _)) in H.
  apply json_split in H as [Hcode H]. apply (inj (String.append ",")), (inj (String.append _)) in H.
  apply json_split in H as [Htr H]. apply (inj (String.append ",")), (inj (String.append _)) in H.
  apply pretty_comma_inj in H as [Hsev H]. apply (inj (String.append _)) in H.
  apply json_split in H as [Hst H]. apply (inj (String.append ",")), (inj (String.append _)) in H.
  apply json_split in H as [Hsrc H]. apply (inj (String.append ",")), (inj (String.append _)) in H.
  apply json_split in H as [Hdesc _]. by repeat split.
Qed.

(** ** Rows that pass *)

Definition hashed (r : AuditRecord) : string := ar_prev_hash r +:+ canonical (ar_seq r) (ar_event r).

(** Two texts of these rows with one digest. *)
Definition collision (l l' : list AuditRecord) : Prop :=
  ∃ r r', r ∈ l ∧ r' ∈ l' ∧ hashed r ≠ hashed r' ∧ sha256_hex (hashed r) = sha256_hex (hashed r').

Record linked (l : list AuditRecord) : Prop := {
  lk_hash i x : l !! i = Some x → ar_record_hash x = sha256_hex (hashed x);
  lk_next i x y : l !! i = Some x → l !! S i = Some y → ar_seq y = ar_seq x + 1 ∧ ar_prev_hash y = ar_record_hash x;
}.

Lemma check_rows_linked k r rest k' s h :
  check_rows sha256_hex json_encode k r rest = inr (k', s, h) →
  linked (r :: rest) ∧ ∃ z, last (r :: rest) = Some z ∧ ar_seq z = s ∧ ar_record_hash z = h.
Proof.
  revert k r. induction rest as [|r' rest IH]; intros k r; cbn [check_rows]; case_match eqn:Eh; try done;
    apply negb_false_iff, str_eqb_eq in Eh.
  - intros [= _ <- <-]. split; [|by exists r]. split; [intros [|i] x; [by intros [= <-]|done]|intros [|i] x y; done].
  - case_match eqn:Es; [done|]. case_match eqn:Ep; [done|]. apply negb_false_iff, Z.eqb_eq in Es. apply negb_false_iff, str_eqb_eq in Ep.
    intros Hrest. destruct (IH _ _ Hrest) as [[H1 H2] Hlast]. split; [|done].
    split; [intros [|i] x; [by intros [= <-]|apply H1]|intros [|i] x y; [by intros [= <-] [= <-]|apply H2]].
Qed.

Lemma linked_seq r rest i x : linked (r :: rest) → (r :: rest) !! i = Some x → ar_seq x = ar_seq r + Z.of_nat i.
Proof.
  intros [_ Hn]. revert x. induction i as [|i IH]; intros x Hx; [injection Hx as <-; lia|].
  destruct (lookup_lt_is_Some_2 (r :: rest) i) as [y Hy]; [apply lookup_lt_Some in Hx; lia|].
  destruct (Hn _ _ _ Hy Hx) as [-> _]. rewrite (IH _ Hy). lia.
Qed.

Lemma linked_prev_length r rest x :
  linked (r :: rest) → String.length (ar_prev_hash r) = 64%nat → x ∈ r :: rest → String.length (ar_prev_hash x) = 64%nat.
Proof.
  intros [Hh Hn] Hr [[|i] Hi]%list_elem_of_lookup; [by injection Hi as <-|].
  destruct (lookup_lt_is_Some_2 (r :: rest) i) as [y Hy]; [apply lookup_lt_Some in Hi; lia|].
  destruct (Hn _ _ _ Hy Hi) as [_ ->]. rewrite (Hh _ _ Hy). apply sha256_length.
Qed.

Lemma chain_linked es : linked (chain origin es).
Proof.
  split.
  - intros i x Hx. by destruct (chain_links _ _ _ _ _ _ Hx).
  - intros i x y Hx Hy. pose proof (chain_seq _ _ _ _ _ _ Hx). pose proof (chain_seq _ _ _ _ _ _ Hy).
    destruct (chain_links _ _ _ _ _ _ Hy) as [_ ->]. rewrite Hx. split; [lia|done].
Qed.

Lemma chain_prev_length es x : x ∈ chain origin es → String.length (ar_prev_hash x) = 64%nat.
Proof.
  destruct es as [|e es]; [by intros ?%elem_of_nil|]. pose proof (chain_linked (e :: es)) as Hl. cbn in *.
  by apply linked_prev_length.
Qed.

(** One step back: rows with one digest have the same content, or collide. *)
Lemma same_hash_cases l es x y :
  x ∈ l → y ∈ chain origin es → String.length (ar_prev_hash x) = 64%nat →
  ar_record_hash x = sha256_hex (hashed x) → ar_record_hash y = sha256_hex (hashed y) →
  ar_record_hash x = ar_record_hash y → collision l (chain origin es) ∨ same_record x y.
Proof.
  intros Hx Hy Hlen Ex Ey Heq. destruct (decide (hashed x = hashed y)) as [Hh|Hh]; [right|left; exists x, y; split_and!; congruence].
  apply app_inj_length in Hh as [Hp [Hseq He]%canonical_inj]; [by split|]. rewrite Hlen. symmetry. by apply (chain_prev_length es).
Qed.

(** From the newest row backwards. *)
Lemma rows_back r rest es p :
  linked (r :: rest) → String.length (ar_prev_hash r) = 64%nat → (p + length (r :: rest) = length es)%nat →
  (∀ z y, last (r :: rest) = Some z → last (chain origin es) = Some y → ar_record_hash z = ar_record_hash y) →
  ∀ k i x y, (i + k + 1 = length (r :: rest))%nat → (r :: rest) !! i = Some x → chain origin es !! (p + i)%nat = Some y →
    collision (r :: rest) (chain origin es) ∨ same_record x y.
Proof.
  intros Hl Hlen Hp Hlast k. set (l := r :: rest) in *. pose proof (chain_linked es) as Hc.
  assert (∀ i x y, l !! i = Some x → chain origin es !! (p + i)%nat = Some y → ar_record_hash x = ar_record_hash y →
    collision l (chain origin es) ∨ same_record x y) as Hstep.
  { intros i x y Hx Hy Heq. apply same_hash_cases; [by eapply list_elem_of_lookup_2..| |by eapply (lk_hash _ Hl)|by eapply (lk_hash _ Hc)|done].
    eapply linked_prev_length; [done|done|by eapply list_elem_of_lookup_2]. }
  induction k as [|k IH]; intros i x y Hk Hx Hy; [apply (Hstep i x y Hx Hy)|].
  - apply Hlast; rewrite last_lookup; [by replace (pred (length l)) with i by lia|].
    rewrite length_chain. by replace (pred (length es)) with (p + i)%nat by lia.
  - destruct (lookup_lt_is_Some_2 l (S i)) as [x' Hx']; [lia|].
    destruct (lookup_lt_is_Some_2 (chain origin es) (p + S i)%nat) as [y' Hy']; [rewrite length_chain; lia|].
    destruct (IH (S i) x' y') as [?|Hsame]; [lia|done|done|by left|]. apply (Hstep i x y Hx Hy).
    destruct (lk_next _ Hl _ _ _ Hx Hx') as [_ <-]. rewrite Nat.add_succ_r in Hy'.
    destruct (lk_next _ Hc _ _ _ Hy Hy') as [_ <-]. apply Hsame.
Qed.

Lemma Forall2_or {A B} (P : Prop) (Q : A → B → Prop) l l' :
  length l = length l' → (∀ i x y, l !! i = Some x → l' !! i = Some y → P ∨ Q x y) → P ∨ Forall2 Q l l'.
Proof.
  revert l'. induction l as [|x l IH]; intros [|y l'] Hlen H; try done; [by right|].
  destruct (H 0%nat x y) as [?|HQ]; [done|done|by left|]. destruct (IH l') as [?|HF]; [by injection Hlen| |by left|].
  - intros i a b Ha Hb. by apply (H (S i)).
  - right. by constructor.
Qed.

(** Rows that reach the head from [p] are the records from [p] on. *)
Lemma rows_are_records r rest es p :
  linked (r :: rest) → String.length (ar_prev_hash r) = 64%nat → ar_seq r = Z.of_nat p + 1 →
  (∃ z, last (r :: rest) = Some z ∧ head_of z = head_after sha256_hex json_encode origin es) →
  collision (r :: rest) (chain origin es) ∨ Forall2 same_record (r :: rest) (drop p (chain origin es)).
Proof.
  intros Hl Hlen Hseq (z & Hz & Hhead). assert (p + length (r :: rest) = length es)%nat as Hp.
  { rewrite last_lookup in Hz. pose proof (linked_seq _ _ _ _ Hl Hz) as Hs. apply (f_equal ch_seq) in Hhead. rewrite head_after_seq in Hhead.
    cbn [ch_seq head_of origin length pred] in *. lia. }
  apply Forall2_or; [rewrite length_drop, length_chain; lia|]. intros i x y Hx Hy. rewrite lookup_drop in Hy.
  assert (i < length (r :: rest))%nat by (by eapply lookup_lt_Some).
  apply (rows_back r rest es p Hl Hlen Hp) with (k := (length (r :: rest) - 1 - i)%nat) (i := i); [|lia|done|done].
  intros z' y' Hz' Hy'. rewrite Hz in Hz'. injection Hz' as <-. apply (f_equal ch_record_hash) in Hhead. cbn in Hhead. rewrite Hhead.
  rewrite chain_last in Hy' by (intros ->; cbn in Hp; lia). by injection Hy' as <-.
Qed.

(** ** What an accepting verification has seen *)

Definition starts (d : AuditDb) (r : AuditRecord) : Prop :=
  (ar_seq r = 1 ∧ ar_prev_hash r = genesis_hash) ∨
  ∃ a, a ∈ audit_anchors d ∧ an_last_seq a = ar_seq r - 1 ∧ ar_prev_hash r = an_last_hash a.

Lemma filter_head {A} (P : A → Prop) `{∀ x, Decision (P x)} l x l' : filter P l = x :: l' → P x ∧ x ∈ l.
Proof. intros Hf. apply (list_elem_of_filter P). rewrite Hf. left. Qed.

Lemma check_first_cases r c :
  ∃ o c', check_first always r c = (Some o, c') ∧
    match o with Some result => v_ok result = false | None => starts (c_db c) r ∧ c_db c' = c_db c end.
Proof.
  unfold check_first. case_match eqn:E.
  - apply Z.eqb_eq in E. eexists _, _. split; [reflexivity|]. destruct (_ =?ₛ _) eqn:E'; [|done]. apply str_eqb_eq in E'. split; [by left|done].
  - rewrite bind_eq, select_runs by done. eexists _, _. split; [reflexivity|]. destruct (filter _ _) eqn:Ef; [done|].
    destruct (_ =?ₛ _) eqn:E'; [|done].
    apply str_eqb_eq in E'. apply filter_head in Ef as [? ?]. split; [|done]. right. eauto.
Qed.

Lemma check_rows_rejects k r rest result : check_rows sha256_hex json_encode k r rest = inl result → v_ok result = false.
Proof. revert k r. induction rest as [|r' rest IH]; intros k r; cbn [check_rows]; repeat case_match; naive_solver. Qed.

Lemma check_head_accepts k s h o : v_ok (check_head k s h o) = true → o = Some (mkChainHead s h).
Proof.
  unfold check_head. destruct o as [[s' h']|]; [|done]. cbn. case_match eqn:E; [|done].
  apply andb_true_iff in E as [->%Z.eqb_eq ->%str_eqb_eq]. done.
Qed.

Lemma verify_accepts d result :
  verifies sha256_hex json_encode d = Some result → v_ok result = true →
  (rows_read d = [] ∧ ∀ h, audit_chain_head d = Some h → ch_seq h = 0 ∨ ∃ a, a ∈ audit_anchors d ∧ an_last_seq a = ch_seq h) ∨
  ∃ r rest, rows_read d = r :: rest ∧ linked (r :: rest) ∧ starts d r ∧
    ∃ z, last (r :: rest) = Some z ∧ audit_chain_head d = Some (head_of z).
Proof.
  unfold verifies, verify. rewrite bind_eq, select_runs by done. cbn [c_db]. destruct (rows_read d) as [|r rest].
  - rewrite bind_eq, read_head_runs. cbn [c_db next]. intros H Hok. left. split; [done|]. intros h Hh. rewrite Hh in H. cbn in H.
    case_match eqn:E; [left; by apply Z.eqb_eq|right]. rewrite bind_eq, select_runs in H by done.
    case_match eqn:Ef; [injection H as <-; done|]. apply filter_head in Ef as [? ?]. eauto.
  - set (c := next d (mkConn d None 0)). destruct (check_first_cases r c) as (o & c' & Ef & Ho).
    rewrite bind_eq, Ef. destruct o as [res|]; [intros [= <-]; congruence|]. destruct Ho as [Hs Hc].
    destruct (check_rows sha256_hex json_encode 0 r rest) as [res|[[k s] h]] eqn:Ec.
    { intros [= <-] ?. apply check_rows_rejects in Ec. congruence. }
    rewrite bind_eq, read_head_runs, Hc. intros [= <-] Hok%check_head_accepts. right. exists r, rest.
    apply check_rows_linked in Ec as (Hl & z & Hz & <- & <-). split_and!; [done|done|done|]. by exists z.
Qed.

(** ** Tamper evidence *)

Lemma holds_starts d history m r :
  holds d history m → starts d r → ∃ p, (p = 0 ∨ p = m)%nat ∧ ar_seq r = Z.of_nat p + 1 ∧ String.length (ar_prev_hash r) = 64%nat.
Proof.
  intros Hd [[Hseq Hp]|(a & Ha & Hseq & Hp)]; [exists 0%nat; rewrite Hp; auto|]. exists m.
  rewrite (h_anchors _ _ _ _ _ Hd) in Ha. destruct m as [|k]; [by apply elem_of_nil in Ha|].
  destruct (chain origin history !! k) as [x|] eqn:Ex; [|by apply elem_of_nil in Ha]. apply list_elem_of_singleton in Ha as ->.
  pose proof (chain_seq _ _ _ _ _ _ Ex). cbn in *. rewrite Hp. destruct (chain_links _ _ _ _ _ _ Ex) as [-> _].
  split_and!; [by right|lia|apply sha256_length].
Qed.

(** C7: Whatever the rows were replaced by, if verification accepts them under the
    head and the anchors the log left, they are the records of the reported
    events, from a point no later than where the log had pruned to: same numbers,
    contents, links and digests, or two of the texts collide. *)
Theorem verified_rows_are_the_history log history d result :
  life sha256_hex json_encode runs log history →
  audit_chain_head d = audit_chain_head (c_db (al_conn log)) → audit_anchors d = audit_anchors (c_db (al_conn log)) →
  verifies sha256_hex json_encode d = Some result → v_ok result = true →
  collision (rows_read d) (chain origin history) ∨
  ∃ p, (p ≤ length history - length (audit_log (c_db (al_conn log))))%nat ∧
    Forall2 same_record (rows_read d) (drop p (chain origin history)).
Proof.
  intros (m & [Hd _ _] & _)%life_holds Hhead Hanchors Hv Hok.
  assert (m = length history - length (audit_log (c_db (al_conn log))))%nat as Hm.
  { rewrite (h_rows _ _ _ _ _ Hd), length_drop, length_chain. destruct (h_pruned _ _ _ _ _ Hd); lia. }
  rewrite (h_head _ _ _ _ _ Hd) in Hhead. destruct (verify_accepts _ _ Hv Hok) as [[Hrows Hempty]|(r & rest & Hrows & Hl & Hs & z & Hz & Hzh)].
  - right. exists 0%nat. split; [lia|]. rewrite Hrows. destruct history as [|x history0] eqn:Eh; [constructor|]. exfalso.
    rewrite <-Eh in *. destruct (Hempty _ Hhead) as [Hseq|(a & Ha & Hseq)]; rewrite head_after_seq in Hseq.
    { subst history. cbn in Hseq. lia. }
    rewrite Hanchors, (h_anchors _ _ _ _ _ Hd) in Ha. destruct m as [|k]; [by apply elem_of_nil in Ha|].
    destruct (chain origin history !! k) as [y|] eqn:Ey; [|by apply elem_of_nil in Ha]. apply list_elem_of_singleton in Ha as ->.
    pose proof (chain_seq _ _ _ _ _ _ Ey). cbn in *. destruct (h_pruned _ _ _ _ _ Hd); lia.
  - assert (starts (c_db (al_conn log)) r) as Hs' by (unfold starts in *; by rewrite <-Hanchors).
    destruct (holds_starts _ _ _ _ Hd Hs') as (p & Hp & Hseq & Hlen). rewrite Hrows.
    destruct (rows_are_records r rest history p Hl Hlen Hseq) as [?|HF]; [|by left|].
    + exists z. split; [done|]. rewrite Hzh in Hhead. destruct history; [done|]. by injection Hhead.
    + right. exists p. split; [lia|done].
Qed.

End Tampering.
