(* ===== verification/FlatHashMapSpec.v ===== *)
(** * The hash table implements a finite map

    Linear probing with tombstones: the probe invariant, the loops, and the
    refinement of every operation of [FlatHashMap] to the finite map
    [contents]. *)

From S2P Require Import Prelude FlatHashMap.

(** ** Powers of two *)

Lemma next_idx_mod k i : next_idx (2 ^ k) i = (i + 1) mod 2 ^ k.
Proof.
  unfold next_idx. rewrite <- (Nat.land_ones _ k). f_equal.
  rewrite Nat.ones_equiv. lia.
Qed.

Lemma pow2_nat_N k : N.of_nat (2 ^ k) = (2 ^ N.of_nat k)%N.
Proof. by rewrite Nat2N.inj_pow. Qed.

Lemma slot_lt k h : slot (2 ^ k) h < 2 ^ k.
Proof.
  unfold slot. assert (2 ^ k ≠ 0) by (apply Nat.pow_nonzero; lia).
  replace (N.of_nat (2 ^ k - 1)) with (N.ones (N.of_nat k)).
  - rewrite N.land_ones, <- pow2_nat_N.
    pose proof (N.mod_lt h (N.of_nat (2 ^ k))) as Hlt. lia.
  - rewrite N.ones_equiv, <- pow2_nat_N. lia.
Qed.

Lemma pow2_loop_pow2 fuel j n : ∃ k, pow2_loop fuel (2 ^ j) n = (2 ^ k)%N.
Proof.
  revert j. induction fuel as [|fuel IH]; intros j; simpl; [by exists j|].
  destruct (_ <? n)%N; [|by exists j]. replace (2 * 2 ^ j)%N with (2 ^ N.succ j)%N; [apply IH|].
  apply N.pow_succ_r'.
Qed.

Lemma pow2_loop_le fuel j n :
  (n ≤ 2 ^ (j + N.of_nat fuel))%N → (n ≤ pow2_loop fuel (2 ^ j) n)%N.
Proof.
  revert j. induction fuel as [|fuel IH]; intros j Hn; simpl.
  { by rewrite N.add_0_r in Hn. }
  destruct (N.ltb_spec (2 ^ j) n); [|done].
  replace (2 * 2 ^ j)%N with (2 ^ N.succ j)%N by apply N.pow_succ_r'. apply IH.
  by replace (N.succ j + N.of_nat fuel)%N with (j + N.of_nat (S fuel))%N by lia.
Qed.

Lemma next_pow2_spec n :
  (∃ k, N.to_nat (next_pow2 n) = 2 ^ k) ∧ ((n ≤ kMaxPow2)%N → (n ≤ next_pow2 n)%N).
Proof.
  assert (Hpow : ∀ p, (∃ k, p = (2 ^ k)%N) → ∃ k, N.to_nat p = 2 ^ k).
  { intros p [k ->]. exists (N.to_nat k). by rewrite N2Nat.inj_pow. }
  unfold next_pow2. destruct (N.eqb_spec n 0) as [->|Hn]; [split; [by exists 0|lia]|].
  destruct (N.leb_spec kMaxPow2 n) as [Hge|Hlt].
  - split; [|lia]. apply Hpow. by exists 63%N.
  - split; [apply Hpow, (pow2_loop_pow2 63 0)|].
    intros _. apply (pow2_loop_le 63 0). unfold kMaxPow2 in Hlt. simpl. lia.
Qed.

(** ** Circular probing *)

(** Every index is reached from every start within one turn. *)
Lemma circular_reach cap s j : s < cap → j < cap → ∃ d, d < cap ∧ j = (s + d) mod cap.
Proof.
  intros Hs Hj. destruct (decide (s ≤ j)).
  - exists (j - s). split; [lia|]. rewrite Nat.mod_small; lia.
  - exists (j + cap - s). split; [lia|]. replace (s + (j + cap - s)) with (j + 1 * cap) by lia.
    rewrite Nat.Div0.mod_add, Nat.mod_small; lia.
Qed.

Lemma circular_lt cap i : cap ≠ 0 → i mod cap < cap.
Proof. apply Nat.mod_upper_bound. Qed.

Lemma circular_inj cap s d1 d2 :
  d1 < cap → d2 < cap → (s + d1) mod cap = (s + d2) mod cap → d1 = d2.
Proof.
  intros H1 H2 Heq.
  assert (Hz : ((Z.of_nat d1 - Z.of_nat d2) mod Z.of_nat cap = 0)%Z).
  { replace (Z.of_nat d1 - Z.of_nat d2)%Z
      with (Z.of_nat (s + d1) - Z.of_nat (s + d2))%Z by lia.
    rewrite Zminus_mod, <- !Nat2Z.inj_mod, Heq, Z.sub_diag. apply Zmod_0_l. }
  apply Z.mod_divide in Hz as [q Hq]; [|lia].
  assert (q = 0)%Z by nia. lia.
Qed.

Section Spec.
Context {K V : Type} `{FlatTraits K V} `{Countable K}.
Implicit Types (t : list (Entry K V)) (e : Entry K V) (m : FlatHashMap K V).

Definition occupied e : Prop := e_state e = kOccupied.
Definition non_empty e : Prop := e_state e ≠ kEmpty.

#[local] Instance occupied_dec e : Decision (occupied e).
Proof. unfold occupied. apply _. Defined.
#[local] Instance non_empty_dec e : Decision (non_empty e).
Proof. unfold non_empty. apply _. Defined.

Lemma is_key_true k e :
  is_key k e = true ↔ occupied e ∧ e_hash e = hash_of k ∧ e_key e = k.
Proof.
  unfold is_key, occupied. rewrite !andb_true_iff, !bool_decide_eq_true, N.eqb_eq. tauto.
Qed.

(** All entries before the [d]-th probe from [s] are in use or tombstones. *)
Definition path t (s d : nat) : Prop :=
  ∀ p, p < d → ∃ e, t !! ((s + p) mod length t) = Some e ∧ non_empty e.

Definition reachable_from t (s i : nat) : Prop :=
  ∃ d, d < length t ∧ i = (s + d) mod length t ∧ path t s d.

Record table_ok t : Prop := {
  to_pow : ∃ k, length t = 2 ^ k;
  to_entry : ∀ i e, t !! i = Some e → occupied e →
    e_hash e = hash_of (e_key e) ∧ reachable_from t (slot (length t) (e_hash e)) i;
  to_unique : ∀ i j e f, t !! i = Some e → t !! j = Some f → occupied e → occupied f →
    e_key e = e_key f → i = j;
}.

Definition present t (k : K) : Prop := ∃ i e, t !! i = Some e ∧ occupied e ∧ e_key e = k.

Lemma next_idx_step t s p :
  table_ok t → next_idx (length t) ((s + p) mod length t) = (s + S p) mod length t.
Proof.
  intros [[k Hk] _ _]. rewrite Hk, next_idx_mod, Nat.Div0.add_mod_idemp_l. f_equal. lia.
Qed.

Lemma table_length_pos t : table_ok t → 0 < length t.
Proof. intros [[k ->] _ _]. assert (2 ^ k ≠ 0) by (apply Nat.pow_nonzero; lia). lia. Qed.

Lemma probe_lookup t s p : table_ok t → is_Some (t !! ((s + p) mod length t)).
Proof.
  intros Hok. apply lookup_lt_is_Some. apply circular_lt.
  pose proof (table_length_pos t Hok). lia.
Qed.

Lemma path_snoc t s d e :
  path t s d → t !! ((s + d) mod length t) = Some e → non_empty e → path t s (S d).
Proof.
  intros Hp He Hn p Hlt. destruct (decide (p = d)) as [->|]; [by exists e|]. apply Hp. lia.
Qed.

Lemma slot_lt_ok t h : table_ok t → slot (length t) h < length t.
Proof. intros [[k ->] _ _]. apply slot_lt. Qed.

Lemma slot_start t h : table_ok t → slot (length t) h = (slot (length t) h + 0) mod length t.
Proof.
  intros Hok. rewrite Nat.add_0_r, Nat.mod_small; [done|by apply slot_lt_ok].
Qed.

(** ** The lookup loop *)

Lemma find_loop_sound t k n idx i :
  find_loop t k n idx = Some i → ∃ e, t !! i = Some e ∧ is_key k e = true.
Proof.
  revert idx. induction n as [|n IH]; intros idx; simpl; [done|].
  destruct (t !! idx) as [e|] eqn:E; [|done]. case_bool_decide; [done|].
  destruct (is_key k e) eqn:Ek; [|apply IH]. intros [= <-]. eauto.
Qed.

Lemma find_loop_hit t k s d :
  table_ok t → path t s d → d < length t →
  (∃ e, t !! ((s + d) mod length t) = Some e ∧ is_key k e = true) →
  ∀ p, p ≤ d → find_loop t k (length t - p) ((s + p) mod length t) = Some ((s + d) mod length t).
Proof.
  intros Hok Hpath Hd (e & He & Hk) p Hp. remember (d - p) as n eqn:En.
  revert p Hp En. induction n as [|n IH]; intros p Hp En.
  - assert (p = d) as -> by lia.
    replace (length t - d) with (S (length t - S d)) by lia. simpl. rewrite He.
    pose proof Hk as (Ho & _ & _)%is_key_true. rewrite bool_decide_eq_false_2, Hk; [done|].
    unfold occupied in Ho. congruence.
  - replace (length t - p) with (S (length t - S p)) by lia. simpl.
    destruct (Hpath p ltac:(lia)) as (f & Hf & Hne). rewrite Hf.
    rewrite bool_decide_eq_false_2 by done. destruct (is_key k f) eqn:Ef.
    + exfalso. apply is_key_true in Hk as (? & _ & ?), Ef as (? & _ & ?).
      assert (Heq : (s + p) mod length t = (s + d) mod length t)
        by (eapply (to_unique t Hok); [done..|congruence]).
      apply circular_inj in Heq; lia.
    + rewrite next_idx_step by done. apply IH; lia.
Qed.

Lemma find_loop_spec t k :
  table_ok t →
  match find_loop t k (length t) (slot (length t) (hash_of k)) with
  | Some i => ∃ e, t !! i = Some e ∧ occupied e ∧ e_key e = k
  | None => ¬ present t k
  end.
Proof.
  intros Hok. destruct (find_loop _ _ _ _) as [i|] eqn:E.
  - apply find_loop_sound in E as (e & He & (? & _ & ?)%is_key_true). eauto.
  - intros (i & e & He & Ho & Hk). destruct (to_entry t Hok i e He Ho) as [Hh (d & Hd & -> & Hp)].
    rewrite Hh, Hk in Hp, He. rewrite slot_start in E by done.
    rewrite <- (Nat.sub_0_r (length t)) in E at 1.
    rewrite (find_loop_hit t k _ d) in E; [done..| |lia].
    exists e. split; [done|]. apply is_key_true. split_and!; [done|congruence|done].
Qed.

(** ** The insertion loop *)

(** What the entries passed so far say. *)
Record probing t (k : K) (s p : nat) (tomb : option nat) : Prop := {
  pr_path : path t s p;
  pr_other : ∀ q e, q < p → t !! ((s + q) mod length t) = Some e → is_key k e = false;
  pr_tomb : match tomb with
    | Some i => ∃ d e, d < p ∧ i = (s + d) mod length t ∧ t !! i = Some e ∧ e_state e = kDeleted
    | None => ∀ q e, q < p → t !! ((s + q) mod length t) = Some e → occupied e
    end;
}.

Lemma probing_step t k s p tomb tomb' e :
  probing t k s p tomb → t !! ((s + p) mod length t) = Some e → non_empty e →
  is_key k e = false →
  match tomb' with
  | Some i => tomb = Some i ∨ i = (s + p) mod length t ∧ e_state e = kDeleted
  | None => tomb = None ∧ occupied e
  end → probing t k s (S p) tomb'.
Proof.
  intros [Hpath Hother Htomb] He Hne Hk Ht. split.
  - by eapply path_snoc.
  - intros q f Hq Hf. destruct (decide (q = p)) as [->|]; [congruence|].
    eapply Hother; [|done]. lia.
  - destruct tomb' as [i|].
    + destruct Ht as [->|[-> Hd]].
      * destruct Htomb as (d & f & ? & ? & ? & ?). exists d, f. split_and!; [lia|done..].
      * exists p, e. split_and!; [lia|done..].
    + destruct Ht as [-> Ho]. intros q f Hq Hf.
      destruct (decide (q = p)) as [->|]; [congruence|]. eapply Htomb; [|done]. lia.
Qed.

(** A key whose probe path has been searched is absent. *)
Lemma probed_absent t k p :
  table_ok t →
  path t (slot (length t) (hash_of k)) p →
  (∀ q e, q < p → t !! ((slot (length t) (hash_of k) + q) mod length t) = Some e →
     is_key k e = false) →
  (p = length t ∨ ∃ e, t !! ((slot (length t) (hash_of k) + p) mod length t) = Some e ∧
     e_state e = kEmpty) →
  ¬ present t k.
Proof.
  intros Hok Hpath Hother Hend (i & e & He & Ho & Hk).
  destruct (to_entry t Hok i e He Ho) as [Hh (d & Hd & -> & Hp)].
  assert (Hkey : is_key k e = true) by (apply is_key_true; split_and!; congruence).
  rewrite Hh, Hk in Hp, He. destruct (decide (d < p)) as [Hlt|Hge].
  - specialize (Hother d e Hlt He). congruence.
  - destruct Hend as [->|(f & Hf & Hemp)]; [lia|].
    destruct (decide (d = p)) as [->|].
    + rewrite He in Hf. injection Hf as ->. unfold occupied in Ho. congruence.
    + destruct (Hp p ltac:(lia)) as (g & Hg & Hn). unfold non_empty in Hn. congruence.
Qed.

Definition insert_post t (k : K) (r : probe_result) : Prop :=
  match r with
  | Found i => ∃ e, t !! i = Some e ∧ occupied e ∧ e_key e = k
  | Vacant i => ¬ present t k ∧ reachable_from t (slot (length t) (hash_of k)) i ∧
      ∃ e, t !! i = Some e ∧ ¬ occupied e
  | Full => ∀ i e, t !! i = Some e → occupied e
  end.

Lemma insert_loop_post t k p tomb :
  let s := slot (length t) (hash_of k) in
  table_ok t → p ≤ length t → probing t k s p tomb →
  insert_post t k (insert_loop t k (length t - p) ((s + p) mod length t) tomb).
Proof.
  intros s Hok Hp Hpr. remember (length t - p) as n eqn:En.
  revert p tomb Hp Hpr En. induction n as [|n IH]; intros p tomb Hp Hpr En; simpl.
  - assert (p = length t) as -> by lia. destruct Hpr as [Hpath Hother Htomb].
    destruct tomb as [i|]; simpl.
    + destruct Htomb as (d & e & Hd & -> & He & Hdel). split_and!.
      * eapply probed_absent; eauto.
      * exists d. split_and!; [done|done|]. intros q Hq. apply Hpath. lia.
      * exists e. split; [done|]. unfold occupied. congruence.
    + intros i e He. pose proof (lookup_lt_Some _ _ _ He) as Hi.
      destruct (circular_reach (length t) s i) as (d & Hd & ->); [by apply slot_lt_ok|done|].
      by eapply Htomb.
  - destruct (probe_lookup t s p Hok) as [e He]. rewrite He.
    destruct (e_state e) eqn:Es.
    + destruct Hpr as [Hpath Hother Htomb]. split_and!.
      * eapply probed_absent; eauto.
      * destruct tomb as [i|]; simpl.
        -- destruct Htomb as (d & f & Hd & -> & _). exists d. split_and!; [lia|done|].
           intros q Hq. apply Hpath. lia.
        -- exists p. split_and!; [lia|done..].
      * destruct tomb as [i|]; simpl.
        -- destruct Htomb as (d & f & _ & _ & Hf & Hdel). exists f. split; [done|].
           unfold occupied. congruence.
        -- exists e. split; [done|]. unfold occupied. congruence.
    + destruct (is_key k e) eqn:Ek.
      * apply is_key_true in Ek as (? & _ & ?). simpl. eauto.
      * rewrite next_idx_step by done. apply IH; [lia| |lia].
        eapply probing_step; [done..|unfold non_empty; congruence|done|].
        destruct tomb; [by left|done].
    + rewrite next_idx_step by done. apply IH; [lia| |lia].
      assert (is_key k e = false).
      { destruct (is_key k e) eqn:Ek; [|done]. apply is_key_true in Ek as (Ho & _).
        unfold occupied in Ho. congruence. }
      eapply probing_step; [done..|unfold non_empty; congruence|done|].
      destruct tomb; [by left|by right].
Qed.

Lemma insert_loop_spec t k :
  table_ok t →
  insert_post t k (insert_loop t k (length t) (slot (length t) (hash_of k)) None).
Proof.
  intros Hok. rewrite slot_start by done. rewrite <- (Nat.sub_0_r (length t)) at 1.
  apply insert_loop_post; [done|lia|]. split; intros ??; lia.
Qed.

(** ** Changing one entry *)

Lemma path_update t i e s d : path t s d → non_empty e → path (<[i := e]> t) s d.
Proof.
  intros Hp Hn p Hlt. destruct (Hp p Hlt) as (f & Hf & Hnf).
  rewrite length_insert. destruct (decide ((s + p) mod length t = i)) as [<-|Hne].
  - exists e. split; [|done]. apply list_lookup_insert_eq. by eapply lookup_lt_Some.
  - exists f. by rewrite list_lookup_insert_ne by done.
Qed.

Lemma reachable_update t i e s j :
  reachable_from t s j → non_empty e → reachable_from (<[i := e]> t) s j.
Proof.
  intros (d & ? & ? & Hp) Hn. exists d. rewrite length_insert.
  split_and!; [done..|]. by apply path_update.
Qed.

Lemma table_ok_update t i e0 e :
  table_ok t → t !! i = Some e0 → non_empty e →
  (occupied e → e_hash e = hash_of (e_key e) ∧
     reachable_from t (slot (length t) (e_hash e)) i ∧
     ∀ j f, t !! j = Some f → occupied f → e_key f = e_key e → j = i) →
  table_ok (<[i := e]> t).
Proof.
  intros Hok He0 Hne Hocc. split.
  - rewrite length_insert. apply Hok.
  - intros j f Hf Ho. rewrite length_insert.
    apply list_lookup_insert_Some in Hf as [(<- & <- & _)|[Hij Hf]].
    + destruct (Hocc Ho) as (? & ? & _). split; [done|]. by apply reachable_update.
    + destruct (to_entry t Hok j f Hf Ho). split; [done|]. by apply reachable_update.
  - intros j l f g Hf Hg Hof Hog Heq.
    apply list_lookup_insert_Some in Hf as [(<- & <- & _)|[Hj Hf]];
      apply list_lookup_insert_Some in Hg as [(<- & <- & _)|[Hl Hg]].
    + done.
    + destruct (Hocc Hof) as (_ & _ & Hu). symmetry. by apply (Hu l g).
    + destruct (Hocc Hog) as (_ & _ & Hu). by apply (Hu j f).
    + by eapply (to_unique t Hok).
Qed.

(** ** Counting and contents *)

Lemma filter_insert_length (P : Entry K V → Prop) `{∀ e, Decision (P e)} t i e0 e :
  t !! i = Some e0 →
  length (filter P (<[i := e]> t)) + (if decide (P e0) then 1 else 0) =
  length (filter P t) + (if decide (P e) then 1 else 0).
Proof.
  revert i. induction t as [|x t IH]; intros [|i]; simpl; [done..| |].
  - intros [= ->]. rewrite !filter_cons. repeat case_decide; simpl; lia.
  - intros Hi. specialize (IH i Hi). rewrite !filter_cons.
    repeat case_decide; simpl; lia.
Qed.

Definition entry_of t (k : K) (v : V) : Prop :=
  ∃ i e, t !! i = Some e ∧ occupied e ∧ e_key e = k ∧ e_value e = v.

Lemma NoDup_keys t :
  (∀ i j e f, t !! i = Some e → t !! j = Some f → occupied e → occupied f →
     e_key e = e_key f → i = j) →
  NoDup (e_key <$> filter (λ e, e_state e = kOccupied) t).
Proof.
  induction t as [|x t IH]; intros Hu; [apply NoDup_nil_2|]. rewrite filter_cons.
  assert (NoDup (e_key <$> filter (λ e, e_state e = kOccupied) t)).
  { apply IH. intros i j e f He Hf ???.
    by injection (Hu (S i) (S j) e f He Hf ltac:(done) ltac:(done) ltac:(done)). }
  case_decide as Ho; [|done]. apply NoDup_cons. split; [|done].
  intros (e & Hk & [Hoe [i Hi]%list_elem_of_lookup]%list_elem_of_filter)%list_elem_of_fmap.
  by specialize (Hu 0 (S i) x e eq_refl Hi Ho Hoe Hk).
Qed.

Lemma contents_lookup m k v :
  table_ok (table_ m) ∨ table_ m = [] →
  contents m !! k = Some v ↔ entry_of (table_ m) k v.
Proof.
  intros Hok. unfold contents, for_each.
  assert (Hnd : NoDup ((λ e, (e_key e, e_value e)) <$>
    filter (λ e, e_state e = kOccupied) (table_ m)).*1).
  { rewrite <- list_fmap_compose. apply NoDup_keys. destruct Hok as [Hok|Hnil].
    - apply (to_unique _ Hok).
    - intros i j e f He. by rewrite Hnil in He. }
  rewrite <- elem_of_list_to_map by done.
  rewrite list_elem_of_fmap. split.
  - intros (e & [= -> ->] & [Ho [i Hi]%list_elem_of_lookup]%list_elem_of_filter).
    by exists i, e.
  - intros (i & e & Hi & Ho & <- & <-). exists e. split; [done|].
    apply list_elem_of_filter. split; [done|]. by eapply list_elem_of_lookup_2.
Qed.

Record map_ok m : Prop := {
  mo_table : table_ok (table_ m) ∨ table_ m = [];
  mo_size : size_ m = length (filter (λ e, e_state e = kOccupied) (table_ m));
  mo_used : used_ m = length (filter (λ e, e_state e ≠ kEmpty) (table_ m));
}.

Lemma size_contents m : map_ok m → size_ m = size (contents m).
Proof.
  intros [Ht Hs _]. unfold contents, for_each. rewrite map_size_list_to_map.
  - by rewrite length_fmap.
  - rewrite <- list_fmap_compose. apply NoDup_keys. destruct Ht as [Hok|Hnil].
    + apply (to_unique _ Hok).
    + intros i j e f He. by rewrite Hnil in He.
Qed.

(** Contents after one entry changed. *)
Lemma entry_of_update t i e0 e k v :
  table_ok t → t !! i = Some e0 →
  entry_of (<[i := e]> t) k v ↔
    (occupied e ∧ e_key e = k ∧ e_value e = v) ∨
    (entry_of t k v ∧ ¬ (occupied e0 ∧ e_key e0 = k)).
Proof.
  intros Hok Hi. split.
  - intros (j & f & Hj & Ho & Hk & Hv).
    apply list_lookup_insert_Some in Hj as [(<- & <- & _)|[Hne Hj]]; [by left|].
    right. split; [by exists j, f|]. intros [Ho0 Hk0]. apply Hne.
    eapply (to_unique t Hok); [done..|congruence].
  - intros [(Ho & Hk & Hv)|[(j & f & Hj & Ho & Hk & Hv) Hnot]].
    + exists i, e. split; [|done]. apply list_lookup_insert_eq. by eapply lookup_lt_Some.
    + exists j, f. split; [|done]. rewrite list_lookup_insert_ne; [done|]. intros ->.
      apply Hnot. assert (e0 = f) as -> by congruence. done.
Qed.

Lemma contents_eq m (M : gmap K V) :
  table_ok (table_ m) ∨ table_ m = [] →
  (∀ k v, entry_of (table_ m) k v ↔ M !! k = Some v) → contents m = M.
Proof.
  intros Hok HM. apply map_eq. intros k. apply option_eq. intros v.
  by rewrite contents_lookup, HM.
Qed.

(** ** Rehashing *)

Definition no_tombstone t : Prop := ∀ i e, t !! i = Some e → non_empty e → occupied e.

Lemma exists_free t :
  length (filter (λ e, e_state e = kOccupied) t) < length t →
  ∃ i e, t !! i = Some e ∧ ¬ occupied e.
Proof.
  intros Hlt. destruct (decide (Forall occupied t)) as [Hall|Hnot].
  - rewrite filter_all in Hlt; [lia|]. by apply Forall_forall.
  - apply not_Forall_Exists, Exists_exists in Hnot as (e & [i Hi]%list_elem_of_lookup & Hno);
      [|apply _]. by exists i, e.
Qed.

Lemma place_loop_spec t s p :
  table_ok t → s < length t → p ≤ length t →
  (∀ q, q < p → ∃ e, t !! ((s + q) mod length t) = Some e ∧ occupied e) →
  (∃ i e, t !! i = Some e ∧ ¬ occupied e) →
  ∃ i e, place_loop t (length t - p) ((s + p) mod length t) = Some i ∧
    reachable_from t s i ∧ t !! i = Some e ∧ ¬ occupied e.
Proof.
  intros Hok Hs Hp Hocc Hfree. remember (length t - p) as n eqn:En.
  revert p Hp Hocc En. induction n as [|n IH]; intros p Hp Hocc En; simpl.
  - exfalso. destruct Hfree as (i & e & Hi & Hno).
    destruct (circular_reach (length t) s i) as (d & Hd & ->); [done|by eapply lookup_lt_Some|].
    destruct (Hocc d ltac:(lia)) as (f & Hf & Ho). apply Hno. congruence.
  - destruct (probe_lookup t s p Hok) as [e He]. rewrite He. case_bool_decide as Ho.
    + rewrite next_idx_step by done. apply IH; [lia| |lia].
      intros q Hq. destruct (decide (q = p)) as [->|]; [by exists e|]. apply Hocc. lia.
    + exists ((s + p) mod length t), e. split_and!; [done| |done|done].
      exists p. split_and!; [lia|done|]. intros q Hq. destruct (Hocc q Hq) as (f & Hf & Hof).
      exists f. split; [done|]. unfold non_empty, occupied in *. congruence.
Qed.

(** Taking over a free entry for a new key. *)
Lemma occupy_entry t i e0 e :
  table_ok t → t !! i = Some e0 → ¬ occupied e0 → occupied e →
  e_hash e = hash_of (e_key e) → ¬ present t (e_key e) →
  reachable_from t (slot (length t) (e_hash e)) i →
  table_ok (<[i := e]> t) ∧
  (∀ k v, entry_of (<[i := e]> t) k v ↔ (e_key e = k ∧ e_value e = v) ∨ entry_of t k v) ∧
  length (filter (λ e, e_state e = kOccupied) (<[i := e]> t)) =
    S (length (filter (λ e, e_state e = kOccupied) t)).
Proof.
  intros Hok Hi Hno Ho Hh Habs Hreach. split_and!.
  - eapply table_ok_update; [done..| |].
    + unfold non_empty, occupied in *. congruence.
    + intros _. split_and!; [done..|]. intros j f Hj Hof Hk. exfalso. apply Habs.
      by exists j, f.
  - intros k v. rewrite entry_of_update by done. tauto.
  - pose proof (filter_insert_length (λ e, e_state e = kOccupied) t i e0 e Hi) as Hl.
    rewrite decide_False, decide_True in Hl by done. lia.
Qed.

Lemma rehash_entries_spec old : ∀ t,
  table_ok t → no_tombstone t →
  (∀ e, e ∈ old → occupied e → e_hash e = hash_of (e_key e) ∧ ¬ present t (e_key e)) →
  NoDup (e_key <$> filter (λ e, e_state e = kOccupied) old) →
  length (filter (λ e, e_state e = kOccupied) t) +
    length (filter (λ e, e_state e = kOccupied) old) ≤ length t →
  ∃ t', rehash_entries t old = Some t' ∧ table_ok t' ∧ no_tombstone t' ∧ length t' = length t ∧
    (∀ k v, entry_of t' k v ↔
       entry_of t k v ∨ ∃ e, e ∈ old ∧ occupied e ∧ e_key e = k ∧ e_value e = v) ∧
    length (filter (λ e, e_state e = kOccupied) t') =
      length (filter (λ e, e_state e = kOccupied) t) +
      length (filter (λ e, e_state e = kOccupied) old).
Proof.
  induction old as [|x old IH]; intros t Hok Hnt Hold Hnd Hlen.
  { exists t. simpl. split_and!; [done..| |by simpl; lia].
    intros k v. set_solver. }
  simpl. unfold rehash_entry. rewrite filter_cons in Hnd, Hlen |- *. case_bool_decide as Hx.
  2: { rewrite decide_False in Hnd, Hlen by done.
    destruct (IH t) as (t' & Ht' & ? & ? & ? & He & Hc); [done..|set_solver|done|done|].
    exists t'. rewrite decide_False by done. split_and!; [done..| |done].
    intros k v. rewrite He. setoid_rewrite elem_of_cons. unfold occupied. naive_solver. }
  rewrite decide_True in Hnd, Hlen |- * by done. simpl in Hlen.
  rewrite fmap_cons, NoDup_cons in Hnd. destruct Hnd as [Hnew Hnd].
  destruct (Hold x ltac:(left) Hx) as [Hh Habs].
  destruct (place_loop_spec t (slot (length t) (e_hash x)) 0) as (i & e0 & Hpl & Hr & Hi & Hno);
    [done|by apply slot_lt_ok|lia|intros ?; lia|apply exists_free; lia|].
  rewrite Nat.sub_0_r, <- slot_start in Hpl by done. rewrite Hpl. simpl.
  replace (mkEntry _ _ _ kOccupied) with x by (destruct x; simpl in *; by subst).
  destruct (occupy_entry t i e0 x) as (Hok' & He' & Hc'); [done..|].
  destruct (IH (<[i := x]> t)) as (t' & Ht' & ? & ? & Hlt & He & Hc); [done| | |done| |].
  - intros j f Hj Hn. apply list_lookup_insert_Some in Hj as [(<- & <- & _)|[_ Hj]]; [done|].
    by eapply Hnt.
  - intros e Hin Ho. destruct (Hold e ltac:(by right) Ho) as [Hhe Hpe]. split; [done|].
    intros (j & f & Hj & Hof & Hk).
    apply list_lookup_insert_Some in Hj as [(<- & <- & _)|[_ Hj]].
    + apply Hnew. rewrite Hk. apply list_elem_of_fmap_2, list_elem_of_filter. done.
    + apply Hpe. by exists j, f.
  - rewrite Hc', length_insert. lia.
  - rewrite length_insert in Hlt. exists t'. split_and!; [done..| |rewrite Hc, Hc'; simpl; lia].
    intros k v. rewrite He, He'. setoid_rewrite elem_of_cons. unfold occupied in *. naive_solver.
Qed.

Lemma replicate_table_ok n :
  (∃ k, n = 2 ^ k) → table_ok (replicate n empty_entry) ∧
  no_tombstone (replicate n empty_entry) ∧
  (∀ k v, ¬ entry_of (replicate n empty_entry) k v) ∧
  (∀ k, ¬ present (replicate n empty_entry) k) ∧
  length (filter (λ e, e_state e = kOccupied) (replicate n empty_entry)) = 0.
Proof.
  intros Hn.
  assert (Hall : ∀ i (e : Entry K V), replicate n empty_entry !! i = Some e → e_state e = kEmpty).
  { intros i e [-> _]%lookup_replicate. done. }
  assert (Hno : ∀ i (e : Entry K V), replicate n empty_entry !! i = Some e → ¬ occupied e).
  { intros i e He Ho. specialize (Hall i e He). unfold occupied in Ho. congruence. }
  split_and!.
  - split; [by rewrite length_replicate| |]; intros; by exfalso; eapply Hno.
  - intros i e He Hn'. by specialize (Hall i e He).
  - intros k v (i & e & He & Ho & _). by eapply Hno.
  - intros k (i & e & He & Ho & _). by eapply Hno.
  - clear Hn Hall Hno. induction n as [|n IH]; [done|]. simpl. by rewrite filter_cons_False.
Qed.

Lemma no_tombstone_used t :
  no_tombstone t →
  filter (λ e, e_state e ≠ kEmpty) t = filter (λ e, e_state e = kOccupied) t.
Proof.
  intros Hnt. apply filter_ext_elem. intros e [i Hi]%list_elem_of_lookup.
  split; [by apply (Hnt i)|congruence].
Qed.

Lemma rehash_spec m n :
  map_ok m → (n ≤ kMaxPow2)%N → (N.of_nat (length (table_ m)) ≤ n)%N →
  ∃ m', rehash n m = Some m' ∧ map_ok m' ∧ table_ok (table_ m') ∧
    contents m' = contents m ∧ size_ m' = size_ m ∧
    length (table_ m') = N.to_nat (next_pow2 n).
Proof.
  intros [Ht Hs Hu] Hmax Hn. destruct (next_pow2_spec n) as [Hpow Hle]. specialize (Hle Hmax).
  destruct (replicate_table_ok _ Hpow) as (Hok0 & Hnt0 & He0 & Hp0 & Hc0).
  destruct (rehash_entries_spec (table_ m) (replicate (N.to_nat (next_pow2 n)) empty_entry))
    as (t' & Ht' & Hok & Hnt & Hlen & He & Hc); [done..| | | |].
  - intros e [i Hi]%list_elem_of_lookup Ho. split; [|done].
    destruct Ht as [Hok|Hnil]; [by eapply (to_entry _ Hok)|]. by rewrite Hnil in Hi.
  - apply NoDup_keys. destruct Ht as [Hok|Hnil]; [apply (to_unique _ Hok)|].
    intros i j e f Hi. by rewrite Hnil in Hi.
  - rewrite Hc0, length_replicate.
    pose proof (length_filter (λ e, e_state e = kOccupied) (table_ m)). lia.
  - unfold rehash. rewrite Ht'. eexists. split; [done|]. simpl. split_and!.
    + split; simpl; [by left| |].
      * rewrite Hc, Hc0. lia.
      * rewrite no_tombstone_used, Hc, Hc0 by done. lia.
    + done.
    + apply contents_eq; [by left|]. simpl. intros k v. rewrite He, contents_lookup by done.
      split.
      * intros [?|(e & [i Hi]%list_elem_of_lookup & ? & ? & ?)]; [by exfalso; eapply He0|].
        by exists i, e.
      * intros (i & e & Hi & ? & ? & ?). right. exists e. split; [|done].
        by eapply list_elem_of_lookup_2.
    + done.
    + by rewrite Hlen, length_replicate.
Qed.

Lemma next_pow2_of_pow2 k : k ≤ 63 → next_pow2 (N.of_nat (2 ^ k)) = (2 ^ N.of_nat k)%N.
Proof.
  intros Hk. rewrite pow2_nat_N.
  assert (Hall : Forall (λ j, next_pow2 (2 ^ N.of_nat j) = 2 ^ N.of_nat j)%N (seq 0 64))
    by (vm_compute; repeat constructor).
  rewrite Forall_forall in Hall. apply Hall. apply elem_of_seq. lia.
Qed.

(** A table that may still be doubled. *)
Definition small m (n : N) : Prop := (N.of_nat (length (table_ m)) * n ≤ kMaxPow2)%N.

Lemma pow2_small k n : (N.of_nat (2 ^ k) * n ≤ kMaxPow2 → n ≠ 0 → N.of_nat k ≤ 63)%N.
Proof.
  rewrite pow2_nat_N. intros Hle Hn. apply N.nlt_ge. intros Hlt.
  assert (2 ^ 64 ≤ 2 ^ N.of_nat k)%N by (apply N.pow_le_mono_r; lia).
  unfold kMaxPow2 in Hle. nia.
Qed.

Lemma rehash_keep m :
  map_ok m → table_ok (table_ m) → small m 1 →
  ∃ m', rehash (N.of_nat (length (table_ m))) m = Some m' ∧ map_ok m' ∧
    table_ok (table_ m') ∧ contents m' = contents m ∧ size_ m' = size_ m ∧
    length (table_ m') = length (table_ m).
Proof.
  intros Hm Hok Hs. unfold small in Hs.
  destruct (rehash_spec m (N.of_nat (length (table_ m)))) as (m' & ? & ? & ? & ? & ? & Hl);
    [done|lia|lia|].
  exists m'. split_and!; [done..|]. rewrite Hl. destruct (to_pow _ Hok) as [k Hk].
  rewrite Hk in Hs |- *. rewrite next_pow2_of_pow2 by (apply pow2_small in Hs; lia).
  by rewrite <- pow2_nat_N, Nat2N.id.
Qed.

Lemma rehash_double m :
  map_ok m → table_ok (table_ m) → small m 2 →
  ∃ m', rehash (N.of_nat (length (table_ m)) * 2) m = Some m' ∧ map_ok m' ∧
    table_ok (table_ m') ∧ contents m' = contents m ∧ size_ m' = size_ m ∧
    length (table_ m') = length (table_ m) * 2.
Proof.
  intros Hm Hok Hs. unfold small in Hs.
  destruct (rehash_spec m (N.of_nat (length (table_ m)) * 2)) as (m' & ? & ? & ? & ? & ? & Hl);
    [done|lia|lia|].
  exists m'. split_and!; [done..|]. rewrite Hl. destruct (to_pow _ Hok) as [k Hk].
  rewrite Hk in Hs |- *.
  assert (HS : (N.of_nat (2 ^ k) * 2 = N.of_nat (2 ^ S k))%N)
    by (rewrite Nat.pow_succ_r'; lia).
  rewrite HS in Hs |- *.
  rewrite next_pow2_of_pow2 by (rewrite <- (N.mul_1_r (N.of_nat _)) in Hs;
    apply pow2_small in Hs; lia).
  rewrite <- pow2_nat_N, Nat2N.id, Nat.pow_succ_r'. lia.
Qed.

Lemma ensure_capacity_spec m :
  map_ok m → small m 2 →
  ∃ m', ensure_capacity m = Some m' ∧ map_ok m' ∧ table_ok (table_ m') ∧
    contents m' = contents m ∧ size_ m' = size_ m ∧
    length (table_ m) ≤ length (table_ m') ≤ (length (table_ m) * 2) `max` 4.
Proof.
  intros Hm Hs. unfold ensure_capacity.
  destruct (mo_table m Hm) as [Hok|Hnil]; cycle 1.
  { rewrite Hnil. simpl. destruct (rehash_spec m 4) as (m' & ? & ? & ? & ? & ? & Hl);
      [done|done|by rewrite Hnil|]. exists m'. split_and!; [done..|simpl; lia|].
    change (N.to_nat (next_pow2 4)) with 4 in Hl. lia. }
  pose proof (table_length_pos _ Hok). destruct (Nat.eqb_spec (length (table_ m)) 0); [lia|].
  destruct (within_load _ _); [exists m; by split_and!; [..|lia|lia]|].
  destruct (within_load _ _).
  - destruct (rehash_keep m) as (m' & ? & ? & ? & ? & ? & ?); [done..|unfold small in *; lia|].
    exists m'. split_and!; [done..|lia|lia].
  - destruct (rehash_double m) as (m' & ? & ? & ? & ? & ? & ?); [done..|].
    exists m'. split_and!; [done..|lia|lia].
Qed.

(** ** Insertion *)

Lemma alter_as_insert t i e (f : Entry K V → Entry K V) :
  t !! i = Some e → alter f i t = <[i := f e]> t.
Proof.
  intros He. apply list_eq. intros j. destruct (decide (i = j)) as [<-|Hne].
  - rewrite list_lookup_alter_eq, He, list_lookup_insert_eq; [done|by eapply lookup_lt_Some].
  - by rewrite list_lookup_alter_ne, list_lookup_insert_ne.
Qed.

(** Changing the value of the entry of [k]. *)
Lemma update_value_ok m i e (f : V → V) k :
  map_ok m → table_ok (table_ m) → table_ m !! i = Some e → occupied e → e_key e = k →
  let m' := mkFlat (alter (λ e, mkEntry (e_hash e) (e_key e) (f (e_value e)) (e_state e)) i
              (table_ m)) (size_ m) (used_ m) (grew_ m) in
  contents m !! k = Some (e_value e) ∧ map_ok m' ∧ table_ok (table_ m') ∧
  contents m' = <[k := f (e_value e)]> (contents m).
Proof.
  intros Hm Hok Hi Ho <-. simpl. rewrite (alter_as_insert _ _ e) by done.
  set (e' := mkEntry _ _ _ _).
  assert (Hok' : table_ok (<[i := e']> (table_ m))).
  { eapply table_ok_update; [done..| |].
    - unfold non_empty, e', occupied in *. simpl. congruence.
    - intros _. simpl. destruct (to_entry _ Hok i e Hi Ho). split_and!; [done..|].
      intros j g Hj Hg Hk. by eapply (to_unique _ Hok). }
  split_and!; [apply contents_lookup; [by left|]; by exists i, e| |done|].
  - destruct Hm as [_ Hs Hu]. split; simpl; [by left| |].
    + pose proof (filter_insert_length (λ e, e_state e = kOccupied) _ i e e' Hi) as Hl.
      simpl in Hl. rewrite Hs. destruct (decide (e_state e = kOccupied)); lia.
    + pose proof (filter_insert_length (λ e, e_state e ≠ kEmpty) _ i e e' Hi) as Hl.
      simpl in Hl. rewrite Hu. destruct (decide (e_state e ≠ kEmpty)); lia.
  - apply contents_eq; [by left|]. simpl. intros k v. rewrite (entry_of_update _ _ e) by done.
    rewrite lookup_insert_Some, contents_lookup by (by left). simpl. unfold e', occupied in *.
    simpl. naive_solver.
Qed.

Lemma occupy_ok m i e k f :
  map_ok m → table_ok (table_ m) → table_ m !! i = Some e → ¬ occupied e →
  ¬ present (table_ m) k → reachable_from (table_ m) (slot (length (table_ m)) (hash_of k)) i →
  contents m !! k = None ∧ map_ok (occupy i k f m) ∧ table_ok (table_ (occupy i k f m)) ∧
  contents (occupy i k f m) = <[k := f (e_value e)]> (contents m).
Proof.
  intros Hm Hok Hi Hno Habs Hreach. unfold occupy. rewrite Hi. simpl.
  set (e' := mkEntry (hash_of k) k (f (e_value e)) kOccupied).
  destruct (occupy_entry (table_ m) i e e') as (Hok' & He' & Hc'); [done..|].
  assert (Hnone : contents m !! k = None).
  { apply eq_None_not_Some. intros [v Hv]. apply contents_lookup in Hv; [|by left].
    destruct Hv as (j & g & ? & ? & ? & _). apply Habs. by exists j, g. }
  split_and!; [done| |done|].
  - destruct Hm as [_ Hs Hu]. split; simpl; [by left|lia|].
    pose proof (filter_insert_length (λ e, e_state e ≠ kEmpty) _ i e e' Hi) as Hl.
    rewrite (decide_True (P := e_state e' ≠ kEmpty)) in Hl by done. rewrite Hu.
    case_bool_decide as He; destruct (decide (e_state e ≠ kEmpty)); [done|lia|lia|tauto].
  - apply contents_eq; [by left|]. simpl. intros k' v. rewrite He', lookup_insert_Some. simpl.
    rewrite contents_lookup by (by left). split; [|naive_solver].
    intros [[-> ->]|Hin]; [by left|right]. split; [|done]. intros <-.
    destruct Hin as (j & g & ? & ? & ? & _). apply Habs. by exists j, g.
Qed.

Lemma full_size m : map_ok m → (∀ i e, table_ m !! i = Some e → occupied e) →
  size_ m = length (table_ m).
Proof.
  intros Hm Hall. rewrite (mo_size m Hm), filter_all; [done|].
  intros e [i Hi]%list_elem_of_lookup. by apply (Hall i).
Qed.

(** What an insertion achieves; [x] is the value left in a reused entry. *)
Definition inserted_post (k : K) (upd init : V → V) m (r : nat * bool * FlatHashMap K V) : Prop :=
  let '(i, b, m') := r in
  map_ok m' ∧ b = bool_decide (contents m !! k = None) ∧
  ref_get i m' = contents m' !! k ∧
  ∃ x, contents m' = <[k := match contents m !! k with Some v => upd v | None => init x end]>
                       (contents m).

(** The part of [insert_with] after [ensure_capacity]. *)
Lemma insert_step k upd init m :
  map_ok m → table_ok (table_ m) →
  match insert_loop (table_ m) k (length (table_ m)) (slot (length (table_ m)) (hash_of k)) None
  with
  | Found i =>
      inserted_post k upd init m (i, false,
        mkFlat (alter (λ e, mkEntry (e_hash e) (e_key e) (upd (e_value e)) (e_state e)) i
                  (table_ m)) (size_ m) (used_ m) (grew_ m))
  | Vacant i => inserted_post k upd init m (i, true, occupy i k init m)
  | Full => size_ m = length (table_ m)
  end.
Proof.
  intros Hm Hok. pose proof (insert_loop_spec (table_ m) k Hok) as Hpost.
  destruct (insert_loop _ _ _ _ _) as [i|i|]; simpl in Hpost.
  - destruct Hpost as (e & Hi & Ho & Hk).
    destruct (update_value_ok m i e upd k Hm Hok Hi Ho Hk) as (Hold & Hm' & _ & Hc).
    simpl in Hm', Hc. unfold inserted_post. rewrite Hc, Hold. split_and!; [done| | |].
    + by rewrite bool_decide_eq_false_2.
    + unfold ref_get. simpl. by rewrite list_lookup_alter_eq, Hi, lookup_insert_eq.
    + by exists (e_value e).
  - destruct Hpost as (Habs & Hreach & e & Hi & Hno).
    destruct (occupy_ok m i e k init Hm Hok Hi Hno Habs Hreach) as (Hold & Hm' & _ & Hc).
    unfold inserted_post. rewrite Hc, Hold. split_and!; [done| | |].
    + by rewrite bool_decide_eq_true_2.
    + unfold ref_get, occupy. rewrite Hi. simpl.
      rewrite list_lookup_insert_eq, lookup_insert_eq; [done|]. by eapply lookup_lt_Some.
    + by exists (e_value e).
  - by apply full_size.
Qed.

(** Two levels of recursion always suffice. *)
Lemma insert_with_total k upd init m :
  map_ok m → small m 8 →
  ∃ r, insert_with 2 k upd init m = Some r ∧ inserted_post k upd init m r.
Proof.
  intros Hm Hs. unfold small in Hs.
  assert (Hstep : ∀ fuel m0, map_ok m0 → small m0 2 → contents m0 = contents m →
    ∃ m1, ensure_capacity m0 = Some m1 ∧ map_ok m1 ∧ table_ok (table_ m1) ∧
      contents m1 = contents m ∧ size_ m1 = size_ m0 ∧
      length (table_ m0) ≤ length (table_ m1) ≤ (length (table_ m0) * 2) `max` 4 ∧
      ((∃ r, insert_with (S fuel) k upd init m0 = Some r ∧ inserted_post k upd init m r) ∨
       size_ m1 = length (table_ m1) ∧ insert_with (S fuel) k upd init m0 =
         (m' ← rehash (N.of_nat (length (table_ m1)) * 2) m1;
          insert_with fuel k upd init m'))).
  { intros fuel m0 Hm0 Hs0 Hc0.
    destruct (ensure_capacity_spec m0 Hm0 Hs0) as (m1 & He & Hm1 & Hok1 & Hc1 & Hz1 & Hl1).
    exists m1. split_and!; [done..|congruence|done|lia|lia|].
    pose proof (insert_step k upd init m1 Hm1 Hok1) as Hi. simpl. rewrite He. simpl.
    unfold inserted_post in Hi |- *. rewrite Hc1, Hc0 in Hi.
    destruct (insert_loop _ _ _ _ _); [left; eauto|left; eauto|by right]. }
  destruct (Hstep 1 m) as (m1 & _ & Hm1 & Hok1 & Hc1 & _ & Hl1 & [?|[Hfull ->]]);
    [done|unfold small; lia|done|done|].
  destruct (rehash_double m1 Hm1 Hok1) as (m2 & -> & Hm2 & Hok2 & Hc2 & Hz2 & Hl2).
  { unfold small. unfold kMaxPow2 in *. lia. }
  simpl. change (insert_with 1 k upd init m2) with (insert_with (S 0) k upd init m2).
  destruct (Hstep 0 m2) as (m3 & _ & _ & _ & _ & Hz3 & Hl3 & [?|[Hfull3 _]]);
    [done|unfold small, kMaxPow2 in *; lia|congruence|done|].
  pose proof (table_length_pos _ Hok1). lia.
Qed.

(** ** Erasing and resetting *)

Lemma erase_entry_ok m i e :
  map_ok m → table_ m !! i = Some e → occupied e →
  let m' := mkFlat (alter (λ e, mkEntry (e_hash e) (e_key e) (e_value e) kDeleted) i (table_ m))
              (size_ m - 1) (used_ m) (grew_ m) in
  map_ok m' ∧ contents m' = delete (e_key e) (contents m).
Proof.
  intros [Ht Hs Hu] Hi Ho. destruct Ht as [Hok|Hnil]; [|by rewrite Hnil in Hi].
  simpl. rewrite (alter_as_insert _ _ e) by done. set (e' := mkEntry _ _ _ kDeleted).
  assert (Hok' : table_ok (<[i := e']> (table_ m))) by (by eapply table_ok_update).
  split.
  - split; simpl; [by left| |].
    + pose proof (filter_insert_length (λ e, e_state e = kOccupied) _ i e e' Hi) as Hl.
      rewrite (decide_True (P := e_state e = kOccupied)), decide_False in Hl by done. lia.
    + pose proof (filter_insert_length (λ e, e_state e ≠ kEmpty) _ i e e' Hi) as Hl.
      rewrite (decide_True (P := e_state e ≠ kEmpty)), (decide_True (P := e_state e' ≠ kEmpty))
        in Hl by (done || (unfold occupied in Ho; congruence)). lia.
  - apply contents_eq; [by left|]. simpl. intros k v.
    rewrite (entry_of_update _ _ e), lookup_delete_Some, contents_lookup by (done || by left).
    unfold e', occupied. simpl. naive_solver.
Qed.

Lemma reset_ok m : map_ok m → map_ok (reset m) ∧ contents (reset m) = ∅.
Proof.
  intros [Ht _ _]. set (f := λ e : Entry K V, mkEntry (e_hash e) (e_key e)
    (if bool_decide (e_state e = kOccupied) then flat_reset_value (e_value e) else e_value e)
    kEmpty).
  assert (Hnone : ∀ i e, map f (table_ m) !! i = Some e → e_state e = kEmpty).
  { intros i e (e0 & -> & _)%list_lookup_fmap_Some. done. }
  assert (Hfil : ∀ (P : Entry K V → Prop) `{∀ e, Decision (P e)} t,
    (∀ e, P e → e_state e ≠ kEmpty) → filter P (map f t) = []).
  { intros P HP t Himp. induction t as [|x t IH]; [done|]. simpl.
    rewrite filter_cons_False; [done|]. intros Hp. by apply (Himp _ Hp). }
  split.
  - split; simpl.
    + destruct Ht as [[Hpow _ _]| ->]; [left|by right].
      split; [by rewrite length_map| |]; intros i; intros; exfalso;
        match goal with Hl : _ !! i = Some ?e, Ho : occupied ?e |- _ =>
          specialize (Hnone i e Hl); unfold occupied in Ho; congruence end.
    + by rewrite Hfil by congruence.
    + by rewrite Hfil by congruence.
  - unfold contents, for_each, reset. simpl. by rewrite Hfil by congruence.
Qed.
End Spec.

Section Refinement.
Context {K V : Type} `{FlatTraits K V} `{Countable K}.

(** C17: [insert_or_assign] terminates and implements the map update: it returns
    whether the key was new, and afterwards the table stands for the same map
    with the key bound to the value.  The hypotheses are the representation
    invariant and a table of fewer than 2^61 entries. *)
Theorem flat_insert_refines (k : K) (v : V) m :
  map_ok m → small m 8 →
  ∃ b m', insert_or_assign k v m = Some (b, m') ∧ map_ok m' ∧
    b = bool_decide (contents m !! k = None) ∧
    contents m' = <[k := v]> (contents m) ∧ size_ m' = size (contents m').
Proof.
  intros Hm Hs. destruct (insert_with_total k (λ _, v) (λ _, v) m Hm Hs)
    as ([[i b] m'] & Hi & Hm' & Hb & _ & x & Hc).
  exists b, m'. unfold insert_or_assign. rewrite Hi. split_and!; [done..| |].
  - rewrite Hc. by case_match.
  - by apply size_contents.
Qed.

(** [get_or_create] terminates and returns a reference to the key's value: the
    present one if the key was there, otherwise a value obtained by
    [flat_reset_value] — the default when that overload empties its argument,
    as it does for strings and vectors. *)
Theorem flat_get_or_create_refines (k : K) m :
  map_ok m → small m 8 → (∀ v : V, flat_reset_value v = default_value) →
  ∃ i m', get_or_create k m = Some (i, m') ∧ map_ok m' ∧
    ref_get i m' = Some (default default_value (contents m !! k)) ∧
    contents m' = <[k := default default_value (contents m !! k)]> (contents m).
Proof.
  intros Hm Hs Hreset. destruct (insert_with_total k id flat_reset_value m Hm Hs)
    as ([[i b] m'] & Hi & Hm' & Hb & Hr & x & Hc).
  exists i, m'. unfold get_or_create. rewrite Hi.
  assert (Hc' : contents m' = <[k := default default_value (contents m !! k)]> (contents m))
    by (rewrite Hc; case_match; simpl; by rewrite ?Hreset).
  split_and!; [done..| |done]. by rewrite Hr, Hc', lookup_insert_eq.
Qed.

Lemma find_idx_spec (k : K) m :
  map_ok m →
  match find_idx k m with
  | Some i => ∃ e, table_ m !! i = Some e ∧ occupied e ∧ e_key e = k
  | None => contents m !! k = None
  end.
Proof.
  intros [Ht _ _]. unfold find_idx. destruct (Nat.eqb_spec (length (table_ m)) 0) as [Hz|Hz].
  - unfold contents, for_each. apply length_zero_iff_nil in Hz. by rewrite Hz.
  - destruct Ht as [Hok|Hnil]; [|by rewrite Hnil in Hz].
    pose proof (find_loop_spec (table_ m) k Hok) as Hf.
    destruct (find_loop _ _ _ _) as [i|]; [done|]. apply eq_None_not_Some. intros [v Hv].
    apply contents_lookup in Hv as (i & e & ? & ? & ? & _); [|by left]. apply Hf. by exists i, e.
Qed.

(** [find] returns what the represented map holds for the key. *)
Theorem flat_find_refines (k : K) m : map_ok m → find k m = contents m !! k.
Proof.
  intros Hm. pose proof (find_idx_spec k m Hm) as Hf. unfold find.
  destruct (find_idx k m) as [i|]; simpl; [|done]. destruct Hf as (e & Hi & Ho & Hk).
  rewrite Hi. simpl. symmetry. apply contents_lookup; [apply Hm|]. by exists i, e.
Qed.

(** [erase] removes exactly the key, says whether it was there, and keeps the
    probe invariant (the entry becomes a tombstone); [reset] empties the map. *)
Theorem flat_erase_refines (k : K) m :
  map_ok m →
  let '(b, m') := erase k m in
  b = bool_decide (is_Some (contents m !! k)) ∧ map_ok m' ∧
  contents m' = delete k (contents m) ∧
  map_ok (reset m) ∧ contents (reset m) = ∅.
Proof.
  intros Hm.
  assert (Hreset : map_ok (reset m) ∧ contents (reset m) = ∅) by (by apply reset_ok).
  pose proof (find_idx_spec k m Hm) as Hf. unfold erase.
  destruct (find_idx k m) as [i|].
  - destruct Hf as (e & Hi & Ho & Hk).
    destruct (erase_entry_ok m i e Hm Hi Ho) as [Hm' Hc]. rewrite Hk in Hc.
    split_and!; [|done|done|by apply Hreset..]. symmetry. apply bool_decide_eq_true_2.
    exists (e_value e). apply contents_lookup; [apply Hm|]. by exists i, e.
  - split_and!; [|done|by rewrite delete_id|by apply Hreset..].
    by rewrite Hf.
Qed.
End Refinement.

(** ** A reused entry of a scalar map keeps its old value *)

(** [FlatHashMap<std::string, uint32_t>]: [flat_reset_value] does nothing. *)
#[export] Instance scalar_traits : FlatTraits string Z :=
  {| hash_of := λ s, N.of_nat (String.length s); default_key := ""; default_value := 0%Z;
     flat_reset_value := id |}.

(** After [insert_or_assign(k, 7); erase(k)], [get_or_create(k)] refers to 7, not
    to a default value. *)
Lemma get_or_create_scalar_stale :
  (i ← (m ← insert_or_assign "k" 7%Z empty_flat; get_or_create "k" (erase "k" m.2).2);
   ref_get i.1 i.2) = Some 7%Z.
Proof. vm_compute. reflexivity. Qed.
