(* ===== verification/SlotStore.v ===== *)
(** * Slot store

    [SlotStore<T>] (core/util/slot_store.hpp): an object pool with stable slot
    indices, tombstones and a free list, and [ThreadSafeEntityCache::reconcile],
    which brings a store and its id index in line with a freshly discovered list.

    [std::vector] capacity is modelled as libstdc++ grows it (doubling), since
    [grew_] reports reallocations.  The free list is written with its back
    first.  An access out of range or an [assign] to a dead slot is [None]. *)

From S2P Require Import Prelude.

Class Entity (T : Type) := {
  entity_id : T → string;
  entity_eq_dec :: EqDecision T;
  entity_default : T;               (* T{} *)
}.

Section SlotStore.
Context {T : Type} `{Entity T}.

Record SlotStore := mkStore {
  items_ : list T;
  live_ : list bool;
  free_list_ : list nat;
  live_count_ : nat;
  store_grew_ : bool;
  store_capacity : nat;           (* items_.capacity() *)
}.

Definition empty_store : SlotStore := mkStore [] [] [] 0 false 0.

(** [items_.reserve(cap)]: never shrinks. *)
Definition store_reserve (cap : nat) (s : SlotStore) : SlotStore :=
  mkStore (items_ s) (live_ s) (free_list_ s) (live_count_ s) (store_grew_ s)
    (store_capacity s `max` cap).

Definition slot_count (s : SlotStore) : nat := length (items_ s).

Definition alloc_slot (s : SlotStore) : nat * SlotStore :=
  match free_list_ s with
  | slot :: free =>
      (slot, mkStore (items_ s) (<[slot := true]> (live_ s)) free (live_count_ s + 1)
               (store_grew_ s) (store_capacity s))
  | [] =>
      let before := store_capacity s in
      let after := if (length (items_ s) =? before)%nat then (2 * before) `max` 1 else before in
      (length (items_ s),
       mkStore (items_ s ++ [entity_default]) (live_ s ++ [true]) [] (live_count_ s + 1)
         (store_grew_ s || negb (after =? before)%nat) after)
  end.

Definition is_live (s : SlotStore) (slot : nat) : bool := default false (live_ s !! slot).

(** [None]: the [assert] on liveness fails. *)
Definition assign (slot : nat) (value : T) (s : SlotStore) : option SlotStore :=
  if is_live s slot
  then Some (mkStore (<[slot := value]> (items_ s)) (live_ s) (free_list_ s) (live_count_ s)
               (store_grew_ s) (store_capacity s))
  else None.

Definition free (slot : nat) (s : SlotStore) : SlotStore :=
  if is_live s slot
  then mkStore (<[slot := entity_default]> (items_ s)) (<[slot := false]> (live_ s))
         (slot :: free_list_ s) (live_count_ s - 1) (store_grew_ s) (store_capacity s)
  else s.

(** The (slot, payload) pairs [for_each_live] visits, in slot order. *)
Definition live_slots (s : SlotStore) : list (nat * T) :=
  filter (λ p, is_live s p.1 = true) (imap pair (items_ s)).

Definition collect_live (s : SlotStore) : list T := (live_slots s).*2.

(** ** Reconciling with a discovered list *)

(** [seen_] at the start: at least one zero per slot. *)
Definition clear_seen (n : nat) (seen : list bool) : list bool :=
  if (length seen <? n)%nat then replicate n false
  else replicate n false ++ drop n seen.

Record reconcile_state := mkRec {
  r_store : SlotStore;
  r_index : gmap string nat;
  r_seen : list bool;
  r_changed : bool;
}.

(** One iteration of the first loop. *)
Definition reconcile_one (r : reconcile_state) (e : T) : option reconcile_state :=
  match r_index r !! entity_id e with
  | Some s =>
      let seen := <[s := true]> (r_seen r) in
      cur ← items_ (r_store r) !! s;
      if bool_decide (cur = e) then Some (mkRec (r_store r) (r_index r) seen (r_changed r))
      else
        store ← assign s e (r_store r);
        Some (mkRec store (r_index r) seen true)
  | None =>
      let '(s, store) := alloc_slot (r_store r) in
      let seen := if (length (r_seen r) <=? s)%nat
                  then r_seen r ++ replicate (slot_count store - length (r_seen r)) false
                  else r_seen r in
      let seen := <[s := true]> seen in
      store ← assign s e store;
      Some (mkRec store (<[entity_id e := s]> (r_index r)) seen true)
  end.

Fixpoint reconcile_loop (r : reconcile_state) (incoming : list T) : option reconcile_state :=
  match incoming with
  | [] => Some r
  | e :: l => r' ← reconcile_one r e; reconcile_loop r' l
  end.

(** One iteration of the loop over [dead_ids_]. *)
Definition remove_dead (r : reconcile_state) (id : string) : reconcile_state :=
  match r_index r !! id with
  | Some s => mkRec (free s (r_store r)) (delete id (r_index r)) (r_seen r) true
  | None => r
  end.

Definition dead_ids (r : reconcile_state) : list string :=
  (λ p : nat * T, entity_id p.2) <$>
    filter (λ p, r_seen r !! p.1 ≠ Some true) (live_slots (r_store r)).

Definition reconcile (incoming : list T) (store : SlotStore) (index : gmap string nat)
    (seen : list bool) : option reconcile_state :=
  r ← reconcile_loop (mkRec store index (clear_seen (slot_count store) seen) false) incoming;
  Some (foldl remove_dead r (dead_ids r)).
End SlotStore.

Arguments SlotStore : clear implicits.
Arguments reconcile_state : clear implicits.
