(* ===== verification/SlotStoreSpec.v ===== *)
(** * Reconciliation makes a store hold exactly the discovered entities *)

From S2P Require Import Prelude SlotStore.

Section Spec.
Context {T : Type} `{Entity T}.
Implicit Types (s : SlotStore T) (idx : gmap string nat) (r : reconcile_state T).

(** The slots, the free list and the id index agree. *)
Record store_ok s idx : Prop := {
  so_len : length (live_ s) = length (items_ s);
  so_idx : ∀ k n, idx !! k = Some n ↔
    live_ s !! n = Some true ∧ entity_id <$> items_ s !! n = Some k;
  so_nodup : NoDup (free_list_ s);
  so_free : ∀ n, n ∈ free_list_ s ↔ live_ s !! n = Some false;
  so_count : live_count_ s = length (filter (λ b, b = true) (live_ s));
}.

(** The entities by id. *)
Definition view s idx : gmap string T := omap (λ n, items_ s !! n) idx.

Lemma lookup_view s idx k : view s idx !! k = idx !! k ≫= λ n, items_ s !! n.
Proof. apply lookup_omap. Qed.

Lemma is_live_true s n : is_live s n = true ↔ live_ s !! n = Some true.
Proof. unfold is_live. destruct (live_ s !! n) as [[]|]; naive_solver. Qed.

Lemma index_live s idx k n :
  store_ok s idx → idx !! k = Some n →
  is_live s n = true ∧ ∃ e, items_ s !! n = Some e ∧ entity_id e = k.
Proof.
  intros Hok [Hl (e & He & Hk)%fmap_Some]%(so_idx _ _ Hok).
  split; [by apply is_live_true|]. eauto.
Qed.

Lemma index_inj s idx k1 k2 n : store_ok s idx → idx !! k1 = Some n → idx !! k2 = Some n → k1 = k2.
Proof.
  intros Hok [_ H1]%(so_idx _ _ Hok) [_ H2]%(so_idx _ _ Hok). congruence.
Qed.

Lemma empty_store_ok : store_ok empty_store ∅.
Proof.
  split; simpl; [done| |apply NoDup_nil_2| |done]; intros.
  - rewrite lookup_empty. naive_solver.
  - set_solver.
Qed.

Lemma filter_true_insert (l : list bool) (n : nat) (b b' : bool) :
  l !! n = Some b →
  length (filter (λ b, b = true) (<[n := b']> l)) + (if b then 1 else 0) =
  length (filter (λ b, b = true) l) + (if b' then 1 else 0).
Proof.
  revert n. induction l as [|x l IH]; intros [|n]; simpl; [done..| |].
  - intros [= ->]. rewrite !filter_cons. destruct b, b'; simpl; lia.
  - intros Hn. specialize (IH n Hn). rewrite !filter_cons. destruct x; simpl; lia.
Qed.

(** ** Replacing a payload *)

Lemma assign_ok s idx e n :
  store_ok s idx → idx !! entity_id e = Some n →
  ∃ s', assign n e s = Some s' ∧ store_ok s' idx ∧ view s' idx = <[entity_id e := e]> (view s idx) ∧
    slot_count s' = slot_count s.
Proof.
  intros Hok Hn. destruct (index_live s idx _ n Hok Hn) as [Hl (e0 & He0 & Hid)].
  unfold assign. rewrite Hl. eexists. split; [done|].
  pose proof (lookup_lt_Some _ _ _ He0) as Hlt. split_and!.
  - split; simpl; [by rewrite length_insert, (so_len _ _ Hok)| |by apply Hok..].
    intros k m. rewrite (so_idx _ _ Hok). destruct (decide (m = n)) as [->|Hne].
    + rewrite list_lookup_insert_eq, He0 by done. simpl. by rewrite Hid.
    + by rewrite list_lookup_insert_ne.
  - apply map_eq. intros k. rewrite lookup_view. simpl.
    destruct (decide (k = entity_id e)) as [->|Hne].
    + by rewrite lookup_insert_eq, Hn; simpl; rewrite list_lookup_insert_eq.
    + rewrite lookup_insert_ne, lookup_view by done.
      destruct (idx !! k) as [m|] eqn:Ek; simpl; [|done].
      rewrite list_lookup_insert_ne; [done|]. intros ->. apply Hne. by eapply index_inj.
  - unfold slot_count. simpl. by rewrite length_insert.
Qed.

(** ** Allocating a slot for a new entity *)

(** [s'] is [s] with the dead or new slot [n] live and holding [e]. *)
Record placed s (n : nat) (e : T) s' : Prop := {
  pl_other : ∀ m, m ≠ n → items_ s' !! m = items_ s !! m ∧ live_ s' !! m = live_ s !! m;
  pl_item : items_ s' !! n = Some e;
  pl_live : live_ s' !! n = Some true;
  pl_dead : live_ s !! n ≠ Some true;
  pl_len : length (live_ s') = length (items_ s');
  pl_nodup : NoDup (free_list_ s');
  pl_free : ∀ m, m ∈ free_list_ s' ↔ m ∈ free_list_ s ∧ m ≠ n;
  pl_count : live_count_ s' = length (filter (λ b, b = true) (live_ s'));
}.

Lemma placed_fresh s idx n e s' k m :
  store_ok s idx → placed s n e s' → idx !! k = Some m → m ≠ n.
Proof. intros Hok [] [Hl _]%(so_idx _ _ Hok) ->. done. Qed.

Lemma placed_ok s idx n e s' :
  store_ok s idx → idx !! entity_id e = None → placed s n e s' →
  store_ok s' (<[entity_id e := n]> idx) ∧
  view s' (<[entity_id e := n]> idx) = <[entity_id e := e]> (view s idx).
Proof.
  intros Hok Hnone Hpl. pose proof (λ k m, placed_fresh s idx n e s' k m Hok Hpl) as Hfresh.
  destruct Hpl as [Hother Hitem Hlive Hdead Hlen Hnd Hfree Hcount]. split.
  - split; [done| |done| |done].
    + intros k m. destruct (decide (m = n)) as [->|Hm].
      * rewrite Hitem, Hlive. simpl. rewrite lookup_insert_Some. split.
        -- intros [[<- _]|[_ Hk]]; [done|]. by specialize (Hfresh k n Hk).
        -- intros [_ [= <-]]. by left.
      * destruct (Hother m Hm) as [-> ->]. rewrite lookup_insert_Some, (so_idx _ _ Hok).
        split; [naive_solver|]. intros Hk. right. split; [|done]. intros <-.
        apply (so_idx _ _ Hok) in Hk. congruence.
    + intros m. rewrite Hfree, (so_free _ _ Hok).
      destruct (decide (m = n)) as [->|Hm]; [naive_solver|].
      destruct (Hother m Hm) as [_ ->]. naive_solver.
  - apply map_eq. intros k. rewrite lookup_view.
    destruct (decide (k = entity_id e)) as [->|Hne].
    + by rewrite !lookup_insert_eq.
    + rewrite !lookup_insert_ne, lookup_view by done.
      destruct (idx !! k) as [m|] eqn:Ek; simpl; [|done]. by apply Hother, (Hfresh k).
Qed.

Lemma alloc_placed s idx e :
  store_ok s idx →
  let '(n, s1) := alloc_slot s in
  slot_count s1 = slot_count s `max` S n ∧
  ∃ s', assign n e s1 = Some s' ∧ placed s n e s' ∧ slot_count s' = slot_count s1.
Proof.
  intros Hok. pose proof (so_len _ _ Hok) as Hlen. unfold alloc_slot, slot_count.
  destruct (free_list_ s) as [|n free] eqn:Ef; simpl.
  - rewrite length_app. simpl. split; [lia|].
    unfold assign, is_live. simpl. rewrite lookup_app_r, Hlen, Nat.sub_diag by lia. simpl.
    eexists. split_and!; [done| |simpl; by rewrite length_insert, length_app].
    split; simpl.
    + intros m Hm. rewrite list_lookup_insert_ne by done.
      destruct (decide (m < length (items_ s))); [by rewrite !lookup_app_l by lia|].
      rewrite !lookup_ge_None_2; [done|..]; rewrite ?length_app; simpl; lia.
    + apply list_lookup_insert_eq. rewrite length_app. simpl. lia.
    + by rewrite lookup_app_r, Hlen, Nat.sub_diag by lia.
    + by rewrite lookup_ge_None_2 by lia.
    + rewrite length_insert, !length_app. simpl. lia.
    + apply NoDup_nil_2.
    + rewrite Ef. set_solver.
    + by rewrite filter_app, length_app, (so_count _ _ Hok).
  - pose proof (so_nodup _ _ Hok) as Hnd. rewrite Ef in Hnd. apply NoDup_cons in Hnd as [Hnin Hnd].
    assert (Hdead : live_ s !! n = Some false) by (apply (so_free _ _ Hok); rewrite Ef; left).
    pose proof (lookup_lt_Some _ _ _ Hdead) as Hlt. split; [lia|].
    unfold assign, is_live. simpl. rewrite list_lookup_insert_eq by lia. simpl.
    eexists. split_and!; [done| |simpl; by rewrite length_insert].
    split; simpl; try (by apply list_lookup_insert_eq; lia).
    + intros m Hm. by rewrite !list_lookup_insert_ne.
    + congruence.
    + rewrite !length_insert. lia.
    + done.
    + rewrite Ef. intros m. set_solver.
    + pose proof (filter_true_insert (live_ s) n false true Hdead) as Hc.
      simpl in Hc. rewrite (so_count _ _ Hok). lia.
Qed.

(** ** Freeing a slot *)

Lemma free_ok s idx k n :
  store_ok s idx → idx !! k = Some n →
  store_ok (free n s) (delete k idx) ∧ view (free n s) (delete k idx) = delete k (view s idx).
Proof.
  intros Hok Hk. destruct (index_live s idx k n Hok Hk) as [Hl (e & He & Hid)].
  pose proof (so_len _ _ Hok) as Hlen. pose proof (lookup_lt_Some _ _ _ He) as Hlt.
  unfold free. rewrite Hl. apply is_live_true in Hl. split.
  - split; simpl.
    + by rewrite !length_insert.
    + intros k' m. rewrite lookup_delete_Some, (so_idx _ _ Hok).
      destruct (decide (m = n)) as [->|Hm].
      * rewrite list_lookup_insert_eq by lia. rewrite He. simpl. naive_solver.
      * rewrite !list_lookup_insert_ne by done. split; [naive_solver|].
        intros Hk'. split; [|done]. intros <-. apply (so_idx _ _ Hok) in Hk'. congruence.
    + apply NoDup_cons. split; [|apply Hok]. rewrite (so_free _ _ Hok). congruence.
    + intros m. rewrite elem_of_cons, (so_free _ _ Hok).
      destruct (decide (m = n)) as [->|Hm].
      * rewrite list_lookup_insert_eq by lia. naive_solver.
      * rewrite list_lookup_insert_ne by done. naive_solver.
    + pose proof (filter_true_insert (live_ s) n true false Hl) as Hc.
      simpl in Hc. rewrite (so_count _ _ Hok). lia.
  - apply map_eq. intros k'. rewrite lookup_view. destruct (decide (k' = k)) as [->|Hne].
    + by rewrite !lookup_delete_eq.
    + rewrite !lookup_delete_ne, lookup_view by done.
      destruct (idx !! k') as [m|] eqn:Ek; simpl; [|done].
      rewrite list_lookup_insert_ne; [done|]. intros ->. apply Hne. by eapply index_inj.
Qed.

(** ** The reference: last entry of each id wins *)

Definition by_id (l : list T) (m : gmap string T) : gmap string T :=
  foldl (λ m e, <[entity_id e := e]> m) m l.

Lemma lookup_by_id l m k :
  by_id l m !! k = if bool_decide (k ∈ entity_id <$> l) then by_id l ∅ !! k else m !! k.
Proof.
  revert m. unfold by_id. induction l as [|e l IH] using rev_ind; intros m; [done|].
  rewrite !foldl_app, fmap_app. simpl. destruct (decide (k = entity_id e)) as [->|Hne].
  - rewrite bool_decide_eq_true_2, !lookup_insert_eq by set_solver. done.
  - rewrite !lookup_insert_ne, IH by done.
    rewrite (bool_decide_ext (k ∈ entity_id <$> l) (k ∈ (entity_id <$> l) ++ [entity_id e]))
      by set_solver. done.
Qed.

Lemma by_id_not_elem l k : k ∉ entity_id <$> l → by_id l ∅ !! k = None.
Proof. intros Hk. rewrite lookup_by_id, bool_decide_eq_false_2 by done. apply lookup_empty. Qed.

(** ** The first loop *)

Record rec_ok (s0 : SlotStore T) (idx0 : gmap string nat) (done : list T) r : Prop := {
  ro_ok : store_ok (r_store r) (r_index r);
  ro_len : slot_count (r_store r) ≤ length (r_seen r);
  ro_seen : ∀ k n, r_index r !! k = Some n →
    r_seen r !! n = Some true ↔ k ∈ entity_id <$> done;
  ro_view : view (r_store r) (r_index r) = by_id done (view s0 idx0);
  ro_changed : r_changed r = false → r_store r = s0 ∧ r_index r = idx0;
}.

Lemma clear_seen_spec n seen :
  n ≤ length (clear_seen n seen) ∧ ∀ m, m < n → clear_seen n seen !! m = Some false.
Proof.
  unfold clear_seen. destruct (Nat.ltb_spec (length seen) n).
  - rewrite length_replicate. split; [done|]. intros m Hm. by apply lookup_replicate_2.
  - rewrite length_app, length_replicate. split; [lia|]. intros m Hm.
    rewrite lookup_app_l by (by rewrite length_replicate). by apply lookup_replicate_2.
Qed.

Lemma index_lt s idx k n : store_ok s idx → idx !! k = Some n → n < slot_count s.
Proof.
  intros Hok Hk. destruct (index_live s idx k n Hok Hk) as [_ (e & He & _)].
  by eapply lookup_lt_Some.
Qed.

Lemma rec_init s idx seen :
  store_ok s idx → rec_ok s idx [] (mkRec s idx (clear_seen (slot_count s) seen) false).
Proof.
  intros Hok. destruct (clear_seen_spec (slot_count s) seen) as [Hlen Hseen].
  split; simpl; try done.
  intros k n Hk. rewrite Hseen by (by eapply index_lt). set_solver.
Qed.

(** Marking the slot of an entity already in the index. *)
Lemma rec_step_known s0 idx0 l r e n :
  rec_ok s0 idx0 l r → r_index r !! entity_id e = Some n →
  ∃ r', reconcile_one r e = Some r' ∧ rec_ok s0 idx0 (l ++ [e]) r'.
Proof.
  intros [Hok Hlen Hseen Hview Hch] Hn.
  assert (Hseen' : ∀ k m, r_index r !! k = Some m →
    <[n := true]> (r_seen r) !! m = Some true ↔ k ∈ entity_id <$> (l ++ [e])).
  { intros k m Hk. pose proof (index_lt _ _ _ _ Hok Hn) as Hlt. rewrite fmap_app. simpl.
    rewrite elem_of_app, list_elem_of_singleton. destruct (decide (m = n)) as [->|Hne].
    - rewrite list_lookup_insert_eq by lia. rewrite (index_inj _ _ k (entity_id e) n Hok) by done.
      naive_solver.
    - rewrite list_lookup_insert_ne, (Hseen k m Hk) by done. split; [tauto|].
      intros [?| ->]; [done|]. congruence. }
  unfold reconcile_one. rewrite Hn.
  destruct (index_live _ _ _ _ Hok Hn) as [_ (e0 & He0 & Hid)]. rewrite He0. simpl.
  case_bool_decide as Heq.
  - subst e0. eexists. split; [done|]. split; simpl; [done|by rewrite length_insert|done| |done].
    unfold by_id. rewrite foldl_app. simpl. fold (by_id l (view s0 idx0)). rewrite <- Hview.
    symmetry. apply insert_id. by rewrite lookup_view, Hn.
  - destruct (assign_ok _ _ e n Hok Hn) as (s' & -> & Hok' & Hv' & Hsc). simpl. eexists.
    split; [done|]. split; simpl; [done|rewrite length_insert; lia|done| |done].
    unfold by_id. rewrite foldl_app. simpl. fold (by_id l (view s0 idx0)). by rewrite <- Hview.
Qed.

Lemma rec_step_new s0 idx0 l r e :
  rec_ok s0 idx0 l r → r_index r !! entity_id e = None →
  ∃ r', reconcile_one r e = Some r' ∧ rec_ok s0 idx0 (l ++ [e]) r'.
Proof.
  intros [Hok Hlen Hseen Hview Hch] Hnone. unfold reconcile_one. rewrite Hnone.
  pose proof (alloc_placed _ _ e Hok) as Hal.
  destruct (alloc_slot (r_store r)) as [n s1]. destruct Hal as (Hn & s' & -> & Hpl & Hsc).
  simpl. eexists. split; [done|]. set (seen1 := if (_ <=? n)%nat then _ else _).
  assert (Hseen1 : slot_count s1 ≤ length seen1 ∧
    ∀ m, m < length (r_seen r) → seen1 !! m = r_seen r !! m).
  { unfold seen1. destruct (Nat.leb_spec (length (r_seen r)) n).
    - rewrite length_app, length_replicate. split; [lia|]. intros m Hm. by rewrite lookup_app_l.
    - split; [lia|done]. }
  destruct (placed_ok _ _ n e s' Hok Hnone Hpl) as [Hok' Hv'].
  split; simpl; [done|rewrite length_insert; lia| | |done].
  - intros k m [[<- <-]|[Hne Hk]]%lookup_insert_Some.
    + rewrite list_lookup_insert_eq by lia. set_solver.
    + pose proof (placed_fresh _ _ _ _ _ _ _ Hok Hpl Hk).
      pose proof (index_lt _ _ _ _ Hok Hk).
      rewrite list_lookup_insert_ne by done. rewrite (proj2 Hseen1), (Hseen k m Hk) by lia.
      set_solver.
  - rewrite Hv', Hview. unfold by_id. by rewrite foldl_app.
Qed.

Lemma reconcile_loop_spec s0 idx0 incoming : ∀ l r,
  rec_ok s0 idx0 l r →
  ∃ r', reconcile_loop r incoming = Some r' ∧ rec_ok s0 idx0 (l ++ incoming) r'.
Proof.
  induction incoming as [|e incoming IH]; intros l r Hr; simpl.
  { exists r. by rewrite app_nil_r. }
  assert (∃ r', reconcile_one r e = Some r' ∧ rec_ok s0 idx0 (l ++ [e]) r') as (r' & -> & Hr').
  { destruct (r_index r !! entity_id e) as [n|] eqn:E;
      [by eapply rec_step_known|by apply rec_step_new]. }
  simpl. destruct (IH _ _ Hr') as (r2 & ? & ?). exists r2. by rewrite <- app_assoc in *.
Qed.

(** ** Removing what was not seen *)

Lemma elem_of_live_slots s n e :
  (n, e) ∈ live_slots s ↔ is_live s n = true ∧ items_ s !! n = Some e.
Proof.
  unfold live_slots. rewrite list_elem_of_filter. simpl.
  rewrite elem_of_lookup_imap. naive_solver.
Qed.

Lemma remove_dead_spec ids : ∀ r,
  store_ok (r_store r) (r_index r) →
  let r' := foldl remove_dead r ids in
  store_ok (r_store r') (r_index r') ∧
  view (r_store r') (r_index r') = foldl (λ m k, delete k m) (view (r_store r) (r_index r)) ids ∧
  ((∃ k n, k ∈ ids ∧ r_index r !! k = Some n) ∧ r_changed r' = true ∨
   (∀ k, k ∈ ids → r_index r !! k = None) ∧ r' = r).
Proof.
  induction ids as [|k ids IH]; intros r Hok; simpl.
  { split_and!; [done..|]. right. split; [set_solver|done]. }
  destruct (r_index r !! k) as [n|] eqn:Hk.
  - assert (remove_dead r k = mkRec (free n (r_store r)) (delete k (r_index r)) (r_seen r) true)
      as -> by (unfold remove_dead; by rewrite Hk).
    destruct (free_ok _ _ k n Hok Hk) as [Hok' Hv'].
    destruct (IH (mkRec (free n (r_store r)) (delete k (r_index r)) (r_seen r) true) Hok')
      as (Hok2 & Hv2 & Hch). simpl in *. split_and!; [done|by rewrite Hv2, Hv'|].
    left. split; [exists k, n; set_solver|].
    by destruct Hch as [[_ ?]|[_ ->]].
  - assert (remove_dead r k = r) as -> by (unfold remove_dead; by rewrite Hk).
    destruct (IH r Hok) as (Hok2 & Hv2 & Hch). split_and!; [done| |].
    + rewrite Hv2. f_equal. symmetry. apply delete_id. by rewrite lookup_view, Hk.
    + destruct Hch as [[(k' & n & ? & ?) ?]|[Hno ->]].
      * left. split; [|done]. exists k', n. set_solver.
      * right. split; [|done]. set_solver.
Qed.

Lemma elem_of_dead_ids r k :
  store_ok (r_store r) (r_index r) →
  k ∈ dead_ids r ↔ ∃ n, r_index r !! k = Some n ∧ r_seen r !! n ≠ Some true.
Proof.
  intros Hok. unfold dead_ids. rewrite list_elem_of_fmap. split.
  - intros ([n e] & -> & [Hs [Hl He]%elem_of_live_slots]%list_elem_of_filter). exists n.
    split; [|done]. apply (so_idx _ _ Hok). simpl. by rewrite He, <- is_live_true.
  - intros (n & Hn & Hs). destruct (index_live _ _ _ _ Hok Hn) as [Hl (e & He & <-)].
    exists (n, e). split; [done|]. apply list_elem_of_filter. split; [done|].
    by apply elem_of_live_slots.
Qed.

Lemma reconcile_spec incoming s idx seen :
  store_ok s idx →
  ∃ r1 r, reconcile_loop (mkRec s idx (clear_seen (slot_count s) seen) false) incoming = Some r1 ∧
    reconcile incoming s idx seen = Some r ∧ r = foldl remove_dead r1 (dead_ids r1) ∧
    store_ok (r_store r) (r_index r) ∧
    view (r_store r) (r_index r) = by_id incoming ∅ ∧
    (r_changed r = false → r_store r = s ∧ r_index r = idx).
Proof.
  intros Hok. destruct (reconcile_loop_spec s idx incoming [] _ (rec_init s idx seen Hok))
    as (r1 & Hr1 & Hrec). simpl in Hrec. destruct Hrec as [Hok1 _ Hseen Hview Hch].
  destruct (remove_dead_spec (dead_ids r1) r1 Hok1) as (Hok2 & Hv2 & Hcase).
  exists r1, (foldl remove_dead r1 (dead_ids r1)).
  unfold reconcile. rewrite Hr1. simpl. split_and!; [done..| |].
  - rewrite Hv2. apply map_eq. intros k. rewrite lookup_foldl_delete, Hview.
    case_bool_decide as Hdead.
    + apply elem_of_dead_ids in Hdead as (n & Hn & Hs); [|done].
      symmetry. apply by_id_not_elem. by rewrite <- (Hseen k n Hn).
    + rewrite lookup_by_id. case_bool_decide as Hk; [done|].
      rewrite by_id_not_elem by done. apply eq_None_not_Some. intros [e He].
      assert (Hin : view (r_store r1) (r_index r1) !! k = Some e).
      { by rewrite Hview, lookup_by_id, bool_decide_eq_false_2. }
      rewrite lookup_view in Hin. apply bind_Some in Hin as (n & Hn & _).
      apply Hdead, elem_of_dead_ids; [done|]. exists n. split; [done|].
      by rewrite (Hseen k n Hn).
  - destruct Hcase as [[_ ?]|[_ ->]]; [congruence|done].
Qed.

Lemma by_id_NoDup l e :
  NoDup (entity_id <$> l) → e ∈ l → by_id l ∅ !! entity_id e = Some e.
Proof.
  intros Hnd Hin. apply list_elem_of_split in Hin as (l1 & l2 & ->).
  rewrite fmap_app, fmap_cons in Hnd. unfold by_id. rewrite foldl_app. simpl.
  change (by_id l2 (<[entity_id e := e]> (by_id l1 ∅)) !! entity_id e = Some e).
  rewrite lookup_by_id, bool_decide_eq_false_2, lookup_insert_eq; [done|].
  apply NoDup_app in Hnd as (_ & _ & [? _]%NoDup_cons). done.
Qed.

(** Entities that are all in place leave the state alone. *)
Lemma reconcile_loop_same incoming s idx : ∀ seen,
  store_ok s idx → (∀ e, e ∈ incoming → view s idx !! entity_id e = Some e) →
  ∃ seen', reconcile_loop (mkRec s idx seen false) incoming = Some (mkRec s idx seen' false).
Proof.
  induction incoming as [|e incoming IH]; intros seen Hok Hall; simpl; [by eexists|].
  pose proof (Hall e ltac:(left)) as He. rewrite lookup_view in He.
  apply bind_Some in He as (n & Hn & He). unfold reconcile_one. simpl. rewrite Hn, He. simpl.
  rewrite bool_decide_eq_true_2 by done. simpl. apply IH; [done|]. set_solver.
Qed.
End Spec.

Section Reconcile.
Context {T : Type} `{Entity T}.

(** C18: Reconciliation never fails an assertion or leaves the slots, the free list
    and the id index inconsistent, and makes the store hold exactly the
    discovered entities (the last one of each id).  It reports "unchanged" only
    if neither the slots nor the index moved, and, for distinct ids, reports
    "changed" only if the set of entities did change. *)
Theorem reconcile_refines incoming (s : SlotStore T) idx seen :
  store_ok s idx →
  ∃ r, reconcile incoming s idx seen = Some r ∧ store_ok (r_store r) (r_index r) ∧
    view (r_store r) (r_index r) = by_id incoming ∅ ∧
    (r_changed r = false → r_store r = s ∧ r_index r = idx) ∧
    (NoDup (entity_id <$> incoming) → r_changed r = true →
       view (r_store r) (r_index r) ≠ view s idx).
Proof.
  intros Hok. destruct (reconcile_spec incoming s idx seen Hok)
    as (r1 & r & Hr1 & Hr & Hfold & Hok' & Hv & Hch).
  exists r. split_and!; [done..|]. intros Hnd Htrue Heq.
  destruct (reconcile_loop_same incoming s idx (clear_seen (slot_count s) seen) Hok)
    as [seen' Hsame].
  { intros e He. rewrite <- Heq, Hv. by apply by_id_NoDup. }
  rewrite Hsame in Hr1. injection Hr1 as <-.
  destruct (remove_dead_spec (dead_ids (mkRec s idx seen' false)) (mkRec s idx seen' false) Hok)
    as (_ & Hv2 & [[(k & n & Hk & Hn) _]|[_ Hid]]).
  - simpl in Hn, Hv2. rewrite <- Hfold, Heq in Hv2.
    assert (Hnone : view s idx !! k = None)
      by (rewrite Hv2, lookup_foldl_delete, bool_decide_eq_true_2; done).
    destruct (index_live _ _ _ _ Hok Hn) as [_ (e & He & _)].
    rewrite lookup_view, Hn in Hnone. simpl in Hnone. congruence.
  - rewrite <- Hfold in Hid. by rewrite Hid in Htrue.
Qed.
End Reconcile.
