(* ===== verification/EntityCache.v ===== *)
(** * Entity cache

    [ThreadSafeEntityCache] (core/models/thread_safe_entity_cache.cpp): the four
    slot stores with their id indexes, the derived relationship and operation
    indexes, the node and topic maps, and the readers on them.  Writers hold the
    exclusive lock and readers the shared one, so each method is one function on
    the cache state.

    The hash maps are finite maps here ([FlatHashMapSpec.v] shows that the table
    implements one).  An entity has the fields the cache reads; the others, which
    it only copies and compares, are one [Payload].  Not modelled: the capacity
    bookkeeping ([reserve], [grew_], [overflow_count_]) and the aggregation
    readers that assemble operations, configurations and topics. *)

From S2P Require Import Prelude SlotStore SlotStoreSpec.

Inductive SovdEntityType := SERVER | AREA | COMPONENT | APP | FUNCTION | UNKNOWN.

#[global] Instance SovdEntityType_eq_dec : EqDecision SovdEntityType.
Proof. solve_decision. Defined.

Record EntityRef := mkRef { ref_type : SovdEntityType; ref_index : nat }.

Section EntityCache.
Context {Payload : Type} `{EqDecision Payload, Inhabited Payload}.

Record Area := mkArea {
  area_id : string;
  area_parent_area_id : string;
  area_rest : Payload;
}.

Record Component := mkComponent {
  comp_id : string;
  comp_area : string;
  comp_parent_component_id : string;
  comp_services : list string;          (* full_path of each *)
  comp_actions : list string;
  comp_rest : Payload;
}.

Record App := mkApp {
  app_id : string;
  app_component_id : string;
  app_depends_on : list string;
  app_services : list string;
  app_actions : list string;
  app_rest : Payload;
}.

Record Function_ := mkFunction {
  func_id : string;
  func_hosts : list string;
  func_rest : Payload;
}.

#[export] Instance Area_entity : Entity Area.
Proof. refine {| entity_id := area_id; entity_default := mkArea "" "" inhabitant |}. solve_decision. Defined.
#[export] Instance Component_entity : Entity Component.
Proof.
  refine {| entity_id := comp_id; entity_default := mkComponent "" "" "" [] [] inhabitant |}.
  solve_decision.
Defined.
#[export] Instance App_entity : Entity App.
Proof.
  refine {| entity_id := app_id; entity_default := mkApp "" "" [] [] [] inhabitant |}.
  solve_decision.
Defined.
#[export] Instance Function_entity : Entity Function_.
Proof. refine {| entity_id := func_id; entity_default := mkFunction "" [] inhabitant |}. solve_decision. Defined.

Record EntityCache := mkCache {
  areas_ : SlotStore Area;
  components_ : SlotStore Component;
  apps_ : SlotStore App;
  functions_ : SlotStore Function_;
  area_index_ : gmap string nat;
  component_index_ : gmap string nat;
  app_index_ : gmap string nat;
  function_index_ : gmap string nat;
  component_to_apps_ : gmap string (list nat);
  component_to_subcomponents_ : gmap string (list nat);
  area_to_components_ : gmap string (list nat);
  area_to_subareas_ : gmap string (list nat);
  function_to_apps_ : gmap string (list nat);
  function_to_components_ : gmap string (list nat);
  operation_index_ : gmap string EntityRef;
  topic_type_cache_ : gmap string string;
  node_to_app_ : gmap string string;
  last_update_ : Z;
  generation_ : Z;                       (* uint64_t *)
  seen_ : list bool;
}.

Definition empty_cache : EntityCache :=
  mkCache empty_store empty_store empty_store empty_store ∅ ∅ ∅ ∅ ∅ ∅ ∅ ∅ ∅ ∅ ∅ ∅ ∅ 0 0 [].

(** ** Derived indexes *)

(** [map.get_or_create(k).push_back(slot)]. *)
Definition push_slot (k : string) (slot : nat) (m : gmap string (list nat))
    : gmap string (list nat) := <[k := default [] (m !! k) ++ [slot]]> m.

(** One [for_each_live] pass that files each slot under the key [f] gives it. *)
Definition group_by {T} `{Entity T} (f : T → string) (s : SlotStore T)
    : gmap string (list nat) :=
  foldl (λ m '(slot, e), if f e =?ₛ "" then m else push_slot (f e) slot m) ∅ (live_slots s).

Definition live_index {T} `{Entity T} (s : SlotStore T) (index : gmap string nat) (id : string)
    : option nat :=
  slot ← index !! id; if is_live s slot then Some slot else None.

(** The loop over the hosts of one function. *)
Definition index_hosts (apps : SlotStore App) (app_index : gmap string nat)
    (components : SlotStore Component) (component_index : gmap string nat)
    (acc : gmap string (list nat) * gmap string (list nat)) (f : Function_)
    : gmap string (list nat) * gmap string (list nat) :=
  foldl (λ '(fa, fc) host_id,
    match live_index apps app_index host_id with
    | Some slot => (push_slot (func_id f) slot fa, fc)
    | None =>
        match live_index components component_index host_id with
        | Some slot => (fa, push_slot (func_id f) slot fc)
        | None => (fa, fc)
        end
    end) acc (func_hosts f).

(** [function_to_apps_] and [function_to_components_]. *)
Definition host_indexes (apps : SlotStore App) (app_index : gmap string nat)
    (components : SlotStore Component) (component_index : gmap string nat)
    (functions : SlotStore Function_) : gmap string (list nat) * gmap string (list nat) :=
  foldl (λ acc p, index_hosts apps app_index components component_index acc p.2) (∅, ∅)
    (live_slots functions).

Definition rebuild_relationship_indexes (c : EntityCache) : EntityCache :=
  let hosts := host_indexes (apps_ c) (app_index_ c) (components_ c) (component_index_ c)
                 (functions_ c) in
  mkCache (areas_ c) (components_ c) (apps_ c) (functions_ c) (area_index_ c)
    (component_index_ c) (app_index_ c) (function_index_ c)
    (group_by app_component_id (apps_ c))
    (group_by comp_parent_component_id (components_ c))
    (group_by comp_area (components_ c))
    (group_by area_parent_area_id (areas_ c))
    hosts.1 hosts.2 (operation_index_ c) (topic_type_cache_ c) (node_to_app_ c) (last_update_ c)
    (generation_ c) (seen_ c).

Definition index_operations (ty : SovdEntityType) (slot : nat) (paths : list string)
    (m : gmap string EntityRef) : gmap string EntityRef :=
  foldl (λ m path, <[path := mkRef ty slot]> m) m paths.

(** Components first, then apps, which take priority for the same path. *)
Definition operation_map (components : SlotStore Component) (apps : SlotStore App)
    : gmap string EntityRef :=
  let m := foldl (λ m '(slot, comp),
             index_operations COMPONENT slot (comp_services comp ++ comp_actions comp) m)
             ∅ (live_slots components) in
  foldl (λ m '(slot, app),
    index_operations APP slot (app_services app ++ app_actions app) m) m (live_slots apps).

Definition rebuild_operation_index (c : EntityCache) : EntityCache :=
  mkCache (areas_ c) (components_ c) (apps_ c) (functions_ c) (area_index_ c)
    (component_index_ c) (app_index_ c) (function_index_ c) (component_to_apps_ c)
    (component_to_subcomponents_ c) (area_to_components_ c) (area_to_subareas_ c)
    (function_to_apps_ c) (function_to_components_ c)
    (operation_map (components_ c) (apps_ c)) (topic_type_cache_ c)
    (node_to_app_ c) (last_update_ c) (generation_ c) (seen_ c).

(** ** Writers *)

Definition patch_map (incoming map : gmap string string) : bool * gmap string string :=
  let patch_dead := filter (λ k, incoming !! k = None) (map_to_list map).*1 in
  let '(map, changed) := foldl (λ '(m, _) k, (delete k m, true)) (map, false) patch_dead in
  let '(map, changed) :=
    foldl (λ '(m, changed) '(k, v),
      match m !! k with
      | None => (<[k := v]> m, true)
      | Some cur => if bool_decide (cur = v) then (m, changed) else (<[k := v]> m, true)
      end) (map, changed) (map_to_list incoming) in
  (changed, map).

(** [reconcile(<store>, <index>, incoming)] on one of the four stores. *)
Definition reconcile_areas (l : list Area) (c : EntityCache) : option (bool * EntityCache) :=
  r ← reconcile l (areas_ c) (area_index_ c) (seen_ c);
  Some (r_changed r,
    mkCache (r_store r) (components_ c) (apps_ c) (functions_ c) (r_index r)
      (component_index_ c) (app_index_ c) (function_index_ c) (component_to_apps_ c)
      (component_to_subcomponents_ c) (area_to_components_ c) (area_to_subareas_ c)
      (function_to_apps_ c) (function_to_components_ c) (operation_index_ c)
      (topic_type_cache_ c) (node_to_app_ c) (last_update_ c) (generation_ c) (r_seen r)).

Definition reconcile_components (l : list Component) (c : EntityCache)
    : option (bool * EntityCache) :=
  r ← reconcile l (components_ c) (component_index_ c) (seen_ c);
  Some (r_changed r,
    mkCache (areas_ c) (r_store r) (apps_ c) (functions_ c) (area_index_ c)
      (r_index r) (app_index_ c) (function_index_ c) (component_to_apps_ c)
      (component_to_subcomponents_ c) (area_to_components_ c) (area_to_subareas_ c)
      (function_to_apps_ c) (function_to_components_ c) (operation_index_ c)
      (topic_type_cache_ c) (node_to_app_ c) (last_update_ c) (generation_ c) (r_seen r)).

Definition reconcile_apps (l : list App) (c : EntityCache) : option (bool * EntityCache) :=
  r ← reconcile l (apps_ c) (app_index_ c) (seen_ c);
  Some (r_changed r,
    mkCache (areas_ c) (components_ c) (r_store r) (functions_ c) (area_index_ c)
      (component_index_ c) (r_index r) (function_index_ c) (component_to_apps_ c)
      (component_to_subcomponents_ c) (area_to_components_ c) (area_to_subareas_ c)
      (function_to_apps_ c) (function_to_components_ c) (operation_index_ c)
      (topic_type_cache_ c) (node_to_app_ c) (last_update_ c) (generation_ c) (r_seen r)).

Definition reconcile_functions (l : list Function_) (c : EntityCache)
    : option (bool * EntityCache) :=
  r ← reconcile l (functions_ c) (function_index_ c) (seen_ c);
  Some (r_changed r,
    mkCache (areas_ c) (components_ c) (apps_ c) (r_store r) (area_index_ c)
      (component_index_ c) (app_index_ c) (r_index r) (component_to_apps_ c)
      (component_to_subcomponents_ c) (area_to_components_ c) (area_to_subareas_ c)
      (function_to_apps_ c) (function_to_components_ c) (operation_index_ c)
      (topic_type_cache_ c) (node_to_app_ c) (last_update_ c) (generation_ c) (r_seen r)).

Definition set_node_to_app (m : gmap string string) (c : EntityCache) : EntityCache :=
  mkCache (areas_ c) (components_ c) (apps_ c) (functions_ c) (area_index_ c)
    (component_index_ c) (app_index_ c) (function_index_ c) (component_to_apps_ c)
    (component_to_subcomponents_ c) (area_to_components_ c) (area_to_subareas_ c)
    (function_to_apps_ c) (function_to_components_ c) (operation_index_ c)
    (topic_type_cache_ c) m (last_update_ c) (generation_ c) (seen_ c).

Definition set_topic_types (m : gmap string string) (c : EntityCache) : EntityCache :=
  mkCache (areas_ c) (components_ c) (apps_ c) (functions_ c) (area_index_ c)
    (component_index_ c) (app_index_ c) (function_index_ c) (component_to_apps_ c)
    (component_to_subcomponents_ c) (area_to_components_ c) (area_to_subareas_ c)
    (function_to_apps_ c) (function_to_components_ c) (operation_index_ c)
    m (node_to_app_ c) (last_update_ c) (generation_ c) (seen_ c).

(** [last_update_ = now; generation_.fetch_add(1)]. *)
Definition stamp (last_update : Z) (c : EntityCache) : EntityCache :=
  mkCache (areas_ c) (components_ c) (apps_ c) (functions_ c) (area_index_ c)
    (component_index_ c) (app_index_ c) (function_index_ c) (component_to_apps_ c)
    (component_to_subcomponents_ c) (area_to_components_ c) (area_to_subareas_ c)
    (function_to_apps_ c) (function_to_components_ c) (operation_index_ c)
    (topic_type_cache_ c) (node_to_app_ c) last_update
    ((generation_ c + 1) `mod` 18446744073709551616) (seen_ c).

Definition update_all (areas : list Area) (components : list Component) (apps : list App)
    (functions : list Function_) (node_to_app : gmap string string) (now : Z)
    (c : EntityCache) : option EntityCache :=
  '(ch1, c) ← reconcile_areas areas c;
  '(ch2, c) ← reconcile_components components c;
  '(ch3, c) ← reconcile_apps apps c;
  '(ch4, c) ← reconcile_functions functions c;
  let '(ch5, m) := patch_map node_to_app (node_to_app_ c) in
  let c := set_node_to_app m c in
  if negb (ch1 || ch2 || ch3 || ch4 || ch5) then Some c
  else Some (stamp now (rebuild_operation_index (rebuild_relationship_indexes c))).

Definition update_areas (areas : list Area) (now : Z) (c : EntityCache) : option EntityCache :=
  '(changed, c) ← reconcile_areas areas c;
  if negb changed then Some c else Some (stamp now (rebuild_relationship_indexes c)).

Definition update_components (components : list Component) (now : Z) (c : EntityCache)
    : option EntityCache :=
  '(changed, c) ← reconcile_components components c;
  if negb changed then Some c
  else Some (stamp now (rebuild_operation_index (rebuild_relationship_indexes c))).

Definition update_apps (apps : list App) (now : Z) (c : EntityCache) : option EntityCache :=
  '(changed, c) ← reconcile_apps apps c;
  if negb changed then Some c
  else Some (stamp now (rebuild_operation_index (rebuild_relationship_indexes c))).

Definition update_functions (functions : list Function_) (now : Z) (c : EntityCache)
    : option EntityCache :=
  '(changed, c) ← reconcile_functions functions c;
  if negb changed then Some c else Some (stamp now (rebuild_relationship_indexes c)).

Definition update_topic_types (topic_types : gmap string string) (c : EntityCache)
    : EntityCache :=
  let '(changed, m) := patch_map topic_types (topic_type_cache_ c) in
  let c := set_topic_types m c in
  if changed then stamp (last_update_ c) c else c.

(** ** Readers *)

Definition get_by_id {T} `{Entity T} (s : SlotStore T) (index : gmap string nat) (id : string)
    : option T := slot ← live_index s index id; items_ s !! slot.

Definition get_area (id : string) (c : EntityCache) := get_by_id (areas_ c) (area_index_ c) id.
Definition get_component (id : string) (c : EntityCache) :=
  get_by_id (components_ c) (component_index_ c) id.
Definition get_app (id : string) (c : EntityCache) := get_by_id (apps_ c) (app_index_ c) id.
Definition get_function (id : string) (c : EntityCache) :=
  get_by_id (functions_ c) (function_index_ c) id.

Definition has_area (id : string) (c : EntityCache) : bool :=
  bool_decide (is_Some (live_index (areas_ c) (area_index_ c) id)).
Definition has_component (id : string) (c : EntityCache) : bool :=
  bool_decide (is_Some (live_index (components_ c) (component_index_ c) id)).
Definition has_app (id : string) (c : EntityCache) : bool :=
  bool_decide (is_Some (live_index (apps_ c) (app_index_ c) id)).
Definition has_function (id : string) (c : EntityCache) : bool :=
  bool_decide (is_Some (live_index (functions_ c) (function_index_ c) id)).

Definition get_areas (c : EntityCache) : list Area := collect_live (areas_ c).
Definition get_components (c : EntityCache) : list Component := collect_live (components_ c).
Definition get_apps (c : EntityCache) : list App := collect_live (apps_ c).
Definition get_functions (c : EntityCache) : list Function_ := collect_live (functions_ c).

Definition resolve_node_to_app (node_fqn : string) (c : EntityCache) : string :=
  default "" (node_to_app_ c !! node_fqn).
Definition get_topic_type (topic : string) (c : EntityCache) : string :=
  default "" (topic_type_cache_ c !! topic).

Definition find_entity (id : string) (c : EntityCache) : option EntityRef :=
  match live_index (components_ c) (component_index_ c) id with
  | Some slot => Some (mkRef COMPONENT slot)
  | None =>
      match live_index (apps_ c) (app_index_ c) id with
      | Some slot => Some (mkRef APP slot)
      | None =>
          match live_index (areas_ c) (area_index_ c) id with
          | Some slot => Some (mkRef AREA slot)
          | None => mkRef FUNCTION <$> live_index (functions_ c) (function_index_ c) id
          end
      end
  end.

Definition get_entity_type (id : string) (c : EntityCache) : SovdEntityType :=
  match find_entity id c with Some ref => ref_type ref | None => UNKNOWN end.

(** [get_app_with_links]: the app, its component and that component's area. *)
Definition get_app_with_links (id : string) (c : EntityCache)
    : option App * option Component * option Area :=
  match get_app id c with
  | None => (None, None, None)
  | Some app =>
      if app_component_id app =?ₛ "" then (Some app, None, None)
      else
        match get_component (app_component_id app) c with
        | None => (Some app, None, None)
        | Some comp =>
            if comp_area comp =?ₛ "" then (Some app, Some comp, None)
            else (Some app, Some comp, get_area (comp_area comp) c)
        end
  end.

Definition get_app_with_dependencies (id : string) (c : EntityCache)
    : option App * list (string * option App) :=
  match get_app id c with
  | None => (None, [])
  | Some app => (Some app, (λ dep, (dep, get_app dep c)) <$> app_depends_on app)
  end.

(** The ids of the live slots filed under a key. *)
Definition ids_for {T} `{Entity T} (s : SlotStore T) (m : gmap string (list nat)) (k : string)
    : list string :=
  omap (λ slot, if is_live s slot then entity_id <$> items_ s !! slot else None)
    (default [] (m !! k)).

Definition get_apps_for_component (id : string) (c : EntityCache) : list string :=
  ids_for (apps_ c) (component_to_apps_ c) id.
Definition get_components_for_area (id : string) (c : EntityCache) : list string :=
  ids_for (components_ c) (area_to_components_ c) id.
Definition get_apps_for_function (id : string) (c : EntityCache) : list string :=
  ids_for (apps_ c) (function_to_apps_ c) id.
Definition get_subareas (id : string) (c : EntityCache) : list string :=
  ids_for (areas_ c) (area_to_subareas_ c) id.

Definition find_operation_owner (path : string) (c : EntityCache) : option EntityRef :=
  operation_index_ c !! path.
End EntityCache.

Arguments Area : clear implicits.
Arguments Component : clear implicits.
Arguments App : clear implicits.
Arguments Function_ : clear implicits.
Arguments EntityCache : clear implicits.
