(* ===== verification/EntityCacheSpec.v ===== *)
(** * Entity cache: lookups answer for the last discovery, indexes never go stale *)

From S2P Require Import Prelude SlotStore SlotStoreSpec EntityCache.

(** ** Grouping slots by a key *)

Section Groups.
Context {T : Type} `{Entity T}.

Definition slots_for (f : T → string) (l : list (nat * T)) (k : string) : list nat :=
  (filter (λ p, f p.2 = k) l).*1.

Lemma lookup_group_by_from (f : T → string) (l : list (nat * T)) m k :
  k ≠ "" →
  default [] (foldl (λ m '(slot, e), if f e =?ₛ "" then m else push_slot (f e) slot m) m l !! k) =
  default [] (m !! k) ++ slots_for f l k.
Proof.
  intros Hk. revert m. induction l as [|[slot e] l IH]; intros m; simpl.
  { by rewrite app_nil_r. }
  rewrite IH. unfold slots_for. rewrite filter_cons. simpl.
  destruct (f e =?ₛ "") eqn:Ee; bool_simpl.
  - rewrite decide_False by congruence. done.
  - unfold push_slot. destruct (decide (f e = k)) as [<-|Hne].
    + rewrite lookup_insert_eq. simpl. by rewrite <- app_assoc.
    + by rewrite lookup_insert_ne.
Qed.

Lemma lookup_group_by_empty (f : T → string) (l : list (nat * T)) m :
  m !! "" = None →
  foldl (λ m '(slot, e), if f e =?ₛ "" then m else push_slot (f e) slot m) m l !! "" = None.
Proof.
  revert m. induction l as [|[slot e] l IH]; intros m Hm; simpl; [done|]. apply IH.
  destruct (f e =?ₛ "") eqn:Ee; bool_simpl; [done|].
  unfold push_slot. by rewrite lookup_insert_ne.
Qed.

Lemma ids_for_group_by (f : T → string) (s : SlotStore T) k :
  ids_for s (group_by f s) k =
    if k =?ₛ "" then [] else entity_id <$> filter (λ e, f e = k) (collect_live s).
Proof.
  unfold ids_for, group_by. destruct (k =?ₛ "") eqn:Ek; bool_simpl.
  { by subst k; rewrite lookup_group_by_empty by apply lookup_empty. }
  rewrite lookup_group_by_from, lookup_empty by done. simpl. unfold slots_for, collect_live.
  assert (Hall : ∀ p, p ∈ live_slots s → is_live s p.1 = true ∧ items_ s !! p.1 = Some p.2)
    by (intros [n e]; apply elem_of_live_slots).
  induction (live_slots s) as [|[n e] l IH]; [done|]. rewrite fmap_cons, !filter_cons. cbn [snd].
  destruct (Hall (n, e) ltac:(left)) as [Hl He]. simpl in Hl, He.
  specialize (IH (λ p Hp, Hall p (list_elem_of_further _ _ _ Hp))).
  case_decide; [|done]. rewrite !fmap_cons. simpl. rewrite Hl, He. simpl. by f_equal.
Qed.

Lemma get_by_id_view (s : SlotStore T) idx id :
  store_ok s idx → get_by_id s idx id = view s idx !! id.
Proof.
  intros Hok. unfold get_by_id, live_index. rewrite lookup_view.
  destruct (idx !! id) as [n|] eqn:E; simpl; [|done].
  destruct (index_live s idx id n Hok E) as [-> _]. done.
Qed.
End Groups.

Section CacheSpec.
Context {Payload : Type} `{EqDecision Payload, Inhabited Payload}.
Implicit Types (c : EntityCache Payload).

Record stores_ok c : Prop := {
  sk_areas : store_ok (areas_ c) (area_index_ c);
  sk_components : store_ok (components_ c) (component_index_ c);
  sk_apps : store_ok (apps_ c) (app_index_ c);
  sk_functions : store_ok (functions_ c) (function_index_ c);
}.

(** The derived indexes are what a rebuild from the stores would give. *)
Record derived_ok c : Prop := {
  dk_comp_apps : component_to_apps_ c = group_by app_component_id (apps_ c);
  dk_comp_subs :
    component_to_subcomponents_ c = group_by comp_parent_component_id (components_ c);
  dk_area_comps : area_to_components_ c = group_by comp_area (components_ c);
  dk_area_subs : area_to_subareas_ c = group_by area_parent_area_id (areas_ c);
  dk_hosts : (function_to_apps_ c, function_to_components_ c) =
    host_indexes (apps_ c) (app_index_ c) (components_ c) (component_index_ c) (functions_ c);
  dk_operations : operation_index_ c = operation_map (components_ c) (apps_ c);
}.

Record cache_ok c : Prop := {
  ck_stores : stores_ok c;
  ck_derived : derived_ok c;
}.

Lemma empty_cache_ok : cache_ok empty_cache.
Proof. split; [split; apply empty_store_ok|by split]. Qed.

(** Rebuilding everything re-establishes the derived indexes; an area or
    function update may skip the operation index, which does not depend on
    them. *)
Lemma rebuild_all_ok c now :
  stores_ok c → cache_ok (stamp now (rebuild_operation_index (rebuild_relationship_indexes c))).
Proof. intros []. split; split; simpl; try done. by destruct (host_indexes _ _ _ _ _). Qed.

Lemma rebuild_relationships_ok c now :
  stores_ok c → operation_index_ c = operation_map (components_ c) (apps_ c) →
  cache_ok (stamp now (rebuild_relationship_indexes c)).
Proof. intros [] ?. split; split; simpl; try done. by destruct (host_indexes _ _ _ _ _). Qed.

(** ** One store at a time *)

Record Views := mkViews {
  v_areas : gmap string (Area Payload);
  v_components : gmap string (Component Payload);
  v_apps : gmap string (App Payload);
  v_functions : gmap string (Function_ Payload);
}.

Definition views c : Views :=
  mkViews (view (areas_ c) (area_index_ c)) (view (components_ c) (component_index_ c))
    (view (apps_ c) (app_index_ c)) (view (functions_ c) (function_index_ c)).

Definition with_areas m (v : Views) : Views :=
  mkViews m (v_components v) (v_apps v) (v_functions v).
Definition with_components m (v : Views) : Views :=
  mkViews (v_areas v) m (v_apps v) (v_functions v).
Definition with_apps m (v : Views) : Views :=
  mkViews (v_areas v) (v_components v) m (v_functions v).
Definition with_functions m (v : Views) : Views :=
  mkViews (v_areas v) (v_components v) (v_apps v) m.

Definition operations_ok c : Prop := operation_index_ c = operation_map (components_ c) (apps_ c).

Lemma reconcile_areas_spec l c :
  stores_ok c →
  ∃ ch c', reconcile_areas l c = Some (ch, c') ∧ stores_ok c' ∧
    views c' = with_areas (by_id l ∅) (views c) ∧
    generation_ c' = generation_ c ∧ node_to_app_ c' = node_to_app_ c ∧
    (ch = false → derived_ok c → derived_ok c') ∧
    (operations_ok c → operations_ok c').
Proof.
  intros [Ha Hc Hp Hf]. unfold reconcile_areas.
  destruct (reconcile_spec l _ _ (seen_ c) Ha) as (_ & r & _ & -> & _ & Hok & Hv & Hch).
  simpl. do 2 eexists. split; [done|]. split_and!; try done; [by unfold views; simpl; rewrite Hv|].
  intros Hfalse []. destruct (Hch Hfalse) as [-> ->]. by split.
Qed.

Lemma reconcile_components_spec l c :
  stores_ok c →
  ∃ ch c', reconcile_components l c = Some (ch, c') ∧ stores_ok c' ∧
    views c' = with_components (by_id l ∅) (views c) ∧
    generation_ c' = generation_ c ∧ node_to_app_ c' = node_to_app_ c ∧
    (ch = false → derived_ok c → derived_ok c').
Proof.
  intros [Ha Hc Hp Hf]. unfold reconcile_components.
  destruct (reconcile_spec l _ _ (seen_ c) Hc) as (_ & r & _ & -> & _ & Hok & Hv & Hch).
  simpl. do 2 eexists. split; [done|]. split_and!; try done; [by unfold views; simpl; rewrite Hv|].
  intros Hfalse []. destruct (Hch Hfalse) as [-> ->]. by split.
Qed.

Lemma reconcile_apps_spec l c :
  stores_ok c →
  ∃ ch c', reconcile_apps l c = Some (ch, c') ∧ stores_ok c' ∧
    views c' = with_apps (by_id l ∅) (views c) ∧
    generation_ c' = generation_ c ∧ node_to_app_ c' = node_to_app_ c ∧
    (ch = false → derived_ok c → derived_ok c').
Proof.
  intros [Ha Hc Hp Hf]. unfold reconcile_apps.
  destruct (reconcile_spec l _ _ (seen_ c) Hp) as (_ & r & _ & -> & _ & Hok & Hv & Hch).
  simpl. do 2 eexists. split; [done|]. split_and!; try done; [by unfold views; simpl; rewrite Hv|].
  intros Hfalse []. destruct (Hch Hfalse) as [-> ->]. by split.
Qed.

Lemma reconcile_functions_spec l c :
  stores_ok c →
  ∃ ch c', reconcile_functions l c = Some (ch, c') ∧ stores_ok c' ∧
    views c' = with_functions (by_id l ∅) (views c) ∧
    generation_ c' = generation_ c ∧ node_to_app_ c' = node_to_app_ c ∧
    (ch = false → derived_ok c → derived_ok c') ∧
    (operations_ok c → operations_ok c').
Proof.
  intros [Ha Hc Hp Hf]. unfold reconcile_functions.
  destruct (reconcile_spec l _ _ (seen_ c) Hf) as (_ & r & _ & -> & _ & Hok & Hv & Hch).
  simpl. do 2 eexists. split; [done|]. split_and!; try done; [by unfold views; simpl; rewrite Hv|].
  intros Hfalse []. destruct (Hch Hfalse) as [-> ->]. by split.
Qed.

(** ** The writers *)

Inductive cache_op :=
  | UpdateAll (areas : list (Area Payload)) (components : list (Component Payload))
      (apps : list (App Payload)) (functions : list (Function_ Payload))
      (node_to_app : gmap string string) (now : Z)
  | UpdateAreas (areas : list (Area Payload)) (now : Z)
  | UpdateComponents (components : list (Component Payload)) (now : Z)
  | UpdateApps (apps : list (App Payload)) (now : Z)
  | UpdateFunctions (functions : list (Function_ Payload)) (now : Z)
  | UpdateTopicTypes (topic_types : gmap string string).

Definition cache_step (op : cache_op) c : option (EntityCache Payload) :=
  match op with
  | UpdateAll areas components apps functions node_to_app now =>
      update_all areas components apps functions node_to_app now c
  | UpdateAreas l now => update_areas l now c
  | UpdateComponents l now => update_components l now c
  | UpdateApps l now => update_apps l now c
  | UpdateFunctions l now => update_functions l now c
  | UpdateTopicTypes m => Some (update_topic_types m c)
  end.

(** What an update means for the entities by id. *)
Definition views_step (op : cache_op) (v : Views) : Views :=
  match op with
  | UpdateAll areas components apps functions _ _ =>
      mkViews (by_id areas ∅) (by_id components ∅) (by_id apps ∅) (by_id functions ∅)
  | UpdateAreas l _ => with_areas (by_id l ∅) v
  | UpdateComponents l _ => with_components (by_id l ∅) v
  | UpdateApps l _ => with_apps (by_id l ∅) v
  | UpdateFunctions l _ => with_functions (by_id l ∅) v
  | UpdateTopicTypes _ => v
  end.

Lemma update_all_ok areas components apps functions node_to_app now c :
  cache_ok c →
  ∃ c', update_all areas components apps functions node_to_app now c = Some c' ∧ cache_ok c' ∧
    views c' = mkViews (by_id areas ∅) (by_id components ∅) (by_id apps ∅) (by_id functions ∅).
Proof.
  intros [Hs Hd]. unfold update_all.
  destruct (reconcile_areas_spec areas c Hs) as (ch1 & c1 & -> & Hs1 & Hv1 & _ & _ & Hd1 & _).
  simpl. destruct (reconcile_components_spec components c1 Hs1)
    as (ch2 & c2 & -> & Hs2 & Hv2 & _ & _ & Hd2). simpl.
  destruct (reconcile_apps_spec apps c2 Hs2) as (ch3 & c3 & -> & Hs3 & Hv3 & _ & _ & Hd3). simpl.
  destruct (reconcile_functions_spec functions c3 Hs3)
    as (ch4 & c4 & -> & Hs4 & Hv4 & _ & _ & Hd4 & _). simpl.
  destruct (patch_map node_to_app (node_to_app_ c4)) as [ch5 m].
  assert (Hs5 : stores_ok (set_node_to_app m c4)) by (by destruct Hs4).
  assert (Hv5 : views (set_node_to_app m c4) =
    mkViews (by_id areas ∅) (by_id components ∅) (by_id apps ∅) (by_id functions ∅)).
  { change (views (set_node_to_app m c4)) with (views c4). by rewrite Hv4, Hv3, Hv2, Hv1. }
  destruct (negb _) eqn:Hch.
  - eexists. split_and!; [done| |done]. split; [done|].
    apply negb_true_iff in Hch. rewrite !orb_false_iff in Hch.
    destruct Hch as ((((-> & ->) & ->) & ->) & _).
    destruct (Hd4 eq_refl (Hd3 eq_refl (Hd2 eq_refl (Hd1 eq_refl Hd)))). by split.
  - eexists. split_and!; [done|by apply rebuild_all_ok|done].
Qed.

Lemma cache_step_ok op c :
  cache_ok c →
  ∃ c', cache_step op c = Some c' ∧ cache_ok c' ∧ views c' = views_step op (views c).
Proof.
  intros Hok. pose proof Hok as [Hs Hd].
  destruct op as [? ? ? ? ? now|l now|l now|l now|l now|m]; simpl.
  - by apply update_all_ok.
  - unfold update_areas.
    destruct (reconcile_areas_spec l c Hs) as (ch & c1 & -> & Hs1 & Hv1 & _ & _ & Hd1 & Ho1).
    simpl. destruct ch; simpl; eexists; split_and!; try done.
    + apply rebuild_relationships_ok; [done|]. apply Ho1, Hd.
    + split; [done|]. by apply Hd1.
  - unfold update_components.
    destruct (reconcile_components_spec l c Hs) as (ch & c1 & -> & Hs1 & Hv1 & _ & _ & Hd1).
    simpl. destruct ch; simpl; eexists; split_and!; try done.
    + by apply rebuild_all_ok.
    + split; [done|]. by apply Hd1.
  - unfold update_apps.
    destruct (reconcile_apps_spec l c Hs) as (ch & c1 & -> & Hs1 & Hv1 & _ & _ & Hd1).
    simpl. destruct ch; simpl; eexists; split_and!; try done.
    + by apply rebuild_all_ok.
    + split; [done|]. by apply Hd1.
  - unfold update_functions.
    destruct (reconcile_functions_spec l c Hs) as (ch & c1 & -> & Hs1 & Hv1 & _ & _ & Hd1 & Ho1).
    simpl. destruct ch; simpl; eexists; split_and!; try done.
    + apply rebuild_relationships_ok; [done|]. apply Ho1, Hd.
    + split; [done|]. by apply Hd1.
  - eexists. split; [done|]. unfold update_topic_types.
    destruct (patch_map _ _) as [ch m']. destruct ch, Hs, Hd; by split_and!; [split; split|].
Qed.

Fixpoint cache_run (ops : list cache_op) c : option (EntityCache Payload) :=
  match ops with
  | [] => Some c
  | op :: ops' => c' ← cache_step op c; cache_run ops' c'
  end.

Lemma cache_run_ok ops : ∀ c,
  cache_ok c →
  ∃ c', cache_run ops c = Some c' ∧ cache_ok c' ∧
    views c' = foldl (λ v op, views_step op v) (views c) ops.
Proof.
  induction ops as [|op ops IH]; intros c Hok; simpl; [by eexists|].
  destruct (cache_step_ok op c Hok) as (c1 & -> & Hok1 & Hv1). simpl.
  destruct (IH c1 Hok1) as (c2 & ? & ? & Hv2). exists c2. split_and!; [done..|]. by rewrite Hv2, Hv1.
Qed.
End CacheSpec.

Arguments cache_op : clear implicits.
Arguments Views : clear implicits.

Section CacheClaims.
Context {Payload : Type} `{EqDecision Payload, Inhabited Payload}.

(** Every sequence of cache updates succeeds (no slot is used after being
    freed) and afterwards each lookup by id answers from the last discovered
    list of its kind: the cache refines four plain maps.  The entity type of an
    id follows the order component, app, area, function. *)
Theorem cache_lookups_refine (ops : list (cache_op Payload)) :
  ∃ c, cache_run ops empty_cache = Some c ∧
    let v := foldl (λ v op, views_step op v) (mkViews ∅ ∅ ∅ ∅) ops in
    ∀ id, get_area id c = v_areas v !! id ∧ get_component id c = v_components v !! id ∧
      get_app id c = v_apps v !! id ∧ get_function id c = v_functions v !! id ∧
      get_entity_type id c =
        match v_components v !! id, v_apps v !! id, v_areas v !! id, v_functions v !! id with
        | Some _, _, _, _ => COMPONENT
        | None, Some _, _, _ => APP
        | None, None, Some _, _ => AREA
        | None, None, None, Some _ => FUNCTION
        | None, None, None, None => UNKNOWN
        end.
Proof.
  destruct (cache_run_ok ops empty_cache empty_cache_ok) as (c & Hrun & [Hs _] & Hv).
  exists c. split; [done|]. change (views empty_cache) with (mkViews ∅ ∅ ∅ ∅ : Views Payload) in Hv.
  rewrite <- Hv. intros v id. subst v. destruct Hs as [Ha Hc Hp Hf].
  assert (Hl : ∀ {T} `{Entity T} (s : SlotStore T) idx, store_ok s idx →
    match live_index s idx id with Some _ => is_Some (view s idx !! id)
    | None => view s idx !! id = None end).
  { intros T HT s idx Hok. rewrite <- (get_by_id_view s idx id Hok). unfold get_by_id, live_index.
    destruct (idx !! id) as [n|] eqn:E; simpl; [|done].
    destruct (index_live s idx id n Hok E) as [-> (e & He & _)]. simpl. by rewrite He. }
  split_and!; [by apply get_by_id_view..|].
  unfold get_entity_type, find_entity, views. simpl.
  pose proof (Hl _ _ _ _ Hc) as H1. pose proof (Hl _ _ _ _ Hp) as H2.
  pose proof (Hl _ _ _ _ Ha) as H3. pose proof (Hl _ _ _ _ Hf) as H4.
  destruct (live_index (components_ c) _ id); [destruct H1 as [? ->]; done|rewrite H1].
  destruct (live_index (apps_ c) _ id); [destruct H2 as [? ->]; done|rewrite H2].
  destruct (live_index (areas_ c) _ id); [destruct H3 as [? ->]; done|rewrite H3].
  destruct (live_index (functions_ c) _ id); [destruct H4 as [? ->]; done|by rewrite H4].
Qed.

(** After any sequence of updates the relationship queries are up to date: the
    apps of a component, the components of an area and the sub-areas of an area
    are exactly the cached entities that name it as parent, in slot order; the
    empty id has none. *)
Theorem cache_relationships_current (ops : list (cache_op Payload)) :
  ∃ c, cache_run ops empty_cache = Some c ∧ ∀ id,
    get_apps_for_component id c =
      (if id =?ₛ "" then [] else app_id <$> filter (λ a, app_component_id a = id) (get_apps c)) ∧
    get_components_for_area id c =
      (if id =?ₛ "" then [] else comp_id <$> filter (λ x, comp_area x = id) (get_components c)) ∧
    get_subareas id c =
      (if id =?ₛ "" then [] else
         area_id <$> filter (λ a, area_parent_area_id a = id) (get_areas c)).
Proof.
  destruct (cache_run_ok ops empty_cache empty_cache_ok) as (c & Hrun & [_ []] & _).
  exists c. split; [done|]. intros id.
  unfold get_apps_for_component, get_components_for_area, get_subareas.
  rewrite dk_comp_apps0, dk_area_comps0, dk_area_subs0, !ids_for_group_by. done.
Qed.
End CacheClaims.
