(* ===== verification/EntityMembers.v ===== *)
(** * Members of a grouping

    [ThreadSafeEntityCache::get_members]: the one traversal that resolves an
    area, component or function to the entities it groups.  Component and area
    hierarchies may contain cycles; the walk carries the set of ids it has seen.
    [collect_component] and [collect_area] recurse through the cache's indexes,
    so they take fuel; [get_members_exact] shows that the fuel given is enough. *)

From S2P Require Import Prelude SlotStore SlotStoreSpec EntityCache EntityCacheSpec.

(** A loop whose body may run out of fuel. *)
Fixpoint fold_opt {A S} (f : A → S → option S) (l : list A) (s : S) : option S :=
  match l with
  | [] => Some s
  | x :: l' => s' ← f x s; fold_opt f l' s'
  end.

Record walk := mkWalk { w_members : list string; w_seen : gset string }.

Definition start_walk : walk := mkWalk [] ∅.

(** The lambda [add]. *)
Definition add (id : string) (w : walk) : walk :=
  if (id =?ₛ "") || bool_decide (id ∈ w_seen w) then w
  else mkWalk (w_members w ++ [id]) ({[ id ]} ∪ w_seen w).

(** [seen.insert("area:" + id)]. *)
Definition area_key (id : string) : string := "area:" +:+ id.

Definition mark_area (id : string) (w : walk) : walk :=
  mkWalk (w_members w) ({[ area_key id ]} ∪ w_seen w).

Lemma size_list_to_set_le (l : list string) :
  (size (list_to_set l : gset string) ≤ length l)%nat.
Proof.
  induction l as [|x l IH]; simpl; [done|].
  rewrite size_union_alt, size_singleton. apply le_n_S. etrans; [|exact IH].
  apply subseteq_size. set_solver.
Qed.

Lemma fresh_shrinks (X s : gset string) y :
  y ∈ X → y ∉ s → (size (X ∖ ({[ y ]} ∪ s)) < size (X ∖ s))%nat.
Proof. intros. apply subset_size. set_solver. Qed.

Section Members.
Context {Payload : Type} `{EqDecision Payload, Inhabited Payload}.
Implicit Types (c : EntityCache Payload).

Definition get_subcomponents (id : string) c : list string :=
  ids_for (components_ c) (component_to_subcomponents_ c) id.

Definition get_components_for_function (id : string) c : list string :=
  ids_for (components_ c) (function_to_components_ c) id.

Fixpoint collect_component (fuel : nat) c (id : string) (w : walk) : option walk :=
  match fuel with
  | O => None
  | S fuel' =>
      let w := foldl (λ w a, add a w) (add id w) (get_apps_for_component id c) in
      fold_opt (λ child w,
        if bool_decide (child ∈ w_seen w) then Some w else collect_component fuel' c child w)
        (get_subcomponents id c) w
  end.

(** One nested call per component at most. *)
Definition component_fuel c : nat := S (slot_count (components_ c)).

Fixpoint collect_area (fuel : nat) c (id : string) (w : walk) : option walk :=
  match fuel with
  | O => None
  | S fuel' =>
      w ← fold_opt (collect_component (component_fuel c) c) (get_components_for_area id c) w;
      fold_opt (λ sub w,
        if bool_decide (area_key sub ∈ w_seen w) then Some w
        else collect_area fuel' c sub (mark_area sub w)) (get_subareas id c) w
  end.

Definition area_fuel c : nat := S (slot_count (areas_ c)).

Definition get_members (type : SovdEntityType) (id : string) c : option (list string) :=
  w_members <$>
  match type with
  | AREA => collect_area (area_fuel c) c id (mark_area id start_walk)
  | COMPONENT => collect_component (component_fuel c) c id start_walk
  | FUNCTION =>
      fold_opt (collect_component (component_fuel c) c) (get_components_for_function id c)
        (foldl (λ w a, add a w) start_walk (get_apps_for_function id c))
  | APP | SERVER | UNKNOWN => Some (add id start_walk)
  end.

(** ** What the members are *)

(** A component with its apps and, transitively, its subcomponents. *)
Inductive component_member c : string → string → Prop :=
  | cm_self id : component_member c id id
  | cm_app id app :
      app ∈ get_apps c → app_component_id app = id → id ≠ "" →
      component_member c id (app_id app)
  | cm_sub id comp m :
      comp ∈ get_components c → comp_parent_component_id comp = id → id ≠ "" →
      component_member c (comp_id comp) m → component_member c id m.

(** The components of an area with their members, transitively of its subareas. *)
Inductive area_member c : string → string → Prop :=
  | am_component id comp m :
      comp ∈ get_components c → comp_area comp = id → id ≠ "" →
      component_member c (comp_id comp) m → area_member c id m
  | am_sub id area m :
      area ∈ get_areas c → area_parent_area_id area = id → id ≠ "" →
      area_member c (area_id area) m → area_member c id m.

(** The hosts of a function: an app stands for itself, a host that is no app
    but a component for its members. *)
Definition function_member c (id m : string) : Prop :=
  ∃ f host, f ∈ get_functions c ∧ func_id f = id ∧ host ∈ func_hosts f ∧
    if has_app host c then m = host
    else has_component host c = true ∧ component_member c host m.

Definition is_member c (type : SovdEntityType) (id m : string) : Prop :=
  match type with
  | AREA => area_member c id m
  | COMPONENT => component_member c id m
  | FUNCTION => function_member c id m
  | APP | SERVER | UNKNOWN => m = id
  end.

(** Ids are not shared between apps, components and the keys the walk uses for
    areas. *)
Record ids_distinct c : Prop := {
  id_app_component : ∀ a x, a ∈ get_apps c → x ∈ get_components c → app_id a ≠ comp_id x;
  id_component_area : ∀ x k, x ∈ get_components c → comp_id x ≠ area_key k;
  id_app_area : ∀ a k, a ∈ get_apps c → app_id a ≠ area_key k;
}.

(** ** Edges *)

Lemma elem_of_grouped_ids {T} `{Entity T} (f : T → string) (s : SlotStore T) k m :
  m ∈ ids_for s (group_by f s) k ↔
    ∃ e, e ∈ collect_live s ∧ f e = k ∧ k ≠ "" ∧ entity_id e = m.
Proof.
  rewrite ids_for_group_by. destruct (k =?ₛ "") eqn:E; bool_simpl; [set_solver|].
  rewrite list_elem_of_fmap. setoid_rewrite list_elem_of_filter. naive_solver.
Qed.

Lemma elem_of_apps_for c id m :
  cache_ok c →
  m ∈ get_apps_for_component id c ↔
    ∃ a, a ∈ get_apps c ∧ app_component_id a = id ∧ id ≠ "" ∧ app_id a = m.
Proof.
  intros [_ Hd]. unfold get_apps_for_component. rewrite (dk_comp_apps _ Hd).
  by rewrite elem_of_grouped_ids.
Qed.

Lemma elem_of_subcomponents c id m :
  cache_ok c →
  m ∈ get_subcomponents id c ↔
    ∃ x, x ∈ get_components c ∧ comp_parent_component_id x = id ∧ id ≠ "" ∧ comp_id x = m.
Proof.
  intros [_ Hd]. unfold get_subcomponents. rewrite (dk_comp_subs _ Hd).
  by rewrite elem_of_grouped_ids.
Qed.

Lemma elem_of_components_for_area c id m :
  cache_ok c →
  m ∈ get_components_for_area id c ↔
    ∃ x, x ∈ get_components c ∧ comp_area x = id ∧ id ≠ "" ∧ comp_id x = m.
Proof.
  intros [_ Hd]. unfold get_components_for_area. rewrite (dk_area_comps _ Hd).
  by rewrite elem_of_grouped_ids.
Qed.

Lemma elem_of_subareas c id m :
  cache_ok c →
  m ∈ get_subareas id c ↔
    ∃ a, a ∈ get_areas c ∧ area_parent_area_id a = id ∧ id ≠ "" ∧ area_id a = m.
Proof.
  intros [_ Hd]. unfold get_subareas. rewrite (dk_area_subs _ Hd). by rewrite elem_of_grouped_ids.
Qed.

(** ** Steps of the walk *)

(** The component ids in the cache. *)
Definition component_ids c : gset string := list_to_set (comp_id <$> get_components c).

Lemma elem_of_component_ids c id :
  id ∈ component_ids c ↔ ∃ x, x ∈ get_components c ∧ comp_id x = id.
Proof. unfold component_ids. set_solver. Qed.

(** The apps and subcomponents of [x] have been seen. *)
Definition expanded c (x : string) (seen : gset string) : Prop :=
  (∀ a, a ∈ get_apps_for_component x c → a ≠ "" → a ∈ seen) ∧
  (∀ y, y ∈ get_subcomponents x c → y ≠ "" → y ∈ seen).

(** [w'] extends [w] by members that satisfy [R] and keys that satisfy [K]. *)
Record grows (R K : string → Prop) (w w' : walk) : Prop := {
  gr_seen : w_seen w ⊆ w_seen w';
  gr_members : ∃ new, w_members w' = w_members w ++ new ∧ NoDup new ∧
    ∀ m, m ∈ new → m ∉ w_seen w ∧ m ∈ w_seen w' ∧ m ≠ "" ∧ R m;
  gr_new : ∀ x, x ∈ w_seen w' → x ∈ w_seen w ∨ (x ∈ w_members w' ∧ R x) ∨ K x;
}.

(** Every component added on the way is expanded. *)
Definition all_expanded c (w w' : walk) : Prop :=
  ids_distinct c → ∀ x, x ∈ w_seen w' → x ∉ w_seen w → x ∈ component_ids c →
    expanded c x (w_seen w').

Definition extends c (R K : string → Prop) (w w' : walk) : Prop :=
  grows R K w w' ∧ all_expanded c w w'.

Lemma expanded_mono c x s s' : s ⊆ s' → expanded c x s → expanded c x s'.
Proof. intros Hs [H1 H2]. split; intros; apply Hs; auto. Qed.

Lemma grows_refl R K w : grows R K w w.
Proof.
  split; [done| |by left].
  exists []. rewrite app_nil_r. split_and!; [done|apply NoDup_nil_2|set_solver].
Qed.

Lemma grows_trans R K w1 w2 w3 : grows R K w1 w2 → grows R K w2 w3 → grows R K w1 w3.
Proof.
  intros [Hs1 (n1 & Hm1 & Hnd1 & Hn1) Hnew1] [Hs2 (n2 & Hm2 & Hnd2 & Hn2) Hnew2]. split.
  - set_solver.
  - exists (n1 ++ n2). rewrite Hm2, Hm1, app_assoc. split_and!; [done| |].
    + apply NoDup_app. split_and!; [done| |done]. intros m (_ & Hm & _)%Hn1 (Hm' & _)%Hn2. done.
    + intros m [Hm%Hn1|Hm%Hn2]%elem_of_app; set_solver.
  - intros x [Hx|Hx]%Hnew2; [|by right].
    apply Hnew1 in Hx as [?|[[Hx ?]|?]]; [by left| |by right; right].
    right; left. rewrite Hm2. set_solver.
Qed.

Lemma extends_refl c R K w : extends c R K w w.
Proof. split; [apply grows_refl|by intros ????]. Qed.

Lemma extends_trans c R K w1 w2 w3 :
  extends c R K w1 w2 → extends c R K w2 w3 → extends c R K w1 w3.
Proof.
  intros [Hg1 He1] [Hg2 He2]. split; [by eapply grows_trans|].
  intros Hd x Hx Hx1 Hc. destruct (decide (x ∈ w_seen w2)); [|by apply He2].
  eapply expanded_mono; [apply (gr_seen _ _ _ _ Hg2)|]. by apply He1.
Qed.

Lemma extends_weaken c (R R' K K' : string → Prop) w w' :
  (∀ x, R x → R' x) → (∀ x, K x → K' x) → extends c R K w w' → extends c R' K' w w'.
Proof.
  intros HR HK [[Hs (n & ? & ? & Hn) Hnew] He]. split; [|done]. split; [done| |].
  - exists n. split_and!; [done..|]. intros m Hm%Hn. naive_solver.
  - intros x Hx%Hnew. naive_solver.
Qed.

Lemma extends_seen c R K w w' : extends c R K w w' → w_seen w ⊆ w_seen w'.
Proof. intros [[]]. done. Qed.

Lemma elem_of_add id w x : x ∈ w_seen (add id w) ↔ x ∈ w_seen w ∨ x = id ∧ id ≠ "".
Proof.
  unfold add. destruct (id =?ₛ "") eqn:E; bool_simpl; simpl; [naive_solver|].
  case_bool_decide; simpl; set_solver.
Qed.

Lemma add_grows (R K : string → Prop) id w : R id → grows R K w (add id w).
Proof.
  intros HR. unfold add. destruct (id =?ₛ "") eqn:E; bool_simpl; simpl; [apply grows_refl|].
  case_bool_decide as Hs; [apply grows_refl|]. split; simpl; [set_solver| |].
  - exists [id]. split_and!; [done|apply NoDup_singleton|]. intros m ->%list_elem_of_singleton. set_solver.
  - intros x [->%elem_of_singleton|?]%elem_of_union; [right; left; set_solver|by left].
Qed.

(** Adding an id that is not a component. *)
Lemma add_extends c (R K : string → Prop) id w :
  R id → (ids_distinct c → id ∉ component_ids c) → extends c R K w (add id w).
Proof.
  intros HR Hc. split; [by apply add_grows|].
  intros Hd x [?|[-> _]]%elem_of_add Hx Hxc; [done|]. by destruct (Hc Hd).
Qed.

Lemma add_all_extends c (R K : string → Prop) ids w :
  (∀ id, id ∈ ids → R id) → (ids_distinct c → ∀ id, id ∈ ids → id ∉ component_ids c) →
  let w' := foldl (λ w a, add a w) w ids in
  extends c R K w w' ∧ ∀ id, id ∈ ids → id ≠ "" → id ∈ w_seen w'.
Proof.
  revert w. induction ids as [|id ids IH]; intros w HR Hc; simpl.
  { split; [apply extends_refl|set_solver]. }
  destruct (IH (add id w)) as [Hext Hall]; [set_solver..|]. split.
  - eapply extends_trans; [|exact Hext]. apply add_extends; set_solver.
  - intros x [->|Hx]%elem_of_cons Hne; [|by apply Hall].
    apply (extends_seen _ _ _ _ _ Hext), elem_of_add. by right.
Qed.

(** ** Components *)

Lemma app_not_component c x m :
  cache_ok c → ids_distinct c → m ∈ get_apps_for_component x c → m ∉ component_ids c.
Proof.
  intros Hok Hd (a & Ha & _ & _ & <-)%(elem_of_apps_for c _ _ Hok) (y & Hy & Heq)%elem_of_component_ids.
  by apply (id_app_component c Hd a y).
Qed.

(** What a call of [collect_component] on [id] does to the walk. *)
Definition component_walked c (id : string) (w w' : walk) : Prop :=
  extends c (component_member c id) (λ _, False) w w' ∧ (id ≠ "" → id ∈ w_seen w') ∧
  (ids_distinct c → expanded c id (w_seen w')).

(** The loop over the subcomponents of [p], given what the nested calls do. *)
Lemma subcomponents_walked c p rec fuel l w :
  cache_ok c → (∀ y, y ∈ l → y ∈ get_subcomponents p c) →
  (∀ y w, (size (component_ids c ∖ ({[ y ]} ∪ w_seen w)) < fuel)%nat →
     ∃ w', rec y w = Some w' ∧ component_walked c y w w') →
  (size (component_ids c ∖ w_seen w) ≤ fuel)%nat →
  ∃ w', fold_opt (λ y w, if bool_decide (y ∈ w_seen w) then Some w else rec y w) l w = Some w' ∧
    extends c (component_member c p) (λ _, False) w w' ∧
    ∀ y, y ∈ l → y ≠ "" → y ∈ w_seen w'.
Proof.
  intros Hok. revert w. induction l as [|y l IH]; intros w Hl Hrec Hsize; simpl.
  { exists w. split_and!; [done|apply extends_refl|set_solver]. }
  destruct (proj1 (elem_of_subcomponents c p y Hok) (Hl y ltac:(left)))
    as (x & Hx & Hp & Hne & Hy).
  assert (∃ w1, (if bool_decide (y ∈ w_seen w) then Some w else rec y w) = Some w1 ∧
    extends c (component_member c p) (λ _, False) w w1 ∧ (y ≠ "" → y ∈ w_seen w1))
    as (w1 & -> & Hext & Hin).
  { case_bool_decide as Hs; [exists w; split_and!; [done|apply extends_refl|done]|].
    destruct (Hrec y w) as (w1 & Hw1 & Hext & Hin & _).
    { eapply Nat.lt_le_trans; [|exact Hsize]. apply fresh_shrinks; [|done].
      apply elem_of_component_ids. eauto. }
    exists w1. split_and!; [exact Hw1| |done]. eapply extends_weaken; [| |exact Hext]; [|done].
    intros z Hz. subst y. by eapply cm_sub. }
  simpl. destruct (IH w1) as (w2 & -> & Hext2 & Hall); [set_solver|done| |].
  { etrans; [|exact Hsize]. apply subseteq_size. pose proof (extends_seen _ _ _ _ _ Hext). set_solver. }
  exists w2. split_and!; [done|by eapply extends_trans|].
  intros z [->|Hz]%elem_of_cons Hzne; [|by apply Hall].
  by apply (extends_seen _ _ _ _ _ Hext2), Hin.
Qed.

Lemma collect_component_walked c fuel id w :
  cache_ok c → (size (component_ids c ∖ ({[ id ]} ∪ w_seen w)) < fuel)%nat →
  ∃ w', collect_component fuel c id w = Some w' ∧ component_walked c id w w'.
Proof.
  intros Hok. revert id w. induction fuel as [|fuel IH]; intros id w Hsize; [lia|]. simpl.
  destruct (add_all_extends c (component_member c id) (λ _, False)
    (get_apps_for_component id c) (add id w)) as [Hext1 Happs].
  { intros m (a & ? & ? & ? & <-)%(elem_of_apps_for c _ _ Hok). by eapply cm_app. }
  { intros Hd m Hm. by eapply app_not_component. }
  set (w1 := foldl _ (add id w) _) in *.
  assert (Hseen1 : w_seen w ⊆ w_seen w1).
  { intros x Hx. apply (extends_seen _ _ _ _ _ Hext1), elem_of_add. by left. }
  assert (Hid1 : id ≠ "" → id ∈ w_seen w1).
  { intros Hne. apply (extends_seen _ _ _ _ _ Hext1), elem_of_add. by right. }
  assert (∃ w', fold_opt (λ y w, if bool_decide (y ∈ w_seen w) then Some w
      else collect_component fuel c y w) (get_subcomponents id c) w1 = Some w' ∧
    extends c (component_member c id) (λ _, False) w1 w' ∧
    ∀ y, y ∈ get_subcomponents id c → y ≠ "" → y ∈ w_seen w') as (w' & Hfold & Hext2 & Hsubs).
  { destruct (decide (id = "")) as [->|Hne].
    - assert (get_subcomponents "" c = []) as ->.
      { apply elem_of_nil_inv. intros y (?&?&?&?&?)%(elem_of_subcomponents c _ _ Hok). done. }
      exists w1. split_and!; [done|apply extends_refl|set_solver].
    - apply (subcomponents_walked c id _ fuel); [done|done|by intros; apply IH|].
      apply Nat.lt_succ_r. eapply Nat.le_lt_trans; [|exact Hsize].
      apply subseteq_size. specialize (Hid1 Hne). set_solver. }
  exists w'. split; [exact Hfold|].
  assert (Hexp : ids_distinct c → expanded c id (w_seen w')).
  { intros _. split; [|done]. intros a Ha Hne. by apply (extends_seen _ _ _ _ _ Hext2), Happs. }
  split_and!; [|intros Hne; by apply (extends_seen _ _ _ _ _ Hext2), Hid1|done].
  pose proof (extends_trans _ _ _ _ _ _ Hext1 Hext2) as [Hg He]. split.
  - eapply grows_trans; [apply add_grows; constructor|exact Hg].
  - intros Hd x Hx Hxw Hxc. destruct (decide (x = id)) as [->|Hxid]; [by apply Hexp|].
    apply He; [done..| |done]. intros [?|[? _]]%elem_of_add; done.
Qed.
(** The components an area or a function groups, one after the other. *)
Lemma component_fuel_enough c (s : gset string) :
  (size (component_ids c ∖ s) < component_fuel c)%nat.
Proof.
  apply Nat.lt_succ_r. trans (size (component_ids c)); [apply subseteq_size; set_solver|].
  etrans; [apply size_list_to_set_le|]. rewrite length_fmap.
  unfold get_components, collect_live, live_slots, slot_count.
  rewrite length_fmap. etrans; [apply length_filter|]. by rewrite length_imap.
Qed.

Lemma components_walked c (R K : string → Prop) l w :
  cache_ok c → (∀ y m, y ∈ l → component_member c y m → R m) →
  ∃ w', fold_opt (collect_component (component_fuel c) c) l w = Some w' ∧
    extends c R K w w' ∧
    (∀ y, y ∈ l → y ≠ "" → y ∈ w_seen w') ∧
    (ids_distinct c → ∀ y, y ∈ l → expanded c y (w_seen w')).
Proof.
  intros Hok. revert w. induction l as [|y l IH]; intros w HR; cbn [fold_opt].
  { exists w. split_and!; [done|apply extends_refl|set_solver..]. }
  destruct (collect_component_walked c _ y w Hok (component_fuel_enough c _))
    as (w1 & Hw1 & Hext & Hin & Hexp).
  rewrite Hw1. cbn [mbind option_bind].
  destruct (IH w1) as (w2 & -> & Hext2 & Hall & Hexp2); [set_solver|].
  pose proof (extends_seen _ _ _ _ _ Hext2) as Hs.
  exists w2. split_and!; [done| | |].
  - eapply extends_trans; [|exact Hext2]. eapply extends_weaken; [| |exact Hext]; [|done].
    intros m. apply HR. left.
  - intros z [->|Hz]%elem_of_cons Hne; [by apply Hs, Hin|by apply Hall].
  - intros Hd z [->|Hz]%elem_of_cons; [|by apply Hexp2]. by eapply expanded_mono, Hexp.
Qed.

(** A walk that has expanded every component it saw has found every member. *)
Lemma expanded_complete c (s : gset string) id m :
  cache_ok c → (∀ x, x ∈ s → x ∈ component_ids c → expanded c x s) →
  component_member c id m → (id ≠ "" → id ∈ s) → expanded c id s → m ≠ "" → m ∈ s.
Proof.
  intros Hok Hall Hm. induction Hm as [id|id app Happ Hc Hne|id comp m Hx Hp Hne Hm IH];
    intros Hin Hexp Hmne; [by apply Hin| |].
  - apply (proj1 Hexp); [|done]. apply elem_of_apps_for; eauto.
  - assert (Hsub : comp_id comp ∈ get_subcomponents id c) by (apply elem_of_subcomponents; eauto).
    destruct (decide (comp_id comp = "")) as [Hnil|Hcne].
    + exfalso. rewrite Hnil in Hm. inversion Hm; congruence.
    + pose proof (proj2 Hexp _ Hsub Hcne) as Hs. apply IH; [done| |done].
      apply Hall; [done|]. apply elem_of_component_ids. eauto.
Qed.

(** ** Areas *)

Definition is_area_key (x : string) : Prop := ∃ a, x = area_key a.

Lemma area_key_inj a b : area_key a = area_key b → a = b.
Proof. apply (inj (String.append "area:")). Qed.

Definition area_keys c : gset string := list_to_set (area_key ∘ area_id <$> get_areas c).

(** The components and the subareas of [a] have been seen. *)
Definition area_expanded c (a : string) (seen : gset string) : Prop :=
  (∀ x, x ∈ get_components_for_area a c → x ≠ "" → x ∈ seen) ∧
  (∀ b, b ∈ get_subareas a c → area_key b ∈ seen).

Definition areas_expanded c (w w' : walk) : Prop :=
  ids_distinct c → ∀ a, area_key a ∈ w_seen w' → area_key a ∉ w_seen w →
    area_expanded c a (w_seen w').

Definition area_walked c (id : string) (w w' : walk) : Prop :=
  extends c (area_member c id) is_area_key w w' ∧
  (ids_distinct c → area_expanded c id (w_seen w')) ∧ areas_expanded c w w'.

Lemma area_expanded_mono c a s s' : s ⊆ s' → area_expanded c a s → area_expanded c a s'.
Proof. intros Hs [H1 H2]. split; intros; apply Hs; auto. Qed.

Lemma areas_expanded_trans c w1 w2 w3 :
  w_seen w2 ⊆ w_seen w3 → areas_expanded c w1 w2 → areas_expanded c w2 w3 →
  areas_expanded c w1 w3.
Proof.
  intros Hs H1 H2 Hd a Ha Hna. destruct (decide (area_key a ∈ w_seen w2)).
  - eapply area_expanded_mono; [exact Hs|]. by apply H1.
  - by apply H2.
Qed.

Lemma mark_area_extends c R a w : extends c R is_area_key w (mark_area a w).
Proof.
  split.
  - split; simpl; [set_solver| |].
    + exists []. rewrite app_nil_r. split_and!; [done|apply NoDup_nil_2|set_solver].
    + intros x [->%elem_of_singleton|?]%elem_of_union; [right; right; by eexists|by left].
  - intros Hd x [->%elem_of_singleton|?]%elem_of_union Hx Hc; [|done].
    apply elem_of_component_ids in Hc as (y & Hy & Heq). by destruct (id_component_area c Hd y a).
Qed.

Lemma component_member_not_key c id m a :
  ids_distinct c → id ∈ component_ids c → component_member c id m → m ≠ area_key a.
Proof.
  intros Hd Hid Hm. revert Hid. induction Hm as [id|id app Happ|id comp m Hx Hp Hne Hm IH]; intros Hid.
  - apply elem_of_component_ids in Hid as (x & Hx & <-). by apply (id_component_area c Hd).
  - by apply (id_app_area c Hd).
  - apply IH. apply elem_of_component_ids. eauto.
Qed.

(** Walking components adds no area key. *)
Lemma components_no_area c (l : list string) w w' :
  (∀ y, y ∈ l → y ∈ component_ids c) →
  extends c (λ m, ∃ y, y ∈ l ∧ component_member c y m) (λ _, False) w w' →
  areas_expanded c w w'.
Proof.
  intros Hl [[_ _ Hnew] _] Hd a Ha Hna.
  apply Hnew in Ha as [?|[[_ (y & Hy & Hm)]|[]]]; [done|].
  exfalso. by eapply component_member_not_key; [done|apply Hl| |].
Qed.

(** One area's own components. *)
Lemma area_components_walked c id w :
  cache_ok c →
  ∃ w', fold_opt (collect_component (component_fuel c) c) (get_components_for_area id c) w = Some w' ∧
    extends c (area_member c id) is_area_key w w' ∧ areas_expanded c w w' ∧
    ∀ x, x ∈ get_components_for_area id c → x ≠ "" → x ∈ w_seen w'.
Proof.
  intros Hok. set (l := get_components_for_area id c).
  destruct (components_walked c (λ m, ∃ y, y ∈ l ∧ component_member c y m) (λ _, False) l w)
    as (w' & Hw & Hext & Hin & _); [done|eauto|].
  exists w'. split_and!; [done| | |done].
  - eapply extends_weaken; [| |exact Hext]; [|done].
    intros m (y & (x & ? & ? & ? & <-)%(elem_of_components_for_area c _ _ Hok) & Hm).
    by eapply am_component.
  - eapply components_no_area; [|exact Hext].
    intros y (x & ? & ? & ? & <-)%(elem_of_components_for_area c _ _ Hok).
    apply elem_of_component_ids. eauto.
Qed.

(** The loop over the subareas of [p]. *)
Lemma subareas_walked c p rec fuel l w :
  cache_ok c → (∀ b, b ∈ l → b ∈ get_subareas p c) →
  (∀ b w, (size (area_keys c ∖ w_seen w) < fuel)%nat →
     ∃ w', rec b w = Some w' ∧ area_walked c b w w') →
  (size (area_keys c ∖ w_seen w) ≤ fuel)%nat →
  ∃ w', fold_opt (λ b w, if bool_decide (area_key b ∈ w_seen w) then Some w
                         else rec b (mark_area b w)) l w = Some w' ∧
    extends c (area_member c p) is_area_key w w' ∧ areas_expanded c w w' ∧
    ∀ b, b ∈ l → area_key b ∈ w_seen w'.
Proof.
  intros Hok. revert w. induction l as [|b l IH]; intros w Hl Hrec Hsize; cbn [fold_opt].
  { exists w. split_and!; [done|apply extends_refl|by intros ????|set_solver]. }
  destruct (proj1 (elem_of_subareas c p b Hok) (Hl b ltac:(left))) as (a & Ha & Hp & Hne & Hb).
  assert (∃ w1, (if bool_decide (area_key b ∈ w_seen w) then Some w
                 else rec b (mark_area b w)) = Some w1 ∧
    extends c (area_member c p) is_area_key w w1 ∧ areas_expanded c w w1 ∧
    area_key b ∈ w_seen w1) as (w1 & -> & Hext & Hexp & Hin).
  { case_bool_decide as Hs; [exists w; split_and!; [done|apply extends_refl|by intros ????|done]|].
    destruct (Hrec b (mark_area b w)) as (w1 & Hw1 & Hext & Hexpb & Hexp).
    { eapply Nat.lt_le_trans; [|exact Hsize]. apply fresh_shrinks; [|done].
      unfold area_keys. rewrite elem_of_list_to_set, list_elem_of_fmap. exists a. by subst b. }
    assert (Hin : area_key b ∈ w_seen w1) by (apply (extends_seen _ _ _ _ _ Hext); simpl; set_solver).
    exists w1. split_and!; [exact Hw1| | |done].
    - eapply extends_trans; [apply mark_area_extends|].
      eapply extends_weaken; [| |exact Hext]; [|done]. intros m Hm. subst b. by eapply am_sub.
    - intros Hd x Hx Hnx. destruct (decide (x = b)) as [->|Hxb]; [by apply Hexpb|].
      apply Hexp; [done..|]. simpl. intros [Heq%elem_of_singleton|?]%elem_of_union; [|done].
      by apply area_key_inj in Heq. }
  cbn [mbind option_bind]. pose proof (extends_seen _ _ _ _ _ Hext) as Hs1.
  destruct (IH w1) as (w2 & -> & Hext2 & Hexp2 & Hall); [set_solver|done| |].
  { etrans; [|exact Hsize]. apply subseteq_size. set_solver. }
  pose proof (extends_seen _ _ _ _ _ Hext2) as Hs2.
  exists w2. split_and!; [done|by eapply extends_trans|by eapply areas_expanded_trans|].
  intros x [->|Hx]%elem_of_cons; [by apply Hs2|by apply Hall].
Qed.

Lemma collect_area_walked c fuel id w :
  cache_ok c → (size (area_keys c ∖ w_seen w) < fuel)%nat →
  ∃ w', collect_area fuel c id w = Some w' ∧ area_walked c id w w'.
Proof.
  intros Hok. revert id w. induction fuel as [|fuel IH]; intros id w Hsize; [lia|].
  cbn [collect_area].
  destruct (area_components_walked c id w Hok) as (w1 & -> & Hext1 & Hexp1 & Hin1).
  cbn [mbind option_bind]. pose proof (extends_seen _ _ _ _ _ Hext1) as Hs1.
  destruct (subareas_walked c id (collect_area fuel c) fuel (get_subareas id c) w1)
    as (w2 & Hw2 & Hext2 & Hexp2 & Hin2); [done|done|by intros; apply IH| |].
  { apply Nat.lt_succ_r. eapply Nat.le_lt_trans; [|exact Hsize]. apply subseteq_size. set_solver. }
  pose proof (extends_seen _ _ _ _ _ Hext2) as Hs2.
  exists w2. split; [exact Hw2|]. split_and!.
  - by eapply extends_trans.
  - intros _. split; [|done]. intros x Hx Hne. by apply Hs2, Hin1.
  - by eapply areas_expanded_trans.
Qed.

Lemma area_fuel_enough c (s : gset string) : (size (area_keys c ∖ s) < area_fuel c)%nat.
Proof.
  apply Nat.lt_succ_r. trans (size (area_keys c)); [apply subseteq_size; set_solver|].
  etrans; [apply size_list_to_set_le|]. rewrite length_fmap.
  unfold get_areas, collect_live, live_slots, slot_count.
  rewrite length_fmap. etrans; [apply length_filter|]. by rewrite length_imap.
Qed.

Lemma area_expanded_complete c (s : gset string) id m :
  cache_ok c → (∀ x, x ∈ s → x ∈ component_ids c → expanded c x s) →
  (∀ a, area_key a ∈ s → area_expanded c a s) →
  area_member c id m → area_key id ∈ s → m ≠ "" → m ∈ s.
Proof.
  intros Hok Hall Hareas Hm. induction Hm as [id comp m Hx Hc Hne Hm|id area m Ha Hp Hne Hm IH];
    intros Hid Hmne; pose proof (Hareas _ Hid) as [Hcomps Hsubs].
  - destruct (decide (comp_id comp = "")) as [Hnil|Hcne].
    { exfalso. rewrite Hnil in Hm. inversion Hm; congruence. }
    assert (Hin : comp_id comp ∈ s).
    { apply Hcomps; [|done]. apply elem_of_components_for_area; eauto. }
    eapply expanded_complete; [done..| |done]. apply Hall; [done|].
    apply elem_of_component_ids. eauto.
  - apply IH; [|done]. apply Hsubs, elem_of_subareas; eauto.
Qed.

(** ** Functions *)

Lemma elem_of_ids_for {T} `{Entity T} (s : SlotStore T) map k m :
  m ∈ ids_for s map k ↔ ∃ slot, slot ∈ default [] (map !! k) ∧ is_live s slot = true ∧
    entity_id <$> items_ s !! slot = Some m.
Proof.
  unfold ids_for. rewrite list_elem_of_omap. f_equiv. intros slot.
  destruct (is_live s slot); naive_solver.
Qed.

Lemma elem_of_push_slot k n k' n' m :
  n' ∈ default [] (push_slot k n m !! k') ↔ n' ∈ default [] (m !! k') ∨ k' = k ∧ n' = n.
Proof.
  unfold push_slot. destruct (decide (k' = k)) as [->|Hne].
  - rewrite lookup_insert_eq. simpl. rewrite elem_of_app, list_elem_of_singleton. naive_solver.
  - rewrite lookup_insert_ne by done. naive_solver.
Qed.

(** Where a host id is filed. *)
Definition host_app c (host : string) : option nat := live_index (apps_ c) (app_index_ c) host.
Definition host_component c (host : string) : option nat :=
  match host_app c host with
  | Some _ => None
  | None => live_index (components_ c) (component_index_ c) host
  end.

Lemma elem_of_index_hosts c acc (f : Function_ Payload) k n :
  let acc' := index_hosts (apps_ c) (app_index_ c) (components_ c) (component_index_ c) acc f in
  (n ∈ default [] (acc'.1 !! k) ↔ n ∈ default [] (acc.1 !! k) ∨
     ∃ host, host ∈ func_hosts f ∧ func_id f = k ∧ host_app c host = Some n) ∧
  (n ∈ default [] (acc'.2 !! k) ↔ n ∈ default [] (acc.2 !! k) ∨
     ∃ host, host ∈ func_hosts f ∧ func_id f = k ∧ host_component c host = Some n).
Proof.
  unfold index_hosts, host_component, host_app. revert acc.
  induction (func_hosts f) as [|h l IH]; intros [fa fc]; cbn [foldl]; [set_solver|].
  assert (Hcons : ∀ P : string → Prop, (∃ x, x ∈ h :: l ∧ P x) ↔ P h ∨ ∃ x, x ∈ l ∧ P x) by set_solver.
  rewrite !Hcons. clear Hcons.
  destruct (live_index (apps_ c) (app_index_ c) h) as [n1|] eqn:E1;
    [|destruct (live_index (components_ c) (component_index_ c) h) as [n2|] eqn:E2];
    (split; [rewrite (proj1 (IH _))|rewrite (proj2 (IH _))]); cbn [fst snd];
    rewrite ?elem_of_push_slot; naive_solver.
Qed.

Lemma elem_of_host_indexes c k n :
  let acc := host_indexes (apps_ c) (app_index_ c) (components_ c) (component_index_ c) (functions_ c) in
  (n ∈ default [] (acc.1 !! k) ↔ ∃ f host, f ∈ get_functions c ∧ host ∈ func_hosts f ∧
     func_id f = k ∧ host_app c host = Some n) ∧
  (n ∈ default [] (acc.2 !! k) ↔ ∃ f host, f ∈ get_functions c ∧ host ∈ func_hosts f ∧
     func_id f = k ∧ host_component c host = Some n).
Proof.
  unfold host_indexes, get_functions, collect_live.
  assert (Hgen : ∀ (l : list (nat * Function_ Payload)) acc,
    let acc' := foldl (λ acc p, index_hosts (apps_ c) (app_index_ c) (components_ c)
      (component_index_ c) acc p.2) acc l in
    (n ∈ default [] (acc'.1 !! k) ↔ n ∈ default [] (acc.1 !! k) ∨
       ∃ f host, f ∈ l.*2 ∧ host ∈ func_hosts f ∧ func_id f = k ∧ host_app c host = Some n) ∧
    (n ∈ default [] (acc'.2 !! k) ↔ n ∈ default [] (acc.2 !! k) ∨
       ∃ f host, f ∈ l.*2 ∧ host ∈ func_hosts f ∧ func_id f = k ∧ host_component c host = Some n)).
  { induction l as [|[s f] l IH]; intros acc; cbn [foldl fmap list_fmap snd]; [set_solver|].
    destruct (elem_of_index_hosts c acc f k n) as [H1 H2].
    split; [rewrite (proj1 (IH _)), H1|rewrite (proj2 (IH _)), H2]; set_solver. }
  destruct (Hgen (live_slots (functions_ c)) (∅, ∅)) as [H1 H2]. simpl in H1, H2.
  rewrite lookup_empty in H1, H2. simpl in H1, H2.
  split; [rewrite H1|rewrite H2]; set_solver.
Qed.

Lemma live_index_entity {T} `{Entity T} (s : SlotStore T) idx id n :
  store_ok s idx → live_index s idx id = Some n →
  is_live s n = true ∧ entity_id <$> items_ s !! n = Some id.
Proof.
  intros Hok. unfold live_index. destruct (idx !! id) as [n'|] eqn:E; simpl; [|done].
  destruct (index_live s idx id n' Hok E) as [Hl (e & He & Hid)]. rewrite Hl.
  intros [= <-]. split; [done|]. rewrite He. simpl. by rewrite Hid.
Qed.

Lemma elem_of_apps_for_function c id m :
  cache_ok c →
  m ∈ get_apps_for_function id c ↔
    ∃ f, f ∈ get_functions c ∧ func_id f = id ∧ m ∈ func_hosts f ∧ has_app m c = true.
Proof.
  intros [Hs Hd]. unfold get_apps_for_function. rewrite elem_of_ids_for.
  pose proof (dk_hosts _ Hd) as Heq. apply (f_equal fst) in Heq. simpl in Heq. rewrite Heq.
  unfold has_app. setoid_rewrite (λ n, proj1 (elem_of_host_indexes c id n)). split.
  - intros (n & (f & host & Hf & Hh & Hid & Ha) & Hl & Hm).
    destruct (live_index_entity _ _ host n (sk_apps _ Hs) Ha) as [_ Hhost].
    assert (m = host) as -> by congruence.
    exists f. split_and!; [done..|]. apply bool_decide_eq_true. by eexists.
  - intros (f & Hf & Hid & Hh & [n Hn]%bool_decide_eq_true).
    destruct (live_index_entity _ _ m n (sk_apps _ Hs) Hn) as [Hl Hm]. exists n. eauto 10.
Qed.

Lemma elem_of_components_for_function c id m :
  cache_ok c →
  m ∈ get_components_for_function id c ↔
    ∃ f, f ∈ get_functions c ∧ func_id f = id ∧ m ∈ func_hosts f ∧
      has_app m c = false ∧ has_component m c = true.
Proof.
  intros [Hs Hd]. unfold get_components_for_function. rewrite elem_of_ids_for.
  pose proof (dk_hosts _ Hd) as Heq. apply (f_equal snd) in Heq. simpl in Heq. rewrite Heq.
  unfold has_app, has_component. setoid_rewrite (λ n, proj2 (elem_of_host_indexes c id n)).
  unfold host_component, host_app. split.
  - intros (n & (f & host & Hf & Hh & Hid & Ha) & Hl & Hm).
    destruct (live_index (apps_ c) (app_index_ c) host) eqn:E; [done|].
    destruct (live_index_entity _ _ host n (sk_components _ Hs) Ha) as [_ Hhost].
    assert (m = host) as -> by congruence.
    exists f. rewrite E. split_and!; [done..|]. apply bool_decide_eq_true. by eexists.
  - intros (f & Hf & Hid & Hh & Ha & [n Hn]%bool_decide_eq_true).
    destruct (live_index_entity _ _ m n (sk_components _ Hs) Hn) as [Hl Hm]. exists n.
    destruct (live_index (apps_ c) (app_index_ c) m) eqn:E;
      [by rewrite bool_decide_eq_false in Ha; destruct Ha|].
    split_and!; [|done..]. exists f, m. rewrite E. eauto.
Qed.

(** ** Resolution *)

(** From the empty walk, members and seen ids are the same up to keys. *)
Lemma grows_start R K w w' :
  grows R K w w' → w_members w = [] →
  NoDup (w_members w') ∧ (∀ m, m ∈ w_members w' → m ≠ "" ∧ R m) ∧
  (∀ x, x ∈ w_seen w' → x ∈ w_seen w ∨ x ∈ w_members w' ∨ K x).
Proof.
  intros [_ (new & Hm & Hnd & Hnew) Hseen] Hnil. rewrite Hnil in Hm. simpl in Hm. rewrite Hm in *.
  split_and!; [done|intros m Hin; by apply Hnew in Hin as (_ & _ & ? & ?)|].
  intros x Hx%Hseen. naive_solver.
Qed.

Lemma component_members c id :
  cache_ok c → ∃ w, collect_component (component_fuel c) c id start_walk = Some w ∧
    NoDup (w_members w) ∧ (∀ m, m ∈ w_members w → m ≠ "" ∧ component_member c id m) ∧
    (ids_distinct c → ∀ m, component_member c id m → m ≠ "" → m ∈ w_members w).
Proof.
  intros Hok.
  destruct (collect_component_walked c _ id start_walk Hok (component_fuel_enough c _))
    as (w & Hw & [Hg He] & Hin & Hexp).
  destruct (grows_start _ _ _ _ Hg eq_refl) as (Hnd & Hsound & Hseen).
  exists w. split_and!; [done..|]. intros Hd m Hm Hne.
  assert (Hs : m ∈ w_seen w).
  { eapply expanded_complete; [done| |done|done|by apply Hexp|done].
    intros x Hx. apply He; [done..|]. simpl. set_solver. }
  apply Hseen in Hs. simpl in Hs. set_solver.
Qed.

Lemma area_members c id :
  cache_ok c → ∃ w, collect_area (area_fuel c) c id (mark_area id start_walk) = Some w ∧
    NoDup (w_members w) ∧ (∀ m, m ∈ w_members w → m ≠ "" ∧ area_member c id m) ∧
    (ids_distinct c → ∀ m, area_member c id m → m ≠ "" → m ∈ w_members w).
Proof.
  intros Hok.
  destruct (collect_area_walked c _ id (mark_area id start_walk) Hok (area_fuel_enough c _))
    as (w & Hw & [Hg He] & Hexp & Hareas).
  destruct (grows_start _ _ _ _ Hg eq_refl) as (Hnd & Hsound & Hseen).
  exists w. split_and!; [done..|]. intros Hd m Hm Hne.
  assert (Hkey : ∀ x a, x ∈ component_ids c → x ≠ area_key a).
  { intros x a (y & Hy & <-)%elem_of_component_ids. by apply (id_component_area c Hd). }
  assert (Hid : area_key id ∈ w_seen w) by (apply (gr_seen _ _ _ _ Hg); simpl; set_solver).
  assert (Hs : m ∈ w_seen w).
  { eapply area_expanded_complete; [done| | |done|done|done].
    - intros x Hx Hc. apply He; [done..| |done]. simpl. specialize (Hkey x id Hc). set_solver.
    - intros a Ha. destruct (decide (a = id)) as [->|Hai]; [by apply Hexp|].
      apply Hareas; [done..|]. simpl. intros [Heq%elem_of_singleton|?]%elem_of_union; [|set_solver].
      by apply area_key_inj in Heq. }
  assert (Hnokey : ∀ a, m ≠ area_key a).
  { intros a. clear -Hm Hd. induction Hm as [id comp m Hx Hc Hne Hm|]; [|done].
    eapply component_member_not_key; [done| |done]. apply elem_of_component_ids. eauto. }
  apply Hseen in Hs as [Hs|[?|[a ->]]]; [|done|by destruct (Hnokey a)].
  simpl in Hs. specialize (Hnokey id). set_solver.
Qed.

Lemma function_members c id :
  cache_ok c → ∃ w, fold_opt (collect_component (component_fuel c) c)
      (get_components_for_function id c)
      (foldl (λ w a, add a w) start_walk (get_apps_for_function id c)) = Some w ∧
    NoDup (w_members w) ∧ (∀ m, m ∈ w_members w → m ≠ "" ∧ function_member c id m) ∧
    (ids_distinct c → ∀ m, function_member c id m → m ≠ "" → m ∈ w_members w).
Proof.
  intros Hok.
  assert (Happ : ∀ m, m ∈ get_apps_for_function id c → function_member c id m).
  { intros m (f & Hf & Hid & Hh & Ha)%(elem_of_apps_for_function c _ _ Hok).
    exists f, m. by rewrite Ha. }
  assert (Hcomp : ∀ y m, y ∈ get_components_for_function id c → component_member c y m →
    function_member c id m).
  { intros y m (f & Hf & Hid & Hh & Ha & Hc)%(elem_of_components_for_function c _ _ Hok) Hm.
    exists f, y. by rewrite Ha. }
  destruct (add_all_extends c (function_member c id) (λ _, False) (get_apps_for_function id c)
    start_walk) as [Hext1 Hin1]; [done| |].
  { intros Hd m (f & _ & _ & _ & [n Hn]%bool_decide_eq_true)%(elem_of_apps_for_function c _ _ Hok).
    intros (y & Hy & Heq)%elem_of_component_ids.
    destruct (live_index_entity _ _ m n (sk_apps _ (ck_stores _ Hok)) Hn)
      as [Hl (a & Ha & Hid)%fmap_Some].
    apply (id_app_component c Hd a y); [|done|by rewrite Heq].
    apply list_elem_of_fmap. exists (n, a). split; [done|]. by apply elem_of_live_slots. }
  set (w0 := foldl _ start_walk _) in *.
  destruct (components_walked c (function_member c id) (λ _, False)
    (get_components_for_function id c) w0 Hok Hcomp) as (w & Hw & Hext2 & Hin2 & Hexp2).
  destruct (extends_trans _ _ _ _ _ _ Hext1 Hext2) as [Hg He].
  destruct (grows_start _ _ _ _ Hg eq_refl) as (Hnd & Hsound & Hseen).
  exists w. split_and!; [done..|]. intros Hd m (f & host & Hf & Hid & Hh & Hm) Hne.
  assert (Hs : m ∈ w_seen w).
  { destruct (has_app host c) eqn:Ea.
    - subst m. apply (extends_seen _ _ _ _ _ Hext2), Hin1; [|done].
      apply elem_of_apps_for_function; eauto.
    - destruct Hm as [Hc Hm].
      assert (Hl : host ∈ get_components_for_function id c)
        by (apply elem_of_components_for_function; eauto 10).
      eapply expanded_complete; [done| |done|by apply Hin2|by apply Hexp2|done].
      intros x Hx. apply He; [done..|]. simpl. set_solver. }
  apply Hseen in Hs. simpl in Hs. set_solver.
Qed.

(** Member resolution terminates on every cache, cyclic hierarchies included,
    and returns each member once: only entities that the grouping reaches
    through apps, subcomponents, subareas and hosts, and, when ids are not
    shared between kinds, all of them. *)
Theorem get_members_exact (ops : list (cache_op Payload)) type id :
  ∃ c members, cache_run ops empty_cache = Some c ∧ get_members type id c = Some members ∧
    NoDup members ∧ (∀ m, m ∈ members → m ≠ "" ∧ is_member c type id m) ∧
    (ids_distinct c → ∀ m, is_member c type id m → m ≠ "" → m ∈ members).
Proof.
  destruct (cache_run_ok ops empty_cache empty_cache_ok) as (c & Hrun & Hok & _).
  assert (Hleaf : NoDup (w_members (add id start_walk)) ∧
    (∀ m, m ∈ w_members (add id start_walk) → m ≠ "" ∧ m = id) ∧
    (ids_distinct c → ∀ m, m = id → m ≠ "" → m ∈ w_members (add id start_walk))).
  { unfold add. destruct (id =?ₛ "") eqn:E; bool_simpl; simpl.
    - split_and!; [apply NoDup_nil_2|set_solver|]. by intros _ ? -> ?.
    - split_and!; [apply NoDup_singleton|set_solver..]. }
  exists c. unfold get_members, is_member.
  destruct type; [by eexists| | |by eexists| |by eexists].
  - destruct (area_members c id Hok) as (w & -> & ?). by exists (w_members w).
  - destruct (component_members c id Hok) as (w & -> & ?). by exists (w_members w).
  - destruct (function_members c id Hok) as (w & -> & ?). by exists (w_members w).
Qed.
End Members.

(** * The self-check

    [ThreadSafeEntityCache::validate]: in every state the writers can produce, the
    self-check has nothing to say about indexes and live counts; all it can
    report is an id shared by entities of different kinds. *)



Definition newline : string := String (ascii_of_nat 10) "".

Section Diagnostics.
Context {T : Type} `{Entity T}.

(** The lambda [check_index]; the messages in iteration order. *)
Definition check_index (what : string) (index : gmap string nat) (store : SlotStore T)
    : list string :=
  omap (λ '(id, slot),
    if (slot_count store <=? slot)%nat then
      Some (what +:+ " index out of bounds: " +:+ id +:+ " -> " +:+ pretty slot +:+ newline)
    else if negb (is_live store slot) then
      Some (what +:+ " index points to dead slot: " +:+ id +:+ " -> " +:+ pretty slot +:+ newline)
    else
      e ← items_ store !! slot;
      if entity_id e =?ₛ id then None
      else Some (what +:+ " index mismatch: " +:+ id +:+ " -> " +:+ entity_id e +:+ newline))
    (map_entries index).

Definition reachable_slot (index : gmap string nat) (p : nat * T) : bool :=
  bool_decide (index !! entity_id p.2 = Some p.1).

(** The lambda [check_live_consistency]. *)
Definition check_live_consistency (what : string) (store : SlotStore T) (index : gmap string nat)
    : list string :=
  let unreachable := filter (λ p, reachable_slot index p = false) (live_slots store) in
  let reachable := (length (live_slots store) - length unreachable)%nat in
  ((λ p : nat * T, what +:+ " live slot not reachable via index: " +:+ entity_id p.2 +:+ " (slot " +:+
       pretty p.1 +:+ ")" +:+ newline) <$> unreachable) ++
  (if (reachable =? live_count_ store)%nat then []
   else [what +:+ " live-count inconsistency: reachable=" +:+ pretty reachable +:+ " live_count=" +:+
           pretty (live_count_ store) +:+ newline]).

(** One pass of the duplicate check over the live entities of a kind. *)
Definition check_duplicates (what : string) (store : SlotStore T) (st : gset string * list string)
    : gset string * list string :=
  foldl (λ '(seen_ids, errors) e,
    if bool_decide (entity_id e ∈ seen_ids)
    then (seen_ids, errors ++ [what +:+ entity_id e +:+ newline])
    else ({[ entity_id e ]} ∪ seen_ids, errors)) st (collect_live store).
End Diagnostics.

Section Validate.
Context {Payload : Type} `{EqDecision Payload, Inhabited Payload}.
Implicit Types (c : EntityCache Payload).

Definition duplicate_errors c : list string :=
  (check_duplicates "Duplicate function ID (or conflicts with other entity): " (functions_ c)
    (check_duplicates "Duplicate app ID (or conflicts with other entity): " (apps_ c)
      (check_duplicates "Duplicate component ID (or conflicts with area): " (components_ c)
        (check_duplicates "Duplicate area ID: " (areas_ c) (∅, []))))).2.

Definition validate c : string :=
  foldr String.append ""
    (check_index "Area" (area_index_ c) (areas_ c) ++
     check_index "Component" (component_index_ c) (components_ c) ++
     check_index "App" (app_index_ c) (apps_ c) ++
     check_index "Function" (function_index_ c) (functions_ c) ++
     check_live_consistency "Area" (areas_ c) (area_index_ c) ++
     check_live_consistency "Component" (components_ c) (component_index_ c) ++
     check_live_consistency "App" (apps_ c) (app_index_ c) ++
     check_live_consistency "Function" (functions_ c) (function_index_ c) ++
     duplicate_errors c).

(** ** Indexes and counts *)

Lemma check_index_ok {T} `{Entity T} what (s : SlotStore T) idx :
  store_ok s idx → check_index what idx s = [].
Proof.
  intros Hok. unfold check_index.
  assert (Hall : ∀ p, p ∈ map_entries idx → idx !! p.1 = Some p.2)
    by (intros [k n]; apply elem_of_map_entries).
  induction (map_entries idx) as [|[id n] l IH]; [done|]. cbn [omap list_omap].
  destruct (index_live s idx id n Hok (Hall (id, n) ltac:(left))) as [Hl (e & He & Hid)].
  pose proof (lookup_lt_Some _ _ _ He). unfold slot_count.
  destruct (Nat.leb_spec (length (items_ s)) n); [lia|].
  rewrite Hl, He. cbn [negb mbind option_bind].
  rewrite (proj2 (str_eqb_eq _ _) Hid). apply IH. intros p Hp. apply Hall. by right.
Qed.

Lemma filter_live_length {T} (items : list T) : ∀ pre live,
  length live = length items →
  length (filter (λ p, default false ((pre ++ live) !! p.1) = true)
            (imap (λ i x, (length pre + i, x)) items)) =
  length (filter (λ b, b = true) live).
Proof.
  induction items as [|x items IH]; intros pre [|b live] Hlen; [done..|].
  rewrite imap_cons, !filter_cons. cbn [fst]. rewrite Nat.add_0_r, list_lookup_middle by done.
  specialize (IH (pre ++ [b]) live ltac:(simpl in Hlen; lia)).
  rewrite <- app_assoc, length_app in IH. simpl in IH.
  erewrite imap_ext in IH; [|intros i y _; rewrite <- Nat.add_assoc; reflexivity].
  simpl. destruct b; simpl; [f_equal|]; exact IH.
Qed.

Lemma length_live_slots {T} `{Entity T} (s : SlotStore T) idx :
  store_ok s idx → length (live_slots s) = live_count_ s.
Proof.
  intros Hok. rewrite (so_count _ _ Hok). unfold live_slots, is_live.
  apply (filter_live_length (items_ s) [] (live_ s)), Hok.
Qed.

Lemma check_live_ok {T} `{Entity T} what (s : SlotStore T) idx :
  store_ok s idx → check_live_consistency what s idx = [].
Proof.
  intros Hok. unfold check_live_consistency.
  assert (filter (λ p, reachable_slot idx p = false) (live_slots s) = []) as ->.
  { apply elem_of_nil_inv. intros [n e] [Hr [Hl He]%elem_of_live_slots]%list_elem_of_filter.
    unfold reachable_slot in Hr. rewrite bool_decide_eq_false in Hr. apply Hr. simpl.
    apply (so_idx _ _ Hok). rewrite He. by rewrite is_live_true in Hl. }
  simpl. by rewrite Nat.sub_0_r, (length_live_slots _ _ Hok), Nat.eqb_refl.
Qed.

(** ** Duplicates *)

Lemma check_duplicates_spec {T} `{Entity T} what (s : SlotStore T) seen errs :
  Forall (λ m, m ≠ "") errs →
  let ids := entity_id <$> collect_live s in
  let '(seen', errs') := check_duplicates what s (seen, errs) in
  Forall (λ m, m ≠ "") errs' ∧ (∀ x, x ∈ seen' ↔ x ∈ seen ∨ x ∈ ids) ∧
  (errs' = [] ↔ errs = [] ∧ NoDup ids ∧ ∀ x, x ∈ ids → x ∉ seen).
Proof.
  unfold check_duplicates. revert seen errs.
  induction (collect_live s) as [|e l IH]; intros seen errs Herrs; cbn [foldl].
  { split_and!; [done|set_solver|]. split; [|naive_solver].
    intros ->. split_and!; [done|apply NoDup_nil_2|set_solver]. }
  rewrite fmap_cons. case_bool_decide as He.
  - specialize (IH seen (errs ++ [what +:+ entity_id e +:+ newline])).
    destruct (foldl _ _ l) as [seen' errs'].
    destruct IH as (H1 & H2 & H3).
    { apply Forall_app. split; [done|]. constructor; [|constructor].
      by destruct what, (entity_id e). }
    split_and!; [done|intros x; rewrite H2; set_solver|]. rewrite H3. split.
    + intros [Hnil _]. by destruct errs.
    + intros (_ & _ & Hno). destruct (Hno (entity_id e)); [left|done].
  - specialize (IH ({[ entity_id e ]} ∪ seen) errs Herrs). destruct (foldl _ _ l) as [seen' errs'].
    destruct IH as (H1 & H2 & H3).
    split_and!; [done|intros x; rewrite H2; set_solver|]. rewrite H3, NoDup_cons. set_solver.
Qed.

Lemma concat_messages (l : list string) :
  Forall (λ m, m ≠ "") l → foldr String.append "" l = "" ↔ l = [].
Proof. destruct 1 as [|m l Hm _]; [done|]. simpl. by destruct m. Qed.

(** After any sequence of updates the self-check passes exactly when no id is
    used twice across areas, components, apps and functions: indexes and live
    counts are never inconsistent. *)
Theorem validate_reports_shared_ids (ops : list (cache_op Payload)) :
  ∃ c, cache_run ops empty_cache = Some c ∧
    (validate c = "" ↔
     NoDup ((area_id <$> get_areas c) ++ (comp_id <$> get_components c) ++
            (app_id <$> get_apps c) ++ (func_id <$> get_functions c))).
Proof.
  destruct (cache_run_ok ops empty_cache empty_cache_ok) as (c & Hrun & [[Ha Hc Hp Hf] _] & _).
  exists c. split; [done|]. unfold validate.
  rewrite !check_index_ok, !check_live_ok by done. cbn [app]. unfold duplicate_errors.
  pose proof (check_duplicates_spec "Duplicate area ID: " (areas_ c) ∅ [] (Forall_nil_2 _)) as H1.
  destruct (check_duplicates _ (areas_ c) _) as [s1 e1]. destruct H1 as (F1 & S1 & E1).
  pose proof (check_duplicates_spec "Duplicate component ID (or conflicts with area): "
    (components_ c) s1 e1 F1) as H2.
  destruct (check_duplicates _ (components_ c) _) as [s2 e2]. destruct H2 as (F2 & S2 & E2).
  pose proof (check_duplicates_spec "Duplicate app ID (or conflicts with other entity): "
    (apps_ c) s2 e2 F2) as H3.
  destruct (check_duplicates _ (apps_ c) _) as [s3 e3]. destruct H3 as (F3 & S3 & E3).
  pose proof (check_duplicates_spec "Duplicate function ID (or conflicts with other entity): "
    (functions_ c) s3 e3 F3) as H4.
  destruct (check_duplicates _ (functions_ c) _) as [s4 e4]. destruct H4 as (F4 & S4 & E4).
  cbn [snd]. rewrite concat_messages by done. rewrite E4, E3, E2, E1, !NoDup_app.
  setoid_rewrite S3. setoid_rewrite S2. setoid_rewrite S1. set_solver.
Qed.
End Validate.
