(* ===== verification/LockManager.v ===== *)
(** * Entity locks

    [LockManager] (gateway core/managers/lock_manager.cpp): exclusive,
    expiring locks on entities, with per-entity configuration and propagation
    down the area / component / app hierarchy.  Writers hold the exclusive
    mutex, so each method is one function on the state.  Each
    [steady_clock::now()] a method reads is an argument (nanoseconds).

    The manager sees the entity cache through [EntityDirectory]. *)

From S2P Require Import Prelude SlotStore SlotStoreSpec EntityCache.

(** ** What the lock manager needs of the entity cache *)

Class EntityDirectory (C : Type) := {
  dir_entity_type : string → C → SovdEntityType;
  dir_app_component : string → C → option string;      (* get_app(id)->component_id *)
  dir_component_area : string → C → option string;     (* get_component(id)->area *)
}.

#[export] Instance cache_directory {Payload} `{EqDecision Payload, Inhabited Payload}
    : EntityDirectory (EntityCache Payload) :=
  {| dir_entity_type := get_entity_type;
     dir_app_component := λ id c, app_component_id <$> get_app id c;
     dir_component_area := λ id c, comp_area <$> get_component id c |}.

(** ** Data *)

Record EntityLockConfig := mkEntityLockConfig {
  required_scopes : list string;
  cfg_breakable : bool;
  max_expiration : Z;                        (* int *)
}.

Definition default_entity_config : EntityLockConfig := mkEntityLockConfig [] true 0.

Record LockConfig := mkLockConfig {
  lock_enabled : bool;
  default_max_expiration : Z;
  cleanup_interval : Z;
  type_defaults : gmap string EntityLockConfig;
  entity_overrides : gmap string EntityLockConfig;
}.

Record LockInfo := mkLock {
  lk_lock_id : string;
  lk_entity_id : string;
  lk_client_id : string;
  lk_scopes : list string;
  lk_breakable : bool;
  lk_created_at : Z;
  lk_expires_at : Z;
  lk_expiration_seconds : Z;
}.

Record LockError := mkLockError {
  le_code : string;
  le_message : string;
  le_status_code : Z;
  le_existing_lock_id : option string;
}.

Record LockAccessResult := mkAccess {
  ar_allowed : bool;
  ar_denied_by_lock_id : string;
  ar_denied_reason : string;
  ar_denied_code : string;
}.

Definition access_allowed : LockAccessResult := mkAccess true "" "" "".

Record ExpiredLockInfo := mkExpired {
  ex_lock_id : string;
  ex_entity_id : string;
  ex_client_id : string;
  ex_scopes : list string;
}.

Definition valid_lock_scopes : list string :=
  ["data"; "operations"; "configurations"; "faults"; "modes"; "scripts"; "bulk-data"; "logs";
   "cyclic-subscriptions"].

Record LockManager := mkLocks {
  lm_config : LockConfig;
  locks_ : gmap string LockInfo;             (* by entity id *)
  lock_id_index_ : gmap string string;       (* lock id -> entity id *)
  next_id_ : N;                              (* uint64_t *)
}.

Definition new_lock_manager (config : LockConfig) : LockManager := mkLocks config ∅ ∅ 1.

Definition with_locks (l : gmap string LockInfo) (i : gmap string string) (m : LockManager)
    : LockManager := mkLocks (lm_config m) l i (next_id_ m).

(** ** Helpers *)

Definition seconds (n : Z) : Z := n * 1000000000.

Definition lock_id_of (n : N) : string := "lock_" +:+ pretty n.

Definition generate_lock_id (m : LockManager) : string * LockManager :=
  (lock_id_of (next_id_ m),
   mkLocks (lm_config m) (locks_ m) (lock_id_index_ m)
     ((next_id_ m + 1) `mod` 18446744073709551616)%N).

Definition get_entity_config (entity_id entity_type : string) (m : LockManager)
    : EntityLockConfig :=
  match entity_overrides (lm_config m) !! entity_id with
  | Some c => c
  | None => default default_entity_config (type_defaults (lm_config m) !! entity_type)
  end.

Definition entity_type_string (t : SovdEntityType) : string :=
  match t with
  | AREA => "area" | COMPONENT => "component" | APP => "app"
  | SERVER | FUNCTION | UNKNOWN => "unknown"
  end.

Definition lock_covers_collection (lock : LockInfo) (collection : string) : bool :=
  bool_decide (lk_scopes lock = []) || bool_decide (collection ∈ lk_scopes lock).

(** Removing a lock from both maps. *)
Definition drop_lock (entity : string) (lock : LockInfo) (m : LockManager) : LockManager :=
  with_locks (delete entity (locks_ m)) (delete (lk_lock_id lock) (lock_id_index_ m)) m.

Definition lock_disabled : LockError :=
  mkLockError "lock-disabled" "Locking is not enabled on this gateway" 403 None.

Section LockManager.
Context {C : Type} `{EntityDirectory C}.
Variable cache : C.

Definition get_entity_type_string (entity : string) : string :=
  entity_type_string (dir_entity_type entity cache).

Definition entity_config (entity : string) (m : LockManager) : EntityLockConfig :=
  get_entity_config entity (get_entity_type_string entity) m.

(** [max_exp] of [acquire] and [extend]. *)
Definition max_exp (entity : string) (m : LockManager) : Z :=
  let c := entity_config entity m in
  if (0 <? max_expiration c)%Z then max_expiration c
  else default_max_expiration (lm_config m).

(** "Create new lock". *)
Definition create_lock (entity client : string) (scopes : list string) (expiration : Z)
    (now : Z) (m : LockManager) : (LockInfo + LockError) * LockManager :=
  let '(id, m) := generate_lock_id m in
  let info := mkLock id entity client scopes (cfg_breakable (entity_config entity m)) now
                (now + seconds expiration) expiration in
  (inl info,
   with_locks (<[entity := info]> (locks_ m)) (<[id := entity]> (lock_id_index_ m)) m).

(** [now1] is read when an existing lock is found, [now2] when the new one is
    created. *)
Definition acquire (entity client : string) (scopes : list string) (expiration : Z)
    (break_lock : bool) (now1 now2 : Z) (m : LockManager)
    : (LockInfo + LockError) * LockManager :=
  if negb (lock_enabled (lm_config m)) then (inr lock_disabled, m)
  else
    match list_find (λ scope, scope ∉ valid_lock_scopes) scopes with
    | Some (_, scope) =>
        (inr (mkLockError "invalid-scope" ("Unknown scope: " +:+ scope) 400 None), m)
    | None =>
        if (expiration <=? 0)%Z then
          (inr (mkLockError "invalid-expiration" "Expiration must be greater than 0" 400 None), m)
        else if (max_exp entity m <? expiration)%Z then
          (inr (mkLockError "invalid-expiration"
                  ("Expiration exceeds maximum allowed (" +:+ pretty (max_exp entity m) +:+ "s)")
                  400 None), m)
        else
          match locks_ m !! entity with
          | None => create_lock entity client scopes expiration now2 m
          | Some existing =>
              if (lk_expires_at existing <=? now1)%Z then
                create_lock entity client scopes expiration now2 (drop_lock entity existing m)
              else if negb break_lock then
                (inr (mkLockError "lock-conflict"
                        ("Entity is already locked by client '" +:+ lk_client_id existing +:+ "'")
                        409 (Some (lk_lock_id existing))), m)
              else if negb (lk_breakable existing) then
                (inr (mkLockError "lock-not-breakable" "Existing lock is not breakable" 409
                        (Some (lk_lock_id existing))), m)
              else create_lock entity client scopes expiration now2 (drop_lock entity existing m)
          end
    end.

Definition release (entity client : string) (m : LockManager) : option LockError * LockManager :=
  if negb (lock_enabled (lm_config m)) then (Some lock_disabled, m)
  else
    match locks_ m !! entity with
    | None =>
        (Some (mkLockError "lock-not-found"
                 ("No lock exists for entity '" +:+ entity +:+ "'") 404 None), m)
    | Some lock =>
        if negb (lk_client_id lock =?ₛ client) then
          (Some (mkLockError "lock-not-owner" "Lock is owned by a different client" 403
                   (Some (lk_lock_id lock))), m)
        else (None, drop_lock entity lock m)
    end.

Definition set_expiry (expires : Z) (expiration : Z) (l : LockInfo) : LockInfo :=
  mkLock (lk_lock_id l) (lk_entity_id l) (lk_client_id l) (lk_scopes l) (lk_breakable l)
    (lk_created_at l) expires expiration.

Definition extend (entity client : string) (additional now : Z) (m : LockManager)
    : (LockInfo + LockError) * LockManager :=
  if negb (lock_enabled (lm_config m)) then (inr lock_disabled, m)
  else if (additional <=? 0)%Z then
    (inr (mkLockError "invalid-expiration" "Extension duration must be greater than 0" 400 None), m)
  else if (max_exp entity m <? additional)%Z then
    (inr (mkLockError "invalid-expiration"
            ("Extension duration " +:+ pretty additional +:+ "s exceeds maximum " +:+
             pretty (max_exp entity m) +:+ "s") 400 None), m)
  else
    match locks_ m !! entity with
    | None =>
        (inr (mkLockError "lock-not-found" ("No lock exists for entity '" +:+ entity +:+ "'")
                404 None), m)
    | Some lock =>
        if (lk_expires_at lock <=? now)%Z then
          (inr (mkLockError "lock-not-found"
                  ("Lock has expired for entity '" +:+ entity +:+ "'") 404 None),
           drop_lock entity lock m)
        else if negb (lk_client_id lock =?ₛ client) then
          (inr (mkLockError "lock-not-owner" "Lock is owned by a different client" 403
                  (Some (lk_lock_id lock))), m)
        else
          let lock' := set_expiry (now + seconds additional) additional lock in
          (inl lock', with_locks (<[entity := lock']> (locks_ m)) (lock_id_index_ m) m)
    end.

Definition get_lock (entity : string) (m : LockManager) : option LockInfo := locks_ m !! entity.

Definition get_lock_by_id (lock_id : string) (m : LockManager) : option LockInfo :=
  entity ← lock_id_index_ m !! lock_id; locks_ m !! entity.

(** The lambda [check_entity] of [check_access]. *)
Definition check_entity (client collection : string) (now : Z) (m : LockManager)
    (check_id : string) : option LockAccessResult :=
  match locks_ m !! check_id with
  | None => None
  | Some lock =>
      if (lk_expires_at lock <=? now)%Z then None
      else if lk_client_id lock =?ₛ client then None
      else if lock_covers_collection lock collection then
        Some (mkAccess false (lk_lock_id lock)
                ("Entity '" +:+ check_id +:+ "' is locked by another client") "lock-conflict")
      else None
  end.

(** The walk "App -> Component -> Area", as the list of ids it checks. *)
Definition parent_area (component : string) : list string :=
  match dir_component_area component cache with
  | Some area => if area =?ₛ "" then [] else [area]
  | None => []
  end.

Definition lock_chain (entity : string) : list string :=
  entity ::
  (match dir_app_component entity cache with
   | Some component => if component =?ₛ "" then [] else component :: parent_area component
   | None => []
   end) ++ parent_area entity.

(** Phase 1: a collection that requires a lock, without one of the client's. *)
Definition lock_required_missing (entity client collection : string) (now : Z)
    (m : LockManager) : bool :=
  bool_decide (collection ∈ required_scopes (entity_config entity m)) &&
  negb (match locks_ m !! entity with
        | Some lock => (lk_client_id lock =?ₛ client) && (now <? lk_expires_at lock)%Z
        | None => false
        end).

Fixpoint first_denial (client collection : string) (now : Z) (m : LockManager)
    (ids : list string) : LockAccessResult :=
  match ids with
  | [] => access_allowed
  | id :: ids' =>
      match check_entity client collection now m id with
      | Some r => r
      | None => first_denial client collection now m ids'
      end
  end.

Definition check_access (entity client collection : string) (now1 now2 : Z) (m : LockManager)
    : LockAccessResult :=
  if negb (lock_enabled (lm_config m)) then access_allowed
  else if lock_required_missing entity client collection now1 m then
    mkAccess false "" ("A lock is required for " +:+ collection +:+ " on this entity")
      "lock-required"
  else first_denial client collection now2 m (lock_chain entity).
End LockManager.

(** The iteration order of the hash map is unspecified; this is one order. *)
Definition cleanup_expired (now : Z) (m : LockManager) : list ExpiredLockInfo * LockManager :=
  let expired := filter (λ e : string * LockInfo, (lk_expires_at e.2 <= now)%Z)
                   (map_to_list (locks_ m)) in
  ((λ e : string * LockInfo,
      mkExpired (lk_lock_id e.2) (lk_entity_id e.2) (lk_client_id e.2) (lk_scopes e.2)) <$> expired,
   foldl (λ m (e : string * LockInfo), drop_lock e.1 e.2 m) m expired).
