(* ===== verification/LockSpec.v ===== *)
(** * Entity locks: exclusion, ownership, expiry *)

From S2P Require Import Prelude EntityCache LockManager.

(** ** The two maps agree *)

Record locks_ok (m : LockManager) : Prop := {
  lo_lock : ∀ e l, locks_ m !! e = Some l →
    lk_entity_id l = e ∧ lock_id_index_ m !! lk_lock_id l = Some e ∧
    ∃ n, (n < next_id_ m)%N ∧ lk_lock_id l = lock_id_of n;
  lo_index : ∀ id e, lock_id_index_ m !! id = Some e →
    ∃ l, locks_ m !! e = Some l ∧ lk_lock_id l = id;
}.

Lemma lock_id_of_inj n1 n2 : lock_id_of n1 = lock_id_of n2 → n1 = n2.
Proof. unfold lock_id_of. intros H%(inj (String.append "lock_")). by apply (inj pretty). Qed.

Lemma new_lock_manager_ok config : locks_ok (new_lock_manager config).
Proof. split; intros ??; simpl; by rewrite lookup_empty. Qed.

(** A lock id belongs to one entity. *)
Lemma lock_id_unique m e1 e2 l1 l2 :
  locks_ok m → locks_ m !! e1 = Some l1 → locks_ m !! e2 = Some l2 →
  lk_lock_id l1 = lk_lock_id l2 → e1 = e2.
Proof.
  intros Hok H1 H2 Heq. destruct (lo_lock m Hok e1 l1 H1) as (_ & I1 & _).
  destruct (lo_lock m Hok e2 l2 H2) as (_ & I2 & _). congruence.
Qed.

Lemma drop_lock_ok m e l :
  locks_ok m → locks_ m !! e = Some l → locks_ok (drop_lock e l m).
Proof.
  intros Hok Hl. split; simpl.
  - intros e' l' [Hne Hl']%lookup_delete_Some. destruct (lo_lock m Hok e' l' Hl') as (? & Hi & ?).
    split_and!; [done| |done]. rewrite lookup_delete_ne; [done|]. intros Heq.
    apply Hne. by eapply (lock_id_unique m).
  - intros id e' [Hne Hi]%lookup_delete_Some. destruct (lo_index m Hok id e' Hi) as (l' & Hl' & Hid).
    exists l'. split; [|done]. apply lookup_delete_Some. split; [|done]. intros <-. congruence.
Qed.

Section Locks.
Context {C : Type} `{EntityDirectory C}.
Implicit Types (cache : C).

Lemma create_lock_ok cache entity client scopes expiration now m :
  locks_ok m → locks_ m !! entity = None → (next_id_ m + 1 < 18446744073709551616)%N →
  locks_ok (create_lock cache entity client scopes expiration now m).2 ∧
  next_id_ (create_lock cache entity client scopes expiration now m).2 = (next_id_ m + 1)%N.
Proof.
  intros Hok Hnone Hroom. unfold create_lock. simpl. rewrite N.mod_small by lia. split; [|done].
  assert (Hfresh : lock_id_index_ m !! lock_id_of (next_id_ m) = None).
  { apply eq_None_not_Some. intros [e He]. destruct (lo_index m Hok _ _ He) as (l & Hl & Hid).
    destruct (lo_lock m Hok e l Hl) as (_ & _ & n & Hn & Hid').
    rewrite Hid in Hid'. apply lock_id_of_inj in Hid'. lia. }
  split; simpl.
  - intros e l [[<- <-]|[Hne Hl]]%lookup_insert_Some; simpl.
    + split_and!; [done|apply lookup_insert_eq|]. exists (next_id_ m). split; [lia|done].
    + destruct (lo_lock m Hok e l Hl) as (? & Hi & n & ? & ?).
      split_and!; [done| |exists n; split; [lia|done]].
      rewrite lookup_insert_ne; [done|]. congruence.
  - intros id e [[<- <-]|[Hne Hi]]%lookup_insert_Some.
    + eexists. split; [apply lookup_insert_eq|done].
    + destruct (lo_index m Hok id e Hi) as (l & Hl & Hid). exists l. split; [|done].
      rewrite lookup_insert_ne; [done|]. congruence.
Qed.

Lemma drop_lock_lookup e l m : locks_ (drop_lock e l m) !! e = None.
Proof. apply lookup_delete_eq. Qed.

(** ** Outcomes of [acquire] *)

(** The request itself is acceptable. *)
Definition request_ok cache (entity : string) (scopes : list string) (expiration : Z)
    (m : LockManager) : Prop :=
  lock_enabled (lm_config m) = true ∧ (∀ s, s ∈ scopes → s ∈ valid_lock_scopes) ∧
  (0 < expiration ≤ max_exp cache entity m)%Z.

(** The entity's current lock, if any, gives way. *)
Definition gives_way (entity : string) (break_lock : bool) (now : Z) (m : LockManager) : Prop :=
  ∀ l, locks_ m !! entity = Some l →
    (lk_expires_at l ≤ now)%Z ∨ break_lock = true ∧ lk_breakable l = true.

Lemma acquire_cases cache entity client scopes expiration break_lock now1 now2 m :
  let r := acquire cache entity client scopes expiration break_lock now1 now2 m in
  (request_ok cache entity scopes expiration m ∧ gives_way entity break_lock now1 m ∧
     ∃ m0, r = create_lock cache entity client scopes expiration now2 m0 ∧
       (m0 = m ∧ locks_ m !! entity = None ∨
        ∃ l, locks_ m !! entity = Some l ∧ m0 = drop_lock entity l m)) ∨
  (¬ (request_ok cache entity scopes expiration m ∧ gives_way entity break_lock now1 m) ∧
     ∃ err, r = (inr err, m)).
Proof.
  unfold acquire, request_ok, gives_way. destruct (lock_enabled (lm_config m)) eqn:Hen; simpl;
    [|right; naive_solver].
  destruct (list_find _ scopes) as [[i scope]|] eqn:Hf.
  { apply list_find_Some in Hf as (Hl & Hbad & _). right. split; [|by eexists].
    intros [(_ & Hall & _) _]. apply Hbad, Hall. by eapply list_elem_of_lookup_2. }
  apply list_find_None in Hf. rewrite Forall_forall in Hf.
  assert (Hsc : ∀ s, s ∈ scopes → s ∈ valid_lock_scopes).
  { intros s Hs. apply dec_stable. by apply Hf. }
  destruct (Z.leb_spec expiration 0); [right; split; [lia|by eexists]|].
  destruct (Z.ltb_spec (max_exp cache entity m) expiration); [right; split; [lia|by eexists]|].
  destruct (locks_ m !! entity) as [l|] eqn:El; cycle 1.
  { left. split_and!; try done. exists m. naive_solver. }
  destruct (Z.leb_spec (lk_expires_at l) now1).
  { left. split_and!; try done; [naive_solver|]. eexists. split; [done|]. right. by exists l. }
  destruct break_lock; simpl.
  - destruct (lk_breakable l) eqn:Eb; simpl.
    + left. split_and!; try done; [naive_solver|]. eexists. split; [done|]. right. by exists l.
    + right. split; [|by eexists]. intros [_ Hg]. destruct (Hg l eq_refl) as [?|[_ ?]]; [lia|congruence].
  - right. split; [|by eexists]. intros [_ Hg]. destruct (Hg l eq_refl) as [?|[? _]]; [lia|done].
Qed.

(** [acquire] succeeds exactly when locking is enabled, every scope is known,
    the duration is positive and within the entity's maximum, and the current
    lock of the entity (if any) has expired or is breakable and asked to be
    broken.  It then installs a lock of the caller that expires after the
    requested duration; on every error the state is unchanged. *)
Theorem acquire_spec cache entity client scopes expiration break_lock now1 now2 m :
  let '(r, m') := acquire cache entity client scopes expiration break_lock now1 now2 m in
  match r with
  | inl info =>
      request_ok cache entity scopes expiration m ∧ gives_way entity break_lock now1 m ∧
      get_lock entity m' = Some info ∧ lk_client_id info = client ∧ lk_scopes info = scopes ∧
      lk_expires_at info = (now2 + seconds expiration)%Z ∧
      lk_breakable info = cfg_breakable (entity_config cache entity m) ∧
      ∀ other, other ≠ entity → get_lock other m' = get_lock other m
  | inr _ =>
      ¬ (request_ok cache entity scopes expiration m ∧ gives_way entity break_lock now1 m) ∧ m' = m
  end.
Proof.
  pose proof (acquire_cases cache entity client scopes expiration break_lock now1 now2 m) as Hc.
  destruct (acquire _ _ _ _ _ _ _ _ _) as [r m'].
  destruct Hc as [(Hreq & Hgive & m0 & Heq & Hm0)|(Hno & err & [= -> ->])]; [|done].
  unfold create_lock in Heq. simpl in Heq. injection Heq as -> ->. unfold get_lock. simpl.
  split_and!; try done.
  - apply lookup_insert_eq.
  - by destruct Hm0 as [[-> _]|(l & _ & ->)].
  - intros other Hne. rewrite lookup_insert_ne by done.
    destruct Hm0 as [[-> _]|(l & _ & ->)]; [done|]. simpl. by rewrite lookup_delete_ne.
Qed.

(** Only the owner releases a lock: [release] succeeds exactly when locking is
    enabled and the caller holds the entity's lock, and removes just that lock;
    otherwise nothing changes. *)
Theorem release_owner_only entity client m :
  let '(err, m') := release entity client m in
  (err = None ↔ lock_enabled (lm_config m) = true ∧
     ∃ l, get_lock entity m = Some l ∧ lk_client_id l = client) ∧
  (err = None → ∀ e, get_lock e m' = if e =?ₛ entity then None else get_lock e m) ∧
  (err ≠ None → m' = m).
Proof.
  unfold release, get_lock. destruct (lock_enabled (lm_config m)) eqn:Hen; simpl;
    [|split_and!; naive_solver].
  destruct (locks_ m !! entity) as [l|] eqn:El; [|split_and!; naive_solver].
  destruct (lk_client_id l =?ₛ client) eqn:Ec; bool_simpl; simpl; [|split_and!; naive_solver].
  split_and!; [naive_solver| |done]. intros _ e. unfold str_eqb.
  destruct (decide (e = entity)) as [->|Hne].
  - rewrite bool_decide_eq_true_2 by done. apply lookup_delete_eq.
  - rewrite bool_decide_eq_false_2 by done. by apply lookup_delete_ne.
Qed.

(** Only the owner of an unexpired lock extends it, within the entity's maximum,
    and only its expiry moves, to [now] plus the requested duration.  A refused
    extension changes nothing, except that a lock found expired is removed. *)
Theorem extend_owner_only cache entity client additional now m :
  let can := lock_enabled (lm_config m) = true ∧
    (0 < additional ≤ max_exp cache entity m)%Z ∧
    ∃ l, get_lock entity m = Some l ∧ lk_client_id l = client ∧ (now < lk_expires_at l)%Z in
  match extend cache entity client additional now m with
  | (inl l', m') =>
      can ∧ get_lock entity m' = Some l' ∧
      (∃ l, get_lock entity m = Some l ∧
         l' = set_expiry (now + seconds additional) additional l) ∧
      ∀ e, e ≠ entity → get_lock e m' = get_lock e m
  | (inr _, m') =>
      ¬ can ∧ (m' = m ∨ ∃ l, get_lock entity m = Some l ∧ (lk_expires_at l ≤ now)%Z ∧
        m' = drop_lock entity l m)
  end.
Proof.
  intros can. unfold can, extend, get_lock. clear can.
  destruct (lock_enabled (lm_config m)) eqn:Hen; simpl; [|naive_solver].
  destruct (Z.leb_spec additional 0); [split; [lia|by left]|].
  destruct (Z.ltb_spec (max_exp cache entity m) additional); [split; [lia|by left]|].
  destruct (locks_ m !! entity) as [l|] eqn:El; [|naive_solver].
  destruct (Z.leb_spec (lk_expires_at l) now); [split; [naive_solver lia|right; by exists l]|].
  destruct (lk_client_id l =?ₛ client) eqn:Ec; bool_simpl; simpl; [|naive_solver].
  split_and!; try done; [by exists l|apply lookup_insert_eq|by exists l|].
  intros e Hne. by apply lookup_insert_ne.
Qed.

(** ** Access checks *)

Lemma first_denial_allowed client collection now m ids :
  ar_allowed (first_denial client collection now m ids) = true ↔
    ∀ id, id ∈ ids → check_entity client collection now m id = None.
Proof.
  induction ids as [|id ids IH]; simpl; [set_solver|].
  destruct (check_entity client collection now m id) as [r|] eqn:E.
  - assert (ar_allowed r = false) as ->.
    { unfold check_entity in E. repeat case_match; simplify_eq; done. }
    split; [done|]. intros Hall. specialize (Hall id ltac:(left)). congruence.
  - rewrite IH. split; [|set_solver]. intros Hall x [->|Hx]%elem_of_cons; auto.
Qed.

Lemma check_entity_None client collection now m id :
  check_entity client collection now m id = None ↔
    ∀ l, locks_ m !! id = Some l → (now < lk_expires_at l)%Z → lk_client_id l ≠ client →
      lock_covers_collection l collection = false.
Proof.
  unfold check_entity. destruct (locks_ m !! id) as [l|]; [|naive_solver].
  destruct (Z.leb_spec (lk_expires_at l) now); [naive_solver lia|].
  destruct (lk_client_id l =?ₛ client) eqn:Ec; bool_simpl; [naive_solver|].
  destruct (lock_covers_collection l collection) eqn:Ecov.
  - split; [done|]. intros Hall. specialize (Hall l eq_refl ltac:(lia) Ec). congruence.
  - split; [|done]. by intros _ l' [= <-].
Qed.

(** The entities whose locks guard [entity]: itself, the component an app runs
    on and that component's area, the area of a component. *)
Inductive guarded_by (cache : C) (entity : string) : string → Prop :=
  | guard_self : guarded_by cache entity entity
  | guard_component c :
      dir_app_component entity cache = Some c → c ≠ "" → guarded_by cache entity c
  | guard_component_area c a :
      dir_app_component entity cache = Some c → c ≠ "" →
      dir_component_area c cache = Some a → a ≠ "" → guarded_by cache entity a
  | guard_area a :
      dir_component_area entity cache = Some a → a ≠ "" → guarded_by cache entity a.

Lemma elem_of_parent_area cache component a :
  a ∈ parent_area cache component ↔ dir_component_area component cache = Some a ∧ a ≠ "".
Proof.
  unfold parent_area. destruct (dir_component_area component cache) as [x|]; [|set_solver].
  destruct (x =?ₛ "") eqn:E; bool_simpl; set_solver.
Qed.

(** The walk of [check_access] visits exactly these. *)
Lemma elem_of_lock_chain cache entity id :
  id ∈ lock_chain cache entity ↔ guarded_by cache entity id.
Proof.
  unfold lock_chain. rewrite elem_of_cons, elem_of_app, elem_of_parent_area. split.
  - intros [->|[Hid|[Ha Hne]]]; [constructor| |by eapply guard_area].
    destruct (dir_app_component entity cache) as [c|] eqn:Ec; [|set_solver].
    destruct (c =?ₛ "") eqn:E; bool_simpl; [set_solver|].
    apply elem_of_cons in Hid as [->|[Ha Hne]%elem_of_parent_area]; [by eapply guard_component|].
    by eapply guard_component_area.
  - destruct 1 as [|c Hc Hne|c a Hc Hne Ha Hna|a Ha Hna]; [by left|right; left..|by right; right].
    all: rewrite Hc, (proj2 (str_eqb_neq _ _) Hne), elem_of_cons, elem_of_parent_area; eauto.
Qed.

(** C20: With locking enabled, a client may access a collection of an entity exactly
    when (1) it holds a live lock on the entity if the entity's configuration
    requires one for that collection, and (2) neither the entity nor any entity
    above it — an app's component and that component's area, a component's
    area — carries a live lock of another client that covers the collection. *)
Theorem check_access_spec cache entity client collection now1 now2 m :
  lock_enabled (lm_config m) = true →
  ar_allowed (check_access cache entity client collection now1 now2 m) = true ↔
    (collection ∈ required_scopes (entity_config cache entity m) →
       ∃ l, get_lock entity m = Some l ∧ lk_client_id l = client ∧ (now1 < lk_expires_at l)%Z) ∧
    (∀ id l, guarded_by cache entity id → get_lock id m = Some l →
       (now2 < lk_expires_at l)%Z → lk_client_id l ≠ client →
       lk_scopes l ≠ [] ∧ collection ∉ lk_scopes l).
Proof.
  intros Hen. unfold check_access, get_lock. rewrite Hen. cbn [negb].
  assert (Hcov : ∀ l, lock_covers_collection l collection = false ↔
    lk_scopes l ≠ [] ∧ collection ∉ lk_scopes l).
  { intros l. unfold lock_covers_collection. by rewrite orb_false_iff, !bool_decide_eq_false. }
  assert (Hreq : lock_required_missing cache entity client collection now1 m = false ↔
    (collection ∈ required_scopes (entity_config cache entity m) →
     ∃ l, locks_ m !! entity = Some l ∧ lk_client_id l = client ∧ (now1 < lk_expires_at l)%Z)).
  { unfold lock_required_missing. rewrite andb_false_iff, bool_decide_eq_false, negb_false_iff.
    destruct (locks_ m !! entity) as [l|].
    - rewrite andb_true_iff, str_eqb_eq, Z.ltb_lt.
      destruct (decide (collection ∈ required_scopes (entity_config cache entity m)));
        naive_solver.
    - destruct (decide (collection ∈ required_scopes (entity_config cache entity m)));
        naive_solver. }
  destruct (lock_required_missing cache entity client collection now1 m); cbv iota.
  - split; [done|]. intros [H1 _]. by apply Hreq in H1.
  - rewrite first_denial_allowed. split.
    + intros Hall. split; [by apply Hreq|]. intros id l Hid%elem_of_lock_chain Hl Hlive Hne.
      apply Hcov. by eapply check_entity_None; [apply Hall|..].
    + intros [_ Hall] id Hid%elem_of_lock_chain. apply check_entity_None. intros l Hl Hlive Hne. apply Hcov.
      by eapply Hall.
Qed.
End Locks.

(** ** Expiry *)

Lemma foldl_drop_lookup l m e :
  locks_ (foldl (λ m (x : string * LockInfo), drop_lock x.1 x.2 m) m l) !! e =
    if bool_decide (e ∈ l.*1) then None else locks_ m !! e.
Proof.
  revert m. induction l as [|[e' x] l IH]; intros m; cbn [foldl fmap list_fmap fst]; [done|].
  rewrite IH. simpl. destruct (decide (e = e')) as [->|Hne].
  - rewrite lookup_delete_eq, (bool_decide_eq_true_2 (e' ∈ e' :: l.*1)) by left. by case_match.
  - rewrite lookup_delete_ne by done.
    by rewrite (bool_decide_ext (e ∈ l.*1) (e ∈ e' :: l.*1)) by set_solver.
Qed.

(** [cleanup_expired] removes exactly the locks whose expiry has passed and
    reports exactly those, each once. *)
Theorem cleanup_expired_spec now m :
  let '(expired, m') := cleanup_expired now m in
  (∀ e, get_lock e m' = l ← get_lock e m; if (lk_expires_at l <=? now)%Z then None else Some l) ∧
  expired ≡ₚ (λ e : string * LockInfo,
     mkExpired (lk_lock_id e.2) (lk_entity_id e.2) (lk_client_id e.2) (lk_scopes e.2)) <$>
    filter (λ e : string * LockInfo, (lk_expires_at e.2 ≤ now)%Z) (map_to_list (locks_ m)).
Proof.
  unfold cleanup_expired. split; [|done]. intros e. unfold get_lock. rewrite foldl_drop_lookup.
  assert (Hin : e ∈ (filter (λ e : string * LockInfo, (lk_expires_at e.2 ≤ now)%Z)
    (map_to_list (locks_ m))).*1 ↔ ∃ l, locks_ m !! e = Some l ∧ (lk_expires_at l ≤ now)%Z).
  { rewrite list_elem_of_fmap. split.
    - intros ([e' l] & -> & [Hl Hm%elem_of_map_to_list]%list_elem_of_filter). by exists l.
    - intros (l & Hl%elem_of_map_to_list & He). exists (e, l).
      by rewrite list_elem_of_filter. }
  case_bool_decide as Hd.
  - apply Hin in Hd as (l & -> & Hle). simpl.
    replace (lk_expires_at l <=? now)%Z with true by (symmetry; by apply Z.leb_le). done.
  - destruct (locks_ m !! e) as [l|] eqn:El; simpl; [|done].
    destruct (Z.leb_spec (lk_expires_at l) now); [|done]. exfalso. apply Hd, Hin. by exists l.
Qed.

(** ** Runs *)

Inductive lock_op :=
  | Acquire (entity client : string) (scopes : list string) (expiration : Z) (break_lock : bool)
      (now1 now2 : Z)
  | Release (entity client : string)
  | Extend (entity client : string) (additional now : Z)
  | Cleanup (now : Z).

Section Runs.
Context {C : Type} `{EntityDirectory C}.

(** The cache may change between calls. *)
Definition lock_step (m : LockManager) (x : C * lock_op) : LockManager :=
  match x.2 with
  | Acquire e c s exp b n1 n2 => (acquire x.1 e c s exp b n1 n2 m).2
  | Release e c => (release e c m).2
  | Extend e c a n => (extend x.1 e c a n m).2
  | Cleanup n => (cleanup_expired n m).2
  end.

Lemma foldl_drop_ok l : ∀ m,
  locks_ok m → NoDup l.*1 → (∀ e x, (e, x) ∈ l → locks_ m !! e = Some x) →
  locks_ok (foldl (λ m (x : string * LockInfo), drop_lock x.1 x.2 m) m l) ∧
  next_id_ (foldl (λ m (x : string * LockInfo), drop_lock x.1 x.2 m) m l) = next_id_ m.
Proof.
  induction l as [|[e x] l IH]; intros m Hok Hnd Hin; simpl; [done|].
  apply NoDup_cons in Hnd as [Hnew Hnd].
  destruct (IH (drop_lock e x m)) as [? Hn]; [|done| |done].
  - apply drop_lock_ok; [done|]. apply Hin. left.
  - intros e' x' Hin'. simpl. rewrite lookup_delete_ne; [apply Hin; by right|].
    intros ->. apply Hnew. apply list_elem_of_fmap. by exists (e', x').
Qed.

Lemma lock_step_ok m x :
  locks_ok m → (next_id_ m + 1 < 18446744073709551616)%N →
  locks_ok (lock_step m x) ∧ (next_id_ (lock_step m x) ≤ next_id_ m + 1)%N.
Proof.
  intros Hok Hroom. destruct x as [cache [e c s exp b n1 n2|e c|e c a n|n]];
    unfold lock_step; cbn [fst snd].
  - destruct (acquire_cases cache e c s exp b n1 n2 m)
      as [(_ & _ & m0 & -> & Hm0)|(_ & err & ->)]; [|simpl; split; [done|lia]].
    assert (H0 : locks_ok m0 ∧ locks_ m0 !! e = None ∧ next_id_ m0 = next_id_ m).
    { destruct Hm0 as [[-> ?]|(l & Hl & ->)]; [done|].
      split_and!; [by apply drop_lock_ok|apply drop_lock_lookup|done]. }
    destruct H0 as (Hok0 & Hnone & Hnext).
    destruct (create_lock_ok cache e c s exp n2 m0) as [? ->]; [done|done|lia|].
    split; [done|lia].
  - unfold release. repeat case_match; simpl; (split; [try done|lia]). by apply drop_lock_ok.
  - unfold extend. repeat case_match; simpl; (split; [try done|lia]); [by apply drop_lock_ok|].
    rename select (locks_ m !! e = Some _) into Hl.
    destruct (lo_lock m Hok e _ Hl) as (? & Hi & ?). split; simpl.
    + intros e' l' [[<- <-]|[_ Hl']]%lookup_insert_Some; [done|]. by apply Hok.
    + intros id e' Hid. destruct (lo_index m Hok id e' Hid) as (l' & Hl' & ?).
      destruct (decide (e = e')) as [<-|Hne].
      * eexists. split; [apply lookup_insert_eq|]. simpl. congruence.
      * exists l'. by rewrite lookup_insert_ne.
  - unfold cleanup_expired. simpl.
    destruct (foldl_drop_ok (filter (λ e : string * LockInfo, (lk_expires_at e.2 ≤ n)%Z)
      (map_to_list (locks_ m))) m) as [? ->]; [done| | |split; [done|lia]].
    + apply NoDup_fmap_filter, NoDup_fst_map_to_list.
    + intros e' x [_ Hx%elem_of_map_to_list]%list_elem_of_filter. done.
Qed.

Lemma lock_run_ok ops : ∀ m,
  locks_ok m → (next_id_ m + N.of_nat (length ops) < 18446744073709551616)%N →
  locks_ok (foldl lock_step m ops).
Proof.
  induction ops as [|x ops IH]; intros m Hok Hroom; simpl; [done|]. simpl in Hroom.
  destruct (lock_step_ok m x Hok) as [? ?]; [lia|]. apply IH; [done|lia].
Qed.

(** In every reachable state the two lock tables agree: the lock of an entity is
    the one found under its lock id and vice versa, so a lock id names one lock
    of one entity. *)
Theorem lock_tables_agree config (ops : list (C * lock_op)) :
  (N.of_nat (length ops) + 1 < 18446744073709551616)%N →
  let m := foldl lock_step (new_lock_manager config) ops in
  (∀ e l, get_lock e m = Some l → lk_entity_id l = e ∧ get_lock_by_id (lk_lock_id l) m = Some l) ∧
  (∀ id l, get_lock_by_id id m = Some l →
     lk_lock_id l = id ∧ get_lock (lk_entity_id l) m = Some l).
Proof.
  intros Hlen m. assert (Hok : locks_ok m).
  { apply lock_run_ok; [apply new_lock_manager_ok|simpl; lia]. }
  unfold get_lock, get_lock_by_id. split.
  - intros e l Hl. destruct (lo_lock m Hok e l Hl) as (? & -> & _). done.
  - intros id l (e & Hi & Hl)%bind_Some. destruct (lo_lock m Hok e l Hl) as (<- & _).
    destruct (lo_index m Hok id _ Hi) as (l' & Hl' & <-). split; congruence.
Qed.

(** [op] is not a release or extension by [owner] of the lock on [entity], and
    every clock it reads is before [t]. *)
Definition foreign (entity owner : string) (t : Z) (op : lock_op) : Prop :=
  match op with
  | Acquire _ _ _ _ _ now1 _ => (now1 < t)%Z
  | Release e c => ¬ (e = entity ∧ c = owner)
  | Extend e c _ now => ¬ (e = entity ∧ c = owner) ∧ (now < t)%Z
  | Cleanup now => (now < t)%Z
  end.

Lemma lock_step_keeps m x entity l :
  get_lock entity m = Some l → lk_breakable l = false →
  foreign entity (lk_client_id l) (lk_expires_at l) x.2 →
  get_lock entity (lock_step m x) = Some l.
Proof.
  unfold get_lock. intros Hl Hb. destruct x as [cache [e c s exp b n1 n2|e c|e c a n|n]];
    unfold lock_step; cbn [fst snd].
  - intros Ht. simpl in Ht. destruct (acquire_cases cache e c s exp b n1 n2 m)
      as [(_ & Hgive & m0 & -> & Hm0)|(_ & err & ->)]; [|done]. simpl.
    destruct (decide (e = entity)) as [->|Hne].
    + destruct (Hgive l Hl) as [?|[_ ?]]; [lia|congruence].
    + rewrite lookup_insert_ne by done.
      destruct Hm0 as [[-> _]|(l0 & _ & ->)]; [done|]. simpl. by rewrite lookup_delete_ne.
  - intros Hf. simpl in Hf. unfold release. repeat case_match; simpl; try done.
    bool_simpl. rewrite lookup_delete_ne; [done|]. intros ->. naive_solver.
  - intros [Hf Ht]. simpl in Hf. unfold extend. repeat case_match; simpl; try done; bool_simpl.
    + rewrite lookup_delete_ne; [done|]. intros ->. simplify_eq. lia.
    + rewrite lookup_insert_ne; [done|]. intros ->. naive_solver.
  - intros Ht. unfold cleanup_expired. simpl. rewrite foldl_drop_lookup, bool_decide_eq_false_2;
      [done|].
    intros ([e' x] & -> & [Hle Hx%elem_of_map_to_list]%list_elem_of_filter)%list_elem_of_fmap.
    simpl in *. simplify_eq. lia.
Qed.

(** C19: A lock that is not breakable is exclusive until it expires: no sequence of
    acquisitions, releases, extensions and clean-ups by others (forced
    acquisitions included) removes, replaces or changes it before its expiry. *)
Theorem unbreakable_lock_is_exclusive m (ops : list (C * lock_op)) entity l :
  get_lock entity m = Some l → lk_breakable l = false →
  Forall (λ x, foreign entity (lk_client_id l) (lk_expires_at l) x.2) ops →
  get_lock entity (foldl lock_step m ops) = Some l.
Proof.
  intros Hl Hb Hall. revert m Hl. induction Hall as [|x ops Hx _ IH]; intros m Hl; [done|].
  simpl. apply IH. by apply lock_step_keeps.
Qed.
End Runs.
