(* ===== verification/Subscriptions.v ===== *)
(** * Cyclic subscriptions

    [SubscriptionManager] (gateway core/managers/subscription_manager.cpp).  The
    table maps ids to shared states; a method looks its state up under the map
    mutex, releases it, and works on the state under the state's own mutex, so
    methods of different threads interleave between the two.  Each critical
    section is one function on the manager's state, in which the shared states
    live in a heap; the methods are their compositions, and [sys_step]
    interleaves the sections of concurrent calls.  Clock readings are arguments;
    [on_removed_] callbacks are recorded in [sm_removed]. *)

From S2P Require Import Prelude.
From stdpp Require Import relations.

Inductive CyclicInterval := FAST | NORMAL | SLOW.

#[global] Instance CyclicInterval_eq_dec : EqDecision CyclicInterval.
Proof. solve_decision. Defined.

(** [None]: [std::invalid_argument]. *)
Definition parse_interval (str : string) : option CyclicInterval :=
  if str =?ₛ "fast" then Some FAST
  else if str =?ₛ "normal" then Some NORMAL
  else if str =?ₛ "slow" then Some SLOW
  else None.

Definition interval_to_string (interval : CyclicInterval) : string :=
  match interval with FAST => "fast" | NORMAL => "normal" | SLOW => "slow" end.

(** Milliseconds. *)
Definition interval_to_duration (interval : CyclicInterval) : Z :=
  match interval with FAST => 50 | NORMAL => 200 | SLOW => 500 end.

Record CyclicSubscriptionInfo := mkSubInfo {
  si_id : string;
  si_entity_id : string;
  si_entity_type : string;
  si_resource_uri : string;
  si_collection : string;
  si_resource_path : string;
  si_protocol : string;
  si_interval : CyclicInterval;
  si_duration_sec : Z;
  si_created_at : Z;
  si_expires_at : Z;
}.

Record SubscriptionState := mkSubState {
  ss_info : CyclicSubscriptionInfo;
  ss_active : bool;
  ss_notified : bool;
}.

Record SubscriptionManager := mkSubs {
  sm_heap : gmap N SubscriptionState;        (* the shared_ptr targets *)
  sm_next_ptr : N;
  subscriptions_ : gmap string N;
  max_subscriptions_ : nat;
  sm_next_id : N;                            (* uint64_t *)
  shutdown_flag_ : bool;
  sm_on_removed : bool;                      (* a callback is installed *)
  sm_removed : list CyclicSubscriptionInfo;  (* calls of on_removed_ *)
}.

Definition new_manager (max : nat) (callback : bool) : SubscriptionManager :=
  mkSubs ∅ 0 ∅ max 1 false callback [].

Definition with_heap (h : gmap N SubscriptionState) (m : SubscriptionManager) :=
  mkSubs h (sm_next_ptr m) (subscriptions_ m) (max_subscriptions_ m) (sm_next_id m)
    (shutdown_flag_ m) (sm_on_removed m) (sm_removed m).

Definition with_subscriptions (t : gmap string N) (m : SubscriptionManager) :=
  mkSubs (sm_heap m) (sm_next_ptr m) t (max_subscriptions_ m) (sm_next_id m)
    (shutdown_flag_ m) (sm_on_removed m) (sm_removed m).

(** ** Ids *)

(** [std::setw(3) << std::setfill('0')]. *)
Definition pad3 (s : string) : string :=
  match String.length s with
  | 0 => "000" +:+ s
  | 1 => "00" +:+ s
  | 2 => "0" +:+ s
  | _ => s
  end.

Definition subscription_id (n : N) : string := "sub_" +:+ pad3 (pretty n).

Definition generate_id (m : SubscriptionManager) : string * SubscriptionManager :=
  (subscription_id (sm_next_id m),
   mkSubs (sm_heap m) (sm_next_ptr m) (subscriptions_ m) (max_subscriptions_ m)
     ((sm_next_id m + 1) `mod` 18446744073709551616)%N
     (shutdown_flag_ m) (sm_on_removed m) (sm_removed m)).

(** ** Critical sections and methods *)

Definition sec (n : Z) : Z := n * 1000000000.

Definition create (entity_id entity_type resource_uri collection resource_path protocol : string)
    (interval : CyclicInterval) (duration_sec now : Z) (m : SubscriptionManager)
    : (CyclicSubscriptionInfo + string) * SubscriptionManager :=
  if (max_subscriptions_ m <=? size (subscriptions_ m))%nat then
    (inr ("Maximum subscription capacity (" +:+ pretty (max_subscriptions_ m) +:+ ") reached"), m)
  else
    let '(id, m) := generate_id m in
    let info := mkSubInfo id entity_id entity_type resource_uri collection resource_path protocol
                  interval duration_sec now (now + sec duration_sec) in
    let p := sm_next_ptr m in
    (inl info,
     mkSubs (<[p := mkSubState info true false]> (sm_heap m)) (p + 1)
       (<[id := p]> (subscriptions_ m)) (max_subscriptions_ m) (sm_next_id m)
       (shutdown_flag_ m) (sm_on_removed m) (sm_removed m)).

Definition get (id : string) (m : SubscriptionManager) : option CyclicSubscriptionInfo :=
  p ← subscriptions_ m !! id; ss_info <$> sm_heap m !! p.

(** The iteration order of the hash map is unspecified; this is one order. *)
Definition states (m : SubscriptionManager) : list (string * (N * CyclicSubscriptionInfo)) :=
  omap (λ e : string * N, (λ st, (e.1, (e.2, ss_info st))) <$> sm_heap m !! e.2)
    (map_entries (subscriptions_ m)).

Definition list_subscriptions (entity_id : string) (m : SubscriptionManager)
    : list CyclicSubscriptionInfo :=
  filter (λ i, si_entity_id i = entity_id) ((λ e, e.2.2) <$> states m).

Definition update_info (new_interval : option CyclicInterval) (new_duration : option Z) (now : Z)
    (i : CyclicSubscriptionInfo) : CyclicSubscriptionInfo :=
  mkSubInfo (si_id i) (si_entity_id i) (si_entity_type i) (si_resource_uri i) (si_collection i)
    (si_resource_path i) (si_protocol i) (default (si_interval i) new_interval)
    (default (si_duration_sec i) new_duration) (si_created_at i)
    (match new_duration with Some d => now + sec d | None => si_expires_at i end).

(** [update] after the lookup: the section under the state's mutex. *)
Definition apply_update (p : N) (new_interval : option CyclicInterval) (new_duration : option Z)
    (now : Z) (m : SubscriptionManager) : SubscriptionManager :=
  with_heap (alter (λ st, mkSubState (update_info new_interval new_duration now (ss_info st))
    (ss_active st) true) p (sm_heap m)) m.

Definition update (id : string) (new_interval : option CyclicInterval) (new_duration : option Z)
    (now : Z) (m : SubscriptionManager)
    : (option CyclicSubscriptionInfo + string) * SubscriptionManager :=
  match subscriptions_ m !! id with
  | None => (inr ("Subscription not found: " +:+ id), m)
  | Some p =>
      let m' := apply_update p new_interval new_duration now m in
      (inl (ss_info <$> sm_heap m' !! p), m')
  end.

(** [remove] under the map mutex: take the entry out, with a copy of its info. *)
Definition detach (id : string) (m : SubscriptionManager)
    : option (N * CyclicSubscriptionInfo) * SubscriptionManager :=
  match p ← subscriptions_ m !! id; st ← sm_heap m !! p; Some (p, ss_info st) with
  | None => (None, m)
  | Some x => (Some x, with_subscriptions (delete id (subscriptions_ m)) m)
  end.

Definition call_removed (info : CyclicSubscriptionInfo) (m : SubscriptionManager) :=
  if sm_on_removed m then
    mkSubs (sm_heap m) (sm_next_ptr m) (subscriptions_ m) (max_subscriptions_ m) (sm_next_id m)
      (shutdown_flag_ m) (sm_on_removed m) (sm_removed m ++ [info])
  else m.

Definition deactivate (p : N) (m : SubscriptionManager) : SubscriptionManager :=
  with_heap (alter (λ st, mkSubState (ss_info st) false (ss_notified st)) p (sm_heap m)) m.

(** Outside the map mutex: mark inactive and call back. *)
Definition retire (x : N * CyclicSubscriptionInfo) (m : SubscriptionManager) : SubscriptionManager :=
  call_removed x.2 (deactivate x.1 m).

Definition remove (id : string) (m : SubscriptionManager) : bool * SubscriptionManager :=
  match detach id m with
  | (None, m) => (false, m)
  | (Some x, m) => (true, retire x m)
  end.

Definition take_expired (now : Z) (m : SubscriptionManager)
    : list (N * CyclicSubscriptionInfo) * SubscriptionManager :=
  let expired := filter (λ e, (si_expires_at e.2.2 ≤ now)%Z) (states m) in
  (expired.*2, with_subscriptions (foldl (λ t id, delete id t) (subscriptions_ m) expired.*1) m).

Definition cleanup_expired (now : Z) (m : SubscriptionManager) : nat * SubscriptionManager :=
  let '(expired, m) := take_expired now m in
  (length expired, foldl (λ m x, retire x m) m expired).

Definition set_shutdown (m : SubscriptionManager) : SubscriptionManager :=
  mkSubs (sm_heap m) (sm_next_ptr m) (subscriptions_ m) (max_subscriptions_ m) (sm_next_id m)
    true (sm_on_removed m) (sm_removed m).

(** [shutdown] under the map mutex. *)
Definition detach_all (m : SubscriptionManager) : list CyclicSubscriptionInfo * SubscriptionManager :=
  let all := (λ e, e.2) <$> states m in
  (if sm_on_removed m then all.*2 else [],
   with_subscriptions ∅ (foldl (λ m p, deactivate p m) m all.*1)).

Definition shutdown (m : SubscriptionManager) : SubscriptionManager :=
  let '(infos, m) := detach_all (set_shutdown m) in
  foldl (λ m i, call_removed i m) m infos.

(** [wait_for_update] after the lookup, when the wait ends: whether the
    predicate holds. *)
Definition wait_end (p : N) (m : SubscriptionManager) : bool * SubscriptionManager :=
  match sm_heap m !! p with
  | None => (true, m)
  | Some st =>
      (ss_notified st || negb (ss_active st) || shutdown_flag_ m,
       with_heap (<[p := mkSubState (ss_info st) (ss_active st) false]> (sm_heap m)) m)
  end.

(** The whole of [wait_for_update]; a missing subscription tells the stream to stop. *)
Definition wait_for_update (id : string) (m : SubscriptionManager) : bool * SubscriptionManager :=
  match subscriptions_ m !! id with None => (true, m) | Some p => wait_end p m end.

Definition active_count (m : SubscriptionManager) : nat := size (subscriptions_ m).

Definition is_active (id : string) (now : Z) (m : SubscriptionManager) : bool :=
  match p ← subscriptions_ m !! id; sm_heap m !! p with
  | None => false
  | Some st => ss_active st && (now <? si_expires_at (ss_info st))%Z
  end.

Definition notify_state (p : N) (m : SubscriptionManager) : SubscriptionManager :=
  with_heap (alter (λ st, mkSubState (ss_info st) (ss_active st) true) p (sm_heap m)) m.

Definition notify (id : string) (m : SubscriptionManager) : SubscriptionManager :=
  match subscriptions_ m !! id with None => m | Some p => notify_state p m end.

(** ** Concurrent calls *)

(** What is left to do of a call that has released the map mutex. *)
Inductive task :=
  | TUpdate (p : N) (new_interval : option CyclicInterval) (new_duration : option Z)
  | TRetire (p : N) (info : CyclicSubscriptionInfo)
  | TCallback (info : CyclicSubscriptionInfo)
  | TNotify (p : N)
  | TWait (p : N)
  | TShutdown.

Inductive sys_step : SubscriptionManager * list task → SubscriptionManager * list task → Prop :=
  | s_create entity_id entity_type uri collection path protocol interval duration now m ts :
      sys_step (m, ts)
        ((create entity_id entity_type uri collection path protocol interval duration now m).2, ts)
  | s_update_lookup id ni nd p m ts :
      subscriptions_ m !! id = Some p → sys_step (m, ts) (m, TUpdate p ni nd :: ts)
  | s_update_apply p ni nd now m ts1 ts2 :
      sys_step (m, ts1 ++ TUpdate p ni nd :: ts2) (apply_update p ni nd now m, ts1 ++ ts2)
  | s_detach id p info m m' ts :
      detach id m = (Some (p, info), m') → sys_step (m, ts) (m', TRetire p info :: ts)
  | s_take_expired now m ts :
      sys_step (m, ts) ((take_expired now m).2,
        ((λ x : N * CyclicSubscriptionInfo, TRetire x.1 x.2) <$> (take_expired now m).1) ++ ts)
  | s_deactivate p info m ts1 ts2 :
      sys_step (m, ts1 ++ TRetire p info :: ts2) (deactivate p m, TCallback info :: ts1 ++ ts2)
  | s_shutdown m ts : sys_step (m, ts) (set_shutdown m, TShutdown :: ts)
  | s_detach_all m ts1 ts2 :
      sys_step (m, ts1 ++ TShutdown :: ts2)
        ((detach_all m).2, (TCallback <$> (detach_all m).1) ++ ts1 ++ ts2)
  | s_callback info m ts1 ts2 :
      sys_step (m, ts1 ++ TCallback info :: ts2) (call_removed info m, ts1 ++ ts2)
  | s_notify_lookup id p m ts :
      subscriptions_ m !! id = Some p → sys_step (m, ts) (m, TNotify p :: ts)
  | s_notify p m ts1 ts2 :
      sys_step (m, ts1 ++ TNotify p :: ts2) (notify_state p m, ts1 ++ ts2)
  | s_wait_lookup id p m ts :
      subscriptions_ m !! id = Some p → sys_step (m, ts) (m, TWait p :: ts)
  | s_wait_end p m ts1 ts2 :
      sys_step (m, ts1 ++ TWait p :: ts2) ((wait_end p m).2, ts1 ++ ts2).

(** ** Ids are not reused *)

Definition digit (c : ascii) : N := (N_of_ascii c - 48)%N.

Fixpoint decimal_from (acc : N) (s : string) : N :=
  match s with
  | "" => acc
  | String c s' => decimal_from (10 * acc + digit c) s'
  end.

Lemma digit_pretty n : (n < 10)%N → digit (pretty_N_char n) = n.
Proof.
  intros Hn. assert (n = 0 ∨ n = 1 ∨ n = 2 ∨ n = 3 ∨ n = 4 ∨ n = 5 ∨ n = 6 ∨ n = 7 ∨ n = 8 ∨ n = 9)%N
    as Hcases by lia. by destruct_or! Hcases; subst n.
Qed.

Lemma decimal_from_pretty_go n s : decimal_from 0 (pretty_N_go n s) = decimal_from n s.
Proof.
  revert s. induction (N.lt_wf_0 n) as [n _ IH]; intros s.
  assert (n = 0 ∨ 0 < n)%N as [->|Hn] by lia; [by rewrite pretty_N_go_0|].
  rewrite pretty_N_go_step, IH by (done || by apply N.div_lt). simpl.
  rewrite digit_pretty by (by apply N.mod_lt). f_equal. pose proof (N.div_mod' n 10). lia.
Qed.

Lemma decimal_pretty (n : N) : decimal_from 0 (pretty n) = n.
Proof.
  unfold pretty, pretty_N. case_decide as Hn; [by subst|]. by rewrite decimal_from_pretty_go.
Qed.

Lemma decimal_pad3 s : decimal_from 0 (pad3 s) = decimal_from 0 s.
Proof. unfold pad3. by destruct (String.length s) as [|[|[|]]]. Qed.

#[global] Instance subscription_id_inj : Inj (=) (=) subscription_id.
Proof.
  intros n m H%(inj (String.append "sub_")).
  by rewrite <- (decimal_pretty n), <- (decimal_pretty m), <- (decimal_pad3 (pretty n)), H, decimal_pad3.
Qed.

(** ** Accounting *)

Definition table_ids (m : SubscriptionManager) : list string := (map_entries (subscriptions_ m)).*1.

(** The subscription a task still has to report as removed. *)
Definition leaving (t : task) : list string :=
  match t with TRetire _ i | TCallback i => [si_id i] | _ => [] end.

Definition departing (ts : list task) : list string := ts ≫= leaving.

Definition removed_ids (m : SubscriptionManager) : list string := si_id <$> sm_removed m.

Definition issued (next : N) : list string :=
  (λ i, subscription_id (N.of_nat i)) <$> seq 1 (N.to_nat next - 1).

Record subs_ok (s : SubscriptionManager * list task) : Prop := {
  ok_callback : sm_on_removed s.1 = true;
  ok_table : ∀ id p, subscriptions_ s.1 !! id = Some p →
    ∃ st, sm_heap s.1 !! p = Some st ∧ si_id (ss_info st) = id ∧ ss_active st = true;
  ok_fresh : ∀ p st, sm_heap s.1 !! p = Some st → (p < sm_next_ptr s.1)%N;
  ok_retire : ∀ p info, TRetire p info ∈ s.2 →
    ∃ st, sm_heap s.1 !! p = Some st ∧ si_id (ss_info st) = si_id info;
  ok_accounted :
    table_ids s.1 ++ departing s.2 ++ removed_ids s.1 ≡ₚ issued (sm_next_id s.1);
  ok_capacity : (size (subscriptions_ s.1) ≤ max_subscriptions_ s.1)%nat;
  ok_next : (1 ≤ sm_next_id s.1)%N;
}.

Lemma NoDup_issued n : NoDup (issued n).
Proof. apply NoDup_fmap_2_strong, NoDup_seq. intros x y _ _ H%(inj subscription_id). lia. Qed.

Lemma issued_succ n : (1 ≤ n)%N → issued (n + 1) = issued n ++ [subscription_id n].
Proof.
  intros Hn. unfold issued. replace (N.to_nat (n + 1) - 1)%nat with (S (N.to_nat n - 1)) by lia.
  rewrite seq_S, fmap_app. simpl. do 3 f_equal. lia.
Qed.

Lemma elem_of_table_ids m id : id ∈ table_ids m ↔ is_Some (subscriptions_ m !! id).
Proof.
  unfold table_ids. rewrite list_elem_of_fmap. split.
  - intros ([k p] & -> & Hp%elem_of_map_entries). by eexists.
  - intros [p Hp]. exists (id, p). split; [done|]. by apply elem_of_map_entries.
Qed.

Lemma departing_app ts1 ts2 : departing (ts1 ++ ts2) = departing ts1 ++ departing ts2.
Proof. apply bind_app. Qed.

Lemma keys_delete_perm (ks : list string) (t : gmap string N) :
  NoDup ks → (∀ k, k ∈ ks → is_Some (t !! k)) →
  (map_entries t).*1 ≡ₚ ks ++ (map_entries (foldl (λ t k, delete k t) t ks)).*1.
Proof.
  intros Hnd Hin.
  assert (Hkeys : ∀ (t : gmap string N) k, k ∈ (map_entries t).*1 ↔ is_Some (t !! k)).
  { intros t' k. apply (elem_of_table_ids (mkSubs ∅ 0 t' 0 0 false false [])). }
  apply NoDup_Permutation; [apply NoDup_map_entries_keys| |].
  - apply NoDup_app. split_and!; [done| |apply NoDup_map_entries_keys].
    intros k Hk. rewrite Hkeys, lookup_foldl_delete, bool_decide_eq_true_2 by done. by intros [].
  - intros k. rewrite elem_of_app, !Hkeys, lookup_foldl_delete.
    case_bool_decide; naive_solver.
Qed.

(** ** Preservation *)

(** The live states in iteration order are exactly the table. *)
Lemma states_spec s :
  subs_ok s →
  (states s.1).*1 = table_ids s.1 ∧ si_id <$> (states s.1).*2.*2 = table_ids s.1 ∧
  ∀ e, e ∈ states s.1 → ∃ st, sm_heap s.1 !! e.2.1 = Some st ∧ ss_info st = e.2.2 ∧
    si_id e.2.2 = e.1 ∧ subscriptions_ s.1 !! e.1 = Some e.2.1.
Proof.
  intros Hok. unfold states, table_ids.
  assert (Hall : ∀ e, e ∈ map_entries (subscriptions_ s.1) → subscriptions_ s.1 !! e.1 = Some e.2)
    by (intros [k p]; apply elem_of_map_entries).
  induction (map_entries (subscriptions_ s.1)) as [|[id p] l IH]; [set_solver|].
  destruct IH as (IH1 & IH2 & IH3); [intros e He; apply Hall; by right|].
  pose proof (Hall (id, p) ltac:(left)) as Hp. simpl in Hp.
  destruct (ok_table _ Hok id p Hp) as (st & Hst & Hid & _). simpl. rewrite Hst. simpl.
  split_and!; [by f_equal|by f_equal|].
  intros e [->|He]%elem_of_cons; [|by apply IH3]. by exists st.
Qed.

(** A change of the heap that keeps ids, and the active flag of what is in the
    table. *)
Lemma heap_step_ok m ts h ts' :
  subs_ok (m, ts) → Permutation (departing ts') (departing ts) →
  (∀ p info, TRetire p info ∈ ts' → TRetire p info ∈ ts) →
  (∀ p, (λ st, si_id (ss_info st)) <$> h !! p = (λ st, si_id (ss_info st)) <$> sm_heap m !! p) →
  (∀ id p st, subscriptions_ m !! id = Some p → sm_heap m !! p = Some st →
     ∃ st', h !! p = Some st' ∧ ss_active st' = ss_active st) →
  subs_ok (with_heap h m, ts').
Proof.
  intros [Hcb Ht Hf Hr Hacc Hcap Hn] Hdep Htasks Hids Hact. simpl in *. split; simpl; try done.
  - intros id p Hp. destruct (Ht id p Hp) as (st & Hst & Hid & Hactive).
    destruct (Hact id p st Hp Hst) as (st' & Hst' & Ha). exists st'. split_and!; [done| |congruence].
    specialize (Hids p). rewrite Hst, Hst' in Hids. simpl in Hids. congruence.
  - intros p st Hst. specialize (Hids p). rewrite Hst in Hids.
    destruct (sm_heap m !! p) eqn:E; [by eapply Hf|done].
  - intros p info Hin. destruct (Hr p info (Htasks _ _ Hin)) as (st & Hst & Hid).
    specialize (Hids p). rewrite Hst in Hids. destruct (h !! p) as [st'|]; [|done].
    exists st'. split; [done|]. simpl in Hids. congruence.
  - unfold table_ids, removed_ids in *. simpl. by rewrite Hdep.
Qed.

Lemma alter_heap_ok m ts ts' f p :
  subs_ok (m, ts) → Permutation (departing ts') (departing ts) →
  (∀ p info, TRetire p info ∈ ts' → TRetire p info ∈ ts) →
  (∀ st, si_id (ss_info (f st)) = si_id (ss_info st) ∧ ss_active (f st) = ss_active st) →
  subs_ok (with_heap (alter f p (sm_heap m)) m, ts').
Proof.
  intros Hok Hdep Ht Hf. eapply heap_step_ok; [done..| |].
  - intros q. destruct (decide (q = p)) as [->|Hne].
    + rewrite lookup_alter_eq. destruct (sm_heap m !! p) as [st|]; [|done]. simpl. f_equal. apply Hf.
    + by rewrite lookup_alter_ne.
  - intros id q st _ Hst. destruct (decide (q = p)) as [->|Hne].
    + rewrite lookup_alter_eq, Hst. simpl. eexists. split; [done|]. apply Hf.
    + rewrite lookup_alter_ne by done. eauto.
Qed.

(** The id of a departing subscription is not in the table. *)
Lemma departing_not_in_table m ts id :
  subs_ok (m, ts) → id ∈ departing ts → subscriptions_ m !! id = None.
Proof.
  intros Hok Hid. apply eq_None_not_Some. intros Hs%elem_of_table_ids.
  pose proof (NoDup_issued (sm_next_id m)) as Hnd. rewrite <- (ok_accounted _ Hok) in Hnd.
  simpl in Hnd. apply NoDup_app in Hnd as (_ & Hdisj & _). apply (Hdisj id Hs). set_solver.
Qed.

Lemma deactivate_ok m ts1 ts2 p info :
  subs_ok (m, ts1 ++ TRetire p info :: ts2) →
  subs_ok (deactivate p m, TCallback info :: ts1 ++ ts2).
Proof.
  intros Hok. assert (Hin : si_id info ∈ departing (ts1 ++ TRetire p info :: ts2)).
  { rewrite departing_app. simpl. set_solver. }
  destruct (ok_retire _ Hok p info ltac:(set_solver)) as (st0 & Hst0 & Hid0). simpl in Hst0.
  apply (heap_step_ok m (ts1 ++ TRetire p info :: ts2)); [done| |set_solver| |].
  - unfold departing. simpl. rewrite !bind_app. simpl. apply Permutation_middle.
  - intros q. destruct (decide (q = p)) as [->|Hne].
    + rewrite lookup_alter_eq. by destruct (sm_heap m !! p).
    + by rewrite lookup_alter_ne.
  - intros id q st Hq Hst. destruct (decide (q = p)) as [->|Hne].
    + destruct (ok_table _ Hok id p Hq) as (st1 & Hst1 & Hid1 & _). simpl in Hst1.
      pose proof (departing_not_in_table m _ _ Hok Hin) as Hnone. congruence.
    + rewrite lookup_alter_ne by done. eauto.
Qed.

(** Entries leave the table with a task that reports them. *)
Lemma take_out_ok m ts t' new :
  subs_ok (m, ts) → (∀ id p, t' !! id = Some p → subscriptions_ m !! id = Some p) →
  table_ids m ≡ₚ departing new ++ (map_entries t').*1 →
  (∀ p info, TRetire p info ∈ new → ∃ st, sm_heap m !! p = Some st ∧ ss_info st = info) →
  subs_ok (with_subscriptions t' m, new ++ ts).
Proof.
  intros [Hcb Ht Hf Hr Hacc Hcap Hn] Hsub Hperm Hnew. simpl in *. split; simpl; try done.
  - intros id p Hp. by apply Ht, Hsub.
  - intros p info [Hi|Hi]%elem_of_app; [|by apply Hr].
    destruct (Hnew p info Hi) as (st & Hst & <-). by exists st.
  - unfold removed_ids in *. simpl. rewrite <- Hacc, Hperm, departing_app. unfold table_ids. simpl.
    rewrite <- !app_assoc. apply Permutation_app_swap_app.
  - etrans; [|exact Hcap]. apply map_subseteq_size, map_subseteq_spec, Hsub.
Qed.

Lemma tasks_ok m ts ts' :
  subs_ok (m, ts) → Permutation (departing ts') (departing ts) →
  (∀ p info, TRetire p info ∈ ts' → TRetire p info ∈ ts) → subs_ok (m, ts').
Proof.
  intros Hok Hdep Ht. replace m with (with_heap (sm_heap m) m) by (by destruct m).
  apply (heap_step_ok m ts); [done..|]. eauto.
Qed.

(** A task that has nothing to report disappears. *)
Lemma finish_task_ok m ts1 t ts2 :
  leaving t = [] → (∀ p info, t ≠ TRetire p info) →
  subs_ok (m, ts1 ++ t :: ts2) → subs_ok (m, ts1 ++ ts2).
Proof.
  intros Hl Ht Hok. eapply tasks_ok; [exact Hok| |set_solver].
  rewrite !departing_app. simpl. rewrite Hl. done.
Qed.

Lemma create_ok eid ety uri coll path proto interval dur now m ts :
  (sm_next_id m + 1 < 18446744073709551616)%N → subs_ok (m, ts) →
  subs_ok ((create eid ety uri coll path proto interval dur now m).2, ts).
Proof.
  intros Hwrap Hok. unfold create. destruct (Nat.leb_spec (max_subscriptions_ m) (size (subscriptions_ m)));
    [done|]. unfold generate_id. simpl. rewrite N.mod_small by done.
  destruct Hok as [Hcb Ht Hf Hr Hacc Hcap Hn]. simpl in *.
  set (id := subscription_id (sm_next_id m)).
  assert (Hfresh : id ∉ issued (sm_next_id m)).
  { unfold issued. intros (i & Hi%(inj subscription_id) & Hseq%elem_of_seq)%list_elem_of_fmap. lia. }
  assert (Hnone : subscriptions_ m !! id = None).
  { apply eq_None_not_Some. intros Hs%elem_of_table_ids. apply Hfresh. rewrite <- Hacc. set_solver. }
  assert (Hptr : sm_heap m !! sm_next_ptr m = None).
  { destruct (sm_heap m !! sm_next_ptr m) eqn:E; [|done]. apply Hf in E. lia. }
  split; simpl; try done.
  - intros id' p [[<- <-]|[Hne Hp]]%lookup_insert_Some.
    + rewrite lookup_insert_eq. eexists. done.
    + destruct (Ht id' p Hp) as (st & Hst & ?). exists st.
      rewrite lookup_insert_ne by congruence. done.
  - intros p st [[<- <-]|[Hne Hp]]%lookup_insert_Some; [lia|]. apply Hf in Hp. lia.
  - intros p info Hin. destruct (Hr p info Hin) as (st & Hst & Hid). exists st.
    rewrite lookup_insert_ne by congruence. done.
  - rewrite issued_succ by done. unfold table_ids, removed_ids in *. simpl.
    rewrite map_entries_perm, map_to_list_insert by done. simpl.
    rewrite <- map_entries_perm, Hacc. apply Permutation_cons_append.
  - rewrite map_size_insert_None by done. lia.
  - lia.
Qed.

Lemma detach_ok id p info m m' ts :
  subs_ok (m, ts) → detach id m = (Some (p, info), m') → subs_ok (m', TRetire p info :: ts).
Proof.
  intros Hok Hdet. unfold detach in Hdet.
  destruct (subscriptions_ m !! id) as [q|] eqn:Eq; [|done]. simpl in Hdet.
  destruct (sm_heap m !! q) as [st|] eqn:Est; [|done]. simpl in Hdet. injection Hdet as <- <- <-.
  destruct (ok_table _ Hok id q Eq) as (st' & Hst' & Hid & _). simpl in Hst'.
  apply (take_out_ok m ts _ [TRetire q (ss_info st)]); [done| | |].
  - intros id' q' [_ H]%lookup_delete_Some. done.
  - simpl. assert (si_id (ss_info st) = id) as -> by congruence.
    apply (keys_delete_perm [id] (subscriptions_ m)); [apply NoDup_singleton|].
    intros k ->%list_elem_of_singleton. by eexists.
  - intros p' i [= -> ->]%list_elem_of_singleton. by exists st.
Qed.

Lemma take_expired_ok now m ts :
  subs_ok (m, ts) →
  subs_ok ((take_expired now m).2,
    ((λ x : N * CyclicSubscriptionInfo, TRetire x.1 x.2) <$> (take_expired now m).1) ++ ts).
Proof.
  intros Hok. destruct (states_spec _ Hok) as (Hids & _ & Hst). simpl in *.
  unfold take_expired. cbn [fst snd]. set (ex := filter _ (states m)).
  assert (Hex : ∀ e, e ∈ ex → e ∈ states m) by (intros e [_ ?]%list_elem_of_filter; done).
  assert (Hnd : NoDup ex.*1).
  { apply (NoDup_fmap_sublist fst _ (states m)); [apply sublist_filter|]. rewrite Hids.
    apply NoDup_map_entries_keys. }
  apply take_out_ok; [done| | |].
  - intros id p. rewrite lookup_foldl_delete. by case_bool_decide.
  - assert (departing ((λ x : N * CyclicSubscriptionInfo, TRetire x.1 x.2) <$> ex.*2) = ex.*1) as ->.
    { unfold departing. clear -Hex Hst. induction ex as [|e ex IH]; [done|]. simpl. f_equal.
      - destruct (Hst e (Hex e ltac:(left))) as (? & _ & _ & ? & _). done.
      - apply IH. intros x Hx. apply Hex. by right. }
    apply keys_delete_perm; [done|]. intros k (e & -> & He)%list_elem_of_fmap.
    destruct (Hst e (Hex e He)) as (? & _ & _ & _ & ?). by eexists.
  - intros p info ((q & i) & [= -> ->] & (e & Heq & He)%list_elem_of_fmap)%list_elem_of_fmap.
    destruct (Hst e (Hex e He)) as (st & H1 & H2 & _). rewrite <- Heq in *. by exists st.
Qed.

Lemma deactivate_all_ok ps m ts :
  subs_ok (m, ts) → subscriptions_ m = ∅ →
  subs_ok (foldl (λ m p, deactivate p m) m ps, ts).
Proof.
  revert m. induction ps as [|p ps IH]; intros m Hok Hemp; [done|]. simpl. apply IH; [|done].
  eapply heap_step_ok; [exact Hok|done..| |].
  - intros q. destruct (decide (q = p)) as [->|Hne]; [|by rewrite lookup_alter_ne].
    rewrite lookup_alter_eq. by destruct (sm_heap m !! p).
  - intros id q st. by rewrite Hemp, lookup_empty.
Qed.

Lemma detach_all_ok m ts :
  subs_ok (m, ts) → subs_ok ((detach_all m).2, (TCallback <$> (detach_all m).1) ++ ts).
Proof.
  intros Hok. destruct (states_spec _ Hok) as (_ & Hids & _). simpl in *.
  unfold detach_all. simpl. rewrite (ok_callback _ Hok : sm_on_removed m = true).
  set (ps := ((λ e, e.2) <$> states m).*1). set (infos := ((λ e, e.2) <$> states m).*2).
  assert (Hcomm : ∀ m, with_subscriptions ∅ (foldl (λ m p, deactivate p m) m ps) =
    foldl (λ m p, deactivate p m) (with_subscriptions ∅ m) ps).
  { induction ps as [|p ps' IH]; intros m'; [done|]. simpl. by rewrite IH. }
  rewrite Hcomm. apply deactivate_all_ok; [|done].
  apply take_out_ok; [done|by intros id p; rewrite lookup_empty| |].
  - assert (departing (TCallback <$> infos) = table_ids m) as ->.
    { rewrite <- Hids. subst infos. unfold departing. clear.
      induction (states m) as [|e l IH]; [done|]. simpl. by f_equal. }
    unfold map_entries. simpl. by rewrite app_nil_r.
  - intros p info (i & Hi & _)%list_elem_of_fmap. done.
Qed.

Lemma call_removed_ok m ts1 ts2 info :
  subs_ok (m, ts1 ++ TCallback info :: ts2) → subs_ok (call_removed info m, ts1 ++ ts2).
Proof.
  intros Hok. unfold call_removed. rewrite (ok_callback _ Hok : sm_on_removed m = true).
  destruct Hok as [Hcb Ht Hf Hr Hacc Hcap Hn]. simpl in *. split; simpl; try done.
  - intros p i Hi. apply Hr. set_solver.
  - unfold table_ids, removed_ids in *. simpl. rewrite <- Hacc, fmap_app, !departing_app. simpl.
    apply Permutation_app_head. rewrite <- !app_assoc. apply Permutation_app_head.
    rewrite app_assoc. symmetry. apply Permutation_cons_append.
Qed.

Lemma wait_end_ok m ts p : subs_ok (m, ts) → subs_ok ((wait_end p m).2, ts).
Proof.
  intros Hok. unfold wait_end. destruct (sm_heap m !! p) as [st|] eqn:E; [|done]. simpl.
  assert (<[p := mkSubState (ss_info st) (ss_active st) false]> (sm_heap m) =
    alter (λ st, mkSubState (ss_info st) (ss_active st) false) p (sm_heap m)) as ->.
  { apply map_eq. intros q. destruct (decide (q = p)) as [->|Hne].
    - by rewrite lookup_insert_eq, lookup_alter_eq, E.
    - by rewrite lookup_insert_ne, lookup_alter_ne. }
  by apply (alter_heap_ok m ts).
Qed.

Lemma deactivate_all_fields ps m :
  let m' := foldl (λ m p, deactivate p m) m ps in
  sm_next_id m' = sm_next_id m ∧ max_subscriptions_ m' = max_subscriptions_ m.
Proof. revert m. induction ps as [|p ps IH]; intros m; [done|]. apply (IH (deactivate p m)). Qed.

Lemma sys_step_fields s s' :
  sys_step s s' → (sm_next_id s.1 + 1 < 18446744073709551616)%N →
  (sm_next_id s'.1 ≤ sm_next_id s.1 + 1)%N ∧ max_subscriptions_ s'.1 = max_subscriptions_ s.1.
Proof.
  intros Hstep Hwrap. destruct Hstep as [| | |id p info m m' ts Hd| | | |m ts1 ts2|info m ts1 ts2| | | |p m ts1 ts2];
    simpl in *; try (split; [lia|done]).
  - unfold create. case_match; simpl; [split; [lia|done]|]. rewrite N.mod_small by done. split; [lia|done].
  - unfold detach in Hd. destruct (_ ≫= _); [|done].
    injection Hd as _ <-. simpl. split; [lia|done].
  - destruct (deactivate_all_fields ((λ e, e.2) <$> states m).*1 m) as [-> ->]. split; [lia|done].
  - unfold call_removed. case_match; simpl; split; [lia|done|lia|done].
  - unfold wait_end. case_match; simpl; split; [lia|done|lia|done].
Qed.

Lemma sys_step_ok s s' :
  sys_step s s' → subs_ok s → (sm_next_id s.1 + 1 < 18446744073709551616)%N → subs_ok s'.
Proof.
  intros Hstep Hok Hwrap. destruct Hstep; simpl in *.
  - by apply create_ok.
  - by eapply tasks_ok; [exact Hok|done|set_solver].
  - by apply (alter_heap_ok m (ts1 ++ ts2)); [eapply finish_task_ok; [| |exact Hok]|..].
  - by eapply detach_ok.
  - by apply take_expired_ok.
  - by apply deactivate_ok.
  - apply (tasks_ok _ ts); [|done|set_solver]. by destruct Hok.
  - apply detach_all_ok. by eapply finish_task_ok; [| |exact Hok].
  - by eapply call_removed_ok.
  - by eapply tasks_ok; [exact Hok|done|set_solver].
  - by apply (alter_heap_ok m (ts1 ++ ts2)); [eapply finish_task_ok; [| |exact Hok]|..].
  - by eapply tasks_ok; [exact Hok|done|set_solver].
  - apply wait_end_ok. by eapply finish_task_ok; [| |exact Hok].
Qed.

Lemma new_manager_ok max : subs_ok (new_manager max true, []).
Proof.
  split; simpl; [done|..].
  - intros id p. by rewrite lookup_empty.
  - intros p st. by rewrite lookup_empty.
  - intros p info H. by apply not_elem_of_nil in H.
  - done.
  - unfold new_manager. simpl. rewrite map_size_empty. lia.
  - done.
Qed.

Lemma sys_run_ok n s s' :
  nsteps sys_step n s s' → subs_ok s →
  (sm_next_id s.1 + N.of_nat n < 18446744073709551616)%N →
  subs_ok s' ∧ max_subscriptions_ s'.1 = max_subscriptions_ s.1.
Proof.
  induction 1 as [|n s1 s2 s3 Hstep _ IH]; intros Hok Hwrap; [done|].
  destruct (sys_step_fields _ _ Hstep) as [Hn Hmax]; [lia|]. rewrite <- Hmax.
  apply IH; [|lia]. eapply sys_step_ok; [done..|]. lia.
Qed.

(** C28: However the calls of concurrent threads interleave, the manager never holds
    more subscriptions than its capacity, every subscription in the table is an
    active one filed under its own id, and each id ever issued is in exactly one
    place: in the table, on its way out in a thread that is about to report it,
    or reported to the removal callback, exactly once.  An update racing with a
    removal brings nothing back. *)
Theorem subscription_removed_once max n m ts :
  (1 + N.of_nat n < 18446744073709551616)%N →
  nsteps sys_step n (new_manager max true, []) (m, ts) →
  (active_count m ≤ max)%nat ∧
  (∀ id p, subscriptions_ m !! id = Some p → ∃ st, sm_heap m !! p = Some st ∧
     si_id (ss_info st) = id ∧ ss_active st = true) ∧
  NoDup (table_ids m ++ departing ts ++ removed_ids m) ∧
  table_ids m ++ departing ts ++ removed_ids m ≡ₚ issued (sm_next_id m).
Proof.
  intros Hn Hrun. destruct (sys_run_ok _ _ _ Hrun) as [[_ Ht _ _ Hacc Hcap _] Hmax]; [|done|].
  { apply new_manager_ok. }
  simpl in *. split_and!; [by rewrite <- Hmax|done| |done].
  rewrite Hacc. apply NoDup_issued.
Qed.

(** One subscription created, then taken out by a removing thread that has not
    called back yet. *)
Definition demo_manager : SubscriptionManager :=
  (create "motor" "apps" "/apps/motor/data/temp" "data" "temp" "sse" FAST 60 0
     (new_manager 1 true)).2.

Definition demo_removed : (N * CyclicSubscriptionInfo) * SubscriptionManager :=
  (default (0%N, mkSubInfo "" "" "" "" "" "" "" FAST 0 0 0) (detach "sub_001" demo_manager).1,
   (detach "sub_001" demo_manager).2).

Lemma subscription_removed_once_witness :
  nsteps sys_step 2 (new_manager 1 true, [])
    (demo_removed.2, [TRetire demo_removed.1.1 demo_removed.1.2]) ∧
  departing [TRetire demo_removed.1.1 demo_removed.1.2] = ["sub_001"] ∧
  table_ids demo_removed.2 ++ departing [TRetire demo_removed.1.1 demo_removed.1.2] ++
    removed_ids demo_removed.2 ≡ₚ issued (sm_next_id demo_removed.2).
Proof.
  assert (Hrun : nsteps sys_step 2 (new_manager 1 true, [])
    (demo_removed.2, [TRetire demo_removed.1.1 demo_removed.1.2])).
  { apply (nsteps_l _ _ _ (demo_manager, [])); [apply s_create|].
    eapply nsteps_l; [|apply nsteps_O]. apply (s_detach "sub_001"). vm_compute. reflexivity. }
  split; [exact Hrun|]. split; [vm_compute; reflexivity|].
  exact (proj2 (proj2 (proj2
    (subscription_removed_once 1 2 demo_removed.2 _ ltac:(vm_compute; reflexivity) Hrun)))).
Defined.
