(* ===== verification/LocalFilter.v ===== *)
(** * Local fault filter of the reporter

    [LocalFilter] (fault_reporter/local_filter.cpp): per fault code, a report is
    forwarded once [default_threshold] reports fell into the sliding window.
    Each method holds the mutex; the [steady_clock] reading is an argument. *)

From S2P Require Import Prelude.

Record FilterConfig := mkFilterConfig {
  fc_enabled : bool;
  fc_default_threshold : Z;               (* int *)
  fc_default_window_sec : double;
  fc_bypass_severity : Z;                 (* uint8_t *)
}.

Record LocalFilter := mkFilter {
  lf_config : FilterConfig;
  trackers_ : gmap string (list Z);
  passed_trackers_ : gmap string (list Z);
}.

Definition validate_config (c : FilterConfig) : FilterConfig :=
  mkFilterConfig (fc_enabled c)
    (if (fc_default_threshold c <? 1)%Z then 1%Z else fc_default_threshold c)
    (if f64_leb (fc_default_window_sec c) f64_zero then f64_of_Z 1 else fc_default_window_sec c)
    (fc_bypass_severity c).

Definition new_filter (c : FilterConfig) : LocalFilter := mkFilter (validate_config c) ∅ ∅.

(** [duration_cast<steady_clock::duration>(duration<double>(sec))], nanoseconds. *)
Definition window_ns (c : FilterConfig) : Z :=
  f64_trunc (f64_mul (fc_default_window_sec c) (f64_of_Z 1000000000)).

(** [erase(begin, lower_bound(begin, end, cutoff))] on a sorted vector. *)
Fixpoint drop_before (cutoff : Z) (l : list Z) : list Z :=
  match l with
  | [] => []
  | t :: l' => if (t <? cutoff)%Z then drop_before cutoff l' else l
  end.

Definition cleanup_tracker (c : FilterConfig) (now : Z) (timestamps : list Z) : list Z :=
  let cutoff := (now - window_ns c)%Z in
  match timestamps with
  | [] => timestamps
  | front :: _ => if (cutoff <=? front)%Z then timestamps else drop_before cutoff timestamps
  end.

(** The common tail of the two decisions: the new timestamps and the verdict. *)
Definition track (c : FilterConfig) (now : Z) (timestamps : list Z) : bool * list Z :=
  let ts := cleanup_tracker c now timestamps ++ [now] in
  ((fc_default_threshold c <=? wrap_i32 (Z.of_nat (length ts)))%Z, ts).

Definition should_forward (code : string) (severity now : Z) (f : LocalFilter)
    : bool * LocalFilter :=
  let c := lf_config f in
  if negb (fc_enabled c) then (true, f)
  else if (fc_bypass_severity c <=? severity)%Z then (true, f)
  else
    let '(b, ts) := track c now (default [] (trackers_ f !! code)) in
    (b, mkFilter c (<[code := ts]> (trackers_ f)) (passed_trackers_ f)).

Definition should_forward_passed (code : string) (now : Z) (f : LocalFilter)
    : bool * LocalFilter :=
  let c := lf_config f in
  if negb (fc_enabled c) then (true, f)
  else
    let '(b, ts) := track c now (default [] (passed_trackers_ f !! code)) in
    (b, mkFilter c (trackers_ f) (<[code := ts]> (passed_trackers_ f))).

Definition reset (code : string) (f : LocalFilter) : LocalFilter :=
  mkFilter (lf_config f) (delete code (trackers_ f)) (delete code (passed_trackers_ f)).

Definition reset_all (f : LocalFilter) : LocalFilter := mkFilter (lf_config f) ∅ ∅.

Definition set_config (c : FilterConfig) (f : LocalFilter) : LocalFilter :=
  mkFilter (validate_config c) ∅ ∅.

(** ** The sliding window *)

Definition ascending (l : list Z) : Prop := StronglySorted Z.le l.

Lemma drop_before_filter cutoff l :
  ascending l → drop_before cutoff l = filter (λ t, (cutoff ≤ t)%Z) l.
Proof.
  induction 1 as [|t l Hl IH Hall]; [done|]. simpl. rewrite filter_cons.
  destruct (Z.ltb_spec t cutoff); [by rewrite decide_False by lia|].
  rewrite decide_True by lia. f_equal. symmetry. apply filter_all. intros x Hx.
  rewrite Forall_forall in Hall. specialize (Hall x Hx). lia.
Qed.

Lemma cleanup_tracker_filter c now l :
  ascending l → cleanup_tracker c now l = filter (λ t, (now - window_ns c ≤ t)%Z) l.
Proof.
  intros Hl. unfold cleanup_tracker. destruct l as [|t l]; [done|].
  destruct (Z.leb_spec (now - window_ns c) t); [|by apply drop_before_filter].
  symmetry. apply filter_all. inv Hl. rename select (Forall _ l) into Hall.
  rewrite Forall_forall in Hall. intros x [->|Hx]%elem_of_cons; [done|].
  specialize (Hall x Hx). lia.
Qed.

Lemma ascending_snoc l now : ascending l → (∀ t, t ∈ l → (t ≤ now)%Z) → ascending (l ++ [now]).
Proof.
  intros Hl Hle. unfold ascending. induction Hl as [|t l Hl IH Hall]; simpl.
  { repeat constructor. }
  constructor; [apply IH; set_solver|]. apply Forall_app. split; [done|].
  constructor; [apply Hle; left|done].
Qed.

(** ** Runs *)

Inductive filter_event :=
  | Failed (code : string) (severity now : Z)
  | Passed (code : string) (now : Z).

Definition event_time (e : filter_event) : Z :=
  match e with Failed _ _ now => now | Passed _ now => now end.

Definition filter_step (f : LocalFilter) (e : filter_event) : LocalFilter :=
  match e with
  | Failed code severity now => (should_forward code severity now f).2
  | Passed code now => (should_forward_passed code now f).2
  end.

(** The times of the counted FAILED reports of [code]. *)
Definition history (c : FilterConfig) (code : string) (evs : list filter_event) : list Z :=
  omap (λ e, match e with
    | Failed code' severity now =>
        if (code' =?ₛ code) && negb (fc_bypass_severity c <=? severity)%Z then Some now else None
    | Passed _ _ => None
    end) evs.

Lemma length_history c code evs : length (history c code evs) ≤ length evs.
Proof. induction evs as [|e evs IH]; simpl; [done|]. case_match; simpl; lia. Qed.

(** The tracker has all that later windows can ask for. *)
Record tracks (c : FilterConfig) (l ts : list Z) (now : Z) : Prop := {
  tr_sorted : ascending ts;
  tr_past : ∀ t, t ∈ ts → (t ≤ now)%Z;
  tr_window : ∀ cut, (now - window_ns c ≤ cut)%Z →
    filter (λ t, (cut ≤ t)%Z) ts = filter (λ t, (cut ≤ t)%Z) l;
}.

Lemma filter_cut_twice (cut cut' : Z) (l : list Z) :
  (cut' ≤ cut)%Z →
  filter (λ t, (cut ≤ t)%Z) (filter (λ t, (cut' ≤ t)%Z) l) = filter (λ t, (cut ≤ t)%Z) l.
Proof. intros Hle. rewrite list_filter_filter. apply list_filter_iff. lia. Qed.

Lemma tracks_later c l ts now now' : tracks c l ts now → (now ≤ now')%Z → tracks c l ts now'.
Proof.
  intros [Hs Hp Hw] Hle. split; [done| |].
  - intros t Ht. specialize (Hp t Ht). lia.
  - intros cut Hc. apply Hw. lia.
Qed.

Lemma track_spec c l ts now now' :
  tracks c l ts now → (now ≤ now')%Z →
  (track c now' ts).2 = filter (λ t, (now' - window_ns c ≤ t)%Z) l ++ [now'] ∧
  tracks c (l ++ [now']) (track c now' ts).2 now'.
Proof.
  intros [Hs Hp Hw] Hle. unfold track. simpl. rewrite cleanup_tracker_filter by done.
  rewrite Hw by lia. split; [done|]. split.
  - apply ascending_snoc.
    + rewrite <- (Hw (now' - window_ns c)%Z) by lia. by apply StronglySorted_filter.
    + intros t Ht. rewrite <- (Hw (now' - window_ns c)%Z) in Ht by lia.
      apply list_elem_of_filter in Ht as [_ Ht]. specialize (Hp t Ht). lia.
  - intros t [Ht|Ht]%elem_of_app; [|set_solver by lia].
    rewrite <- (Hw (now' - window_ns c)%Z) in Ht by lia.
    apply list_elem_of_filter in Ht as [_ Ht]. specialize (Hp t Ht). lia.
  - intros cut Hc. rewrite !filter_app, filter_cut_twice by lia. done.
Qed.

Lemma filter_run_tracks c code evs : ∀ f l now,
  lf_config f = c → fc_enabled c = true →
  tracks c l (default [] (trackers_ f !! code)) now →
  StronglySorted Z.le (now :: (event_time <$> evs)) →
  let f' := foldl filter_step f evs in
  lf_config f' = c ∧
  ∃ now', (now ≤ now')%Z ∧ (∀ t, t ∈ event_time <$> evs → (t ≤ now')%Z) ∧
    (∀ t, (∀ x, x ∈ now :: (event_time <$> evs) → (x ≤ t)%Z) → (now' ≤ t)%Z) ∧
    tracks c (l ++ history c code evs) (default [] (trackers_ f' !! code)) now'.
Proof.
  induction evs as [|e evs IH]; intros f l now Hc Hen Htr Hsort; simpl.
  { split; [done|]. exists now. rewrite app_nil_r. split_and!; [lia|set_solver|set_solver|done]. }
  apply StronglySorted_inv in Hsort as [Hs Hall].
  apply Forall_cons in Hall as [Hle Hall].
  assert (Hstep : lf_config (filter_step f e) = c ∧
    tracks c (l ++ history c code [e]) (default [] (trackers_ (filter_step f e) !! code))
      (event_time e)).
  { destruct e as [code' sev t|code' t]; simpl in *.
    - unfold should_forward. rewrite Hc, Hen. simpl.
      destruct (fc_bypass_severity c <=? sev)%Z eqn:Eb; simpl.
      + rewrite andb_false_r. rewrite app_nil_r. split; [done|]. by eapply tracks_later.
      + split; [done|]. unfold str_eqb. destruct (decide (code' = code)) as [->|Hne].
        * rewrite bool_decide_eq_true_2, lookup_insert_eq by done. simpl.
          by eapply (track_spec _ l _ now).
        * rewrite bool_decide_eq_false_2, lookup_insert_ne by done. simpl. rewrite app_nil_r.
          by eapply tracks_later.
    - unfold should_forward_passed. rewrite Hc, Hen. simpl. rewrite app_nil_r. split; [done|].
      by eapply tracks_later. }
  destruct Hstep as [Hc' Htr'].
  destruct (IH (filter_step f e) _ _ Hc' Hen Htr' Hs) as (Hcf & now' & H1 & H2 & H3 & H4).
  split; [done|]. exists now'. split_and!; [lia| | |].
  - intros t [->|Ht]%elem_of_cons; [done|by apply H2].
  - intros t Ht. apply H3. intros x Hx. apply Ht. by right.
  - rewrite <- app_assoc in H4. simpl in H4. by case_match.
Qed.

(** The filter is an exact sliding-window counter.  After any run of FAILED and
    PASSED reports of any codes at non-decreasing times, a further FAILED report
    below the bypass severity is forwarded exactly when it and the earlier counted
    reports of the same code not older than the window number at least the
    threshold. *)
Theorem forward_iff_window_count config code severity now evs :
  let c := validate_config config in
  fc_enabled c = true → (severity < fc_bypass_severity c)%Z →
  StronglySorted Z.le ((event_time <$> evs) ++ [now]) → (Z.of_nat (length evs) + 1 ≤ int32_max)%Z →
  (should_forward code severity now (foldl filter_step (new_filter config) evs)).1 =
  bool_decide (fc_default_threshold c ≤
    Z.of_nat (S (length (filter (λ t, (now - window_ns c ≤ t)%Z) (history c code evs)))))%Z.
Proof.
  intros c Hen Hsev Hsort Hlen.
  assert (Hc0 : lf_config (new_filter config) = c) by done. clearbody c.
  assert (Hhist : length (filter (λ t, (now - window_ns c ≤ t)%Z) (history c code evs)) ≤ length evs).
  { etrans; [apply length_filter|]. apply length_history. }
  set (t0 := default now (head (event_time <$> evs))).
  assert (Hs0 : StronglySorted Z.le (t0 :: (event_time <$> evs)) ∧
    ∀ x, x ∈ t0 :: (event_time <$> evs) → (x ≤ now)%Z).
  { unfold t0. clear t0. destruct (event_time <$> evs) as [|t ts]; simpl in *.
    - split; [repeat constructor|]. set_solver by lia.
    - apply StronglySorted_inv in Hsort as [Hsort Hall].
      apply StronglySorted_app in Hsort as (Hle & Hts & _).
      apply Forall_app in Hall as [Hall Hnow]. rewrite Forall_singleton in Hnow.
      split; [by repeat constructor|].
      intros x Hx. assert (x = t ∨ x ∈ ts) as [->|Hx2] by set_solver;
        [done|]. apply Hle; set_solver. }
  destruct Hs0 as [Hs0 Hnow].
  destruct (filter_run_tracks c code evs (new_filter config) [] t0)
    as (Hc & now' & _ & _ & Hmax & Htr); [done|done| |done|].
  { simpl. rewrite lookup_empty. split; [constructor|set_solver|done]. }
  specialize (Hmax now Hnow).
  unfold should_forward. rewrite Hc, Hen. simpl.
  replace (fc_bypass_severity c <=? severity)%Z with false by (symmetry; by apply Z.leb_gt).
  destruct (track_spec c _ _ _ now Htr Hmax) as [Hts _].
  unfold track in *. simpl in *. rewrite Hts, length_app. simpl.
  rewrite wrap_i32_id by (unfold in_i32, int32_min, int32_max in *; lia).
  rewrite Nat.add_1_r. apply eq_bool_prop_intro. by rewrite bool_decide_spec, Is_true_true, Z.leb_le.
Qed.
