(* ===== verification/AlarmStateMachine.v ===== *)
(** * OPC-UA alarm bridge

    [AlarmStateMachine::compute] (opcua alarm_state_machine.hpp): the pure
    mapping from AlarmConditionType events to the SOVD fault lifecycle, and the
    fault visibility that the resulting actions produce. *)

From S2P Require Import Prelude.

Inductive SovdAlarmStatus := Suppressed | Confirmed | Healed | Cleared.
Inductive AlarmAction := NoOp | ReportConfirmed | ReportHealed | ClearFault.

#[global] Instance SovdAlarmStatus_eq_dec : EqDecision SovdAlarmStatus.
Proof. solve_decision. Defined.
#[global] Instance AlarmAction_eq_dec : EqDecision AlarmAction.
Proof. solve_decision. Defined.

Record AlarmEventInput := mkAlarmEvent {
  enabled_state : bool;
  active_state : bool;
  active_state_present : bool;
  acked_state : bool;
  confirmed_state : bool;
  shelved : bool;
  branch_id_present : bool;
}.

Record Outcome := mkOutcome {
  next_status : SovdAlarmStatus;
  action : AlarmAction;
}.

Definition compute (prev_status : SovdAlarmStatus) (i : AlarmEventInput)
    (require_confirm_for_clear : bool) : Outcome :=
  if branch_id_present i then mkOutcome prev_status NoOp
  else
    let was_active := bool_decide (prev_status = Confirmed) || bool_decide (prev_status = Healed) in
    if negb (enabled_state i) then
      if was_active then mkOutcome Cleared ClearFault else mkOutcome Suppressed NoOp
    else if shelved i then
      if was_active then mkOutcome Cleared ClearFault else mkOutcome Suppressed NoOp
    else if active_state i then
      if bool_decide (prev_status = Confirmed) then mkOutcome Confirmed NoOp
      else mkOutcome Confirmed ReportConfirmed
    else
      let clear_ready :=
        acked_state i && (confirmed_state i || negb require_confirm_for_clear) in
      if clear_ready then
        if bool_decide (prev_status = Cleared) || bool_decide (prev_status = Suppressed)
        then mkOutcome Cleared NoOp
        else mkOutcome Cleared ClearFault
      else if bool_decide (prev_status = Healed) then mkOutcome Healed NoOp
      else mkOutcome Healed ReportHealed.

(** ** The fault list behind the bridge

    [ReportConfirmed] raises the fault, [ClearFault] removes it, [ReportHealed]
    and [NoOp] leave it as it is. *)

Definition visible_after (visible : bool) (a : AlarmAction) : bool :=
  match a with ReportConfirmed => true | ClearFault => false | ReportHealed | NoOp => visible end.

Definition alarm_step (require_confirm : bool) (st : SovdAlarmStatus * bool)
    (i : AlarmEventInput) : SovdAlarmStatus * bool :=
  let o := compute st.1 i require_confirm in
  (next_status o, visible_after st.2 (action o)).

(** ** The specification: a latch *)

(** A live event: not of a historical branch. *)
Definition raises (i : AlarmEventInput) : bool :=
  negb (branch_id_present i) && enabled_state i && negb (shelved i) && active_state i.

(** The operator's workflow is complete, or the alarm is masked. *)
Definition releases (require_confirm : bool) (i : AlarmEventInput) : bool :=
  negb (branch_id_present i) &&
  (negb (enabled_state i) || shelved i ||
   negb (active_state i) && acked_state i && (confirmed_state i || negb require_confirm)).

Definition latch_step (require_confirm : bool) (visible : bool) (i : AlarmEventInput) : bool :=
  if raises i then true else if releases require_confirm i then false else visible.

(** What the tracked status says about visibility. *)
Definition status_visible (s : SovdAlarmStatus) (visible : bool) : Prop :=
  match s with
  | Confirmed => visible = true
  | Suppressed | Cleared => visible = false
  | Healed => True
  end.

Lemma alarm_step_latch rc s v i :
  status_visible s v →
  (alarm_step rc (s, v) i).2 = latch_step rc v i ∧
  status_visible (alarm_step rc (s, v) i).1 (alarm_step rc (s, v) i).2.
Proof.
  unfold alarm_step, latch_step, raises, releases, compute.
  destruct i as [en act pres ack conf shel br], s; simpl; intros Hv; subst;
    destruct br, en, shel, act, ack, conf, rc; simpl; try done; by destruct v.
Qed.

(** From the initial suppressed state, the actions computed over any sequence of
    events keep the fault list equal to a simple latch: a live active event raises
    the fault, and it stays listed until a live event masks the alarm (disabled or
    shelved) or reports it inactive, acknowledged and (if required) confirmed.
    Historical branches change nothing. *)
Theorem alarm_refines_latch rc (events : list AlarmEventInput) :
  (foldl (alarm_step rc) (Suppressed, false) events).2 =
    foldl (latch_step rc) false events.
Proof.
  assert (H : ∀ s v, status_visible s v →
    (foldl (alarm_step rc) (s, v) events).2 = foldl (latch_step rc) v events);
    [|by apply H].
  induction events as [|i events IH]; intros s v Hv; simpl; [done|].
  destruct (alarm_step_latch rc s v i Hv) as [<- Hv'].
  destruct (alarm_step rc (s, v) i) as [s' v']. by apply IH.
Qed.

(** The machine is edge triggered: a confirmed alarm that is reported active
    again produces no action, so a fault is reported again only after the alarm
    was seen inactive or masked. *)
Theorem alarm_reports_edges rc prev i :
  action (compute prev i rc) = ReportConfirmed ↔ raises i = true ∧ prev ≠ Confirmed.
Proof.
  unfold compute, raises.
  destruct i as [en act pres ack conf shel br], prev, br, en, shel, act; simpl;
    try naive_solver; destruct ack, conf, rc; simpl; naive_solver.
Qed.

(** A branch event keeps the previous status; it is not suppressed. *)
Lemma branch_keeps_status prev i rc :
  branch_id_present i = true → compute prev i rc = mkOutcome prev NoOp.
Proof. intros H. unfold compute. by rewrite H. Qed.
