(* ===== verification/DataPointSuggest.v ===== *)
(** * Suggestions for misspelt data points

    The helpers of core/data_point_suggest.hpp: the two-row edit distance, the
    sanitized leaf of a PLC symbol, the best suggestion and the ranked list.  The
    edit distance is shown to be the least number of single-character insertions,
    deletions and substitutions. *)

From S2P Require Import Prelude.
From stdpp Require Import relations.

(** ** Edit distance *)

(** The inner loop over [b]: [diag] is [prev[j - 1]], [up] starts at [prev[j]],
    [left] is [cur[j - 1]]. *)
Fixpoint fill_row (c : ascii) (b : list ascii) (diag : nat) (up : list nat) (left : nat) : list nat :=
  match b, up with
  | d :: b', u :: up' =>
      let sub := diag + (if bool_decide (c = d) then 0 else 1) in
      let v := Nat.min (Nat.min (u + 1) (left + 1)) sub in
      v :: fill_row c b' u up' v
  | _, _ => []
  end.

(** One round of the outer loop, [i] its counter. *)
Definition next_row (i : nat) (c : ascii) (b : list ascii) (prev : list nat) : list nat :=
  match prev with
  | [] => []
  | diag :: up => i :: fill_row c b diag up i
  end.

Fixpoint rows (i : nat) (a b : list ascii) (prev : list nat) : list nat :=
  match a with
  | [] => prev
  | c :: a' => rows (S i) a' b (next_row i c b prev)
  end.

Definition edit_distance_chars (a b : list ascii) : nat :=
  default 0 (last (rows 1 a b (seq 0 (S (length b))))).

Definition edit_distance (a b : string) : nat :=
  edit_distance_chars (String.list_ascii_of_string a) (String.list_ascii_of_string b).

Section EditDistance.
Context {A : Type} `{EqDecision A}.
Implicit Types (a b s t u v : list A).

(** One insertion, deletion or substitution. *)
Inductive edit_step : relation (list A) :=
  | edit_insert u v x : edit_step (u ++ v) (u ++ x :: v)
  | edit_delete u v x : edit_step (u ++ x :: v) (u ++ v)
  | edit_substitute u v x y : edit_step (u ++ x :: v) (u ++ y :: v).

(** [n] is the least number of edits from [a] to [b]. *)
Definition least_edits (n : nat) (a b : list A) : Prop :=
  nsteps edit_step n a b ∧ ∀ m, nsteps edit_step m a b → n ≤ m.

(** ** Alignments *)

Definition differs (x y : A) : nat := if bool_decide (x = y) then 0 else 1.

Inductive align : list A → list A → nat → Prop :=
  | align_nil : align [] [] 0
  | align_del x s t n : align s t n → align (x :: s) t (S n)
  | align_ins y s t n : align s t n → align s (y :: t) (S n)
  | align_sub x y s t n : align s t n → align (x :: s) (y :: t) (differs x y + n).

Lemma differs_refl x : differs x x = 0.
Proof. unfold differs. by rewrite bool_decide_true. Qed.

Lemma differs_le x y : differs x y ≤ 1.
Proof. unfold differs. case_bool_decide; lia. Qed.

Lemma align_refl s : align s s 0.
Proof.
  induction s as [|x s IH]; [constructor|].
  pose proof (align_sub x x s s 0 IH) as H. by rewrite differs_refl in H.
Qed.

Lemma align_app s t n s' t' m : align s t n → align s' t' m → align (s ++ s') (t ++ t') (n + m).
Proof.
  intros H1 H2. induction H1; simpl; [done|by constructor..|].
  rewrite <- Nat.add_assoc. by constructor.
Qed.

Lemma align_reverse s t n : align s t n → align (reverse s) (reverse t) n.
Proof.
  induction 1 as [|x s t n _ IH|y s t n _ IH|x y s t n _ IH]; [constructor|..]; rewrite ?reverse_cons.
  - rewrite <- (app_nil_r (reverse t)), <- (Nat.add_1_r n). apply align_app; [done|].
    apply (align_del x [] [] 0). constructor.
  - rewrite <- (app_nil_r (reverse s)), <- (Nat.add_1_r n). apply align_app; [done|].
    apply (align_ins y [] [] 0). constructor.
  - rewrite Nat.add_comm. apply align_app; [done|].
    pose proof (align_sub x y [] [] 0 align_nil) as H. by rewrite Nat.add_0_r in H.
Qed.

(** An alignment is a script of as many edits. *)
Lemma edit_cons x : Proper (edit_step ==> edit_step) (cons x).
Proof.
  intros s t [u v y|u v y|u v y z].
  - apply (edit_insert (x :: u)).
  - apply (edit_delete (x :: u)).
  - apply (edit_substitute (x :: u)).
Qed.

Lemma nsteps_cons x n s t : nsteps edit_step n s t → nsteps edit_step n (x :: s) (x :: t).
Proof.
  induction 1 as [|n s s' t Hst _ IH]; [constructor|]. econstructor; [|exact IH]. by apply edit_cons.
Qed.

Lemma align_nsteps s t n : align s t n → nsteps edit_step n s t.
Proof.
  induction 1 as [|x s t n _ IH|y s t n _ IH|x y s t n _ IH]; [constructor|..].
  - econstructor; [|exact IH]. apply (edit_delete []).
  - econstructor; [apply (edit_insert [] _ y)|]. by apply nsteps_cons.
  - unfold differs. case_bool_decide as E; simpl.
    + subst. by apply nsteps_cons.
    + econstructor; [apply (edit_substitute [] _ x y)|]. by apply nsteps_cons.
Qed.

(** One edit more costs at most one more. *)
Lemma align_cheaper n m s t : n ≤ m → align s t n → ∃ k, k ≤ m ∧ align s t k.
Proof. by exists n. Qed.

Lemma align_step s t t' n : align s t n → edit_step t t' → ∃ k, k ≤ S n ∧ align s t' k.
Proof.
  intros H Hstep. revert t' Hstep. induction H as [|x s t n H IH|y s t n H IH|x y s t n H IH]; intros t' Hstep.
  - inversion Hstep as [u v x E|u v x E|u v x y E]; [|by destruct u..].
    destruct u, v; simplify_eq/=. exists 1. split; [lia|]. repeat constructor.
  - destruct (IH t' Hstep) as (k & Hk & Ha). exists (S k). split; [lia|]. by constructor.
  - inversion Hstep as [u v z E|u v z E|u v z w E]; destruct u as [|d u]; simplify_eq/=.
    + exists (S (S n)). split; [lia|]. by repeat constructor.
    + destruct (IH (u ++ z :: v)) as (k & ? & ?); [constructor|]. exists (S k). split; [lia|]. by constructor.
    + exists n. split; [lia|done].
    + destruct (IH (u ++ v)) as (k & ? & ?); [constructor|]. exists (S k). split; [lia|]. by constructor.
    + exists (S n). split; [lia|]. by constructor.
    + destruct (IH (u ++ w :: v)) as (k & ? & ?); [constructor|]. exists (S k). split; [lia|]. by constructor.
  - pose proof (differs_le x y).
    inversion Hstep as [u v z E|u v z E|u v z w E]; destruct u as [|d u]; simplify_eq/=.
    + exists (S (differs x y + n)). split; [lia|]. by repeat constructor.
    + destruct (IH (u ++ z :: v)) as (k & ? & ?); [constructor|].
      eexists. split; [|eapply align_sub; eassumption]. lia.
    + exists (S n). split; [lia|]. by constructor.
    + destruct (IH (u ++ v)) as (k & ? & ?); [constructor|].
      eexists. split; [|eapply align_sub; eassumption]. lia.
    + pose proof (differs_le x w). exists (differs x w + n). split; [lia|]. by constructor.
    + destruct (IH (u ++ w :: v)) as (k & ? & ?); [constructor|].
      eexists. split; [|eapply align_sub; eassumption]. lia.
Qed.

Lemma nsteps_align n s t : nsteps edit_step n s t → ∃ k, k ≤ n ∧ align s t k.
Proof.
  revert t. induction n as [|n IH]; intros t H.
  - inversion H. subst. exists 0. split; [done|]. apply align_refl.
  - apply nsteps_inv_r in H as (t0 & H & Hstep). destruct (IH t0 H) as (k & Hk & Ha).
    destruct (align_step _ _ _ _ Ha Hstep) as (k' & Hk' & Ha'). exists k'. split; [lia|done].
Qed.

(** The least cost of an alignment. *)
Definition optimal (n : nat) (s t : list A) : Prop :=
  align s t n ∧ ∀ m, align s t m → n ≤ m.

Lemma optimal_least_edits n s t : optimal n s t → least_edits n s t.
Proof.
  intros [Ha Hmin]. split; [by apply align_nsteps|].
  intros m (k & Hk & Hal)%nsteps_align. specialize (Hmin k Hal). lia.
Qed.

Lemma align_snoc_inv s x t y n :
  align (s ++ [x]) (t ++ [y]) n →
  (∃ m, n = S m ∧ align s (t ++ [y]) m) ∨ (∃ m, n = S m ∧ align (s ++ [x]) t m) ∨
  (∃ m, n = m + differs x y ∧ align s t m).
Proof.
  intros H%align_reverse. rewrite !reverse_snoc in H.
  inversion H as [|? ? ? m Hm|? ? ? m Hm|? ? ? ? m Hm]; subst; apply align_reverse in Hm;
    rewrite ?reverse_cons, ?reverse_involutive in Hm.
  - left. eauto.
  - right; left. eauto.
  - right; right. exists m. split; [lia|done].
Qed.

Lemma align_nil_l t n : align [] t n → n = length t.
Proof.
  remember [] as s. induction 1 as [|x s t n _ IH|y s t n _ IH|x y s t n _ IH]; simplify_eq/=; auto.
Qed.

Lemma align_nil_r s n : align s [] n → n = length s.
Proof.
  remember [] as t. induction 1 as [|x s t n _ IH|y s t n _ IH|x y s t n _ IH]; simplify_eq/=; auto.
Qed.

Lemma align_inserts t : align [] t (length t).
Proof. induction t; by constructor. Qed.

Lemma align_deletes s : align s [] (length s).
Proof. induction s; by constructor. Qed.

Lemma optimal_nil_l t : optimal (length t) [] t.
Proof. split; [apply align_inserts|]. intros m ->%align_nil_l. done. Qed.

Lemma optimal_nil_r s : optimal (length s) s [].
Proof. split; [apply align_deletes|]. intros m ->%align_nil_r. done. Qed.

(** The recurrence of the table. *)
Lemma optimal_snoc s x t y diag up left :
  optimal diag s t → optimal up s (t ++ [y]) → optimal left (s ++ [x]) t →
  optimal (Nat.min (Nat.min (up + 1) (left + 1)) (diag + differs x y)) (s ++ [x]) (t ++ [y]).
Proof.
  intros [Hd Hd'] [Hu Hu'] [Hl Hl']. split.
  - destruct (Nat.min_spec (Nat.min (up + 1) (left + 1)) (diag + differs x y)) as [[_ ->]|[_ ->]];
      [destruct (Nat.min_spec (up + 1) (left + 1)) as [[_ ->]|[_ ->]]|].
    + rewrite <- (app_nil_r (t ++ [y])). apply align_app; [done|]. repeat constructor.
    + rewrite <- (app_nil_r (s ++ [x])). apply align_app; [done|]. repeat constructor.
    + apply align_app; [done|]. pose proof (align_sub x y [] [] 0 align_nil) as H.
      by rewrite Nat.add_0_r in H.
  - intros m [(k & -> & H%Hu')|[(k & -> & H%Hl')|(k & -> & H%Hd')]]%align_snoc_inv; lia.
Qed.
End EditDistance.

(** ** The table rows *)

(** [row] holds the distances of [s] to the prefixes of [b] that end in [b2]. *)
Definition is_row (s b1 b2 : list ascii) (row : list nat) : Prop :=
  length row = length b2 ∧ ∀ j d, row !! j = Some d → optimal d s (b1 ++ take (S j) b2).

Lemma fill_row_spec s c b1 b2 diag up left :
  optimal diag s b1 → is_row s b1 b2 up → optimal left (s ++ [c]) b1 →
  is_row (s ++ [c]) b1 b2 (fill_row c b2 diag up left).
Proof.
  revert b1 diag up left. induction b2 as [|d b2 IH]; intros b1 diag up left Hd [Hlen Hup] Hl.
  { by split. }
  destruct up as [|u up]; [done|]. simpl.
  assert (Hu : optimal u s (b1 ++ [d])) by (by apply (Hup 0)).
  pose proof (optimal_snoc s c b1 d diag u left Hd Hu Hl) as Hv. fold (differs c d).
  destruct (IH (b1 ++ [d]) u up (Nat.min (Nat.min (u + 1) (left + 1)) (diag + differs c d)) Hu)
    as [Hlen' Hrow]; [|done|].
  - split; [by injection Hlen|]. intros j e He. rewrite <- app_assoc. by apply (Hup (S j)).
  - split; [simpl; by rewrite Hlen'|]. intros [|j] e He; simpl in He.
    + injection He as <-. done.
    + apply Hrow in He. by rewrite <- app_assoc in He.
Qed.

(** A whole row: the distance to the empty prefix, then the rest. *)
Definition full_row (s b : list ascii) (row : list nat) : Prop :=
  ∃ d up, row = d :: up ∧ optimal d s [] ∧ is_row s [] b up.

Lemma next_row_spec s c b row :
  full_row s b row → full_row (s ++ [c]) b (next_row (S (length s)) c b row).
Proof.
  intros (d & up & -> & Hd & Hup). simpl. eexists _, _. split; [done|].
  assert (Hl : optimal (S (length s)) (s ++ [c]) []).
  { pose proof (optimal_nil_r (s ++ [c])) as H. by rewrite length_app, Nat.add_1_r in H. }
  split; [done|]. by apply fill_row_spec.
Qed.

Lemma rows_spec s a b row :
  full_row s b row → full_row (s ++ a) b (rows (S (length s)) a b row).
Proof.
  revert s row. induction a as [|c a IH]; intros s row H; simpl; [by rewrite app_nil_r|].
  apply next_row_spec with (c := c), IH in H. by rewrite <- app_assoc, length_app, Nat.add_1_r in H.
Qed.

Lemma first_row b : full_row [] b (seq 0 (S (length b))).
Proof.
  eexists _, _. split; [done|]. split; [apply (optimal_nil_l [])|]. split; [apply length_seq|].
  intros j d [-> Hj]%lookup_seq. pose proof (optimal_nil_l (take (S j) b)) as H.
  rewrite length_take, Nat.min_l in H by lia. done.
Qed.

(** The two-row table computes the least number of single-character insertions,
    deletions and substitutions that turn one string into the other. *)
Theorem edit_distance_least a b :
  least_edits (edit_distance a b) (String.list_ascii_of_string a) (String.list_ascii_of_string b).
Proof.
  unfold edit_distance, edit_distance_chars. set (s := String.list_ascii_of_string a).
  set (t := String.list_ascii_of_string b).
  destruct (rows_spec [] s t _ (first_row t)) as (d & up & Hrow & Hd & Hlen & Hup). simpl in *.
  rewrite Hrow. apply optimal_least_edits. destruct (decide (t = [])) as [->|Ht].
  - by destruct up.
  - assert (Hpos : 0 < length t) by (destruct t; [done|simpl; lia]).
    destruct (lookup_lt_is_Some_2 up (length t - 1) ltac:(lia)) as [e He].
    assert (last (d :: up) = Some e) as ->.
    { rewrite last_lookup. simpl. rewrite Hlen. destruct (length t); [lia|]. simpl in *.
      by rewrite Nat.sub_0_r in He. }
    simpl. apply Hup in He. by rewrite take_ge in He by lia.
Qed.

(** ** Suggestions *)

(** [find_last_of("./")] and the substring after it. *)
Fixpoint after_separator (s : string) : option string :=
  match s with
  | "" => None
  | String c s' =>
      match after_separator s' with
      | Some t => Some t
      | None => if bool_decide (c = "."%char) || bool_decide (c = "/"%char) then Some s' else None
      end
  end.

(** [std::tolower] in the "C" locale. *)
Definition tolower (c : ascii) : ascii :=
  let n := N_of_ascii c in
  if ((65 <=? n) && (n <=? 90))%N then ascii_of_N (n + 32) else c.

Definition sanitize_char (c : ascii) : ascii :=
  if isalnum c then tolower c
  else if bool_decide (c = "_"%char) || bool_decide (c = "-"%char) then c
  else "_"%char.

Fixpoint map_chars (f : ascii → ascii) (s : string) : string :=
  match s with "" => "" | String c s' => String (f c) (map_chars f s') end.

Definition sanitized_leaf (input : string) : string :=
  map_chars sanitize_char (default input (after_separator input)).

Definition budget (s : string) : nat := Nat.max 2 (String.length s / 4).

(** [None] is [SIZE_MAX]: the name is not close enough. *)
Definition suggestion_score (input leaf name : string) : option nat :=
  let d_input := edit_distance input name in
  let score := if d_input <=? budget input then Some d_input else None in
  if leaf =?ₛ "" then score
  else
    let d_leaf := edit_distance leaf name in
    if (d_leaf <=? budget leaf) && match score with Some d => d_leaf <? d | None => true end
    then Some d_leaf else score.

(** The condition under which a name replaces the best one so far. *)
Definition improves (score : option nat) (name : string) (best_score : option nat) (best : string) : bool :=
  match score, best_score with
  | Some d, None => true
  | Some d, Some b => (d <? b) || ((d =? b) && String.ltb name best)
  | None, _ => false
  end.

Definition suggest_step (input leaf : string) (acc : option nat * string) (name : string)
    : option nat * string :=
  let score := suggestion_score input leaf name in
  if improves score name acc.1 acc.2 then (score, name) else acc.

Definition suggest_data_point (input : string) (names : list string) : string :=
  let leaf := sanitized_leaf input in
  if negb (leaf =?ₛ "") && bool_decide (leaf ∈ names) then leaf
  else
    let '(best_score, best) := foldl (suggest_step input leaf) (None, "") names in
    if best_score then best else "".

Definition rank_of_name (input leaf name : string) : nat :=
  let d := edit_distance input name in
  if leaf =?ₛ "" then d else Nat.min d (edit_distance leaf name).

(** [std::pair]'s [<]. *)
Definition ranked_lt (x y : nat * string) : bool :=
  (x.1 <? y.1) || ((x.1 =? y.1) && String.ltb x.2 y.2).

Definition closest_data_points (input : string) (names : list string) (n : nat) : list string :=
  let leaf := sanitized_leaf input in
  take n (stable_sort ranked_lt ((λ name, (rank_of_name input leaf name, name)) <$> names)).*2.

(** ** What is suggested *)

Lemma string_ltb_lt s t : String.ltb s t = true ↔ ¬ String.le t s.
Proof.
  unfold String.le, String.ltb, String.leb. rewrite (String.compare_antisym s t).
  destruct (String.compare t s); simpl; naive_solver.
Qed.

(** A name with score [d] is at least as good a suggestion as one with [d']. *)
Definition no_worse (d : nat) (name : string) (d' : nat) (name' : string) : Prop :=
  d < d' ∨ (d = d' ∧ String.le name name').

Lemma no_worse_trans d1 n1 d2 n2 d3 n3 :
  no_worse d1 n1 d2 n2 → no_worse d2 n2 d3 n3 → no_worse d1 n1 d3 n3.
Proof.
  unfold no_worse. intros [?|[-> ?]] [?|[-> ?]]; [left; lia|left; lia|by left|]. right. split; [done|].
  by etrans.
Qed.

Definition best_of (input leaf : string) (names : list string) (acc : option nat * string) : Prop :=
  match acc.1 with
  | Some d => acc.2 ∈ names ∧ suggestion_score input leaf acc.2 = Some d ∧
      ∀ name d', name ∈ names → suggestion_score input leaf name = Some d' → no_worse d acc.2 d' name
  | None => ∀ name, name ∈ names → suggestion_score input leaf name = None
  end.

Lemma improves_false d name b best : improves (Some d) name (Some b) best = false → no_worse b best d name.
Proof.
  simpl. intros [H1%Nat.ltb_ge H2]%orb_false_iff. unfold no_worse.
  destruct (decide (d = b)) as [->|]; [|left; lia]. right. split; [done|].
  rewrite Nat.eqb_refl in H2. simpl in H2. apply dec_stable. intros H%string_ltb_lt. congruence.
Qed.

Lemma improves_true d name b best : improves (Some d) name (Some b) best = true → no_worse d name b best.
Proof.
  simpl. unfold no_worse. intros [H%Nat.ltb_lt|[H%Nat.eqb_eq H2]%andb_true_iff]%orb_true_iff; [by left|].
  right. split; [done|]. apply string_ltb_lt in H2. by destruct (total String.le name best).
Qed.

Lemma suggest_step_best input leaf names acc name :
  best_of input leaf names acc → best_of input leaf (names ++ [name]) (suggest_step input leaf acc name).
Proof.
  intros H. unfold suggest_step. destruct (suggestion_score input leaf name) as [d|] eqn:E.
  2:{ simpl. unfold best_of in *. destruct acc as [[b|] best]; simpl in *.
      - destruct H as (Hin & Hs & Hmin). split_and!; [set_solver|done|].
        intros n d [Hn| ->%list_elem_of_singleton]%elem_of_app Hd; [eauto|congruence].
      - intros n [Hn| ->%list_elem_of_singleton]%elem_of_app; auto. }
  destruct acc as [[b|] best]; unfold best_of in H; simpl in H |- *.
  - destruct H as (Hin & Hs & Hmin).
    destruct (improves (Some d) name (Some b) best) eqn:Ei; simpl in Ei; rewrite Ei; unfold best_of; simpl.
    + apply improves_true in Ei. split_and!; [set_solver|done|].
      intros n d' [Hn| ->%list_elem_of_singleton]%elem_of_app Hd.
      * eapply no_worse_trans; [exact Ei|eauto].
      * right. split; [congruence|done].
    + apply improves_false in Ei. split_and!; [set_solver|done|].
      intros n d' [Hn| ->%list_elem_of_singleton]%elem_of_app Hd; [eauto|].
      by replace d' with d by congruence.
  - split_and!; [set_solver|done|]. intros n d' [Hn| ->%list_elem_of_singleton]%elem_of_app Hd.
    + rewrite (H n Hn) in Hd. done.
    + right. split; [congruence|done].
Qed.

Lemma suggest_fold_best input leaf names :
  best_of input leaf names (foldl (suggest_step input leaf) (None, "") names).
Proof.
  induction names as [|name names IH] using rev_ind; [intros ? H; by apply not_elem_of_nil in H|].
  rewrite foldl_app. by apply suggest_step_best.
Qed.

(** The sanitized leaf of the input is suggested whenever it exists.  Otherwise
    the suggestion is the existing name, within the budgets, with the least edit
    distance and first in order among those, and there is none exactly when no
    name is within its budget. *)
Theorem suggestion_is_closest input names :
  let leaf := sanitized_leaf input in
  let score := suggestion_score input leaf in
  (leaf ≠ "" ∧ leaf ∈ names ∧ suggest_data_point input names = leaf) ∨
  ((leaf = "" ∨ leaf ∉ names) ∧
   ((∃ d, suggest_data_point input names ∈ names ∧ score (suggest_data_point input names) = Some d ∧
       ∀ name d', name ∈ names → score name = Some d' →
         no_worse d (suggest_data_point input names) d' name) ∨
    ((∀ name, name ∈ names → score name = None) ∧ suggest_data_point input names = ""))).
Proof.
  simpl. unfold suggest_data_point. set (leaf := sanitized_leaf input).
  destruct (str_eqb leaf "") eqn:El; simpl; bool_simpl; [|case_bool_decide as Hin; [by left|]]; right.
  - split; [by left|]. pose proof (suggest_fold_best input leaf names) as H.
    destruct (foldl _ _ names) as [[d|] best]; unfold best_of in H; simpl in H; [left; exists d|right]; done.
  - split; [by right|]. pose proof (suggest_fold_best input leaf names) as H.
    destruct (foldl _ _ names) as [[d|] best]; unfold best_of in H; simpl in H; [left; exists d|right]; done.
Qed.

Lemma ranked_le_iff x y : sort_le ranked_lt x y ↔ no_worse x.1 x.2 y.1 y.2.
Proof.
  unfold sort_le, ranked_lt, no_worse. rewrite orb_false_iff, andb_false_iff, Nat.ltb_ge, Nat.eqb_neq.
  split.
  - intros [H1 H2]. destruct (decide (x.1 = y.1)) as [E|]; [right|left; lia]. split; [done|].
    destruct H2 as [?|H2]; [lia|]. apply dec_stable. intros H%string_ltb_lt. congruence.
  - intros [?|[E H]]; [split; [lia|left; lia]|]. split; [lia|]. right.
    apply not_true_iff_false. intros H2%string_ltb_lt. done.
Qed.

(** The listed names are a prefix, of the requested length, of all names ordered
    by distance and then by name. *)
Theorem closest_are_closest input names n :
  let rank := rank_of_name input (sanitized_leaf input) in
  ∃ rest, names ≡ₚ closest_data_points input names n ++ rest ∧
    length (closest_data_points input names n) = n `min` length names ∧
    StronglySorted (λ x y, no_worse (rank x) x (rank y) y) (closest_data_points input names n ++ rest).
Proof.
  simpl. unfold closest_data_points. set (rank := rank_of_name input (sanitized_leaf input)).
  set (l := (λ name, (rank name, name)) <$> names). set (sorted := stable_sort ranked_lt l).
  exists (drop n sorted.*2). rewrite take_drop, length_take, length_fmap.
  assert (Hp : sorted ≡ₚ l) by apply stable_sort_perm.
  assert (Hl : l.*2 = names).
  { subst l. rewrite <- list_fmap_compose. apply list_fmap_id. }
  split_and!.
  - by rewrite Hp, Hl.
  - rewrite Hp. subst l. by rewrite length_fmap.
  - assert (Hs : StronglySorted (sort_le ranked_lt) sorted).
    { apply (stable_sort_sorted ranked_lt (λ _, True)); [| |by apply Forall_true].
      - intros x y _ _ H. apply ranked_le_iff. unfold ranked_lt in H. unfold no_worse.
        apply orb_true_iff in H as [H%Nat.ltb_lt|[H%Nat.eqb_eq H2]%andb_true_iff]; [by left|].
        right. split; [done|]. apply string_ltb_lt in H2. by destruct (total String.le x.2 y.2).
      - intros x y z _ _ _. rewrite !ranked_le_iff. apply no_worse_trans. }
    assert (Hr : Forall (λ p : nat * string, p.1 = rank p.2) sorted).
    { rewrite Hp. subst l. apply Forall_fmap, Forall_true. done. }
    clear -Hs Hr. induction Hs as [|x s Hs IH Hall]; [constructor|]. simpl.
    apply Forall_cons in Hr as [Hx Hr]. constructor; [by apply IH|]. apply Forall_fmap.
    rewrite Forall_forall in Hall, Hr |- *. intros y Hy. simpl.
    rewrite <- Hx, <- (Hr y Hy). by apply ranked_le_iff, Hall.
Qed.
