(* ===== verification/Json.v ===== *)
(** * JSON documents

    The document model of nlohmann::json as far as the sources inspect it, and
    the interface of its text form: a class of writers and readers in which
    reading what was written gives the document back.  The library promises that
    of documents with finite numbers, strings in UTF-8 and ordered keys; others
    it does not write back ([null] for a NaN, an exception for a bad string). *)

From S2P Require Import Prelude.

Inductive json :=
  | JNull
  | JBool (b : bool)
  | JNum (d : double)
  | JStr (s : string)
  | JArr (l : list json)
  | JObj (fields : list (string * json)).

(** [j[key]] of an object that contains the key. *)
Fixpoint find_field (key : string) (fields : list (string * json)) : option json :=
  match fields with
  | [] => None
  | (k, v) :: fields' => if k =?ₛ key then Some v else find_field key fields'
  end.

Definition field (key : string) (j : json) : option json :=
  match j with JObj fields => find_field key fields | _ => None end.

(** [j[key] = v]; the fields are in the order of their keys. *)
Fixpoint set_field (key : string) (v : json) (fields : list (string * json)) : list (string * json) :=
  match fields with
  | [] => [(key, v)]
  | (k, w) :: fields' =>
      if k =?ₛ key then (key, v) :: fields'
      else if String.ltb k key then (k, w) :: set_field key v fields'
      else (key, v) :: fields
  end.

Definition is_object (j : json) : bool := match j with JObj _ => true | _ => false end.

Definition finite_double (d : double) : bool :=
  match d with S754_zero _ | S754_finite _ _ _ => true | _ => false end.

(** ** Well-formed UTF-8, as the library's decoder accepts it

    No overlong form, no surrogate, nothing above U+10FFFF. *)

Definition byte_in (lo hi : N) (c : ascii) : bool := let n := N_of_ascii c in ((lo <=? n) && (n <=? hi))%N.

Fixpoint utf8 (s : string) : bool :=
  match s with
  | "" => true
  | String a s1 =>
      if byte_in 0 127 a then utf8 s1
      else match s1 with
      | "" => false
      | String b s2 =>
          if byte_in 194 223 a then byte_in 128 191 b && utf8 s2
          else match s2 with
          | "" => false
          | String c s3 =>
              if byte_in 224 239 a then
                byte_in (if byte_in 224 224 a then 160 else 128) (if byte_in 237 237 a then 159 else 191) b
                && byte_in 128 191 c && utf8 s3
              else match s3 with
              | "" => false
              | String d s4 =>
                  byte_in 240 244 a
                  && byte_in (if byte_in 240 240 a then 144 else 128) (if byte_in 244 244 a then 143 else 191) b
                  && byte_in 128 191 c && byte_in 128 191 d && utf8 s4
              end
          end
      end
  end.

(** The keys of an object are those of a [std::map]: in the order of their bytes,
    none twice. *)
Fixpoint keys_ordered (keys : list string) : bool :=
  match keys with
  | [] => true
  | k :: keys' => match keys' with k' :: _ => String.ltb k k' | [] => true end && keys_ordered keys'
  end.

(** A document as the parser makes them: numbers finite, strings UTF-8, keys of an
    object in order and none twice. *)
Fixpoint is_document (j : json) : bool :=
  match j with
  | JNum d => finite_double d
  | JStr s => utf8 s
  | JArr l => forallb is_document l
  | JObj fields => keys_ordered fields.*1 && forallb (λ kv, utf8 kv.1 && is_document kv.2) fields
  | _ => true
  end.

(** Writing and reading documents. *)
Class JsonText (text : Type) := {
  dump : json → text;
  parse : text → option json;
  parse_dump j : is_document j = true → parse (dump j) = Some j;
}.

(** Keys that an object does not repeat are found where they are. *)
Lemma find_field_cons k v fields key :
  find_field key ((k, v) :: fields) = if k =?ₛ key then Some v else find_field key fields.
Proof. done. Qed.

Lemma field_document key j v : is_document j = true → field key j = Some v → is_document v = true.
Proof.
  destruct j as [| | | | |fields]; try done. cbn [is_document field]. intros [_ Hf]%andb_true_iff.
  induction fields as [|[k w] fields IH]; [done|]. cbn [forallb find_field fst snd] in *.
  apply andb_true_iff in Hf as [[_ Hw]%andb_true_iff Hf]. destruct (k =?ₛ key); [by intros [= <-]|auto].
Qed.

Lemma utf8_ascii a s : byte_in 0 127 a = true → utf8 (String a s) = utf8 s.
Proof. intros Ha. cbn [utf8]. by rewrite Ha. Qed.
