(* ===== verification/FaultTriggers.v ===== *)
(** * Threshold rules on data points

    [FaultTriggerEngine] (gateway core/fault_trigger_engine.cpp): rules that
    report a fault while a data point is past a threshold, edited over REST,
    evaluated by a poll timer and persisted in a JSON file.  Two mutexes order
    the threads: [mutex_] guards the rules, [dispatch_mutex_] makes the erase and
    clear of [remove] exclusive with the dispatch of [evaluate_once].  The
    functions below are the sections between lock operations; [trigger_step]
    interleaves those of one evaluator with creations and removals.

    The value fetcher, the entity registry and the list of data points are
    arguments; calls of the report and clear callbacks are recorded. *)

From S2P Require Import Prelude Json DataPointSuggest.
From stdpp Require Import relations.

Record FaultTriggerRule := mkRule {
  ft_id : string;
  ft_app_id : string;
  ft_data_name : string;
  ft_op : string;
  ft_threshold : double;
  ft_fault_code : string;
  ft_severity : string;
  ft_active : bool;
  ft_crossed : bool;
}.

#[global] Instance FaultTriggerRule_eq_dec : EqDecision FaultTriggerRule.
Proof. solve_decision. Defined.

Inductive fault_call :=
  | Report (app_id fault_code severity description : string)
  | Clear (app_id fault_code : string).

(** ** Rules *)

Definition json_string (j : json) (key : string) : string :=
  match field key j with Some (JStr s) => s | _ => "" end.

Definition valid_operator (op : string) : bool := bool_decide (op ∈ [">"; "<"; ">="; "<="; "=="]).

Definition valid_severity (sev : string) : bool :=
  bool_decide (sev ∈ ["INFO"; "WARNING"; "ERROR"; "CRITICAL"]).

(** The double nearest to 1e-9. *)
Definition kEqualEpsilon : double := f64_div (f64_of_Z 1) (f64_of_Z 1000000000).

Definition compare (value : double) (op : string) (threshold : double) : bool :=
  if op =?ₛ ">" then SFltb threshold value
  else if op =?ₛ "<" then SFltb value threshold
  else if op =?ₛ ">=" then SFleb threshold value
  else if op =?ₛ "<=" then SFleb value threshold
  else if op =?ₛ "==" then SFleb (SFabs (SFsub 53 1024 value threshold)) kEqualEpsilon
  else false.

Definition rule_to_json (r : FaultTriggerRule) : list (string * json) :=
  [("active", JBool (ft_active r)); ("data_name", JStr (ft_data_name r));
   ("fault_code", JStr (ft_fault_code r)); ("id", JStr (ft_id r));
   ("operator", JStr (ft_op r)); ("severity", JStr (ft_severity r));
   ("threshold", JNum (ft_threshold r))].

Definition rule_row (r : FaultTriggerRule) : json :=
  JObj (set_field "crossed" (JBool (ft_crossed r)) (set_field "app_id" (JStr (ft_app_id r)) (rule_to_json r))).

Definition json_bool (j : json) (key : string) (dflt : bool) : bool :=
  match field key j with Some (JBool b) => b | _ => dflt end.

(** One element of the stored array; [None] for a malformed row. *)
Definition load_row (item : json) : option FaultTriggerRule :=
  if negb (is_object item) then None
  else
    let r := mkRule (json_string item "id") (json_string item "app_id") (json_string item "data_name")
      (json_string item "operator")
      (match field "threshold" item with Some (JNum d) => d | _ => f64_zero end)
      (json_string item "fault_code") (json_string item "severity")
      (json_bool item "active" true) (json_bool item "crossed" false) in
    if (ft_id r =?ₛ "") || (ft_app_id r =?ₛ "") || (ft_data_name r =?ₛ "")
       || negb (valid_operator (ft_op r)) || (ft_fault_code r =?ₛ "")
       || negb (valid_severity (ft_severity r))
    then None else Some r.

(** ** [std::stoull] *)

Definition two64 : N := 18446744073709551616.

Definition is_space (c : ascii) : bool :=
  let n := N_of_ascii c in ((n =? 32) || (9 <=? n) && (n <=? 13))%N.

Definition is_digit (c : ascii) : bool := let n := N_of_ascii c in ((48 <=? n) && (n <=? 57))%N.

Fixpoint skip_spaces (s : string) : string :=
  match s with
  | String c s' => if is_space c then skip_spaces s' else s
  | "" => ""
  end.

(** The value of the leading digits, the digits seen so far being [acc]. *)
Fixpoint digits (acc : N) (s : string) : N :=
  match s with
  | String c s' => if is_digit c then digits (10 * acc + (N_of_ascii c - 48)) s' else acc
  | "" => acc
  end.

Definition strtoull (negative : bool) (s : string) : option N :=
  match s with
  | String c _ =>
      if is_digit c then
        let n := digits 0 s in
        if (two64 <=? n)%N then None
        else Some (if negative then (two64 - n) `mod` two64 else n)%N
      else None
  | "" => None
  end.

(** [None]: [std::invalid_argument] or [std::out_of_range]. *)
Definition stoull (s : string) : option N :=
  match skip_spaces s with
  | String c s' =>
      if bool_decide (c = "-"%char) then strtoull true s'
      else if bool_decide (c = "+"%char) then strtoull false s'
      else strtoull false (String c s')
  | "" => None
  end.

(** ** Engine *)

Section Engine.
Context {text : Type} `{JsonText text}.
(** [std::to_string(double)]; a storage path is set and the file can be written. *)
Context (to_string : double → string) (persistent writable : bool).

Record FaultTriggerEngine := mkEngine {
  te_rules : list FaultTriggerRule;
  te_next_seq : N;               (* uint64_t *)
  te_file : option text;         (* the JSON store; [None]: no such file *)
  te_calls : list fault_call;    (* callbacks, oldest first *)
}.

Definition rules_json (rules : list FaultTriggerRule) : json := JArr (rule_row <$> rules).

Definition save_locked (e : FaultTriggerEngine) : FaultTriggerEngine :=
  if persistent && writable
  then mkEngine (te_rules e) (te_next_seq e) (Some (dump (rules_json (te_rules e)))) (te_calls e)
  else e.

Definition with_rules (rules : list FaultTriggerRule) (e : FaultTriggerEngine) : FaultTriggerEngine :=
  mkEngine rules (te_next_seq e) (te_file e) (te_calls e).

Definition call (c : fault_call) (e : FaultTriggerEngine) : FaultTriggerEngine :=
  mkEngine (te_rules e) (te_next_seq e) (te_file e) (te_calls e ++ [c]).

Definition rule_id (n : N) : string := "ftr_" +:+ pretty n.

(** Keeps the counter past a loaded id. *)
Definition bump_seq (id : string) (next : N) : N :=
  if String.substring 0 4 id =?ₛ "ftr_" then
    match stoull (String.substring 4 (String.length id - 4) id) with
    | Some n => N.max next ((n + 1) `mod` two64)
    | None => next
    end
  else next.

Definition load_item (e : FaultTriggerEngine) (item : json) : FaultTriggerEngine :=
  match load_row item with
  | Some r => mkEngine (te_rules e ++ [r]) (bump_seq (ft_id r) (te_next_seq e)) (te_file e) (te_calls e)
  | None => e
  end.

(** The constructor: [load] on a fresh engine over the file found. *)
Definition new_trigger_engine (file : option text) : FaultTriggerEngine :=
  let e := mkEngine [] 1 file [] in
  if negb persistent then e
  else match file ≫= parse with
  | Some (JArr items) => foldl load_item e items
  | _ => e
  end.

Definition list_rules (app_id : string) (e : FaultTriggerEngine) : list FaultTriggerRule :=
  filter (λ r, ft_app_id r = app_id) (te_rules e).

(** *** create *)

Definition unknown_point_message (data_name app_id : string) (names : list string) : string :=
  let listed := closest_data_points data_name names 20 in
  let available := join_comma listed in
  let suggestion := suggest_data_point data_name names in
  "data point '" +:+ data_name +:+ "' does not exist on app '" +:+ app_id +:+ "'" +:+
  (if suggestion =?ₛ "" then "" else " - did you mean '" +:+ suggestion +:+ "'?") +:+
  (if available =?ₛ "" then ""
   else if (20 <? length names)%nat
   then " (" +:+ pretty (length names) +:+ " available, closest " +:+ pretty (length listed) +:+ ": "
        +:+ available +:+ ")"
   else " (available: " +:+ available +:+ ")").

(** The checks of the request body, in the order of the code; [inl] is the
    error. *)
Definition rule_of_body (app_id : string) (body : json) : (Z * string) + FaultTriggerRule :=
  if negb (is_object body) then inl (400%Z, "request body must be a JSON object")
  else
    let data_name := json_string body "data_name" in
    let op := json_string body "operator" in
    let fault_code := json_string body "fault_code" in
    let severity := json_string body "severity" in
    let active := json_bool body "active" true in
    if data_name =?ₛ "" then inl (400%Z, "'data_name' is required")
    else if negb (valid_operator op) then inl (400%Z, "'operator' must be one of >, <, >=, <=, ==")
    else match field "threshold" body with
    | Some (JNum threshold) =>
        if fault_code =?ₛ "" then inl (400%Z, "'fault_code' is required")
        else if negb (valid_severity severity)
        then inl (400%Z, "'severity' must be one of INFO, WARNING, ERROR, CRITICAL")
        else inr (mkRule "" app_id data_name op threshold fault_code severity active false)
    | _ => inl (400%Z, "'threshold' must be a number")
    end.

(** The checks against the entity registry and the app's data points; either may
    be absent. *)
Definition check_target (entity_exists : option (string → bool))
    (data_point_names : option (string → option (list string))) (r : FaultTriggerRule)
    : option (Z * string) :=
  if from_option (λ f, negb (f (ft_app_id r))) false entity_exists
  then Some (404%Z, "app '" +:+ ft_app_id r +:+ "' does not exist")
  else match data_point_names ≫= λ f, f (ft_app_id r) with
  | Some names =>
      if bool_decide (ft_data_name r ∈ names) then None
      else Some (400%Z, unknown_point_message (ft_data_name r) (ft_app_id r) names)
  | None => None
  end.

Definition with_id (id : string) (r : FaultTriggerRule) : FaultTriggerRule :=
  mkRule id (ft_app_id r) (ft_data_name r) (ft_op r) (ft_threshold r) (ft_fault_code r)
    (ft_severity r) (ft_active r) (ft_crossed r).

(** The section of [create] under [mutex_]. *)
Definition insert_rule (r : FaultTriggerRule) (e : FaultTriggerEngine)
    : ((Z * string) + FaultTriggerRule) * FaultTriggerEngine :=
  match list_find (λ x, ft_fault_code x = ft_fault_code r) (te_rules e) with
  | Some (_, dup) =>
      (inl (409%Z, "fault_code '" +:+ ft_fault_code r +:+ "' is already used by rule '" +:+ ft_id dup
         +:+ "' on app '" +:+ ft_app_id dup
         +:+ "' - fault codes are global to the fault store, pick a distinct one"), e)
  | None =>
      let r := with_id (rule_id (te_next_seq e)) r in
      (inr r, save_locked (mkEngine (te_rules e ++ [r]) ((te_next_seq e + 1) `mod` two64)%N
                 (te_file e) (te_calls e)))
  end.

Definition create (entity_exists : option (string → bool))
    (data_point_names : option (string → option (list string))) (app_id : string) (body : json)
    (e : FaultTriggerEngine) : ((Z * string) + FaultTriggerRule) * FaultTriggerEngine :=
  match rule_of_body app_id body with
  | inl err => (inl err, e)
  | inr r =>
      match check_target entity_exists data_point_names r with
      | Some err => (inl err, e)
      | None => insert_rule r e
      end
  end.

(** *** remove *)

Definition is_rule (app_id id : string) (r : FaultTriggerRule) : Prop :=
  ft_app_id r = app_id ∧ ft_id r = id.

#[global] Instance is_rule_dec app_id id r : Decision (is_rule app_id id r).
Proof. unfold is_rule. apply _. Defined.

(** [rules_.erase(it)] for the first match. *)
Fixpoint erase_rule (app_id id : string) (rules : list FaultTriggerRule) : list FaultTriggerRule :=
  match rules with
  | [] => []
  | r :: rules' => if decide (is_rule app_id id r) then rules' else r :: erase_rule app_id id rules'
  end.

Definition remove (app_id id : string) (e : FaultTriggerEngine) : bool * FaultTriggerEngine :=
  match list_find (is_rule app_id id) (te_rules e) with
  | None => (false, e)
  | Some (_, r) =>
      let e := save_locked (with_rules (erase_rule app_id id (te_rules e)) e) in
      (true, if ft_crossed r then call (Clear app_id (ft_fault_code r)) e else e)
  end.

(** *** evaluate_once *)

(** A rule copied for evaluation, its latch as last evaluated, and the value. *)
Record Pending := mkPending {
  pd_rule : FaultTriggerRule;
  pd_crossed : bool;
  pd_value : option double;
}.

(** Snapshot under [mutex_], then the value fetch outside every lock. *)
Definition snapshot (fetcher : string → string → option double) (e : FaultTriggerEngine) : list Pending :=
  (λ r, mkPending r (ft_crossed r) (fetcher (ft_app_id r) (ft_data_name r)))
    <$> filter (λ r, ft_active r = true) (te_rules e).

Definition describe (r : FaultTriggerRule) (v : double) : string :=
  ft_data_name r +:+ " = " +:+ to_string v +:+ " " +:+ ft_op r +:+ " " +:+ to_string (ft_threshold r)
  +:+ " (fault-trigger " +:+ ft_id r +:+ ")".

Definition still_present (w : Pending) (e : FaultTriggerEngine) : bool :=
  existsb (λ r, (ft_id r =?ₛ ft_id (pd_rule w)) && (ft_app_id r =?ₛ ft_app_id (pd_rule w))) (te_rules e).

(** One round of the dispatch loop. *)
Definition dispatch (w : Pending) (e : FaultTriggerEngine) : Pending * FaultTriggerEngine :=
  let r := pd_rule w in
  match pd_value w with
  | None => (w, e)
  | Some v =>
      if negb (still_present w e) then (w, e)
      else if compare v (ft_op r) (ft_threshold r)
      then (mkPending r true (Some v),
            call (Report (ft_app_id r) (ft_fault_code r) (ft_severity r) (describe r v)) e)
      else (mkPending r false (Some v),
            if pd_crossed w then call (Clear (ft_app_id r) (ft_fault_code r)) e else e)
  end.

Definition set_crossed (b : bool) (r : FaultTriggerRule) : FaultTriggerRule :=
  mkRule (ft_id r) (ft_app_id r) (ft_data_name r) (ft_op r) (ft_threshold r) (ft_fault_code r)
    (ft_severity r) (ft_active r) b.

(** The latch of one item written back to the first rule it is for. *)
Fixpoint fold_latch (w : Pending) (rules : list FaultTriggerRule) : list FaultTriggerRule :=
  match rules with
  | [] => []
  | r :: rules' =>
      if decide (is_rule (ft_app_id (pd_rule w)) (ft_id (pd_rule w)) r)
      then set_crossed (pd_crossed w) r :: rules'
      else r :: fold_latch w rules'
  end.

Definition latch_edge (w : Pending) (rules : list FaultTriggerRule) : bool :=
  match list_find (is_rule (ft_app_id (pd_rule w)) (ft_id (pd_rule w))) rules with
  | Some (_, r) => negb (Bool.eqb (ft_crossed r) (pd_crossed w))
  | None => false
  end.

Definition fold_one (acc : bool * list FaultTriggerRule) (w : Pending) : bool * list FaultTriggerRule :=
  if latch_edge w acc.2 then (true, fold_latch w acc.2) else acc.

Definition fold_back (work : list Pending) (e : FaultTriggerEngine) : FaultTriggerEngine :=
  let '(latch_changed, rules) := foldl fold_one (false, te_rules e) work in
  let e := with_rules rules e in
  if latch_changed : bool then save_locked e else e.

Fixpoint dispatch_all (work : list Pending) (e : FaultTriggerEngine) : list Pending * FaultTriggerEngine :=
  match work with
  | [] => ([], e)
  | w :: work' =>
      let '(w, e) := dispatch w e in
      let '(done, e) := dispatch_all work' e in (w :: done, e)
  end.

(** The whole method without interference. *)
Definition evaluate_once (fetcher : string → string → option double) (e : FaultTriggerEngine)
    : FaultTriggerEngine :=
  match snapshot fetcher e with
  | [] => e
  | work => let '(done, e) := dispatch_all work e in fold_back done e
  end.
End Engine.
