(* ===== verification/FaultTriggersSpec.v ===== *)
(** * What the trigger engine promises

    [trigger_step] interleaves one evaluator, between its lock operations, with
    creations, removals and restarts; the invariant relates rules, latches, the
    stored file and the faults the callbacks have asserted. *)

From stdpp Require Import relations.
From S2P Require Import Prelude Json DataPointSuggest FaultTriggers.

(** ** Reading printed numbers back *)

Lemma pretty_N_char_digit x :
  (x < 10)%N → is_digit (pretty_N_char x) = true ∧ (N_of_ascii (pretty_N_char x) - 48 = x)%N.
Proof.
  intros Hx. assert (x = 0 ∨ x = 1 ∨ x = 2 ∨ x = 3 ∨ x = 4 ∨ x = 5 ∨ x = 6 ∨ x = 7 ∨ x = 8 ∨ x = 9)%N
    as Hc by lia.
  by repeat destruct Hc as [->|Hc]; subst.
Qed.

Lemma digits_pretty_go x s : digits 0 (pretty_N_go x s) = digits x s.
Proof.
  revert s. induction (N.lt_wf_0 x) as [x _ IH]; intros s.
  destruct (decide (x = 0)%N) as [->|Hx]; [done|].
  rewrite pretty_N_go_step by lia. rewrite IH by (apply N.div_lt; lia).
  destruct (pretty_N_char_digit (x `mod` 10)) as [Hd Hv]; [by apply N.mod_lt|].
  cbn [digits]. rewrite Hd, Hv. f_equal. pose proof (N.div_mod x 10). lia.
Qed.

Lemma pretty_go_head x s :
  (0 < x)%N → ∃ c s', pretty_N_go x s = String c s' ∧ is_digit c = true.
Proof.
  revert s. induction (N.lt_wf_0 x) as [x _ IH]; intros s Hx.
  rewrite pretty_N_go_step by done.
  destruct (decide (x `div` 10 = 0)%N) as [->|Hd].
  - eexists _, _. split; [done|]. apply pretty_N_char_digit. by apply N.mod_lt.
  - apply IH; [by apply N.div_lt|by apply N.neq_0_lt_0].
Qed.

Lemma digit_plain c :
  is_digit c = true → is_space c = false ∧ c ≠ "-"%char ∧ c ≠ "+"%char.
Proof.
  intros Hd. split_and!; [|by intros ->..].
  unfold is_digit, is_space in *. apply andb_true_iff in Hd as [H1 H2].
  apply N.leb_le in H1, H2.
  apply orb_false_iff. split; [apply N.eqb_neq; lia|apply andb_false_iff; right; apply N.leb_gt; lia].
Qed.

(** What [std::to_string] printed, [std::stoull] reads. *)
Lemma stoull_pretty n : (n < two64)%N → stoull (pretty n) = Some n.
Proof.
  intros Hn. unfold pretty, pretty_N. destruct (decide (n = 0)%N) as [->|Hz]; [done|].
  destruct (pretty_go_head n "") as (c & s & Heq & Hd); [lia|].
  destruct (digit_plain c Hd) as (Hs & Hm & Hp).
  pose proof (digits_pretty_go n "") as Hv. rewrite Heq in *.
  unfold stoull. cbn [skip_spaces]. rewrite Hs, !bool_decide_eq_false_2 by done.
  unfold strtoull. rewrite Hd, Hv. cbn [digits].
  by rewrite (proj2 (N.leb_gt _ _)).
Qed.

Lemma bump_seq_rule_id n next :
  (n + 1 < two64)%N → bump_seq (rule_id n) next = N.max next (n + 1).
Proof.
  intros Hn. unfold bump_seq, rule_id.
  rewrite (substring_0_app "ftr_" (pretty n)), str_eqb_refl.
  rewrite length_append. change (String.length "ftr_") with 4. rewrite Nat.add_comm, Nat.add_sub.
  rewrite (substring_app_r "ftr_" (pretty n)), substring_0_all, stoull_pretty by lia. by rewrite N.mod_small.
Qed.

#[global] Instance rule_id_inj : Inj (=) (=) rule_id.
Proof. intros x y. unfold rule_id. intros [= Heq]. by apply pretty_N_inj. Qed.

Section Spec.
Context {text : Type} `{!JsonText text}.
Context (to_string : double → string) (persistent writable : bool).

Abbreviation engine := (FaultTriggerEngine (text := text)).

(** ** Interleavings *)

(** Where the evaluator is: outside [evaluate_once] or its snapshot not taken,
    fetching values, or inside the section under [dispatch_mutex_]. *)
Inductive phase :=
  | Idle
  | Fetching (work : list Pending)
  | Dispatching (done todo : list Pending).

Definition with_value (v : option double) (w : Pending) : Pending :=
  mkPending (pd_rule w) (pd_crossed w) v.

(** [create] takes [mutex_] only and runs at any time; [remove] waits while the
    evaluator dispatches.  A restart reads the stored file.  Request bodies come
    from the JSON parser, and routes name a non-empty app in UTF-8; fewer than
    2^64 - 1 rules are ever created. *)
Inductive trigger_step : engine * phase → engine * phase → Prop :=
  | step_create ee names app_id body e ph :
      app_id ≠ "" → utf8 app_id = true → is_document body = true → (te_next_seq e + 1 < two64)%N →
      trigger_step (e, ph) ((create persistent writable ee names app_id body e).2, ph)
  | step_remove app_id id e ph :
      (∀ done todo, ph ≠ Dispatching done todo) →
      trigger_step (e, ph) ((remove persistent writable app_id id e).2, ph)
  | step_snapshot e :
      trigger_step (e, Idle)
        (e, match snapshot (λ _ _, None) e with [] => Idle | work => Fetching work end)
  | step_fetch i v e work :
      trigger_step (e, Fetching work) (e, Fetching (alter (with_value v) i work))
  | step_begin e work :
      trigger_step (e, Fetching work) (e, Dispatching [] work)
  | step_dispatch e done w todo :
      trigger_step (e, Dispatching done (w :: todo))
        ((dispatch to_string w e).2, Dispatching (done ++ [(dispatch to_string w e).1]) todo)
  | step_fold e done :
      trigger_step (e, Dispatching done []) (fold_back persistent writable done e, Idle)
  | step_restart e ph :
      persistent = true → writable = true → (∀ done todo, ph ≠ Dispatching done todo) →
      trigger_step (e, ph)
        (mkEngine (te_rules (new_trigger_engine persistent (te_file e)))
           (te_next_seq (new_trigger_engine persistent (te_file e))) (te_file e) (te_calls e), Idle).

(** ** Asserted faults *)

(** The fault store keyed by fault code, as the callbacks drive it. *)
Definition assert_call (codes : gset string) (c : fault_call) : gset string :=
  match c with
  | Report _ code _ _ => {[code]} ∪ codes
  | Clear _ code => codes ∖ {[code]}
  end.

Definition asserted (calls : list fault_call) : gset string := foldl assert_call ∅ calls.

Lemma asserted_snoc calls c : asserted (calls ++ [c]) = assert_call (asserted calls) c.
Proof. unfold asserted. by rewrite foldl_app. Qed.

(** The latch a rule has once the evaluator is through with the items done. *)
Fixpoint latch (done : list Pending) (r : FaultTriggerRule) : bool :=
  match done with
  | [] => ft_crossed r
  | w :: done' => if ft_id (pd_rule w) =?ₛ ft_id r then pd_crossed w else latch done' r
  end.

(** ** Invariant *)

Definition rule_ok (r : FaultTriggerRule) : Prop :=
  ft_app_id r ≠ "" ∧ ft_data_name r ≠ "" ∧ valid_operator (ft_op r) = true ∧
  ft_fault_code r ≠ "" ∧ valid_severity (ft_severity r) = true ∧ finite_double (ft_threshold r) = true ∧
  utf8 (ft_app_id r) = true ∧ utf8 (ft_data_name r) = true ∧ utf8 (ft_fault_code r) = true.

Definition issued (next : N) (r : FaultTriggerRule) : Prop :=
  ∃ n, ft_id r = rule_id n ∧ (n < next)%N.

Record rules_ok (e : engine) : Prop := {
  ro_rules : Forall rule_ok (te_rules e);
  ro_issued : Forall (issued (te_next_seq e)) (te_rules e);
  ro_ids : NoDup (ft_id <$> te_rules e);
  ro_codes : NoDup (ft_fault_code <$> te_rules e);
  ro_next : (te_next_seq e < two64)%N;
  ro_file : persistent = true → writable = true →
    te_file e = Some (dump (rules_json (te_rules e))) ∨ te_file e = None ∧ te_rules e = [];
}.

(** An item is a copy of the rule with its id, if that still exists. *)
Definition item_ok (e : engine) (w : Pending) : Prop :=
  issued (te_next_seq e) (pd_rule w) ∧
  ∀ r, r ∈ te_rules e → ft_id r = ft_id (pd_rule w) → r = pd_rule w.

Definition fresh_item (w : Pending) : Prop := pd_crossed w = ft_crossed (pd_rule w).

Definition work_ok (e : engine) (work : list Pending) : Prop :=
  Forall (item_ok e) work ∧ NoDup ((λ w, ft_id (pd_rule w)) <$> work).

Definition latches_agree (done : list Pending) (e : engine) : Prop :=
  ∀ code, code ∈ asserted (te_calls e) ↔
    ∃ r, r ∈ te_rules e ∧ ft_fault_code r = code ∧ latch done r = true.

Definition trigger_ok (s : engine * phase) : Prop :=
  rules_ok s.1 ∧
  match s.2 with
  | Idle => latches_agree [] s.1
  | Fetching work => latches_agree [] s.1 ∧ work_ok s.1 work ∧ Forall fresh_item work
  | Dispatching done todo =>
      latches_agree done s.1 ∧ work_ok s.1 (done ++ todo) ∧ Forall fresh_item todo
  end.

(** *** Creation *)

Lemma json_string_utf8 body key : is_document body = true → utf8 (json_string body key) = true.
Proof.
  intros Hdoc. unfold json_string. destruct (field key body) as [[]|] eqn:Hf; try done.
  by apply (field_document _ _ _ Hdoc Hf).
Qed.

Lemma rule_of_body_ok app_id body r :
  app_id ≠ "" → utf8 app_id = true → is_document body = true → rule_of_body app_id body = inr r →
  rule_ok r ∧ ft_crossed r = false.
Proof.
  intros Happ Hutf Hdoc. unfold rule_of_body.
  destruct (is_object body); [|done]. cbn [negb].
  destruct (str_eqb_spec (json_string body "data_name") "") as [|Hd]; [done|].
  destruct (valid_operator _) eqn:Hop; [|done]. cbn [negb].
  destruct (field "threshold" body) as [[]|] eqn:Ht; try done.
  destruct (str_eqb_spec (json_string body "fault_code") "") as [|Hc]; [done|].
  destruct (valid_severity _) eqn:Hs; [|done]. cbn [negb]. intros [= <-].
  split; [|done]. pose proof (field_document _ _ _ Hdoc Ht).
  unfold rule_ok. cbn. split_and!; auto using json_string_utf8.
Qed.

Lemma save_locked_fields (e : engine) :
  te_rules (save_locked persistent writable e) = te_rules e ∧
  te_next_seq (save_locked persistent writable e) = te_next_seq e ∧
  te_calls (save_locked persistent writable e) = te_calls e ∧
  (persistent = true → writable = true →
   te_file (save_locked persistent writable e) = Some (dump (rules_json (te_rules e)))).
Proof. unfold save_locked. destruct persistent, writable; done. Qed.

Lemma issued_mono n m r : (n ≤ m)%N → issued n r → issued m r.
Proof. intros Hle (k & Hk & Hlt). exists k. split; [done|lia]. Qed.

(** What a creation may do to a state. *)
Definition created (e e' : engine) : Prop :=
  e' = e ∨ ∃ r, rule_ok r ∧ ft_crossed r = false ∧ ft_id r = rule_id (te_next_seq e) ∧
    ft_fault_code r ∉ ft_fault_code <$> te_rules e ∧ te_rules e' = te_rules e ++ [r] ∧
    te_next_seq e' = (te_next_seq e + 1)%N ∧ te_calls e' = te_calls e ∧
    (persistent = true → writable = true → te_file e' = Some (dump (rules_json (te_rules e')))).

Lemma create_created ee names app_id body (e : engine) :
  app_id ≠ "" → utf8 app_id = true → is_document body = true → (te_next_seq e + 1 < two64)%N →
  created e (create persistent writable ee names app_id body e).2.
Proof.
  intros Happ Hutf Hdoc Hseq. unfold create.
  destruct (rule_of_body app_id body) as [err|r] eqn:Hb; [by left|].
  destruct (rule_of_body_ok _ _ _ Happ Hutf Hdoc Hb) as [Hr Hc].
  destruct (check_target ee names r); [by left|]. unfold insert_rule.
  destruct (list_find _ _) as [[i dup]|] eqn:Hf; [by left|]. right.
  exists (with_id (rule_id (te_next_seq e)) r). cbn [snd].
  destruct (save_locked_fields (mkEngine (te_rules e ++ [with_id (rule_id (te_next_seq e)) r])
     ((te_next_seq e + 1) `mod` two64)%N (te_file e) (te_calls e))) as (-> & -> & -> & Hfile).
  split_and!; try done.
  - apply list_find_None in Hf. rewrite list_elem_of_fmap. intros (x & Hx & Hin).
    rewrite Forall_forall in Hf. by eapply Hf.
  - cbn [te_next_seq]. by rewrite N.mod_small.
Qed.

Lemma fresh_id e r : rules_ok e → ft_id r = rule_id (te_next_seq e) → ft_id r ∉ ft_id <$> te_rules e.
Proof.
  intros He Hid. rewrite list_elem_of_fmap. intros (x & Hx & Hin).
  destruct (proj1 (Forall_forall _ _) (ro_issued _ He) x Hin) as (n & Hn & Hlt).
  rewrite Hid, Hn in Hx. apply (inj rule_id) in Hx. lia.
Qed.

Lemma created_rules_ok e e' :
  (te_next_seq e + 1 < two64)%N → created e e' → rules_ok e → rules_ok e'.
Proof.
  intros Hseq [->|(r & Hr & _ & Hid & Hcode & Hrules & Hnext & _ & Hfile)] He; [done|].
  split; rewrite ?Hrules, ?Hnext.
  - apply Forall_app. split; [apply He|by apply Forall_singleton].
  - apply Forall_app. split.
    + eapply Forall_impl; [apply (ro_issued _ He)|]. intros x. apply issued_mono. lia.
    + apply Forall_singleton. exists (te_next_seq e). split; [done|lia].
  - rewrite fmap_app. apply NoDup_app. split_and!; [apply He| |apply NoDup_singleton].
    intros x Hx ->%list_elem_of_singleton. by apply (fresh_id e r).
  - rewrite fmap_app. apply NoDup_app. split_and!; [apply He| |apply NoDup_singleton].
    by intros x Hx ->%list_elem_of_singleton.
  - lia.
  - intros Hp Hw. left. rewrite <-Hrules. auto.
Qed.

Lemma created_work_ok e e' work :
  rules_ok e → created e e' → work_ok e work → work_ok e' work.
Proof.
  intros He [->|(r & _ & _ & Hid & _ & Hrules & Hnext & _)] [Hw Hnd]; [done|].
  split; [|done]. eapply Forall_impl; [done|]. intros w [Hi Hsame].
  split; [rewrite Hnext; eapply issued_mono; [|done]; lia|].
  intros x. rewrite Hrules. intros [Hx| ->%list_elem_of_singleton]%elem_of_app Hxid; [auto|].
  destruct Hi as (n & Hn & Hlt). rewrite Hid, Hn in Hxid. apply (inj rule_id) in Hxid. lia.
Qed.

Lemma latch_issued next done r :
  Forall (λ w, issued next (pd_rule w)) done → ft_id r = rule_id next → latch done r = ft_crossed r.
Proof.
  intros Hd Hid. induction Hd as [|w done (n & Hn & Hlt) _ IH]; [done|]. cbn [latch].
  destruct (str_eqb_spec (ft_id (pd_rule w)) (ft_id r)) as [Heq|]; [|done].
  rewrite Hn, Hid in Heq. apply (inj rule_id) in Heq. lia.
Qed.

Lemma created_latches e e' done :
  Forall (item_ok e) done → created e e' → latches_agree done e → latches_agree done e'.
Proof.
  intros Hd [->|(r & _ & Hcr & Hid & Hcode & Hrules & Hnext & Hcalls & _)] Ha; [done|].
  intros code. rewrite Hcalls, Hrules. rewrite (Ha code). setoid_rewrite elem_of_app.
  setoid_rewrite list_elem_of_singleton. split; [naive_solver|].
  intros (x & [Hx| ->] & Hc & Hl); [by exists x|].
  rewrite (latch_issued (te_next_seq e)) in Hl; [congruence| |done].
  eapply Forall_impl; [done|]. by intros w [? _].
Qed.

Lemma create_trigger_ok e e' ph :
  (te_next_seq e + 1 < two64)%N → created e e' → trigger_ok (e, ph) → trigger_ok (e', ph).
Proof.
  intros Hseq Hc [He Hph]. cbn in *. split; [by eapply created_rules_ok|]. cbn.
  destruct ph as [|work|done todo].
  - by eapply created_latches.
  - destruct Hph as (Hl & Hw & Hf). split_and!; [|by eapply created_work_ok|done].
    by eapply created_latches.
  - destruct Hph as (Hl & Hw & Hf). split_and!; [|by eapply created_work_ok|done].
    eapply created_latches; [|done..]. destruct Hw as [Hw _]. by apply Forall_app in Hw as [? _].
Qed.

(** *** Removal *)

Lemma erase_rule_sublist app_id id rules : erase_rule app_id id rules `sublist_of` rules.
Proof.
  induction rules as [|r rules IH]; [done|]. cbn [erase_rule].
  case_decide; [by apply sublist_cons|by apply sublist_skip].
Qed.

Lemma elem_of_erase_rule app_id id rules r x :
  NoDup (ft_id <$> rules) → r ∈ rules → is_rule app_id id r →
  x ∈ erase_rule app_id id rules ↔ x ∈ rules ∧ x ≠ r.
Proof.
  intros Hnd Hr [Happ Hid]. induction rules as [|y rules IH]; [by apply not_elem_of_nil in Hr|].
  cbn [fmap list_fmap] in Hnd. apply NoDup_cons in Hnd as [Hy Hnd]. cbn [erase_rule].
  destruct (decide (is_rule app_id id y)) as [[Happ' Hid']|Hne].
  - assert (y = r) as ->.
    { apply elem_of_cons in Hr as [->|Hr]; [done|]. destruct Hy.
      rewrite Hid', <-Hid. by apply list_elem_of_fmap_2. }
    rewrite elem_of_cons. split; [|naive_solver]. intros Hx. split; [by right|].
    intros ->. destruct Hy. by apply list_elem_of_fmap_2.
  - apply elem_of_cons in Hr as [->|Hr]; [by destruct Hne|].
    rewrite !elem_of_cons, IH by done. split; [|naive_solver].
    intros [->|[Hx Hxr]]; [|by auto]. split; [by left|]. intros ->. by destruct Hne.
Qed.

(** What a removal may do to a state. *)
Definition removed (e e' : engine) : Prop :=
  e' = e ∨ ∃ r app_id, r ∈ te_rules e ∧ te_rules e' `sublist_of` te_rules e ∧
    (∀ x, x ∈ te_rules e' ↔ x ∈ te_rules e ∧ x ≠ r) ∧ te_next_seq e' = te_next_seq e ∧
    te_calls e' = te_calls e ++ (if ft_crossed r then [Clear app_id (ft_fault_code r)] else []) ∧
    (persistent = true → writable = true → te_file e' = Some (dump (rules_json (te_rules e')))).

Lemma remove_removed app_id id (e : engine) :
  rules_ok e → removed e (remove persistent writable app_id id e).2.
Proof.
  intros He. unfold remove. destruct (list_find _ _) as [[i r]|] eqn:Hf; [|by left].
  apply list_find_Some in Hf as (Hi & Hr & _). apply list_elem_of_lookup_2 in Hi.
  right. exists r, app_id. set (e1 := with_rules _ e).
  destruct (save_locked_fields e1) as (H1 & H2 & H3 & H4). cbn [snd].
  destruct (ft_crossed r); cbn [te_rules te_next_seq te_calls te_file call];
    rewrite ?H1, ?H2, ?H3, ?app_nil_r; (split_and!; try done);
    try apply erase_rule_sublist; intros x; by apply elem_of_erase_rule; [apply He|..].
Qed.

Lemma removed_rules_ok e e' : removed e e' → rules_ok e → rules_ok e'.
Proof.
  intros [->|(r & app_id & Hr & Hsub & Hin & Hnext & _ & Hfile)] He; [done|].
  split; rewrite ?Hnext; try apply He.
  - apply Forall_forall. intros x [Hx _]%Hin. by eapply Forall_forall; [apply (ro_rules _ He)|].
  - apply Forall_forall. intros x [Hx _]%Hin. by eapply Forall_forall; [apply (ro_issued _ He)|].
  - eapply sublist_NoDup; [|by apply fmap_sublist]; apply He.
  - eapply sublist_NoDup; [|by apply fmap_sublist]; apply He.
  - auto.
Qed.

Lemma removed_work_ok e e' work : removed e e' → work_ok e work → work_ok e' work.
Proof.
  intros [->|(r & app_id & _ & _ & Hin & Hnext & _)] [Hw Hnd]; [done|].
  split; [|done]. eapply Forall_impl; [done|]. intros w [Hi Hsame].
  split; [by rewrite Hnext|]. intros x [Hx _]%Hin. auto.
Qed.

Lemma removed_latches e e' :
  rules_ok e → removed e e' → latches_agree [] e → latches_agree [] e'.
Proof.
  intros He [->|(r & app_id & Hr & _ & Hin & _ & Hcalls & _)] Ha; [done|].
  intros code. rewrite Hcalls. setoid_rewrite Hin. cbn [latch] in *.
  destruct (ft_crossed r) eqn:Hcr.
  - rewrite asserted_snoc. cbn [assert_call]. rewrite elem_of_difference, (Ha code), not_elem_of_singleton.
    split; [|intros (x & [Hx Hne] & Hc & Hl)].
    + intros [(x & Hx & Hc & Hl) Hne]. exists x. split_and!; [done| |done..]. intros ->. congruence.
    + split; [by exists x|]. intros ->. destruct Hne. by eapply (NoDup_fmap_elem ft_fault_code); [apply (ro_codes _ He)|..].
  - rewrite app_nil_r, (Ha code). split; [|naive_solver].
    intros (x & Hx & Hc & Hl). exists x. split_and!; [done| |done..]. cbn [latch] in Hl. congruence.
Qed.

Lemma remove_ok e e' ph :
  (∀ done todo, ph ≠ Dispatching done todo) → removed e e' → trigger_ok (e, ph) → trigger_ok (e', ph).
Proof.
  intros Hph0 Hr [He Hph]. cbn in *. split; [by eapply removed_rules_ok|]. cbn.
  destruct ph as [|work|done todo]; [by eapply removed_latches| |by destruct (Hph0 done todo)].
  destruct Hph as (Hl & Hw & Hf). split_and!; [by eapply removed_latches|by eapply removed_work_ok|done].
Qed.

(** *** Evaluation *)

Lemma snapshot_ok e fetcher :
  rules_ok e → work_ok e (snapshot fetcher e) ∧ Forall fresh_item (snapshot fetcher e).
Proof.
  intros He. unfold snapshot, work_ok. split_and!.
  - apply Forall_fmap, Forall_forall. intros r [_ Hr]%list_elem_of_filter. split; cbn.
    + by eapply Forall_forall; [apply (ro_issued _ He)|].
    + intros x Hx Hid. by eapply (NoDup_fmap_elem ft_id); [apply (ro_ids _ He)|..].
  - rewrite <-list_fmap_compose. eapply sublist_NoDup; [apply (ro_ids _ He)|].
    apply (fmap_sublist ft_id), sublist_filter.
  - apply Forall_fmap, Forall_true. done.
Qed.

Lemma fetch_ok e i v work :
  work_ok e work → Forall fresh_item work →
  work_ok e (alter (with_value v) i work) ∧ Forall fresh_item (alter (with_value v) i work).
Proof.
  intros [Hw Hnd] Hf. unfold work_ok. split_and!.
  - apply Forall_alter; [done|]. intros w _. exact id.
  - rewrite (list_fmap_alter _ _ id) by by apply Forall_true. by rewrite list_alter_id.
  - apply Forall_alter; [done|]. intros w _. exact id.
Qed.

Lemma latch_snoc done w r :
  latch (done ++ [w]) r =
    if bool_decide (ft_id r ∈ (λ w, ft_id (pd_rule w)) <$> done) then latch done r
    else if ft_id (pd_rule w) =?ₛ ft_id r then pd_crossed w else ft_crossed r.
Proof.
  induction done as [|x done IH]; [done|]. cbn [app latch fmap list_fmap].
  destruct (str_eqb_spec (ft_id (pd_rule x)) (ft_id r)) as [Heq|Hne].
  - by rewrite bool_decide_eq_true_2 by (rewrite Heq; left).
  - rewrite IH. erewrite bool_decide_ext; [reflexivity|]. rewrite elem_of_cons. naive_solver.
Qed.

Lemma latch_not_done done r :
  ft_id r ∉ (λ w, ft_id (pd_rule w)) <$> done → latch done r = ft_crossed r.
Proof.
  induction done as [|x done IH]; [done|]. cbn [latch fmap list_fmap].
  intros [Hne Hn]%not_elem_of_cons. rewrite (proj2 (str_eqb_neq _ _)) by done. auto.
Qed.

Lemma still_present_spec w e :
  item_ok e w → still_present w e = bool_decide (pd_rule w ∈ te_rules e).
Proof.
  intros [_ Hsame]. apply eq_bool_prop_intro. rewrite bool_decide_spec. unfold still_present.
  rewrite Is_true_true, existsb_exists. setoid_rewrite <-list_elem_of_In. split.
  - intros (r & Hr & [Hid _]%andb_true_iff). apply str_eqb_eq in Hid. by rewrite <-(Hsame r).
  - intros Hin. exists (pd_rule w). by rewrite !str_eqb_refl.
Qed.

(** What a dispatched item does to the state. *)
Lemma dispatch_spec w e w' e' :
  item_ok e w → dispatch to_string w e = (w', e') →
  pd_rule w' = pd_rule w ∧ te_rules e' = te_rules e ∧ te_next_seq e' = te_next_seq e ∧
  te_file e' = te_file e ∧
  (w' = w ∧ te_calls e' = te_calls e ∨
   pd_rule w ∈ te_rules e ∧ pd_crossed w' = false ∧
     te_calls e' = te_calls e ++
       (if pd_crossed w then [Clear (ft_app_id (pd_rule w)) (ft_fault_code (pd_rule w))] else []) ∨
   pd_rule w ∈ te_rules e ∧ pd_crossed w' = true ∧
     ∃ severity desc, te_calls e' = te_calls e ++
       [Report (ft_app_id (pd_rule w)) (ft_fault_code (pd_rule w)) severity desc]).
Proof.
  intros Hw. unfold dispatch. rewrite still_present_spec by done.
  destruct (pd_value w) as [v|]; [|intros [= <- <-]; naive_solver].
  case_bool_decide as Hin; cbn [negb]; [|intros [= <- <-]; naive_solver].
  destruct (compare _ _ _); intros [= <- <-].
  - split_and!; [done..|]. right; right. split_and!; [done..|]. by eexists _, _.
  - destruct (pd_crossed w) eqn:Hc; (split_and!; [done..|]); right; left; (split_and!; [done..|]);
      by rewrite ?app_nil_r.
Qed.

Lemma latch_dispatched e done w w' todo r :
  work_ok e (done ++ w :: todo) → pd_rule w' = pd_rule w → r ∈ te_rules e →
  latch (done ++ [w']) r = if decide (r = pd_rule w) then pd_crossed w' else latch done r.
Proof.
  intros [Hw Hnd] Hr Hrin. rewrite latch_snoc, Hr. rewrite fmap_app in Hnd.
  apply NoDup_app in Hnd as (_ & Hdis & _). destruct (decide (r = pd_rule w)) as [->|Hne].
  - rewrite str_eqb_refl, bool_decide_eq_false_2; [done|]. intros Hin. destruct (Hdis _ Hin). left.
  - rewrite (proj2 (str_eqb_neq _ _)).
    + case_bool_decide; [done|]. by rewrite latch_not_done.
    + intros Heq. destruct Hne. apply Forall_app in Hw as [_ [[_ Hsame] _]%Forall_cons]. auto.
Qed.

Lemma latch_current e done w todo :
  work_ok e (done ++ w :: todo) → fresh_item w → latch done (pd_rule w) = pd_crossed w.
Proof.
  intros [_ Hnd] ->. apply latch_not_done. rewrite fmap_app in Hnd.
  apply NoDup_app in Hnd as (_ & Hdis & _). intros Hin. destruct (Hdis _ Hin). left.
Qed.

(** One rule's latch and the assertion of its code change together. *)
Lemma latches_update e e' done done' r0 b :
  rules_ok e → r0 ∈ te_rules e → latches_agree done e → te_rules e' = te_rules e →
  (∀ r, r ∈ te_rules e → latch done' r = if decide (r = r0) then b else latch done r) →
  (∀ code, code ∈ asserted (te_calls e') ↔
     code = ft_fault_code r0 ∧ b = true ∨ code ≠ ft_fault_code r0 ∧ code ∈ asserted (te_calls e)) →
  latches_agree done' e'.
Proof.
  intros He Hr0 Ha Hrules Hlatch Has code. rewrite Hrules, Has, (Ha code). split.
  - intros [[-> ->]|(Hne & r & Hr & Hc & Hl)].
    + exists r0. split_and!; [done..|]. by rewrite Hlatch, decide_True.
    + exists r. split_and!; [done..|]. rewrite Hlatch, decide_False by naive_solver. done.
  - intros (r & Hr & Hc & Hl). rewrite Hlatch in Hl by done. destruct (decide (r = r0)) as [->|Hne].
    + by left.
    + right. split; [|by exists r]. intros ->. destruct Hne.
      by eapply (NoDup_fmap_elem ft_fault_code); [apply (ro_codes _ He)|..].
Qed.

Lemma dispatch_latches e done w todo w' e' :
  rules_ok e → work_ok e (done ++ w :: todo) → fresh_item w → latches_agree done e →
  dispatch to_string w e = (w', e') → latches_agree (done ++ [w']) e'.
Proof.
  intros He Hw Hf Ha Hd.
  assert (item_ok e w) as Hi by by destruct Hw as [[_ [? _]%Forall_cons]%Forall_app _].
  destruct (dispatch_spec _ _ _ _ Hi Hd) as (Hr & Hrules & _ & _ & Hcase).
  pose proof (λ r, latch_dispatched _ _ _ _ _ r Hw Hr) as Hlatch.
  pose proof (latch_current _ _ _ _ Hw Hf) as Hcur.
  destruct Hcase as [[-> Hcalls]|[(Hin & Hc & Hcalls)|(Hin & Hc & sev & desc & Hcalls)]].
  - intros code. rewrite Hcalls, Hrules, (Ha code). split; intros (r & Hrin & Hcode & Hl);
      exists r; (split_and!; [done..|]); revert Hl; rewrite Hlatch by done; case_decide; by subst; rewrite ?Hcur.
  - eapply (latches_update e e' done _ (pd_rule w) false); [done..|by rewrite <-Hc|]. intros code.
    rewrite Hcalls. destruct (pd_crossed w) eqn:Hpc.
    + rewrite asserted_snoc. cbn [assert_call]. set_solver.
    + rewrite app_nil_r. split; [|naive_solver]. intros Hcode. right. split; [|done]. intros ->.
      apply Ha in Hcode as (r & Hrin & Hcode & Hl).
      assert (r = pd_rule w) as ->; [|congruence].
      by eapply (NoDup_fmap_elem ft_fault_code); [apply (ro_codes _ He)|..].
  - eapply (latches_update e e' done _ (pd_rule w) true); [done..|by rewrite <-Hc|]. intros code.
    rewrite Hcalls, asserted_snoc. cbn [assert_call].
    destruct (decide (code = ft_fault_code (pd_rule w))); set_solver.
Qed.

Lemma rules_ok_eq e e' :
  te_rules e' = te_rules e → te_next_seq e' = te_next_seq e → te_file e' = te_file e →
  rules_ok e → rules_ok e'.
Proof. intros H1 H2 H3 []. split; rewrite ?H1, ?H2, ?H3; done. Qed.

Lemma dispatch_ok e done w todo :
  trigger_ok (e, Dispatching done (w :: todo)) →
  trigger_ok ((dispatch to_string w e).2, Dispatching (done ++ [(dispatch to_string w e).1]) todo).
Proof.
  intros [He (Hl & Hw & [Hfw Hf]%Forall_cons)]. cbn [fst snd] in *.
  destruct (dispatch to_string w e) as [w' e'] eqn:Hd.
  assert (item_ok e w) as Hi by by destruct Hw as [[_ [? _]%Forall_cons]%Forall_app _].
  destruct (dispatch_spec _ _ _ _ Hi Hd) as (Hr & Hrules & Hnext & Hfile & _).
  split; [by eapply rules_ok_eq|]. cbn [fst snd]. split_and!; [by eapply dispatch_latches| |done].
  destruct Hw as [Hw Hnd]. rewrite <-app_assoc. split.
  - unfold item_ok in *. rewrite Hrules, Hnext. apply Forall_app in Hw as [Hw1 [_ Hw2]%Forall_cons].
    apply Forall_app. split; [done|]. apply Forall_cons. by rewrite Hr.
  - rewrite fmap_app in *. cbn in *. by rewrite Hr.
Qed.

(** *** Folding the latches back *)

Definition set_latch (done : list Pending) (r : FaultTriggerRule) : FaultTriggerRule :=
  set_crossed (latch done r) r.

Lemma set_crossed_same b r : ft_crossed r = b → set_crossed b r = r.
Proof. intros <-. by destruct r. Qed.

Definition latch_one (w : Pending) (r : FaultTriggerRule) : FaultTriggerRule :=
  if ft_id (pd_rule w) =?ₛ ft_id r then set_crossed (pd_crossed w) r else r.

(** An item finds no rule but the one it is a copy of. *)
Definition names_own (rules : list FaultTriggerRule) (w : Pending) : Prop :=
  ∀ r, r ∈ rules → ft_id r = ft_id (pd_rule w) → ft_app_id r = ft_app_id (pd_rule w).

Lemma latch_one_other w (rules : list FaultTriggerRule) :
  ft_id (pd_rule w) ∉ ft_id <$> rules → latch_one w <$> rules = rules.
Proof.
  intros Hn. rewrite <-(list_fmap_id rules) at 2. apply list_fmap_ext. intros i r Hr.
  unfold latch_one. rewrite (proj2 (str_eqb_neq _ _)); [done|]. intros Heq. destruct Hn.
  rewrite Heq. eapply list_elem_of_fmap_2, list_elem_of_lookup_2, Hr.
Qed.

Lemma fold_latch_map w (rules : list FaultTriggerRule) :
  NoDup (ft_id <$> rules) → names_own rules w → fold_latch w rules = latch_one w <$> rules.
Proof.
  intros Hnd Hown. induction rules as [|r rules IH]; [done|]. cbn [fold_latch fmap list_fmap].
  cbn [fmap list_fmap] in Hnd. apply NoDup_cons in Hnd as [Hr Hnd].
  destruct (decide (is_rule _ _ r)) as [[Happ Hid]|Hne].
  - unfold latch_one at 1. rewrite Hid, str_eqb_refl. f_equal. symmetry. apply latch_one_other.
    by rewrite <-Hid.
  - unfold latch_one at 1. rewrite (proj2 (str_eqb_neq _ _)).
    + f_equal. apply IH; [done|]. intros x Hx. apply Hown. by right.
    + intros Heq. destruct Hne. split; [|done]. apply Hown; [left|done].
Qed.

Lemma latch_edge_false w (rules : list FaultTriggerRule) :
  NoDup (ft_id <$> rules) → names_own rules w → latch_edge w rules = false →
  latch_one w <$> rules = rules.
Proof.
  intros Hnd Hown. unfold latch_edge. destruct (list_find _ _) as [[i r]|] eqn:Hf.
  - apply list_find_Some in Hf as (Hi & [Happ Hid] & _). intros Hc%negb_false_iff%eqb_prop.
    rewrite <-(list_fmap_id rules) at 2. apply list_fmap_ext. intros j x Hx. unfold latch_one.
    destruct (str_eqb_spec (ft_id (pd_rule w)) (ft_id x)) as [Heq|]; [|done].
    apply set_crossed_same. assert (x = r) as ->; [|done].
    eapply (NoDup_fmap_elem ft_id); [done|eapply list_elem_of_lookup_2; done..|congruence].
  - intros _. apply list_find_None in Hf. rewrite Forall_forall in Hf. apply latch_one_other.
    rewrite list_elem_of_fmap. intros (r & Hid & Hr). destruct (Hf r Hr). split; [|done]. by apply Hown.
Qed.

Lemma ft_id_latch_one w (rules : list FaultTriggerRule) : ft_id <$> (latch_one w <$> rules) = ft_id <$> rules.
Proof.
  rewrite <-list_fmap_compose. apply list_fmap_ext. intros i r _. unfold compose, latch_one.
  by destruct (_ =?ₛ _).
Qed.

Lemma names_own_latch_one w v (rules : list FaultTriggerRule) : names_own rules v → names_own (latch_one w <$> rules) v.
Proof.
  intros Hown r (x & -> & Hx)%list_elem_of_fmap. specialize (Hown x Hx). unfold latch_one.
  by destruct (_ =?ₛ _).
Qed.

Lemma set_latch_cons w done r :
  ft_id (pd_rule w) ∉ (λ w, ft_id (pd_rule w)) <$> done →
  set_latch done (latch_one w r) = set_latch (w :: done) r.
Proof.
  intros Hn. unfold set_latch, latch_one. cbn [latch].
  destruct (str_eqb_spec (ft_id (pd_rule w)) (ft_id r)) as [Heq|]; [|done].
  rewrite latch_not_done; [done|]. cbn. by rewrite <-Heq.
Qed.

(** Folding writes each rule's latch, and reports whether one changed. *)
Lemma fold_done done b (rules : list FaultTriggerRule) b' rules' :
  NoDup ((λ w, ft_id (pd_rule w)) <$> done) → NoDup (ft_id <$> rules) → Forall (names_own rules) done →
  foldl fold_one (b, rules) done = (b', rules') →
  rules' = set_latch done <$> rules ∧ (b' = false → b = false ∧ rules' = rules).
Proof.
  intros Hdone. revert b rules. induction done as [|w done IH]; intros b rules Hnd Hown; cbn [foldl].
  - intros [= <- <-]. split; [|done]. rewrite <-(list_fmap_id rules) at 1. apply list_fmap_ext.
    intros i r _. symmetry. by apply set_crossed_same.
  - cbn [fmap list_fmap] in Hdone. apply NoDup_cons in Hdone as [Hw Hdone].
    apply Forall_cons in Hown as [Hown Howns].
    assert ((fold_one (b, rules) w).2 = latch_one w <$> rules ∧
      ((fold_one (b, rules) w).1 = false → b = false ∧ latch_one w <$> rules = rules)) as [Hone Hsame].
    { unfold fold_one. cbn [snd]. destruct (latch_edge w rules) eqn:He; cbn [fst snd].
      - split; [by apply fold_latch_map|done].
      - by rewrite (latch_edge_false w rules). }
    destruct (fold_one (b, rules) w) as [b1 rules1]. cbn [fst snd] in *. subst rules1. intros Hf.
    destruct (IH Hdone b1 (latch_one w <$> rules)) as [-> Hb]; [| |done|].
    + by rewrite ft_id_latch_one.
    + eapply Forall_impl; [done|]. intros v. apply names_own_latch_one.
    + split.
      * rewrite <-list_fmap_compose. apply list_fmap_ext. intros i r _. by apply set_latch_cons.
      * intros Hb'. destruct (Hb Hb') as [Hb1 Hrules]. destruct (Hsame Hb1) as [Hb0 Hsame'].
        split; [done|]. by rewrite Hrules.
Qed.

Lemma set_latch_fmap {B} (f : FaultTriggerRule → B) done (rules : list FaultTriggerRule) :
  (∀ b r, f (set_crossed b r) = f r) → f <$> (set_latch done <$> rules) = f <$> rules.
Proof. intros Hf. rewrite <-list_fmap_compose. apply list_fmap_ext. intros i r _. apply Hf. Qed.

Lemma fold_back_ok e done :
  trigger_ok (e, Dispatching done []) → trigger_ok (fold_back persistent writable done e, Idle).
Proof.
  intros [He (Hl & [Hw Hnd] & _)]. cbn [fst snd] in *. rewrite app_nil_r in *. unfold fold_back.
  destruct (foldl fold_one (false, te_rules e) done) as [b rules] eqn:Hf.
  apply fold_done in Hf as [Hrules Hsame]; [|done|apply He|].
  2:{ eapply Forall_impl; [exact Hw|]. intros w [_ Hw'] r Hr Hid. by rewrite (Hw' r). }
  assert (∀ e', te_rules e' = rules → te_next_seq e' = te_next_seq e → te_calls e' = te_calls e →
    (persistent = true → writable = true → te_file e' = Some (dump (rules_json rules)) ∨
       te_file e' = None ∧ rules = []) → trigger_ok (e', Idle)) as Hgoal.
  { intros e' H1 H2 H3 H4. subst rules. split; [destruct He; split|]; cbn [fst snd].
    - rewrite H1. by apply Forall_fmap.
    - rewrite H1, H2. by apply Forall_fmap.
    - rewrite H1. by rewrite set_latch_fmap.
    - rewrite H1. by rewrite set_latch_fmap.
    - by rewrite H2.
    - by rewrite H1.
    - intros code. rewrite H1, H3, (Hl code). cbn [latch]. setoid_rewrite list_elem_of_fmap. split.
      + intros (r & Hr & Hc & Hlr). exists (set_latch done r). split_and!; [by exists r|done..].
      + intros (x & (r & -> & Hr) & Hc & Hlr). by exists r. }
  destruct b.
  - destruct (save_locked_fields (with_rules rules e)) as (H1 & H2 & H3 & H4). apply Hgoal; auto.
  - destruct (Hsame eq_refl) as [_ ->]. apply Hgoal; auto. apply He.
Qed.

(** *** Restart *)

Lemma load_row_rule_row r : rule_ok r → ft_id r ≠ "" → load_row (rule_row r) = Some r.
Proof.
  intros (Happ & Hd & Hop & Hc & Hs & _) Hid.
  unfold load_row. change (is_object (rule_row r)) with true. cbn [negb].
  change (json_string (rule_row r) "id") with (ft_id r).
  change (json_string (rule_row r) "app_id") with (ft_app_id r).
  change (json_string (rule_row r) "data_name") with (ft_data_name r).
  change (json_string (rule_row r) "operator") with (ft_op r).
  change (json_string (rule_row r) "fault_code") with (ft_fault_code r).
  change (json_string (rule_row r) "severity") with (ft_severity r).
  change (json_bool (rule_row r) "active" true) with (ft_active r).
  change (json_bool (rule_row r) "crossed" false) with (ft_crossed r).
  change (field "threshold" (rule_row r)) with (Some (JNum (ft_threshold r))).
  cbn [ft_id ft_app_id ft_data_name ft_op ft_fault_code ft_severity].
  rewrite !(proj2 (str_eqb_neq _ "")), Hop, Hs by done. by destruct r.
Qed.

Lemma utf8_rule_id n : utf8 (rule_id n) = true.
Proof.
  change (utf8 (pretty n) = true). unfold pretty, pretty_N. case_decide; [done|].
  assert (utf8 "" = true) as Hs by done. revert Hs. generalize "". clear.
  induction (N.lt_wf_0 n) as [x _ IH]; intros s Hs.
  destruct (decide (x = 0)%N) as [->|Hx]; [done|].
  rewrite pretty_N_go_step by lia. apply IH; [by apply N.div_lt; lia|].
  destruct (pretty_N_char_digit (x `mod` 10)) as [Hd _]; [by apply N.mod_lt|].
  rewrite utf8_ascii; [done|]. unfold is_digit, byte_in in *. apply andb_true_iff in Hd as [?%N.leb_le ?%N.leb_le].
  apply andb_true_iff. split; apply N.leb_le; lia.
Qed.

Lemma rule_row_fields r :
  rule_row r =
    JObj [("active", JBool (ft_active r)); ("app_id", JStr (ft_app_id r)); ("crossed", JBool (ft_crossed r));
          ("data_name", JStr (ft_data_name r)); ("fault_code", JStr (ft_fault_code r)); ("id", JStr (ft_id r));
          ("operator", JStr (ft_op r)); ("severity", JStr (ft_severity r)); ("threshold", JNum (ft_threshold r))].
Proof. done. Qed.

Lemma rule_row_document next r : rule_ok r → issued next r → is_document (rule_row r) = true.
Proof.
  intros (_ & _ & Hop & _ & Hsev & Hnum & Happ & Hdata & Hcode) (n & Hid & _).
  pose proof (utf8_rule_id n) as Hn. rewrite <-Hid in Hn.
  assert (utf8 (ft_op r) = true) as Ho.
  { apply bool_decide_eq_true in Hop. clear - Hop. repeat (apply elem_of_cons in Hop as [->|Hop]; [done|]); by apply not_elem_of_nil in Hop. }
  assert (utf8 (ft_severity r) = true) as Hs.
  { apply bool_decide_eq_true in Hsev. clear - Hsev. repeat (apply elem_of_cons in Hsev as [->|Hsev]; [done|]); by apply not_elem_of_nil in Hsev. }
  rewrite rule_row_fields. cbn -[utf8 finite_double]. by rewrite Hnum, Happ, Hdata, Hcode, Hn, Ho, Hs.
Qed.

Lemma rules_json_document next rules :
  Forall rule_ok rules → Forall (issued next) rules → is_document (rules_json rules) = true.
Proof.
  intros Hr Hi. cbn [rules_json is_document]. apply forallb_forall. intros x Hx%list_elem_of_In.
  apply list_elem_of_fmap in Hx as (r & -> & Hx). rewrite Forall_forall in Hr, Hi.
  by eapply rule_row_document; auto.
Qed.

(** Loading rows written by [save_locked]. *)
Lemma load_rows (rules : list FaultTriggerRule) (e : engine) next :
  Forall rule_ok rules → Forall (issued next) rules → (next < two64)%N →
  ∃ next', foldl load_item e (rule_row <$> rules) =
      mkEngine (te_rules e ++ rules) next' (te_file e) (te_calls e) ∧
    (te_next_seq e ≤ next')%N ∧ (next' ≤ N.max (te_next_seq e) next)%N ∧ Forall (issued next') rules.
Proof.
  intros Hr Hi Hnext. revert e. induction Hr as [|r rules Hr _ IH]; intros e; cbn [fmap list_fmap foldl].
  - exists (te_next_seq e). rewrite app_nil_r. split_and!; [by destruct e|lia|lia|done].
  - apply Forall_cons in Hi as [(n & Hn & Hlt) Hi].
    unfold load_item at 2. rewrite load_row_rule_row by (done || by rewrite Hn).
    rewrite Hn, bump_seq_rule_id by lia.
    destruct (IH Hi (mkEngine (te_rules e ++ [r]) (N.max (te_next_seq e) (n + 1)) (te_file e) (te_calls e)))
      as (next' & Heq & Hle & Hmax & His). cbn [te_rules te_next_seq te_file te_calls] in *.
    exists next'. rewrite <-app_assoc in Heq. split_and!; [exact Heq|lia|lia|].
    apply Forall_cons. split; [|done]. exists n. split; [done|lia].
Qed.

(** Restarting from what the engine saved. *)
Lemma restart_rules (e : engine) :
  persistent = true → writable = true → rules_ok e →
  te_rules (new_trigger_engine persistent (te_file e)) = te_rules e ∧
  (te_next_seq (new_trigger_engine persistent (te_file e)) < two64)%N ∧
  Forall (issued (te_next_seq (new_trigger_engine persistent (te_file e)))) (te_rules e).
Proof.
  intros Hp Hw He. unfold new_trigger_engine. rewrite Hp. cbn [negb].
  destruct (ro_file _ He Hp Hw) as [->|[-> ->]]; [|done].
  cbn [mbind option_bind]. rewrite parse_dump by (eapply rules_json_document; apply He).
  destruct (load_rows (te_rules e) (mkEngine [] 1 (Some (dump (rules_json (te_rules e)))) [])
    (te_next_seq e)) as (next' & Heq & H1 & H2 & H3); [apply He..|].
  generalize (Some (dump (rules_json (te_rules e)))) as file, Heq. intros file Heq'.
  unfold rules_json. rewrite Heq'. cbn [te_rules te_next_seq app] in *. split_and!; [done| |done].
  pose proof (ro_next _ He). unfold two64 in *. lia.
Qed.

Lemma quiet_latches e ph :
  (∀ done todo, ph ≠ Dispatching done todo) → trigger_ok (e, ph) → latches_agree [] e.
Proof.
  intros Hph [_ Hok]. cbn [snd fst] in Hok.
  destruct ph as [|work|d todo]; [done|by destruct Hok|by destruct (Hph d todo)].
Qed.

Lemma restart_ok e ph :
  persistent = true → writable = true → (∀ done todo, ph ≠ Dispatching done todo) → trigger_ok (e, ph) →
  trigger_ok (mkEngine (te_rules (new_trigger_engine persistent (te_file e)))
    (te_next_seq (new_trigger_engine persistent (te_file e))) (te_file e) (te_calls e), Idle).
Proof.
  intros Hp Hw Hph Hok. pose proof (quiet_latches e ph Hph Hok) as Hl. destruct Hok as [He _].
  destruct (restart_rules e Hp Hw He) as (Hr & Hn & Hi). split; cbn [fst snd].
  - split; cbn [te_rules te_next_seq te_file]; rewrite ?Hr; try apply He; done.
  - intros code. cbn [te_rules te_calls]. rewrite Hr. apply Hl.
Qed.

Lemma trigger_step_ok s s' : trigger_step s s' → trigger_ok s → trigger_ok s'.
Proof.
  destruct 1 as [ee names app_id body e ph Happ Hutf Hdoc Hseq|app_id id e ph Hph|e|i v e work|e work
    |e done w todo|e done|e ph Hp Hw Hph]; intros Hok.
  - eapply create_trigger_ok; [done|by apply create_created|done].
  - eapply remove_ok; [done| |done]. apply remove_removed, Hok.
  - destruct (snapshot_ok e (λ _ _, None) (proj1 Hok)) as [Hw Hf]. destruct Hok as [He Hl]. cbn in *.
    destruct (snapshot _ e); done.
  - destruct Hok as (He & Hl & Hw & Hf). cbn [fst snd] in *.
    destruct (fetch_ok e i v work Hw Hf). done.
  - done.
  - by apply dispatch_ok.
  - by apply fold_back_ok.
  - by eapply restart_ok.
Qed.

Lemma new_trigger_ok : trigger_ok (new_trigger_engine persistent None, Idle).
Proof.
  unfold new_trigger_engine. destruct persistent; cbn [negb]; split; cbn [fst snd].
  all: try (split; cbn; by (constructor || auto)).
  all: intros code; split; [by intros ?%not_elem_of_empty|by intros (r & ?%not_elem_of_nil & _)].
Qed.

Lemma reachable_trigger_ok s :
  rtc trigger_step (new_trigger_engine persistent None, Idle) s → trigger_ok s.
Proof.
  intros Hs. refine (rtc_ind_r (λ s, trigger_ok s) _ _ _ s Hs); [apply new_trigger_ok|].
  intros x y _ Hxy Hx. by eapply trigger_step_ok.
Qed.

(** C26: However creations, removals, restarts and the sections of one evaluator
    interleave, whenever the evaluator is not dispatching the faults left
    asserted are exactly those of the rules latched as crossed: no deleted rule
    leaves a fault behind, and no latched rule's fault was cleared by another.
    Rules never share a fault code or an id. *)
Theorem asserted_faults_are_latched_rules e ph :
  rtc trigger_step (new_trigger_engine persistent None, Idle) (e, ph) →
  (∀ done todo, ph ≠ Dispatching done todo) →
  asserted (te_calls e) =
    list_to_set (ft_fault_code <$> filter (λ r, ft_crossed r = true) (te_rules e)) ∧
  NoDup (ft_fault_code <$> te_rules e) ∧ NoDup (ft_id <$> te_rules e).
Proof.
  intros Hs%reachable_trigger_ok Hph. pose proof (quiet_latches e ph Hph Hs) as Hl. destruct Hs as [He _].
  split_and!; [|apply He..]. apply set_eq. intros code. rewrite (Hl code), elem_of_list_to_set, list_elem_of_fmap.
  cbn [latch]. setoid_rewrite list_elem_of_filter. naive_solver.
Qed.

(** C37: A restart is lossless: on a writable store, reading the saved file back at
    any reachable moment gives exactly the rules of the running engine, latches
    included, and a counter from which no new id collides with theirs. *)
Theorem restart_restores_rules e ph :
  rtc trigger_step (new_trigger_engine persistent None, Idle) (e, ph) →
  persistent = true → writable = true →
  te_rules (new_trigger_engine persistent (te_file e)) = te_rules e ∧
  ∀ n, (te_next_seq (new_trigger_engine persistent (te_file e)) ≤ n)%N →
    rule_id n ∉ ft_id <$> te_rules e.
Proof.
  intros [He _]%reachable_trigger_ok Hp Hw. destruct (restart_rules e Hp Hw He) as (Hr & _ & Hi).
  split; [done|]. intros n Hn (r & Hid & Hin)%list_elem_of_fmap.
  destruct (proj1 (Forall_forall _ _) Hi r Hin) as (k & Hk & Hlt).
  rewrite Hk in Hid. apply (inj rule_id) in Hid. lia.
Qed.
End Spec.
