(* ===== verification/UpdateManager.v ===== *)
(** * Software updates

    [UpdateManager] (gateway core/managers/update_manager.cpp) and the status
    types of core/providers/update_types.hpp.  Package states live on a heap and
    [states_] points to them, as do the background tasks; a task is a program
    counter between its sections under [mutex_].  Backend calls run outside the
    mutex and are recorded where they begin and end; their answers are arguments.

    The future returned by [std::async] waits for its task when it is destroyed.
    [states_.erase] destroys one while holding [mutex_]: if its task is still
    running the mutex stays held, which [um_holder] records. *)

From stdpp Require Import relations.
From S2P Require Import Prelude Json.

(** ** Types *)

Inductive UpdateStatus := Pending | InProgress | Completed | Failed.

Inductive UpdatePhase :=
  PhNone | PhPreparing | PhPrepared | PhExecuting | PhExecuted | PhFailed | PhDeleting.

#[global] Instance UpdatePhase_eq_dec : EqDecision UpdatePhase.
Proof. solve_decision. Defined.

Record UpdateSubProgress := mkSub { sp_name : string; sp_progress : Z }.

Record UpdateStatusInfo := mkStatus {
  us_status : UpdateStatus;
  us_phase : UpdatePhase;
  us_progress : option Z;
  us_sub_progress : option (list UpdateSubProgress);
  us_error : option string;
}.

Inductive UpdateBackendError := BNotFound | BAlreadyExists | BInvalidInput | BInternal.

(** The error of a backend call; a call without result returns [None] on
    success. *)
Record UpdateBackendErrorInfo := mkBackendError { be_code : UpdateBackendError; be_message : string }.

Inductive UpdateErrorCode :=
  ENotFound | EAlreadyExists | EInProgress | ENotPrepared | ENotAutomated | EInvalidRequest | EDeleting
  | ENoBackend | EInternal.

Record UpdateError := mkError { ue_code : UpdateErrorCode; ue_message : string }.

Definition update_status_to_string (s : UpdateStatus) : string :=
  match s with
  | Pending => "pending" | InProgress => "inProgress" | Completed => "completed" | Failed => "failed"
  end.

Definition update_phase_to_string (p : UpdatePhase) : string :=
  match p with
  | PhNone => "none" | PhPreparing => "preparing" | PhPrepared => "prepared" | PhExecuting => "executing"
  | PhExecuted => "executed" | PhFailed => "failed" | PhDeleting => "deleting"
  end.

(** The fields in the key order of the library's objects. *)
Definition update_status_to_json (s : UpdateStatusInfo) : json :=
  JObj (
    (match us_error s with Some e => [("error", JStr e)] | None => [] end) ++
    (match us_progress s with Some p => [("progress", JNum (f64_of_Z p))] | None => [] end) ++
    [("status", JStr (update_status_to_string (us_status s)))] ++
    (match us_sub_progress s with
     | Some l => [("sub_progress", JArr ((λ sp, JObj [("name", JStr (sp_name sp));
         ("progress", JNum (f64_of_Z (sp_progress sp)))]) <$> l))]
     | None => []
     end) ++
    [("x-medkit", JObj [("phase", JStr (update_phase_to_string (us_phase s)))])]).

(** ** State *)

(** [active_task] is the number of the task a valid future belongs to. *)
Record PackageState := mkPackage { ps_status : UpdateStatusInfo; ps_task : option nat }.

Inductive task_kind := RunPrepare | RunExecute | RunAutomated.

#[global] Instance task_kind_eq_dec : EqDecision task_kind.
Proof. solve_decision. Defined.

(** Where a task is: before its first section, inside a backend call, with the
    answer of one before the next section, unwinding an exception, in its last
    notification, finished. *)
Inductive task_pc :=
  | TStart
  | TPreparing
  | TPrepareReturned (result : option UpdateBackendErrorInfo)
  | TExecuting
  | TExecuteReturned (result : option UpdateBackendErrorInfo)
  | TThrown (message : string)
  | TNotify (snapshot : UpdateStatusInfo)
  | TDone.

(** [tk_state] is the raw pointer taken in the first section. *)
Record Task := mkTask { tk_kind : task_kind; tk_id : string; tk_state : option nat; tk_pc : task_pc }.

Inductive backend_event :=
  | PrepareBegin (id : string) | PrepareEnd (id : string) (ok : bool)
  | ExecuteBegin (id : string) | ExecuteEnd (id : string)
  | DeleteBegin (id : string) | DeleteEnd (id : string).

Record UpdateManager := mkManager {
  um_backend : bool;                            (* a backend is set *)
  um_states : gmap string nat;
  um_heap : gmap nat PackageState;
  um_next : nat;                                (* next free address *)
  um_tasks : list Task;                         (* by task number *)
  um_stopped : bool;
  um_holder : option nat;                       (* task awaited with [mutex_] held *)
  um_events : list backend_event;               (* oldest first *)
  um_notes : list (string * json);              (* notifications, oldest first *)
}.

Definition with_heap (h : gmap nat PackageState) (m : UpdateManager) : UpdateManager :=
  mkManager (um_backend m) (um_states m) h (um_next m) (um_tasks m) (um_stopped m) (um_holder m)
    (um_events m) (um_notes m).

Definition with_tasks (ts : list Task) (m : UpdateManager) : UpdateManager :=
  mkManager (um_backend m) (um_states m) (um_heap m) (um_next m) ts (um_stopped m) (um_holder m)
    (um_events m) (um_notes m).

Definition with_holder (h : option nat) (m : UpdateManager) : UpdateManager :=
  mkManager (um_backend m) (um_states m) (um_heap m) (um_next m) (um_tasks m) (um_stopped m) h
    (um_events m) (um_notes m).

Definition record_event (ev : backend_event) (m : UpdateManager) : UpdateManager :=
  mkManager (um_backend m) (um_states m) (um_heap m) (um_next m) (um_tasks m) (um_stopped m) (um_holder m)
    (um_events m ++ [ev]) (um_notes m).

Definition initial_status : UpdateStatusInfo := mkStatus Pending PhNone None None None.

(** [states_[id] = std::make_unique<PackageState>()] with the given state. *)
Definition emplace (id : string) (ps : PackageState) (m : UpdateManager) : UpdateManager :=
  mkManager (um_backend m) (<[id := um_next m]> (um_states m)) (<[um_next m := ps]> (um_heap m))
    (S (um_next m)) (um_tasks m) (um_stopped m) (um_holder m) (um_events m) (um_notes m).

Definition new_update_manager (backend : bool) : UpdateManager :=
  mkManager backend ∅ ∅ 0 [] false None [] [].

Definition set_backend (b : bool) (m : UpdateManager) : UpdateManager :=
  mkManager b (um_states m) (um_heap m) (um_next m) (um_tasks m) (um_stopped m) (um_holder m)
    (um_events m) (um_notes m).

Definition notify_status_change (id : string) (s : UpdateStatusInfo) (m : UpdateManager) : UpdateManager :=
  mkManager (um_backend m) (um_states m) (um_heap m) (um_next m) (um_tasks m) (um_stopped m) (um_holder m)
    (um_events m) (um_notes m ++ [(id, update_status_to_json s)]).

(** [it->second] of a found entry. *)
Definition package (id : string) (m : UpdateManager) : option PackageState :=
  a ← um_states m !! id; um_heap m !! a.

Definition task_ready (t : nat) (m : UpdateManager) : bool :=
  match um_tasks m !! t with Some tk => match tk_pc tk with TDone => true | _ => false end | None => true end.

Definition is_task_active (id : string) (m : UpdateManager) : bool :=
  match package id m with
  | Some ps => match ps_task ps with Some t => negb (task_ready t m) | None => false end
  | None => false
  end.

(** Assigning through [it->second]. *)
Definition set_package (id : string) (f : PackageState → PackageState) (m : UpdateManager) : UpdateManager :=
  match um_states m !! id with
  | Some a => with_heap (alter f a (um_heap m)) m
  | None => m
  end.

Definition set_status (f : UpdateStatusInfo → UpdateStatusInfo) (ps : PackageState) : PackageState :=
  mkPackage (f (ps_status ps)) (ps_task ps).

Definition set_phase (p : UpdatePhase) (s : UpdateStatusInfo) : UpdateStatusInfo :=
  mkStatus (us_status s) p (us_progress s) (us_sub_progress s) (us_error s).

Definition fail_status (message : string) (s : UpdateStatusInfo) : UpdateStatusInfo :=
  mkStatus Failed PhFailed (us_progress s) (us_sub_progress s) (Some message).

Definition complete_status (p : UpdatePhase) (s : UpdateStatusInfo) : UpdateStatusInfo :=
  mkStatus Completed p (us_progress s) (us_sub_progress s) (us_error s).

(** ** Requests *)

Definition no_backend : UpdateError := mkError ENoBackend "No update backend loaded".

Definition list_updates (result : list string + UpdateBackendErrorInfo) (m : UpdateManager)
    : list string + UpdateError :=
  if negb (um_backend m) then inr no_backend
  else match result with inl l => inl l | inr e => inr (mkError EInternal (be_message e)) end.

Definition get_update {A} (result : A + UpdateBackendErrorInfo) (m : UpdateManager) : A + UpdateError :=
  if negb (um_backend m) then inr no_backend
  else match result with inl d => inl d | inr e => inr (mkError ENotFound (be_message e)) end.

(** [id] is [metadata.at("id")]. *)
Definition register_update (id : string) (result : option UpdateBackendErrorInfo) (m : UpdateManager)
    : option UpdateError * UpdateManager :=
  if negb (um_backend m) then (Some no_backend, m)
  else match result with
  | Some e =>
      (Some (mkError (match be_code e with
         | BAlreadyExists => EAlreadyExists
         | BInvalidInput => EInvalidRequest
         | BNotFound | BInternal => EInternal
         end) (be_message e)), m)
  | None =>
      (None, match um_states m !! id with
             | Some _ => m
             | None => emplace id (mkPackage initial_status None) m
             end)
  end.

(** [delete_update] up to the backend call; the flag is [had_state]. *)
Definition delete_begin (id : string) (m : UpdateManager) : (bool + UpdateError) * UpdateManager :=
  if negb (um_backend m) then (inr no_backend, m)
  else match um_states m !! id with
  | Some _ =>
      if is_task_active id m
      then (inr (mkError EInProgress "Cannot delete update while operation is in progress"), m)
      else (inl true, record_event (DeleteBegin id) (set_package id (set_status (set_phase PhDeleting)) m))
  | None =>
      (inl false, record_event (DeleteBegin id)
         (emplace id (mkPackage (set_phase PhDeleting initial_status) None) m))
  end.

(** [states_.erase(id)]: unlinks the entry and destroys the state, which waits
    for the task of a valid future. *)
Definition erase_state (id : string) (m : UpdateManager) : UpdateManager :=
  match um_states m !! id with
  | None => m
  | Some a =>
      mkManager (um_backend m) (delete id (um_states m)) (delete a (um_heap m)) (um_next m) (um_tasks m)
        (um_stopped m)
        (match um_heap m !! a ≫= ps_task with
         | Some t => if task_ready t m then None else Some t
         | None => None
         end)
        (um_events m) (um_notes m)
  end.

(** [delete_update] from the backend's answer on. *)
Definition delete_end (id : string) (had_state : bool) (result : option UpdateBackendErrorInfo)
    (m : UpdateManager) : option UpdateError * UpdateManager :=
  let m := record_event (DeleteEnd id) m in
  match result with
  | None => (None, erase_state id m)
  | Some e =>
      (Some (mkError (match be_code e with BNotFound => ENotFound | _ => EInternal end) (be_message e)),
       if had_state then set_package id (set_status (fail_status (be_message e))) m
       else erase_state id m)
  end.

(** [state->active_task = std::async(...)] with the new status. *)
Definition launch (kind : task_kind) (id : string) (p : UpdatePhase) (m : UpdateManager) : UpdateManager :=
  let t := length (um_tasks m) in
  set_package id (λ _, mkPackage (mkStatus Pending p None None None) (Some t))
    (with_tasks (um_tasks m ++ [mkTask kind id None TStart]) m).

Definition shutting_down : UpdateError := mkError EInternal "UpdateManager is shutting down".
Definition in_progress : UpdateError := mkError EInProgress "An operation is already in progress for this package".

(** The part [start_prepare] and [start_automated] share, from the check for a
    running task on. *)
Definition start_task (kind : task_kind) (id : string) (m : UpdateManager)
    : option UpdateError * UpdateManager :=
  if is_task_active id m then (Some in_progress, m)
  else
    let m := match um_states m !! id with
             | Some _ => m
             | None => emplace id (mkPackage initial_status None) m
             end in
    if bool_decide ((us_phase ∘ ps_status <$> package id m) = Some PhDeleting)
    then (Some (mkError EDeleting "Package is being deleted"), m)
    else (None, launch kind id PhPreparing m).

Definition start_prepare (id : string) (pkg : option UpdateBackendErrorInfo) (m : UpdateManager)
    : option UpdateError * UpdateManager :=
  if negb (um_backend m) then (Some no_backend, m)
  else if um_stopped m then (Some shutting_down, m)
  else match pkg with
  | Some e => (Some (mkError ENotFound (be_message e)), m)
  | None => start_task RunPrepare id m
  end.

Definition start_execute (id : string) (pkg : option UpdateBackendErrorInfo) (m : UpdateManager)
    : option UpdateError * UpdateManager :=
  if negb (um_backend m) then (Some no_backend, m)
  else if um_stopped m then (Some shutting_down, m)
  else match pkg with
  | Some e => (Some (mkError ENotFound (be_message e)), m)
  | None =>
      if negb (bool_decide ((us_phase ∘ ps_status <$> package id m) = Some PhPrepared))
      then (Some (mkError ENotPrepared "Package must be prepared before execution"), m)
      else if is_task_active id m then (Some in_progress, m)
      else (None, launch RunExecute id PhExecuting m)
  end.

Definition start_automated (id : string) (supported : bool + UpdateBackendErrorInfo) (m : UpdateManager)
    : option UpdateError * UpdateManager :=
  if negb (um_backend m) then (Some no_backend, m)
  else if um_stopped m then (Some shutting_down, m)
  else match supported with
  | inr e => (Some (mkError ENotFound (be_message e)), m)
  | inl false => (Some (mkError ENotAutomated "Package does not support automated updates"), m)
  | inl true => start_task RunAutomated id m
  end.

Definition get_status (id : string) (m : UpdateManager) : UpdateStatusInfo + UpdateError :=
  match package id m with
  | Some ps => inl (ps_status ps)
  | None => inr (mkError ENotFound ("No status available for package '" +:+ id +:+ "'"))
  end.

(** [shutdown] up to the waits: the valid futures leave the states. *)
Definition shutdown_begin (m : UpdateManager) : list nat * UpdateManager :=
  (omap (λ e, um_heap m !! e.2 ≫= ps_task) (map_entries (um_states m)),
   mkManager (um_backend m) (um_states m)
     ((λ ps, mkPackage (ps_status ps) None) <$> um_heap m)
     (um_next m) (um_tasks m) true (um_holder m) (um_events m) (um_notes m)).

(** ** Tasks *)

Definition set_task (t : nat) (f : Task → Task) (m : UpdateManager) : UpdateManager :=
  with_tasks (alter f t (um_tasks m)) m.

Definition goto (pc : task_pc) (tk : Task) : Task := mkTask (tk_kind tk) (tk_id tk) (tk_state tk) pc.

Definition first_call (kind : task_kind) : task_pc :=
  match kind with RunExecute => TExecuting | RunPrepare | RunAutomated => TPreparing end.

(** The first section and the notification after it; the backend call begins. *)
Definition task_begin (t : nat) (tk : Task) (m : UpdateManager) : UpdateManager :=
  match um_states m !! tk_id tk with
  | None => m  (* dereferences a null state *)
  | Some a =>
      let set s := mkStatus InProgress (us_phase s) (us_progress s) (us_sub_progress s) (us_error s) in
      let m := with_heap (alter (set_status set) a (um_heap m)) m in
      let m := set_task t (λ tk, mkTask (tk_kind tk) (tk_id tk) (Some a) (first_call (tk_kind tk))) m in
      let m := notify_status_change (tk_id tk)
                 (from_option ps_status initial_status (um_heap m !! a)) m in
      record_event (match tk_kind tk with
                    | RunExecute => ExecuteBegin (tk_id tk)
                    | RunPrepare | RunAutomated => PrepareBegin (tk_id tk)
                    end) m
  end.

(** The backend's answer, or the exception it throws. *)
Definition task_return (t : nat) (tk : Task) (result : option UpdateBackendErrorInfo) (m : UpdateManager)
    : UpdateManager :=
  match tk_pc tk with
  | TPreparing =>
      record_event (PrepareEnd (tk_id tk) (match result with None => true | Some _ => false end))
        (set_task t (goto (TPrepareReturned result)) m)
  | TExecuting => record_event (ExecuteEnd (tk_id tk)) (set_task t (goto (TExecuteReturned result)) m)
  | _ => m
  end.

Definition unknown_exception (kind : task_kind) : string :=
  match kind with
  | RunPrepare => "Unknown exception during prepare"
  | RunExecute => "Unknown exception during execute"
  | RunAutomated => "Unknown exception during automated update"
  end.

Definition task_throw (t : nat) (tk : Task) (what : option string) (m : UpdateManager) : UpdateManager :=
  let message := match what with Some w => "Exception: " +:+ w | None => unknown_exception (tk_kind tk) end in
  match tk_pc tk with
  | TPreparing => record_event (PrepareEnd (tk_id tk) false) (set_task t (goto (TThrown message)) m)
  | TExecuting => record_event (ExecuteEnd (tk_id tk)) (set_task t (goto (TThrown message)) m)
  | _ => m
  end.

(** [set_progress] and [set_sub_progress] of the reporter, inside a call. *)
Definition report_progress (tk : Task) (f : UpdateStatusInfo → UpdateStatusInfo) (m : UpdateManager)
    : UpdateManager :=
  match tk_state tk with
  | Some a => with_heap (alter (set_status f) a (um_heap m)) m
  | None => m
  end.

Definition set_progress (percent : Z) (s : UpdateStatusInfo) : UpdateStatusInfo :=
  mkStatus (us_status s) (us_phase s) (Some percent) (us_sub_progress s) (us_error s).

Definition set_sub_progress (steps : list UpdateSubProgress) (s : UpdateStatusInfo) : UpdateStatusInfo :=
  mkStatus (us_status s) (us_phase s) (us_progress s) (Some steps) (us_error s).

(** Writes through the task's pointer and leaves the snapshot to notify. *)
Definition finish_task (t : nat) (tk : Task) (f : UpdateStatusInfo → UpdateStatusInfo) (m : UpdateManager)
    : UpdateManager :=
  match tk_state tk with
  | Some a =>
      let m := with_heap (alter (set_status f) a (um_heap m)) m in
      set_task t (goto (TNotify (from_option ps_status initial_status (um_heap m !! a)))) m
  | None => m
  end.

(** The section after a backend call, or the handler of an exception, which
    looks the package up again. *)
Definition task_section (t : nat) (tk : Task) (m : UpdateManager) : UpdateManager :=
  match tk_pc tk with
  | TPrepareReturned (Some e) => finish_task t tk (fail_status (be_message e)) m
  | TPrepareReturned None =>
      match tk_kind tk with
      | RunAutomated =>
          let set s := mkStatus (us_status s) PhExecuting None None (us_error s) in
          record_event (ExecuteBegin (tk_id tk))
            (set_task t (goto TExecuting)
               (match tk_state tk with
                | Some a => with_heap (alter (set_status set) a (um_heap m)) m
                | None => m
                end))
      | _ => finish_task t tk (complete_status PhPrepared) m
      end
  | TExecuteReturned (Some e) => finish_task t tk (fail_status (be_message e)) m
  | TExecuteReturned None => finish_task t tk (complete_status PhExecuted) m
  | TThrown message =>
      let m := set_package (tk_id tk) (set_status (fail_status message)) m in
      set_task t (goto (TNotify (from_option ps_status initial_status (package (tk_id tk) m)))) m
  | _ => m
  end.

Definition task_end (t : nat) (tk : Task) (m : UpdateManager) : UpdateManager :=
  match tk_pc tk with
  | TNotify s => notify_status_change (tk_id tk) s (set_task t (goto TDone) m)
  | _ => m
  end.

(** ** Interleavings *)

Definition in_call (pc : task_pc) : bool :=
  match pc with TPreparing | TExecuting => true | _ => false end.

Definition in_section (pc : task_pc) : bool :=
  match pc with TPrepareReturned _ | TExecuteReturned _ | TThrown _ => true | _ => false end.

(** A state of the whole system: the manager and the deletions between their two
    sections, with [had_state]. *)
Abbreviation update_system := (UpdateManager * list (string * bool))%type.

(** Sections under [mutex_] wait while it is held.  With [serial], a deletion of
    a package starts only when no other one is under way and the manager has not
    been shut down. *)
Inductive update_step (serial : bool) : update_system → update_system → Prop :=
  | step_register id r m ds :
      um_holder m = None →
      update_step serial (m, ds) ((register_update id r m).2, ds)
  | step_delete_begin id m ds :
      um_holder m = None → (serial = true → id ∉ ds.*1 ∧ um_stopped m = false) →
      update_step serial (m, ds)
        ((delete_begin id m).2, match (delete_begin id m).1 with inl b => (id, b) :: ds | inr _ => ds end)
  | step_delete_end id b r m ds1 ds2 :
      um_holder m = None →
      update_step serial (m, ds1 ++ (id, b) :: ds2) ((delete_end id b r m).2, ds1 ++ ds2)
  | step_delete_resume t m ds :
      um_holder m = Some t → task_ready t m = true →
      update_step serial (m, ds) (with_holder None m, ds)
  | step_start_prepare id pkg m ds :
      um_holder m = None →
      update_step serial (m, ds) ((start_prepare id pkg m).2, ds)
  | step_start_execute id pkg m ds :
      um_holder m = None →
      update_step serial (m, ds) ((start_execute id pkg m).2, ds)
  | step_start_automated id supported m ds :
      um_holder m = None →
      update_step serial (m, ds) ((start_automated id supported m).2, ds)
  | step_shutdown m ds :
      um_holder m = None →
      update_step serial (m, ds) ((shutdown_begin m).2, ds)
  | step_task_begin t tk m ds :
      um_tasks m !! t = Some tk → tk_pc tk = TStart → um_holder m = None →
      update_step serial (m, ds) (task_begin t tk m, ds)
  | step_task_return t tk r m ds :
      um_tasks m !! t = Some tk → in_call (tk_pc tk) = true →
      update_step serial (m, ds) (task_return t tk r m, ds)
  | step_task_throw t tk what m ds :
      um_tasks m !! t = Some tk → in_call (tk_pc tk) = true →
      update_step serial (m, ds) (task_throw t tk what m, ds)
  | step_progress t tk p m ds :
      um_tasks m !! t = Some tk → in_call (tk_pc tk) = true → um_holder m = None →
      update_step serial (m, ds) (report_progress tk (set_progress p) m, ds)
  | step_sub_progress t tk l m ds :
      um_tasks m !! t = Some tk → in_call (tk_pc tk) = true → um_holder m = None →
      update_step serial (m, ds) (report_progress tk (set_sub_progress l) m, ds)
  | step_task_section t tk m ds :
      um_tasks m !! t = Some tk → in_section (tk_pc tk) = true → um_holder m = None →
      update_step serial (m, ds) (task_section t tk m, ds)
  | step_task_end t tk s m ds :
      um_tasks m !! t = Some tk → tk_pc tk = TNotify s →
      update_step serial (m, ds) (task_end t tk m, ds).
