(* ===== verification/UpdateManagerSpec.v ===== *)
(** * The update life cycle

    Under every interleaving with serial deletions, the backend sees for each
    package one call at a time, in the order of the life cycle, and tasks only
    touch the live state of their package. *)

From stdpp Require Import relations.
From S2P Require Import Prelude Json UpdateManager.

(** ** The protocol the backend is promised *)

Inductive life := Quiet | LPreparing | Ready | LExecuting | LDeleting.

#[global] Instance life_eq_dec : EqDecision life.
Proof. solve_decision. Defined.

Definition event_id (ev : backend_event) : string :=
  match ev with
  | PrepareBegin id | PrepareEnd id _ | ExecuteBegin id | ExecuteEnd id | DeleteBegin id | DeleteEnd id => id
  end.

(** [None]: the protocol does not allow the event. *)
Definition life_step (l : life) (ev : backend_event) : option life :=
  match ev, l with
  | PrepareBegin _, (Quiet | Ready) => Some LPreparing
  | PrepareEnd _ ok, LPreparing => Some (if ok : bool then Ready else Quiet)
  | ExecuteBegin _, Ready => Some LExecuting
  | ExecuteEnd _, LExecuting => Some Quiet
  | DeleteBegin _, (Quiet | Ready) => Some LDeleting
  | DeleteEnd _, LDeleting => Some Quiet
  | _, _ => None
  end.

Definition life_next (id : string) (ol : option life) (ev : backend_event) : option life :=
  if event_id ev =?ₛ id then l ← ol; life_step l ev else ol.

(** Where the backend's calls for a package have got to. *)
Definition life_of (id : string) (evs : list backend_event) : option life :=
  foldl (life_next id) (Some Quiet) evs.

Arguments life_of : simpl never.

Lemma life_of_snoc id evs ev : life_of id (evs ++ [ev]) = life_next id (life_of id evs) ev.
Proof. unfold life_of. by rewrite foldl_app. Qed.

Lemma life_of_own id evs ev l :
  event_id ev = id → life_of id evs = Some l → life_of id (evs ++ [ev]) = life_step l ev.
Proof. intros <- H. rewrite life_of_snoc, H. unfold life_next. by rewrite str_eqb_refl. Qed.

Lemma life_of_other id evs ev : event_id ev ≠ id → life_of id (evs ++ [ev]) = life_of id evs.
Proof. intros H. rewrite life_of_snoc. unfold life_next. by rewrite (proj2 (str_eqb_neq _ _)). Qed.

(** ** Invariant *)

Definition phase_of (ps : PackageState) : UpdatePhase := us_phase (ps_status ps).

(** A package without a running task. *)
Definition idle_fits (p : UpdatePhase) (l : life) (deleting : Prop) : Prop :=
  (deleting ∧ p = PhDeleting ∧ l = LDeleting) ∨
  (¬ deleting ∧ p = PhPrepared ∧ l = Ready) ∨
  (¬ deleting ∧ (p = PhNone ∨ p = PhFailed ∨ p = PhExecuted) ∧ l = Quiet).

#[global] Instance idle_fits_proper p l : Proper (iff ==> iff) (idle_fits p l).
Proof. intros P Q HPQ. unfold idle_fits. by rewrite HPQ. Qed.

(** A package with a running task of the given kind at the given point. *)
Definition task_fits (kind : task_kind) (pc : task_pc) (p : UpdatePhase) (l : life) : Prop :=
  match pc with
  | TStart =>
      match kind with
      | RunExecute => p = PhExecuting ∧ l = Ready
      | _ => p = PhPreparing ∧ (l = Quiet ∨ l = Ready)
      end
  | TPreparing => kind ≠ RunExecute ∧ p = PhPreparing ∧ l = LPreparing
  | TPrepareReturned r => kind ≠ RunExecute ∧ l = match r with None => Ready | Some _ => Quiet end
  | TExecuting => kind ≠ RunPrepare ∧ p = PhExecuting ∧ l = LExecuting
  | TExecuteReturned _ => kind ≠ RunPrepare ∧ l = Quiet
  | TThrown _ => l = Quiet
  | TNotify _ => idle_fits p l False
  | TDone => False
  end.

Record heap_ok (m : UpdateManager) : Prop := {
  ho_live : ∀ id a, um_states m !! id = Some a → is_Some (um_heap m !! a);
  ho_inj : ∀ id id' a, um_states m !! id = Some a → um_states m !! id' = Some a → id = id';
  ho_next : ∀ a, is_Some (um_heap m !! a) → a < um_next m;
  ho_future : ∀ id a ps t, um_states m !! id = Some a → um_heap m !! a = Some ps → ps_task ps = Some t →
    ∃ tk, um_tasks m !! t = Some tk ∧ tk_id tk = id;
}.

(** Task [t] runs for package [id], whose state is at [a]. *)
Record run_ok (m : UpdateManager) (ds : list (string * bool)) (id : string) (t : nat) (tk : Task) (a : nat)
    (ps : PackageState) (l : life) : Prop := {
  run_task : um_tasks m !! t = Some tk;
  run_id : tk_id tk = id;
  run_unique : ∀ t' tk', um_tasks m !! t' = Some tk' → tk_id tk' = id → t' ≠ t → tk_pc tk' = TDone;
  run_state : um_states m !! id = Some a;
  run_live : um_heap m !! a = Some ps;
  run_pointer : tk_pc tk ≠ TStart → tk_state tk = Some a;
  run_future : um_stopped m = false → ps_task ps = Some t;
  run_deletes : id ∉ ds.*1;
  run_life : life_of id (um_events m) = Some l;
  run_fits : task_fits (tk_kind tk) (tk_pc tk) (phase_of ps) l;
}.

Record idle_ok (m : UpdateManager) (ds : list (string * bool)) (id : string) : Prop := {
  idle_tasks : ∀ t tk, um_tasks m !! t = Some tk → tk_id tk = id → tk_pc tk = TDone;
  idle_state : match package id m with
    | Some ps => ∃ l, life_of id (um_events m) = Some l ∧ idle_fits (phase_of ps) l (id ∈ ds.*1)
    | None => um_states m !! id = None ∧ life_of id (um_events m) = Some Quiet ∧ id ∉ ds.*1
    end;
}.

Definition package_ok (m : UpdateManager) (ds : list (string * bool)) (id : string) : Prop :=
  (∃ t tk a ps l, run_ok m ds id t tk a ps l) ∨ idle_ok m ds id.

Record update_ok (s : update_system) : Prop := {
  uo_holder : um_holder s.1 = None;
  uo_heap : heap_ok s.1;
  uo_deletes : NoDup s.2.*1;
  uo_packages : ∀ id, package_ok s.1 s.2 id;
}.

(** ** Framing: what a step leaves alone *)

(** [m'] differs from [m] for package [id] only. *)
Record only (id : string) (m m' : UpdateManager) : Prop := {
  only_tasks : ∀ t tk, tk_id tk ≠ id → um_tasks m' !! t = Some tk ↔ um_tasks m !! t = Some tk;
  only_states : ∀ id', id' ≠ id → um_states m' !! id' = um_states m !! id';
  only_heap : ∀ id' a, id' ≠ id → um_states m !! id' = Some a → um_heap m' !! a = um_heap m !! a;
  only_events : ∀ id', id' ≠ id → life_of id' (um_events m') = life_of id' (um_events m);
  only_stopped : um_stopped m' = um_stopped m;
}.

Lemma only_refl id m : only id m m.
Proof. by split. Qed.

Lemma only_trans id m1 m2 m3 : only id m1 m2 → only id m2 m3 → only id m1 m3.
Proof.
  intros H1 H2. split.
  - intros t tk Hne. by rewrite (only_tasks _ _ _ H2), (only_tasks _ _ _ H1).
  - intros id' Hne. by rewrite (only_states _ _ _ H2), (only_states _ _ _ H1).
  - intros id' a Hne Ha. rewrite (only_heap _ _ _ H2 id'), (only_heap _ _ _ H1 id'); try done.
    by rewrite (only_states _ _ _ H1).
  - intros id' Hne. by rewrite (only_events _ _ _ H2), (only_events _ _ _ H1).
  - by rewrite (only_stopped _ _ _ H2), (only_stopped _ _ _ H1).
Qed.

Lemma package_ok_frame id0 m ds m' ds' id :
  only id0 m m' → id ≠ id0 → (id ∈ ds'.*1 ↔ id ∈ ds.*1) → package_ok m ds id → package_ok m' ds' id.
Proof.
  intros Ho Hne Hds [(t & tk & a & ps & l & [])|[Ht Hs]].
  - left. exists t, tk, a, ps, l. split; try done.
    + by rewrite (only_tasks _ _ _ Ho) by congruence.
    + intros t' tk'. intros Ht' Hid'. rewrite (only_tasks _ _ _ Ho) in Ht' by congruence. eauto.
    + by rewrite (only_states _ _ _ Ho).
    + by rewrite (only_heap _ _ _ Ho id).
    + by rewrite (only_stopped _ _ _ Ho).
    + by rewrite Hds.
    + by rewrite (only_events _ _ _ Ho).
  - right. split.
    + intros t tk Htk Hid. rewrite (only_tasks _ _ _ Ho) in Htk by congruence. eauto.
    + revert Hs. unfold package. rewrite (only_states _ _ _ Ho), (only_events _ _ _ Ho) by done.
      destruct (um_states m !! id) as [a|] eqn:Ha; cbn; [rewrite (only_heap _ _ _ Ho id) by done|].
      * destruct (um_heap m !! a); [|by rewrite Hds]. intros (l & Hl & Hf). exists l.
        split; [done|]. by rewrite Hds.
      * by rewrite Hds.
Qed.

(** A step that touches one package. *)
Lemma update_ok_one id m ds m' ds' :
  update_ok (m, ds) → only id m m' → um_holder m' = None → heap_ok m' → NoDup ds'.*1 →
  (∀ id', id' ≠ id → id' ∈ ds'.*1 ↔ id' ∈ ds.*1) → package_ok m' ds' id → update_ok (m', ds').
Proof.
  intros Hok Ho Hh Hheap Hnd Hds Hid. split; try done. intros id'. cbn [fst snd].
  destruct (decide (id' = id)) as [->|Hne]; [done|].
  eapply package_ok_frame; [done..|by apply Hds|]. apply (uo_packages _ Hok).
Qed.

Lemma running_package m ds id t tk :
  package_ok m ds id → um_tasks m !! t = Some tk → tk_id tk = id → tk_pc tk ≠ TDone →
  ∃ a ps l, run_ok m ds id t tk a ps l.
Proof.
  intros [(t' & tk' & a & ps & l & Hr)|Hi] Ht Hid Hpc; [|by destruct Hpc; eapply (idle_tasks _ _ _ Hi)].
  destruct (decide (t = t')) as [->|Hne].
  - exists a, ps, l. assert (tk' = tk) as <-; [|done].
    pose proof (run_task _ _ _ _ _ _ _ _ Hr). congruence.
  - destruct Hpc. by eapply (run_unique _ _ _ _ _ _ _ _ Hr).
Qed.

(** A package whose future shows no running task has none, until shutdown. *)
Lemma inactive_package m ds id :
  package_ok m ds id → um_stopped m = false → is_task_active id m = false → idle_ok m ds id.
Proof.
  intros [(t & tk & a & ps & l & [])|Hi] Hstop; [|done]. unfold is_task_active, package, task_ready.
  rewrite run_state0. cbn. rewrite run_live0, run_future0 by done. rewrite run_task0.
  by destruct (tk_pc tk).
Qed.

(** *** Primitives *)

Lemma only_emplace id ps m : heap_ok m → only id m (emplace id ps m).
Proof.
  intros Hh. split; try done; cbn.
  - intros id' Hne. by rewrite lookup_insert_ne.
  - intros id' a Hne Ha. rewrite lookup_insert_ne; [done|]. intros <-.
    pose proof (ho_next _ Hh _ (ho_live _ Hh _ _ Ha)). lia.
Qed.

Lemma heap_ok_emplace id st m : heap_ok m → heap_ok (emplace id (mkPackage st None) m).
Proof.
  intros Hh. assert (∀ i, um_states m !! i ≠ Some (um_next m)) as Hfresh.
  { intros i Hi. pose proof (ho_next _ Hh _ (ho_live _ Hh _ _ Hi)). lia. }
  split; cbn.
  - intros i a Hi. destruct (decide (a = um_next m)) as [->|Hne]; [by rewrite lookup_insert_eq|].
    rewrite lookup_insert_ne by done. apply lookup_insert_Some in Hi as [[_ ?]|[_ Hi]]; [done|].
    by eapply (ho_live _ Hh).
  - intros i j a [[<- <-]|[Hi Hia]]%lookup_insert_Some [[<- Hj]|[Hj Hja]]%lookup_insert_Some; try done.
    + by destruct (Hfresh j).
    + subst. by destruct (Hfresh i).
    + by eapply (ho_inj _ Hh).
  - intros a [ps [[<- _]|[_ Ha]]%lookup_insert_Some]; [lia|].
    pose proof (ho_next _ Hh a (mk_is_Some _ _ Ha)). lia.
  - intros i a ps t Hi Ha. destruct (decide (a = um_next m)) as [->|Hne].
    + rewrite lookup_insert_eq in Ha. by injection Ha as <-.
    + rewrite lookup_insert_ne in Ha by done. apply lookup_insert_Some in Hi as [[_ ?]|[_ Hi]]; [done|].
      by eapply (ho_future _ Hh).
Qed.

(** Writing the state at an address that belongs to [id]. *)
Lemma only_alter id a f m :
  heap_ok m → um_states m !! id = Some a → only id m (with_heap (alter f a (um_heap m)) m).
Proof.
  intros Hh Ha. split; try done; cbn. intros id' a' Hne Ha'. apply lookup_alter_ne.
  intros <-. destruct Hne. by eapply (ho_inj _ Hh).
Qed.

Lemma heap_ok_alter a f m :
  heap_ok m →
  (∀ id ps t, um_states m !! id = Some a → um_heap m !! a = Some ps → ps_task (f ps) = Some t →
     ps_task ps = Some t ∨ ∃ tk, um_tasks m !! t = Some tk ∧ tk_id tk = id) →
  heap_ok (with_heap (alter f a (um_heap m)) m).
Proof.
  intros Hh Hf. split; cbn.
  - intros id a' Ha'. rewrite lookup_alter_is_Some. by eapply (ho_live _ Hh).
  - apply Hh.
  - intros a'. rewrite lookup_alter_is_Some. apply Hh.
  - intros id a' ps t Ha'. destruct (decide (a' = a)) as [->|Hne].
    + rewrite lookup_alter_eq. intros (ps0 & Hps & ->)%fmap_Some Ht.
      destruct (Hf _ _ _ Ha' Hps Ht); [|done]. by eapply (ho_future _ Hh).
    + rewrite lookup_alter_ne by done. by apply (ho_future _ Hh).
Qed.

Lemma heap_ok_status a f m : heap_ok m → heap_ok (with_heap (alter (set_status f) a (um_heap m)) m).
Proof. intros Hh. apply heap_ok_alter; [done|]. by left. Qed.

Lemma only_set_package id f m : heap_ok m → only id m (set_package id f m).
Proof.
  intros Hh. unfold set_package. destruct (um_states m !! id) eqn:Ha; [|apply only_refl].
  by apply only_alter.
Qed.

Lemma only_erase id m : heap_ok m → only id m (erase_state id m).
Proof.
  intros Hh. unfold erase_state. destruct (um_states m !! id) as [a|] eqn:Ha; [|apply only_refl].
  split; try done; cbn.
  - intros id' Hne. by rewrite lookup_delete_ne.
  - intros id' a' Hne Ha'. rewrite lookup_delete_ne; [done|]. intros <-. destruct Hne.
    by eapply (ho_inj _ Hh).
Qed.

Lemma heap_ok_erase id m : heap_ok m → heap_ok (erase_state id m).
Proof.
  intros Hh. unfold erase_state. destruct (um_states m !! id) as [a|] eqn:Ha; [|done].
  assert (∀ i b, delete id (um_states m) !! i = Some b → um_states m !! i = Some b ∧ b ≠ a) as Hother.
  { intros i b [Hne Hi]%lookup_delete_Some. split; [done|]. intros ->. destruct Hne.
    by eapply (ho_inj _ Hh). }
  split; cbn.
  - intros i b [Hi Hne]%Hother. rewrite lookup_delete_ne by done. by eapply (ho_live _ Hh).
  - intros i j b [Hi _]%Hother [Hj _]%Hother. by eapply (ho_inj _ Hh).
  - intros b. rewrite lookup_delete_is_Some. intros [_ Hb]. by apply (ho_next _ Hh).
  - intros i b ps t [Hi Hne]%Hother. rewrite lookup_delete_ne by done. by apply (ho_future _ Hh).
Qed.

Lemma only_record id ev m : event_id ev = id → only id m (record_event ev m).
Proof. intros <-. split; try done. intros id' Hne. by apply life_of_other. Qed.

Lemma only_notify id id' s m : only id m (notify_status_change id' s m).
Proof. by split. Qed.

Lemma only_set_task t tk f m :
  um_tasks m !! t = Some tk → tk_id (f tk) = tk_id tk → only (tk_id tk) m (set_task t f m).
Proof.
  intros Ht Hf. split; try done. intros t' tk' Hne. unfold set_task. cbn.
  destruct (decide (t = t')) as [<-|Hn]; [|by rewrite list_lookup_alter_ne].
  rewrite list_lookup_alter_eq, Ht. cbn. split; intros [= <-]; [|done]. by rewrite Hf in Hne.
Qed.

Lemma heap_ok_set_task t tk f m :
  um_tasks m !! t = Some tk → tk_id (f tk) = tk_id tk → heap_ok m → heap_ok (set_task t f m).
Proof.
  intros Ht Hf Hh. split; try apply Hh. cbn. intros id a ps t' Ha Hps Hps'.
  destruct (ho_future _ Hh id a ps t' Ha Hps Hps') as (tk' & Ht' & Hid).
  destruct (decide (t = t')) as [<-|Hn].
  - rewrite list_lookup_alter_eq, Ht. exists (f tk). split; [done|]. congruence.
  - rewrite list_lookup_alter_ne by done. by exists tk'.
Qed.

(** Fields no primitive but [launch] and [set_task] changes. *)
Lemma heap_ok_ext m m' :
  um_states m' = um_states m → um_heap m' = um_heap m → um_next m' = um_next m → um_tasks m' = um_tasks m →
  heap_ok m → heap_ok m'.
Proof. intros H1 H2 H3 H4 []. split; rewrite ?H1, ?H2, ?H3, ?H4; done. Qed.

(** ** Requests *)

Lemma package_emplace id ps m : package id (emplace id ps m) = Some ps.
Proof. unfold package. cbn. rewrite lookup_insert_eq. cbn. by rewrite lookup_insert_eq. Qed.

Lemma no_state_idle m ds id :
  um_states m !! id = None → package_ok m ds id →
  idle_ok m ds id ∧ life_of id (um_events m) = Some Quiet ∧ id ∉ ds.*1.
Proof.
  intros Hn [(t & tk & a & ps & l & [])|Hi]; [congruence|]. split; [done|].
  pose proof (idle_state _ _ _ Hi) as Hs. unfold package in Hs. rewrite Hn in Hs. cbn in Hs. naive_solver.
Qed.

Lemma emplace_update_ok id m ds :
  update_ok (m, ds) → um_states m !! id = None →
  update_ok (emplace id (mkPackage initial_status None) m, ds).
Proof.
  intros Hok Hn. destruct (no_state_idle m ds id Hn (uo_packages _ Hok id)) as (Hi & Hl & Hd).
  eapply update_ok_one; [done|by apply only_emplace, Hok|apply Hok|by apply heap_ok_emplace, Hok|apply Hok|done|].
  right. split; [apply Hi|]. rewrite package_emplace. exists Quiet. split; [done|].
  right. right. cbn. tauto.
Qed.

Lemma register_ok id r m ds : update_ok (m, ds) → update_ok ((register_update id r m).2, ds).
Proof.
  intros Hok. unfold register_update. destruct (um_backend m); [|done]. cbn [negb].
  destruct r; [done|]. cbn [snd]. destruct (um_states m !! id) eqn:Hs; [done|]. by apply emplace_update_ok.
Qed.

Lemma idle_package m ds id ps :
  idle_ok m ds id → package id m = Some ps →
  ∃ l, life_of id (um_events m) = Some l ∧ idle_fits (phase_of ps) l (id ∈ ds.*1).
Proof. intros Hi Hp. pose proof (idle_state _ _ _ Hi) as Hs. by rewrite Hp in Hs. Qed.

Lemma package_set_package id f m ps :
  package id m = Some ps → package id (set_package id f m) = Some (f ps).
Proof.
  unfold package, set_package. destruct (um_states m !! id) as [a|] eqn:Ha; [|done]. cbn. intros Hps.
  by rewrite Ha; cbn; rewrite lookup_alter_eq, Hps.
Qed.

Lemma package_live m id a : heap_ok m → um_states m !! id = Some a → is_Some (package id m).
Proof. intros Hh Ha. unfold package. rewrite Ha. by apply (ho_live _ Hh id). Qed.

Lemma set_package_fields id f m :
  um_states (set_package id f m) = um_states m ∧ um_tasks (set_package id f m) = um_tasks m ∧
  um_events (set_package id f m) = um_events m ∧ um_holder (set_package id f m) = um_holder m ∧
  um_stopped (set_package id f m) = um_stopped m.
Proof. unfold set_package. by destruct (um_states m !! id). Qed.

Lemma heap_ok_set_status id f m : heap_ok m → heap_ok (set_package id (set_status f) m).
Proof. intros Hh. unfold set_package. destruct (um_states m !! id); [by apply heap_ok_status|done]. Qed.

Lemma delete_begin_ok id m ds :
  update_ok (m, ds) → id ∉ ds.*1 → um_stopped m = false →
  update_ok ((delete_begin id m).2, match (delete_begin id m).1 with inl b => (id, b) :: ds | inr _ => ds end).
Proof.
  intros Hok Hd Hstop. unfold delete_begin. destruct (um_backend m); [|done]. cbn [negb].
  assert (∀ b, NoDup ((id, b) :: ds).*1) as Hnd by (intros b; apply NoDup_cons; split; [done|apply Hok]).
  assert (∀ b id', id' ≠ id → id' ∈ ((id, b) :: ds).*1 ↔ id' ∈ ds.*1) as Hds.
  { intros b id' Hne. cbn. rewrite elem_of_cons. naive_solver. }
  destruct (um_states m !! id) as [a|] eqn:Ha.
  - destruct (is_task_active id m) eqn:Hact; [done|]. cbn [fst snd].
    pose proof (inactive_package m ds id (uo_packages _ Hok id) Hstop Hact) as Hi.
    destruct (package_live m id a (uo_heap _ Hok) Ha) as [ps Hps].
    destruct (idle_package m ds id ps Hi Hps) as (l & Hl & Hfit).
    destruct (set_package_fields id (set_status (set_phase PhDeleting)) m) as (Hst & Htk & Hev & Hho & _).
    eapply (update_ok_one id); [done| | | |by apply Hnd|by apply Hds|].
    + eapply only_trans; [by apply only_set_package, Hok|by apply only_record].
    + cbn. rewrite Hho. apply Hok.
    + eapply heap_ok_ext, heap_ok_set_status, Hok; done.
    + right. split; cbn; [rewrite Htk; apply Hi|].
      replace (package id (record_event _ _)) with (Some (set_status (set_phase PhDeleting) ps))
        by by rewrite <-(package_set_package id (set_status (set_phase PhDeleting)) m ps Hps).
      exists LDeleting. split; [|left; split; [left|done]].
      rewrite Hev. rewrite (life_of_own id _ _ l) by done.
      destruct Hfit as [[? _]|[(_ & _ & ->)|(_ & _ & ->)]]; done.
  - cbn [fst snd]. destruct (no_state_idle m ds id Ha (uo_packages _ Hok id)) as (Hi & Hl & _).
    eapply (update_ok_one id); [done| | | |by apply Hnd|by apply Hds|].
    + eapply only_trans; [by apply only_emplace, Hok|by apply only_record].
    + apply Hok.
    + eapply heap_ok_ext, heap_ok_emplace, Hok; done.
    + right. split; [apply Hi|].
      match goal with |- context [package id ?x] => assert (package id x = Some (mkPackage (set_phase PhDeleting initial_status) None)) as -> by apply package_emplace end.
      exists LDeleting. split; [|left; split; [left|done]].
      cbn. by rewrite (life_of_own id _ _ Quiet) by done.
Qed.

Lemma erase_holder m id :
  heap_ok m → (∀ t tk, um_tasks m !! t = Some tk → tk_id tk = id → tk_pc tk = TDone) → um_holder m = None → um_holder (erase_state id m) = None.
Proof.
  intros Hh Hi Hm. unfold erase_state. destruct (um_states m !! id) as [a|] eqn:Ha; [|done]. cbn.
  destruct (um_heap m !! a) as [ps|] eqn:Hps; [|done]. cbn. destruct (ps_task ps) as [t|] eqn:Ht; [|done].
  destruct (ho_future _ Hh id a ps t Ha Hps Ht) as (tk & Htk & Hid).
  unfold task_ready. by rewrite Htk, (Hi t tk).
Qed.

Lemma erase_state_fields id m :
  um_states (erase_state id m) !! id = None ∧ um_tasks (erase_state id m) = um_tasks m ∧
  um_events (erase_state id m) = um_events m.
Proof.
  unfold erase_state. destruct (um_states m !! id) as [a|] eqn:Ha; [|done]. cbn.
  by rewrite lookup_delete_eq.
Qed.

Lemma delete_end_ok id b r m ds1 ds2 :
  update_ok (m, ds1 ++ (id, b) :: ds2) → update_ok ((delete_end id b r m).2, ds1 ++ ds2).
Proof.
  intros Hok. pose proof (uo_deletes _ Hok) as Hnd0. cbn [snd] in Hnd0.
  rewrite fmap_app, fmap_cons in Hnd0. cbn [fst] in Hnd0.
  rewrite <-Permutation_middle in Hnd0. apply NoDup_cons in Hnd0 as [Hnot Hnd]. rewrite <-fmap_app in Hnot, Hnd.
  assert (id ∈ (ds1 ++ (id, b) :: ds2).*1) as Hin.
  { rewrite fmap_app, fmap_cons, elem_of_app, elem_of_cons. tauto. }
  assert (∀ id', id' ≠ id → id' ∈ (ds1 ++ ds2).*1 ↔ id' ∈ (ds1 ++ (id, b) :: ds2).*1) as Hds.
  { intros id' Hne. rewrite !fmap_app, fmap_cons, !elem_of_app, elem_of_cons. naive_solver. }
  destruct (uo_packages _ Hok id) as [(t & tk & a & ps & l & [])|Hi]; [done|]. cbn [fst snd] in Hi.
  pose proof (idle_state _ _ _ Hi) as Hs.
  destruct (package id m) as [ps|] eqn:Hps; [|by destruct Hs as (_ & _ & ?)].
  destruct Hs as (l & Hl & [(_ & Hph & ->)|[[? _]|[? _]]]); [|done..].
  set (m1 := record_event (DeleteEnd id) m).
  assert (life_of id (um_events m1) = Some Quiet) as Hl1.
  { cbn. by rewrite (life_of_own id _ _ LDeleting) by done. }
  assert (heap_ok m1) as Hh1 by by eapply heap_ok_ext, Hok.
  assert (∀ m2, only id m1 m2 → um_holder m2 = None → heap_ok m2 → um_tasks m2 = um_tasks m →
    um_events m2 = um_events m1 → match package id m2 with
      | Some ps => phase_of ps = PhFailed | None => um_states m2 !! id = None end →
    update_ok (m2, ds1 ++ ds2)) as Hgoal.
  { intros m2 Ho Hh Hheap Htasks Hev Hp.
    eapply (update_ok_one id); [done| |done|done|done|done|].
    - apply (only_trans _ _ m1); [by apply only_record|done].
    - right. split; [rewrite Htasks; apply Hi|]. rewrite Hev. destruct (package id m2) as [ps2|].
      + exists Quiet. split; [done|]. right. right. tauto.
      + done. }
  unfold delete_end. fold m1.
  assert (update_ok (erase_state id m1, ds1 ++ ds2)) as Herase.
  { destruct (erase_state_fields id m1) as (H1 & H2 & H3).
    apply Hgoal; [by apply only_erase| |by apply heap_ok_erase|done|done|by unfold package; rewrite H1].
    apply erase_holder; [done|apply Hi|apply Hok]. }
  destruct r as [e|]; cbn [snd]; [|done]. destruct b; [|done].
  destruct (set_package_fields id (set_status (fail_status (be_message e))) m1) as (H1 & H2 & H3 & H4 & _).
  apply Hgoal; [by apply only_set_package|by rewrite H4; apply Hok|by apply heap_ok_set_status|done|done|].
  by rewrite (package_set_package id _ m1 ps).
Qed.

Lemma launch_ok kind id p m ds ps l :
  update_ok (m, ds) → idle_ok m ds id → package id m = Some ps → um_stopped m = false → id ∉ ds.*1 →
  life_of id (um_events m) = Some l → task_fits kind TStart p l → update_ok (launch kind id p m, ds).
Proof.
  intros Hok Hi Hps Hstop Hd Hl Hfit. unfold package in Hps.
  destruct (um_states m !! id) as [a|] eqn:Ha; [|done]. cbn in Hps.
  unfold launch. set (m1 := with_tasks _ m).
  assert (only id m m1) as Ho1.
  { split; try done. intros t tk Hne. cbn. rewrite lookup_app. destruct (um_tasks m !! t); [done|].
    split; [|done]. intros [_ <-]%list_lookup_singleton_Some. done. }
  assert (heap_ok m1) as Hh1.
  { split; try apply Hok. cbn. intros i b ps' t Hib Hb Ht.
    destruct (ho_future _ (uo_heap _ Hok) i b ps' t Hib Hb Ht) as (tk & Htk & Hid). exists tk.
    split; [|done]. by apply lookup_app_l_Some. }
  unfold set_package. change (um_states m1 !! id) with (um_states m !! id). rewrite Ha.
  eapply (update_ok_one id); [done| |apply Hok| |apply Hok|done|].
  - eapply only_trans; [done|by apply only_alter].
  - apply heap_ok_alter; [done|]. intros id' ps' t Ha' _ [= <-]. right.
    exists (mkTask kind id None TStart). split; [by apply list_lookup_middle|].
    by eapply (ho_inj _ (uo_heap _ Hok)).
  - left. exists (length (um_tasks m)), (mkTask kind id None TStart), a,
      (mkPackage (mkStatus Pending p None None None) (Some (length (um_tasks m)))), l.
    split; try done; cbn.
    + by apply list_lookup_middle.
    + intros t' tk' Ht' Hid' Hne. apply lookup_app_Some in Ht' as [Ht'|[Hle [Hz _]%list_lookup_singleton_Some]].
      * by eapply (idle_tasks _ _ _ Hi).
      * destruct Hne. lia.
    + by rewrite lookup_alter_eq, Hps.
Qed.

Lemma start_task_ok kind id m ds :
  kind ≠ RunExecute → update_ok (m, ds) → um_stopped m = false → update_ok ((start_task kind id m).2, ds).
Proof.
  intros Hk Hok Hstop. unfold start_task. destruct (is_task_active id m) eqn:Hact; [done|].
  set (m1 := match um_states m !! id with Some _ => m | None => _ end).
  assert (update_ok (m1, ds) ∧ um_stopped m1 = false ∧ is_task_active id m1 = false ∧ is_Some (um_states m1 !! id))
    as (Hok1 & Hstop1 & Hact1 & [a Ha]).
  { unfold m1. destruct (um_states m !! id) eqn:Hs; [by rewrite Hs|].
    split_and!; [by apply emplace_update_ok|done| |by cbn; rewrite lookup_insert_eq].
    unfold is_task_active. by rewrite package_emplace. }
  pose proof (inactive_package m1 ds id (uo_packages _ Hok1 id) Hstop1 Hact1) as Hi.
  destruct (package_live m1 id a (uo_heap _ Hok1) Ha) as [ps Hps]. rewrite Hps.
  destruct (idle_package m1 ds id ps Hi Hps) as (l & Hl & Hfit).
  case_bool_decide as Hdel; [done|]. cbn [snd].
  destruct Hfit as [(_ & Hp & _)|Hfit]; [by destruct Hdel; cbn; rewrite <-Hp|].
  eapply launch_ok; [done..| | |]; [naive_solver|exact Hl|].
  destruct kind; [|done|]; cbn; naive_solver.
Qed.

Lemma start_execute_ok id pkg m ds : update_ok (m, ds) → update_ok ((start_execute id pkg m).2, ds).
Proof.
  intros Hok. unfold start_execute. destruct (um_backend m); [|done]. cbn [negb].
  destruct (um_stopped m) eqn:Hstop; [done|]. destruct pkg; [done|].
  case_bool_decide as Hp; cbn [negb]; [|done]. destruct (is_task_active id m) eqn:Hact; [done|]. cbn [snd].
  pose proof (inactive_package m ds id (uo_packages _ Hok id) Hstop Hact) as Hi.
  apply fmap_Some in Hp as (ps & Hps & Hp). destruct (idle_package m ds id ps Hi Hps) as (l & Hl & Hfit).
  change (PhPrepared = phase_of ps) in Hp. rewrite <-Hp in Hfit.
  destruct Hfit as [(_ & ? & _)|[(Hd & _ & ->)|(_ & ? & _)]]; [done| |naive_solver].
  by eapply launch_ok.
Qed.

Lemma start_prepare_ok id pkg m ds : update_ok (m, ds) → update_ok ((start_prepare id pkg m).2, ds).
Proof.
  intros Hok. unfold start_prepare. destruct (um_backend m); [|done]. cbn [negb].
  destruct (um_stopped m) eqn:Hstop; [done|]. destruct pkg; [done|]. by apply start_task_ok.
Qed.

Lemma start_automated_ok id supported m ds : update_ok (m, ds) → update_ok ((start_automated id supported m).2, ds).
Proof.
  intros Hok. unfold start_automated. destruct (um_backend m); [|done]. cbn [negb].
  destruct (um_stopped m) eqn:Hstop; [done|]. destruct supported as [[]|]; [|done..]. by apply start_task_ok.
Qed.

Lemma shutdown_ok m ds : update_ok (m, ds) → update_ok ((shutdown_begin m).2, ds).
Proof.
  intros Hok. cbn [shutdown_begin snd]. split; cbn [fst snd]; [apply Hok| |apply Hok|].
  - pose proof (uo_heap _ Hok) as Hh. split; cbn.
    + intros id a Ha. rewrite lookup_fmap, fmap_is_Some. by eapply (ho_live _ Hh).
    + apply Hh.
    + intros a. rewrite lookup_fmap, fmap_is_Some. apply Hh.
    + intros id a ps t _. rewrite lookup_fmap. by intros (ps0 & _ & ->)%fmap_Some.
  - intros id. destruct (uo_packages _ Hok id) as [(t & tk & a & ps & l & [])|[Ht Hs]]; cbn [fst snd] in *.
    + left. exists t, tk, a, (mkPackage (ps_status ps) None), l. split; try done.
      cbn. by rewrite lookup_fmap, run_live0.
    + right. split; [done|]. revert Hs. unfold package. cbn. destruct (um_states m !! id) as [a|]; [|done].
      cbn. rewrite lookup_fmap. by destruct (um_heap m !! a).
Qed.

(** ** Tasks *)

Definition after_fits (kind : task_kind) (pc : task_pc) (p : UpdatePhase) (l : life) : Prop :=
  match pc with TDone => idle_fits p l False | _ => task_fits kind pc p l end.

Lemma alter_heap_insert {A} (f : A → A) (a : nat) (h : gmap nat A) x :
  h !! a = Some x → alter f a h = <[a := f x]> h.
Proof.
  intros Hx. apply map_eq. intros b. destruct (decide (b = a)) as [->|Hne].
  - by rewrite lookup_alter_eq, lookup_insert_eq, Hx.
  - by rewrite lookup_alter_ne, lookup_insert_ne by done.
Qed.

Lemma life_of_others id id' evs evs' :
  Forall (λ ev, event_id ev = id) evs' → id' ≠ id → life_of id' (evs ++ evs') = life_of id' evs.
Proof.
  intros Hev Hne. revert evs. induction Hev as [|ev evs' Hev _ IH]; intros evs; [by rewrite app_nil_r|].
  rewrite cons_middle, app_assoc, IH. apply life_of_other. congruence.
Qed.

(** A step of a running task: it moves to [f tk], its package's state to [ps']
    and the backend's view to [l']. *)
Lemma run_update m ds id t tk a ps l m' f ps' l' evs :
  update_ok (m, ds) → run_ok m ds id t tk a ps l →
  um_tasks m' = alter f t (um_tasks m) → um_heap m' = <[a := ps']> (um_heap m) →
  um_states m' = um_states m → um_next m' = um_next m → um_holder m' = um_holder m →
  um_stopped m' = um_stopped m → um_events m' = um_events m ++ evs → Forall (λ ev, event_id ev = id) evs →
  ps_task ps' = ps_task ps → life_of id (um_events m') = Some l' →
  tk_id (f tk) = id → (tk_pc (f tk) ≠ TStart → tk_state (f tk) = Some a) →
  after_fits (tk_kind (f tk)) (tk_pc (f tk)) (phase_of ps') l' →
  update_ok (m', ds).
Proof.
  intros Hok Hr Htasks Hheap Hst Hnext Hho Hstop Hev Hevs Hps' Hl' Hid Hptr Hfit.
  pose proof (uo_heap _ Hok) as Hh. cbn [fst] in Hh. destruct Hr.
  assert (um_tasks m' !! t = Some (f tk)) as Ht by by rewrite Htasks, list_lookup_alter_eq, run_task0.
  assert (∀ t', t' ≠ t → um_tasks m' !! t' = um_tasks m !! t') as Hts.
  { intros t' Hne. by rewrite Htasks, list_lookup_alter_ne. }
  eapply (update_ok_one id); [done| |by rewrite Hho; apply Hok| |apply Hok|done|].
  - split; [|by rewrite Hst|..|done].
    + intros t' tk' Hne. destruct (decide (t' = t)) as [->|Hn]; [|by rewrite Hts].
      rewrite Ht, run_task0. split; intros [= <-]; congruence.
    + intros id' a' Hne Ha'. rewrite Hheap, lookup_insert_ne; [done|]. intros <-. destruct Hne.
      by eapply (ho_inj _ Hh).
    + intros id' Hne. rewrite Hev. by eapply life_of_others.
  - split; rewrite ?Hst, ?Hnext, ?Hheap.
    + intros i b Hi. destruct (decide (a = b)) as [->|Hne]; [by rewrite lookup_insert_eq|].
      rewrite lookup_insert_ne by done. by eapply (ho_live _ Hh).
    + apply Hh.
    + intros b [x [[<- _]|[_ Hb]]%lookup_insert_Some]; apply (ho_next _ Hh); by eexists.
    + intros i b x t' Hi Hb Hx.
      assert (∃ tk', um_tasks m !! t' = Some tk' ∧ tk_id tk' = i) as (tk' & Ht' & Hi').
      { apply lookup_insert_Some in Hb as [[<- <-]|[_ Hb]]; eapply (ho_future _ Hh); try done.
        by rewrite <-Hps'. }
      destruct (decide (t' = t)) as [->|Hn]; [|exists tk'; by rewrite Hts].
      exists (f tk). split; [done|]. congruence.
  - destruct (tk_pc (f tk)) eqn:Hpc.
    8:{ right. split.
        - intros t' tk' Ht' Hid'. destruct (decide (t' = t)) as [->|Hn]; [congruence|].
          rewrite Hts in Ht' by done. eauto.
        - unfold package. rewrite Hst, run_state0. cbn. rewrite Hheap, lookup_insert_eq. exists l'.
          split; [done|]. eapply idle_fits_proper; [|exact Hfit]. tauto. }
    all: left; exists t, (f tk), a, ps', l'; split; rewrite ?Hpc; try done.
    all: try by rewrite Hst.
    all: try by rewrite Hheap, lookup_insert_eq.
    all: try (rewrite Hstop, Hps'; done).
    all: intros t' tk' Ht' Hid' Hn; rewrite Hts in Ht' by done; eauto.
Qed.

Lemma task_begin_ok t tk m ds :
  update_ok (m, ds) → um_tasks m !! t = Some tk → tk_pc tk = TStart → update_ok (task_begin t tk m, ds).
Proof.
  intros Hok Ht Hpc.
  destruct (running_package m ds (tk_id tk) t tk (uo_packages _ Hok _) Ht eq_refl) as (a & ps & l & Hr);
    [by rewrite Hpc|]. pose proof Hr as []. unfold task_begin. rewrite run_state0.
  pose proof (alter_heap_insert (set_status (λ s, mkStatus InProgress (us_phase s) (us_progress s)
    (us_sub_progress s) (us_error s))) a (um_heap m) ps run_live0) as Halter.
  set (ev := match tk_kind tk with RunExecute => _ | _ => _ end).
  eapply (run_update m ds (tk_id tk) t tk a ps l _ _ _
    (match tk_kind tk with RunExecute => LExecuting | _ => LPreparing end) [ev]);
    [done|done|done|exact Halter|done|done|done|done|done| |done| |done|done|].
  - apply Forall_singleton. unfold ev. by destruct (tk_kind tk).
  - cbn. rewrite (life_of_own _ _ _ l); [|unfold ev; by destruct (tk_kind tk)|done].
    rewrite Hpc in run_fits0. unfold ev. destruct (tk_kind tk); cbn in *; naive_solver.
  - rewrite Hpc in run_fits0. cbn [tk_kind tk_pc]. destruct (tk_kind tk); cbn in *; naive_solver.
Qed.

(** The running task of a step, and the packages it belongs to. *)
Ltac running Hok Ht Hpc :=
  let a := fresh "a" in let ps := fresh "ps" in let l := fresh "l" in let Hr := fresh "Hr" in
  destruct (running_package _ _ _ _ _ (uo_packages _ Hok _) Ht eq_refl) as (a & ps & l & Hr);
  [intros Hdone; by rewrite Hdone in Hpc|]; cbn [fst snd] in *; pose proof Hr as [].

Lemma task_return_ok t tk r m ds :
  update_ok (m, ds) → um_tasks m !! t = Some tk → in_call (tk_pc tk) = true →
  update_ok (task_return t tk r m, ds).
Proof.
  intros Hok Ht Hpc. running Hok Ht Hpc. unfold task_return. destruct (tk_pc tk) eqn:Htpc; try done.
  - eapply (run_update m ds (tk_id tk) t tk a ps l _ _ _
      (match r with None => Ready | Some _ => Quiet end)
      [PrepareEnd (tk_id tk) (match r with None => true | Some _ => false end)]);
      [done|done|done|by symmetry; apply insert_id|done|done|done|done|done|by apply Forall_singleton|done| |done|by intros _; apply run_pointer0|].
    + cbn. rewrite (life_of_own _ _ _ l) by done. destruct run_fits0 as (_ & _ & ->). by destruct r.
    + destruct run_fits0 as (? & _ & _). done.
  - eapply (run_update m ds (tk_id tk) t tk a ps l _ _ _ Quiet [ExecuteEnd (tk_id tk)]);
      [done|done|done|by symmetry; apply insert_id|done|done|done|done|done|by apply Forall_singleton|done| |done|by intros _; apply run_pointer0|].
    + cbn. rewrite (life_of_own _ _ _ l) by done. by destruct run_fits0 as (_ & _ & ->).
    + destruct run_fits0 as (? & _ & _). done.
Qed.

Lemma task_throw_ok t tk what m ds :
  update_ok (m, ds) → um_tasks m !! t = Some tk → in_call (tk_pc tk) = true →
  update_ok (task_throw t tk what m, ds).
Proof.
  intros Hok Ht Hpc. running Hok Ht Hpc. unfold task_throw. destruct (tk_pc tk) eqn:Htpc; try done.
  - eapply (run_update m ds (tk_id tk) t tk a ps l _ _ _ Quiet [PrepareEnd (tk_id tk) false]);
      [done|done|done|by symmetry; apply insert_id|done|done|done|done|done|by apply Forall_singleton|done| |done|by intros _; apply run_pointer0|done].
    cbn. rewrite (life_of_own _ _ _ l) by done. by destruct run_fits0 as (_ & _ & ->).
  - eapply (run_update m ds (tk_id tk) t tk a ps l _ _ _ Quiet [ExecuteEnd (tk_id tk)]);
      [done|done|done|by symmetry; apply insert_id|done|done|done|done|done|by apply Forall_singleton|done| |done|by intros _; apply run_pointer0|done].
    cbn. rewrite (life_of_own _ _ _ l) by done. by destruct run_fits0 as (_ & _ & ->).
Qed.

Lemma report_progress_ok t tk f m ds :
  (∀ s, us_phase (f s) = us_phase s) → update_ok (m, ds) → um_tasks m !! t = Some tk →
  in_call (tk_pc tk) = true → update_ok (report_progress tk f m, ds).
Proof.
  intros Hf Hok Ht Hpc. running Hok Ht Hpc. unfold report_progress.
  rewrite run_pointer0 by (intros Heq; by rewrite Heq in Hpc).
  eapply (run_update m ds (tk_id tk) t tk a ps l _ id _ l []);
    [done|done| |by apply alter_heap_insert|done|done|done|done|by rewrite app_nil_r|done|done|done|done|done|].
  - cbn. by rewrite list_alter_id.
  - unfold phase_of. cbn. rewrite Hf. destruct (tk_pc tk); done.
Qed.

Lemma task_finish_ok t tk f m ds a ps l p l' :
  update_ok (m, ds) → run_ok m ds (tk_id tk) t tk a ps l → tk_pc tk ≠ TStart → l' = l →
  (∀ s, us_phase (f s) = p) → idle_fits p l' False → update_ok (finish_task t tk f m, ds).
Proof.
  intros Hok Hr Hpc -> Hf Hfit. pose proof Hr as []. unfold finish_task. rewrite run_pointer0 by done.
  eapply (run_update m ds (tk_id tk) t tk a ps l _ _ _ l []);
    [done|done|done|by apply alter_heap_insert|done|done|done|done|by cbn; rewrite app_nil_r|done|done|done|done|by intros _; apply run_pointer0|].
  cbn [goto tk_kind tk_pc after_fits task_fits]. unfold phase_of. cbn. by rewrite Hf.
Qed.

Lemma task_section_ok t tk m ds :
  update_ok (m, ds) → um_tasks m !! t = Some tk → in_section (tk_pc tk) = true →
  update_ok (task_section t tk m, ds).
Proof.
  intros Hok Ht Hpc. running Hok Ht Hpc. unfold task_section.
  assert (tk_pc tk ≠ TStart) as Hns by (intros Heq; by rewrite Heq in Hpc).
  destruct (tk_pc tk) as [| |[e|]| |[e|]|msg| |] eqn:Htpc; try done.
  - destruct run_fits0 as (_ & ->). eapply (task_finish_ok t tk _ m ds a ps _ PhFailed); [done|done|by rewrite Htpc|done|by intros|].
    right. right. tauto.
  - destruct run_fits0 as (Hk & ->). destruct (tk_kind tk) eqn:Hkind; [|done|].
    + eapply (task_finish_ok t tk _ m ds a ps _ PhPrepared); [done|done|by rewrite Htpc|done|by intros|]. right. left. tauto.
    + rewrite run_pointer0 by done.
      eapply (run_update m ds (tk_id tk) t tk a ps Ready _ _ _ LExecuting [ExecuteBegin (tk_id tk)]);
        [done|done|done|by apply alter_heap_insert|done|done|done|done|done|by apply Forall_singleton|done| |done|by intros _; apply run_pointer0|].
      * cbn. by rewrite (life_of_own _ _ _ Ready) by done.
      * cbn. by rewrite Hkind.
  - destruct run_fits0 as (_ & ->). eapply (task_finish_ok t tk _ m ds a ps _ PhFailed); [done|done|by rewrite Htpc|done|by intros|].
    right. right. tauto.
  - destruct run_fits0 as (_ & ->). eapply (task_finish_ok t tk _ m ds a ps _ PhExecuted); [done|done|by rewrite Htpc|done|by intros|].
    right. right. tauto.
  - unfold set_package. rewrite run_state0. cbn in run_fits0. subst l.
    eapply (run_update m ds (tk_id tk) t tk a ps Quiet _ _ _ Quiet []);
      [done|done|done|by apply alter_heap_insert|done|done|done|done|by cbn; rewrite app_nil_r|done|done|done|done|by intros _; apply run_pointer0|].
    right. right. cbn. tauto.
Qed.

Lemma task_end_ok t tk s m ds :
  update_ok (m, ds) → um_tasks m !! t = Some tk → tk_pc tk = TNotify s → update_ok (task_end t tk m, ds).
Proof.
  intros Hok Ht Hpc. running Hok Ht Hpc. unfold task_end. rewrite Hpc in *.
  eapply (run_update m ds (tk_id tk) t tk a ps l _ _ _ l []);
    [done|done|done|by symmetry; apply insert_id|done|done|done|done|by cbn; rewrite app_nil_r|done|done|done|done|by intros _; apply run_pointer0|done].
Qed.

Lemma update_step_ok s s' : update_step true s s' → update_ok s → update_ok s'.
Proof.
  destruct 1 as [|id m ds Hh Hser| | | | | | | | | | | | |]; intros Hok.
  - by apply register_ok.
  - destruct (Hser eq_refl). by apply delete_begin_ok.
  - by eapply delete_end_ok.
  - pose proof (uo_holder _ Hok). cbn in *. congruence.
  - by apply start_prepare_ok.
  - by apply start_execute_ok.
  - by apply start_automated_ok.
  - by apply shutdown_ok.
  - by apply task_begin_ok.
  - by apply task_return_ok.
  - by apply task_throw_ok.
  - by eapply report_progress_ok.
  - by eapply report_progress_ok.
  - by apply task_section_ok.
  - by eapply task_end_ok.
Qed.

Lemma new_update_manager_ok b : update_ok (new_update_manager b, []).
Proof.
  split; cbn; [done| |constructor|].
  - split; cbn; intros *; rewrite lookup_empty; (done || by intros []).
  - intros id. right. split; [done|]. unfold package. cbn. rewrite lookup_empty. cbn. set_solver.
Qed.

(** C25: As long as deletions of a package do not overlap each other and none begins
    after the shutdown, every interleaving of requests and background tasks keeps
    the backend's protocol: for each package its calls never overlap, execution
    follows a successful preparation directly, and nothing runs on a package being
    deleted.  A running task works on the live state of its package, at most one
    task runs per package, and [mutex_] is never left waiting for a task. *)
Theorem update_protocol b m ds :
  rtc (update_step true) (new_update_manager b, []) (m, ds) →
  (∀ id, is_Some (life_of id (um_events m))) ∧
  (∀ t tk, um_tasks m !! t = Some tk → tk_pc tk ≠ TDone →
     ∃ a ps, um_states m !! tk_id tk = Some a ∧ um_heap m !! a = Some ps ∧
       (tk_pc tk ≠ TStart → tk_state tk = Some a) ∧
       ∀ t' tk', um_tasks m !! t' = Some tk' → tk_id tk' = tk_id tk → t' ≠ t → tk_pc tk' = TDone) ∧
  um_holder m = None.
Proof.
  intros Hs. assert (update_ok (m, ds)) as Hok.
  { refine (rtc_ind_r update_ok _ _ _ _ Hs); [apply new_update_manager_ok|]. intros x y _ Hxy Hx.
    by eapply update_step_ok. }
  split_and!; [| |apply Hok].
  - intros id. destruct (uo_packages _ Hok id) as [(t & tk & a & ps & l & [])|[_ Hi]]; [by exists l|].
    cbn [fst] in Hi. destruct (package id m); [destruct Hi as (l & Hl & _)|destruct Hi as (_ & Hl & _)]; by eexists.
  - intros t tk Ht Hpc.
    destruct (running_package _ _ _ _ _ (uo_packages _ Hok _) Ht eq_refl Hpc) as (a & ps & l & []).
    exists a, ps. split_and!; done.
Qed.

(** ** Overlapping deletions *)

(** Task [t] still has a section under [mutex_] before it. *)
Definition needs_mutex (t : nat) (m : UpdateManager) : Prop :=
  ∃ tk, um_tasks m !! t = Some tk ∧
    match tk_pc tk with TNotify _ | TDone => False | _ => True end.

Lemma deadlock_step s s' t :
  update_step false s s' → um_holder s.1 = Some t → needs_mutex t s.1 →
  um_holder s'.1 = Some t ∧ needs_mutex t s'.1.
Proof.
  assert (∀ m t' tk' f, um_tasks m !! t' = Some tk' →
    (match tk_pc tk' with TNotify _ | TDone => False | _ => True end →
     match tk_pc (f tk') with TNotify _ | TDone => False | _ => True end) →
    needs_mutex t m → needs_mutex t (set_task t' f m)) as Hset.
  { intros m t' tk' f Ht' Hf (tk & Ht & Hpc). unfold needs_mutex. cbn. destruct (decide (t' = t)) as [->|Hne].
    - exists (f tk'). rewrite list_lookup_alter_eq, Ht'. split; [done|]. apply Hf. by assert (tk' = tk) as -> by congruence.
    - exists tk. by rewrite list_lookup_alter_ne. }
  destruct 1 as [| | |t0 m ds Hh Hrd| | | | | |t0 tk r m ds Ht Hc|t0 tk w m ds Ht Hc| | | |t0 tk s m ds Ht Hc];
    cbn [fst]; intros Hhold Hneed; try congruence.
  - destruct Hneed as (tk & Ht & Hpc). unfold task_ready in *. assert (t0 = t) as -> by congruence.
    rewrite Ht in *. by destruct (tk_pc tk).
  - unfold task_return. destruct (tk_pc tk); try done; (split; [done|]); by eapply (Hset m _ tk).
  - unfold task_throw. destruct (tk_pc tk); try done; (split; [done|]); by eapply (Hset m _ tk).
  - unfold task_end. rewrite Hc. split; [done|].
    apply (Hset m t0 tk (goto TDone)); [done|by rewrite Hc|done].
Qed.

(** Once [erase] holds [mutex_] for a task that needs it, no step ever releases
    it again. *)
Lemma deadlock_forever s s' t :
  um_holder s.1 = Some t → needs_mutex t s.1 → rtc (update_step false) s s' → um_holder s'.1 = Some t.
Proof.
  intros Hh Hn Hs.
  enough (um_holder s'.1 = Some t ∧ needs_mutex t s'.1) by tauto.
  refine (rtc_ind_r (λ s', um_holder s'.1 = Some t ∧ needs_mutex t s'.1) _ _ _ _ Hs); [done|].
  intros x y _ Hxy [??]. by eapply deadlock_step.
Qed.

(** Two overlapping deletions of a package can lock the manager up for good: the
    first fails and leaves the package usable, a preparation starts, and the
    second one succeeds, erases the state and waits, with [mutex_] held, for the
    task, which needs [mutex_]. *)
Theorem overlapping_deletions_deadlock :
  ∃ s t, rtc (update_step false) (new_update_manager true, []) s ∧
    ∀ s', rtc (update_step false) s s' → um_holder s'.1 = Some t.
Proof.
  eexists _, 0. split.
  - eapply rtc_l; [by apply (step_register _ "p" None)|].
    eapply rtc_l; [by apply (step_delete_begin _ "p")|].
    eapply rtc_l; [by apply (step_delete_begin _ "p")|].
    eapply rtc_l; [by apply (step_delete_end _ "p" true (Some (mkBackendError BInternal "busy")) _ [])|].
    eapply rtc_l; [by apply (step_start_prepare _ "p" None)|].
    eapply rtc_l; [by apply (step_delete_end _ "p" true None _ [])|].
    apply rtc_refl.
  - intros s' Hs'. apply (deadlock_forever _ s' 0) in Hs'; [done|by vm_compute|].
    eexists. split; [by vm_compute|done].
Qed.

(** A deletion that overlaps a shutdown frees the state a task still writes to:
    [shutdown] takes the future out of the state, so the task no longer counts
    as active. *)
Theorem deletion_after_shutdown_dangles :
  ∃ m ds t tk a, rtc (update_step false) (new_update_manager true, []) (m, ds) ∧
    um_tasks m !! t = Some tk ∧ in_call (tk_pc tk) = true ∧ tk_state tk = Some a ∧ um_heap m !! a = None.
Proof.
  eexists _, _, 0, _, _. split; [|split; [|split; [|split]]].
  - eapply rtc_l; [by apply (step_start_prepare _ "p" None)|].
    eapply rtc_l; [by eapply (step_task_begin _ 0)|].
    eapply rtc_l; [by apply step_shutdown|].
    eapply rtc_l; [by apply (step_delete_begin _ "p")|].
    eapply rtc_l; [by apply (step_delete_end _ "p" true None _ [])|].
    apply rtc_refl.
  - by vm_compute.
  - by vm_compute.
  - by vm_compute.
  - by vm_compute.
Qed.
