(* ===== verification/AssetIdentity.v ===== *)
(** * Asset identities

    The nameplate of a component (core/discovery/models/asset_identity.hpp), its
    JSON form, and the merge of nameplates from several sources by authority
    (core/discovery/identity_merge.hpp). *)

From S2P Require Import Prelude Json.

Record AssetIdentity := mkIdentity {
  manufacturer : string;
  model : string;
  order_code : string;
  serial_number : string;
  hardware_revision : string;
  firmware_version : string;
  software_version : string;
  network_endpoint : string;
  role : string;
  extra : gmap string string;
  provenance : gmap string string;
}.

Definition empty_identity : AssetIdentity := mkIdentity "" "" "" "" "" "" "" "" "" ∅ ∅.

(** ** Members

    [std::string AssetIdentity::*] as the source's table of fields uses it. *)

Inductive member :=
  | Manufacturer | Model | OrderCode | SerialNumber | HardwareRevision | FirmwareVersion | SoftwareVersion
  | NetworkEndpoint | Role.

#[global] Instance member_eq_dec : EqDecision member.
Proof. solve_decision. Defined.

Definition get_member (f : member) (i : AssetIdentity) : string :=
  match f with
  | Manufacturer => manufacturer i
  | Model => model i
  | OrderCode => order_code i
  | SerialNumber => serial_number i
  | HardwareRevision => hardware_revision i
  | FirmwareVersion => firmware_version i
  | SoftwareVersion => software_version i
  | NetworkEndpoint => network_endpoint i
  | Role => role i
  end.

Definition set_member (f : member) (v : string) (i : AssetIdentity) : AssetIdentity :=
  let get f' := if decide (f' = f) then v else get_member f' i in
  mkIdentity (get Manufacturer) (get Model) (get OrderCode) (get SerialNumber) (get HardwareRevision)
    (get FirmwareVersion) (get SoftwareVersion) (get NetworkEndpoint) (get Role) (extra i) (provenance i).

Definition identity_fields : list (string * member) :=
  [("manufacturer", Manufacturer); ("model", Model); ("order_code", OrderCode);
   ("serial_number", SerialNumber); ("hardware_revision", HardwareRevision);
   ("firmware_version", FirmwareVersion); ("software_version", SoftwareVersion);
   ("network_endpoint", NetworkEndpoint); ("role", Role)].

Definition with_extra (m : gmap string string) (i : AssetIdentity) : AssetIdentity :=
  mkIdentity (manufacturer i) (model i) (order_code i) (serial_number i) (hardware_revision i)
    (firmware_version i) (software_version i) (network_endpoint i) (role i) m (provenance i).

Definition with_provenance (m : gmap string string) (i : AssetIdentity) : AssetIdentity :=
  mkIdentity (manufacturer i) (model i) (order_code i) (serial_number i) (hardware_revision i)
    (firmware_version i) (software_version i) (network_endpoint i) (role i) (extra i) m.

(** ** JSON *)

Definition identity_empty (i : AssetIdentity) : bool :=
  forallb (λ kf, get_member kf.2 i =?ₛ "") identity_fields && bool_decide (extra i = ∅).

Definition string_map_json (m : gmap string string) : json :=
  JObj ((λ kv, (kv.1, JStr kv.2)) <$> map_entries m).

Definition emit_string (key v : string) : list (string * json) :=
  if v =?ₛ "" then [] else [(key, JStr v)].

Definition emit_map (key : string) (m : gmap string string) : list (string * json) :=
  if bool_decide (m = ∅) then [] else [(key, string_map_json m)].

(** The fields in the key order of the library's objects. *)
Definition to_json (i : AssetIdentity) : json :=
  if identity_empty i then JObj []
  else JObj (emit_map "_provenance" (provenance i) ++ emit_map "extra" (extra i) ++
    emit_string "firmwareVersion" (firmware_version i) ++
    emit_string "hardwareRevision" (hardware_revision i) ++ emit_string "manufacturer" (manufacturer i) ++
    emit_string "model" (model i) ++ emit_string "networkEndpoint" (network_endpoint i) ++
    emit_string "orderCode" (order_code i) ++ emit_string "role" (role i) ++
    emit_string "serialNumber" (serial_number i) ++ emit_string "softwareVersion" (software_version i)).

Definition get_str (key : string) (j : json) : string :=
  match field key j with Some (JStr s) => s | _ => "" end.

(** The string members of an object. *)
Definition get_map (key : string) (j : json) : gmap string string :=
  match field key j with
  | Some (JObj items) =>
      foldl (λ m kv, match kv.2 with JStr s => <[kv.1 := s]> m | _ => m end) ∅ items
  | _ => ∅
  end.

Definition from_json (j : json) : AssetIdentity :=
  if negb (is_object j) then empty_identity
  else mkIdentity (get_str "manufacturer" j) (get_str "model" j) (get_str "orderCode" j)
    (get_str "serialNumber" j) (get_str "hardwareRevision" j) (get_str "firmwareVersion" j)
    (get_str "softwareVersion" j) (get_str "networkEndpoint" j) (get_str "role" j)
    (get_map "extra" j) (get_map "_provenance" j).

(** ** Merging *)

Definition default_precedence : list string :=
  ["opcua"; "s7"; "ethernet_ip"; "modbus"; "ads"; "profinet"; "manifest"; "inventory"; "config"; "plugin";
   "runtime"; "node"; "topic"; "heuristic"].

(** The first position, or the length for a source that is not listed. *)
Fixpoint source_rank (source : string) (precedence : list string) : nat :=
  match precedence with
  | [] => 0
  | p :: precedence' => if p =?ₛ source then 0 else S (source_rank source precedence')
  end.

Definition incoming_wins (field_set : bool) (current_owner incoming_source : string) (precedence : list string)
    : bool :=
  if negb field_set then true
  else
    let current_rank :=
      if current_owner =?ₛ "" then length precedence else source_rank current_owner precedence in
    source_rank incoming_source precedence <? current_rank.

Definition stamp_one (source : string) (i : AssetIdentity) (key value : string) : AssetIdentity :=
  if negb (value =?ₛ "") && bool_decide (provenance i !! key = None)
  then with_provenance (<[key := source]> (provenance i)) i else i.

Definition stamp_identity_provenance (i : AssetIdentity) (source : string) : AssetIdentity :=
  if source =?ₛ "" then i
  else
    let i := foldl (λ i kf, stamp_one source i kf.1 (get_member kf.2 i)) i identity_fields in
    foldl (λ i kv, stamp_one source i ("extra." +:+ kv.1) kv.2) i (map_entries (extra i)).

Definition recorded_provenance (source : AssetIdentity) (source_name key : string) : string :=
  match provenance source !! key with
  | Some p => if p =?ₛ "" then source_name else p
  | None => source_name
  end.

Definition merge_member (source : AssetIdentity) (source_name : string) (precedence : list string)
    (target : AssetIdentity) (kf : string * member) : AssetIdentity :=
  let incoming := get_member kf.2 source in
  if incoming =?ₛ "" then target
  else
    let current_owner := default "" (provenance target !! kf.1) in
    let target_set := negb (get_member kf.2 target =?ₛ "") in
    if incoming_wins target_set current_owner source_name precedence
    then let target := set_member kf.2 incoming target in
         with_provenance (<[kf.1 := recorded_provenance source source_name kf.1]> (provenance target)) target
    else target.

Definition merge_extra (source : AssetIdentity) (source_name : string) (precedence : list string)
    (target : AssetIdentity) (kv : string * string) : AssetIdentity :=
  if kv.2 =?ₛ "" then target
  else
    let key := "extra." +:+ kv.1 in
    let current_owner := default "" (provenance target !! key) in
    let target_set := match extra target !! kv.1 with Some v => negb (v =?ₛ "") | None => false end in
    if incoming_wins target_set current_owner source_name precedence
    then let target := with_extra (<[kv.1 := kv.2]> (extra target)) target in
         with_provenance (<[key := recorded_provenance source source_name key]> (provenance target)) target
    else target.

Definition merge_identity (target source : AssetIdentity) (source_name : string) (precedence : list string)
    : AssetIdentity :=
  let target := foldl (merge_member source source_name precedence) target identity_fields in
  foldl (merge_extra source source_name precedence) target (map_entries (extra source)).

(** ** Round trip *)

Lemma find_emit_string key k v rest :
  find_field key (emit_string k v ++ rest) =
    if k =?ₛ key then (if v =?ₛ "" then find_field key rest else Some (JStr v)) else find_field key rest.
Proof. unfold emit_string. destruct (v =?ₛ ""); simpl; by destruct (k =?ₛ key). Qed.

Lemma find_emit_map key k m rest :
  find_field key (emit_map k m ++ rest) =
    if k =?ₛ key then (if bool_decide (m = ∅) then find_field key rest else Some (string_map_json m))
    else find_field key rest.
Proof. unfold emit_map. destruct (bool_decide (m = ∅)); simpl; by destruct (k =?ₛ key). Qed.

Lemma find_emit_last key k v :
  find_field key (emit_string k v) = if k =?ₛ key then (if v =?ₛ "" then None else Some (JStr v)) else None.
Proof. rewrite <-(app_nil_r (emit_string k v)). by rewrite find_emit_string. Qed.

Lemma lookup_foldl_insert (l : list (string * string)) (acc : gmap string string) k v :
  NoDup l.*1 →
  foldl (λ m kv, <[kv.1 := kv.2]> m) acc l !! k = Some v ↔
    (k, v) ∈ l ∨ k ∉ l.*1 ∧ acc !! k = Some v.
Proof.
  revert acc. induction l as [|[k' v'] l IH]; intros acc; cbn [foldl fmap list_fmap fst snd].
  { intros _. rewrite elem_of_nil. set_solver. }
  intros [Hk' Hnd]%NoDup_cons. rewrite IH by done. rewrite elem_of_cons, not_elem_of_cons.
  destruct (decide (k = k')) as [->|Hne].
  - rewrite lookup_insert_eq. split.
    + intros [Hin|[_ [= ->]]]; [by left; right|by left; left].
    + intros [[[= ->]|Hin]|[[? _] _]]; [by right| |done]. by eapply (list_elem_of_fmap_2 fst) in Hin.
  - rewrite lookup_insert_ne by done. naive_solver.
Qed.

Lemma read_string_map (m : gmap string string) :
  foldl (λ m kv, match kv.2 with JStr s => <[kv.1 := s]> m | _ => m end) ∅
    ((λ kv : string * string, (kv.1, JStr kv.2)) <$> map_entries m) = m.
Proof.
  rewrite foldl_fmap. cbn [fst snd]. apply map_eq. intros k. apply option_eq. intros v.
  rewrite lookup_foldl_insert by apply NoDup_map_entries_keys.
  rewrite elem_of_map_entries, lookup_empty. naive_solver.
Qed.

(** Reading an object that was emitted; the string literals are compared by
    computation. *)
Ltac read_emitted :=
  unfold get_str, get_map, field;
  repeat (first [rewrite find_emit_map|rewrite find_emit_string|rewrite find_emit_last];
          match goal with |- context [str_eqb ?a ?b] =>
            let r := eval vm_compute in (str_eqb a b) in
            match r with
            | true => change (str_eqb a b) with true
            | false => change (str_eqb a b) with false
            end
          end; cbn match);
  match goal with
  | |- context [if str_eqb ?v _ then _ else _] => by destruct (str_eqb_spec v "")
  | |- context [if bool_decide ?P then _ else _] => case_bool_decide; [done|apply read_string_map]
  end.

(** Parsing the JSON form of a nameplate gives the nameplate back; one without
    any content is written as the empty object and read as the empty nameplate. *)
Theorem identity_json_roundtrip i :
  from_json (to_json i) = if identity_empty i then empty_identity else i.
Proof.
  unfold to_json. destruct (identity_empty i); [done|].
  unfold from_json. cbn [is_object negb].
  destruct i as [mf md oc sn hr fv sv ne ro ex pr].
  cbn [manufacturer model order_code serial_number hardware_revision firmware_version software_version
       network_endpoint role extra provenance].
  f_equal; read_emitted.
Qed.

(** ** What merging computes *)

(** A value of a nameplate with a provenance entry of its own. *)
Inductive slot := Typed (f : member) | Extra (k : string).

#[global] Instance slot_eq_dec : EqDecision slot.
Proof. solve_decision. Defined.

Definition member_key (f : member) : string :=
  match f with
  | Manufacturer => "manufacturer" | Model => "model" | OrderCode => "order_code"
  | SerialNumber => "serial_number" | HardwareRevision => "hardware_revision"
  | FirmwareVersion => "firmware_version" | SoftwareVersion => "software_version"
  | NetworkEndpoint => "network_endpoint" | Role => "role"
  end.

Definition slot_key (s : slot) : string :=
  match s with Typed f => member_key f | Extra k => "extra." +:+ k end.

Definition slot_value (s : slot) (i : AssetIdentity) : string :=
  match s with Typed f => get_member f i | Extra k => default "" (extra i !! k) end.

Definition slot_owner (s : slot) (i : AssetIdentity) : string := default "" (provenance i !! slot_key s).

#[global] Instance slot_key_inj : Inj (=) (=) slot_key.
Proof.
  intros [f|k] [g|k']; simpl.
  - destruct f, g; done.
  - by destruct f.
  - by destruct g.
  - intros Heq%(inj (String.append "extra.")). by subst.
Qed.

Definition set_slot (s : slot) (v owner : string) (i : AssetIdentity) : AssetIdentity :=
  let i := match s with Typed f => set_member f v i | Extra k => with_extra (<[k := v]> (extra i)) i end in
  with_provenance (<[slot_key s := owner]> (provenance i)) i.

Lemma slot_value_set s s' v o i :
  slot_value s (set_slot s' v o i) = if decide (s = s') then v else slot_value s i.
Proof.
  destruct s as [f|k], s' as [g|k']; unfold set_slot; cbn [slot_value].
  - destruct (decide (f = g)) as [->|Hne]; [rewrite decide_True by done; by destruct g|].
    rewrite decide_False by congruence. destruct f; cbn; by rewrite decide_False.
  - rewrite decide_False by done. by destruct f.
  - by rewrite decide_False.
  - cbn. destruct (decide (k = k')) as [->|Hne].
    + by rewrite lookup_insert_eq, decide_True.
    + by rewrite lookup_insert_ne, decide_False by congruence.
Qed.

Lemma slot_owner_set s s' v o i :
  slot_owner s (set_slot s' v o i) = if decide (s = s') then o else slot_owner s i.
Proof.
  unfold slot_owner, set_slot. cbn [with_provenance provenance].
  assert (provenance match s' with Typed f => set_member f v i
    | Extra k => with_extra (<[k:=v]> (extra i)) i end = provenance i) as -> by by destruct s'.
  destruct (decide (s = s')) as [->|Hne]; [by rewrite lookup_insert_eq|].
  rewrite lookup_insert_ne; [done|]. intros Heq. destruct Hne. by apply (inj slot_key).
Qed.

Section Merge.
Context (precedence : list string).

(** One slot of [merge_identity]. *)
Definition merge_slot (source : AssetIdentity) (name : string) (target : AssetIdentity) (s : slot)
    : AssetIdentity :=
  if slot_value s source =?ₛ "" then target
  else if incoming_wins (negb (slot_value s target =?ₛ "")) (slot_owner s target) name precedence
  then set_slot s (slot_value s source) (recorded_provenance source name (slot_key s)) target
  else target.

Definition merge_slots (source : AssetIdentity) : list slot :=
  (Typed ∘ snd <$> identity_fields) ++ (Extra ∘ fst <$> map_entries (extra source)).

Lemma foldl_ext_in {A B} (f g : A → B → A) (l : list B) a :
  (∀ a b, b ∈ l → f a b = g a b) → foldl f a l = foldl g a l.
Proof.
  revert a. induction l as [|b l IH]; intros a Hfg; [done|]. cbn [foldl].
  rewrite Hfg by left. apply IH. intros a' b' Hb'. apply Hfg. by right.
Qed.

Lemma merge_member_slot source name t kf :
  kf ∈ identity_fields → merge_member source name precedence t kf = merge_slot source name t (Typed kf.2).
Proof.
  intros Hkf. assert (kf.1 = member_key kf.2) as Hkey.
  { revert kf Hkf. by apply Forall_forall; repeat constructor. }
  unfold merge_member, merge_slot, set_slot, slot_owner. cbn [slot_value slot_key]. by rewrite Hkey.
Qed.

Lemma merge_extra_slot source name t kv :
  extra source !! kv.1 = Some kv.2 →
  merge_extra source name precedence t kv = merge_slot source name t (Extra kv.1).
Proof.
  intros Hk. unfold merge_extra, merge_slot, set_slot, slot_owner. cbn [slot_value slot_key].
  rewrite Hk. cbn [default from_option id]. destruct (kv.2 =?ₛ ""); [done|].
  assert (match extra t !! kv.1 with Some v0 => negb (v0 =?ₛ "") | None => false end =
    negb (default "" (extra t !! kv.1) =?ₛ "")) as -> by by destruct (extra t !! kv.1).
  done.
Qed.

Lemma merge_identity_slots target source name :
  merge_identity target source name precedence =
    foldl (merge_slot source name) target (merge_slots source).
Proof.
  unfold merge_identity, merge_slots. rewrite foldl_app, !foldl_fmap.
  rewrite (foldl_ext_in (merge_member _ _ _) (λ t kf, merge_slot source name t ((Typed ∘ snd) kf)))
    by (intros; by apply merge_member_slot).
  apply foldl_ext_in. intros t [k v] Hkv. apply merge_extra_slot. by apply elem_of_map_entries.
Qed.

Lemma elem_of_merge_slots s source : slot_value s source ≠ "" → s ∈ merge_slots source.
Proof.
  intros Hs. unfold merge_slots. apply elem_of_app. destruct s as [f|k].
  - left. destruct f; cbn; set_solver.
  - right. cbn in Hs. destruct (extra source !! k) as [v|] eqn:Hk; [|done].
    apply list_elem_of_fmap. exists (k, v). split; [done|]. by apply elem_of_map_entries.
Qed.

Lemma NoDup_merge_slots source : NoDup (merge_slots source).
Proof.
  unfold merge_slots. apply NoDup_app. split_and!.
  - by apply (bool_decide_unpack _); vm_compute.
  - intros s (kf & -> & _)%list_elem_of_fmap (kv & ? & _)%list_elem_of_fmap. done.
  - rewrite list_fmap_compose. apply NoDup_fmap_2; [by intros ?? [= ->]|apply NoDup_map_entries_keys].
Qed.

Lemma merge_slot_other source name t s s' :
  s ≠ s' → slot_value s (merge_slot source name t s') = slot_value s t ∧
           slot_owner s (merge_slot source name t s') = slot_owner s t.
Proof.
  intros Hne. unfold merge_slot. destruct (_ =?ₛ ""); [done|]. destruct (incoming_wins _ _ _ _); [|done].
  by rewrite slot_value_set, slot_owner_set, !decide_False.
Qed.

Lemma merge_slots_other source name t s l :
  s ∉ l → slot_value s (foldl (merge_slot source name) t l) = slot_value s t ∧
          slot_owner s (foldl (merge_slot source name) t l) = slot_owner s t.
Proof.
  revert t. induction l as [|s' l IH]; intros t; [done|]. intros [Hne Hn]%not_elem_of_cons. cbn [foldl].
  destruct (IH (merge_slot source name t s') Hn) as [-> ->]. by apply merge_slot_other.
Qed.

Definition takes (source : AssetIdentity) (name : string) (t : AssetIdentity) (s : slot) : bool :=
  negb (slot_value s source =?ₛ "") &&
  incoming_wins (negb (slot_value s t =?ₛ "")) (slot_owner s t) name precedence.

Lemma merge_slot_view source name t s :
  slot_value s (merge_slot source name t s) =
    (if takes source name t s then slot_value s source else slot_value s t) ∧
  slot_owner s (merge_slot source name t s) =
    (if takes source name t s then recorded_provenance source name (slot_key s) else slot_owner s t).
Proof.
  unfold merge_slot, takes. destruct (slot_value s source =?ₛ ""); [done|]. cbn [negb andb].
  destruct (incoming_wins _ _ _ _); [|done]. by rewrite slot_value_set, slot_owner_set, !decide_True.
Qed.

(** Each slot is decided on its own. *)
Lemma merge_identity_slot target source name s :
  slot_value s (merge_identity target source name precedence) =
    (if takes source name target s then slot_value s source else slot_value s target) ∧
  slot_owner s (merge_identity target source name precedence) =
    (if takes source name target s then recorded_provenance source name (slot_key s) else slot_owner s target).
Proof.
  rewrite merge_identity_slots. destruct (decide (s ∈ merge_slots source)) as [Hin|Hn].
  - pose proof (NoDup_merge_slots source) as Hnd. apply list_elem_of_split in Hin as (l1 & l2 & Hl).
    rewrite Hl in *. apply NoDup_app in Hnd as (_ & Hdis & [Hn2 _]%NoDup_cons).
    rewrite foldl_app. cbn [foldl].
    destruct (merge_slots_other source name (merge_slot source name
      (foldl (merge_slot source name) target l1) s) s l2 Hn2) as [-> ->].
    assert (s ∉ l1) as Hn1 by (intros H1; eapply Hdis; [exact H1|left]).
    destruct (merge_slots_other source name target s l1 Hn1) as [Hv Ho].
    destruct (merge_slot_view source name (foldl (merge_slot source name) target l1) s) as [-> ->].
    unfold takes. by rewrite Hv, Ho.
  - destruct (merge_slots_other source name target s _ Hn) as [-> ->]. unfold takes.
    destruct (str_eqb_spec (slot_value s source) ""); [done|]. destruct Hn. by apply elem_of_merge_slots.
Qed.

Lemma source_rank_le source : source_rank source precedence ≤ length precedence.
Proof. induction precedence as [|p l IH]; [done|]. cbn. destruct (p =?ₛ source); lia. Qed.

(** A source that is not listed only fills gaps. *)
Lemma unlisted_fills_gaps target source name s :
  source_rank name precedence = length precedence → slot_value s target ≠ "" →
  slot_value s (merge_identity target source name precedence) = slot_value s target ∧
  slot_owner s (merge_identity target source name precedence) = slot_owner s target.
Proof.
  intros Hr Hs. destruct (merge_identity_slot target source name s) as [-> ->].
  assert (takes source name target s = false) as ->; [|done]. unfold takes, incoming_wins.
  rewrite (proj2 (str_eqb_neq _ "") Hs). cbn [negb]. apply andb_false_iff. right. apply Nat.ltb_ge. rewrite Hr.
  destruct (slot_owner s target =?ₛ ""); [done|apply source_rank_le].
Qed.

(** *** Several sources *)

Definition merge_all (t0 : AssetIdentity) (cs : list (string * AssetIdentity)) : AssetIdentity :=
  foldl (λ t c, merge_identity t c.2 c.1 precedence) t0 cs.

Lemma merge_all_snoc t0 cs name id :
  merge_all t0 (cs ++ [(name, id)]) = merge_identity (merge_all t0 cs) id name precedence.
Proof. unfold merge_all. by rewrite foldl_app. Qed.

(** The place of an owner in the order; unowned values come last. *)
Definition authority (owner : string) : nat :=
  if decide (owner = "") then length precedence else source_rank owner precedence.

(** Contribution [j] has a value for the slot. *)
Definition offers (cs : list (string * AssetIdentity)) (s : slot) (j : nat) (name : string) (id : AssetIdentity) : Prop :=
  cs !! j = Some (name, id) ∧ slot_value s id ≠ "".

(** Where the value of a contribution comes from: what the contribution says
    itself, or else the contributing source. *)
Definition origin (s : slot) (name : string) (id : AssetIdentity) : string :=
  match provenance id !! slot_key s with
  | Some carried => if decide (carried = "") then name else carried
  | None => name
  end.

(** No contribution passes on a value of lower authority than its own. *)
Definition no_demotion (cs : list (string * AssetIdentity)) (s : slot) : Prop :=
  ∀ j name id, offers cs s j name id → authority (origin s name id) ≤ authority name.

(** The slot still is the target's. *)
Record kept (t0 : AssetIdentity) (cs : list (string * AssetIdentity)) (s : slot) (t : AssetIdentity) : Prop := {
  ke_value : slot_value s t = slot_value s t0;
  ke_owner : slot_owner s t = slot_owner s t0;
  ke_unset : slot_value s t0 = "" → ∀ j name id, ¬ offers cs s j name id;
  ke_best j name id : offers cs s j name id → authority (slot_owner s t0) ≤ authority name;
}.

(** The slot is contribution [i]'s. *)
Record won (t0 : AssetIdentity) (cs : list (string * AssetIdentity)) (s : slot) (i : nat) (name : string)
    (id t : AssetIdentity) : Prop := {
  wo_offers : offers cs s i name id;
  wo_value : slot_value s t = slot_value s id;
  wo_owner : slot_owner s t = origin s name id;
  wo_later j name' id' : i < j → offers cs s j name' id' → authority (origin s name id) ≤ authority name';
  wo_best j name' id' : no_demotion cs s → offers cs s j name' id' →
    authority (origin s name id) ≤ authority name' ∧ (j < i → authority name < authority name');
  wo_target : no_demotion cs s → slot_value s t0 ≠ "" → authority name < authority (slot_owner s t0);
}.

Lemma offers_snoc cs name id s j n x :
  offers (cs ++ [(name, id)]) s j n x ↔ offers cs s j n x ∨ (j = length cs ∧ n = name ∧ x = id ∧ slot_value s id ≠ "").
Proof.
  unfold offers. rewrite lookup_app_Some, list_lookup_singleton_Some. split.
  - intros [[?|(? & ? & [= <- <-])] ?]; [by left|]. right. split_and!; try done. lia.
  - intros [[? ?]|(-> & -> & -> & ?)]; [split; [by left|done]|]. split; [|done]. right. split_and!; [done|lia|done].
Qed.

Lemma offers_bound cs s j n x : offers cs s j n x → j < length cs.
Proof. intros [Hj _]. by apply lookup_lt_Some in Hj. Qed.

Lemma offers_old cs name id s j n x :
  slot_value s id = "" → offers (cs ++ [(name, id)]) s j n x → offers cs s j n x.
Proof. by intros Hid [?|(_ & _ & _ & ?)]%offers_snoc. Qed.

Lemma no_demotion_snoc cs name id s : no_demotion (cs ++ [(name, id)]) s → no_demotion cs s.
Proof. intros Hd j n x Ho. apply (Hd j n x), offers_snoc. by left. Qed.

Lemma recorded_origin s name id : recorded_provenance id name (slot_key s) = origin s name id.
Proof.
  unfold recorded_provenance, origin. destruct (provenance id !! slot_key s) as [p|]; [|done].
  destruct (str_eqb_spec p "") as [->|]; by case_decide.
Qed.

Lemma takes_spec source name t s :
  name ≠ "" →
  takes source name t s = true ↔
    slot_value s source ≠ "" ∧ (slot_value s t = "" ∨ authority name < authority (slot_owner s t)).
Proof.
  intros Hname. unfold takes, incoming_wins, authority. rewrite (decide_False _ _ Hname).
  destruct (str_eqb_spec (slot_value s source) "") as [|]; cbn [negb andb]; [naive_solver|].
  destruct (str_eqb_spec (slot_value s t) "") as [|]; cbn [negb]; [naive_solver|].
  destruct (str_eqb_spec (slot_owner s t) "") as [->|Hne].
  - rewrite decide_True by done. rewrite Nat.ltb_lt. naive_solver.
  - rewrite decide_False by done. rewrite Nat.ltb_lt. naive_solver.
Qed.

(** The slot goes to the new contribution. *)
Lemma won_now t0 cs name id s t :
  slot_value s id ≠ "" →
  (∀ j n x, no_demotion cs s → offers cs s j n x → authority name < authority n) →
  (no_demotion cs s → slot_value s t0 ≠ "" → authority name < authority (slot_owner s t0)) →
  slot_value s t = slot_value s id → slot_owner s t = origin s name id →
  won t0 (cs ++ [(name, id)]) s (length cs) name id t.
Proof.
  intros Hid Hold Ht Hv Ho.
  assert (offers (cs ++ [(name, id)]) s (length cs) name id) as Hoff by (apply offers_snoc; by right).
  split; try done.
  - intros j n x Hj Hx%offers_bound. rewrite length_app in Hx. cbn in Hx. lia.
  - intros j n x Hd Hx. pose proof (Hd _ _ _ Hoff) as Hle.
    apply offers_snoc in Hx as [Hx|(-> & -> & -> & _)]; [|split; [done|lia]].
    pose proof (Hold _ _ _ (no_demotion_snoc _ _ _ _ Hd) Hx). split; [lia|done].
  - intros Hd. by apply Ht, (no_demotion_snoc _ name id).
Qed.

Lemma won_before t0 cs name id s t t' i n x :
  won t0 cs s i n x t → slot_value s t' = slot_value s t → slot_owner s t' = slot_owner s t →
  (slot_value s id ≠ "" → authority (origin s n x) ≤ authority name) →
  won t0 (cs ++ [(name, id)]) s i n x t'.
Proof.
  intros [Ho Hv How Hl Hb Ht] Hv' Ho' Hnew. split; try congruence.
  - apply offers_snoc. by left.
  - intros j m y Hj [Hy|(-> & -> & -> & ?)]%offers_snoc; [by eapply Hl|by apply Hnew].
  - intros j m y Hd [Hy|(-> & -> & -> & ?)]%offers_snoc; [by apply (Hb j m y (no_demotion_snoc _ _ _ _ Hd))|].
    split; [by apply Hnew|]. pose proof (offers_bound _ _ _ _ _ Ho). lia.
  - intros Hd. by apply Ht, (no_demotion_snoc _ name id).
Qed.

End Merge.
