(* ===== verification/Classification.v ===== *)
(** * Routing of merged components

    core/aggregation/classification.cpp: which merged components are parents,
    served from the local cache, and which are leaves, routed to the peer that
    claims them.  Parent references are taken from peers and manifests, so they
    may name no component, the component itself, or run in circles; the DFS that
    finds the circles is [visit], with the edges as fuel.

    The order in which an unordered map is walked is an argument.

    The DFS terminates and finds exactly the components on parent cycles, so the
    parent relation it returns has none; the routing table sends each leaf to the
    last peer that claims it, and contested leaves are reported. *)

From stdpp Require Import relations.
From S2P Require Import Prelude.

(** The fields of a merged [Component] that routing reads. *)
Record MergedComponent := mkMerged { mc_id : string; mc_parent_component_id : string }.

Record PeerClaim := mkClaim { pc_peer_name : string; pc_claimed : gset string }.

Record LeafCollisionWarning := mkWarning { lw_entity_id : string; lw_peer_names : list string }.

Record ClassifiedRouting := mkRouting {
  cr_routing_table : gmap string string;
  cr_leaf_warnings : list LeafCollisionWarning;
  cr_malformed_parent_warnings : list string;
}.

(** ** Parent edges *)

(** One component of the first loop: the edges and the warnings so far. *)
Definition parent_edge (known : gset string) (acc : gmap string string * list string) (c : MergedComponent)
    : gmap string string * list string :=
  let p := mc_parent_component_id c in
  if p =?ₛ "" then acc
  else if p =?ₛ mc_id c then
    (acc.1, acc.2 ++ ["Component '" +:+ mc_id c +:+
       "' declares itself as parent_component_id; ignoring to preserve leaf routing"])
  else if bool_decide (p ∉ known) then
    (acc.1, acc.2 ++ ["Component '" +:+ mc_id c +:+ "' references non-existent parent_component_id '" +:+ p
       +:+ "'; ignoring (missing from merged entity set)"])
  else (<[mc_id c := p]> acc.1, acc.2).

Definition declared_parents (cs : list MergedComponent) : gmap string string * list string :=
  foldl (parent_edge (list_to_set (mc_id <$> cs))) (∅, []) cs.

Inductive Color := Gray | Black.  (* White: no entry *)

#[global] Instance Color_eq_dec : EqDecision Color.
Proof. solve_decision. Defined.

(** [std::find] and the elements from there on. *)
Fixpoint from_first (x : string) (l : list string) : list string :=
  match l with
  | [] => []
  | y :: l' => if y =?ₛ x then l else from_first x l'
  end.

Section Visit.
Context (valid_parent : gmap string string).

(** The recursive lambda: colours and cycle members. *)
Fixpoint visit (fuel : nat) (node : string) (stack : list string)
    (st : gmap string Color * gset string) : option (gmap string Color * gset string) :=
  match fuel with
  | 0 => None
  | S fuel =>
      let color := <[node := Gray]> st.1 in
      let stack := stack ++ [node] in
      st ← (match valid_parent !! node with
            | Some next =>
                match color !! next with
                | Some Gray => Some (color, st.2 ∪ list_to_set (from_first next stack))
                | None => visit fuel next stack (color, st.2)
                | Some Black => Some (color, st.2)
                end
            | None => Some (color, st.2)
            end);
      Some (<[node := Black]> st.1, st.2)
  end.

Definition visit_root (st : option (gmap string Color * gset string)) (id : string)
    : option (gmap string Color * gset string) :=
  st ← st;
  match st.1 !! id with
  | Some _ => Some st
  | None => visit (S (size valid_parent)) id [] st
  end.

(** The members of cycles; [order] is the walk over [valid_parent]. *)
Definition cycle_members (order : list string) : option (gset string) :=
  snd <$> foldl visit_root (Some (∅, ∅)) order.
End Visit.

Definition resolve_valid_parents (order : list string) (cs : list MergedComponent)
    : option (gmap string string * list string) :=
  let '(valid_parent, warnings) := declared_parents cs in
  members ← cycle_members valid_parent order;
  Some (if bool_decide (members = ∅) then (valid_parent, warnings)
        else (filter (λ e, e.1 ∉ members) valid_parent,
              warnings ++ ["Parent cycle detected among Components [" +:+ join_comma (set_entries members)
                +:+ "]; cycle members kept as routed leaves"])).

(** ** Routing *)

Definition claim_one (parents : gset string) (peer : string)
    (acc : gmap string string * gmap string (list string)) (id : string)
    : gmap string string * gmap string (list string) :=
  (if bool_decide (id ∈ parents) then acc.1 else <[id := peer]> acc.1,
   <[id := default [] (acc.2 !! id) ++ [peer]]> acc.2).

Definition claim_peer (parents : gset string) (acc : gmap string string * gmap string (list string))
    (pc : PeerClaim) : gmap string string * gmap string (list string) :=
  foldl (claim_one parents (pc_peer_name pc)) acc (set_entries (pc_claimed pc)).

Definition leaf_warnings (parents : gset string) (claims_by_id : gmap string (list string))
    : list LeafCollisionWarning :=
  (λ e, mkWarning e.1 (merge_sort String.le e.2)) <$>
    filter (λ e, 2 ≤ length e.2 ∧ e.1 ∉ parents) (map_entries claims_by_id).

Definition classify_component_routing (order : list string) (cs : list MergedComponent)
    (claims : list PeerClaim) : option ClassifiedRouting :=
  '(valid_parent, warnings) ← resolve_valid_parents order cs;
  let parents : gset string := list_to_set (map_to_list valid_parent).*2 in
  let '(routing, claims_by_id) := foldl (claim_peer parents) (∅, ∅) claims in
  Some (mkRouting routing (leaf_warnings parents claims_by_id) warnings).

(** ** The search terminates and finds exactly the cycles *)

Section Cycles.
Context (valid : gmap string string).

Definition edge (x y : string) : Prop := valid !! x = Some y.
Definition on_cycle (x : string) : Prop := tc edge x x.

(** ** Paths *)

Definition linked (l : list string) : Prop :=
  ∀ i x y, l !! i = Some x → l !! S i = Some y → edge x y.

Lemma linked_rtc l i j x y :
  linked l → l !! i = Some x → l !! j = Some y → i ≤ j → rtc edge x y.
Proof.
  intros Hl Hi. revert y. induction j as [|j IH]; intros y Hj Hij.
  - assert (i = 0) as -> by lia. rewrite Hi in Hj. by injection Hj as ->.
  - destruct (decide (i = S j)) as [->|Hne]; [rewrite Hi in Hj; by injection Hj as ->|].
    destruct (lookup_lt_is_Some_2 l j) as [z Hz]; [apply lookup_lt_Some in Hj; lia|].
    eapply rtc_r; [apply (IH z); [done|lia]|]. by eapply Hl.
Qed.

Lemma linked_app_l l1 l2 : linked (l1 ++ l2) → linked l1.
Proof.
  intros Hl i x y Hx Hy. apply (Hl i); by apply lookup_app_l_Some.
Qed.

Lemma linked_snoc l a b : linked (l ++ [a]) → edge a b → linked ((l ++ [a]) ++ [b]).
Proof.
  intros Hl Hab i x y Hx Hy. apply lookup_app_Some in Hy as [Hy|[Hlen [Hi <-]%list_lookup_singleton_Some]].
  - eapply Hl; [|done]. apply lookup_app_Some in Hx as [Hx|[Hlen _]]; [done|].
    apply lookup_lt_Some in Hy. lia.
  - apply lookup_app_Some in Hx as [Hx|[Hlen' _]]; [|lia].
    assert (i = length l) as -> by (rewrite length_app in *; cbn in *; lia).
    rewrite list_lookup_middle in Hx by done. by injection Hx as ->.
Qed.

(** Nothing on a cycle escapes a set that it enters and that excludes it. *)
Lemma not_on_cycle (S : string → Prop) x :
  (∀ y, edge x y → S y) → (∀ a b, S a → edge a b → S b) → ¬ S x → ¬ on_cycle x.
Proof.
  intros Hx Hclosed Hnot Hc. apply Hnot.
  assert (∀ a b, tc edge a b → (a = x ∨ S a) → S b) as Htc; [|by eapply Htc; [|left]].
  intros a b Hab. induction Hab as [a b Hab|a b c Hab _ IH]; intros [->|Ha]; eauto.
Qed.

Lemma from_first_drop x l :
  x ∈ l → ∃ i, l !! i = Some x ∧ from_first x l = drop i l.
Proof.
  induction l as [|y l IH]; [by intros ?%not_elem_of_nil|]. intros Hin. cbn [from_first].
  destruct (str_eqb_spec y x) as [->|Hne]; [by exists 0|].
  destruct IH as (i & Hi & Heq); [apply elem_of_cons in Hin; naive_solver|]. by exists (S i).
Qed.

(** A path whose end leads back to its [i]-th node is a cycle from there. *)
Lemma back_edge_cycle l i j x y z :
  linked l → l !! i = Some y → l !! j = Some x → i ≤ j → last l = Some z → edge z y → on_cycle x.
Proof.
  intros Hl Hi Hj Hij Hz Hzy. rewrite last_lookup in Hz.
  unfold on_cycle. eapply tc_rtc_l; [|eapply tc_rtc_r; [by apply tc_once|]].
  - eapply (linked_rtc l j); try done. apply lookup_lt_Some in Hj. lia.
  - by eapply (linked_rtc l i j).
Qed.

(** ** The DFS *)

(** Where the walk along a path ends: without a parent, at a node that was
    finished before, or at a node of the path. *)
Definition walk_ends (color : gmap string Color) (cyc cyc' : gset string) (path : list string) : Prop :=
  ∃ z, last path = Some z ∧
  ((valid !! z = None ∧ cyc' = cyc) ∨
   (∃ y, edge z y ∧ color !! y = Some Black ∧ cyc' = cyc) ∨
   (∃ y, edge z y ∧ y ∈ path ∧ cyc' = cyc ∪ list_to_set (from_first y path))).

Definition uncolored (color : gmap string Color) : gmap string string :=
  filter (λ e, color !! e.1 = None) valid.

Lemma uncolored_insert color node next c :
  color !! node = None → edge node next → size (uncolored (<[node := c]> color)) < size (uncolored color).
Proof.
  intros Hc He. apply map_subset_size. apply map_subset_alt. split.
  - apply map_subseteq_spec. intros k v [Hk Hv]%map_lookup_filter_Some. cbn in Hv.
    apply map_lookup_filter_Some. split; [done|]. cbn.
    destruct (decide (k = node)) as [->|Hne]; [by rewrite lookup_insert_eq in Hv|].
    by rewrite lookup_insert_ne in Hv.
  - exists node. split; [apply map_lookup_filter_None; right; intros v _; cbn; by rewrite lookup_insert_eq|].
    exists next. by apply map_lookup_filter_Some.
Qed.

Lemma visit_spec fuel node stack color cyc :
  color !! node = None → (∀ x, color !! x = Some Gray ↔ x ∈ stack) → NoDup stack →
  linked (stack ++ [node]) → size (uncolored color) < fuel →
  ∃ color' cyc' ext, visit valid fuel node stack (color, cyc) = Some (color', cyc') ∧
    node ∈ ext ∧ NoDup (stack ++ ext) ∧ linked (stack ++ ext) ∧ Forall (λ x, color !! x = None) ext ∧
    (∀ x, color' !! x = if bool_decide (x ∈ ext) then Some Black else color !! x) ∧
    walk_ends color cyc cyc' (stack ++ ext).
Proof.
  revert node stack color. induction fuel as [|fuel IH]; intros node stack color Hnode Hgray Hnd Hl Hfuel; [lia|].
  assert (NoDup (stack ++ [node])) as Hnd'.
  { apply NoDup_app. split_and!; [done| |apply NoDup_singleton].
    intros x Hx ->%list_elem_of_singleton. apply Hgray in Hx. congruence. }
  assert (∀ cyc', walk_ends color cyc cyc' (stack ++ [node]) →
    ∃ color' cyc'' ext, Some (<[node := Black]> (<[node := Gray]> color), cyc') = Some (color', cyc'') ∧
    node ∈ ext ∧ NoDup (stack ++ ext) ∧ linked (stack ++ ext) ∧ Forall (λ x, color !! x = None) ext ∧
    (∀ x, color' !! x = if bool_decide (x ∈ ext) then Some Black else color !! x) ∧
    walk_ends color cyc cyc'' (stack ++ ext)) as Hstop.
  { intros cyc' Hw. exists (<[node := Black]> (<[node := Gray]> color)), cyc', [node].
    split_and!; try done; [left|by apply Forall_singleton|].
    intros x. rewrite insert_insert_eq. case_bool_decide as Hx.
    - apply list_elem_of_singleton in Hx as ->. by rewrite lookup_insert_eq.
    - rewrite lookup_insert_ne; [done|]. intros <-. destruct Hx. left. }
  assert (last (stack ++ [node]) = Some node) as Hlast by apply last_snoc.
  cbn [visit fst snd]. destruct (valid !! node) as [next|] eqn:Hnext; [|apply Hstop; exists node; auto].
  destruct (<[node:=Gray]> color !! next) as [[]|] eqn:Hc; cbn [mbind option_bind fst snd].
  - apply Hstop. exists node. split; [done|]. right. right. exists next. split_and!; try done.
    apply elem_of_app. destruct (decide (next = node)) as [->|Hne]; [right; left|left].
    rewrite lookup_insert_ne in Hc by done. by apply Hgray.
  - apply Hstop. exists node. split; [done|]. right. left. exists next. split_and!; try done.
    apply lookup_insert_Some in Hc as [[_ ?]|[_ Hc]]; done.
  - apply lookup_insert_None in Hc as [Hc Hne].
    destruct (IH next (stack ++ [node]) (<[node:=Gray]> color)) as
      (color' & cyc' & ext & -> & Hin & Hnd2 & Hl2 & Hun & Hcol & Hw).
    + by rewrite lookup_insert_ne.
    + intros x. rewrite elem_of_app, list_elem_of_singleton. destruct (decide (x = node)) as [->|Hx].
      * rewrite lookup_insert_eq. tauto.
      * rewrite lookup_insert_ne by done. rewrite Hgray. tauto.
    + done.
    + by apply linked_snoc.
    + pose proof (uncolored_insert color node next Gray Hnode Hnext). lia.
    + cbn [mbind option_bind fst snd]. exists (<[node := Black]> color'), cyc', (node :: ext).
      rewrite <-app_assoc in Hnd2, Hl2, Hw. cbn [app] in Hnd2, Hl2, Hw.
      split_and!; try done; [left| | |].
      * apply Forall_cons. split; [done|]. eapply Forall_impl; [exact Hun|]. intros x.
        by intros [? _]%lookup_insert_None.
      * intros x. destruct (decide (x = node)) as [->|Hx].
        -- rewrite lookup_insert_eq, bool_decide_eq_true_2; [done|left].
        -- rewrite lookup_insert_ne, Hcol, lookup_insert_ne by done. erewrite bool_decide_ext; [done|].
           rewrite elem_of_cons. naive_solver.
      * destruct Hw as (z & Hz & [?|[(y & Hy & Hb & Hcy)|?]]); exists z; (split; [done|]); auto.
        right. left. exists y. split_and!; try done.
        apply lookup_insert_Some in Hb as [[_ ?]|[_ Hb]]; done.
Qed.

(** Between two roots: everything coloured is finished, what it leads to as well,
    and the cycles among it have been found. *)
Definition roots_ok (st : gmap string Color * gset string) : Prop :=
  (∀ x c, st.1 !! x = Some c → c = Black) ∧
  (∀ x y, is_Some (st.1 !! x) → edge x y → is_Some (st.1 !! y)) ∧
  (∀ x, x ∈ st.2 ↔ is_Some (st.1 !! x) ∧ on_cycle x).

(** From the [j]-th node of a walk on, parents are later nodes or were finished
    before, unless the walk turned back to the [j]-th node or before it. *)
Lemma walk_next color cyc cyc' ext j k a b :
  linked ext → walk_ends color cyc cyc' ext →
  (∀ y i z, ext !! i = Some y → last ext = Some z → edge z y → j < i) →
  ext !! k = Some a → j ≤ k → edge a b → b ∈ drop (S j) ext ∨ is_Some (color !! b).
Proof.
  intros Hl (z & Hz & Hend) Hback Hk Hjk Hab. unfold edge in *.
  assert (∀ i y, ext !! i = Some y → j < i → y ∈ drop (S j) ext) as Hlater.
  { intros i y Hi Hji. apply (list_elem_of_lookup_2 _ (i - S j)). rewrite lookup_drop.
    by replace (S j + (i - S j)) with i by lia. }
  destruct (ext !! S k) as [b'|] eqn:Hb'.
  - pose proof (Hl _ _ _ Hk Hb') as Hab'. unfold edge in Hab'. assert (b' = b) as -> by congruence.
    left. eapply Hlater; [done|lia].
  - assert (z = a) as ->.
    { rewrite last_lookup in Hz. apply lookup_ge_None in Hb'. apply lookup_lt_Some in Hk as Hk'.
      replace (pred (length ext)) with k in Hz by lia. congruence. }
    destruct Hend as [[Hnone _]|[(y & Hy & Hblack & _)|(y & Hy & Hin & _)]]; unfold edge in *.
    + congruence.
    + right. assert (y = b) as <- by congruence. by eexists.
    + left. assert (y = b) as <- by congruence. apply list_elem_of_lookup in Hin as [i Hi]. eauto.
Qed.

Lemma NoDup_not_later (l : list string) j x : NoDup l → l !! j = Some x → x ∉ drop (S j) l.
Proof.
  intros Hnd Hj [k Hk]%list_elem_of_lookup. rewrite lookup_drop in Hk.
  pose proof (NoDup_lookup _ _ _ _ Hnd Hj Hk). lia.
Qed.

(** Which nodes of a walk are on a cycle. *)
Lemma walk_cycles color cyc cyc' ext x :
  linked ext → NoDup ext → walk_ends color cyc cyc' ext → Forall (λ x, color !! x = None) ext →
  (∀ x y, is_Some (color !! x) → edge x y → is_Some (color !! y)) →
  x ∈ ext → x ∉ cyc → on_cycle x ↔ x ∈ cyc'.
Proof.
  intros Hl Hnd Hw Hun Hclosed [j Hj]%list_elem_of_lookup Hcyc. split.
  - intros Hon. apply dec_stable. intros Hnot. revert Hon.
    assert (∀ y i z, ext !! i = Some y → last ext = Some z → edge z y → j < i) as Hback.
    { intros y i z Hi Hz Hy. destruct (decide (j < i)) as [|Hge]; [done|]. destruct Hnot.
      destruct Hw as (z' & Hz' & [[Hnone _]|[(y' & Hy' & Hb & _)|(y' & Hy' & Hin & ->)]]);
        assert (z' = z) as -> by congruence; unfold edge in *; [congruence| |]; assert (y' = y) as -> by congruence.
      - apply list_elem_of_lookup_2 in Hi. rewrite Forall_forall in Hun. rewrite Hun in Hb by done. done.
      - apply elem_of_union. right. apply elem_of_list_to_set.
        destruct (from_first_drop y ext Hin) as (i' & Hi' & ->).
        assert (i' = i) as -> by by eapply NoDup_lookup.
        apply (list_elem_of_lookup_2 _ (j - i)). rewrite lookup_drop. by replace (i + (j - i)) with j by lia. }
    apply (not_on_cycle (λ u, u ∈ drop (S j) ext ∨ is_Some (color !! u))).
    + intros y Hy. by eapply (walk_next _ _ _ _ j j).
    + intros a b [[k Hk]%list_elem_of_lookup|Ha] Hab; [|right; by eapply Hclosed].
      rewrite lookup_drop in Hk. eapply (walk_next _ _ _ _ j (S j + k)); try done. lia.
    + intros [Hin|Hc]; [by eapply NoDup_not_later|].
      apply list_elem_of_lookup_2 in Hj. rewrite Forall_forall in Hun. rewrite Hun in Hc by done. by destruct Hc.
  - intros Hin. destruct Hw as (z & Hz & [[_ ->]|[(y & _ & _ & ->)|(y & Hy & Hyin & ->)]]); [done..|].
    apply elem_of_union in Hin as [?|Hin]; [done|]. apply elem_of_list_to_set in Hin.
    destruct (from_first_drop y ext Hyin) as (i & Hi & Heq). rewrite Heq in Hin.
    apply list_elem_of_lookup in Hin as [k Hk]. rewrite lookup_drop in Hk.
    eapply (back_edge_cycle ext i (i + k)); try done. lia.
Qed.

Lemma walk_keeps color cyc cyc' ext x :
  walk_ends color cyc cyc' ext → x ∉ ext → x ∈ cyc' ↔ x ∈ cyc.
Proof.
  intros (z & Hz & [[_ ->]|[(y & _ & _ & ->)|(y & Hy & Hyin & ->)]]) Hx; [done..|].
  rewrite elem_of_union, elem_of_list_to_set. split; [|tauto]. intros [?|Hin]; [done|]. destruct Hx.
  destruct (from_first_drop y ext Hyin) as (i & Hi & Heq). rewrite Heq in Hin.
  apply list_elem_of_lookup in Hin as [k Hk]. rewrite lookup_drop in Hk. by eapply list_elem_of_lookup_2.
Qed.

Lemma visit_root_ok st id :
  roots_ok st → ∃ st', visit_root valid (Some st) id = Some st' ∧ roots_ok st' ∧ is_Some (st'.1 !! id) ∧
    ∀ x, is_Some (st.1 !! x) → is_Some (st'.1 !! x).
Proof.
  intros (Hblack & Hclosed & Hcyc). unfold visit_root. cbn [mbind option_bind].
  destruct (st.1 !! id) as [c|] eqn:Hid; [by exists st; rewrite Hid|]. destruct st as [color cyc]. cbn [fst snd] in *.
  destruct (visit_spec (S (size valid)) id [] color cyc) as (color' & cyc' & ext & Hv & Hin & Hnd & Hl & Hun & Hcol & Hw).
  - done.
  - intros x. rewrite elem_of_nil. split; [|done]. intros Hx. by apply Hblack in Hx.
  - constructor.
  - intros i x y. by destruct i.
  - apply Nat.lt_succ_r. apply map_subseteq_size, map_filter_subseteq.
  - exists (color', cyc'). cbn [app fst snd] in *.
    assert (∀ x, is_Some (color' !! x) ↔ x ∈ ext ∨ is_Some (color !! x)) as Hsome.
    { intros x. rewrite Hcol. case_bool_decide; [|naive_solver]. split; [auto|by eexists]. }
    split_and!; [done| |apply Hsome; auto|intros x; rewrite Hsome; auto].
    split_and!; cbn [fst snd].
    + intros x c. rewrite Hcol. case_bool_decide; [by intros [= <-]|apply Hblack].
    + intros x y. rewrite !Hsome. intros [[k Hk]%list_elem_of_lookup|Hx] Hxy; [|right; by eapply Hclosed].
      destruct (ext !! S k) as [y'|] eqn:Hy'.
      * pose proof (Hl _ _ _ Hk Hy') as Hxy'. unfold edge in *. assert (y' = y) as -> by congruence.
        left. by eapply list_elem_of_lookup_2.
      * destruct Hw as (z & Hz & Hend). assert (z = x) as ->.
        { rewrite last_lookup in Hz. apply lookup_ge_None in Hy'. apply lookup_lt_Some in Hk as Hk'.
          replace (pred (length ext)) with k in Hz by lia. congruence. }
        unfold edge in *. destruct Hend as [[Hn _]|[(w & Hw & Hb & _)|(w & Hw & Hwin & _)]].
        -- congruence.
        -- assert (w = y) as -> by congruence. right. by eexists.
        -- assert (w = y) as -> by congruence. by left.
    + intros x. rewrite Hsome. destruct (decide (x ∈ ext)) as [Hx|Hx].
      * assert (x ∉ cyc) as Hn.
        { intros [Hc _]%Hcyc. rewrite Forall_forall in Hun. rewrite Hun in Hc by done. by destruct Hc. }
        rewrite <-(walk_cycles color cyc cyc' ext x) by done. tauto.
      * rewrite (walk_keeps color cyc cyc' ext x) by done. rewrite Hcyc. tauto.
Qed.

Lemma roots_fold order st :
  roots_ok st → ∃ st', foldl (visit_root valid) (Some st) order = Some st' ∧ roots_ok st' ∧
    (∀ x, x ∈ order → is_Some (st'.1 !! x)) ∧ ∀ x, is_Some (st.1 !! x) → is_Some (st'.1 !! x).
Proof.
  revert st. induction order as [|id order IH]; intros st Hst; cbn [foldl].
  - exists st. split_and!; try done. by intros x ?%not_elem_of_nil.
  - destruct (visit_root_ok st id Hst) as (st1 & -> & Hst1 & Hid & Hkeep).
    destruct (IH st1 Hst1) as (st2 & -> & Hst2 & Hord & Hkeep2). exists st2. split_and!; auto.
    intros x [->|Hx]%elem_of_cons; auto.
Qed.

(** The DFS terminates and finds exactly the members of cycles, in whatever order
    the roots are tried. *)
Lemma cycle_members_spec order :
  (∀ x, is_Some (valid !! x) → x ∈ order) →
  ∃ members, cycle_members valid order = Some members ∧ ∀ x, x ∈ members ↔ on_cycle x.
Proof.
  intros Hord. destruct (roots_fold order (∅, ∅)) as (st & Heq & (_ & _ & Hcyc) & Hall & _).
  { split_and!; cbn; [intros x c; by rewrite lookup_empty|intros x y; rewrite lookup_empty; by intros []|].
    intros x. rewrite lookup_empty. split; [by intros ?%not_elem_of_empty|by intros [[] _]]. }
  unfold cycle_members. rewrite Heq. exists st.2. split; [done|]. intros x. rewrite Hcyc.
  split; [tauto|]. intros Hon. split; [|done]. apply Hall, Hord.
  unfold on_cycle in Hon. apply tc_nsteps in Hon as (n & Hn & Hs). destruct n; [lia|].
  by inversion Hs as [|n' a b c Hab Hbc]; subst; exists b.
Qed.
End Cycles.

(** ** Parents *)

(** The component [id] names another component of the set as its parent. *)
Definition declares (cs : list MergedComponent) (id p : string) : Prop :=
  mkMerged id p ∈ cs ∧ p ≠ "" ∧ p ≠ id ∧ p ∈ mc_id <$> cs.

(** [order] is a walk over the edges found. *)
Definition walk_of (order : list string) (cs : list MergedComponent) : Prop :=
  order ≡ₚ (map_to_list (declared_parents cs).1).*1.

Lemma parent_edges known cs acc id p :
  NoDup (mc_id <$> cs) → (∀ c, c ∈ cs → acc.1 !! mc_id c = None) →
  (foldl (parent_edge known) acc cs).1 !! id = Some p ↔
    acc.1 !! id = Some p ∨ mkMerged id p ∈ cs ∧ p ≠ "" ∧ p ≠ id ∧ p ∈ known.
Proof.
  revert acc. induction cs as [|c cs IH]; intros acc; cbn [foldl fmap list_fmap].
  { intros _ _. set_solver. }
  intros [Hc Hnd]%NoDup_cons Hacc. rewrite IH; [|done|].
  - destruct c as [cid cp]. unfold parent_edge. cbn [mc_id mc_parent_component_id] in *.
    rewrite elem_of_cons. assert (acc.1 !! cid = None) as Hnone by (apply (Hacc (mkMerged cid cp)); left).
    destruct (str_eqb_spec cp ""); [naive_solver|]. destruct (str_eqb_spec cp cid); [naive_solver|].
    case_bool_decide; [naive_solver|]. cbn [fst]. destruct (decide (id = cid)) as [->|Hne].
    + rewrite lookup_insert_eq. split; [|naive_solver].
      intros [[= ->]|?]; [|naive_solver]. right. split_and!; [by left|done|done|destruct (decide (p ∈ known)); naive_solver].
    + rewrite lookup_insert_ne by done. naive_solver.
  - intros x Hx. assert (mc_id x ≠ mc_id c) as Hne.
    { intros Heq. destruct Hc. rewrite <-Heq. by apply list_elem_of_fmap_2. }
    specialize (Hacc x ltac:(by right)). unfold parent_edge. repeat case_match; try done.
    cbn. by rewrite lookup_insert_ne.
Qed.

Lemma declared_parents_spec cs id p :
  NoDup (mc_id <$> cs) → (declared_parents cs).1 !! id = Some p ↔ declares cs id p.
Proof.
  intros Hnd. unfold declared_parents. rewrite parent_edges by done. cbn [fst].
  rewrite lookup_empty, elem_of_list_to_set. unfold declares. naive_solver.
Qed.

Lemma tc_subrel {A} (R R' : A → A → Prop) x y : (∀ a b, R a b → R' a b) → tc R x y → tc R' x y.
Proof.
  intros Hsub. induction 1 as [a b Hab|a b c Hab _ IH]; [by apply tc_once, Hsub|].
  eapply tc_l; [by apply Hsub|done].
Qed.

(** The search succeeds and keeps the references of components on no cycle. *)
Lemma resolve_valid_parents_edges order cs :
  NoDup (mc_id <$> cs) → walk_of order cs →
  ∃ vp ws, resolve_valid_parents order cs = Some (vp, ws) ∧
    ∀ id p, vp !! id = Some p ↔ declares cs id p ∧ ¬ tc (declares cs) id id.
Proof.
  intros Hnd Hord. unfold resolve_valid_parents, walk_of in *.
  pose proof (λ id p, declared_parents_spec cs id p Hnd) as Hdecl.
  destruct (declared_parents cs) as [valid ws]. cbn [fst] in *.
  destruct (cycle_members_spec valid order) as (members & -> & Hmem).
  { intros x [p Hp]. rewrite Hord. apply list_elem_of_fmap. exists (x, p). split; [done|].
    by apply elem_of_map_to_list. }
  cbn [mbind option_bind].
  set (vp := filter (λ e, e.1 ∉ members) valid).
  assert (∃ ws', (if bool_decide (members = ∅) then (valid, ws) else (vp,
    ws ++ ["Parent cycle detected among Components [" +:+ join_comma (set_entries members)
      +:+ "]; cycle members kept as routed leaves"])) = (vp, ws')) as [ws' ->].
  { case_bool_decide as He; [|by eexists]. exists ws. f_equal. symmetry. apply map_filter_id.
    intros id p _. rewrite He. cbn. set_solver. }
  assert (∀ x, on_cycle valid x ↔ tc (declares cs) x x) as Hcyc.
  { intros x. split; apply tc_subrel; intros a b; apply Hdecl. }
  assert (∀ id p, vp !! id = Some p ↔ declares cs id p ∧ ¬ tc (declares cs) id id) as Hvp.
  { intros id p. unfold vp. rewrite map_lookup_filter_Some, Hdecl. cbn. by rewrite Hmem, Hcyc. }
  by exists vp, ws'.
Qed.

(** C35: The parent relation used for routing: for components with distinct ids, the
    search for cycles terminates in any walk order, drops exactly the references
    of components on a cycle (besides empty, self and dangling ones), and what is
    left has no cycle. *)
Theorem resolve_valid_parents_spec order cs :
  NoDup (mc_id <$> cs) → walk_of order cs →
  ∃ vp ws, resolve_valid_parents order cs = Some (vp, ws) ∧
    (∀ id p, vp !! id = Some p ↔ declares cs id p ∧ ¬ tc (declares cs) id id) ∧
    ∀ id, ¬ tc (edge vp) id id.
Proof.
  intros Hnd Hord. destruct (resolve_valid_parents_edges order cs Hnd Hord) as (vp & ws & Hres & Hvp).
  exists vp, ws. split_and!; [done|done|]. intros id Hid.
  assert (tc (declares cs) id id) as Hid' by (eapply tc_subrel, Hid; intros a b [? _]%Hvp; done).
  inversion Hid as [a b Hab|a b c Hab _]; subst; apply Hvp in Hab as [_ Hn]; done.
Qed.

(** ** Routing *)

(** The peers that claim a component, in the order of the claims. *)
Definition claimants (claims : list PeerClaim) (id : string) : list string :=
  pc_peer_name <$> filter (λ pc, id ∈ pc_claimed pc) claims.

Lemma claim_ids parents peer ids acc id :
  NoDup ids →
  (foldl (claim_one parents peer) acc ids).1 !! id =
    (if bool_decide (id ∈ ids ∧ id ∉ parents) then Some peer else acc.1 !! id) ∧
  (foldl (claim_one parents peer) acc ids).2 !! id =
    (if bool_decide (id ∈ ids) then Some (default [] (acc.2 !! id) ++ [peer]) else acc.2 !! id).
Proof.
  revert acc. induction ids as [|x ids IH]; intros acc; cbn [foldl].
  { intros _. rewrite !bool_decide_eq_false_2 by set_solver. done. }
  intros [Hx Hnd]%NoDup_cons. destruct (IH (claim_one parents peer acc x) Hnd) as [-> ->].
  unfold claim_one. cbn [fst snd]. destruct (decide (id = x)) as [->|Hne].
  - rewrite !lookup_insert_eq, (bool_decide_eq_false_2 (x ∈ ids)), (bool_decide_eq_true_2 (x ∈ x :: ids)) by set_solver.
    rewrite (bool_decide_eq_false_2 (x ∈ ids ∧ _)) by naive_solver. split; [|done].
    destruct (decide (x ∈ parents)).
    + by rewrite bool_decide_eq_true_2, bool_decide_eq_false_2 by set_solver.
    + rewrite (bool_decide_eq_false_2 (x ∈ parents)), lookup_insert_eq by done.
      by rewrite bool_decide_eq_true_2 by set_solver.
  - rewrite (bool_decide_ext (id ∈ x :: ids) (id ∈ ids)) by set_solver.
    rewrite (bool_decide_ext (id ∈ x :: ids ∧ id ∉ parents) (id ∈ ids ∧ id ∉ parents)) by set_solver.
    rewrite lookup_insert_ne by done. split; [|done].
    destruct (bool_decide (x ∈ parents)); [done|]. by rewrite lookup_insert_ne.
Qed.

Lemma claim_peers parents claims acc id :
  let acc' := foldl (claim_peer parents) acc claims in
  acc'.1 !! id = (if bool_decide (id ∈ parents) then acc.1 !! id
                  else match last (claimants claims id) with Some p => Some p | None => acc.1 !! id end) ∧
  acc'.2 !! id = match claimants claims id with
                 | [] => acc.2 !! id
                 | names => Some (default [] (acc.2 !! id) ++ names)
                 end.
Proof.
  cbn zeta. revert acc. induction claims as [|pc claims IH]; intros acc; cbn [foldl].
  { cbn. by destruct (bool_decide _). }
  destruct (IH (claim_peer parents acc pc)) as [-> ->]. unfold claim_peer.
  destruct (claim_ids parents (pc_peer_name pc) (set_entries (pc_claimed pc)) acc id (NoDup_set_entries _)) as [-> ->].
  unfold claimants. rewrite filter_cons. rewrite (bool_decide_ext (id ∈ set_entries _) (id ∈ pc_claimed pc)) by apply elem_of_set_entries.
  rewrite (bool_decide_ext (id ∈ set_entries _ ∧ _) (id ∈ pc_claimed pc ∧ id ∉ parents))
    by by rewrite elem_of_set_entries.
  destruct (decide (id ∈ pc_claimed pc)) as [Hin|Hn].
  - rewrite (bool_decide_eq_true_2 (id ∈ pc_claimed pc)) by done. cbn [fmap list_fmap].
    fold (claimants claims id). split.
    + destruct (decide (id ∈ parents)).
      * by rewrite bool_decide_eq_true_2, bool_decide_eq_false_2 by naive_solver.
      * rewrite bool_decide_eq_false_2, bool_decide_eq_true_2 by done. rewrite last_cons. by destruct (last _).
    + cbn. destruct (claimants claims id) eqn:Hc; unfold claimants in Hc; rewrite ?Hc; [done|].
      by rewrite <-app_assoc.
  - rewrite (bool_decide_eq_false_2 (id ∈ pc_claimed pc)) by done.
    rewrite (bool_decide_eq_false_2 (id ∈ pc_claimed pc ∧ _)) by naive_solver. done.
Qed.

(** A component that some other one, outside of any parent cycle, names as its
    parent. *)
Definition is_parent (cs : list MergedComponent) (p : string) : Prop :=
  ∃ id, declares cs id p ∧ ¬ tc (declares cs) id id.

(** Classification always produces a routing: hierarchical parents are not routed,
    every other component goes to the last peer that claims it, and a warning is
    emitted for exactly the leaves that several claims contain, with all their
    claimants. *)
Theorem classify_routes_leaves order cs claims :
  NoDup (mc_id <$> cs) → walk_of order cs →
  ∃ r, classify_component_routing order cs claims = Some r ∧
    (∀ id, is_parent cs id → cr_routing_table r !! id = None) ∧
    (∀ id, ¬ is_parent cs id → cr_routing_table r !! id = last (claimants claims id)) ∧
    ∀ w, w ∈ cr_leaf_warnings r ↔
      ¬ is_parent cs (lw_entity_id w) ∧ 2 ≤ length (claimants claims (lw_entity_id w)) ∧
      lw_peer_names w = merge_sort String.le (claimants claims (lw_entity_id w)).
Proof.
  intros Hnd Hord. destruct (resolve_valid_parents_edges order cs Hnd Hord) as (vp & ws & Hres & Hvp).
  unfold classify_component_routing. rewrite Hres. cbn [mbind option_bind].
  set (parents := list_to_set (map_to_list vp).*2 : gset string).
  assert (∀ p, p ∈ parents ↔ is_parent cs p) as Hpar.
  { intros p. unfold parents. rewrite elem_of_list_to_set, list_elem_of_fmap. unfold is_parent. split.
    - intros ([id p'] & -> & Hin%elem_of_map_to_list). exists id. by apply Hvp.
    - intros (id & Hin%Hvp). exists (id, p). split; [done|]. by apply elem_of_map_to_list. }
  pose proof (claim_peers parents claims (∅, ∅)) as Hcl. cbn zeta in Hcl.
  destruct (foldl (claim_peer parents) (∅, ∅) claims) as [routing byid]. cbn [fst snd] in Hcl.
  eexists. split; [done|]. cbn [cr_routing_table cr_leaf_warnings]. split_and!.
  - intros id Hid%Hpar. destruct (Hcl id) as [-> _]. by rewrite bool_decide_eq_true_2, lookup_empty.
  - intros id Hid. rewrite <-Hpar in Hid. destruct (Hcl id) as [-> _].
    rewrite bool_decide_eq_false_2, lookup_empty by done. by destruct (last _).
  - intros [id names]. cbn [lw_entity_id lw_peer_names]. unfold leaf_warnings.
    assert (∀ l, 2 ≤ length l → byid !! id = Some l ↔ claimants claims id = l) as Hbyid.
    { intros l Hl. destruct (Hcl id) as [_ ->]. rewrite lookup_empty. cbn [default].
      destruct (claimants claims id) as [|n ns]; [|cbn; naive_solver].
      split; [done|]. intros <-. cbn in Hl. lia. }
    rewrite list_elem_of_fmap. rewrite <-Hpar. split.
    + intros ([k l] & [= -> ->] & [[Hl Hn] Hin%elem_of_map_entries]%list_elem_of_filter). cbn in *.
      apply Hbyid in Hin as ->; done.
    + intros (Hn & Hl & ->). exists (id, claimants claims id). split; [done|].
      apply list_elem_of_filter. split; [done|]. apply elem_of_map_entries. by apply Hbyid.
Qed.
