(* ===== verification/EntityMerger.v ===== *)
(** * Merging the entities of peer gateways

    [EntityMerger] (core/aggregation/entity_merger.cpp): a peer's areas, functions
    and components are merged into the local ones by id, its apps are renamed on
    collision; entities that live on the peer go into a routing table.  The loop
    of aggregation_manager.cpp that merges all peers, remaps function hosts and
    reclassifies component routes is [merge_peers].

    Entities have the fields that merging reads or writes; the others are one
    [Rest].  The walk orders over unordered maps are arguments. *)

From S2P Require Import Prelude AssetIdentity Classification.

Section EntityMerger.
Context {Rest : Type}.

Record Area := mkArea {
  ar_id : string; ar_tags : list string; ar_description : string; ar_source : string;
  ar_contributors : list string; ar_rest : Rest }.

Record Function_ := mkFunction {
  fn_id : string; fn_hosts : list string; fn_tags : list string; fn_source : string;
  fn_contributors : list string; fn_rest : Rest }.

Record Component := mkComponent {
  co_id : string; co_parent_component_id : string; co_tags : list string; co_description : string;
  co_source : string; co_contributors : list string; co_identity : AssetIdentity; co_rest : Rest }.

Record App := mkApp {
  ap_id : string; ap_name : string; ap_source : string; ap_original_id : string;
  ap_contributors : list string; ap_rest : Rest }.

Definition SEPARATOR : string := "__".

Definition prefix_id (peer id : string) : string := peer +:+ SEPARATOR +:+ id.
Definition peer_source (peer : string) : string := "peer:" +:+ peer.

Definition append_contributor_unique (contributors : list string) (entry : string) : list string :=
  if bool_decide (entry ∈ contributors) then contributors else contributors ++ [entry].

(** The values of [incoming] not seen before, in order: the set holds what the
    list holds. *)
Definition merge_unique (known incoming : list string) : list string :=
  foldl (λ acc x, if bool_decide (x ∈ acc) then acc else acc ++ [x]) known incoming.

(** ** Merging by id

    The loop that [merge_areas], [merge_functions] and [merge_components] share:
    the index holds the local ids only. *)
Section ById.
Context {A : Type} (ident : A → string) (combine : A → A → A) (added : A → A) (route_merged : bool).

(** A later entry with the same id overwrites the index. *)
Fixpoint local_index (i : nat) (local : list A) : gmap string nat :=
  match local with
  | [] => ∅
  | x :: local' =>
      let m := local_index (S i) local' in
      match m !! ident x with Some _ => m | None => <[ident x := i]> m end
  end.

Definition merge_step (peer : string) (index : gmap string nat) (acc : list A * gmap string string) (r : A)
    : list A * gmap string string :=
  match index !! ident r with
  | Some i =>
      (alter (λ m, combine m r) i acc.1, if route_merged then <[ident r := peer]> acc.2 else acc.2)
  | None => (acc.1 ++ [added r], <[ident r := peer]> acc.2)
  end.

Definition merge_by_id (peer : string) (local remote : list A) (routing : gmap string string)
    : list A * gmap string string :=
  foldl (merge_step peer (local_index 0 local)) (local, routing) remote.
End ById.

Definition combine_area (peer : string) (m r : Area) : Area :=
  mkArea (ar_id m) (merge_unique (ar_tags m) (ar_tags r))
    (if (ar_description m =?ₛ "") && negb (ar_description r =?ₛ "") then ar_description r else ar_description m)
    (ar_source m) (append_contributor_unique (ar_contributors m) (peer_source peer)) (ar_rest m).

Definition added_area (peer : string) (r : Area) : Area :=
  mkArea (ar_id r) (ar_tags r) (ar_description r) (peer_source peer)
    (append_contributor_unique (ar_contributors r) (peer_source peer)) (ar_rest r).

Definition merge_areas (peer : string) : list Area → list Area → gmap string string → list Area * gmap string string :=
  merge_by_id ar_id (combine_area peer) (added_area peer) false peer.

Definition combine_function (peer : string) (m r : Function_) : Function_ :=
  mkFunction (fn_id m) (merge_unique (fn_hosts m) (fn_hosts r)) (merge_unique (fn_tags m) (fn_tags r))
    (fn_source m) (append_contributor_unique (fn_contributors m) (peer_source peer)) (fn_rest m).

Definition added_function (peer : string) (r : Function_) : Function_ :=
  mkFunction (fn_id r) (fn_hosts r) (fn_tags r) (peer_source peer)
    (append_contributor_unique (fn_contributors r) (peer_source peer)) (fn_rest r).

Definition merge_functions (peer : string)
    : list Function_ → list Function_ → gmap string string → list Function_ * gmap string string :=
  merge_by_id fn_id (combine_function peer) (added_function peer) false peer.

Definition combine_component (peer : string) (m r : Component) : Component :=
  mkComponent (co_id m) (co_parent_component_id m) (merge_unique (co_tags m) (co_tags r))
    (if (co_description m =?ₛ "") && negb (co_description r =?ₛ "") then co_description r else co_description m)
    (co_source m) (append_contributor_unique (co_contributors m) (peer_source peer))
    (merge_identity (stamp_identity_provenance (co_identity m) (co_source m)) (co_identity r)
       (peer_source peer) default_precedence)
    (co_rest m).

Definition added_component (peer : string) (r : Component) : Component :=
  mkComponent (co_id r) (co_parent_component_id r) (co_tags r) (co_description r) (peer_source peer)
    (append_contributor_unique (co_contributors r) (peer_source peer)) (co_identity r) (co_rest r).

Definition merge_components (peer : string)
    : list Component → list Component → gmap string string → list Component * gmap string string :=
  merge_by_id co_id (combine_component peer) (added_component peer) true peer.

(** ** Apps *)

Definition added_app (peer : string) (local_ids : gset string) (r : App) : App :=
  let contributors := append_contributor_unique (ap_contributors r) (peer_source peer) in
  if bool_decide (ap_id r ∈ local_ids)
  then mkApp (prefix_id peer (ap_id r)) (peer +:+ SEPARATOR +:+ ap_name r) (peer_source peer) (ap_id r)
         contributors (ap_rest r)
  else mkApp (ap_id r) (ap_name r) (peer_source peer) (ap_original_id r) contributors (ap_rest r).

Definition merge_apps (peer : string) (local remote : list App) (routing : gmap string string)
    : list App * gmap string string :=
  let local_ids : gset string := list_to_set (ap_id <$> local) in
  foldl (λ acc r, let a := added_app peer local_ids r in (acc.1 ++ [a], <[ap_id a := peer]> acc.2))
    (local, routing) remote.

(** ** All peers *)

Record PeerEntities := mkPeer {
  pe_name : string;
  pe_areas : list Area;
  pe_components : list Component;
  pe_apps : list App;
  pe_functions : list Function_;
}.

Record Merged := mkMergedEntities {
  mg_areas : list Area;
  mg_components : list Component;
  mg_apps : list App;
  mg_functions : list Function_;
  mg_routing : gmap string string;
}.

(** What follows the first separator. *)
Fixpoint after_separator (s : string) : option string :=
  match s with
  | String a s' =>
      match s' with
      | String b s'' =>
          if bool_decide (a = "_"%char) && bool_decide (b = "_"%char) then Some s'' else after_separator s'
      | "" => None
      end
  | "" => None
  end.

(** From the ids the routing table of one merger holds, in walk order. *)
Definition app_id_remap (routed : list string) : gmap string string :=
  foldl (λ m id, match after_separator id with Some original => <[original := id]> m | None => m end) ∅ routed.

Definition remap_hosts (remap : gmap string string) (f : Function_) : Function_ :=
  mkFunction (fn_id f) ((λ h, default h (remap !! h)) <$> fn_hosts f) (fn_tags f) (fn_source f)
    (fn_contributors f) (fn_rest f).

(** The routing tables of the peers are overlaid in their order. *)
Definition merge_peer (walk : gmap string string → list string) (mg : Merged) (p : PeerEntities) : Merged :=
  let peer := pe_name p in
  let '(areas, rt) := merge_areas peer (mg_areas mg) (pe_areas p) ∅ in
  let '(components, rt) := merge_components peer (mg_components mg) (pe_components p) rt in
  let '(apps, rt) := merge_apps peer (mg_apps mg) (pe_apps p) rt in
  let functions := remap_hosts (app_id_remap (walk rt)) <$> pe_functions p in
  let '(functions, rt) := merge_functions peer (mg_functions mg) functions rt in
  mkMergedEntities areas components apps functions (rt ∪ mg_routing mg).

Definition as_merged (c : Component) : MergedComponent := mkMerged (co_id c) (co_parent_component_id c).

Definition claim_of (p : PeerEntities) : PeerClaim :=
  mkClaim (pe_name p) (list_to_set (co_id <$> pe_components p)).

(** Routing entries of components are replaced by the classification; [None]
    only if its search ran out of fuel. *)
Definition merge_peers (walk : gmap string string → list string) (order : list string)
    (local : Merged) (peers : list PeerEntities) : option (Merged * list LeafCollisionWarning) :=
  let mg := foldl (merge_peer walk) local peers in
  let component_ids : gset string := list_to_set (co_id <$> mg_components mg) in
  let rt := filter (λ e, e.1 ∉ component_ids) (mg_routing mg) in
  r ← classify_component_routing order (as_merged <$> mg_components mg) (claim_of <$> peers);
  Some (mkMergedEntities (mg_areas mg) (mg_components mg) (mg_apps mg) (mg_functions mg)
          (cr_routing_table r ∪ rt), cr_leaf_warnings r).

(** [AggregationManager::find_peer_for_entity]. *)
Definition find_peer_for_entity (mg : Merged) (id : string) : option string := mg_routing mg !! id.
End EntityMerger.

Arguments Area : clear implicits.
Arguments Function_ : clear implicits.
Arguments Component : clear implicits.
Arguments App : clear implicits.
Arguments PeerEntities : clear implicits.
Arguments Merged : clear implicits.
