(* ===== verification/EntityMergerSpec.v ===== *)
(** * What merging peers gives *)

From S2P Require Import Prelude AssetIdentity Classification EntityMerger.

(** ** Lists merged by id *)

Lemma elem_of_merge_unique known incoming x :
  x ∈ merge_unique known incoming ↔ x ∈ known ∨ x ∈ incoming.
Proof.
  unfold merge_unique. revert known. induction incoming as [|y incoming IH]; intros known; cbn [foldl].
  { rewrite elem_of_nil. tauto. }
  rewrite IH, elem_of_cons. case_bool_decide; rewrite ?elem_of_app, ?list_elem_of_singleton; naive_solver.
Qed.

Section ById.
Context {A : Type} (ident : A → string) (combine : A → A → A) (added : A → A) (route_merged : bool).
Context (combine_ident : ∀ m r, ident (combine m r) = ident m).

(** The remote entity with the id of a local one. *)
Definition counterpart (remote : list A) (l : A) : option A :=
  snd <$> list_find (λ r, ident r = ident l) remote.

Definition merged_with (remote : list A) (l : A) : A :=
  match counterpart remote l with Some r => combine l r | None => l end.

Lemma local_index_spec local k id i :
  NoDup (ident <$> local) →
  local_index ident k local !! id = Some i ↔ ∃ j x, i = k + j ∧ local !! j = Some x ∧ ident x = id.
Proof.
  revert id k i. induction local as [|x local IH]; intros id k i; cbn [local_index fmap list_fmap].
  { intros _. rewrite lookup_empty. split; [done|]. intros (j & y & _ & Hj & _). by rewrite lookup_nil in Hj. }
  intros [Hx Hnd]%NoDup_cons.
  assert (local_index ident (S k) local !! ident x = None) as ->.
  { apply eq_None_not_Some. intros [i' Hi']. apply IH in Hi' as (j & y & _ & Hj & Heq); [|done].
    destruct Hx. rewrite <-Heq. eapply list_elem_of_fmap_2, list_elem_of_lookup_2, Hj. }
  destruct (decide (id = ident x)) as [->|Hne].
  - rewrite lookup_insert_eq. split.
    + intros [= <-]. exists 0, x. by rewrite Nat.add_0_r.
    + intros (j & y & -> & Hj & Heq). destruct j as [|j]; [by rewrite Nat.add_0_r|]. destruct Hx.
      rewrite <-Heq. eapply list_elem_of_fmap_2, list_elem_of_lookup_2, Hj.
  - rewrite lookup_insert_ne by done. rewrite IH by done. split.
    + intros (j & y & -> & Hj & Heq). exists (S j), y. split; [lia|done].
    + intros (j & y & -> & Hj & Heq). destruct j as [|j]; [cbn in Hj; congruence|].
      exists j, y. split; [lia|done].
Qed.

Lemma counterpart_cons r remote l :
  counterpart (r :: remote) l = if decide (ident r = ident l) then Some r else counterpart remote l.
Proof.
  unfold counterpart. cbn [list_find]. case_decide; [done|]. rewrite <-option_fmap_compose. done.
Qed.

Lemma counterpart_None remote l : ident l ∉ ident <$> remote → counterpart remote l = None.
Proof.
  induction remote as [|r remote IH]; [done|]. cbn [fmap list_fmap]. intros [Hne Hn]%not_elem_of_cons.
  rewrite counterpart_cons, decide_False by congruence. auto.
Qed.

(** The outcome of the loop over [remote] from a result [base ++ tail]. *)
Definition loop_outcome (peer : string) (local base tail : list A) (rt : gmap string string) (remote res : list A)
    (rt' : gmap string string) : Prop :=
  res = (merged_with remote <$> base) ++ tail ++ (added <$> filter (λ r, ident r ∉ ident <$> local) remote) ∧
  ∀ id, rt' !! id = if bool_decide (id ∈ ident <$> remote ∧ (route_merged = true ∨ id ∉ ident <$> local))
                    then Some peer else rt !! id.

Lemma routed_cons (local remote : list A) r id :
  id ≠ ident r →
  bool_decide (id ∈ ident <$> r :: remote ∧ (route_merged = true ∨ id ∉ ident <$> local)) =
  bool_decide (id ∈ ident <$> remote ∧ (route_merged = true ∨ id ∉ ident <$> local)).
Proof. intros Hne. apply bool_decide_ext. rewrite fmap_cons, elem_of_cons. naive_solver. Qed.

Lemma merge_existing peer local base tail rt r remote j b res rt' :
  NoDup (ident <$> local) → ident r ∉ ident <$> remote → ident <$> base = ident <$> local →
  base !! j = Some b → ident b = ident r →
  loop_outcome peer local (alter (λ m, combine m r) j base) tail
    (if route_merged then <[ident r := peer]> rt else rt) remote res rt' →
  loop_outcome peer local base tail rt (r :: remote) res rt'.
Proof.
  intros Hnd Hr Hbase Hb Hbr [-> Hrt].
  assert (ident r ∈ ident <$> local) as Hin.
  { rewrite <-Hbase, <-Hbr. eapply list_elem_of_fmap_2, list_elem_of_lookup_2, Hb. }
  split.
  - rewrite filter_cons, decide_False by naive_solver. f_equal. apply list_eq. intros k.
    rewrite !list_lookup_fmap. destruct (decide (k = j)) as [->|Hk].
    + rewrite list_lookup_alter_eq, Hb. cbn. f_equal. unfold merged_with.
      rewrite counterpart_cons, decide_True by done. rewrite counterpart_None; [done|].
      by rewrite combine_ident, Hbr.
    + rewrite list_lookup_alter_ne by done. destruct (base !! k) as [y|] eqn:Hy; [|done]. cbn. f_equal.
      unfold merged_with. rewrite counterpart_cons, decide_False; [done|]. intros Heq. destruct Hk.
      eapply (NoDup_lookup (ident <$> base)); [by rewrite Hbase| |]; rewrite list_lookup_fmap; [by rewrite Hy|].
      rewrite Hb. cbn. congruence.
  - intros id. rewrite Hrt. destruct (decide (id = ident r)) as [->|Hne].
    + rewrite (bool_decide_eq_false_2 (_ ∈ ident <$> remote ∧ _)) by naive_solver. rewrite fmap_cons.
      destruct route_merged; [|rewrite bool_decide_eq_false_2 by naive_solver; done].
      rewrite bool_decide_eq_true_2 by (split; [left|by left]). by rewrite lookup_insert_eq.
    + rewrite routed_cons by done. destruct route_merged; [by rewrite lookup_insert_ne|done].
Qed.

Lemma merge_new peer local base tail rt r remote res rt' :
  ident r ∉ ident <$> remote → ident <$> base = ident <$> local → ident r ∉ ident <$> local →
  loop_outcome peer local base (tail ++ [added r]) (<[ident r := peer]> rt) remote res rt' →
  loop_outcome peer local base tail rt (r :: remote) res rt'.
Proof.
  intros Hr Hbase Hn [-> Hrt]. split.
  - rewrite filter_cons, decide_True by done. rewrite fmap_cons, <-app_assoc. f_equal.
    apply list_fmap_ext. intros k y Hy. unfold merged_with. rewrite counterpart_cons, decide_False; [done|].
    intros Heq. destruct Hn. rewrite <-Hbase, Heq. eapply list_elem_of_fmap_2, list_elem_of_lookup_2, Hy.
  - intros id. rewrite Hrt. destruct (decide (id = ident r)) as [->|Hne].
    + rewrite lookup_insert_eq. rewrite (bool_decide_eq_true_2 (_ ∈ ident <$> r :: remote ∧ _)) by (split; [left|by right]).
      by destruct (bool_decide _).
    + by rewrite routed_cons, lookup_insert_ne by done.
Qed.

Lemma merge_fold peer local base tail rt remote :
  NoDup (ident <$> local) → NoDup (ident <$> remote) → ident <$> base = ident <$> local →
  let '(res, rt') := foldl (merge_step ident combine added route_merged peer (local_index ident 0 local))
                       (base ++ tail, rt) remote in
  loop_outcome peer local base tail rt remote res rt'.
Proof.
  intros Hnd Hrem. revert base tail rt. induction remote as [|r remote IH]; intros base tail rt Hbase; cbn [foldl].
  { split; [|done]. rewrite app_nil_r. f_equal. rewrite <-(list_fmap_id base) at 1. done. }
  rewrite fmap_cons in Hrem. apply NoDup_cons in Hrem as [Hr Hrem]. unfold merge_step at 2. cbn [fst snd].
  destruct (local_index ident 0 local !! ident r) as [i|] eqn:Hi.
  - apply local_index_spec in Hi as (j & x & -> & Hj & Hx); [|done]. cbn [Nat.add].
    assert ((ident <$> base) !! j = Some (ident r)) as Hbj by by rewrite Hbase, list_lookup_fmap, Hj; cbn; rewrite Hx.
    rewrite list_lookup_fmap in Hbj. apply fmap_Some in Hbj as (b & Hb & Heq).
    rewrite alter_app_l by by eapply lookup_lt_Some.
    specialize (IH Hrem (alter (λ m, combine m r) j base) tail (if route_merged then <[ident r:=peer]> rt else rt)).
    destruct (foldl _ _ remote) as [res rt']. eapply merge_existing; [done..|]. apply IH.
    rewrite <-Hbase. apply list_eq. intros k. rewrite !list_lookup_fmap.
    destruct (decide (k = j)) as [->|Hk]; [|by rewrite list_lookup_alter_ne].
    rewrite list_lookup_alter_eq, Hb. cbn. by rewrite combine_ident.
  - assert (ident r ∉ ident <$> local) as Hn.
    { intros (x & Hx & Hin)%list_elem_of_fmap. apply list_elem_of_lookup in Hin as [j Hj].
      apply eq_None_not_Some in Hi. destruct Hi. exists j. apply local_index_spec; [done|]. by exists j, x. }
    rewrite <-app_assoc. specialize (IH Hrem base (tail ++ [added r]) (<[ident r:=peer]> rt) Hbase).
    destruct (foldl _ _ remote) as [res rt']. by eapply merge_new.
Qed.

(** With distinct ids on both sides, each local entity is combined with its
    remote counterpart in place, the other remote ones follow in order, and the
    routing table gains the right entries. *)
Lemma merge_by_id_spec peer local remote rt :
  NoDup (ident <$> local) → NoDup (ident <$> remote) →
  let '(res, rt') := merge_by_id ident combine added route_merged peer local remote rt in
  loop_outcome peer local local [] rt remote res rt'.
Proof.
  intros Hl Hr. unfold merge_by_id. pose proof (merge_fold peer local local [] rt remote Hl Hr eq_refl) as H.
  by rewrite app_nil_r in H.
Qed.

Lemma outcome_idents peer local rt remote res rt' :
  (∀ r, ident (added r) = ident r) → loop_outcome peer local local [] rt remote res rt' →
  ident <$> res = (ident <$> local) ++ filter (λ id, id ∉ ident <$> local) (ident <$> remote).
Proof.
  intros Hadd [-> _]. cbn [app]. rewrite fmap_app. f_equal.
  - rewrite <-list_fmap_compose. apply list_fmap_ext. intros i x _. cbn. unfold merged_with.
    destruct (counterpart remote x); [by rewrite combine_ident|done].
  - clear rt rt'. induction remote as [|r remote IH]; [done|]. rewrite fmap_cons, !filter_cons.
    case_decide; cbn; [by rewrite Hadd, IH|done].
Qed.

Lemma outcome_NoDup peer local rt remote res rt' :
  (∀ r, ident (added r) = ident r) → NoDup (ident <$> local) → NoDup (ident <$> remote) →
  loop_outcome peer local local [] rt remote res rt' → NoDup (ident <$> res).
Proof.
  intros Hadd Hl Hr Ho. erewrite outcome_idents by done. apply NoDup_app. split_and!; [done| |by apply NoDup_filter].
  intros x Hx [Hn _]%list_elem_of_filter. done.
Qed.
End ById.

(** ** Components *)

Lemma stamp_one_value source i key value s : slot_value s (stamp_one source i key value) = slot_value s i.
Proof. unfold stamp_one. destruct (_ && _); [|done]. by destruct s as [[]|]. Qed.

Lemma stamp_value i source s : slot_value s (stamp_identity_provenance i source) = slot_value s i.
Proof.
  unfold stamp_identity_provenance. destruct (source =?ₛ ""); [done|].
  apply (foldl_preserves (λ j, slot_value s j = slot_value s i)).
  { intros j kv Hj. by rewrite stamp_one_value. }
  apply (foldl_preserves (λ j, slot_value s j = slot_value s i)); [|done].
  intros j kf Hj. by rewrite stamp_one_value.
Qed.

Lemma source_rank_unlisted name precedence :
  name ∉ precedence → source_rank name precedence = length precedence.
Proof.
  induction precedence as [|p precedence IH]; [done|]. intros [Hne Hn]%not_elem_of_cons. cbn [source_rank].
  rewrite (proj2 (str_eqb_neq p name)) by congruence. cbn. by rewrite IH.
Qed.

Lemma peer_unlisted peer : peer_source peer ∉ default_precedence.
Proof.
  unfold peer_source, default_precedence. intros H.
  repeat (apply elem_of_cons in H as [H|H]; [discriminate H|]). by apply not_elem_of_nil in H.
Qed.

Section Peers.
Context {Rest : Type}.
Implicit Types (local remote : list (Component Rest)) (rt : gmap string string).

(** A nameplate with its own values and, where it has none, those of another. *)
Definition gaps_filled (own other result : AssetIdentity) : Prop :=
  ∀ s, slot_value s result = if decide (slot_value s own = "") then slot_value s other else slot_value s own.

(** Every component of the peer is routed to it, and no other id. *)
Lemma merge_components_routes peer local remote rt id :
  NoDup (co_id <$> local) → NoDup (co_id <$> remote) →
  (merge_components peer local remote rt).2 !! id =
    if bool_decide (id ∈ co_id <$> remote) then Some peer else rt !! id.
Proof.
  intros Hl Hr. unfold merge_components.
  pose proof (merge_by_id_spec co_id (combine_component peer) (added_component peer) true
    (λ _ _, eq_refl) peer local remote rt Hl Hr) as Ho.
  destruct (merge_by_id _ _ _ _ _ _ _ _) as [res rt']. destruct Ho as [_ ->].
  erewrite bool_decide_ext; [done|]. naive_solver.
Qed.

(** C36: Merging a peer's components leaves one entity per id, local ones in place and
    the others behind them; a component known on both sides keeps every nameplate
    value the local side has, takes the missing ones from the peer, and carries
    the tags of both; and every component the peer offers, known locally or not,
    is routed to it, and no other id. *)
Theorem merged_components_spec peer local remote rt :
  NoDup (co_id <$> local) → NoDup (co_id <$> remote) →
  let '(res, rt') := merge_components peer local remote rt in
  co_id <$> res = (co_id <$> local) ++ filter (λ id, id ∉ co_id <$> local) (co_id <$> remote) ∧
  NoDup (co_id <$> res) ∧
  (∀ i l r, local !! i = Some l → r ∈ remote → co_id r = co_id l →
     ∃ m, res !! i = Some m ∧
       gaps_filled (co_identity l) (co_identity r) (co_identity m) ∧
       ∀ tag, tag ∈ co_tags m ↔ tag ∈ co_tags l ∨ tag ∈ co_tags r) ∧
  ∀ id, rt' !! id = if bool_decide (id ∈ co_id <$> remote) then Some peer else rt !! id.
Proof.
  intros Hl Hr. pose proof (λ id, merge_components_routes peer local remote rt id Hl Hr) as Hroutes.
  unfold merge_components in *.
  pose proof (merge_by_id_spec co_id (combine_component peer) (added_component peer) true
    (λ _ _, eq_refl) peer local remote rt Hl Hr) as Ho.
  destruct (merge_by_id _ _ _ _ _ _ _ _) as [res rt'].
  split_and!; [eapply outcome_idents; [| |exact Ho]; done|eapply outcome_NoDup; [| | | |exact Ho]; done| |].
  - intros i l r Hi Hrin Hid. destruct Ho as [-> _]. exists (combine_component peer l r). split_and!.
    + rewrite lookup_app_l by (rewrite length_fmap; by eapply lookup_lt_Some).
      rewrite list_lookup_fmap, Hi. cbn. f_equal. unfold merged_with, counterpart.
      destruct (list_find (λ r, co_id r = co_id l) remote) as [[k r']|] eqn:Hf.
      * apply list_find_Some in Hf as (Hk & Hid' & _). cbn. f_equal.
        eapply (NoDup_fmap_elem co_id); [exact Hr|by eapply list_elem_of_lookup_2|done|congruence].
      * apply list_find_None in Hf. rewrite Forall_forall in Hf. by destruct (Hf r Hrin).
    + intros s. cbn [combine_component co_identity].
      destruct (merge_identity_slot default_precedence (stamp_identity_provenance (co_identity l) (co_source l))
        (co_identity r) (peer_source peer) s) as [Hv _].
      rewrite Hv. unfold takes, incoming_wins. rewrite stamp_value.
      destruct (decide (slot_value s (co_identity l) = "")) as [->|Hne].
      * destruct (str_eqb_spec (slot_value s (co_identity r)) "") as [->|]; done.
      * rewrite (proj2 (str_eqb_neq _ "") Hne). cbn [negb].
        rewrite (proj2 (Nat.ltb_ge _ _)); [by rewrite andb_false_r|].
        rewrite (source_rank_unlisted (peer_source peer)) by apply peer_unlisted.
        destruct (slot_owner _ _ =?ₛ ""); [done|apply source_rank_le].
    + intros tag. apply elem_of_merge_unique.
  - exact Hroutes.
Qed.

(** ** Apps *)

(** No prefixed id is taken. *)
Definition prefixes_free (peer : string) (local remote : list (App Rest)) : Prop :=
  ∀ id, id ∈ ap_id <$> remote → id ∈ ap_id <$> local →
    prefix_id peer id ∉ ap_id <$> local ∧ prefix_id peer id ∉ ap_id <$> remote.

Lemma merge_apps_fold peer (ids : gset string) (remote res : list (App Rest)) rt :
  let '(res', rt') := foldl (λ acc r, let a := added_app peer ids r in (acc.1 ++ [a], <[ap_id a := peer]> acc.2))
                        (res, rt) remote in
  res' = res ++ (added_app peer ids <$> remote) ∧
  ∀ id, rt' !! id = if bool_decide (id ∈ ap_id <$> (added_app peer ids <$> remote)) then Some peer else rt !! id.
Proof.
  revert res rt. induction remote as [|r remote IH]; intros res rt; cbn [foldl].
  { cbn. by rewrite app_nil_r. }
  specialize (IH (res ++ [added_app peer ids r]) (<[ap_id (added_app peer ids r) := peer]> rt)).
  cbn zeta. cbn [fst snd]. destruct (foldl _ _ remote) as [res' rt']. destruct IH as [-> Hrt].
  rewrite <-app_assoc. split; [done|]. intros id. rewrite Hrt, !fmap_cons.
  destruct (decide (id = ap_id (added_app peer ids r))) as [->|Hne].
  - rewrite lookup_insert_eq, (bool_decide_eq_true_2 (_ ∈ _ :: _)) by left. by destruct (bool_decide _).
  - rewrite lookup_insert_ne by done. erewrite (bool_decide_ext (_ ∈ _ :: _)); [done|].
    rewrite elem_of_cons. naive_solver.
Qed.

Definition final_id (peer : string) (local : list (App Rest)) (id : string) : string :=
  if decide (id ∈ ap_id <$> local) then prefix_id peer id else id.

Lemma added_app_id peer (local : list (App Rest)) (r : App Rest) :
  ap_id (added_app peer (list_to_set (ap_id <$> local)) r) = final_id peer local (ap_id r).
Proof.
  unfold added_app, final_id. case_bool_decide as Hin; rewrite elem_of_list_to_set in Hin.
  - by rewrite decide_True.
  - by rewrite decide_False.
Qed.

#[global] Instance prefix_id_inj peer : Inj (=) (=) (prefix_id peer).
Proof. intros x y Heq. unfold prefix_id in Heq. by do 2 apply (inj (String.append _)) in Heq. Qed.

(** Merging a peer's apps keeps the local ones and appends the peer's, renamed
    exactly when the id is taken; as long as nobody already carries a prefixed
    id, ids stay unique, the peer's apps are routed to it under their final ids,
    and no local app is. *)
Theorem merged_apps_spec peer (local remote : list (App Rest)) rt :
  NoDup (ap_id <$> local) → NoDup (ap_id <$> remote) → prefixes_free peer local remote →
  let '(res, rt') := merge_apps peer local remote rt in
  take (length local) res = local ∧
  ap_id <$> res = (ap_id <$> local) ++ (final_id peer local ∘ ap_id <$> remote) ∧
  NoDup (ap_id <$> res) ∧
  (∀ id, id ∈ ap_id <$> remote → rt' !! final_id peer local id = Some peer) ∧
  (∀ id, id ∈ ap_id <$> local → rt' !! id = rt !! id).
Proof.
  intros Hl Hr Hfree. unfold merge_apps.
  pose proof (merge_apps_fold peer (list_to_set (ap_id <$> local)) remote local rt) as Hm.
  destruct (foldl _ _ remote) as [res rt']. destruct Hm as [-> Hrt].
  assert (ap_id <$> (added_app peer (list_to_set (ap_id <$> local)) <$> remote) =
    final_id peer local ∘ ap_id <$> remote) as Hids.
  { rewrite <-list_fmap_compose. apply list_fmap_ext. intros i r _. apply added_app_id. }
  assert (∀ id, id ∈ ap_id <$> remote → final_id peer local id ∉ ap_id <$> local) as Hfresh.
  { intros id Hid. unfold final_id. case_decide; [by apply Hfree|done]. }
  split_and!.
  - by rewrite take_app_length.
  - by rewrite fmap_app, Hids.
  - rewrite fmap_app, Hids. apply NoDup_app. split_and!; [done| |].
    + intros id Hid (r & -> & Hrin)%list_elem_of_fmap. eapply Hfresh, Hid. by apply list_elem_of_fmap_2.
    + rewrite list_fmap_compose. apply NoDup_fmap_2_strong; [|done].
      intros x y Hx Hy. unfold final_id. case_decide; case_decide; [apply (inj _)|..|done].
      * intros <-. by destruct (Hfree x).
      * intros ->. by destruct (Hfree y).
  - intros id Hid. rewrite Hrt, Hids, bool_decide_eq_true_2; [done|]. rewrite list_fmap_compose.
    by apply list_elem_of_fmap_2.
  - intros id Hid. rewrite Hrt, Hids, bool_decide_eq_false_2; [done|].
    rewrite list_fmap_compose. intros (x & -> & Hx)%list_elem_of_fmap. by eapply Hfresh.
Qed.

(** ** Function hosts *)

Lemma after_separator_prefix peer id :
  after_separator (peer +:+ "_") = None → after_separator (prefix_id peer id) = Some id.
Proof.
  unfold prefix_id, SEPARATOR. induction peer as [|a peer IH]; [done|]. intros Hp.
  change (after_separator (String a (peer +:+ "__" +:+ id)) = Some id).
  change (after_separator (String a (peer +:+ "_")) = None) in Hp.
  destruct peer as [|b peer].
  - cbn in *. destruct (bool_decide (a = "_"%char)); [done|]. done.
  - change (String b peer +:+ ?t) with (String b (peer +:+ t)) in *.
    cbn [after_separator] in Hp |- *. destruct (bool_decide _ && bool_decide _); [done|]. by apply IH.
Qed.

Lemma app_id_remap_lookup (routed : list string) h id :
  (∀ x y, x ∈ routed → y ∈ routed → after_separator x = Some h → after_separator y = Some h → x = y) →
  app_id_remap routed !! h = Some id ↔ id ∈ routed ∧ after_separator id = Some h.
Proof.
  unfold app_id_remap. induction routed as [|x routed IH] using rev_ind; intros Huniq.
  { cbn. rewrite lookup_empty, elem_of_nil. naive_solver. }
  rewrite foldl_app, elem_of_app, list_elem_of_singleton. cbn [foldl].
  assert (∀ u v, u ∈ routed → v ∈ routed → after_separator u = Some h → after_separator v = Some h → u = v) as Hu.
  { intros u v Hu Hv. apply Huniq; apply elem_of_app; by left. }
  specialize (IH Hu). destruct (after_separator x) as [o|] eqn:Hx; [|rewrite IH; naive_solver].
  destruct (decide (o = h)) as [->|Hne].
  - rewrite lookup_insert_eq. split; [naive_solver|]. intros [[Hin| ->] Hid]; [|done]. f_equal.
    symmetry. apply Huniq; rewrite ?elem_of_app, ?list_elem_of_singleton; auto.
  - rewrite lookup_insert_ne by done. rewrite IH. naive_solver.
Qed.

(** The routing table of one merger when the hosts are remapped. *)
Definition routes_before_functions (mg : Merged Rest) (p : PeerEntities Rest) : gmap string string :=
  let rt := (merge_areas (pe_name p) (mg_areas mg) (pe_areas p) ∅).2 in
  let rt := (merge_components (pe_name p) (mg_components mg) (pe_components p) rt).2 in
  (merge_apps (pe_name p) (mg_apps mg) (pe_apps p) rt).2.

Lemma routed_ids (mg : Merged Rest) (p : PeerEntities Rest) id :
  NoDup (ar_id <$> mg_areas mg) → NoDup (ar_id <$> pe_areas p) →
  NoDup (co_id <$> mg_components mg) → NoDup (co_id <$> pe_components p) →
  is_Some (routes_before_functions mg p !! id) ↔
    id ∈ (final_id (pe_name p) (mg_apps mg) ∘ ap_id <$> pe_apps p) ∨ id ∈ co_id <$> pe_components p ∨
    (id ∈ ar_id <$> pe_areas p ∧ id ∉ ar_id <$> mg_areas mg).
Proof.
  intros Ha Ha' Hc Hc'. unfold routes_before_functions, merge_apps.
  set (rt2 := (merge_components _ _ _ _).2).
  pose proof (merge_apps_fold (pe_name p) (list_to_set (ap_id <$> mg_apps mg)) (pe_apps p) (mg_apps mg) rt2) as Hm.
  destruct (foldl _ _ (pe_apps p)) as [apps rt3]. destruct Hm as [_ ->].
  assert (ap_id <$> (added_app (pe_name p) (list_to_set (ap_id <$> mg_apps mg)) <$> pe_apps p) =
    final_id (pe_name p) (mg_apps mg) ∘ ap_id <$> pe_apps p) as ->.
  { rewrite <-list_fmap_compose. apply list_fmap_ext. intros i r _. apply added_app_id. }
  assert (is_Some (rt2 !! id) ↔ id ∈ co_id <$> pe_components p ∨
    (id ∈ ar_id <$> pe_areas p ∧ id ∉ ar_id <$> mg_areas mg)) as Hrt2.
  { unfold rt2. rewrite merge_components_routes by done.
    unfold merge_areas. pose proof (merge_by_id_spec ar_id (combine_area (pe_name p)) (added_area (pe_name p)) false
      (λ _ _, eq_refl) (pe_name p) (mg_areas mg) (pe_areas p) ∅ Ha Ha') as Harea.
    destruct (merge_by_id _ _ _ _ _ _ _ _) as [areas rt1]. destruct Harea as [_ Hrt1]. cbn [snd].
    case_bool_decide; [split; [auto|by eexists]|]. rewrite Hrt1, lookup_empty.
    case_bool_decide; [split; [naive_solver|by eexists]|]. rewrite is_Some_alt. naive_solver. }
  case_bool_decide; [split; [auto|by eexists]|]. rewrite Hrt2. tauto.
Qed.

(** Remapping the hosts of a peer's functions follows its apps to their final
    ids, and touches no other host, provided separators occur only where a
    collision put them: the peer's name has none (nor ends in an underscore) and
    neither has any id the peer announces. *)
Theorem host_remap_exact (mg : Merged Rest) (p : PeerEntities Rest) (routed : list string) (h : string) :
  NoDup (ar_id <$> mg_areas mg) → NoDup (ar_id <$> pe_areas p) →
  NoDup (co_id <$> mg_components mg) → NoDup (co_id <$> pe_components p) →
  after_separator (pe_name p +:+ "_") = None →
  (∀ id, id ∈ (ar_id <$> pe_areas p) ++ (co_id <$> pe_components p) ++ (ap_id <$> pe_apps p) →
     after_separator id = None) →
  routed ≡ₚ (map_to_list (routes_before_functions mg p)).*1 →
  default h (app_id_remap routed !! h) =
    if decide (h ∈ ap_id <$> pe_apps p) then final_id (pe_name p) (mg_apps mg) h else h.
Proof.
  intros Ha Ha' Hc Hc' Hclean Hplain Hrouted.
  assert (∀ id, id ∈ routed ↔ is_Some (routes_before_functions mg p !! id)) as Hin.
  { intros id. rewrite Hrouted, list_elem_of_fmap. split.
    - intros ([k v] & -> & Hkv%elem_of_map_to_list). by exists v.
    - intros [v Hv]. exists (id, v). split; [done|]. by apply elem_of_map_to_list. }
  assert (∀ id o, id ∈ routed → after_separator id = Some o →
    o ∈ ap_id <$> pe_apps p ∧ o ∈ ap_id <$> mg_apps mg ∧ id = prefix_id (pe_name p) o) as Hsep.
  { intros id o Hid Ho. apply Hin, routed_ids in Hid; [|done..].
    assert (∀ x, x ∈ (ar_id <$> pe_areas p) ++ (co_id <$> pe_components p) ++ (ap_id <$> pe_apps p) → x ≠ id) as Hne.
    { intros x Hx ->. rewrite Hplain in Ho; done. }
    destruct Hid as [(r & Hid & Hr)%list_elem_of_fmap|[Hid|[Hid _]]].
    - apply list_elem_of_fmap_2 with (f := ap_id) in Hr. cbn in Hid. unfold final_id in Hid.
      case_decide; [|by destruct (Hne (ap_id r)); [rewrite !elem_of_app; auto|]].
      rewrite Hid, after_separator_prefix in Ho by done. by injection Ho as <-.
    - destruct (Hne id); [rewrite !elem_of_app; auto|done].
    - destruct (Hne id); [rewrite !elem_of_app; auto|done]. }
  assert (∀ id, app_id_remap routed !! h = Some id ↔ id ∈ routed ∧ after_separator id = Some h) as Hlook.
  { intros id. apply app_id_remap_lookup. intros x y Hx Hy Hox Hoy.
    destruct (Hsep x h Hx Hox) as (_ & _ & ->). by destruct (Hsep y h Hy Hoy) as (_ & _ & ->). }
  destruct (app_id_remap routed !! h) as [id|] eqn:Hid; cbn.
  - destruct (proj1 (Hlook id) eq_refl) as [Hidr Ho]. destruct (Hsep id h Hidr Ho) as (H1 & H2 & ->).
    unfold final_id. by rewrite !decide_True.
  - case_decide as Hap; [|done]. unfold final_id. case_decide as Hloc; [|done].
    assert (None = Some (prefix_id (pe_name p) h)) as Hbad; [|done]. apply Hlook.
    split; [|by apply after_separator_prefix]. apply Hin, routed_ids; [done..|]. left.
    apply list_elem_of_fmap in Hap as (r & -> & Hr). apply list_elem_of_fmap. exists r. split; [|done].
    cbn. unfold final_id. by rewrite decide_True.
Qed.
End Peers.

(** ** Ids that collide by accident *)

Definition plain_app (id : string) : App unit := mkApp id id "runtime" "" [] ().

(** Without that proviso the remap sends a host elsewhere: a peer with the apps
    "camera" and "left__camera", neither of them renamed, and a function hosted by
    "camera". *)
Theorem host_remap_misled :
  let local := mkMergedEntities [] [] [] [] ∅ in
  let peer := mkPeer "b" [] [] [plain_app "camera"; plain_app "left__camera"]
                [mkFunction "see" ["camera"] [] "runtime" [] ()] in
  let merged := merge_peer (λ rt, (map_to_list rt).*1) local peer in
  (fn_hosts <$> mg_functions merged) = [["left__camera"]] ∧
  ap_id <$> mg_apps merged = ["camera"; "left__camera"].
Proof. vm_compute. done. Qed.

(** The routing table does not tell kinds apart: an area that only a peer has
    routes the local app of the same name to that peer. *)
Theorem routing_ignores_kind :
  let local := mkMergedEntities [] [] [plain_app "arm"] [] ∅ in
  let peer := mkPeer "b" [mkArea "arm" [] "" "runtime" [] ()] [] [] [] in
  ∃ merged ws, merge_peers (λ rt, (map_to_list rt).*1) [] local [peer] = Some (merged, ws) ∧
    mg_apps merged = mg_apps local ∧ find_peer_for_entity merged "arm" = Some "b".
Proof. eexists _, _. split; [vm_compute; reflexivity|]. by vm_compute. Qed.
