(* ===== verification/LruCache.v ===== *)
(** * The bounded cache

    [BoundedLruCache] (core/util/bounded_lru_cache.hpp) with string keys: entries
    carry the value of an access counter, and an insertion over capacity evicts
    the entry with the smallest one.  It implements the list of entries in order
    of their last use. *)

From S2P Require Import Prelude.

Definition uint64_mod : N := 18446744073709551616.

Section LruCache.
Context {V : Type}.

Record BoundedLruCache := mkLru {
  lru_max_size : nat;
  lru_counter : N;                              (* uint64_t *)
  lru_entries : gmap string (V * N);            (* value, stamp *)
  lru_evicted : list (string * V);              (* calls of [on_evict_], oldest first *)
}.

Definition new_lru (max_size : nat) : BoundedLruCache :=
  mkLru (if max_size =? 0 then 1 else max_size) 0 ∅ [].

Definition next_stamp (c : BoundedLruCache) : N := ((lru_counter c + 1) `mod` uint64_mod)%N.

Definition lru_find (key : string) (c : BoundedLruCache) : option V * BoundedLruCache :=
  match lru_entries c !! key with
  | None => (None, c)
  | Some (v, _) =>
      (Some v, mkLru (lru_max_size c) (next_stamp c) (<[key := (v, next_stamp c)]> (lru_entries c)) (lru_evicted c))
  end.

Definition lru_contains (key : string) (c : BoundedLruCache) : bool :=
  bool_decide (is_Some (lru_entries c !! key)).

(** The loop of [evict_lru] from the first entry on. *)
Definition older (victim e : string * (V * N)) : string * (V * N) :=
  if (e.2.2 <? victim.2.2)%N then e else victim.

Definition evict_lru (c : BoundedLruCache) : BoundedLruCache :=
  match map_entries (lru_entries c) with
  | [] => c
  | e :: es =>
      let victim := foldl older e es in
      mkLru (lru_max_size c) (lru_counter c) (delete victim.1 (lru_entries c))
        (lru_evicted c ++ [(victim.1, victim.2.1)])
  end.

Definition lru_put (key : string) (value : V) (c : BoundedLruCache) : BoundedLruCache :=
  let c := mkLru (lru_max_size c) (next_stamp c) (<[key := (value, next_stamp c)]> (lru_entries c)) (lru_evicted c) in
  if lru_max_size c <? size (lru_entries c) then evict_lru c else c.

Definition lru_clear (c : BoundedLruCache) : BoundedLruCache :=
  mkLru (lru_max_size c) (lru_counter c) ∅ (lru_evicted c).

(** ** The list of entries by recency *)

(** Least recently used first. *)
Definition use (key : string) (value : V) (l : list (string * V)) : list (string * V) :=
  filter (λ e, e.1 ≠ key) l ++ [(key, value)].

Fixpoint assoc (key : string) (l : list (string * V)) : option V :=
  match l with
  | [] => None
  | (k, v) :: l' => if k =?ₛ key then Some v else assoc key l'
  end.

Inductive lru_op := OpFind (key : string) | OpPut (key : string) (value : V) | OpClear.

(** The abstract cache: the entries and the evicted ones. *)
Definition spec_op (max : nat) (op : lru_op) (s : list (string * V) * list (string * V))
    : option V * (list (string * V) * list (string * V)) :=
  let '(l, ev) := s in
  match op with
  | OpFind k => match assoc k l with Some v => (Some v, (use k v l, ev)) | None => (None, (l, ev)) end
  | OpPut k v =>
      let l := use k v l in
      (None, if max <? length l then (tail l, ev ++ take 1 l) else (l, ev))
  | OpClear => (None, ([], ev))
  end.

Definition lru_op_run (op : lru_op) (c : BoundedLruCache) : option V * BoundedLruCache :=
  match op with
  | OpFind k => lru_find k c
  | OpPut k v => (None, lru_put k v c)
  | OpClear => (None, lru_clear c)
  end.

Fixpoint run {S} (f : lru_op → S → option V * S) (ops : list lru_op) (s : S) : list (option V) * S :=
  match ops with
  | [] => ([], s)
  | op :: ops' => let '(r, s) := f op s in let '(rs, s) := run f ops' s in (r :: rs, s)
  end.

(** ** Refinement *)

Definition stamp_lt (x y : string * (V * N)) : Prop := (x.2.2 < y.2.2)%N.
Definition forget (e : string * (V * N)) : string * V := (e.1, e.2.1).

(** The entries listed by stamp. *)
Record stamped (c : BoundedLruCache) (ls : list (string * (V * N))) : Prop := {
  sd_keys : NoDup ls.*1;
  sd_entries : ∀ k x, (k, x) ∈ ls ↔ lru_entries c !! k = Some x;
  sd_sorted : StronglySorted stamp_lt ls;
  sd_counter : Forall (λ e, e.2.2 ≤ lru_counter c)%N ls;
}.

Definition lru_rel (c : BoundedLruCache) (s : list (string * V) * list (string * V)) : Prop :=
  ∃ ls, stamped c ls ∧ s = (forget <$> ls, lru_evicted c) ∧ 1 ≤ lru_max_size c ∧ length ls ≤ lru_max_size c.

Lemma assoc_forget c ls k : stamped c ls → assoc k (forget <$> ls) = fst <$> lru_entries c !! k.
Proof.
  intros [Hk He _ _]. assert (∀ x, (k, x) ∈ ls ↔ lru_entries c !! k = Some x) as Hek by (intros; apply He).
  clear He. revert Hek. induction ls as [|[k' [v s]] ls IH]; intros Hek.
  - destruct (lru_entries c !! k) as [x|] eqn:Hx; [|done]. by destruct (not_elem_of_nil (k, x)); apply Hek.
  - cbn [fmap list_fmap assoc forget fst snd] in *. apply NoDup_cons in Hk as [Hk' Hnd].
    destruct (str_eqb_spec k' k) as [->|Hne].
    + assert (lru_entries c !! k = Some (v, s)) as -> by (apply Hek; left). done.
    + apply IH; [done|]. intros x. rewrite <-Hek, elem_of_cons. naive_solver.
Qed.

Lemma StronglySorted_snoc {A} (R : A → A → Prop) l x :
  StronglySorted R l → Forall (λ y, R y x) l → StronglySorted R (l ++ [x]).
Proof.
  induction 1 as [|y l Hl IH Hy]; cbn; [by repeat constructor|]. intros [Hyx Hlx]%Forall_cons.
  constructor; [auto|]. apply Forall_app. split; [done|]. by apply Forall_singleton.
Qed.

(** Touching a key moves it to the end. *)
Lemma stamped_use c ls k v m ev :
  stamped c ls → (lru_counter c + 1 < uint64_mod)%N →
  stamped (mkLru m (next_stamp c) (<[k := (v, next_stamp c)]> (lru_entries c)) ev)
    (filter (λ e, e.1 ≠ k) ls ++ [(k, (v, next_stamp c))]).
Proof.
  intros [Hk He Hs Hc] Hn. assert (next_stamp c = lru_counter c + 1)%N as -> by by apply N.mod_small.
  split; cbn [lru_entries lru_counter].
  - rewrite fmap_app. apply NoDup_app. split_and!; [|intros x|apply NoDup_singleton].
    + eapply sublist_NoDup; [exact Hk|]. apply fmap_sublist, sublist_filter.
    + intros (e & -> & [Hne _]%list_elem_of_filter)%list_elem_of_fmap ?%list_elem_of_singleton. done.
  - intros k' x. rewrite elem_of_app, list_elem_of_filter, list_elem_of_singleton, lookup_insert_Some, He. naive_solver.
  - apply StronglySorted_snoc; [by apply StronglySorted_filter|]. apply Forall_forall.
    intros e [_ He']%list_elem_of_filter. rewrite Forall_forall in Hc. specialize (Hc e He').
    unfold stamp_lt. cbn. lia.
  - apply Forall_app. split; [|apply Forall_singleton; cbn; lia]. apply Forall_forall.
    intros e [_ He']%list_elem_of_filter. rewrite Forall_forall in Hc. specialize (Hc e He'). lia.
Qed.

Lemma forget_use k v x ls :
  forget <$> (filter (λ e, e.1 ≠ k) ls ++ [(k, (v, x))]) = use k v (forget <$> ls).
Proof.
  unfold use. rewrite fmap_app. f_equal. induction ls as [|e ls IH]; [done|].
  rewrite fmap_cons, !filter_cons. cbn. case_decide; by rewrite <-?IH.
Qed.

(** The loop of [evict_lru] finds the entry with the smallest stamp. *)
Lemma oldest_min es e : foldl older e es ∈ e :: es ∧ Forall (λ x, (foldl older e es).2.2 ≤ x.2.2)%N (e :: es).
Proof.
  revert e. induction es as [|x es IH]; intros e; cbn [foldl]; [split; [left|by repeat constructor]|].
  destruct (IH (older e x)) as [Hin Hmin]. apply Forall_cons in Hmin as [Ho Hmin].
  assert ((older e x).2.2 ≤ e.2.2 ∧ (older e x).2.2 ≤ x.2.2)%N as [H1 H2].
  { unfold older. destruct (N.ltb_spec x.2.2 e.2.2); lia. }
  split.
  - apply elem_of_cons in Hin as [->|Hin]; [unfold older; destruct (_ <? _)%N; set_solver|set_solver].
  - repeat (apply Forall_cons; split); [lia|lia|done].
Qed.

Lemma evict_head c e ls :
  stamped c (e :: ls) → stamped (evict_lru c) ls ∧ lru_evicted (evict_lru c) = lru_evicted c ++ [forget e] ∧
  lru_max_size (evict_lru c) = lru_max_size c.
Proof.
  intros [Hk He Hs Hc]. unfold evict_lru.
  assert (∀ k x, (k, x) ∈ map_entries (lru_entries c) ↔ (k, x) ∈ e :: ls) as Hall.
  { intros k x. by rewrite elem_of_map_entries, He. }
  destruct (map_entries (lru_entries c)) as [|x es] eqn:Hes.
  { destruct e as [k x]. destruct (not_elem_of_nil (k, x)). apply Hall. left. }
  destruct (oldest_min es x) as [Hin Hmin]. inversion Hs as [|? ? Hs' He']; subst.
  assert (foldl older x es = e) as ->.
  { destruct (foldl older x es) as [k y] eqn:Hv. apply Hall in Hin. apply elem_of_cons in Hin as [->|Hin]; [done|].
    rewrite Forall_forall in He'. specialize (He' _ Hin). unfold stamp_lt in He'. cbn in He'.
    destruct e as [k0 y0]. rewrite Forall_forall in Hmin. specialize (Hmin (k0, y0) ltac:(apply Hall; left)).
    cbn in *. lia. }
  destruct e as [k0 y0]. cbn [fmap list_fmap fst] in Hk. apply NoDup_cons in Hk as [Hk0 Hk].
  split_and!; [|done|done]. split; cbn [lru_entries lru_counter fst]; [done| |done|by apply Forall_cons in Hc as [_ ?]].
  intros k y. rewrite lookup_delete_Some, <-He, elem_of_cons. split.
  - intros Hy. split; [|by right]. intros ->. destruct Hk0. by apply (list_elem_of_fmap_2 fst) in Hy.
  - intros [Hne [[= -> ->]|Hy]]; done.
Qed.

Lemma stamped_length c ls : stamped c ls → size (lru_entries c) = length ls.
Proof.
  intros [Hk He _ _]. rewrite <-length_map_to_list. apply Permutation_length, NoDup_Permutation.
  - apply NoDup_map_to_list.
  - by eapply NoDup_fmap_1.
  - intros [k x]. by rewrite elem_of_map_to_list, He.
Qed.

(** The entries over capacity, of which there is at most one, go. *)
Lemma trim_refines c ls :
  stamped c ls → 1 ≤ lru_max_size c → length ls ≤ S (lru_max_size c) →
  let c' := if lru_max_size c <? size (lru_entries c) then evict_lru c else c in
  let l := forget <$> ls in
  lru_rel c' (if lru_max_size c <? length l then (tail l, lru_evicted c ++ take 1 l) else (l, lru_evicted c)) ∧
  lru_max_size c' = lru_max_size c ∧ lru_counter c' = lru_counter c.
Proof.
  intros Hst Hmax Hlen. cbn zeta. rewrite (stamped_length c ls Hst), length_fmap.
  destruct (Nat.ltb_spec (lru_max_size c) (length ls)) as [Hover|Hfit].
  - destruct ls as [|e ls]; [cbn in Hover; lia|]. destruct (evict_head c e ls Hst) as (Hst' & Hev & Hm).
    split_and!; [|done|unfold evict_lru; by destruct (map_entries _)].
    exists ls. split_and!; [done| |by rewrite Hm|rewrite Hm; cbn in Hlen; lia].
    by rewrite Hev.
  - split_and!; [|done|done]. by exists ls.
Qed.

Lemma lru_op_refines op c s :
  lru_rel c s → (lru_counter c + 1 < uint64_mod)%N →
  (lru_op_run op c).1 = (spec_op (lru_max_size c) op s).1 ∧
  lru_rel (lru_op_run op c).2 (spec_op (lru_max_size c) op s).2 ∧
  lru_max_size (lru_op_run op c).2 = lru_max_size c ∧
  (lru_counter (lru_op_run op c).2 ≤ lru_counter c + 1)%N.
Proof.
  intros (ls & Hst & -> & Hmax & Hlen) Hc.
  assert (next_stamp c = lru_counter c + 1)%N as Hnext by by apply N.mod_small.
  destruct op as [k|k v|]; cbn [lru_op_run spec_op fst snd].
  - rewrite (assoc_forget c ls k Hst). unfold lru_find.
    destruct (lru_entries c !! k) as [[v x]|] eqn:Hk; cbn [fmap option_fmap option_map fst snd].
    + split_and!; [done| |done|cbn; lia].
      exists (filter (λ e, e.1 ≠ k) ls ++ [(k, (v, next_stamp c))]).
      split_and!; [by apply stamped_use|by rewrite forget_use|done|].
      assert ((k, (v, x)) ∈ ls) as Hin by by apply Hst. cbn. rewrite length_app. cbn.
      pose proof (length_filter_lt (λ e : string * (V * N), e.1 ≠ k) ls (k, (v, x)) Hin). naive_solver lia.
    + split_and!; [done| |done|lia]. by exists ls.
  - unfold lru_put. rewrite <-(forget_use k v (next_stamp c)).
    pose proof (stamped_use c ls k v (lru_max_size c) (lru_evicted c) Hst Hc) as Hst'.
    destruct (trim_refines _ _ Hst' Hmax) as (Hrel & Hm & Hcount).
    { rewrite length_app. cbn. pose proof (length_filter (λ e : string * (V * N), e.1 ≠ k) ls). lia. }
    cbn [lru_max_size lru_evicted lru_counter] in *. split_and!; [done|exact Hrel|done|].
    rewrite Hcount, Hnext. lia.
  - split_and!; [done| |done|cbn; lia]. exists []. split_and!; [|done|done|cbn; lia].
    split; [constructor|intros k x; rewrite elem_of_nil; cbn; by rewrite lookup_empty|constructor|constructor].
Qed.

(** Fewer than 2^64 - 1 operations on a new cache give the results, the contents
    and the evictions, in order, of the list that moves what is used to its end
    and drops its head when it outgrows the capacity. *)
Theorem lru_refines_recency max ops :
  (N.of_nat (length ops) + 1 < uint64_mod)%N →
  let c := new_lru max in
  (run lru_op_run ops c).1 = (run (spec_op (lru_max_size c)) ops ([], [])).1 ∧
  lru_rel (run lru_op_run ops c).2 (run (spec_op (lru_max_size c)) ops ([], [])).2.
Proof.
  intros Hops c.
  assert (lru_rel c ([], [])) as Hrel.
  { exists []. unfold c, new_lru. split_and!; [|done| |cbn; lia].
    - split; [constructor|intros k x; rewrite elem_of_nil; cbn; by rewrite lookup_empty|constructor|constructor].
    - cbn. destruct (Nat.eqb_spec max 0); lia. }
  assert (lru_counter c + N.of_nat (length ops) + 1 < uint64_mod)%N as Hcount by done.
  clear Hops. revert Hrel Hcount. generalize (([], []) : list (string * V) * list (string * V)) as s.
  generalize c. clear c max. induction ops as [|op ops IH]; intros c s Hrel Hcount; [done|].
  cbn [length run] in *. destruct (lru_op_refines op c s Hrel) as (Hr & Hrel' & Hm & Hc'); [lia|].
  destruct (lru_op_run op c) as [r c']. destruct (spec_op (lru_max_size c) op s) as [r' s'].
  cbn [fst snd] in *. subst r'. destruct (IH c' s' Hrel') as [H1 H2]; [lia|]. rewrite Hm in *.
  destruct (run lru_op_run ops c') as [rs c2]. destruct (run (spec_op (lru_max_size c)) ops s') as [rs' s2].
  cbn [fst snd] in *. by subst.
Qed.
End LruCache.
