(* ===== verification/AuthPaths.v ===== *)
(** * Path patterns of the access control

    [AuthManager::matches_path] and its twin in
    [ConfigurableAuthRequirementPolicy] turn a pattern into an ECMAScript regular
    expression: ['*'] covers characters of one segment, ['**'] anything.  The
    part of [std::regex] the generated expressions use is modelled here, besides
    what [PatternMatcher.v] has: the bracket [[^/]+]. *)

From S2P Require Import Prelude PatternMatcher.

(** ** The generated expression *)

(** The characters of the [switch]. *)
Definition is_escaped (c : ascii) : bool :=
  existsb (Ascii.eqb c) ["."; "["; "]"; "("; ")"; "{"; "}"; "\"; "^"; "$"; "|"; "?"; "+"]%char.

Fixpoint path_regex (l : chars) : chars :=
  match l with
  | [] => []
  | c :: l' =>
      if Ascii.eqb c "*" then
        match l' with
        | d :: l'' =>
            if Ascii.eqb d "*" then ["."; "*"]%char ++ path_regex l''
            else ["["; "^"; "/"; "]"; "+"]%char ++ path_regex l'
        | [] => ["["; "^"; "/"; "]"; "+"]%char
        end
      else (if is_escaped c then ["\"%char; c] else [c]) ++ path_regex l'
  end.

Definition path_regex_str (pattern : string) : chars :=
  ["^"%char] ++ path_regex (to_chars pattern) ++ ["$"%char].

(** ** [std::regex] on the generated fragment *)

Inductive path_atom :=
  | PaBegin
  | PaEnd
  | PaChar (c : ascii)
  | PaAnyStar                (* .* *)
  | PaNonSlashPlus.          (* [^/]+ *)

(** [None] is a syntax error or syntax outside the fragment. *)
Fixpoint path_parse (l : chars) : option (list path_atom) :=
  match l with
  | [] => Some []
  | "^"%char :: l' => cons PaBegin <$> path_parse l'
  | "$"%char :: l' => cons PaEnd <$> path_parse l'
  | "\"%char :: c :: l' => if is_syntax_char c then cons (PaChar c) <$> path_parse l' else None
  | "."%char :: "*"%char :: l' => cons PaAnyStar <$> path_parse l'
  | "["%char :: "^"%char :: "/"%char :: "]"%char :: "+"%char :: l' => cons PaNonSlashPlus <$> path_parse l'
  | c :: l' => if is_syntax_char c then None else cons (PaChar c) <$> path_parse l'
  end.

Definition is_slash (c : ascii) : bool := Ascii.eqb c "/".

(** Some prefix of [s] of characters with [p] can be skipped so that [k] accepts
    the rest. *)
Fixpoint skip_some (p : ascii → bool) (k : chars → bool) (s : chars) : bool :=
  k s || match s with d :: s' => p d && skip_some p k s' | [] => false end.

Fixpoint path_match (re : list path_atom) (start : bool) (s : chars) : bool :=
  match re with
  | [] => match s with [] => true | _ => false end
  | PaBegin :: re' => start && path_match re' start s
  | PaEnd :: re' => match s with [] => path_match re' start s | _ => false end
  | PaChar c :: re' =>
      match s with d :: s' => Ascii.eqb c d && path_match re' false s' | [] => false end
  | PaAnyStar :: re' =>
      path_match re' start s ||
      match s with
      | d :: s' => negb (is_line_terminator d) &&
                   skip_some (λ d, negb (is_line_terminator d)) (path_match re' false) s'
      | [] => false
      end
  | PaNonSlashPlus :: re' =>
      match s with
      | d :: s' => negb (is_slash d) && skip_some (λ d, negb (is_slash d)) (path_match re' false) s'
      | [] => false
      end
  end.

(** [AuthManager::matches_path]; a failed compilation is a non-match. *)
Definition matches_path (pattern path : string) : bool :=
  if pattern =?ₛ path then true
  else match path_parse (path_regex_str pattern) with
       | Some re => path_match re true (to_chars path)
       | None => false
       end.

(** ** Reference semantics *)

Inductive path_glob : chars → chars → Prop :=
  | pg_nil : path_glob [] []
  | pg_char c p s : c ≠ "*"%char → path_glob p s → path_glob (c :: p) (c :: s)
  | pg_segment p w s :
      head p ≠ Some "*"%char → w ≠ [] → Forall (λ d, d ≠ "/"%char) w → path_glob p s →
      path_glob ("*"%char :: p) (w ++ s)
  | pg_any p w s :
      Forall (λ d, is_line_terminator d = false) w → path_glob p s →
      path_glob ("*"%char :: "*"%char :: p) (w ++ s).

(** ** Correctness *)

Fixpoint path_atoms (l : chars) : list path_atom :=
  match l with
  | [] => []
  | c :: l' =>
      if Ascii.eqb c "*" then
        match l' with
        | d :: l'' => if Ascii.eqb d "*" then PaAnyStar :: path_atoms l'' else PaNonSlashPlus :: path_atoms l'
        | [] => [PaNonSlashPlus]
        end
      else PaChar c :: path_atoms l'
  end.

(** Patterns by their tokens. *)
Lemma pattern_ind (P : chars → Prop) :
  P [] → (∀ c p, c ≠ "*"%char → P p → P (c :: p)) →
  (∀ p, head p ≠ Some "*"%char → P p → P ("*"%char :: p)) →
  (∀ p, P p → P ("*"%char :: "*"%char :: p)) → ∀ p, P p.
Proof.
  intros Hnil Hchar Hstar Hany p. remember (length p) as n eqn:Hn. revert p Hn.
  induction n as [n IH] using lt_wf_ind. intros [|c p] ->; [done|]. cbn [length] in IH.
  destruct (decide (c = "*"%char)) as [->|Hc]; [|apply Hchar; [done|]; eapply IH; [|done]; lia].
  destruct p as [|d p]; [by apply Hstar|]. destruct (decide (d = "*"%char)) as [->|Hd].
  - apply Hany. eapply IH; [|done]. cbn. lia.
  - apply Hstar; [by intros [= ->]|]. eapply IH; [|done]. cbn. lia.
Qed.

Lemma path_atoms_char c p : c ≠ "*"%char → path_atoms (c :: p) = PaChar c :: path_atoms p.
Proof. intros Hc%Ascii.eqb_neq. cbn [path_atoms]. by rewrite Hc. Qed.

Lemma path_atoms_star p : head p ≠ Some "*"%char → path_atoms ("*"%char :: p) = PaNonSlashPlus :: path_atoms p.
Proof.
  intros Hp. destruct p as [|d p]; [done|]. cbn [path_atoms]. rewrite Ascii.eqb_refl.
  destruct (Ascii.eqb_spec d "*") as [->|]; [by destruct Hp|done].
Qed.

Lemma path_regex_char c p :
  c ≠ "*"%char → path_regex (c :: p) = (if is_escaped c then ["\"%char; c] else [c]) ++ path_regex p.
Proof. intros Hc%Ascii.eqb_neq. cbn [path_regex]. by rewrite Hc. Qed.

Lemma path_regex_star p :
  head p ≠ Some "*"%char → path_regex ("*"%char :: p) = ["["; "^"; "/"; "]"; "+"]%char ++ path_regex p.
Proof.
  intros Hp. destruct p as [|d p]; [done|]. cbn [path_regex]. rewrite Ascii.eqb_refl.
  destruct (Ascii.eqb_spec d "*") as [->|]; [by destruct Hp|done].
Qed.

Lemma path_parse_char c l :
  c ≠ "*"%char → path_parse ((if is_escaped c then ["\"%char; c] else [c]) ++ l) = cons (PaChar c) <$> path_parse l.
Proof. intros Hc. destruct c as [[] [] [] [] [] [] [] []]; try reflexivity. by destruct Hc. Qed.

(** The generated expression always compiles. *)
Lemma path_parse_regex p k : path_parse (path_regex p ++ k) = app (path_atoms p) <$> path_parse k.
Proof.
  induction p as [|c p Hc IH|p Hp IH|p IH] using pattern_ind.
  - cbn. by destruct (path_parse k).
  - rewrite path_regex_char, path_atoms_char, <-app_assoc, path_parse_char, IH by done. by destruct (path_parse k).
  - rewrite path_regex_star, path_atoms_star by done. rewrite <-app_assoc.
    change (path_parse (["["; "^"; "/"; "]"; "+"]%char ++ ?l)) with (cons PaNonSlashPlus <$> path_parse l).
    rewrite IH. by destruct (path_parse k).
  - change (path_parse (path_regex ("*"%char :: "*"%char :: p) ++ k)) with
      (cons PaAnyStar <$> path_parse (path_regex p ++ k)).
    rewrite IH. by destruct (path_parse k).
Qed.

Lemma path_parse_str pattern :
  path_parse (path_regex_str pattern) = Some (PaBegin :: path_atoms (to_chars pattern) ++ [PaEnd]).
Proof.
  unfold path_regex_str. change (path_parse (["^"%char] ++ ?l)) with (cons PaBegin <$> path_parse l).
  by rewrite path_parse_regex.
Qed.

Lemma skip_some_spec p k s :
  skip_some p k s = true ↔ ∃ w t, s = w ++ t ∧ Forall (λ d, p d = true) w ∧ k t = true.
Proof.
  induction s as [|d s IH]; cbn [skip_some]; rewrite orb_true_iff.
  - split.
    + intros [Hk|?]; [|done]. by exists [], [].
    + intros (w & t & Heq & _ & Hk). left. by destruct w, t.
  - rewrite andb_true_iff, IH. split.
    + intros [Hk|(Hd & w & t & -> & Hw & Hk)]; [by exists [], (d :: s)|].
      exists (d :: w), t. split_and!; try done. by constructor.
    + intros ([|e w] & t & Heq & Hw & Hk); [left; by rewrite Heq|]. right. injection Heq as -> ->.
      apply Forall_cons in Hw as [Hd Hw]. split; [done|]. by exists w, t.
Qed.

(** A bracket with a plus consumes a non-empty run, a starred dot any run. *)
Lemma match_segment re b s :
  path_match (PaNonSlashPlus :: re) b s = true ↔
    ∃ w t, s = w ++ t ∧ w ≠ [] ∧ Forall (λ d, d ≠ "/"%char) w ∧ path_match re false t = true.
Proof.
  assert (∀ d, negb (is_slash d) = true ↔ d ≠ "/"%char) as Hslash.
  { intros d. unfold is_slash. by rewrite negb_true_iff, Ascii.eqb_neq. }
  cbn [path_match]. destruct s as [|d s].
  - split; [done|]. intros (w & t & Heq & Hw & _). by destruct w.
  - rewrite andb_true_iff, skip_some_spec, Hslash. setoid_rewrite Hslash. split.
    + intros (Hd & w & t & -> & Hw & Hk). exists (d :: w), t. split_and!; try done. by constructor.
    + intros ([|e w] & t & Heq & Hne & Hw & Hk); [done|]. injection Heq as -> ->.
      apply Forall_cons in Hw as [He Hw]. split; [done|]. by exists w, t.
Qed.

Lemma match_any re b s :
  (∀ s, path_match re b s = path_match re false s) →
  path_match (PaAnyStar :: re) b s = true ↔
    ∃ w t, s = w ++ t ∧ Forall (λ d, is_line_terminator d = false) w ∧ path_match re false t = true.
Proof.
  intros Hstart. assert (∀ d, negb (is_line_terminator d) = true ↔ is_line_terminator d = false) as Hlt.
  { intros d. apply negb_true_iff. }
  cbn [path_match]. rewrite orb_true_iff, Hstart. destruct s as [|d s].
  - split; [|intros (w & t & Heq & _ & Hk); left; by destruct w, t].
    intros [Hk|?]; [|done]. by exists [], [].
  - rewrite andb_true_iff, skip_some_spec, Hlt. setoid_rewrite Hlt. split.
    + intros [Hk|(Hd & w & t & -> & Hw & Hk)]; [by exists [], (d :: s)|].
      exists (d :: w), t. split_and!; try done. by constructor.
    + intros ([|e w] & t & Heq & Hw & Hk); [left; by rewrite Heq|]. right. injection Heq as -> ->.
      apply Forall_cons in Hw as [He Hw]. split; [done|]. by exists w, t.
Qed.

Lemma match_start p b s :
  path_match (path_atoms p ++ [PaEnd]) b s = path_match (path_atoms p ++ [PaEnd]) false s.
Proof.
  revert b s. induction p as [|c p Hc IH|p Hp IH|p IH] using pattern_ind; intros b s.
  - by destruct s.
  - by rewrite path_atoms_char.
  - by rewrite path_atoms_star.
  - cbn [path_atoms app]. rewrite Ascii.eqb_refl. cbn [app path_match]. by rewrite IH.
Qed.

Lemma match_glob p b s : path_match (path_atoms p ++ [PaEnd]) b s = true ↔ path_glob p s.
Proof.
  revert b s. induction p as [|c p Hc IH|p Hp IH|p IH] using pattern_ind; intros b s.
  - split; [destruct s; [constructor|done]|by inversion 1].
  - rewrite path_atoms_char by done. cbn [app path_match]. split.
    + destruct s as [|d s]; [done|]. intros [->%Ascii.eqb_eq Hm]%andb_true_iff. constructor; [done|by eapply IH].
    + inversion 1 as [|c' p' s' _ Hg| |]; subst; [|done..]. rewrite Ascii.eqb_refl. by apply IH.
  - rewrite path_atoms_star by done. cbn [app]. rewrite match_segment. setoid_rewrite IH. split.
    + intros (w & t & -> & Hw & Hs & Hg). by constructor.
    + inversion 1 as [|c' p' s' Hc|p' w t Hp' Hw Hs Hg|p' w t Hw Hg]; subst; [done| |done]. by exists w, t.
  - cbn [path_atoms]. rewrite Ascii.eqb_refl. cbn [app]. rewrite match_any by (intros; apply match_start).
    setoid_rewrite IH. split.
    + intros (w & t & -> & Hw & Hg). by constructor.
    + inversion 1 as [|c' p' s' Hc|p' w t Hp' Hw Hs Hg|p' w t Hw Hg]; subst; [done..|]. by exists w, t.
Qed.

Lemma path_glob_refl p : path_glob p p.
Proof.
  induction p as [|c p Hc IH|p Hp IH|p IH] using pattern_ind; [constructor|by constructor|..].
  - apply (pg_segment p ["*"%char]); [done|done| |done]. by apply Forall_singleton.
  - apply (pg_any p ["*"; "*"]%char); [by repeat constructor|done].
Qed.

Lemma matches_path_spec pattern path :
  matches_path pattern path = true ↔ path_glob (to_chars pattern) (to_chars path).
Proof.
  unfold matches_path. destruct (str_eqb_spec pattern path) as [->|Hne].
  - split; [intros _; apply path_glob_refl|done].
  - rewrite path_parse_str. cbn [path_match andb]. apply match_glob.
Qed.

(** Path matching never fails to compile its expression and means what the
    patterns say: a single star stands for a non-empty run of characters other
    than a slash, a double star for any run without line terminators, and every
    other character, regex metacharacters included, for itself. *)
Theorem matches_path_is_glob pattern path :
  matches_path pattern path = true ↔ path_glob (to_chars pattern) (to_chars path).
Proof. apply matches_path_spec. Qed.
