(* ===== verification/AuthManager.v ===== *)
(** * Authentication and access control

    [AuthManager] and [AuthMiddleware] (gateway core/auth): client credentials,
    access and refresh tokens with revocation, role permissions, and the check
    every request passes.  Signing, parsing and verifying JWTs (jwt-cpp) is the
    class [Jwt]; time is in nanoseconds since the epoch, claims are in seconds;
    generated token ids are arguments, and the RS256 key files, checked by the
    constructor, stay readable. *)

From stdpp Require Import relations.
From S2P Require Import Prelude PatternMatcher AuthPaths DataPointSuggest.

Inductive UserRole := VIEWER | OPERATOR | CONFIGURATOR | ADMIN.

#[global] Instance UserRole_eq_dec : EqDecision UserRole.
Proof. solve_decision. Defined.

#[global] Instance UserRole_countable : Countable UserRole.
Proof.
  apply (inj_countable' (λ r, match r with VIEWER => 0 | OPERATOR => 1 | CONFIGURATOR => 2 | ADMIN => 3 end)
    (λ n, match n with 0 => VIEWER | 1 => OPERATOR | 2 => CONFIGURATOR | _ => ADMIN end)).
  by intros [].
Defined.

Inductive AuthRequirement := NONE | WRITE | ALL.

#[global] Instance AuthRequirement_eq_dec : EqDecision AuthRequirement.
Proof. solve_decision. Defined.

Inductive TokenType := ACCESS | REFRESH.

#[global] Instance TokenType_eq_dec : EqDecision TokenType.
Proof. solve_decision. Defined.

Record ClientCredentials := mkClient {
  cl_id : string; cl_secret : string; cl_role : UserRole; cl_enabled : bool }.

Inductive JwtAlgorithm := HS256 | RS256.

#[global] Instance JwtAlgorithm_eq_dec : EqDecision JwtAlgorithm.
Proof. solve_decision. Defined.

Record AuthConfig := mkAuthConfig {
  ac_enabled : bool;
  ac_jwt_secret : string;
  ac_jwt_public_key : string;
  ac_jwt_algorithm : JwtAlgorithm;
  ac_token_expiry_seconds : Z;
  ac_refresh_token_expiry_seconds : Z;
  ac_require_auth_for : AuthRequirement;
  ac_issuer : string;
  ac_clients : list ClientCredentials;
}.

(** [AuthConfigBuilder::build]; [inl] is the exception. *)
Definition build (c : AuthConfig) : string + AuthConfig :=
  if negb (ac_enabled c) then inr c
  else if ac_jwt_secret c =?ₛ "" then inl "JWT secret is required when authentication is enabled"
  else if bool_decide (ac_jwt_algorithm c = HS256) && (String.length (ac_jwt_secret c) <? 32)
  then inl "JWT secret must be at least 32 characters for HS256 algorithm"
  else if (ac_token_expiry_seconds c <=? 0)%Z then inl "Token expiry must be positive"
  else if (ac_refresh_token_expiry_seconds c <=? 0)%Z then inl "Refresh token expiry must be positive"
  else if (ac_refresh_token_expiry_seconds c <? ac_token_expiry_seconds c)%Z
  then inl "Refresh token expiry must be greater than or equal to token expiry"
  else if bool_decide (ac_jwt_algorithm c = RS256) && (ac_jwt_public_key c =?ₛ "")
  then inl "Public key path is required for RS256 algorithm"
  else inr c.

Definition role_to_string (r : UserRole) : string :=
  match r with
  | VIEWER => "viewer" | OPERATOR => "operator" | CONFIGURATOR => "configurator" | ADMIN => "admin"
  end.

Fixpoint lower (s : string) : string :=
  match s with "" => "" | String c s' => String (tolower c) (lower s') end.

(** [None]: [std::invalid_argument]. *)
Definition string_to_role (s : string) : option UserRole :=
  let l := lower s in
  if l =?ₛ "viewer" then Some VIEWER
  else if l =?ₛ "operator" then Some OPERATOR
  else if l =?ₛ "configurator" then Some CONFIGURATOR
  else if l =?ₛ "admin" then Some ADMIN
  else None.

Definition token_type_to_string (t : TokenType) : string :=
  match t with ACCESS => "access" | REFRESH => "refresh" end.

(** [None]: [std::invalid_argument]. *)
Definition string_to_token_type (s : string) : option TokenType :=
  if s =?ₛ "access" then Some ACCESS else if s =?ₛ "refresh" then Some REFRESH else None.

Record JwtClaims := mkClaims {
  jc_iss : string;
  jc_sub : string;
  jc_exp : Z;
  jc_iat : Z;
  jc_jti : string;
  jc_typ : TokenType;
  jc_role : UserRole;
  jc_permissions : list string;
  jc_refresh_token_id : option string;
}.

Record RefreshTokenRecord := mkRecord {
  rr_token_id : string; rr_client_id : string; rr_role : UserRole; rr_issued_at : Z; rr_expires_at : Z;
  rr_revoked : bool }.

(** ** Signed tokens *)

(** A claim of a token: the JSON values the manager distinguishes; a number that
    is no integer has its rounded value. *)
Inductive claim := ClStr (s : string) | ClInt (n : Z) | ClReal (rounded : Z) | ClStrs (l : list string) | ClOther.

Record DecodedJwt := mkDecoded { dj_typ : option claim; dj_payload : gmap string claim }.

(** [token_verification_exception] and any other exception, with their texts. *)
Inductive jwt_error := VerificationError (what : string) | OtherError (what : string).

(** What jwt-cpp does with tokens under the key and the issuer of a
    configuration. *)
Class Jwt (token : Type) := {
  jwt_sign : AuthConfig → DecodedJwt → token;
  jwt_parse : token → string + DecodedJwt;
  jwt_verify : AuthConfig → Z → token → option jwt_error;
}.

Definition payload_of (c : JwtClaims) : gmap string claim :=
  let p : gmap string claim :=
    {[ "iss" := ClStr (jc_iss c); "sub" := ClStr (jc_sub c); "iat" := ClInt (jc_iat c);
       "exp" := ClInt (jc_exp c); "jti" := ClStr (jc_jti c); "role" := ClStr (role_to_string (jc_role c)) ]} in
  let p := if bool_decide (jc_permissions c = []) then p
           else <["permissions" := ClStrs (set_entries (list_to_set (jc_permissions c)))]> p in
  match jc_refresh_token_id c with Some r => <["refresh_token_id" := ClStr r]> p | None => p end.

(** The exceptions of the accessors: a missing claim, a claim of another type. *)
Definition as_string (c : claim) : string + string :=
  match c with ClStr s => inr s | _ => inl "std::bad_cast" end.

Definition as_date (c : claim) : string + Z :=
  match c with ClInt n | ClReal n => inr n | _ => inl "std::bad_cast" end.

Definition as_strings (c : claim) : string + list string :=
  match c with ClStrs l => inr l | _ => inl "std::bad_cast" end.

Definition get_payload_claim {A} (as_a : claim → string + A) (p : gmap string claim) (key : string) : string + A :=
  match p !! key with Some c => as_a c | None => inl "claim not found" end.

(** A claim that is read only if it is there. *)
Definition optional_claim {A} (as_a : claim → string + A) (p : gmap string claim) (key : string) (absent : A)
    : string + A :=
  match p !! key with Some c => as_a c | None => inr absent end.

Definition bind_sum {A B} (x : string + A) (f : A → string + B) : string + B :=
  match x with inl e => inl e | inr a => f a end.

Notation "'let?' x ':=' e 'in' k" := (bind_sum e (λ x, k)) (at level 200, x name, k at level 200).

Definition extract_typ (typ : option claim) : string + TokenType :=
  match typ with
  | None => inr ACCESS
  | Some c => let? s := as_string c in inr (default ACCESS (string_to_token_type s))
  end.

Definition extract_role (p : gmap string claim) : string + UserRole :=
  match p !! "role" with
  | None => inr VIEWER
  | Some c =>
      let? s := as_string c in
      match string_to_role s with Some r => inr r | None => inl ("Invalid role: " +:+ s) end
  end.

Definition extract_claims (d : DecodedJwt) : string + JwtClaims :=
  let p := dj_payload d in
  let? iss := get_payload_claim as_string p "iss" in
  let? sub := get_payload_claim as_string p "sub" in
  let? jti := get_payload_claim as_string p "jti" in
  let? typ := extract_typ (dj_typ d) in
  let? exp := get_payload_claim as_date p "exp" in
  let? iat := get_payload_claim as_date p "iat" in
  let? role := extract_role p in
  let? permissions := optional_claim as_strings p "permissions" [] in
  let? refresh := optional_claim (λ c, let? s := as_string c in inr (Some s)) p "refresh_token_id" None in
  inr (mkClaims iss sub exp iat jti typ role permissions refresh).

Section Jwts.
Context {token : Type} `{!Jwt token}.

Definition generate_jwt (config : AuthConfig) (c : JwtClaims) : token :=
  jwt_sign config (mkDecoded (Some (ClStr (token_type_to_string (jc_typ c)))) (payload_of c)).

Definition decode_jwt (config : AuthConfig) (now : Z) (t : token) : string + JwtClaims :=
  match jwt_parse t with
  | inl what => inl ("JWT decode error: " +:+ what)
  | inr d =>
      match jwt_verify config now t with
      | Some (VerificationError what) => inl ("Token verification failed: " +:+ what)
      | Some (OtherError what) => inl ("JWT decode error: " +:+ what)
      | None =>
          match extract_claims d with
          | inl what => inl ("JWT decode error: " +:+ what)
          | inr c => inr c
          end
      end
  end.
End Jwts.

Definition ns_per_s : Z := 1000000000.

(** [now > from_time_t(exp)]. *)
Definition is_expired (now : Z) (c : JwtClaims) : bool := (jc_exp c * ns_per_s <? now)%Z.

Definition to_seconds (now : Z) : Z := (now / ns_per_s)%Z.

(** ** Requirement policies *)

Definition auth_prefix : string := "/api/v1/auth/".

(** [path.find(auth_prefix) == 0]. *)
Definition is_auth_path (path : string) : bool :=
  String.substring 0 (String.length auth_prefix) path =?ₛ auth_prefix.

Definition policy_requires (r : AuthRequirement) (method path : string) : bool :=
  match r with
  | NONE => false
  | ALL => negb (is_auth_path path)
  | WRITE =>
      if is_auth_path path then false
      else (method =?ₛ "POST") || (method =?ₛ "PUT") || (method =?ₛ "DELETE") || (method =?ₛ "PATCH")
  end.

(** [ConfigurableAuthRequirementPolicy], built from public paths or from
    requirements by pattern; the map is given in its walk order. *)
Inductive ConfigurablePolicy :=
  | PublicPaths (public_paths : list string) (require_for_reads : bool)
  | Requirements (by_pattern : list (string * AuthRequirement)).

Definition policy_of_paths (paths : list string) (require_for_reads : bool) : ConfigurablePolicy :=
  PublicPaths (paths ++ ["/api/v1/auth/**"]) require_for_reads.

(** The constructor sets the entry of the auth endpoints, wherever the walk
    meets it. *)
Definition policy_of_requirements (walk : gmap string AuthRequirement → list (string * AuthRequirement))
    (requirements : gmap string AuthRequirement) : ConfigurablePolicy :=
  Requirements (walk (<["/api/v1/auth/*" := NONE]> requirements)).

Definition add_public_path (path : string) (p : ConfigurablePolicy) : ConfigurablePolicy :=
  match p with PublicPaths l r => PublicPaths (l ++ [path]) r | Requirements _ => p end.

Definition is_public_path (public_paths : list string) (path : string) : bool :=
  existsb (λ pattern, matches_path pattern path) public_paths.

(** One pattern of the loop: the longest length and its requirement so far. *)
Definition longer_match (path : string) (best : nat * AuthRequirement) (e : string * AuthRequirement)
    : nat * AuthRequirement :=
  if matches_path e.1 path && (best.1 <? String.length e.1) then (String.length e.1, e.2) else best.

Definition get_path_requirement (by_pattern : list (string * AuthRequirement)) (path : string) : AuthRequirement :=
  match list_find (λ e, e.1 = path) by_pattern with
  | Some (_, e) => e.2
  | None => (foldl (longer_match path) (0, ALL) by_pattern).2
  end.

Definition configurable_requires (p : ConfigurablePolicy) (method path : string) : bool :=
  match p with
  | Requirements by_pattern => negb (bool_decide (get_path_requirement by_pattern path = NONE))
  | PublicPaths paths require_for_reads =>
      if is_public_path paths path then false
      else if negb require_for_reads && ((method =?ₛ "GET") || (method =?ₛ "HEAD") || (method =?ₛ "OPTIONS"))
      then false
      else true
  end.

(** ** Manager *)

Record AuthManager := mkAuth {
  am_config : AuthConfig;
  am_clients : gmap string ClientCredentials;
  am_refresh_tokens : gmap string RefreshTokenRecord;
  am_permissions : gmap UserRole (gset string);
}.

Definition new_auth_manager (config : AuthConfig) : AuthManager :=
  mkAuth config (foldl (λ m c, <[cl_id c := c]> m) ∅ (ac_clients config)) ∅ ∅.

(** [validate_key_file]: [files] are the contents of the readable files. *)
Definition validate_key_file (files : string → option string) (path key_type : string) : option string :=
  if path =?ₛ "" then Some (key_type +:+ " path is empty")
  else match files path with
  | None => Some ("Failed to open " +:+ key_type +:+ " file: " +:+ path)
  | Some "" => Some (key_type +:+ " file is empty: " +:+ path)
  | Some _ => None
  end.

(** The constructor; [inl] is its exception. *)
Definition construct (files : string → option string) (config : AuthConfig) : string + AuthManager :=
  let bad := if ac_enabled config && bool_decide (ac_jwt_algorithm config = RS256) then
      match validate_key_file files (ac_jwt_secret config) "RS256 private key" with
      | Some e => Some e
      | None => validate_key_file files (ac_jwt_public_key config) "RS256 public key"
      end else None in
  match bad with Some e => inl e | None => inr (new_auth_manager config) end.

Definition with_clients (cs : gmap string ClientCredentials) (m : AuthManager) : AuthManager :=
  mkAuth (am_config m) cs (am_refresh_tokens m) (am_permissions m).

Definition with_refresh_tokens (rs : gmap string RefreshTokenRecord) (m : AuthManager) : AuthManager :=
  mkAuth (am_config m) (am_clients m) rs (am_permissions m).

Definition requires_authentication (m : AuthManager) (method path : string) : bool :=
  if negb (ac_enabled (am_config m)) then false
  else policy_requires (ac_require_auth_for (am_config m)) method path.

Definition add_route_permissions (perms : gmap UserRole (gset string)) (m : AuthManager) : AuthManager :=
  mkAuth (am_config m) (am_clients m) (am_refresh_tokens m)
    (union_with (λ s t, Some (s ∪ t)) (am_permissions m) perms).

Definition residual_route_permissions : gmap UserRole (gset string) :=
  {[ ADMIN := {[ "GET:/api/v1/**"; "POST:/api/v1/**"; "PUT:/api/v1/**"; "DELETE:/api/v1/**" ]} ]}.

Definition register_client (id secret : string) (role : UserRole) (m : AuthManager) : bool * AuthManager :=
  match am_clients m !! id with
  | Some _ => (false, m)
  | None => (true, with_clients (<[id := mkClient id secret role true]> (am_clients m)) m)
  end.

Definition set_enabled (b : bool) (id : string) (m : AuthManager) : bool * AuthManager :=
  match am_clients m !! id with
  | None => (false, m)
  | Some c => (true, with_clients (<[id := mkClient (cl_id c) (cl_secret c) (cl_role c) b]> (am_clients m)) m)
  end.

Definition disable_client : string → AuthManager → bool * AuthManager := set_enabled false.
Definition enable_client : string → AuthManager → bool * AuthManager := set_enabled true.

Definition cleanup_expired_tokens (now : Z) (m : AuthManager) : nat * AuthManager :=
  let kept := filter (λ e, ¬ (rr_expires_at e.2 < to_seconds now)%Z) (am_refresh_tokens m) in
  (size (am_refresh_tokens m) - size kept, with_refresh_tokens kept m).

Section Tokens.
Context {token : Type} `{!Jwt token}.

(** Error code and description. *)
Abbreviation AuthError := (string * string)%type.

Record TokenResponse := mkResponse {
  tr_access_token : token; tr_expires_in : Z; tr_refresh_token : token; tr_role : UserRole }.

Definition access_claims (m : AuthManager) (now : Z) (sub jti refresh_id : string) (role : UserRole) : JwtClaims :=
  mkClaims (ac_issuer (am_config m)) sub (to_seconds now + ac_token_expiry_seconds (am_config m)) (to_seconds now)
    jti ACCESS role [] (Some refresh_id).

(** [refresh_id] and [access_id] are the ids generated. *)
Definition authenticate (now : Z) (refresh_id access_id client_id secret : string) (m : AuthManager)
    : (AuthError + TokenResponse) * AuthManager :=
  match am_clients m !! client_id with
  | None => (inl ("invalid_client", "Unknown client_id"), m)
  | Some client =>
      if negb (cl_enabled client) then (inl ("invalid_client", "Client is disabled"), m)
      else if negb (cl_secret client =?ₛ secret) then (inl ("invalid_client", "Invalid client_secret"), m)
      else
        let exp := (to_seconds now + ac_refresh_token_expiry_seconds (am_config m))%Z in
        let refresh := mkClaims (ac_issuer (am_config m)) client_id exp (to_seconds now) refresh_id REFRESH
                         (cl_role client) [] None in
        let m' := with_refresh_tokens
          (<[refresh_id := mkRecord refresh_id client_id (cl_role client) (to_seconds now) exp false]>
             (am_refresh_tokens m)) m in
        (inr (mkResponse (generate_jwt (am_config m) (access_claims m now client_id access_id refresh_id (cl_role client)))
                (ac_token_expiry_seconds (am_config m)) (generate_jwt (am_config m) refresh) (cl_role client)), m')
  end.

Definition refresh_access_token (now : Z) (access_id : string) (t : token) (m : AuthManager)
    : AuthError + TokenResponse :=
  match decode_jwt (am_config m) now t with
  | inl e => inl ("invalid_grant", e)
  | inr claims =>
      if negb (bool_decide (jc_typ claims = REFRESH)) then inl ("invalid_grant", "Token is not a refresh token")
      else match am_refresh_tokens m !! jc_jti claims with
      | None => inl ("invalid_grant", "Refresh token not found")
      | Some record =>
          if rr_revoked record then inl ("invalid_grant", "Refresh token has been revoked")
          else if is_expired now claims then inl ("invalid_grant", "Refresh token has expired")
          else match am_clients m !! jc_sub claims with
          | None => inl ("invalid_grant", "Client no longer exists")
          | Some client =>
              if negb (cl_enabled client) then inl ("invalid_grant", "Client is disabled")
              else inr (mkResponse
                     (generate_jwt (am_config m) (access_claims m now (jc_sub claims) access_id (jc_jti claims) (rr_role record)))
                     (ac_token_expiry_seconds (am_config m)) t (rr_role record))
          end
      end
  end.

Definition validate_token (now : Z) (t : token) (expected : TokenType) (m : AuthManager) : string + JwtClaims :=
  match decode_jwt (am_config m) now t with
  | inl e => inl e
  | inr claims =>
      if negb (bool_decide (jc_typ claims = expected)) then
        inl ("Invalid token type: expected " +:+ token_type_to_string expected +:+ ", got " +:+
             token_type_to_string (jc_typ claims))
      else if is_expired now claims then inl "Token has expired"
      else match am_clients m !! jc_sub claims with
      | None => inl "Client no longer exists"
      | Some client =>
          if negb (cl_enabled client) then inl "Client has been disabled"
          else match jc_refresh_token_id claims ≫= λ r, am_refresh_tokens m !! r with
          | Some record =>
              if rr_revoked record then inl "Associated refresh token has been revoked" else inr claims
          | None => inr claims
          end
      end
  end.

Definition revoke_refresh_token (now : Z) (t : token) (m : AuthManager) : bool * AuthManager :=
  match decode_jwt (am_config m) now t with
  | inl _ => (false, m)
  | inr claims =>
      match am_refresh_tokens m !! jc_jti claims with
      | None => (false, m)
      | Some r =>
          (true, with_refresh_tokens
             (<[jc_jti claims := mkRecord (rr_token_id r) (rr_client_id r) (rr_role r) (rr_issued_at r)
                 (rr_expires_at r) true]> (am_refresh_tokens m)) m)
      end
  end.

(** ** Authorization *)

(** [pattern.find(':')]: method and path pattern. *)
Fixpoint split_permission (s : string) : option (string * string) :=
  match s with
  | "" => None
  | String c s' =>
      if bool_decide (c = ":"%char) then Some ("", s')
      else '(m, p) ← split_permission s'; Some (String c m, p)
  end.

Definition permission_covers (method path entry : string) : bool :=
  match split_permission entry with
  | Some (m, p) => (m =?ₛ method) && matches_path p path
  | None => false
  end.

(** [inl] is the error with the permission that is missing, if one is named. *)
Definition check_authorization (m : AuthManager) (role : UserRole) (method path : string)
    : (string * option string) + unit :=
  match am_permissions m !! role with
  | None => inl ("No permissions are configured for this role", None)
  | Some perms =>
      let permission_key := method +:+ ":" +:+ path in
      if bool_decide (permission_key ∈ perms) then inr tt
      else if existsb (permission_covers method path) (elements perms) then inr tt
      else inl ("Insufficient permissions", Some permission_key)
  end.

(** ** Middleware *)

Definition bearer_prefix : string := "Bearer ".

Definition extract_bearer_token (header : string) : option string :=
  if header =?ₛ "" then None
  else if (String.length header <? String.length bearer_prefix) then None
  else
    let prefix := String.substring 0 (String.length bearer_prefix) header in
    if negb (prefix =?ₛ "Bearer ") && negb (prefix =?ₛ "bearer ") then None
    else
      let t := String.substring (String.length bearer_prefix)
                 (String.length header - String.length bearer_prefix) header in
      if t =?ₛ "" then None else Some t.

Inductive verdict := Allowed | Unauthorized (message : string) | Forbidden (message : string).

(** [of_text] reads a token from its text. *)
Definition process (of_text : string → token) (now : Z) (m : AuthManager) (method path : string)
    (authorization_header : option string) : verdict :=
  if negb (ac_enabled (am_config m)) then Allowed
  else if negb (requires_authentication m method path) then Allowed
  else match authorization_header with
  | None => Unauthorized "Missing Authorization header"
  | Some h =>
      match extract_bearer_token h with
      | None => Unauthorized "Invalid Authorization header format. Expected: Bearer <token>"
      | Some t =>
          match validate_token now (of_text t) ACCESS m with
          | inl e => Unauthorized e
          | inr claims =>
              match check_authorization m (jc_role claims) method path with
              | inl e => Forbidden e.1
              | inr _ => Allowed
              end
          end
      end
  end.

(** ** Operations over time *)

(** The calls that change the manager, under a clock that does not go back; ids
    are generated at random and assumed not to hit one in the table. *)
Inductive auth_step : Z * AuthManager → Z * AuthManager → Prop :=
  | step_tick now now' m : (now ≤ now')%Z → auth_step (now, m) (now', m)
  | step_authenticate now rid aid id secret m :
      am_refresh_tokens m !! rid = None →
      auth_step (now, m) (now, (authenticate now rid aid id secret m).2)
  | step_revoke now t m : auth_step (now, m) (now, (revoke_refresh_token now t m).2)
  | step_cleanup now m : auth_step (now, m) (now, (cleanup_expired_tokens now m).2)
  | step_register now id secret role m : auth_step (now, m) (now, (register_client id secret role m).2)
  | step_disable now id m : auth_step (now, m) (now, (disable_client id m).2)
  | step_enable now id m : auth_step (now, m) (now, (enable_client id m).2).
End Tokens.
