(* ===== verification/AuthSpec.v ===== *)
(** * What the access control guarantees *)

From stdpp Require Import relations.
From S2P Require Import Prelude PatternMatcher AuthPaths AuthManager.

(** ** Permissions *)

Definition no_colon (s : string) : Prop := split_permission s = None.

Lemma split_permission_app method p :
  no_colon method → split_permission (method +:+ ":" +:+ p) = Some (method, p).
Proof.
  unfold no_colon. induction method as [|c method IH]; [done|]. intros Hs.
  change (split_permission (String c (method +:+ ":" +:+ p)) = Some (String c method, p)).
  cbn [split_permission] in Hs |- *. case_bool_decide; [done|].
  destruct (split_permission method) as [[]|]; [done|]. by rewrite IH.
Qed.

Lemma split_permission_Some entry method p :
  split_permission entry = Some (method, p) → entry = method +:+ ":" +:+ p ∧ no_colon method.
Proof.
  revert method. induction entry as [|c entry IH]; intros method; cbn [split_permission]; [done|].
  case_bool_decide as Hc; [intros [= <- <-]; by subst|].
  destruct (split_permission entry) as [[m q]|] eqn:He; [|done]. intros [= <- <-].
  destruct (IH m eq_refl) as [-> Hm]. split; [done|]. unfold no_colon in *. cbn.
  by rewrite bool_decide_eq_false_2, Hm.
Qed.

(** A role may do what one of its entries covers. *)
Definition role_may (m : AuthManager) (role : UserRole) (method path : string) : Prop :=
  ∃ perms pattern, am_permissions m !! role = Some perms ∧ method +:+ ":" +:+ pattern ∈ perms ∧
    path_glob (to_chars pattern) (to_chars path).

Lemma check_authorization_spec m role method path :
  no_colon method → check_authorization m role method path = inr tt ↔ role_may m role method path.
Proof.
  intros Hm. unfold check_authorization, role_may.
  destruct (am_permissions m !! role) as [perms|]; [|naive_solver].
  assert (existsb (permission_covers method path) (elements perms) = true ↔
    ∃ pattern, method +:+ ":" +:+ pattern ∈ perms ∧ path_glob (to_chars pattern) (to_chars path)) as Hex.
  { rewrite existsb_exists. setoid_rewrite <-list_elem_of_In. setoid_rewrite elem_of_elements. split.
    - intros (entry & Hin & Hc). unfold permission_covers in Hc.
      destruct (split_permission entry) as [[em p]|] eqn:He; [|done].
      apply andb_true_iff in Hc as [->%str_eqb_eq Hp]. apply split_permission_Some in He as [-> _].
      exists p. split; [done|]. by apply matches_path_spec.
    - intros (p & Hin & Hp). exists (method +:+ ":" +:+ p). split; [done|]. unfold permission_covers.
      rewrite split_permission_app, str_eqb_refl by done. by apply matches_path_spec. }
  case_bool_decide as Hkey.
  - split; [|done]. intros _. exists perms, path. split_and!; [done|done|]. apply path_glob_refl.
  - destruct (existsb _ _); [|naive_solver]. split; [|done]. intros _.
    destruct (proj1 Hex eq_refl) as (p & ? & ?). by exists perms, p.
Qed.

(** ** Requirements by pattern *)

(** The requirement of a path that is no pattern itself: that of a longest
    non-empty pattern covering it, or [ALL] if there is none. *)
Lemma longer_match_fold path l best :
  let r := foldl (longer_match path) best l in
  (r = best ∨ ∃ e, e ∈ l ∧ matches_path e.1 path = true ∧ r = (String.length e.1, e.2)) ∧
  best.1 ≤ r.1 ∧ ∀ e, e ∈ l → matches_path e.1 path = true → String.length e.1 ≤ r.1.
Proof.
  revert best. induction l as [|e l IH]; intros best; cbn [foldl].
  { split; [by left|]. split; [done|set_solver]. }
  destruct (IH (longer_match path best e)) as (Hr & Hle & Hmax). unfold longer_match in *.
  destruct (matches_path e.1 path) eqn:He; cbn [andb] in *;
    [destruct (Nat.ltb_spec best.1 (String.length e.1)); cbn [fst] in *|].
  - split_and!; [|lia|intros x [->|Hx]%elem_of_cons; [done|by apply Hmax]].
    right. destruct Hr as [->|(x & ? & ? & ?)]; [exists e|exists x]; split_and!; try done; set_solver.
  - split_and!; [|lia|intros x [->|Hx]%elem_of_cons; [intros _; lia|by apply Hmax]].
    destruct Hr as [->|(x & ? & ? & ?)]; [by left|right; exists x; split_and!; try done; set_solver].
  - split_and!; [|done|intros x [->|Hx]%elem_of_cons; [congruence|by apply Hmax]].
    destruct Hr as [->|(x & ? & ? & ?)]; [by left|right; exists x; split_and!; try done; set_solver].
Qed.

Lemma path_requirement_longest by_pattern path :
  (∀ e, e ∈ by_pattern → e.1 ≠ path) →
  let matching e := e ∈ by_pattern ∧ path_glob (to_chars e.1) (to_chars path) in
  (∃ e, matching e ∧ get_path_requirement by_pattern path = e.2 ∧
     ∀ e', matching e' → String.length e'.1 ≤ String.length e.1) ∨
  (get_path_requirement by_pattern path = ALL ∧ ∀ e, matching e → e.1 = "").
Proof.
  intros Hne. cbn. unfold get_path_requirement.
  destruct (list_find (λ e, e.1 = path) by_pattern) as [[i e]|] eqn:Hf.
  { apply list_find_Some in Hf as (Hi & He & _). destruct (Hne e); [by eapply list_elem_of_lookup_2|done]. }
  destruct (longer_match_fold path by_pattern (0, ALL)) as (Hr & _ & Hmax). setoid_rewrite <-matches_path_spec.
  destruct Hr as [Hr|(e & He & Hm & Hr)]; rewrite Hr in *; cbn [fst snd] in *.
  - right. split; [done|]. intros e [He Hm]. specialize (Hmax e He Hm). destruct e as [[|c p] r]; [done|].
    cbn in Hmax. lia.
  - left. exists e. split_and!; [done|done|done|]. intros e' [He' Hm']. by apply Hmax.
Qed.

Section Tokens.
Context {token : Type} `{!Jwt token}.

(** A token the manager accepts for requests. *)
Definition acceptable (now : Z) (m : AuthManager) (t : token) (c : JwtClaims) : Prop :=
  decode_jwt (am_config m) now t = inr c ∧ jc_typ c = ACCESS ∧ (now ≤ jc_exp c * ns_per_s)%Z ∧
  (∃ client, am_clients m !! jc_sub c = Some client ∧ cl_enabled client = true) ∧
  ∀ r record, jc_refresh_token_id c = Some r → am_refresh_tokens m !! r = Some record → rr_revoked record = false.

Lemma validate_token_spec now m t c : validate_token now t ACCESS m = inr c ↔ acceptable now m t c.
Proof.
  unfold validate_token, acceptable, is_expired.
  destruct (decode_jwt (am_config m) now t) as [e|claims]; [by split; [|intros [? _]]|].
  case_bool_decide as Htyp; cbn [negb]; [|split; [done|by intros ([= <-] & ? & _)]].
  destruct (Z.ltb_spec (jc_exp claims * ns_per_s) now) as [Hexp|Hexp].
  { split; [done|]. intros ([= <-] & _ & Hle & _). lia. }
  destruct (am_clients m !! jc_sub claims) as [client|] eqn:Hcl.
  2:{ split; [done|]. intros ([= <-] & _ & _ & (client & Hc & _) & _). congruence. }
  destruct (cl_enabled client) eqn:Hen; cbn [negb].
  2:{ split; [done|]. intros ([= <-] & _ & _ & (client' & Hc & He) & _). congruence. }
  assert (∀ c, (∀ r record, jc_refresh_token_id claims = Some r → am_refresh_tokens m !! r = Some record →
      rr_revoked record = false) → (@inr string JwtClaims claims = inr c ↔
    @inr string JwtClaims claims = inr c ∧ jc_typ c = ACCESS ∧ (now ≤ jc_exp c * ns_per_s)%Z ∧
    (∃ client, am_clients m !! jc_sub c = Some client ∧ cl_enabled client = true) ∧
    ∀ r record, jc_refresh_token_id c = Some r → am_refresh_tokens m !! r = Some record →
      rr_revoked record = false)) as Hgood.
  { intros c' Hok. split; [|by intros [? _]]. intros [= <-]. split_and!; eauto. }
  destruct (jc_refresh_token_id claims) as [r|] eqn:Hr; cbn [mbind option_bind]; [|by apply Hgood].
  destruct (am_refresh_tokens m !! r) as [record|] eqn:Hrec; [|apply Hgood; naive_solver].
  destruct (rr_revoked record) eqn:Hrev; [|apply Hgood; naive_solver].
  split; [done|]. intros ([= <-] & _ & _ & _ & Hok). specialize (Hok r record Hr Hrec). congruence.
Qed.

Lemma process_spec (of_text : string → token) now m method path header :
  ac_enabled (am_config m) = true → no_colon method →
  process of_text now m method path header = Allowed ↔
    policy_requires (ac_require_auth_for (am_config m)) method path = false ∨
    ∃ h text c, header = Some h ∧ extract_bearer_token h = Some text ∧
      acceptable now m (of_text text) c ∧ role_may m (jc_role c) method path.
Proof.
  intros Hen Hm. unfold process, requires_authentication. rewrite Hen. cbn [negb].
  destruct (policy_requires _ _ _); cbn [negb]; [|naive_solver].
  destruct header as [h|]; [|naive_solver]. destruct (extract_bearer_token h) as [text|] eqn:Hx; [|naive_solver].
  destruct (validate_token now (of_text text) ACCESS m) as [e|c] eqn:Hv.
  - split; [done|]. intros [?|(h' & text' & c & [= <-] & Hx' & Hacc & _)]; [done|].
    apply validate_token_spec in Hacc. congruence.
  - apply validate_token_spec in Hv as Hacc. pose proof (check_authorization_spec m (jc_role c) method path Hm) as Hau.
    destruct (check_authorization m (jc_role c) method path) as [e|[]].
    + split; [done|]. intros [?|(h' & text' & c' & [= <-] & Hx' & Hacc' & Hmay)]; [done|].
      assert (text' = text) as -> by congruence.
      assert (c' = c) as -> by (destruct Hacc as [? _], Hacc' as [? _]; congruence). by apply Hau in Hmay.
    + split; [|done]. intros _. right. exists h, text, c. split_and!; try done. by apply Hau.
Qed.

(** C30: With access control enabled, exactly these requests pass: those the policy
    does not protect, and those with a bearer token that verifies, is an
    unexpired access token of an existing, enabled client whose refresh token is
    not known to be revoked, for a role with an entry that covers method and
    path. *)
Theorem request_gate_exact (of_text : string → token) now m method path header :
  ac_enabled (am_config m) = true → no_colon method →
  process of_text now m method path header = Allowed ↔
    policy_requires (ac_require_auth_for (am_config m)) method path = false ∨
    ∃ h text c, header = Some h ∧ extract_bearer_token h = Some text ∧
      acceptable now m (of_text text) c ∧ role_may m (jc_role c) method path.
Proof. apply process_spec. Qed.

(** ** Revocation *)

(** A revoked record is kept until it has expired. *)
Definition revoked_or_gone (r : string) (expires : Z) (s : Z * AuthManager) : Prop :=
  (∃ record, am_refresh_tokens s.2 !! r = Some record ∧ rr_revoked record = true ∧ rr_expires_at record = expires) ∨
  ((expires + 1) * ns_per_s ≤ s.1)%Z.

Lemma auth_step_revoked r expires s s' :
  auth_step s s' → revoked_or_gone r expires s → revoked_or_gone r expires s'.
Proof.
  unfold revoked_or_gone.
  destruct 1 as [now now' m Hle|now rid aid id secret m Hfresh|now t m|now m|now id secret role m|now id m|now id m];
    cbn [fst snd]; intros [(rec & Hr & Hrev & Hexp)|Hgone]; try (right; lia).
  - left. by exists rec.
  - left. exists rec. split; [|done]. unfold authenticate.
    destruct (am_clients m !! id) as [c|]; [|done]. destruct (cl_enabled c); [|done].
    destruct (cl_secret c =?ₛ secret); [|done]. cbn. rewrite lookup_insert_ne; [done|]. congruence.
  - left. unfold revoke_refresh_token. destruct (decode_jwt _ _ _) as [|c]; [by exists rec|].
    destruct (am_refresh_tokens m !! jc_jti c) as [rec'|] eqn:Hc; [|by exists rec]. cbn.
    destruct (decide (r = jc_jti c)) as [->|Hne].
    + rewrite lookup_insert_eq. eexists. split; [done|]. rewrite Hr in Hc. by injection Hc as <-.
    + rewrite lookup_insert_ne by done. by exists rec.
  - cbn. destruct (decide (rr_expires_at rec < to_seconds now)%Z) as [Hlt|Hge].
    + right. unfold to_seconds, ns_per_s in *. subst expires.
      pose proof (Z.mul_div_le now 1000000000). lia.
    + left. exists rec. split; [|done]. apply map_lookup_filter_Some. done.
  - left. exists rec. split; [|done]. unfold register_client. by destruct (am_clients m !! id).
  - left. exists rec. split; [|done]. unfold disable_client, set_enabled. by destruct (am_clients m !! id).
  - left. exists rec. split; [|done]. unfold enable_client, set_enabled. by destruct (am_clients m !! id).
Qed.

(** C31: Once a refresh token is revoked, no later request with an access token that
    belongs to it and expires no later than it is accepted, whatever else is done
    with the manager in between. *)
Theorem revocation_is_final now m now' m' r record (t : token) c :
  am_refresh_tokens m !! r = Some record → rr_revoked record = true →
  rtc auth_step (now, m) (now', m') →
  jc_refresh_token_id c = Some r → (jc_exp c ≤ rr_expires_at record)%Z →
  ¬ acceptable now' m' t c.
Proof.
  intros Hr Hrev Hsteps Hc Hexp (_ & _ & Hnow & _ & Hok).
  assert (revoked_or_gone r (rr_expires_at record) (now', m')) as [(rec & Hrec & Hrv & _)|Hgone].
  { refine (rtc_ind_r (revoked_or_gone r (rr_expires_at record)) _ _ _ _ Hsteps); [left; by exists record|].
    intros x y _ Hxy Hx. by eapply auth_step_revoked. }
  - specialize (Hok r rec Hc Hrec). congruence.
  - cbn in Hgone. unfold ns_per_s in *. lia.
Qed.

(** The tokens of one login: with a validated configuration the access token does
    not outlive the refresh token it belongs to. *)
Lemma login_tokens_nested now rid aid id secret m resp m' :
  build (am_config m) = inr (am_config m) → ac_enabled (am_config m) = true →
  authenticate now rid aid id secret m = (inr resp, m') →
  ∃ role record, tr_access_token resp = generate_jwt (am_config m) (access_claims m now id aid rid role) ∧
    am_refresh_tokens m' !! rid = Some record ∧ rr_role record = role ∧
    (jc_exp (access_claims m now id aid rid role) ≤ rr_expires_at record)%Z.
Proof.
  intros Hb Hen. unfold authenticate. destruct (am_clients m !! id) as [c|]; [|done].
  destruct (cl_enabled c); [|done]. destruct (cl_secret c =?ₛ secret); [|done]. cbn [negb].
  intros [= <- <-]. exists (cl_role c). eexists. split_and!; [done|cbn; by rewrite lookup_insert_eq|done|]. cbn.
  unfold build in Hb. rewrite Hen in Hb. cbn [negb] in Hb.
  destruct (Z.ltb_spec (ac_refresh_token_expiry_seconds (am_config m)) (ac_token_expiry_seconds (am_config m)));
    [by repeat case_match|lia].
Qed.

(** ** What signing promises

    Documented behaviour of jwt-cpp: parsing gives back what was signed, and
    verification under the same key accepts it if the issuer is the expected one
    and the time is between issue and expiry. *)
Class JwtLaws : Prop := {
  jwt_parse_sign config d : jwt_parse (jwt_sign config d) = inr d;
  jwt_verify_sign config now d iat exp :
    dj_payload d !! "iss" = Some (ClStr (ac_issuer config)) →
    dj_payload d !! "iat" = Some (ClInt iat) → dj_payload d !! "exp" = Some (ClInt exp) →
    (iat * ns_per_s ≤ now)%Z → (now ≤ exp * ns_per_s)%Z → jwt_verify config now (jwt_sign config d) = None;
}.

Lemma payload_lookup c key :
  payload_of c !! key =
    if key =?ₛ "iss" then Some (ClStr (jc_iss c))
    else if key =?ₛ "sub" then Some (ClStr (jc_sub c))
    else if key =?ₛ "iat" then Some (ClInt (jc_iat c))
    else if key =?ₛ "exp" then Some (ClInt (jc_exp c))
    else if key =?ₛ "jti" then Some (ClStr (jc_jti c))
    else if key =?ₛ "role" then Some (ClStr (role_to_string (jc_role c)))
    else if key =?ₛ "permissions" then
      if bool_decide (jc_permissions c = []) then None
      else Some (ClStrs (set_entries (list_to_set (jc_permissions c))))
    else if key =?ₛ "refresh_token_id" then ClStr <$> jc_refresh_token_id c
    else None.
Proof.
  unfold payload_of.
  repeat match goal with |- context [key =?ₛ ?k] => destruct (str_eqb_spec key k) as [->|] end;
    destruct (jc_refresh_token_id c); case_bool_decide; by simplify_map_eq.
Qed.

Definition with_permissions (l : list string) (c : JwtClaims) : JwtClaims :=
  mkClaims (jc_iss c) (jc_sub c) (jc_exp c) (jc_iat c) (jc_jti c) (jc_typ c) (jc_role c) l (jc_refresh_token_id c).

Lemma extract_payload c :
  extract_claims (mkDecoded (Some (ClStr (token_type_to_string (jc_typ c)))) (payload_of c)) =
    inr (with_permissions (set_entries (list_to_set (jc_permissions c))) c).
Proof.
  unfold extract_claims, get_payload_claim, optional_claim, extract_role. cbn [dj_payload dj_typ].
  rewrite !payload_lookup. cbn -[set_entries payload_of].
  destruct c as [iss sub exp iat jti typ role perms rid]; cbn -[set_entries].
  destruct typ, role, rid; cbn -[set_entries]; case_bool_decide; subst; by cbn.
Qed.

(** The claims of a token survive signing, parsing and verification at any time
    of its life, its permissions sorted and without repetitions. *)
Lemma signed_claims_decode `{!JwtLaws} config now c :
  jc_iss c = ac_issuer config → (jc_iat c * ns_per_s ≤ now)%Z → (now ≤ jc_exp c * ns_per_s)%Z →
  decode_jwt config now (generate_jwt config c) =
    inr (with_permissions (set_entries (list_to_set (jc_permissions c))) c).
Proof.
  intros Hiss Hiat Hexp. unfold decode_jwt, generate_jwt.
  rewrite jwt_parse_sign, (jwt_verify_sign config now _ (jc_iat c) (jc_exp c)), extract_payload;
    cbn [dj_payload]; rewrite ?payload_lookup; cbn; by rewrite ?Hiss.
Qed.

Lemma extract_bearer text : text ≠ "" → extract_bearer_token (bearer_prefix +:+ text) = Some text.
Proof.
  intros Ht. unfold extract_bearer_token.
  rewrite length_append, substring_0_app, substring_app_r, Nat.add_sub_swap, Nat.sub_diag by lia.
  rewrite (proj2 (Nat.ltb_ge _ _)) by lia. cbn [Nat.add]. rewrite substring_0_all.
  destruct (str_eqb_spec text ""); [done|]. by cbn.
Qed.

(** From a login until the access token expires, requests that carry it are
    decided by the role of the client alone. *)
Theorem login_grants_role `{!JwtLaws} (of_text : string → token) now now' rid aid id secret m resp m'
    client method path text :
  ac_enabled (am_config m) = true → no_colon method →
  am_clients m !! id = Some client →
  authenticate now rid aid id secret m = (inr resp, m') →
  text ≠ "" → of_text text = tr_access_token resp →
  (now ≤ now')%Z → (now' ≤ (to_seconds now + tr_expires_in resp) * ns_per_s)%Z →
  process of_text now' m' method path (Some ("Bearer " +:+ text)) = Allowed ↔
    policy_requires (ac_require_auth_for (am_config m)) method path = false ∨
    role_may m (cl_role client) method path.
Proof.
  intros Hen Hm Hcl Hauth Ht Hof Hnow Hexp.
  unfold authenticate in Hauth. rewrite Hcl in Hauth. destruct (cl_enabled client) eqn:Hce; [|done].
  destruct (cl_secret client =?ₛ secret); [|done]. cbn [negb] in Hauth. injection Hauth as <- <-.
  cbn [tr_access_token tr_expires_in] in *.
  set (c := access_claims m now id aid rid (cl_role client)) in *.
  assert (decode_jwt (am_config m) now' (generate_jwt (am_config m) c) = inr c) as Hdec.
  { rewrite signed_claims_decode; [done|done| |done]. cbn. unfold to_seconds, ns_per_s.
    pose proof (Z.mul_div_le now 1000000000). lia. }
  set (m' := with_refresh_tokens _ m).
  rewrite (process_spec of_text now' m' method path) by done. cbn [am_config m' with_refresh_tokens].
  assert (acceptable now' m' (of_text text) c) as Hacc.
  { split_and!; [by rewrite Hof|done|cbn; lia|by exists client|].
    intros r record [= <-]. cbn. rewrite lookup_insert_eq. by intros [= <-]. }
  split; (intros [?|Hr]; [by left|right]).
  - destruct Hr as (h & text' & c' & [= <-] & Hx & (Hd & _) & Hmay). rewrite extract_bearer in Hx by done.
    injection Hx as <-. destruct Hacc as [Hd' _]. assert (c' = c) as -> by congruence. exact Hmay.
  - exists ("Bearer " +:+ text), text, c. split_and!; [done|by apply extract_bearer|done|exact Hr].
Qed.
End Tokens.

(** ** A revocation that lapses *)

(** Tokens that carry the key and the claims in clear. *)
#[global] Instance plain_jwt : Jwt (string * DecodedJwt) := {
  jwt_sign := λ config d, (ac_jwt_secret config, d);
  jwt_parse := λ t, inr t.2;
  jwt_verify := λ config now t,
    if negb (t.1 =?ₛ ac_jwt_secret config) then Some (VerificationError "invalid signature")
    else match dj_payload t.2 !! "iss", dj_payload t.2 !! "iat", dj_payload t.2 !! "exp" with
    | Some (ClStr iss), Some (ClInt iat), Some (ClInt exp) =>
        if negb (iss =?ₛ ac_issuer config) then Some (VerificationError "claim value does not match expected")
        else if (exp * ns_per_s <? now)%Z || (now <? iat * ns_per_s)%Z
        then Some (VerificationError "token expired")
        else None
    | _, _, _ => Some (VerificationError "decoded JWT is missing required claim(s)")
    end;
}.

Definition lapse_config : AuthConfig :=
  mkAuthConfig true "0123456789abcdef0123456789abcdef" "" HS256 3600 86400 WRITE "gw" [mkClient "u" "s" OPERATOR true].

(** The bound on the lifetime in [revocation_is_final] is needed: refreshing
    shortly before the refresh token expires yields an access token that outlives
    it; revoked, it is rejected, but once the expired record has been cleaned up
    it is accepted again. *)
Theorem cleanup_undoes_revocation :
  let s := (λ seconds, seconds * ns_per_s)%Z in
  let m0 := new_auth_manager lapse_config in
  let refresh : string * DecodedJwt :=
    generate_jwt lapse_config (mkClaims "gw" "u" 86400 0 "r" REFRESH OPERATOR [] None) in
  let m1 := (authenticate (token := string * DecodedJwt) (s 0%Z) "r" "a1" "u" "s" m0).2 in
  ∃ resp, refresh_access_token (s 86000%Z) "a2" refresh m1 = inr resp ∧
    let access := tr_access_token resp in
    let m2 := (revoke_refresh_token (s 86100%Z) refresh m1).2 in
    validate_token (s 86200%Z) access ACCESS m2 = inl "Associated refresh token has been revoked" ∧
    let m3 := (cleanup_expired_tokens (s 86500%Z) m2).2 in
    ∃ claims, validate_token (s 86500%Z) access ACCESS m3 = inr claims.
Proof. eexists. split; [vm_compute; reflexivity|]. split; [|eexists]; vm_compute; reflexivity. Qed.

(** Roles survive their spelling. *)
Lemma role_string_roundtrip r : string_to_role (role_to_string r) = Some r.
Proof. by destruct r. Qed.
