(* ===== verification/TriggerConditions.v ===== *)
(** * Conditions of triggers

    The evaluators of core/condition_evaluator.hpp and their registry.  An
    evaluator is a record of its two virtual methods; [None] of [evaluate] is an
    access outside of the parameters it was validated for. *)

From S2P Require Import Prelude Json.

Definition f64_ltb (x y : double) : bool := SFltb x y.
Definition f64_eqb (x y : double) : bool := SFeqb x y.
Definition is_nan (x : double) : bool := match x with S754_nan => true | _ => false end.

(** [operator==] of JSON values; objects list their fields in key order. *)
Fixpoint json_eqb (j k : json) {struct j} : bool :=
  match j, k with
  | JNull, JNull => true
  | JBool b, JBool c => eqb b c
  | JNum x, JNum y => f64_eqb x y
  | JStr s, JStr t => s =?ₛ t
  | JArr l, JArr m =>
      (fix all l m := match l, m with
                      | [], [] => true
                      | x :: l', y :: m' => json_eqb x y && all l' m'
                      | _, _ => false
                      end) l m
  | JObj l, JObj m =>
      (fix all l m := match l, m with
                      | [], [] => true
                      | (a, x) :: l', (b, y) :: m' => (a =?ₛ b) && json_eqb x y && all l' m'
                      | _, _ => false
                      end) l m
  | _, _ => false
  end.

Record ConditionEvaluator := mkEvaluator {
  evaluate : option json → json → json → option bool;        (* previous, current, params *)
  validate_params : json → option string;                    (* the error *)
}.

Definition OnChange : ConditionEvaluator := {|
  evaluate previous current _ :=
    Some (match previous with None => true | Some p => negb (json_eqb p current) end);
  validate_params _ := None;
|}.

Definition OnChangeTo : ConditionEvaluator := {|
  evaluate previous current params :=
    target ← field "target_value" params;
    Some (if negb (json_eqb current target) then false
          else match previous with None => true | Some p => negb (json_eqb p current) end);
  validate_params params :=
    match field "target_value" params with
    | None => Some "Missing required parameter 'target_value'"
    | Some _ => None
    end;
|}.

Definition number (j : json) : option double := match j with JNum d => Some d | _ => None end.

Definition validate_range_params (params : json) : option string :=
  match field "lower_bound" params ≫= number with
  | None => Some "Missing or non-numeric 'lower_bound' parameter"
  | Some lo =>
      match field "upper_bound" params ≫= number with
      | None => Some "Missing or non-numeric 'upper_bound' parameter"
      | Some hi =>
          if f64_ltb hi lo then Some "'lower_bound' must be <= 'upper_bound'"
          else if negb (finite_double lo) || negb (finite_double hi)
          then Some "Bounds must be finite numbers (no NaN or Infinity)"
          else None
      end
  end.

Definition inside (lo hi v : double) : bool := f64_leb lo v && f64_leb v hi.
Definition outside (lo hi v : double) : bool := f64_ltb v lo || f64_ltb hi v.

(** What [EnterRangeEvaluator] and [LeaveRangeEvaluator] share: [crossed] of the
    previous and the current number. *)
Definition evaluate_range (crossed : double → double → double → double → bool)
    (previous : option json) (current params : json) : option bool :=
  match previous with
  | None => Some false
  | Some p =>
      match number p, number current with
      | Some prev_val, Some curr_val =>
          lo ← field "lower_bound" params ≫= number;
          hi ← field "upper_bound" params ≫= number;
          Some (if is_nan prev_val || is_nan curr_val then false else crossed lo hi prev_val curr_val)
      | _, _ => Some false
      end
  end.

Definition EnterRange : ConditionEvaluator := {|
  evaluate := evaluate_range (λ lo hi prev curr, outside lo hi prev && inside lo hi curr);
  validate_params := validate_range_params;
|}.

Definition LeaveRange : ConditionEvaluator := {|
  evaluate := evaluate_range (λ lo hi prev curr, inside lo hi prev && outside lo hi curr);
  validate_params := validate_range_params;
|}.

(** ** Registry *)

Abbreviation ConditionRegistry := (gmap string ConditionEvaluator).

(** [None]: the name is taken and the call throws. *)
Definition register_condition (name : string) (e : ConditionEvaluator) (r : ConditionRegistry)
    : option ConditionRegistry :=
  match r !! name with Some _ => None | None => Some (<[name := e]> r) end.

(** The conditions the gateway registers at start-up. *)
Definition builtin_conditions : ConditionRegistry :=
  {[ "OnChange" := OnChange; "OnChangeTo" := OnChangeTo; "EnterRange" := EnterRange; "LeaveRange" := LeaveRange ]}.

(** Parameters that a built-in condition accepts are the ones it reads. *)
Lemma validated_conditions_evaluate name e params previous current :
  builtin_conditions !! name = Some e → validate_params e params = None →
  is_Some (evaluate e previous current params).
Proof.
  unfold builtin_conditions. intros He Hv.
  repeat (apply lookup_insert_Some in He as [[<- <-]|[_ He]] || apply lookup_singleton_Some in He as [<- <-]).
  - by eexists.
  - cbn in *. destruct (field "target_value" params); [by eexists|done].
  - cbn in *. unfold validate_range_params, evaluate_range in *.
    destruct (field "lower_bound" params ≫= number), (field "upper_bound" params ≫= number); try done;
      repeat case_match; by eexists.
  - cbn in *. unfold validate_range_params, evaluate_range in *.
    destruct (field "lower_bound" params ≫= number), (field "upper_bound" params ≫= number); try done;
      repeat case_match; by eexists.
Qed.

(** *** The range conditions

    Read as a reading inside the range or not, they fire exactly on the edges. *)

Lemma f64_leb_ltb x y : is_nan x = false → is_nan y = false → f64_leb x y = negb (f64_ltb y x).
Proof.
  unfold f64_leb, f64_ltb, SFleb, SFltb.
  intros Hx Hy. assert (SFcompare y x = CompOpp <$> SFcompare x y ∧ is_Some (SFcompare x y)) as [-> [c ->]].
  2:{ by destruct c. }
  destruct x as [[]|[]| |[] m e], y as [[]|[]| |[] n f]; try done; cbn; try (split; [done|by eexists]).
  - rewrite Z.compare_antisym. destruct (e ?= f)%Z; cbn; try (split; [done|by eexists]).
    rewrite Pos.compare_cont_spec, Pos.compare_cont_spec, (Pos.compare_antisym m n).
    destruct (m ?= n)%positive; split; try done; by eexists.
  - rewrite Z.compare_antisym. destruct (e ?= f)%Z; cbn; try (split; [done|by eexists]).
    rewrite Pos.compare_cont_spec, Pos.compare_cont_spec, (Pos.compare_antisym m n).
    destruct (m ?= n)%positive; split; try done; by eexists.
Qed.

Lemma outside_inside lo hi v :
  finite_double lo = true → finite_double hi = true → is_nan v = false → outside lo hi v = negb (inside lo hi v).
Proof.
  intros Hlo Hhi Hv. unfold outside, inside.
  rewrite (f64_leb_ltb lo v), (f64_leb_ltb v hi) by (done || by destruct lo, hi).
  by destruct (f64_ltb v lo), (f64_ltb hi v).
Qed.

(** The position of a reading as the range conditions see it: a run of readings
    leaves the range exactly where it has been inside and is not any more. *)
Lemma range_conditions_are_edges lo hi params p c :
  validate_range_params params = None →
  field "lower_bound" params = Some (JNum lo) → field "upper_bound" params = Some (JNum hi) →
  is_nan p = false → is_nan c = false →
  evaluate EnterRange (Some (JNum p)) (JNum c) params = Some (negb (inside lo hi p) && inside lo hi c) ∧
  evaluate LeaveRange (Some (JNum p)) (JNum c) params = Some (inside lo hi p && negb (inside lo hi c)).
Proof.
  intros Hv Hlo Hhi Hp Hc. unfold validate_range_params in Hv. cbn. unfold evaluate_range. cbn.
  rewrite Hlo, Hhi in *. cbn in *. destruct (f64_ltb hi lo); [done|].
  destruct (finite_double lo) eqn:Hfl; [|done]. destruct (finite_double hi) eqn:Hfh; [|done].
  by rewrite Hp, Hc, !outside_inside.
Qed.
