(* ===== verification/TriggerManager.v ===== *)
(** * Triggers

    [TriggerManager] (gateway core/managers/trigger_manager.cpp) and the event
    stream that http/handlers/trigger_handlers.cpp serves from it.  Trigger
    states are shared pointers: they live on a heap that only grows, and
    [triggers_], the worker of the notifier, requests and streams refer to them
    by address.  A method is split where it releases a mutex; the store's answers,
    clock readings, discovery callbacks and the topic transport are arguments.

    The store is the map of rows and the map of previous values its interface
    documents.  Re-entrance of [on_resource_change] through the log manager
    ([evaluating_trigger_]) does not arise here: notifications are queued. *)

From stdpp Require Import relations.
From S2P Require Import Prelude Json TriggerConditions FaultTriggers.

(** ** Data *)

Inductive TriggerStatus := ACTIVE | TERMINATED.

#[global] Instance TriggerStatus_eq_dec : EqDecision TriggerStatus.
Proof. solve_decision. Defined.

Record TriggerInfo := mkInfo {
  ti_id : string;
  ti_entity_id : string;
  ti_entity_type : string;
  ti_resource_uri : string;
  ti_collection : string;
  ti_resource_path : string;
  ti_resolved_topic_name : string;
  ti_path : string;
  ti_condition_type : string;
  ti_condition_params : json;
  ti_protocol : string;
  ti_multishot : bool;
  ti_persistent : bool;
  ti_lifetime_sec : option Z;
  ti_log_settings : option json;
  ti_status : TriggerStatus;
  ti_created_at : Z;                  (* system clock, nanoseconds *)
  ti_expires_at : option Z;
}.

Record TriggerCreateRequest := mkRequest {
  rq_entity_id : string;
  rq_entity_type : string;
  rq_resource_uri : string;
  rq_collection : string;
  rq_resource_path : string;
  rq_resolved_topic_name : string;
  rq_path : string;
  rq_condition_type : string;
  rq_condition_params : json;
  rq_protocol : string;
  rq_multishot : bool;
  rq_persistent : bool;
  rq_lifetime_sec : option Z;
  rq_log_settings : option json;
}.

Inductive TriggerError := ValidationError | CapacityExceeded | PersistenceError | NotFound | SubscribeFailed.

Record TriggerCreateError := mkCreateError { tce_code : TriggerError; tce_message : string }.

Record TriggerConfig := mkTriggerConfig { tc_max_triggers : Z; tc_on_restart_behavior : string }.

Record TriggerState := mkTrigger {
  ts_info : TriggerInfo;
  ts_previous : option json;
  ts_active : bool;
  ts_entity_seen : bool;
  ts_pending : list json;             (* oldest first *)
  ts_counter : N;
}.

Definition kMaxPendingEvents : nat := 100.

Record UnresolvedTrigger := mkUnresolved {
  ut_trigger_id : string;
  ut_entity_id : string;
  ut_resource_path : string;
  ut_created_at : Z;                  (* steady clock, nanoseconds *)
  ut_entity_seen_at : option Z;
  ut_waiting_reported : bool;
}.

Record ResourceChange := mkChange {
  rc_collection : string; rc_entity_id : string; rc_resource_path : string; rc_value : json }.

Definition sec_ns (s : Z) : Z := (s * 1000000000)%Z.

(** ** Store *)

Record TriggerStore := mkStore { sto_rows : gmap string TriggerInfo; sto_values : gmap string json }.

Definition store_save (ok : bool) (i : TriggerInfo) (s : TriggerStore) : TriggerStore :=
  if ok then mkStore (<[ti_id i := i]> (sto_rows s)) (sto_values s) else s.

Definition store_update (ok : bool) (id : string) (f : TriggerInfo → TriggerInfo) (s : TriggerStore) : TriggerStore :=
  if ok then mkStore (alter f id (sto_rows s)) (sto_values s) else s.

(** Removing a row removes its previous value. *)
Definition store_remove (ok : bool) (id : string) (s : TriggerStore) : TriggerStore :=
  if ok then mkStore (delete id (sto_rows s)) (delete id (sto_values s)) else s.

Definition store_save_state (ok : bool) (id : string) (v : json) (s : TriggerStore) : TriggerStore :=
  if ok then mkStore (sto_rows s) (<[id := v]> (sto_values s)) else s.

(** ** Manager *)

Record log_entry := mkLog {
  le_entity : string; le_severity : string; le_marker : string; le_trigger_id : string;
  le_condition_type : string; le_resource : string }.

Record TriggerManager := mkTriggers {
  tm_config : TriggerConfig;
  tm_triggers : gmap string nat;
  tm_heap : list TriggerState;
  tm_index : gmap string (gset string);
  tm_next_id : N;                     (* uint64_t *)
  tm_shutdown : bool;
  tm_handles : gmap string string;    (* trigger id to the topic subscribed *)
  tm_unresolved : list UnresolvedTrigger;
  tm_unresolved_timeout : Z;          (* seconds *)
  tm_store : TriggerStore;
  tm_removed : list string;           (* calls of [on_removed_] *)
  tm_warnings : list string;
  tm_logs : list log_entry;
}.

Definition new_trigger_manager (config : TriggerConfig) (store : TriggerStore) : TriggerManager :=
  mkTriggers config ∅ [] ∅ 1 false ∅ [] 60 store [] [] [].

Definition with_tables (ts : gmap string nat) (h : list TriggerState) (ix : gmap string (gset string))
    (m : TriggerManager) : TriggerManager :=
  mkTriggers (tm_config m) ts h ix (tm_next_id m) (tm_shutdown m) (tm_handles m) (tm_unresolved m)
    (tm_unresolved_timeout m) (tm_store m) (tm_removed m) (tm_warnings m) (tm_logs m).

Definition with_states (h : list TriggerState) (m : TriggerManager) : TriggerManager :=
  with_tables (tm_triggers m) h (tm_index m) m.

Definition with_store (s : TriggerStore) (m : TriggerManager) : TriggerManager :=
  mkTriggers (tm_config m) (tm_triggers m) (tm_heap m) (tm_index m) (tm_next_id m) (tm_shutdown m) (tm_handles m)
    (tm_unresolved m) (tm_unresolved_timeout m) s (tm_removed m) (tm_warnings m) (tm_logs m).

Definition with_handles (hs : gmap string string) (m : TriggerManager) : TriggerManager :=
  mkTriggers (tm_config m) (tm_triggers m) (tm_heap m) (tm_index m) (tm_next_id m) (tm_shutdown m) hs
    (tm_unresolved m) (tm_unresolved_timeout m) (tm_store m) (tm_removed m) (tm_warnings m) (tm_logs m).

Definition with_unresolved (u : list UnresolvedTrigger) (m : TriggerManager) : TriggerManager :=
  mkTriggers (tm_config m) (tm_triggers m) (tm_heap m) (tm_index m) (tm_next_id m) (tm_shutdown m) (tm_handles m)
    u (tm_unresolved_timeout m) (tm_store m) (tm_removed m) (tm_warnings m) (tm_logs m).

Definition with_next_id (n : N) (m : TriggerManager) : TriggerManager :=
  mkTriggers (tm_config m) (tm_triggers m) (tm_heap m) (tm_index m) n (tm_shutdown m) (tm_handles m)
    (tm_unresolved m) (tm_unresolved_timeout m) (tm_store m) (tm_removed m) (tm_warnings m) (tm_logs m).

Definition call_on_removed (id : string) (m : TriggerManager) : TriggerManager :=
  mkTriggers (tm_config m) (tm_triggers m) (tm_heap m) (tm_index m) (tm_next_id m) (tm_shutdown m) (tm_handles m)
    (tm_unresolved m) (tm_unresolved_timeout m) (tm_store m) (tm_removed m ++ [id]) (tm_warnings m) (tm_logs m).

Definition warn (ws : list string) (m : TriggerManager) : TriggerManager :=
  mkTriggers (tm_config m) (tm_triggers m) (tm_heap m) (tm_index m) (tm_next_id m) (tm_shutdown m) (tm_handles m)
    (tm_unresolved m) (tm_unresolved_timeout m) (tm_store m) (tm_removed m) (tm_warnings m ++ ws) (tm_logs m).

Definition add_log_entry (e : log_entry) (m : TriggerManager) : TriggerManager :=
  mkTriggers (tm_config m) (tm_triggers m) (tm_heap m) (tm_index m) (tm_next_id m) (tm_shutdown m) (tm_handles m)
    (tm_unresolved m) (tm_unresolved_timeout m) (tm_store m) (tm_removed m) (tm_warnings m) (tm_logs m ++ [e]).

Definition set_unresolved_timeout (timeout : Z) (m : TriggerManager) : TriggerManager :=
  mkTriggers (tm_config m) (tm_triggers m) (tm_heap m) (tm_index m) (tm_next_id m) (tm_shutdown m) (tm_handles m)
    (tm_unresolved m) timeout (tm_store m) (tm_removed m) (tm_warnings m) (tm_logs m).

Definition set_active (b : bool) (s : TriggerState) : TriggerState :=
  mkTrigger (ts_info s) (ts_previous s) b (ts_entity_seen s) (ts_pending s) (ts_counter s).

Definition set_info (f : TriggerInfo → TriggerInfo) (s : TriggerState) : TriggerState :=
  mkTrigger (f (ts_info s)) (ts_previous s) (ts_active s) (ts_entity_seen s) (ts_pending s) (ts_counter s).

Definition see_entity (s : TriggerState) : TriggerState :=
  mkTrigger (ts_info s) (ts_previous s) (ts_active s) true (ts_pending s) (ts_counter s).

Definition terminate (i : TriggerInfo) : TriggerInfo :=
  mkInfo (ti_id i) (ti_entity_id i) (ti_entity_type i) (ti_resource_uri i) (ti_collection i) (ti_resource_path i)
    (ti_resolved_topic_name i) (ti_path i) (ti_condition_type i) (ti_condition_params i) (ti_protocol i)
    (ti_multishot i) (ti_persistent i) (ti_lifetime_sec i) (ti_log_settings i) TERMINATED (ti_created_at i)
    (ti_expires_at i).

Definition set_topic (topic : string) (i : TriggerInfo) : TriggerInfo :=
  mkInfo (ti_id i) (ti_entity_id i) (ti_entity_type i) (ti_resource_uri i) (ti_collection i) (ti_resource_path i)
    topic (ti_path i) (ti_condition_type i) (ti_condition_params i) (ti_protocol i)
    (ti_multishot i) (ti_persistent i) (ti_lifetime_sec i) (ti_log_settings i) (ti_status i) (ti_created_at i)
    (ti_expires_at i).

Definition set_lifetime (lifetime expires : Z) (i : TriggerInfo) : TriggerInfo :=
  mkInfo (ti_id i) (ti_entity_id i) (ti_entity_type i) (ti_resource_uri i) (ti_collection i) (ti_resource_path i)
    (ti_resolved_topic_name i) (ti_path i) (ti_condition_type i) (ti_condition_params i) (ti_protocol i)
    (ti_multishot i) (ti_persistent i) (Some lifetime) (ti_log_settings i) (ti_status i) (ti_created_at i)
    (Some expires).

(** ** Helpers *)

Definition trigger_id (n : N) : string := "trig_" +:+ pretty n.

Definition generate_id (m : TriggerManager) : string * TriggerManager :=
  (trigger_id (tm_next_id m), with_next_id ((tm_next_id m + 1) `mod` two64)%N m).

Definition dispatch_key (collection entity_id : string) : string := collection +:+ ":" +:+ entity_id.

Definition index_insert (id key : string) (ix : gmap string (gset string)) : gmap string (gset string) :=
  <[key := {[id]} ∪ default ∅ (ix !! key)]> ix.

Definition add_to_dispatch_index (id collection entity_id : string) (ix : gmap string (gset string))
    : gmap string (gset string) :=
  index_insert id (dispatch_key collection "") (index_insert id (dispatch_key collection entity_id) ix).

Definition index_remove (id key : string) (ix : gmap string (gset string)) : gmap string (gset string) :=
  match ix !! key with
  | None => ix
  | Some ids => if bool_decide (ids ∖ {[id]} = ∅) then delete key ix else <[key := ids ∖ {[id]}]> ix
  end.

Definition remove_from_dispatch_index (id collection entity_id : string) (ix : gmap string (gset string))
    : gmap string (gset string) :=
  index_remove id (dispatch_key collection "") (index_remove id (dispatch_key collection entity_id) ix).

Definition is_expired (now : Z) (s : TriggerState) : bool :=
  match ti_expires_at (ts_info s) with None => false | Some e => (e <=? now)%Z end.

(** The entity itself or one of its descendants; [children] is
    [entity_children_fn_], if set. *)
Definition matches_entity (children : option (string → string → list string)) (i : TriggerInfo) (entity_id : string)
    : bool :=
  (ti_entity_id i =?ₛ entity_id) ||
  match children with
  | None => false
  | Some f => bool_decide (entity_id ∈ f (ti_entity_id i) (ti_entity_type i))
  end.

(** ** Time stamps *)

(** Year, month and day of a day number of the proleptic Gregorian calendar, as
    [gmtime_r] gives them. *)
Definition civil_from_days (days : Z) : Z * Z * Z :=
  (let z := days + 719468 in
   let era := z / 146097 in
   let doe := z - era * 146097 in
   let yoe := (doe - doe / 1460 + doe / 36524 - doe / 146096) / 365 in
   let doy := doe - (365 * yoe + yoe / 4 - yoe / 100) in
   let mp := (5 * doy + 2) / 153 in
   let d := doy - (153 * mp + 2) / 5 + 1 in
   let m := if mp <? 10 then mp + 3 else mp - 9 in
   (yoe + era * 400 + (if m <=? 2 then 1 else 0), m, d))%Z.

Definition pad2 (n : Z) : string := if (n <? 10)%Z then "0" +:+ pretty n else pretty n.
Definition pad3 (n : Z) : string :=
  if (n <? 10)%Z then "00" +:+ pretty n else if (n <? 100)%Z then "0" +:+ pretty n else pretty n.

(** For times after the epoch. *)
Definition to_iso8601 (tp : Z) : string :=
  let s := (tp / 1000000000)%Z in
  let ms := ((tp / 1000000) `mod` 1000)%Z in
  let '(y, mo, d) := civil_from_days (s / 86400)%Z in
  let t := (s `mod` 86400)%Z in
  pretty y +:+ "-" +:+ pad2 mo +:+ "-" +:+ pad2 d +:+ "T" +:+ pad2 (t / 3600)%Z +:+ ":" +:+
    pad2 ((t / 60) `mod` 60)%Z +:+ ":" +:+ pad2 (t `mod` 60)%Z +:+ "." +:+ pad3 ms +:+ "Z".

Example iso_example : to_iso8601 1773916200250000000 = "2026-03-19T10:30:00.250Z".
Proof. by vm_compute. Qed.

(** ** Requests *)

Section Operations.
Context (conditions : ConditionRegistry).
Context (transport : bool).                          (* a topic transport is set *)
Context (on_removed : bool).                         (* a removal callback is set *)

Definition info_of_request (now : Z) (id : string) (r : TriggerCreateRequest) : TriggerInfo :=
  mkInfo id (rq_entity_id r) (rq_entity_type r) (rq_resource_uri r) (rq_collection r) (rq_resource_path r)
    (rq_resolved_topic_name r) (rq_path r) (rq_condition_type r) (rq_condition_params r) (rq_protocol r)
    (rq_multishot r) (rq_persistent r) (rq_lifetime_sec r) (rq_log_settings r) ACTIVE now
    ((λ l, now + sec_ns l)%Z <$> rq_lifetime_sec r).

(** [create] up to the insertion; [saved] is the store's answer, [inl] its
    error. *)
Definition create_begin (now : Z) (saved : option string) (removed_ok : bool) (r : TriggerCreateRequest)
    (m : TriggerManager) : (TriggerCreateError + TriggerInfo) * TriggerManager :=
  match conditions !! rq_condition_type r with
  | None => (inl (mkCreateError ValidationError ("Unknown condition type: " +:+ rq_condition_type r)), m)
  | Some evaluator =>
      match validate_params evaluator (rq_condition_params r) with
      | Some e => (inl (mkCreateError ValidationError e), m)
      | None =>
          let '(id, m) := generate_id m in
          let info := info_of_request now id r in
          match (if rq_persistent r then saved else None) with
          | Some e => (inl (mkCreateError PersistenceError ("Failed to persist trigger: " +:+ e)), m)
          | None =>
              let m := if rq_persistent r then with_store (store_save true info (tm_store m)) m else m in
              if (tc_max_triggers (tm_config m) `mod` Z.of_N two64 <=? Z.of_nat (size (tm_triggers m)))%Z then
                (inl (mkCreateError CapacityExceeded ("Maximum trigger capacity (" +:+
                   pretty (tc_max_triggers (tm_config m)) +:+ ") reached")),
                 if rq_persistent r then with_store (store_remove removed_ok id (tm_store m)) m else m)
              else
                (inr info,
                 with_tables (<[id := length (tm_heap m)]> (tm_triggers m))
                   (tm_heap m ++ [mkTrigger info None true true [] 0])
                   (add_to_dispatch_index id (rq_collection r) (rq_entity_id r) (tm_index m)) m)
          end
      end
  end.

(** What is left of [create] after the insertion. *)
Inductive create_rest := SubscribeTopic | QueueUnresolved | Nothing.

Definition rest_of_create (r : TriggerCreateRequest) : create_rest :=
  if transport && (rq_collection r =?ₛ "data") then
    if negb (rq_resolved_topic_name r =?ₛ "") then SubscribeTopic
    else if negb (rq_resource_path r =?ₛ "") then QueueUnresolved
    else Nothing
  else Nothing.

(** The subscription of [create]: [handle] is whether there is one. *)
Definition create_subscribe (handle removed_ok : bool) (info : TriggerInfo) (m : TriggerManager)
    : option TriggerCreateError * TriggerManager :=
  if handle then (None, with_handles (<[ti_id info := ti_resolved_topic_name info]> (tm_handles m)) m)
  else
    let m := with_tables (delete (ti_id info) (tm_triggers m)) (tm_heap m)
               (remove_from_dispatch_index (ti_id info) (ti_collection info) (ti_entity_id info) (tm_index m)) m in
    (Some (mkCreateError SubscribeFailed ("Failed to subscribe to topic '" +:+ ti_resolved_topic_name info +:+
       "' for data trigger; see gateway log for the rclcpp root cause")),
     if ti_persistent info then with_store (store_remove removed_ok (ti_id info) (tm_store m)) m else m).

Definition create_queue (steady : Z) (info : TriggerInfo) (m : TriggerManager) : TriggerManager :=
  with_unresolved (tm_unresolved m ++
    [mkUnresolved (ti_id info) (ti_entity_id info) (ti_resource_path info) steady (Some steady) false]) m.

(** [it->second] of a found id. *)
Definition trigger_at (id : string) (m : TriggerManager) : option TriggerState :=
  a ← tm_triggers m !! id; tm_heap m !! a.

Definition get_trigger (id : string) (m : TriggerManager) : option TriggerInfo := ts_info <$> trigger_at id m.

(** In the order of the ids; the source walks an unordered map. *)
Definition list_triggers (entity_id : string) (m : TriggerManager) : list TriggerInfo :=
  filter (λ i, ti_entity_id i = entity_id) (omap (λ e, ts_info <$> tm_heap m !! e.2) (map_entries (tm_triggers m))).

(** The instant as [to_iso8601] prints it, to the millisecond. *)
Definition whole_ms (tp : Z) : Z := (tp / 1000000 * 1000000)%Z.

(** [update], its lookup and its section of the state taken together. *)
Definition update_trigger (now new_lifetime : Z) (updated_ok : bool) (id : string) (m : TriggerManager)
    : (TriggerCreateError + TriggerInfo) * TriggerManager :=
  if (new_lifetime <=? 0)%Z then
    (inl (mkCreateError ValidationError ("Lifetime must be positive, got: " +:+ pretty new_lifetime)), m)
  else match tm_triggers m !! id with
  | None => (inl (mkCreateError NotFound ("Trigger not found: " +:+ id)), m)
  | Some a =>
      match tm_heap m !! a with
      | None => (inl (mkCreateError NotFound ("Trigger not found: " +:+ id)), m)
      | Some s =>
          let expires := (now + sec_ns new_lifetime)%Z in
          let info := set_lifetime new_lifetime expires (ts_info s) in
          let m := with_states (<[a := set_info (λ _, info) s]> (tm_heap m)) m in
          (inr info,
           if ti_persistent info
           then with_store (store_update updated_ok id (set_lifetime new_lifetime (whole_ms expires)) (tm_store m)) m else m)
      end
  end.

(** [remove] under [triggers_mutex_]: the state it found and whether it is
    persistent. *)
Definition remove_begin (id : string) (m : TriggerManager) : option (nat * bool) * TriggerManager :=
  match tm_triggers m !! id with
  | None => (None, m)
  | Some a =>
      match tm_heap m !! a with
      | None => (None, m)
      | Some s =>
          (Some (a, ti_persistent (ts_info s)),
           with_handles (delete id (tm_handles m))
             (with_tables (delete id (tm_triggers m)) (tm_heap m)
                (remove_from_dispatch_index id (ti_collection (ts_info s)) (ti_entity_id (ts_info s)) (tm_index m)) m))
      end
  end.

Definition notify_removed (id : string) (m : TriggerManager) : TriggerManager :=
  if on_removed then call_on_removed id m else m.

(** The rest of [remove]. *)
Definition remove_end (removed_ok : bool) (id : string) (a : nat) (persistent : bool) (m : TriggerManager)
    : TriggerManager :=
  let m := with_states (alter (set_active false) a (tm_heap m)) m in
  let m := if persistent then with_store (store_remove removed_ok id (tm_store m)) m else m in
  notify_removed id m.

(** [cleanup_expired_trigger]: the exchange, the termination and the store; the
    result is what the second section needs, [None] if another thread was
    first. *)
Definition expire_begin (updated_ok : bool) (id : string) (a : nat) (m : TriggerManager)
    : option (string * string) * TriggerManager :=
  match tm_heap m !! a with
  | None => (None, m)
  | Some s =>
      if negb (ts_active s) then (None, m)
      else
        let m := with_states (<[a := set_info terminate (set_active false s)]> (tm_heap m)) m in
        (Some (ti_collection (ts_info s), ti_entity_id (ts_info s)),
         if ti_persistent (ts_info s) then with_store (store_update updated_ok id terminate (tm_store m)) m else m)
  end.

Definition expire_end (id collection entity_id : string) (m : TriggerManager) : TriggerManager :=
  notify_removed id
    (with_handles (delete id (tm_handles m))
       (with_tables (delete id (tm_triggers m)) (tm_heap m)
          (remove_from_dispatch_index id collection entity_id (tm_index m)) m)).

(** [shutdown]: the flag, then the section. *)
Definition shutdown_flag (m : TriggerManager) : TriggerManager :=
  mkTriggers (tm_config m) (tm_triggers m) (tm_heap m) (tm_index m) (tm_next_id m) true (tm_handles m)
    (tm_unresolved m) (tm_unresolved_timeout m) (tm_store m) (tm_removed m) (tm_warnings m) (tm_logs m).

Definition shutdown_end (m : TriggerManager) : TriggerManager :=
  with_handles ∅ (with_states
    (foldr (λ e h, alter (set_active false) e.2 h) (tm_heap m) (map_entries (tm_triggers m))) m).

(** ** Streams *)

(** The predicate [wait_for_event] waits for. *)
Definition event_ready (m : TriggerManager) (s : TriggerState) : bool :=
  negb (bool_decide (ts_pending s = [])) || negb (ts_active s) || tm_shutdown m.

(** [is_active] under the state's mutex. *)
Inductive activity := Inactive | Alive | Expired.

Definition check_active (now : Z) (s : TriggerState) : activity :=
  if negb (ts_active s) then Inactive
  else if bool_decide (ti_status (ts_info s) = TERMINATED) then Inactive
  else if negb (is_expired now s) then Alive else Expired.

Definition pop_event (s : TriggerState) : TriggerState :=
  mkTrigger (ts_info s) (ts_previous s) (ts_active s) (ts_entity_seen s) (tail (ts_pending s)) (ts_counter s).

(** [consume_pending_event] on a found state. *)
Definition consume_event (a : nat) (m : TriggerManager) : option json * TriggerManager :=
  match tm_heap m !! a with
  | Some s =>
      match ts_pending s with
      | [] => (None, m)
      | e :: _ => (Some e, with_states (<[a := pop_event s]> (tm_heap m)) m)
      end
  | None => (None, m)
  end.

(** ** Evaluation *)

(** The triggers a change may concern, from the dispatch index; [walk] is the
    order of the set. *)
Definition candidates (walk : gset string → list string) (c : ResourceChange) (m : TriggerManager)
    : list (string * nat) :=
  let ids := default ∅ (tm_index m !! dispatch_key (rc_collection c) (rc_entity_id c)) ∪
             default ∅ (tm_index m !! dispatch_key (rc_collection c) "") in
  omap (λ id, (λ a, (id, a)) <$> tm_triggers m !! id) (walk ids).

(** The first section of a candidate. *)
Inductive first_check := Skip | CleanUp | Consider.

Definition check_candidate (now : Z) (c : ResourceChange) (s : TriggerState) : first_check :=
  if negb (bool_decide (ti_status (ts_info s) = ACTIVE)) || negb (ts_active s) then Skip
  else if is_expired now s then CleanUp
  else if negb (ti_resource_path (ts_info s) =?ₛ "") && negb (ti_resource_path (ts_info s) =?ₛ rc_resource_path c)
  then Skip else Consider.

Context (json_at : string → json → option json).     (* the value at a JSON pointer, if it is valid and there *)

Definition extracted (path : string) (v : json) : option json :=
  if path =?ₛ "" then Some v else json_at path v.

Definition envelope (now : Z) (v : json) : json :=
  JObj [("payload", v); ("timestamp", JStr (to_iso8601 now))].

Definition push_event (e : json) (l : list json) : list json :=
  if kMaxPendingEvents <? length (l ++ [e]) then tail (l ++ [e]) else l ++ [e].

Definition fire (now : Z) (v value : json) (s : TriggerState) : TriggerState :=
  let one_shot := negb (ti_multishot (ts_info s)) in
  mkTrigger (if one_shot then terminate (ts_info s) else ts_info s) (Some value)
    (if one_shot then false else ts_active s) (ts_entity_seen s)
    (push_event (envelope now v) (ts_pending s)) ((ts_counter s + 1) `mod` two64)%N.

Definition remember (value : json) (s : TriggerState) : TriggerState :=
  mkTrigger (ts_info s) (Some value) (ts_active s) (ts_entity_seen s) (ts_pending s) (ts_counter s).

(** The second section of a candidate: what fired and the new state; [None] if
    nothing is evaluated.  Parameters outside of what the condition was validated
    for, undefined behaviour in the source, are not evaluated either. *)
Definition evaluate_candidate (now : Z) (c : ResourceChange) (s : TriggerState) : option (bool * json * TriggerState) :=
  if negb (bool_decide (ti_status (ts_info s) = ACTIVE)) || negb (ts_active s) then None
  else
    value ← extracted (ti_path (ts_info s)) (rc_value c);
    evaluator ← conditions !! ti_condition_type (ts_info s);
    fired ← evaluate evaluator (ts_previous s) value (ti_condition_params (ts_info s));
    Some (fired, value, if fired : bool then fire now (rc_value c) value s else remember value s).

(** The store and log calls after the section, outside of all locks. *)
Definition log_of (i : TriggerInfo) (settings : json) : option log_entry :=
  let value key dflt := match field key settings with
                        | None => Some dflt
                        | Some (JStr s) => Some s
                        | Some _ => None
                        end in
  if negb (is_object settings) then None
  else severity ← value "severity" "info"; marker ← value "marker" "Trigger fired";
       Some (mkLog (ti_entity_id i) severity marker (ti_id i) (ti_condition_type i) (ti_resource_uri i)).

Definition after_evaluation (saved_ok updated_ok log_manager fired : bool) (i : TriggerInfo) (value : json)
    (m : TriggerManager) : TriggerManager :=
  let m := if (tc_on_restart_behavior (tm_config m) =?ₛ "restore") && ti_persistent i
           then with_store (store_save_state saved_ok (ti_id i) value (tm_store m)) m else m in
  if fired then
    let m := if negb (ti_multishot i) && ti_persistent i
             then with_store (store_update updated_ok (ti_id i) terminate (tm_store m)) m else m in
    match ti_log_settings i with
    | Some settings =>
        if log_manager : bool then match log_of i settings with Some e => add_log_entry e m | None => m end else m
    | None => m
    end
  else m.
End Operations.

(** ** Deferred resolution *)

Section Discovery.
Context (resolve : string → string → string).        (* [resolve_topic_fn_] *)
Context (subscribes : string → bool).                (* the transport accepts the topic *)

Definition gave_up (timeout : Z) (u : UnresolvedTrigger) : string :=
  "trigger '" +:+ ut_trigger_id u +:+ "': gave up resolving resource_path '" +:+ ut_resource_path u +:+
  "' to a topic for entity '" +:+ ut_entity_id u +:+ "' after " +:+ pretty timeout +:+
  " s of the entity being discovered. The trigger stays active but cannot fire; delete it " +:+
  "and recreate it once the topic exists.".

Definition still_waiting (timeout : Z) (u : UnresolvedTrigger) : string :=
  "trigger '" +:+ ut_trigger_id u +:+ "': entity '" +:+ ut_entity_id u +:+
  "' has not appeared in discovery after " +:+ pretty timeout +:+ " s, so resource_path '" +:+ ut_resource_path u +:+
  "' cannot be resolved to a topic. The trigger stays active and keeps retrying, and it " +:+
  "cannot fire until that entity is discovered.".

(** The entry with its budget started and its waiting reported, where due, and
    the warning; [None]: the budget is used up. *)
Definition age_entry (now timeout : Z) (seen : bool) (u : UnresolvedTrigger)
    : option UnresolvedTrigger * list string :=
  let seen_at := match ut_entity_seen_at u with Some t => Some t | None => if seen then Some now else None end in
  let u := mkUnresolved (ut_trigger_id u) (ut_entity_id u) (ut_resource_path u) (ut_created_at u) seen_at
             (ut_waiting_reported u) in
  match seen_at with
  | Some t => if (sec_ns timeout <? now - t)%Z then (None, [gave_up timeout u]) else (Some u, [])
  | None =>
      if negb (ut_waiting_reported u) && (sec_ns timeout <? now - ut_created_at u)%Z
      then (Some (mkUnresolved (ut_trigger_id u) (ut_entity_id u) (ut_resource_path u) (ut_created_at u) None true),
            [still_waiting timeout u])
      else (Some u, [])
  end.

(** One entry of the loop: kept, dropped (stale or given up) or resolved. *)
Definition retry_entry (now : Z) (acc : list UnresolvedTrigger * list string * TriggerManager)
    (u : UnresolvedTrigger) : list UnresolvedTrigger * list string * TriggerManager :=
  let '(kept, ws, m) := acc in
  match tm_triggers m !! ut_trigger_id u with
  | None => (kept, ws, m)
  | Some a =>
      match age_entry now (tm_unresolved_timeout m) (from_option ts_entity_seen false (tm_heap m !! a)) u with
      | (None, w) => (kept, ws ++ w, m)
      | (Some u, w) =>
          let topic := resolve (ut_entity_id u) (ut_resource_path u) in
          if topic =?ₛ "" then (kept ++ [u], ws ++ w, m)
          else
            let m := with_states (alter (set_info (set_topic topic)) a (tm_heap m)) m in
            if subscribes topic
            then (kept, ws ++ w, with_handles (<[ut_trigger_id u := topic]> (tm_handles m)) m)
            else (kept ++ [u], ws ++ w, m)
      end
  end.

(** [resolve_set]: a resolver is set. *)
Definition retry_unresolved_triggers (transport resolve_set : bool) (now : Z) (m : TriggerManager) : TriggerManager :=
  if tm_shutdown m then m
  else if bool_decide (tm_unresolved m = []) || negb resolve_set || negb transport then m
  else
    let '(kept, ws, m') := foldl (retry_entry now) ([], [], m) (tm_unresolved m) in
    warn ws (with_unresolved kept m').

(** ** Orphans *)

(** The first phase: the states whose entity is there are marked as seen; the
    ids and entities of the others that were seen before. *)
Definition sweep_collect (exists_ : string → string → bool) (m : TriggerManager)
    : list (string * string) * TriggerManager :=
  let known a := match tm_heap m !! a with
                 | Some s => ts_active s && exists_ (ti_entity_id (ts_info s)) (ti_entity_type (ts_info s))
                 | None => false
                 end in
  (omap (λ e, s ← tm_heap m !! e.2;
     if ts_active s && negb (known e.2) && ts_entity_seen s then Some (e.1, ti_entity_id (ts_info s)) else None)
     (map_entries (tm_triggers m)),
   with_states (foldr (λ e h, if known e.2 then alter see_entity e.2 h else h) (tm_heap m)
                  (map_entries (tm_triggers m))) m).

Definition orphan_warning (e : string * string) : string :=
  "orphan sweep: removed trigger '" +:+ e.1 +:+ "' because entity '" +:+ e.2 +:+ "' is not in the discovery cache.".

(** ** Restart *)

(** [id.substr(id.find('_') + 1)]. *)
Fixpoint split_at_underscore (id : string) : option string :=
  match id with
  | "" => None
  | String c id' => if bool_decide (c = "_"%char) then Some id' else split_at_underscore id'
  end.

Definition bump_next_id (id : string) (next : N) : N :=
  match split_at_underscore id with
  | None => next
  | Some suffix =>
      match stoull suffix with
      | None => next
      | Some n => if (next <=? n)%N then ((n + 1) `mod` two64)%N else next
      end
  end.

(** One row of [load_persistent_triggers]: the number of restored ones, the
    warnings, the manager.  [state_ok] and [update_error] are the store's answers
    about a trigger. *)
Definition restore_row (now steady : Z) (transport : bool) (state_ok : string → bool)
    (update_error : string → option string)
    (acc : nat * list string * TriggerManager) (i : TriggerInfo) : nat * list string * TriggerManager :=
  let '(restored, ws, m) := acc in
  if negb (bool_decide (ti_status i = ACTIVE)) then acc
  else if (match ti_expires_at i with Some e => (e <=? now)%Z | None => false end) then
    (restored,
     ws ++ ["persistent trigger restore: trigger '" +:+ ti_id i +:+ "' on entity '" +:+ ti_entity_id i +:+
       "' expired while the gateway was down and was not restored."] ++
       (match update_error (ti_id i) with
        | None => []
        | Some e => ["persistent trigger restore: marking expired trigger '" +:+ ti_id i +:+
            "' TERMINATED in the store failed (" +:+ e +:+
            "). It stays ACTIVE on disk and is re-examined on every restart."]
        end),
     with_store (store_update (bool_decide (update_error (ti_id i) = None)) (ti_id i) terminate (tm_store m)) m)
  else
    let s := mkTrigger i (if state_ok (ti_id i) then sto_values (tm_store m) !! ti_id i else None) true false [] 0 in
    let m := with_next_id (bump_next_id (ti_id i) (tm_next_id m)) m in
    let '(ws, m) :=
      if transport && (ti_collection i =?ₛ "data") then
        if negb (ti_resource_path i =?ₛ "") then
          (ws, with_unresolved (tm_unresolved m ++
             [mkUnresolved (ti_id i) (ti_entity_id i) (ti_resource_path i) steady None false]) m)
        else if negb (ti_resolved_topic_name i =?ₛ "") then
          if subscribes (ti_resolved_topic_name i)
          then (ws, with_handles (<[ti_id i := ti_resolved_topic_name i]> (tm_handles m)) m)
          else (ws ++ ["persistent trigger restore: trigger '" +:+ ti_id i +:+ "' could not subscribe to '" +:+
                  ti_resolved_topic_name i +:+ "' and carries no resource_path to resolve again from. " +:+
                  "It stays active but cannot fire; delete it and recreate it."], m)
        else (ws, m)
      else (ws, m) in
    (S restored, ws,
     with_tables (<[ti_id i := length (tm_heap m)]> (tm_triggers m)) (tm_heap m ++ [s])
       (add_to_dispatch_index (ti_id i) (ti_collection i) (ti_entity_id i) (tm_index m)) m).

(** [rows] is what the store loads, in its order. *)
Definition load_persistent_triggers (now steady : Z) (transport : bool) (state_ok : string → bool)
    (update_error : string → option string)
    (rows : string + list TriggerInfo) (m : TriggerManager) : nat * TriggerManager :=
  if negb (tc_on_restart_behavior (tm_config m) =?ₛ "restore") then (0, m)
  else match rows with
  | inl e =>
      (0, warn ["persistent trigger restore: reading the trigger store failed (" +:+ e +:+
        "). No persistent trigger was restored, and restore is not retried, so they stay absent until this " +:+
        "gateway is restarted."] m)
  | inr rows =>
      let '(restored, ws, m) := foldl (restore_row now steady transport state_ok update_error) (0, [], m) rows in
      (restored, warn ws m)
  end.
End Discovery.

(** ** Concurrent runs *)

(** Where the worker of the notifier is: the candidates left and the one-shot
    triggers to remove. *)
Inductive worker :=
  | WIdle
  | WLoop (c : ResourceChange) (todo : list (string * nat)) (done : list string)
  | WExpire (c : ResourceChange) (id : string) (a : nat) (todo : list (string * nat)) (done : list string)
  | WExpireEnd (c : ResourceChange) (id collection entity_id : string) (todo : list (string * nat)) (done : list string)
  | WConsider (c : ResourceChange) (a : nat) (todo : list (string * nat)) (done : list string)
  | WAfter (c : ResourceChange) (fired : bool) (i : TriggerInfo) (value : json)
      (todo : list (string * nat)) (done : list string)
  | WRemove (ids : list string)
  | WRemoveEnd (id : string) (a : nat) (persistent : bool) (ids : list string).

(** Requests between two of their sections. *)
Inductive request :=
  | RCreate (rest : create_rest) (info : TriggerInfo)
  | RRemoveEnd (id : string) (a : nat) (persistent : bool)
  | RExpire (id : string) (a : nat)
  | RExpireEnd (id collection entity_id : string)
  | RSweep (todo : list string) (orphans : list (string * string))
  | RShutdown.

(** Where a stream is in its [next_event]: the lookups of [is_active],
    [wait_for_event] and [consume_pending_event], and the section after each. *)
Inductive stream_pc :=
  | SStart | SCheck (a : nat)
  | SWait | SWaiting (a : nat)
  | SWoken (woken : bool) | SCheck2 (woken : bool) (a : nat)
  | SDrain | SDrainAt (a : nat)
  | SClosed.

Record stream := mkStream { sm_id : string; sm_pc : stream_pc; sm_sent : list json }.

(** [sy_fired] and [sy_taken] record, by the state's address, the events that
    were put last on its queue and the events taken by streams. *)
Record System := mkSystem {
  sy_manager : TriggerManager;
  sy_worker : worker;
  sy_requests : list request;
  sy_streams : list stream;
  sy_fired : list (nat * json);
  sy_taken : list (nat * json);
}.

Definition new_system (m : TriggerManager) : System := mkSystem m WIdle [] [] [] [].

Definition to_manager (m : TriggerManager) (s : System) : System :=
  mkSystem m (sy_worker s) (sy_requests s) (sy_streams s) (sy_fired s) (sy_taken s).
Definition to_worker (w : worker) (s : System) : System :=
  mkSystem (sy_manager s) w (sy_requests s) (sy_streams s) (sy_fired s) (sy_taken s).
Definition to_requests (rs : list request) (s : System) : System :=
  mkSystem (sy_manager s) (sy_worker s) rs (sy_streams s) (sy_fired s) (sy_taken s).
Definition to_streams (ss : list stream) (s : System) : System :=
  mkSystem (sy_manager s) (sy_worker s) (sy_requests s) ss (sy_fired s) (sy_taken s).

Definition add_request (r : option request) (s : System) : System :=
  match r with Some r => to_requests (sy_requests s ++ [r]) s | None => s end.

Definition goto_pc (pc : stream_pc) (st : stream) : stream := mkStream (sm_id st) pc (sm_sent st).
Definition move_stream (k : nat) (pc : stream_pc) (s : System) : System :=
  to_streams (alter (goto_pc pc) k (sy_streams s)) s.

Section Steps.
Context (conditions : ConditionRegistry) (transport on_removed log_manager : bool).
Context (json_at : string → json → option json) (walk : gset string → list string).

Definition pending_create (r : TriggerCreateRequest) (result : TriggerCreateError + TriggerInfo) : option request :=
  match result with inr info => Some (RCreate (rest_of_create transport r) info) | inl _ => None end.

(** A section of a pending request and the request it leaves. *)
Definition run_request (ok ok' : bool) (steady : Z) (r : request) (m : TriggerManager)
    : option request * TriggerManager :=
  match r with
  | RCreate SubscribeTopic info => (None, (create_subscribe ok ok' info m).2)
  | RCreate QueueUnresolved info => (None, create_queue steady info m)
  | RCreate Nothing _ => (None, m)
  | RRemoveEnd id a persistent => (None, remove_end on_removed ok id a persistent m)
  | RExpire id a =>
      let '(r, m) := expire_begin ok id a m in ((λ p, RExpireEnd id p.1 p.2) <$> r, m)
  | RExpireEnd id collection entity_id => (None, expire_end on_removed id collection entity_id m)
  | RSweep [] orphans => (None, warn (orphan_warning <$> orphans) m)
  | RSweep (id :: todo) orphans => (Some r, m)  (* [step_sweep_remove] *)
  | RShutdown => (None, shutdown_end m)
  end.

(** What the worker does next at a given time. *)
Definition work (now : Z) (ok ok' : bool) (children : option (string → string → list string)) (s : System) : System :=
  let m := sy_manager s in
  match sy_worker s with
  | WIdle => s
  | WLoop c [] done => to_worker (WRemove done) s
  | WLoop c ((id, a) :: todo) done =>
      match tm_heap m !! a with
      | None => to_worker (WLoop c todo done) s
      | Some t =>
          to_worker (match check_candidate now c t with
                     | Skip => WLoop c todo done
                     | CleanUp => WExpire c id a todo done
                     | Consider =>
                         if matches_entity children (ts_info t) (rc_entity_id c)
                         then WConsider c a todo done else WLoop c todo done
                     end) s
      end
  | WExpire c id a todo done =>
      let '(r, m) := expire_begin ok id a m in
      to_worker (match r with Some (collection, entity_id) => WExpireEnd c id collection entity_id todo done
                 | None => WLoop c todo done end) (to_manager m s)
  | WExpireEnd c id collection entity_id todo done =>
      to_worker (WLoop c todo done) (to_manager (expire_end on_removed id collection entity_id m) s)
  | WConsider c a todo done =>
      match t ← tm_heap m !! a; (λ r, (t, r)) <$> evaluate_candidate conditions json_at now c t with
      | None => to_worker (WLoop c todo done) s
      | Some (t, (fired, value, t')) =>
          mkSystem (with_states (<[a := t']> (tm_heap m)) m)
            (WAfter c fired (ts_info t) value todo
               (if fired && negb (ti_multishot (ts_info t)) then done ++ [ti_id (ts_info t)] else done))
            (sy_requests s) (sy_streams s)
            (if fired then sy_fired s ++ (pair a <$> option_list (last (ts_pending t'))) else sy_fired s) (sy_taken s)
      end
  | WAfter c fired i value todo done =>
      to_worker (WLoop c todo done) (to_manager (after_evaluation ok ok' log_manager fired i value m) s)
  | WRemove [] => to_worker WIdle s
  | WRemove (id :: ids) =>
      let '(r, m) := remove_begin id m in
      to_worker (match r with Some (a, persistent) => WRemoveEnd id a persistent ids | None => WRemove ids end)
        (to_manager m s)
  | WRemoveEnd id a persistent ids =>
      to_worker (WRemove ids) (to_manager (remove_end on_removed ok id a persistent m) s)
  end.

(** What stream [k] does next; [written] is whether the client took the data. *)
Definition stream_next (now : Z) (written : bool) (k : nat) (st : stream) (s : System) : System :=
  let m := sy_manager s in
  let found (pc : nat → stream_pc) (missing : stream_pc) : System :=
    move_stream k (match tm_triggers m !! sm_id st with Some a => pc a | None => missing end) s in
  let checked (a : nat) (alive : stream_pc) : System :=
    match tm_heap m !! a with
    | None => move_stream k SClosed s
    | Some t =>
        match check_active now t with
        | Alive => move_stream k alive s
        | Inactive => move_stream k SClosed s
        | Expired => move_stream k SClosed (add_request (Some (RExpire (sm_id st) a)) s)
        end
    end in
  match sm_pc st with
  | SStart => found SCheck SClosed
  | SCheck a => checked a SWait
  | SWait => found SWaiting (SWoken true)
  | SWaiting a => s
  | SWoken woken => found (SCheck2 woken) SClosed
  | SCheck2 woken a => checked a (if woken then SDrain else if written then SStart else SClosed)
  | SDrain => found SDrainAt SStart
  | SDrainAt a =>
      match consume_event a m with
      | (None, _) => move_stream k SStart s
      | (Some e, m) =>
          mkSystem m (sy_worker s) (sy_requests s)
            (<[k := if written then mkStream (sm_id st) SDrain (sm_sent st ++ [e]) else goto_pc SClosed st]>
               (sy_streams s))
            (sy_fired s) (sy_taken s ++ [(a, e)])
      end
  | SClosed => s
  end.

Inductive sys_step : System → System → Prop :=
  | step_create now saved ok r result m s :
      create_begin conditions now saved ok r (sy_manager s) = (result, m) →
      sys_step s (add_request (pending_create r result) (to_manager m s))
  | step_update now lifetime ok id s :
      sys_step s (to_manager (update_trigger now lifetime ok id (sy_manager s)).2 s)
  | step_remove id r m s :
      remove_begin id (sy_manager s) = (r, m) →
      sys_step s (add_request ((λ p, RRemoveEnd id p.1 p.2) <$> r) (to_manager m s))
  | step_request i r ok ok' steady r' m s :
      sy_requests s !! i = Some r → run_request ok ok' steady r (sy_manager s) = (r', m) →
      sys_step s (add_request r' (to_requests (delete i (sy_requests s)) (to_manager m s)))
  | step_retry resolve subscribes resolve_set now s :
      sys_step s (to_manager (retry_unresolved_triggers resolve subscribes transport resolve_set now (sy_manager s)) s)
  | step_sweep exists_ orphans m s :
      sweep_collect exists_ (sy_manager s) = (orphans, m) →
      sys_step s (add_request (Some (RSweep orphans.*1 orphans)) (to_manager m s))
  | step_sweep_remove i id todo orphans r m s :
      sy_requests s !! i = Some (RSweep (id :: todo) orphans) → remove_begin id (sy_manager s) = (r, m) →
      sys_step s (add_request ((λ p, RRemoveEnd id p.1 p.2) <$> r)
        (to_requests (<[i := RSweep todo orphans]> (sy_requests s)) (to_manager m s)))
  | step_shutdown s :
      sys_step s (add_request (if tm_shutdown (sy_manager s) then None else Some RShutdown)
        (to_manager (shutdown_flag (sy_manager s)) s))
  | step_change c s :
      sy_worker s = WIdle →
      sys_step s (to_worker (if tm_shutdown (sy_manager s) then WIdle
                             else WLoop c (candidates walk c (sy_manager s)) []) s)
  | step_work now ok ok' children s : sys_step s (work now ok ok' children s)
  | step_open id s : sys_step s (to_streams (sy_streams s ++ [mkStream id SStart []]) s)
  | step_stream now written k st s :
      sy_streams s !! k = Some st → sys_step s (stream_next now written k st s)
  | step_wake k st a woken s :
      sy_streams s !! k = Some st → sm_pc st = SWaiting a →
      from_option (event_ready (sy_manager s)) true (tm_heap (sy_manager s) !! a) = woken →
      sys_step s (move_stream k (SWoken woken) s).
End Steps.
