(* ===== verification/TriggerManagerSpec.v ===== *)
(** * What triggers guarantee

    Under any interleaving of requests, the worker of the notifier and event
    streams: the tables of the manager agree, events are queued and taken in
    order, and what reaches a stream. *)

From stdpp Require Import relations.
From S2P Require Import Prelude Json TriggerConditions FaultTriggers FaultTriggersSpec TriggerManager.

(** ** Dispatch index *)

(** The keys a trigger is filed under. *)
Definition filed_under (i : TriggerInfo) (key : string) : Prop :=
  key = dispatch_key (ti_collection i) (ti_entity_id i) ∨ key = dispatch_key (ti_collection i) "".

Definition indexed (ix : gmap string (gset string)) (id key : string) : Prop := id ∈ default ∅ (ix !! key).

Lemma indexed_insert ix id key id' key' :
  indexed (index_insert id key ix) id' key' ↔ indexed ix id' key' ∨ id' = id ∧ key' = key.
Proof.
  unfold indexed, index_insert. destruct (decide (key' = key)) as [->|Hne].
  - rewrite lookup_insert_eq. cbn. set_solver.
  - rewrite lookup_insert_ne by done. naive_solver.
Qed.

Lemma indexed_remove ix id key id' key' :
  indexed (index_remove id key ix) id' key' ↔ indexed ix id' key' ∧ ¬ (id' = id ∧ key' = key).
Proof.
  unfold indexed, index_remove. destruct (ix !! key) as [ids|] eqn:Hk.
  - case_bool_decide as He; (destruct (decide (key' = key)) as [->|Hne];
      [rewrite ?lookup_delete_eq, ?lookup_insert_eq, Hk; cbn; set_solver|]).
    + rewrite lookup_delete_ne by done. naive_solver.
    + rewrite lookup_insert_ne by done. naive_solver.
  - destruct (decide (key' = key)) as [->|]; [rewrite Hk; cbn; set_solver|naive_solver].
Qed.

Lemma indexed_add ix i id' key :
  indexed (add_to_dispatch_index (ti_id i) (ti_collection i) (ti_entity_id i) ix) id' key ↔
    indexed ix id' key ∨ id' = ti_id i ∧ filed_under i key.
Proof. unfold add_to_dispatch_index, filed_under. rewrite !indexed_insert. naive_solver. Qed.

Lemma indexed_remove_both ix id collection entity_id id' key :
  indexed (remove_from_dispatch_index id collection entity_id ix) id' key ↔
    indexed ix id' key ∧
      ¬ (id' = id ∧ (key = dispatch_key collection entity_id ∨ key = dispatch_key collection "")).
Proof. unfold remove_from_dispatch_index. rewrite !indexed_remove. naive_solver. Qed.

(** ** The tables of the manager *)

Definition tid (t : TriggerState) : string := ti_id (ts_info t).

(** Addresses are found under their trigger's id, and the index files exactly
    the triggers of the table. *)
Record tables_ok (m : TriggerManager) : Prop := {
  to_unique : NoDup (tid <$> tm_heap m);
  to_issued t : t ∈ tm_heap m → ∃ n, tid t = trigger_id n ∧ (n < tm_next_id m)%N;
  to_triggers id a : tm_triggers m !! id = Some a → ∃ t, tm_heap m !! a = Some t ∧ tid t = id;
  to_index id key : indexed (tm_index m) id key ↔
    ∃ a t, tm_triggers m !! id = Some a ∧ tm_heap m !! a = Some t ∧ filed_under (ts_info t) key;
}.

Lemma heap_unique m a b t u :
  NoDup (tid <$> tm_heap m) → tm_heap m !! a = Some t → tm_heap m !! b = Some u → tid t = tid u → a = b.
Proof.
  intros Hnd Ha Hb Heq. eapply NoDup_lookup; [exact Hnd| |]; rewrite list_lookup_fmap; [by rewrite Ha|].
  rewrite Hb. cbn. by rewrite Heq.
Qed.

(** ** Sections that neither add triggers nor touch their events *)

Record same_trigger (t t' : TriggerState) : Prop := {
  st_id : ti_id (ts_info t') = ti_id (ts_info t);
  st_collection : ti_collection (ts_info t') = ti_collection (ts_info t);
  st_entity : ti_entity_id (ts_info t') = ti_entity_id (ts_info t);
  st_multishot : ti_multishot (ts_info t') = ti_multishot (ts_info t);
  st_active : ts_active t' = true → ts_active t = true;
}.

Definition quiet (t t' : TriggerState) : Prop := same_trigger t t' ∧ ts_pending t' = ts_pending t.

Record keeps (m m' : TriggerManager) : Prop := {
  kp_heap : Forall2 quiet (tm_heap m) (tm_heap m');
  kp_triggers id a : tm_triggers m' !! id = Some a → tm_triggers m !! id = Some a;
  kp_next : tm_next_id m' = tm_next_id m;
  kp_config : tm_config m' = tm_config m;
  kp_shutdown : tm_shutdown m' = false → tm_shutdown m = false;
}.

#[global] Instance same_trigger_preorder : PreOrder same_trigger.
Proof.
  split; [by split|]. intros t u v [H1 H2 H3 H4 H5] [K1 K2 K3 K4 K5]. split; try congruence. auto.
Qed.

#[global] Instance quiet_preorder : PreOrder quiet.
Proof.
  split; [intros t; by split|]. intros t u v [H1 H2] [K1 K2]. split; [by transitivity u|congruence].
Qed.

#[global] Instance keeps_preorder : PreOrder keeps.
Proof.
  split.
  - intros m. by split.
  - intros m n k [H1 H2 H3 H4 H5] [K1 K2 K3 K4 K5]. split; try congruence; auto.
    by transitivity (tm_heap n).
Qed.

(** The same heap, at most fewer triggers. *)
Lemma keeps_tables m m' :
  tm_heap m' = tm_heap m → (∀ id a, tm_triggers m' !! id = Some a → tm_triggers m !! id = Some a) →
  tm_next_id m' = tm_next_id m → tm_config m' = tm_config m → (tm_shutdown m' = false → tm_shutdown m = false) →
  keeps m m'.
Proof. intros Hh ????. split; try done. rewrite Hh. reflexivity. Qed.

Lemma keeps_alter m a f : (∀ t, quiet t (f t)) → keeps m (with_states (alter f a (tm_heap m)) m).
Proof.
  intros Hf. split; try done. cbn. apply Forall2_same_length_lookup_2; [by rewrite length_alter|].
  intros i t t' Hi Hi'. destruct (decide (i = a)) as [->|Hne].
  - rewrite list_lookup_alter_eq, Hi in Hi'. by injection Hi' as <-.
  - rewrite list_lookup_alter_ne, Hi in Hi' by done. by injection Hi' as <-.
Qed.

Lemma keeps_insert m a t t' :
  tm_heap m !! a = Some t → quiet t t' → keeps m (with_states (<[a := t']> (tm_heap m)) m).
Proof.
  intros Ha Hq. split; try done. cbn. apply Forall2_same_length_lookup_2; [by rewrite length_insert|].
  intros i u u' Hi Hi'. destruct (decide (i = a)) as [->|Hne].
  - rewrite list_lookup_insert_eq in Hi' by (by eapply lookup_lt_Some). by simplify_eq.
  - rewrite list_lookup_insert_ne, Hi in Hi' by done. by injection Hi' as <-.
Qed.

Ltac easy_keeps := apply keeps_tables; naive_solver.

Lemma keeps_with_store st m : keeps m (with_store st m).
Proof. easy_keeps. Qed.
Lemma keeps_with_handles hs m : keeps m (with_handles hs m).
Proof. easy_keeps. Qed.
Lemma keeps_with_unresolved u m : keeps m (with_unresolved u m).
Proof. easy_keeps. Qed.
Lemma keeps_warn ws m : keeps m (warn ws m).
Proof. easy_keeps. Qed.
Lemma keeps_log e m : keeps m (add_log_entry e m).
Proof. easy_keeps. Qed.
Lemma keeps_shutdown_flag m : keeps m (shutdown_flag m).
Proof. easy_keeps. Qed.
Lemma keeps_removed b id m : keeps m (notify_removed b id m).
Proof. unfold notify_removed. destruct b; easy_keeps. Qed.
Lemma keeps_drop id ix m : keeps m (with_tables (delete id (tm_triggers m)) (tm_heap m) ix m).
Proof. apply keeps_tables; try done. cbn. intros id' a [_ H]%lookup_delete_Some. exact H. Qed.

Lemma keeps_refl m : keeps m m.
Proof. reflexivity. Qed.

Create HintDb keeps.
#[local] Hint Resolve keeps_refl keeps_with_store keeps_with_handles keeps_with_unresolved keeps_warn keeps_log
  keeps_shutdown_flag keeps_removed keeps_drop : keeps.

Lemma keeps_update now l ok id m : keeps m (update_trigger now l ok id m).2.
Proof.
  unfold update_trigger. destruct (l <=? 0)%Z; [done|]. destruct (tm_triggers m !! id) as [a|]; [|done].
  destruct (tm_heap m !! a) as [t|] eqn:Ha; [|done]. cbn [snd].
  assert (keeps m (with_states (<[a := set_info (λ _, set_lifetime l (now + sec_ns l) (ts_info t)) t]> (tm_heap m)) m))
    as Hk by (by eapply keeps_insert; [done|split]).
  case_match; [|done]. etransitivity; [exact Hk|]. auto with keeps.
Qed.

Lemma keeps_remove_begin id m : keeps m (remove_begin id m).2.
Proof.
  unfold remove_begin. destruct (tm_triggers m !! id); [|done]. destruct (tm_heap m !! n); [|done]. cbn [snd].
  etransitivity; [apply keeps_drop|]. auto with keeps.
Qed.

Lemma keeps_deactivate a m : keeps m (with_states (alter (set_active false) a (tm_heap m)) m).
Proof. apply keeps_alter. intros t. by split. Qed.

Lemma keeps_remove_end b ok id a p m : keeps m (remove_end b ok id a p m).
Proof.
  unfold remove_end. etransitivity; [apply (keeps_deactivate a)|]. etransitivity; [|apply keeps_removed].
  destruct p; [auto with keeps|done].
Qed.

Lemma keeps_expire_begin ok id a m : keeps m (expire_begin ok id a m).2.
Proof.
  unfold expire_begin. destruct (tm_heap m !! a) as [t|] eqn:Ha; [|done]. destruct (ts_active t); [|done]. cbn [snd negb].
  assert (keeps m (with_states (<[a := set_info terminate (set_active false t)]> (tm_heap m)) m)) as Hk
    by (by eapply keeps_insert; [done|split]).
  case_match; [|done]. etransitivity; [exact Hk|]. auto with keeps.
Qed.

Lemma keeps_expire_end b id c e m : keeps m (expire_end b id c e m).
Proof.
  unfold expire_end. etransitivity; [apply keeps_drop|]. etransitivity; [|apply keeps_removed]. auto with keeps.
Qed.

Lemma keeps_subscribe ok ok' info m : keeps m (create_subscribe ok ok' info m).2.
Proof.
  unfold create_subscribe. destruct ok; cbn [snd]; [auto with keeps|].
  case_match; [etransitivity; [apply keeps_drop|]; auto with keeps|apply keeps_drop].
Qed.

Lemma keeps_queue steady info m : keeps m (create_queue steady info m).
Proof. apply keeps_with_unresolved. Qed.

Lemma keeps_shutdown_end m : keeps m (shutdown_end m).
Proof.
  unfold shutdown_end. etransitivity; [|apply keeps_with_handles].
  induction (map_entries (tm_triggers m)) as [|e l IH]; cbn [foldr]; [by destruct m|].
  etransitivity; [exact IH|]. exact (keeps_deactivate e.2 _).
Qed.

Lemma keeps_retry_entry resolve subscribes now acc u :
  keeps acc.2 (retry_entry resolve subscribes now acc u).2.
Proof.
  destruct acc as [[kept ws] m]. unfold retry_entry. cbn [snd].
  destruct (tm_triggers m !! ut_trigger_id u) as [a|]; [|done]. destruct (age_entry _ _ _ _) as [[u'|] w]; [|done].
  case_match; [done|].
  assert (∀ topic, keeps m (with_states (alter (set_info (set_topic topic)) a (tm_heap m)) m)) as Hk
    by (intros topic; apply keeps_alter; by split).
  case_match; cbn [snd]; [|apply Hk]. etransitivity; [apply Hk|]. auto with keeps.
Qed.

Lemma keeps_retry resolve subscribes b b' now m :
  keeps m (retry_unresolved_triggers resolve subscribes b b' now m).
Proof.
  unfold retry_unresolved_triggers. destruct (tm_shutdown m); [done|]. destruct (_ || _); [done|].
  assert (∀ l acc, keeps acc.2 (foldl (retry_entry resolve subscribes now) acc l).2) as Hf.
  { induction l as [|u l IH]; intros acc; cbn [foldl]; [done|]. etransitivity; [apply keeps_retry_entry|apply IH]. }
  specialize (Hf (tm_unresolved m) ([], [], m)). destruct (foldl _ _ _) as [[kept ws] m']. cbn [snd] in Hf.
  etransitivity; [exact Hf|]. etransitivity; [apply keeps_with_unresolved|apply keeps_warn].
Qed.

Lemma keeps_sweep exists_ m : keeps m (sweep_collect exists_ m).2.
Proof.
  unfold sweep_collect. cbn [snd].
  induction (map_entries (tm_triggers m)) as [|e l IH]; cbn [foldr]; [by destruct m|].
  destruct (tm_heap m !! e.2); [|exact IH]. destruct (_ && _); [|exact IH].
  etransitivity; [exact IH|]. apply (keeps_alter (with_states _ m)). by split.
Qed.

Lemma keeps_after ok ok' b fired i v m : keeps m (after_evaluation ok ok' b fired i v m).
Proof.
  unfold after_evaluation.
  set (m1 := if _ && _ then with_store _ m else m). assert (keeps m m1) as H1 by (subst m1; case_match; auto with keeps).
  destruct fired; [|done]. etransitivity; [exact H1|].
  set (m2 := if _ && _ then with_store _ m1 else m1). assert (keeps m1 m2) as H2 by (subst m2; case_match; auto with keeps).
  etransitivity; [exact H2|]. repeat case_match; auto with keeps.
Qed.

#[local] Hint Resolve keeps_update keeps_remove_begin keeps_remove_end keeps_expire_begin keeps_expire_end
  keeps_subscribe keeps_queue keeps_shutdown_end keeps_retry keeps_sweep keeps_after : keeps.

(** ** The tables under these sections *)

(** What also holds where events are queued or taken. *)
Record moves (m m' : TriggerManager) : Prop := {
  mv_heap : Forall2 same_trigger (tm_heap m) (tm_heap m');
  mv_triggers id a : tm_triggers m' !! id = Some a → tm_triggers m !! id = Some a;
  mv_next : tm_next_id m' = tm_next_id m;
  mv_config : tm_config m' = tm_config m;
  mv_shutdown : tm_shutdown m' = false → tm_shutdown m = false;
}.

Lemma keeps_moves m m' : keeps m m' → moves m m'.
Proof. intros [Hh ????]. split; try done. eapply Forall2_impl; [exact Hh|]. by intros t t' [? _]. Qed.

Lemma moves_insert m a t t' :
  tm_heap m !! a = Some t → same_trigger t t' → moves m (with_states (<[a := t']> (tm_heap m)) m).
Proof.
  intros Ha Hq. split; try done. cbn. apply Forall2_same_length_lookup_2; [by rewrite length_insert|].
  intros i u u' Hi Hi'. destruct (decide (i = a)) as [->|Hne].
  - rewrite list_lookup_insert_eq in Hi' by (by eapply lookup_lt_Some). by simplify_eq.
  - rewrite list_lookup_insert_ne, Hi in Hi' by done. by injection Hi' as <-.
Qed.

Lemma moves_lookup m m' a t' :
  moves m m' → tm_heap m' !! a = Some t' → ∃ t, tm_heap m !! a = Some t ∧ same_trigger t t'.
Proof. intros Hk Ha. exact (Forall2_lookup_r _ _ _ _ _ (mv_heap _ _ Hk) Ha). Qed.

Lemma moves_lookup_l m m' a t :
  moves m m' → tm_heap m !! a = Some t → ∃ t', tm_heap m' !! a = Some t' ∧ same_trigger t t'.
Proof. intros Hk Ha. exact (Forall2_lookup_l _ _ _ _ _ (mv_heap _ _ Hk) Ha). Qed.

Lemma moves_ids m m' : moves m m' → tid <$> tm_heap m' = tid <$> tm_heap m.
Proof.
  intros [Hh _ _ _ _]. induction Hh as [|t t' l l' [Hid _ _ _ _] _ IH]; [done|].
  cbn. unfold tid at 1 3. by rewrite Hid, IH.
Qed.

Lemma tid_elem_of m id : id ∈ tid <$> tm_heap m ↔ ∃ a t, tm_heap m !! a = Some t ∧ tid t = id.
Proof.
  rewrite list_elem_of_fmap. split.
  - intros (t & -> & [a Ha]%list_elem_of_lookup). by exists a, t.
  - intros (a & t & Ha & <-). exists t. split; [done|]. by eapply list_elem_of_lookup_2.
Qed.

Lemma issued_ids m :
  (∀ t, t ∈ tm_heap m → ∃ n, tid t = trigger_id n ∧ (n < tm_next_id m)%N) ↔
  ∀ id, id ∈ tid <$> tm_heap m → ∃ n, id = trigger_id n ∧ (n < tm_next_id m)%N.
Proof.
  split; intros H.
  - intros id (t & -> & Ht)%list_elem_of_fmap. by apply H.
  - intros t Ht. apply H. by apply list_elem_of_fmap_2.
Qed.

(** Sections that leave table and index alone. *)
Lemma tables_move m m' :
  moves m m' → tm_triggers m' = tm_triggers m → tm_index m' = tm_index m → tables_ok m → tables_ok m'.
Proof.
  intros Hk Ht Hi [Hu Hiss Htr Hix]. pose proof (moves_ids _ _ Hk) as Hids. split.
  - by rewrite Hids.
  - apply issued_ids. rewrite Hids, (mv_next _ _ Hk). by apply issued_ids.
  - intros id a Ha. rewrite Ht in Ha. destruct (Htr _ _ Ha) as (t & Hat & Hid).
    destruct (moves_lookup_l _ _ _ _ Hk Hat) as (t' & Ha' & [Hs _ _ _ _]). exists t'. split; [done|].
    unfold tid in *. by rewrite Hs.
  - intros id key. rewrite Hi, Ht, Hix. unfold filed_under. split.
    + intros (a & t & ? & Ha & Hf). destruct (moves_lookup_l _ _ _ _ Hk Ha) as (t' & Ha' & [_ Hc He _ _]).
      exists a, t'. by rewrite Hc, He.
    + intros (a & t' & ? & Ha & Hf). destruct (moves_lookup _ _ _ _ Hk Ha) as (t & Ha' & [_ Hc He _ _]).
      exists a, t. by rewrite <-Hc, <-He.
Qed.

(** A trigger leaves table and index. *)
Lemma tables_drop id collection entity_id m :
  tables_ok m →
  (∀ a t, tm_heap m !! a = Some t → tid t = id →
     ti_collection (ts_info t) = collection ∧ ti_entity_id (ts_info t) = entity_id) →
  tables_ok (with_tables (delete id (tm_triggers m)) (tm_heap m)
    (remove_from_dispatch_index id collection entity_id (tm_index m)) m).
Proof.
  intros [Hu Hiss Htr Hix] Hid. split; cbn; try done.
  - intros id' a [_ Ha]%lookup_delete_Some. by apply Htr.
  - intros id' key. rewrite indexed_remove_both, Hix. split.
    + intros [(a & t & Ha & Hat & Hf) Hn]. exists a, t. split_and!; try done.
      apply lookup_delete_Some. split; [|done]. intros <-. apply Hn. split; [done|].
      destruct (Htr _ _ Ha) as (t' & Hat' & Heq). rewrite Hat in Hat'. injection Hat' as <-.
      destruct (Hid a t Hat Heq) as [<- <-]. exact Hf.
    + intros (a & t & [Hne Ha]%lookup_delete_Some & Hat & Hf). split; [by exists a, t|]. by intros [-> _].
Qed.

(** ** The invariant of the system *)

Definition named (m : TriggerManager) (id : string) (a : nat) : Prop := ∃ t, tm_heap m !! a = Some t ∧ tid t = id.

(** A trigger of that id, collection and entity has been created. *)
Definition known (m : TriggerManager) (id collection entity_id : string) : Prop :=
  ∃ a t, tm_heap m !! a = Some t ∧ tid t = id ∧
    ti_collection (ts_info t) = collection ∧ ti_entity_id (ts_info t) = entity_id.

Definition seen (m : TriggerManager) (id : string) : Prop := ∃ a, named m id a.

Definition request_ok (m : TriggerManager) (r : request) : Prop :=
  match r with
  | RCreate _ i => known m (ti_id i) (ti_collection i) (ti_entity_id i)
  | RExpire id a => named m id a
  | RExpireEnd id collection entity_id => known m id collection entity_id
  | _ => True
  end.

Definition todo_ok (m : TriggerManager) (todo : list (string * nat)) : Prop := Forall (λ e, named m e.1 e.2) todo.

Definition worker_ok (m : TriggerManager) (w : worker) : Prop :=
  match w with
  | WLoop _ todo _ | WConsider _ _ todo _ | WAfter _ _ _ _ todo _ => todo_ok m todo
  | WExpire _ id a todo _ => named m id a ∧ todo_ok m todo
  | WExpireEnd _ id collection entity_id todo _ => known m id collection entity_id ∧ todo_ok m todo
  | _ => True
  end.

(** A one-shot trigger of a manager that is not shutting down. *)
Definition one_shot (m : TriggerManager) (id : string) : Prop :=
  tm_shutdown m = false ∧ ∃ a t, tm_heap m !! a = Some t ∧ tid t = id ∧ ti_multishot (ts_info t) = false.

(** No lookup of the id will find an active trigger any more. *)
Definition dead (m : TriggerManager) (id : string) : Prop :=
  (∃ a t, tm_heap m !! a = Some t ∧ tid t = id ∧ ts_active t = false) ∨ (seen m id ∧ tm_triggers m !! id = None).

Definition stream_ok (m : TriggerManager) (st : stream) : Prop :=
  (one_shot m (sm_id st) → sm_sent st = []) ∧ (sm_sent st ≠ [] → seen m (sm_id st)) ∧
  match sm_pc st with
  | SStart | SClosed => True
  | SCheck a | SWaiting a => named m (sm_id st) a
  | SWait => seen m (sm_id st)
  | SWoken woken => seen m (sm_id st) ∧ (woken = true → one_shot m (sm_id st) → dead m (sm_id st))
  | SCheck2 woken a =>
      named m (sm_id st) a ∧
      (woken = true → one_shot m (sm_id st) → ∃ t, tm_heap m !! a = Some t ∧ ts_active t = false)
  | SDrain => seen m (sm_id st) ∧ ¬ one_shot m (sm_id st)
  | SDrainAt a => named m (sm_id st) a ∧ ¬ one_shot m (sm_id st)
  end.

(** A one-shot trigger with an event is over. *)
Definition spent (t : TriggerState) : Prop :=
  ti_multishot (ts_info t) = false → ts_pending t ≠ [] → ts_active t = false.

Definition events_at (a : nat) (l : list (nat * json)) : list json := (filter (λ e, e.1 = a) l).*2.

(** The events of a state: queued in order, the queue is their end, and the
    taken ones are among the others in order, all of them while there were at
    most [kMaxPendingEvents]. *)
Definition accounted (fired taken pending : list json) : Prop :=
  ∃ out, fired = out ++ pending ∧ taken `sublist_of` out ∧ (length fired ≤ kMaxPendingEvents → taken = out).

Definition events_ok (h : list TriggerState) (fired taken : list (nat * json)) : Prop :=
  ∀ a, accounted (events_at a fired) (events_at a taken) (from_option ts_pending [] (h !! a)).

Record sys_ok (s : System) : Prop := {
  so_tables : tables_ok (sy_manager s);
  so_requests : Forall (request_ok (sy_manager s)) (sy_requests s);
  so_worker : worker_ok (sy_manager s) (sy_worker s);
  so_streams : Forall (stream_ok (sy_manager s)) (sy_streams s);
  so_spent : Forall spent (tm_heap (sy_manager s));
  so_bound : Forall (λ t, length (ts_pending t) ≤ kMaxPendingEvents) (tm_heap (sy_manager s));
  so_events : events_ok (tm_heap (sy_manager s)) (sy_fired s) (sy_taken s);
}.

(** *** Under [moves] *)

Lemma named_move m m' id a : moves m m' → named m id a → named m' id a.
Proof.
  intros Hm (t & Ha & Hid). destruct (moves_lookup_l _ _ _ _ Hm Ha) as (t' & Ha' & [Hs _ _ _ _]).
  exists t'. split; [done|]. unfold tid in *. congruence.
Qed.

Lemma known_move m m' id c e : moves m m' → known m id c e → known m' id c e.
Proof.
  intros Hm (a & t & Ha & Hid & Hc & He). destruct (moves_lookup_l _ _ _ _ Hm Ha) as (t' & Ha' & [Hs Hsc Hse _ _]).
  exists a, t'. unfold tid in *. split_and!; congruence.
Qed.

Lemma seen_move m m' id : moves m m' → seen m id → seen m' id.
Proof. intros Hm [a Ha]. exists a. by eapply named_move. Qed.

Lemma one_shot_move m m' id : moves m m' → one_shot m' id → one_shot m id.
Proof.
  intros Hm (Hsd & a & t' & Ha & Hid & Hone). split; [by apply (mv_shutdown _ _ Hm)|].
  destruct (moves_lookup _ _ _ _ Hm Ha) as (t & Ha' & [Hs _ _ Hms _]).
  exists a, t. unfold tid in *. split_and!; congruence.
Qed.

Lemma inactive_move m m' a t :
  moves m m' → tm_heap m !! a = Some t → ts_active t = false → ∃ t', tm_heap m' !! a = Some t' ∧ ts_active t' = false.
Proof.
  intros Hm Ha Hi. destruct (moves_lookup_l _ _ _ _ Hm Ha) as (t' & Ha' & [_ _ _ _ Hact]). exists t'.
  split; [done|]. destruct (ts_active t') eqn:Heq; [|done]. specialize (Hact eq_refl). congruence.
Qed.

Lemma dead_move m m' id : moves m m' → dead m id → dead m' id.
Proof.
  intros Hm [(a & t & Ha & Hid & Hi)|[Hs Hn]].
  - destruct (inactive_move _ _ _ _ Hm Ha Hi) as (t' & Ha' & Hi').
    destruct (named_move _ _ _ _ Hm (ex_intro _ t (conj Ha Hid))) as (u & Hu & Hidu).
    left. exists a, u. rewrite Ha' in Hu. injection Hu as <-. done.
  - right. split; [by eapply seen_move|]. destruct (tm_triggers m' !! id) eqn:He; [|done].
    apply (mv_triggers _ _ Hm) in He. congruence.
Qed.

Lemma request_move m m' r : moves m m' → request_ok m r → request_ok m' r.
Proof. intros Hm. destruct r; cbn; try done; (by apply known_move) || (by apply named_move). Qed.

Lemma todo_move m m' todo : moves m m' → todo_ok m todo → todo_ok m' todo.
Proof. intros Hm H. eapply Forall_impl; [exact H|]. intros e. by apply named_move. Qed.

Lemma worker_move m m' w : moves m m' → worker_ok m w → worker_ok m' w.
Proof.
  intros Hm. destruct w; cbn; try done; try by apply todo_move.
  - intros [? ?]. split; [by eapply named_move|by eapply todo_move].
  - intros [? ?]. split; [by eapply known_move|by eapply todo_move].
Qed.

Lemma stream_move m m' st : moves m m' → stream_ok m st → stream_ok m' st.
Proof.
  intros Hm (Hsent & Hseen & Hpc). split_and!.
  - intros Ho. apply Hsent. by eapply one_shot_move.
  - intros Hne. eapply seen_move; [done|]. by apply Hseen.
  - destruct (sm_pc st); try done; try by eapply named_move.
    + by eapply seen_move.
    + destruct Hpc as [? Hd]. split; [by eapply seen_move|]. intros Hw Ho. eapply dead_move; [done|].
      apply Hd; [done|by eapply one_shot_move].
    + destruct Hpc as [? Hd]. split; [by eapply named_move|]. intros Hw Ho.
      destruct (Hd Hw) as (t & Ha & Hi); [by eapply one_shot_move|]. by eapply inactive_move.
    + destruct Hpc as [? Hn]. split; [by eapply seen_move|]. intros Ho. by apply Hn, (one_shot_move m m').
    + destruct Hpc as [? Hn]. split; [by eapply named_move|]. intros Ho. by apply Hn, (one_shot_move m m').
Qed.

(** A quiet section: whoever runs it, the invariant holds for the new manager if
    the tables do. *)
Lemma sys_quiet s m' :
  sys_ok s → keeps (sy_manager s) m' → tables_ok m' → sys_ok (to_manager m' s).
Proof.
  intros [Ht Hr Hw Hs Hsp Hb He] Hk Ht'. pose proof (keeps_moves _ _ Hk) as Hm.
  split; cbn [sy_manager sy_requests sy_worker sy_streams sy_fired sy_taken to_manager]; try done.
  - eapply Forall_impl; [exact Hr|]. intros r. by apply request_move.
  - by eapply worker_move.
  - eapply Forall_impl; [exact Hs|]. intros st. by apply stream_move.
  - apply Forall_lookup. intros a t' Ha. destruct (Forall2_lookup_r _ _ _ _ _ (kp_heap _ _ Hk) Ha) as (t & Hat & [Hsame Hp]).
    rewrite Forall_lookup in Hsp. specialize (Hsp a t Hat). destruct Hsame as [_ _ _ Hms Hact]. intros H1 H2.
    rewrite Hms in H1. rewrite Hp in H2. specialize (Hsp H1 H2). destruct (ts_active t') eqn:E; [|done].
    specialize (Hact eq_refl). congruence.
  - apply Forall_lookup. intros a t' Ha. destruct (Forall2_lookup_r _ _ _ _ _ (kp_heap _ _ Hk) Ha) as (t & Hat & [_ Hp]).
    rewrite Forall_lookup in Hb. rewrite Hp. by apply (Hb a).
  - intros a. specialize (He a).
    assert (from_option ts_pending [] (tm_heap m' !! a) = from_option ts_pending [] (tm_heap (sy_manager s) !! a)) as ->;
      [|done].
    destruct (tm_heap m' !! a) as [t'|] eqn:Ha.
    + destruct (Forall2_lookup_r _ _ _ _ _ (kp_heap _ _ Hk) Ha) as (t & -> & [_ Hp]). exact Hp.
    + destruct (tm_heap (sy_manager s) !! a) as [t|] eqn:Hat; [|done].
      destruct (Forall2_lookup_l _ _ _ _ _ (kp_heap _ _ Hk) Hat) as (t' & ? & _). congruence.
Qed.

(** *** Tables, section by section *)

Lemma tables_same m m' :
  keeps m m' → tm_triggers m' = tm_triggers m ∧ tm_index m' = tm_index m → tables_ok m → tables_ok m'.
Proof. intros Hk [Ht Hi]. by apply tables_move; [apply keeps_moves|..]. Qed.

Lemma known_names m id c e a t :
  tables_ok m → known m id c e → tm_heap m !! a = Some t → tid t = id →
  ti_collection (ts_info t) = c ∧ ti_entity_id (ts_info t) = e.
Proof.
  intros Ht (b & u & Hb & Hu & <- & <-) Ha Hid.
  assert (a = b) as -> by (eapply heap_unique; [apply Ht|done|done|congruence]).
  rewrite Ha in Hb. by injection Hb as ->.
Qed.

Lemma tables_update now l ok id m : tables_ok m → tables_ok (update_trigger now l ok id m).2.
Proof.
  apply tables_same; [apply keeps_update|]. unfold update_trigger.
  repeat (case_match; try done).
Qed.

Lemma tables_remove_begin id m : tables_ok m → tables_ok (remove_begin id m).2.
Proof.
  intros Ht. unfold remove_begin. destruct (tm_triggers m !! id) as [a|] eqn:Ha; [|done].
  destruct (tm_heap m !! a) as [t|] eqn:Hat; [|done]. cbn [snd].
  apply tables_same with (m := with_tables (delete id (tm_triggers m)) (tm_heap m)
    (remove_from_dispatch_index id (ti_collection (ts_info t)) (ti_entity_id (ts_info t)) (tm_index m)) m);
    [apply keeps_with_handles|done|].
  apply tables_drop; [done|]. intros b u Hb Hu. destruct (to_triggers _ Ht _ _ Ha) as (t' & Hat' & Hid).
  assert (b = a) as -> by (eapply heap_unique; [apply Ht|done|done|congruence]). by simplify_eq.
Qed.

Lemma tables_removed b id m : tables_ok m → tables_ok (notify_removed b id m).
Proof. apply tables_same; [apply keeps_removed|]. by destruct b. Qed.

Lemma tables_remove_end b ok id a p m : tables_ok m → tables_ok (remove_end b ok id a p m).
Proof. apply tables_same; [apply keeps_remove_end|]. unfold remove_end, notify_removed. by destruct b, p. Qed.

Lemma tables_expire_begin ok id a m : tables_ok m → tables_ok (expire_begin ok id a m).2.
Proof.
  apply tables_same; [apply keeps_expire_begin|]. unfold expire_begin. repeat (case_match; try done).
Qed.

Lemma tables_expire_end b id c e m : known m id c e → tables_ok m → tables_ok (expire_end b id c e m).
Proof.
  intros Hn Ht. unfold expire_end. apply tables_removed.
  apply tables_same with (m := with_tables (delete id (tm_triggers m)) (tm_heap m)
    (remove_from_dispatch_index id c e (tm_index m)) m); [apply keeps_with_handles|done|].
  apply tables_drop; [done|]. intros a t Ha Hid. by apply (known_names m id c e a).
Qed.

Lemma tables_subscribe ok ok' i m :
  known m (ti_id i) (ti_collection i) (ti_entity_id i) → tables_ok m → tables_ok (create_subscribe ok ok' i m).2.
Proof.
  intros Hn Ht. unfold create_subscribe. destruct ok; cbn [snd].
  { by apply (tables_same m); [apply keeps_with_handles|..]. }
  set (m1 := with_tables _ _ _ m).
  assert (tables_ok m1) as Ht1.
  { apply tables_drop; [done|]. intros a t Ha Hid. by eapply known_names. }
  case_match; [|done]. by apply (tables_same m1); [apply keeps_with_store|..].
Qed.

Lemma tables_shutdown_end m : tables_ok m → tables_ok (shutdown_end m).
Proof. by apply tables_same; [apply keeps_shutdown_end|]. Qed.

Lemma tables_retry resolve subscribes b b' now m :
  tables_ok m → tables_ok (retry_unresolved_triggers resolve subscribes b b' now m).
Proof.
  apply tables_same; [apply keeps_retry|]. unfold retry_unresolved_triggers.
  destruct (tm_shutdown m); [done|]. destruct (_ || _); [done|].
  assert (∀ l acc, tm_triggers (foldl (retry_entry resolve subscribes now) acc l).2 = tm_triggers acc.2 ∧
    tm_index (foldl (retry_entry resolve subscribes now) acc l).2 = tm_index acc.2) as Hf.
  { induction l as [|u l IH]; intros acc; cbn [foldl]; [done|].
    destruct (IH (retry_entry resolve subscribes now acc u)) as [-> ->]. destruct acc as [[kept ws] m0].
    unfold retry_entry. repeat (case_match; try done). }
  specialize (Hf (tm_unresolved m) ([], [], m)). destruct (foldl _ _ _) as [[kept ws] m']. exact Hf.
Qed.

Lemma tables_after ok ok' b fired i v m : tables_ok m → tables_ok (after_evaluation ok ok' b fired i v m).
Proof.
  apply tables_same; [apply keeps_after|]. unfold after_evaluation.
  destruct ((_ =?ₛ "restore") && ti_persistent i); (destruct fired; [|done]);
    destruct (negb (ti_multishot i) && ti_persistent i); repeat (case_match; try done).
Qed.

(** ** Steps *)

Section Steps.
Context (conditions : ConditionRegistry) (transport on_removed log_manager : bool).
Context (json_at : string → json → option json) (walk : gset string → list string).

Lemma sys_add_request s r :
  sys_ok s → from_option (request_ok (sy_manager s)) True r → sys_ok (add_request r s).
Proof.
  intros [Ht Hr Hw Hs Hsp Hb He] Hok. destruct r as [r|]; [|by split]. split; try done.
  cbn. apply Forall_app_2; [done|]. by apply Forall_singleton.
Qed.

Lemma sys_to_requests s rs : sys_ok s → Forall (request_ok (sy_manager s)) rs → sys_ok (to_requests rs s).
Proof. intros [Ht Hr Hw Hs Hsp Hb He] Hok. by split. Qed.

Lemma sys_to_worker s w : sys_ok s → worker_ok (sy_manager s) w → sys_ok (to_worker w s).
Proof. intros [Ht Hr Hw Hs Hsp Hb He] Hok. by split. Qed.

Lemma sys_to_streams s ss :
  sys_ok s → Forall (stream_ok (sy_manager s)) ss → sys_ok (to_streams ss s).
Proof. intros [Ht Hr Hw Hs Hsp Hb He] Hok. by split. Qed.

(** A quiet section of the manager. *)
Lemma sys_section s m' :
  sys_ok s → keeps (sy_manager s) m' → tables_ok m' →
  sys_ok (to_manager m' s) ∧ moves (sy_manager s) m'.
Proof. intros Hs Hk Ht. split; [by apply sys_quiet|by apply keeps_moves]. Qed.

Lemma expire_begin_known ok id a m r :
  named m id a → (expire_begin ok id a m).1 = Some r → known (expire_begin ok id a m).2 id r.1 r.2.
Proof.
  intros (t & Ha & Hid) Hr. eapply known_move; [apply keeps_moves, keeps_expire_begin|].
  unfold expire_begin in Hr. rewrite Ha in Hr. destruct (ts_active t); [|done]. injection Hr as <-.
  by exists a, t.
Qed.

Lemma request_keeps ok ok' steady r m : keeps m (run_request on_removed ok ok' steady r m).2.
Proof.
  destruct r as [[] i|id a p|id a|id c e|[|id todo] orphans|]; cbn [run_request snd]; auto with keeps.
  pose proof (keeps_expire_begin ok id a m) as H. by destruct (expire_begin ok id a m).
Qed.

Lemma run_request_ok ok ok' steady r m :
  tables_ok m → request_ok m r →
  tables_ok (run_request on_removed ok ok' steady r m).2 ∧
  from_option (request_ok (run_request on_removed ok ok' steady r m).2) True (run_request on_removed ok ok' steady r m).1.
Proof.
  intros Ht Hr. destruct r as [[] i|id a p|id a|id c e|[|id todo] orphans|]; cbn [run_request fst snd].
  - split; [by apply tables_subscribe|done].
  - split; [by apply (tables_same m); [apply keeps_with_unresolved|..]|done].
  - done.
  - split; [by apply tables_remove_end|done].
  - pose proof (expire_begin_known ok id a m) as Hk. pose proof (tables_expire_begin ok id a m Ht) as Ht'.
    destruct (expire_begin ok id a m) as [[q|] m']; cbn in *; [split; [done|by apply Hk]|done].
  - split; [by apply tables_expire_end|done].
  - split; [by apply (tables_same m); [apply keeps_warn|..]|done].
  - done.
  - split; [by apply tables_shutdown_end|done].
Qed.

(** *** Creation *)

Lemma trigger_id_inj n k : trigger_id n = trigger_id k → n = k.
Proof. unfold trigger_id. intros H. apply (inj (String.append "trig_")) in H. by apply (inj pretty) in H. Qed.

Lemma sys_next s n :
  sys_ok s → (tm_next_id (sy_manager s) ≤ n)%N → sys_ok (to_manager (with_next_id n (sy_manager s)) s).
Proof.
  intros [Ht Hr Hw Hs Hsp Hb He] Hn. split; try done.
  destruct Ht as [Hu Hi Htr Hix]. split; try done. cbn. intros t Ht. destruct (Hi t Ht) as (k & ? & ?).
  exists k. split; [done|lia].
Qed.

(** A new trigger, as [create_begin] and [restore_row] insert it. *)
Definition inserted (new : TriggerState) (m : TriggerManager) : TriggerManager :=
  with_tables (<[tid new := length (tm_heap m)]> (tm_triggers m)) (tm_heap m ++ [new])
    (add_to_dispatch_index (tid new) (ti_collection (ts_info new)) (ti_entity_id (ts_info new)) (tm_index m)) m.

Lemma inserted_lookup new m a t :
  tm_heap (inserted new m) !! a = Some t ↔
    tm_heap m !! a = Some t ∨ a = length (tm_heap m) ∧ t = new.
Proof.
  cbn. rewrite lookup_app_Some, list_lookup_singleton_Some. split; [|intros [?|[-> ->]]].
  - intros [?|(? & ? & <-)]; [by left|right]. split; [lia|done].
  - by left.
  - right. split_and!; [done|lia|done].
Qed.

Section Insert.
Context (m : TriggerManager) (new : TriggerState).
Context (Htables : tables_ok m) (Hfresh : ¬ seen m (tid new)).

Lemma inserted_named id a : named m id a → named (inserted new m) id a.
Proof. intros (t & Ha & Hid). exists t. split; [|done]. apply inserted_lookup. by left. Qed.

Lemma inserted_known id c e : known m id c e → known (inserted new m) id c e.
Proof. intros (a & t & Ha & ?). exists a, t. split; [|done]. apply inserted_lookup. by left. Qed.

Lemma inserted_seen id : seen m id → seen (inserted new m) id.
Proof. intros [a Ha]. exists a. by apply inserted_named. Qed.

Lemma inserted_one_shot id : one_shot (inserted new m) id → one_shot m id ∨ id = tid new.
Proof.
  intros (Hsd & a & t & [Ha|[-> ->]]%inserted_lookup & Hid & Hm); [left|right; done].
  split; [done|]. by exists a, t.
Qed.

Lemma inserted_dead id : id ≠ tid new → dead m id → dead (inserted new m) id.
Proof.
  intros Hne [(a & t & Ha & ?)|[Hs Hn]]; [left; exists a, t; split; [|done]; apply inserted_lookup; by left|right].
  split; [by apply inserted_seen|]. cbn. by rewrite lookup_insert_ne.
Qed.

Lemma inserted_tables :
  (∃ n, tid new = trigger_id n ∧ (n < tm_next_id m)%N) → tables_ok (inserted new m).
Proof.
  intros Hid. destruct Htables as [Hu Hi Htr Hix]. split.
  - cbn. rewrite fmap_app. apply NoDup_app. split_and!; [done| |apply NoDup_singleton].
    intros id Hin ->%list_elem_of_singleton. apply Hfresh. apply tid_elem_of in Hin as (a & t & ? & ?). by exists a, t.
  - cbn. intros t [Ht| ->%list_elem_of_singleton]%elem_of_app; [by apply Hi|done].
  - intros id a Ha. cbn in Ha. apply lookup_insert_Some in Ha as [[<- <-]|[Hne Ha]].
    + exists new. split; [|done]. apply inserted_lookup. by right.
    + destruct (Htr _ _ Ha) as (t & ? & ?). exists t. split; [apply inserted_lookup; by left|done].
  - intros id key. etransitivity; [apply (indexed_add (tm_index m) (ts_info new))|]. rewrite Hix. split.
    + intros [(a & t & Ha & Hat & Hf)|[-> Hf]].
      * exists a, t. split_and!; [|apply inserted_lookup; by left|done]. cbn. rewrite lookup_insert_ne; [done|].
        intros <-. apply Hfresh. destruct (Htr _ _ Ha) as (u & ? & ?). by exists a, u.
      * exists (length (tm_heap m)), new.
        split_and!; [by cbn; rewrite lookup_insert_eq|apply inserted_lookup; by right|done].
    + intros (a & t & Ha & Hat & Hf). cbn in Ha. apply lookup_insert_Some in Ha as [[<- <-]|[Hne Ha]].
      * right. split; [done|]. apply inserted_lookup in Hat as [Hat|[_ ->]]; [|done].
        apply lookup_lt_Some in Hat. lia.
      * left. exists a, t. split_and!; try done. apply inserted_lookup in Hat as [?|[-> _]]; [done|].
        destruct (Htr _ _ Ha) as (u & Hu' & _). apply lookup_lt_Some in Hu'. lia.
Qed.

Lemma inserted_stream st : stream_ok m st → stream_ok (inserted new m) st.
Proof.
  intros (Hsent & Hseen & Hpc). destruct (decide (sm_id st = tid new)) as [Heq|Hne].
  - assert (sm_sent st = []) as Hnil.
    { destruct (sm_sent st); [done|]. destruct Hfresh. rewrite <-Heq. by apply Hseen. }
    rewrite Heq in *. split_and!; [done|by rewrite Hnil|].
    destruct (sm_pc st); try done; destruct Hfresh;
      first [exact Hpc|exact (proj1 Hpc)|exact (ex_intro _ a Hpc)|exact (ex_intro _ a (proj1 Hpc))].
  - assert (∀ P : Prop, (one_shot m (sm_id st) → P) → one_shot (inserted new m) (sm_id st) → P) as Hos.
    { intros P HP [Ho|Ho]%inserted_one_shot; [exact (HP Ho)|by destruct Hne]. }
    split_and!; [by apply Hos|intros Hs; by apply inserted_seen, Hseen|].
    destruct (sm_pc st); try done; try by apply inserted_named.
    + by apply inserted_seen.
    + destruct Hpc as [? Hd]. split; [by apply inserted_seen|]. intros Hw. apply Hos. intros Ho.
      apply inserted_dead; [done|by apply Hd].
    + destruct Hpc as [? Hd]. split; [by apply inserted_named|]. intros Hw. apply Hos. intros Ho.
      destruct (Hd Hw Ho) as (t & ? & ?). exists t. split; [apply inserted_lookup; by left|done].
    + destruct Hpc as [? Hn]. split; [by apply inserted_seen|]. exact (Hos False Hn).
    + destruct Hpc as [? Hn]. split; [by apply inserted_named|]. exact (Hos False Hn).
Qed.
End Insert.

Lemma sys_insert s new :
  sys_ok s → ts_pending new = [] → ¬ seen (sy_manager s) (tid new) →
  (∃ n, tid new = trigger_id n ∧ (n < tm_next_id (sy_manager s))%N) →
  sys_ok (to_manager (inserted new (sy_manager s)) s).
Proof.
  intros [Ht Hr Hw Hs Hsp Hb He] Hp Hf Hid.
  split; cbn [sy_manager sy_requests sy_worker sy_streams sy_fired sy_taken to_manager].
  - by apply inserted_tables.
  - eapply Forall_impl; [exact Hr|]. intros []; cbn; try done; first [by apply inserted_known|by apply inserted_named].
  - assert (∀ todo, todo_ok (sy_manager s) todo → todo_ok (inserted new (sy_manager s)) todo) as Htodo.
    { intros todo H. eapply Forall_impl; [exact H|]. intros e. by apply inserted_named. }
    revert Hw. destruct (sy_worker s); cbn; try done; try apply Htodo; intros [? ?]; split; auto;
      first [by apply inserted_known|by apply inserted_named].
  - eapply Forall_impl; [exact Hs|]. intros st. by apply inserted_stream.
  - cbn. apply Forall_app_2; [done|]. apply Forall_singleton. intros _ Hn. by destruct Hn.
  - cbn. apply Forall_app_2; [done|]. apply Forall_singleton. rewrite Hp. cbn. lia.
  - intros a. specialize (He a). cbn. destruct (decide (a < length (tm_heap (sy_manager s)))) as [Hlt|Hge].
    + by rewrite lookup_app_l.
    + rewrite lookup_ge_None_2 in He by lia. destruct (decide (a = length (tm_heap (sy_manager s)))) as [->|Hne].
      * rewrite list_lookup_middle by done. cbn. by rewrite Hp.
      * rewrite lookup_ge_None_2 by (rewrite length_app; cbn; lia). done.
Qed.

Lemma next_not_seen m : tables_ok m → ¬ seen m (trigger_id (tm_next_id m)).
Proof.
  intros Ht (a & t & Ha & Hid). destruct (to_issued _ Ht t) as (n & Hn & Hlt); [by eapply list_elem_of_lookup_2|].
  rewrite Hid in Hn. apply trigger_id_inj in Hn. lia.
Qed.

Lemma sys_create now saved ok r result m' s :
  sys_ok s → (tm_next_id (sy_manager s) + 1 < two64)%N →
  create_begin conditions now saved ok r (sy_manager s) = (result, m') →
  sys_ok (add_request (pending_create transport r result) (to_manager m' s)) ∧
  (tm_next_id m' ≤ tm_next_id (sy_manager s) + 1)%N.
Proof.
  intros Hs Hn. assert (sys_ok (to_manager (sy_manager s) s)) as Hs0 by (by destruct s). unfold create_begin.
  destruct (conditions !! rq_condition_type r) as [e|]; [|intros [= <- <-]; split; [exact Hs0|cbn; lia]].
  destruct (validate_params e _); [intros [= <- <-]; split; [exact Hs0|cbn; lia]|].
  unfold generate_id. rewrite N.mod_small by done.
  set (id := trigger_id _). set (m1 := with_next_id _ _).
  assert (sys_ok (to_manager m1 s)) as Hs1 by (apply sys_next; [done|cbn; lia]).
  destruct (if rq_persistent r then saved else None); [intros [= <- <-]; split; [exact Hs1|cbn; lia]|].
  set (m2 := if rq_persistent r then with_store _ m1 else m1).
  assert (keeps m1 m2 ∧ tm_triggers m2 = tm_triggers m1 ∧ tm_heap m2 = tm_heap m1 ∧ tm_index m2 = tm_index m1 ∧
    tm_next_id m2 = (tm_next_id (sy_manager s) + 1)%N) as (Hk & Htr & Hh & Hix & Hn2).
  { unfold m2. by destruct (rq_persistent r). }
  assert (sys_ok (to_manager m2 s)) as Hs2.
  { apply (sys_quiet (to_manager m1 s)); [done..|]. by apply (tables_same m1); [..|apply Hs1]. }
  destruct (_ <=? _)%Z; intros [= <- <-].
  - assert (∀ st, sys_ok (to_manager (with_store st m2) s)) as Hst.
    { intros st. apply (sys_quiet (to_manager m2 s)); [done|apply keeps_with_store|].
      by apply (tables_same m2); [apply keeps_with_store|..|apply Hs2]. }
    split; [destruct (rq_persistent r); [apply Hst|exact Hs2]|].
    destruct (rq_persistent r); cbn in *; lia.
  - set (new := mkTrigger (info_of_request now id r) None true true [] 0).
    assert (sys_ok (to_manager (inserted new m2) s)) as Hs3.
    { apply (sys_insert (to_manager m2 s)); [done|done| |].
      - intros (a & t & Ha & Hid). cbn in Ha. rewrite Hh in Ha.
        apply (next_not_seen (sy_manager s)); [apply Hs|]. by exists a, t.
      - exists (tm_next_id (sy_manager s)). split; [done|]. cbn. rewrite Hn2. lia. }
    split; [|cbn; lia]. apply sys_add_request; [done|]. cbn.
    exists (length (tm_heap m2)), new. split_and!; try done.
    apply inserted_lookup. by right.
Qed.

(** *** Events *)

Lemma events_at_snoc a l b e : events_at a (l ++ [(b, e)]) = events_at a l ++ (if decide (b = a) then [e] else []).
Proof. unfold events_at. rewrite filter_app, fmap_app. f_equal. rewrite filter_cons. cbn. by case_decide. Qed.

Lemma accounted_push fired taken pending e :
  accounted fired taken pending → accounted (fired ++ [e]) taken (push_event e pending).
Proof.
  intros (out & -> & Hsub & Hall). unfold push_event. destruct (Nat.ltb_spec kMaxPendingEvents (length (pending ++ [e]))).
  - destruct pending as [|p pending]; cbn [app tail] in *; [cbn in *; unfold kMaxPendingEvents in *; lia|].
    exists (out ++ [p]). split_and!.
    + by rewrite <-!app_assoc.
    + by apply sublist_inserts_r.
    + rewrite !length_app in *. cbn in *. rewrite !length_app in *. cbn in *. lia.
  - exists out. split_and!; [by rewrite app_assoc|done|]. intros Hle. apply Hall. rewrite !length_app in *. cbn in Hle. lia.
Qed.

Lemma accounted_take fired taken e pending :
  accounted fired taken (e :: pending) → accounted fired (taken ++ [e]) pending.
Proof.
  intros (out & -> & Hsub & Hall). exists (out ++ [e]). split_and!.
  - by rewrite <-app_assoc.
  - by apply sublist_app.
  - intros Hle. by rewrite Hall.
Qed.

Lemma push_bound e l : length l ≤ kMaxPendingEvents → length (push_event e l) ≤ kMaxPendingEvents.
Proof.
  intros Hl. unfold push_event. destruct (Nat.ltb_spec kMaxPendingEvents (length (l ++ [e]))); [|lia].
  rewrite length_app in *. cbn in *. destruct l; cbn in *; [lia|]. rewrite length_app. cbn. lia.
Qed.

Lemma push_not_nil e l : push_event e l ≠ [].
Proof.
  unfold push_event. destruct (Nat.ltb_spec kMaxPendingEvents (length (l ++ [e]))) as [Hlt|]; [|by destruct l].
  rewrite length_app in Hlt. destruct l as [|x [|y l]]; cbn in *; unfold kMaxPendingEvents in *; try lia; done.
Qed.

(** One state of the heap changes, with its events. *)
Lemma sys_state s a t t' w ss fired taken :
  sys_ok s → tm_heap (sy_manager s) !! a = Some t → same_trigger t t' →
  worker_ok (sy_manager s) w →
  Forall (stream_ok (sy_manager s)) ss →
  spent t' → length (ts_pending t') ≤ kMaxPendingEvents →
  (∀ b, b ≠ a → events_at b fired = events_at b (sy_fired s) ∧ events_at b taken = events_at b (sy_taken s)) →
  accounted (events_at a fired) (events_at a taken) (ts_pending t') →
  sys_ok (mkSystem (with_states (<[a := t']> (tm_heap (sy_manager s))) (sy_manager s)) w (sy_requests s) ss fired taken).
Proof.
  intros [Ht Hr Hw Hs Hsp Hb He] Ha Hsame Hw' Hss Hspent Hlen Hother Hacc.
  pose proof (moves_insert _ _ _ _ Ha Hsame) as Hm.
  split; cbn [sy_manager sy_requests sy_worker sy_streams sy_fired sy_taken].
  - by apply (tables_move (sy_manager s)).
  - eapply Forall_impl; [exact Hr|]. intros r. by apply request_move.
  - by eapply worker_move.
  - eapply Forall_impl; [exact Hss|]. intros st. by apply stream_move.
  - by apply Forall_insert.
  - by apply Forall_insert.
  - intros b. cbn. destruct (decide (b = a)) as [->|Hne].
    + by rewrite list_lookup_insert_eq by (by eapply lookup_lt_Some).
    + rewrite list_lookup_insert_ne by done. destruct (Hother b Hne) as [-> ->]. apply He.
Qed.

(** *** The worker *)

Lemma push_last e l : last (push_event e l) = Some e.
Proof.
  unfold push_event. destruct (Nat.ltb_spec kMaxPendingEvents (length (l ++ [e]))) as [Hlt|]; [|by rewrite last_snoc].
  destruct l as [|x l]; cbn in *; [unfold kMaxPendingEvents in Hlt; lia|by rewrite last_snoc].
Qed.

Lemma fire_last now v value t : last (ts_pending (fire now v value t)) = Some (envelope now v).
Proof. apply push_last. Qed.

Lemma evaluate_same now c t fired value t' :
  evaluate_candidate conditions json_at now c t = Some (fired, value, t') →
  t' = if fired then fire now (rc_value c) value t else remember value t.
Proof.
  unfold evaluate_candidate. destruct (_ || _); [done|].
  destruct (extracted _ _ _) as [v|]; [|done]. cbn. destruct (conditions !! _) as [e|]; [|done]. cbn.
  destruct (evaluate e _ _ _) as [f|]; [|done]. cbn. by intros [= <- <- <-].
Qed.

(** The log of a section agrees with the queue. *)
Lemma option_pending_fired now v value t (b : bool) (a : nat) (log : list (nat * json)) :
  (if b then log ++ (pair a <$> option_list (last (ts_pending (if b then fire now v value t else remember value t))))
   else log) = if b then log ++ [(a, envelope now v)] else log.
Proof. destruct b; [|done]. by rewrite fire_last. Qed.

Lemma fire_same now v value t : same_trigger t (fire now v value t).
Proof. unfold fire. destruct (ti_multishot (ts_info t)) eqn:Hm; by split. Qed.

Lemma fire_spent now v value t : spent (fire now v value t).
Proof.
  unfold spent, fire. cbn. destruct (ti_multishot (ts_info t)) eqn:Hm; cbn; [congruence|done].
Qed.

Lemma candidates_named c m : tables_ok m → todo_ok m (candidates walk c m).
Proof.
  intros Ht. apply Forall_forall. intros [id a] (x & Hx & Ha)%list_elem_of_omap.
  destruct (tm_triggers m !! x) as [b|] eqn:Hb; [|done]. cbn in Ha. injection Ha as <- <-.
  exact (to_triggers _ Ht _ _ Hb).
Qed.

Lemma sys_work now ok ok' children s :
  sys_ok s → sys_ok (work conditions on_removed log_manager json_at now ok ok' children s) ∧
    tm_next_id (sy_manager (work conditions on_removed log_manager json_at now ok ok' children s)) =
    tm_next_id (sy_manager s).
Proof.
  intros Hs. pose proof (so_worker _ Hs) as Hw. pose proof (so_tables _ Hs) as Ht. unfold work.
  destruct (sy_worker s) as [|c [|[id a] todo] done|c id a todo done|c id cl en todo done|c a todo done|c fired i v todo done|
    [|id ids]|id a p ids] eqn:Hwk; cbn [worker_ok] in Hw.
  - done.
  - split; [by apply sys_to_worker|done].
  - apply Forall_cons in Hw as [Hn Htodo].
    destruct (tm_heap (sy_manager s) !! a) as [t|] eqn:Ha; [|split; [by apply sys_to_worker|done]].
    split; [|done]. apply sys_to_worker; [done|]. destruct (check_candidate now c t); [done|by split|]. by case_match.
  - destruct Hw as [Hn Htodo]. pose proof (expire_begin_known ok id a (sy_manager s)) as Hk.
    destruct (sys_section s (expire_begin ok id a (sy_manager s)).2 Hs) as [Hs' Hm];
      [apply keeps_expire_begin|by apply tables_expire_begin|].
    destruct (expire_begin ok id a (sy_manager s)) as [[[cl en]|] m']; cbn [fst snd] in *.
    + split; [|apply Hm]. apply sys_to_worker; [done|]. split; [by apply (Hk (cl, en))|by eapply todo_move].
    + split; [|apply Hm]. apply sys_to_worker; [done|]. by eapply todo_move.
  - destruct Hw as [Hn Htodo]. destruct (sys_section s (expire_end on_removed id cl en (sy_manager s)) Hs) as [Hs' Hm];
      [apply keeps_expire_end|by apply tables_expire_end|].
    split; [|apply Hm]. apply sys_to_worker; [done|]. by eapply todo_move.
  - destruct (tm_heap (sy_manager s) !! a) as [t|] eqn:Ha; cbn; [|split; [by apply sys_to_worker|done]].
    destruct (evaluate_candidate conditions json_at now c t) as [[[fired value] t']|] eqn:Hev; cbn;
      [|split; [by apply sys_to_worker|done]].
    split; [|done]. apply evaluate_same in Hev as ->. rewrite option_pending_fired.
    pose proof (so_spent _ Hs) as Hsp. pose proof (so_bound _ Hs) as Hb. pose proof (so_events _ Hs a) as Hacc.
    rewrite Forall_lookup in Hsp. rewrite Forall_lookup in Hb. rewrite Ha in Hacc. cbn in Hacc.
    apply (sys_state s a t); try done; [|apply Hs|..].
    + by destruct fired; [apply fire_same|split].
    + destruct fired; [apply fire_spent|]. exact (Hsp a t Ha).
    + destruct fired; [apply push_bound|]; exact (Hb a t Ha).
    + intros b Hne. destruct fired; [|done]. rewrite events_at_snoc, decide_False by done. by rewrite app_nil_r.
    + destruct fired; [|done]. rewrite events_at_snoc, decide_True by done. by apply accounted_push.
  - destruct (sys_section s (after_evaluation ok ok' log_manager fired i v (sy_manager s)) Hs) as [Hs' Hm];
      [apply keeps_after|by apply tables_after|].
    split; [|apply Hm]. apply sys_to_worker; [done|]. by eapply todo_move.
  - split; [by apply sys_to_worker|done].
  - destruct (sys_section s (remove_begin id (sy_manager s)).2 Hs) as [Hs' Hm];
      [apply keeps_remove_begin|by apply tables_remove_begin|].
    destruct (remove_begin id (sy_manager s)) as [[[a p]|] m']; cbn [snd] in *;
      (split; [by apply sys_to_worker|apply Hm]).
  - destruct (sys_section s (remove_end on_removed ok id a p (sy_manager s)) Hs) as [Hs' Hm];
      [apply keeps_remove_end|by apply tables_remove_end|].
    split; [by apply sys_to_worker|apply Hm].
Qed.

(** *** Streams *)

Lemma sys_move k st pc s :
  sys_ok s → sy_streams s !! k = Some st → stream_ok (sy_manager s) (goto_pc pc st) → sys_ok (move_stream k pc s).
Proof.
  intros Hs Hk Hok. apply sys_to_streams; [done|].
  apply Forall_lookup. intros i st' Hi. destruct (decide (i = k)) as [->|Hne].
  - rewrite list_lookup_alter_eq, Hk in Hi. by injection Hi as <-.
  - rewrite list_lookup_alter_ne in Hi by done. by apply (Forall_lookup_1 _ _ _ _ (so_streams _ Hs) Hi).
Qed.

Lemma dead_found m id a :
  tables_ok m → dead m id → tm_triggers m !! id = Some a → ∃ t, tm_heap m !! a = Some t ∧ ts_active t = false.
Proof.
  intros Ht [(b & t & Hb & Hid & Hi)|[_ Hn]] Ha; [|congruence].
  destruct (to_triggers _ Ht _ _ Ha) as (u & Hu & Hidu).
  assert (a = b) as -> by (eapply heap_unique; [apply Ht|done|done|congruence]). by exists t.
Qed.

Lemma sys_stream_next now written k st s :
  sys_ok s → sy_streams s !! k = Some st →
  sys_ok (stream_next now written k st s) ∧
  tm_next_id (sy_manager (stream_next now written k st s)) = tm_next_id (sy_manager s).
Proof.
  intros Hs Hk. pose proof (so_tables _ Hs) as Ht.
  destruct (Forall_lookup_1 _ _ _ _ (so_streams _ Hs) Hk) as (Hsent & Hseen & Hpc).
  assert (∀ pc, match pc with SStart | SClosed => True | _ => False end → stream_ok (sy_manager s) (goto_pc pc st))
    as Hfree by (by intros []).
  assert (∀ a alive, named (sy_manager s) (sm_id st) a →
    (∀ t, tm_heap (sy_manager s) !! a = Some t → check_active now t = Alive →
       stream_ok (sy_manager s) (goto_pc alive st)) →
    let s' := match tm_heap (sy_manager s) !! a with
    | None => move_stream k SClosed s
    | Some t =>
        match check_active now t with
        | Alive => move_stream k alive s
        | Inactive => move_stream k SClosed s
        | Expired => move_stream k SClosed (add_request (Some (RExpire (sm_id st) a)) s)
        end
    end in sys_ok s' ∧ tm_next_id (sy_manager s') = tm_next_id (sy_manager s)) as Hcheck.
  { intros a alive Hn Hal. cbv zeta. destruct (tm_heap (sy_manager s) !! a) as [t|] eqn:Ha; [|destruct Hn as (? & ? & _); congruence].
    specialize (Hal t eq_refl). destruct (check_active now t).
    - split; [by eapply sys_move; [..|apply Hfree]|done].
    - split; [by eapply sys_move; [..|apply Hal]|done].
    - split; [|done]. eapply sys_move; [|exact Hk|by apply Hfree].
      apply (sys_add_request s (Some (RExpire (sm_id st) a))); [done|exact Hn]. }
  assert (∀ a, tm_triggers (sy_manager s) !! sm_id st = Some a → named (sy_manager s) (sm_id st) a) as Hfound
    by (intros a; apply Ht).
  unfold stream_next. destruct (sm_pc st) as [|a| |a|woken|woken a| |a|] eqn:Hpcst.
  - split; [|done]. eapply sys_move; [done|done|].
    destruct (tm_triggers _ !! _) as [a|] eqn:Ha; [split_and!; try done; by apply Hfound|by apply Hfree].
  - apply (Hcheck a SWait Hpc). intros t Ha _. split_and!; try done. by exists a.
  - split; [|done]. eapply sys_move; [done|done|]. destruct (tm_triggers _ !! _) as [a|] eqn:Ha.
    + split_and!; try done. by apply Hfound.
    + split_and!; [done|done|]. split; [exact Hpc|]. by intros _ _; right.
  - done.
  - split; [|done]. destruct Hpc as [_ Hd]. eapply sys_move; [done|done|].
    destruct (tm_triggers _ !! _) as [a|] eqn:Ha; [|by apply Hfree].
    split_and!; [done|done|]. split; [by apply Hfound|]. intros Hw Ho. by eapply dead_found; [..|apply Hd|].
  - destruct Hpc as [Hn Hd]. apply (Hcheck a _ Hn). intros t Ha Hal.
    destruct woken; [|destruct written; by apply Hfree]. split_and!; [done|done|]. split; [by exists a|].
    intros Ho. destruct (Hd eq_refl Ho) as (t' & Ha' & Hi). simplify_eq. unfold check_active in Hal.
    by rewrite Hi in Hal.
  - split; [|done]. destruct Hpc as [_ Hn]. eapply sys_move; [done|done|].
    destruct (tm_triggers _ !! _) as [a|] eqn:Ha; [|by apply Hfree]. split_and!; [done|done|].
    split; [by apply Hfound|done].
  - destruct Hpc as [(t & Ha & Hid) Hn]. unfold consume_event. rewrite Ha.
    destruct (ts_pending t) as [|e pending] eqn:Hp; [split; [by eapply sys_move; [..|apply Hfree]|done]|].
    split; [|done].
    pose proof (so_spent _ Hs) as Hsp. pose proof (so_bound _ Hs) as Hb. pose proof (so_events _ Hs a) as Hacc.
    rewrite Forall_lookup in Hsp. rewrite Forall_lookup in Hb. rewrite Ha in Hacc. cbn in Hacc.
    apply (sys_state s a t); try done; [apply Hs|..].
    + apply Forall_insert; [apply Hs|]. destruct written; [|by apply Hfree].
      split_and!; [done|intros _; by exists a, t|]. split; [by exists a, t|done].
    + intros Hm _. by apply (Hsp a t Ha Hm); rewrite Hp.
    + cbn. specialize (Hb a t Ha). rewrite Hp in *. cbn in *. lia.
    + intros b Hne. rewrite events_at_snoc, decide_False by done. by rewrite app_nil_r.
    + rewrite events_at_snoc, decide_True by done. cbn. rewrite Hp in *. by apply accounted_take.
  - done.
Qed.

Lemma sys_wake k st a s :
  sys_ok s → sy_streams s !! k = Some st → sm_pc st = SWaiting a →
  sys_ok (move_stream k (SWoken (from_option (event_ready (sy_manager s)) true (tm_heap (sy_manager s) !! a))) s).
Proof.
  intros Hs Hk Hpc. destruct (Forall_lookup_1 _ _ _ _ (so_streams _ Hs) Hk) as (Hsent & Hseen & Hok).
  rewrite Hpc in Hok. destruct Hok as (t & Ha & Hid). rewrite Ha. cbn.
  eapply sys_move; [done|done|]. split_and!; [done|done|]. split; [by exists a, t|].
  intros Hready (Hsd & b & u & Hb & Hidu & Hms).
  assert (b = a) as -> by (eapply heap_unique; [apply Hs|done|done|cbn in *; congruence]). simplify_eq.
  left. exists a, t. split_and!; try done. unfold event_ready in Hready. rewrite Hsd, orb_false_r in Hready.
  apply orb_true_iff in Hready as [Hp|Hi]; [|by apply negb_true_iff].
  apply (Forall_lookup_1 _ _ _ _ (so_spent _ Hs) Ha); [done|]. by apply negb_true_iff, bool_decide_eq_false in Hp.
Qed.

Lemma trigger_sys_step_ok s s' :
  sys_ok s → (tm_next_id (sy_manager s) + 1 < two64)%N →
  sys_step conditions transport on_removed log_manager json_at walk s s' →
  sys_ok s' ∧ (tm_next_id (sy_manager s') ≤ tm_next_id (sy_manager s) + 1)%N.
Proof.
  intros Hs Hn Hstep. pose proof (so_tables _ Hs) as Ht.
  assert (∀ m', keeps (sy_manager s) m' → tables_ok m' →
    sys_ok (to_manager m' s) ∧ (tm_next_id m' ≤ tm_next_id (sy_manager s) + 1)%N) as Hsec.
  { intros m' Hk Ht'. split; [by apply sys_quiet|]. rewrite (kp_next _ _ Hk). lia. }
  destruct Hstep as [now saved ok r result m s Hc|now l ok id s|id r m s Hr|i r ok ok' steady r' m s Hi Hr|
    resolve subscribes b now s|exists_ orphans m s Hsw|i id todo orphans r m s Hi Hr|s|c s Hw|now ok ok' children s|
    id s|now written k st s Hk|k st a woken s Hk Hpc Hw].
  - pose proof (sys_create _ _ _ _ _ _ _ Hs Hn Hc) as [H1 H2]. split; [done|]. by destruct (pending_create _ _ _).
  - apply Hsec; [apply keeps_update|by apply tables_update].
  - destruct (Hsec m) as [H1 H2]; [replace m with (remove_begin id (sy_manager s)).2 by (by rewrite Hr)..|].
    { apply keeps_remove_begin. } { by apply tables_remove_begin. }
    split; [|by destruct r]. apply sys_add_request; [done|by destruct r].
  - pose proof (request_keeps ok ok' steady r (sy_manager s)) as Hk.
    pose proof (Forall_lookup_1 _ _ _ _ (so_requests _ Hs) Hi) as Hreq.
    destruct (run_request_ok ok ok' steady r (sy_manager s) Ht Hreq) as [Ht' Hr']. rewrite Hr in *. cbn [fst snd] in *.
    destruct (Hsec m Hk Ht') as [H1 H2]. split; [|by destruct r'].
    apply sys_add_request; [|done]. apply sys_to_requests; [done|]. apply Forall_delete, H1.
  - apply Hsec; [apply keeps_retry|by apply tables_retry].
  - destruct (Hsec m) as [H1 H2]; [replace m with (sweep_collect exists_ (sy_manager s)).2 by (by rewrite Hsw)..|].
    { apply keeps_sweep. } { by apply (tables_same (sy_manager s)); [apply keeps_sweep|..]. }
    split; [|done]. by apply sys_add_request.
  - destruct (Hsec m) as [H1 H2]; [replace m with (remove_begin id (sy_manager s)).2 by (by rewrite Hr)..|].
    { apply keeps_remove_begin. } { by apply tables_remove_begin. }
    split; [|by destruct r]. apply sys_add_request; [|by destruct r]. apply sys_to_requests; [done|].
    apply Forall_insert; [apply H1|done].
  - destruct (Hsec (shutdown_flag (sy_manager s))) as [H1 H2];
      [apply keeps_shutdown_flag|by apply (tables_same (sy_manager s)); [apply keeps_shutdown_flag|..]|].
    split; [apply sys_add_request; [done|]|]; by destruct (tm_shutdown (sy_manager s)).
  - split; [|cbn; lia]. apply sys_to_worker; [done|]. case_match; [done|]. by apply candidates_named.
  - destruct (sys_work now ok ok' children s Hs) as [H1 ->]. split; [done|lia].
  - split; [|cbn; lia]. apply sys_to_streams; [done|]. apply Forall_app_2; [apply Hs|]. by apply Forall_singleton.
  - destruct (sys_stream_next now written k st s Hs Hk) as [H1 ->]. split; [done|lia].
  - subst woken. split; [by eapply sys_wake|cbn; lia].
Qed.

Lemma sys_new config store : sys_ok (new_system (new_trigger_manager config store)).
Proof.
  split; cbn; try apply Forall_nil; try done.
  - split; cbn; try done.
    + apply NoDup_nil_2.
    + by intros t ?%not_elem_of_nil.
    + intros id key. unfold indexed. rewrite lookup_empty. cbn. split; [set_solver|]. by intros (a & t & ? & _).
  - intros a. exists []. by cbn.
Qed.

Lemma sys_run n s s' :
  nsteps (sys_step conditions transport on_removed log_manager json_at walk) n s s' →
  sys_ok s → (tm_next_id (sy_manager s) + N.of_nat n < two64)%N → sys_ok s'.
Proof.
  induction 1 as [s|n s s1 s' Hstep _ IH]; intros Hs Hn; [done|].
  destruct (trigger_sys_step_ok s s1 Hs) as [Hs1 Hn1]; [lia|done|]. apply IH; [done|lia].
Qed.

(** *** Restart *)

(** Rows as [create] saves them: different ids, numbered below [k]. *)
Definition rows_ok (k : N) (rows : list TriggerInfo) : Prop :=
  NoDup (ti_id <$> rows) ∧ Forall (λ i, ∃ n, ti_id i = trigger_id n ∧ (n < k)%N) rows.

Lemma bump_trigger_id n next :
  (n + 1 < two64)%N → (n < bump_next_id (trigger_id n) next)%N ∧ bump_next_id (trigger_id n) next = N.max next (n + 1).
Proof.
  intros Hn. unfold bump_next_id.
  change (split_at_underscore (trigger_id n)) with (Some (pretty n)). cbv beta iota.
  rewrite stoull_pretty by lia.
  destruct (N.leb_spec next n); [rewrite N.mod_small by done|]; lia.
Qed.

Lemma restore_row_ok subscribes now steady so ue acc i n k :
  sys_ok (new_system acc.2) → ti_id i = trigger_id n → (n < k)%N → (k < two64)%N → (tm_next_id acc.2 ≤ k)%N →
  ¬ seen acc.2 (ti_id i) →
  let acc' := restore_row subscribes now steady transport so ue acc i in
  sys_ok (new_system acc'.2) ∧ (tm_next_id acc'.2 ≤ k)%N ∧ ∀ id, seen acc'.2 id → seen acc.2 id ∨ id = ti_id i.
Proof.
  destruct acc as [[restored ws] m]. cbn [snd]. intros Hs Hid Hn Hk Hle Hfresh. unfold restore_row.
  assert (∀ m', keeps m m' → tables_ok m' → sys_ok (new_system m')) as Hq
    by (intros m' Hm Ht; by apply (sys_quiet (new_system m))).
  destruct (bool_decide _); [|cbn; naive_solver]. cbn [negb].
  destruct (match ti_expires_at i with Some e => (e <=? now)%Z | None => false end).
  { cbn [snd]. split_and!; [|done|by left]. apply Hq; [apply keeps_with_store|].
    by apply (tables_same m); [apply keeps_with_store|..|apply Hs]. }
  destruct (bump_trigger_id n (tm_next_id m)) as [Hlt Hmax]; [lia|]. rewrite Hid in *.
  set (m1 := with_next_id _ m). set (new := mkTrigger _ _ _ _ _ _).
  assert (sys_ok (new_system m1)) as Hs1 by (apply (sys_next (new_system m)); [done|cbn; lia]).
  assert (∀ m2, tm_triggers m2 = tm_triggers m1 → tm_heap m2 = tm_heap m1 → tm_index m2 = tm_index m1 →
    tm_next_id m2 = tm_next_id m1 → keeps m1 m2 →
    sys_ok (new_system (inserted new m2)) ∧ (tm_next_id (inserted new m2) ≤ k)%N ∧
    ∀ id, seen (inserted new m2) id → seen m id ∨ id = trigger_id n) as Hins.
  { intros m2 Htr Hh Hix Hnx Hkm. split_and!.
    - apply (sys_insert (new_system m2)); [|done|..].
      + apply (sys_quiet (new_system m1)); [done..|]. by apply (tables_same m1); [..|apply Hs1].
      + intros (a & t & Ha & Ht). cbn in Ha. rewrite Hh in Ha. apply Hfresh. exists a, t. split; [done|].
        rewrite Ht. exact Hid.
      + exists n. split; [exact Hid|]. cbn [sy_manager new_system]. rewrite Hnx. exact Hlt.
    - cbn. rewrite Hnx. cbn. lia.
    - intros id (a & t & Ha & Ht). apply inserted_lookup in Ha as [Ha|[_ ->]].
      + left. exists a, t. by rewrite Hh in Ha.
      + right. rewrite <-Ht. exact Hid. }
  unfold inserted in Hins. cbn [new tid ts_info] in Hins. unfold tid in Hins. cbn [new ts_info] in Hins. rewrite Hid in Hins.
  repeat case_match; simplify_eq; cbn [snd]; apply Hins; auto with keeps.
Qed.

Lemma restore_rows_ok subscribes now steady so ue rows acc k :
  rows_ok k rows → sys_ok (new_system acc.2) → (k < two64)%N → (tm_next_id acc.2 ≤ k)%N →
  (∀ i, i ∈ rows → ¬ seen acc.2 (ti_id i)) →
  let acc' := foldl (restore_row subscribes now steady transport so ue) acc rows in
  sys_ok (new_system acc'.2) ∧ (tm_next_id acc'.2 ≤ k)%N.
Proof.
  intros [Hnd Hall]. revert acc Hnd. induction Hall as [|i rows (n & Hid & Hn) Hall IH]; intros acc Hnd Hs Hk Hle Hf; [done|].
  cbn [fmap list_fmap] in Hnd. apply NoDup_cons in Hnd as [Hni Hnd]. cbn [foldl].
  destruct (restore_row_ok subscribes now steady so ue acc i n k) as (Hs' & Hle' & Hseen); try done; [apply Hf; left|].
  apply IH; try done. intros j Hj [Hsj|Heq]%Hseen.
  - revert Hsj. apply Hf. by right.
  - apply Hni. rewrite <-Heq. by apply list_elem_of_fmap_2.
Qed.

(** A manager after [load_persistent_triggers]. *)
Definition restarted (config : TriggerConfig) (store : TriggerStore) (subscribes : string → bool) (now steady : Z)
    (so : string → bool) (ue : string → option string) (rows : string + list TriggerInfo) : TriggerManager :=
  (load_persistent_triggers subscribes now steady transport so ue rows (new_trigger_manager config store)).2.

Lemma sys_restarted config store subscribes now steady so ue rows k :
  match rows with inr rows => rows_ok k rows | inl _ => True end → (1 ≤ k)%N → (k < two64)%N →
  let m := restarted config store subscribes now steady so ue rows in sys_ok (new_system m) ∧ (tm_next_id m ≤ k)%N.
Proof.
  intros Hrows H1 Hk. unfold restarted, load_persistent_triggers. pose proof (sys_new config store) as Hs.
  assert (∀ m ws, sys_ok (new_system m) → sys_ok (new_system (warn ws m))) as Hwarn.
  { intros m ws Hm. apply (sys_quiet (new_system m)); [done|apply keeps_warn|].
    by apply (tables_same m); [apply keeps_warn|..|apply Hm]. }
  destruct (negb _); [by split|]. destruct rows as [e|rows]; [split; [by apply Hwarn|done]|].
  destruct (restore_rows_ok subscribes now steady so ue rows (0, [], new_trigger_manager config store) k)
    as [Hs' Hn]; try done.
  { intros i _ (a & t & Ha & _). done. }
  destruct (foldl _ _ _) as [[restored ws] m]. split; [by apply Hwarn|done].
Qed.

(** Runs of a gateway from its start, with at most [n] steps; no id is reused
    while [k + n < 2^64]. *)
Definition trigger_run (k : N) (n : nat) (s : System) : Prop :=
  (1 ≤ k)%N ∧ (k + N.of_nat n < two64)%N ∧
  ∃ config store subscribes now steady so ue rows,
    match rows with inr rows => rows_ok k rows | inl _ => True end ∧
    nsteps (sys_step conditions transport on_removed log_manager json_at walk) n
      (new_system (restarted config store subscribes now steady so ue rows)) s.

Lemma run_ok k n s : trigger_run k n s → sys_ok s.
Proof.
  intros (H1 & Hk & config & store & subscribes & now & steady & so & ue & rows & Hrows & Hrun).
  destruct (sys_restarted config store subscribes now steady so ue rows k) as [Hs Hn]; [done..|lia|].
  eapply sys_run; [done|done|]. cbn. lia.
Qed.

(** C34: One-shot triggers do not deliver: firing deactivates the state before the
    stream can look, and the stream closes on an inactive trigger without
    draining its queue.  In no run, and for no trigger, does a stream of a
    one-shot trigger send an event while the gateway is not shutting down. *)
Theorem one_shot_never_delivers k n s st a t :
  trigger_run k n s → st ∈ sy_streams s → tm_shutdown (sy_manager s) = false →
  tm_heap (sy_manager s) !! a = Some t → ti_id (ts_info t) = sm_id st → ti_multishot (ts_info t) = false →
  sm_sent st = [].
Proof.
  intros Hrun Hst Hsd Ha Hid Hm. pose proof (so_streams _ (run_ok _ _ _ Hrun)) as Hs.
  rewrite Forall_forall in Hs. destruct (Hs st Hst) as [Hsent _]. apply Hsent. split; [done|]. by exists a, t.
Qed.

(** C33: The events of a state, whoever interleaves: they are queued in the order in
    which they fired, the queue holds the newest of them and at most
    [kMaxPendingEvents], streams take the others in order, and none is dropped
    while at most [kMaxPendingEvents] fired. *)
Theorem events_in_order k n s a t :
  trigger_run k n s → tm_heap (sy_manager s) !! a = Some t →
  length (ts_pending t) ≤ kMaxPendingEvents ∧
  ∃ out, events_at a (sy_fired s) = out ++ ts_pending t ∧ events_at a (sy_taken s) `sublist_of` out ∧
    (length (events_at a (sy_fired s)) ≤ kMaxPendingEvents → events_at a (sy_taken s) = out).
Proof.
  intros Hrun Ha. pose proof (run_ok _ _ _ Hrun) as Hs. split.
  - exact (Forall_lookup_1 _ _ _ _ (so_bound _ Hs) Ha).
  - pose proof (so_events _ Hs a) as He. by rewrite Ha in He.
Qed.

(** The tables in every run: the table finds each trigger under its own id, no
    two states share an id, and the dispatch index files exactly the triggers of
    the table, under their entity and under their collection. *)
Theorem dispatch_index_exact k n s :
  trigger_run k n s →
  NoDup ((λ t, ti_id (ts_info t)) <$> tm_heap (sy_manager s)) ∧
  (∀ id a, tm_triggers (sy_manager s) !! id = Some a →
     ∃ t, tm_heap (sy_manager s) !! a = Some t ∧ ti_id (ts_info t) = id) ∧
  ∀ id collection entity_id,
    id ∈ default ∅ (tm_index (sy_manager s) !! dispatch_key collection entity_id) ↔
    ∃ i, get_trigger id (sy_manager s) = Some i ∧ filed_under i (dispatch_key collection entity_id).
Proof.
  intros Hrun. destruct (so_tables _ (run_ok _ _ _ Hrun)) as [Hu _ Htr Hix]. split_and!; [done|done|].
  intros id collection entity_id. etransitivity; [apply (Hix id (dispatch_key collection entity_id))|].
  unfold get_trigger, trigger_at. split.
  - intros (a & t & Ha & Hat & Hf). exists (ts_info t). rewrite Ha. cbn. by rewrite Hat.
  - destruct (tm_triggers (sy_manager s) !! id) as [a|] eqn:Ha; [|by intros (? & ? & _)]. cbn.
    destruct (tm_heap (sy_manager s) !! a) as [t|] eqn:Hat; [|by intros (? & ? & _)].
    intros (i & [= <-] & Hf). by exists a, t.
Qed.
End Steps.
