(* ===== verification/TriggerDispatchSpec.v ===== *)
(** * What a resource change does to the triggers

    [TriggerManager::on_resource_change] as the worker of the notifier runs it,
    with nothing in between: which triggers react, how, and that the worker gets
    back to waiting. *)

From stdpp Require Import relations.
From S2P Require Import Prelude Json TriggerConditions FaultTriggers TriggerManager TriggerManagerSpec.

(** ** Keys *)

Fixpoint colon_free (s : string) : bool :=
  match s with "" => true | String c s' => negb (bool_decide (c = ":"%char)) && colon_free s' end.

Lemma dispatch_key_collection c c' e e' :
  colon_free c = true → colon_free c' = true → dispatch_key c e = dispatch_key c' e' → c = c'.
Proof.
  unfold dispatch_key. revert c'. induction c as [|x c IH]; intros [|y c'] Hc Hc'; cbn in *; try done.
  - intros [= <- _]. by rewrite bool_decide_eq_true_2 in Hc'.
  - intros [= -> _]. by rewrite bool_decide_eq_true_2 in Hc.
  - apply andb_true_iff in Hc as [_ Hc]. apply andb_true_iff in Hc' as [_ Hc'].
    intros [= -> Heq]. f_equal. by apply IH.
Qed.

#[global] Instance moves_preorder : PreOrder moves.
Proof.
  split.
  - intros m. by split.
  - intros m n k [H1 H2 H3 H4 H5] [K1 K2 K3 K4 K5]. split; try congruence; auto. by transitivity (tm_heap n).
Qed.

Lemma remove_end_tables b ok id a p m :
  tm_heap (remove_end b ok id a p m) = alter (set_active false) a (tm_heap m) ∧
  tm_triggers (remove_end b ok id a p m) = tm_triggers m.
Proof. by destruct b, p. Qed.

Lemma expire_end_tables b id c e m :
  tm_heap (expire_end b id c e m) = tm_heap m ∧ tm_triggers (expire_end b id c e m) = delete id (tm_triggers m).
Proof. by destruct b. Qed.

(** ** What a change means for one trigger

    Said without the manager's own checks: in terms of the fields of the trigger
    and of the change. *)

Section Meaning.
Context (conditions : ConditionRegistry) (json_at : string → json → option json).
Context (now : Z) (children : option (string → string → list string)) (c : ResourceChange).

Definition live (t : TriggerState) : Prop := ti_status (ts_info t) = ACTIVE ∧ ts_active t = true.

Definition lapsed (t : TriggerState) : Prop := ∃ e, ti_expires_at (ts_info t) = Some e ∧ (e ≤ now)%Z.

(** The trigger watches the resource, on the entity of the change or on one
    above it. *)
Definition affected (t : TriggerState) : Prop :=
  (ti_resource_path (ts_info t) = "" ∨ ti_resource_path (ts_info t) = rc_resource_path c) ∧
  (ti_entity_id (ts_info t) = rc_entity_id c ∨
   ∃ f, children = Some f ∧ rc_entity_id c ∈ f (ti_entity_id (ts_info t)) (ti_entity_type (ts_info t))).

(** [v] is what the trigger reads in the change: the value, or the part its
    pointer names. *)
Definition reads (t : TriggerState) (v : json) : Prop :=
  (ti_path (ts_info t) = "" ∧ v = rc_value c) ∨
  (ti_path (ts_info t) ≠ "" ∧ json_at (ti_path (ts_info t)) (rc_value c) = Some v).

(** The trigger is judged on [v], against the value it read last. *)
Definition judged (t : TriggerState) (v : json) (holds : bool) : Prop :=
  live t ∧ ¬ lapsed t ∧ affected t ∧ reads t v ∧
  ∃ e, conditions !! ti_condition_type (ts_info t) = Some e ∧
    evaluate e (ts_previous t) v (ti_condition_params (ts_info t)) = Some holds.

Definition fires (t : TriggerState) : Prop := ∃ v, judged t v true.

(** It expired, or it fired and was a one-shot. *)
Definition over (t : TriggerState) : Prop :=
  (live t ∧ lapsed t) ∨ (fires t ∧ ti_multishot (ts_info t) = false).

(** All of a trigger but its status. *)
Definition definition_of (i : TriggerInfo) :=
  (ti_id i, (ti_entity_id i, ti_entity_type i, ti_resource_uri i, ti_collection i, ti_resource_path i),
   (ti_resolved_topic_name i, ti_path i, ti_condition_type i, ti_condition_params i, ti_protocol i),
   (ti_multishot i, ti_persistent i, ti_lifetime_sec i, ti_log_settings i), (ti_created_at i, ti_expires_at i)).

Definition newest (n : nat) (l : list json) : list json := drop (length l - n) l.

Definition event : json := JObj [("payload", rc_value c); ("timestamp", JStr (to_iso8601 now))].

(** The trigger before and after the change. *)
Record settles (t t' : TriggerState) : Prop := {
  se_definition : definition_of (ts_info t') = definition_of (ts_info t);
  se_over : over t → ti_status (ts_info t') = TERMINATED ∧ ts_active t' = false;
  se_stays : ¬ over t → ti_status (ts_info t') = ti_status (ts_info t) ∧ ts_active t' = ts_active t;
  se_reads v holds : judged t v holds → ts_previous t' = Some v;
  se_reads_not : ¬ (∃ v holds, judged t v holds) → ts_previous t' = ts_previous t;
  se_fires : fires t → ts_pending t' = newest kMaxPendingEvents (ts_pending t ++ [event]) ∧
    ts_counter t' = ((ts_counter t + 1) `mod` two64)%N;
  se_fires_not : ¬ fires t → ts_pending t' = ts_pending t ∧ ts_counter t' = ts_counter t;
  se_seen : ts_entity_seen t' = ts_entity_seen t;
}.
End Meaning.

(** ** The reaction of one trigger *)

Section Reaction.
Context (conditions : ConditionRegistry) (on_removed log_manager : bool) (json_at : string → json → option json).
Context (now : Z) (ok ok' : bool) (children : option (string → string → list string)) (c : ResourceChange).

Definition considered (t : TriggerState) : bool :=
  match check_candidate now c t with
  | Consider => matches_entity children (ts_info t) (rc_entity_id c)
  | _ => false
  end.

Definition expiring (t : TriggerState) : bool := match check_candidate now c t with CleanUp => true | _ => false end.

(** Fires: active, not expired, on this resource and entity, and its condition
    holds of the value. *)
Definition firing (t : TriggerState) : bool :=
  considered t && from_option (λ r, r.1.1) false (evaluate_candidate conditions json_at now c t).

Definition settled (t : TriggerState) : TriggerState :=
  if expiring t then set_info terminate (set_active false t)
  else if considered t then from_option snd t (evaluate_candidate conditions json_at now c t)
  else t.

(** Leaves the table: it expired, or it fired and was a one-shot. *)
Definition leaving (t : TriggerState) : bool := expiring t || (firing t && negb (ti_multishot (ts_info t))).

Let next (s : System) : System := work conditions on_removed log_manager json_at now ok ok' children s.

(** The worker, alone. *)
Definition worker_runs : System → System → Prop := rtc (λ s s', next s = s').

Definition spent_at (h : list TriggerState) (e : string * nat) : option string :=
  t ← h !! e.2; if firing t && negb (ti_multishot (ts_info t)) then Some (ti_id (ts_info t)) else None.

(** What one candidate changes: its own state, its own entry of the table. *)
Record reacted (id : string) (a : nat) (t : TriggerState) (s s' : System) : Prop := {
  ra_moves : moves (sy_manager s) (sy_manager s');
  ra_state : tm_heap (sy_manager s') = <[a := settled t]> (tm_heap (sy_manager s));
  ra_table id' : tm_triggers (sy_manager s') !! id' =
    if expiring t && bool_decide (id' = id) then None else tm_triggers (sy_manager s) !! id';
}.

Lemma reacted_idle id a t s w :
  tm_heap (sy_manager s) !! a = Some t → settled t = t → expiring t = false →
  reacted id a t s (to_worker w s).
Proof.
  intros Ha Hs He. split; cbn; [done| |].
  - rewrite Hs. by rewrite list_insert_id.
  - by rewrite He.
Qed.

Lemma worker_one s s' : next s = s' → worker_runs s s'.
Proof. intros H. by apply rtc_once. Qed.

Lemma not_spent h id a t : h !! a = Some t → firing t = false → option_list (spent_at h (id, a)) = [].
Proof. intros Ha Hf. unfold spent_at. cbn. rewrite Ha. cbn. by rewrite Hf. Qed.

Lemma after_tables fired i v m :
  tm_heap (after_evaluation ok ok' log_manager fired i v m) = tm_heap m ∧
  tm_triggers (after_evaluation ok ok' log_manager fired i v m) = tm_triggers m.
Proof.
  unfold after_evaluation. destruct ((_ =?ₛ "restore") && ti_persistent i); (destruct fired; [|done]);
    destruct (negb (ti_multishot i) && ti_persistent i); repeat (case_match; try done).
Qed.

Lemma reacted_expired id a t todo done s :
  sy_worker s = WExpire c id a todo done → tm_heap (sy_manager s) !! a = Some t →
  ts_active t = true → expiring t = true →
  ∃ s', worker_runs s s' ∧ sy_worker s' = WLoop c todo done ∧ reacted id a t s s'.
Proof.
  intros Hw Ha Hact He.
  set (m1 := (expire_begin ok id a (sy_manager s)).2).
  set (cl := ti_collection (ts_info t)). set (en := ti_entity_id (ts_info t)).
  assert (expire_begin ok id a (sy_manager s) = (Some (cl, en), m1)) as Hb
    by (unfold m1, expire_begin; by rewrite Ha, Hact).
  assert (tm_heap m1 = <[a := settled t]> (tm_heap (sy_manager s)) ∧ tm_triggers m1 = tm_triggers (sy_manager s)) as [Hh Ht].
  { unfold m1, expire_begin, settled. rewrite Ha, Hact, He. cbn. by case_match. }
  set (s1 := to_worker (WExpireEnd c id cl en todo done) (to_manager m1 s)).
  set (s2 := to_worker (WLoop c todo done) (to_manager (expire_end on_removed id cl en m1) s1)).
  exists s2. split; [|split; [done|split]].
  - apply (rtc_l _ _ s1); [|by apply worker_one]. unfold next, work. by rewrite Hw, Hb.
  - transitivity m1; [exact (keeps_moves _ _ (keeps_expire_begin ok id a (sy_manager s)))|].
    exact (keeps_moves _ _ (keeps_expire_end on_removed id cl en m1)).
  - rewrite <-Hh. apply expire_end_tables.
  - intros id'. rewrite He. cbn [andb]. rewrite <-Ht. change (sy_manager s2) with (expire_end on_removed id cl en m1).
    rewrite (proj2 (expire_end_tables _ _ _ _ _)).
    case_bool_decide as Hd; [subst; apply lookup_delete_eq|by apply lookup_delete_ne].
Qed.

Lemma reacted_considered id a t todo done s :
  sy_worker s = WConsider c a todo done → tm_heap (sy_manager s) !! a = Some t →
  expiring t = false → considered t = true →
  ∃ s', worker_runs s s' ∧
    sy_worker s' = WLoop c todo (done ++ option_list (spent_at (tm_heap (sy_manager s)) (id, a))) ∧ reacted id a t s s'.
Proof.
  intros Hw Ha He Hc. unfold spent_at. cbn. rewrite Ha. cbn.
  destruct (evaluate_candidate conditions json_at now c t) as [[[fired v] t']|] eqn:Hev.
  - assert (firing t = fired ∧ settled t = t') as [Hf Hs].
    { unfold firing, settled. by rewrite He, Hc, Hev. }
    set (done' := if fired && negb (ti_multishot (ts_info t)) then done ++ [ti_id (ts_info t)] else done).
    set (s1 := mkSystem (with_states (<[a := t']> (tm_heap (sy_manager s))) (sy_manager s))
      (WAfter c fired (ts_info t) v todo done') (sy_requests s) (sy_streams s)
      (if fired then sy_fired s ++ (pair a <$> option_list (last (ts_pending t'))) else sy_fired s) (sy_taken s)).
    set (m2 := after_evaluation ok ok' log_manager fired (ts_info t) v (sy_manager s1)).
    destruct (after_tables fired (ts_info t) v (sy_manager s1)) as [Hh Ht].
    exists (to_worker (WLoop c todo done') (to_manager m2 s1)). split; [|split; [|split]].
    + apply (rtc_l _ _ s1); [|by apply worker_one]. unfold next, work. rewrite Hw, Ha. cbn. by rewrite Hev.
    + cbn. unfold done'. rewrite Hf. destruct (fired && _); cbn; [done|by rewrite app_nil_r].
    + cbn. transitivity (sy_manager s1); [|apply keeps_moves, keeps_after].
      apply (moves_insert _ a t); [done|]. rewrite (evaluate_same _ _ _ _ _ _ _ _ Hev).
      by destruct fired; [apply fire_same|split].
    + rewrite Hs. exact Hh.
    + intros id'. rewrite He. exact (f_equal (lookup id') Ht).
  - assert (firing t = false ∧ settled t = t) as [Hf Hs].
    { unfold firing, settled. by rewrite He, Hc, Hev. }
    rewrite Hf. cbn. rewrite app_nil_r. exists (to_worker (WLoop c todo done) s). split; [|split; [done|]].
    + apply worker_one. unfold next, work. rewrite Hw, Ha. cbn. by rewrite Hev.
    + by apply reacted_idle.
Qed.

Lemma worker_candidate id a t todo done s :
  sy_worker s = WLoop c ((id, a) :: todo) done → tm_heap (sy_manager s) !! a = Some t →
  ∃ s', worker_runs s s' ∧
    sy_worker s' = WLoop c todo (done ++ option_list (spent_at (tm_heap (sy_manager s)) (id, a))) ∧ reacted id a t s s'.
Proof.
  intros Hw Ha. assert (∀ w, next s = to_worker w s → worker_runs s (to_worker w s)) as Hone by (intros w; apply worker_one).
  assert (considered t = false → expiring t = false → next s = to_worker (WLoop c todo done) s →
    ∃ s', worker_runs s s' ∧
      sy_worker s' = WLoop c todo (done ++ option_list (spent_at (tm_heap (sy_manager s)) (id, a))) ∧
      reacted id a t s s') as Hskip.
  { intros Hc He Hn. assert (firing t = false ∧ settled t = t) as [Hf Hs] by (unfold firing, settled; by rewrite Hc, He).
    rewrite (not_spent _ _ _ t), app_nil_r by done.
    exists (to_worker (WLoop c todo done) s). split; [by apply Hone|]. split; [done|by apply reacted_idle]. }
  assert (∀ w, next s = to_worker w s → (∃ s', worker_runs (to_worker w s) s' ∧
      sy_worker s' = WLoop c todo (done ++ option_list (spent_at (tm_heap (sy_manager s)) (id, a))) ∧
      reacted id a t (to_worker w s) s') →
    ∃ s', worker_runs s s' ∧
      sy_worker s' = WLoop c todo (done ++ option_list (spent_at (tm_heap (sy_manager s)) (id, a))) ∧
      reacted id a t s s') as Hthen.
  { intros w Hn (s' & Hr & Hw' & [H1 H2 H3]). exists s'. split; [etransitivity; [by apply Hone|done]|]. by split. }
  unfold next, work in Hskip, Hthen. rewrite Hw, Ha in Hskip, Hthen.
  destruct (check_candidate now c t) eqn:Hck.
  - apply Hskip; [by unfold considered; rewrite Hck|by unfold expiring; rewrite Hck|done].
  - assert (expiring t = true ∧ firing t = false) as [He Hf] by (unfold expiring, firing, considered; by rewrite Hck).
    eapply Hthen; [done|]. rewrite (not_spent _ _ _ t) by done. rewrite app_nil_r. apply reacted_expired; try done.
    unfold check_candidate in Hck. destruct (ts_active t); [done|]. by rewrite orb_true_r in Hck.
  - assert (expiring t = false) as He by (unfold expiring; by rewrite Hck).
    destruct (matches_entity children (ts_info t) (rc_entity_id c)) eqn:Hm.
    + eapply Hthen; [done|].
      apply (reacted_considered id a t todo done (to_worker (WConsider c a todo done) s)); try done.
      unfold considered. by rewrite Hck.
    + apply Hskip; [|done|done]. unfold considered. by rewrite Hck.
Qed.
(** ** All candidates *)

Definition gone (h : list TriggerState) (todo : list (string * nat)) (id : string) : bool :=
  existsb (λ e, bool_decide (id = e.1) && from_option expiring false (h !! e.2)) todo.

Lemma omap_agree {A B} (f g : A → option B) (l : list A) : (∀ x, x ∈ l → f x = g x) → omap f l = omap g l.
Proof.
  induction l as [|x l IH]; intros H; [done|]. cbn. rewrite (H x) by left.
  rewrite IH by (intros y Hy; apply H; by right). done.
Qed.

Lemma existsb_agree {A} (f g : A → bool) (l : list A) : (∀ x, x ∈ l → f x = g x) → existsb f l = existsb g l.
Proof.
  induction l as [|x l IH]; intros H; [done|]. cbn. rewrite (H x) by left. f_equal.
  apply IH. intros y Hy. apply H. by right.
Qed.

Lemma worker_loop todo done s :
  sy_worker s = WLoop c todo done → NoDup todo.*2 → todo_ok (sy_manager s) todo →
  let h := tm_heap (sy_manager s) in
  ∃ s', worker_runs s s' ∧ sy_worker s' = WRemove (done ++ omap (spent_at h) todo) ∧
    moves (sy_manager s) (sy_manager s') ∧
    (∀ a, tm_heap (sy_manager s') !! a = (if bool_decide (a ∈ todo.*2) then settled else id) <$> h !! a) ∧
    (∀ id, tm_triggers (sy_manager s') !! id = if gone h todo id then None else tm_triggers (sy_manager s) !! id).
Proof.
  revert done s. induction todo as [|[id a] todo IH]; intros done s Hw Hnd Hok; cbv zeta.
  { exists (to_worker (WRemove done) s). split_and!; cbn; try done.
    - apply worker_one. unfold next, work. by rewrite Hw.
    - by rewrite app_nil_r.
    - intros a. rewrite bool_decide_eq_false_2 by apply not_elem_of_nil. by rewrite option_fmap_id. }
  apply NoDup_cons in Hnd as [Hni Hnd]. apply Forall_cons in Hok as [(t & Ha & Hid) Hok]. cbn [fst snd] in *.
  destruct (worker_candidate id a t todo done s Hw Ha) as (s1 & Hr1 & Hw1 & [Hm1 Hh1 Ht1]).
  destruct (IH _ s1 Hw1 Hnd) as (s' & Hr & Hw' & Hm & Hh & Ht); [by eapply todo_move|].
  assert (∀ e, e ∈ todo → tm_heap (sy_manager s1) !! e.2 = tm_heap (sy_manager s) !! e.2) as Hsame.
  { intros e He. rewrite Hh1. apply list_lookup_insert_ne. intros ->. apply Hni. by apply list_elem_of_fmap_2. }
  assert (a < length (tm_heap (sy_manager s))) as Hlt by (by eapply lookup_lt_Some).
  exists s'. split_and!.
  - by transitivity s1.
  - rewrite Hw', <-app_assoc. do 2 f_equal. rewrite (omap_agree _ (spent_at (tm_heap (sy_manager s)))).
    + cbn. by destruct (spent_at _ (id, a)).
    + intros e He. unfold spent_at. by rewrite Hsame.
  - by transitivity (sy_manager s1).
  - intros b. rewrite Hh, Hh1. destruct (decide (b = a)) as [->|Hne].
    + rewrite list_lookup_insert_eq by done. rewrite (bool_decide_eq_false_2 (a ∈ todo.*2)) by done.
      rewrite bool_decide_eq_true_2 by left. by rewrite Ha.
    + rewrite list_lookup_insert_ne by done.
      rewrite (bool_decide_ext (b ∈ todo.*2) (b ∈ ((id, a) :: todo).*2)); [done|]. cbn. set_solver.
  - intros id'. rewrite Ht, Ht1. unfold gone. rewrite (existsb_agree _
      (λ e, bool_decide (id' = e.1) && from_option expiring false (tm_heap (sy_manager s) !! e.2)) todo).
    + cbn [existsb fst snd]. rewrite Ha. cbn [from_option]. by destruct (expiring t), (bool_decide (id' = id)), (existsb _ _).
    + intros e He. by rewrite Hsame.
Qed.

Lemma deactivate_inactive t : ts_active t = false → set_active false t = t.
Proof. destruct t. cbn. by intros ->. Qed.

(** The one-shots that fired leave the table. *)
Lemma worker_removes ids s :
  sy_worker s = WRemove ids →
  (∀ id a, tm_triggers (sy_manager s) !! id = Some a → is_Some (tm_heap (sy_manager s) !! a)) →
  (∀ id a t, id ∈ ids → tm_triggers (sy_manager s) !! id = Some a → tm_heap (sy_manager s) !! a = Some t →
     ts_active t = false) →
  ∃ s', worker_runs s s' ∧ sy_worker s' = WIdle ∧ tm_heap (sy_manager s') = tm_heap (sy_manager s) ∧
    (∀ id, tm_triggers (sy_manager s') !! id =
       if bool_decide (id ∈ ids) then None else tm_triggers (sy_manager s) !! id).
Proof.
  revert s. induction ids as [|id ids IH]; intros s Hw Hsome Hin.
  { exists (to_worker WIdle s). split_and!; try done. apply worker_one. unfold next, work. by rewrite Hw. }
  assert (∃ s1, worker_runs s s1 ∧ sy_worker s1 = WRemove ids ∧ tm_heap (sy_manager s1) = tm_heap (sy_manager s) ∧
    tm_triggers (sy_manager s1) = delete id (tm_triggers (sy_manager s)))
    as (s1 & Hr1 & Hw1 & Hh1 & Ht1).
  { destruct (tm_triggers (sy_manager s) !! id) as [a|] eqn:Ha.
    - destruct (Hsome id a Ha) as [t Hat]. set (m1 := (remove_begin id (sy_manager s)).2).
      assert (remove_begin id (sy_manager s) = (Some (a, ti_persistent (ts_info t)), m1) ∧
        tm_heap m1 = tm_heap (sy_manager s) ∧ tm_triggers m1 = delete id (tm_triggers (sy_manager s))) as (Hb & Hh & Ht).
      { unfold m1, remove_begin. by rewrite Ha, Hat. }
      set (s1 := to_worker (WRemoveEnd id a (ti_persistent (ts_info t)) ids) (to_manager m1 s)).
      exists (to_worker (WRemove ids) (to_manager (remove_end on_removed ok id a (ti_persistent (ts_info t)) m1) s1)).
      split_and!; try done.
      + apply (rtc_l _ _ s1); [|by apply worker_one]. unfold next, work. by rewrite Hw, Hb.
      + transitivity (alter (set_active false) a (tm_heap m1)).
        { apply remove_end_tables. }
        rewrite Hh. apply list_eq. intros b. destruct (decide (b = a)) as [->|Hne];
          [|by rewrite list_lookup_alter_ne].
        rewrite list_lookup_alter_eq, Hat. cbn. rewrite deactivate_inactive; [done|]. apply (Hin id a); [left|done|done].
      + rewrite <-Ht. apply remove_end_tables.
    - exists (to_worker (WRemove ids) s). split_and!; try done.
      + apply worker_one. unfold next, work, remove_begin. rewrite Hw, Ha. by destruct s.
      + by rewrite delete_id. }
  destruct (IH s1 Hw1) as (s' & Hr & Hw' & Hh & Ht).
  - intros id' a. rewrite Ht1, Hh1. intros [_ ?]%lookup_delete_Some. by eapply Hsome.
  - intros id' a t Hi. rewrite Ht1, Hh1. intros [_ ?]%lookup_delete_Some. eapply Hin; [by right|done].
  - exists s'. split_and!; [by transitivity s1|done|congruence|].
    intros id'. rewrite Ht, Ht1. destruct (decide (id' = id)) as [->|Hne].
    + rewrite lookup_delete_eq, (bool_decide_eq_true_2 (id ∈ id :: ids)) by left. by case_match.
    + rewrite lookup_delete_ne by done. by rewrite (bool_decide_ext (id' ∈ ids) (id' ∈ id :: ids)) by set_solver.
Qed.
End Reaction.

(** ** The manager's checks and what they mean *)

Section Checks.
Context (conditions : ConditionRegistry) (json_at : string → json → option json).
Context (now : Z) (children : option (string → string → list string)) (c : ResourceChange).

Lemma live_spec t : negb (bool_decide (ti_status (ts_info t) = ACTIVE)) || negb (ts_active t) = false ↔ live t.
Proof. unfold live. rewrite orb_false_iff, !negb_false_iff, bool_decide_eq_true. done. Qed.

Lemma lapsed_spec t : is_expired now t = true ↔ lapsed now t.
Proof.
  unfold is_expired, lapsed. destruct (ti_expires_at _) as [e|]; [|naive_solver]. rewrite Z.leb_le. naive_solver.
Qed.

Lemma check_candidate_spec t :
  match check_candidate now c t with
  | Skip => ¬ live t ∨ (live t ∧ ¬ lapsed now t ∧ ¬ affected children c t)
  | CleanUp => live t ∧ lapsed now t
  | Consider => live t ∧ ¬ lapsed now t ∧
      (ti_resource_path (ts_info t) = "" ∨ ti_resource_path (ts_info t) = rc_resource_path c)
  end.
Proof.
  unfold check_candidate. pose proof (live_spec t) as Hl. pose proof (lapsed_spec t) as Hx.
  destruct (negb _ || negb _); [left; intros H%Hl; done|].
  destruct (is_expired now t); [naive_solver|].
  assert (live t ∧ ¬ lapsed now t) as [H1 H2] by naive_solver.
  destruct (ti_resource_path (ts_info t) =?ₛ "") eqn:He; cbn [negb andb]; [apply str_eqb_eq in He; naive_solver|].
  destruct (ti_resource_path (ts_info t) =?ₛ rc_resource_path c) eqn:Hr; cbn [negb];
    [apply str_eqb_eq in Hr; naive_solver|].
  right. split_and!; [done..|]. intros [[Hn|Hn] _]; apply str_eqb_neq in He, Hr; done.
Qed.

Lemma entity_matches_affected t :
  matches_entity children (ts_info t) (rc_entity_id c) = true ↔
  ti_entity_id (ts_info t) = rc_entity_id c ∨
  ∃ f, children = Some f ∧ rc_entity_id c ∈ f (ti_entity_id (ts_info t)) (ti_entity_type (ts_info t)).
Proof.
  unfold matches_entity. rewrite orb_true_iff, str_eqb_eq.
  destruct children as [f|]; [rewrite bool_decide_eq_true|]; naive_solver.
Qed.

Lemma considered_spec t :
  considered now children c t = true ↔ live t ∧ ¬ lapsed now t ∧ affected children c t.
Proof.
  unfold considered. pose proof (check_candidate_spec t) as Hk. destruct (check_candidate now c t).
  - split; [done|naive_solver].
  - split; [done|naive_solver].
  - rewrite entity_matches_affected. unfold affected. naive_solver.
Qed.

Lemma expiring_spec t : expiring now c t = true ↔ live t ∧ lapsed now t.
Proof.
  unfold expiring. pose proof (check_candidate_spec t) as Hk.
  destruct (check_candidate now c t); split; try done; naive_solver.
Qed.

Lemma extracted_spec t v : extracted json_at (ti_path (ts_info t)) (rc_value c) = Some v ↔ reads json_at c t v.
Proof.
  unfold extracted, reads. destruct (_ =?ₛ _) eqn:He; [apply str_eqb_eq in He|apply str_eqb_neq in He]; naive_solver.
Qed.

(** The second section of a candidate judges it. *)
Lemma evaluate_candidate_spec t :
  considered now children c t = true →
  match evaluate_candidate conditions json_at now c t with
  | None => ∀ v holds, ¬ judged conditions json_at now children c t v holds
  | Some (holds, v, t') => judged conditions json_at now children c t v holds ∧
      t' = if holds then fire now (rc_value c) v t else remember v t
  end.
Proof.
  intros (Hl & Hx & Ha)%considered_spec. unfold evaluate_candidate. rewrite (proj2 (live_spec t)) by done.
  destruct (extracted json_at (ti_path (ts_info t)) (rc_value c)) as [v|] eqn:Hv; cbn.
  - apply extracted_spec in Hv. destruct (conditions !! _) as [e|] eqn:He; cbn.
    + destruct (evaluate e _ _ _) as [holds|] eqn:Hj; cbn.
      * split; [|done]. unfold judged. split_and!; try done. by exists e.
      * intros v' holds (_ & _ & _ & Hv' & e' & He' & Hj'). apply extracted_spec in Hv, Hv'. congruence.
    + intros v' holds (_ & _ & _ & _ & e' & He' & _). congruence.
  - intros v' holds (_ & _ & _ & Hv' & _). apply extracted_spec in Hv'. congruence.
Qed.

Lemma judged_once t v holds v' holds' :
  judged conditions json_at now children c t v holds → judged conditions json_at now children c t v' holds' →
  v' = v ∧ holds' = holds.
Proof.
  intros (_ & _ & _ & Hv & e & He & Hj) (_ & _ & _ & Hv' & e' & He' & Hj').
  apply extracted_spec in Hv, Hv'. split; congruence.
Qed.

Lemma firing_fires t : firing conditions json_at now children c t = true ↔ fires conditions json_at now children c t.
Proof.
  unfold firing, fires. split.
  - intros [Hc Hf]%andb_true_iff. pose proof (evaluate_candidate_spec t Hc) as He.
    destruct (evaluate_candidate _ _ _ _ _) as [[[holds v] t']|]; [|done]. cbn in Hf. subst holds. exists v. apply He.
  - intros (v & Hj). assert (considered now children c t = true) as Hc
      by (destruct Hj as (? & ? & ? & _); by apply considered_spec).
    pose proof (evaluate_candidate_spec t Hc) as He. rewrite Hc.
    destruct (evaluate_candidate _ _ _ _ _) as [[[holds v'] t']|]; [|by destruct (He v true)].
    destruct He as [Hj' _]. by destruct (judged_once t _ _ _ _ Hj Hj') as [_ ->].
Qed.

Lemma leaving_over t : leaving conditions json_at now children c t = true ↔ over conditions json_at now children c t.
Proof.
  unfold leaving, over. rewrite orb_true_iff, andb_true_iff, negb_true_iff, expiring_spec, firing_fires. done.
Qed.

Lemma push_newest e l : length l ≤ kMaxPendingEvents → push_event e l = newest kMaxPendingEvents (l ++ [e]).
Proof.
  intros Hl. unfold push_event, newest. destruct (Nat.ltb_spec kMaxPendingEvents (length (l ++ [e]))) as [Hlt|Hge].
  - assert (length (l ++ [e]) - kMaxPendingEvents = 1) as -> by (rewrite length_app in *; cbn in *; lia).
    by destruct (l ++ [e]).
  - by replace (length (l ++ [e]) - kMaxPendingEvents) with 0 by lia.
Qed.

Abbreviation judged' := (judged conditions json_at now children c).
Abbreviation fires' := (fires conditions json_at now children c).
Abbreviation over' := (over conditions json_at now children c).

Lemma not_judged_not_fires t : (∀ v b, ¬ judged' t v b) → ¬ fires' t.
Proof. intros Hn (v & Hj). exact (Hn v true Hj). Qed.

Lemma over_when_live t : ¬ (live t ∧ lapsed now t) → over' t ↔ fires' t ∧ ti_multishot (ts_info t) = false.
Proof. intros Hn. unfold over. split; [intros [H|H]; [by destruct Hn|done]|by right]. Qed.

Lemma settles_untouched t :
  ¬ (live t ∧ lapsed now t) → (∀ v b, ¬ judged' t v b) → settles conditions json_at now children c t t.
Proof.
  intros Hx Hn. pose proof (not_judged_not_fires t Hn) as Hf. split; try done.
  - intros [H _]%over_when_live; [done..].
  - intros v b H. by destruct (Hn v b).
Qed.

Lemma settles_expired t :
  live t ∧ lapsed now t → settles conditions json_at now children c t (set_info terminate (set_active false t)).
Proof.
  intros Hx. assert (∀ v b, ¬ judged' t v b) as Hn by (intros v b (_ & Hl & _); by destruct Hx).
  pose proof (not_judged_not_fires t Hn) as Hf. split; try done.
  - intros Ho. destruct Ho. by left.
  - intros v b H. by destruct (Hn v b).
Qed.

Lemma settles_judged t v holds :
  length (ts_pending t) ≤ kMaxPendingEvents → judged' t v holds →
  settles conditions json_at now children c t (if holds then fire now (rc_value c) v t else remember v t).
Proof.
  intros Hlen Hj. assert (∀ v' b, judged' t v' b → v' = v ∧ b = holds) as Hone by (intros; by eapply judged_once).
  assert (fires' t ↔ holds = true) as Hf.
  { split; [intros (v' & Hj'); by destruct (Hone _ _ Hj')|intros ->; by exists v]. }
  assert (over' t ↔ fires' t ∧ ti_multishot (ts_info t) = false) as Hov.
  { apply over_when_live. intros [_ Hx]. by destruct Hj as (_ & ? & _). }
  destruct holds.
  - assert (fires' t) as Hfire by (by apply Hf). split; cbn; try done.
    + by destruct (ti_multishot (ts_info t)).
    + by intros [_ ->]%Hov.
    + intros Hno. destruct (ti_multishot (ts_info t)) eqn:Hm; [done|]. destruct Hno. by apply Hov.
    + intros v' b Hj'. by destruct (Hone _ _ Hj') as [-> _].
    + intros Hno. destruct Hno. by exists v, true.
    + intros _. by rewrite push_newest.
  - assert (¬ fires' t) as Hfire by (intros ?%Hf; done). split; cbn; try done.
    + intros [? _]%Hov. done.
    + intros v' b Hj'. by destruct (Hone _ _ Hj') as [-> _].
    + intros Hno. destruct Hno. by exists v, false.
Qed.

Lemma settled_settles t :
  length (ts_pending t) ≤ kMaxPendingEvents →
  settles conditions json_at now children c t (settled conditions json_at now children c t).
Proof.
  intros Hlen. unfold settled. destruct (expiring now c t) eqn:He.
  { apply settles_expired. by apply expiring_spec. }
  assert (¬ (live t ∧ lapsed now t)) as Hx by (intros H%expiring_spec; congruence).
  destruct (considered now children c t) eqn:Hc.
  - pose proof (evaluate_candidate_spec t Hc) as Hev.
    destruct (evaluate_candidate conditions json_at now c t) as [[[holds v] t']|]; cbn [from_option snd].
    + destruct Hev as [Hj ->]. by apply settles_judged.
    + by apply settles_untouched.
  - apply settles_untouched; [done|]. intros v b (? & ? & ? & _).
    assert (considered now children c t = true) by (by apply considered_spec). congruence.
Qed.
End Checks.

(** ** A change *)

Section Change.
Context (conditions : ConditionRegistry) (transport on_removed log_manager : bool).
Context (json_at : string → json → option json) (walk : gset string → list string).

Definition concerned (c : ResourceChange) (m : TriggerManager) (a : nat) (t : TriggerState) : bool :=
  bool_decide (tm_triggers m !! ti_id (ts_info t) = Some a) && (ti_collection (ts_info t) =?ₛ rc_collection c).

Context (Hwalk : ∀ X, walk X ≡ₚ elements X).

Lemma candidates_exact c m a t :
  tables_ok m → colon_free (rc_collection c) = true →
  (∀ u, u ∈ tm_heap m → colon_free (ti_collection (ts_info u)) = true) → tm_heap m !! a = Some t →
  (ti_id (ts_info t), a) ∈ candidates walk c m ↔ concerned c m a t = true.
Proof.
  intros [_ _ Htr Hix] Hc Hall Ha. unfold concerned. rewrite andb_true_iff, bool_decide_eq_true.
  change (ti_id (ts_info t)) with (tid t).
  assert (∀ id, id ∈ walk (default ∅ (tm_index m !! dispatch_key (rc_collection c) (rc_entity_id c)) ∪
    default ∅ (tm_index m !! dispatch_key (rc_collection c) "")) ↔
    indexed (tm_index m) id (dispatch_key (rc_collection c) (rc_entity_id c)) ∨
    indexed (tm_index m) id (dispatch_key (rc_collection c) "")) as Hin.
  { intros id. rewrite Hwalk. rewrite elem_of_elements. apply elem_of_union. }
  unfold candidates. rewrite list_elem_of_omap. setoid_rewrite Hin. split.
  - intros (id & Hid & Heq). destruct (tm_triggers m !! id) as [b|] eqn:Hb; [|done]. cbn in Heq. simplify_eq.
    split; [done|]. apply str_eqb_eq.
    assert (colon_free (ti_collection (ts_info t)) = true) as Ht by (apply Hall; by eapply list_elem_of_lookup_2).
    rewrite !Hix in Hid. unfold filed_under in Hid.
    destruct Hid as [(b & u & ? & Hu & [Hk|Hk])|(b & u & ? & Hu & [Hk|Hk])]; simplify_eq;
      symmetry; by apply dispatch_key_collection in Hk.
  - intros [Hb Hcol%str_eqb_eq]. exists (tid t). rewrite Hb. split; [|done]. right. apply Hix.
    exists a, t. split_and!; try done. right. by rewrite Hcol.
Qed.

Lemma candidates_nodup c m : tables_ok m → NoDup (candidates walk c m).*2.
Proof.
  intros [_ _ Htr _]. unfold candidates.
  assert (∀ l : list string, NoDup l →
    NoDup (omap (λ id, (λ a, (id, a)) <$> tm_triggers m !! id) l).*2) as H.
  { induction 1 as [|id l Hni Hnd IH]; [constructor|]. cbn.
    destruct (tm_triggers m !! id) as [a|] eqn:Ha; cbn; [|done]. constructor; [|done].
    intros ([id' b] & -> & (x & Hx & Hb)%list_elem_of_omap)%list_elem_of_fmap.
    destruct (tm_triggers m !! x) eqn:Hx'; [|done]. cbn in Hb. simplify_eq. cbn in *.
    destruct (Htr _ _ Ha) as (t & Ht & Htid), (Htr _ _ Hx') as (u & Hu & Huid). simplify_eq. done. }
  apply H. rewrite Hwalk. apply NoDup_elements.
Qed.

Section Candidates.
Context (now : Z) (children : option (string → string → list string)) (c : ResourceChange) (m : TriggerManager).
Context (Ht : tables_ok m) (Hc : colon_free (rc_collection c) = true).
Context (Hall : ∀ u, u ∈ tm_heap m → colon_free (ti_collection (ts_info u)) = true).

Lemma candidate_iff id a :
  (id, a) ∈ candidates walk c m ↔
    tm_triggers m !! id = Some a ∧ ∃ t, tm_heap m !! a = Some t ∧ concerned c m a t = true.
Proof.
  split.
  - intros Hin. pose proof (candidates_named walk c m Ht) as Hn. unfold todo_ok in Hn. rewrite Forall_forall in Hn.
    destruct (Hn _ Hin) as (t & Ha & Hid). cbn in *. subst id.
    assert (concerned c m a t = true) as Hcon by (by apply candidates_exact). split; [|by exists t].
    apply andb_true_iff in Hcon as [Hcon _]. by apply bool_decide_eq_true in Hcon.
  - intros [Hid (t & Ha & Hcon)]. destruct (to_triggers _ Ht _ _ Hid) as (u & Hu & Heq). simplify_eq.
    by apply candidates_exact.
Qed.

Lemma candidate_addresses a t :
  tm_heap m !! a = Some t → a ∈ (candidates walk c m).*2 ↔ concerned c m a t = true.
Proof.
  intros Ha. rewrite list_elem_of_fmap. split.
  - intros ([id b] & -> & Hin). apply candidate_iff in Hin as [_ (u & Hu & Hcon)]. cbn in *. by simplify_eq.
  - intros Hcon. exists (ti_id (ts_info t), a). split; [done|]. apply candidate_iff. split; [|by exists t].
    apply andb_true_iff in Hcon as [Hcon _]. by apply bool_decide_eq_true in Hcon.
Qed.

Lemma spent_iff id :
  id ∈ omap (spent_at conditions json_at now children c (tm_heap m)) (candidates walk c m) ↔
  ∃ a t, tm_triggers m !! id = Some a ∧ tm_heap m !! a = Some t ∧ concerned c m a t = true ∧
    firing conditions json_at now children c t = true ∧ ti_multishot (ts_info t) = false.
Proof.
  rewrite list_elem_of_omap. unfold spent_at. split.
  - intros ([id' a] & [Hid (t & Ha & Hcon)]%candidate_iff & Hs). cbn in Hs. rewrite Ha in Hs. cbn in Hs.
    destruct (firing _ _ _ _ _ t) eqn:Hf, (ti_multishot (ts_info t)) eqn:Hm; try done. cbn in Hs. injection Hs as <-.
    destruct (to_triggers _ Ht _ _ Hid) as (u & Hu & <-). simplify_eq. by exists a, t.
  - intros (a & t & Hid & Ha & Hcon & Hf & Hm). exists (id, a). split; [apply candidate_iff; split; [done|by exists t]|].
    cbn. rewrite Ha. cbn. rewrite Hf, Hm. cbn. destruct (to_triggers _ Ht _ _ Hid) as (u & Hu & <-). by simplify_eq.
Qed.

Lemma gone_iff id :
  gone now c (tm_heap m) (candidates walk c m) id = true ↔
  ∃ a t, tm_triggers m !! id = Some a ∧ tm_heap m !! a = Some t ∧ concerned c m a t = true ∧ expiring now c t = true.
Proof.
  unfold gone. rewrite existsb_exists. split.
  - intros ([id' a] & Hin%list_elem_of_In & [Heq He]%andb_true_iff). apply bool_decide_eq_true in Heq as ->. cbn in *.
    apply candidate_iff in Hin as [Hid (t & Ha & Hcon)]. rewrite Ha in He. by exists a, t.
  - intros (a & t & Hid & Ha & Hcon & He). exists (id, a). split.
    + apply list_elem_of_In, candidate_iff. split; [done|by exists t].
    + cbn. rewrite bool_decide_eq_true_2, Ha by done. exact He.
Qed.

(** The table after both loops. *)
Lemma table_after id a t :
  tm_triggers m !! id = Some a → tm_heap m !! a = Some t →
  (if bool_decide (id ∈ omap (spent_at conditions json_at now children c (tm_heap m)) (candidates walk c m)) then None
   else if gone now c (tm_heap m) (candidates walk c m) id then None else tm_triggers m !! id) =
  if concerned c m a t && leaving conditions json_at now children c t then None else Some a.
Proof.
  intros Hid Ha. pose proof (spent_iff id) as Hs. pose proof (gone_iff id) as Hg. unfold leaving.
  destruct (concerned c m a t) eqn:Hcon; cbn [andb].
  - destruct (expiring now c t) eqn:He; cbn [orb].
    { rewrite (proj2 Hg) by (by exists a, t). by case_bool_decide. }
    destruct (gone _ _ _ _ id); [destruct (proj1 Hg eq_refl) as (b & u & H1 & H2 & H3 & H4); congruence|].
    case_bool_decide as Hd.
    + apply Hs in Hd as (b & u & ? & ? & _ & Hf & Hm). simplify_eq. by rewrite Hf, Hm.
    + destruct (firing _ _ _ _ _ t && _) eqn:Hf; [|done]. destruct Hd. apply Hs.
      apply andb_true_iff in Hf as [? ?%negb_true_iff]. by exists a, t.
  - destruct (gone _ _ _ _ id); [destruct (proj1 Hg eq_refl) as (b & u & H1 & H2 & H3 & H4); congruence|].
    case_bool_decide as Hd; [|done]. apply Hs in Hd as (b & u & H1 & H2 & H3 & _). congruence.
Qed.

End Candidates.

(** A settled trigger that fired as a one-shot is inactive. *)
Lemma settled_spent now children c t :
  firing conditions json_at now children c t = true → ti_multishot (ts_info t) = false →
  ts_active (settled conditions json_at now children c t) = false.
Proof.
  unfold firing, settled. intros [Hc Hf]%andb_true_iff Hm.
  assert (expiring now c t = false) as -> by (unfold considered, expiring in *; by destruct (check_candidate now c t)).
  rewrite Hc. destruct (evaluate_candidate _ _ _ _ _) as [[[fired v] t']|] eqn:Hev; [|done]. cbn in *. subst fired.
  apply evaluate_same in Hev as ->. unfold fire. by rewrite Hm.
Qed.

(** C32: A resource change, taken up in any reachable state and evaluated by the
    worker with nothing in between and one clock reading: the worker gets back to
    waiting; every trigger of the table in the collection of the change
    [settles], in terms of its own fields, the change and the previous value, and
    every other state is unchanged; the triggers that are [over] leave the table,
    and no other; and what fires is queued on that trigger's own queue, with
    the value of the change, the oldest event giving way when the queue is
    full.  No collection name contains a colon. *)
Theorem change_settles_triggers k n s now ok ok' children c :
  trigger_run conditions transport on_removed log_manager json_at walk k n s →
  colon_free (rc_collection c) = true →
  (∀ t, t ∈ tm_heap (sy_manager s) → colon_free (ti_collection (ts_info t)) = true) →
  let m := sy_manager s in
  ∃ s', worker_runs conditions on_removed log_manager json_at now ok ok' children
          (to_worker (WLoop c (candidates walk c m) []) s) s' ∧
    sy_worker s' = WIdle ∧
    (∀ a t, tm_heap m !! a = Some t → ∃ t', tm_heap (sy_manager s') !! a = Some t' ∧
       if concerned c m a t then settles conditions json_at now children c t t' else t' = t) ∧
    (∀ id a t, tm_triggers m !! id = Some a → tm_heap m !! a = Some t →
       (concerned c m a t = true ∧ over conditions json_at now children c t → tm_triggers (sy_manager s') !! id = None) ∧
       (¬ (concerned c m a t = true ∧ over conditions json_at now children c t) →
          tm_triggers (sy_manager s') !! id = Some a)).
Proof.
  intros Hrun Hc Hall m. pose proof (run_ok _ _ _ _ _ _ _ _ _ Hrun) as Hok.
  pose proof (so_tables _ Hok) as Ht. pose proof (so_bound _ Hok) as Hb. fold m in Ht, Hall, Hb.
  destruct (worker_loop conditions on_removed log_manager json_at now ok ok' children c (candidates walk c m) []
    (to_worker (WLoop c (candidates walk c m) []) s)) as (s1 & Hr1 & Hw1 & Hm1 & Hh1 & Ht1);
    [done|by apply candidates_nodup|by apply candidates_named|]. cbn [to_worker sy_manager app] in *. fold m in Hw1, Hm1, Hh1, Ht1.
  destruct (worker_removes conditions on_removed log_manager json_at now ok ok' children _ s1 Hw1)
    as (s2 & Hr2 & Hw2 & Hh2 & Ht2).
  { intros id a Ha%(mv_triggers _ _ Hm1). destruct (to_triggers _ Ht _ _ Ha) as (t & Hat & _).
    destruct (moves_lookup_l _ _ _ _ Hm1 Hat) as (t' & ? & _). by exists t'. }
  { intros id a t' (b & t & Hb' & Hat & Hcon & Hf & Hms)%(spent_iff now children c m Ht Hc Hall) Ha%(mv_triggers _ _ Hm1).
    simplify_eq. rewrite Hh1, Hat, bool_decide_eq_true_2 by (by apply (candidate_addresses c m Ht Hc Hall _ t)).
    intros [= <-]. by apply settled_spent. }
  exists s2. split; [by transitivity s1|]. split; [done|]. split.
  - intros a t Ha. rewrite Hh2, Hh1, Ha. cbn.
    pose proof (candidate_addresses c m Ht Hc Hall a t Ha) as Hiff.
    assert (bool_decide (a ∈ (candidates walk c m).*2) = concerned c m a t) as ->.
    { apply eq_true_iff_eq. by rewrite bool_decide_eq_true. }
    eexists. split; [done|]. destruct (concerned c m a t); [|done].
    apply settled_settles. exact (Forall_lookup_1 _ _ _ _ Hb Ha).
  - intros id a t Ha Hat. rewrite Ht2, Ht1, (table_after now children c m Ht Hc Hall id a t Ha Hat).
    pose proof (leaving_over conditions json_at now children c t) as Ho.
    destruct (concerned c m a t), (leaving _ _ _ _ _ t); cbn; naive_solver.
Qed.
End Change.
