(* ===== verification/FaultWitnesses.v ===== *)
(** * Concrete instances: fault storage

    Each lemma applies a theorem on the in-memory fault storage to a concrete
    scenario in which its hypotheses hold. *)

From S2P Require Import Prelude FaultTypes Debounce FaultEvents FaultQueries Snapshots Rosbags FaultStorage.

(** ** A small plant *)

Definition demo_cfg : DebounceConfig :=
  {| confirmation_threshold := -3; healing_enabled := true; healing_threshold := 2;
     critical_immediate_confirm := true; auto_confirm_after_sec := f64_zero |}.

Definition demo_report (event time : Z) : Report :=
  mkReport "F" event 1 "motor" "/node" time demo_cfg.

Definition demo_burst : list Report := demo_report EVENT_FAILED <$> [10; 20; 30; 40; 50]%Z.

(** One report in: PREFAILED, counter -1. *)
Definition prefailed_storage : InMemoryFaultStorage :=
  (report (demo_report EVENT_FAILED 1) empty_storage).2.

(** Three failures and five passes later: HEALED at the healing threshold. *)
Definition healed_storage : InMemoryFaultStorage :=
  (run_reports (demo_report EVENT_FAILED <$> [1; 2; 3]%Z) empty_storage).2.

Definition passes (n : nat) : list Report := demo_report EVENT_PASSED <$> (Z.of_nat <$> seq 60 n).

Definition demo_healed : InMemoryFaultStorage := (run_reports (passes 5) healed_storage).2.

Definition cleared_storage : InMemoryFaultStorage := (clear_fault "F" prefailed_storage).2.

Lemma demo_cfg_i32 : cfg_i32 demo_cfg.
Proof. split; vm_compute; split; discriminate. Defined.

Lemma empty_events_ok : events_ok empty_storage.
Proof.
  constructor; [intros ??; simpl; by rewrite lookup_empty|].
  intros c. unfold get_near_misses. simpl. rewrite lookup_empty. split; [constructor|simpl; lia].
Qed.

(** ** Debounce *)

(** A burst with a CRITICAL report and one for another fault in it. *)
Definition mixed_reports : list Report :=
  demo_burst ++ [mkReport "G" EVENT_FAILED 1 "" "/n" 70 demo_cfg; mkReport "F" EVENT_FAILED SEVERITY_CRITICAL "" "/n" 71 demo_cfg].

Lemma live_reports_refine_automaton_witness :
  ∃ st', faults (run_reports mixed_reports prefailed_storage).2 !! "F" = Some st' ∧
    shows (debouncer_run "F" mixed_reports (mkDebouncer (-1) Prefailed)) st'.
Proof.
  destruct (faults prefailed_storage !! "F") as [st|] eqn:E; [|discriminate E].
  pose proof E as E'. vm_compute in E'. injection E' as <-.
  apply (live_reports_refine_automaton "F" mixed_reports prefailed_storage _ _ E).
  - split; reflexivity.
  - repeat constructor; vm_compute; congruence.
Defined.

Lemma burst_confirms_witness :
  ∃ st, faults (run_reports demo_burst demo_healed).2 !! "F" = Some st ∧
    status st = STATUS_CONFIRMED.
Proof.
  apply (burst_confirms "F" demo_cfg demo_burst demo_healed).
  - split; vm_compute; congruence.
  - split; vm_compute; congruence.
  - repeat constructor.
  - vm_compute. lia.
Defined.

Lemma healed_latch_witness :
  ∃ st, faults (run_reports (demo_report EVENT_FAILED <$> [100; 200]%Z) demo_healed).2 !! "F" =
          Some st ∧ status st = STATUS_HEALED.
Proof.
  destruct (faults demo_healed !! "F") as [st|] eqn:E; [|vm_compute in E; discriminate E].
  pose proof E as E'. vm_compute in E'. injection E' as <-.
  eapply (healed_latch "F" demo_cfg _ demo_healed _); [| |exact E|reflexivity|reflexivity| | |].
  - split; vm_compute; congruence.
  - split; vm_compute; congruence.
  - repeat constructor.
  - repeat constructor.
  - vm_compute. lia.
Defined.

Lemma occurrence_count_counts_edges_witness :
  count_of (faults (run_reports demo_burst empty_storage).2 !! "F") =
    Z.min uint32_max (0 + edges "F" demo_burst (run_reports demo_burst empty_storage).1).
Proof.
  apply (occurrence_count_counts_edges "F" demo_burst empty_storage).
  split; vm_compute; discriminate.
Defined.

(** ** Near misses *)

Lemma near_miss_series_refines_log_witness :
  get_near_misses "F" (exec_all [EvReport (demo_report EVENT_FAILED 1);
      EvReport (demo_report EVENT_FAILED 2); EvClear "F"] (set_near_miss_bound 1 empty_storage)) =
    last_n 1 (get_near_misses "F" (exec_all [EvReport (demo_report EVENT_FAILED 1);
      EvReport (demo_report EVENT_FAILED 2); EvClear "F"]
      (set_near_miss_bound 0 (set_near_miss_bound 1 empty_storage)))).
Proof.
  apply (near_miss_series_refines_log 1).
  - lia.
  - repeat constructor; apply demo_cfg_i32.
  - constructor; [intros ??; simpl; by rewrite lookup_empty|].
    intros c. unfold get_near_misses. simpl. rewrite lookup_empty. split; [constructor|simpl; lia].
  - reflexivity.
Defined.

(** ** Queries *)

Lemma prefailed_events_ok : events_ok prefailed_storage.
Proof.
  apply (exec_ok (EvReport (demo_report EVENT_FAILED 1))); [apply demo_cfg_i32|].
  apply empty_events_ok.
Qed.

Lemma list_faults_spec_witness :
  (∀ m, m ∈ list_faults true 1 [STATUS_PREFAILED] prefailed_storage ↔
     ∃ code st, faults prefailed_storage !! code = Some st ∧ m = to_msg st ∧
       requested [STATUS_PREFAILED] (status st) ∧ (true = true → severity st = 1%Z)) ∧
  StronglySorted String.le
    (msg_fault_code <$> list_faults true 1 [STATUS_PREFAILED] prefailed_storage) ∧
  NoDup (msg_fault_code <$> list_faults true 1 [STATUS_PREFAILED] prefailed_storage).
Proof.
  apply (list_faults_spec true 1 [STATUS_PREFAILED] prefailed_storage). apply prefailed_events_ok.
Defined.

Lemma cleared_fault_reraise_witness :
  ∃ st', (report (demo_report EVENT_FAILED 9) cleared_storage).1 = true ∧
    faults (report (demo_report EVENT_FAILED 9) cleared_storage).2 !! "F" = Some st' ∧
    debounce_counter st' = (-1)%Z ∧ first_occurred st' = 9%Z ∧ last_occurred st' = 9%Z ∧
    status st' ≠ STATUS_CLEARED.
Proof.
  destruct (faults cleared_storage !! "F") as [st|] eqn:E; [|vm_compute in E; discriminate E].
  pose proof E as E'. vm_compute in E'. injection E' as <-.
  exact (cleared_fault_reraise (demo_report EVENT_FAILED 9) cleared_storage _ E eq_refl).
Defined.

(** ** Snapshots *)

Definition demo_snap (id time : Z) : SnapshotData :=
  mkSnapshotData "F" "/topic" "std_msgs/msg/String" "{}" time id.

Definition snap_storage : InMemoryFaultStorage :=
  set_max_snapshots_per_fault 2 (store_snapshots [demo_snap 1 10; demo_snap 1 11] empty_storage).

Lemma store_snapshots_evicts_oldest_witness :
  ∃ newest cutoff,
    newest_capture "F" (snapshots snap_storage ++ [demo_snap 2 20]) = Some newest ∧
    (cutoff ≤ newest)%Z ∧
    snapshots (store_snapshots [demo_snap 2 20] snap_storage) =
      filter (kept "F" cutoff) (snapshots snap_storage ++ [demo_snap 2 20]) ∧
    ((rows_for_fault "F" (snapshots (store_snapshots [demo_snap 2 20] snap_storage)) ≤ 2)%nat ∨
     ∀ r, r ∈ snapshots (store_snapshots [demo_snap 2 20] snap_storage) →
          snap_fault_code r = "F" → snap_capture_id r = newest) ∧
    over_cap 2 "F" (snapshots snap_storage ++ [demo_snap 2 20]) cutoff.
Proof.
  apply (store_snapshots_evicts_oldest (demo_snap 2 20) [] snap_storage). vm_compute. lia.
Defined.

(** ** Recordings *)

Definition demo_bag (code path : string) (time size : Z) : RosbagFileInfo :=
  mkRosbagFileInfo code "" path "mcap" f64_zero size time.

Definition bag_storage : InMemoryFaultStorage :=
  (store_rosbag_files [demo_bag "F" "/bags/a" 1 100; demo_bag "G" "/bags/a" 1 100]
     empty_storage).2.

Lemma bag_storage_ok : rosbags_ok bag_storage.
Proof.
  split; [|vm_compute; discriminate]. constructor; vm_compute.
  - by repeat (apply NoDup_cons; split; [set_solver|]); apply NoDup_nil_2.
  - by repeat (apply NoDup_cons; split; [set_solver|]); apply NoDup_nil_2.
  - repeat constructor; discriminate.
Qed.

Lemma store_rosbag_files_unlinks_exactly_witness :
  let '(removed, s') := store_rosbag_files [demo_bag "G" "/bags/b" 2 50] bag_storage in
  ("/bags/a" ∈ removed ↔
     ("/bags/a" ∈ paths (rosbag_files bag_storage) ∨
      "/bags/a" ∈ rb_file_path <$> [demo_bag "G" "/bags/b" 2 50]) ∧
     "/bags/a" ∉ paths (rosbag_files s')) ∧ NoDup removed.
Proof.
  apply (store_rosbag_files_unlinks_exactly [demo_bag "G" "/bags/b" 2 50] bag_storage "/bags/a").
  discriminate.
Defined.

Lemma store_keeps_newest_witness :
  let i := demo_bag "F" "/bags/c" 9 10 in
  let candidates := acc_rows (upsert (fill_recording_id i)
    {| acc_rows := rosbag_files bag_storage; acc_seq := rosbag_seq bag_storage;
       acc_evicted := ∅ |}) in
  let rows' := rosbag_files (store_rosbag_file i bag_storage).2 in
  (length (fault_rows "F" rows') = max_rosbags_per_fault bag_storage
                                    `min` length (fault_rows "F" candidates))%nat ∧
  (∀ r, r ∈ rows' → r ∈ candidates) ∧
  (∀ d, d ∈ candidates → d ∉ rows' → row_code d = "F" ∧
     ∀ k, k ∈ rows' → row_code k = "F" → row_lt d k = true).
Proof.
  apply (store_keeps_newest (demo_bag "F" "/bags/c" 9 10) bag_storage bag_storage_ok).
  vm_compute. lia.
Defined.

Definition demo_row (code : string) (seq : Z) : RosbagRow :=
  mkRosbagRow (demo_bag code "/bags/a" 1 100) seq.

Lemma shared_recording_charged_once_witness :
  get_total_rosbag_storage_bytes
    (with_rosbags [demo_row "F" 1; demo_row "G" 2] 2
       (with_rosbags [demo_row "F" 1] 1 empty_storage)) =
  get_total_rosbag_storage_bytes (with_rosbags [demo_row "F" 1] 1 empty_storage).
Proof.
  apply (shared_recording_charged_once (with_rosbags [demo_row "F" 1] 1 empty_storage)
    (demo_row "F" 1) (demo_row "G" 2) 2).
  - left.
  - reflexivity.
  - vm_compute. discriminate.
Defined.

(** ** The whole backend *)

Lemma reachable_storage_ok_witness : storage_ok cleared_storage.
Proof.
  apply (reachable_storage_ok cleared_storage). unfold reachable.
  eapply rtc_l; [apply (step_report (demo_report EVENT_FAILED 1)); apply demo_cfg_i32|].
  eapply rtc_l; [apply (step_clear "F")|]. apply rtc_refl.
Defined.

(** * Correlation and the fault manager node *)


From S2P Require Import Prelude PatternMatcher CorrelationTypes CorrelationEngine EngineInvariant EngineBehaviour.

Definition demo_patterns : gmap string FaultPattern :=
  {[ "m" := mkFaultPattern "m" ["M_*"] ]}.

Lemma matches_cache_transparent_witness :
  let '(answer, m') := matches "M_1" "m" (new_matcher demo_patterns) in
  answer = Some (matches_ref demo_patterns "M_1" "m") ∧ cache_ok m' ∧
  pm_patterns m' = demo_patterns.
Proof.
  apply (matches_cache_transparent "M_1" "m" (new_matcher demo_patterns)).
  apply new_matcher_cache_ok.
Defined.

Lemma validate_config_sound_complete_witness :
  vr_valid (validate_config demo_config) = true ↔ config_wf demo_config.
Proof. apply (validate_config_sound_complete demo_config). reflexivity. Defined.

Lemma reachable_engine_ok_witness :
  engine_ok demo_config
    (demo_run [report_at "M_1" 0; report_at "M_2" 1; report_at "ROOT" 2; report_at "S_1" 3;
       ClearFault "M_1"; CleanupExpired (ms 9000)]).
Proof.
  apply (reachable_engine_ok demo_config).
  - reflexivity.
  - vm_compute. reflexivity.
  - vm_compute. reflexivity.
Defined.

Lemma demo_ids : NoDup (rule_id <$> cfg_rules demo_config).
Proof. apply (bool_decide_unpack _). vm_compute. exact I. Qed.

(** A state with a muted symptom and a pending cluster. *)
Definition busy : CorrelationEngine :=
  demo_run [report_at "M_1" 0; report_at "ROOT" 2; report_at "S_1" 3].

Lemma busy_ok : engine_ok demo_config busy.
Proof.
  apply (engine_run_ok demo_config _ demo_ids); [apply new_engine_ok|]. vm_compute. reflexivity.
Qed.

Lemma process_clear_forgets_witness :
  let '(cleared, e') := process_clear "ROOT" busy in
  let symptoms := default [] (ce_root_to_symptoms busy !! "ROOT") in
  cleared = (if clears_symptoms "ROOT" busy then symptoms else []) ∧
  (∀ c, is_muted c e' =
     is_muted c busy && negb (c =?ₛ "ROOT") && negb (bool_decide (c ∈ symptoms))) ∧
  ce_root_to_symptoms e' = delete "ROOT" (ce_root_to_symptoms busy) ∧
  ce_pending_root_causes e' =
    filter (λ prc, prc_fault_code prc ≠ "ROOT") (ce_pending_root_causes busy) ∧
  ce_fault_to_cluster e' = delete "ROOT" (ce_fault_to_cluster busy) ∧
  (∀ rid c, (∃ p, ce_pending_clusters e' !! rid = Some p ∧ c ∈ cl_fault_codes (pc_data p)) ↔
     c ≠ "ROOT" ∧ ∃ p, ce_pending_clusters busy !! rid = Some p ∧
       c ∈ cl_fault_codes (pc_data p)).
Proof. apply (process_clear_forgets demo_config "ROOT" busy busy_ok). Defined.

Definition demo_cluster_rule : CorrelationRule :=
  mkRule "c" "c" AUTO_CLUSTER [] [] [] true true ["m"] 2 true FIRST 500.

Lemma cluster_activation_witness :
  ∃ p, ce_pending_clusters busy !! "c" = Some p ∧
  ∃ r e', try_auto_cluster "M_2" "ERROR" (ms 4) (ms 4) busy = (Some r, e') ∧
    let c := pc_data (add_to_cluster "M_2" "ERROR" (ms 4) demo_cluster_rule p) in
    pc_data <$> ce_pending_clusters e' !! "c" = Some c ∧
    cl_fault_codes c = cl_fault_codes (pc_data p) ++ ["M_2"] ∧
    ((Z.of_nat (length (cl_fault_codes c)) < 2)%Z →
       ce_active_clusters e' = ce_active_clusters busy ∧ muted_by "M_2" r = []) ∧
    ((2 ≤ Z.of_nat (length (cl_fault_codes c)))%Z →
       ce_active_clusters e' !! cl_cluster_id c = Some c ∧
       (true = false → muted_by "M_2" r = []) ∧
       (true = true → ce_active_clusters busy !! cl_cluster_id c = None →
          muted_by "M_2" r = filter (λ x, x ≠ cl_representative_code c) (cl_fault_codes c))).
Proof.
  destruct (ce_pending_clusters busy !! "c") as [p|] eqn:E; [|vm_compute in E; discriminate E].
  exists p. split; [reflexivity|].
  pose proof E as E'. vm_compute in E'. injection E' as Ep.
  apply (cluster_activation demo_config "M_2" "ERROR" (ms 4) (ms 4) demo_cluster_rule p busy).
  - apply busy_ok.
  - vm_compute. reflexivity.
  - exact E.
  - rewrite <- Ep. vm_compute. discriminate.
  - rewrite <- Ep. simpl. intros H%list_elem_of_singleton. discriminate H.
Defined.

From S2P Require Import Prelude FaultTypes Debounce FaultEvents FaultQueries Snapshots Rosbags.
From S2P Require Import CorrelationTypes CorrelationEngine EngineInvariant ThresholdResolver CaptureThreadPool.
From S2P Require Import FaultManagerNode FaultManagerSpec FaultManagerRequests PatternMatcher.
Open Scope Z_scope.

(** ** Threshold overrides *)

Definition demo_overrides : list EntityDebounceOverride :=
  [mkOverride "/sensors" (Some (-3)) None None; mkOverride "/sensors/lidar" (Some 5) (Some true) None].

Lemma resolve_longest_prefix_witness :
  longest_override demo_overrides "/sensors/lidar/front" default_DebounceConfig
    (resolve (new_resolver demo_overrides) "/sensors/lidar/front" default_DebounceConfig) ∧
  ov_prefix <$> new_resolver demo_overrides = ["/sensors/lidar"; "/sensors"].
Proof.
  split; [|vm_compute; reflexivity].
  apply (resolve_longest_prefix demo_overrides (new_resolver demo_overrides)
    "/sensors/lidar/front" default_DebounceConfig (new_resolver_sorted demo_overrides)).
Defined.

(** The invalid threshold 5 is repaired to -1 when the overrides are loaded. *)
Lemma repaired_overrides_resolve_sane_witness :
  confirmation_threshold (resolve_config (load_overrides default_DebounceConfig demo_overrides)
    default_DebounceConfig "/sensors/lidar/front") = -1 ∧
  sane (resolve_config (load_overrides default_DebounceConfig demo_overrides)
    default_DebounceConfig "/sensors/lidar/front").
Proof.
  split; [vm_compute; reflexivity|].
  apply (repaired_overrides_resolve_sane default_DebounceConfig demo_overrides).
  split; [reflexivity|vm_compute; discriminate].
Defined.

(** ** Runs *)

Definition demo_clock (i : nat) : Z := Z.of_nat i * 1000000000.

(** Audit on, every transition recorded, no write fails; cooldown of 60 s. *)
Definition node_demo_cfg : NodeConfig :=
  mkNodeConfig default_DebounceConfig (load_overrides default_DebounceConfig demo_overrides)
    true false false (f64_of_Z 60).

Definition demo_node : Node :=
  mkNode empty_storage None [] [] 0 true (Some (new_pool 1 4 kDropOldest)) ∅
    (Some (mkRosbagCapture true true 1 false ∅ "")) [] 0.

Definition demo_ops : list node_op :=
  [OpReport (mkReportRequest "MOTOR_HOT" EVENT_FAILED 2 "over 90 C" "/powertrain/motor");
   OpReport (mkReportRequest "LIDAR.LOST" EVENT_FAILED 1 "" "/sensors/camera");
   OpReport (mkReportRequest "BRAKE" EVENT_FAILED 3 "" "/chassis/brake");
   OpClear (mkClearRequest "BRAKE" false)].

Definition demo_run : option unit * Node :=
  node_run demo_clock demo_clock (λ _, false) (λ _, false) node_demo_cfg demo_ops demo_node.

Lemma event_stream_tracks_confirmed_witness :
  fresh demo_node ∧ demo_run.1 = Some tt ∧
  set_entries (viewer (n_events demo_run.2)) = ["MOTOR_HOT"] ∧
  (∀ c, c ∈ viewer (n_events demo_run.2) ↔ confirmed (faults (n_storage demo_run.2)) c).
Proof.
  assert (Hf : fresh demo_node) by (split; [reflexivity|split; reflexivity]).
  split; [exact Hf|]. split; [vm_compute; reflexivity|]. split; [vm_compute; reflexivity|].
  pose proof (event_stream_tracks_confirmed demo_clock demo_clock (λ _, false) (λ _, false) node_demo_cfg demo_ops
    demo_node Hf) as H.
  change (node_run _ _ _ _ _ demo_ops demo_node) with demo_run in H.
  destruct demo_run as [[[]|] n'] eqn:E.
  - destruct H as [H1 H2]. intros c. split; [apply H1|apply H2].
    assert (E2 : n_engine demo_run.2 = None) by (vm_compute; reflexivity).
    rewrite E in E2. exact E2.
  - exfalso. assert (E2 : demo_run.1 = Some tt) by (vm_compute; reflexivity).
    rewrite E in E2. discriminate E2.
Defined.

Lemma audit_log_replays_to_status_witness :
  last_transitions (n_audit demo_run.2) = phases (faults (n_storage demo_run.2)) ∧
  (ae_fault_code <$> n_audit demo_run.2) =
    ["__audit__"; "MOTOR_HOT"; "MOTOR_HOT"; "LIDAR.LOST"; "BRAKE"; "BRAKE"; "BRAKE"].
Proof.
  split; [|vm_compute; reflexivity].
  apply (audit_log_replays_to_status demo_clock demo_clock (λ _, false) (λ _, false) node_demo_cfg demo_ops demo_node).
  - split; [reflexivity|split; reflexivity].
  - reflexivity.
  - reflexivity.
  - vm_compute. reflexivity.
  - vm_compute. reflexivity.
Defined.

Definition correlating_node : Node :=
  mkNode (n_storage demo_run.2) (Some (new_engine default_config)) [] [] 0 true None ∅ None [] 0.

Definition demo_list : ListRequest := mkListRequest false 0 [] false false.

Lemma list_hides_exactly_muted_witness :
  (msg_fault_code <$> lr_faults (handle_list_faults demo_list correlating_node)) = ["MOTOR_HOT"] ∧
  ∀ m, m ∈ lr_faults (handle_list_faults demo_list correlating_node) ↔
    m ∈ list_faults false 0 [] (n_storage correlating_node) ∧
    (false = true ∨ is_muted (msg_fault_code m) (new_engine default_config) = false).
Proof.
  split; [vm_compute; reflexivity|].
  exact (proj1 (list_hides_exactly_muted default_config demo_list correlating_node
    (new_engine default_config) eq_refl (new_engine_ok default_config))).
Defined.

(** ** Clusters shown as one item *)

Definition cluster_config : CorrelationConfig :=
  mkConfig true 500 {[ "m" := mkFaultPattern "m" ["M_*"] ]}
    [mkRule "r" "burst" AUTO_CLUSTER [] [] [] true true ["m"] 2 true FIRST 60000].

Definition cluster_run : option unit * Node :=
  for_each
    [OpReport (mkReportRequest "M_1" EVENT_FAILED 2 "" "/m1");
     OpReport (mkReportRequest "M_2" EVENT_FAILED 2 "" "/m2")]
    (node_step (λ _, 0) (λ _, 0) (λ _, false) (λ _, false) node_demo_cfg)
    (mkNode empty_storage (Some (new_engine cluster_config)) [] [] 0 true None ∅ None [] 0).

(** The cluster of "M_1" and "M_2" is active and to be shown as its
    representative alone.  "M_2" was muted on the event stream, but the fault
    list has both members and counts no muted fault. *)
Example cluster_members_stay_listed :
  let r := handle_list_faults (mkListRequest false 0 [] false true) cluster_run.2 in
  ((cl_fault_codes ∘ ci_cluster <$> lr_clusters r) = [["M_1"; "M_2"]]) ∧
  (msg_fault_code <$> lr_faults r) = ["M_1"; "M_2"] ∧ lr_muted_count r = 0 ∧
  ((λ e, msg_fault_code (fe_fault e)) <$> n_events cluster_run.2) = ["M_1"].
Proof. vm_compute. split_and!; reflexivity. Qed.
