(* ===== verification/StorageWitnesses.v ===== *)
(** * Witnesses: the database, the audit log and the recorder

    Concrete runs for the theorems with hypotheses, and the runs in which these
    parts go wrong. *)

From stdpp Require Import relations.
From S2P Require Import Prelude FaultTypes Debounce FaultEvents Snapshots Rosbags FaultStorage SqlConnection SqliteStorage SqliteSpec SqliteReports SqliteMethods SqliteCaptures SqliteRefinement SqliteFailures SqliteRestart.
Open Scope Z_scope.

Definition always : nat → outcome := λ _, Runs.
Definition in_key_order (t : gmap string FaultRow) : list FaultRow := (map_to_list t).*2.
Definition elements_of (text : string) : option (list string) := Some (parse_json_array text).

Lemma elements_of_reads : reads_arrays elements_of.
Proof. intros l _. unfold elements_of. by rewrite parse_serialize_array. Qed.

Definition battery_failed (time : Z) : Report :=
  mkReport "BATTERY" EVENT_FAILED 2 "low voltage" "/power/bms" time default_DebounceConfig.

Definition voltage (capture time : Z) : SnapshotData :=
  mkSnapshotData "BATTERY" "/battery" "sensor_msgs/msg/BatteryState" "{}" time capture.

Definition bag (code path : string) (created size : Z) : RosbagFileInfo :=
  mkRosbagFileInfo code "" path "mcap" (f64_of_Z 5) size created.

Definition session : list call :=
  [ SetMaxSnapshotsPerFault 1; SetMaxNearMissesPerFault 5; ReportFaultEvent (battery_failed 10); ReportFaultEvent (battery_failed 20);
    StoreSnapshots [voltage 1 21]; StoreSnapshots [voltage 2 22]; GetSnapshots "BATTERY" ""; GetMaxCaptureId;
    StoreRosbagFiles [bag "BATTERY" "/bags/a" 21 100; bag "MOTOR" "/bags/a" 21 100];
    StoreRosbagFiles [bag "BATTERY" "/bags/b" 30 50]; GetTotalRosbagStorageBytes; ListRosbagsForEntity "/power/bms";
    GetNearMisses "BATTERY"; ClearFault "BATTERY"; ReclassifyHealedAsCleared; ListFaults false 0 ["CLEARED"];
    DeleteRosbagFile "MOTOR" ].

Lemma sqlite_refines_memory_witness :
  calls_ok session empty_storage ∧
  ∃ l q, sqlite_run always in_key_order id id elements_of session (open_storage current_schema empty_db) = (Some l, q) ∧
    Forall2 agree (memory_run (@rev _) session empty_storage).1.1 l ∧
    (∀ p, p ∈ q_unlinked q ↔ p ∈ (memory_run (@rev _) session empty_storage).1.2) ∧
    backs q (memory_run (@rev _) session empty_storage).2.
Proof.
  assert (calls_ok session empty_storage) as Hok by (apply (bool_decide_unpack _); vm_compute; exact I).
  split; [exact Hok|].
  apply sqlite_refines_memory; [done|done|done|done|intros l; apply Permutation_sym, Permutation_rev|exact elements_of_reads|exact Hok].
Defined.

(** After a restart the fault is still there and is raised again. *)
Definition next_session : list call :=
  [ GetAllFaults; ReportFaultEvent (battery_failed 40); GetFault "BATTERY"; GetAllRosbagFiles; GetFreezeFrame "BATTERY" ].

Lemma restart_keeps_everything_witness :
  Forall2 (λ expected got, ∃ l, got = Some l ∧ Forall2 agree expected l)
    (memory_sessions id [session; next_session; next_session] empty_storage)
    (sqlite_sessions always in_key_order id id elements_of [session; next_session; next_session] empty_db).
Proof.
  apply restart_keeps_everything; [done..|exact elements_of_reads|]. apply (bool_decide_unpack _). vm_compute. exact I.
Defined.

(** The third statement of a report (after BEGIN and the lookup) fails. *)
Definition third_fails (n : nat) : outcome := if (n =? 2)%nat then StopsAfter 0 else Runs.

Lemma failed_calls_change_nothing_witness :
  let r := sqlite_call third_fails in_key_order id id elements_of (ReportFaultEvent (battery_failed 10))
    (open_storage current_schema empty_db) in
  r.1 = None ∧ q_saved r.2 = None ∧
  (several_steps (ReportFaultEvent (battery_failed 10)) = false → r.1 = None →
    q_db r.2 = q_db (open_storage current_schema empty_db) ∧ q_unlinked r.2 = []).
Proof.
  cbv zeta. split; [by vm_compute|]. apply (failed_calls_change_nothing third_fails in_key_order id id elements_of); done.
Defined.

(** ** Where the behaviour is not what the comments promise *)

(** The database after some calls, every statement of which runs. *)
Definition after (cs : list call) : SqliteFaultStorage :=
  (sqlite_run always in_key_order id id elements_of cs (open_storage current_schema empty_db)).2.

(** The statement that is the [k]-th from here fails while it runs. *)
Definition fails_at (q : SqliteFaultStorage) (k : nat) : nat → outcome :=
  λ n, if (n =? q_ran q + k)%nat then StopsAfter 0 else Runs.

(** [clear_fault] deletes the snapshots and then updates the fault, without a
    transaction: if the update fails, the call throws with the fault as it was
    and its snapshots gone. *)
Lemma failed_clear_loses_snapshots :
  let q := after [ReportFaultEvent (battery_failed 10); StoreSnapshots [voltage 1 11]] in
  let r := sqlite_call (fails_at q 1) in_key_order id id elements_of (ClearFault "BATTERY") q in
  r.1 = None ∧ length (t_snapshots (q_db q)) = 1%nat ∧ t_snapshots (q_db r.2) = [] ∧
  (fr_status <$> t_faults (q_db r.2) !! "BATTERY") = Some STATUS_CONFIRMED.
Proof. vm_compute. split_and!; reflexivity. Qed.

(** The reference count answers "unreferenced" when its statement fails, so the
    bag of another fault's row is removed. *)
Lemma failed_count_unlinks_shared_bag :
  let q := after [StoreRosbagFiles [bag "BATTERY" "/bags/a" 21 100; bag "MOTOR" "/bags/a" 21 100]] in
  let r := sqlite_call (fails_at q 2) in_key_order id id elements_of (DeleteRosbagFile "BATTERY") q in
  r.1 = Some (AnswerBool true) ∧ q_unlinked r.2 = ["/bags/a"] ∧ (row_path <$> t_rosbag_files (q_db r.2)) = ["/bags/a"].
Proof. vm_compute. split_and!; reflexivity. Qed.

(** Clearing a fault that is not there answers [false] in both backends, but the
    database drops the snapshots stored under its code. *)
Lemma clear_of_unknown_fault_differs :
  let cs := [StoreSnapshots [voltage 1 11]; ClearFault "BATTERY"; GetSnapshots "BATTERY" ""] in
  (sqlite_run always in_key_order id id elements_of cs (open_storage current_schema empty_db)).1 =
    Some [Done; AnswerBool false; AnswerSnapshots []] ∧
  (memory_run id cs empty_storage).1.1 = [Done; AnswerBool false; AnswerSnapshots [voltage 1 11]].
Proof. vm_compute. split_and!; reflexivity. Qed.

(** Three seconds of PREFAILED confirm; with debouncing from a threshold of -3. *)
Definition slow_config : DebounceConfig := mkDebounceConfig (-3) false 3 true (f64_of_Z 3).

Definition pending_at (time : Z) : Report := mkReport "BATTERY" EVENT_FAILED 1 "" "/power/bms" time slow_config.

(** A fault that failed at time zero (a simulated clock) is never confirmed by
    age in the database, and is in memory. *)
Lemma tick_from_time_zero_differs :
  let cs := [SetDebounceConfig slow_config; ReportFaultEvent (pending_at 0); CheckTimeBasedConfirmation 10000000000] in
  (sqlite_run always in_key_order id id elements_of cs (open_storage current_schema empty_db)).1 =
    Some [Done; AnswerBool true; AnswerCodes []] ∧
  (memory_run id cs empty_storage).1.1 = [Done; AnswerBool true; AnswerCodes ["BATTERY"]].
Proof. vm_compute. split_and!; reflexivity. Qed.

(** JSON forbids control characters in strings. *)
Definition strict_elements (text : string) : option (list string) :=
  if forallb (λ c, (32 <=? nat_of_ascii c)%nat) (String.list_ascii_of_string text) then elements_of text else None.

Definition bell : string := String.String (ascii_of_nat 7) "".

(** A control character in one source id is written as it is; the join then
    fails on that row and every entity's recordings read as none. *)
Lemma control_character_hides_recordings :
  let cs := [ ReportFaultEvent (battery_failed 10);
    ReportFaultEvent (mkReport "MOTOR" EVENT_FAILED 2 "" bell 11 default_DebounceConfig);
    StoreRosbagFiles [bag "BATTERY" "/bags/a" 21 100; bag "MOTOR" "/bags/b" 22 100] ] in
  (sqlite_run always in_key_order id id strict_elements (cs ++ [ListRosbagsForEntity "/power/bms"])
    (open_storage current_schema empty_db)).1 = Some [AnswerBool true; AnswerBool true; Done; AnswerBags []] ∧
  length (Rosbags.list_rosbags_for_entity "/power/bms" (memory_run id cs empty_storage).2) = 1%nat.
Proof. vm_compute. split_and!; reflexivity. Qed.

From stdpp Require Import relations pretty.
From S2P Require Import Prelude Rosbags FaultManagerNode SqlConnection AuditLog AuditLogSpec AuditLogHistory AuditLogTampering.
Open Scope Z_scope.

(** ** A digest and an encoding *)

Fixpoint hex_digits (k : nat) (n : N) : string :=
  match k with
  | O => ""
  | S k' => String (ascii_of_N (let d := n `mod` 16 in if d <? 10 then 48 + d else 87 + d)) (hex_digits k' (n / 16))
  end%N.

Definition polynomial (s : string) : N :=
  foldl (λ h c, (h * 263 + N_of_ascii c + 1) `mod` 2 ^ 256)%N 7%N (String.list_ascii_of_string s).

Definition digest (s : string) : string := hex_digits 64 (polynomial s).

Lemma digest_length s : String.length (digest s) = 64%nat.
Proof. unfold digest. generalize (polynomial s). generalize 64%nat. induction n as [|n IH]; intros x; cbn; [done|]. by rewrite IH. Qed.

Definition json_text (s : string) : string := String.string_of_list_ascii (quoted s).

Lemma json_text_delimited a b u v : json_text a +:+ u = json_text b +:+ v → json_text a = json_text b.
Proof.
  intros H. apply (f_equal String.list_ascii_of_string) in H. revert H. unfold json_text.
  rewrite !list_ascii_app, !String.list_ascii_of_string_of_list_ascii, !quoted_app. intros [= H].
  apply (f_equal read_value) in H. rewrite !read_escaped in H. injection H as H _.
  apply (f_equal String.string_of_list_ascii) in H. rewrite !String.string_of_list_ascii_of_string in H. by rewrite H.
Qed.

(** ** A log of two records *)

Definition motor (transition : string) (time : Z) : AuditEvent :=
  mkAuditEvent "MOTOR_STALL" transition 2 "CONFIRMED" "/drive/left" "stalled" time.

(** Statement 25 is the INSERT of the fourth append. *)
Definition disk_full (n : nat) : outcome := if (n =? 25)%nat then StopsAfter 0 else Runs.

Definition created : FaultAuditLog := mkFaultAuditLog (mkConn empty_audit_db None 1) 2 origin 0.
Definition appended (e : AuditEvent) (log : FaultAuditLog) : FaultAuditLog := (append digest json_text disk_full e log).2.

Definition first_three : FaultAuditLog :=
  appended (motor "cleared" 30) (appended (motor "confirmed" 20) (appended (motor "occurred" 10) created)).
Definition refused : FaultAuditLog := appended (motor "occurred" 40) first_three.
Definition restarted_log : FaultAuditLog :=
  mkFaultAuditLog (mkConn (c_db (al_conn refused)) None (S (c_ran (al_conn refused)))) 1 (al_head refused) 0.

Definition three_events : list AuditEvent := [motor "occurred" 10; motor "confirmed" 20; motor "cleared" 30].

Lemma life_after log history e seq :
  life digest json_text disk_full log history → event_ok e → (append digest json_text disk_full e log).1 = Some seq →
  life digest json_text disk_full (appended e log) (history ++ [e]).
Proof.
  intros Hl He Hs. eapply life_appended; [exact Hl|exact He|]. rewrite (surjective_pairing (append _ _ _ e log)), Hs. done.
Qed.

Lemma life_restarted_log : life digest json_text disk_full restarted_log three_events.
Proof.
  assert (∀ t n, event_ok (motor t n)) as He by (intros; split; [done|by cbn]).
  apply (life_restarted digest json_text disk_full refused three_events 1); [|by vm_compute|by vm_compute].
  apply (life_refused digest json_text disk_full first_three three_events (motor "occurred" 40)); [|done|by vm_compute].
  apply (life_after _ [motor "occurred" 10; motor "confirmed" 20] _ 3); [|done|by vm_compute].
  apply (life_after _ [motor "occurred" 10] _ 2); [|done|by vm_compute].
  apply (life_after created [] _ 1); [|done|by vm_compute].
  apply (life_created digest json_text disk_full 2). by vm_compute.
Qed.

Lemma audit_log_keeps_history_witness :
  verifies digest json_text (c_db (al_conn restarted_log)) = Some (mkVerify true 2 0 "") ∧
  ∃ m, (m = 0 ∨ m < 3)%nat ∧
    audit_log (c_db (al_conn restarted_log)) = drop m (chain digest json_text origin three_events).
Proof.
  split; [by vm_compute|]. destruct (audit_log_keeps_history digest json_text disk_full restarted_log three_events) as (m & Hm & Hrows & _).
  { exact life_restarted_log. }
  exists m. split; [exact Hm|exact Hrows].
Defined.

(** Pruned records may be put back, and are still accepted. *)
Definition all_three : AuditDb :=
  set_records (chain digest json_text origin three_events) (c_db (al_conn restarted_log)).

Lemma verified_rows_are_the_history_witness :
  verifies digest json_text all_three = Some (mkVerify true 3 0 "") ∧
  (collision digest json_text (rows_read all_three) (chain digest json_text origin three_events) ∨
   ∃ p, (p ≤ 1)%nat ∧ Forall2 (same_record json_text) (rows_read all_three) (drop p (chain digest json_text origin three_events))).
Proof.
  split; [by vm_compute|].
  apply (verified_rows_are_the_history digest json_text disk_full digest_length json_text_delimited restarted_log three_events all_three
    (mkVerify true 3 0 "")); [exact life_restarted_log|done|done|by vm_compute|done].
Defined.

(** ** What the log does not protect against *)

Definition with_description (text : string) (r : AuditRecord) : AuditRecord :=
  mkAuditRecord (ar_seq r)
    (mkAuditEvent (ae_fault_code (ar_event r)) (ae_transition (ar_event r)) (ae_severity (ar_event r)) (ae_status (ar_event r))
      (ae_source_id (ar_event r)) text (ae_occurred_at_ns (ar_event r)))
    (ar_prev_hash r) (ar_record_hash r).

(** A changed record is noticed. *)
Example edited_record_is_noticed :
  let d := set_records (with_description "fine" <$> audit_log all_three) all_three in
  verifies digest json_text d = Some (mkVerify false 0 1 "record_hash mismatch (record tampered)").
Proof. by vm_compute. Qed.

(** A plain connection opens the guard and deletes, with every trigger in place. *)
Lemma guard_is_replaceable :
  update_guard false true all_three = None ∧ delete_records (λ _, true) all_three = None ∧
  ∃ d, replace_guard true all_three = Some d ∧ audit_log <$> delete_records (λ _, true) d = Some [].
Proof. split_and!; [by vm_compute|by vm_compute|]. eexists. split; by vm_compute. Qed.

(** A plain connection overwrites a record, with every trigger in place. *)
Lemma record_is_replaceable :
  ∃ r d, r ∈ audit_log all_three ∧ replace_record (with_description "fine" r) all_three = Some d ∧
    with_description "fine" r ∈ audit_log d ∧ r ∉ audit_log d.
Proof.
  eexists (next_record digest json_text origin (motor "occurred" 10)), _. split_and!; [left|reflexivity|..].
  - apply elem_of_app. right. left.
  - vm_compute. intros H. repeat (apply elem_of_cons in H as [H|H]; [done|]). by apply elem_of_nil in H.
Qed.

(** The read of the head at a restart stops with an error: the log starts over
    at 1, the append succeeds and the history no longer verifies. *)
Definition busy_restart (n : nat) : outcome := if (n =? 40)%nat then StopsAfter 0 else Runs.

Lemma unread_head_restarts_the_chain :
  ∃ log, open_log busy_restart 2 (c_db (al_conn first_three)) 40 = Some log ∧ al_head log = origin ∧
    let r := append digest json_text busy_restart (motor "occurred" 50) log in
    r.1 = Some 1 ∧ v_ok <$> verifies digest json_text (c_db (al_conn r.2)) = Some false.
Proof. exists (mkFaultAuditLog (mkConn (c_db (al_conn first_three)) None 41) 2 origin 0). split_and!; by vm_compute. Qed.

From stdpp Require Import relations.
From S2P Require Import Prelude FaultTypes Debounce FaultEvents Rosbags BagRules RosbagCapture RosbagCaptureSpec RosbagQuota.
Open Scope Z_scope.

(** ** Quota *)

Definition recording (code path : string) (created size : Z) : RosbagFileInfo :=
  mkRosbagFileInfo code "" path "mcap" (f64_of_Z 5) size created.

Definition three_bags : InMemoryFaultStorage :=
  (store_rosbag_files
    [recording "MOTOR" "/bags/1" 10 100; recording "BATTERY" "/bags/1" 10 100;
     recording "LIDAR" "/bags/2" 20 50; recording "GPS" "/bags/3" 30 70] empty_storage).2.

Lemma three_bags_ids : ids_name_bags (rosbag_files three_bags).
Proof.
  intros r r' Hr Hr'. vm_compute in Hr, Hr'.
  repeat (apply elem_of_cons in Hr as [->|Hr]; [|try by apply elem_of_nil in Hr]).
  all: repeat (apply elem_of_cons in Hr' as [->|Hr']; [by vm_compute|]); by apply elem_of_nil in Hr'.
Qed.

Lemma quota_evicts_oldest_witness :
  (evict_bags_over_quota 130 three_bags).1 = ["/bags/1"] ∧
  let '(evicted, (_, s')) := evict_bags_over_quota 130 three_bags in
  ∃ k, evicted = take k (bags_by_age three_bags) ∧ get_total_rosbag_storage_bytes s' ≤ 130.
Proof.
  split; [vm_compute; reflexivity|].
  assert (sizes_fit (rosbag_files three_bags)) as Hfit.
  { split; [|vm_compute; discriminate]. apply (bool_decide_unpack _). vm_compute. exact I. }
  assert (0 ≤ 130) as Hpos by lia.
  pose proof (quota_evicts_oldest 130 three_bags Hfit three_bags_ids Hpos) as H. revert H.
  generalize (evict_bags_over_quota 130 three_bags). intros [evicted [gone s']] (k & Hk & _ & _ & Ht & _).
  exists k. split; [exact Hk|exact Ht].
Defined.

(** ** A recording *)

Definition black_box : RosbagConfig :=
  mkRosbagConfig true (f64_of_Z 5) (f64_of_Z 1) "entity" [] [] true false "mcap" "/bags" 500 256 1 true.

Definition no_snapshot_topics : SnapshotTopics := mkSnapshotTopics [] ∅ ∅.

Definition drive_graph : Graph :=
  mkGraph ["/drive/current"; "/map"] (λ t, if t =?ₛ "/drive/current" then [("motor", "/drive")] else []) (λ _, []).

Definition motor_confirmed : InMemoryFaultStorage :=
  (report_fault_event "MOTOR" EVENT_FAILED 2 "stalled" "/drive/motor" 10 default_DebounceConfig empty_storage).2.

Definition current (time : Z) : BufferedMessage := mkMessage "/drive/current" "std_msgs/msg/Float32" "abcd" time.

Notation step u := (sys_step "/tmp" no_snapshot_topics u).

Lemma pool_to u w p e w' p' q sys :
  confirm_step "/tmp" no_snapshot_topics u w p w' p' → p' = q →
  rtc (step u) (mkSystem w' q e) sys → rtc (step u) (mkSystem w p e) sys.
Proof. intros Hs <- Hr. eapply rtc_l; [by apply pool_runs|done]. Qed.

Lemma executor_to u w p e w' e' f sys :
  execute_step u w e w' e' → e' = f → rtc (step u) (mkSystem w' p f) sys → rtc (step u) (mkSystem w p e) sys.
Proof. intros Hs <- Hr. eapply rtc_l; [by apply executor_runs|done]. Qed.

Ltac pool q := eapply (pool_to _ _ _ _ _ _ q).
Ltac exec f := eapply (executor_to _ _ _ _ _ _ f).

Definition first_bag : string := "/bags/fault_MOTOR_1000".
Definition scope : gset string := {[ "/drive/current" ]}.

Definition recorded : World :=
  mkWorld
    (mkCapture black_box true [] 0 scope true "MOTOR" first_bag ∅ 900 100 (Some first_bag))
    motor_confirmed {[ first_bag := [current 500] ]}.

(** A message is buffered, the fault is confirmed, the bag opens and records. *)
Lemma recording_run u : rtc (step u) (fresh_system black_box motor_confirmed ∅) (mkSystem recorded None None).
Proof.
  exec (@None executing); [apply (started _ _ 100)|done|].
  exec (Some (EMessage (current 500))); [apply message_arrives|done|].
  exec (Some (EBuffer (current 500))); [apply message_guard|done|].
  exec (Some EPrune); [apply message_buffered|done|].
  exec (@None executing); [apply (buffer_pruned _ _ 500)|done|].
  pool (Some (CScope "MOTOR")); [apply (confirm_begins _ _ _ _ "MOTOR"); by vm_compute|by vm_compute|].
  pool (Some (CAttach "MOTOR" scope)); [apply (confirm_scopes _ _ _ _ _ (Some drive_graph)); by right|by vm_compute|].
  pool (Some (CFilter "MOTOR" scope)); [eapply confirm_alone; by vm_compute|done|].
  pool (Some (CFlush "MOTOR")); [apply confirm_filters|done|].
  pool (Some (COpen "MOTOR" [current 500])); [apply confirm_flushes; by vm_compute|by vm_compute|].
  pool (Some (CSnapshot "MOTOR" first_bag [current 500])); [eapply (confirm_opens _ _ _ _ _ _ 1000); by vm_compute|done|].
  pool (Some (CWrite "MOTOR" first_bag scope [current 500] None)); [apply confirm_snapshots|by vm_compute|].
  pool (Some (CWrite "MOTOR" first_bag scope [] (Some 500))); [apply confirm_writes; [by vm_compute|by eexists]|by vm_compute|].
  pool (Some (CPublish "MOTOR" first_bag)); [apply (confirm_flushed _ _ _ _ _ _ _ _ 600 1000)|by vm_compute|].
  pool (@None confirming); [apply confirm_publishes|done|].
  match goal with |- rtc _ (mkSystem ?w _ _) _ => replace w with recorded by (by vm_compute) end. apply rtc_refl.
Qed.

(** A directory that somebody else makes, and the bag of the recording. *)
Definition with_stranger (w : World) : World := on_disk (λ _, {[ first_bag := [current 500]; "/bags/other" := [] ]}) w.

Lemma stranger_appears e sys :
  rtc (step {[ "/bags/other" ]}) (mkSystem (with_stranger recorded) None e) sys →
  rtc (step {[ "/bags/other" ]}) (mkSystem recorded None e) sys.
Proof.
  intros Hr. eapply rtc_l; [|exact Hr]. apply disk_changes. intros q Hq.
  change (w_disk recorded) with (<[ first_bag := [current 500] ]> (∅ : gmap string (list BufferedMessage))).
  destruct (decide (q = first_bag)) as [->|Hne]; [by vm_compute|].
  rewrite !lookup_insert_ne, lookup_empty by done. apply lookup_singleton_ne. set_solver.
Qed.

Lemma bags_on_disk_have_rows_witness :
  let sys := mkSystem (with_stranger recorded) None None in
  in_hand sys = [first_bag] ∧ is_Some (w_disk (s_world sys) !! "/bags/other") ∧
  ∀ p, p ∉ ({[ "/bags/other" ]} : gset string) →
    is_Some (w_disk (s_world sys) !! p) ↔ p ∈ paths (rosbag_files (w_storage (s_world sys))) ∨ p ∈ in_hand sys.
Proof.
  split; [reflexivity|]. split; [by eexists|].
  assert (∀ p, p ∉ ({[ "/bags/other" ]} : gset string) →
    is_Some ((∅ : gmap string (list BufferedMessage)) !! p) ↔ p ∈ paths (rosbag_files motor_confirmed)) as Hempty.
  { intros p _. rewrite lookup_empty. split; [by intros []|].
    intros (r & Hr & _)%elem_of_paths. vm_compute in Hr. by apply elem_of_nil in Hr. }
  refine (proj1 (bags_on_disk_have_rows "/tmp" no_snapshot_topics {[ "/bags/other" ]} black_box motor_confirmed ∅
    (mkSystem (with_stranger recorded) None None) Hempty _)).
  etransitivity; [apply recording_run|]. apply stranger_appears, rtc_refl.
Defined.

(** ** Runs that go wrong *)

(** The post-fault timer has taken the recording. *)
Definition handed_over : World := on_capture hand_over recorded.
Definition deciding : executing := EDecide first_bag (span_sec_since 900 2000) 64 2000 ["MOTOR"] [] false.

(** A repeated confirmation of the recorded fault skips the scope, the window
    closes before it attaches, and the next bag takes every topic. *)
Lemma boundary_confirmation_loses_scope :
  ∃ w, rtc (step ∅) (fresh_system black_box motor_confirmed ∅) (mkSystem w (Some (CFlush "MOTOR")) (Some deciding)) ∧
    active_capture_topics_ (w_capture w) = ∅ ∧
    compute_entity_topics black_box no_snapshot_topics (get_fault "MOTOR" (w_storage w)) (Some drive_graph) = scope.
Proof.
  eexists. split.
  - etransitivity; [apply recording_run|].
    pool (Some (CAttach "MOTOR" ∅)); [apply (confirm_begins _ _ _ _ "MOTOR"); by vm_compute|by vm_compute|].
    exec (Some deciding); [apply (timer_fires _ _ 2000 64 2000); by vm_compute|by vm_compute|].
    pool (Some (CFilter "MOTOR" ∅)); [eapply confirm_alone; by vm_compute|done|].
    pool (Some (CFlush "MOTOR")); [apply confirm_filters|done|]. apply rtc_refl.
  - split; by vm_compute.
Qed.

(** [wants_a_row] reads the storage without a handler.  If the read throws, the
    callback ends there and the bag is left with no row and nobody to remove
    it. *)
Lemma throwing_row_decision_orphans_bag :
  rtc (step {[ first_bag ]}) (fresh_system black_box motor_confirmed ∅) (mkSystem handed_over None None) ∧
  is_Some (w_disk handed_over !! first_bag) ∧ first_bag ∉ paths (rosbag_files (w_storage handed_over)) ∧
  first_bag ∉ in_hand (mkSystem handed_over None None).
Proof.
  split_and!.
  - etransitivity; [apply recording_run|].
    exec (Some deciding); [apply (timer_fires _ _ 2000 64 2000); by vm_compute|by vm_compute|].
    exec (@None executing); [apply row_not_decided; [by vm_compute|set_solver]|done|]. apply rtc_refl.
  - exists [current 500]. by vm_compute.
  - intros (r & Hr & _)%elem_of_paths. vm_compute in Hr. by apply elem_of_nil in Hr.
  - intros H. vm_compute in H. by apply elem_of_nil in H.
Qed.

(** The name of a bag repeats (same code, same millisecond): the open fails on
    the existing directory and the clean-up removes the stored bag. *)
Lemma name_clash_removes_stored_bag :
  let s := (store_rosbag_files [recording "MOTOR" first_bag 1000 64] motor_confirmed).2 in
  let w := mkWorld (new_capture black_box) s {[ first_bag := [current 500] ]} in
  let w' := bag_not_opened ∅ (generate_bag_path black_box "/tmp" "MOTOR" 1000) w in
  first_bag ∈ paths (rosbag_files (w_storage w')) ∧ w_disk w' !! first_bag = None.
Proof.
  cbv zeta. split; [|by vm_compute]. apply elem_of_paths. eexists. split; [vm_compute; left|by vm_compute].
Qed.

(** A message that arrives while the buffer is being written goes back to the
    ring buffer, and stays there when the recording has been published. *)
Lemma message_during_flush_misses_the_bag :
  ∃ w, rtc (step ∅) (fresh_system black_box motor_confirmed ∅) (mkSystem w None None) ∧
    recorded_bag (w_capture w) = Some first_bag ∧ message_buffer_ (w_capture w) = [current 700] ∧
    w_disk w !! first_bag = Some [current 500].
Proof.
  eexists. split.
  - exec (@None executing); [apply (started _ _ 100)|done|].
    exec (Some (EMessage (current 500))); [apply message_arrives|done|].
    exec (Some (EBuffer (current 500))); [apply message_guard|done|].
    exec (Some EPrune); [apply message_buffered|done|].
    exec (@None executing); [apply (buffer_pruned _ _ 500)|done|].
    pool (Some (CScope "MOTOR")); [apply (confirm_begins _ _ _ _ "MOTOR"); by vm_compute|by vm_compute|].
    pool (Some (CAttach "MOTOR" scope)); [apply (confirm_scopes _ _ _ _ _ (Some drive_graph)); by right|by vm_compute|].
    pool (Some (CFilter "MOTOR" scope)); [eapply confirm_alone; by vm_compute|done|].
    pool (Some (CFlush "MOTOR")); [apply confirm_filters|done|].
    pool (Some (COpen "MOTOR" [current 500])); [apply confirm_flushes; by vm_compute|by vm_compute|].
    exec (Some (EMessage (current 700))); [apply message_arrives|by vm_compute|].
    exec (Some (EBuffer (current 700))); [apply message_guard|by vm_compute|].
    exec (Some EPrune); [apply message_buffered|done|].
    exec (@None executing); [apply (buffer_pruned _ _ 700)|done|].
    pool (Some (CSnapshot "MOTOR" first_bag [current 500])); [eapply (confirm_opens _ _ _ _ _ _ 1000); by vm_compute|done|].
    pool (Some (CWrite "MOTOR" first_bag scope [current 500] None)); [apply confirm_snapshots|by vm_compute|].
    pool (Some (CWrite "MOTOR" first_bag scope [] (Some 500))); [apply confirm_writes; [by vm_compute|by eexists]|by vm_compute|].
    pool (Some (CPublish "MOTOR" first_bag)); [apply (confirm_flushed _ _ _ _ _ _ _ _ 900 1000)|by vm_compute|].
    pool (@None confirming); [apply confirm_publishes|done|]. apply rtc_refl.
  - split_and!; by vm_compute.
Qed.
