(* ===== verification/WatchdogGate.v ===== *)
(** * Graph watchdog: who may raise, and whose departure it is

    ros2_medkit_graph_watchdog: warmup_tracker.hpp, lifecycle_watcher.cpp,
    reliability_gate.cpp.  A sweep feeds the discovered apps to the gate, which
    tracks how long each has been present and the lifecycle state of the managed
    ones; detectors ask it whether an entity may raise a fault and on what
    grounds the presence detector owns its departure.

    The watcher and the gate run on the tick thread, so each method is one
    function.  Outside the sources are the answers of GetState, how many fit the
    time budget, whether a subscription can be created and the walk order of
    unordered maps: the fields of [SweepIO].  Subscriptions are not stored: a node
    is subscribed exactly while it is tracked. *)

From S2P Require Import Prelude.
Open Scope Z_scope.

(** ** Apps as the watchdog reads them *)

Record ServiceInfo := mkService { sv_full_path : string; sv_type : string }.

Record RosBinding := mkBinding { rb_node_name : string; rb_namespace_pattern : string }.

Record App := mkApp {
  app_id : string;
  app_source : string;
  app_ros_binding : option RosBinding;
  app_bound_fqn : option string;
  app_is_online : bool;
  app_services : list ServiceInfo;
}.

Definition contains_char (c : ascii) (s : string) : bool := existsb (Ascii.eqb c) (String.list_ascii_of_string s).

Definition ends_with_slash (s : string) : bool :=
  match last (String.list_ascii_of_string s) with Some c => Ascii.eqb c "/" | None => false end.

Definition effective_fqn (a : App) : string :=
  let bound := default "" (app_bound_fqn a) in
  if negb (bound =?ₛ "") then bound
  else
    match app_ros_binding a with
    | Some b =>
        let ns := rb_namespace_pattern b in
        if rb_node_name b =?ₛ "" then ""
        else if contains_char "*" ns then ""
        else if ns =?ₛ "" then "/" +:+ rb_node_name b
        else if negb (ends_with_slash ns) then ns +:+ "/" +:+ rb_node_name b
        else ns +:+ rb_node_name b
    | None => ""
    end.

(** The path of the last GetState service, if there is a ChangeState service. *)
Definition find_lifecycle_get_state_path (services : list ServiceInfo) : option string :=
  let '(path, has_change_state) :=
    foldl (λ '(path, has_change_state) svc,
             if sv_type svc =?ₛ "lifecycle_msgs/srv/GetState" then (Some (sv_full_path svc), has_change_state)
             else if sv_type svc =?ₛ "lifecycle_msgs/srv/ChangeState" then (path, true)
             else (path, has_change_state)) (None, false) services in
  if has_change_state : bool then path else None.

(** ** Warm-up *)

Record Entry := mkEntry { first_seen : Z; last_seen : Z }.

Record WarmupTracker := mkWarmup {
  wt_warmup_cycles : Z;
  wt_forget_grace : Z;
  wt_entries : gmap string Entry;
}.

Definition kDefaultForgetGrace : Z := 2.

Definition new_warmup (warmup_cycles : Z) : WarmupTracker :=
  mkWarmup (if warmup_cycles <? 0 then 0 else warmup_cycles) kDefaultForgetGrace ∅.

Definition forgotten (w : WarmupTracker) (present_ids : list string) (tick : Z) (id : string) (e : Entry) : bool :=
  bool_decide (id ∉ present_ids) && (wt_forget_grace w <? wrap_u64 (tick - last_seen e)).

Definition seen_at (tick : Z) (m : gmap string Entry) (id : string) : gmap string Entry :=
  match m !! id with
  | None => <[id := mkEntry tick tick]> m
  | Some e => <[id := mkEntry (first_seen e) tick]> m
  end.

Definition warmup_update (present_ids : list string) (tick : Z) (w : WarmupTracker) : WarmupTracker :=
  mkWarmup (wt_warmup_cycles w) (wt_forget_grace w)
    (foldl (seen_at tick) (filter (λ kv, forgotten w present_ids tick kv.1 kv.2 = false) (wt_entries w)) present_ids).

Definition is_known (id : string) (w : WarmupTracker) : bool := bool_decide (is_Some (wt_entries w !! id)).

Definition is_armed (id : string) (tick : Z) (w : WarmupTracker) : bool :=
  match wt_entries w !! id with
  | None => false
  | Some e => wt_warmup_cycles w <=? wrap_u64 (tick - first_seen e)
  end.

(** ** Lifecycle watcher *)

Record DepartedLifecycle := mkDeparted {
  dl_label : string;
  dl_saw_transition : bool;
  dl_error_terminated : bool;
}.

Record Tracked := mkTracked {
  tr_state_label : string;
  tr_fqn : string;
  tr_reseeds_remaining : Z;
  tr_unmeasured_seeds_remaining : Z;
  tr_get_state_path : string;
  tr_saw_transition : bool;
  tr_error_terminated : bool;
}.

Definition set_label (label : string) (t : Tracked) : Tracked :=
  mkTracked label (tr_fqn t) (tr_reseeds_remaining t) (tr_unmeasured_seeds_remaining t) (tr_get_state_path t)
    (tr_saw_transition t) (tr_error_terminated t).

Record LifecycleWatcher := mkWatcher {
  lw_tracked : gmap string Tracked;
  lw_recently_departed : gmap string (DepartedLifecycle * Z);
  lw_shutdown_requested : bool;
  lw_retention_ticks : Z;
}.

Definition kMaxGetStateSeedsPerTick : nat := 8.
Definition kReseedAttempts : Z := 2.
Definition kUnmeasuredSeedAttempts : Z := 40.
Definition kUnmeasuredSeedInterval : Z := 5.
Definition kErrorProcessingLabel : string := "errorprocessing".

Definition new_watcher (departed_retention_ticks : Z) : LifecycleWatcher := mkWatcher ∅ ∅ false departed_retention_ticks.

(** What one sweep meets outside: the answer of GetState at a path, how many
    reads beyond the first fit the budget, whether the subscription of an app can
    be created, and the order in which unordered maps are walked. *)
Record SweepIO := mkIO {
  io_get_state : string → option string;
  io_more_reads : nat;
  io_subscribes : string → bool;
  io_walk_paths : gmap string (string * string) → list (string * (string * string));
  io_walk_tracked : gmap string Tracked → list (string * Tracked);
}.

Definition prune_departed (tick retention : Z) (m : gmap string (DepartedLifecycle * Z))
    : gmap string (DepartedLifecycle * Z) :=
  filter (λ kv, (wrap_u64 retention <? wrap_u64 (tick - kv.2.2)) = false) m.

(** [current_paths] and [current_fqns], which have the same keys. *)
Definition managed_apps (apps : list App) : gmap string (string * string) :=
  foldl (λ m app,
           match find_lifecycle_get_state_path (app_services app) with
           | None => m
           | Some path => match m !! app_id app with
                          | Some _ => m
                          | None => <[app_id app := (path, effective_fqn app)]> m
                          end
           end) ∅ apps.

(** The id is no longer managed, or it is bound to another node now. *)
Definition binding_lost (current : gmap string (string * string)) (id : string) (t : Tracked) : bool :=
  match current !! id with
  | None => true
  | Some (path, fqn) => negb (fqn =?ₛ tr_fqn t) || negb (path =?ₛ tr_get_state_path t)
  end.

Definition departure (t : Tracked) : DepartedLifecycle :=
  mkDeparted (tr_state_label t) (tr_saw_transition t) (tr_error_terminated t).

Definition drop_entry (tick : Z) (w : LifecycleWatcher) (idt : string * Tracked) : LifecycleWatcher :=
  mkWatcher (delete idt.1 (lw_tracked w)) (<[tr_fqn idt.2 := (departure idt.2, tick)]> (lw_recently_departed w))
    (lw_shutdown_requested w) (lw_retention_ticks w).

Record SeedJob := mkJob { sj_id : string; sj_path : string; sj_is_new : bool }.

(** A tracked node is asked again while it is not active and has attempts left. *)
Definition asks_again (tick : Z) (t : Tracked) : bool :=
  negb (tr_state_label t =?ₛ "active") &&
  ((0 <? tr_reseeds_remaining t) ||
   ((tr_state_label t =?ₛ "") && (0 <? tr_unmeasured_seeds_remaining t) && (tick `mod` kUnmeasuredSeedInterval =? 0))).

Definition select_job (tick : Z) (tracked : gmap string Tracked)
    (acc : list SeedJob * list (string * (string * string))) (entry : string * (string * string)) :=
  let '(jobs, new_nodes) := acc in
  let room := (length jobs <? kMaxGetStateSeedsPerTick)%nat in
  match tracked !! entry.1 with
  | None => (if room then jobs ++ [mkJob entry.1 entry.2.1 true] else jobs, new_nodes ++ [entry])
  | Some t => (if asks_again tick t && room then jobs ++ [mkJob entry.1 entry.2.1 false] else jobs, new_nodes)
  end.

Definition read_states (io : SweepIO) (jobs : list SeedJob) : gmap string string :=
  foldl (λ m job, <[sj_id job := default "" (io_get_state io (sj_path job))]> m) ∅ (take (S (io_more_reads io)) jobs).

Definition new_entry (seeded : gmap string string) (entry : string * (string * string)) : Tracked :=
  let label := default "" (seeded !! entry.1) in
  mkTracked label entry.2.2 kReseedAttempts (if label =?ₛ "" then kUnmeasuredSeedAttempts else 0) entry.2.1 false false.

(** The subscription loop; an exception of [create_subscription] ends it. *)
Fixpoint subscribe_new (io : SweepIO) (seeded : gmap string string) (new_nodes : list (string * (string * string)))
    (tracked : gmap string Tracked) : gmap string Tracked * bool :=
  match new_nodes with
  | [] => (tracked, false)
  | entry :: rest =>
      if io_subscribes io entry.1 then subscribe_new io seeded rest (<[entry.1 := new_entry seeded entry]> tracked)
      else (tracked, true)
  end.

Definition charge (tracked : gmap string Tracked) (job : SeedJob) : gmap string Tracked :=
  if sj_is_new job then tracked
  else
    alter (λ t, mkTracked (tr_state_label t) (tr_fqn t)
                  (if 0 <? tr_reseeds_remaining t then tr_reseeds_remaining t - 1 else tr_reseeds_remaining t)
                  (if 0 <? tr_unmeasured_seeds_remaining t then tr_unmeasured_seeds_remaining t - 1
                   else tr_unmeasured_seeds_remaining t)
                  (tr_get_state_path t) (tr_saw_transition t) (tr_error_terminated t)) (sj_id job) tracked.

Definition apply_seed (seeded : gmap string string) (tracked : gmap string Tracked) (job : SeedJob)
    : gmap string Tracked :=
  if sj_is_new job then tracked
  else
    match seeded !! sj_id job with
    | None => tracked
    | Some label => if label =?ₛ "" then tracked else alter (set_label label) (sj_id job) tracked
    end.

Definition with_tracked (tracked : gmap string Tracked) (w : LifecycleWatcher) : LifecycleWatcher :=
  mkWatcher tracked (lw_recently_departed w) (lw_shutdown_requested w) (lw_retention_ticks w).

(** [LifecycleWatcher::update]; [true] if it throws. *)
Definition watcher_update (io : SweepIO) (apps : list App) (tick : Z) (w : LifecycleWatcher) : LifecycleWatcher * bool :=
  if lw_shutdown_requested w then (w, false)
  else
    let w := mkWatcher (lw_tracked w) (prune_departed tick (lw_retention_ticks w) (lw_recently_departed w))
               (lw_shutdown_requested w) (lw_retention_ticks w) in
    let current := managed_apps apps in
    let w := foldl (drop_entry tick) w
               (filter (λ idt, binding_lost current idt.1 idt.2 = true) (io_walk_tracked io (lw_tracked w))) in
    let '(jobs, new_nodes) := foldl (select_job tick (lw_tracked w)) ([], []) (io_walk_paths io current) in
    let seeded := read_states io jobs in
    let '(tracked, threw) := subscribe_new io seeded new_nodes (lw_tracked w) in
    if threw : bool then (with_tracked tracked w, true)
    else
      let tracked := foldl charge tracked (take (S (io_more_reads io)) jobs) in
      (with_tracked (foldl (apply_seed seeded) tracked jobs) w, false).

(** The ~/transition_event callback of the app [id]. *)
Definition transition_event (id start_label goal_label : string) (w : LifecycleWatcher) : LifecycleWatcher :=
  if lw_shutdown_requested w then w
  else
    with_tracked
      (alter (λ t, mkTracked goal_label (tr_fqn t) (tr_reseeds_remaining t) (tr_unmeasured_seeds_remaining t)
                     (tr_get_state_path t) true
                     (tr_error_terminated t || (start_label =?ₛ kErrorProcessingLabel) ||
                      (goal_label =?ₛ kErrorProcessingLabel))) id (lw_tracked w)) w.

Definition node_ok (id : string) (w : LifecycleWatcher) : bool :=
  match lw_tracked w !! id with
  | None => true
  | Some t => (tr_state_label t =?ₛ "") || (tr_state_label t =?ₛ "active")
  end.

Definition measurement_pending (id : string) (w : LifecycleWatcher) : bool :=
  match lw_tracked w !! id with
  | None => false
  | Some t => (tr_state_label t =?ₛ "") && (0 <? tr_reseeds_remaining t)
  end.

Definition state_of (id : string) (w : LifecycleWatcher) : option string := tr_state_label <$> lw_tracked w !! id.

Definition departed_state_of (fqn : string) (w : LifecycleWatcher) : option DepartedLifecycle :=
  fst <$> lw_recently_departed w !! fqn.

Definition watcher_reset (w : LifecycleWatcher) : LifecycleWatcher :=
  mkWatcher ∅ (lw_recently_departed w) true (lw_retention_ticks w).

(** ** The gate *)

Inductive PresenceOwnership := kUnclaimed | kDisowned | kProvisional | kEarned.

#[global] Instance PresenceOwnership_eq_dec : EqDecision PresenceOwnership.
Proof. solve_decision. Defined.

Record ReliabilityGate := mkGate {
  rg_warmup : WarmupTracker;
  rg_lifecycle : LifecycleWatcher;
  rg_warmup_cycles : Z;
  rg_last_tick : Z;
  rg_graph_seen : bool;
  rg_graph_first_tick : Z;
}.

Definition new_gate (warmup_cycles departed_retention_ticks : Z) : ReliabilityGate :=
  mkGate (new_warmup warmup_cycles) (new_watcher departed_retention_ticks)
    (if warmup_cycles <? 0 then 0 else warmup_cycles) 0 false 0.

Definition with_lifecycle (w : LifecycleWatcher) (g : ReliabilityGate) : ReliabilityGate :=
  mkGate (rg_warmup g) w (rg_warmup_cycles g) (rg_last_tick g) (rg_graph_seen g) (rg_graph_first_tick g).

(** [ReliabilityGate::update]; an exception of the watcher leaves the rest as it was. *)
Definition gate_update (io : SweepIO) (apps : list App) (tick : Z) (g : ReliabilityGate) : ReliabilityGate :=
  let ids := app_id <$> apps in
  let '(w, threw) := watcher_update io apps tick (rg_lifecycle g) in
  if threw : bool then with_lifecycle w g
  else
    let '(graph_seen, graph_first_tick) :=
      if bool_decide (ids = []) then (false, rg_graph_first_tick g)
      else if negb (rg_graph_seen g) then (true, tick)
      else (true, rg_graph_first_tick g) in
    mkGate (warmup_update ids tick (rg_warmup g)) w (rg_warmup_cycles g) tick graph_seen graph_first_tick.

Definition gate_transition (id start_label goal_label : string) (g : ReliabilityGate) : ReliabilityGate :=
  with_lifecycle (transition_event id start_label goal_label (rg_lifecycle g)) g.

Definition allows_raise (source_id : string) (g : ReliabilityGate) : bool :=
  if is_known source_id (rg_warmup g) then
    is_armed source_id (rg_last_tick g) (rg_warmup g) && node_ok source_id (rg_lifecycle g)
  else if negb (rg_graph_seen g) then false
  else rg_warmup_cycles g <=? wrap_u64 (rg_last_tick g - rg_graph_first_tick g).

Definition presence_ownership (source_id : string) (g : ReliabilityGate) : PresenceOwnership :=
  let label := state_of source_id (rg_lifecycle g) in
  if match label with Some l => negb (l =?ₛ "") && negb (l =?ₛ "active") | None => false end then kDisowned
  else if negb (allows_raise source_id g) then kUnclaimed
  else
    match label with
    | None => kEarned
    | Some l =>
        if l =?ₛ "" then
          if measurement_pending source_id (rg_lifecycle g) then kUnclaimed else kProvisional
        else kEarned
    end.

Definition lifecycle_state_of (app_id : string) (g : ReliabilityGate) : option string := state_of app_id (rg_lifecycle g).

Definition departed_lifecycle_state_of (fqn : string) (g : ReliabilityGate) : option DepartedLifecycle :=
  departed_state_of fqn (rg_lifecycle g).
