(* ===== verification/NodeDeath.v ===== *)
(** * Graph watchdog: nodes that disappear

    node_liveness_tracker.hpp (which tracked keys are missing, and for how long),
    the suppressors, aggregated_fault.hpp, the reporting side of detector.hpp and
    detectors/node_death_detector.cpp.

    A key is the fully qualified name of a node.  A configuration is the JSON
    document as far as it is read; log texts are not modelled. *)

From stdpp Require Import pretty.
From S2P Require Import Prelude WatchdogGate.
Open Scope Z_scope.

(** ** Liveness tracker *)

Record NodeLivenessTracker := mkTracker {
  nt_miss_grace : Z;
  nt_prune_ticks : Z;
  nt_tracked_key_cap : Z;
  nt_known : gset string;
  nt_misses : gmap string Z;
  nt_suppressed_streak : gmap string Z;
  nt_saturated_last_tick : bool;
  nt_collapsed_dead_count : Z;
}.

Definition kDefaultTrackedKeyCap : Z := 512.
Definition kMaxNamedDepartedEntries : nat := 3.
Definition kCollapsedKey : string := "!collapsed".

Definition new_tracker (miss_grace prune_ticks tracked_key_cap : Z) : NodeLivenessTracker :=
  mkTracker miss_grace prune_ticks (if tracked_key_cap <? 1 then 1 else tracked_key_cap) ∅ ∅ ∅ false 0.

Definition with_keys (known : gset string) (misses streak : gmap string Z) (t : NodeLivenessTracker)
    : NodeLivenessTracker :=
  mkTracker (nt_miss_grace t) (nt_prune_ticks t) (nt_tracked_key_cap t) known misses streak
    (nt_saturated_last_tick t) (nt_collapsed_dead_count t).

Definition forget_key (t : NodeLivenessTracker) (key : string) : NodeLivenessTracker :=
  with_keys (nt_known t ∖ {[key]}) (delete key (nt_misses t)) (delete key (nt_suppressed_streak t)) t.

Definition release (key : string) (t : NodeLivenessTracker) : NodeLivenessTracker := forget_key t key.

Definition count_miss (present : gset string) (misses : gmap string Z) (key : string) : gmap string Z :=
  <[key := if bool_decide (key ∈ present) then 0 else default 0 (misses !! key) +ᵢ 1]> misses.

Definition departed_count (t : NodeLivenessTracker) : Z :=
  Z.of_nat (length (filter (λ kv, 0 < kv.2) (map_entries (nt_misses t)))).

Definition collapse_one (t : NodeLivenessTracker) (key : string) : NodeLivenessTracker :=
  let t := forget_key t key in
  mkTracker (nt_miss_grace t) (nt_prune_ticks t) (nt_tracked_key_cap t) (nt_known t) (nt_misses t)
    (nt_suppressed_streak t) (nt_saturated_last_tick t) (nt_collapsed_dead_count t +ᵢ 1).

Definition matured (t : NodeLivenessTracker) : list string :=
  (filter (λ kv, nt_miss_grace t < kv.2) (map_entries (nt_misses t))).*1.

Definition collapse_matured (keep_named : nat) (t : NodeLivenessTracker) : NodeLivenessTracker :=
  foldl collapse_one t (reverse (drop keep_named (matured t))).

Definition over_cap (t : NodeLivenessTracker) : bool := nt_tracked_key_cap t <? departed_count t.

Definition enforce_departed_cap (t : NodeLivenessTracker) : NodeLivenessTracker * bool :=
  if negb (over_cap t) then (t, false)
  else
    let t := collapse_matured kMaxNamedDepartedEntries t in
    if negb (over_cap t) then (t, false)
    else
      let t := collapse_matured 0 t in
      (t, over_cap t).

Record NodeDeathReport := mkReport {
  rp_dead : gmap string string;
  rp_keys_by_freshness : list string;
  rp_tracking_saturated : bool;
  rp_saturation_started : bool;
}.

Definition death_text (key : string) (misses : Z) : string :=
  "node " +:+ key +:+ " disappeared (" +:+ pretty misses +:+ " missed cycles)".

Definition collapsed_text (n : Z) : string :=
  "and " +:+ pretty n +:+ " more node(s) disappeared; not named individually (tracked_key_cap is full)".

(** The order of [std::pair<int, std::string>]. *)
Definition pair_ltb (a b : Z * string) : bool := (a.1 <? b.1) || ((a.1 =? b.1) && String.ltb a.2 b.2).

(** The keys over the grace with their misses, in key order. *)
Definition dead_entries (t : NodeLivenessTracker) : list (Z * string) :=
  omap (λ key, let misses := default 0 (nt_misses t !! key) in
               if nt_miss_grace t <? misses then Some (misses, key) else None) (set_entries (nt_known t)).

Definition named_deaths (entries : list (Z * string)) : gmap string string :=
  foldl (λ m e, <[e.2 := death_text e.2 e.1]> m) ∅ entries.

Definition tracker_update (present armed : gset string) (t : NodeLivenessTracker) : NodeLivenessTracker * NodeDeathReport :=
  let known := nt_known t ∪ armed in
  let misses := foldl (count_miss present) (nt_misses t) (set_entries known) in
  let '(t, saturated) := enforce_departed_cap (with_keys known misses (nt_suppressed_streak t) t) in
  let by_miss_count := dead_entries t in
  let named := named_deaths by_miss_count in
  let order := (stable_sort pair_ltb by_miss_count).*2 in
  let '(dead, keys) :=
    if 0 <? nt_collapsed_dead_count t then
      (<[kCollapsedKey := collapsed_text (nt_collapsed_dead_count t)]> named, kCollapsedKey :: order)
    else (named, order) in
  (mkTracker (nt_miss_grace t) (nt_prune_ticks t) (nt_tracked_key_cap t) (nt_known t) (nt_misses t)
     (nt_suppressed_streak t) saturated (nt_collapsed_dead_count t),
   mkReport dead keys saturated (saturated && negb (nt_saturated_last_tick t))).

Definition prune_key (suppressed : gset string) (t : NodeLivenessTracker) (key : string) : NodeLivenessTracker :=
  let streak := if bool_decide (key ∈ suppressed) then default 0 (nt_suppressed_streak t !! key) +ᵢ 1 else 0 in
  if nt_prune_ticks t <? streak then forget_key t key
  else with_keys (nt_known t) (nt_misses t) (<[key := streak]> (nt_suppressed_streak t)) t.

Definition tracker_prune (suppressed : gset string) (t : NodeLivenessTracker) : NodeLivenessTracker :=
  foldl (prune_key suppressed) t (set_entries (nt_known t)).

(** ** Reporting *)

Inductive DetectorMode := Raise | Advisory | Off.

(** The requests of ReportFault. *)
Inductive Request :=
  | EVENT_FAILED (fault_code : string) (severity : Z) (description source_id : string)
  | EVENT_PASSED (fault_code source_id : string).

(** What a detector is handed: whether the client is wired and its service ready,
    the snapshot, and the keys that the presence detector tracks. *)
Record DetectorContext := mkContext {
  cx_gate : option ReliabilityGate;
  cx_mode : DetectorMode;
  cx_client : bool;
  cx_service_ready : bool;
  cx_apps : list App;
  cx_presence_tracked : option (gset string);
}.

Definition mode_emits (mode : DetectorMode) : bool := match mode with Raise => true | _ => false end.

Definition reliability_allows (gate : option ReliabilityGate) (source_id : string) : bool :=
  match gate with None => true | Some g => allows_raise source_id g end.

Definition raise_fault (ctx : DetectorContext) (code : string) (severity : Z) (description source_id : string)
    : option Request :=
  if negb (mode_emits (cx_mode ctx)) || negb (cx_client ctx) then None
  else if source_id =?ₛ "" then None
  else if negb (reliability_allows (cx_gate ctx) source_id) then None
  else if negb (cx_service_ready ctx) then None
  else Some (EVENT_FAILED code severity description source_id).

Definition clear_fault (ctx : DetectorContext) (code source_id : string) : option Request :=
  if negb (mode_emits (cx_mode ctx)) || negb (cx_client ctx) then None
  else if source_id =?ₛ "" then None
  else if negb (cx_service_ready ctx) then None
  else Some (EVENT_PASSED code source_id).

Definition kMaxDescriptionChars : nat := 480.
Definition kGraphWatchdogEntityId : string := "graph_watchdog".

Definition too_long (desc : string) : bool := (kMaxDescriptionChars <? String.length desc)%nat.

Definition append_detail (desc key detail : string) : string :=
  (if desc =?ₛ "" then "" else desc +:+ "; ") +:+ (if detail =?ₛ "" then key else detail).

(** The loop over [order]: text so far and keys emitted. *)
Fixpoint append_ordered (affected : gmap string string) (order : list string) (desc : string) (emitted : gset string)
    : string * gset string :=
  match order with
  | [] => (desc, emitted)
  | key :: rest =>
      match affected !! key with
      | None => append_ordered affected rest desc emitted
      | Some detail =>
          if bool_decide (key ∈ emitted) then append_ordered affected rest desc emitted
          else
            let desc := append_detail desc key detail in
            let emitted := {[key]} ∪ emitted in
            if too_long desc then (desc, emitted) else append_ordered affected rest desc emitted
      end
  end.

(** The loop over the keys that [order] left out. *)
Fixpoint append_rest (entries : list (string * string)) (emitted : gset string) (desc : string) : string :=
  match entries with
  | [] => desc
  | (key, detail) :: rest =>
      if bool_decide (key ∈ emitted) then append_rest rest emitted desc
      else
        let desc := append_detail desc key detail in
        if too_long desc then desc else append_rest rest emitted desc
  end.

Definition describe_ordered (affected : gmap string string) (order : list string) : string :=
  let '(desc, emitted) := append_ordered affected order "" ∅ in
  let desc := if too_long desc then desc else append_rest (map_entries affected) emitted desc in
  if too_long desc then String.substring 0 (kMaxDescriptionChars - 3) desc +:+ "..." else desc.

Definition kNodeDisappeared : string := "GRAPH_NODE_DISAPPEARED".
Definition kNodeDeathSeverity : Z := 2.

Definition emit_ordered (ctx : DetectorContext) (code : string) (severity : Z) (affected : gmap string string)
    (order : list string) : option Request :=
  if bool_decide (affected = ∅) then clear_fault ctx code kGraphWatchdogEntityId
  else raise_fault ctx code severity (describe_ordered affected order) kGraphWatchdogEntityId.

(** ** Suppressors *)

Inductive Suppressor := AllowlistSuppressor (allow : gset string) | LifecycleShutdownSuppressor.

(** What follows the last '/', if there is one. *)
Fixpoint after_last_slash (l : list ascii) : option (list ascii) :=
  match l with
  | [] => None
  | c :: l' => match after_last_slash l' with
               | Some r => Some r
               | None => if Ascii.eqb c "/" then Some l' else None
               end
  end.

Definition leaf_of (key : string) : option string :=
  String.string_of_list_ascii <$> after_last_slash (String.list_ascii_of_string key).

Definition clean_departure (d : DepartedLifecycle) : bool :=
  if dl_label d =?ₛ "shuttingdown" then true
  else if dl_label d =?ₛ "finalized" then dl_saw_transition d && negb (dl_error_terminated d)
  else false.

Definition suppresses (gate : option ReliabilityGate) (key : string) (s : Suppressor) : bool :=
  match s with
  | AllowlistSuppressor allow =>
      bool_decide (key ∈ allow) ||
      match leaf_of key with None => false | Some leaf => bool_decide (leaf ∈ allow) end
  | LifecycleShutdownSuppressor =>
      match gate with
      | None => false
      | Some g => match departed_lifecycle_state_of key g with
                  | None => false
                  | Some d => clean_departure d
                  end
      end
  end.

Definition durable (s : Suppressor) : bool :=
  match s with AllowlistSuppressor _ => true | LifecycleShutdownSuppressor => true end.

(** ** Configuration *)

Inductive config_value :=
  | CInt (z : Z)
  | CBool (b : bool)
  | CStr (s : string)
  | CArr (l : list config_value)
  | CObj (fields : list (string * config_value))
  | COther.

Fixpoint find_key (key : string) (fields : list (string * config_value)) : option config_value :=
  match fields with
  | [] => None
  | (k, v) :: fields' => if k =?ₛ key then Some v else find_key key fields'
  end.

(** [config.contains(key)] with [config[key]]. *)
Definition config_get (key : string) (config : config_value) : option config_value :=
  match config with CObj fields => find_key key fields | _ => None end.

(** [out[key] = value]. *)
Fixpoint set_key (key : string) (value : config_value) (fields : list (string * config_value))
    : list (string * config_value) :=
  match fields with
  | [] => [(key, value)]
  | (k, v) :: fields' => if k =?ₛ key then (k, value) :: fields' else (k, v) :: set_key key value fields'
  end.

(** [get<std::int64_t>()] of a JSON integer, signed or unsigned. *)
Definition as_int64 (z : Z) : Z := (z + 9223372036854775808) `mod` 18446744073709551616 - 9223372036854775808.

(** An integer in [lo..hi] read wide before it is narrowed, otherwise the default. *)
Definition read_wide (lo hi dflt : Z) (v : option config_value) : Z :=
  match v with
  | Some (CInt z) => let wide := as_int64 z in if (lo <=? wide) && (wide <=? hi) then wide else dflt
  | _ => dflt
  end.

Definition kDefaultTickIntervalMs : Z := 1000.
Definition kDefaultMissGrace : Z := 2.
Definition kDefaultPruneGrace : Z := 60.
Definition kMinTrackedNodeCap : Z := 1.
Definition kMaxTrackedNodeCap : Z := 16384.
Definition kMinNodeDeathWindowMs : Z := 3000.
Definition kMaxNodeDeathGraceTicks : Z := 3600.

Definition min_node_death_miss_grace (tick_interval_ms : Z) : Z :=
  if tick_interval_ms <=? 0 then 0
  else Z.max 0 (Z.quot (kMinNodeDeathWindowMs + tick_interval_ms - 1) tick_interval_ms - 1).

Definition nonempty_strings (v : option config_value) : gset string :=
  match v with
  | Some (CArr l) => list_to_set (omap (λ e, match e with CStr s => if s =?ₛ "" then None else Some s | _ => None end) l)
  | _ => ∅
  end.

(** The chain, in the order the suppressors are asked, and the allowlist if
    'suppress' names it. *)
Definition build_suppressor_chain (config : config_value) : list Suppressor * option (gset string) :=
  let allow_set := nonempty_strings (config_get "allowlist" config) in
  let names := match config_get "suppress" config with
               | Some (CArr l) => omap (λ e, match e with CStr s => Some s | _ => None end) l
               | _ => []
               end in
  let lifecycle := (λ _, LifecycleShutdownSuppressor) <$> filter (λ s, s = "lifecycle") names in
  if bool_decide ("allowlist" ∈ names) then (lifecycle ++ [AllowlistSuppressor allow_set], Some allow_set)
  else (lifecycle, None).

(** ** The detector *)

Record NodeDeathDetector := mkDetector {
  nd_tracker : NodeLivenessTracker;
  nd_chain : list Suppressor;
  nd_allowlist : option (gset string);
  nd_released_no_record_ticks : gmap string Z;
  nd_released_no_record_hold_ticks : Z;
  nd_released : gset string;
  nd_earned : gset string;
  nd_id_allowlisted : gset string;
  nd_durably_suppressed : gset string;
  nd_ever_raised : bool;
}.

Definition new_detector : NodeDeathDetector :=
  mkDetector (new_tracker kDefaultMissGrace int32_max kDefaultTrackedKeyCap) [] None ∅ (kDefaultMissGrace + 1) ∅ ∅ ∅ ∅ false.

(** The tracker that [NodeDeathDetector::configure] builds. *)
Definition configured_tracker (config : config_value) : NodeLivenessTracker :=
  let tick_interval_ms := read_wide 1 int32_max kDefaultTickIntervalMs (config_get "tick_interval_ms" config) in
  let miss_grace := read_wide 0 kMaxNodeDeathGraceTicks kDefaultMissGrace (config_get "miss_grace" config) in
  let floor := min_node_death_miss_grace tick_interval_ms in
  let miss_grace := if miss_grace <? floor then floor else miss_grace in
  let prune_grace := read_wide 0 kMaxNodeDeathGraceTicks kDefaultPruneGrace (config_get "prune_grace" config) in
  let tracked_node_cap :=
    read_wide kMinTrackedNodeCap kMaxTrackedNodeCap kDefaultTrackedKeyCap (config_get "tracked_node_cap" config) in
  new_tracker miss_grace (Z.max prune_grace (miss_grace + 1)) tracked_node_cap.

Definition configure (config : config_value) (d : NodeDeathDetector) : NodeDeathDetector :=
  let '(chain, allowlist) := build_suppressor_chain config in
  let tracker := configured_tracker config in
  mkDetector tracker chain allowlist (nd_released_no_record_ticks d) (nt_miss_grace tracker + 1) (nd_released d)
    (nd_earned d) ∅ ∅ (nd_ever_raised d).

Definition is_ros2cli_node (fqn : string) : bool :=
  String.prefix "_ros2cli_" (default fqn (leaf_of fqn)).

Definition reads_active (gate : option ReliabilityGate) (app_id : string) : bool :=
  match gate with
  | None => true
  | Some g => match lifecycle_state_of app_id g with Some label => label =?ₛ "active" | None => false end
  end.

Definition ownership (gate : option ReliabilityGate) (source_id : string) : PresenceOwnership :=
  match gate with None => kEarned | Some g => presence_ownership source_id g end.

(** What the loop over the apps collects. *)
Record Sweep := mkSweep {
  sw_seen : gset string;
  sw_present : gset string;
  sw_armed : gset string;
  sw_handed_back : gset string;
}.

Definition empty_sweep : Sweep := mkSweep ∅ ∅ ∅ ∅.

(** The sets about keys that the loop over the apps changes. *)
Definition with_grounds (no_record : gmap string Z) (released earned : gset string) (d : NodeDeathDetector)
    : NodeDeathDetector :=
  mkDetector (nd_tracker d) (nd_chain d) (nd_allowlist d) no_record (nd_released_no_record_hold_ticks d) released earned
    (nd_id_allowlisted d) (nd_durably_suppressed d) (nd_ever_raised d).

Definition see (key : string) (sw : Sweep) : Sweep :=
  mkSweep ({[key]} ∪ sw_seen sw) (sw_present sw) (sw_armed sw) (sw_handed_back sw).
Definition see_online (key : string) (sw : Sweep) : Sweep :=
  mkSweep (sw_seen sw) ({[key]} ∪ sw_present sw) (sw_armed sw) (sw_handed_back sw).
Definition arm (key : string) (sw : Sweep) : Sweep :=
  mkSweep (sw_seen sw) (sw_present sw) ({[key]} ∪ sw_armed sw) (sw_handed_back sw).
Definition hand_back (key : string) (sw : Sweep) : Sweep :=
  mkSweep (sw_seen sw) (sw_present sw) (sw_armed sw) ({[key]} ∪ sw_handed_back sw).

(** A lifecycle record, whatever it says, ends a run of sweeps without one. *)
Definition end_no_record_run (gate : option ReliabilityGate) (key app_id : string) (d : NodeDeathDetector)
    : NodeDeathDetector :=
  match gate with
  | Some g =>
      if bool_decide (key ∈ nd_released d) && bool_decide (is_Some (lifecycle_state_of app_id g)) then
        with_grounds (delete key (nd_released_no_record_ticks d)) (nd_released d) (nd_earned d) d
      else d
  | None => d
  end.

(** The branch of the ground on which the gate lets the detector own [key]. *)
Definition by_ownership (gate : option ReliabilityGate) (key app_id : string) (d : NodeDeathDetector) (sw : Sweep)
    : NodeDeathDetector * Sweep :=
  match ownership gate app_id with
  | kEarned =>
      let admitted d := with_grounds (delete key (nd_released_no_record_ticks d)) (nd_released d ∖ {[key]})
                          ({[key]} ∪ nd_earned d) d in
      if bool_decide (key ∈ nd_released d) && negb (reads_active gate app_id) then
        let n := default 0 (nd_released_no_record_ticks d !! key) +ᵢ 1 in
        let d := with_grounds (<[key := n]> (nd_released_no_record_ticks d)) (nd_released d) (nd_earned d) d in
        if n <=? nd_released_no_record_hold_ticks d then (d, sw) else (admitted d, arm key sw)
      else (admitted d, arm key sw)
  | kProvisional => if bool_decide (key ∈ nd_released d) then (d, sw) else (d, arm key sw)
  | kDisowned =>
      if bool_decide (key ∈ nd_earned d) then (d, sw)
      else (with_grounds (nd_released_no_record_ticks d) ({[key]} ∪ nd_released d) (nd_earned d) d, hand_back key sw)
  | kUnclaimed => (d, sw)
  end.

Definition with_id_allowlisted (ids : gset string) (d : NodeDeathDetector) : NodeDeathDetector :=
  mkDetector (nd_tracker d) (nd_chain d) (nd_allowlist d) (nd_released_no_record_ticks d)
    (nd_released_no_record_hold_ticks d) (nd_released d) (nd_earned d) ids (nd_durably_suppressed d) (nd_ever_raised d).

Definition capture_id_match (key app_id : string) (d : NodeDeathDetector) : NodeDeathDetector :=
  match nd_allowlist d with
  | None => d
  | Some allow =>
      with_id_allowlisted
        (if bool_decide (app_id ∈ allow) then {[key]} ∪ nd_id_allowlisted d else nd_id_allowlisted d ∖ {[key]}) d
  end.

(** An app of a peer has no binding of its own; CLI helper nodes come and go. *)
Definition watched_key (app : App) : option string :=
  if String.prefix "peer:" (app_source app) then None
  else
    let key := effective_fqn app in
    if (key =?ₛ "") || is_ros2cli_node key then None else Some key.

Definition observe_app (gate : option ReliabilityGate) (acc : NodeDeathDetector * Sweep) (app : App)
    : NodeDeathDetector * Sweep :=
  let '(d, sw) := acc in
  match watched_key app with
  | None => (d, sw)
  | Some key =>
      let sw := see key sw in
      if negb (app_is_online app) then (d, sw)
      else
        let d := end_no_record_run gate key (app_id app) d in
        let '(d, sw) := by_ownership gate key (app_id app) d (see_online key sw) in
        (capture_id_match key (app_id app) d, sw)
  end.

Definition observe (gate : option ReliabilityGate) (apps : list App) (d : NodeDeathDetector) : NodeDeathDetector * Sweep :=
  foldl (observe_app gate) (d, empty_sweep) apps.

Definition with_tracker (t : NodeLivenessTracker) (d : NodeDeathDetector) : NodeDeathDetector :=
  mkDetector t (nd_chain d) (nd_allowlist d) (nd_released_no_record_ticks d) (nd_released_no_record_hold_ticks d)
    (nd_released d) (nd_earned d) (nd_id_allowlisted d) (nd_durably_suppressed d) (nd_ever_raised d).

(** [earned_] lives as long as the tracker keeps the key, [released_] as long as
    the snapshot carries it. *)
Definition prune_grounds (sw : Sweep) (d : NodeDeathDetector) : NodeDeathDetector :=
  let gone := nd_released d ∖ sw_seen sw in
  with_grounds (filter (λ kv, kv.1 ∉ gone) (nd_released_no_record_ticks d)) (nd_released d ∩ sw_seen sw)
    (nd_earned d ∩ nt_known (nd_tracker d)) d.

(** The filter over the dead keys: the keys left and the latched verdicts. *)
Definition suppress_key (gate : option ReliabilityGate) (d : NodeDeathDetector)
    (acc : gmap string string * gset string) (key : string) : gmap string string * gset string :=
  let '(dead, durably) := acc in
  if bool_decide (key ∈ nd_id_allowlisted d) || bool_decide (key ∈ durably) then (delete key dead, durably)
  else
    match List.find (suppresses gate key) (nd_chain d) with
    | None => (dead, durably)
    | Some s => (delete key dead, if durable s then {[key]} ∪ durably else durably)
    end.

Definition suppress_dead (gate : option ReliabilityGate) (d : NodeDeathDetector) (dead : gmap string string)
    : gmap string string * gset string :=
  foldl (suppress_key gate d) (dead, nd_durably_suppressed d) (map_entries dead).*1.

(** The keys whose suppression a durable suppressor vouches for. *)
Definition suppressed_for_prune (gate : option ReliabilityGate) (d : NodeDeathDetector) (durably : gset string)
    (before after : gmap string string) : gset string :=
  list_to_set (filter (λ key, after !! key = None ∧
                        (key ∈ nd_id_allowlisted d ∨ key ∈ durably ∨
                         existsb (λ s, durable s && suppresses gate key s) (nd_chain d) = true)) (map_entries before).*1).

(** [NodeDeathDetector::tick]: the detector, the sweep, the dead keys that are
    reported, and the request that is sent. *)
Definition detector_tick (ctx : DetectorContext) (d : NodeDeathDetector)
    : NodeDeathDetector * Sweep * gmap string string * option Request :=
  let gate := cx_gate ctx in
  let '(d, sw) := observe gate (cx_apps ctx) d in
  let released := foldl (λ t key, release key t) (nd_tracker d) (set_entries (sw_handed_back sw)) in
  let '(tracker, report) := tracker_update (sw_present sw) (sw_armed sw) released in
  let d := prune_grounds sw (with_tracker tracker d) in
  let '(dead, durably) := suppress_dead gate d (rp_dead report) in
  let tracker := tracker_prune (suppressed_for_prune gate d durably (rp_dead report) dead) tracker in
  let known := nt_known tracker in
  let request := if bool_decide (dead = ∅) && negb (nd_ever_raised d) then None
                 else emit_ordered ctx kNodeDisappeared kNodeDeathSeverity dead (rp_keys_by_freshness report) in
  let ever_raised := nd_ever_raised d || (negb (bool_decide (dead = ∅)) && bool_decide (is_Some request)) in
  (mkDetector tracker (nd_chain d) (nd_allowlist d) (nd_released_no_record_ticks d) (nd_released_no_record_hold_ticks d)
     (nd_released d) (nd_earned d) (nd_id_allowlisted d ∩ known) (filter (λ key, key ∈ known ∧ key ∉ sw_present sw) durably)
     ever_raised, sw, dead, request).
