(* ===== verification/LifecycleExpectation.v ===== *)
(** * Graph watchdog: nodes that must be active

    lifecycle_expectation_tracker.hpp, two clocks per required node, and
    detectors/lifecycle_expectation_detector.cpp.  What the detector keeps only to
    word and to limit its warnings is not modelled. *)

From stdpp Require Import pretty.
From S2P Require Import Prelude WatchdogGate NodeDeath.
Open Scope Z_scope.

(** ** Readings *)

Definition kDefaultNoMatchWarnTicks : Z := 10.
Definition kDefaultAbsenceGrace : Z := 3.
Definition kDefaultTrackedNodeCap : Z := 512.
Definition kMaxNamedDepartedEntries : nat := 3.
Definition kDefaultObservationSettleTicks : Z := 6.
Definition kDefaultUnmeasuredHoldTicks : Z := 60.
Definition kMaxLifecycleLabelChars : nat := 32.
Definition kMaxLifecycleDetailChars : nat := 150.

Definition trim_to (text : string) (max_chars : nat) : string :=
  if (String.length text <=? max_chars)%nat then text else String.substring 0 (max_chars - 3) text +:+ "...".

Record LifecycleMatch := mkMatch { lm_entry : string; lm_fqn : string; lm_state : option string }.

Inductive LifecycleObservedState := kActive | kInactive | kUnreadable | kNotManaged.

#[global] Instance LifecycleObservedState_eq_dec : EqDecision LifecycleObservedState.
Proof. solve_decision. Defined.

Definition classify_observed_state (state : option string) : LifecycleObservedState :=
  match state with
  | None => kNotManaged
  | Some label => if label =?ₛ "" then kUnreadable else if label =?ₛ "active" then kActive else kInactive
  end.

Inductive LifecycleUnmeasuredCause := CauseUnreadable | CauseNotManaged.

#[global] Instance LifecycleUnmeasuredCause_eq_dec : EqDecision LifecycleUnmeasuredCause.
Proof. solve_decision. Defined.

Definition observed_rank (state : LifecycleObservedState) : Z :=
  match state with kInactive => 3 | kUnreadable => 2 | kNotManaged => 1 | kActive => 0 end.

(** One record per node for this tick: the entries that named it and the most
    informative reading. *)
Record NodeTick := mkNodeTick { nk_entries : list string; nk_state : option string }.

Definition add_match (nodes : gmap string NodeTick) (m : LifecycleMatch) : gmap string NodeTick :=
  match nodes !! lm_fqn m with
  | None => <[lm_fqn m := mkNodeTick [lm_entry m] (lm_state m)]> nodes
  | Some n =>
      <[lm_fqn m := mkNodeTick
          (if bool_decide (lm_entry m ∈ nk_entries n) then nk_entries n else nk_entries n ++ [lm_entry m])
          (if observed_rank (classify_observed_state (nk_state n)) <?
              observed_rank (classify_observed_state (lm_state m)) then lm_state m else nk_state n)]> nodes
  end.

Definition collapse_matches (matches : list LifecycleMatch) : gmap string NodeTick := foldl add_match ∅ matches.

(** ** The state of a node *)

Record NodeState := mkNode {
  ns_violation_streak : Z;
  ns_unmeasured_clock : Z;
  ns_unmeasured_matured : bool;
  ns_cause : LifecycleUnmeasuredCause;
  ns_settled_observed : LifecycleObservedState;
  ns_ever_measured : bool;
  ns_last_label : string;
  ns_entries : list string;
  ns_absent_ticks : Z;
}.

Definition new_node : NodeState := mkNode 0 0 false CauseUnreadable kActive false "" [] 0.

(** The assignments of the clocks. *)
Definition with_clocks (streak clock : Z) (matured : bool) (n : NodeState) : NodeState :=
  mkNode streak clock matured (ns_cause n) (ns_settled_observed n) (ns_ever_measured n) (ns_last_label n) (ns_entries n)
    (ns_absent_ticks n).

Definition with_settled (settled : LifecycleObservedState) (measured : bool) (label : string) (n : NodeState) : NodeState :=
  mkNode (ns_violation_streak n) (ns_unmeasured_clock n) (ns_unmeasured_matured n) (ns_cause n) settled measured label
    (ns_entries n) (ns_absent_ticks n).

Definition with_cause (cause : LifecycleUnmeasuredCause) (n : NodeState) : NodeState :=
  mkNode (ns_violation_streak n) (ns_unmeasured_clock n) (ns_unmeasured_matured n) cause (ns_settled_observed n)
    (ns_ever_measured n) (ns_last_label n) (ns_entries n) (ns_absent_ticks n).

Definition with_presence (entries : list string) (absent_ticks : Z) (n : NodeState) : NodeState :=
  mkNode (ns_violation_streak n) (ns_unmeasured_clock n) (ns_unmeasured_matured n) (ns_cause n) (ns_settled_observed n)
    (ns_ever_measured n) (ns_last_label n) entries absent_ticks.

Definition is_idle (n : NodeState) : bool :=
  (ns_violation_streak n =? 0) && (ns_unmeasured_clock n =? 0) && negb (ns_unmeasured_matured n).

Definition is_content (grace : Z) (n : NodeState) : bool := ns_unmeasured_matured n || (grace <? ns_violation_streak n).

Definition release_uncorroborated (grace : Z) (n : NodeState) : NodeState :=
  if is_content grace n then n else with_clocks 0 0 (ns_unmeasured_matured n) n.

(** The node and whether the streak crosses the grace. *)
Definition advance_violation_streak (grace : Z) (n : NodeState) : NodeState * bool :=
  if grace <? ns_violation_streak n then (n, false)
  else
    let streak := ns_violation_streak n + 1 in
    (with_clocks streak (ns_unmeasured_clock n) (ns_unmeasured_matured n) n, streak =? grace + 1).

(** The node and whether the clock matures; maturing releases the streak. *)
Definition advance_unmeasured_clock (hold : Z) (n : NodeState) : NodeState * bool :=
  if ns_unmeasured_matured n then (n, false)
  else
    let clock := if ns_unmeasured_clock n <=? hold then ns_unmeasured_clock n + 1 else ns_unmeasured_clock n in
    if clock =? hold + 1 then (with_clocks 0 clock true n, true)
    else (with_clocks (ns_violation_streak n) clock false n, false).

Definition cause_of (state : LifecycleObservedState) : LifecycleUnmeasuredCause :=
  match state with kUnreadable => CauseUnreadable | _ => CauseNotManaged end.

(** A matched tick: the node, whether its streak crosses, whether its clock matures. *)
Definition observe_node (grace hold : Z) (tick : NodeTick) (n : NodeState) : NodeState * bool * bool :=
  let n := with_presence (nk_entries tick) 0 n in
  let state := classify_observed_state (nk_state tick) in
  match state with
  | kActive => (with_settled state true "" (with_clocks 0 0 false n), false, false)
  | kInactive =>
      let label := trim_to (default "" (nk_state tick)) kMaxLifecycleLabelChars in
      let '(n, crossed) :=
        advance_violation_streak grace (with_settled state true label (with_clocks (ns_violation_streak n) 0 false n)) in
      (n, crossed, false)
  | kUnreadable | kNotManaged =>
      let n := if ns_unmeasured_matured n then n else with_cause (cause_of state) n in
      let '(n, matured) := advance_unmeasured_clock hold n in
      let settles := negb (ns_unmeasured_matured n) &&
                     (negb (ns_ever_measured n) || (kDefaultObservationSettleTicks <=? ns_unmeasured_clock n)) in
      (if settles then with_settled state (ns_ever_measured n) (ns_last_label n) n else n, false, matured)
  end.

(** A tick without a match: whether the presence detector owns the key. *)
Definition miss_node (grace absence_grace hold : Z) (presence_owns : bool) (n : NodeState) : NodeState * bool * bool :=
  let absent := if ns_absent_ticks n <? int32_max then ns_absent_ticks n + 1 else ns_absent_ticks n in
  let n := with_presence (ns_entries n) absent n in
  if absent <=? absence_grace then (n, false, false)
  else
    match ns_settled_observed n with
    | kInactive =>
        let n := with_clocks (ns_violation_streak n) 0 (ns_unmeasured_matured n) n in
        if is_content grace n || negb presence_owns then
          let '(n, crossed) := advance_violation_streak grace n in (n, crossed, false)
        else (n, false, false)
    | kUnreadable | kNotManaged => let '(n, matured) := advance_unmeasured_clock hold n in (n, false, matured)
    | kActive => (release_uncorroborated grace n, false, false)
    end.

(** ** The tracker *)

Record LifecycleExpectationTracker := mkExpectations {
  lt_require_active : gset string;
  lt_grace : Z;
  lt_absence_grace : Z;
  lt_no_match_warn_ticks : Z;
  lt_prune_ticks : Z;
  lt_unmeasured_hold_ticks : Z;
  lt_tracked_node_cap : Z;
  lt_nodes : gmap string NodeState;
  lt_no_match : gmap string Z;
  lt_reported_no_match : gset string;
  lt_saturated_last_tick : bool;
  lt_collapsed_inactive : Z;
  lt_collapsed_unreadable : Z;
  lt_collapsed_not_managed : Z;
}.

Definition new_expectations (require_active : gset string) (grace absence_grace no_match_warn_ticks prune_ticks
    unmeasured_hold_ticks tracked_node_cap : Z) : LifecycleExpectationTracker :=
  mkExpectations require_active grace absence_grace no_match_warn_ticks prune_ticks unmeasured_hold_ticks
    (if tracked_node_cap <? 1 then 1 else tracked_node_cap) ∅ ∅ ∅ false 0 0 0.

Definition with_nodes (nodes : gmap string NodeState) (t : LifecycleExpectationTracker) : LifecycleExpectationTracker :=
  mkExpectations (lt_require_active t) (lt_grace t) (lt_absence_grace t) (lt_no_match_warn_ticks t) (lt_prune_ticks t)
    (lt_unmeasured_hold_ticks t) (lt_tracked_node_cap t) nodes (lt_no_match t) (lt_reported_no_match t)
    (lt_saturated_last_tick t) (lt_collapsed_inactive t) (lt_collapsed_unreadable t) (lt_collapsed_not_managed t).

Definition with_collapsed (inactive unreadable not_managed : Z) (t : LifecycleExpectationTracker)
    : LifecycleExpectationTracker :=
  mkExpectations (lt_require_active t) (lt_grace t) (lt_absence_grace t) (lt_no_match_warn_ticks t) (lt_prune_ticks t)
    (lt_unmeasured_hold_ticks t) (lt_tracked_node_cap t) (lt_nodes t) (lt_no_match t) (lt_reported_no_match t)
    (lt_saturated_last_tick t) inactive unreadable not_managed.

Definition is_departed (t : LifecycleExpectationTracker) (n : NodeState) : bool := lt_absence_grace t <? ns_absent_ticks n.

Definition count_collapsed (n : NodeState) (t : LifecycleExpectationTracker) : LifecycleExpectationTracker :=
  if ns_unmeasured_matured n || (0 <? ns_unmeasured_clock n) then
    match ns_cause n with
    | CauseUnreadable =>
        with_collapsed (lt_collapsed_inactive t) (lt_collapsed_unreadable t +ᵢ 1) (lt_collapsed_not_managed t) t
    | CauseNotManaged =>
        with_collapsed (lt_collapsed_inactive t) (lt_collapsed_unreadable t) (lt_collapsed_not_managed t +ᵢ 1) t
    end
  else if lt_grace t <? ns_violation_streak n then
    with_collapsed (lt_collapsed_inactive t +ᵢ 1) (lt_collapsed_unreadable t) (lt_collapsed_not_managed t) t
  else t.

Definition collapse_one (t : LifecycleExpectationTracker) (fqn : string) : LifecycleExpectationTracker :=
  match lt_nodes t !! fqn with
  | None => t
  | Some n => let t := count_collapsed n t in with_nodes (delete fqn (lt_nodes t)) t
  end.

Definition departed_keys (t : LifecycleExpectationTracker) : list string :=
  (filter (λ kn, is_departed t kn.2 = true) (map_entries (lt_nodes t))).*1.

Definition collapse_departed (keep_named : nat) (t : LifecycleExpectationTracker) : LifecycleExpectationTracker :=
  foldl collapse_one t (reverse (drop keep_named (departed_keys t))).

Definition full (t : LifecycleExpectationTracker) : bool := lt_tracked_node_cap t <=? Z.of_nat (size (lt_nodes t)).

Definition make_room (t : LifecycleExpectationTracker) : LifecycleExpectationTracker * bool :=
  let t := with_nodes (filter (λ kn, is_idle kn.2 = false) (lt_nodes t)) t in
  if negb (full t) then (t, true)
  else
    let t := collapse_departed kMaxNamedDepartedEntries t in
    if negb (full t) then (t, true)
    else
      let t := collapse_departed 0 t in
      (t, negb (full t)).

(** The tracker with an entry for [fqn], or [false] if there is no slot. *)
Definition track (fqn : string) (t : LifecycleExpectationTracker) : LifecycleExpectationTracker * bool :=
  match lt_nodes t !! fqn with
  | Some _ => (t, true)
  | None =>
      let '(t, room) := if full t then make_room t else (t, true) in
      if room : bool then (with_nodes (<[fqn := new_node]> (lt_nodes t)) t, true) else (t, false)
  end.

(** What the two loops over the nodes collect. *)
Record Pass := mkPass {
  ps_tracker : LifecycleExpectationTracker;
  ps_seen : gset string;
  ps_crossed_violation : gset string;
  ps_crossed_unmeasured : gset string;
  ps_saturated : bool;
}.

Definition crossing (crossed : bool) (fqn : string) (s : gset string) : gset string := if crossed then {[fqn]} ∪ s else s.

Definition matched_node (p : Pass) (e : string * NodeTick) : Pass :=
  let '(t, tracked) := track e.1 (ps_tracker p) in
  if negb tracked then mkPass t (ps_seen p) (ps_crossed_violation p) (ps_crossed_unmeasured p) true
  else
    let '(n, crossed, matured) :=
      observe_node (lt_grace t) (lt_unmeasured_hold_ticks t) e.2 (default new_node (lt_nodes t !! e.1)) in
    mkPass (with_nodes (<[e.1 := n]> (lt_nodes t)) t) ({[e.1]} ∪ ps_seen p) (crossing crossed e.1 (ps_crossed_violation p))
      (crossing matured e.1 (ps_crossed_unmeasured p)) (ps_saturated p).

Definition missed_node (presence : option (gset string)) (p : Pass) (fqn : string) : Pass :=
  let t := ps_tracker p in
  if bool_decide (fqn ∈ ps_seen p) then p
  else
    match lt_nodes t !! fqn with
    | None => p
    | Some n =>
        let owned := match presence with Some keys => bool_decide (fqn ∈ keys) | None => false end in
        let '(n, crossed, matured) :=
          miss_node (lt_grace t) (lt_absence_grace t) (lt_unmeasured_hold_ticks t) owned n in
        let nodes := if (lt_prune_ticks t <? ns_absent_ticks n) && is_idle n then delete fqn (lt_nodes t)
                     else <[fqn := n]> (lt_nodes t) in
        mkPass (with_nodes nodes t) (ps_seen p) (crossing crossed fqn (ps_crossed_violation p))
          (crossing matured fqn (ps_crossed_unmeasured p)) (ps_saturated p)
    end.

(** ** The report *)

Record LifecycleExpectationReport := mkExpectationReport {
  lr_affected : gmap string string;
  lr_newly_affected : list string;
  lr_unreadable_affected : gmap string string;
  lr_newly_unreadable : list string;
  lr_not_managed_affected : gmap string string;
  lr_newly_not_managed : list string;
  lr_pending : gset string;
  lr_pending_violation : gset string;
  lr_pending_violation_departed : gset string;
  lr_pending_unreadable : gset string;
  lr_pending_not_managed : gset string;
  lr_entries_matching_nothing : list string;
  lr_tracking_saturated : bool;
  lr_saturation_started : bool;
}.

Definition join_quoted (entries : list string) : string :=
  foldl (λ joined e, (if joined =?ₛ "" then "" else joined +:+ ", ") +:+ "'" +:+ e +:+ "'") "" entries.

Definition with_context (detail : string) (departed : bool) (n : NodeState) : string :=
  trim_to ((if departed then detail +:+ ", and has since left the graph" else detail) +:+
           " (required by " +:+ join_quoted (ns_entries n) +:+ ")") kMaxLifecycleDetailChars.

Definition inactive_detail (fqn : string) (n : NodeState) (departed : bool) : string :=
  with_context ("node " +:+ fqn +:+ " expected active but is " +:+ ns_last_label n) departed n.

Definition unmeasured_detail (fqn : string) (n : NodeState) (departed : bool) : string :=
  with_context ("node " +:+ fqn +:+ match ns_cause n with
                                    | CauseUnreadable => " expected active but its lifecycle state could not be read"
                                    | CauseNotManaged => " expected active but is not a managed lifecycle node"
                                    end) departed n.

(** Where the content pass puts a node. *)
Definition owned_by (cause : LifecycleUnmeasuredCause) (n : NodeState) : bool :=
  ns_unmeasured_matured n && bool_decide (ns_cause n = cause).

Definition confirmed_inactive (grace : Z) (n : NodeState) : bool :=
  negb (ns_unmeasured_matured n) && (ns_unmeasured_clock n =? 0) && (grace <? ns_violation_streak n).

Definition violation_pending (grace : Z) (n : NodeState) : bool :=
  negb (ns_unmeasured_matured n) && (0 <? ns_violation_streak n) && negb (confirmed_inactive grace n).

Definition unmeasured_pending (n : NodeState) : bool := negb (ns_unmeasured_matured n) && (0 <? ns_unmeasured_clock n).

Definition content (t : LifecycleExpectationTracker) (p : NodeState → bool) (detail : string → NodeState → bool → string)
    : gmap string string :=
  map_imap (λ fqn n, if p n then Some (detail fqn n (is_departed t n)) else None) (lt_nodes t).

(** The nodes that crossed, present ones first. *)
Definition newly (t : LifecycleExpectationTracker) (p : NodeState → bool) (crossed : gset string) : list string :=
  let l := filter (λ kn, p kn.2 = true ∧ kn.1 ∈ crossed) (map_entries (lt_nodes t)) in
  (filter (λ kn, is_departed t kn.2 = false) l).*1 ++ (filter (λ kn, is_departed t kn.2 = true) l).*1.

Definition nodes_where (t : LifecycleExpectationTracker) (p : NodeState → bool) : gset string :=
  dom (filter (λ kn, p kn.2 = true) (lt_nodes t)).

Definition kCollapsedKeyPrefix : string := "!departed: ".

Definition add_collapsed_content (count : Z) (left_as : string) (affected : gmap string string) : gmap string string :=
  if count <=? 0 then affected
  else
    <[kCollapsedKeyPrefix +:+ left_as :=
        trim_to ("and " +:+ pretty count +:+ " more required node(s) left the graph " +:+ left_as +:+
                 "; not named individually (tracked_node_cap is full)") kMaxLifecycleDetailChars]> affected.

(** The loop over the entries: counters, entries reported so far, and the list. *)
Definition entry_matched (matched : gset string) (warn_ticks : Z) (acc : gmap string Z * gset string * list string)
    (entry : string) : gmap string Z * gset string * list string :=
  let '(no_match, reported, nothing) := acc in
  if bool_decide (entry ∈ matched) then (<[entry := 0]> no_match, reported, nothing)
  else
    let n := default 0 (no_match !! entry) +ᵢ 1 in
    let no_match := <[entry := n]> no_match in
    if (warn_ticks <? n) && negb (bool_decide (entry ∈ reported)) then
      (no_match, {[entry]} ∪ reported, nothing ++ [entry])
    else (no_match, reported, nothing).

Definition expectations_update (matches : list LifecycleMatch) (presence : option (gset string))
    (t : LifecycleExpectationTracker) : LifecycleExpectationTracker * LifecycleExpectationReport :=
  let p := foldl matched_node (mkPass t ∅ ∅ ∅ false) (map_entries (collapse_matches matches)) in
  let p := foldl (missed_node presence) p (map_entries (lt_nodes (ps_tracker p))).*1 in
  let t := ps_tracker p in
  let inactive := confirmed_inactive (lt_grace t) in
  let saturated := ps_saturated p in
  let pending_violation := nodes_where t (violation_pending (lt_grace t)) in
  let '(no_match, reported, nothing) :=
    foldl (entry_matched (list_to_set (lm_entry <$> matches)) (lt_no_match_warn_ticks t))
      (lt_no_match t, lt_reported_no_match t, []) (set_entries (lt_require_active t)) in
  (mkExpectations (lt_require_active t) (lt_grace t) (lt_absence_grace t) (lt_no_match_warn_ticks t) (lt_prune_ticks t)
     (lt_unmeasured_hold_ticks t) (lt_tracked_node_cap t) (lt_nodes t) no_match reported saturated
     (lt_collapsed_inactive t) (lt_collapsed_unreadable t) (lt_collapsed_not_managed t),
   mkExpectationReport
     (add_collapsed_content (lt_collapsed_inactive t) "not active" (content t inactive inactive_detail))
     (newly t inactive (ps_crossed_violation p))
     (add_collapsed_content (lt_collapsed_unreadable t) "with an unread lifecycle state"
        (content t (owned_by CauseUnreadable) unmeasured_detail))
     (newly t (owned_by CauseUnreadable) (ps_crossed_unmeasured p))
     (add_collapsed_content (lt_collapsed_not_managed t) "unmanaged"
        (content t (owned_by CauseNotManaged) unmeasured_detail))
     (newly t (owned_by CauseNotManaged) (ps_crossed_unmeasured p))
     (pending_violation ∪ nodes_where t unmeasured_pending)
     pending_violation
     (nodes_where t (λ n, violation_pending (lt_grace t) n && is_departed t n))
     (nodes_where t (λ n, unmeasured_pending n && bool_decide (ns_cause n = CauseUnreadable)))
     (nodes_where t (λ n, unmeasured_pending n && bool_decide (ns_cause n = CauseNotManaged)))
     nothing saturated (saturated && negb (lt_saturated_last_tick t))).

(** ** The detector *)

Definition kNodeInactive : string := "GRAPH_NODE_INACTIVE".
Definition kNodeUnreadable : string := "GRAPH_NODE_UNREADABLE".
Definition kNodeNotManaged : string := "GRAPH_NODE_NOT_MANAGED".
Definition kConfirmedInactiveSeverity : Z := 2.
Definition kUnmeasuredSeverity : Z := 1.
Definition kDefaultGrace : Z := 5.
Definition kMaxGrace : Z := 300.
Definition kMaxPruneGrace : Z := 3600.

Record LifecycleExpectationDetector := mkExpectationDetector {
  le_require_active : gset string;
  le_ever_matched : gset string;
  le_unmatched_ticks : Z;
  le_tracker : LifecycleExpectationTracker;
}.

Definition new_expectation_detector : LifecycleExpectationDetector :=
  mkExpectationDetector ∅ ∅ 0 (new_expectations ∅ kDefaultGrace kDefaultAbsenceGrace kDefaultNoMatchWarnTicks int32_max
                                 kDefaultUnmeasuredHoldTicks kDefaultTrackedNodeCap).

Definition configure_expectation (config : config_value) : LifecycleExpectationDetector :=
  let require_active := nonempty_strings (config_get "require_active" config) in
  let grace := read_wide 0 kMaxGrace kDefaultGrace (config_get "grace" config) in
  let prune_grace := read_wide 0 kMaxPruneGrace kDefaultPruneGrace (config_get "prune_grace" config) in
  let tracked_node_cap :=
    read_wide kMinTrackedNodeCap kMaxTrackedNodeCap kDefaultTrackedNodeCap (config_get "tracked_node_cap" config) in
  mkExpectationDetector require_active ∅ 0
    (new_expectations require_active grace kDefaultAbsenceGrace kDefaultNoMatchWarnTicks prune_grace
       kDefaultUnmeasuredHoldTicks tracked_node_cap).

Definition named_by (id : string) (app : App) : bool :=
  (id =?ₛ app_id app) || (id =?ₛ effective_fqn app) || (id =?ₛ default (effective_fqn app) (leaf_of (effective_fqn app))).

Definition lifecycle_reading (gate : option ReliabilityGate) (app : App) : option string :=
  match gate with Some g => lifecycle_state_of (app_id app) g | None => None end.

Definition app_matches (gate : option ReliabilityGate) (require_active : gset string) (app : App) : list LifecycleMatch :=
  let fqn := effective_fqn app in
  if fqn =?ₛ "" then []
  else (λ id, mkMatch id fqn (lifecycle_reading gate app)) <$> filter (λ id, named_by id app = true) (set_entries require_active).

Definition find_matches (gate : option ReliabilityGate) (require_active : gset string) (apps : list App) : list LifecycleMatch :=
  apps ≫= app_matches gate require_active.

(** The requests of one tick, in order. *)
Record ExpectationRequests := mkRequests {
  er_unreadable : option Request;
  er_not_managed : option Request;
  er_inactive : option Request;
}.

(** [LifecycleExpectationDetector::tick]; no report if nothing is required. *)
Definition expectation_tick (ctx : DetectorContext) (d : LifecycleExpectationDetector)
    : LifecycleExpectationDetector * option LifecycleExpectationReport * ExpectationRequests :=
  if bool_decide (le_require_active d = ∅) then (d, None, mkRequests None None None)
  else
    let matches := find_matches (cx_gate ctx) (le_require_active d) (cx_apps ctx) in
    let ever_matched := le_ever_matched d ∪ list_to_set (lm_entry <$> matches) in
    let any_never_matched := (size ever_matched <? size (le_require_active d))%nat in
    let unmatched_ticks :=
      if negb any_never_matched then 0
      else if le_unmatched_ticks d <=? kDefaultUnmeasuredHoldTicks then le_unmatched_ticks d + 1
      else le_unmatched_ticks d in
    let unmatched_blocking :=
      any_never_matched && (1 <=? unmatched_ticks) && (unmatched_ticks <=? kDefaultUnmeasuredHoldTicks) in
    let '(tracker, report) := expectations_update matches (cx_presence_tracked ctx) (le_tracker d) in
    let unreadable := emit_ordered ctx kNodeUnreadable kUnmeasuredSeverity (lr_unreadable_affected report)
                        (lr_newly_unreadable report) in
    let not_managed := emit_ordered ctx kNodeNotManaged kUnmeasuredSeverity (lr_not_managed_affected report)
                         (lr_newly_not_managed report) in
    let withheld := bool_decide (lr_affected report = ∅) &&
                    (negb (bool_decide (lr_pending report = ∅)) || unmatched_blocking || lr_tracking_saturated report) in
    let inactive := if withheld then None
                    else emit_ordered ctx kNodeInactive kConfirmedInactiveSeverity (lr_affected report)
                           (lr_newly_affected report) in
    (mkExpectationDetector (le_require_active d) ever_matched unmatched_ticks tracker, Some report,
     mkRequests unreadable not_managed inactive).
