(* ===== verification/WatchdogPlugin.v ===== *)
(** * Graph watchdog: the plugin

    graph_watchdog_plugin.cpp and detector_config.hpp: reading the configuration,
    setting up the gate and the two presence-related detectors, and the tick.  The
    other detectors, the status route, the tick thread and its executors are not
    modelled. *)

From S2P Require Import Prelude WatchdogGate NodeDeath LifecycleExpectation.
Open Scope Z_scope.

(** ** Configuration *)

Definition detector_block (id : string) (config : config_value) : option (list (string * config_value)) :=
  match config_get "detectors" config with
  | Some (CObj detectors) => match find_key id detectors with Some (CObj fields) => Some fields | _ => None end
  | _ => None
  end.

Definition parse_detector_mode (config : config_value) (id : string) : DetectorMode :=
  match detector_block id config with
  | None => Raise
  | Some fields =>
      match find_key "mode" fields with
      | Some (CBool b) => if b then Raise else Off
      | Some (CStr s) => if s =?ₛ "raise" then Raise else if s =?ₛ "advisory" then Advisory
                         else if s =?ₛ "off" then Off else Raise
      | _ => Raise
      end
  end.

Definition extract_detector_config (config : config_value) (id : string) : list (string * config_value) :=
  match detector_block id config with
  | None => []
  | Some fields => filter (λ kv, kv.1 ≠ "mode") fields
  end.

Definition resolve_node_death_prune_grace (config : config_value) (plugin_prune_grace : Z) : Z :=
  read_wide 0 kMaxNodeDeathGraceTicks (Z.min plugin_prune_grace kMaxNodeDeathGraceTicks)
    (detector_block "node_death" config ≫= find_key "prune_grace").

(** [tick_interval_ms_], [warmup_cycles_] and [prune_grace_]. *)
Record Parameters := mkParameters { pm_tick_interval_ms : Z; pm_warmup_cycles : Z; pm_prune_grace : Z }.

Definition load_parameters (config : config_value) : Parameters :=
  mkParameters (read_wide 1 int32_max 1000 (config_get "tick_interval_ms" config))
    (read_wide 0 int32_max 5 (config_get "warmup_cycles" config))
    (read_wide 0 int32_max 60 (config_get "prune_grace" config)).

Definition compute_departed_retention_ticks (config : config_value) (p : Parameters) : Z :=
  let miss_grace := read_wide 0 kMaxNodeDeathGraceTicks 2 (detector_block "node_death" config ≫= find_key "miss_grace") in
  let prune_grace := resolve_node_death_prune_grace config (pm_prune_grace p) in
  let miss_grace := Z.max miss_grace (min_node_death_miss_grace (pm_tick_interval_ms p)) in
  Z.max prune_grace (miss_grace + 1) + miss_grace + 1.

(** The configurations handed to the detectors; the grace of the plugin is a
    default. *)
Definition injected_default (config : config_value) (id : string) (p : Parameters) : list (string * config_value) :=
  let dcfg := set_key "tick_interval_ms" (CInt (pm_tick_interval_ms p)) (extract_detector_config config id) in
  match find_key "prune_grace" dcfg with
  | Some _ => dcfg
  | None => set_key "prune_grace" (CInt (pm_prune_grace p)) dcfg
  end.

Definition injected_config (config : config_value) (p : Parameters) : config_value :=
  CObj (set_key "prune_grace" (CInt (resolve_node_death_prune_grace config (pm_prune_grace p)))
          (injected_default config "node_death" p)).

(** ** The plugin *)

(** [None] for a detector that is switched off. *)
Record GraphWatchdogPlugin := mkPlugin {
  gp_gate : ReliabilityGate;
  gp_node_death : option (NodeDeathDetector * DetectorMode);
  gp_expectation : option (LifecycleExpectationDetector * DetectorMode);
  gp_presence_tracked : option (gset string);
  gp_tick_count : Z;
}.

Definition switched_on {D} (mode : DetectorMode) (d : D) : option (D * DetectorMode) :=
  match mode with Off => None | _ => Some (d, mode) end.

Definition set_context (config : config_value) : GraphWatchdogPlugin :=
  let p := load_parameters config in
  mkPlugin (new_gate (pm_warmup_cycles p) (compute_departed_retention_ticks config p))
    (switched_on (parse_detector_mode config "node_death") (configure (injected_config config p) new_detector))
    (switched_on (parse_detector_mode config "lifecycle_expectation")
       (configure_expectation (CObj (injected_default config "lifecycle_expectation" p)))) None 0.

(** What one tick reports and sends. *)
Record TickOutput := mkOutput {
  to_dead : gmap string string;
  to_death : option Request;
  to_expectation : ExpectationRequests;
}.

(** One tick: the entity snapshot, unless reading it throws (the gate is then not
    fed and detectors see no apps), and whether the fault service is ready.  The
    detectors share nothing within a tick, so their order does not matter. *)
Definition plugin_tick (io : SweepIO) (snapshot : option (list App)) (ready : bool) (p : GraphWatchdogPlugin)
    : GraphWatchdogPlugin * TickOutput :=
  let tick := wrap_u64 (gp_tick_count p + 1) in
  let gate := match snapshot with Some apps => gate_update io apps tick (gp_gate p) | None => gp_gate p end in
  let context mode := mkContext (Some gate) mode true ready (default [] snapshot) (gp_presence_tracked p) in
  let '(node_death, dead, death) :=
    match gp_node_death p with
    | None => (None, ∅, None)
    | Some (d, mode) =>
        let '(d, _, dead, request) := detector_tick (context mode) d in (Some (d, mode), dead, request)
    end in
  let '(expectation, requests) :=
    match gp_expectation p with
    | None => (None, mkRequests None None None)
    | Some (d, mode) => let '(d, _, requests) := expectation_tick (context mode) d in (Some (d, mode), requests)
    end in
  let presence := match node_death with
                  | Some (d, mode) => if mode_emits mode then Some (nt_known (nd_tracker d)) else None
                  | None => None
                  end in
  (mkPlugin gate node_death expectation presence tick, mkOutput dead death requests).

(** Between ticks the plugin drains the transition events. *)
Definition plugin_event (id start_label goal_label : string) (p : GraphWatchdogPlugin) : GraphWatchdogPlugin :=
  mkPlugin (gate_transition id start_label goal_label (gp_gate p)) (gp_node_death p) (gp_expectation p)
    (gp_presence_tracked p) (gp_tick_count p).
