(* ===== verification/NodeTrackerSpec.v ===== *)
(** * The parts of the presence detector

    What the tracker knows after any sequence of sweeps, what its cap and its
    pruning forget, what the loop over the apps collects and what the suppressors
    leave of a report. *)

From stdpp Require Import pretty.
From S2P Require Import Prelude WatchdogGate NodeDeath.
Open Scope Z_scope.

(** ** Absences *)

(** Sweeps are listed newest first: for how many a key has been missing. *)
Fixpoint absent_for (key : string) (h : list Sweep) : Z :=
  match h with
  | [] => 0
  | sw :: h' => if bool_decide (key ∈ sw_present sw) then 0 else 1 + absent_for key h'
  end.

Definition admitted (key : string) (h : list Sweep) : Prop := Exists (λ sw, key ∈ sw_armed sw) h.

(** How often a key of one sweep was missing from the next. *)
Fixpoint departures (h : list Sweep) : Z :=
  match h with
  | sw :: ((prev :: _) as h') => Z.of_nat (size (sw_present prev ∖ sw_present sw)) + departures h'
  | _ => 0
  end.

Lemma absent_for_bounds key h : 0 ≤ absent_for key h ≤ Z.of_nat (length h).
Proof. induction h as [|sw h IH]; cbn [absent_for length]; [lia|]. case_bool_decide; lia. Qed.

Lemma departures_nonneg h : 0 ≤ departures h.
Proof. induction h as [|sw [|prev h] IH]; cbn [departures] in *; lia. Qed.

Lemma departures_cons sw h : departures h ≤ departures (sw :: h).
Proof. destruct h as [|prev h]; cbn [departures]; lia. Qed.

(** ** The tables of the tracker *)

Definition departed (t : NodeLivenessTracker) : gset string := dom (filter (λ kv, 0 < kv.2) (nt_misses t)).

Lemma elem_of_departed t k : k ∈ departed t ↔ ∃ m, nt_misses t !! k = Some m ∧ 0 < m.
Proof.
  unfold departed. rewrite elem_of_dom. unfold is_Some. split; intros [m Hm]; exists m.
  - by apply map_lookup_filter_Some in Hm.
  - by apply map_lookup_filter_Some.
Qed.

Lemma length_filter_entries {V} (P : string * V → Prop) `{∀ x, Decision (P x)} (m : gmap string V) :
  length (filter P (map_entries m)) = size (filter P m).
Proof.
  rewrite map_entries_perm, map_filter_alt, <-length_map_to_list. symmetry. apply Permutation_length, map_to_list_to_map.
  apply NoDup_fmap_filter, NoDup_fst_map_to_list.
Qed.

Lemma departed_count_size t : departed_count t = Z.of_nat (size (departed t)).
Proof. unfold departed_count, departed. by rewrite length_filter_entries, size_dom. Qed.

Lemma elem_of_matured t k : k ∈ matured t ↔ ∃ m, nt_misses t !! k = Some m ∧ nt_miss_grace t < m.
Proof.
  unfold matured. rewrite list_elem_of_fmap. split.
  - intros ([x m] & -> & [Hm Hx]%list_elem_of_filter). exists m. by apply elem_of_map_entries in Hx.
  - intros (m & Hx & Hm). exists (k, m). split; [done|]. apply list_elem_of_filter. split; [done|by apply elem_of_map_entries].
Qed.

Lemma NoDup_matured t : NoDup (matured t).
Proof. apply NoDup_fmap_filter, NoDup_map_entries_keys. Qed.

Lemma count_all present keys misses k :
  NoDup keys →
  foldl (count_miss present) misses keys !! k =
    if bool_decide (k ∈ keys) then Some (if bool_decide (k ∈ present) then 0 else default 0 (misses !! k) +ᵢ 1)
    else misses !! k.
Proof.
  revert misses. induction keys as [|x keys IH]; intros misses Hnd; cbn [foldl]; [done|].
  apply NoDup_cons in Hnd as [Hx Hnd]. rewrite IH by done. unfold count_miss at 1.
  destruct (decide (k = x)) as [->|Hne].
  - rewrite (bool_decide_eq_false_2 (x ∈ keys)) by done. rewrite bool_decide_eq_true_2 by left. apply lookup_insert_eq.
  - rewrite (bool_decide_ext (k ∈ keys) (k ∈ x :: keys)) by set_solver. unfold count_miss. rewrite lookup_insert_ne by done. done.
Qed.

(** Every operation but [tracker_update] only forgets keys. *)
Definition forgets (gone : gset string) (t t' : NodeLivenessTracker) : Prop :=
  nt_known t' = nt_known t ∖ gone ∧ (∀ k, nt_misses t' !! k = if bool_decide (k ∈ gone) then None else nt_misses t !! k) ∧
  nt_miss_grace t' = nt_miss_grace t ∧ nt_prune_ticks t' = nt_prune_ticks t ∧
  nt_tracked_key_cap t' = nt_tracked_key_cap t ∧ nt_saturated_last_tick t' = nt_saturated_last_tick t.

Lemma forgets_none t : forgets ∅ t t.
Proof. unfold forgets. split_and!; try done. set_solver. Qed.

Lemma forgets_trans g g' t t' t'' : forgets g t t' → forgets g' t' t'' → forgets (g ∪ g') t t''.
Proof.
  intros (K & M & A & B & C & D) (K' & M' & A' & B' & C' & D'). unfold forgets. split_and!; try congruence; [set_solver|].
  intros k. rewrite M', M. repeat case_bool_decide; done || set_solver.
Qed.

Lemma forget_key_forgets t k : forgets {[k]} t (forget_key t k).
Proof.
  unfold forgets, forget_key, with_keys; cbn. split_and!; try done. intros x. case_bool_decide as Hx.
  - apply elem_of_singleton in Hx as ->. apply lookup_delete_eq.
  - rewrite lookup_delete_ne; [done|set_solver].
Qed.

Lemma collapse_forgets l t :
  Z.of_nat (length l) + nt_collapsed_dead_count t ≤ int32_max → 0 ≤ nt_collapsed_dead_count t →
  let t' := foldl collapse_one t l in
  forgets (list_to_set l) t t' ∧ nt_collapsed_dead_count t' = nt_collapsed_dead_count t + Z.of_nat (length l).
Proof.
  revert t. induction l as [|k l IH]; intros t Hmax Hpos; cbn [foldl].
  { split; [|cbn; lia]. apply forgets_none. }
  cbn [length] in Hmax. assert (nt_collapsed_dead_count (collapse_one t k) = nt_collapsed_dead_count t + 1) as Hc.
  { cbn. apply wrap_i32_id. unfold in_i32, int32_min, int32_max in *. lia. }
  destruct (IH (collapse_one t k)) as [Hf Hn]; [lia|lia|]. split; [|cbn [length]; lia].
  cbn [list_to_set]. eapply forgets_trans; [|done]. exact (forget_key_forgets t k).
Qed.

Lemma forgets_departed g t t' : forgets g t t' → departed t' = departed t ∖ g.
Proof.
  intros (_ & M & _). apply set_eq. intros k. rewrite elem_of_difference, !elem_of_departed. setoid_rewrite M.
  case_bool_decide; naive_solver.
Qed.

Lemma matured_departed t k : 0 ≤ nt_miss_grace t → k ∈ matured t → k ∈ departed t.
Proof. rewrite elem_of_matured, elem_of_departed. intros ? (m & ? & ?). exists m. split; [done|lia]. Qed.

Lemma collapse_matured_spec keep t :
  0 ≤ nt_miss_grace t → 0 ≤ nt_collapsed_dead_count t →
  nt_collapsed_dead_count t + Z.of_nat (size (departed t)) ≤ int32_max →
  ∃ gone : gset string, (∀ k, k ∈ gone → k ∈ matured t) ∧ (keep = 0%nat → ∀ k, k ∈ matured t → k ∈ gone) ∧
    forgets gone t (collapse_matured keep t) ∧
    nt_collapsed_dead_count (collapse_matured keep t) = nt_collapsed_dead_count t + Z.of_nat (size gone).
Proof.
  intros Hgrace Hpos Hmax. set (l := drop keep (matured t)).
  assert (NoDup l) as Hnd by (eapply sublist_NoDup; [apply NoDup_matured|apply sublist_drop]).
  assert (∀ k, k ∈ l → k ∈ matured t) as Hsub by (intros k; unfold l; rewrite <-(take_drop keep (matured t)) at 2; set_solver).
  exists (list_to_set l). assert (size (list_to_set l : gset string) = length l) as Hsize by by apply size_list_to_set.
  assert (length l ≤ size (departed t))%nat.
  { rewrite <-Hsize. apply subseteq_size. intros k Hk%elem_of_list_to_set. by apply matured_departed, Hsub. }
  destruct (collapse_forgets (reverse l) t) as [Hf Hn]; [rewrite length_reverse; lia|done|].
  rewrite length_reverse in Hn. split_and!.
  - intros k Hk%elem_of_list_to_set. by apply Hsub.
  - intros -> k Hk. by apply elem_of_list_to_set.
  - unfold collapse_matured. fold l. replace (list_to_set l : gset string) with (list_to_set (reverse l) : gset string); [done|].
    apply set_eq. intros k. rewrite !elem_of_list_to_set. apply elem_of_reverse.
  - rewrite Hsize. exact Hn.
Qed.

(** What the cap does: matured keys may be folded into the count, and when the
    departed keys still exceed the cap no matured key is left. *)
Lemma enforce_spec t :
  0 ≤ nt_miss_grace t → 0 ≤ nt_collapsed_dead_count t →
  nt_collapsed_dead_count t + Z.of_nat (size (departed t)) ≤ int32_max →
  ∃ gone : gset string, (∀ k, k ∈ gone → k ∈ matured t ∧ nt_tracked_key_cap t < Z.of_nat (size (departed t))) ∧
    let '(t', saturated) := enforce_departed_cap t in
    forgets gone t t' ∧ nt_collapsed_dead_count t' = nt_collapsed_dead_count t + Z.of_nat (size gone) ∧
    if saturated : bool then matured t' = [] else Z.of_nat (size (departed t')) ≤ nt_tracked_key_cap t.
Proof.
  intros Hgrace Hpos Hmax. unfold enforce_departed_cap, over_cap. rewrite departed_count_size.
  destruct (_ <? _) eqn:E; bool_simpl; cbn [negb].
  2: { exists ∅. split; [set_solver|]. split_and!; [apply forgets_none|rewrite size_empty; lia|lia]. }
  destruct (collapse_matured_spec kMaxNamedDepartedEntries t) as (g & Hsub & _ & Hf & Hn); [done..|].
  set (t1 := collapse_matured kMaxNamedDepartedEntries t) in *. pose proof (forgets_departed _ _ _ Hf) as Hd.
  pose proof Hf as (_ & M & G & _ & C & _). rewrite departed_count_size, C.
  destruct (_ <? _) eqn:E1; bool_simpl; cbn [negb]; [|exists g; split; [|done]; intros k Hk; split; [by apply Hsub|lia]].
  assert (size (departed t1) + size g = size (departed t))%nat as Hsize.
  { rewrite Hd, <-size_union by set_solver. f_equal. apply set_eq. intros k. rewrite elem_of_union, elem_of_difference.
    split; [intros [?|?]; [naive_solver|by apply matured_departed, Hsub]|]. destruct (decide (k ∈ g)); naive_solver. }
  destruct (collapse_matured_spec 0 t1) as (g' & Hsub' & Hall & Hf' & Hn'); [lia..|].
  set (t2 := collapse_matured 0 t1) in *. pose proof Hf' as (_ & M' & G' & _ & C' & _).
  exists (g ∪ g'). split.
  { intros k Hk. split; [|lia]. apply elem_of_union in Hk as [?|Hk%Hsub']; [by apply Hsub|]. rewrite elem_of_matured in Hk |- *. destruct Hk as (m & Hm & Hlt).
    rewrite M in Hm. case_bool_decide; [done|]. exists m. split; [done|lia]. }
  split_and!.
  - by eapply forgets_trans.
  - rewrite Hn', Hn, size_union; [lia|]. intros k Hk Hk'%Hsub'. rewrite elem_of_matured in Hk'. destruct Hk' as (m & Hm & _).
    rewrite M, bool_decide_eq_true_2 in Hm by done. done.
  - rewrite departed_count_size, C', C. destruct (_ <? _) eqn:E2; bool_simpl; [|done].
    apply elem_of_nil_inv. intros k Hk. assert (k ∈ matured t1) as Hk1.
    { rewrite elem_of_matured in Hk |- *. destruct Hk as (m & Hm & Hlt). rewrite M' in Hm. case_bool_decide; [done|].
      exists m. split; [done|lia]. }
    rewrite elem_of_matured in Hk. destruct Hk as (m & Hm & _). rewrite M', bool_decide_eq_true_2 in Hm; [done|by apply Hall].
Qed.

(** ** Tracking *)

(** The tracker after the sweeps [h]. *)
Definition tracks (t : NodeLivenessTracker) (h : list Sweep) : Prop :=
  0 ≤ nt_miss_grace t ∧ (∀ k, k ∈ nt_known t ↔ is_Some (nt_misses t !! k)) ∧
  (∀ k m, nt_misses t !! k = Some m → m = absent_for k h ∧ admitted k h) ∧
  0 ≤ nt_collapsed_dead_count t ∧ nt_collapsed_dead_count t + Z.of_nat (size (departed t)) ≤ departures h.

Lemma forgets_tracks g t t' h :
  forgets g t t' → nt_collapsed_dead_count t' = nt_collapsed_dead_count t → tracks t h → tracks t' h.
Proof.
  intros Hf Hc (Hg & Hk & Hm & Hpos & Hn). pose proof (forgets_departed _ _ _ Hf) as Hd. destruct Hf as (K & M & G & _).
  unfold tracks. rewrite Hc, Hd, G. split_and!; [done|..|done|].
  - intros k. rewrite K, M, elem_of_difference, Hk. case_bool_decide; unfold is_Some; naive_solver.
  - intros k m. rewrite M. case_bool_decide; [done|]. apply Hm.
  - assert (size (departed t ∖ g) ≤ size (departed t))%nat by (apply subseteq_size; set_solver). lia.
Qed.

Definition counted (sw : Sweep) (t : NodeLivenessTracker) : NodeLivenessTracker :=
  let known := nt_known t ∪ sw_armed sw in
  with_keys known (foldl (count_miss (sw_present sw)) (nt_misses t) (set_entries known)) (nt_suppressed_streak t) t.

Lemma counted_misses sw t h k :
  tracks t h → sw_armed sw ⊆ sw_present sw → Z.of_nat (length (sw :: h)) ≤ int32_max →
  nt_misses (counted sw t) !! k =
    if bool_decide (k ∈ nt_known t ∪ sw_armed sw) then Some (absent_for k (sw :: h)) else None.
Proof.
  intros (_ & Hk & Hm & _) Harm Hlen. cbn [counted with_keys nt_misses]. rewrite count_all by apply NoDup_set_entries.
  rewrite (bool_decide_ext (k ∈ set_entries _) (k ∈ nt_known t ∪ sw_armed sw)) by apply elem_of_set_entries.
  case_bool_decide as Hin.
  - cbn [absent_for]. case_bool_decide as Hp; [done|]. f_equal. assert (k ∈ nt_known t) as [m Hl]%Hk by set_solver.
    rewrite Hl. cbn. apply Hm in Hl as [-> _]. pose proof (absent_for_bounds k h). cbn [length] in Hlen.
    rewrite wrap_i32_id; [lia|]. unfold in_i32, int32_min, int32_max in *. lia.
  - apply eq_None_not_Some. rewrite <-Hk. set_solver.
Qed.

Lemma counted_tracks sw t h :
  tracks t h → sw_armed sw ⊆ sw_present sw → Z.of_nat (length (sw :: h)) ≤ int32_max → tracks (counted sw t) (sw :: h).
Proof.
  intros Ht Harm Hlen. pose proof Ht as (Hg & Hk & Hm & Hpos & Hn).
  pose proof (λ k, counted_misses sw t h k Ht Harm Hlen) as Hmiss. split_and!; [done|..|done|].
  - intros k. rewrite Hmiss. cbn. case_bool_decide; unfold is_Some; naive_solver.
  - intros k m. rewrite Hmiss. case_bool_decide as Hin; [|done]. intros [= <-]. split; [done|]. unfold admitted.
    apply Exists_cons. apply elem_of_union in Hin as [[m Hl]%Hk|]; [|by left]. right. by apply Hm in Hl as [_ ?].
  - assert (departed (counted sw t) ⊆ departed t ∪ (from_option sw_present ∅ (head h) ∖ sw_present sw)) as Hsub.
    { intros k (m & Hl & Hpm)%elem_of_departed. rewrite Hmiss in Hl. case_bool_decide as Hin; [|done]. injection Hl as <-.
      cbn [absent_for] in Hpm. case_bool_decide as Hp; [lia|]. assert (k ∈ nt_known t) as [m Hl]%Hk by set_solver.
      destruct (Hm _ _ Hl) as [-> Hadm]. rewrite elem_of_union, elem_of_departed. destruct h as [|prev h]; [by inversion Hadm|].
      cbn [absent_for head from_option] in *. case_bool_decide; [right; set_solver|left; eexists; split; [done|]].
      pose proof (absent_for_bounds k h). lia. }
    apply subseteq_size in Hsub. pose proof (size_union_alt (departed t) (from_option sw_present ∅ (head h) ∖ sw_present sw)) as Hu.
    assert (size ((from_option sw_present ∅ (head h) ∖ sw_present sw) ∖ departed t) ≤
            size (from_option sw_present ∅ (head h) ∖ sw_present sw))%nat as Hle by (apply subseteq_size; set_solver).
    change (nt_collapsed_dead_count (counted sw t)) with (nt_collapsed_dead_count t).
    destruct h as [|prev h]; cbn [departures head from_option] in *; [|lia].
    assert (size ((∅ : gset string) ∖ sw_present sw) = 0)%nat as Hz by (rewrite difference_empty_l_L || (apply size_empty_iff; set_solver)). lia.
Qed.

Lemma forgets_departed_size g t t' :
  forgets g t t' → g ⊆ departed t → (size (departed t') + size g = size (departed t))%nat.
Proof.
  intros Hf Hsub. rewrite (forgets_departed _ _ _ Hf), <-size_union by set_solver. f_equal. apply set_eq. intros k.
  rewrite elem_of_union, elem_of_difference. destruct (decide (k ∈ g)); set_solver.
Qed.

(** What the sweep folds into the count: keys that were tracked, were admitted and
    have matured, and none while the tracked keys are within the cap. *)
Definition folds (sw : Sweep) (h : list Sweep) (t t' : NodeLivenessTracker) : Prop :=
  ∃ gone : gset string,
    nt_collapsed_dead_count t' = nt_collapsed_dead_count t + Z.of_nat (size gone) ∧
    nt_known t' = (nt_known t ∪ sw_armed sw) ∖ gone ∧
    ∀ k, k ∈ gone → k ∈ nt_known t ∧ admitted k (sw :: h) ∧ nt_miss_grace t < absent_for k (sw :: h) ∧
      nt_tracked_key_cap t < Z.of_nat (size (nt_known t ∪ sw_armed sw)).

(** The tracker when the report is built. *)
Lemma enforced_tracks sw t h :
  tracks t h → sw_armed sw ⊆ sw_present sw → Z.of_nat (length (sw :: h)) ≤ int32_max → departures (sw :: h) ≤ int32_max →
  let '(t', saturated) := enforce_departed_cap (counted sw t) in
  tracks t' (sw :: h) ∧ nt_miss_grace t' = nt_miss_grace t ∧ nt_prune_ticks t' = nt_prune_ticks t ∧
  nt_tracked_key_cap t' = nt_tracked_key_cap t ∧
  nt_known t' ⊆ nt_known t ∪ sw_armed sw ∧
  (∀ k, k ∈ nt_known t ∪ sw_armed sw → k ∈ nt_known t' ∨ 0 < nt_collapsed_dead_count t') ∧
  nt_collapsed_dead_count t ≤ nt_collapsed_dead_count t' ∧
  (nt_collapsed_dead_count t < nt_collapsed_dead_count t' →
   ∃ k, admitted k (sw :: h) ∧ nt_miss_grace t < absent_for k (sw :: h)) ∧
  folds sw h t t' ∧
  if saturated : bool then (∀ k, k ∈ nt_known t' → absent_for k (sw :: h) ≤ nt_miss_grace t)
  else Z.of_nat (size (departed t')) ≤ nt_tracked_key_cap t.
Proof.
  intros Ht Harm Hlen Hdep. pose proof (counted_tracks sw t h Ht Harm Hlen) as Ht1.
  pose proof Ht1 as (Hg & Hk & Hm & Hpos & Hn). destruct (enforce_spec (counted sw t)) as (gone & Hsub & H); [done|done|lia|].
  destruct (enforce_departed_cap (counted sw t)) as [t' saturated]. destruct H as (Hf & Hc & Hsat).
  assert (gone ⊆ departed (counted sw t)) as Hgone by (intros k Hx; by apply matured_departed, Hsub).
  pose proof (forgets_departed_size _ _ _ Hf Hgone) as Hsize. pose proof Hf as (K & M & G & P & C & _).
  assert (tracks t' (sw :: h)) as Ht'.
  { unfold tracks. rewrite G. split_and!; [done|..|lia|lia].
    - intros k. rewrite K, M, elem_of_difference, Hk. case_bool_decide; unfold is_Some; naive_solver.
    - intros k m. rewrite M. case_bool_decide; [done|]. apply Hm. }
  change (nt_collapsed_dead_count (counted sw t)) with (nt_collapsed_dead_count t) in *.
  split_and!; [done|done|done|done| | |lia| | |].
  - rewrite K. cbn. set_solver.
  - intros k Hin. rewrite K. cbn. destruct (decide (k ∈ gone)) as [Hgo|]; [|left; set_solver]. right.
    assert (size gone ≠ 0)%nat by (apply size_non_empty_iff; set_solver). lia.
  - intros Hlt. assert (size gone ≠ 0)%nat as [k Hk']%size_non_empty_iff%set_choose by lia.
    apply Hsub in Hk' as [(m & Hl & Hlt')%elem_of_matured _]. exists k. destruct (Hm _ _ Hl) as [-> ?]. done.
  - exists gone. split_and!; [done|by rewrite K|]. intros k Hk'. destruct (Hsub k Hk') as [(m & Hl & Hlt')%elem_of_matured Hcap].
    destruct (Hm _ _ Hl) as [-> ?]. split_and!; [|done|done|].
    + assert (k ∈ nt_known (counted sw t)) as Hkn by (apply Hk; by eexists). cbn in Hkn.
      apply elem_of_union in Hkn as [?|Hx%Harm]; [done|]. cbn [absent_for] in Hlt'. rewrite bool_decide_eq_true_2 in Hlt' by done.
      cbn in Hlt', Hg. lia.
    + cbn in Hcap. assert (size (departed (counted sw t)) ≤ size (nt_known t ∪ sw_armed sw))%nat; [|lia].
      apply subseteq_size. intros x (m & Hx & _)%elem_of_departed. assert (x ∈ nt_known (counted sw t)) by (apply Hk; by eexists). done.
  - destruct saturated; [|done]. intros k Hk'. destruct Ht' as (_ & Hk2 & Hm2 & _). apply Hk2 in Hk' as [m Hl].
    destruct (Hm2 _ _ Hl) as [-> _]. destruct (decide (absent_for k (sw :: h) ≤ nt_miss_grace t)); [done|].
    exfalso. assert (k ∈ matured t') as Hx; [|rewrite Hsat in Hx; set_solver]. apply elem_of_matured. eexists.
    split; [done|]. rewrite G. cbn [nt_miss_grace counted with_keys]. lia.
Qed.

(** ** The report *)

Lemma elem_of_dead_entries t h m k :
  tracks t h → (m, k) ∈ dead_entries t ↔ k ∈ nt_known t ∧ m = absent_for k h ∧ nt_miss_grace t < m.
Proof.
  intros (_ & Hk & Hm & _). unfold dead_entries. rewrite list_elem_of_omap. split.
  - intros (x & Hx%elem_of_set_entries & He). pose proof Hx as [n Hn]%Hk. rewrite Hn in He. cbn in He.
    destruct (_ <? _) eqn:E; [|done]. injection He as <- <-. bool_simpl. destruct (Hm _ _ Hn) as [-> _]. done.
  - intros (Hx & -> & Hlt). exists k. split; [by apply elem_of_set_entries|]. apply Hk in Hx as [n Hn]. rewrite Hn.
    destruct (Hm _ _ Hn) as [-> _]. cbn. by rewrite (proj2 (Z.ltb_lt _ _) Hlt).
Qed.

Lemma NoDup_dead_entries t : NoDup (dead_entries t).*2.
Proof.
  unfold dead_entries. pose proof (NoDup_set_entries (nt_known t)) as Hnd. induction Hnd as [|x l Hx Hnd IH]; [constructor|].
  cbn. destruct (_ <? _); [|done]. cbn. constructor; [|done]. intros ([m k] & Heq & Hin)%list_elem_of_fmap. cbn in Heq. subst k.
  apply list_elem_of_omap in Hin as (y & Hy & He). destruct (_ <? _); [|done]. by injection He as _ ->.
Qed.


Lemma lookup_named l (m0 : gmap string string) k v :
  NoDup l.*2 → foldl (λ m e, <[e.2 := death_text e.2 e.1]> m) m0 l !! k = Some v ↔
    (∃ n, (n, k) ∈ l ∧ v = death_text k n) ∨ (k ∉ l.*2 ∧ m0 !! k = Some v).
Proof.
  revert m0. induction l as [|[n x] l IH]; intros m0; cbn [foldl]; [intros _; set_solver|].
  rewrite fmap_cons, NoDup_cons. cbn. intros [Hx Hnd]. rewrite IH by done. destruct (decide (k = x)) as [->|Hne].
  - rewrite lookup_insert_eq. split.
    + intros [(n' & Hin & _)|[_ [= <-]]]; [destruct Hx; by apply (list_elem_of_fmap_2 snd _ _ Hin)|left; exists n; set_solver].
    + intros [(n' & [[= ->]|Hin]%elem_of_cons & ->)|[? _]]; [by right|destruct Hx; by apply (list_elem_of_fmap_2 snd _ _ Hin)|set_solver].
  - rewrite lookup_insert_ne by done. set_solver.
Qed.

Lemma update_spec sw t h :
  tracks t h → sw_armed sw ⊆ sw_present sw → Z.of_nat (length (sw :: h)) ≤ int32_max → departures (sw :: h) ≤ int32_max →
  let '(t', r) := tracker_update (sw_present sw) (sw_armed sw) t in
  (tracks t' (sw :: h) ∧ nt_miss_grace t' = nt_miss_grace t ∧ nt_prune_ticks t' = nt_prune_ticks t ∧
   nt_tracked_key_cap t' = nt_tracked_key_cap t ∧
   nt_known t' ⊆ nt_known t ∪ sw_armed sw ∧
   (∀ k, k ∈ nt_known t ∪ sw_armed sw → k ∈ nt_known t' ∨ 0 < nt_collapsed_dead_count t') ∧
   nt_collapsed_dead_count t ≤ nt_collapsed_dead_count t' ∧
   (nt_collapsed_dead_count t < nt_collapsed_dead_count t' →
    ∃ k, admitted k (sw :: h) ∧ nt_miss_grace t < absent_for k (sw :: h)) ∧
   folds sw h t t' ∧
   if rp_tracking_saturated r then (∀ k, k ∈ nt_known t' → absent_for k (sw :: h) ≤ nt_miss_grace t)
   else Z.of_nat (size (departed t')) ≤ nt_tracked_key_cap t) ∧
  ∀ k v, rp_dead r !! k = Some v ↔
    (k = kCollapsedKey ∧ 0 < nt_collapsed_dead_count t' ∧ v = collapsed_text (nt_collapsed_dead_count t')) ∨
    (¬ (k = kCollapsedKey ∧ 0 < nt_collapsed_dead_count t') ∧ k ∈ nt_known t' ∧
     nt_miss_grace t < absent_for k (sw :: h) ∧ v = death_text k (absent_for k (sw :: h))).
Proof.
  intros Ht Harm Hlen Hdep. pose proof (enforced_tracks sw t h Ht Harm Hlen Hdep) as H. unfold tracker_update.
  change (with_keys _ _ _ t) with (counted sw t). destruct (enforce_departed_cap (counted sw t)) as [t1 saturated].
  destruct H as (Ht1 & G & P & C & A1 & A2 & A3 & A4 & A5 & A6).
  assert (∀ k v, named_deaths (dead_entries t1) !! k = Some v ↔
            k ∈ nt_known t1 ∧ nt_miss_grace t < absent_for k (sw :: h) ∧ v = death_text k (absent_for k (sw :: h))) as Hnamed.
  { intros k v. unfold named_deaths. rewrite lookup_named by apply NoDup_dead_entries. rewrite lookup_empty.
    setoid_rewrite (elem_of_dead_entries t1 (sw :: h)); [|done]. rewrite G. naive_solver. }
  destruct (0 <? nt_collapsed_dead_count t1) eqn:E; bool_simpl; cbn [nt_miss_grace nt_known nt_collapsed_dead_count rp_dead];
    (split; [split_and!; [exact Ht1|done..]|]); intros k v.
  - destruct (decide (k = kCollapsedKey)) as [->|Hne].
    + rewrite lookup_insert_eq. naive_solver.
    + rewrite lookup_insert_ne, Hnamed by done. naive_solver.
  - rewrite Hnamed. split; [intros ?; right; split; [lia|done]|]. intros [(_ & ? & _)|[_ ?]]; [lia|done].
Qed.

(** ** Pruning *)

Lemma prune_keys suppressed l t :
  NoDup l → 0 ≤ nt_prune_ticks t →
  ∃ gone, gone ⊆ suppressed ∧ gone ⊆ list_to_set l ∧ forgets gone t (foldl (prune_key suppressed) t l) ∧
    nt_collapsed_dead_count (foldl (prune_key suppressed) t l) = nt_collapsed_dead_count t.
Proof.
  revert t. induction l as [|k l IH]; intros t Hnd Hp; cbn [foldl].
  { exists ∅. split_and!; [set_solver|set_solver|apply forgets_none|done]. }
  apply NoDup_cons in Hnd as [Hk Hnd].
  assert (∃ g : gset string, g ⊆ suppressed ∧ g ⊆ {[k]} ∧ forgets g t (prune_key suppressed t k) ∧
            nt_collapsed_dead_count (prune_key suppressed t k) = nt_collapsed_dead_count t) as (g & Hs & Hkk & Hf & Hc).
  { unfold prune_key. case_bool_decide as Hin.
    - destruct (_ <? _); [exists {[k]}; split_and!; [set_solver|set_solver|apply forget_key_forgets|done]|].
      exists ∅. split_and!; [set_solver|set_solver| |done]. exact (forgets_none t).
    - destruct (_ <? _) eqn:E; bool_simpl; [lia|]. exists ∅. split_and!; [set_solver|set_solver| |done]. exact (forgets_none t). }
  destruct (IH (prune_key suppressed t k) Hnd) as (g' & Hs' & Hl & Hf' & Hc'); [by destruct Hf as (_ & _ & _ & -> & _)|].
  exists (g ∪ g'). split_and!; [set_solver|set_solver|by eapply forgets_trans|congruence].
Qed.

Lemma tracker_prune_spec suppressed t :
  0 ≤ nt_prune_ticks t →
  ∃ gone, gone ⊆ suppressed ∧ forgets gone t (tracker_prune suppressed t) ∧
    nt_collapsed_dead_count (tracker_prune suppressed t) = nt_collapsed_dead_count t.
Proof.
  intros Hp. destruct (prune_keys suppressed (set_entries (nt_known t)) t) as (g & ? & _ & ? & ?); [apply NoDup_set_entries|done|].
  by exists g.
Qed.

Lemma release_spec l t :
  forgets (list_to_set l) t (foldl (λ t key, release key t) t l) ∧
  nt_collapsed_dead_count (foldl (λ t key, release key t) t l) = nt_collapsed_dead_count t.
Proof.
  revert t. induction l as [|k l IH]; intros t; cbn [foldl]; [by split; [apply forgets_none|]|].
  destruct (IH (release k t)) as [Hf Hc]. split; [|exact Hc]. cbn [list_to_set]. eapply forgets_trans; [|done].
  apply forget_key_forgets.
Qed.

(** ** The sweep over the apps *)

(** Some app runs under the name. *)
Definition online (key : string) (apps : list App) : Prop :=
  ∃ app, app ∈ apps ∧ watched_key app = Some key ∧ app_is_online app = true.

(** An app of the name has an id on the allowlist. *)
Definition id_listed (key : string) (allowlist : option (gset string)) (apps : list App) : Prop :=
  ∃ app allow, app ∈ apps ∧ watched_key app = Some key ∧ allowlist = Some allow ∧ app_id app ∈ allow.

Definition same_rules (d d' : NodeDeathDetector) : Prop :=
  nd_tracker d' = nd_tracker d ∧ nd_chain d' = nd_chain d ∧ nd_allowlist d' = nd_allowlist d ∧
  nd_durably_suppressed d' = nd_durably_suppressed d ∧ nd_ever_raised d' = nd_ever_raised d.

Lemma by_ownership_spec gate key id d sw :
  let '(d', sw') := by_ownership gate key id d sw in
  same_rules d d' ∧ nd_id_allowlisted d' = nd_id_allowlisted d ∧ sw_present sw' = sw_present sw ∧ sw_seen sw' = sw_seen sw ∧
  sw_armed sw ⊆ sw_armed sw' ⊆ {[key]} ∪ sw_armed sw ∧ sw_handed_back sw' ⊆ {[key]} ∪ sw_handed_back sw.
Proof.
  unfold by_ownership. destruct (ownership gate id).
  - unfold same_rules. split_and!; done || set_solver.
  - case_bool_decide; unfold same_rules; cbn; split_and!; done || set_solver.
  - case_bool_decide; unfold same_rules; cbn; split_and!; done || set_solver.
  - destruct (_ && _); [destruct (_ <=? _)|]; unfold same_rules; cbn; split_and!; done || set_solver.
Qed.

Lemma end_no_record_run_same gate key id d :
  same_rules d (end_no_record_run gate key id d) ∧ nd_id_allowlisted (end_no_record_run gate key id d) = nd_id_allowlisted d.
Proof. unfold end_no_record_run, same_rules. destruct gate; [destruct (_ && _)|]; cbn; done. Qed.

Lemma capture_id_match_spec key id d :
  let d' := capture_id_match key id d in
  same_rules d d' ∧
  (∀ k, k ∈ nd_id_allowlisted d' → k ∈ nd_id_allowlisted d ∨ (k = key ∧ ∃ allow, nd_allowlist d = Some allow ∧ id ∈ allow)) ∧
  (∀ k, k ≠ key → k ∈ nd_id_allowlisted d → k ∈ nd_id_allowlisted d').
Proof.
  unfold capture_id_match, same_rules. destruct (nd_allowlist d) as [allow|] eqn:E; cbn; [|set_solver].
  rewrite E. split; [done|]. case_bool_decide; split; intros k; set_solver.
Qed.

Record observed (d : NodeDeathDetector) (apps : list App) (d' : NodeDeathDetector) (sw : Sweep) : Prop := {
  ob_rules : same_rules d d';
  ob_present k : k ∈ sw_present sw ↔ online k apps;
  ob_armed : sw_armed sw ⊆ sw_present sw;
  ob_handed_back : sw_handed_back sw ⊆ sw_present sw;
  ob_ids k : k ∈ nd_id_allowlisted d' → k ∈ nd_id_allowlisted d ∨ id_listed k (nd_allowlist d) apps;
  ob_ids_kept k : ¬ online k apps → k ∈ nd_id_allowlisted d → k ∈ nd_id_allowlisted d';
}.

Lemma online_snoc k apps app : online k (apps ++ [app]) ↔ online k apps ∨ (watched_key app = Some k ∧ app_is_online app = true).
Proof.
  unfold online. setoid_rewrite elem_of_app. setoid_rewrite list_elem_of_singleton. naive_solver.
Qed.

Lemma id_listed_snoc k allowlist apps app : id_listed k allowlist apps → id_listed k allowlist (apps ++ [app]).
Proof. intros (a & allow & Ha & H). exists a, allow. split; [by apply elem_of_app; left|done]. Qed.

Lemma observe_app_ok gate d apps acc app :
  observed d apps acc.1 acc.2 → observed d (apps ++ [app]) (observe_app gate acc app).1 (observe_app gate acc app).2.
Proof.
  destruct acc as [d1 sw]. cbn [fst snd]. intros [Hr Hp Ha Hb Hi Hik]. unfold observe_app.
  destruct (watched_key app) as [key|] eqn:Ew; cycle 1.
  { constructor; cbn [fst snd]; try done; [intros k; rewrite online_snoc, Hp; naive_solver|..].
    - intros k [?|?]%Hi; [by left|right; by apply id_listed_snoc].
    - intros k Hk. apply Hik. rewrite online_snoc in Hk. naive_solver. }
  destruct (app_is_online app) eqn:Eo; cbn [negb]; cycle 1.
  { constructor; cbn [fst snd]; try done; [intros k; rewrite online_snoc; cbn; rewrite Hp; split; [by left|intros [?|[_ ?]]; [done|congruence]]|..].
    - intros k [?|?]%Hi; [by left|right; by apply id_listed_snoc].
    - intros k Hk. apply Hik. rewrite online_snoc in Hk. naive_solver. }
  pose proof (end_no_record_run_same gate key (app_id app) d1) as [Hr2 Hi2].
  set (d2 := end_no_record_run gate key (app_id app) d1) in *.
  pose proof (by_ownership_spec gate key (app_id app) d2 (see_online key (see key sw))) as H3.
  destruct (by_ownership _ _ _ _ _) as [d3 sw3]. destruct H3 as (Hr3 & Hi3 & Hp3 & _ & Ha3 & Hb3).
  pose proof (capture_id_match_spec key (app_id app) d3) as (Hr4 & Hi4 & Hk4). set (d4 := capture_id_match _ _ d3) in *.
  cbn [fst snd]. constructor.
  - unfold same_rules in *. naive_solver congruence.
  - intros k. rewrite Hp3. cbn. rewrite online_snoc, elem_of_union, Hp, elem_of_singleton. naive_solver.
  - rewrite Hp3. cbn in *. set_solver.
  - rewrite Hp3. cbn in *. set_solver.
  - intros k [Hk|(-> & allow & Hal & Hid)]%Hi4.
    + rewrite Hi3, Hi2 in Hk. apply Hi in Hk as [?|?]; [by left|right; by apply id_listed_snoc].
    + right. exists app, allow. split; [apply elem_of_app; right; set_solver|]. split_and!; [done| |done].
      unfold same_rules in *. destruct Hr as (_ & _ & <- & _), Hr2 as (_ & _ & <- & _), Hr3 as (_ & _ & <- & _). done.
  - intros k. rewrite online_snoc. intros Hk Hid. apply Hk4; [naive_solver|]. rewrite Hi3, Hi2. apply Hik; naive_solver.
Qed.

Lemma observe_ok gate apps d : observed d apps (observe gate apps d).1 (observe gate apps d).2.
Proof.
  unfold observe. induction apps as [|app apps IH] using rev_ind.
  - constructor; cbn; try done; [|set_solver..]. intros k. split; [set_solver|]. intros (a & Ha & _). set_solver.
  - rewrite foldl_snoc. by apply observe_app_ok.
Qed.

(** A node that reads active, or one never withheld, is admitted when earned. *)
Lemma earned_arms gate key id d sw :
  ownership gate id = kEarned → reads_active gate id = true ∨ key ∉ nd_released d →
  key ∈ sw_armed (by_ownership gate key id d sw).2.
Proof.
  intros He Hr. unfold by_ownership. rewrite He. destruct Hr as [->|Hr].
  - rewrite andb_false_r. cbn. set_solver.
  - rewrite bool_decide_eq_false_2 by done. cbn. set_solver.
Qed.

(** ** Suppression *)

Definition vetoed (chain : list Suppressor) (gate : option ReliabilityGate) (key : string) : bool :=
  existsb (suppresses gate key) chain.

Lemma find_vetoed chain gate key : vetoed chain gate key = bool_decide (is_Some (List.find (suppresses gate key) chain)).
Proof.
  unfold vetoed. induction chain as [|s chain IH]; cbn; [done|]. destruct (suppresses gate key s); cbn; [done|exact IH].
Qed.

Lemma suppress_keys gate d l m D :
  NoDup l → let '(m', D') := foldl (suppress_key gate d) (m, D) l in
  (∀ k v, m' !! k = Some v ↔
     m !! k = Some v ∧ (k ∈ l → k ∉ nd_id_allowlisted d ∧ k ∉ D ∧ vetoed (nd_chain d) gate k = false)) ∧
  (∀ k, k ∈ D' ↔ k ∈ D ∨ (k ∈ l ∧ k ∉ nd_id_allowlisted d ∧ vetoed (nd_chain d) gate k = true)).
Proof.
  revert m D. induction l as [|x l IH]; intros m D Hnd; cbn [foldl]; [set_solver|].
  apply NoDup_cons in Hnd as [Hx Hnd].
  assert (∃ m1 D1, suppress_key gate d (m, D) x = (m1, D1) ∧
    (∀ k v, m1 !! k = Some v ↔
       m !! k = Some v ∧ (k = x → x ∉ nd_id_allowlisted d ∧ x ∉ D ∧ vetoed (nd_chain d) gate x = false)) ∧
    (∀ k, k ∈ D1 ↔ k ∈ D ∨ (k = x ∧ x ∉ nd_id_allowlisted d ∧ vetoed (nd_chain d) gate x = true))) as (m1 & D1 & -> & H1 & H2).
  { unfold suppress_key. rewrite find_vetoed. destruct (List.find _ _) as [s|] eqn:Ef.
    - replace (durable s) with true by by destruct s. do 2 case_bool_decide; cbn [orb]; do 2 eexists; (split; [done|]); (split;
        [intros k v; rewrite lookup_delete_Some; naive_solver|intros k; try (rewrite elem_of_union, elem_of_singleton); naive_solver]).
    - do 2 case_bool_decide; cbn [orb]; do 2 eexists; (split; [done|]); (split;
        [intros k v; rewrite ?lookup_delete_Some; naive_solver|intros k; naive_solver]). }
  specialize (IH m1 D1 Hnd). destruct (foldl _ _ _) as [m' D']. destruct IH as [I1 I2]. split.
  - intros k v. rewrite I1, H1, elem_of_cons. setoid_rewrite H2. destruct (decide (k = x)) as [->|Hne].
    + split; [intros [[? A] _]; split; [done|]; intros _; by apply A|]. intros [? A]. split; [|done]. split; [done|].
      intros _. apply A. by left.
    + split.
      * intros [[? _] B]. split; [done|]. intros [?|Hl]; [done|]. destruct (B Hl) as (? & HD & ?).
        split_and!; [done|intros ?; apply HD; by left|done].
      * intros [? B]. split; [by split|]. intros Hl. destruct (B (or_intror Hl)) as (? & ? & ?).
        split_and!; [done|intros [?|[? _]]; done|done].
  - intros k. rewrite I2, H2, elem_of_cons. destruct (decide (k = x)) as [->|Hne].
    + split; [intros [[?|[_ ?]]|[? _]]; [by left|right; split; [by left|done]|done]|].
      intros [?|[_ ?]]; left; [by left|right; done].
    + split; [intros [[?|[? _]]|[? ?]]; [by left|done|right; split; [by right|done]]|].
      intros [?|[[?|?] ?]]; [left; by left|done|right; done].
Qed.

Lemma suppress_dead_spec gate d dead :
  let '(dead', D') := suppress_dead gate d dead in
  (∀ k v, dead' !! k = Some v ↔
     dead !! k = Some v ∧ k ∉ nd_id_allowlisted d ∧ k ∉ nd_durably_suppressed d ∧ vetoed (nd_chain d) gate k = false) ∧
  (∀ k, k ∈ D' ↔ k ∈ nd_durably_suppressed d ∨
     (is_Some (dead !! k) ∧ k ∉ nd_id_allowlisted d ∧ vetoed (nd_chain d) gate k = true)).
Proof.
  unfold suppress_dead. pose proof (suppress_keys gate d (map_entries dead).*1 dead (nd_durably_suppressed d)) as H.
  specialize (H (NoDup_map_entries_keys dead)). destruct (foldl _ _ _) as [dead' D']. destruct H as [H1 H2].
  assert (∀ k, k ∈ (map_entries dead).*1 ↔ is_Some (dead !! k)) as Hkeys.
  { intros k. rewrite list_elem_of_fmap. split; [intros ([x v] & -> & ?%elem_of_map_entries); by exists v|].
    intros [v ?]. exists (k, v). split; [done|by apply elem_of_map_entries]. }
  split; intros k; setoid_rewrite Hkeys in H1; setoid_rewrite Hkeys in H2; [|apply H2].
  intros v. rewrite H1. split; [|naive_solver]. intros [Hk Hh]. split; [done|]. apply Hh. by exists v.
Qed.
