(* ===== verification/NodeDeathSpec.v ===== *)
(** * What the presence detector reports

    The detector over any sequence of ticks: every vanished node is reported and
    nothing else is, clears are earned, memory is bounded, and a vetoed departure
    stays silent. *)

From stdpp Require Import pretty.
From S2P Require Import Prelude WatchdogGate NodeDeath NodeTrackerSpec.
Open Scope Z_scope.

(** ** Runs of the detector *)

Record TickLog := mkLog {
  lg_ctx : DetectorContext;
  lg_sweep : Sweep;
  lg_dead : gmap string string;
  lg_request : option Request;
}.

Definition log_tick (acc : NodeDeathDetector * list TickLog) (ctx : DetectorContext) : NodeDeathDetector * list TickLog :=
  let '(d, sw, dead, request) := detector_tick ctx acc.1 in (d, mkLog ctx sw dead request :: acc.2).

(** The detector after some ticks, and what they did, newest first. *)
Definition run (d : NodeDeathDetector) (ctxs : list DetectorContext) : NodeDeathDetector * list TickLog :=
  foldl log_tick (d, []) ctxs.

Abbreviation sweeps h := (lg_sweep <$> h).
Abbreviation apps_of l := (cx_apps (lg_ctx l)).

(** Enough for the 32-bit counters: the ticks and the departures seen. *)
Definition countable (h : list TickLog) : Prop :=
  Z.of_nat (length h) ≤ int32_max ∧ departures (sweeps h) ≤ int32_max.

Record watching (d0 d : NodeDeathDetector) (h : list TickLog) : Prop := {
  wa_tracks : tracks (nd_tracker d) (sweeps h);
  wa_grace : nt_miss_grace (nd_tracker d) = nt_miss_grace (nd_tracker d0);
  wa_prune : nt_prune_ticks (nd_tracker d) = nt_prune_ticks (nd_tracker d0);
  wa_cap : nt_tracked_key_cap (nd_tracker d) = nt_tracked_key_cap (nd_tracker d0);
  wa_chain : nd_chain d = nd_chain d0;
  wa_allowlist : nd_allowlist d = nd_allowlist d0;
  wa_ids k : k ∈ nd_id_allowlisted d → ∃ l, l ∈ h ∧ id_listed k (nd_allowlist d0) (apps_of l);
  wa_durably k : k ∈ nd_durably_suppressed d →
    ∃ i l, h !! i = Some l ∧ Z.of_nat i < absent_for k (sweeps h) ∧ vetoed (nd_chain d0) (cx_gate (lg_ctx l)) k = true;
  wa_raised : nd_ever_raised d = true →
    ∃ l desc, l ∈ h ∧ lg_dead l ≠ ∅ ∧ lg_request l = Some (EVENT_FAILED kNodeDisappeared kNodeDeathSeverity desc kGraphWatchdogEntityId);
  wa_collapsed : 0 < nt_collapsed_dead_count (nd_tracker d) →
    ∃ k h1 h2, sweeps h = h1 ++ h2 ∧ admitted k h2 ∧ nt_miss_grace (nd_tracker d0) < absent_for k h2;
}.

(** The keys [gone] that a sweep folds into the count; [tracked] is what is left. *)
Record folded (d0 d : NodeDeathDetector) (sw : Sweep) (h : list Sweep) (tracked gone : gset string) (count : Z) : Prop := {
  fo_count : count = nt_collapsed_dead_count (nd_tracker d) + Z.of_nat (size gone);
  fo_gone k : k ∈ gone → k ∈ nt_known (nd_tracker d) ∧ k ∉ tracked ∧ admitted k (sw :: h) ∧
    nt_miss_grace (nd_tracker d0) < absent_for k (sw :: h) ∧
    nt_tracked_key_cap (nd_tracker d0) < Z.of_nat (size (nt_known (nd_tracker d) ∪ sw_armed sw));
  fo_kept k : k ∈ nt_known (nd_tracker d) ∖ sw_present sw ∪ sw_armed sw → k ∈ tracked ∨ k ∈ gone;
}.

(** What one tick does: [d1] is the detector after the sweep over the apps,
    [tracked] the keys when the report is built. *)
Record ticked (d0 d : NodeDeathDetector) (h : list TickLog) (d' : NodeDeathDetector) (l : TickLog)
    (d1 : NodeDeathDetector) (tracked : gset string) : Prop := {
  tk_observed : observed d (apps_of l) d1 (lg_sweep l);
  tk_tracks : tracks (nd_tracker d') (sweeps (l :: h));
  tk_same : nt_miss_grace (nd_tracker d') = nt_miss_grace (nd_tracker d0) ∧
    nt_prune_ticks (nd_tracker d') = nt_prune_ticks (nd_tracker d0) ∧
    nt_tracked_key_cap (nd_tracker d') = nt_tracked_key_cap (nd_tracker d0) ∧
    nd_chain d' = nd_chain d0 ∧ nd_allowlist d' = nd_allowlist d0;
  tk_admitted k : k ∈ tracked → admitted k (sweeps (l :: h));
  tk_known : nt_known (nd_tracker d') ⊆ tracked;
  tk_from : tracked ⊆ nt_known (nd_tracker d) ∪ sw_armed (lg_sweep l);
  tk_latched k : k ∈ tracked → k ≠ kCollapsedKey → nt_miss_grace (nd_tracker d0) < absent_for k (sweeps (l :: h)) →
    k ∈ nd_id_allowlisted d1 ∨ k ∈ nd_durably_suppressed d ∨ vetoed (nd_chain d0) (cx_gate (lg_ctx l)) k = true →
    k ∉ sw_present (lg_sweep l) → k ∈ nt_known (nd_tracker d') → k ∈ nd_id_allowlisted d' ∨ k ∈ nd_durably_suppressed d';
  tk_tracked k : k ∈ nt_known (nd_tracker d) ∖ sw_present (lg_sweep l) ∪ sw_armed (lg_sweep l) →
    k ∈ tracked ∨ 0 < nt_collapsed_dead_count (nd_tracker d');
  tk_kept k : k ∈ tracked → k ≠ kCollapsedKey → k ∈ nt_known (nd_tracker d') ∨
    (nt_miss_grace (nd_tracker d0) < absent_for k (sweeps (l :: h)) ∧
     (k ∈ nd_id_allowlisted d1 ∨ k ∈ nd_durably_suppressed d ∨ vetoed (nd_chain d0) (cx_gate (lg_ctx l)) k = true));
  tk_collapsed : nt_collapsed_dead_count (nd_tracker d) ≤ nt_collapsed_dead_count (nd_tracker d');
  tk_collapse : nt_collapsed_dead_count (nd_tracker d) < nt_collapsed_dead_count (nd_tracker d') →
    ∃ k, admitted k (sweeps (l :: h)) ∧ nt_miss_grace (nd_tracker d0) < absent_for k (sweeps (l :: h));
  tk_folded : ∃ gone, folded d0 d (lg_sweep l) (sweeps h) tracked gone (nt_collapsed_dead_count (nd_tracker d'));
  tk_dead k v : lg_dead l !! k = Some v ↔
    ((k = kCollapsedKey ∧ 0 < nt_collapsed_dead_count (nd_tracker d') ∧
      v = collapsed_text (nt_collapsed_dead_count (nd_tracker d'))) ∨
     (¬ (k = kCollapsedKey ∧ 0 < nt_collapsed_dead_count (nd_tracker d')) ∧ k ∈ tracked ∧
      nt_miss_grace (nd_tracker d0) < absent_for k (sweeps (l :: h)) ∧ v = death_text k (absent_for k (sweeps (l :: h))))) ∧
    k ∉ nd_id_allowlisted d1 ∧ k ∉ nd_durably_suppressed d ∧ vetoed (nd_chain d0) (cx_gate (lg_ctx l)) k = false;
  tk_bounded : (∀ k, k ∈ nt_known (nd_tracker d') → absent_for k (sweeps (l :: h)) ≤ nt_miss_grace (nd_tracker d0)) ∨
    Z.of_nat (size (nt_known (nd_tracker d') ∖ sw_present (lg_sweep l))) ≤ nt_tracked_key_cap (nd_tracker d0);
  tk_ids : nd_id_allowlisted d' ⊆ nd_id_allowlisted d1;
  tk_durably k : k ∈ nd_durably_suppressed d' → k ∉ sw_present (lg_sweep l) ∧
    (k ∈ nd_durably_suppressed d ∨ vetoed (nd_chain d0) (cx_gate (lg_ctx l)) k = true);
  tk_raised : nd_ever_raised d' = nd_ever_raised d ||
    (negb (bool_decide (lg_dead l = ∅)) && bool_decide (is_Some (lg_request l)));
  tk_request : ∃ order, lg_request l =
    if bool_decide (lg_dead l = ∅) then
      if nd_ever_raised d then clear_fault (lg_ctx l) kNodeDisappeared kGraphWatchdogEntityId else None
    else raise_fault (lg_ctx l) kNodeDisappeared kNodeDeathSeverity (describe_ordered (lg_dead l) order) kGraphWatchdogEntityId;
}.

Lemma request_spec ctx dead order ever :
  (if bool_decide (dead = ∅) && negb ever then None else emit_ordered ctx kNodeDisappeared kNodeDeathSeverity dead order) =
  if bool_decide (dead = ∅) then if ever then clear_fault ctx kNodeDisappeared kGraphWatchdogEntityId else None
  else raise_fault ctx kNodeDisappeared kNodeDeathSeverity (describe_ordered dead order) kGraphWatchdogEntityId.
Proof. unfold emit_ordered. case_bool_decide; destruct ever; done. Qed.

Lemma raise_fault_Some ctx code sev desc src r :
  raise_fault ctx code sev desc src = Some r → r = EVENT_FAILED code sev desc src.
Proof. unfold raise_fault. repeat case_match; naive_solver. Qed.

Lemma clear_fault_Some ctx code src r : clear_fault ctx code src = Some r → r = EVENT_PASSED code src.
Proof. unfold clear_fault. repeat case_match; naive_solver. Qed.

Lemma departed_absent t sw h : tracks t (sw :: h) → nt_known t ∖ sw_present sw ⊆ departed t.
Proof.
  intros (_ & Hk & Hm & _) k [[m Hl]%Hk Hp]%elem_of_difference. apply elem_of_departed. exists m. split; [done|].
  apply Hm in Hl as [-> _]. cbn [absent_for]. rewrite bool_decide_eq_false_2 by done. pose proof (absent_for_bounds k h). lia.
Qed.

Lemma pruned_vetoed gate d D before after k :
  k ∈ suppressed_for_prune gate d D before after →
  (∃ v, before !! k = Some v) ∧ (k ∈ nd_id_allowlisted d ∨ k ∈ D ∨ vetoed (nd_chain d) gate k = true).
Proof.
  unfold suppressed_for_prune. intros [[_ Hk] Hin]%elem_of_list_to_set%list_elem_of_filter. split.
  { apply list_elem_of_fmap in Hin as ([x v] & -> & Hv). exists v. by apply elem_of_map_entries. }
  destruct Hk as [Hk|[Hk|Hk]]; [by left|by right; left|]. right. right.
  apply existsb_exists in Hk as (s & Hs & [_ ?]%andb_true_iff). apply existsb_exists. by exists s.
Qed.

Lemma released_update d0 d h apps d1 sw :
  watching d0 d h → observed d apps d1 sw → Z.of_nat (S (length h)) ≤ int32_max → departures (sw :: sweeps h) ≤ int32_max →
  let '(t, r) := tracker_update (sw_present sw) (sw_armed sw)
                   (foldl (λ t key, release key t) (nd_tracker d) (set_entries (sw_handed_back sw))) in
  tracks t (sw :: sweeps h) ∧ nt_miss_grace t = nt_miss_grace (nd_tracker d0) ∧
  nt_prune_ticks t = nt_prune_ticks (nd_tracker d0) ∧ nt_tracked_key_cap t = nt_tracked_key_cap (nd_tracker d0) ∧
  (∀ k, k ∈ nt_known (nd_tracker d) ∖ sw_present sw ∪ sw_armed sw → k ∈ nt_known t ∨ 0 < nt_collapsed_dead_count t) ∧
  nt_known t ⊆ nt_known (nd_tracker d) ∪ sw_armed sw ∧
  nt_collapsed_dead_count (nd_tracker d) ≤ nt_collapsed_dead_count t ∧
  (nt_collapsed_dead_count (nd_tracker d) < nt_collapsed_dead_count t →
   ∃ k, admitted k (sw :: sweeps h) ∧ nt_miss_grace (nd_tracker d0) < absent_for k (sw :: sweeps h)) ∧
  (∃ gone, folded d0 d sw (sweeps h) (nt_known t) gone (nt_collapsed_dead_count t)) ∧
  ((∀ k, k ∈ nt_known t → absent_for k (sw :: sweeps h) ≤ nt_miss_grace (nd_tracker d0)) ∨
   Z.of_nat (size (nt_known t ∖ sw_present sw)) ≤ nt_tracked_key_cap (nd_tracker d0)) ∧
  ∀ k v, rp_dead r !! k = Some v ↔
    (k = kCollapsedKey ∧ 0 < nt_collapsed_dead_count t ∧ v = collapsed_text (nt_collapsed_dead_count t)) ∨
    (¬ (k = kCollapsedKey ∧ 0 < nt_collapsed_dead_count t) ∧ k ∈ nt_known t ∧
     nt_miss_grace (nd_tracker d0) < absent_for k (sw :: sweeps h) ∧ v = death_text k (absent_for k (sw :: sweeps h))).
Proof.
  intros W Ho Hlen Hdep. set (rel := foldl (λ t key, release key t) (nd_tracker d) (set_entries (sw_handed_back sw))).
  destruct (release_spec (set_entries (sw_handed_back sw)) (nd_tracker d)) as [Hf Hc]. fold rel in Hf, Hc.
  pose proof (forgets_tracks _ _ _ _ Hf Hc (wa_tracks _ _ _ W)) as Hrel. destruct Hf as (RK & _ & RG & RP & RC & _).
  pose proof (update_spec sw rel (sweeps h) Hrel (ob_armed _ _ _ _ Ho)) as Hu.
  destruct (tracker_update _ _ rel) as [t r]. destruct Hu as [(Ht & G & P & C & K & Kin & Cmon & Cex & (gone & Fc & Fk & Fg) & Sat) Hdead];
    [cbn [length] in *; rewrite length_fmap; lia|done|].
  rewrite RG, RC, ?RP, (wa_grace _ _ _ W), (wa_cap _ _ _ W), ?(wa_prune _ _ _ W) in *.
  split_and!; [done|done|congruence|congruence| |set_solver|lia|by rewrite <-Hc| | |done].
  - intros k Hk. apply Kin. rewrite RK. apply elem_of_union in Hk as [[Hk Hp]%elem_of_difference|Hk]; [|set_solver].
    apply elem_of_union_l, elem_of_difference. split; [done|]. intros Hb%elem_of_list_to_set%elem_of_set_entries.
    by apply (ob_handed_back _ _ _ _ Ho) in Hb.
  - exists gone. rewrite Hc in Fc. split; [done| |].
    + intros k Hk. destruct (Fg k Hk) as (Hkn & Ha & Hlt & Hcap). rewrite Fk. split_and!; [set_solver|set_solver|done|done|].
      assert (size (nt_known rel ∪ sw_armed sw) ≤ size (nt_known (nd_tracker d) ∪ sw_armed sw))%nat; [|lia].
      apply subseteq_size. set_solver.
    + intros k Hk. rewrite Fk, RK. destruct (decide (k ∈ gone)) as [|Hn]; [by right|left].
      apply elem_of_difference. split; [|done]. apply elem_of_union in Hk as [[Hk Hp]%elem_of_difference|Hk]; [|by apply elem_of_union_r].
      apply elem_of_union_l, elem_of_difference. split; [done|]. intros Hb%elem_of_list_to_set%elem_of_set_entries.
      by apply (ob_handed_back _ _ _ _ Ho) in Hb.
  - destruct (rp_tracking_saturated r); [by left|right]. etransitivity; [|exact Sat]. apply Nat2Z.inj_le, subseteq_size.
    by eapply departed_absent.
Qed.

Lemma tick_spec ctx d0 d h :
  0 ≤ nt_prune_ticks (nd_tracker d0) → watching d0 d h →
  let '(d', h') := log_tick (d, h) ctx in
  countable h' → ∃ l d1 tracked, h' = l :: h ∧ lg_ctx l = ctx ∧ ticked d0 d h d' l d1 tracked.
Proof.
  intros Hprune0 W. unfold log_tick, detector_tick. cbn [fst snd].
  pose proof (observe_ok (cx_gate ctx) (cx_apps ctx) d) as Ho. destruct (observe _ _ d) as [d1 sw]. cbn [fst snd] in Ho.
  pose proof (ob_rules _ _ _ _ Ho) as (R1 & R2 & R3 & R4 & R5). rewrite R1.
  pose proof (released_update d0 d h (cx_apps ctx) d1 sw W Ho) as Hu. destruct (tracker_update _ _ _) as [t r].
  pose proof (suppress_dead_spec (cx_gate ctx) (prune_grounds sw (with_tracker t d1)) (rp_dead r)) as Hs.
  destruct (suppress_dead _ _ (rp_dead r)) as [dead D']. rewrite request_spec. intros [Hlen Hdep].
  destruct Hu as (Ht & G & P & C & Kin & Kfrom & Cmon & Cex & Fold & Sat & Hdead); [exact Hlen|exact Hdep|].
  pose proof (pruned_vetoed (cx_gate ctx) (prune_grounds sw (with_tracker t d1)) D' (rp_dead r) dead) as Hpv.
  destruct Hs as [Hs1 Hs2]. cbn [prune_grounds with_grounds with_tracker nd_chain nd_id_allowlisted nd_durably_suppressed] in *.
  rewrite R2, (wa_chain _ _ _ W), R4 in *.
  destruct (tracker_prune_spec (suppressed_for_prune (cx_gate ctx) (prune_grounds sw (with_tracker t d1)) D' (rp_dead r) dead) t)
    as (gone & Hgone & Hfp & Hcp); [by rewrite P|].
  pose proof (forgets_tracks _ _ _ _ Hfp Hcp Ht) as Htp. pose proof Hfp as (PK & _ & PG & PP & PC & _).
  set (tp := tracker_prune _ t) in *. eexists (mkLog ctx sw dead _), d1, (nt_known t).
  split; [done|]. split; [done|]. constructor; cbn [lg_ctx lg_sweep lg_dead lg_request nd_tracker nd_chain nd_allowlist
    nd_id_allowlisted nd_durably_suppressed nd_ever_raised prune_grounds with_grounds with_tracker]; rewrite ?Hcp; try done.
  - split_and!; [congruence|congruence|congruence|done|rewrite R3; apply (wa_allowlist _ _ _ W)].
  - intros k Hk. destruct Ht as (_ & Hkm & Hm & _). apply Hkm in Hk as [m Hl]. by apply Hm in Hl as [_ ?].
  - set_solver.
  - intros k Hk Hne Hlt Hhid Hp Hkn. rewrite elem_of_intersection, elem_of_filter, Hs2.
    destruct (decide (k ∈ nd_id_allowlisted d1)); [by left|right]. split; [done|]. destruct Hhid as [?|[?|?]]; [done|by left|].
    right. split_and!; [|done|done]. eexists. apply Hdead. right. split_and!; try done. by intros [? _].
  - intros k Hk Hne. rewrite PK. destruct (decide (k ∈ gone)) as [Hg%Hgone%Hpv|]; [|left; set_solver]. right.
    destruct Hg as [[v [[-> _]|(_ & _ & ? & _)]%Hdead] Hv]; [done|]. split; [done|].
    destruct Hv as [?|[[?|(_ & _ & ?)]%Hs2|?]]; [by left|by right; left|by right; right|by right; right].
  - intros k v. rewrite Hs1, Hdead. done.
  - rewrite PK. destruct Sat as [Sat|Sat]; [left|right]; [intros k [Hk _]%elem_of_difference; by apply Sat|].
    etransitivity; [|exact Sat]. apply Nat2Z.inj_le, subseteq_size. set_solver.
  - set_solver.
  - intros k [[_ Hk2] Hk]%elem_of_filter. split; [done|]. apply Hs2 in Hk as [?|(_ & _ & ?)]; [by left|by right].
  - by rewrite R5.
  - exists (rp_keys_by_freshness r). by rewrite R5.
Qed.

Lemma ticked_watching d0 d h d' l d1 tracked : watching d0 d h → ticked d0 d h d' l d1 tracked → watching d0 d' (l :: h).
Proof.
  intros W T. destruct (tk_same _ _ _ _ _ _ _ T) as (G & P & C & Hch & Hal). constructor; try done.
  - exact (tk_tracks _ _ _ _ _ _ _ T).
  - intros k Hk%(tk_ids _ _ _ _ _ _ _ T)%(ob_ids _ _ _ _ (tk_observed _ _ _ _ _ _ _ T)). rewrite (wa_allowlist _ _ _ W) in Hk.
    destruct Hk as [Hk|Hk]; [|exists l; split; [left|done]]. apply (wa_ids _ _ _ W) in Hk as (l' & ? & ?). exists l'. split; [by right|done].
  - intros k [Hp Hk]%(tk_durably _ _ _ _ _ _ _ T). cbn [fmap list_fmap absent_for]. rewrite bool_decide_eq_false_2 by done.
    pose proof (absent_for_bounds k (sweeps h)). destruct Hk as [Hk|Hk]; [|exists 0%nat, l; split_and!; [done|lia|done]].
    apply (wa_durably _ _ _ W) in Hk as (i & l' & ? & ? & ?). exists (S i), l'. split_and!; [done|lia|done].
  - rewrite (tk_raised _ _ _ _ _ _ _ T). intros [Hr|[Hne [r Hr]%bool_decide_eq_true]%andb_true_iff]%orb_true_iff.
    + apply (wa_raised _ _ _ W) in Hr as (l' & desc & ? & ?). exists l', desc. split; [by right|done].
    + apply negb_true_iff, bool_decide_eq_false in Hne. destruct (tk_request _ _ _ _ _ _ _ T) as [order Hreq].
      rewrite bool_decide_eq_false_2 in Hreq by done. rewrite Hreq in Hr. eexists l, _. split_and!; [left|done|].
      rewrite Hreq, Hr. f_equal. by apply raise_fault_Some in Hr.
  - intros Hc. pose proof (tk_collapsed _ _ _ _ _ _ _ T) as Hle.
    destruct (decide (0 < nt_collapsed_dead_count (nd_tracker d))) as [Hold|Hold].
    + destruct (wa_collapsed _ _ _ W Hold) as (k & h1 & h2 & Heq & ?). exists k, (lg_sweep l :: h1), h2.
      split; [|done]. change (sweeps (l :: h)) with (lg_sweep l :: sweeps h). by rewrite Heq.
    + destruct (tk_collapse _ _ _ _ _ _ _ T) as (k & ? & ?); [lia|]. by exists k, [], (sweeps (l :: h)).
Qed.

(** A detector as configured: nothing tracked, nothing raised. *)
Definition fresh (d : NodeDeathDetector) : Prop :=
  0 ≤ nt_miss_grace (nd_tracker d) ∧ nt_miss_grace (nd_tracker d) < nt_prune_ticks (nd_tracker d) ∧
  nt_known (nd_tracker d) = ∅ ∧ nt_misses (nd_tracker d) = ∅ ∧ nt_collapsed_dead_count (nd_tracker d) = 0 ∧
  nd_id_allowlisted d = ∅ ∧ nd_durably_suppressed d = ∅ ∧ nd_ever_raised d = false.

Lemma read_wide_range lo hi dflt v : lo ≤ dflt ≤ hi → lo ≤ read_wide lo hi dflt v ≤ hi.
Proof. intros H. unfold read_wide. repeat case_match; bool_simpl; lia. Qed.

Lemma min_grace_nonneg tick : 0 ≤ min_node_death_miss_grace tick.
Proof. unfold min_node_death_miss_grace. case_match; lia. Qed.

Lemma configured_fresh config : fresh (configure config new_detector).
Proof.
  unfold configure. destruct (build_suppressor_chain config) as [chain allow].
  unfold fresh; cbn [nd_tracker nd_id_allowlisted nd_durably_suppressed nd_ever_raised]. unfold configured_tracker.
  cbn [new_tracker nt_miss_grace nt_prune_ticks nt_known nt_misses nt_collapsed_dead_count].
  pose proof (read_wide_range 0 kMaxNodeDeathGraceTicks kDefaultMissGrace (config_get "miss_grace" config) ltac:(done)) as Hm.
  pose proof (min_grace_nonneg (read_wide 1 int32_max kDefaultTickIntervalMs (config_get "tick_interval_ms" config))) as Hf.
  split_and!; try done; case_match; bool_simpl; lia.
Qed.

Lemma fresh_watching d : fresh d → watching d d [].
Proof.
  intros (? & ? & K & M & C & I & D & R). constructor; try done.
  - unfold tracks, departed. rewrite K, M, C. split_and!; try done.
    + intros k. rewrite lookup_empty. split; [set_solver|by intros [? ?]].
  - rewrite I. set_solver.
  - rewrite D. set_solver.
  - by rewrite R.
  - rewrite C. lia.
Qed.

Lemma countable_cons l h : countable (l :: h) → countable h.
Proof.
  unfold countable. cbn [length fmap list_fmap]. intros [? ?]. split; [lia|]. etransitivity; [apply (departures_cons (lg_sweep l))|done].
Qed.

Lemma run_snoc d ctxs ctx : run d (ctxs ++ [ctx]) = log_tick (run d ctxs) ctx.
Proof. apply foldl_snoc. Qed.

Lemma run_nil d ctxs d' : run d ctxs = (d', []) → d' = d.
Proof.
  destruct ctxs as [|c ctxs _] using rev_ind; [by intros [= ->]|]. rewrite run_snoc. unfold log_tick.
  by destruct (detector_tick _ _) as [[[? ?] ?] ?].
Qed.

(** Every tick of a run, with the detector before and after it. *)
Lemma run_ticked d0 ctxs d l h :
  fresh d0 → run d0 ctxs = (d, l :: h) → countable (l :: h) →
  ∃ ctxs' dp d1 tracked, run d0 ctxs' = (dp, h) ∧ ctxs = ctxs' ++ [lg_ctx l] ∧
    watching d0 dp h ∧ ticked d0 dp h d l d1 tracked.
Proof.
  intros Hf. revert d l h. induction ctxs as [|ctx ctxs IH] using rev_ind; [done|]. intros d l h Hrun Hc.
  rewrite run_snoc in Hrun. destruct (run d0 ctxs) as [dp hp] eqn:Er.
  assert (hp = h ∧ lg_ctx l = ctx) as [-> Hl].
  { unfold log_tick in Hrun. destruct (detector_tick _ _) as [[[? ?] ?] ?]. by injection Hrun as <- <- <-. }
  assert (watching d0 dp h) as W.
  { destruct h as [|l' h']; [apply run_nil in Er as ->; by apply fresh_watching|].
    destruct (IH dp l' h' eq_refl (countable_cons _ _ Hc)) as (? & ? & ? & ? & _ & _ & W & T). by eapply ticked_watching. }
  pose proof (tick_spec ctx d0 dp h) as Ht. rewrite Hrun in Ht. destruct Hf as (? & ? & _).
  destruct Ht as (l' & d1 & tracked & [= <-] & _ & T); [lia|done|done|]. exists ctxs, dp, d1, tracked. rewrite Hl. done.
Qed.

(** ** What is reported *)

(** Nothing the operator configured hides the key in these ticks. *)
Definition never_hidden (d0 : NodeDeathDetector) (key : string) (h : list TickLog) : Prop :=
  ∀ l, l ∈ h → vetoed (nd_chain d0) (cx_gate (lg_ctx l)) key = false ∧ ¬ id_listed key (nd_allowlist d0) (apps_of l).

Lemma not_hidden d0 d h l d' d1 tracked k :
  watching d0 d h → ticked d0 d h d' l d1 tracked → never_hidden d0 k (l :: h) →
  k ∉ nd_id_allowlisted d1 ∧ k ∉ nd_durably_suppressed d ∧ vetoed (nd_chain d0) (cx_gate (lg_ctx l)) k = false.
Proof.
  intros W T Hn. destruct (Hn l ltac:(left)) as [Hv Hid]. split_and!; [..|done].
  - intros [Hk|Hk]%(ob_ids _ _ _ _ (tk_observed _ _ _ _ _ _ _ T)); [|by rewrite (wa_allowlist _ _ _ W) in Hk].
    apply (wa_ids _ _ _ W) in Hk as (l' & Hl' & Hlist). by apply (Hn l' ltac:(by right)).
  - intros (i & l' & Hl' & _ & Hveto)%(wa_durably _ _ _ W). apply list_elem_of_lookup_2 in Hl'.
    destruct (Hn l' ltac:(by right)) as [Hf _]. congruence.
Qed.

Lemma run_sweeps d0 ctxs d h l :
  fresh d0 → run d0 ctxs = (d, h) → countable h → l ∈ h →
  sw_armed (lg_sweep l) ⊆ sw_present (lg_sweep l) ∧ ∀ k, k ∈ sw_present (lg_sweep l) ↔ online k (apps_of l).
Proof.
  intros Hf. revert ctxs d. induction h as [|l' h IH]; intros ctxs d Hrun Hc Hl; [set_solver|].
  destruct (run_ticked _ _ _ _ _ Hf Hrun Hc) as (ctxs' & dp & d1 & tracked & Hrun' & _ & _ & T).
  apply elem_of_cons in Hl as [->|Hl]; [|by eapply IH; [|by eapply countable_cons|]].
  pose proof (tk_observed _ _ _ _ _ _ _ T) as Ho. split; [apply Ho|apply Ho].
Qed.

Lemma absent_since k off l0 h :
  (∀ l, l ∈ off → k ∉ sw_present (lg_sweep l)) → k ∈ sw_present (lg_sweep l0) →
  absent_for k (sweeps (off ++ l0 :: h)) = Z.of_nat (length off).
Proof.
  intros Hoff Hon. induction off as [|l off IH]; cbn [app fmap list_fmap absent_for length].
  - by rewrite bool_decide_eq_true_2.
  - rewrite bool_decide_eq_false_2 by (apply Hoff; left). change (list_fmap _ _ _ (off ++ l0 :: h)) with (sweeps (off ++ l0 :: h)).
    rewrite IH; [lia|]. intros l' Hl'. apply Hoff. by right.
Qed.

(** A name that ran and then did not has been missing since. *)
Lemma run_absent d0 ctxs d off l0 h k :
  fresh d0 → run d0 ctxs = (d, off ++ l0 :: h) → countable (off ++ l0 :: h) →
  k ∈ sw_present (lg_sweep l0) → (∀ l, l ∈ off → ¬ online k (apps_of l)) →
  absent_for k (sweeps (off ++ l0 :: h)) = Z.of_nat (length off).
Proof.
  intros Hf Hrun Hc Hon Hoff. apply absent_since; [|done]. intros l Hl.
  destruct (run_sweeps d0 ctxs d _ l Hf Hrun Hc) as [_ ->]; [by apply elem_of_app; left|by apply Hoff].
Qed.

(** ** The count *)

(** The deaths of a history: a node that was admitted by the time it last ran, at
    the end of the first [n] ticks, and was then missing for more than the grace. *)
Definition died (grace : Z) (h : list TickLog) (death : string * nat) : Prop :=
  ∃ later off l0 h1, h = later ++ off ++ l0 :: h1 ∧ length (l0 :: h1) = death.2 ∧
    online death.1 (apps_of l0) ∧ (∀ l, l ∈ off → ¬ online death.1 (apps_of l)) ∧
    admitted death.1 (sweeps (l0 :: h1)) ∧ grace < Z.of_nat (length off).

(** When the key was last present. *)
Definition left_at (k : string) (h : list TickLog) : nat := Z.to_nat (Z.of_nat (length h) - absent_for k (sweeps h)).

(** The detector tracks the key on a tick on which it runs. *)
Definition watched_at (d0 : NodeDeathDetector) (k : string) (l0 : TickLog) (h1 : list TickLog) : Prop :=
  k ∈ sw_armed (lg_sweep l0) ∨
  (online k (apps_of l0) ∧ k ∈ nt_known (nd_tracker (run d0 (reverse (lg_ctx <$> l0 :: h1))).1)).

(** The count stands for the deaths [C]: they are different, they are real, and a
    node that ran while it was watched and stopped is still tracked or among
    them. *)
Record tallied (d0 d : NodeDeathDetector) (h : list TickLog) (C : gset (string * nat)) : Prop := {
  ta_size : Z.of_nat (size C) = nt_collapsed_dead_count (nd_tracker d);
  ta_died x : x ∈ C → died (nt_miss_grace (nd_tracker d0)) h x;
  ta_back k i : (k, i) ∈ C → k ∈ nt_known (nd_tracker d) → (i < left_at k h)%nat;
  ta_counts k off l0 h1 : h = off ++ l0 :: h1 → k ≠ kCollapsedKey → watched_at d0 k l0 h1 →
    (∀ l, l ∈ off → ¬ online k (apps_of l)) → never_hidden d0 k h →
    k ∈ nt_known (nd_tracker d) ∨ (k, length (l0 :: h1)) ∈ C;
}.

Lemma run_contexts d0 ctxs d h : run d0 ctxs = (d, h) → ctxs = reverse (lg_ctx <$> h).
Proof.
  revert d h. induction ctxs as [|ctx ctxs IH] using rev_ind; intros d h; [by intros [= <- <-]|].
  rewrite run_snoc. destruct (run d0 ctxs) as [dp hp] eqn:Er. unfold log_tick.
  destruct (detector_tick _ _) as [[[? ?] ?] ?]. intros [= <- <-]. rewrite fmap_cons, reverse_cons. by rewrite <-(IH dp hp).
Qed.

Lemma run_detector d0 ctxs d h : run d0 ctxs = (d, h) → (run d0 (reverse (lg_ctx <$> h))).1 = d.
Proof. intros Hrun. by rewrite <-(run_contexts _ _ _ _ Hrun), Hrun. Qed.

Lemma absent_split d0 ctxs d h k :
  fresh d0 → run d0 ctxs = (d, h) → countable h → admitted k (sweeps h) →
  ∃ off l0 h1, h = off ++ l0 :: h1 ∧ online k (apps_of l0) ∧ (∀ l, l ∈ off → ¬ online k (apps_of l)) ∧
    admitted k (sweeps (l0 :: h1)) ∧ absent_for k (sweeps h) = Z.of_nat (length off).
Proof.
  intros Hf. revert ctxs d. induction h as [|l h IH]; intros ctxs d Hrun Hc Ha; [by inversion Ha|].
  destruct (run_sweeps d0 ctxs d _ l Hf Hrun Hc) as [Harm Hp]; [left|].
  destruct (decide (k ∈ sw_present (lg_sweep l))) as [Hk|Hk].
  - exists [], l, h. split_and!; [done|by apply Hp|set_solver|done|]. cbn. by rewrite bool_decide_eq_true_2.
  - destruct (run_ticked _ _ _ _ _ Hf Hrun Hc) as (ctxs' & dp & d1 & tracked & Hrun' & _).
    destruct (IH ctxs' dp Hrun' (countable_cons _ _ Hc)) as (off & l0 & h1 & -> & Hon & Hoff & Ha' & Habs).
    { apply Exists_cons in Ha as [Ha|Ha]; [|done]. destruct Hk. by apply Harm. }
    exists (l :: off), l0, h1. split_and!; [done|done| |done|].
    + intros l' [->|Hl']%elem_of_cons; [by rewrite <-Hp|by apply Hoff].
    + cbn [app fmap list_fmap absent_for length]. rewrite bool_decide_eq_false_2 by done.
      change (list_fmap _ _ _ (off ++ l0 :: h1)) with (sweeps (off ++ l0 :: h1)). lia.
Qed.

Lemma died_later grace later h x : died grace h x → died grace (later ++ h) x.
Proof.
  intros (later' & off & l0 & h1 & -> & H). exists (later ++ later'), off, l0, h1. split; [by rewrite app_assoc|done].
Qed.

Lemma died_bound grace h x : died grace h x → (x.2 ≤ length h)%nat.
Proof. intros (later & off & l0 & h1 & -> & <- & _). rewrite !length_app. lia. Qed.

(** The deaths that a tick adds. *)
Definition deaths_of (h : list TickLog) (gone : gset string) : gset (string * nat) :=
  list_to_set ((λ k, (k, left_at k h)) <$> elements gone).

Lemma elem_of_deaths h gone k i : (k, i) ∈ deaths_of h gone ↔ k ∈ gone ∧ i = left_at k h.
Proof.
  unfold deaths_of. rewrite elem_of_list_to_set, list_elem_of_fmap. setoid_rewrite elem_of_elements.
  split; [by intros (x & [= -> ->] & ?)|]. intros [? ->]. by exists k.
Qed.

Lemma size_deaths h gone : size (deaths_of h gone) = size gone.
Proof.
  unfold deaths_of. rewrite size_list_to_set; [by rewrite length_fmap|].
  apply NoDup_fmap_2; [by intros x y [= ->]|apply NoDup_elements].
Qed.

Lemma left_at_absent k l h : k ∉ sw_present (lg_sweep l) → left_at k (l :: h) = left_at k h.
Proof.
  intros Hk. unfold left_at. cbn [fmap list_fmap absent_for length]. rewrite bool_decide_eq_false_2 by done. f_equal. lia.
Qed.

Lemma tallied_tick d0 ctxs d h d' l d1 tracked C :
  fresh d0 → run d0 ctxs = (d', l :: h) → countable (l :: h) →
  watching d0 d h → ticked d0 d h d' l d1 tracked → tallied d0 d h C → ∃ C', tallied d0 d' (l :: h) C'.
Proof.
  intros Hf Hrun Hc W T [Hs Hd Hb Hct]. destruct (tk_folded _ _ _ _ _ _ _ T) as (gone & [Fc Fg Fk]).
  destruct (run_sweeps d0 ctxs d' _ l Hf Hrun Hc) as [Harm Hp]; [left|]. pose proof Hf as (Hgr & _).
  assert (∀ k, k ∈ gone → k ∉ sw_present (lg_sweep l)) as Hout.
  { intros k (_ & _ & _ & Hlt & _)%Fg Hin. cbn in Hlt. rewrite bool_decide_eq_true_2 in Hlt by done. lia. }
  assert (∀ k, k ≠ kCollapsedKey → never_hidden d0 k (l :: h) → k ∈ tracked → k ∈ nt_known (nd_tracker d')) as Hstay.
  { intros k Hne Hn Ht. destruct (tk_kept _ _ _ _ _ _ _ T k Ht Hne) as [?|[_ Hhid]]; [done|].
    destruct (not_hidden _ _ _ _ _ _ _ _ W T Hn) as (? & ? & ?). destruct Hhid as [?|[?|?]]; [done|done|congruence]. }
  exists (C ∪ deaths_of (l :: h) gone). split.
  - rewrite size_union; [rewrite size_deaths; lia|]. intros [k i] Hin [Hk ->]%elem_of_deaths.
    rewrite left_at_absent in Hin by by apply Hout. destruct (Fg k Hk) as [Hkn _]. pose proof (Hb _ _ Hin Hkn). lia.
  - intros [k i] [Hin|[Hk ->]%elem_of_deaths]%elem_of_union; [by apply (died_later _ [l]), Hd|].
    destruct (Fg k Hk) as (_ & _ & Ha & Hlt & _).
    destruct (absent_split d0 ctxs d' (l :: h) k Hf Hrun Hc Ha) as (off & l0 & h1 & Heq & Hon & Hoff & Ha' & Habs).
    exists [], off, l0, h1. unfold left_at. change (lg_sweep l :: sweeps h) with (sweeps (l :: h)) in Hlt.
    rewrite Habs in *. split_and!; try done. cbn [snd]. rewrite Heq, length_app. lia.
  - intros k i [Hin|[Hk ->]%elem_of_deaths]%elem_of_union Hkn.
    + destruct (decide (k ∈ sw_present (lg_sweep l))) as [Hpr|Hpr].
      * unfold left_at. cbn [fmap list_fmap absent_for length]. rewrite bool_decide_eq_true_2 by done.
        pose proof (died_bound _ _ _ (Hd _ Hin)). cbn in *. lia.
      * rewrite left_at_absent by done. apply Hb; [done|].
        pose proof (tk_from _ _ _ _ _ _ _ T k (tk_known _ _ _ _ _ _ _ T k Hkn)). set_solver.
    + destruct (Fg k Hk) as (_ & Hnt & _). destruct Hnt. by apply (tk_known _ _ _ _ _ _ _ T).
  - intros k off l0 h1 Heq Hne Hw Hoff Hn. destruct off as [|l' off]; injection Heq as <- ->.
    + destruct Hw as [Hw|[_ Hw]]; [|left; by rewrite (run_detector _ _ _ _ Hrun) in Hw]. left. apply Hstay; [done..|].
      destruct (Fk k) as [?|Hg%Hout]; [set_solver|done|]. destruct Hg. by apply Harm.
    + assert (k ∉ sw_present (lg_sweep l)) as Hpr by (rewrite Hp; apply Hoff; left).
      destruct (Hct k off l0 h1 eq_refl Hne Hw) as [Hkn|Hin]; [..|right; set_solver].
      { intros l' Hl'. apply Hoff. by right. }
      { intros l' Hl'. apply Hn. by right. }
      destruct (Fk k) as [Ht|Hg]; [set_solver|left; by apply Hstay|]. right. apply elem_of_union_r, elem_of_deaths.
      split; [done|]. unfold left_at. change (l :: off ++ l0 :: h1) with ((l :: off) ++ l0 :: h1).
      rewrite (absent_since k (l :: off) l0 h1).
      * cbn [length app]. rewrite length_app. cbn [length]. lia.
      * intros l' Hl'. destruct (run_sweeps d0 ctxs d' _ l' Hf Hrun Hc) as [_ ->]; [|by apply Hoff].
        apply (elem_of_app (l :: off) (l0 :: h1)). by left.
      * destruct (run_sweeps d0 ctxs d' _ l0 Hf Hrun Hc) as [Ha Hpp]; [right; apply elem_of_app; right; left|].
        destruct Hw as [Hw|[Hw _]]; [by apply Ha|by apply Hpp].
Qed.

Lemma run_tallied d0 ctxs d h : fresh d0 → run d0 ctxs = (d, h) → countable h → ∃ C, tallied d0 d h C.
Proof.
  intros Hf. revert ctxs d. induction h as [|l h IH]; intros ctxs d Hrun Hc.
  - apply run_nil in Hrun as ->. pose proof Hf as (_ & _ & Hk & _ & Hcount & _). exists ∅. split.
    + by rewrite size_empty, Hcount.
    + set_solver.
    + set_solver.
    + intros k [|? ?] l0 h1; done.
  - destruct (run_ticked _ _ _ _ _ Hf Hrun Hc) as (ctxs' & dp & d1 & tracked & Hrun' & _ & W & T).
    destruct (IH ctxs' dp Hrun' (countable_cons _ _ Hc)) as (C & Ht). by eapply tallied_tick.
Qed.

(** As long as no more names have run than the cap allows, nothing is folded into
    the count. *)
Lemma run_uncounted d0 ctxs d h (U : gset string) :
  fresh d0 → run d0 ctxs = (d, h) → countable h → (∀ l k, l ∈ h → online k (apps_of l) → k ∈ U) →
  Z.of_nat (size U) ≤ nt_tracked_key_cap (nd_tracker d0) →
  nt_known (nd_tracker d) ⊆ U ∧ nt_collapsed_dead_count (nd_tracker d) = 0 ∧
  (kCollapsedKey ∉ U → ∀ l, l ∈ h → lg_dead l !! kCollapsedKey = None).
Proof.
  intros Hf. revert ctxs d. induction h as [|l h IH]; intros ctxs d Hrun Hc HU Hcap.
  - apply run_nil in Hrun as ->. destruct Hf as (_ & _ & -> & _ & -> & _). split_and!; [set_solver|done|set_solver].
  - destruct (run_ticked _ _ _ _ _ Hf Hrun Hc) as (ctxs' & dp & d1 & tracked & Hrun' & _ & W & T).
    destruct (IH ctxs' dp Hrun' (countable_cons _ _ Hc)) as (Hk & Hz & Hdead); [|done|].
    { intros l' k Hl'. apply HU. by right. }
    pose proof (tk_observed _ _ _ _ _ _ _ T) as Ho.
    assert (nt_known (nd_tracker dp) ∪ sw_armed (lg_sweep l) ⊆ U) as Hsub.
    { intros k [?|Ha%(ob_armed _ _ _ _ Ho)%(ob_present _ _ _ _ Ho)]%elem_of_union; [by apply Hk|]. apply (HU l); [left|done]. }
    assert (nt_known (nd_tracker d) ⊆ tracked ∧ tracked ⊆ U) as [Hkn Htr].
    { split; [apply (tk_known _ _ _ _ _ _ _ T)|]. etransitivity; [apply (tk_from _ _ _ _ _ _ _ T)|done]. }
    destruct (tk_folded _ _ _ _ _ _ _ T) as (gone & [Fc Fg _]).
    assert (gone = ∅) as ->.
    { apply set_eq. intros k. split; [|set_solver]. intros (_ & _ & _ & _ & Hlt)%Fg. apply subseteq_size in Hsub. lia. }
    rewrite size_empty in Fc. split_and!; [set_solver|lia|]. intros HnU l' [->|Hl']%elem_of_cons; [|by apply Hdead].
    apply eq_None_not_Some. intros [v [Hv _]%(tk_dead _ _ _ _ _ _ _ T)].
    destruct Hv as [(_ & ? & _)|(_ & ? & _)]; [lia|set_solver].
Qed.

(** The tick may send a FAILED request. *)
Definition can_raise (ctx : DetectorContext) : Prop :=
  cx_mode ctx = Raise ∧ cx_client ctx = true ∧ cx_service_ready ctx = true ∧
  reliability_allows (cx_gate ctx) kGraphWatchdogEntityId = true.

Lemma can_raise_fault ctx code sev desc :
  can_raise ctx → raise_fault ctx code sev desc kGraphWatchdogEntityId = Some (EVENT_FAILED code sev desc kGraphWatchdogEntityId).
Proof. intros (Hm & Hcl & Hr & Hg). unfold raise_fault. by rewrite Hm, Hcl, Hr, Hg. Qed.

(** C11: A node that the detector watches on the tick on which it last runs (it is
    armed there, or tracked since earlier) is reported on every tick on which it has been missing
    for more than the grace: by name, with the number of ticks it has been
    missing, or in the count that replaces names when too many are missing.  The
    count is then the number of different deaths of which this is one, each of a
    node that was admitted, ran and has been missing for more than the grace.  The
    tick asks for a FAILED whenever it can.  Neither the key nor the count may be
    hidden by a suppressor or the allowlist. *)
Theorem vanished_nodes_are_reported config ctxs d k l0 l h1 h2 :
  let d0 := configure config new_detector in
  let h := (l :: h2) ++ l0 :: h1 in
  run d0 ctxs = (d, h) → countable h →
  k ≠ kCollapsedKey → watched_at d0 k l0 h1 → (∀ l', l' ∈ l :: h2 → ¬ online k (apps_of l')) →
  nt_miss_grace (nd_tracker d0) < Z.of_nat (length (l :: h2)) →
  never_hidden d0 k h → never_hidden d0 kCollapsedKey h →
  (lg_dead l !! k = Some (death_text k (Z.of_nat (length (l :: h2)))) ∨
   ∃ C : gset (string * nat), lg_dead l !! kCollapsedKey = Some (collapsed_text (Z.of_nat (size C))) ∧
     (k, length (l0 :: h1)) ∈ C ∧ ∀ x, x ∈ C → died (nt_miss_grace (nd_tracker d0)) h x) ∧
  (can_raise (lg_ctx l) → ∃ desc,
     lg_request l = Some (EVENT_FAILED kNodeDisappeared kNodeDeathSeverity desc kGraphWatchdogEntityId)).
Proof.
  intros d0 h Hrun Hc Hne Hwatch Hoff Hlen Hn Hnc. pose proof (configured_fresh config) as Hf. fold d0 in Hf.
  assert (absent_for k (sweeps h) = Z.of_nat (length (l :: h2))) as Habs.
  { eapply run_absent; [done..| |done]. destruct (run_sweeps d0 ctxs d _ l0 Hf Hrun Hc) as [Hsub Hp].
    { apply elem_of_app. right. left. }
    destruct Hwatch as [?|[? _]]; [by apply Hsub|by apply Hp]. }
  destruct (run_tallied d0 ctxs d h Hf Hrun Hc) as (C & Ht). unfold h in *. cbn [app] in *.
  destruct (run_ticked _ _ _ _ _ Hf Hrun Hc) as (ctxs' & dp & d1 & tracked & Hrun' & _ & W & T).
  pose proof (not_hidden _ _ _ _ _ _ _ _ W T Hn) as Hvis. pose proof (not_hidden _ _ _ _ _ _ _ _ W T Hnc) as Hvisc.
  assert (lg_dead l !! k = Some (death_text k (Z.of_nat (length (l :: h2)))) ∨
    ∃ C : gset (string * nat), lg_dead l !! kCollapsedKey = Some (collapsed_text (Z.of_nat (size C))) ∧
      (k, length (l0 :: h1)) ∈ C ∧ ∀ x, x ∈ C → died (nt_miss_grace (nd_tracker d0)) (l :: h2 ++ l0 :: h1) x) as Hrep.
  { destruct (ta_counts _ _ _ _ Ht k (l :: h2) l0 h1 eq_refl Hne Hwatch Hoff Hn) as [Hk|Hk]; [left|right].
    - apply (tk_dead _ _ _ _ _ _ _ T). rewrite Habs. split; [|done]. right.
      split_and!; [naive_solver|by apply (tk_known _ _ _ _ _ _ _ T)|done|done].
    - exists C. split_and!; [|done|apply Ht]. apply (tk_dead _ _ _ _ _ _ _ T). split; [left|done].
      rewrite (ta_size _ _ _ _ Ht). split_and!; [done| |done]. rewrite <-(ta_size _ _ _ _ Ht).
      assert (size C ≠ 0)%nat; [|lia]. apply size_non_empty_iff. set_solver. }
  split; [done|]. intros Hcan. destruct (tk_request _ _ _ _ _ _ _ T) as [order Hreq]. eexists.
  rewrite Hreq, bool_decide_eq_false_2; [by apply can_raise_fault|]. intros He. rewrite He in Hrep. naive_solver.
Qed.

(** C12: Whatever is reported is a node that was admitted while it ran and has been
    missing for more than the grace; a PASSED is sent only when nothing is missing
    and an earlier tick of the same detector sent a FAILED; and beyond the nodes
    that run, either no more keys are tracked than the cap or all of them left
    within the grace. *)
Theorem reported_deaths_are_real config ctxs d l h :
  let d0 := configure config new_detector in
  let grace := nt_miss_grace (nd_tracker d0) in
  run d0 ctxs = (d, l :: h) → countable (l :: h) →
  (∀ k, k ∈ sw_present (lg_sweep l) ↔ online k (apps_of l)) ∧
  (∀ k v, lg_dead l !! k = Some v →
     (k ≠ kCollapsedKey → v = death_text k (absent_for k (sweeps (l :: h))) ∧ grace < absent_for k (sweeps (l :: h)) ∧
        admitted k (sweeps (l :: h))) ∧
     ∃ k' later earlier, sweeps (l :: h) = later ++ earlier ∧ admitted k' earlier ∧ grace < absent_for k' earlier) ∧
  (∀ code source, lg_request l = Some (EVENT_PASSED code source) → lg_dead l = ∅ ∧
     ∃ l' desc, l' ∈ h ∧ lg_dead l' ≠ ∅ ∧ lg_request l' = Some (EVENT_FAILED code kNodeDeathSeverity desc source)) ∧
  ((∀ k, k ∈ nt_known (nd_tracker d) → absent_for k (sweeps (l :: h)) ≤ grace) ∨
   Z.of_nat (size (nt_known (nd_tracker d) ∖ sw_present (lg_sweep l))) ≤ nt_tracked_key_cap (nd_tracker d0)).
Proof.
  intros d0 grace Hrun Hc. pose proof (configured_fresh config) as Hf. fold d0 in Hf.
  destruct (run_ticked _ _ _ _ _ Hf Hrun Hc) as (ctxs' & dp & d1 & tracked & _ & _ & W & T).
  pose proof (ticked_watching _ _ _ _ _ _ _ W T) as W'. split_and!.
  - apply (ob_present _ _ _ _ (tk_observed _ _ _ _ _ _ _ T)).
  - intros k v [Hk _]%(tk_dead _ _ _ _ _ _ _ T). destruct Hk as [(-> & Hcol & _)|(_ & Ht & Hlt & ->)].
    + split; [done|]. by apply (wa_collapsed _ _ _ W').
    + pose proof (tk_admitted _ _ _ _ _ _ _ T k Ht). split; [done|]. by exists k, [], (sweeps (l :: h)).
  - intros code source Hp. destruct (tk_request _ _ _ _ _ _ _ T) as [order Hreq]. rewrite Hreq in Hp.
    case_bool_decide as He; [|by apply raise_fault_Some in Hp]. destruct (nd_ever_raised dp) eqn:Er; [|done].
    apply clear_fault_Some in Hp as [= -> ->]. split; [done|]. destruct (wa_raised _ _ _ W Er) as (l' & desc & ? & ? & ?).
    by exists l', desc.
  - apply (tk_bounded _ _ _ _ _ _ _ T).
Qed.

(** ** Silenced departures *)

(** The key is not tracked, not missing for long, or silenced. *)
Definition quiet (d0 d : NodeDeathDetector) (key : string) (h : list TickLog) : Prop :=
  key ∉ nt_known (nd_tracker d) ∨ absent_for key (sweeps h) ≤ nt_miss_grace (nd_tracker d0) ∨
  key ∈ nd_id_allowlisted d ∨ key ∈ nd_durably_suppressed d.

Lemma quiet_tick d0 d h d' l d1 tracked k :
  ticked d0 d h d' l d1 tracked → k ≠ kCollapsedKey → ¬ online k (apps_of l) → quiet d0 d k h →
  (absent_for k (sweeps (l :: h)) = nt_miss_grace (nd_tracker d0) + 1 →
   vetoed (nd_chain d0) (cx_gate (lg_ctx l)) k = true) →
  lg_dead l !! k = None ∧ quiet d0 d' k (l :: h).
Proof.
  intros T Hne Hoff Hq Hveto. pose proof (tk_observed _ _ _ _ _ _ _ T) as Ho.
  assert (k ∉ sw_present (lg_sweep l)) as Hp by by rewrite (ob_present _ _ _ _ Ho).
  assert (absent_for k (sweeps (l :: h)) = 1 + absent_for k (sweeps h)) as Habs
    by (cbn [fmap list_fmap absent_for]; by rewrite bool_decide_eq_false_2).
  assert (k ∈ tracked → nt_miss_grace (nd_tracker d0) < absent_for k (sweeps (l :: h)) →
    k ∈ nd_id_allowlisted d1 ∨ k ∈ nd_durably_suppressed d ∨ vetoed (nd_chain d0) (cx_gate (lg_ctx l)) k = true) as Hhid.
  { intros Ht Hlt. pose proof (tk_from _ _ _ _ _ _ _ T k Ht) as Hf. pose proof (ob_armed _ _ _ _ Ho).
    destruct Hq as [Hq|[Hq|[Hq|Hq]]]; [set_solver|right; right; apply Hveto; lia| |by right; left].
    left. by apply (ob_ids_kept _ _ _ _ Ho). }
  split.
  - apply eq_None_not_Some. intros [v [Hk Hv]%(tk_dead _ _ _ _ _ _ _ T)]. destruct Hk as [[? _]|(_ & Ht & Hlt & _)]; [done|].
    destruct Hv as (? & ? & ?), (Hhid Ht Hlt) as [?|[?|?]]; [done|done|congruence].
  - unfold quiet. destruct (decide (k ∈ nt_known (nd_tracker d'))) as [Hk|]; [|by left].
    destruct (decide (absent_for k (sweeps (l :: h)) ≤ nt_miss_grace (nd_tracker d0))); [by right; left|]. right. right.
    pose proof (tk_known _ _ _ _ _ _ _ T k Hk) as Ht. apply (tk_latched _ _ _ _ _ _ _ T); [done|done|lia| |done|done]. apply Hhid; [done|lia].
Qed.

(** A departure that is vetoed when the grace is over stays silent until the
    node runs again. *)
Lemma silenced d0 ctxs d k l0 h off :
  fresh d0 → run d0 ctxs = (d, off ++ l0 :: h) → countable (off ++ l0 :: h) → k ≠ kCollapsedKey →
  online k (apps_of l0) → (∀ l, l ∈ off → ¬ online k (apps_of l)) →
  (∀ l later earlier, off = later ++ l :: earlier → Z.of_nat (length earlier) = nt_miss_grace (nd_tracker d0) →
     vetoed (nd_chain d0) (cx_gate (lg_ctx l)) k = true) →
  (∀ l, l ∈ off → lg_dead l !! k = None) ∧ quiet d0 d k (off ++ l0 :: h).
Proof.
  intros Hf. revert ctxs d. induction off as [|l off IH]; intros ctxs d Hrun Hc Hne Hon Hoff Hveto.
  - split; [set_solver|]. right. left. destruct (run_sweeps d0 ctxs d _ l0 Hf Hrun Hc) as [_ Hp]; [left|].
    cbn [app fmap list_fmap absent_for]. rewrite bool_decide_eq_true_2 by by apply Hp. by destruct Hf.
  - destruct (run_ticked _ _ _ _ _ Hf Hrun Hc) as (ctxs' & dp & d1 & tracked & Hrun' & _ & W & T). fold (off ++ l0 :: h) in Hrun', W, T.
    destruct (IH ctxs' dp Hrun' (countable_cons _ _ Hc) Hne Hon) as [IH1 IH2].
    { intros l' Hl'. apply Hoff. by right. }
    { intros l' later earlier ->. apply (Hveto l' (l :: later) earlier). done. }
    destruct (quiet_tick _ _ _ _ _ _ _ _ T Hne) as [Hd Hq]; [apply Hoff; left|done| |].
    { intros Habs. apply (Hveto l [] off); [done|].
      pose proof (run_absent d0 ctxs d (l :: off) l0 h k Hf Hrun Hc) as Hn. cbn [length app] in *.
      enough (Z.of_nat (S (length off)) = nt_miss_grace (nd_tracker d0) + 1) by lia. rewrite <-Habs. symmetry. apply Hn; [|done].
      destruct (run_sweeps d0 ctxs d _ l0 Hf Hrun Hc) as [_ Hp]; [|by apply Hp]. right. apply elem_of_app. right. left. }
    split; [|done]. intros l' [->|Hl']%elem_of_cons; [done|by apply IH1].
Qed.
