(* ===== verification/LifecycleExpectationSpec.v ===== *)
(** * Required nodes: two clocks per node

    One node of lifecycle_expectation_tracker.hpp against a pair of clocks, what
    making room for a node costs, and what one update does to every entry and says
    of it. *)

From S2P Require Import Prelude WatchdogGate NodeDeath NodeTrackerSpec NodeDeathSpec LifecycleExpectation.
Open Scope Z_scope.

(** ** One node *)

Definition unmeasured (state : LifecycleObservedState) : bool :=
  match state with kUnreadable | kNotManaged => true | _ => false end.

Record node_ok (grace hold : Z) (n : NodeState) : Prop := {
  no_streak : 0 ≤ ns_violation_streak n ≤ grace + 1;
  no_clock : 0 ≤ ns_unmeasured_clock n ≤ hold + 1;
  no_matured : ns_unmeasured_matured n = (ns_unmeasured_clock n =? hold + 1);
  no_released : ns_unmeasured_matured n = true → ns_violation_streak n = 0;
  no_settled : kDefaultObservationSettleTicks ≤ ns_unmeasured_clock n → unmeasured (ns_settled_observed n) = true;
  no_healthy : ns_settled_observed n = kActive → ns_violation_streak n = 0;
  no_absent : 0 ≤ ns_absent_ticks n ≤ int32_max;
}.

(** The violation streak, and the unmeasured clock with the cause it shows. *)
Record Clocks := mkClocks { ck_streak : Z; ck_unmeasured : option (Z * LifecycleUnmeasuredCause) }.

Definition clocks (n : NodeState) : Clocks :=
  mkClocks (ns_violation_streak n)
    (if ns_unmeasured_clock n =? 0 then None else Some (ns_unmeasured_clock n, ns_cause n)).

Definition at_rest : Clocks := mkClocks 0 None.

(** One reading: a real one resets the unmeasured clock and an active one the
    streak, too; an unmeasured one advances its clock, which keeps its cause and
    releases the streak when it matures. *)
Definition clock_step (grace hold : Z) (reading : LifecycleObservedState) (c : Clocks) : Clocks :=
  match reading with
  | kActive => at_rest
  | kInactive => mkClocks (Z.min (ck_streak c + 1) (grace + 1)) None
  | _ =>
      let '(n, cause) := default (0, CauseUnreadable) (ck_unmeasured c) in
      if n =? hold + 1 then c
      else mkClocks (if n =? hold then 0 else ck_streak c) (Some (n + 1, cause_of reading))
  end.

Section Node.
#[local] Arguments Z.eqb : simpl never.
#[local] Arguments Z.leb : simpl never.
#[local] Arguments Z.ltb : simpl never.
#[local] Arguments Z.add : simpl never.
Context (grace absence_grace hold : Z) (Hgrace : 0 ≤ grace) (Habsence : 0 ≤ absence_grace)
  (Hhold : kDefaultObservationSettleTicks ≤ hold).

Ltac node_cases :=
  repeat match goal with
  | H : _ && _ = true |- _ => apply andb_true_iff in H as [? ?]
  | H : _ || _ = false |- _ => apply orb_false_iff in H as [? ?]
  | H : negb _ = true |- _ => apply negb_true_iff in H
  | H : negb _ = false |- _ => apply negb_false_iff in H
  | H : (_ =? _) = true |- _ => apply Z.eqb_eq in H
  | H : (_ =? _) = false |- _ => apply Z.eqb_neq in H
  | H : (_ <? _) = true |- _ => apply Z.ltb_lt in H
  | H : (_ <? _) = false |- _ => apply Z.ltb_ge in H
  | H : (_ <=? _) = true |- _ => apply Z.leb_le in H
  | H : (_ <=? _) = false |- _ => apply Z.leb_gt in H
  end.

Ltac node_solve :=
  repeat match goal with
  | H : ns_unmeasured_matured _ = _ |- _ => rewrite H in *
  | |- context [?x =? ?y] => destruct (Z.eqb_spec x y)
  | H : context [?x =? ?y] |- _ => destruct (Z.eqb_spec x y)
  end; try done; try lia; try congruence.

Lemma new_node_ok : node_ok grace hold new_node.
Proof.
  unfold kDefaultObservationSettleTicks in *. split; cbn; try done; try (unfold int32_max; lia); node_solve.
Qed.

Lemma classify_label state : classify_observed_state state = kInactive → ∃ label, state = Some label ∧ label ≠ "active".
Proof.
  destruct state as [label|]; cbn; [|done]. destruct (str_eqb_spec label ""); [done|]. destruct (str_eqb_spec label "active"); [done|]. by exists label.
Qed.

Lemma advance_streak_spec n :
  node_ok grace hold n → let n' := (advance_violation_streak grace n).1 in
  n' = with_clocks (Z.min (ns_violation_streak n + 1) (grace + 1)) (ns_unmeasured_clock n) (ns_unmeasured_matured n) n.
Proof.
  intros []. unfold advance_violation_streak. destruct (grace <? ns_violation_streak n) eqn:E; cbn; node_cases.
  - rewrite Z.min_r by lia. replace (grace + 1) with (ns_violation_streak n) by lia. by destruct n.
  - by rewrite Z.min_l by lia.
Qed.

Lemma advance_clock_spec n :
  node_ok grace hold n → let n' := (advance_unmeasured_clock hold n).1 in
  n' = if ns_unmeasured_clock n =? hold + 1 then n
       else with_clocks (if ns_unmeasured_clock n =? hold then 0 else ns_violation_streak n) (ns_unmeasured_clock n + 1)
              (ns_unmeasured_clock n =? hold) n.
Proof.
  intros []. unfold advance_unmeasured_clock. rewrite no_matured0. destruct (Z.eqb_spec (ns_unmeasured_clock n) (hold + 1)); [done|].
  assert (ns_unmeasured_clock n <=? hold = true) as -> by (apply Z.leb_le; lia).
  destruct (Z.eqb_spec (ns_unmeasured_clock n) hold) as [->|]; [by rewrite Z.eqb_refl|].
  by destruct (Z.eqb_spec (ns_unmeasured_clock n + 1) (hold + 1)); [lia|].
Qed.

(** The branch of an unmeasured reading. *)
Definition unmeasured_branch (state : LifecycleObservedState) (n : NodeState) : NodeState :=
  let n := if ns_unmeasured_matured n then n else with_cause (cause_of state) n in
  let n := (advance_unmeasured_clock hold n).1 in
  let settles := negb (ns_unmeasured_matured n) &&
                 (negb (ns_ever_measured n) || (kDefaultObservationSettleTicks <=? ns_unmeasured_clock n)) in
  if settles then with_settled state (ns_ever_measured n) (ns_last_label n) n else n.

Lemma unmeasured_branch_ok state n :
  unmeasured state = true → node_ok grace hold n →
  node_ok grace hold (unmeasured_branch state n) ∧ ns_absent_ticks (unmeasured_branch state n) = ns_absent_ticks n ∧
  clocks (unmeasured_branch state n) = clock_step grace hold state (clocks n).
Proof.
  intros Hu Hn. unfold unmeasured_branch. set (n1 := if ns_unmeasured_matured n then n else with_cause (cause_of state) n).
  assert (node_ok grace hold n1) as Hn1 by (unfold n1; destruct (ns_unmeasured_matured n); [done|by destruct Hn; split]).
  pose proof (advance_clock_spec n1 Hn1) as Ha. cbv zeta in Ha. rewrite Ha. clear Ha.
  assert (ns_unmeasured_clock n1 = ns_unmeasured_clock n ∧ ns_violation_streak n1 = ns_violation_streak n) as [Hc1 Hs1]
    by (unfold n1; by destruct (ns_unmeasured_matured n)).
  assert (clock_step grace hold state (clocks n) = if ns_unmeasured_clock n =? hold + 1 then clocks n
    else mkClocks (if ns_unmeasured_clock n =? hold then 0 else ns_violation_streak n) (Some (ns_unmeasured_clock n + 1, cause_of state))) as ->.
  { unfold clocks, kDefaultObservationSettleTicks in *. destruct (Z.eqb_spec (ns_unmeasured_clock n) 0) as [E0|];
      [rewrite E0|]; destruct state; try done; cbn; node_solve. }
  rewrite Hc1, Hs1. pose proof (no_matured _ _ _ Hn) as Hm. destruct (Z.eqb_spec (ns_unmeasured_clock n) (hold + 1)) as [E|E].
  - assert (n1 = n) as -> by (unfold n1; by rewrite Hm). by rewrite Hm.
  - assert (n1 = with_cause (cause_of state) n) as E1 by (unfold n1; by rewrite Hm). clearbody n1. subst n1.
    destruct Hn as [Hs Hc _ Hr Hset Hh Hab]. unfold kDefaultObservationSettleTicks in *.
    destruct (Z.eqb_spec (ns_unmeasured_clock n) hold) as [E2|E2]; cbn.
    + split; [|split; [done|unfold clocks; cbn; node_solve]]. split; cbn; try done; try lia; node_solve; intros; apply Hset; lia.
    + destruct (negb (ns_ever_measured n) || (6 <=? ns_unmeasured_clock n + 1)) eqn:Es; cbn.
      * split; [|split; [done|unfold clocks; cbn; node_solve]]. split; cbn; try done; try lia; node_solve; by intros ->.
      * apply orb_false_iff in Es as [_ Es%Z.leb_gt]. split; [|split; [done|unfold clocks; cbn; node_solve]].
        split; cbn; try done; unfold kDefaultObservationSettleTicks; try lia; node_solve.
Qed.

Lemma observe_node_ok tick n :
  node_ok grace hold n →
  let n' := (observe_node grace hold tick n).1.1 in
  node_ok grace hold n' ∧ ns_absent_ticks n' = 0 ∧
  clocks n' = clock_step grace hold (classify_observed_state (nk_state tick)) (clocks n).
Proof.
  intros Hn. set (n0 := with_presence (nk_entries tick) 0 n).
  assert (node_ok grace hold n0) as Hn0 by (destruct Hn; split; cbn; try done; unfold int32_max; lia).
  destruct (unmeasured (classify_observed_state (nk_state tick))) eqn:Eu.
  { destruct (unmeasured_branch_ok _ n0 Eu Hn0) as (A & B & C).
    assert ((observe_node grace hold tick n).1.1 = unmeasured_branch (classify_observed_state (nk_state tick)) n0) as ->; [|done].
    unfold observe_node, unmeasured_branch. fold n0. destruct (classify_observed_state (nk_state tick)); try done;
      by destruct (advance_unmeasured_clock hold _). }
  unfold observe_node. fold n0. unfold kDefaultObservationSettleTicks in *. destruct (classify_observed_state (nk_state tick)) eqn:Ec; try done.
  - destruct Hn0. cbn. split; [|done]. split; cbn; try done; try lia; node_solve.
  - set (n1 := with_settled _ _ _ _). assert (node_ok grace hold n1) as Hn1.
    { destruct Hn0. split; cbn; try done; try lia; node_solve. }
    pose proof (advance_streak_spec n1 Hn1) as Ha. destruct (advance_violation_streak grace n1) as [n' crossed]. cbn [fst] in *. subst n'.
    split; [|done]. destruct Hn1. split; cbn in *; try done; try lia; intros; try discriminate.
Qed.

Lemma late_clock_ok n0 :
  node_ok grace hold n0 → unmeasured (ns_settled_observed n0) = true →
  let n' := if ns_unmeasured_clock n0 =? hold + 1 then n0
            else with_clocks (if ns_unmeasured_clock n0 =? hold then 0 else ns_violation_streak n0) (ns_unmeasured_clock n0 + 1)
                   (ns_unmeasured_clock n0 =? hold) n0 in
  node_ok grace hold n' ∧ ns_absent_ticks n' = ns_absent_ticks n0 ∧
  (grace < ns_violation_streak n0 → ns_unmeasured_matured n' = false → grace < ns_violation_streak n').
Proof.
  intros Hn Hs. cbv zeta. destruct (Z.eqb_spec (ns_unmeasured_clock n0) (hold + 1)) as [E|E]; [done|].
  destruct Hn. unfold kDefaultObservationSettleTicks in *. destruct (Z.eqb_spec (ns_unmeasured_clock n0) hold) as [E2|E2]; cbn.
  - split_and!; try done. split; cbn; try done; try lia; node_solve.
  - split_and!; try done. split; cbn; try done; try lia; node_solve.
Qed.

(** A missing tick: inside the tolerance nothing moves; beyond it a node whose
    violation counts keeps it, unless its unmeasured clock matures. *)
Lemma miss_node_ok owned n :
  node_ok grace hold n →
  let n' := (miss_node grace absence_grace hold owned n).1.1 in
  node_ok grace hold n' ∧ ns_absent_ticks n' = Z.min (ns_absent_ticks n + 1) int32_max ∧
  (ns_absent_ticks n' ≤ absence_grace → clocks n' = clocks n) ∧
  (grace < ns_violation_streak n → ns_unmeasured_matured n' = false → grace < ns_violation_streak n').
Proof.
  intros Hn. unfold miss_node. set (absent := if ns_absent_ticks n <? int32_max then _ else _).
  assert (absent = Z.min (ns_absent_ticks n + 1) int32_max) as Hab.
  { unfold absent. destruct Hn. destruct (Z.ltb_spec (ns_absent_ticks n) int32_max); lia. }
  set (n0 := with_presence (ns_entries n) absent n).
  assert (node_ok grace hold n0) as Hn0 by (destruct Hn; split; cbn; try done; lia).
  assert (clocks n0 = clocks n ∧ ns_violation_streak n0 = ns_violation_streak n ∧ ns_absent_ticks n0 = absent) as (Hc0 & Hs0 & Ha0) by done.
  clearbody n0. destruct (Z.leb_spec absent absence_grace) as [Hle|Hgt]; cbn [fst]; [split_and!; done || congruence|].
  unfold kDefaultObservationSettleTicks in *. destruct (ns_settled_observed n0) eqn:Es.
  - unfold release_uncorroborated. destruct (is_content grace n0) eqn:Ei; cbn; [split_and!; done || congruence|].
    pose proof Hn0 as []. rewrite no_healthy0 in * by done. split_and!; try done; try lia.
    split; cbn; try done; try lia. apply orb_false_iff in Ei as [-> _]; node_solve.
  - set (n1 := with_clocks _ _ _ n0). assert (node_ok grace hold n1) as Hn1.
    { assert (ns_unmeasured_clock n0 < 6) as Hlt.
      { destruct Hn0. destruct (Z.lt_ge_cases (ns_unmeasured_clock n0) 6) as [|Hge]; [done|]. apply no_settled0 in Hge. by rewrite Es in Hge. }
      destruct Hn0. split; cbn; try done; try lia; node_solve. }
    destruct (is_content grace n1 || negb owned).
    + pose proof (advance_streak_spec n1 Hn1) as Ha. destruct (advance_violation_streak grace n1) as [n' crossed]. cbn [fst] in *. subst n'.
      split_and!; [|cbn; congruence|cbn; intros; lia|cbn; intros; lia]. destruct Hn1.
      split; cbn in *; try done; try lia; intros; try discriminate; try congruence; node_solve.
    + split_and!; [done|cbn; congruence|cbn; intros; lia|cbn; intros; lia].
  - pose proof (advance_clock_spec n0 Hn0) as Ha. destruct (advance_unmeasured_clock hold n0) as [n' m]. cbn [fst] in *. subst n'.
    destruct (late_clock_ok n0 Hn0 ltac:(by rewrite Es)) as (A & B & C). split_and!; [done|congruence|lia|intros Hlt; rewrite <-Hs0 in Hlt; exact (C Hlt)].
  - pose proof (advance_clock_spec n0 Hn0) as Ha. destruct (advance_unmeasured_clock hold n0) as [n' m]. cbn [fst] in *. subst n'.
    destruct (late_clock_ok n0 Hn0 ltac:(by rewrite Es)) as (A & B & C). split_and!; [done|congruence|lia|intros Hlt; rewrite <-Hs0 in Hlt; exact (C Hlt)].
Qed.
End Node.

(** ** Making room *)

Definition tally (t : LifecycleExpectationTracker) : Z :=
  lt_collapsed_inactive t + lt_collapsed_unreadable t + lt_collapsed_not_managed t.

(** Entries and what has been folded into the counts. *)
Definition weight (t : LifecycleExpectationTracker) : Z := tally t + Z.of_nat (size (lt_nodes t)).

Record tracker_ok (t : LifecycleExpectationTracker) : Prop := {
  tok_grace : 0 ≤ lt_grace t;
  tok_absence : 0 ≤ lt_absence_grace t;
  tok_hold : kDefaultObservationSettleTicks ≤ lt_unmeasured_hold_ticks t;
  tok_cap : 1 ≤ lt_tracked_node_cap t;
  tok_nodes k n : lt_nodes t !! k = Some n → node_ok (lt_grace t) (lt_unmeasured_hold_ticks t) n;
  tok_size : Z.of_nat (size (lt_nodes t)) ≤ lt_tracked_node_cap t;
  tok_inactive : 0 ≤ lt_collapsed_inactive t;
  tok_unreadable : 0 ≤ lt_collapsed_unreadable t;
  tok_not_managed : 0 ≤ lt_collapsed_not_managed t;
}.

(** The settings, which no operation changes. *)
Definition settings (t : LifecycleExpectationTracker) :=
  (lt_require_active t, lt_grace t, lt_absence_grace t, lt_no_match_warn_ticks t, lt_prune_ticks t,
   lt_unmeasured_hold_ticks t, lt_tracked_node_cap t).

Record grows (t t' : LifecycleExpectationTracker) : Prop := {
  gr_settings : settings t' = settings t;
  gr_inactive : lt_collapsed_inactive t ≤ lt_collapsed_inactive t';
  gr_unreadable : lt_collapsed_unreadable t ≤ lt_collapsed_unreadable t';
  gr_not_managed : lt_collapsed_not_managed t ≤ lt_collapsed_not_managed t';
}.

Lemma tally_grows_refl t : grows t t.
Proof. done. Qed.

Lemma tally_grows_trans t t' t'' : grows t t' → grows t' t'' → grows t t''.
Proof. intros [] []. split; [congruence|lia..]. Qed.

Lemma grows_tally t t' : grows t t' → tally t ≤ tally t'.
Proof. intros []. unfold tally. lia. Qed.

Lemma settings_of t t' : settings t' = settings t →
  lt_require_active t' = lt_require_active t ∧ lt_grace t' = lt_grace t ∧ lt_absence_grace t' = lt_absence_grace t ∧
  lt_prune_ticks t' = lt_prune_ticks t ∧ lt_unmeasured_hold_ticks t' = lt_unmeasured_hold_ticks t ∧
  lt_tracked_node_cap t' = lt_tracked_node_cap t.
Proof. by intros [= -> -> -> _ -> -> ->]. Qed.

(** An entry is left alone, or dropped: it was idle, or it had departed and what
    it shows is counted. *)
Definition left_or_dropped (t : LifecycleExpectationTracker) (counted : Prop) (o o' : option NodeState) : Prop :=
  o' = o ∨ ∃ n, o = Some n ∧ o' = None ∧
    (is_idle n = true ∨ (is_departed t n = true ∧ (0 < ns_unmeasured_clock n ∨ lt_grace t < ns_violation_streak n → counted))).

Lemma left_or_dropped_mono t t' (P Q : Prop) o o' :
  settings t' = settings t → (P → Q) → left_or_dropped t P o o' → left_or_dropped t' Q o o'.
Proof.
  intros (_ & Hg & Ha & _)%settings_of HPQ [->|(n & -> & -> & Hn)]; [by left|]. right. exists n. split; [done|]. split; [done|].
  unfold is_departed in *. rewrite Hg, Ha. destruct Hn as [?|[? ?]]; [by left|]. right. split; [done|]. auto.
Qed.

Lemma left_or_dropped_trans t (P : Prop) o o' o'' : left_or_dropped t P o o' → left_or_dropped t P o' o'' → left_or_dropped t P o o''.
Proof. intros [->|(n & -> & -> & Hn)] [->|(n' & ? & -> & Hn')]; [by left|right; by exists n'|right; by exists n|done]. Qed.

Record sheds (t t' : LifecycleExpectationTracker) : Prop := {
  sh_grows : grows t t';
  sh_nodes k : left_or_dropped t (0 < tally t') (lt_nodes t !! k) (lt_nodes t' !! k);
  sh_weight : weight t' ≤ weight t;
}.

Lemma sheds_refl t : sheds t t.
Proof. split; [done|by left|done]. Qed.

Lemma sheds_trans t t' t'' : sheds t t' → sheds t' t'' → sheds t t''.
Proof.
  intros [G N W] [G' N' W']. split; [by eapply tally_grows_trans| |lia]. intros k. eapply left_or_dropped_trans.
  - apply (left_or_dropped_mono t t (0 < tally t')); [done| |exact (N k)]. pose proof (grows_tally _ _ G'). lia.
  - apply (left_or_dropped_mono t' t (0 < tally t'')); [symmetry; apply G|done|exact (N' k)].
Qed.

Lemma sheds_ok t t' : tracker_ok t → sheds t t' → tracker_ok t'.
Proof.
  intros [] [[Hs] N W]. pose proof (settings_of _ _ Hs) as (_ & Hg & Ha & _ & Hh & Hc). 
  assert (lt_nodes t' ⊆ lt_nodes t) as Hsub.
  { apply map_subseteq_spec. intros k n Hk. destruct (N k) as [E|(? & ? & ? & _)]; congruence. }
  split; rewrite ?Hg, ?Ha, ?Hh, ?Hc; try lia; try done.
  - intros k n Hk. apply (tok_nodes0 k). by eapply lookup_weaken.
  - pose proof (map_subseteq_size _ _ Hsub). lia.
Qed.

Lemma with_nodes_grows nodes t : grows t (with_nodes nodes t).
Proof. by split. Qed.

Lemma count_collapsed_grows n t :
  tracker_ok t → tally t < int32_max →
  grows t (count_collapsed n t) ∧ tally (count_collapsed n t) ≤ tally t + 1 ∧
  (0 < ns_unmeasured_clock n ∨ lt_grace t < ns_violation_streak n → 0 < tally (count_collapsed n t)) ∧
  lt_nodes (count_collapsed n t) = lt_nodes t.
Proof.
  intros [] Hmax. unfold tally in *. unfold count_collapsed.
  assert (∀ x, 0 ≤ x → x < int32_max → x +ᵢ 1 = x + 1) as Hw.
  { intros x ? ?. apply wrap_i32_id. unfold in_i32, int32_min, int32_max in *. lia. }
  destruct (ns_unmeasured_matured n || (0 <? ns_unmeasured_clock n)) eqn:E.
  - destruct (ns_cause n); (split_and!; [split; cbn; try done; rewrite Hw by lia; lia|cbn; rewrite Hw by lia; lia| |done]);
      intros _; cbn; rewrite Hw by lia; lia.
  - apply orb_false_iff in E as [_ E%Z.ltb_ge]. destruct (Z.ltb_spec (lt_grace t) (ns_violation_streak n)).
    + split_and!; [split; cbn; try done; rewrite Hw by lia; lia|cbn; rewrite Hw by lia; lia| |done].
      intros _; cbn; rewrite Hw by lia; lia.
    + split_and!; try done; lia.
Qed.

Lemma collapse_one_sheds t k :
  tracker_ok t → weight t ≤ int32_max → (∀ n, lt_nodes t !! k = Some n → is_departed t n = true) → sheds t (collapse_one t k).
Proof.
  intros Hok Hw Hd. unfold collapse_one. destruct (lt_nodes t !! k) as [n|] eqn:Ek; [|apply sheds_refl].
  assert (0 < size (lt_nodes t))%nat as Hsz.
  { apply Nat.neq_0_lt_0. intros E. apply map_size_empty_inv in E. by rewrite E, lookup_empty in Ek. }
  destruct (count_collapsed_grows n t Hok) as (G & T & C & N); [unfold weight in Hw; lia|]. split.
  - eapply tally_grows_trans; [exact G|apply with_nodes_grows].
  - intros x. cbn. rewrite N. destruct (decide (x = k)) as [->|Hx]; [|left; by rewrite lookup_delete_ne].
    rewrite lookup_delete_eq, Ek. right. exists n. split; [done|]. split; [done|]. right. split; [by apply Hd|exact C].
  - unfold weight in *. cbn. rewrite N, map_size_delete_Some by (by eexists). fold (tally (count_collapsed n t)).
    change (tally (with_nodes _ _)) with (tally (count_collapsed n t)). lia.
Qed.

Lemma collapse_all_sheds l t :
  tracker_ok t → weight t ≤ int32_max → (∀ k n, k ∈ l → lt_nodes t !! k = Some n → is_departed t n = true) →
  sheds t (foldl collapse_one t l).
Proof.
  revert t. induction l as [|k l IH]; intros t Hok Hw Hd; cbn [foldl]; [apply sheds_refl|].
  assert (sheds t (collapse_one t k)) as S by (apply collapse_one_sheds; [done..|]; intros; eapply Hd; [left|done]).
  eapply sheds_trans; [exact S|]. apply IH; [by eapply sheds_ok| |].
  - destruct S. lia.
  - intros x n Hx Hn. destruct S as [[Hs] N _]. pose proof (settings_of _ _ Hs) as (_ & _ & Ha & _).
    unfold is_departed. rewrite Ha. apply (Hd x n); [by right|]. destruct (N x) as [<-|(? & ? & ? & _)]; congruence.
Qed.

Lemma departed_keys_departed t k n : k ∈ departed_keys t → lt_nodes t !! k = Some n → is_departed t n = true.
Proof.
  unfold departed_keys. intros ([x m] & -> & [Hd Hx]%list_elem_of_filter)%list_elem_of_fmap Hn. apply elem_of_map_entries in Hx.
  cbn in *. congruence.
Qed.

Lemma collapse_departed_sheds keep t : tracker_ok t → weight t ≤ int32_max → sheds t (collapse_departed keep t).
Proof.
  intros Hok Hw. apply collapse_all_sheds; [done..|]. intros k n Hk. apply departed_keys_departed.
  rewrite elem_of_reverse in Hk. rewrite <-(take_drop keep (departed_keys t)). apply elem_of_app. by right.
Qed.

Lemma make_room_sheds t t' room :
  tracker_ok t → weight t ≤ int32_max → make_room t = (t', room) → sheds t t' ∧ (room = true → full t' = false).
Proof.
  intros Hok Hw. unfold make_room. set (t1 := with_nodes _ t).
  assert (sheds t t1) as S1.
  { split; [apply with_nodes_grows| |].
    - intros k. cbn. destruct (lt_nodes t !! k) as [n|] eqn:Ek.
      + destruct (is_idle n) eqn:Ei.
        * right. exists n. split; [done|]. split; [|by left]. apply map_lookup_filter_None. right. intros x Hx. cbn. congruence.
        * left. apply map_lookup_filter_Some. done.
      + left. apply map_lookup_filter_None. by left.
    - unfold weight. cbn. pose proof (map_subseteq_size _ _ (map_filter_subseteq (λ kn, is_idle kn.2 = false) (lt_nodes t))).
      change (tally t1) with (tally t). lia. }
  pose proof (sheds_ok _ _ Hok S1) as Hok1. pose proof (sh_weight _ _ S1).
  destruct (full t1) eqn:E1; cbn [negb]; [|intros [= <- <-]; done].
  set (t2 := collapse_departed _ t1). assert (sheds t1 t2) as S2 by (apply collapse_departed_sheds; [done|lia]).
  pose proof (sheds_ok _ _ Hok1 S2) as Hok2. pose proof (sh_weight _ _ S2).
  destruct (full t2) eqn:E2; cbn [negb]; [|intros [= <- <-]; split; [by eapply sheds_trans|done]].
  set (t3 := collapse_departed _ t2). assert (sheds t2 t3) as S3 by (apply collapse_departed_sheds; [done|lia]).
  intros [= <- <-]. split; [eapply sheds_trans; [done|by eapply sheds_trans]|by intros ->%negb_true_iff].
Qed.

(** A tracked entry keeps its state; a new one starts from nothing. *)
Lemma expectation_track_spec fqn t t' ok :
  tracker_ok t → weight t < int32_max → track fqn t = (t', ok) →
  tracker_ok t' ∧ grows t t' ∧ weight t' ≤ weight t + 1 ∧
  (∀ k, k ≠ fqn → left_or_dropped t (0 < tally t') (lt_nodes t !! k) (lt_nodes t' !! k)) ∧
  if ok : bool then lt_nodes t' !! fqn = Some (default new_node (lt_nodes t !! fqn)) else lt_nodes t !! fqn = None ∧ lt_nodes t' !! fqn = None.
Proof.
  intros Hok Hw. unfold track. destruct (lt_nodes t !! fqn) as [n|] eqn:Ek.
  { intros [= <- <-]. split_and!; try done; [lia|by left]. }
  assert (∃ t1 room, (if full t then make_room t else (t, true)) = (t1, room) ∧ sheds t t1 ∧ (room = true → full t1 = false))
    as (t1 & room & -> & S & Hroom).
  { destruct (full t) eqn:Ef; [|exists t, true; split; [done|]; split; [apply sheds_refl|done]].
    destruct (make_room t) as [t1 room] eqn:Em. apply make_room_sheds in Em as [? ?]; [by exists t1, room|done|lia]. }
  pose proof (sheds_ok _ _ Hok S) as Hok1. destruct S as [G N W].
  assert (lt_nodes t1 !! fqn = None) as Ek1.
  { destruct (N fqn) as [->|(? & ? & ? & _)]; congruence. }
  destruct room; intros [= <- <-].
  - assert (size (<[fqn:=new_node]> (lt_nodes t1)) = S (size (lt_nodes t1))) as Hsz by by apply map_size_insert_None.
    split_and!.
    + specialize (Hroom eq_refl). unfold full in Hroom. apply Z.leb_gt in Hroom. destruct Hok1. split; cbn; try done; try lia.
      intros k n [[<- <-]|[_ Hk]]%lookup_insert_Some; [|by eapply tok_nodes0]. by apply new_node_ok.
    + eapply tally_grows_trans; [exact G|apply with_nodes_grows].
    + unfold weight in *. cbn. change (tally (with_nodes _ t1)) with (tally t1). lia.
    + intros k Hk. cbn. rewrite lookup_insert_ne by done. exact (N k).
    + cbn. apply lookup_insert_eq.
  - split_and!; done || lia.
Qed.

(** ** One update *)

(** What the matches of one update do to an entry: losses before and after the
    reading is taken. *)
Definition read_in (t : LifecycleExpectationTracker) (counted : Prop) (tick : NodeTick) (o o' : option NodeState) : Prop :=
  ∃ o1, left_or_dropped t counted o o1 ∧
    left_or_dropped t counted
      (Some (observe_node (lt_grace t) (lt_unmeasured_hold_ticks t) tick (default new_node o1)).1.1) o'.

Record matched_all (l : list (string * NodeTick)) (p p' : Pass) : Prop := {
  ma_ok : tracker_ok (ps_tracker p');
  ma_grows : grows (ps_tracker p) (ps_tracker p');
  ma_weight : weight (ps_tracker p') ≤ weight (ps_tracker p) + Z.of_nat (length l);
  ma_saturated : ps_saturated p = true → ps_saturated p' = true;
  ma_other k : k ∉ l.*1 → (k ∈ ps_seen p' ↔ k ∈ ps_seen p) ∧
    left_or_dropped (ps_tracker p) (0 < tally (ps_tracker p')) (lt_nodes (ps_tracker p) !! k) (lt_nodes (ps_tracker p') !! k);
  ma_matched k tick : (k, tick) ∈ l → k ∉ ps_seen p →
    (k ∈ ps_seen p' ∧ read_in (ps_tracker p) (0 < tally (ps_tracker p')) tick (lt_nodes (ps_tracker p) !! k) (lt_nodes (ps_tracker p') !! k)) ∨
    (ps_saturated p' = true ∧ k ∉ ps_seen p' ∧
     left_or_dropped (ps_tracker p) (0 < tally (ps_tracker p')) (lt_nodes (ps_tracker p) !! k) (lt_nodes (ps_tracker p') !! k));
}.

(** The same loss seen from the first tracker. *)
Ltac weaken H := eapply left_or_dropped_mono; [| |exact H]; [congruence|lia || tauto].

Lemma read_in_after t t' P Q tick o o' o'' :
  settings t' = settings t → (P → Q) → read_in t P tick o o' → left_or_dropped t' Q o' o'' → read_in t Q tick o o''.
Proof.
  intros Hs HPQ (o1 & H1 & H2) H3. exists o1. split; [weaken H1|].
  eapply left_or_dropped_trans; [weaken H2|]. weaken H3.
Qed.

Lemma matched_node_spec p k tick :
  tracker_ok (ps_tracker p) → weight (ps_tracker p) < int32_max → matched_all [(k, tick)] p (matched_node p (k, tick)).
Proof.
  intros Hok Hw. unfold matched_node. cbn [fst snd]. destruct (track k (ps_tracker p)) as [t ok] eqn:Et.
  apply expectation_track_spec in Et as (Hok' & G & W & N & Hk); [|done..]. destruct ok; cbn [negb].
  - rewrite Hk. cbn [default from_option id]. set (n0 := default new_node _) in *.
    destruct (observe_node (lt_grace t) (lt_unmeasured_hold_ticks t) tick n0) as [[n crossed] matured] eqn:Eo.
    pose proof (settings_of _ _ (gr_settings _ _ G)) as (_ & Eg & _ & _ & Eh & _).
    assert (size (<[k:=n]> (lt_nodes t)) = size (lt_nodes t)) as Hsz by by apply map_size_insert_Some; eexists.
    split; cbn.
    + pose proof (tok_nodes t Hok' k _ Hk) as Hn0. pose proof Hok' as []. split; cbn; try done; try lia.
      intros x m [[<- <-]|[_ Hx]]%lookup_insert_Some; [|by eapply tok_nodes].
      assert (n = (observe_node (lt_grace t) (lt_unmeasured_hold_ticks t) tick n0).1.1) as -> by by rewrite Eo.
      by apply observe_node_ok.
    + eapply tally_grows_trans; [exact G|apply with_nodes_grows].
    + unfold weight in *. cbn. rewrite Hsz. change (tally (with_nodes _ t)) with (tally t). lia.
    + done.
    + intros x Hx. assert (x ≠ k) as Hne by set_solver. split; [set_solver|]. rewrite lookup_insert_ne by done. by apply N.
    + intros x m [= -> ->]%list_elem_of_singleton Hns. left. split; [set_solver|]. exists (lt_nodes (ps_tracker p) !! k).
      split; [by left|]. left. rewrite lookup_insert_eq. rewrite Eg, Eh in Eo. fold n0. by rewrite Eo.
  - destruct Hk as [Hk Hk']. split; cbn.
    + done.
    + done.
    + cbn. lia.
    + done.
    + intros x Hx. assert (x ≠ k) as Hne by set_solver. split; [done|]. by apply N.
    + intros x m [= -> ->]%list_elem_of_singleton Hns. right. split_and!; [done|done|]. left. by rewrite Hk, Hk'.
Qed.

Lemma matched_all_spec l p :
  NoDup l.*1 → tracker_ok (ps_tracker p) → weight (ps_tracker p) + Z.of_nat (length l) ≤ int32_max →
  matched_all l p (foldl matched_node p l).
Proof.
  revert p. induction l as [|[k tick] l IH]; intros p Hnd Hok Hw; cbn [foldl].
  { split; try done; try (cbn; lia); try set_solver. intros k _. split; [done|by left]. }
  cbn [fmap list_fmap fst length] in *. apply NoDup_cons in Hnd as [Hk Hnd].
  pose proof (matched_node_spec p k tick Hok ltac:(lia)) as M1. set (p1 := matched_node p (k, tick)) in *.
  destruct M1 as [O1 G1 W1 S1 X1 K1]. cbn [length] in W1.
  destruct (IH p1 Hnd O1 ltac:(lia)) as [O2 G2 W2 S2 X2 K2].
  pose proof (gr_settings _ _ G1) as Hs1. pose proof (grows_tally _ _ G2) as T2.
  split.
  - done.
  - by eapply tally_grows_trans.
  - cbn. lia.
  - auto.
  - intros x Hx. apply not_elem_of_cons in Hx as [Hne Hx]. destruct (X1 x) as [A1 B1]; [set_solver|]. destruct (X2 x Hx) as [A2 B2].
    split; [by rewrite A2|]. eapply left_or_dropped_trans; [weaken B1|].
    weaken B2.
  - intros x m Hx Hns. apply elem_of_cons in Hx as [[= -> ->]|Hx].
    + destruct (X2 k Hk) as [A2 B2]. destruct (K1 k tick) as [[Hseen Hr]|(Hsat & Hn & Hl)]; [left|done|..].
      * left. split; [by apply A2|]. eapply read_in_after; [exact Hs1| |exact Hr|exact B2]. lia.
      * right. split_and!; [auto|by rewrite A2|]. eapply left_or_dropped_trans; [weaken Hl|].
        weaken B2.
    + assert (x ≠ k) as Hne by (intros ->; apply Hk, list_elem_of_fmap; by exists (k, m)).
      destruct (X1 x) as [A1 B1]; [set_solver|]. pose proof (settings_of _ _ Hs1) as (_ & Eg & _ & _ & Eh & _).
      assert (left_or_dropped (ps_tracker p) (0 < tally (ps_tracker (foldl matched_node p1 l))) (lt_nodes (ps_tracker p) !! x) (lt_nodes (ps_tracker p1) !! x)) as B1'
        by (weaken B1).
      destruct (K2 x m Hx) as [[Hseen (o1 & R1 & R2)]|(Hsat & Hn & Hl)]; [by rewrite A1|..].
      * left. split; [done|]. exists o1. rewrite Eg, Eh in R2. split; [|weaken R2].
        eapply left_or_dropped_trans; [exact B1'|]. weaken R1.
      * right. split_and!; [done|done|]. eapply left_or_dropped_trans; [exact B1'|]. weaken Hl.
Qed.

Definition owned (presence : option (gset string)) (k : string) : bool :=
  match presence with Some keys => bool_decide (k ∈ keys) | None => false end.

Definition missed (t : LifecycleExpectationTracker) (presence : option (gset string)) (k : string) (n : NodeState) : NodeState :=
  (miss_node (lt_grace t) (lt_absence_grace t) (lt_unmeasured_hold_ticks t) (owned presence k) n).1.1.

(** What a missing tick does to an entry; an idle one may be reclaimed. *)
Definition missed_in (t : LifecycleExpectationTracker) (presence : option (gset string)) (k : string) (o o' : option NodeState)
    : Prop :=
  match o with
  | None => o' = None
  | Some n => o' = Some (missed t presence k n) ∨ (o' = None ∧ is_idle (missed t presence k n) = true)
  end.

Record missed_all (presence : option (gset string)) (l : list string) (p p' : Pass) : Prop := {
  mi_ok : tracker_ok (ps_tracker p');
  mi_grows : grows (ps_tracker p) (ps_tracker p');
  mi_tally : tally (ps_tracker p') = tally (ps_tracker p);
  mi_weight : weight (ps_tracker p') ≤ weight (ps_tracker p);
  mi_saturated : ps_saturated p' = ps_saturated p;
  mi_seen : ps_seen p' = ps_seen p;
  mi_other k : k ∉ l ∨ k ∈ ps_seen p → lt_nodes (ps_tracker p') !! k = lt_nodes (ps_tracker p) !! k;
  mi_missed k : k ∈ l → k ∉ ps_seen p →
    missed_in (ps_tracker p) presence k (lt_nodes (ps_tracker p) !! k) (lt_nodes (ps_tracker p') !! k);
}.

Lemma missed_node_spec presence p k : tracker_ok (ps_tracker p) → missed_all presence [k] p (missed_node presence p k).
Proof.
  intros Hok. unfold missed_node. case_bool_decide as Hseen; [by split; try done; set_solver|].
  destruct (lt_nodes (ps_tracker p) !! k) as [n|] eqn:Ek.
  2:{ split; try done. intros x ->%list_elem_of_singleton _. by rewrite Ek. }
  fold (owned presence k). set (t := ps_tracker p) in *.
  destruct (miss_node _ _ _ (owned presence k) n) as [[n' crossed] matured] eqn:Em.
  assert (n' = missed t presence k n) as -> by (unfold missed; by rewrite Em).
  assert (node_ok (lt_grace t) (lt_unmeasured_hold_ticks t) (missed t presence k n)) as Hn'.
  { pose proof (tok_nodes t Hok k n Ek). destruct Hok. by apply miss_node_ok. }
  match goal with |- context [with_nodes ?x t] => set (nodes := x) end.
  assert (size nodes ≤ size (lt_nodes t))%nat as Hsz.
  { unfold nodes. destruct (_ && _); [rewrite map_size_delete_Some by (by eexists); lia|].
    rewrite map_size_insert_Some by (by eexists). lia. }
  assert (∀ x m, nodes !! x = Some m → m = missed t presence k n ∨ lt_nodes t !! x = Some m) as Hin.
  { intros x m. unfold nodes. destruct (_ && _); [intros [_ ?]%lookup_delete_Some; by right|].
    intros [[_ <-]|[_ ?]]%lookup_insert_Some; [by left|by right]. }
  split; cbn; fold t; try done.
  - pose proof (tok_nodes t Hok) as Hns. destruct Hok. split; cbn; try done; try lia. intros x m [->|?]%Hin; [done|by eapply Hns].
  - unfold weight. cbn. change (tally (with_nodes _ t)) with (tally t). lia.
  - intros x Hx. unfold nodes. destruct (_ && _).
    + rewrite lookup_delete_ne; [done|set_solver].
    + rewrite lookup_insert_ne; [done|set_solver].
  - intros x ->%list_elem_of_singleton _. rewrite Ek. cbn. unfold nodes.
    destruct ((lt_prune_ticks t <? _) && is_idle (missed t presence k n)) eqn:E.
    + apply andb_true_iff in E as [_ E]. right. by rewrite lookup_delete_eq.
    + left. by rewrite lookup_insert_eq.
Qed.

Lemma missed_all_spec presence l p :
  NoDup l → tracker_ok (ps_tracker p) → missed_all presence l p (foldl (missed_node presence) p l).
Proof.
  revert p. induction l as [|k l IH]; intros p Hnd Hok; cbn [foldl].
  { split; try done; set_solver. }
  apply NoDup_cons in Hnd as [Hk Hnd]. destruct (missed_node_spec presence p k Hok) as [O1 G1 T1 W1 S1 E1 X1 K1].
  set (p1 := missed_node presence p k) in *. destruct (IH p1 Hnd O1) as [O2 G2 T2 W2 S2 E2 X2 K2].
  pose proof (settings_of _ _ (gr_settings _ _ G1)) as (_ & Eg & Ea & _ & Eh & _).
  split; try congruence; try done.
  - by eapply tally_grows_trans.
  - lia.
  - intros x Hx. rewrite X2 by set_solver. apply X1. set_solver.
  - intros x Hx Hns. destruct (decide (x = k)) as [->|Hne].
    + rewrite X2 by by left. apply K1; [left|done].
    + rewrite <-(X1 x) by set_solver. assert (x ∈ l) as Hx' by set_solver.
      specialize (K2 x Hx' ltac:(by rewrite E1)). unfold missed_in, missed in *. by rewrite Eg, Ea, Eh in K2.
Qed.

(** What one update does to the entry of [k]. *)
Definition updated (t : LifecycleExpectationTracker) (counted saturated : Prop) (presence : option (gset string)) (k : string)
    (reading : option NodeTick) (o o' : option NodeState) : Prop :=
  match reading with
  | Some tick =>
      read_in t counted tick o o' ∨
      (saturated ∧ ∃ o1, left_or_dropped t counted o o1 ∧ missed_in t presence k o1 o')
  | None => ∃ o1, left_or_dropped t counted o o1 ∧ missed_in t presence k o1 o'
  end.

Record update_ok (matches : list LifecycleMatch) (presence : option (gset string)) (t t' : LifecycleExpectationTracker)
    (report : LifecycleExpectationReport) : Prop := {
  up_ok : tracker_ok t';
  up_grows : grows t t';
  up_weight : weight t' ≤ weight t + Z.of_nat (size (collapse_matches matches));
  up_key k : updated t (0 < tally t') (lr_tracking_saturated report = true) presence k (collapse_matches matches !! k)
               (lt_nodes t !! k) (lt_nodes t' !! k);
  up_affected : lr_affected report = add_collapsed_content (lt_collapsed_inactive t') "not active"
                  (content t' (confirmed_inactive (lt_grace t')) inactive_detail);
  up_unreadable : lr_unreadable_affected report = add_collapsed_content (lt_collapsed_unreadable t')
                    "with an unread lifecycle state" (content t' (owned_by CauseUnreadable) unmeasured_detail);
  up_not_managed : lr_not_managed_affected report = add_collapsed_content (lt_collapsed_not_managed t')
                     "unmanaged" (content t' (owned_by CauseNotManaged) unmeasured_detail);
  up_pending : lr_pending report = nodes_where t' (violation_pending (lt_grace t')) ∪ nodes_where t' unmeasured_pending;
}.

Lemma expectations_update_ok matches presence t t' report :
  tracker_ok t → weight t + Z.of_nat (size (collapse_matches matches)) ≤ int32_max →
  expectations_update matches presence t = (t', report) → update_ok matches presence t t' report.
Proof.
  intros Hok Hw. unfold expectations_update. set (l := map_entries (collapse_matches matches)).
  set (p0 := mkPass t ∅ ∅ ∅ false). assert (length l = size (collapse_matches matches)) as Hl.
  { unfold l. rewrite map_entries_perm. apply length_map_to_list. }
  destruct (matched_all_spec l p0) as [O1 G1 W1 S1 X1 K1]; [apply NoDup_map_entries_keys|done|cbn; lia|].
  set (p1 := foldl matched_node p0 l) in *.
  destruct (missed_all_spec presence (map_entries (lt_nodes (ps_tracker p1))).*1 p1) as [O2 G2 T2 W2 S2 E2 X2 K2];
    [apply NoDup_map_entries_keys|done|].
  set (p2 := foldl (missed_node presence) p1 _) in *. change (ps_tracker p0) with t in *. change (ps_seen p0) with (∅ : gset string) in *.
  destruct (foldl (entry_matched _ _) _ _) as [[no_match reported] nothing]. intros [= <- <-].
  pose proof (settings_of _ _ (gr_settings _ _ G1)) as (_ & Eg & Ea & _ & Eh & _).
  assert (∀ k, k ∉ ps_seen p1 → missed_in (ps_tracker p1) presence k (lt_nodes (ps_tracker p1) !! k) (lt_nodes (ps_tracker p2) !! k)) as Hmiss.
  { intros k Hns. destruct (lt_nodes (ps_tracker p1) !! k) as [n|] eqn:Ek.
    - rewrite <-Ek. apply K2; [|done]. apply list_elem_of_fmap. exists (k, n). split; [done|by apply elem_of_map_entries].
    - cbn. rewrite X2; [done|]. left. intros ([x n] & -> & Hx%elem_of_map_entries)%list_elem_of_fmap. cbn [fst] in Ek. by rewrite Hx in Ek. }
  assert (∀ k o o', missed_in (ps_tracker p1) presence k o o' → missed_in t presence k o o') as Hm.
  { intros k o o'. unfold missed_in, missed. by rewrite Eg, Ea, Eh. }
  split; cbn; try done.
  - by destruct O2.
  - destruct G1 as [G1s ? ? ?], G2 as [G2s ? ? ?]. split; cbn; try lia. unfold settings in *. cbn. congruence.
  - change (tally (mkExpectations _ _ _ _ _ _ _ _ _ _ _ _ _ _)) with (tally (ps_tracker p2)). unfold weight in *. cbn [lt_nodes tally] in *. rewrite Hl in W1. change (tally (mkExpectations _ _ _ _ _ _ _ _ _ _ _ _ _ _)) with (tally (ps_tracker p2)). lia.
  - intros k. change (tally (mkExpectations _ _ _ _ _ _ _ _ _ _ _ _ _ _)) with (tally (ps_tracker p2)). rewrite T2.
    unfold updated. destruct (collapse_matches matches !! k) as [tick|] eqn:Ek.
    + destruct (K1 k tick) as [[Hseen Hr]|(Hsat & Hns & Hd)]; [by apply elem_of_map_entries|set_solver|..].
      * left. by rewrite X2 by by right.
      * right. rewrite S2. split; [done|]. eexists. split; [exact Hd|]. by apply Hm, Hmiss.
    + destruct (X1 k) as [A B].
      { intros ([x n] & -> & Hx%elem_of_map_entries)%list_elem_of_fmap. cbn [fst] in Ek. by rewrite Hx in Ek. }
      eexists. split; [exact B|]. apply Hm, Hmiss. rewrite A. set_solver.
Qed.

(** ** What a report says of a node *)

Lemma content_lookup t p detail k :
  content t p detail !! k = n ← lt_nodes t !! k; if p n then Some (detail k n (is_departed t n)) else None.
Proof. unfold content. by rewrite map_lookup_imap. Qed.

Lemma content_is_Some t p detail k :
  is_Some (content t p detail !! k) ↔ ∃ n, lt_nodes t !! k = Some n ∧ p n = true.
Proof.
  rewrite content_lookup. unfold is_Some. destruct (lt_nodes t !! k) as [n|]; cbn.
  - destruct (p n) eqn:E; split.
    + intros _. by exists n.
    + intros _. by eexists.
    + by intros [].
    + intros (m & [= <-] & ?). congruence.
  - split; [by intros []|by intros (? & ? & _)].
Qed.

Lemma elem_of_nodes_where t p k : k ∈ nodes_where t p ↔ ∃ n, lt_nodes t !! k = Some n ∧ p n = true.
Proof.
  unfold nodes_where. rewrite elem_of_dom. split.
  - intros [n [? ?]%map_lookup_filter_Some]. by exists n.
  - intros (n & ? & ?). exists n. by apply map_lookup_filter_Some.
Qed.

Lemma collapsed_keeps count left_as m k : is_Some (m !! k) → is_Some (add_collapsed_content count left_as m !! k).
Proof. unfold add_collapsed_content. destruct (count <=? 0); [done|]. intros ?. apply lookup_insert_is_Some'. by right. Qed.

Lemma collapsed_adds count left_as m k :
  String.prefix kCollapsedKeyPrefix k = false → add_collapsed_content count left_as m !! k = m !! k.
Proof.
  intros Hk. unfold add_collapsed_content. destruct (count <=? 0); [done|]. apply lookup_insert_ne. intros <-.
  assert (∀ s, String.prefix kCollapsedKeyPrefix (kCollapsedKeyPrefix +:+ s) = true) as Hp by (intros []; reflexivity).
  by rewrite Hp in Hk.
Qed.

Lemma collapsed_nonempty count left_as m : 0 < count → add_collapsed_content count left_as m ≠ ∅.
Proof.
  intros Hc. unfold add_collapsed_content. destruct (Z.leb_spec count 0); [lia|]. apply insert_non_empty.
Qed.

Section Report.
Context (matches : list LifecycleMatch) (presence : option (gset string)) (t t' : LifecycleExpectationTracker)
  (report : LifecycleExpectationReport) (Hup : update_ok matches presence t t' report).

Lemma elem_of_pending k :
  k ∈ lr_pending report ↔ ∃ n, lt_nodes t' !! k = Some n ∧ (violation_pending (lt_grace t') n = true ∨ unmeasured_pending n = true).
Proof. rewrite (up_pending _ _ _ _ _ Hup), elem_of_union, !elem_of_nodes_where. naive_solver. Qed.

(** An entry that is not idle is somewhere in the report. *)
Lemma listed k n :
  lt_nodes t' !! k = Some n → is_idle n = false →
  is_Some (lr_affected report !! k) ∨ k ∈ lr_pending report ∨
  is_Some (lr_unreadable_affected report !! k) ∨ is_Some (lr_not_managed_affected report !! k).
Proof.
  intros Hk Hi. pose proof (tok_nodes _ (up_ok _ _ _ _ _ Hup) k n Hk) as Hn. rewrite elem_of_pending.
  rewrite (up_affected _ _ _ _ _ Hup), (up_unreadable _ _ _ _ _ Hup), (up_not_managed _ _ _ _ _ Hup).
  destruct (ns_unmeasured_matured n) eqn:Em.
  - right. right. destruct (ns_cause n) eqn:Ec; [left|right]; apply collapsed_keeps, content_is_Some; exists n;
      (split; [done|]); unfold owned_by; by rewrite Em, Ec.
  - destruct (confirmed_inactive (lt_grace t') n) eqn:Ei.
    { left. apply collapsed_keeps, content_is_Some. by exists n. }
    right. left. exists n. split; [done|]. unfold violation_pending, unmeasured_pending. rewrite Em, Ei. cbn.
    unfold is_idle in Hi. rewrite Em in Hi. destruct Hn. cbn in Hi. rewrite andb_true_r in *.
    destruct (Z.eqb_spec (ns_violation_streak n) 0); cbn in Hi; [right; apply Z.ltb_lt; apply Z.eqb_neq in Hi; lia|].
    left. apply Z.ltb_lt. lia.
Qed.

Lemma counted_is_content : 0 < tally t' →
  lr_affected report ≠ ∅ ∨ lr_unreadable_affected report ≠ ∅ ∨ lr_not_managed_affected report ≠ ∅.
Proof.
  intros Ht. pose proof (up_ok _ _ _ _ _ Hup) as []. unfold tally in Ht.
  rewrite (up_affected _ _ _ _ _ Hup), (up_unreadable _ _ _ _ _ Hup), (up_not_managed _ _ _ _ _ Hup).
  destruct (decide (0 < lt_collapsed_inactive t')); [left; by apply collapsed_nonempty|].
  destruct (decide (0 < lt_collapsed_unreadable t')); [right; left; by apply collapsed_nonempty|].
  right; right. apply collapsed_nonempty. lia.
Qed.
End Report.

(** ** Departures heal nothing *)

(** A violation of [k] that counts, or something already folded away. *)
Definition holding (k : string) (t : LifecycleExpectationTracker) : Prop :=
  0 < tally t ∨ ∃ n, lt_nodes t !! k = Some n ∧ lt_grace t < ns_violation_streak n ∧ ns_unmeasured_matured n = false.

Lemma clock_step_keeps grace hold reading c :
  reading ≠ kActive → grace < ck_streak c ≤ grace + 1 →
  (∃ cause, ck_unmeasured (clock_step grace hold reading c) = Some (hold + 1, cause)) ∨
  grace < ck_streak (clock_step grace hold reading c).
Proof.
  intros Hr Hc. destruct c as [streak o]. cbn [ck_streak] in Hc.
  destruct reading; [done|right; cbn; lia|..]; (destruct o as [[n cause]|]; cbn [clock_step default from_option id ck_unmeasured ck_streak]);
    repeat match goal with |- context [?x =? ?y] => destruct (Z.eqb_spec x y) end; subst; cbn; eauto; right; lia.
Qed.

Lemma clock_step_unmeasured grace hold reading c :
  unmeasured reading = true → 0 ≤ hold → ∃ n cause, ck_unmeasured (clock_step grace hold reading c) = Some (n, cause).
Proof.
  intros Hu Hh. destruct c as [streak o]. destruct reading; try done;
    (destruct o as [[n cause]|]; cbn [clock_step default from_option id ck_unmeasured]; [destruct (n =? hold + 1)|
     destruct (Z.eqb_spec 0 (hold + 1)); [lia|]]); cbn; eauto.
Qed.

Lemma clocks_matured grace hold n cause :
  node_ok grace hold n → kDefaultObservationSettleTicks ≤ hold →
  ck_unmeasured (clocks n) = Some (hold + 1, cause) → ns_unmeasured_matured n = true.
Proof.
  intros Hn _ H. rewrite (no_matured _ _ _ Hn). unfold clocks in H. cbn in H. destruct (ns_unmeasured_clock n =? 0); [done|].
  injection H as -> _. apply Z.eqb_refl.
Qed.

Lemma dropped_counts t P n o' :
  0 ≤ lt_grace t → left_or_dropped t P (Some n) o' → 0 < ns_unmeasured_clock n ∨ lt_grace t < ns_violation_streak n → o' = Some n ∨ P.
Proof.
  intros Hg [->|(m & [= <-] & -> & Hm)] Hn; [by left|]. destruct Hm as [Hi|[_ Hc]]; [|by right; auto].
  unfold is_idle in Hi. bool_simpl. lia.
Qed.

Lemma holding_step matches presence t t' report k :
  tracker_ok t → update_ok matches presence t t' report → holding k t →
  (∀ tick, collapse_matches matches !! k = Some tick → classify_observed_state (nk_state tick) ≠ kActive) →
  holding k t' ∨ ∃ n, lt_nodes t' !! k = Some n ∧ ns_unmeasured_matured n = true.
Proof.
  intros Hok Hup [Ht|(n & Hk & Hs & Hm)] Hact.
  { left. left. pose proof (grows_tally _ _ (up_grows _ _ _ _ _ Hup)). lia. }
  pose proof (settings_of _ _ (gr_settings _ _ (up_grows _ _ _ _ _ Hup))) as (_ & Eg & _).
  pose proof (tok_nodes _ Hok _ _ Hk) as Hn. pose proof (tok_grace _ Hok) as Hg.
  assert (∀ n', lt_nodes t' !! k = Some n' → ns_unmeasured_matured n' = true ∨ lt_grace t < ns_violation_streak n' →
    holding k t' ∨ ∃ n, lt_nodes t' !! k = Some n ∧ ns_unmeasured_matured n = true) as Hfin.
  { intros n' Hn' Hor. destruct (ns_unmeasured_matured n') eqn:E; [right; by exists n'|]. destruct Hor as [?|?]; [done|].
    left. right. exists n'. by rewrite Eg. }
  assert (∀ o1, left_or_dropped t (0 < tally t') (Some n) o1 → o1 = Some n ∨ 0 < tally t') as Hdrop.
  { intros o1 Ho. eapply dropped_counts; [done|exact Ho|by right]. }
  assert (missed_in t presence k (Some n) (lt_nodes t' !! k) → holding k t' ∨ ∃ n, lt_nodes t' !! k = Some n ∧ ns_unmeasured_matured n = true) as Hmiss.
  { cbn. unfold missed. destruct (miss_node_ok (lt_grace t) (lt_absence_grace t) (lt_unmeasured_hold_ticks t)) with (owned presence k) n
      as (_ & _ & _ & Hkeep); [by destruct Hok..|done|]. fold (missed t presence k n) in *. intros [Hx|[_ Hi]].
    - apply (Hfin _ Hx). destruct (ns_unmeasured_matured (missed t presence k n)); [by left|right; auto].
    - unfold is_idle in Hi. apply andb_true_iff in Hi as [[Hi%Z.eqb_eq _]%andb_true_iff Hi'%negb_true_iff].
      specialize (Hkeep Hs Hi'). lia. }
  pose proof (up_key _ _ _ _ _ Hup k) as Hu. rewrite Hk in Hu. unfold updated in Hu.
  destruct (collapse_matches matches !! k) as [tick|] eqn:Et.
  - destruct Hu as [(o1 & H1 & H2)|(_ & o1 & H1 & H2)].
    + destruct (Hdrop _ H1) as [->|?]; [|by left; left]. cbn [default from_option id] in H2.
      destruct (observe_node_ok (lt_grace t) (lt_unmeasured_hold_ticks t)) with tick n as (Hn' & _ & Hc); [by destruct Hok..|done|].
      set (n' := (observe_node _ _ tick n).1.1) in *. specialize (Hact tick eq_refl).
      assert (ns_unmeasured_matured n' = true ∨ lt_grace t < ns_violation_streak n') as Hor.
      { destruct (clock_step_keeps (lt_grace t) (lt_unmeasured_hold_ticks t) (classify_observed_state (nk_state tick)) (clocks n))
          as [[cause Hm']|Hs']; [done|destruct Hn; cbn; lia|..]; rewrite <-Hc in *; [left|right; exact Hs'].
        eapply clocks_matured; [done| |exact Hm']. by destruct Hok. }
      destruct (dropped_counts _ _ _ _ Hg H2) as [Hx|?]; [|by apply (Hfin _ Hx)|by left; left].
      destruct Hor as [Hm'|?]; [left|by right]. rewrite (no_matured _ _ _ Hn') in Hm'. apply Z.eqb_eq in Hm'.
      destruct Hok. unfold kDefaultObservationSettleTicks in *. lia.
    + destruct (Hdrop _ H1) as [->|?]; [by apply Hmiss|by left; left].
  - destruct Hu as (o1 & H1 & H2). destruct (Hdrop _ H1) as [->|?]; [by apply Hmiss|by left; left].
Qed.
