(* ===== verification/LifecycleDetectorSpec.v ===== *)
(** * Required nodes: the detector

    Runs of the lifecycle expectation detector: what its reports say of a node
    against the readings of that node, what a clearing of GRAPH_NODE_INACTIVE
    promises, and the well-formedness of every state and report. *)

From S2P Require Import Prelude WatchdogGate NodeDeath NodeTrackerSpec NodeDeathSpec LifecycleExpectation LifecycleExpectationSpec.
Open Scope Z_scope.

(** ** Matches *)

Lemma collapse_snoc ms m : collapse_matches (ms ++ [m]) = add_match (collapse_matches ms) m.
Proof. apply foldl_snoc. Qed.

Lemma dom_collapse ms : dom (collapse_matches ms) = list_to_set (lm_fqn <$> ms).
Proof.
  induction ms as [|m ms IH] using rev_ind; [apply dom_empty_L|]. rewrite collapse_snoc. unfold add_match.
  rewrite fmap_app, list_to_set_app_L, <-IH. cbn [fmap list_fmap list_to_set].
  destruct (collapse_matches ms !! lm_fqn m) as [n|] eqn:E; rewrite dom_insert_L; set_solver.
Qed.

Lemma collapse_ranks ms m :
  m ∈ ms → ∃ tick, collapse_matches ms !! lm_fqn m = Some tick ∧
    observed_rank (classify_observed_state (lm_state m)) ≤ observed_rank (classify_observed_state (nk_state tick)).
Proof.
  induction ms as [|m' ms IH] using rev_ind; [set_solver|]. rewrite collapse_snoc. unfold add_match. intros Hm.
  destruct (decide (lm_fqn m = lm_fqn m')) as [E|Hne].
  - rewrite E. destruct (collapse_matches ms !! lm_fqn m') as [n|] eqn:En; rewrite lookup_insert_eq; eexists; (split; [done|]); cbn.
    + apply elem_of_app in Hm as [Hm| ->%list_elem_of_singleton].
      * destruct (IH Hm) as (n' & Hn' & Hle). rewrite E, En in Hn'. injection Hn' as <-.
        destruct (Z.ltb_spec (observed_rank (classify_observed_state (nk_state n))) (observed_rank (classify_observed_state (lm_state m')))); lia.
      * destruct (Z.ltb_spec (observed_rank (classify_observed_state (nk_state n))) (observed_rank (classify_observed_state (lm_state m')))); lia.
    + apply elem_of_app in Hm as [Hm| ->%list_elem_of_singleton]; [|done].
      destruct (IH Hm) as (n' & Hn' & _). congruence.
  - apply elem_of_app in Hm as [Hm| ->%list_elem_of_singleton]; [|done]. destruct (IH Hm) as (n & Hn & Hle). exists n. split; [|done].
    destruct (collapse_matches ms !! lm_fqn m'); by rewrite lookup_insert_ne.
Qed.

Lemma elem_of_find_matches gate required apps m :
  m ∈ find_matches gate required apps ↔
  ∃ app, app ∈ apps ∧ effective_fqn app ≠ "" ∧ lm_entry m ∈ required ∧ named_by (lm_entry m) app = true ∧
    m = mkMatch (lm_entry m) (effective_fqn app) (lifecycle_reading gate app).
Proof.
  unfold find_matches. rewrite list_elem_of_bind. split.
  - intros (app & Hm & Ha). unfold app_matches in Hm. destruct (str_eqb_spec (effective_fqn app) ""); [set_solver|].
    apply list_elem_of_fmap in Hm as (id & -> & [Hn Hid]%list_elem_of_filter). exists app. cbn.
    by rewrite elem_of_set_entries in Hid.
  - intros (app & Ha & Hne & He & Hn & ->). exists app. split; [|done]. unfold app_matches.
    destruct (str_eqb_spec (effective_fqn app) ""); [done|]. apply list_elem_of_fmap. exists (lm_entry m). split; [done|].
    apply list_elem_of_filter. by rewrite elem_of_set_entries.
Qed.

Lemma size_collapse gate required apps :
  (size (collapse_matches (find_matches gate required apps)) ≤ length apps)%nat.
Proof.
  rewrite <-size_dom, dom_collapse. trans (size (list_to_set (effective_fqn <$> apps) : gset string)).
  - apply subseteq_size. intros k. rewrite !elem_of_list_to_set, !list_elem_of_fmap.
    intros (m & -> & (app & Ha & _ & _ & _ & ->)%elem_of_find_matches). by exists app.
  - rewrite <-(length_fmap effective_fqn apps). generalize (effective_fqn <$> apps). intros l.
    induction l as [|x l IH]; [done|]. cbn. rewrite size_union_alt. 
    trans (1 + size (list_to_set l : gset string))%nat; [|lia]. rewrite size_singleton. apply Nat.add_le_mono_l, subseteq_size. set_solver.
Qed.

(** ** Runs of the detector *)

(** Newest first: what the detector was handed, reported and sent. *)
Record ExpectationLog := mkSeen {
  el_ctx : DetectorContext;
  el_report : option LifecycleExpectationReport;
  el_requests : ExpectationRequests;
}.

Definition log_expectation (acc : LifecycleExpectationDetector * list ExpectationLog) (ctx : DetectorContext) :=
  let '(d, report, requests) := expectation_tick ctx acc.1 in (d, mkSeen ctx report requests :: acc.2).

Definition run_expectation (d : LifecycleExpectationDetector) (ctxs : list DetectorContext) :=
  foldl log_expectation (d, []) ctxs.

Abbreviation seen_apps l := (cx_apps (el_ctx l)).

Definition matches_of (required : gset string) (ctx : DetectorContext) : list LifecycleMatch :=
  find_matches (cx_gate ctx) required (cx_apps ctx).

(** What a tick reads of the node [k]. *)
Definition reading (required : gset string) (k : string) (ctx : DetectorContext) : option LifecycleObservedState :=
  (λ tick, classify_observed_state (nk_state tick)) <$> collapse_matches (matches_of required ctx) !! k.

(** How many apps the ticks have seen; the counts of the tracker stay below it. *)
Definition sightings (h : list ExpectationLog) : Z := Z.of_nat (sum_list_with (λ l, length (seen_apps l)) h).

Section Run.
Context (config : config_value).
Let d0 := configure_expectation config.
Let required := le_require_active d0.

Record expecting (d : LifecycleExpectationDetector) (h : list ExpectationLog) : Prop := {
  ex_required : le_require_active d = required;
  ex_settings : settings (le_tracker d) = settings (le_tracker d0);
  ex_ok : tracker_ok (le_tracker d);
  ex_weight : weight (le_tracker d) ≤ sightings h;
  ex_ever e : e ∈ le_ever_matched d ↔ ∃ l, l ∈ h ∧ e ∈ lm_entry <$> matches_of required (el_ctx l);
  ex_unmatched : le_ever_matched d ≠ required → le_unmatched_ticks d = Z.min (Z.of_nat (length h)) (kDefaultUnmeasuredHoldTicks + 1);
}.

Lemma configured_settings :
  tracker_ok (le_tracker d0) ∧ lt_require_active (le_tracker d0) = required ∧ lt_nodes (le_tracker d0) = ∅ ∧ tally (le_tracker d0) = 0 ∧
  lt_absence_grace (le_tracker d0) = kDefaultAbsenceGrace ∧ lt_unmeasured_hold_ticks (le_tracker d0) = kDefaultUnmeasuredHoldTicks.
Proof.
  unfold d0, configure_expectation. cbn.
  assert (0 ≤ read_wide 0 kMaxGrace kDefaultGrace (config_get "grace" config) ≤ kMaxGrace) by by apply read_wide_range.
  assert (1 ≤ read_wide kMinTrackedNodeCap kMaxTrackedNodeCap kDefaultTrackedNodeCap (config_get "tracked_node_cap" config) ≤ kMaxTrackedNodeCap)
    by by apply read_wide_range.
  split_and!; try done. split; cbn; try done; try lia; try (case_match; lia).
  rewrite map_size_empty. case_match; lia.
Qed.

Lemma fresh_expecting : expecting d0 [].
Proof.
  destruct configured_settings as (Hok & _). by split; try done; intros e; split; [|intros (? & ?%not_elem_of_nil & _)].
Qed.

Lemma sightings_cons l h : sightings (l :: h) = Z.of_nat (length (seen_apps l)) + sightings h.
Proof. unfold sightings. cbn. lia. Qed.

Lemma expectation_tick_spec ctx d h d' report requests :
  required ≠ ∅ → expecting d h → sightings (mkSeen ctx report requests :: h) ≤ int32_max →
  expectation_tick ctx d = (d', report, requests) →
  let l := mkSeen ctx report requests in
  ∃ r, report = Some r ∧
    update_ok (matches_of required ctx) (cx_presence_tracked ctx) (le_tracker d) (le_tracker d') r ∧
    expecting d' (l :: h) ∧
    (∀ code source, er_inactive requests = Some (EVENT_PASSED code source) →
       lr_affected r = ∅ ∧ lr_pending r = ∅ ∧ lr_tracking_saturated r = false ∧
       (le_ever_matched d' = required ∨ kDefaultUnmeasuredHoldTicks < Z.of_nat (length (l :: h)))) ∧
    (can_raise ctx → lr_affected r ≠ ∅ →
       ∃ desc, er_inactive requests = Some (EVENT_FAILED kNodeInactive kConfirmedInactiveSeverity desc kGraphWatchdogEntityId)) ∧
    (can_raise ctx → lr_unreadable_affected r ≠ ∅ →
       ∃ desc, er_unreadable requests = Some (EVENT_FAILED kNodeUnreadable kUnmeasuredSeverity desc kGraphWatchdogEntityId)) ∧
    (can_raise ctx → lr_not_managed_affected r ≠ ∅ →
       ∃ desc, er_not_managed requests = Some (EVENT_FAILED kNodeNotManaged kUnmeasuredSeverity desc kGraphWatchdogEntityId)).
Proof.
  intros Hreq [Er Es Eok Ew Ee Eu] Hmax. unfold expectation_tick. rewrite Er, bool_decide_eq_false_2 by done.
  fold (matches_of required ctx). set (ever := le_ever_matched d ∪ _).
  set (never := (size ever <? size required)%nat).
  destruct (expectations_update _ _ (le_tracker d)) as [tracker r] eqn:Eup. intros [= <- <- <-]. cbv zeta. rewrite sightings_cons in Hmax. cbn [el_ctx] in Hmax.
  pose proof (size_collapse (cx_gate ctx) required (cx_apps ctx)) as Hsz. fold (matches_of required ctx) in Hsz.
  apply expectations_update_ok in Eup as Hup; [|done|lia]. cbn [le_tracker le_ever_matched] in *.
  assert (∀ e, e ∈ ever ↔ ∃ l, l ∈ mkSeen ctx (Some r) (mkRequests None None None) :: h ∧ e ∈ lm_entry <$> matches_of required (el_ctx l)) as Hever.
  { intros e. unfold ever. rewrite elem_of_union, Ee, elem_of_list_to_set. split.
    - intros [(l & ? & ?)|?]; [exists l; split; [by right|done]|eexists; split; [left|done]].
    - intros (l & [->|Hl]%elem_of_cons & ?); [by right|left; by exists l]. }
  assert (ever ⊆ required) as Hsub.
  { intros e (l & _ & (m & -> & (app & _ & _ & He & _)%elem_of_find_matches)%list_elem_of_fmap)%Hever. done. }
  assert (ever ≠ required → never = true) as Hlt.
  { intros Hne. apply Nat.ltb_lt, subset_size. split; [done|]. intros ?. apply Hne. set_solver. }
  clearbody never.
  exists r. split; [done|]. split; [done|].
  pose proof (up_grows _ _ _ _ _ Hup) as G. split.
  { split; cbn; try done.
    - rewrite (gr_settings _ _ G). done.
    - apply Hup.
    - rewrite sightings_cons. cbn [el_ctx]. pose proof (up_weight _ _ _ _ _ Hup). lia.
    - intros e. rewrite Hever. split; intros (l & Hl & ?).
      + apply elem_of_cons in Hl as [->|Hl]; [eexists; split; [left|done]|exists l; split; [by right|done]].
      + apply elem_of_cons in Hl as [->|Hl]; [eexists; split; [left|done]|exists l; split; [by right|done]].
    - intros Hne. rewrite (Hlt Hne). cbn [negb].
      assert (le_ever_matched d ≠ required) as Hne'. { intros E. apply Hne. set_solver. }
      rewrite (Eu Hne'). unfold kDefaultUnmeasuredHoldTicks. destruct (Z.leb_spec (Z.min (Z.of_nat (length h)) (60 + 1)) 60); lia. }
  cbn [er_inactive er_unreadable er_not_managed].
  assert (∀ code sev affected order, can_raise ctx → affected ≠ ∅ → ∃ desc, emit_ordered ctx code sev affected order =
    Some (EVENT_FAILED code sev desc kGraphWatchdogEntityId)) as Hemit.
  { intros code sev affected order Hc Ha. unfold emit_ordered. rewrite bool_decide_eq_false_2 by done. eexists. by apply can_raise_fault. }
  split; [|split; [|split]].
  - intros code source. destruct (bool_decide (lr_affected r = ∅)) eqn:Ea; cbn [andb].
    2:{ unfold emit_ordered. rewrite Ea. by intros [= ?]%raise_fault_Some. }
    apply bool_decide_eq_true in Ea. match goal with |- context [if ?b then None else _] => destruct b eqn:Eb end; [done|]. intros _.
    apply orb_false_iff in Eb as [[Hp Hb]%orb_false_iff Hs]. apply negb_false_iff, bool_decide_eq_true in Hp. split_and!; try done.
    destruct (decide (ever = required)) as [|Hne]; [by left|]. right. rewrite (Hlt Hne) in Hb. cbn [negb andb] in Hb.
    assert (le_ever_matched d ≠ required) as Hne'. { intros E. apply Hne. set_solver. }
    rewrite (Eu Hne') in Hb. unfold kDefaultUnmeasuredHoldTicks in *. cbn [length].
    destruct (Z.leb_spec (Z.min (Z.of_nat (length h)) (60 + 1)) 60); [|lia].
    apply andb_false_iff in Hb as [Hb%Z.leb_gt|Hb%Z.leb_gt]; lia.
  - intros Hc Ha. rewrite bool_decide_eq_false_2 by done. cbn [andb]. by apply Hemit.
  - by apply Hemit.
  - by apply Hemit.
Qed.
End Run.

Lemma run_expectation_snoc d ctxs ctx : run_expectation d (ctxs ++ [ctx]) = log_expectation (run_expectation d ctxs) ctx.
Proof. apply foldl_snoc. Qed.

Definition affected_of (l : ExpectationLog) : gmap string string := from_option lr_affected ∅ (el_report l).
Definition unreadable_of (l : ExpectationLog) : gmap string string := from_option lr_unreadable_affected ∅ (el_report l).
Definition not_managed_of (l : ExpectationLog) : gmap string string := from_option lr_not_managed_affected ∅ (el_report l).
Definition pending_of (l : ExpectationLog) : gset string := from_option lr_pending ∅ (el_report l).

(** The node is reported under one of the codes for unmeasured nodes. *)
Definition unmeasured_reported (k : string) (l : ExpectationLog) : Prop :=
  is_Some (unreadable_of l !! k) ∨ is_Some (not_managed_of l !! k).

Section Spec.
Context (config : config_value).
#[local] Notation d0 := (configure_expectation config).
#[local] Notation required := (le_require_active d0).

(** Every tick of a run. *)
Lemma run_expected ctxs d l h :
  run_expectation d0 ctxs = (d, l :: h) → required ≠ ∅ → sightings (l :: h) ≤ int32_max →
  ∃ ctxs' dp, run_expectation d0 ctxs' = (dp, h) ∧ expecting config dp h ∧
    expectation_tick (el_ctx l) dp = (d, el_report l, el_requests l).
Proof.
  intros Hrun Hreq. revert d l h Hrun. induction ctxs as [|ctx ctxs IH] using rev_ind; [done|]. intros d l h Hrun Hmax.
  rewrite run_expectation_snoc in Hrun. destruct (run_expectation d0 ctxs) as [dp hp] eqn:Er.
  unfold log_expectation in Hrun. cbn [fst snd] in Hrun. destruct (expectation_tick ctx dp) as [[d' report] requests] eqn:Et.
  injection Hrun as <- <- <-. exists ctxs, dp. split; [done|]. split; [|done]. rewrite sightings_cons in Hmax.
  destruct hp as [|l' h']; [|].
  - destruct ctxs as [|c ctxs _] using rev_ind; [injection Er as <-; apply fresh_expecting|]. rewrite run_expectation_snoc in Er.
    unfold log_expectation in Er. by destruct (expectation_tick c _) as [[? ?] ?].
  - destruct (IH dp l' h' eq_refl) as (ctxs' & dp' & _ & W & Ht); [lia|].
    destruct l' as [c' r' q']. cbn in Ht. by destruct (expectation_tick_spec config c' dp' h' dp r' q' Hreq W ltac:(lia) Ht) as (r & _ & _ & ? & _).
Qed.

Lemma holding_at_report ctxs d l h k :
  run_expectation d0 ctxs = (d, l :: h) → required ≠ ∅ → sightings (l :: h) ≤ int32_max →
  is_Some (affected_of l !! k) → holding k (le_tracker d).
Proof.
  intros Hrun Hreq Hmax Hk. destruct (run_expected _ _ _ _ Hrun Hreq Hmax) as (ctxs' & dp & _ & W & Ht). destruct l as [ctx report requests].
  destruct (expectation_tick_spec config ctx dp h d report requests Hreq W Hmax Ht) as (r & -> & Hup & _). cbn in Hk.
  rewrite (up_affected _ _ _ _ _ Hup) in Hk. unfold add_collapsed_content in Hk. pose proof (up_ok _ _ _ _ _ Hup) as Hok.
  destruct (Z.leb_spec (lt_collapsed_inactive (le_tracker d)) 0) as [Hle|Hgt].
  - apply content_is_Some in Hk as (n & Hn & Hc). right. exists n. split; [done|]. unfold confirmed_inactive in Hc.
    apply andb_true_iff in Hc as [[Hm%negb_true_iff _]%andb_true_iff Hs%Z.ltb_lt]. done.
  - left. destruct Hok. unfold tally. lia.
Qed.

Lemma holding_run ctxs d later l' h k :
  run_expectation d0 ctxs = (d, later ++ l' :: h) → required ≠ ∅ → sightings (later ++ l' :: h) ≤ int32_max →
  is_Some (affected_of l' !! k) → (∀ l, l ∈ later → reading required k (el_ctx l) ≠ Some kActive) →
  (∀ l, l ∈ later → ¬ unmeasured_reported k l) → holding k (le_tracker d).
Proof.
  intros Hrun Hreq. revert ctxs d Hrun. induction later as [|l later IH]; intros ctxs d Hrun Hmax Hk Hact Hun.
  { by eapply holding_at_report. }
  cbn [app] in *. destruct (run_expected _ _ _ _ Hrun Hreq Hmax) as (ctxs' & dp & Hrun' & W & Ht).
  assert (holding k (le_tracker dp)) as Hp.
  { eapply IH; [done| |done|..]; [rewrite sightings_cons in Hmax; lia|intros ? ?; apply Hact; by right|intros ? ?; apply Hun; by right]. }
  destruct l as [ctx report requests]. destruct (expectation_tick_spec config ctx dp _ d report requests Hreq W Hmax Ht) as (r & -> & Hup & _).
  destruct (holding_step _ _ _ _ _ k (ex_ok _ _ _ W) Hup Hp) as [|(n & Hn & Hm)]; [|done|].
  - intros tick Htick E. apply (Hact (mkSeen ctx (Some r) requests)); [left|]. cbn [el_ctx]. unfold reading.
    rewrite Htick. cbn. by rewrite E.
  - destruct (Hun (mkSeen ctx (Some r) requests)); [left|]. unfold unmeasured_reported, unreadable_of, not_managed_of. cbn.
    rewrite (up_unreadable _ _ _ _ _ Hup), (up_not_managed _ _ _ _ _ Hup).
    destruct (ns_cause n) eqn:Ec; [left|right]; apply collapsed_keeps, content_is_Some; exists n; (split; [done|]); unfold owned_by; by rewrite Hm, Ec.
Qed.

(** C15: When the detector asks for GRAPH_NODE_INACTIVE to be cleared, every entry has
    matched a node or had sixty ticks to do so; every node that an entry names
    reads active, or is reported as unmeasured; and a violation that was reported
    before has ended by a reading of active, or is reported as unmeasured now or
    was since: neither a departure nor the cap ends one. *)
Theorem inactive_clear_is_honest ctxs d l h code source :
  run_expectation d0 ctxs = (d, l :: h) → sightings (l :: h) ≤ int32_max →
  er_inactive (el_requests l) = Some (EVENT_PASSED code source) →
  (∀ e, e ∈ required → kDefaultUnmeasuredHoldTicks < Z.of_nat (length (l :: h)) ∨
     ∃ l' app, l' ∈ l :: h ∧ app ∈ seen_apps l' ∧ named_by e app = true) ∧
  (∀ e app, e ∈ required → app ∈ seen_apps l → named_by e app = true → effective_fqn app ≠ "" →
     lifecycle_reading (cx_gate (el_ctx l)) app = Some "active" ∨ unmeasured_reported (effective_fqn app) l) ∧
  (∀ later l' earlier k, l :: h = later ++ l' :: earlier → is_Some (affected_of l' !! k) →
     (∃ l'', l'' ∈ later ∧ (reading required k (el_ctx l'') = Some kActive ∨ unmeasured_reported k l'')) ∨
     unreadable_of l ≠ ∅ ∨ not_managed_of l ≠ ∅).
Proof.
  intros Hrun Hmax Hp. assert (required ≠ ∅) as Hreq.
  { intros E. assert (∀ ctxs d h, run_expectation d0 ctxs = (d, h) → le_require_active d = required ∧ ∀ l, l ∈ h → er_inactive (el_requests l) = None) as Hall.
    { clear -E. intros ctxs. induction ctxs as [|ctx ctxs IH] using rev_ind; intros d h; [intros [= <- <-]; split; [done|set_solver]|].
      rewrite run_expectation_snoc. destruct (run_expectation d0 ctxs) as [dp hp]. destruct (IH dp hp eq_refl) as [Hr Hh].
      unfold log_expectation, expectation_tick. cbn [fst snd]. rewrite Hr, bool_decide_eq_true_2 by done. intros [= <- <-].
      split; [done|]. intros l [->|Hl]%elem_of_cons; [done|by apply Hh]. }
    destruct (Hall _ _ _ Hrun) as [_ Hl]. rewrite (Hl l) in Hp; [done|left]. }
  destruct (run_expected _ _ _ _ Hrun Hreq Hmax) as (ctxs' & dp & Hrun' & W & Ht). destruct l as [ctx report requests].
  destruct (expectation_tick_spec config ctx dp h d report requests Hreq W Hmax Ht) as (r & -> & Hup & W' & Hpass & _).
  cbn [el_requests el_ctx] in *. destruct (Hpass _ _ Hp) as (Ha & Hpend & Hsat & Hever). split_and!.
  - intros e He. destruct Hever as [Hever|?]; [|by left]. right.  rewrite <-Hever in He.
    apply (ex_ever _ _ _ W') in He as (l' & Hl' & (m & -> & (app & ? & _ & _ & ? & _)%elem_of_find_matches)%list_elem_of_fmap). by exists l', app.
  - intros e app He Happ Hn Hfqn. set (m := mkMatch e (effective_fqn app) (lifecycle_reading (cx_gate ctx) app)).
    destruct (collapse_ranks (matches_of required ctx) m) as (tick & Htick & Hrank).
    { apply elem_of_find_matches. exists app. done. }
    cbn [lm_fqn lm_state m] in *. destruct (decide (classify_observed_state (nk_state tick) = kActive)) as [E|Hne].
    { left. rewrite E in Hrank. destruct (lifecycle_reading (cx_gate ctx) app) as [label|]; cbn in Hrank; [|lia].
      destruct (str_eqb_spec label ""); cbn in Hrank; [lia|]. destruct (str_eqb_spec label "active") as [->|]; [done|cbn in Hrank; lia]. }
    right. pose proof (up_key _ _ _ _ _ Hup (effective_fqn app)) as Hu. rewrite Htick in Hu. cbn in Hu.
    rewrite Hsat in Hu. destruct Hu as [(o1 & H1 & H2)|[? _]]; [|done].
    pose proof (ex_ok _ _ _ W) as Hok. destruct (configured_settings config) as (Hok0 & _).
    set (n0 := default new_node o1) in *.
    assert (node_ok (lt_grace (le_tracker dp)) (lt_unmeasured_hold_ticks (le_tracker dp)) n0) as Hn0.
    { unfold n0. destruct o1 as [n|]; cbn; [|by destruct Hok; apply new_node_ok]. eapply (tok_nodes _ Hok (effective_fqn app)).
      destruct H1 as [?|(? & _ & ? & _)]; congruence. }
    destruct (observe_node_ok (lt_grace (le_tracker dp)) (lt_unmeasured_hold_ticks (le_tracker dp))) with tick n0 as (Hn' & Habs & Hc); [by destruct Hok..|done|].
    set (n' := (observe_node _ _ tick n0).1.1) in *. assert (is_idle n' = false) as Hi.
    { destruct (is_idle n') eqn:Hi; [|done]. unfold is_idle in Hi. apply andb_true_iff in Hi as [[Hs%Z.eqb_eq Hcl%Z.eqb_eq]%andb_true_iff _].
      unfold clocks in Hc. rewrite Hs, Hcl in Hc. cbn in Hc. exfalso. clear -Hc Hne Hok Hn0. destruct (classify_observed_state (nk_state tick)) eqn:Ecl; [done|..].
      - cbn in Hc. injection Hc as Hc. destruct Hok, Hn0. lia.
      - by destruct (clock_step_unmeasured (lt_grace (le_tracker dp)) (lt_unmeasured_hold_ticks (le_tracker dp)) kUnreadable (clocks n0) eq_refl) as (? & ? & E); [destruct Hok; unfold kDefaultObservationSettleTicks in *; lia|]; unfold clocks in E; rewrite <-Hc in E.
      - by destruct (clock_step_unmeasured (lt_grace (le_tracker dp)) (lt_unmeasured_hold_ticks (le_tracker dp)) kNotManaged (clocks n0) eq_refl) as (? & ? & E); [destruct Hok; unfold kDefaultObservationSettleTicks in *; lia|]; unfold clocks in E; rewrite <-Hc in E. }
    destruct H2 as [H2|(n & [= <-] & _ & [?|[Hdep _]])]; [|congruence|].
    2:{ unfold is_departed in Hdep. rewrite Habs in Hdep. apply Z.ltb_lt in Hdep. destruct Hok. lia. }
    destruct (listed _ _ _ _ _ Hup _ _ H2 Hi) as [Hx|[Hx|Hx]]; [rewrite Ha in Hx; by destruct Hx|rewrite Hpend in Hx; set_solver|exact Hx].
  - intros later l' earlier k Heq Hk. destruct later as [|l2 later]; [injection Heq as <- <-; unfold affected_of in Hk; cbn in Hk; rewrite Ha in Hk; by destruct Hk|].
    assert (holding k (le_tracker d) ∨ ∃ l'', l'' ∈ l2 :: later ∧ (reading required k (el_ctx l'') = Some kActive ∨ unmeasured_reported k l'')) as Hor.
    { destruct (decide (Exists (λ l'', reading required k (el_ctx l'') = Some kActive ∨ unmeasured_reported k l'') (l2 :: later))) as [He|He].
      - right. apply Exists_exists in He as (l'' & ? & ?). by exists l''.
      - left. rewrite Heq in Hrun, Hmax. eapply holding_run; [exact Hrun|done|done|exact Hk|..]; intros l'' Hl'' Hx; apply He, Exists_exists; exists l''; tauto. }
    destruct Hor as [[Ht'|(n & Hn & Hs & Hm)]|Hor]; [|..].
    + right. destruct (counted_is_content _ _ _ _ _ Hup Ht') as [?|?]; done.
    + left. exists (mkSeen ctx (Some r) requests). injection Heq as <- _. split; [left|]. right.
      assert (is_idle n = false) as Hi.
      { unfold is_idle. destruct (Z.eqb_spec (ns_violation_streak n) 0); [|done]. pose proof (tok_grace _ (up_ok _ _ _ _ _ Hup)). lia. }
      destruct (listed _ _ _ _ _ Hup _ _ Hn Hi) as [Hx|[Hx|Hx]]; [rewrite Ha in Hx; by destruct Hx|rewrite Hpend in Hx; set_solver|exact Hx].
    + by left.
Qed.
End Spec.

(** ** The abstract node: two clocks over its readings *)

(** Readings are newest first; a tick that does not see the node moves nothing. *)
Fixpoint two_clocks (grace hold : Z) (readings : list (option LifecycleObservedState)) : Clocks :=
  match readings with
  | [] => at_rest
  | None :: earlier => two_clocks grace hold earlier
  | Some r :: earlier => clock_step grace hold r (two_clocks grace hold earlier)
  end.

(** How long the node has been out of sight. *)
Fixpoint away (readings : list (option LifecycleObservedState)) : Z :=
  match readings with None :: earlier => away earlier + 1 | _ => 0 end.

(** Once it was seen, the node is never out of sight for longer than [absence_grace]. *)
Fixpoint blinks (absence_grace : Z) (readings : list (option LifecycleObservedState)) : Prop :=
  match readings with
  | [] => True
  | _ :: earlier => (away readings ≤ absence_grace ∨ ∀ r, r ∈ readings → r = None) ∧ blinks absence_grace earlier
  end.

Definition readings_of (required : gset string) (k : string) (h : list ExpectationLog) : list (option LifecycleObservedState) :=
  (λ l, reading required k (el_ctx l)) <$> h.

Definition saturated_at (l : ExpectationLog) : bool := from_option lr_tracking_saturated false (el_report l).

(** What the tracker holds of [k] is the abstract node, and an entry that is gone
    is a node at rest. *)
Definition follows (grace hold : Z) (k : string) (readings : list (option LifecycleObservedState)) (t : LifecycleExpectationTracker)
    : Prop :=
  match lt_nodes t !! k with
  | None => two_clocks grace hold readings = at_rest
  | Some n => clocks n = two_clocks grace hold readings ∧ ns_absent_ticks n ≤ away readings ∧ ∃ r, Some r ∈ readings
  end.

Lemma idle_at_rest n : is_idle n = true → clocks n = at_rest.
Proof. unfold is_idle, clocks. intros ([->%Z.eqb_eq Hc]%andb_true_iff & _)%andb_true_iff. by rewrite Hc. Qed.

Lemma away_nonneg rs : 0 ≤ away rs.
Proof. induction rs as [|[r|] rs IH]; cbn; lia. Qed.

Lemma present_loses_idle t P n o' :
  ns_absent_ticks n ≤ lt_absence_grace t → left_or_dropped t P (Some n) o' → o' = Some n ∨ (o' = None ∧ clocks n = at_rest).
Proof.
  intros Ha [->|(m & [= <-] & -> & [Hi|[Hd _]])]; [by left|right; split; [done|by apply idle_at_rest]|].
  unfold is_departed in Hd. apply Z.ltb_lt in Hd. lia.
Qed.

Lemma follows_step matches presence t t' report k rs :
  tracker_ok t → update_ok matches presence t t' report → lr_tracking_saturated report = false →
  let r := (λ tick, classify_observed_state (nk_state tick)) <$> collapse_matches matches !! k in
  blinks (lt_absence_grace t) rs → blinks (lt_absence_grace t) (r :: rs) →
  follows (lt_grace t) (lt_unmeasured_hold_ticks t) k rs t →
  follows (lt_grace t) (lt_unmeasured_hold_ticks t) k (r :: rs) t'.
Proof.
  intros Hok Hup Hsat r _ [Hb Hbs] Hf. pose proof (up_key _ _ _ _ _ Hup k) as Hu. unfold follows in Hf. pose proof (tok_absence _ Hok) as Hab.
  assert (∀ n, lt_nodes t !! k = Some n → ns_absent_ticks n ≤ lt_absence_grace t) as Hpres.
  { intros n Hn. rewrite Hn in Hf. destruct Hf as (_ & Ha & r0 & Hr0). destruct rs as [|x rs]; [by apply not_elem_of_nil in Hr0|].
    destruct Hbs as [[?|Hnone] _]; [lia|]. by apply Hnone in Hr0. }
  assert (∀ P o1, left_or_dropped t P (lt_nodes t !! k) o1 →
    o1 = lt_nodes t !! k ∨ (o1 = None ∧ two_clocks (lt_grace t) (lt_unmeasured_hold_ticks t) rs = at_rest)) as Hlost.
  { intros P o1 Ho. destruct (lt_nodes t !! k) as [n|] eqn:Ek.
    - destruct (present_loses_idle _ _ _ _ (Hpres n eq_refl) Ho) as [?|[? Hc]]; [by left|]. right. split; [done|]. destruct Hf; congruence.
    - destruct Ho as [?|(? & ? & _)]; [by left|done]. }
  unfold updated in Hu. subst r. destruct (collapse_matches matches !! k) as [tick|] eqn:Et; cbn [fmap option_fmap option_map] in *.
  - destruct Hu as [(o1 & H1 & H2)|[? _]]; [|congruence].
    assert (clocks (default new_node o1) = two_clocks (lt_grace t) (lt_unmeasured_hold_ticks t) rs ∧
            node_ok (lt_grace t) (lt_unmeasured_hold_ticks t) (default new_node o1)) as [Hc Hn].
    { destruct (Hlost _ _ H1) as [-> |[-> Hrest]]; [|split; [done|destruct Hok; by apply new_node_ok]].
      destruct (lt_nodes t !! k) as [n|] eqn:Ek; cbn; [split; [tauto|by eapply (tok_nodes _ Hok)]|].
      split; [done|destruct Hok; by apply new_node_ok]. }
    destruct (observe_node_ok (lt_grace t) (lt_unmeasured_hold_ticks t)) with tick (default new_node o1) as (_ & Ha & Hc'); [by destruct Hok..|done|].
    rewrite Hc in Hc'. set (n' := (observe_node _ _ tick _).1.1) in *. unfold follows. cbn [two_clocks].
    destruct (present_loses_idle t _ n' _ ltac:(lia) H2) as [-> |[-> Hrest]]; [|congruence].
    split; [done|]. split; [cbn; lia|]. eexists. by left.
  - destruct Hu as (o1 & H1 & H2). unfold follows. cbn [two_clocks away]. destruct (Hlost _ _ H1) as [-> |[-> Hrest]].
    2:{ cbn in H2. by rewrite H2. }
    destruct (lt_nodes t !! k) as [n|] eqn:Ek; cbn in H2; [|by rewrite H2].
    destruct Hf as (Hc & Ha & r0 & Hr0). unfold missed in H2.
    destruct (miss_node_ok (lt_grace t) (lt_absence_grace t) (lt_unmeasured_hold_ticks t)) with (owned presence k) n
      as (_ & Ha' & Hkeep & _); [by destruct Hok..|by eapply (tok_nodes _ Hok)|].
    set (n' := (miss_node _ _ _ (owned presence k) n).1.1) in *.
    assert (away (None :: rs) ≤ lt_absence_grace t) as Haway.
    { destruct Hb as [?|Hnone]; [done|]. specialize (Hnone (Some r0) ltac:(by right)). done. }
    cbn in Haway. destruct H2 as [-> |[-> Hi]].
    + split; [|split; [lia|exists r0; by right]]. rewrite Hkeep; [done|lia].
    + rewrite <-Hc, <-Hkeep by lia. by apply idle_at_rest.
Qed.

Section Clocks.
Context (config : config_value).
#[local] Notation d0 := (configure_expectation config).
#[local] Notation required := (le_require_active d0).
#[local] Notation grace := (lt_grace (le_tracker d0)).

Lemma expecting_settings d h : expecting config d h →
  lt_grace (le_tracker d) = grace ∧ lt_absence_grace (le_tracker d) = kDefaultAbsenceGrace ∧
  lt_unmeasured_hold_ticks (le_tracker d) = kDefaultUnmeasuredHoldTicks ∧
  lt_tracked_node_cap (le_tracker d) = lt_tracked_node_cap (le_tracker d0).
Proof.
  intros W. destruct (configured_settings config) as (_ & _ & _ & _ & Ha & Hh).
  pose proof (settings_of _ _ (ex_settings _ _ _ W)) as (_ & -> & -> & _ & -> & ->). done.
Qed.

Lemma run_log_nil ctxs d : run_expectation d0 ctxs = (d, []) → d = d0.
Proof.
  destruct ctxs as [|ctx ctxs _] using rev_ind; [by intros [= <-]|]. rewrite run_expectation_snoc. unfold log_expectation.
  by destruct (expectation_tick ctx _) as [[? ?] ?].
Qed.

Lemma run_follows ctxs d h k :
  run_expectation d0 ctxs = (d, h) → required ≠ ∅ → sightings h ≤ int32_max →
  (∀ l, l ∈ h → saturated_at l = false) → blinks kDefaultAbsenceGrace (readings_of required k h) →
  follows grace kDefaultUnmeasuredHoldTicks k (readings_of required k h) (le_tracker d).
Proof.
  intros Hrun Hreq. revert ctxs d Hrun. induction h as [|l h IH]; intros ctxs d Hrun Hmax Hsat Hb.
  { apply run_log_nil in Hrun as ->. destruct (configured_settings config) as (_ & _ & Hn & _). unfold follows. by rewrite Hn, lookup_empty. }
  destruct (run_expected _ _ _ _ _ Hrun Hreq Hmax) as (ctxs' & dp & Hrun' & W & Ht). destruct l as [ctx report requests].
  destruct (expectation_tick_spec config ctx dp h d report requests Hreq W Hmax Ht) as (r & -> & Hup & _).
  destruct (expecting_settings _ _ W) as (Hg & Ha & Hh & _). cbn [el_ctx] in Hup.
  assert (follows grace kDefaultUnmeasuredHoldTicks k (readings_of required k h) (le_tracker dp)) as Hf.
  { eapply IH; [exact Hrun'|rewrite sightings_cons in Hmax; lia|intros ? ?; apply Hsat; by right|apply Hb]. }
  rewrite <-Hg, <-Hh in Hf |- *. rewrite <-Ha in Hb. eapply (follows_step _ _ _ _ _ k); [apply W|exact Hup| |apply Hb|exact Hb|exact Hf].
  exact (Hsat (mkSeen ctx (Some r) requests) ltac:(by left)).
Qed.

(** A report, given the entry. *)
Lemma clocks_confirmed grace' hold n :
  node_ok grace' hold n → kDefaultObservationSettleTicks ≤ hold →
  (confirmed_inactive grace' n = true ↔ ck_unmeasured (clocks n) = None ∧ grace' < ck_streak (clocks n)).
Proof.
  intros [] Hh. unfold confirmed_inactive, clocks, kDefaultObservationSettleTicks in *. rewrite no_matured. cbn.
  destruct (Z.eqb_spec (ns_unmeasured_clock n) 0) as [E|E].
  - rewrite E. destruct (Z.eqb_spec 0 (hold + 1)); [lia|]. cbn. rewrite Z.ltb_lt. tauto.
  - rewrite andb_false_r. naive_solver.
Qed.

Lemma clocks_owned grace' hold cause n :
  node_ok grace' hold n → kDefaultObservationSettleTicks ≤ hold →
  (owned_by cause n = true ↔ ck_unmeasured (clocks n) = Some (hold + 1, cause)).
Proof.
  intros [] Hh. unfold owned_by, clocks, kDefaultObservationSettleTicks in *. rewrite no_matured. cbn.
  destruct (Z.eqb_spec (ns_unmeasured_clock n) (hold + 1)) as [E|E]; cbn.
  - rewrite E. destruct (Z.eqb_spec (hold + 1) 0); [lia|]. rewrite bool_decide_eq_true. naive_solver.
  - destruct (Z.eqb_spec (ns_unmeasured_clock n) 0); naive_solver.
Qed.

Lemma clocks_pending grace' hold n :
  node_ok grace' hold n → kDefaultObservationSettleTicks ≤ hold →
  (violation_pending grace' n = true ∨ unmeasured_pending n = true ↔
   match ck_unmeasured (clocks n) with Some (m, _) => m ≤ hold | None => 0 < ck_streak (clocks n) ≤ grace' end).
Proof.
  intros Hn Hh. pose proof (clocks_confirmed _ _ _ Hn Hh) as Hc. pose proof Hn as [].
  unfold violation_pending, unmeasured_pending, clocks, kDefaultObservationSettleTicks in *. cbn in *. rewrite no_matured.
  destruct (Z.eqb_spec (ns_unmeasured_clock n) (hold + 1)) as [E|E]; cbn.
  { rewrite E. destruct (Z.eqb_spec (hold + 1) 0); [lia|]. naive_solver lia. }
  destruct (Z.eqb_spec (ns_unmeasured_clock n) 0) as [E0|E0]; rewrite andb_true_iff, !Z.ltb_lt, negb_true_iff.
  - destruct (confirmed_inactive grace' n); [destruct Hc as [Hc _]; specialize (Hc eq_refl); naive_solver lia|].
    destruct (Z.le_gt_cases (ns_violation_streak n) grace'); [naive_solver lia|]. destruct Hc as [_ Hc]. discriminate Hc. split; [done|lia].
  - split; intros; [lia|right; lia].
Qed.

(** C14: As long as the cap is not hit and the node is never out of sight for longer
    than the three tolerated ticks, a report says of it exactly what the two
    clocks say of its readings: inactive for more than the grace, unreadable or
    unmanaged for more than sixty ticks, or pending; and a confirmed violation is
    raised on the same tick. *)
Theorem tracked_nodes_follow_two_clocks ctxs d l h k :
  run_expectation d0 ctxs = (d, l :: h) → required ≠ ∅ → sightings (l :: h) ≤ int32_max →
  (∀ l', l' ∈ l :: h → saturated_at l' = false) → blinks kDefaultAbsenceGrace (readings_of required k (l :: h)) →
  String.prefix kCollapsedKeyPrefix k = false →
  let c := two_clocks grace kDefaultUnmeasuredHoldTicks (readings_of required k (l :: h)) in
  (is_Some (affected_of l !! k) ↔ ck_unmeasured c = None ∧ grace < ck_streak c) ∧
  (is_Some (unreadable_of l !! k) ↔ ck_unmeasured c = Some (kDefaultUnmeasuredHoldTicks + 1, CauseUnreadable)) ∧
  (is_Some (not_managed_of l !! k) ↔ ck_unmeasured c = Some (kDefaultUnmeasuredHoldTicks + 1, CauseNotManaged)) ∧
  (k ∈ pending_of l ↔
     match ck_unmeasured c with Some (n, _) => n ≤ kDefaultUnmeasuredHoldTicks | None => 0 < ck_streak c ≤ grace end) ∧
  (can_raise (el_ctx l) → ck_unmeasured c = None → grace < ck_streak c →
     ∃ desc, er_inactive (el_requests l) = Some (EVENT_FAILED kNodeInactive kConfirmedInactiveSeverity desc kGraphWatchdogEntityId)).
Proof.
  intros Hrun Hreq Hmax Hsat Hb Hk c. pose proof (run_follows _ _ _ _ Hrun Hreq Hmax Hsat Hb) as Hf.
  destruct (run_expected _ _ _ _ _ Hrun Hreq Hmax) as (ctxs' & dp & Hrun' & W & Ht). destruct l as [ctx report requests].
  destruct (expectation_tick_spec config ctx dp h d report requests Hreq W Hmax Ht) as (r & -> & Hup & W' & _ & Hraise & _).
  destruct (expecting_settings _ _ W') as (Hg & _ & Hh & _).
  unfold affected_of, unreadable_of, not_managed_of, pending_of. cbn [el_report el_ctx el_requests from_option].
  rewrite (up_unreadable _ _ _ _ _ Hup), (up_not_managed _ _ _ _ _ Hup), !collapsed_adds, (elem_of_pending _ _ _ _ _ Hup) by done.
  rewrite !content_is_Some. unfold follows in Hf. fold c in Hf. rewrite Hg.
  assert (is_Some (lr_affected r !! k) ↔ ck_unmeasured c = None ∧ grace < ck_streak c) as Haff.
  { rewrite (up_affected _ _ _ _ _ Hup), collapsed_adds, content_is_Some, Hg by done.
    destruct (lt_nodes (le_tracker d) !! k) as [n|] eqn:Ek.
    - destruct Hf as (<- & _). rewrite <-(clocks_confirmed grace (lt_unmeasured_hold_ticks (le_tracker d))); [naive_solver| |by rewrite Hh].
      rewrite <-Hg. by eapply (tok_nodes _ (up_ok _ _ _ _ _ Hup)).
    - rewrite Hf. unfold at_rest. cbn [ck_unmeasured ck_streak]. pose proof (tok_grace _ (up_ok _ _ _ _ _ Hup)); rewrite Hg in *; split; [naive_solver|intros [_ ?]; lia]. }
  split; [exact Haff|].   split; [|split; [|split]].
  - destruct (lt_nodes (le_tracker d) !! k) as [n|] eqn:Ek; [|rewrite Hf; naive_solver]. destruct Hf as (<- & _).
    rewrite <-(clocks_owned grace); [naive_solver| |done]. rewrite <-Hg, <-Hh. by eapply (tok_nodes _ (up_ok _ _ _ _ _ Hup)).
  - destruct (lt_nodes (le_tracker d) !! k) as [n|] eqn:Ek; [|rewrite Hf; naive_solver]. destruct Hf as (<- & _).
    rewrite <-(clocks_owned grace); [naive_solver| |done]. rewrite <-Hg, <-Hh. by eapply (tok_nodes _ (up_ok _ _ _ _ _ Hup)).
  - destruct (lt_nodes (le_tracker d) !! k) as [n|] eqn:Ek; [|rewrite Hf; unfold at_rest; cbn [ck_unmeasured ck_streak]; split; [naive_solver|intros [? ?]; lia]]. destruct Hf as (<- & _).
    rewrite <-(clocks_pending grace kDefaultUnmeasuredHoldTicks); [naive_solver| |done]. rewrite <-Hg, <-Hh. by eapply (tok_nodes _ (up_ok _ _ _ _ _ Hup)).
  - intros Hcan Hu Hs. apply Hraise; [done|]. assert (is_Some (lr_affected r !! k)) as [v Hv] by tauto. intros E. by rewrite E, lookup_empty in Hv.
Qed.
End Clocks.

(** ** Reports *)

(** The four lists of a report share no node. *)
Record report_ok (t : LifecycleExpectationTracker) (l : ExpectationLog) : Prop := {
  rp_confirmed k : String.prefix kCollapsedKeyPrefix k = false → is_Some (affected_of l !! k) →
    k ∉ pending_of l ∧ ¬ unmeasured_reported k l;
  rp_unmeasured k : String.prefix kCollapsedKeyPrefix k = false → is_Some (unreadable_of l !! k) → is_Some (not_managed_of l !! k) → False;
  rp_pending k : String.prefix kCollapsedKeyPrefix k = false → k ∈ pending_of l → ¬ unmeasured_reported k l;
  rp_bounded : Z.of_nat (size (affected_of l) + size (unreadable_of l) + size (not_managed_of l) + size (pending_of l)) ≤
    lt_tracked_node_cap t + 3;
}.

Lemma collapsed_size count left_as m : (size (add_collapsed_content count left_as m) ≤ S (size m))%nat.
Proof.
  unfold add_collapsed_content. destruct (count <=? 0); [lia|]. rewrite map_size_insert. by destruct (m !! _); cbn; lia.
Qed.

Lemma content_dom t p detail : dom (content t p detail) = nodes_where t p.
Proof. apply set_eq. intros k. by rewrite elem_of_dom, content_is_Some, elem_of_nodes_where. Qed.

Lemma nodes_where_disjoint t p q :
  (∀ n, p n = true → q n = true → False) → nodes_where t p ## nodes_where t q.
Proof. intros Hpq k. rewrite !elem_of_nodes_where. intros (n & Hn & ?) (n' & Hn' & ?). simplify_eq. eauto. Qed.

Section Partition.
Context (grace : Z) (n : NodeState).

Lemma confirmed_not_owned cause : confirmed_inactive grace n = true → owned_by cause n = true → False.
Proof. unfold confirmed_inactive, owned_by. by destruct (ns_unmeasured_matured n). Qed.

Lemma owned_once : owned_by CauseUnreadable n = true → owned_by CauseNotManaged n = true → False.
Proof. unfold owned_by. destruct (ns_unmeasured_matured n); [|done]. by destruct (ns_cause n). Qed.

Lemma pending_not_owned cause : violation_pending grace n || unmeasured_pending n = true → owned_by cause n = true → False.
Proof. unfold violation_pending, unmeasured_pending, owned_by. by destruct (ns_unmeasured_matured n). Qed.

Lemma pending_not_confirmed : violation_pending grace n || unmeasured_pending n = true → confirmed_inactive grace n = true → False.
Proof.
  unfold violation_pending, unmeasured_pending. intros H Hc. rewrite Hc, andb_false_r in H. cbn in H.
  apply andb_true_iff in H as [_ H%Z.ltb_lt]. unfold confirmed_inactive in Hc.
  apply andb_true_iff in Hc as [[_ Hc%Z.eqb_eq]%andb_true_iff _]. lia.
Qed.
End Partition.

Lemma update_report_ok matches presence t t' r ctx requests :
  update_ok matches presence t t' r → report_ok t' (mkSeen ctx (Some r) requests).
Proof.
  intros Hup. pose proof (up_ok _ _ _ _ _ Hup) as Hok.
  set (conf := nodes_where t' (confirmed_inactive (lt_grace t'))). set (unread := nodes_where t' (owned_by CauseUnreadable)).
  set (unman := nodes_where t' (owned_by CauseNotManaged)).
  set (pend := nodes_where t' (λ n, violation_pending (lt_grace t') n || unmeasured_pending n)).
  assert (lr_pending r = pend) as Hpend.
  { apply set_eq. intros k. rewrite (elem_of_pending _ _ _ _ _ Hup). unfold pend. rewrite elem_of_nodes_where.
    by setoid_rewrite orb_true_iff. }
  assert (∀ k, String.prefix kCollapsedKeyPrefix k = false →
    (is_Some (lr_affected r !! k) ↔ k ∈ conf) ∧ (is_Some (lr_unreadable_affected r !! k) ↔ k ∈ unread) ∧
    (is_Some (lr_not_managed_affected r !! k) ↔ k ∈ unman)) as Hin.
  { intros k Hk. rewrite (up_affected _ _ _ _ _ Hup), (up_unreadable _ _ _ _ _ Hup), (up_not_managed _ _ _ _ _ Hup), !collapsed_adds by done.
    unfold conf, unread, unman. by rewrite !content_is_Some, !elem_of_nodes_where. }
  assert (conf ## unread) as D1 by (apply nodes_where_disjoint; intros n; apply confirmed_not_owned).
  assert (conf ## unman) as D2 by (apply nodes_where_disjoint; intros n; apply confirmed_not_owned).
  assert (unread ## unman) as D3 by (apply nodes_where_disjoint; apply owned_once).
  assert (pend ## conf) as D4 by (apply nodes_where_disjoint; intros n; apply pending_not_confirmed).
  assert (pend ## unread) as D5 by (apply nodes_where_disjoint; intros n; apply pending_not_owned).
  assert (pend ## unman) as D6 by (apply nodes_where_disjoint; intros n; apply pending_not_owned).
  unfold unmeasured_reported.
  split; unfold unmeasured_reported, affected_of, unreadable_of, not_managed_of, pending_of; cbn [el_report from_option]; rewrite ?Hpend.
  - intros k Hk. destruct (Hin k Hk) as (-> & -> & ->). set_solver.
  - intros k Hk. destruct (Hin k Hk) as (_ & -> & ->). set_solver.
  - intros k Hk. destruct (Hin k Hk) as (_ & -> & ->). set_solver.
  - rewrite (up_affected _ _ _ _ _ Hup), (up_unreadable _ _ _ _ _ Hup), (up_not_managed _ _ _ _ _ Hup).
    assert (∀ count left_as p detail, (size (add_collapsed_content count left_as (content t' p detail)) ≤ S (size (nodes_where t' p)))%nat) as Hsz.
    { intros. etrans; [apply collapsed_size|]. by rewrite <-(content_dom t' p detail), size_dom. }
    pose proof (Hsz (lt_collapsed_inactive t') "not active" (confirmed_inactive (lt_grace t')) inactive_detail) as Z1.
    pose proof (Hsz (lt_collapsed_unreadable t') "with an unread lifecycle state" (owned_by CauseUnreadable) unmeasured_detail) as Z2.
    pose proof (Hsz (lt_collapsed_not_managed t') "unmanaged" (owned_by CauseNotManaged) unmeasured_detail) as Z3.
    fold conf in Z1. fold unread in Z2. fold unman in Z3. pose proof (tok_size _ Hok).
    assert (size conf + size unread + size unman + size pend ≤ size (lt_nodes t'))%nat; [|lia].
    rewrite <-!size_union, <-(size_dom (lt_nodes t')) by set_solver. apply subseteq_size.
    intros k. rewrite !elem_of_union, elem_of_dom. unfold conf, unread, unman, pend. rewrite !elem_of_nodes_where. naive_solver.
Qed.

Section Types.
Context (config : config_value).
#[local] Notation d0 := (configure_expectation config).
#[local] Notation required := (le_require_active d0).

(** C16: Whatever the detector is handed, its tracker stays well-formed: every record
    within the bounds of its clocks, at most tracked_node_cap of them and every
    count of departed nodes non-negative; and the four lists of a report share no
    node and hold at most tracked_node_cap of them and three summary lines. *)
Theorem expectation_state_is_well_formed ctxs d l h :
  run_expectation d0 ctxs = (d, l :: h) → required ≠ ∅ → sightings (l :: h) ≤ int32_max →
  tracker_ok (le_tracker d) ∧ report_ok (le_tracker d) l ∧
  lt_tracked_node_cap (le_tracker d) = lt_tracked_node_cap (le_tracker d0).
Proof.
  intros Hrun Hreq Hmax. destruct (run_expected _ _ _ _ _ Hrun Hreq Hmax) as (ctxs' & dp & Hrun' & W & Ht). destruct l as [ctx report requests].
  destruct (expectation_tick_spec config ctx dp h d report requests Hreq W Hmax Ht) as (r & -> & Hup & W' & _).
  split; [apply W'|]. split; [by eapply update_report_ok|]. by apply (expecting_settings config d _ W').
Qed.
End Types.
