(* ===== verification/WatchdogSpec.v ===== *)
(** * The presence detector inside the plugin

    How long the gate remembers the departure of a managed node, that the
    retention window which the plugin predicts is the one the detector needs, and
    runs of the whole plugin: transition events, the sweep of the gate and the
    tick of the detector, turn after turn. *)

From S2P Require Import Prelude WatchdogGate NodeDeath LifecycleExpectation WatchdogPlugin NodeTrackerSpec NodeDeathSpec.
Open Scope Z_scope.

(** ** The gate's memory *)

(** The walk orders visit every entry once. *)
Definition walks (io : SweepIO) : Prop :=
  (∀ m, io_walk_paths io m ≡ₚ map_to_list m) ∧ (∀ m, io_walk_tracked io m ≡ₚ map_to_list m).

(** No app of the name has lifecycle services. *)
Definition unmanaged (fqn : string) (apps : list App) : Prop :=
  ∀ app, app ∈ apps → effective_fqn app = fqn → find_lifecycle_get_state_path (app_services app) = None.

(** The watcher remembers how [fqn] left, and tracks nothing under its name. *)
Definition has_left (fqn : string) (dep : DepartedLifecycle) (at_tick : Z) (w : LifecycleWatcher) : Prop :=
  lw_recently_departed w !! fqn = Some (dep, at_tick) ∧ ∀ id t, lw_tracked w !! id = Some t → tr_fqn t ≠ fqn.

Lemma managed_apps_fqn apps id path fqn :
  managed_apps apps !! id = Some (path, fqn) → ∃ app, app ∈ apps ∧ effective_fqn app = fqn ∧
    find_lifecycle_get_state_path (app_services app) = Some path.
Proof.
  unfold managed_apps. revert id path fqn. induction apps as [|app apps IH] using rev_ind; [done|]. intros id path fqn.
  rewrite foldl_snoc. set (m := foldl _ _ apps) in *. intros H.
  assert (m !! id = Some (path, fqn) ∨ (effective_fqn app = fqn ∧ find_lifecycle_get_state_path (app_services app) = Some path)) as [Hm|Ha].
  { destruct (find_lifecycle_get_state_path (app_services app)) as [p|]; [|by left].
    destruct (m !! app_id app) eqn:E; [by left|]. apply lookup_insert_Some in H as [[<- [= <- <-]]|[_ ?]]; [by right|by left]. }
  - apply IH in Hm as (a & ? & ?). exists a. split; [apply elem_of_app; by left|done].
  - exists app. split; [apply elem_of_app; right; by left|done].
Qed.

(** [tracked'] has entries of [tracked], relabelled, or entries of other names. *)
Definition no_new (fqn : string) (tracked tracked' : gmap string Tracked) : Prop :=
  ∀ id t, tracked' !! id = Some t → tr_fqn t = fqn → ∃ t0, tracked !! id = Some t0 ∧ tr_fqn t0 = fqn.

Lemma no_new_alter fqn f id m : (∀ t, tr_fqn (f t) = tr_fqn t) → no_new fqn m (alter f id m).
Proof.
  intros Hf x t Ht Hx. apply lookup_alter_Some in Ht as [(<- & t0 & ? & ->)|[_ ?]]; [|by exists t].
  exists t0. by rewrite Hf in Hx.
Qed.

Lemma no_new_fold {A} fqn (f : gmap string Tracked → A → gmap string Tracked) l m :
  (∀ m a, no_new fqn m (f m a)) → no_new fqn m (foldl f m l).
Proof.
  intros Hf. revert m. induction l as [|a l IH]; intros m; cbn [foldl]; [by intros id t; exists t|].
  intros id t Ht Hx. destruct (IH _ _ _ Ht Hx) as (t1 & H1 & Hx1). by eapply Hf.
Qed.

Lemma subscribe_new_fqn io seeded new_nodes m fqn :
  (∀ e, e ∈ new_nodes → e.2.2 ≠ fqn) → no_new fqn m (subscribe_new io seeded new_nodes m).1.
Proof.
  revert m. induction new_nodes as [|e l IH]; intros m He; cbn [subscribe_new]; [by intros id t; exists t|].
  destruct (io_subscribes io e.1); [|by intros id t; exists t]. intros id t Ht Hx.
  destruct (IH (<[e.1:=new_entry seeded e]> m) (λ e' H', He e' (list_elem_of_further _ _ _ H')) id t Ht Hx) as (t1 & H1 & Hx1).
  apply lookup_insert_Some in H1 as [[_ <-]|[_ ?]]; [|by exists t1]. cbn in Hx1. destruct (He e); [left|done].
Qed.

Lemma select_new tick tracked l acc e :
  e ∈ (foldl (select_job tick tracked) acc l).2 → e ∈ acc.2 ∨ e ∈ l.
Proof.
  revert acc. induction l as [|x l IH]; intros [jobs new]; cbn [foldl]; [by left|]. intros [H|H]%IH; [|by right; right].
  unfold select_job in H. destruct (tracked !! x.1); cbn [snd] in H; [by left|]. apply elem_of_app in H as [?|H]; [by left|].
  apply list_elem_of_singleton in H as ->. right. left.
Qed.

Lemma apply_seed_no_new fqn seeded m job : no_new fqn m (apply_seed seeded m job).
Proof. unfold apply_seed. repeat case_match; try (by intros ? t; exists t). by apply no_new_alter. Qed.

Lemma charge_no_new fqn m job : no_new fqn m (charge m job).
Proof. unfold charge. case_match; [by intros ? t; exists t|]. by apply no_new_alter. Qed.

(** The record of a departure is kept for the retention window. *)
Lemma watcher_update_left io apps tick fqn dep t0 w :
  walks io → unmanaged fqn apps → has_left fqn dep t0 w → 0 ≤ tick - t0 ≤ lw_retention_ticks w →
  lw_retention_ticks w ≤ int32_max →
  has_left fqn dep t0 (watcher_update io apps tick w).1 ∧
  lw_retention_ticks (watcher_update io apps tick w).1 = lw_retention_ticks w.
Proof.
  intros [Wp Wt] Hu [Hrec Htr] Hwin Hmax. unfold watcher_update. destruct (lw_shutdown_requested w) eqn:Esd; [done|].
  set (w1 := mkWatcher _ _ _ _). assert (has_left fqn dep t0 w1 ∧ lw_retention_ticks w1 = lw_retention_ticks w) as [Hl1 Hr1].
  { split; [|done]. split; [|done]. cbn. unfold prune_departed. apply map_lookup_filter_Some. split; [done|]. cbn.
    apply Z.ltb_ge. unfold wrap_u64, int32_max in *. rewrite !Z.mod_small; lia. }
  set (drops := filter _ _). assert (∀ idt, idt ∈ drops → tr_fqn idt.2 ≠ fqn) as Hdrops.
  { intros [id t] [_ Hin]%list_elem_of_filter. rewrite Wt in Hin. apply elem_of_map_to_list in Hin. by eapply Htr. }
  set (w2 := foldl (drop_entry tick) w1 drops).
  assert (has_left fqn dep t0 w2 ∧ lw_retention_ticks w2 = lw_retention_ticks w) as [[Hrec2 Htr2] Hr2].
  { unfold w2. clear w2. clearbody drops w1. clear Hrec Htr Hwin Esd. revert w1 Hl1 Hr1.
    induction drops as [|e drops IH]; intros w1 Hl1 Hr1; cbn [foldl]; [done|]. apply IH; [intros; apply Hdrops; by right| |done].
    destruct Hl1 as [A B]. split; cbn.
    - rewrite lookup_insert_ne; [done|]. apply Hdrops. left.
    - intros id t [_ ?]%lookup_delete_Some. by eapply B. }
  destruct (foldl (select_job tick (lw_tracked w2)) ([], []) (io_walk_paths io (managed_apps apps))) as [jobs new] eqn:Ej.
  assert (∀ e, e ∈ new → e.2.2 ≠ fqn) as Hnew.
  { intros [id [path f]] He Hf. cbn in Hf. subst f. assert ((id, (path, fqn)) ∈ (foldl (select_job tick (lw_tracked w2)) ([], [])
      (io_walk_paths io (managed_apps apps))).2) as H by by rewrite Ej. apply select_new in H as [H|H]; [set_solver|].
    rewrite Wp in H. apply elem_of_map_to_list, managed_apps_fqn in H as (app & Ha & Hx & Hp). by rewrite (Hu app Ha Hx) in Hp. }
  pose proof (subscribe_new_fqn io (read_states io jobs) new (lw_tracked w2) fqn Hnew) as Hsub.
  destruct (subscribe_new _ _ _ _) as [tracked threw]. cbn [fst] in Hsub. destruct threw; cbn [fst].
  - split; [|done]. split; [done|]. cbn. intros id t Ht Hx. destruct (Hsub _ _ Ht Hx) as (t1 & H1 & ?). by eapply Htr2.
  - split; [|done]. split; [done|]. cbn. intros id t Ht Hx.
    destruct (no_new_fold fqn _ _ _ (apply_seed_no_new fqn (read_states io jobs)) _ _ Ht Hx) as (t1 & Ht1 & Hx1).
    destruct (no_new_fold fqn _ _ _ (charge_no_new fqn) _ _ Ht1 Hx1) as (t2 & Ht2 & Hx2).
    destruct (Hsub _ _ Ht2 Hx2) as (t3 & H3 & ?). by eapply Htr2.
Qed.

Lemma transition_left id start goal fqn dep t0 w :
  has_left fqn dep t0 w → has_left fqn dep t0 (transition_event id start goal w).
Proof.
  intros [A B]. unfold transition_event. destruct (lw_shutdown_requested w); [done|]. split; [done|]. cbn. intros x t Ht Hx.
  assert (∃ t0, lw_tracked w !! x = Some t0 ∧ tr_fqn t0 = fqn) as (t1 & ? & ?) by (eapply no_new_alter; [|done|done]; done).
  by eapply B.
Qed.

(** ** The plugin's prediction *)

Lemma find_set_key key k v fields :
  find_key k (set_key key v fields) = if key =?ₛ k then Some v else find_key k fields.
Proof.
  induction fields as [|[x w] fields IH]; cbn [set_key find_key]; [done|].
  destruct (str_eqb_spec x key) as [->|Hne]; cbn [find_key]; [by destruct (key =?ₛ k)|]. rewrite IH.
  destruct (str_eqb_spec x k) as [->|]; [|done]. destruct (str_eqb_spec key k) as [->|]; [|done]. done.
Qed.

Lemma find_key_filter k fields : k ≠ "mode" → find_key k (filter (λ kv, kv.1 ≠ "mode") fields) = find_key k fields.
Proof.
  intros Hk. induction fields as [|[x w] fields IH]; [done|]. rewrite filter_cons. cbn [find_key fst].
  case_decide as Hx; cbn [find_key]; [by rewrite IH|]. assert (x = "mode") as -> by (destruct (decide (x = "mode")); done).
  destruct (str_eqb_spec "mode" k) as [<-|]; [done|exact IH].
Qed.

Lemma extracted_key config id k :
  k ≠ "mode" → find_key k (extract_detector_config config id) = detector_block id config ≫= find_key k.
Proof. intros Hk. unfold extract_detector_config. destruct (detector_block id config); [by apply find_key_filter|done]. Qed.

Lemma read_wide_int lo hi dflt z :
  lo ≤ z ≤ hi → -9223372036854775808 ≤ z < 9223372036854775808 → read_wide lo hi dflt (Some (CInt z)) = z.
Proof.
  intros Hr Hz. assert (as_int64 z = z) as E by (unfold as_int64; rewrite Z.mod_small; lia). cbn. rewrite E.
  case_match; [done|]. bool_simpl; lia.
Qed.

Lemma injected_default_get config id p k :
  k ≠ "mode" → k ≠ "prune_grace" →
  find_key k (injected_default config id p) =
    if "tick_interval_ms" =?ₛ k then Some (CInt (pm_tick_interval_ms p)) else detector_block id config ≫= find_key k.
Proof.
  intros Hk Hp. unfold injected_default. case_match; rewrite !find_set_key; [by rewrite extracted_key|].
  destruct (str_eqb_spec "prune_grace" k); [congruence|]. by rewrite extracted_key.
Qed.

Lemma injected_get config p k :
  k ≠ "mode" → config_get k (injected_config config p) =
    if "prune_grace" =?ₛ k then Some (CInt (resolve_node_death_prune_grace config (pm_prune_grace p)))
    else if "tick_interval_ms" =?ₛ k then Some (CInt (pm_tick_interval_ms p))
    else detector_block "node_death" config ≫= find_key k.
Proof.
  intros Hk. unfold injected_config. cbn [config_get]. rewrite find_set_key. destruct (str_eqb_spec "prune_grace" k); [done|].
  by apply injected_default_get.
Qed.

(** C40: The retention window that the plugin computes before the detector is
    configured is the grace plus the reclaim time the detector will have, whatever
    the configuration holds. *)
Lemma retention_is_predicted config :
  let p := load_parameters config in
  let t := configured_tracker (injected_config config p) in
  compute_departed_retention_ticks config p = nt_miss_grace t + nt_prune_ticks t + 1 ∧
  0 ≤ nt_miss_grace t ∧ nt_miss_grace t < nt_prune_ticks t ∧ compute_departed_retention_ticks config p ≤ int32_max.
Proof.
  intros p t. set (mg := read_wide 0 kMaxNodeDeathGraceTicks kDefaultMissGrace (detector_block "node_death" config ≫= find_key "miss_grace")).
  set (pg := resolve_node_death_prune_grace config (pm_prune_grace p)). set (fl := min_node_death_miss_grace (pm_tick_interval_ms p)).
  assert (1 ≤ pm_tick_interval_ms p ≤ int32_max) as Htick by (cbn; apply read_wide_range; unfold int32_max; lia).
  assert (0 ≤ pm_prune_grace p ≤ int32_max) as Hpp by (cbn; apply read_wide_range; unfold int32_max; lia).
  assert (0 ≤ mg ≤ kMaxNodeDeathGraceTicks) as Hmg by (apply read_wide_range; done).
  assert (0 ≤ pg ≤ kMaxNodeDeathGraceTicks) as Hpg.
  { unfold pg, resolve_node_death_prune_grace. apply read_wide_range. unfold kMaxNodeDeathGraceTicks. lia. }
  assert (0 ≤ fl ≤ 2999) as Hfl.
  { unfold fl, min_node_death_miss_grace, kMinNodeDeathWindowMs. case_match; bool_simpl; [lia|].
    pose proof (Z.quot_le_upper_bound (3000 + pm_tick_interval_ms p - 1) (pm_tick_interval_ms p) 3000) as Hq. nia. }
  assert (nt_miss_grace t = Z.max mg fl ∧ nt_prune_ticks t = Z.max pg (Z.max mg fl + 1)) as [Hg Hp].
  { unfold t, configured_tracker. cbn [new_tracker nt_miss_grace nt_prune_ticks].
    assert (config_get "miss_grace" (injected_config config p) = detector_block "node_death" config ≫= find_key "miss_grace") as ->
      by by rewrite injected_get.
    assert (config_get "prune_grace" (injected_config config p) = Some (CInt pg)) as -> by by rewrite injected_get.
    assert (config_get "tick_interval_ms" (injected_config config p) = Some (CInt (pm_tick_interval_ms p))) as ->
      by by rewrite injected_get.
    fold mg. rewrite !read_wide_int by (unfold int32_max, kMaxNodeDeathGraceTicks in *; lia). fold fl.
    destruct (mg <? fl) eqn:E; bool_simpl; lia. }
  assert (compute_departed_retention_ticks config p = nt_miss_grace t + nt_prune_ticks t + 1) as ->.
  { rewrite Hg, Hp. unfold compute_departed_retention_ticks. fold pg. fold fl. change (read_wide 0 kMaxNodeDeathGraceTicks 2 _) with mg. lia. }
  split; [done|]. rewrite Hg, Hp. unfold int32_max, kMaxNodeDeathGraceTicks in *. lia.
Qed.

(** ** Runs of the plugin *)

(** What one turn of the tick loop meets: the transition events drained before
    the tick, the world outside, the snapshot and the service. *)
Record TurnInput := mkTurn {
  ti_events : list (string * string * string);
  ti_io : SweepIO;
  ti_snapshot : option (list App);
  ti_ready : bool;
}.

Definition apps_in (i : TurnInput) : list App := default [] (ti_snapshot i).

Definition drain (events : list (string * string * string)) (p : GraphWatchdogPlugin) : GraphWatchdogPlugin :=
  foldl (λ p e, plugin_event e.1.1 e.1.2 e.2 p) p events.

(** The plugin and what its ticks reported and sent, newest first. *)
Definition turn (acc : GraphWatchdogPlugin * list TickOutput) (i : TurnInput) : GraphWatchdogPlugin * list TickOutput :=
  let '(p, output) := plugin_tick (ti_io i) (ti_snapshot i) (ti_ready i) (drain (ti_events i) acc.1) in
  (p, output :: acc.2).

Definition turns (config : config_value) (inputs : list TurnInput) :=
  foldl turn (set_context config, []) inputs.

Definition gate_at (config : config_value) (inputs : list TurnInput) : ReliabilityGate := gp_gate (turns config inputs).1.

(** What a detector is handed on the turn after [before]. *)
Definition context_at (config : config_value) (id : string) (before : list TurnInput) (i : TurnInput) : DetectorContext :=
  mkContext (Some (gate_at config (before ++ [i]))) (parse_detector_mode config id) true (ti_ready i) (apps_in i)
    (gp_presence_tracked (turns config before).1).

(** The names running in a snapshot; departures from one to the next, newest first. *)
Definition running (apps : list App) : gset string :=
  list_to_set (omap (λ a, if app_is_online a then watched_key a else None) apps).

Fixpoint left_running (l : list (gset string)) : Z :=
  match l with
  | now :: ((before :: _) as l') => Z.of_nat (size (before ∖ now)) + left_running l'
  | _ => 0
  end.

Lemma turns_snoc config inputs i : turns config (inputs ++ [i]) = turn (turns config inputs) i.
Proof. apply foldl_snoc. Qed.

Lemma drain_same events p :
  gp_node_death (drain events p) = gp_node_death p ∧ gp_expectation (drain events p) = gp_expectation p ∧
  gp_presence_tracked (drain events p) = gp_presence_tracked p ∧ gp_tick_count (drain events p) = gp_tick_count p.
Proof. revert p. induction events as [|e events IH]; intros p; [done|]. exact (IH (plugin_event e.1.1 e.1.2 e.2 p)). Qed.

Lemma elem_of_running apps k : k ∈ running apps ↔ online k apps.
Proof.
  unfold running, online. rewrite elem_of_list_to_set, list_elem_of_omap.
  split; intros (a & Ha & H); exists a; (split; [done|]); destruct (app_is_online a); naive_solver.
Qed.

Lemma departures_left h :
  departures h = left_running (sw_present <$> h).
Proof. induction h as [|sw [|sw' h] IH]; [done|done|]. cbn [departures fmap list_fmap left_running] in *. by rewrite IH. Qed.

Lemma run_running d0 ctxs d h :
  run d0 ctxs = (d, h) → sw_present <$> sweeps h = (λ l, running (apps_of l)) <$> h.
Proof.
  revert d h. induction ctxs as [|ctx ctxs IH] using rev_ind; intros d h; [by intros [= _ <-]|]. rewrite run_snoc.
  destruct (run d0 ctxs) as [dp hp]. unfold log_tick, detector_tick. cbn [fst snd].
  pose proof (observe_ok (cx_gate ctx) (cx_apps ctx) dp) as Ho. destruct (observe _ _ dp) as [d1 sw].
  destruct (tracker_update _ _ _), (suppress_dead _ _ _). intros [= _ <-]. rewrite !fmap_cons. cbn [lg_sweep lg_ctx].
  f_equal; [|by eapply IH]. apply set_eq. intros k. rewrite elem_of_running. apply (ob_present _ _ _ _ Ho).
Qed.

(** The gate after a turn does not depend on the detector. *)
Definition gate_turn (p : GraphWatchdogPlugin) (i : TurnInput) : ReliabilityGate :=
  let p := drain (ti_events i) p in
  match ti_snapshot i with
  | Some apps => gate_update (ti_io i) apps (wrap_u64 (gp_tick_count p + 1)) (gp_gate p)
  | None => gp_gate p
  end.

Lemma turn_gate acc i :
  gp_gate (turn acc i).1 = gate_turn acc.1 i ∧ gp_tick_count (turn acc i).1 = wrap_u64 (gp_tick_count acc.1 + 1).
Proof.
  unfold turn, plugin_tick, gate_turn. destruct (drain_same (ti_events i) acc.1) as (_ & _ & _ & <-).
  destruct (match gp_node_death _ with Some _ => _ | None => _ end) as [[? ?] ?].
  by destruct (match gp_expectation _ with Some _ => _ | None => _ end).
Qed.

Definition turn_context (acc : GraphWatchdogPlugin * list TickOutput) (mode : DetectorMode) (i : TurnInput) : DetectorContext :=
  mkContext (Some (gate_turn acc.1 i)) mode true (ti_ready i) (apps_in i) (gp_presence_tracked acc.1).

Lemma turn_detector acc i d mode :
  gp_node_death acc.1 = Some (d, mode) →
  let '(d', _, dead, request) := detector_tick (turn_context acc mode i) d in
  gp_node_death (turn acc i).1 = Some (d', mode) ∧
  ∃ o, (turn acc i).2 = o :: acc.2 ∧ to_dead o = dead ∧ to_death o = request.
Proof.
  intros Hd. destruct (detector_tick (turn_context acc mode i) d) as [[[d' sw] dead] request] eqn:E. unfold turn, plugin_tick.
  destruct (drain_same (ti_events i) acc.1) as (-> & -> & -> & _). rewrite Hd. fold (gate_turn acc.1 i). fold (apps_in i).
  fold (turn_context acc mode i). rewrite E. destruct (match gp_expectation _ with Some _ => _ | None => _ end) as [? ?].
  split; [done|]. by eexists.
Qed.

(** The detector of the plugin runs in the contexts that the gate gives it. *)
Lemma turns_run config inputs :
  parse_detector_mode config "node_death" ≠ Off →
  ∃ ctxs d h, run (configure (injected_config config (load_parameters config)) new_detector) ctxs = (d, h) ∧
    gp_node_death (turns config inputs).1 = Some (d, parse_detector_mode config "node_death") ∧
    to_dead <$> (turns config inputs).2 = lg_dead <$> h ∧ to_death <$> (turns config inputs).2 = lg_request <$> h ∧
    length h = length inputs ∧
    ∀ pre i post, inputs = pre ++ i :: post → ∃ l, h !! length post = Some l ∧ lg_ctx l = context_at config "node_death" pre i.
Proof.
  intros Hoff. induction inputs as [|i inputs IH] using rev_ind.
  - exists [], (configure (injected_config config (load_parameters config)) new_detector), []. split_and!; try done.
    + cbn. unfold switched_on. by destruct (parse_detector_mode config "node_death").
    + by intros [] ? ?.
  - destruct IH as (ctxs & d & h & Hrun & Hnd & Hdead & Hreq & Hlen & Hctx). rewrite turns_snoc.
    set (mode := parse_detector_mode config "node_death") in *. exists (ctxs ++ [turn_context (turns config inputs) mode i]).
    rewrite run_snoc, Hrun. unfold log_tick. cbn [fst snd]. pose proof (turn_detector (turns config inputs) i d mode Hnd) as Ht.
    destruct (detector_tick _ d) as [[[d' sw] dead] request]. destruct Ht as (Hd' & o & Ho & Hod & Hor).
    eexists _, _. split; [done|]. split; [done|]. rewrite Ho, !fmap_cons, Hdead, Hreq, Hod, Hor. split; [done|]. split; [done|].
    split; [cbn; rewrite length_app, Hlen; cbn; lia|]. intros pre j post Heq. destruct post as [|j' post _] using rev_ind.
    + apply app_inj_tail in Heq as [<- <-]. eexists. split; [done|]. cbn [lg_ctx]. unfold turn_context, context_at, gate_at.
      rewrite turns_snoc. by destruct (turn_gate (turns config inputs) i) as [-> _].
    + rewrite app_comm_cons, app_assoc in Heq. apply app_inj_tail in Heq as [-> <-].
      destruct (Hctx pre j post eq_refl) as (l & Hl & ?). exists l. split; [|done]. rewrite length_app, Nat.add_comm. exact Hl.
Qed.

(** ** Clean shutdowns *)

Lemma watcher_update_retention io apps tick w :
  lw_retention_ticks (watcher_update io apps tick w).1 = lw_retention_ticks w.
Proof.
  unfold watcher_update. destruct (lw_shutdown_requested w); [done|].
  assert (∀ l w0, lw_retention_ticks (foldl (drop_entry tick) w0 l) = lw_retention_ticks w0) as Hd.
  { intros l. induction l as [|e l IH]; intros w0; cbn [foldl]; [done|by rewrite IH]. }
  destruct (foldl (select_job _ _) _ _). destruct (subscribe_new _ _ _ _) as [? []]; cbn; by rewrite Hd.
Qed.

(** The watcher after a turn: the events, then the sweep of the next tick. *)
Definition watcher_turn (w : LifecycleWatcher) (tick : Z) (i : TurnInput) : LifecycleWatcher :=
  let w := foldl (λ w e, transition_event e.1.1 e.1.2 e.2 w) w (ti_events i) in
  match ti_snapshot i with
  | Some apps => (watcher_update (ti_io i) apps tick w).1
  | None => w
  end.

Lemma turn_watcher acc i :
  rg_lifecycle (gp_gate (turn acc i).1) = watcher_turn (rg_lifecycle (gp_gate acc.1)) (wrap_u64 (gp_tick_count acc.1 + 1)) i.
Proof.
  destruct (turn_gate acc i) as [-> _]. unfold gate_turn, watcher_turn.
  destruct (drain_same (ti_events i) acc.1) as (_ & _ & _ & ->).
  assert (rg_lifecycle (gp_gate (drain (ti_events i) acc.1)) =
    foldl (λ w e, transition_event e.1.1 e.1.2 e.2 w) (rg_lifecycle (gp_gate acc.1)) (ti_events i)) as Hd.
  { generalize acc.1. induction (ti_events i) as [|e l IH]; intros p; [done|]. exact (IH (plugin_event e.1.1 e.1.2 e.2 p)). }
  destruct (ti_snapshot i) as [apps|]; [|exact Hd]. rewrite <-Hd. unfold gate_update.
  destruct (watcher_update _ _ _ _) as [w []]; [done|]. by repeat case_match.
Qed.

Lemma transitions_retention events w :
  lw_retention_ticks (foldl (λ w e, transition_event e.1.1 e.1.2 e.2 w) w events) = lw_retention_ticks w.
Proof.
  revert w. induction events as [|e events IH]; intros w; cbn [foldl]; [done|]. rewrite IH. unfold transition_event. by destruct (lw_shutdown_requested w).
Qed.

Lemma turns_tick config inputs :
  Z.of_nat (length inputs) ≤ int32_max →
  gp_tick_count (turns config inputs).1 = Z.of_nat (length inputs) ∧
  lw_retention_ticks (rg_lifecycle (gate_at config inputs)) = compute_departed_retention_ticks config (load_parameters config).
Proof.
  induction inputs as [|i inputs IH] using rev_ind; [done|]. rewrite length_app. cbn [length]. intros Hn.
  destruct IH as [IH1 IH2]; [lia|]. unfold gate_at in *. rewrite turns_snoc, turn_watcher. destruct (turn_gate (turns config inputs) i) as [_ ->].
  rewrite IH1. split; [unfold wrap_u64, int32_max in *; rewrite Z.mod_small; lia|]. unfold watcher_turn.
  destruct (ti_snapshot i); [rewrite watcher_update_retention|]; by rewrite transitions_retention.
Qed.

Lemma watcher_turn_left w i tick k dep t0 :
  walks (ti_io i) → unmanaged k (apps_in i) → has_left k dep t0 w → 0 ≤ tick - t0 ≤ lw_retention_ticks w →
  lw_retention_ticks w ≤ int32_max → has_left k dep t0 (watcher_turn w tick i).
Proof.
  intros Hw Hu Hl Hwin Hmax. unfold watcher_turn.
  assert (has_left k dep t0 (foldl (λ w e, transition_event e.1.1 e.1.2 e.2 w) w (ti_events i))) as Hl'.
  { clear Hwin Hmax Hu Hw. revert w Hl. induction (ti_events i) as [|e l IH]; intros w Hl; cbn [foldl]; [done|].
    by apply IH, transition_left. }
  unfold apps_in in Hu. destruct (ti_snapshot i) as [apps|]; [|done].
  apply watcher_update_left; [done|done|done|by rewrite transitions_retention|by rewrite transitions_retention].
Qed.

(** The record of the departure outlives the retention window. *)
Lemma turns_left config inputs k dep t0 later :
  Z.of_nat (length (inputs ++ later)) ≤ int32_max → t0 = Z.of_nat (length inputs) →
  has_left k dep t0 (rg_lifecycle (gate_at config inputs)) →
  (∀ i, i ∈ later → walks (ti_io i) ∧ unmanaged k (apps_in i)) →
  Z.of_nat (length later) ≤ compute_departed_retention_ticks config (load_parameters config) →
  has_left k dep t0 (rg_lifecycle (gate_at config (inputs ++ later))).
Proof.
  intros Hlen Ht0 Hl. induction later as [|i later IH] using rev_ind; [by rewrite app_nil_r|]. intros Hi Hret.
  rewrite app_assoc. rewrite app_assoc, !length_app in Hlen. rewrite length_app in Hret. cbn [length] in Hlen, Hret.
  destruct (turns_tick config (inputs ++ later)) as [Htick Hr]; [rewrite length_app; lia|].
  destruct (retention_is_predicted config) as (_ & _ & _ & Hmax). unfold gate_at in *. rewrite turns_snoc, turn_watcher.
  destruct (Hi i) as [Hw Hu]; [apply elem_of_app; right; left|].
  assert (wrap_u64 (gp_tick_count (turns config (inputs ++ later)).1 + 1) = Z.of_nat (length inputs) + Z.of_nat (length later) + 1) as ->.
  { rewrite Htick, length_app. unfold wrap_u64, int32_max in *. rewrite Z.mod_small; lia. }
  apply watcher_turn_left; [done|done| | |].
  - apply IH; [rewrite length_app; lia| |lia]. intros j Hj. apply Hi, elem_of_app. by left.
  - rewrite Hr. lia.
  - by rewrite Hr.
Qed.

Lemma turns_contexts config inputs h :
  length h = length inputs →
  (∀ pre i post, inputs = pre ++ i :: post → ∃ l, h !! length post = Some l ∧
     lg_ctx l = context_at config "node_death" pre i) →
  (λ l, apps_of l) <$> h = apps_in <$> reverse inputs.
Proof.
  intros Hlen Hctx. apply list_eq. intros j. rewrite !list_lookup_fmap. destruct (decide (j < length inputs)%nat) as [Hj|Hj].
  - destruct (lookup_lt_is_Some_2 inputs (length inputs - S j)%nat) as [i Hi]; [lia|].
    rewrite reverse_lookup by done. rewrite Hi. destruct (Hctx (take (length inputs - S j) inputs) i (drop (S (length inputs - S j)) inputs)) as (l & Hl & Hc).
    { by rewrite take_drop_middle. }
    rewrite length_drop in Hl. replace (length inputs - S (length inputs - S j))%nat with j in Hl by lia.
    rewrite Hl. cbn. unfold apps_of. by rewrite Hc.
  - rewrite !lookup_ge_None_2; [done|rewrite length_reverse; lia|lia].
Qed.

Lemma nd_tracker_configure config d : nd_tracker (configure config d) = configured_tracker config.
Proof. unfold configure. by destruct (build_suppressor_chain config). Qed.

