(* ===== verification/WatchdogWitnesses.v ===== *)
(** * Runs of the graph watchdog

    The witnesses of its properties, and runs that go wrong. *)

From S2P Require Import Prelude WatchdogGate NodeDeath LifecycleExpectation WatchdogPlugin NodeTrackerSpec NodeDeathSpec LifecycleExpectationSpec LifecycleDetectorSpec WatchdogSpec.
Open Scope Z_scope.

(** ** The world outside *)

(** Every lifecycle node answers [label]. *)
Definition io_of (label : string) : SweepIO := mkIO (λ _, Some label) 7 (λ _, true) map_to_list map_to_list.
Definition calm_io : SweepIO := io_of "active".

Lemma walks_of label : walks (io_of label).
Proof. done. Qed.

Definition plain_app (id fqn : string) : App := mkApp id "node" None (Some fqn) true [].

Definition managed_app (id fqn : string) : App :=
  mkApp id "node" None (Some fqn) true
    [mkService (fqn +:+ "/get_state") "lifecycle_msgs/srv/GetState";
     mkService (fqn +:+ "/change_state") "lifecycle_msgs/srv/ChangeState"].

Lemma in_set (k : string) (s : gset string) : bool_decide (k ∈ s) = true → k ∈ s.
Proof. apply bool_decide_eq_true_1. Qed.

Lemma not_running k apps : bool_decide (k ∈ running apps) = false → ¬ online k apps.
Proof. intros H. apply bool_decide_eq_false in H. by rewrite <-elem_of_running. Qed.

(** ** A node that vanishes *)

(** The grace is one tick of three seconds. *)
Definition plain_config : config_value :=
  CObj [("miss_grace", CInt 1); ("tick_interval_ms", CInt 3000); ("prune_grace", CInt 5)].

Definition talker_runs : list App := [plain_app "talker" "/talker"; plain_app "listener" "/listener"].
Definition talker_gone : list App := [plain_app "listener" "/listener"].

Definition gate_1 : ReliabilityGate := gate_update calm_io talker_runs 1 (new_gate 0 10).
Definition gate_2 : ReliabilityGate := gate_update calm_io talker_gone 2 gate_1.
Definition gate_3 : ReliabilityGate := gate_update calm_io talker_gone 3 gate_2.

Definition vanishing : list DetectorContext :=
  [mkContext (Some gate_1) Raise true true talker_runs None; mkContext (Some gate_2) Raise true true talker_gone None;
   mkContext (Some gate_3) Raise true true talker_gone None].

Definition vanishing_run : NodeDeathDetector * list TickLog := run (configure plain_config new_detector) vanishing.

(** The request of the third tick names the node. *)
Example vanishing_requests :
  lg_request <$> vanishing_run.2 =
  [Some (EVENT_FAILED kNodeDisappeared kNodeDeathSeverity "node /talker disappeared (2 missed cycles)" "graph_watchdog");
   None; None].
Proof. vm_compute. reflexivity. Qed.

Definition log_of (n : nat) : TickLog :=
  nth n vanishing_run.2 (mkLog (mkContext None Off false false [] None) empty_sweep ∅ None).

Lemma vanishing_run_logs :
  run (configure plain_config new_detector) vanishing = (vanishing_run.1, [log_of 0; log_of 1] ++ log_of 2 :: []).
Proof. vm_compute. reflexivity. Qed.

Lemma vanishing_countable : countable ([log_of 0; log_of 1] ++ log_of 2 :: []).
Proof. split; vm_compute; intros [=]. Qed.

Lemma vanishing_visible k : never_hidden (configure plain_config new_detector) k ([log_of 0; log_of 1] ++ log_of 2 :: []).
Proof. intros l _. split; [done|]. by intros (? & ? & _ & _ & [=] & _). Qed.

Lemma vanished_nodes_are_reported_witness :
  (lg_dead (log_of 0) !! "/talker" = Some (death_text "/talker" 2) ∨
   ∃ C : gset (string * nat), lg_dead (log_of 0) !! kCollapsedKey = Some (collapsed_text (Z.of_nat (size C))) ∧
     ("/talker", 1%nat) ∈ C ∧
     ∀ x, x ∈ C → died (nt_miss_grace (nd_tracker (configure plain_config new_detector)))
       ([log_of 0; log_of 1] ++ log_of 2 :: []) x) ∧
  ∃ desc, lg_request (log_of 0) = Some (EVENT_FAILED kNodeDisappeared kNodeDeathSeverity desc kGraphWatchdogEntityId).
Proof.
  destruct (vanished_nodes_are_reported plain_config vanishing vanishing_run.1 "/talker" (log_of 2) (log_of 0) [] [log_of 1])
    as [Hd Hr].
  - exact vanishing_run_logs.
  - exact vanishing_countable.
  - done.
  - left. apply in_set. vm_compute. reflexivity.
  - intros l Hl. apply not_running. repeat (apply elem_of_cons in Hl as [->|Hl]; [vm_compute; reflexivity|]). by apply not_elem_of_nil in Hl.
  - vm_compute. reflexivity.
  - apply vanishing_visible.
  - apply vanishing_visible.
  - split; [exact Hd|]. apply Hr. repeat split; vm_compute; reflexivity.
Defined.

Lemma reported_deaths_are_real_witness :
  1 < absent_for "/talker" (sweeps [log_of 0; log_of 1; log_of 2]) ∧ admitted "/talker" (sweeps [log_of 0; log_of 1; log_of 2]).
Proof.
  destruct (reported_deaths_are_real plain_config vanishing vanishing_run.1 (log_of 0) [log_of 1; log_of 2]
    vanishing_run_logs vanishing_countable) as (_ & Hreal & _).
  destruct (Hreal "/talker" "node /talker disappeared (2 missed cycles)") as [Hk _]; [vm_compute; reflexivity|].
  destruct Hk as (_ & ? & ?); [done|]. split; [done|done].
Defined.

(** ** A clean shutdown *)

Definition lifecycle_config : config_value :=
  CObj [("tick_interval_ms", CInt 3000); ("warmup_cycles", CInt 0);
        ("detectors", CObj [("node_death", CObj [("suppress", CArr [CStr "lifecycle"]); ("miss_grace", CInt 1)])])].

Definition a_turn (events : list (string * string * string)) (apps : list App) : TurnInput := mkTurn events calm_io (Some apps) true.

Definition camera_runs : list App := [managed_app "camera" "/camera"; plain_app "listener" "/listener"].

Definition shutdown_turn : TurnInput :=
  mkTurn [("camera", "active", "shuttingdown"); ("camera", "shuttingdown", "finalized")] (io_of "finalized") (Some camera_runs) true.

(** The camera runs, is shut down and leaves; the detector misses it for two
    further sweeps. *)
Definition shutdown_before : list TurnInput :=
  [a_turn [] camera_runs; shutdown_turn; a_turn [] talker_gone].
Definition shutdown_since : list TurnInput := [a_turn [] talker_gone; a_turn [] talker_gone].

Lemma gone_turns i : i ∈ shutdown_since → i = a_turn [] talker_gone.
Proof. unfold shutdown_since. intros [?|Hi%list_elem_of_singleton]%elem_of_cons; done. Qed.


(** ** A required node *)

Definition required_config : config_value := CObj [("require_active", CArr [CStr "camera"]); ("grace", CInt 1)].

(** A sweep reads [label] from every managed node. *)
Definition seen_as (label : string) (apps : list App) : DetectorContext :=
  mkContext (Some (gate_update (io_of label) apps 1 (new_gate 0 10))) Raise true true apps None.

(** Out of sight for two ticks between its inactive readings, then active. *)
Definition recovering : list DetectorContext :=
  [seen_as "inactive" camera_runs; seen_as "active" talker_gone; seen_as "active" talker_gone; seen_as "inactive" camera_runs;
   seen_as "active" camera_runs].

Definition expectation_run (config : config_value) (ctxs : list DetectorContext) : LifecycleExpectationDetector * list ExpectationLog :=
  run_expectation (configure_expectation config) ctxs.

Definition seen_at (config : config_value) (ctxs : list DetectorContext) (n : nat) : ExpectationLog :=
  nth n (expectation_run config ctxs).2 (mkSeen (mkContext None Off false false [] None) None (mkRequests None None None)).

Definition violating : list DetectorContext := take 4 recovering.

Lemma nonempty_in (k : string) (s : gset string) : bool_decide (k ∈ s) = true → s ≠ ∅.
Proof. intros H%bool_decide_eq_true_1. set_solver. Qed.

Lemma tracked_nodes_follow_two_clocks_witness :
  (is_Some (affected_of (seen_at required_config violating 0) !! "/camera")) ∧
  ∃ desc, er_inactive (el_requests (seen_at required_config violating 0)) =
    Some (EVENT_FAILED kNodeInactive kConfirmedInactiveSeverity desc kGraphWatchdogEntityId).
Proof.
  destruct (tracked_nodes_follow_two_clocks required_config violating (expectation_run required_config violating).1
    (seen_at required_config violating 0)
    [seen_at required_config violating 1; seen_at required_config violating 2; seen_at required_config violating 3] "/camera")
    as (Ha & _ & _ & _ & Hr).
  - vm_compute. reflexivity.
  - apply (nonempty_in "camera"). vm_compute. reflexivity.
  - vm_compute. intros [=].
  - intros l Hl. repeat (apply elem_of_cons in Hl as [->|Hl]; [vm_compute; reflexivity|]). by apply not_elem_of_nil in Hl.
  - vm_compute. repeat split; left; intros [=].
  - reflexivity.
  - split; [apply Ha; vm_compute; split; reflexivity|]. apply Hr; [repeat split; vm_compute; reflexivity|vm_compute; reflexivity|vm_compute; reflexivity].
Defined.

Lemma inactive_clear_is_honest_witness :
  (∃ l, l ∈ [seen_at required_config recovering 0] ∧
     (reading (le_require_active (configure_expectation required_config)) "/camera" (el_ctx l) = Some kActive ∨
      unmeasured_reported "/camera" l)) ∨
  unreadable_of (seen_at required_config recovering 0) ≠ ∅ ∨ not_managed_of (seen_at required_config recovering 0) ≠ ∅.
Proof.
  destruct (inactive_clear_is_honest required_config recovering (expectation_run required_config recovering).1
    (seen_at required_config recovering 0)
    [seen_at required_config recovering 1; seen_at required_config recovering 2; seen_at required_config recovering 3;
     seen_at required_config recovering 4] kNodeInactive kGraphWatchdogEntityId) as (_ & _ & Hended).
  - vm_compute. reflexivity.
  - vm_compute. intros [=].
  - vm_compute. reflexivity.
  - apply (Hended [seen_at required_config recovering 0] (seen_at required_config recovering 1)
      [seen_at required_config recovering 2; seen_at required_config recovering 3; seen_at required_config recovering 4] "/camera").
    + reflexivity.
    + eexists. vm_compute. reflexivity.
Defined.

Lemma expectation_state_is_well_formed_witness :
  report_ok (expectation_run required_config (take 1 recovering)).1.(le_tracker) (seen_at required_config (take 1 recovering) 0) ∧
  lt_tracked_node_cap (le_tracker (expectation_run required_config (take 1 recovering)).1) = kDefaultTrackedNodeCap.
Proof.
  destruct (expectation_state_is_well_formed required_config (take 1 recovering) (expectation_run required_config (take 1 recovering)).1
    (seen_at required_config (take 1 recovering) 0) []) as (_ & Hr & Hc).
  - vm_compute. reflexivity.
  - apply (nonempty_in "camera"). vm_compute. reflexivity.
  - vm_compute. intros [=].
  - split; [exact Hr|]. rewrite Hc. reflexivity.
Defined.

(** ** Runs that go wrong *)

Definition capped_config : config_value :=
  CObj [("miss_grace", CInt 1); ("tick_interval_ms", CInt 3000); ("prune_grace", CInt 5); ("tracked_node_cap", CInt 1);
        ("suppress", CArr [CStr "allowlist"]); ("allowlist", CArr [CStr "/a"; CStr "/b"])].

Definition both_run : list App := [plain_app "a" "/a"; plain_app "b" "/b"; plain_app "listener" "/listener"].

Definition silent (apps : list App) : DetectorContext :=
  mkContext (Some (gate_update calm_io talker_runs 1 (new_gate 0 10))) Raise true true apps None.

(** The cap is enforced before the report is filtered: two nodes that the
    allowlist silences mature on the same sweep, are folded into the count, which
    no suppressor can hide, and a FAILED is sent for them that never clears.  The
    folded nodes were never named. *)
Lemma collapsing_reports_silenced_nodes :
  let '(d, h) := run (configure capped_config new_detector)
                   (silent <$> [both_run; talker_gone; talker_gone; both_run]) in
  lg_request <$> h =
    [Some (EVENT_FAILED kNodeDisappeared kNodeDeathSeverity
             "and 2 more node(s) disappeared; not named individually (tracked_key_cap is full)" "graph_watchdog");
     Some (EVENT_FAILED kNodeDisappeared kNodeDeathSeverity
             "and 2 more node(s) disappeared; not named individually (tracked_key_cap is full)" "graph_watchdog");
     None; None] ∧
  Forall (λ l, lg_dead l !! "/a" = None ∧ lg_dead l !! "/b" = None) h.
Proof. vm_compute. split; [reflexivity|]. repeat constructor. Qed.

(** Reading the entity snapshot throws on three ticks while the node runs: the
    detectors see no apps then, and the node is reported missing. *)
Definition unread (ready : bool) : TurnInput := mkTurn [] calm_io None ready.

Lemma unread_snapshots_are_deaths :
  let config := CObj [("tick_interval_ms", CInt 3000); ("warmup_cycles", CInt 0)] in
  let outputs := (turns config [a_turn [] talker_gone; unread true; unread true; unread true]).2 in
  to_death <$> outputs =
    [Some (EVENT_FAILED kNodeDisappeared kNodeDeathSeverity "node /listener disappeared (3 missed cycles)" "graph_watchdog");
     None; None; None].
Proof. vm_compute. reflexivity. Qed.

(** A returning node is collapsed as departed on the tick it is back, if a
    newcomer that sorts before it needs its slot: it is counted among the nodes
    that left the graph, the count never falls, and GRAPH_NODE_INACTIVE stays
    failed although every required node reads active. *)
Definition one_slot : config_value :=
  CObj [("require_active", CArr [CStr "arm"; CStr "camera"]); ("grace", CInt 1); ("tracked_node_cap", CInt 1)].

Definition arm_and_camera : list App := [managed_app "arm" "/arm"; managed_app "camera" "/camera"].

Definition all_active : DetectorContext := seen_as "active" arm_and_camera.

Lemma returning_node_is_collapsed :
  let required := le_require_active (configure_expectation one_slot) in
  let gone := seen_as "active" talker_gone in
  let h := (expectation_run one_slot
              ([seen_as "inactive" [managed_app "camera" "/camera"]; seen_as "inactive" [managed_app "camera" "/camera"]] ++
               replicate 4 gone ++ replicate 3 all_active)).2 in
  (λ l, (reading required "/arm" (el_ctx l), reading required "/camera" (el_ctx l), er_inactive (el_requests l))) <$> take 3 h =
  replicate 3 (Some kActive, Some kActive, Some (EVENT_FAILED kNodeInactive kConfirmedInactiveSeverity
    "and 1 more required node(s) left the graph not active; not named individually (tracked_node_cap is full)" "graph_watchdog")).
Proof. vm_compute. reflexivity. Qed.
