(* ===== verification/GatewayWitnesses.v ===== *)
(** * Witnesses: the gateway *)

From S2P Require Import Prelude FlatHashMap FlatHashMapSpec SlotStore SlotStoreSpec EntityCache EntityCacheSpec LockManager.
From S2P Require Import LockSpec LocalFilter.

(** ** Hash table *)

(** [FlatHashMap<std::string, std::vector<uint32_t>>] with a hash that makes
    every key collide. *)
#[local] Instance vector_traits : FlatTraits string (list Z) :=
  {| hash_of := λ _, 5%N; default_key := ""; default_value := []; flat_reset_value := λ _, [] |}.

Lemma empty_map_ok : map_ok (empty_flat : FlatHashMap string (list Z)).
Proof. constructor; [by right|done|done]. Qed.

(** Two colliding keys, the first one erased: a tombstone and an entry. *)
Definition demo_flat : FlatHashMap string (list Z) :=
  default empty_flat
    (m1 ← insert_or_assign "a" [1%Z] empty_flat; m2 ← insert_or_assign "b" [2%Z] m1.2;
     Some (erase "a" m2.2).2).

Lemma demo_flat_ok : map_ok demo_flat.
Proof.
  unfold demo_flat.
  destruct (insert_with_total "a" (λ _, [1%Z]) (λ _, [1%Z]) empty_flat empty_map_ok)
    as ([[i1 b1] m1] & E1 & Hm1 & _); [done|].
  unfold insert_or_assign at 2. rewrite E1. simpl.
  assert (Hs : small m1 8).
  { vm_compute in E1. injection E1 as _ _ <-. vm_compute. discriminate. }
  destruct (insert_with_total "b" (λ _, [2%Z]) (λ _, [2%Z]) m1 Hm1 Hs)
    as ([[i2 b2] m2] & E2 & Hm2 & _).
  unfold insert_or_assign. rewrite E2. simpl. unfold erase.
  pose proof (find_idx_spec "a" m2 Hm2) as Hf. destruct (find_idx "a" m2) as [i|]; [|done].
  destruct Hf as (e & Hi & Ho & _). by apply (erase_entry_ok m2 i e).
Qed.

Lemma flat_insert_refines_witness :
  ∃ b m', insert_or_assign "c" [3%Z] demo_flat = Some (b, m') ∧ map_ok m' ∧
    contents m' = <["c" := [3%Z]]> (contents demo_flat) ∧ size_ m' = size (contents m').
Proof.
  destruct (flat_insert_refines "c" [3%Z] demo_flat demo_flat_ok) as (b & m' & H1 & H2 & _ & H3).
  - vm_compute. discriminate.
  - exists b, m'. split; [exact H1|]. split; [exact H2|exact H3].
Defined.

Lemma flat_get_or_create_refines_witness :
  ∃ i m', get_or_create "a" demo_flat = Some (i, m') ∧ map_ok m' ∧
    ref_get i m' = Some (default default_value (contents demo_flat !! "a")) ∧
    contents m' = <["a" := default default_value (contents demo_flat !! "a")]> (contents demo_flat).
Proof.
  apply (flat_get_or_create_refines "a" demo_flat demo_flat_ok).
  - vm_compute. discriminate.
  - reflexivity.
Defined.

Lemma flat_find_refines_witness : find "b" demo_flat = contents demo_flat !! "b".
Proof. apply (flat_find_refines "b" demo_flat demo_flat_ok). Defined.

Lemma flat_erase_refines_witness :
  let '(b, m') := erase "b" demo_flat in
  b = bool_decide (is_Some (contents demo_flat !! "b")) ∧ map_ok m' ∧
  contents m' = delete "b" (contents demo_flat) ∧
  map_ok (FlatHashMap.reset demo_flat) ∧ contents (FlatHashMap.reset demo_flat) = ∅.
Proof. apply (flat_erase_refines "b" demo_flat demo_flat_ok). Defined.

(** ** Reconciliation *)

#[local] Instance unit_inhabited : Inhabited unit := populate tt.

Definition demo_area (id parent : string) : Area unit := mkArea id parent tt.

Lemma reconcile_refines_witness :
  ∃ r, reconcile [demo_area "a" ""; demo_area "b" "a"] empty_store ∅ [] = Some r ∧
    store_ok (r_store r) (r_index r) ∧
    view (r_store r) (r_index r) = by_id [demo_area "a" ""; demo_area "b" "a"] ∅ ∧
    (r_changed r = false → r_store r = empty_store ∧ r_index r = ∅) ∧
    (NoDup (entity_id <$> [demo_area "a" ""; demo_area "b" "a"]) → r_changed r = true →
       view (r_store r) (r_index r) ≠ view empty_store ∅).
Proof.
  apply (reconcile_refines [demo_area "a" ""; demo_area "b" "a"] empty_store ∅ []).
  apply empty_store_ok.
Defined.

(** ** Locks *)

Definition demo_lock_config : LockConfig :=
  mkLockConfig true 3600 30 ∅ {[ "robot" := mkEntityLockConfig ["faults"] false 60 ]}.

Definition demo_cache : EntityCache unit :=
  default empty_cache
    (update_all [demo_area "plant" ""] [mkComponent "robot" "plant" "" [] [] tt]
       [mkApp "driver" "robot" [] [] [] tt] [] ∅ 0 empty_cache).

(** "alice" holds an unbreakable lock on "robot" for 60 s from time 0. *)
Definition demo_locks : LockManager :=
  (acquire demo_cache "robot" "alice" ["data"] 60 false 0 0 (new_lock_manager demo_lock_config)).2.

Definition demo_lock : LockInfo :=
  mkLock "lock_1" "robot" "alice" ["data"] false 0 (seconds 60) 60.

Definition mallory : list (EntityCache unit * lock_op) :=
  [(demo_cache, Acquire "robot" "mallory" [] 60 true 5 6); (demo_cache, Release "robot" "mallory");
   (demo_cache, Extend "robot" "mallory" 60 7); (demo_cache, Cleanup 8)].

Lemma unbreakable_lock_is_exclusive_witness :
  get_lock "robot" (foldl lock_step demo_locks mallory) = Some demo_lock.
Proof.
  apply (unbreakable_lock_is_exclusive demo_locks mallory "robot" demo_lock).
  - vm_compute. reflexivity.
  - reflexivity.
  - repeat constructor; simpl; try (vm_compute; reflexivity); intros [_ H]; discriminate H.
Defined.

Lemma check_access_spec_witness :
  ar_allowed (check_access demo_cache "driver" "bob" "data" 1 1 demo_locks) = true ↔
    ("data" ∈ required_scopes (entity_config demo_cache "driver" demo_locks) →
       ∃ l, get_lock "driver" demo_locks = Some l ∧ lk_client_id l = "bob" ∧
         (1 < lk_expires_at l)%Z) ∧
    (∀ id l, guarded_by demo_cache "driver" id → get_lock id demo_locks = Some l →
       (1 < lk_expires_at l)%Z → lk_client_id l ≠ "bob" →
       lk_scopes l ≠ [] ∧ "data" ∉ lk_scopes l).
Proof.
  apply (check_access_spec demo_cache "driver" "bob" "data" 1 1 demo_locks).
  vm_compute. reflexivity.
Defined.

Lemma lock_tables_agree_witness :
  let m := foldl lock_step (new_lock_manager demo_lock_config) mallory in
  (∀ e l, get_lock e m = Some l → lk_entity_id l = e ∧ get_lock_by_id (lk_lock_id l) m = Some l) ∧
  (∀ id l, get_lock_by_id id m = Some l → lk_lock_id l = id ∧ get_lock (lk_entity_id l) m = Some l).
Proof. apply (lock_tables_agree demo_lock_config mallory). vm_compute. reflexivity. Defined.

(** ** Local filter *)

Definition demo_filter_config : FilterConfig := mkFilterConfig true 3 (f64_of_Z 10) 2.

Definition demo_events : list filter_event :=
  [Failed "F" 1 (seconds 1); Passed "F" (seconds 2); Failed "G" 1 (seconds 3);
   Failed "F" 1 (seconds 4)].

Lemma forward_iff_window_count_witness :
  (should_forward "F" 1 (seconds 12) (foldl filter_step (new_filter demo_filter_config) demo_events)).1 =
  bool_decide (3 ≤ Z.of_nat (S (length (filter
    (λ t, (seconds 12 - window_ns (LocalFilter.validate_config demo_filter_config) ≤ t)%Z)
    (history (LocalFilter.validate_config demo_filter_config) "F" demo_events)))))%Z.
Proof.
  apply (forward_iff_window_count demo_filter_config "F" 1 (seconds 12) demo_events).
  - reflexivity.
  - reflexivity.
  - repeat constructor; vm_compute; discriminate.
  - vm_compute. discriminate.
Defined.

From stdpp Require Import relations.
From S2P Require Import Prelude Json DataPointSuggest FaultTriggers FaultTriggersSpec UpdateManager UpdateManagerSpec.

(** ** Trigger engine *)

(** A text form that keeps the document. *)
#[local] Instance json_as_text : JsonText json := { dump := id; parse := Some; parse_dump := λ _ _, eq_refl }.

Definition show_double (d : double) : string := pretty (f64_trunc d).

Definition hot_rule_body : json :=
  JObj [("data_name", JStr "temp"); ("fault_code", JStr "HOT"); ("operator", JStr ">");
        ("severity", JStr "ERROR"); ("threshold", JNum (f64_of_Z 90))].

(** One rule, and a poll that reads 95. *)
Definition hot_created : FaultTriggerEngine :=
  (create true true None None "oven" hot_rule_body (new_trigger_engine true None)).2.

Definition hot_work : list FaultTriggers.Pending :=
  alter (with_value (Some (f64_of_Z 95))) 0 (snapshot (λ _ _, None) hot_created).

Definition hot_dispatch : list FaultTriggers.Pending * FaultTriggerEngine := dispatch_all show_double hot_work hot_created.

Definition hot_engine : FaultTriggerEngine := fold_back true true hot_dispatch.1 hot_dispatch.2.

Lemma hot_reachable :
  rtc (trigger_step show_double true true) (new_trigger_engine true None, Idle) (hot_engine, Idle).
Proof.
  eapply rtc_l. { apply (step_create _ _ _ None None "oven" hot_rule_body); by vm_compute. }
  eapply rtc_l. { apply step_snapshot. }
  eapply rtc_l. { apply (step_fetch _ _ _ 0 (Some (f64_of_Z 95))). }
  eapply rtc_l. { apply step_begin. }
  eapply rtc_l. { apply step_dispatch. }
  eapply rtc_l. { apply step_fold. }
  apply rtc_refl.
Qed.

Lemma asserted_faults_are_latched_rules_witness :
  asserted (te_calls hot_engine) = {["HOT"]}.
Proof.
  rewrite (proj1 (asserted_faults_are_latched_rules show_double true true hot_engine Idle
    hot_reachable ltac:(done))).
  by vm_compute.
Defined.

Lemma restart_restores_rules_witness :
  ft_crossed <$> te_rules (new_trigger_engine true (te_file hot_engine)) = [true] ∧
  rule_id 2 ∉ ft_id <$> te_rules hot_engine.
Proof.
  destruct (restart_restores_rules show_double true true hot_engine Idle hot_reachable eq_refl eq_refl)
    as [Hr Hid].
  split; [by rewrite Hr; vm_compute|]. apply Hid. by vm_compute.
Defined.

(** ** Updates *)

(** Registered, prepared, and now executing. *)
Definition up1 : UpdateManager := (register_update "fw" None (new_update_manager true)).2.
Definition up2 : UpdateManager := (start_prepare "fw" None up1).2.
Definition up3 : UpdateManager := task_begin 0 (mkTask RunPrepare "fw" None TStart) up2.
Definition up4 : UpdateManager := task_return 0 (mkTask RunPrepare "fw" (Some 0) TPreparing) None up3.
Definition up5 : UpdateManager := task_section 0 (mkTask RunPrepare "fw" (Some 0) (TPrepareReturned None)) up4.
Definition up6 : UpdateManager :=
  task_end 0 (mkTask RunPrepare "fw" (Some 0) (TNotify (mkStatus Completed PhPrepared None None None))) up5.
Definition up7 : UpdateManager := (start_execute "fw" None up6).2.
Definition update_run : UpdateManager := task_begin 1 (mkTask RunExecute "fw" None TStart) up7.

Lemma update_run_reachable :
  rtc (update_step true) (new_update_manager true, []) (update_run, []).
Proof.
  apply (rtc_l _ _ (up1, [])); [by apply step_register|].
  apply (rtc_l _ _ (up2, [])); [by apply step_start_prepare|].
  apply (rtc_l _ _ (up3, [])); [by apply step_task_begin; vm_compute|].
  apply (rtc_l _ _ (up4, [])); [by apply step_task_return; vm_compute|].
  apply (rtc_l _ _ (up5, [])); [by apply step_task_section; vm_compute|].
  apply (rtc_l _ _ (up6, [])); [by eapply step_task_end; vm_compute|].
  apply (rtc_l _ _ (up7, [])); [by apply step_start_execute; vm_compute|].
  apply (rtc_l _ _ (update_run, [])); [by apply step_task_begin; vm_compute|].
  apply rtc_refl.
Qed.

Lemma update_protocol_witness :
  um_events update_run = [PrepareBegin "fw"; PrepareEnd "fw" true; ExecuteBegin "fw"] ∧
  is_Some (life_of "fw" (um_events update_run)) ∧ um_holder update_run = None.
Proof.
  destruct (update_protocol true update_run [] update_run_reachable) as (Hl & _ & Hh).
  split; [by vm_compute|]. split; [apply Hl|exact Hh].
Defined.

From stdpp Require Import relations.
From S2P Require Import Prelude AssetIdentity Classification EntityMerger EntityMergerSpec.
From S2P Require Import LruCache AuthPaths AuthManager AuthSpec.

(** Closed decidable propositions. *)
Ltac by_decision := refine (bool_decide_eq_true_1 _ _); vm_compute; reflexivity.

(** ** Nameplates *)

Definition named (maker serial : string) : AssetIdentity := mkIdentity maker "" "" serial "" "" "" "" "" ∅ ∅.

(** A peer passes on what its manifest says. *)
Definition relayed : AssetIdentity := with_provenance {[ "manufacturer" := "manifest" ]} (named "ACME" "").
Definition ranking : list string := ["manifest"; "plugin"; "peer"; "inferred"].
Definition nameplates : list (string * AssetIdentity) :=
  [("inferred", named "guess" ""); ("peer", relayed); ("plugin", named "other" "7")].


(** ** Component routing *)

(** A gripper under a robot, and two components that name each other. *)
Definition parts : list MergedComponent :=
  [mkMerged "robot" ""; mkMerged "gripper" "robot"; mkMerged "a" "b"; mkMerged "b" "a"].

Definition parts_order : list string := ["b"; "gripper"; "a"].

Lemma parts_ids : NoDup (mc_id <$> parts).
Proof. by_decision. Qed.

Lemma parts_walk : walk_of parts_order parts.
Proof.
  apply NoDup_Permutation; [by_decision..|].
  intros x. replace (map_to_list (declared_parents parts).1).*1 with ["gripper"; "a"; "b"]; [set_solver|].
  by vm_compute.
Qed.

Lemma resolve_valid_parents_spec_witness :
  ∃ vp ws, resolve_valid_parents parts_order parts = Some (vp, ws) ∧ ∀ id, ¬ tc (edge vp) id id.
Proof.
  destruct (resolve_valid_parents_spec parts_order parts parts_ids parts_walk) as (vp & ws & Hr & _ & Hc).
  exists vp, ws. exact (conj Hr Hc).
Defined.

Definition two_claims : list PeerClaim :=
  [mkClaim "east" {["robot"; "gripper"]}; mkClaim "west" {["gripper"]}].

Lemma classify_routes_leaves_witness :
  ∃ r, classify_component_routing parts_order parts two_claims = Some r ∧
    cr_routing_table r = {["gripper" := "west"]} ∧
    ∀ w, w ∈ cr_leaf_warnings r → 2 ≤ length (claimants two_claims (lw_entity_id w)).
Proof.
  destruct (classify_routes_leaves parts_order parts two_claims parts_ids parts_walk) as (r & Hr & _ & _ & Hw).
  exists r. split; [exact Hr|]. split.
  - vm_compute in Hr. injection Hr as <-. by vm_compute.
  - intros w H. apply Hw in H as (_ & H & _). exact H.
Defined.

(** ** Merging *)

Definition part (id serial : string) (tags : list string) : Component unit :=
  mkComponent id "" tags "" "manifest" [] (named "" serial) tt.

Definition app (id : string) : App unit := mkApp id id "manifest" "" [] tt.

Lemma merged_components_spec_witness :
  co_id <$> (merge_components "east" [part "arm" "" ["x"]] [part "arm" "7" ["y"]; part "lift" "" []] ∅).1 =
    ["arm"; "lift"] ∧
  (merge_components "east" [part "arm" "" ["x"]] [part "arm" "7" ["y"]; part "lift" "" []] ∅).2 !! "arm" = Some "east".
Proof.
  assert (NoDup (co_id <$> [part "arm" "" ["x"]])) as Hl by by_decision.
  assert (NoDup (co_id <$> [part "arm" "7" ["y"]; part "lift" "" []])) as Hr
    by by_decision.
  pose proof (merged_components_spec "east" _ _ ∅ Hl Hr) as H.
  destruct (merge_components _ _ _ _) as [res rt]. destruct H as (Hids & _ & _ & Hrt).
  cbn [fst snd]. rewrite Hids, Hrt. by vm_compute.
Defined.

Lemma merged_apps_spec_witness :
  ap_id <$> (merge_apps "east" [app "nav"; app "map"] [app "nav"] ∅).1 = ["nav"; "map"; "east__nav"] ∧
  (merge_apps "east" [app "nav"; app "map"] [app "nav"] ∅).2 !! "nav" = None.
Proof.
  assert (NoDup (ap_id <$> [app "nav"; app "map"])) as Hl by by_decision.
  assert (NoDup (ap_id <$> [app "nav"])) as Hr by by_decision.
  assert (prefixes_free "east" [app "nav"; app "map"] [app "nav"]) as Hp.
  { intros id ->%list_elem_of_singleton _. split; by_decision. }
  pose proof (merged_apps_spec "east" _ _ ∅ Hl Hr Hp) as H.
  destruct (merge_apps _ _ _ _) as [res rt]. destruct H as (_ & Hids & _ & _ & Hlocal).
  cbn [fst snd]. rewrite Hids. split; [by vm_compute|]. rewrite Hlocal; [done|].
  by_decision.
Defined.

Definition here : Merged unit := mkMergedEntities [] [] [app "nav"] [] ∅.
Definition east : PeerEntities unit := mkPeer "east" [] [] [app "nav"; app "cam"] [].

Lemma host_remap_exact_witness :
  default "nav" (app_id_remap ["east__nav"; "cam"] !! "nav") = final_id "east" (mg_apps here) "nav".
Proof.
  assert (["east__nav"; "cam"] ≡ₚ (map_to_list (routes_before_functions here east)).*1) as Hperm.
  { apply NoDup_Permutation; [by_decision..|].
    intros x. replace (map_to_list (routes_before_functions here east)).*1 with ["cam"; "east__nav"]; [set_solver|].
    by vm_compute. }
  rewrite (host_remap_exact here east ["east__nav"; "cam"] "nav"); try done; try constructor.
  intros id Hid. cbn in Hid. apply elem_of_cons in Hid as [->|Hid]; [done|].
  by apply list_elem_of_singleton in Hid as ->.
Defined.

(** ** Cache *)

Lemma lru_refines_recency_witness :
  (run lru_op_run [OpPut "a" 1; OpPut "b" 2; OpFind "a"; OpPut "c" 3; OpFind "b"] (new_lru 2)).1 =
    [None; None; Some 1; None; None].
Proof.
  rewrite (proj1 (lru_refines_recency 2 [OpPut "a" 1; OpPut "b" 2; OpFind "a"; OpPut "c" 3; OpFind "b"]
    ltac:(by vm_compute))).
  by vm_compute.
Defined.

(** ** Access control *)

Lemma plain_laws : JwtLaws (token := string * DecodedJwt).
Proof.
  split; [done|]. intros config now d iat exp Hiss Hiat Hexp Hle Hge. cbn.
  rewrite str_eqb_refl, Hiss, Hiat, Hexp. cbn. rewrite str_eqb_refl. cbn.
  by rewrite (proj2 (Z.ltb_ge _ _)), (proj2 (Z.ltb_ge _ _)).
Qed.

(** Operators may reset faults. *)
Definition plant : AuthManager :=
  add_route_permissions {[OPERATOR := {["DELETE:/api/v1/*/faults"]}]} (new_auth_manager lapse_config).

Definition plant_login := authenticate (token := string * DecodedJwt) 0 "r" "a" "u" "s" plant.

Definition plant_access : string * DecodedJwt := generate_jwt lapse_config (access_claims plant 0 "u" "a" "r" OPERATOR).

Definition plant_response : TokenResponse :=
  mkResponse plant_access 3600
    (generate_jwt lapse_config (mkClaims "gw" "u" 86400 0 "r" REFRESH OPERATOR [] None)) OPERATOR.

Lemma request_gate_exact_witness :
  process (λ _, plant_access) 5 plant_login.2 "DELETE" "/api/v1/arm/faults" (Some "Bearer x") = Allowed ∧
  ∃ c, acceptable 5 plant_login.2 plant_access c ∧ role_may plant_login.2 (jc_role c) "DELETE" "/api/v1/arm/faults".
Proof.
  assert (process (λ _, plant_access) 5 plant_login.2 "DELETE" "/api/v1/arm/faults" (Some "Bearer x") = Allowed)
    as Hp by (by vm_compute).
  split; [exact Hp|].
  pose proof (proj1 (request_gate_exact (λ _, plant_access) 5 plant_login.2 "DELETE" "/api/v1/arm/faults"
    (Some "Bearer x") eq_refl eq_refl) Hp) as [Hn|(h & text & c & _ & _ & Hacc & Hmay)].
  - by vm_compute in Hn.
  - exists c. exact (conj Hacc Hmay).
Defined.

Lemma login_grants_role_witness :
  process (λ _, plant_access) 5 plant_login.2 "DELETE" "/api/v1/arm/faults" (Some "Bearer x") = Allowed.
Proof.
  pose proof plain_laws as Hlaws.
  apply (login_grants_role (λ _, plant_access) 0 5 "r" "a" "u" "s" plant plant_response plant_login.2
    (mkClient "u" "s" OPERATOR true) "DELETE" "/api/v1/arm/faults" "x"
    eq_refl eq_refl eq_refl eq_refl ltac:(discriminate) eq_refl ltac:(lia) ltac:(by vm_compute)).
  right. exists {["DELETE:/api/v1/*/faults"]}, "/api/v1/*/faults". refine (conj eq_refl (conj _ _)).
  - by apply elem_of_singleton.
  - apply matches_path_spec. by vm_compute.
Defined.

(** The session is revoked, then the table is cleaned up twice. *)
Definition plant_refresh : string * DecodedJwt :=
  generate_jwt lapse_config (mkClaims "gw" "u" 86400 0 "r" REFRESH OPERATOR [] None).

Definition plant_revoked : AuthManager := (revoke_refresh_token 7 plant_refresh plant_login.2).2.

Lemma revocation_is_final_witness :
  ¬ acceptable 9 (cleanup_expired_tokens 9 plant_revoked).2 plant_access (access_claims plant 0 "u" "a" "r" OPERATOR).
Proof.
  assert (∃ record, am_refresh_tokens plant_revoked !! "r" = Some record ∧ rr_revoked record = true ∧
    rr_expires_at record = 86400%Z) as (record & Hr & Hrev & Hexp) by (eexists; by vm_compute).
  refine (revocation_is_final 7 plant_revoked 9 (cleanup_expired_tokens 9 plant_revoked).2 "r" record
    plant_access (access_claims plant 0 "u" "a" "r" OPERATOR) Hr Hrev _ eq_refl _).
  - apply (rtc_l _ _ (9%Z, plant_revoked)); [by apply step_tick|]. apply rtc_once, step_cleanup.
  - by rewrite Hexp.
Defined.

From stdpp Require Import relations.
From S2P Require Import Prelude Json TriggerConditions FaultTriggers TriggerManager TriggerManagerSpec TriggerDispatchSpec.

(** ** Scripts *)

Inductive action :=
  | ACreate (r : TriggerCreateRequest)
  | AChange (c : ResourceChange)
  | AWork
  | AOpen (id : string)
  | AStream (k : nat)
  | AWake (k : nat).

Definition no_pointer (_ : string) (_ : json) : option json := None.
Definition at_time : Z := 1773916200250000000.

Definition script_step := sys_step builtin_conditions false true false no_pointer elements.
Definition script_work := work builtin_conditions true false no_pointer at_time true true None.

Definition perform (s : System) (x : action) : System :=
  match x with
  | ACreate r =>
      let '(result, m) := create_begin builtin_conditions at_time None true r (sy_manager s) in
      add_request (pending_create false r result) (to_manager m s)
  | AChange c =>
      match sy_worker s with
      | WIdle => to_worker (if tm_shutdown (sy_manager s) then WIdle
                            else WLoop c (candidates elements c (sy_manager s)) []) s
      | _ => script_work s
      end
  | AWork => script_work s
  | AOpen id => to_streams (sy_streams s ++ [mkStream id SStart []]) s
  | AStream k =>
      match sy_streams s !! k with Some st => stream_next at_time true k st s | None => script_work s end
  | AWake k =>
      match sy_streams s !! k with
      | Some st =>
          match sm_pc st with
          | SWaiting a =>
              move_stream k (SWoken (from_option (event_ready (sy_manager s)) true (tm_heap (sy_manager s) !! a))) s
          | _ => script_work s
          end
      | None => script_work s
      end
  end.

Lemma perform_step s x : script_step s (perform s x).
Proof.
  destruct x as [r|c| |id|k|k]; cbn [perform]; try apply step_work.
  - destruct (create_begin _ _ _ _ _ _) as [result m] eqn:Hc. by eapply step_create.
  - destruct (sy_worker s) eqn:Hw; try apply step_work. by apply step_change.
  - apply step_open.
  - destruct (sy_streams s !! k) as [st|] eqn:Hk; [by apply step_stream|apply step_work].
  - destruct (sy_streams s !! k) as [st|] eqn:Hk; [|apply step_work].
    destruct (sm_pc st) eqn:Hp; try apply step_work. by eapply step_wake.
Qed.

Lemma perform_steps script s : nsteps script_step (length script) s (foldl perform s script).
Proof.
  revert s. induction script as [|x script IH]; intros s; cbn [foldl length]; [constructor|].
  econstructor; [apply perform_step|apply IH].
Qed.

Definition script_start : System :=
  new_system (restarted false (mkTriggerConfig 100 "reset") (mkStore ∅ ∅) (λ _, true) 0 0 (λ _, true) (λ _, None) (inr [])).

Lemma script_run script :
  (1 + N.of_nat (length script) < two64)%N →
  trigger_run builtin_conditions false true false no_pointer elements 1 (length script) (foldl perform script_start script).
Proof.
  intros Hn. split; [done|]. split; [done|].
  exists (mkTriggerConfig 100 "reset"), (mkStore ∅ ∅), (λ _, true), 0%Z, 0%Z, (λ _, true), (λ _, None), (inr []). split.
  - split; [apply NoDup_nil_2|apply Forall_nil_2].
  - apply perform_steps.
Qed.

Lemma elements_walk (X : gset string) : elements X ≡ₚ elements X.
Proof. done. Qed.

(** ** Runs *)

Definition on_faults (multishot : bool) : TriggerCreateRequest :=
  mkRequest "ecu" "apps" "/apps/ecu/faults" "faults" "" "" "" "OnChange" (JObj []) "sse" multishot false None None.

Definition fault_change : ResourceChange := mkChange "faults" "ecu" "F1" (JStr "CONFIRMED").

(** A stream waits for the trigger; a change fires it; the stream wakes. *)
Definition fault_script (multishot : bool) : list action :=
  [ACreate (on_faults multishot); AOpen "trig_1"; AStream 0; AStream 0; AStream 0; AChange fault_change; AWork; AWork;
   AWake 0; AStream 0; AStream 0; AStream 0; AStream 0; AStream 0].

Definition fault_run (multishot : bool) : System := foldl perform script_start (fault_script multishot).
Definition fault_event : json := envelope at_time (JStr "CONFIRMED").

Lemma one_shot_never_delivers_witness :
  sy_fired (fault_run false) = [(0, fault_event)] ∧
  ∃ st, sy_streams (fault_run false) = [st] ∧ sm_pc st = SClosed ∧ sm_sent st = [].
Proof.
  assert (∃ st t, sy_streams (fault_run false) = [st] ∧ sm_pc st = SClosed ∧
    tm_shutdown (sy_manager (fault_run false)) = false ∧ tm_heap (sy_manager (fault_run false)) !! 0 = Some t ∧
    ti_id (ts_info t) = sm_id st ∧ ti_multishot (ts_info t) = false) as (st & t & Hst & Hpc & Hsd & Ha & Hid & Hm).
  { eexists _, _. split_and!; by vm_compute. }
  split; [by vm_compute|]. exists st. split_and!; [done|done|].
  eapply (one_shot_never_delivers builtin_conditions false true false no_pointer elements 1 _ (fault_run false) st 0 t);
    [apply script_run; by vm_compute| |done..].
  rewrite Hst. by left.
Defined.

Lemma events_in_order_witness :
  sm_sent <$> sy_streams (fault_run true) = [[fault_event]] ∧
  events_at 0 (sy_taken (fault_run true)) = events_at 0 (sy_fired (fault_run true)).
Proof.
  assert (∃ t, tm_heap (sy_manager (fault_run true)) !! 0 = Some t ∧ ts_pending t = []) as (t & Ha & Hp).
  { eexists. split; by vm_compute. }
  split; [by vm_compute|].
  destruct (events_in_order builtin_conditions false true false no_pointer elements 1 _ (fault_run true) 0 t
    (script_run (fault_script true) eq_refl) Ha) as [_ (out & Hf & _ & Hall)].
  rewrite Hall, Hf, Hp by (vm_compute; lia). by rewrite app_nil_r.
Defined.

Lemma dispatch_index_exact_witness :
  "trig_1" ∈ default ∅ (tm_index (sy_manager (fault_run true)) !! dispatch_key "faults" "ecu").
Proof.
  destruct (dispatch_index_exact builtin_conditions false true false no_pointer elements 1 _ (fault_run true)
    (script_run (fault_script true) eq_refl)) as (_ & _ & Hix).
  apply Hix. eexists. split; [by vm_compute|]. by left.
Defined.

Definition one_shot_state : TriggerState :=
  mkTrigger (info_of_request at_time "trig_1" (on_faults false)) None true true [] 0.

(** The one-shot fires on the change, with the event on its queue, and leaves the
    table. *)
Lemma change_settles_triggers_witness :
  let s := foldl perform script_start [ACreate (on_faults false)] in
  ∃ s', worker_runs builtin_conditions true false no_pointer at_time true true None
      (to_worker (WLoop fault_change (candidates elements fault_change (sy_manager s)) []) s) s' ∧
    sy_worker s' = WIdle ∧ tm_triggers (sy_manager s') !! "trig_1" = None ∧
    ∃ t', tm_heap (sy_manager s') !! 0 = Some t' ∧ ts_pending t' = [fault_event] ∧
      ts_previous t' = Some (JStr "CONFIRMED") ∧ ts_active t' = false.
Proof.
  cbv zeta. set (s := foldl _ _ _).
  assert (tm_heap (sy_manager s) = [one_shot_state] ∧ tm_triggers (sy_manager s) !! "trig_1" = Some 0 ∧
    concerned fault_change (sy_manager s) 0 one_shot_state = true) as (Hh & Ht & Hc).
  { repeat split; vm_compute; reflexivity. }
  assert (judged builtin_conditions no_pointer at_time None fault_change one_shot_state (JStr "CONFIRMED") true) as Hj.
  { split_and!; [done|by intros (e & ? & _)|by split; left|by left|]. exists OnChange. by vm_compute. }
  destruct (change_settles_triggers builtin_conditions false true false no_pointer elements elements_walk 1 1 s at_time
    true true None fault_change) as (s' & Hr & Hw & Hst & Htab).
  - apply (script_run [ACreate (on_faults false)]). by vm_compute.
  - done.
  - intros u. rewrite Hh. by intros ->%list_elem_of_singleton.
  - assert (over builtin_conditions no_pointer at_time None fault_change one_shot_state) as Ho
      by (right; split; [by eexists|done]).
    exists s'. split_and!; [exact Hr|exact Hw| |].
    + apply (Htab "trig_1" 0 one_shot_state Ht); [by rewrite Hh|by split].
    + destruct (Hst 0 one_shot_state) as (t' & Ha & Hs); [by rewrite Hh|]. rewrite Hc in Hs.
      exists t'. split_and!; [done|by apply Hs; eexists|by eapply Hs|by apply Hs].
Defined.

(** ** Runs that go wrong *)

Definition on_topic (persistent : bool) : TriggerCreateRequest :=
  mkRequest "ecu" "apps" "/apps/ecu/data/t" "data" "/t" "/ecu/t" "" "OnChange" (JObj []) "sse" true persistent None None.

(** A trigger is deleted between its insertion and its subscription: [create]
    then stores the handle of a trigger that is in no table, and a second
    deletion finds nothing to release. *)
Lemma late_subscription_outlives_trigger :
  let m0 := new_trigger_manager (mkTriggerConfig 100 "reset") (mkStore ∅ ∅) in
  let m1 := (create_begin builtin_conditions at_time None true (on_topic false) m0).2 in
  let m2 := remove_end true true "trig_1" 0 false (remove_begin "trig_1" m1).2 in
  let m3 := (create_subscribe true true (info_of_request at_time "trig_1" (on_topic false)) m2).2 in
  tm_triggers m3 = ∅ ∧ tm_handles m3 !! "trig_1" = Some "/ecu/t" ∧ remove_begin "trig_1" m3 = (None, m3).
Proof. vm_compute. split_and!; reflexivity. Qed.

(** A store that holds an expired trigger with its last value. *)
Definition expired_row : TriggerInfo := terminate (info_of_request 0 "trig_1" (on_topic true)).
Definition old_store : TriggerStore := mkStore {["trig_1" := expired_row]} {["trig_1" := JStr "old"]}.

(** The terminated row does not move [next_id_]: after a restart a new trigger
    gets its id, replaces its row and inherits its stored value at the next
    restart. *)
Lemma terminated_id_is_reused :
  let config := mkTriggerConfig 100 "restore" in
  let m0 := restarted true config old_store (λ _, true) at_time 0 (λ _, true) (λ _, None) (inr [expired_row]) in
  let '(result, m1) := create_begin builtin_conditions at_time None true (on_topic true) m0 in
  let info := info_of_request at_time "trig_1" (on_topic true) in
  let m2 := restarted true config (tm_store m1) (λ _, true) at_time 0 (λ _, true) (λ _, None) (inr [info]) in
  result = inr info ∧ sto_rows (tm_store m1) = {["trig_1" := info]} ∧
  ts_previous <$> trigger_at "trig_1" m2 = Some (Some (JStr "old")).
Proof. vm_compute. split_and!; reflexivity. Qed.
